(* ===== verification/_CoqProject ===== *)
-Q . S2P
Prelude.v
Integer.v
Scalar.v
Payload.v
RuntimeNumeric.v
Contracts.v
NumericProps.v
Text.v
Literal.v
LiteralGrammar.v
LiteralInteger.v
Token.v
Lexer.v
LexerProps.v
LineIndex.v
Lexical.v
Syntax.v
ParserCore.v
GrammarTypes.v
GrammarExpr.v
GrammarItems.v
ParserInv.v
GrammarInv.v
ExprInv.v
ItemsInv.v
RootInv.v
ParserCancel.v
ParserProps.v
Mir.v
TyShape.v
TySubst.v
TySubstProps.v
TyMatch.v
TyWire.v
Pass.v
MirSemantics.v
MirVerify.v
MirFold.v
SlotBits.v
Worklist.v
MirFlow.v
MirLive.v
MirLiveProps.v
MirSuspend.v
MirSafe.v
MirDead.v
MirPaths.v
MirCopies.v
MirCopiesSound.v
MirCopiesProps.v
MirRotation.v
MirRotationSound.v
MirRotationProps.v
MirOptimize.v
MirOptimizeProps.v
GcBase.v
GcTable.v
GcPage.v
GcColors.v
GcDynamic.v
GcHeap.v
GcStorage.v
GcSlots.v
GcRoots.v
GcRootsProps.v
GcMark.v
GcService.v
GcMutator.v
GcInv.v
GcMarkProps.v
GcMeasure.v
GcScanProps.v
GcSweepProps.v
GcSweepLoop.v
GcCollect.v
GcAllocProps.v
GcMutatorProps.v
GcClient.v
GcClientProps.v
GcRefinement.v
