(* ===== verification/Prelude.v ===== *)
(** * Kagari: a verification development

    Kagari is a strongly typed scripting language embedded into Rust hosts.  This
    library models the parts of its implementation (the Rust crates under
    [src/crates]) that decide what a program means and whether running it is safe, and
    proves what makes them correct.  All paths below are relative to [src/crates].

    ** The program and the files that model it

    A source text is lexed, its literals decoded and its tokens parsed into a syntax
    tree that retains every character ([kagari-syntax], [kagari-source]); the compiler lowers the checked program to a mid-level
    representation ([kagari-mir]), whose functions are verified, optimized and
    sealed with execution facts (live slots, GC roots, debugger visibility); scalar
    operators have one semantics shared by constant folding, prepared execution and the
    runtime ([kagari-types], [kagari-contract], [kagari-runtime]); objects live in a
    managed heap with an incremental mark and sweep collector ([kagari-gc]).

    - Numbers.  [Integer] is [kagari-types/src/integer.rs] and [arithmetic.rs];
      [Scalar] the scalar types, numeric methods, conversions and representations;
      [Payload] the 64-bit payload operations ([payload.rs] and its modules);
      [RuntimeNumeric] the [Value] operators of [kagari-runtime]; [Contracts] the
      operator contracts and effects of [kagari-contract]; [NumericProps] their theorems.
    - Text.  [Text] is Rust's [str] and [char], the cancellation token and the polling
      cursor as a scanning monad; [Literal], [LiteralGrammar], [LiteralInteger] are
      [kagari-source/src/literal.rs] with a declarative grammar; [Token], [Lexer],
      [LexerProps] the lexer; [Lexical] the retained token table with its trivia;
      [LineIndex] the line table and its position conversions.
    - Parser.  [Syntax] is the tree ([kagari-syntax/src/ast/]); [ParserCore] the cursor,
      limits, recovery scopes and lists of [parser/core.rs]; [GrammarTypes],
      [GrammarExpr] and [GrammarItems] the productions of [parser/grammar/] and the entry
      point [parse].  [ParserInv] has the invariant and the specification of every
      operation as instances of a class [Acts]; [GrammarInv], [ExprInv] and [ItemsInv]
      those of every production; [RootInv] the root module and the whole file;
      [ParserCancel] the same for cancellation; [ParserProps] the theorems.
    - Semantic types.  Over the type language of [Mir], [TyShape] has the shape limits of
      [kagari-types/src/ty/shape.rs] and the specification of bounded walks; [TySubst] the
      substitution, the resolution of associated outputs and instantiation
      ([ty/substitution.rs], [ty.rs]), proved in [TySubstProps]; [TyMatch] the matching of
      receivers and implementation headers ([ty/matching.rs]) and its theorem;
      [TyWire] the flat encoding ([ty/wire.rs]) with the references of the identity tables
      and its theorem.
    - Mid-level representation.  [Mir] is the data; [Pass] the budgets and failures of
      passes; [MirSemantics] a reference semantics over an abstract [Host];
      [MirVerify] the structural verifier; [MirFlow] definite initialization;
      [MirLive], [MirLiveProps] the execution facts; [MirSuspend] the suspension
      check; [MirSafe] type safety; [MirFold] constant folding; [MirDead] dead-code
      removal and compaction; [MirCopies] copy propagation ([passes/copies.rs]), proved
      with the certificate of [MirCopiesSound] in [MirCopiesProps]; [MirRotation] loop
      rotation ([passes/rotation.rs]), likewise with [MirRotationSound] and
      [MirRotationProps]; [MirPaths] the routes and the equivalence of runs they share;
      [MirOptimize] the driver of the passes and of the verifier, composed in
      [MirOptimizeProps].
      [SlotBits] and [Worklist] are the bit rows and the fixed
      point loop the analyses share.
    - Managed heap.  [GcBase] holds errors and the state monad; [GcTable] the radix
      table of identities ([table.rs]); [GcPage], [GcColors] a page, its slot bitmaps
      and mark bits ([allocation/page.rs], [marking.rs]); [GcDynamic] record layouts;
      [GcHeap] descriptors and physical storage ([descriptor.rs], [allocation.rs]);
      [GcRoots] root registrations ([root.rs]); [GcMark] publication and the mark
      queue; [GcService] the collection state machine, sweep batches, pacing and entry
      points ([heap.rs], [heap/], [sweep.rs]); [GcMutator] what a client may do
      ([access.rs], [access/], [dynamic/]).  [GcStorage], [GcSlots], [GcRootsProps],
      [GcInv] state the invariant layer by layer; [GcMarkProps], [GcMeasure],
      [GcScanProps], [GcSweepProps], [GcSweepLoop] prove that each phase keeps it;
      [GcCollect] has the theorems about collections; [GcAllocProps] and
      [GcMutatorProps] those about client operations.  [GcClient] drives the heap by
      scripts of requests and defines a store without a collector as their
      specification; [GcClientProps] and [GcRefinement] relate the two.

    ** How state and effects are written

    Fallible code answers [result] ([Ok] or [Err]).  A panic of the source (an index out
    of range, a failed [expect], a debug assertion) is a separate outcome: [None],
    [Panicked], [PfPanic] or [GcPanic], and each theorem that says "does not panic" rules
    it out.  Machine integers are [Z] with range conditions and explicit wrap-around.
    Passes and verifiers run in the monad [P] of [Pass] over a work budget and a
    cancellation token; scanners in the monad of [Text]; the parser in the state monad of
    [ParserCore], where an assertion is [Crash] and a loop without fuel [Exhausted]; the heap in the monad of
    [GcBase], where a failure keeps the state that was reached, as Rust's [?] does.  The
    heap's raw memory is a map of headers and a map of payloads: reading storage whose
    object is gone is [GcUndefined], so absence of that outcome is memory safety.

    ** What the theorems show

    - Functions of the representation that pass the verifier never read an
      uninitialized slot or an operand of the wrong representation ([MirSafe]); the
      initialization check, the execution facts and the suspension check are exact on
      the paths of the function ([MirFlow], [MirLiveProps], [MirSuspend]); constant
      folding, dead-code removal, copy propagation and loop rotation preserve runs,
      errors included ([MirFold], [MirDead], [MirCopiesProps], [MirRotationProps]), and so
      does the optimizer that runs them all and verifies the result ([MirOptimizeProps]).
    - Fixed-width operators, methods, conversions and payload codecs compute what the
      primitive types define, and prepared execution agrees with the runtime
      ([NumericProps]).
    - Literal decoders accept exactly the declared grammar and return its value; lexing
      is lossless and total; cancellation withholds a result but never changes it; the
      lexical table and the line index are exact ([LiteralGrammar], [LiteralInteger],
      [Literal], [LexerProps], [Lexical], [LineIndex]).
    - The parser ends on every source, under any limits and token, without failing an
      assertion; its root covers the whole source whatever was recovered; its diagnostics
      respect their limit and point into the source; a published tree is the one that no
      cancellation has cut short ([ParserProps]).
    - Substitution into a type is the reference substitution whenever the result fits the
      limits ([TySubstProps]); matching finds the most general assignment or shows there is
      none ([TyMatch]); an encoded type is decoded to itself ([TyWire]).
    - The identity table is a finite map with the least free identity ([GcTable]);
      layouts are packed and disjoint ([GcDynamic]); the word-parallel dead-slot search
      is exact ([GcColors]); registrations stay consistent ([GcRootsProps]); a bounded
      collector step is transparent to the client and makes progress, and a full
      collection ends and keeps exactly the reachable objects ([GcCollect]).
      Composed: under any script of client requests and collection steps the heap
      answers as a store in which no object is ever freed ([GcRefinement]).

    ** Fuel and bounds

    Loops whose recursion is not structural take fuel, and the theorems prove the fuel
    suffices.  A walk over a type gets the depth limit and the level that refuses (one more
    for the change of mode of a substitution), the encoder the node limit and two rounds, a
    search of a type one round more than it has nodes.  The lexer's main loop gets the remaining length plus one, since every
    token consumes a character.  A loop of the parser gets two rounds more than the table
    has records, since each round moves the cursor or stops the grammar; the recursion of
    the grammar passes [with_nesting], so [grammar] gets [max_nesting] entries; the
    climbing of binary operators gets one level per precedence.  The parser's table,
    module and recovery indices are unbounded numbers: the table's construction bounds
    the first, and a module or recovery takes at least one record.  The reachability walk of [MirFlow] gets one plus twice
    the number of blocks; a fixed point [(n + 1) * n * 64 * words + n] steps for [n]
    blocks, since a row changes at most once per bit; the scope chain and the suspension
    walk the number of scopes and of blocks; removals and truncation the length of what
    they walk; the walk of [MirRotation] one plus twice the number of blocks; the alias
    chains of [MirCopies] what is left of the work budget, since every round charges it.  The identity table has four levels, enough for every [u32].  A scan of
    one object gets its number of references plus one, the sweep its remaining
    allowance plus one, a service call [2 * remaining + 2].  [collect], [drain] and
    [shutdown] take fuel as an argument: [collect_exact] proves an amount exists for
    every well-formed heap, by the measure of [GcMeasure].

    ** Parameters

    IEEE-754 arithmetic is the class [FloatOps] on bit patterns, of which nothing is
    assumed.  Call contracts no pass looks into are the carriers of [CallContracts];
    operation arms of the function verifier that depend on declarations are the
    parameter [other] of [MirVerify], its checks of signatures and module tables two
    parameters of [MirOptimize], over which every theorem quantifies; instructions
    that call out are performed by a [Host], held to [HostLaws] where type safety needs
    its answers to be typed and to [HostSlots] where a pass renames operands.  Allocation of memory by the process is taken to succeed.

    ** What is not modelled, and why

    The normalization of generic bounds, inheritance and the remapping of types between
    tables, and the interning of the tables themselves; the borrowed views and the traversal
    of the syntax tree, name resolution, type
    checking and source lowering, the module and program layers of the representation, the bytecode form with its verifier, artifacts and virtual machine: each consumes the components
    modelled here and follows them in the plan.  In the managed heap, Rust-typed
    representations with provider callbacks and external root sources are left out, and
    so are clocks.  Runtime services (tasks, sessions, reloading), packages, the
    standard-library catalog, the embedding interface, developer tools and the Cranelift
    backend are input and output, data, or glue around the above. *)
From stdpp Require Export base list list_numbers strings numbers option decidable.
From Stdlib Require Export ZArith Lia.

(** ** Error results: Rust's [Result<A, E>] *)
Inductive result (A E : Type) : Type :=
| Ok (a : A)
| Err (e : E).
Arguments Ok {A E} a.
Arguments Err {A E} e.

Declare Scope kagari_scope.
Delimit Scope kagari_scope with kagari.

Definition res_bind {A B E} (m : result A E) (k : A → result B E) : result B E :=
  match m with Ok a => k a | Err e => Err e end.
Definition res_map {A B E} (f : A → B) (m : result A E) : result B E :=
  match m with Ok a => Ok (f a) | Err e => Err e end.
Definition res_map_err {A E F} (f : E → F) (m : result A E) : result A F :=
  match m with Ok a => Ok a | Err e => Err (f e) end.
Definition ok_or {A E} (o : option A) (e : E) : result A E :=
  match o with Some a => Ok a | None => Err e end.
Definition res_ok {A E} (m : result A E) : option A :=
  match m with Ok a => Some a | Err _ => None end.
Definition is_ok {A E} (m : result A E) : bool :=
  match m with Ok _ => true | Err _ => false end.

Notation "'let?' x ':=' m 'in' k" := (res_bind m (λ x, k))
  (at level 10, x binder, m at level 100, k at level 200) : kagari_scope.
Open Scope kagari_scope.

#[export] Instance result_eq_dec {A E} `{EqDecision A, EqDecision E} : EqDecision (result A E).
Proof. solve_decision. Defined.

(** ** Lists *)
Lemma filter_agree {A} (P Q : A → Prop) `{∀ x, Decision (P x), ∀ x, Decision (Q x)} (l : list A) :
  (∀ x, x ∈ l → P x ↔ Q x) → filter P l = filter Q l.
Proof.
  induction l as [|x l IH]; intros Hl; [done|]. rewrite !filter_cons.
  assert (P x ↔ Q x) as Hx by (apply Hl; left). rewrite IH by (intros; apply Hl; by right).
  repeat case_decide; tauto || done.
Qed.
