(* ===== verification/Integer.v ===== *)
(** * Fixed-width integer semantics

    Models [src/crates/kagari-types/src/integer.rs] and [arithmetic.rs]: the
    integer operations shared by constant evaluation and execution.  An [i128]
    (the carrier of every intermediate value) is a [Z]; the places where the
    source relies on the 128-bit width (checked and wrapping multiplication,
    left shifts) write the wrap-around out.  [Std] holds the operations of Rust's
    primitive integers that the source calls, at every width. *)
From S2P Require Import Prelude.
Open Scope Z_scope.

(** ** Rust's primitive integers *)
Module Std.

(** Smallest and largest value of an integer type of [bits] bits. *)
Definition min_value (bits : Z) (signed : bool) : Z := if signed then - 2 ^ (bits - 1) else 0.
Definition max_value (bits : Z) (signed : bool) : Z :=
  if signed then 2 ^ (bits - 1) - 1 else 2 ^ bits - 1.

Definition in_range (bits : Z) (signed : bool) (z : Z) : bool :=
  (min_value bits signed <=? z) && (z <=? max_value bits signed).

Definition fit (bits : Z) (signed : bool) (z : Z) : option Z :=
  if in_range bits signed z then Some z else None.

(** [z as $ty]: keep the low bits, read them back in two's complement. *)
Definition cast (bits : Z) (signed : bool) (z : Z) : Z :=
  let r := z mod 2 ^ bits in
  if signed && (2 ^ (bits - 1) <=? r) then r - 2 ^ bits else r.

Definition clamp (z lo hi : Z) : Z := if z <? lo then lo else if hi <? z then hi else z.

Definition checked_add bits signed (l r : Z) := fit bits signed (l + r).
Definition checked_sub bits signed (l r : Z) := fit bits signed (l - r).
Definition checked_mul bits signed (l r : Z) := fit bits signed (l * r).
Definition checked_div bits signed (l r : Z) :=
  if r =? 0 then None else fit bits signed (Z.quot l r).
Definition checked_rem bits signed (l r : Z) :=
  if r =? 0 then None
  else if signed && (l =? min_value bits signed) && (r =? -1) then None
  else Some (Z.rem l r).
Definition checked_neg bits signed (v : Z) := fit bits signed (- v).
Definition checked_abs bits signed (v : Z) := fit bits signed (Z.abs v).

Definition wrapping_add bits signed (l r : Z) := cast bits signed (l + r).
Definition wrapping_sub bits signed (l r : Z) := cast bits signed (l - r).
Definition wrapping_mul bits signed (l r : Z) := cast bits signed (l * r).

Definition overflowing (bits : Z) (signed : bool) (z : Z) : Z * bool :=
  (cast bits signed z, negb (in_range bits signed z)).
Definition saturating (bits : Z) (signed : bool) (z : Z) : Z :=
  clamp z (min_value bits signed) (max_value bits signed).

(** [rotate_left] and [rotate_right] of the [bits]-bit pattern of [v]: the
    bits shifted out on one side come back in on the other. *)
Definition rotate (bits u k : Z) : Z := u * 2 ^ k + u / 2 ^ (bits - k).
Definition rotate_left (bits : Z) (signed : bool) (v n : Z) : Z :=
  cast bits signed (rotate bits (v mod 2 ^ bits) (n mod bits)).
Definition rotate_right (bits : Z) (signed : bool) (v n : Z) : Z :=
  cast bits signed (rotate bits (v mod 2 ^ bits) (bits - n mod bits)).

(** [v << n] and [!v] on [i128]; [v >> n] is arithmetic. *)
Definition i128_shl (v n : Z) : Z := cast 128 true (Z.shiftl v n).

End Std.
Import Std.

(** ** arithmetic.rs *)
Inductive ArithmeticError : Set := Overflow | DivisionByZero | RemainderByZero.

Definition message (e : ArithmeticError) : string :=
  match e with
  | Overflow => "integer overflow"
  | DivisionByZero => "integer division by zero"
  | RemainderByZero => "integer remainder by zero"
  end.

Inductive IntegerBinaryOp : Set := OpAdd | OpSub | OpMul | OpDiv | OpRem.

(** The body of the [binary_ops!] macro; [bits] and [signed] stand for [$ty]. *)
Definition binary_ops (bits : Z) (signed : bool) (op : IntegerBinaryOp) (lhs rhs : Z)
    : result Z ArithmeticError :=
  match op with
  | OpAdd => ok_or (checked_add bits signed lhs rhs) Overflow
  | OpSub => ok_or (checked_sub bits signed lhs rhs) Overflow
  | OpMul => ok_or (checked_mul bits signed lhs rhs) Overflow
  | OpDiv => if rhs =? 0 then Err DivisionByZero
             else ok_or (checked_div bits signed lhs rhs) Overflow
  | OpRem => if rhs =? 0 then Err RemainderByZero
             else ok_or (checked_rem bits signed lhs rhs) Overflow
  end.

(** The [$neg] and [$abs] functions of the [integer_ops!] macro. *)
Definition integer_neg (bits : Z) (value : Z) : result Z ArithmeticError :=
  ok_or (checked_neg bits true value) Overflow.
Definition integer_abs (bits : Z) (value : Z) : result Z ArithmeticError :=
  ok_or (checked_abs bits true value) Overflow.

Definition i8_binary := binary_ops 8 true.
Definition i16_binary := binary_ops 16 true.
Definition i32_binary := binary_ops 32 true.
Definition i64_binary := binary_ops 64 true.
Definition u8_binary := binary_ops 8 false.
Definition u16_binary := binary_ops 16 false.
Definition u32_binary := binary_ops 32 false.
Definition u64_binary := binary_ops 64 false.
Definition i32_neg := integer_neg 32.
Definition i64_neg := integer_neg 64.

(** ** integer.rs *)
Inductive IntegerOp : Set :=
| BitAnd | BitOr | BitXor | BitNot | Shl | Shr
| CheckedAdd | CheckedSub | CheckedMul | CheckedDiv | CheckedRem.

#[export] Instance IntegerOp_eq_dec : EqDecision IntegerOp.
Proof. solve_decision. Defined.

Definition wrap (value bits : Z) (signed : bool) : Z :=
  let modulus := Z.shiftl 1 bits in
  let value := Z.land value (modulus - 1) in
  if signed && (Z.quot modulus 2 <=? value) then value - modulus else value.

Definition bounds (bits : Z) (signed : bool) : Z * Z :=
  if signed then (- Z.shiftl 1 (bits - 1), Z.shiftl 1 (bits - 1) - 1)
  else (0, Z.shiftl 1 bits - 1).

(** [run!] casts both operands to the native type and widens the result. *)
Definition run (f : IntegerBinaryOp → Z → Z → result Z ArithmeticError)
    (bits : Z) (signed : bool) (op : IntegerBinaryOp) (lhs rhs : Z) : result Z ArithmeticError :=
  f op (cast bits signed lhs) (cast bits signed rhs).

Definition fixed_binary (op : IntegerBinaryOp) (lhs rhs bits : Z) (signed : bool)
    : result Z ArithmeticError :=
  let '(min, max) := bounds bits signed in
  if (lhs <? min) || (max <? lhs) || (rhs <? min) || (max <? rhs) then Err Overflow
  else match bits, signed with
  | 8, true => run i8_binary 8 true op lhs rhs
  | 16, true => run i16_binary 16 true op lhs rhs
  | 32, true => run i32_binary 32 true op lhs rhs
  | 64, true => run i64_binary 64 true op lhs rhs
  | 8, false => run u8_binary 8 false op lhs rhs
  | 16, false => run u16_binary 16 false op lhs rhs
  | 32, false => run u32_binary 32 false op lhs rhs
  | 64, false => run u64_binary 64 false op lhs rhs
  | _, _ => Err Overflow
  end.

Definition valid_width (bits : Z) : bool :=
  (bits =? 8) || (bits =? 16) || (bits =? 32) || (bits =? 64).

Definition integer_operation (op : IntegerOp) (lhs rhs bits : Z) (signed : bool)
    : result Z string :=
  if negb (valid_width bits) then Err "invalid integer width"
  else if bool_decide (op = Shl ∨ op = Shr) && ((rhs <? 0) || (bits <=? rhs))
  then Err "integer shift out of range"
  else
    let checked o := res_map_err message (fixed_binary o lhs rhs bits signed) in
    match op with
    | CheckedAdd => checked OpAdd
    | CheckedSub => checked OpSub
    | CheckedMul => checked OpMul
    | CheckedDiv => checked OpDiv
    | CheckedRem => checked OpRem
    | BitAnd => Ok (wrap (Z.land lhs rhs) bits signed)
    | BitOr => Ok (wrap (Z.lor lhs rhs) bits signed)
    | BitXor => Ok (wrap (Z.lxor lhs rhs) bits signed)
    | BitNot => Ok (wrap (Z.lnot lhs) bits signed)
    | Shl => Ok (wrap (i128_shl lhs (cast 32 false rhs)) bits signed)
    | Shr => Ok (wrap (Z.shiftr lhs (cast 32 false rhs)) bits signed)
    end.

Inductive IntegerMethod : Set :=
| MWrappingAdd | MWrappingSub | MWrappingMul
| MCheckedAdd | MCheckedSub | MCheckedMul | MCheckedDiv | MCheckedRem
| MOverflowingAdd | MOverflowingSub | MOverflowingMul
| MSaturatingAdd | MSaturatingSub | MSaturatingMul
| MWrappingAddSigned | MRotateLeft | MRotateRight.

#[export] Instance IntegerMethod_eq_dec : EqDecision IntegerMethod.
Proof. solve_decision. Defined.

Definition checked (op : IntegerMethod) : bool :=
  match op with
  | MCheckedAdd | MCheckedSub | MCheckedMul | MCheckedDiv | MCheckedRem => true
  | _ => false
  end.
Definition method_overflowing (op : IntegerMethod) : bool :=
  match op with MOverflowingAdd | MOverflowingSub | MOverflowingMul => true | _ => false end.
Definition method_allocates (op : IntegerMethod) : bool := checked op || method_overflowing op.

(** The [i128]-exact intermediate value, [None] when even [i128] overflows. *)
Definition method_exact (op : IntegerMethod) (lhs rhs minimum : Z) (signed : bool) : option Z :=
  match op with
  | MWrappingAdd | MCheckedAdd | MOverflowingAdd | MSaturatingAdd | MWrappingAddSigned =>
      checked_add 128 true lhs rhs
  | MWrappingSub | MCheckedSub | MOverflowingSub | MSaturatingSub =>
      checked_sub 128 true lhs rhs
  | MWrappingMul | MCheckedMul | MOverflowingMul | MSaturatingMul =>
      checked_mul 128 true lhs rhs
  | MCheckedDiv => checked_div 128 true lhs rhs
  | MCheckedRem =>
      if signed && (lhs =? minimum) && (rhs =? -1) then None
      else checked_rem 128 true lhs rhs
  | MRotateLeft | MRotateRight => None
  end.

Definition arithmetic_method (op : IntegerMethod) (lhs rhs bits : Z) (signed : bool)
    : Z * bool :=
  let '(minimum, maximum) := bounds bits signed in
  if bool_decide (op = MRotateLeft ∨ op = MRotateRight) then
    let shift := cast 32 false (Z.rem rhs bits) in
    let value := wrap lhs bits false in
    let result :=
      if bool_decide (op = MRotateLeft)
      then Z.lor (i128_shl value shift) (Z.shiftr value (bits - shift))
      else Z.lor (Z.shiftr value shift) (i128_shl value (bits - shift)) in
    (wrap result bits signed, false)
  else
    let exact := method_exact op lhs rhs minimum signed in
    let overflow :=
      match exact with None => true | Some v => (v <? minimum) || (maximum <? v) end in
    let wrapped :=
      match exact with
      | Some v => v
      | None =>
          match op with
          | MWrappingMul | MOverflowingMul | MSaturatingMul => wrapping_mul 128 true lhs rhs
          | _ => 0
          end
      end in
    if bool_decide (op = MSaturatingAdd ∨ op = MSaturatingSub ∨ op = MSaturatingMul)
    then (clamp (default maximum exact) minimum maximum, overflow)
    else (wrap wrapped bits signed, overflow).

(** ** Lemmas *)
Lemma pow2_split bits : 1 <= bits → 2 ^ bits = 2 * 2 ^ (bits - 1).
Proof. intros ?. rewrite <- Z.pow_succ_r by lia. f_equal; lia. Qed.

Lemma pow2_pos n : 0 <= n → 0 < 2 ^ n.
Proof. intros; apply Z.pow_pos_nonneg; lia. Qed.

(** Facts about the powers of two of a width, ready for [lia]. *)
Ltac width_facts b :=
  pose proof (pow2_split b ltac:(lia)); pose proof (pow2_pos (b - 1) ltac:(lia)).

Lemma in_range_spec bits signed z :
  in_range bits signed z = true ↔ min_value bits signed <= z <= max_value bits signed.
Proof. unfold in_range. rewrite andb_true_iff, !Z.leb_le. done. Qed.

Lemma in_range_false bits signed z :
  in_range bits signed z = false ↔ z < min_value bits signed ∨ max_value bits signed < z.
Proof. unfold in_range. rewrite andb_false_iff, !Z.leb_gt. done. Qed.

Lemma bounds_eq bits signed :
  1 <= bits → bounds bits signed = (min_value bits signed, max_value bits signed).
Proof.
  intros. unfold bounds, min_value, max_value.
  destruct signed; rewrite !Z.shiftl_mul_pow2, ?Z.mul_1_l by lia; done.
Qed.

Lemma wrap_cast v bits signed : 1 <= bits → wrap v bits signed = cast bits signed v.
Proof.
  intros. unfold wrap, cast. rewrite Z.shiftl_mul_pow2, Z.mul_1_l by lia.
  replace (2 ^ bits - 1) with (Z.ones bits) by (rewrite Z.ones_equiv; lia).
  rewrite Z.land_ones by lia.
  replace (Z.quot (2 ^ bits) 2) with (2 ^ (bits - 1)); [done|].
  rewrite (pow2_split bits) by lia. rewrite Z.mul_comm, Z.quot_mul; lia.
Qed.

Lemma cast_mod bits signed z : 1 <= bits → (cast bits signed z) mod 2 ^ bits = z mod 2 ^ bits.
Proof.
  intros. unfold cast. destruct (_ && _).
  - rewrite Zminus_mod, Z_mod_same_full, Z.sub_0_r, !Zmod_mod. done.
  - apply Zmod_mod.
Qed.

Lemma cast_range bits signed z : 1 <= bits → in_range bits signed (cast bits signed z) = true.
Proof.
  intros. apply in_range_spec. unfold cast, min_value, max_value. width_facts bits.
  pose proof (Z.mod_pos_bound z (2 ^ bits) ltac:(lia)).
  destruct signed; simpl; [|lia]. destruct (Z.leb_spec (2 ^ (bits - 1)) (z mod 2 ^ bits)); lia.
Qed.

(** An integer type holds one value per residue class: [cast] is the identity
    on its range, so it is the only in-range representative. *)
Lemma range_unique bits signed a b :
  1 <= bits → in_range bits signed a = true → in_range bits signed b = true →
  a mod 2 ^ bits = b mod 2 ^ bits → a = b.
Proof.
  intros ? Ha%in_range_spec Hb%in_range_spec Hm. width_facts bits.
  pose proof (Z.div_mod a (2 ^ bits) ltac:(lia)).
  pose proof (Z.div_mod b (2 ^ bits) ltac:(lia)).
  unfold min_value, max_value in *. rewrite Hm in *.
  assert (a / 2 ^ bits = b / 2 ^ bits); [|congruence].
  destruct signed; nia.
Qed.

Lemma cast_id bits signed z : 1 <= bits → in_range bits signed z = true → cast bits signed z = z.
Proof.
  intros. eapply range_unique; eauto using cast_range, cast_mod.
Qed.

Lemma cast_cong bits signed a b :
  a mod 2 ^ bits = b mod 2 ^ bits → cast bits signed a = cast bits signed b.
Proof. unfold cast. by intros ->. Qed.

Lemma cast_cast bits signed n s z :
  1 <= bits <= n → cast bits signed (cast n s z) = cast bits signed z.
Proof.
  intros. apply cast_cong.
  assert (2 ^ bits | 2 ^ n) as Hdiv.
  { exists (2 ^ (n - bits)). rewrite <- Z.pow_add_r by lia. f_equal; lia. }
  rewrite <- (Z.mod_mod_divide _ _ _ Hdiv), cast_mod by lia.
  by apply Z.mod_mod_divide.
Qed.

Lemma valid_width_range bits : valid_width bits = true → 8 <= bits <= 64.
Proof. unfold valid_width. rewrite !orb_true_iff, !Z.eqb_eq. lia. Qed.

(** A value is in range exactly when what lies above its value bits is the
    sign: bitwise operations then stay in range because they act there too. *)
Definition high_bits (bits : Z) (signed : bool) (z : Z) : Z :=
  Z.shiftr z (if signed then bits - 1 else bits).

Lemma in_range_high_bits bits signed z :
  1 <= bits →
  in_range bits signed z = true ↔
  high_bits bits signed z = 0 ∨ signed = true ∧ high_bits bits signed z = -1.
Proof.
  intros. rewrite in_range_spec. unfold high_bits, min_value, max_value. width_facts bits.
  rewrite Z.shiftr_div_pow2 by (destruct signed; lia).
  destruct signed.
  - pose proof (Z.div_mod z (2 ^ (bits - 1)) ltac:(lia)).
    pose proof (Z.mod_pos_bound z (2 ^ (bits - 1)) ltac:(lia)).
    split; [intros|intros [|[_ ?]]]; [|nia..].
    assert (z / 2 ^ (bits - 1) = 0 ∨ z / 2 ^ (bits - 1) = -1) as [|]; [nia|by left|by right].
  - pose proof (Z.div_mod z (2 ^ bits) ltac:(lia)).
    pose proof (Z.mod_pos_bound z (2 ^ bits) ltac:(lia)).
    split; [intros; left; nia|intros [|[? ?]]; [nia|done]].
Qed.

Ltac high_bits_cases :=
  rewrite !in_range_high_bits by lia; unfold high_bits;
  rewrite ?Z.shiftr_land, ?Z.shiftr_lor, ?Z.shiftr_lxor;
  intros [-> | [-> ->]] [-> | [? ->]]; simpl; eauto.

Lemma land_in_range bits signed l r : 1 <= bits →
  in_range bits signed l = true → in_range bits signed r = true →
  in_range bits signed (Z.land l r) = true.
Proof. intros ?. high_bits_cases. Qed.

Lemma lor_in_range bits signed l r : 1 <= bits →
  in_range bits signed l = true → in_range bits signed r = true →
  in_range bits signed (Z.lor l r) = true.
Proof. intros ?. high_bits_cases. Qed.

Lemma lxor_in_range bits signed l r : 1 <= bits →
  in_range bits signed l = true → in_range bits signed r = true →
  in_range bits signed (Z.lxor l r) = true.
Proof. intros ?. high_bits_cases. Qed.

Lemma shiftr_in_range bits signed l n : 1 <= bits → 0 <= n →
  in_range bits signed l = true → in_range bits signed (Z.shiftr l n) = true.
Proof.
  intros ??. rewrite !in_range_high_bits by lia. unfold high_bits.
  rewrite Z.shiftr_shiftr, Z.add_comm, <- Z.shiftr_shiftr by (destruct signed; lia).
  intros [-> | [-> ->]].
  - left. by rewrite Z.shiftr_0_l.
  - right. split; [done|]. apply Z.bits_inj'. intros i ?.
    rewrite Z.shiftr_spec, !Z.bits_m1 by lia. done.
Qed.

Lemma lnot_cast bits signed l : 1 <= bits → in_range bits signed l = true →
  cast bits signed (Z.lnot l) = if signed then Z.lnot l else 2 ^ bits - 1 - l.
Proof.
  intros ? Hl%in_range_spec. unfold Z.lnot, min_value, max_value in *. width_facts bits.
  eapply range_unique; [done|by apply cast_range|..].
  - apply in_range_spec. unfold min_value, max_value. destruct signed; lia.
  - rewrite cast_mod by done. destruct signed; [done|].
    replace (2 ^ bits - 1 - l) with (Z.pred (- l) + 1 * 2 ^ bits) by lia.
    by rewrite Z.mod_add by lia.
Qed.

Lemma quot_in_range bits signed l r : 1 <= bits →
  in_range bits signed l = true → in_range bits signed r = true → r ≠ 0 →
  in_range bits signed (Z.quot l r) = negb (signed && (l =? min_value bits signed) && (r =? -1)).
Proof.
  intros ? Hl%in_range_spec Hb%in_range_spec Hr. width_facts bits.
  destruct (decide (r = -1)) as [->|].
  { replace (l ÷ -1) with (- l) by (change (-1) with (- (1)); rewrite Z.quot_opp_r, Z.quot_1_r; lia).
    rewrite andb_true_r. unfold in_range, min_value, max_value in *.
    destruct signed; simpl; [|lia]. destruct (Z.eqb_spec l (- 2 ^ (bits - 1))); simpl; lia. }
  rewrite (proj2 (Z.eqb_neq r (-1))), andb_false_r by done. apply in_range_spec.
  pose proof (Z.quot_rem' l r) as Hqr. pose proof (Z.rem_bound_abs l r Hr).
  pose proof (Z.rem_sign_mul l r Hr).
  unfold min_value, max_value in *. destruct signed; nia.
Qed.

Lemma in_range_bounds_guard bits signed l r : 1 <= bits →
  in_range bits signed l = true → in_range bits signed r = true →
  (l <? min_value bits signed) || (max_value bits signed <? l)
    || (r <? min_value bits signed) || (max_value bits signed <? r) = false.
Proof. intros ? Hl%in_range_spec Hr%in_range_spec. lia. Qed.

Lemma fixed_binary_in_range op l r bits signed :
  valid_width bits = true → in_range bits signed l = true → in_range bits signed r = true →
  fixed_binary op l r bits signed = binary_ops bits signed op l r.
Proof.
  intros Hw Hl Hr. pose proof (valid_width_range _ Hw). unfold fixed_binary.
  rewrite bounds_eq by lia. rewrite in_range_bounds_guard by (done || lia).
  unfold valid_width in Hw. rewrite !orb_true_iff, !Z.eqb_eq in Hw.
  destruct Hw as [[[->| ->]| ->]| ->], signed; unfold run; rewrite !cast_id by (done || lia); done.
Qed.

(** The exact mathematical meaning of an operation at a source width. *)
Definition exact_result (bits : Z) (signed : bool) (z : Z) : result Z string :=
  if in_range bits signed z then Ok z else Err "integer overflow".

Definition integer_operation_spec (op : IntegerOp) (l r bits : Z) (signed : bool)
    : result Z string :=
  match op with
  | CheckedAdd => exact_result bits signed (l + r)
  | CheckedSub => exact_result bits signed (l - r)
  | CheckedMul => exact_result bits signed (l * r)
  | CheckedDiv => if r =? 0 then Err "integer division by zero"
                  else exact_result bits signed (Z.quot l r)
  | CheckedRem => if r =? 0 then Err "integer remainder by zero"
                  else if in_range bits signed (Z.quot l r) then Ok (Z.rem l r)
                  else Err "integer overflow"
  | BitAnd => Ok (Z.land l r)
  | BitOr => Ok (Z.lor l r)
  | BitXor => Ok (Z.lxor l r)
  | BitNot => Ok (if signed then Z.lnot l else 2 ^ bits - 1 - l)
  | Shl => if (0 <=? r) && (r <? bits) then Ok (cast bits signed (l * 2 ^ r))
           else Err "integer shift out of range"
  | Shr => if (0 <=? r) && (r <? bits) then Ok (l / 2 ^ r)
           else Err "integer shift out of range"
  end.

(** A shift count has a domain of its own; every other right operand is read
    in the domain of the left one. *)
Definition operand_ok (op : IntegerOp) (bits : Z) (signed : bool) (r : Z) : bool :=
  match op with Shl | Shr => true | _ => in_range bits signed r end.

Lemma fit_exact bits signed z :
  res_map_err message (ok_or (fit bits signed z) Overflow) = exact_result bits signed z.
Proof. unfold fit, exact_result. by destruct (in_range _ _ _). Qed.

Lemma shift_count_cast bits r : bits <= 64 → 0 <= r < bits → cast 32 false r = r.
Proof. intros. apply cast_id; [lia|]. apply in_range_spec. unfold min_value, max_value. simpl. lia. Qed.

Lemma integer_operation_exact op l r bits signed :
  valid_width bits = true → in_range bits signed l = true → operand_ok op bits signed r = true →
  integer_operation op l r bits signed = integer_operation_spec op l r bits signed.
Proof.
  intros Hw Hl Hr. pose proof (valid_width_range _ Hw). unfold integer_operation. rewrite Hw.
  destruct op; simpl in *; rewrite ?wrap_cast by lia;
    rewrite ?fixed_binary_in_range by done; unfold binary_ops, checked_add, checked_sub, checked_mul;
    rewrite ?cast_id by (auto using land_in_range, lor_in_range, lxor_in_range with lia);
    rewrite ?fit_exact; try done.
  - by rewrite lnot_cast by (done || lia).
  - replace ((r <? 0) || (bits <=? r)) with (negb ((0 <=? r) && (r <? bits))) by lia.
    destruct ((0 <=? r) && (r <? bits)) eqn:E; simpl; [|done].
    apply andb_true_iff in E as [?%Z.leb_le ?%Z.ltb_lt].
    rewrite (shift_count_cast bits) by lia. unfold i128_shl.
    by rewrite cast_cast, Z.shiftl_mul_pow2 by lia.
  - replace ((r <? 0) || (bits <=? r)) with (negb ((0 <=? r) && (r <? bits))) by lia.
    destruct ((0 <=? r) && (r <? bits)) eqn:E; simpl; [|done].
    apply andb_true_iff in E as [?%Z.leb_le ?%Z.ltb_lt].
    rewrite (shift_count_cast bits) by lia.
    rewrite cast_id by first [lia | apply shiftr_in_range; [lia|lia|done]].
    by rewrite Z.shiftr_div_pow2 by lia.
  - destruct (r =? 0) eqn:E; [done|]. unfold checked_div. rewrite E. by rewrite fit_exact.
  - destruct (Z.eqb_spec r 0) as [->|]; [done|]. unfold checked_rem.
    rewrite (proj2 (Z.eqb_neq r 0)), quot_in_range by (done || lia).
    by destruct (signed && _ && _).
Qed.

(** ** Explicit arithmetic policies *)

(** What a script observes of a method: [None] is a checked method's failure,
    the flag is published by the overflowing methods only. *)
Definition observe (op : IntegerMethod) (r : Z * bool) : option (Z * bool) :=
  if checked op && r.2 then None else Some (r.1, method_overflowing op && r.2).

(** The same observation through the primitive operations of the receiver type. *)
Definition method_spec (op : IntegerMethod) (l r bits : Z) (signed : bool) : option (Z * bool) :=
  match op with
  | MWrappingAdd | MWrappingAddSigned => Some (wrapping_add bits signed l r, false)
  | MWrappingSub => Some (wrapping_sub bits signed l r, false)
  | MWrappingMul => Some (wrapping_mul bits signed l r, false)
  | MCheckedAdd => (., false) <$> checked_add bits signed l r
  | MCheckedSub => (., false) <$> checked_sub bits signed l r
  | MCheckedMul => (., false) <$> checked_mul bits signed l r
  | MCheckedDiv => (., false) <$> checked_div bits signed l r
  | MCheckedRem => (., false) <$> checked_rem bits signed l r
  | MOverflowingAdd => Some (overflowing bits signed (l + r))
  | MOverflowingSub => Some (overflowing bits signed (l - r))
  | MOverflowingMul => Some (overflowing bits signed (l * r))
  | MSaturatingAdd => Some (saturating bits signed (l + r), false)
  | MSaturatingSub => Some (saturating bits signed (l - r), false)
  | MSaturatingMul => Some (saturating bits signed (l * r), false)
  | MRotateLeft => Some (rotate_left bits signed l r, false)
  | MRotateRight => Some (rotate_right bits signed l r, false)
  end.

(** The domain [IntegerMethodContract] gives the right operand. *)
Definition method_operand_ok (op : IntegerMethod) (bits : Z) (signed : bool) (r : Z) : bool :=
  match op with
  | MRotateLeft | MRotateRight => in_range 32 false r
  | MWrappingAddSigned => negb signed && in_range bits true r
  | _ => in_range bits signed r
  end.

Lemma in_range_abs bits signed z :
  1 <= bits <= 64 → in_range bits signed z = true → - 2 ^ 63 <= z < 2 ^ 64.
Proof.
  intros ? Hz%in_range_spec. unfold min_value, max_value in Hz.
  pose proof (Z.pow_le_mono_r 2 bits 64 ltac:(lia) ltac:(lia)).
  pose proof (Z.pow_le_mono_r 2 (bits - 1) 63 ltac:(lia) ltac:(lia)).
  destruct signed; lia.
Qed.

Lemma lor_mod_pow2 a b n : 0 <= n →
  Z.lor a b mod 2 ^ n = Z.lor (a mod 2 ^ n) (b mod 2 ^ n).
Proof. intros. rewrite <- !Z.land_ones by done. apply Z.land_lor_distr_l. Qed.

Lemma lor_rotate bits u k : 0 <= k <= bits → 0 <= u < 2 ^ bits →
  Z.lor (u * 2 ^ k) (u / 2 ^ (bits - k)) = rotate bits u k.
Proof.
  intros ? Hu. unfold rotate. symmetry. apply Z.add_nocarry_lor. apply Z.bits_inj'.
  intros i ?. rewrite Z.land_spec, Z.bits_0.
  destruct (decide (i < k)) as [Hlt|].
  - by rewrite Z.mul_pow2_bits_low by lia.
  - rewrite <- Z.shiftr_div_pow2, Z.shiftr_spec by lia.
    rewrite <- (Z.mod_small u (2 ^ bits)) at 2 by done.
    rewrite Z.mod_pow2_bits_high by lia. apply andb_false_r.
Qed.

Lemma rotate_code bits signed v k : 1 <= bits <= 64 → 0 <= k <= bits →
  cast bits signed (Z.lor (i128_shl (cast bits false v) k)
                          (Z.shiftr (cast bits false v) (bits - k)))
  = cast bits signed (rotate bits (v mod 2 ^ bits) k).
Proof.
  intros. assert (cast bits false v = v mod 2 ^ bits) as -> by done.
  rewrite <- lor_rotate by (try lia; apply Z.mod_pos_bound, pow2_pos; lia).
  apply cast_cong. rewrite !lor_mod_pow2 by lia. f_equal.
  - unfold i128_shl. rewrite Z.shiftl_mul_pow2 by lia.
    rewrite <- (cast_mod bits true (cast 128 _ _)), cast_cast, cast_mod by lia. done.
  - by rewrite Z.shiftr_div_pow2 by lia.
Qed.

Lemma exact_128 bits signed l r : 1 <= bits <= 64 →
  in_range bits signed l = true → - 2 ^ 63 <= r < 2 ^ 64 →
  fit 128 true (l + r) = Some (l + r) ∧ fit 128 true (l - r) = Some (l - r).
Proof.
  intros ? Hl%in_range_abs ?; [|lia]. unfold fit, in_range. simpl.
  split; (case_match; [done|lia]).
Qed.

Lemma mul_128 bits signed l r : 1 <= bits <= 64 →
  in_range bits signed l = true → in_range bits signed r = true →
  fit 128 true (l * r) = Some (l * r)
  ∨ fit 128 true (l * r) = None ∧ max_value bits signed < l * r.
Proof.
  intros ? Hl Hr. pose proof (in_range_abs _ _ _ ltac:(done) Hl).
  pose proof (in_range_abs _ _ _ ltac:(done) Hr).
  unfold fit. destruct (in_range 128 true (l * r)) eqn:E; [by left|right; split; [done|]].
  apply in_range_spec in Hl, Hr. apply in_range_false in E. unfold min_value, max_value in *.
  pose proof (Z.pow_le_mono_r 2 bits 64 ltac:(lia) ltac:(lia)).
  pose proof (Z.pow_le_mono_r 2 (bits - 1) 63 ltac:(lia) ltac:(lia)).
  change (2 ^ (128 - 1)) with (2 ^ 63 * 2 ^ 64) in E.
  destruct signed; nia.
Qed.

Lemma overflow_flag bits signed z :
  (z <? min_value bits signed) || (max_value bits signed <? z) = negb (in_range bits signed z).
Proof. unfold in_range. lia. Qed.

Lemma saturating_high bits signed z :
  1 <= bits → max_value bits signed < z → saturating bits signed z = max_value bits signed
  ∧ clamp (max_value bits signed) (min_value bits signed) (max_value bits signed)
    = max_value bits signed.
Proof.
  intros. width_facts bits. unfold saturating, clamp, min_value, max_value in *.
  destruct signed; repeat case_match; split; lia.
Qed.

Lemma checked_observe bits signed z :
  1 <= bits →
  (if negb (in_range bits signed z) then None else Some (cast bits signed z, false))
  = (., false) <$> fit bits signed z.
Proof.
  intros. unfold fit. destruct (in_range bits signed z) eqn:E; [|done].
  simpl. by rewrite cast_id.
Qed.

Lemma arithmetic_method_rotate op l r bits signed :
  (op = MRotateLeft ∨ op = MRotateRight) → valid_width bits = true →
  in_range 32 false r = true →
  observe op (arithmetic_method op l r bits signed) = method_spec op l r bits signed.
Proof.
  intros Hop Hw Hr. pose proof (valid_width_range _ Hw). apply in_range_spec in Hr.
  unfold min_value, max_value in Hr.
  unfold arithmetic_method. rewrite bounds_eq by lia. rewrite bool_decide_eq_true_2 by done.
  rewrite (Z.rem_mod_nonneg r bits) by lia.
  pose proof (Z.mod_pos_bound r bits ltac:(lia)).
  rewrite (shift_count_cast bits), !wrap_cast by lia.
  unfold observe. destruct Hop as [-> | ->]; simpl.
  - unfold rotate_left. by rewrite rotate_code by lia.
  - unfold rotate_right. rewrite Z.lor_comm, <- (rotate_code bits signed l) by lia.
    replace (bits - (bits - r mod bits)) with (r mod bits) by lia. done.
Qed.

Lemma rem_in_range bits signed l r : 1 <= bits →
  in_range bits signed l = true → r ≠ 0 → in_range bits signed (Z.rem l r) = true.
Proof.
  intros ? Hl%in_range_spec Hr. apply in_range_spec. width_facts bits.
  pose proof (Z.rem_sign_nz l r Hr). pose proof (Z.rem_abs l r Hr).
  pose proof (Z.rem_le (Z.abs l) (Z.abs r) ltac:(lia) ltac:(lia)).
  unfold min_value, max_value in *. destruct signed; lia.
Qed.

Lemma quot_128 l r : - 2 ^ 63 <= l < 2 ^ 64 → r ≠ 0 → in_range 128 true (Z.quot l r) = true.
Proof.
  intros. apply in_range_spec. unfold min_value, max_value. simpl.
  pose proof (Z.quot_rem' l r). pose proof (Z.rem_bound_abs l r ltac:(done)).
  pose proof (Z.rem_sign_mul l r ltac:(done)). nia.
Qed.

Definition saturates (op : IntegerMethod) : bool :=
  match op with MSaturatingAdd | MSaturatingSub | MSaturatingMul => true | _ => false end.
Definition rotates (op : IntegerMethod) : bool :=
  match op with MRotateLeft | MRotateRight => true | _ => false end.

(** Outside the rotations, the result is a function of the exact value. *)
Lemma arithmetic_method_some op l r bits signed z :
  rotates op = false → 1 <= bits →
  method_exact op l r (min_value bits signed) signed = Some z →
  arithmetic_method op l r bits signed =
    (if saturates op then saturating bits signed z else cast bits signed z,
     negb (in_range bits signed z)).
Proof.
  intros Hop ? Hz. unfold arithmetic_method. rewrite bounds_eq by done. rewrite Hz.
  rewrite overflow_flag, !wrap_cast by done. by destruct op.
Qed.

Lemma arithmetic_method_none op l r bits signed :
  rotates op = false → 1 <= bits →
  method_exact op l r (min_value bits signed) signed = None →
  arithmetic_method op l r bits signed =
    (if saturates op
     then clamp (max_value bits signed) (min_value bits signed) (max_value bits signed)
     else cast bits signed
            (match op with MWrappingMul | MOverflowingMul => cast 128 true (l * r) | _ => 0 end),
     true).
Proof.
  intros Hop ? Hz. unfold arithmetic_method. rewrite bounds_eq by done. rewrite Hz.
  rewrite !wrap_cast by done. by destruct op.
Qed.

(** The operand domains make every sum and difference exact in [i128]. *)
Lemma arithmetic_method_linear op l r bits signed z :
  rotates op = false → valid_width bits = true →
  method_exact op l r (min_value bits signed) signed = Some z →
  observe op (arithmetic_method op l r bits signed) =
    if checked op then (., false) <$> fit bits signed z
    else Some (if saturates op then saturating bits signed z else cast bits signed z,
               method_overflowing op && negb (in_range bits signed z)).
Proof.
  intros Hop Hw Hz. pose proof (valid_width_range _ Hw).
  rewrite (arithmetic_method_some _ _ _ _ _ z) by (done || lia). unfold observe.
  rewrite <- checked_observe by lia. by destruct op.
Qed.

Lemma arithmetic_method_mul op l r bits signed :
  (op = MWrappingMul ∨ op = MCheckedMul ∨ op = MOverflowingMul ∨ op = MSaturatingMul) →
  valid_width bits = true → in_range bits signed l = true → in_range bits signed r = true →
  observe op (arithmetic_method op l r bits signed) = method_spec op l r bits signed.
Proof.
  intros Hop Hw Hl Hr. pose proof (valid_width_range _ Hw).
  destruct (mul_128 bits signed l r ltac:(lia) Hl Hr) as [E|[E Hbig]].
  - rewrite (arithmetic_method_linear _ _ _ _ _ (l * r));
      destruct Hop as [-> |[-> |[-> | ->]]]; simpl; done.
  - rewrite arithmetic_method_none; [|destruct Hop as [-> |[-> |[-> | ->]]]; done|lia
      |destruct Hop as [-> |[-> |[-> | ->]]]; done].
    assert (in_range bits signed (l * r) = false) as Hf by (apply in_range_false; lia).
    destruct (saturating_high bits signed (l * r) ltac:(lia) Hbig) as [Hs1 Hs2].
    destruct Hop as [-> |[-> |[-> | ->]]]; unfold observe; simpl;
      unfold wrapping_mul, checked_mul, overflowing, fit;
      by rewrite ?cast_cast, ?Hf, ?Hs1, ?Hs2 by lia.
Qed.

Lemma arithmetic_method_div op l r bits signed :
  (op = MCheckedDiv ∨ op = MCheckedRem) →
  valid_width bits = true → in_range bits signed l = true → in_range bits signed r = true →
  observe op (arithmetic_method op l r bits signed) = method_spec op l r bits signed.
Proof.
  intros Hop Hw Hl Hr. pose proof (valid_width_range _ Hw).
  destruct (Z.eqb_spec r 0) as [->|Hr0].
  { rewrite arithmetic_method_none; destruct Hop as [-> | ->]; simpl; try (done || lia).
    by rewrite andb_false_r. }
  pose proof (in_range_abs bits signed l ltac:(lia) Hl). pose proof (in_range_abs bits signed r ltac:(lia) Hr).
  destruct Hop as [-> | ->].
  - rewrite (arithmetic_method_linear _ _ _ _ _ (Z.quot l r)); [|done..|]; simpl; unfold checked_div;
      rewrite (proj2 (Z.eqb_neq r 0)) by done; [done|].
    unfold fit. by rewrite quot_128.
  - destruct (signed && (l =? min_value bits signed) && (r =? -1)) eqn:E.
    { rewrite arithmetic_method_none; simpl; try (done || lia); [|by rewrite E].
      unfold checked_rem. rewrite E. by destruct (r =? 0). }
    rewrite (arithmetic_method_linear _ _ _ _ _ (Z.rem l r)); [|done..|]; simpl; unfold checked_rem;
      rewrite ?E, (proj2 (Z.eqb_neq r 0)) by done.
    + unfold fit. by rewrite rem_in_range by (done || lia).
    + replace (l =? min_value 128 true) with false; [done|].
      symmetry. apply Z.eqb_neq. unfold min_value.
      change (2 ^ (128 - 1)) with (2 ^ 63 * 2 ^ 64). lia.
Qed.

Lemma arithmetic_method_exact op l r bits signed :
  valid_width bits = true → in_range bits signed l = true →
  method_operand_ok op bits signed r = true →
  observe op (arithmetic_method op l r bits signed) = method_spec op l r bits signed.
Proof.
  intros Hw Hl Hr. pose proof (valid_width_range _ Hw).
  assert (- 2 ^ 63 <= r < 2 ^ 64) as Hr'.
  { destruct op; simpl in Hr; try (eapply in_range_abs; [|exact Hr]; lia).
    apply andb_true_iff in Hr as [_ Hr]. eapply in_range_abs; [|exact Hr]; lia. }
  destruct (exact_128 bits signed l r ltac:(lia) Hl Hr') as [Hadd Hsub].
  destruct op; try (apply arithmetic_method_mul; auto; done);
    try (apply arithmetic_method_rotate; auto; done); try (apply arithmetic_method_div; auto; done).
  all: first [rewrite (arithmetic_method_linear _ _ _ _ _ (l + r)) by done; done
             |rewrite (arithmetic_method_linear _ _ _ _ _ (l - r)) by done; done].
Qed.
