(* ===== verification/Scalar.v ===== *)
(** * Scalar types, numeric contracts and physical representations

    Models [kagari-types/src/scalar.rs], [numeric.rs] and [conversion.rs],
    [kagari-contract/src/numeric.rs], [numeric/method.rs] and the builtin part of
    [representation.rs], and [kagari-abi/src/representation.rs].

    IEEE-754 arithmetic is the hardware's: it enters as the operations of the
    class [FloatOps] on bit patterns, and no theorem assumes anything of it. *)
From S2P Require Import Prelude Integer.
Open Scope Z_scope.

Inductive BuiltinType : Set :=
| BtNever | BtUnit | BtBool
| BtI8 | BtI16 | BtI32 | BtI64 | BtU8 | BtU16 | BtU32 | BtU64
| BtF32 | BtF64 | BtString | BtChar.

Inductive IntegerType : Set :=
| ItI8 | ItI16 | ItI32 | ItI64 | ItU8 | ItU16 | ItU32 | ItU64.

(** kagari-abi: the physical representation of a runtime slot. *)
Inductive ValueType : Set :=
| VtNever | VtUnit | VtBool | VtI32 | VtI64 | VtU64 | VtF32 | VtF64
| VtStr | VtHeapObject | VtHostHandle | VtGeneric | VtChar.

#[export] Instance BuiltinType_eq_dec : EqDecision BuiltinType.
Proof. solve_decision. Defined.
#[export] Instance IntegerType_eq_dec : EqDecision IntegerType.
Proof. solve_decision. Defined.
#[export] Instance ValueType_eq_dec : EqDecision ValueType.
Proof. solve_decision. Defined.

Definition may_contain_gc_reference (ty : ValueType) : bool :=
  match ty with VtHeapObject | VtGeneric => true | _ => false end.

Definition from_builtin (ty : BuiltinType) : option IntegerType :=
  match ty with
  | BtI8 => Some ItI8 | BtI16 => Some ItI16 | BtI32 => Some ItI32 | BtI64 => Some ItI64
  | BtU8 => Some ItU8 | BtU16 => Some ItU16 | BtU32 => Some ItU32 | BtU64 => Some ItU64
  | _ => None
  end.

Definition builtin_type (ty : IntegerType) : BuiltinType :=
  match ty with
  | ItI8 => BtI8 | ItI16 => BtI16 | ItI32 => BtI32 | ItI64 => BtI64
  | ItU8 => BtU8 | ItU16 => BtU16 | ItU32 => BtU32 | ItU64 => BtU64
  end.

Definition layout (ty : IntegerType) : Z * bool :=
  match ty with
  | ItI8 => (8, true) | ItI16 => (16, true) | ItI32 => (32, true) | ItI64 => (64, true)
  | ItU8 => (8, false) | ItU16 => (16, false) | ItU32 => (32, false) | ItU64 => (64, false)
  end.

Definition integer_type_bounds (ty : IntegerType) : Z * Z :=
  let '(bits, signed) := layout ty in bounds bits signed.

Definition integer_layout (ty : BuiltinType) : option (Z * bool) := layout <$> from_builtin ty.

Definition integer_bounds (ty : BuiltinType) : option (Z * Z) :=
  (λ '(bits, signed), bounds bits signed) <$> integer_layout ty.

(** ** numeric.rs *)
Inductive FloatType : Set := F32 | F64.
Inductive FloatOperation : Set := FAdd | FSub | FMul | FDiv | FRem.

#[export] Instance FloatType_eq_dec : EqDecision FloatType.
Proof. solve_decision. Defined.

(** IEEE-754 operations on bit patterns ([f32::from_bits], [f64::from_bits]). *)
Class FloatOps : Type := {
  float_arith : FloatType → FloatOperation → Z → Z → Z;
  float_partial_cmp : FloatType → Z → Z → option comparison;
  float_to_i128 : FloatType → Z → Z;
  i128_to_float : FloatType → Z → Z;
  f64_to_f32 : Z → Z;
  f32_to_f64 : Z → Z
}.

Inductive Number : Set := NInteger (z : Z) | NF32 (bits : Z) | NF64 (bits : Z).
Inductive NumberType : Set := NtInteger (bits : Z) (signed : bool) | NtF32 | NtF64.

Definition number_type (ty : BuiltinType) : option NumberType :=
  match ty with
  | BtF32 => Some NtF32
  | BtF64 => Some NtF64
  | _ => (λ '(bits, signed), NtInteger bits signed) <$> integer_layout ty
  end.

Definition can_cast_to (source target : BuiltinType) : bool :=
  (bool_decide (is_Some (number_type source)) && bool_decide (is_Some (number_type target)))
  || (bool_decide (source = BtBool) && bool_decide (is_Some (integer_layout target))).

Section Casts.
Context `{FloatOps}.

(** [numeric::cast]. *)
Definition number_cast (value : Number) (target : NumberType) : Number :=
  match target with
  | NtInteger bits signed =>
      let '(min, max) := bounds bits signed in
      NInteger (match value with
                | NInteger v => wrap v bits signed
                | NF32 v => Std.clamp (float_to_i128 F32 v) min max
                | NF64 v => Std.clamp (float_to_i128 F64 v) min max
                end)
  | NtF32 => NF32 (match value with
                   | NInteger v => i128_to_float F32 v
                   | NF32 v => v
                   | NF64 v => f64_to_f32 v
                   end)
  | NtF64 => NF64 (match value with
                   | NInteger v => i128_to_float F64 v
                   | NF32 v => f32_to_f64 v
                   | NF64 v => v
                   end)
  end.
End Casts.

(** ** conversion.rs *)
Definition lossless_from (source target : BuiltinType) : bool :=
  if bool_decide (source = target) then
    bool_decide (is_Some (number_type source)) || bool_decide (source = BtBool)
  else if bool_decide (source = BtBool) then bool_decide (is_Some (integer_layout target))
  else match target with
  | BtF32 => match source with BtI8 | BtI16 | BtU8 | BtU16 => true | _ => false end
  | BtF64 => match source with
             | BtI8 | BtI16 | BtI32 | BtU8 | BtU16 | BtU32 | BtF32 => true
             | _ => false
             end
  | _ => match integer_layout source, integer_layout target with
         | Some (a, sa), Some (b, sb) =>
             (bool_decide (sa = sb) && (a <? b)) || (negb sa && sb && (a <? b))
         | _, _ => false
         end
  end.

Definition checked_conversion_fallible (source target : BuiltinType) : option bool :=
  if lossless_from source target then Some false
  else if bool_decide (is_Some (integer_layout source))
          && bool_decide (is_Some (integer_layout target)) then Some true
  else None.

(** ** kagari-contract: numeric contracts *)
Record NumericOperation : Set := {
  num_op : IntegerOp;
  num_input : BuiltinType;
  num_rhs : option BuiltinType
}.
#[export] Instance NumericOperation_eq_dec : EqDecision NumericOperation.
Proof. solve_decision. Defined.

(** [NumericSignature]; its three types are always [Ty::Builtin]. *)
Record NumericSignature : Set := {
  sig_left : BuiltinType;
  sig_right : option BuiltinType;
  sig_output : BuiltinType
}.

Definition operation_contract (o : NumericOperation) : option NumericSignature :=
  _ ← integer_layout (num_input o);
  let signature := {| sig_left := num_input o; sig_right := num_rhs o;
                      sig_output := num_input o |} in
  if bool_decide (num_op o = BitNot) then
    if bool_decide (is_Some (num_rhs o)) then None else Some signature
  else
    rhs ← num_rhs o;
    _ ← integer_layout rhs;
    if negb (bool_decide (num_op o = Shl ∨ num_op o = Shr))
       && negb (bool_decide (rhs = num_input o)) then None
    else Some signature.

Record NumericConversion : Set := { conv_source : BuiltinType; conv_target : BuiltinType }.

Definition conversion_contract (c : NumericConversion) : option (BuiltinType * BuiltinType) :=
  if can_cast_to (conv_source c) (conv_target c)
  then Some (conv_source c, conv_target c) else None.

Record IntegerMethodContract : Set := {
  mc_receiver : BuiltinType;
  mc_rhs : BuiltinType;
  mc_method : IntegerMethod
}.

(** [IntegerMethodContract::new]. *)
Definition method_contract (method : IntegerMethod) (receiver : BuiltinType)
    : option IntegerMethodContract :=
  _ ← integer_layout receiver;
  rhs ← match method with
        | MRotateLeft | MRotateRight => Some BtU32
        | MWrappingAddSigned =>
            match receiver with
            | BtU8 => Some BtI8 | BtU16 => Some BtI16
            | BtU32 => Some BtI32 | BtU64 => Some BtI64
            | _ => None
            end
        | _ => Some receiver
        end;
  Some {| mc_receiver := receiver; mc_rhs := rhs; mc_method := method |}.

(** ** Physical slots *)
Definition builtin_representation (ty : BuiltinType) : ValueType :=
  match ty with
  | BtNever => VtNever
  | BtUnit => VtUnit
  | BtBool => VtBool
  | BtI8 | BtI16 | BtI32 => VtI32
  | BtI64 | BtU8 | BtU16 | BtU32 => VtI64
  | BtU64 => VtU64
  | BtF32 => VtF32
  | BtF64 => VtF64
  | BtString => VtStr
  | BtChar => VtChar
  end.

(** ** Lemmas *)
Lemma from_builtin_type ty : from_builtin (builtin_type ty) = Some ty.
Proof. by destruct ty. Qed.

Lemma from_builtin_Some ty d : from_builtin ty = Some d → ty = builtin_type d.
Proof. destruct ty; simpl; intros; simplify_eq; done. Qed.

#[export] Instance builtin_type_inj : Inj (=) (=) builtin_type.
Proof. intros [] []; done. Qed.

Lemma layout_valid d : valid_width (layout d).1 = true.
Proof. by destruct d. Qed.

(** A lossless conversion keeps every value of the source type in range. *)
Lemma lossless_in_range source target d d' z :
  from_builtin source = Some d → from_builtin target = Some d' →
  lossless_from source target = true →
  Std.in_range (layout d).1 (layout d).2 z = true →
  Std.in_range (layout d').1 (layout d').2 z = true.
Proof.
  intros ->%from_builtin_Some ->%from_builtin_Some.
  rewrite !in_range_spec; destruct d, d'; cbn; intros; lia || done.
Qed.
