(* ===== verification/Payload.v ===== *)
(** * Scalar payloads: the operations of prepared execution

    Models [kagari-types/src/payload.rs] and its modules [comparison], [shared],
    [operation] and [operation/select].  A payload is the 64-bit carrier of a
    scalar slot: a [Z] in [[0, 2^64)], a signed value being sign-extended. *)
From S2P Require Import Prelude Integer Scalar.
Open Scope Z_scope.

Inductive ScalarBinaryOp : Set :=
| SbAdd | SbSub | SbMul | SbDiv | SbRem | SbEq | SbNotEq | SbLt | SbLe | SbGt | SbGe.

(** ** payload.rs *)
Definition decode_integer_domain (value bits : Z) (signed : bool) : result Z string :=
  let value := if signed then Std.cast 64 true value else value in
  let '(min, max) := bounds bits signed in
  if (value <? min) || (max <? value) then Err "invalid numeric operand type or range"
  else Ok value.

(** [value as u64]. *)
Definition as_u64 (value : Z) : Z := Std.cast 64 false value.

(** The const generic [OP] of [integer_value] selects the operation; codes
    above 8 are unreachable. *)
Definition integer_value_op (OP : Z) : option (IntegerOp * bool) :=
  match OP with
  | 0 => Some (CheckedAdd, true) | 1 => Some (CheckedSub, true) | 2 => Some (CheckedMul, true)
  | 3 => Some (CheckedDiv, true) | 4 => Some (CheckedRem, true) | 5 => Some (BitAnd, true)
  | 6 => Some (BitOr, true) | 7 => Some (BitXor, true) | 8 => Some (BitNot, false)
  | _ => None
  end.

Definition integer_value (OP bits : Z) (signed : bool) (lhs rhs : Z) : result Z string :=
  let? lhs := decode_integer_domain lhs bits signed in
  match integer_value_op OP with
  | Some (op, reads_rhs) =>
      let? rhs := (if reads_rhs then decode_integer_domain rhs bits signed else Ok 0) in
      res_map as_u64 (integer_operation op lhs rhs bits signed)
  | None => Err "unreachable"
  end.

Definition shared_decode_integer (value : Z) (domain : IntegerType) : result Z string :=
  let '(bits, signed) := layout domain in decode_integer_domain value bits signed.

Definition shift_value (RIGHT : bool) (bits : Z) (signed : bool) (lhs rhs : Z)
    (count_domain : IntegerType) : result Z string :=
  let? lhs := decode_integer_domain lhs bits signed in
  let? rhs := shared_decode_integer rhs count_domain in
  res_map as_u64 (integer_operation (if RIGHT then Shr else Shl) lhs rhs bits signed).

Definition negate_integer (bits value : Z) : result Z string := integer_value 1 bits true 0 value.

Definition negate_float (ty : FloatType) (value : Z) : result Z string :=
  Ok (Z.lxor value (match ty with F32 => Z.shiftl 1 31 | F64 => Z.shiftl 1 63 end)).

Definition boolean_not (value : Z) : result Z string := Ok (if value =? 0 then 1 else 0).

(** ** comparison.rs *)
Inductive Comparison : Set := CEq | CNotEq | CLt | CLe | CGt | CGe.
#[export] Instance Comparison_eq_dec : EqDecision Comparison.
Proof. solve_decision. Defined.

(** [Comparison::test] over [PartialOrd]: [None] is an unordered pair. *)
Definition test (c : Comparison) (o : option comparison) : Z :=
  Z.b2z (match c, o with
         | CEq, Some Eq => true
         | CEq, _ => false
         | CNotEq, Some Eq => false
         | CNotEq, _ => true
         | CLt, Some Lt => true
         | CLe, Some (Lt | Eq) => true
         | CGt, Some Gt => true
         | CGe, Some (Gt | Eq) => true
         | _, _ => false
         end).

Inductive ComparisonDomain : Set := CdI32 | CdI64 | CdU64 | CdF32 | CdF64 | CdChar | CdScalar.

(** [char::from_u32]: a Unicode scalar value, surrogates excluded. *)
Definition is_scalar_value (z : Z) : bool :=
  (0 <=? z) && (z <=? 0x10FFFF) && negb ((0xD800 <=? z) && (z <=? 0xDFFF)).

Definition integer_compare (bits : Z) (signed : bool) (lhs rhs : Z) (c : Comparison)
    : result Z string :=
  let? lhs := decode_integer_domain lhs bits signed in
  let? rhs := decode_integer_domain rhs bits signed in
  Ok (test c (Some (lhs ?= rhs))).

Definition char_compare (lhs rhs : Z) (c : Comparison) : result Z string :=
  if is_scalar_value lhs && is_scalar_value rhs then Ok (test c (Some (lhs ?= rhs)))
  else Err "invalid Unicode scalar operand".

Definition scalar_compare (lhs rhs : Z) (c : Comparison) : result Z string :=
  Ok (test c (Some (lhs ?= rhs))).

(** ** operation.rs: shift kinds *)
Inductive ShiftKind : Set :=
| I8Shl | I8Shr | I16Shl | I16Shr | I32Shl | I32Shr | I64Shl | I64Shr
| U8Shl | U8Shr | U16Shl | U16Shr | U32Shl | U32Shr | U64Shl | U64Shr.

Definition shift_kind (domain : IntegerType) (op : IntegerOp) : option ShiftKind :=
  match domain, op with
  | ItI8, Shl => Some I8Shl | ItI8, Shr => Some I8Shr
  | ItI16, Shl => Some I16Shl | ItI16, Shr => Some I16Shr
  | ItI32, Shl => Some I32Shl | ItI32, Shr => Some I32Shr
  | ItI64, Shl => Some I64Shl | ItI64, Shr => Some I64Shr
  | ItU8, Shl => Some U8Shl | ItU8, Shr => Some U8Shr
  | ItU16, Shl => Some U16Shl | ItU16, Shr => Some U16Shr
  | ItU32, Shl => Some U32Shl | ItU32, Shr => Some U32Shr
  | ItU64, Shl => Some U64Shl | ItU64, Shr => Some U64Shr
  | _, _ => None
  end.

Definition shift_parts (k : ShiftKind) : IntegerType * IntegerOp :=
  match k with
  | I8Shl => (ItI8, Shl) | I8Shr => (ItI8, Shr) | I16Shl => (ItI16, Shl) | I16Shr => (ItI16, Shr)
  | I32Shl => (ItI32, Shl) | I32Shr => (ItI32, Shr) | I64Shl => (ItI64, Shl)
  | I64Shr => (ItI64, Shr) | U8Shl => (ItU8, Shl) | U8Shr => (ItU8, Shr)
  | U16Shl => (ItU16, Shl) | U16Shr => (ItU16, Shr) | U32Shl => (ItU32, Shl)
  | U32Shr => (ItU32, Shr) | U64Shl => (ItU64, Shl) | U64Shr => (ItU64, Shr)
  end.

Definition float_from_builtin (ty : BuiltinType) : option FloatType :=
  match ty with BtF32 => Some F32 | BtF64 => Some F64 | _ => None end.
Definition float_builtin_type (ty : FloatType) : BuiltinType :=
  match ty with F32 => BtF32 | F64 => BtF64 end.

(** Scalar semantics selected from verified executable contracts. *)
Inductive ScalarOperation : Set :=
| SoInteger (domain : IntegerType) (op : IntegerOp)
| SoFloat (domain : FloatType) (op : FloatOperation)
| SoShift (kind : ShiftKind) (count_domain : IntegerType)
| SoCompare (domain : ComparisonDomain) (condition : Comparison)
| SoIntegerConvert (source target : IntegerType)
| SoIntegerToFloat (source : IntegerType) (target : FloatType)
| SoFloatToInteger (source : FloatType) (target : IntegerType)
| SoFloatConvert (source target : FloatType)
| SoBoolToInteger (target : IntegerType)
| I8BitNot | I16BitNot | I32BitNot | I64BitNot | U8BitNot | U16BitNot | U32BitNot | U64BitNot
| I32Neg | I64Neg | F32Neg | F64Neg | BoolNot.

(** ** shared.rs *)
Definition shared_integer (op : IntegerOp) (domain : IntegerType) (lhs rhs : Z)
    : result Z string :=
  let '(bits, signed) := layout domain in
  let? lhs := decode_integer_domain lhs bits signed in
  let? rhs := decode_integer_domain rhs bits signed in
  res_map as_u64 (integer_operation op lhs rhs bits signed).

Definition shared_shift (kind : ShiftKind) (count_domain : IntegerType) (lhs rhs : Z)
    : result Z string :=
  let '(domain, op) := shift_parts kind in
  let '(bits, signed) := layout domain in
  let? lhs := decode_integer_domain lhs bits signed in
  let? rhs := shared_decode_integer rhs count_domain in
  res_map as_u64 (integer_operation op lhs rhs bits signed).

Section Float.
Context `{FloatOps}.

(** [float_binary], with [f32] operands read from the low 32 bits. *)
Definition float_binary (op : FloatOperation) (ty : FloatType) (lhs rhs : Z) : result Z string :=
  Ok (match ty with
      | F32 => float_arith F32 op (Std.cast 32 false lhs) (Std.cast 32 false rhs)
      | F64 => float_arith F64 op lhs rhs
      end).

Definition float_compare (ty : FloatType) (lhs rhs : Z) (c : Comparison) : result Z string :=
  Ok (test c (match ty with
              | F32 => float_partial_cmp F32 (Std.cast 32 false lhs) (Std.cast 32 false rhs)
              | F64 => float_partial_cmp F64 lhs rhs
              end)).

Definition domain_evaluate (d : ComparisonDomain) (c : Comparison) (lhs rhs : Z)
    : result Z string :=
  match d with
  | CdI32 => integer_compare 32 true lhs rhs c
  | CdI64 => integer_compare 64 true lhs rhs c
  | CdU64 => integer_compare 64 false lhs rhs c
  | CdF32 => float_compare F32 lhs rhs c
  | CdF64 => float_compare F64 lhs rhs c
  | CdChar => char_compare lhs rhs c
  | CdScalar => scalar_compare lhs rhs c
  end.

(** [payload::convert]; every caller passes a numeric [target]. *)
Definition convert (value : Z) (source target : BuiltinType) : result Z string :=
  let? number :=
    match source with
    | BtF32 => Ok (NF32 (Std.cast 32 false value))
    | BtF64 => Ok (NF64 value)
    | _ =>
        let input := match integer_layout source with
                     | Some (_, true) => Std.cast 64 true value
                     | _ => value
                     end in
        match integer_bounds source with
        | Some (min, max) =>
            if (input <? min) || (max <? input)
            then Err "invalid numeric operand type or range" else Ok (NInteger input)
        | None => Ok (NInteger input)
        end
    end in
  if bool_decide (source = target) then Ok value
  else match number_type target with
  | Some ty => Ok (match number_cast number ty with
                   | NInteger v => as_u64 v
                   | NF32 v => v
                   | NF64 v => v
                   end)
  | None => Err "numeric target"
  end.

(** [ScalarOperation::evaluate]. *)
Definition evaluate (o : ScalarOperation) (lhs rhs : Z) : result Z string :=
  match o with
  | SoInteger domain op => shared_integer op domain lhs rhs
  | SoFloat domain op => float_binary op domain lhs rhs
  | SoShift kind count_domain => shared_shift kind count_domain lhs rhs
  | SoCompare domain condition => domain_evaluate domain condition lhs rhs
  | SoIntegerConvert source target => convert lhs (builtin_type source) (builtin_type target)
  | SoIntegerToFloat source target => convert lhs (builtin_type source) (float_builtin_type target)
  | SoFloatToInteger source target => convert lhs (float_builtin_type source) (builtin_type target)
  | SoFloatConvert source target =>
      convert lhs (float_builtin_type source) (float_builtin_type target)
  | SoBoolToInteger target => convert lhs BtBool (builtin_type target)
  | I8BitNot => integer_value 8 8 true lhs rhs
  | I16BitNot => integer_value 8 16 true lhs rhs
  | I32BitNot => integer_value 8 32 true lhs rhs
  | I64BitNot => integer_value 8 64 true lhs rhs
  | U8BitNot => integer_value 8 8 false lhs rhs
  | U16BitNot => integer_value 8 16 false lhs rhs
  | U32BitNot => integer_value 8 32 false lhs rhs
  | U64BitNot => integer_value 8 64 false lhs rhs
  | I32Neg => negate_integer 32 lhs
  | I64Neg => negate_integer 64 lhs
  | F32Neg => negate_float F32 lhs
  | F64Neg => negate_float F64 lhs
  | BoolNot => boolean_not lhs
  end.
End Float.

(** ** operation/select.rs *)
Definition select_integer (op : IntegerOp) (input : BuiltinType) (rhs : option BuiltinType)
    : option ScalarOperation :=
  domain ← from_builtin input;
  match op with
  | Shl | Shr =>
      kind ← shift_kind domain op;
      rhs ← rhs;
      count_domain ← from_builtin rhs;
      Some (SoShift kind count_domain)
  | BitNot =>
      Some (match domain with
            | ItI8 => I8BitNot | ItI16 => I16BitNot | ItI32 => I32BitNot | ItI64 => I64BitNot
            | ItU8 => U8BitNot | ItU16 => U16BitNot | ItU32 => U32BitNot | ItU64 => U64BitNot
            end)
  | _ => Some (SoInteger domain op)
  end.

Definition select_binary (op : ScalarBinaryOp) (input : BuiltinType) : option ScalarOperation :=
  let condition :=
    match op with
    | SbEq => Some CEq | SbNotEq => Some CNotEq | SbLt => Some CLt
    | SbLe => Some CLe | SbGt => Some CGt | SbGe => Some CGe
    | _ => None
    end in
  match condition with
  | Some condition =>
      domain ← match input with
               | BtI32 => Some CdI32 | BtI64 => Some CdI64 | BtU64 => Some CdU64
               | BtF32 => Some CdF32 | BtF64 => Some CdF64 | BtChar => Some CdChar
               | BtBool | BtUnit =>
                   if bool_decide (condition = CEq ∨ condition = CNotEq) then Some CdScalar
                   else None
               | _ => None
               end;
      Some (SoCompare domain condition)
  | None =>
      match input with
      | BtI32 | BtI64 | BtU64 =>
          op ← match op with
               | SbAdd => Some CheckedAdd | SbSub => Some CheckedSub | SbMul => Some CheckedMul
               | SbDiv => Some CheckedDiv | SbRem => Some CheckedRem | _ => None
               end;
          select_integer op input (Some input)
      | _ =>
          domain ← float_from_builtin input;
          op ← match op with
               | SbAdd => Some FAdd | SbSub => Some FSub | SbMul => Some FMul
               | SbDiv => Some FDiv | SbRem => Some FRem | _ => None
               end;
          Some (SoFloat domain op)
      end
  end.

Definition select_negation (input : BuiltinType) : option ScalarOperation :=
  match input with
  | BtI32 => Some I32Neg | BtI64 => Some I64Neg | BtF32 => Some F32Neg | BtF64 => Some F64Neg
  | _ => None
  end.

Definition select_conversion (source target : BuiltinType) : option ScalarOperation :=
  match from_builtin source with
  | Some source =>
      match from_builtin target with
      | Some target => Some (SoIntegerConvert source target)
      | None => SoIntegerToFloat source <$> float_from_builtin target
      end
  | None =>
      match float_from_builtin source with
      | Some source =>
          match from_builtin target with
          | Some target => Some (SoFloatToInteger source target)
          | None => SoFloatConvert source <$> float_from_builtin target
          end
      | None =>
          if bool_decide (source = BtBool) then SoBoolToInteger <$> from_builtin target
          else None
      end
  end.

(** ** Carriers *)
Lemma as_u64_range z : 0 <= as_u64 z < 2 ^ 64.
Proof.
  pose proof (cast_range 64 false z ltac:(lia)) as Hr%in_range_spec.
  unfold as_u64, Std.min_value, Std.max_value in *. lia.
Qed.

(** Reading a carrier back in its domain returns the value that was stored. *)
Lemma decode_as_u64 bits signed z :
  1 <= bits <= 64 → Std.in_range bits signed z = true →
  decode_integer_domain (as_u64 z) bits signed = Ok z.
Proof.
  intros ? Hz. unfold decode_integer_domain, as_u64.
  assert ((if signed then Std.cast 64 true (Std.cast 64 false z) else Std.cast 64 false z) = z)
    as ->.
  { destruct signed; [rewrite cast_cast by lia|]; apply cast_id; try lia;
      apply in_range_spec in Hz; apply in_range_spec; unfold Std.min_value, Std.max_value in *.
    - pose proof (Z.pow_le_mono_r 2 (bits - 1) 63 ltac:(lia) ltac:(lia)). simpl. lia.
    - pose proof (Z.pow_le_mono_r 2 bits 64 ltac:(lia) ltac:(lia)). lia. }
  rewrite bounds_eq by lia. rewrite overflow_flag, Hz. done.
Qed.

Lemma decode_domain d z :
  Std.in_range (layout d).1 (layout d).2 z = true →
  decode_integer_domain (as_u64 z) (layout d).1 (layout d).2 = Ok z.
Proof.
  intros. pose proof (valid_width_range _ (layout_valid d)). apply decode_as_u64; [lia|done].
Qed.

(** A carrier outside its domain is refused before any arithmetic. *)
Lemma decode_domain_refuses bits signed v :
  1 <= bits <= 64 → 0 <= v < 2 ^ 64 →
  is_ok (decode_integer_domain v bits signed) = true →
  ∃ z, decode_integer_domain v bits signed = Ok z
       ∧ Std.in_range bits signed z = true ∧ as_u64 z = v.
Proof.
  intros ? Hv. unfold decode_integer_domain. rewrite bounds_eq by lia. rewrite overflow_flag.
  destruct (Std.in_range bits signed _) eqn:E; [|done]. intros _. eexists; split; [done|].
  split; [done|]. unfold as_u64.
  assert (Std.cast 64 false v = v) as Hid.
  { apply cast_id; [lia|]. apply in_range_spec. unfold Std.min_value, Std.max_value. lia. }
  destruct signed; [by rewrite cast_cast|done].
Qed.

(** ** Prepared execution agrees with the width semantics *)

(** The domains of the two operands of a numeric operation. *)
Definition operands_in_domain (o : NumericOperation) (l r : Z) : bool :=
  match from_builtin (num_input o), num_rhs o with
  | Some d, Some rhs =>
      Std.in_range (layout d).1 (layout d).2 l
      && match from_builtin rhs with
         | Some d' => Std.in_range (layout d').1 (layout d').2 r
         | None => false
         end
  | Some d, None => Std.in_range (layout d).1 (layout d).2 l
  | None, _ => false
  end.

Lemma shift_parts_kind d op k : shift_kind d op = Some k → shift_parts k = (d, op).
Proof. destruct d, op; simpl; intros; simplify_eq; done. Qed.

Lemma contract_rhs o s : operation_contract o = Some s →
  ∃ d, from_builtin (num_input o) = Some d ∧
    match num_op o with
    | BitNot => num_rhs o = None
    | Shl | Shr => ∃ c, num_rhs o = Some (builtin_type c)
    | _ => num_rhs o = Some (num_input o)
    end.
Proof.
  destruct o as [op input rhs]. unfold operation_contract, integer_layout; simpl.
  destruct (from_builtin input) as [d|] eqn:Hd; [|done]. intros H. exists d. split; [done|].
  destruct op, rhs as [rhs|]; simpl in *; try done;
    destruct (from_builtin rhs) as [c|] eqn:Hc; simpl in *; try done;
    try (apply from_builtin_Some in Hc; eexists; by f_equal);
    by destruct (decide (rhs = input)) as [-> |]; [|rewrite bool_decide_eq_false_2 in H].
Qed.

Lemma shared_integer_encoded op d l r :
  Std.in_range (layout d).1 (layout d).2 l = true →
  Std.in_range (layout d).1 (layout d).2 r = true →
  shared_integer op d (as_u64 l) (as_u64 r)
  = res_map as_u64 (integer_operation op l r (layout d).1 (layout d).2).
Proof.
  intros Hl Hr. unfold shared_integer. pose proof (decode_domain d l Hl) as El.
  pose proof (decode_domain d r Hr) as Er.
  destruct (layout d) as [bits signed]; simpl in *. by rewrite El; simpl; rewrite Er.
Qed.

Lemma shared_shift_encoded op k d c l r :
  shift_kind d op = Some k →
  Std.in_range (layout d).1 (layout d).2 l = true →
  Std.in_range (layout c).1 (layout c).2 r = true →
  shared_shift k c (as_u64 l) (as_u64 r)
  = res_map as_u64 (integer_operation op l r (layout d).1 (layout d).2).
Proof.
  intros Hk Hl Hr. unfold shared_shift, shared_decode_integer.
  rewrite (shift_parts_kind _ _ _ Hk). pose proof (decode_domain d l Hl) as El.
  pose proof (decode_domain c r Hr) as Er.
  destruct (layout d) as [bits signed], (layout c) as [cb cs]; simpl in *.
  by rewrite El; simpl; rewrite Er.
Qed.

Lemma bitnot_encoded `{FloatOps} d l r :
  Std.in_range (layout d).1 (layout d).2 l = true →
  integer_value 8 (layout d).1 (layout d).2 (as_u64 l) r
  = res_map as_u64 (integer_operation BitNot l 0 (layout d).1 (layout d).2).
Proof.
  intros Hl. unfold integer_value. by rewrite (decode_domain d l Hl).
Qed.

Lemma evaluate_integer `{FloatOps} o s so l r :
  operation_contract o = Some s →
  select_integer (num_op o) (num_input o) (num_rhs o) = Some so →
  operands_in_domain o l r = true →
  evaluate so (as_u64 l) (as_u64 r) =
    match integer_layout (num_input o) with
    | Some (bits, signed) =>
        res_map as_u64 (integer_operation (num_op o) l
                          (if num_rhs o then r else 0) bits signed)
    | None => Err "unreachable"
    end.
Proof.
  intros Hc Hs Hd. destruct (contract_rhs _ _ Hc) as (d & Hin & Hrhs).
  destruct o as [op input rhs]; unfold operands_in_domain, select_integer, integer_layout in *;
    simpl in *. rewrite Hin in *; simpl in *.
  destruct (layout d) as [bits signed] eqn:Hlay; simpl in *.
  assert (bits = (layout d).1) as -> by (by rewrite Hlay).
  assert (signed = (layout d).2) as -> by (by rewrite Hlay).
  destruct op; lazymatch type of Hrhs with ex _ => destruct Hrhs as [c ->] | _ => subst rhs end;
    simplify_eq; simpl in *; rewrite ?Hin, ?from_builtin_type in *; simpl in *;
    try lazymatch type of Hd with (_ && _) = true => apply andb_true_iff in Hd as [Hl Hr] end;
    try (simplify_eq; by apply shared_integer_encoded).
  - transitivity (integer_value 8 (layout d).1 (layout d).2 (as_u64 l) (as_u64 r));
      [by destruct d|by apply (bitnot_encoded _)].
  - destruct (shift_kind d Shl) eqn:Hk; simplify_eq/=. by apply shared_shift_encoded.
  - destruct (shift_kind d Shr) eqn:Hk; simplify_eq/=. by apply shared_shift_encoded.
Qed.
