(* ===== verification/RuntimeNumeric.v ===== *)
(** * Runtime values and their numeric operations

    Models [kagari-runtime/src/value.rs] (the [Value] carrier and
    [has_representation]), [value/scalar.rs], [numeric.rs] and
    [numeric/compare.rs], with the bytecode operators of
    [kagari-bytecode/src/instruction.rs] they dispatch on. *)
From S2P Require Import Prelude Integer Scalar Payload.
Open Scope Z_scope.

(** [gc::HeapObjectId]. *)
Record HeapObjectId : Set := { owner : Z; slot : Z; generation : Z }.
#[export] Instance HeapObjectId_eq_dec : EqDecision HeapObjectId.
Proof. solve_decision. Defined.

(** A float is kept as its bit pattern, a [char] as its scalar value. *)
Inductive Value : Set :=
| VUnit | VBool (b : bool) | VChar (c : Z)
| VI32 (z : Z) | VI64 (z : Z) | VU64 (z : Z) | VF32 (bits : Z) | VF64 (bits : Z)
| VStr (id : HeapObjectId) | VTuple (id : HeapObjectId) | VRange (id : HeapObjectId)
| VArray (id : HeapObjectId) | VMap (id : HeapObjectId) | VSet (id : HeapObjectId)
| VEnum (id : HeapObjectId) | VStruct (id : HeapObjectId) | VGcHandle (id : HeapObjectId)
| VInterface (id : HeapObjectId) | VClosure (id : HeapObjectId) | VCell (id : HeapObjectId)
| VHostRoot (id : HeapObjectId) | VHostPathView (id : HeapObjectId)
| VEphemeral (id : HeapObjectId) | VRuntimeEphemeral (id : Z).
#[export] Instance Value_eq_dec : EqDecision Value.
Proof. solve_decision. Defined.

Definition has_representation (v : Value) (ty : ValueType) : bool :=
  match ty with
  | VtGeneric => match v with VEphemeral _ | VRuntimeEphemeral _ => false | _ => true end
  | _ =>
      match v, ty with
      | VUnit, VtUnit | VBool _, VtBool | VChar _, VtChar | VI32 _, VtI32 | VI64 _, VtI64
      | VU64 _, VtU64 | VF32 _, VtF32 | VF64 _, VtF64 | VStr _, VtStr => true
      | (VHostRoot _ | VHostPathView _ | VEphemeral _), VtHostHandle => true
      | (VRange _ | VTuple _ | VArray _ | VMap _ | VSet _ | VEnum _ | VStruct _ | VGcHandle _
        | VInterface _ | VClosure _ | VCell _), VtHeapObject => true
      | _, _ => false
      end
  end.

(** ** value/scalar.rs *)
Definition encode (v : Value) : option Z :=
  match v with
  | VUnit => Some 0
  | VBool b => Some (Z.b2z b)
  | VChar c => Some c
  | VI32 z => Some (as_u64 (Std.cast 64 true z))
  | VI64 z => Some (as_u64 z)
  | VU64 z => Some z
  | VF32 bits => Some bits
  | VF64 bits => Some bits
  | _ => None
  end.

Definition decode_char (bits : Z) : option Z :=
  if (bits <? 2 ^ 32) && is_scalar_value bits then Some bits else None.

Definition decode (ty : ValueType) (bits : Z) : option Value :=
  match ty with
  | VtUnit => Some VUnit
  | VtBool => if bits <=? 1 then Some (VBool (negb (bits =? 0))) else None
  | VtChar => VChar <$> decode_char bits
  | VtI32 => Some (VI32 (Std.cast 32 true bits))
  | VtI64 => Some (VI64 (Std.cast 64 true bits))
  | VtU64 => Some (VU64 bits)
  | VtF32 => Some (VF32 (Std.cast 32 false bits))
  | VtF64 => Some (VF64 bits)
  | _ => None
  end.

Definition admits_payload (representation : ValueType) (semantic : option BuiltinType) (bits : Z)
    : bool :=
  if bool_decide (representation = VtChar) || bool_decide (semantic = Some BtChar) then
    bool_decide (representation = VtChar)
    && match semantic with None => true | Some ty => bool_decide (ty = BtChar) end
    && bool_decide (is_Some (decode_char bits))
  else if bool_decide (representation = VtBool) && (1 <? bits) then false
  else match semantic ≫= integer_bounds with
  | None => true
  | Some (min, max) =>
      match representation with
      | VtI32 | VtI64 =>
          let value := Std.cast 64 true bits in (min <=? value) && (value <=? max)
      | VtU64 => (min <=? bits) && (bits <=? max)
      | _ => false
      end
  end.

(** ** Errors: the kinds raised here, and the message *)
Inductive RuntimeErrorKind : Set :=
| Cancelled | EngineFault | ScriptTrap | IndexOutOfBounds | ExecutionPhaseViolation
| InvalidReflectiveRead | InvalidReflectiveWrite | ExpiredHostBorrow | HostBorrowConflict
| HostBorrowEscape | HostCallFailure | TypedPathValidation | ModuleValidation
| ResourceLimitExceeded | MetadataConflict | StaleHandle.
Record RuntimeError : Set := { error_kind : RuntimeErrorKind; error_message : string }.

Definition script_trap (message : string) : RuntimeError :=
  {| error_kind := ScriptTrap; error_message := message |}.
Definition module_validation (detail : string) : RuntimeError :=
  {| error_kind := ModuleValidation;
     error_message := String.append "module validation failed: " detail |}.
Definition arithmetic_trap (e : ArithmeticError) : RuntimeError := script_trap (message e).

(** ** Bytecode operators *)
Inductive UnaryOp : Set := Neg | Not.
Inductive BinaryOp : Set :=
| BNumeric (operation : NumericOperation)
| BAdd | BSub | BMul | BDiv | BRem | BEq | BNotEq | BIdentityEq | BIdentityNotEq
| BLt | BGt | BLe | BGe.
#[export] Instance BinaryOp_eq_dec : EqDecision BinaryOp.
Proof. solve_decision. Defined.

(** [binary_operation]; [None] stands for its [unreachable!()] operators. *)
Definition binary_operation (op : BinaryOp) : option ScalarBinaryOp :=
  match op with
  | BAdd => Some SbAdd | BSub => Some SbSub | BMul => Some SbMul | BDiv => Some SbDiv
  | BRem => Some SbRem | BEq => Some SbEq | BNotEq => Some SbNotEq | BLt => Some SbLt
  | BLe => Some SbLe | BGt => Some SbGt | BGe => Some SbGe
  | BNumeric _ | BIdentityEq | BIdentityNotEq => None
  end.

Definition expected_arithmetic : RuntimeError := script_trap "expected arithmetic operation".

Definition read_integer (ty : BuiltinType) (value : Value) : result Z RuntimeError :=
  let fail := script_trap "invalid numeric operand type or range" in
  if negb (has_representation value (builtin_representation ty)) then Err fail
  else
    let? value := match value with VI32 v | VI64 v | VU64 v => Ok v | _ => Err fail end in
    let? lay := ok_or (integer_layout ty) fail in
    let '(minimum, maximum) := bounds lay.1 lay.2 in
    if negb ((minimum <=? value) && (value <=? maximum)) then Err fail else Ok value.

(** [integer!]'s operator table of [binary]. *)
Definition integer_binary_op (op : BinaryOp) : option IntegerBinaryOp :=
  match op with
  | BAdd => Some OpAdd | BSub => Some OpSub | BMul => Some OpMul | BDiv => Some OpDiv
  | BRem => Some OpRem | _ => None
  end.
Definition integer_kernel (k : IntegerBinaryOp → Z → Z → result Z ArithmeticError)
    (wrap : Z → Value) (op : BinaryOp) (lhs rhs : Z) : result Value RuntimeError :=
  let? op := ok_or (integer_binary_op op) expected_arithmetic in
  res_map_err arithmetic_trap (res_map wrap (k op lhs rhs)).

Section Numeric.
Context `{FloatOps}.

Definition unary (op : UnaryOp) (value : Value) : result Value RuntimeError :=
  match op, value with
  | Neg, VI32 v => res_map_err arithmetic_trap (res_map VI32 (i32_neg v))
  | Neg, VI64 v => res_map_err arithmetic_trap (res_map VI64 (i64_neg v))
  | Neg, VF32 v => Ok (VF32 (Z.lxor v (Z.shiftl 1 31)))
  | Neg, VF64 v => Ok (VF64 (Z.lxor v (Z.shiftl 1 63)))
  | Not, VBool b => Ok (VBool (negb b))
  | _, _ => Err (script_trap "invalid unary operand")
  end.

Definition fixed_integer (operation : NumericOperation) (lhs : Value) (rhs : option Value)
    : result Value RuntimeError :=
  let invalid := script_trap "invalid numeric operand" in
  let? _ := ok_or (operation_contract operation) invalid in
  let? lhs := res_map as_u64 (read_integer (num_input operation) lhs) in
  let? rhs := match num_rhs operation, rhs with
              | Some ty, Some value => res_map as_u64 (read_integer ty value)
              | None, None => Ok 0
              | _, _ => Err invalid
              end in
  let? selected :=
    ok_or (select_integer (num_op operation) (num_input operation) (num_rhs operation)) invalid in
  let? bits := res_map_err script_trap (evaluate selected lhs rhs) in
  ok_or (decode (builtin_representation (num_input operation)) bits)
        {| error_kind := EngineFault; error_message := "integer result" |}.

Definition float_bits (ty : FloatType) (op : BinaryOp) (lhs rhs : Z) : result Z RuntimeError :=
  let? op := ok_or (match op with
                    | BAdd => Some FAdd | BSub => Some FSub | BMul => Some FMul
                    | BDiv => Some FDiv | BRem => Some FRem | _ => None
                    end) expected_arithmetic in
  res_map_err script_trap (float_binary op ty lhs rhs).

Definition binary (op : BinaryOp) (lhs rhs : Value) : result Value RuntimeError :=
  match op with
  | BNumeric operation => fixed_integer operation lhs (Some rhs)
  | _ =>
      match lhs, rhs with
      | VI32 l, VI32 r => integer_kernel i32_binary VI32 op l r
      | VI64 l, VI64 r => integer_kernel i64_binary VI64 op l r
      | VU64 l, VU64 r => integer_kernel u64_binary VU64 op l r
      | VF32 l, VF32 r => res_map (λ bits, VF32 (Std.cast 32 false bits)) (float_bits F32 op l r)
      | VF64 l, VF64 r => res_map VF64 (float_bits F64 op l r)
      | _, _ => Err (script_trap "arithmetic requires matching numeric operands")
      end
  end.

(** [compare!]: the comparison operator over an ordered (or unordered) pair. *)
Definition comparison_of (op : BinaryOp) : option Comparison :=
  match op with
  | BEq => Some CEq | BNotEq => Some CNotEq | BLt => Some CLt
  | BLe => Some CLe | BGt => Some CGt | BGe => Some CGe | _ => None
  end.
Definition compare_with (op : BinaryOp) (o : option comparison) : result Value RuntimeError :=
  match comparison_of op with
  | Some c => Ok (VBool (negb (test c o =? 0)))
  | None => Err (module_validation "scalar comparison opcode")
  end.

Definition compare (op : BinaryOp) (lhs rhs : Value) : result Value RuntimeError :=
  let equality := bool_decide (op = BEq ∨ op = BNotEq) in
  match lhs, rhs with
  | VUnit, VUnit =>
      if equality then Ok (VBool (bool_decide (op = BEq)))
      else Err (module_validation "scalar comparison operands")
  | VBool a, VBool b =>
      if equality then Ok (VBool (eqb (eqb a b) (bool_decide (op = BEq))))
      else Err (module_validation "scalar comparison operands")
  | VChar a, VChar b | VI32 a, VI32 b | VI64 a, VI64 b | VU64 a, VU64 b =>
      compare_with op (Some (a ?= b))
  | VF32 a, VF32 b => compare_with op (float_partial_cmp F32 a b)
  | VF64 a, VF64 b => compare_with op (float_partial_cmp F64 a b)
  | _, _ => Err (module_validation "scalar comparison operands")
  end.

Definition scalar_binary (op : BinaryOp) (lhs rhs : Value) : result Value RuntimeError :=
  match op with
  | BEq | BNotEq | BLt | BLe | BGt | BGe => compare op lhs rhs
  | _ => binary op lhs rhs
  end.

(** [numeric::convert]. *)
Definition numeric_convert (conversion : NumericConversion) (value : Value)
    : result Value RuntimeError :=
  let fail := script_trap "invalid numeric conversion" in
  let? _ := ok_or (conversion_contract conversion) fail in
  if negb (has_representation value (builtin_representation (conv_source conversion)))
  then Err fail
  else
    let? selected := ok_or (select_conversion (conv_source conversion) (conv_target conversion))
                           fail in
    let? input := ok_or (encode value) fail in
    let? bits := res_map_err script_trap (evaluate selected input 0) in
    ok_or (decode (builtin_representation (conv_target conversion)) bits) fail.

Definition checked_convert (source target : BuiltinType) (value : Value)
    : result (option Value) RuntimeError :=
  let? fallible := ok_or (checked_conversion_fallible source target)
                         (module_validation "checked scalar conversion") in
  let? _ :=
    match integer_layout source with
    | Some _ => res_map (λ _, tt) (read_integer source value)
    | None => if has_representation value (builtin_representation source) then Ok tt
              else Err (module_validation "checked scalar source")
    end in
  let? admitted :=
    if fallible : bool then
      let? input := read_integer source value in
      let? lay := ok_or (integer_layout target) (module_validation "checked scalar target") in
      let '(minimum, maximum) := bounds lay.1 lay.2 in
      Ok (negb ((input <? minimum) || (maximum <? input)))
    else Ok true in
  if admitted : bool then
    if bool_decide (source = target) then Ok (Some value)
    else res_map Some (numeric_convert {| conv_source := source; conv_target := target |} value)
  else Ok None.

(** [integer_method]; [alloc_tuple] is [GcHeap::alloc_tuple]. *)
Definition integer_method (alloc_tuple : list Value → result Value RuntimeError)
    (operation : IntegerMethod) (ty : BuiltinType) (args : list Value)
    : result (option Value) RuntimeError :=
  match args with
  | [lhs; rhs] =>
      let? lay := ok_or (integer_layout ty) (script_trap "integer receiver required") in
      let? contract := ok_or (method_contract operation ty)
        (script_trap "signed-offset wrapping requires an unsigned receiver") in
      let? l := read_integer ty lhs in
      let? r := read_integer (mc_rhs contract) rhs in
      let '(value, overflow) := arithmetic_method operation l r lay.1 lay.2 in
      let value := match ty with
                   | BtI8 | BtI16 | BtI32 => VI32 (Std.cast 32 true value)
                   | BtU64 => VU64 (Std.cast 64 false value)
                   | _ => VI64 (Std.cast 64 true value)
                   end in
      if checked operation && overflow then Ok None
      else if method_overflowing operation
      then res_map Some (alloc_tuple [value; VBool overflow])
      else Ok (Some value)
  | _ => Err (script_trap "integer method requires two arguments")
  end.
End Numeric.

(** [module/execution/layout.rs]: the builtin type of a scalar slot. *)
Definition scalar_type (ty : ValueType) : option BuiltinType :=
  match ty with
  | VtUnit => Some BtUnit | VtBool => Some BtBool | VtChar => Some BtChar
  | VtI32 => Some BtI32 | VtI64 => Some BtI64 | VtU64 => Some BtU64
  | VtF32 => Some BtF32 | VtF64 => Some BtF64
  | _ => None
  end.

(** [module/execution/scalar.rs], [binary]: the operation prepared for an
    operator over slots of one representation. *)
Definition prepare_binary (op : BinaryOp) (representation : ValueType) : option ScalarOperation :=
  match op with
  | BNumeric operation =>
      select_integer (num_op operation) (num_input operation) (num_rhs operation)
  | BIdentityEq | BIdentityNotEq => None
  | _ => sop ← binary_operation op; ty ← scalar_type representation; select_binary sop ty
  end.

(** [module/execution/scalar.rs], [prepare]: the operation of a unary instruction. *)
Definition prepare_unary (op : UnaryOp) (representation : ValueType) : option ScalarOperation :=
  match op with
  | Neg => ty ← scalar_type representation; select_negation ty
  | Not => Some BoolNot
  end.

(** ** Prepared execution

    [scalar_catalog.rs], [module/execution/scalar.rs] and the scalar instructions of
    [frame/cursor/scalars.rs].  The catalog is a macro that defines, for each row, the
    constructors of [ExecutionInstruction], their selection and their handler; here an
    instruction names its row. *)
Module Prepared.

#[export] Instance FloatOperation_eq_dec : EqDecision FloatOperation.
Proof. solve_decision. Defined.
#[export] Instance ShiftKind_eq_dec : EqDecision ShiftKind.
Proof. solve_decision. Defined.
#[export] Instance ComparisonDomain_eq_dec : EqDecision ComparisonDomain.
Proof. solve_decision. Defined.
#[export] Instance ScalarOperation_eq_dec : EqDecision ScalarOperation.
Proof. solve_decision. Defined.

(** [payload::float_binary::<OP, F32>]. *)
Definition float_value_op (OP : Z) : option FloatOperation :=
  match OP with
  | 0 => Some FAdd | 1 => Some FSub | 2 => Some FMul | 3 => Some FDiv | 4 => Some FRem | _ => None
  end.
Definition float_value `{FloatOps} (OP : Z) (single : bool) (lhs rhs : Z) : result Z string :=
  match float_value_op OP with
  | Some op => float_binary op (if single then F32 else F64) lhs rhs
  | None => Err "unreachable"
  end.

(** A row: the operation, the width of the constant operand its second form keeps, and
    the handler. *)
Record BinaryRow : Type := {
  br_operation : ScalarOperation; br_bits : Z; br_signed : bool; br_handler : Z → Z → result Z string
}.
Definition row (operation : ScalarOperation) (bits : Z) (signed : bool) (handler : Z → Z → result Z string)
    : BinaryRow :=
  {| br_operation := operation; br_bits := bits; br_signed := signed; br_handler := handler |}.
Record CompareRow : Type := {
  cr_domain : ComparisonDomain; cr_bits : Z; cr_signed : bool;
  cr_handler : Z → Z → Comparison → result Z string
}.

Section Catalog.
Context `{FloatOps}.

Definition binary_catalog : list BinaryRow :=
  [ row (SoInteger ItI8 CheckedAdd) 8 true (integer_value 0 8 true);
    row (SoInteger ItI8 CheckedSub) 8 true (integer_value 1 8 true);
    row (SoInteger ItI8 CheckedMul) 8 true (integer_value 2 8 true);
    row (SoInteger ItI8 CheckedDiv) 8 true (integer_value 3 8 true);
    row (SoInteger ItI8 CheckedRem) 8 true (integer_value 4 8 true);
    row (SoInteger ItI8 BitAnd) 8 true (integer_value 5 8 true);
    row (SoInteger ItI8 BitOr) 8 true (integer_value 6 8 true);
    row (SoInteger ItI8 BitXor) 8 true (integer_value 7 8 true);
    row (SoInteger ItI16 CheckedAdd) 16 true (integer_value 0 16 true);
    row (SoInteger ItI16 CheckedSub) 16 true (integer_value 1 16 true);
    row (SoInteger ItI16 CheckedMul) 16 true (integer_value 2 16 true);
    row (SoInteger ItI16 CheckedDiv) 16 true (integer_value 3 16 true);
    row (SoInteger ItI16 CheckedRem) 16 true (integer_value 4 16 true);
    row (SoInteger ItI16 BitAnd) 16 true (integer_value 5 16 true);
    row (SoInteger ItI16 BitOr) 16 true (integer_value 6 16 true);
    row (SoInteger ItI16 BitXor) 16 true (integer_value 7 16 true);
    row (SoInteger ItI32 CheckedAdd) 32 true (integer_value 0 32 true);
    row (SoInteger ItI32 CheckedSub) 32 true (integer_value 1 32 true);
    row (SoInteger ItI32 CheckedMul) 32 true (integer_value 2 32 true);
    row (SoInteger ItI32 CheckedDiv) 32 true (integer_value 3 32 true);
    row (SoInteger ItI32 CheckedRem) 32 true (integer_value 4 32 true);
    row (SoInteger ItI32 BitAnd) 32 true (integer_value 5 32 true);
    row (SoInteger ItI32 BitOr) 32 true (integer_value 6 32 true);
    row (SoInteger ItI32 BitXor) 32 true (integer_value 7 32 true);
    row (SoInteger ItI64 CheckedAdd) 64 true (integer_value 0 64 true);
    row (SoInteger ItI64 CheckedSub) 64 true (integer_value 1 64 true);
    row (SoInteger ItI64 CheckedMul) 64 true (integer_value 2 64 true);
    row (SoInteger ItI64 CheckedDiv) 64 true (integer_value 3 64 true);
    row (SoInteger ItI64 CheckedRem) 64 true (integer_value 4 64 true);
    row (SoInteger ItI64 BitAnd) 64 true (integer_value 5 64 true);
    row (SoInteger ItI64 BitOr) 64 true (integer_value 6 64 true);
    row (SoInteger ItI64 BitXor) 64 true (integer_value 7 64 true);
    row (SoInteger ItU8 CheckedAdd) 8 false (integer_value 0 8 false);
    row (SoInteger ItU8 CheckedSub) 8 false (integer_value 1 8 false);
    row (SoInteger ItU8 CheckedMul) 8 false (integer_value 2 8 false);
    row (SoInteger ItU8 CheckedDiv) 8 false (integer_value 3 8 false);
    row (SoInteger ItU8 CheckedRem) 8 false (integer_value 4 8 false);
    row (SoInteger ItU8 BitAnd) 8 false (integer_value 5 8 false);
    row (SoInteger ItU8 BitOr) 8 false (integer_value 6 8 false);
    row (SoInteger ItU8 BitXor) 8 false (integer_value 7 8 false);
    row (SoInteger ItU16 CheckedAdd) 16 false (integer_value 0 16 false);
    row (SoInteger ItU16 CheckedSub) 16 false (integer_value 1 16 false);
    row (SoInteger ItU16 CheckedMul) 16 false (integer_value 2 16 false);
    row (SoInteger ItU16 CheckedDiv) 16 false (integer_value 3 16 false);
    row (SoInteger ItU16 CheckedRem) 16 false (integer_value 4 16 false);
    row (SoInteger ItU16 BitAnd) 16 false (integer_value 5 16 false);
    row (SoInteger ItU16 BitOr) 16 false (integer_value 6 16 false);
    row (SoInteger ItU16 BitXor) 16 false (integer_value 7 16 false);
    row (SoInteger ItU32 CheckedAdd) 32 false (integer_value 0 32 false);
    row (SoInteger ItU32 CheckedSub) 32 false (integer_value 1 32 false);
    row (SoInteger ItU32 CheckedMul) 32 false (integer_value 2 32 false);
    row (SoInteger ItU32 CheckedDiv) 32 false (integer_value 3 32 false);
    row (SoInteger ItU32 CheckedRem) 32 false (integer_value 4 32 false);
    row (SoInteger ItU32 BitAnd) 32 false (integer_value 5 32 false);
    row (SoInteger ItU32 BitOr) 32 false (integer_value 6 32 false);
    row (SoInteger ItU32 BitXor) 32 false (integer_value 7 32 false);
    row (SoInteger ItU64 CheckedAdd) 64 false (integer_value 0 64 false);
    row (SoInteger ItU64 CheckedSub) 64 false (integer_value 1 64 false);
    row (SoInteger ItU64 CheckedMul) 64 false (integer_value 2 64 false);
    row (SoInteger ItU64 CheckedDiv) 64 false (integer_value 3 64 false);
    row (SoInteger ItU64 CheckedRem) 64 false (integer_value 4 64 false);
    row (SoInteger ItU64 BitAnd) 64 false (integer_value 5 64 false);
    row (SoInteger ItU64 BitOr) 64 false (integer_value 6 64 false);
    row (SoInteger ItU64 BitXor) 64 false (integer_value 7 64 false);
    row (SoFloat F32 FAdd) 32 false (float_value 0 true);
    row (SoFloat F32 FSub) 32 false (float_value 1 true);
    row (SoFloat F32 FMul) 32 false (float_value 2 true);
    row (SoFloat F32 FDiv) 32 false (float_value 3 true);
    row (SoFloat F32 FRem) 32 false (float_value 4 true);
    row (SoFloat F64 FAdd) 64 false (float_value 0 false);
    row (SoFloat F64 FSub) 64 false (float_value 1 false);
    row (SoFloat F64 FMul) 64 false (float_value 2 false);
    row (SoFloat F64 FDiv) 64 false (float_value 3 false);
    row (SoFloat F64 FRem) 64 false (float_value 4 false) ].

Definition shift_catalog : list (ShiftKind * (Z → Z → IntegerType → result Z string)) :=
  [ (I8Shl, shift_value false 8 true); (I8Shr, shift_value true 8 true);
    (I16Shl, shift_value false 16 true); (I16Shr, shift_value true 16 true);
    (I32Shl, shift_value false 32 true); (I32Shr, shift_value true 32 true);
    (I64Shl, shift_value false 64 true); (I64Shr, shift_value true 64 true);
    (U8Shl, shift_value false 8 false); (U8Shr, shift_value true 8 false);
    (U16Shl, shift_value false 16 false); (U16Shr, shift_value true 16 false);
    (U32Shl, shift_value false 32 false); (U32Shr, shift_value true 32 false);
    (U64Shl, shift_value false 64 false); (U64Shr, shift_value true 64 false) ].

Definition compare_catalog : list CompareRow :=
  [ {| cr_domain := CdI32; cr_bits := 32; cr_signed := true; cr_handler := integer_compare 32 true |};
    {| cr_domain := CdI64; cr_bits := 64; cr_signed := true; cr_handler := integer_compare 64 true |};
    {| cr_domain := CdU64; cr_bits := 64; cr_signed := false; cr_handler := integer_compare 64 false |};
    {| cr_domain := CdF32; cr_bits := 32; cr_signed := false; cr_handler := float_compare F32 |};
    {| cr_domain := CdF64; cr_bits := 64; cr_signed := false; cr_handler := float_compare F64 |} ].

Definition simple_catalog : list (ComparisonDomain * (Z → Z → Comparison → result Z string)) :=
  [ (CdChar, char_compare); (CdScalar, scalar_compare) ].

Definition unary_catalog : list (ScalarOperation * (Z → Z → result Z string)) :=
  [ (I8BitNot, integer_value 8 8 true); (I16BitNot, integer_value 8 16 true);
    (I32BitNot, integer_value 8 32 true); (I64BitNot, integer_value 8 64 true);
    (U8BitNot, integer_value 8 8 false); (U16BitNot, integer_value 8 16 false);
    (U32BitNot, integer_value 8 32 false); (U64BitNot, integer_value 8 64 false);
    (I32Neg, λ value _, negate_integer 32 value); (I64Neg, λ value _, negate_integer 64 value);
    (F32Neg, λ value _, negate_float F32 value); (F64Neg, λ value _, negate_float F64 value);
    (BoolNot, λ value _, boolean_not value) ].
End Catalog.

(** *** Instructions *)
Definition ScalarSlot : Set := nat.
Definition JumpTarget : Set := nat.
Inductive ScalarInput : Set := InSlot (s : ScalarSlot) | InConstant (bits : Z).
Inductive ScalarTarget : Set :=
| Store (dst : ScalarSlot) | BranchTo (then_target else_target : JumpTarget).

(** [ExecutionInstruction], without the exits of the scalar loop. *)
Inductive ExecutionInstruction : Set :=
| Constant (dst : ScalarSlot) (value : Z)
| Move (dst src : ScalarSlot)
| BinaryRR (row : nat) (dst lhs rhs : ScalarSlot)
| BinaryRK (row : nat) (dst lhs : ScalarSlot) (rhs : Z)
| ShiftRR (row : nat) (dst lhs rhs : ScalarSlot) (count_domain : IntegerType)
| ShiftRK (row : nat) (dst lhs : ScalarSlot) (rhs : Z) (count_domain : IntegerType)
| CompareRR (row : nat) (dst lhs rhs : ScalarSlot) (condition : Comparison)
| CompareRK (row : nat) (dst lhs : ScalarSlot) (rhs : Z) (condition : Comparison)
| CompareBranchRR (row : nat) (lhs rhs : ScalarSlot) (condition : Comparison) (t e : JumpTarget)
| CompareBranchRK (row : nat) (lhs : ScalarSlot) (rhs : Z) (condition : Comparison) (t e : JumpTarget)
| SimpleCompareRR (row : nat) (dst lhs rhs : ScalarSlot) (condition : Comparison)
| SimpleCompareBranchRR (row : nat) (lhs rhs : ScalarSlot) (condition : Comparison) (t e : JumpTarget)
| UnaryR (row : nat) (dst src : ScalarSlot)
| IntegerConvert (dst src : ScalarSlot) (source target : IntegerType)
| IntegerToFloat (dst src : ScalarSlot) (source : IntegerType) (target : FloatType)
| FloatToInteger (dst src : ScalarSlot) (source : FloatType) (target : IntegerType)
| FloatConvert (dst src : ScalarSlot) (source target : FloatType)
| BoolToInteger (dst src : ScalarSlot) (target : IntegerType)
| IntegerBinaryKR (dst : ScalarSlot) (lhs : Z) (rhs : ScalarSlot) (op : IntegerOp) (domain : IntegerType)
| IntegerBinaryKK (dst : ScalarSlot) (lhs rhs : Z) (op : IntegerOp) (domain : IntegerType)
| FloatBinaryKR (dst : ScalarSlot) (lhs : Z) (rhs : ScalarSlot) (op : FloatOperation) (domain : FloatType)
| FloatBinaryKK (dst : ScalarSlot) (lhs rhs : Z) (op : FloatOperation) (domain : FloatType)
| ShiftKR (dst : ScalarSlot) (lhs : Z) (rhs : ScalarSlot) (kind : ShiftKind) (count_domain : IntegerType)
| ShiftKK (dst : ScalarSlot) (lhs rhs : Z) (kind : ShiftKind) (count_domain : IntegerType)
| CompareStoreKR (dst : ScalarSlot) (lhs : Z) (rhs : ScalarSlot) (domain : ComparisonDomain) (condition : Comparison)
| CompareStoreKK (dst : ScalarSlot) (lhs rhs : Z) (domain : ComparisonDomain) (condition : Comparison)
| CompareBranchKR (lhs : Z) (rhs : ScalarSlot) (domain : ComparisonDomain) (condition : Comparison) (t e : JumpTarget)
| Jump (target : JumpTarget)
| Branch (cond : ScalarSlot) (then_target else_target : JumpTarget).

(** *** Selection *)
(** Preparation answers no scalar instruction, or panics. *)
Inductive Selection : Set := Selected (i : ExecutionInstruction) | Unselected | PreparePanic.

Section Select.
Context `{FloatOps}.

Definition binary_arm (operation : ScalarOperation) (lhs rhs : ScalarInput) (target : ScalarTarget)
    : option ExecutionInstruction :=
  '(n, r) ← list_find (λ r, br_operation r = operation) binary_catalog;
  match lhs, rhs, target with
  | InSlot lhs, InSlot rhs, Store dst => Some (BinaryRR n dst lhs rhs)
  | InSlot lhs, InConstant rhs, Store dst =>
      Some (BinaryRK n dst lhs (Std.cast (br_bits r) (br_signed r) rhs))
  | _, _, _ => None
  end.

Definition shift_arm (operation : ScalarOperation) (lhs rhs : ScalarInput) (target : ScalarTarget)
    : option ExecutionInstruction :=
  match operation with
  | SoShift kind count_domain =>
      '(n, _) ← list_find (λ r, r.1 = kind) shift_catalog;
      match lhs, rhs, target with
      | InSlot lhs, InSlot rhs, Store dst => Some (ShiftRR n dst lhs rhs count_domain)
      | InSlot lhs, InConstant rhs, Store dst => Some (ShiftRK n dst lhs rhs count_domain)
      | _, _, _ => None
      end
  | _ => None
  end.

Definition compare_arm (operation : ScalarOperation) (lhs rhs : ScalarInput) (target : ScalarTarget)
    : option ExecutionInstruction :=
  match operation with
  | SoCompare domain condition =>
      '(n, r) ← list_find (λ r, cr_domain r = domain) compare_catalog;
      match lhs, rhs, target with
      | InSlot lhs, InSlot rhs, Store dst => Some (CompareRR n dst lhs rhs condition)
      | InSlot lhs, InConstant rhs, Store dst =>
          Some (CompareRK n dst lhs (Std.cast (cr_bits r) (cr_signed r) rhs) condition)
      | InSlot lhs, InSlot rhs, BranchTo t e => Some (CompareBranchRR n lhs rhs condition t e)
      | InSlot lhs, InConstant rhs, BranchTo t e =>
          Some (CompareBranchRK n lhs (Std.cast (cr_bits r) (cr_signed r) rhs) condition t e)
      | _, _, _ => None
      end
  | _ => None
  end.

Definition simple_arm (operation : ScalarOperation) (lhs rhs : ScalarInput) (target : ScalarTarget)
    : option ExecutionInstruction :=
  match operation with
  | SoCompare domain condition =>
      '(n, _) ← list_find (λ r, r.1 = domain) simple_catalog;
      match lhs, rhs, target with
      | InSlot lhs, InSlot rhs, Store dst => Some (SimpleCompareRR n dst lhs rhs condition)
      | InSlot lhs, InSlot rhs, BranchTo t e => Some (SimpleCompareBranchRR n lhs rhs condition t e)
      | _, _, _ => None
      end
  | _ => None
  end.

Definition unary_arm (operation : ScalarOperation) (lhs : ScalarInput) (target : ScalarTarget)
    : option ExecutionInstruction :=
  match lhs, target with
  | InSlot src, Store dst =>
      match operation with
      | SoIntegerConvert source target => Some (IntegerConvert dst src source target)
      | SoIntegerToFloat source target => Some (IntegerToFloat dst src source target)
      | SoFloatToInteger source target => Some (FloatToInteger dst src source target)
      | SoFloatConvert source target => Some (FloatConvert dst src source target)
      | SoBoolToInteger target => Some (BoolToInteger dst src target)
      | _ => '(n, _) ← list_find (λ r, r.1 = operation) unary_catalog; Some (UnaryR n dst src)
      end
  | _, _ => None
  end.

Definition prepare_shared (operation : ScalarOperation) (lhs rhs : ScalarInput) (target : ScalarTarget)
    : Selection :=
  match lhs with
  | InSlot _ => Unselected
  | InConstant lhs =>
      match operation, target, rhs with
      | SoInteger domain op, Store dst, InSlot rhs => Selected (IntegerBinaryKR dst lhs rhs op domain)
      | SoInteger domain op, Store dst, InConstant rhs => Selected (IntegerBinaryKK dst lhs rhs op domain)
      | SoFloat domain op, Store dst, InSlot rhs => Selected (FloatBinaryKR dst lhs rhs op domain)
      | SoFloat domain op, Store dst, InConstant rhs => Selected (FloatBinaryKK dst lhs rhs op domain)
      | SoShift kind count, Store dst, InSlot rhs => Selected (ShiftKR dst lhs rhs kind count)
      | SoShift kind count, Store dst, InConstant rhs => Selected (ShiftKK dst lhs rhs kind count)
      | SoCompare domain condition, Store dst, InSlot rhs =>
          Selected (CompareStoreKR dst lhs rhs domain condition)
      | SoCompare domain condition, Store dst, InConstant rhs =>
          Selected (CompareStoreKK dst lhs rhs domain condition)
      | SoCompare domain condition, BranchTo t e, InSlot rhs =>
          Selected (CompareBranchKR lhs rhs domain condition t e)
      | SoCompare domain condition, BranchTo t e, InConstant rhs =>
          match domain_evaluate domain condition lhs rhs with
          | Ok value => Selected (Jump (if value =? 1 then t else e))
          | Err _ => PreparePanic
          end
      | _, _, _ => Unselected
      end
  end.

(** [ExecutionInstruction::scalar_operation]. *)
Definition scalar_operation (operation : ScalarOperation) (lhs rhs : ScalarInput) (target : ScalarTarget)
    : Selection :=
  match binary_arm operation lhs rhs target with Some i => Selected i | None =>
  match shift_arm operation lhs rhs target with Some i => Selected i | None =>
  match compare_arm operation lhs rhs target with Some i => Selected i | None =>
  match simple_arm operation lhs rhs target with Some i => Selected i | None =>
  match unary_arm operation lhs target with Some i => Selected i | None =>
  prepare_shared operation lhs rhs target end end end end end.
End Select.

(** *** module/execution/scalar.rs, [prepare] *)
Inductive ConstantOperand : Set :=
| KUnit | KBool (b : bool) | KI32 (z : Z) | KI64 (z : Z) | KU64 (z : Z) | KF32 (bits : Z) | KF64 (bits : Z)
| KStr (s : string) | KChar (c : Z).

(** [ConstantOperand::numeric_payload]: [admitted] is its last statement. *)
Definition admitted (ty : BuiltinType) (number bits : Z) : option Z :=
  match integer_bounds ty with
  | Some (min, max) => if (min <=? number) && (number <=? max) then Some bits else None
  | None => None
  end.
Definition numeric_payload (k : ConstantOperand) (ty : BuiltinType) : option Z :=
  match k, ty with
  | KF32 value, BtF32 => Some value
  | KF64 value, BtF64 => Some value
  | KI32 value, (BtI8 | BtI16 | BtI32) => admitted ty value (as_u64 (Std.cast 64 true value))
  | KI64 value, (BtI64 | BtU8 | BtU16 | BtU32) => admitted ty value (as_u64 value)
  | KU64 value, BtU64 => admitted ty value value
  | _, _ => None
  end.

Definition Slot : Set := nat.
Inductive ScalarOperand : Set := OpSlot (s : Slot) | OpConstant (constant : nat) (ty : BuiltinType).

(** The scalar instructions of [BytecodeInstruction]. *)
Inductive ScalarInstruction : Set :=
| IBinary (dst : Slot) (op : BinaryOp) (lhs rhs : Slot)
| IBinaryOperands (dst : Slot) (op : BinaryOp) (lhs rhs : ScalarOperand)
| IPredicateBranch (op : BinaryOp) (lhs rhs : ScalarOperand) (negated : bool) (t e : JumpTarget)
| INumeric (dst : Slot) (operation : NumericOperation) (lhs : Slot) (rhs : option Slot)
| IUnary (dst : Slot) (op : UnaryOp) (operand : Slot)
| IConvert (dst src : Slot) (conversion : NumericConversion).

Section Prepare.
Context `{FloatOps}.
(** [module.constants], [function.metadata.slots], and the scalar slot of a location
    ([layout.location(slot)?.operand.scalar()]). *)
Context (constants : list ConstantOperand) (slots : list ValueType) (location : Slot → option ScalarSlot).

(** [Ok None] is the [None] of a [?]; [Err] a panic. *)
Definition P (A : Type) : Type := result (option A) unit.
Definition pbind {A B} (m : P A) (k : A → P B) : P B :=
  match m with Ok (Some a) => k a | Ok None => Ok None | Err e => Err e end.
Definition option_p {A} (o : option A) : P A := Ok o.
Definition index_p {A} (o : option A) : P A := match o with Some a => Ok (Some a) | None => Err tt end.

Definition input_of (operand : ScalarOperand) : P ScalarInput :=
  match operand with
  | OpSlot s => option_p (InSlot <$> location s)
  | OpConstant constant ty =>
      pbind (index_p (constants !! constant)) (λ k, pbind (index_p (numeric_payload k ty)) (λ bits,
        Ok (Some (InConstant bits))))
  end.
Definition representation_of (operand : ScalarOperand) : P ValueType :=
  match operand with
  | OpSlot s => index_p (slots !! s)
  | OpConstant _ ty => Ok (Some (builtin_representation ty))
  end.

Definition selection (i : ScalarInstruction)
    : P (ScalarOperation * ScalarInput * ScalarInput * ScalarTarget) :=
  match i with
  | IBinary dst op lhs rhs =>
      pbind (index_p (slots !! lhs)) (λ ty, pbind (option_p (prepare_binary op ty)) (λ operation,
      pbind (option_p (location lhs)) (λ lhs, pbind (option_p (location rhs)) (λ rhs,
      pbind (option_p (location dst)) (λ dst, Ok (Some (operation, InSlot lhs, InSlot rhs, Store dst)))))))
  | IBinaryOperands dst op lhs rhs =>
      pbind (representation_of lhs) (λ ty, pbind (option_p (prepare_binary op ty)) (λ operation,
      pbind (input_of lhs) (λ lhs, pbind (input_of rhs) (λ rhs,
      pbind (option_p (location dst)) (λ dst, Ok (Some (operation, lhs, rhs, Store dst)))))))
  | IPredicateBranch op lhs rhs negated t e =>
      pbind (representation_of lhs) (λ ty, pbind (option_p (prepare_binary op ty)) (λ operation,
      pbind (input_of lhs) (λ lhs, pbind (input_of rhs) (λ rhs,
      Ok (Some (operation, lhs, rhs,
        BranchTo (if negated : bool then e else t) (if negated : bool then t else e)))))))
  | INumeric dst operation lhs rhs =>
      pbind (option_p (select_integer (num_op operation) (num_input operation) (num_rhs operation)))
        (λ selected, pbind (option_p (location lhs)) (λ l,
      pbind (option_p (location (default lhs rhs))) (λ r,
      pbind (option_p (location dst)) (λ dst, Ok (Some (selected, InSlot l, InSlot r, Store dst))))))
  | IUnary dst op operand =>
      pbind (match op with
             | Neg => pbind (index_p (slots !! operand)) (λ ty, option_p (prepare_unary Neg ty))
             | Not => Ok (Some BoolNot)
             end) (λ operation,
      pbind (option_p (location operand)) (λ src,
      pbind (option_p (location dst)) (λ dst, Ok (Some (operation, InSlot src, InSlot src, Store dst)))))
  | IConvert dst src conversion =>
      pbind (option_p (select_conversion (conv_source conversion) (conv_target conversion))) (λ operation,
      pbind (option_p (location src)) (λ src,
      pbind (option_p (location dst)) (λ dst, Ok (Some (operation, InSlot src, InSlot src, Store dst)))))
  end.

Definition prepare (i : ScalarInstruction) : Selection :=
  match selection i with
  | Ok (Some (operation, lhs, rhs, target)) => scalar_operation operation lhs rhs target
  | Ok None => Unselected
  | Err _ => PreparePanic
  end.
End Prepare.

(** *** frame/cursor/scalars.rs *)
(** The scalar window: [values.payloads] and [values.initialized]. *)
Record Bank : Set := { payloads : list Z; initialized : list bool }.
Inductive ScalarFailure : Set := Trap (reason : string) | Invariant (reason : string).

Definition payload (bank : Bank) (slot : ScalarSlot) : option Z :=
  if default false (initialized bank !! slot) then payloads bank !! slot else None.
Definition write_payload (bank : Bank) (slot : ScalarSlot) (value : Z) : option Bank :=
  if decide (slot < length (payloads bank))%nat then
    if decide (slot < length (initialized bank))%nat then
      Some {| payloads := <[slot := value]> (payloads bank); initialized := <[slot := true]> (initialized bank) |}
    else None
  else None.

Section Execute.
Context `{FloatOps}.
(** [self.function.instructions.len()]. *)
Context (instructions : nat).

Definition fetch (bank : Bank) (slot : ScalarSlot) : result Z ScalarFailure :=
  ok_or (payload bank slot) (Invariant "invalid execution operand slot").
Definition jump (target : nat) : result nat ScalarFailure :=
  if decide (instructions <= target)%nat then Err (Invariant "invalid frame jump target") else Ok target.
(** [rhs as i64 as u64], from the width the instruction keeps. *)
Definition widen (rhs : Z) : Z := as_u64 (Std.cast 64 true rhs).

Definition store (bank : Bank) (next : nat) (dst : ScalarSlot) (value : result Z string)
    : result (Bank * nat) ScalarFailure :=
  let? value := res_map_err Trap value in
  let? bank := ok_or (write_payload bank dst value) (Invariant "invalid execution operand slot") in
  Ok (bank, next).
Definition branch_on (bank : Bank) (value : result Z string) (t e : JumpTarget)
    : result (Bank * nat) ScalarFailure :=
  let? value := res_map_err Trap value in
  let? next := jump (if value =? 1 then t else e) in
  Ok (bank, next).
Definition handler_of {A} (rows : list A) (n : nat) : result A ScalarFailure :=
  ok_or (rows !! n) (Invariant "unreachable").

(** One instruction of [execute_slice]; [next] is the counter after it. *)
Definition execute (i : ExecutionInstruction) (bank : Bank) (next : nat)
    : result (Bank * nat) ScalarFailure :=
  match i with
  | Constant dst value => store bank next dst (Ok value)
  | Move dst src => let? value := fetch bank src in store bank next dst (Ok value)
  | BinaryRR n dst lhs rhs =>
      let? r := handler_of binary_catalog n in let? l := fetch bank lhs in let? k := fetch bank rhs in
      store bank next dst (br_handler r l k)
  | BinaryRK n dst lhs rhs =>
      let? r := handler_of binary_catalog n in let? l := fetch bank lhs in
      store bank next dst (br_handler r l (widen rhs))
  | ShiftRR n dst lhs rhs count_domain =>
      let? r := handler_of shift_catalog n in let? l := fetch bank lhs in let? k := fetch bank rhs in
      store bank next dst (r.2 l k count_domain)
  | ShiftRK n dst lhs rhs count_domain =>
      let? r := handler_of shift_catalog n in let? l := fetch bank lhs in
      store bank next dst (r.2 l (widen rhs) count_domain)
  | CompareRR n dst lhs rhs condition =>
      let? r := handler_of compare_catalog n in let? l := fetch bank lhs in let? k := fetch bank rhs in
      store bank next dst (cr_handler r l k condition)
  | CompareRK n dst lhs rhs condition =>
      let? r := handler_of compare_catalog n in let? l := fetch bank lhs in
      store bank next dst (cr_handler r l (widen rhs) condition)
  | CompareBranchRR n lhs rhs condition t e =>
      let? r := handler_of compare_catalog n in let? l := fetch bank lhs in let? k := fetch bank rhs in
      branch_on bank (cr_handler r l k condition) t e
  | CompareBranchRK n lhs rhs condition t e =>
      let? r := handler_of compare_catalog n in let? l := fetch bank lhs in
      branch_on bank (cr_handler r l (widen rhs) condition) t e
  | SimpleCompareRR n dst lhs rhs condition =>
      let? r := handler_of simple_catalog n in let? l := fetch bank lhs in let? k := fetch bank rhs in
      store bank next dst (r.2 l k condition)
  | SimpleCompareBranchRR n lhs rhs condition t e =>
      let? r := handler_of simple_catalog n in let? l := fetch bank lhs in let? k := fetch bank rhs in
      branch_on bank (r.2 l k condition) t e
  | UnaryR n dst src =>
      let? r := handler_of unary_catalog n in let? value := fetch bank src in
      store bank next dst (r.2 value value)
  | IntegerConvert dst src source target =>
      let? value := fetch bank src in
      store bank next dst (convert value (builtin_type source) (builtin_type target))
  | IntegerToFloat dst src source target =>
      let? value := fetch bank src in
      store bank next dst (convert value (builtin_type source) (float_builtin_type target))
  | FloatToInteger dst src source target =>
      let? value := fetch bank src in
      store bank next dst (convert value (float_builtin_type source) (builtin_type target))
  | FloatConvert dst src source target =>
      let? value := fetch bank src in
      store bank next dst (convert value (float_builtin_type source) (float_builtin_type target))
  | BoolToInteger dst src target =>
      let? value := fetch bank src in store bank next dst (convert value BtBool (builtin_type target))
  | IntegerBinaryKR dst lhs rhs op domain =>
      let? k := fetch bank rhs in store bank next dst (shared_integer op domain lhs k)
  | IntegerBinaryKK dst lhs rhs op domain => store bank next dst (shared_integer op domain lhs rhs)
  | FloatBinaryKR dst lhs rhs op domain =>
      let? k := fetch bank rhs in store bank next dst (float_binary op domain lhs k)
  | FloatBinaryKK dst lhs rhs op domain => store bank next dst (float_binary op domain lhs rhs)
  | ShiftKR dst lhs rhs kind count_domain =>
      let? k := fetch bank rhs in store bank next dst (shared_shift kind count_domain lhs k)
  | ShiftKK dst lhs rhs kind count_domain => store bank next dst (shared_shift kind count_domain lhs rhs)
  | CompareStoreKR dst lhs rhs domain condition =>
      let? k := fetch bank rhs in store bank next dst (domain_evaluate domain condition lhs k)
  | CompareStoreKK dst lhs rhs domain condition =>
      store bank next dst (domain_evaluate domain condition lhs rhs)
  | CompareBranchKR lhs rhs domain condition t e =>
      let? k := fetch bank rhs in branch_on bank (domain_evaluate domain condition lhs k) t e
  | Jump target => let? next := jump target in Ok (bank, next)
  | Branch cond t e =>
      let? value := fetch bank cond in
      let? target := (if value =? 1 then Ok t else if value =? 0 then Ok e
                      else Err (Invariant "verified branch condition is not bool")) in
      let? next := jump target in Ok (bank, next)
  end.
End Execute.
End Prepared.
