(* ===== verification/Contracts.v ===== *)
(** * Operation contracts and effects

    Models [kagari-contract/src/operations.rs] (the operators),
    [contracts.rs] (the representation rules the MIR and bytecode verifiers
    apply to scalar operators) and [effects.rs]. *)
From S2P Require Import Prelude Integer Scalar RuntimeNumeric.
Open Scope Z_scope.

(** ** operations.rs; [UnaryOp] is shared with the bytecode. *)
Inductive ContractBinaryOp : Set :=
| BoNumeric (operation : NumericOperation)
| BoAdd | BoSub | BoMul | BoDiv | BoRem | BoEq | BoNotEq | BoIdentityEq | BoIdentityNotEq
| BoLt | BoGt | BoLe | BoGe | BoAndAnd | BoOrOr.
#[export] Instance ContractBinaryOp_eq_dec : EqDecision ContractBinaryOp.
Proof. solve_decision. Defined.

(** ** contracts.rs *)
Inductive ContractError : Set :=
| TypeMismatch (context : string) (expected found : ValueType)
| InvalidOperation (reason : string).

Definition expect_type (found expected : ValueType) (context : string)
    : result unit ContractError :=
  if bool_decide (found = expected) then Ok tt else Err (TypeMismatch context expected found).

Definition numeric (ty : ValueType) : bool :=
  match ty with VtI32 | VtI64 | VtU64 | VtF32 | VtF64 => true | _ => false end.

Definition unary_result (op : UnaryOp) (operand : ValueType) : result ValueType ContractError :=
  match op with
  | Neg => if numeric operand && negb (bool_decide (operand = VtU64)) then Ok operand
           else Err (InvalidOperation "invalid unary operand representation")
  | Not => if bool_decide (operand = VtBool) then Ok VtBool
           else Err (InvalidOperation "invalid unary operand representation")
  end.

Definition binary_result (op : ContractBinaryOp) (lhs rhs : ValueType)
    : result ValueType ContractError :=
  match op with
  | BoNumeric operation =>
      let? s := ok_or (operation_contract operation)
                      (InvalidOperation "invalid numeric contract") in
      let? rty := ok_or (sig_right s) (InvalidOperation "numeric binary requires rhs") in
      let? _ := expect_type lhs (builtin_representation (sig_left s)) "numeric lhs" in
      let? _ := expect_type rhs (builtin_representation rty) "numeric rhs" in
      Ok (builtin_representation (sig_output s))
  | _ =>
      let? _ := expect_type rhs lhs "binary rhs" in
      let invalid := Err (InvalidOperation
        "invalid binary operand representation or unlowered short-circuit operation") in
      match op with
      | BoAdd | BoSub | BoMul | BoDiv | BoRem => if numeric lhs then Ok lhs else invalid
      | BoEq | BoNotEq => if negb (bool_decide (lhs = VtHostHandle)) then Ok VtBool else invalid
      | BoIdentityEq | BoIdentityNotEq =>
          if bool_decide (lhs = VtHeapObject) then Ok VtBool else invalid
      | BoLt | BoGt | BoLe | BoGe =>
          if numeric lhs || bool_decide (lhs = VtChar) then Ok VtBool else invalid
      | _ => invalid
      end
  end.

(** [verify_call_dst]. *)
Definition verify_call_dst (dst : option ValueType) (return_type : ValueType)
    : result unit ContractError :=
  match dst, return_type with
  | None, (VtUnit | VtNever) => Ok tt
  | Some dst, ty => expect_type dst ty "call dst"
  | None, ty => Err (TypeMismatch "call dst" ty VtUnit)
  end.

(** [lower_binary_op] of kagari-compiler/src/bytecode.rs; [None] stands for its
    [unreachable!] short-circuit operators. *)
Definition lower_binary_op (op : ContractBinaryOp) : option BinaryOp :=
  match op with
  | BoNumeric op => Some (BNumeric op)
  | BoAdd => Some BAdd | BoSub => Some BSub | BoMul => Some BMul | BoDiv => Some BDiv
  | BoRem => Some BRem | BoEq => Some BEq | BoNotEq => Some BNotEq
  | BoIdentityEq => Some BIdentityEq | BoIdentityNotEq => Some BIdentityNotEq
  | BoLt => Some BLt | BoGt => Some BGt | BoLe => Some BLe | BoGe => Some BGe
  | BoAndAnd | BoOrOr => None
  end.

(** ** effects.rs *)
Record EffectSet : Set := {
  reads_local : bool; writes_local : bool; reads_module : bool; writes_module : bool;
  reads_aggregate : bool; writes_aggregate : bool; reads_path : bool; writes_path : bool;
  allocates : bool; calls : bool; touches_runtime : bool; may_trap : bool; may_suspend : bool
}.
#[export] Instance EffectSet_eq_dec : EqDecision EffectSet.
Proof. solve_decision. Defined.

Module Effect.
Definition default : EffectSet := {|
  reads_local := false; writes_local := false; reads_module := false; writes_module := false;
  reads_aggregate := false; writes_aggregate := false; reads_path := false; writes_path := false;
  allocates := false; calls := false; touches_runtime := false; may_trap := false;
  may_suspend := false |}.
Definition union (a b : EffectSet) : EffectSet := {|
  reads_local := reads_local a || reads_local b;
  writes_local := writes_local a || writes_local b;
  reads_module := reads_module a || reads_module b;
  writes_module := writes_module a || writes_module b;
  reads_aggregate := reads_aggregate a || reads_aggregate b;
  writes_aggregate := writes_aggregate a || writes_aggregate b;
  reads_path := reads_path a || reads_path b;
  writes_path := writes_path a || writes_path b;
  allocates := allocates a || allocates b;
  calls := calls a || calls b;
  touches_runtime := touches_runtime a || touches_runtime b;
  may_trap := may_trap a || may_trap b;
  may_suspend := may_suspend a || may_suspend b |}.

Definition trap : EffectSet := {|
  reads_local := false; writes_local := false; reads_module := false; writes_module := false;
  reads_aggregate := false; writes_aggregate := false; reads_path := false; writes_path := false;
  allocates := false; calls := false; touches_runtime := false; may_trap := true;
  may_suspend := false |}.
Definition local_read : EffectSet := {|
  reads_local := true; writes_local := false; reads_module := false; writes_module := false;
  reads_aggregate := false; writes_aggregate := false; reads_path := false; writes_path := false;
  allocates := false; calls := false; touches_runtime := false; may_trap := false;
  may_suspend := false |}.
Definition local_write : EffectSet := {|
  reads_local := false; writes_local := true; reads_module := false; writes_module := false;
  reads_aggregate := false; writes_aggregate := false; reads_path := false; writes_path := false;
  allocates := false; calls := false; touches_runtime := false; may_trap := false;
  may_suspend := false |}.
Definition aggregate_read : EffectSet := {|
  reads_local := false; writes_local := false; reads_module := false; writes_module := false;
  reads_aggregate := true; writes_aggregate := false; reads_path := false; writes_path := false;
  allocates := false; calls := false; touches_runtime := false; may_trap := true;
  may_suspend := false |}.
Definition aggregate_write : EffectSet := {|
  reads_local := false; writes_local := false; reads_module := false; writes_module := false;
  reads_aggregate := false; writes_aggregate := true; reads_path := false; writes_path := false;
  allocates := false; calls := false; touches_runtime := false; may_trap := true;
  may_suspend := false |}.
Definition path_read : EffectSet := {|
  reads_local := false; writes_local := false; reads_module := false; writes_module := false;
  reads_aggregate := false; writes_aggregate := false; reads_path := true; writes_path := false;
  allocates := false; calls := false; touches_runtime := true; may_trap := true;
  may_suspend := false |}.
Definition path_write : EffectSet := {|
  reads_local := false; writes_local := false; reads_module := false; writes_module := false;
  reads_aggregate := false; writes_aggregate := false; reads_path := false; writes_path := true;
  allocates := false; calls := false; touches_runtime := true; may_trap := true;
  may_suspend := false |}.
Definition allocation : EffectSet := {|
  reads_local := false; writes_local := false; reads_module := false; writes_module := false;
  reads_aggregate := false; writes_aggregate := false; reads_path := false; writes_path := false;
  allocates := true; calls := false; touches_runtime := true; may_trap := true;
  may_suspend := false |}.
Definition call : EffectSet := {|
  reads_local := false; writes_local := false; reads_module := false; writes_module := false;
  reads_aggregate := false; writes_aggregate := false; reads_path := false; writes_path := false;
  allocates := false; calls := true; touches_runtime := false; may_trap := true;
  may_suspend := false |}.
Definition runtime_call : EffectSet := {|
  reads_local := false; writes_local := false; reads_module := false; writes_module := false;
  reads_aggregate := false; writes_aggregate := false; reads_path := false; writes_path := false;
  allocates := false; calls := true; touches_runtime := true; may_trap := true;
  may_suspend := false |}.
Definition native_call : EffectSet := {|
  reads_local := false; writes_local := false; reads_module := true; writes_module := true;
  reads_aggregate := true; writes_aggregate := true; reads_path := true; writes_path := true;
  allocates := true; calls := true; touches_runtime := true; may_trap := true;
  may_suspend := false |}.
Definition module_read : EffectSet := native_call.
Definition module_write : EffectSet := native_call.
End Effect.

(** kagari-contract/src/standard.rs *)
Inductive RuntimePrimitive : Set :=
| ValuePartialCmp | ValueCmp | ValueEq | ValueHash | ValueDebug | ValueDisplay
| StringPartsJoin | Assert.

Definition runtime_primitive_effects (p : RuntimePrimitive) : EffectSet :=
  let read := Effect.union Effect.runtime_call Effect.aggregate_read in
  match p with
  | ValueEq | ValueHash | Assert => read
  | _ => Effect.union read Effect.allocation
  end.
