(* ===== verification/NumericProps.v ===== *)
(** * Numeric semantics: properties

    The runtime's Value-level operators, the payload operators of prepared
    execution and the verifier's representation contracts agree. *)
From S2P Require Import Prelude Integer Scalar Payload RuntimeNumeric Contracts.
Open Scope Z_scope.

(** ** Well-formed values *)
Definition value_ok (v : Value) : bool :=
  match v with
  | VI32 z => Std.in_range 32 true z
  | VI64 z => Std.in_range 64 true z
  | VU64 z => Std.in_range 64 false z
  | VChar c => is_scalar_value c
  | VF32 b => Std.in_range 32 false b
  | VF64 b => Std.in_range 64 false b
  | _ => true
  end.

Definition value_integer (v : Value) : option Z :=
  match v with VI32 z | VI64 z | VU64 z => Some z | _ => None end.

Lemma in_range_mono b b' s z : 1 <= b <= b' →
  Std.in_range b s z = true → Std.in_range b' s z = true.
Proof.
  rewrite !in_range_spec. unfold Std.min_value, Std.max_value. intros.
  pose proof (Z.pow_le_mono_r 2 b b' ltac:(lia) ltac:(lia)).
  pose proof (Z.pow_le_mono_r 2 (b - 1) (b' - 1) ltac:(lia) ltac:(lia)).
  destruct s; lia.
Qed.

Lemma encode_integer v z : value_ok v = true → value_integer v = Some z →
  encode v = Some (as_u64 z).
Proof.
  destruct v; simpl; intros; simplify_eq; [|done|].
  - unfold as_u64. by rewrite cast_cast by lia.
  - unfold as_u64. by rewrite cast_id by (done || lia).
Qed.

(** A carrier of the right representation decodes to its value exactly when
    the value belongs to the narrower semantic domain. *)
Lemma decode_carrier d v z :
  value_ok v = true → value_integer v = Some z →
  has_representation v (builtin_representation (builtin_type d)) = true →
  decode_integer_domain (as_u64 z) (layout d).1 (layout d).2 =
    if Std.in_range (layout d).1 (layout d).2 z then Ok z
    else Err "invalid numeric operand type or range".
Proof.
  intros Hok Hz Hr. destruct (Std.in_range _ _ z) eqn:E; [by apply decode_domain|].
  pose proof (valid_width_range _ (layout_valid d)).
  unfold decode_integer_domain. rewrite bounds_eq by lia. rewrite overflow_flag.
  replace (Std.in_range _ _ _) with false; [done|]. symmetry. unfold as_u64.
  destruct d, v; simpl in *; simplify_eq;
    rewrite ?cast_cast, ?(cast_id 64) by
      first [lia | done | eapply in_range_mono; [|exact Hok]; lia]; try done.
  all: apply in_range_false in E; apply in_range_spec in Hok; apply in_range_false;
    unfold Std.cast, Std.min_value, Std.max_value in *; simpl in *;
    pose proof (Z.mod_pos_bound z (2 ^ 64) ltac:(lia));
    destruct (decide (0 <= z)); [rewrite Z.mod_small by lia; lia|];
    rewrite <- (Z.mod_add z 1 (2 ^ 64)), Z.mod_small by lia; lia.
Qed.

Definition operand_error : string := "invalid numeric operand type or range".

Lemma read_integer_carrier d v :
  value_ok v = true → has_representation v (builtin_representation (builtin_type d)) = true →
  ∃ z, value_integer v = Some z ∧
    read_integer (builtin_type d) v =
      if Std.in_range (layout d).1 (layout d).2 z then Ok z else Err (script_trap operand_error).
Proof.
  intros Hok Hr. pose proof (valid_width_range _ (layout_valid d)).
  assert (∃ z, value_integer v = Some z) as [z Hz] by (destruct d, v; simpl in *; eauto; done).
  exists z. split; [done|]. unfold read_integer. rewrite Hr. simpl.
  replace (match v with VI32 v0 | VI64 v0 | VU64 v0 => Ok v0 | _ => Err _ end)
    with (@Ok Z RuntimeError z) by (destruct v; simplify_eq/=; done).
  unfold integer_layout. rewrite from_builtin_type. simpl. rewrite bounds_eq by lia.
  change ((Std.min_value _ _ <=? z) && _) with (Std.in_range (layout d).1 (layout d).2 z).
  by destruct (Std.in_range _ _ z).
Qed.

(** What prepared execution publishes for a payload result. *)
Definition publish (ty : ValueType) (r : result Z string) : result Value RuntimeError :=
  let? bits := res_map_err script_trap r in
  ok_or (decode ty bits) {| error_kind := EngineFault; error_message := "integer result" |}.

Section Agreement.
Context `{FloatOps}.

Lemma contract_domains o s rty :
  operation_contract o = Some s → num_rhs o = Some rty →
  ∃ d d', from_builtin (num_input o) = Some d ∧ from_builtin rty = Some d'.
Proof.
  intros Hc Hr. destruct (contract_rhs _ _ Hc) as (d & Hd & Hrhs). exists d.
  destruct (num_op o); try (rewrite Hr in Hrhs; simplify_eq; eauto; done);
    destruct Hrhs as [c Hc']; rewrite Hr in Hc'; simplify_eq; exists c;
    by rewrite from_builtin_type.
Qed.

(** Domain failures precede arithmetic, left operand first. *)
Lemma evaluate_operand_errors o s so rty d d' l r :
  operation_contract o = Some s → num_rhs o = Some rty →
  from_builtin (num_input o) = Some d → from_builtin rty = Some d' →
  select_integer (num_op o) (num_input o) (num_rhs o) = Some so →
  (∀ m, decode_integer_domain l (layout d).1 (layout d).2 = Err m → evaluate so l r = Err m)
  ∧ (∀ m z, decode_integer_domain l (layout d).1 (layout d).2 = Ok z →
       decode_integer_domain r (layout d').1 (layout d').2 = Err m → evaluate so l r = Err m).
Proof.
  intros Hc Hr Hd Hd' Hs. destruct (contract_rhs _ _ Hc) as (d0 & Hd0 & Hrhs).
  destruct o as [op input rhs]; simpl in *. unfold select_integer in Hs. simplify_eq.
  rewrite Hd in Hs. simpl in Hs.
  destruct op; lazymatch type of Hrhs with ex _ => destruct Hrhs as [c ?] | _ => idtac end;
    simplify_eq/=; rewrite ?from_builtin_type in *; simplify_eq/=.
  all: try (destruct (shift_kind _ _) as [k|] eqn:Hk; simplify_eq/=).
  all: unfold shared_integer, shared_shift, shared_decode_integer;
    try rewrite (shift_parts_kind _ _ _ Hk);
    repeat match goal with |- context [layout ?x] => destruct (layout x) end; simpl;
    split; [intros ? ->; done|intros ? ? -> ->; done].
Qed.

Lemma fixed_integer_prepared o s so rty lhs rhs el er :
  operation_contract o = Some s → num_rhs o = Some rty →
  select_integer (num_op o) (num_input o) (num_rhs o) = Some so →
  value_ok lhs = true → value_ok rhs = true →
  has_representation lhs (builtin_representation (num_input o)) = true →
  has_representation rhs (builtin_representation rty) = true →
  encode lhs = Some el → encode rhs = Some er →
  fixed_integer o lhs (Some rhs)
  = publish (builtin_representation (num_input o)) (evaluate so el er).
Proof.
  intros Hc Hrt Hs Hl Hr Hlr Hrr Hel Her.
  destruct (contract_domains _ _ _ Hc Hrt) as (d & d' & Hd & Hd').
  destruct (evaluate_operand_errors _ _ _ _ _ _ el er Hc Hrt Hd Hd' Hs) as [El Er].
  pose proof (from_builtin_Some _ _ Hd) as Hdt. pose proof (from_builtin_Some _ _ Hd') as Hdt'.
  rewrite Hdt in Hlr. rewrite Hdt' in Hrr.
  destruct (read_integer_carrier d lhs Hl Hlr) as (zl & Hzl & Rl).
  destruct (read_integer_carrier d' rhs Hr Hrr) as (zr & Hzr & Rr).
  rewrite (encode_integer lhs zl) in Hel by done. rewrite (encode_integer rhs zr) in Her by done.
  injection Hel as <-. injection Her as <-.
  pose proof (decode_carrier d lhs zl Hl Hzl Hlr) as Dl.
  pose proof (decode_carrier d' rhs zr Hr Hzr Hrr) as Dr.
  unfold fixed_integer. rewrite Hc, Hrt, Hdt, Hdt', Rl, Rr. rewrite Hrt, Hdt, Hdt' in Hs.
  destruct (Std.in_range (layout d).1 _ zl); simpl; [|by erewrite El].
  destruct (Std.in_range (layout d').1 _ zr); simpl; [|by erewrite Er].
  by rewrite Hs.
Qed.

Lemma binary_ops_range bits signed op l r z : 1 <= bits →
  Std.in_range bits signed l = true → binary_ops bits signed op l r = Ok z →
  Std.in_range bits signed z = true.
Proof.
  intros ? Hl. unfold binary_ops, Std.checked_add, Std.checked_sub, Std.checked_mul,
    Std.checked_div, Std.checked_rem, Std.fit.
  destruct op; repeat case_match; simpl; intros; simplify_eq; try done.
  apply rem_in_range; [done..|]. by apply Z.eqb_neq.
Qed.

Definition checked_op (op : IntegerBinaryOp) : IntegerOp :=
  match op with
  | OpAdd => CheckedAdd | OpSub => CheckedSub | OpMul => CheckedMul
  | OpDiv => CheckedDiv | OpRem => CheckedRem
  end.

Lemma integer_operation_checked op l r bits signed :
  valid_width bits = true →
  integer_operation (checked_op op) l r bits signed
  = res_map_err message (fixed_binary op l r bits signed).
Proof. intros Hw. unfold integer_operation. rewrite Hw. by destruct op. Qed.

(** The three integer types that are their own machine representation. *)
Definition carrier_of (d : IntegerType) : option (ValueType * (Z → Value)) :=
  match d with
  | ItI32 => Some (VtI32, VI32) | ItI64 => Some (VtI64, VI64) | ItU64 => Some (VtU64, VU64)
  | _ => None
  end.

Lemma decode_as_u64_value d ty mk z :
  carrier_of d = Some (ty, mk) → Std.in_range (layout d).1 (layout d).2 z = true →
  decode ty (as_u64 z) = Some (mk z).
Proof.
  intros Hc Hz. unfold as_u64.
  destruct d; simplify_eq/=; by rewrite ?cast_cast, ?cast_id by (done || lia).
Qed.

Lemma integer_kernel_prepared d ty mk bop op l r :
  carrier_of d = Some (ty, mk) → integer_binary_op bop = Some op →
  Std.in_range (layout d).1 (layout d).2 l = true →
  Std.in_range (layout d).1 (layout d).2 r = true →
  integer_kernel (binary_ops (layout d).1 (layout d).2) mk bop l r
  = publish ty (evaluate (SoInteger d (checked_op op)) (as_u64 l) (as_u64 r)).
Proof.
  intros Hc Hop Hl Hr. unfold integer_kernel. rewrite Hop. simpl.
  rewrite shared_integer_encoded, integer_operation_checked by eauto using layout_valid.
  rewrite fixed_binary_in_range by eauto using layout_valid.
  pose proof (valid_width_range _ (layout_valid d)).
  destruct (binary_ops _ _ op l r) as [z|e] eqn:E; simpl; [|done].
  unfold publish. simpl. erewrite decode_as_u64_value; [done|done|].
  eapply binary_ops_range; [|exact Hl|exact E]; lia.
Qed.

Lemma test_bit c o : publish VtBool (Ok (test c o)) = Ok (VBool (negb (test c o =? 0))).
Proof. by destruct c, o as [[]|]. Qed.

Definition comparison_domain (d : IntegerType) : ComparisonDomain :=
  match d with ItI32 => CdI32 | ItU64 => CdU64 | _ => CdI64 end.

Lemma compare_prepared d ty mk c l r :
  carrier_of d = Some (ty, mk) →
  Std.in_range (layout d).1 (layout d).2 l = true →
  Std.in_range (layout d).1 (layout d).2 r = true →
  Ok (VBool (negb (test c (Some (l ?= r)) =? 0)))
  = publish VtBool (evaluate (SoCompare (comparison_domain d) c) (as_u64 l) (as_u64 r)).
Proof.
  intros Hd Hl Hr. rewrite <- test_bit. f_equal. destruct d; simplify_eq/=;
    unfold integer_compare; by rewrite !decode_as_u64 by (done || lia).
Qed.

(** Prepared execution of an operator on two values of one representation. *)
Definition agrees (op : BinaryOp) (lt ty : ValueType) (l r : Value) : Prop :=
  ∃ so el er, prepare_binary op lt = Some so ∧ encode l = Some el ∧ encode r = Some er ∧
    scalar_binary op l r = publish ty (evaluate so el er).

Lemma encode_scalar v lt : is_Some (scalar_type lt) → has_representation v lt = true →
  is_Some (encode v).
Proof. destruct v, lt; simpl; intros [? ?] ?; simplify_eq; eauto; done. Qed.

Lemma numeric_agrees o s rty l r :
  operation_contract o = Some s → num_rhs o = Some rty →
  value_ok l = true → value_ok r = true →
  has_representation l (builtin_representation (num_input o)) = true →
  has_representation r (builtin_representation rty) = true →
  agrees (BNumeric o) (builtin_representation (num_input o))
         (builtin_representation (num_input o)) l r.
Proof.
  intros Hc Hrt Hl Hr Hlr Hrr. destruct (contract_rhs _ _ Hc) as (d & Hd & Hrhs).
  assert (is_Some (encode l) ∧ is_Some (encode r)) as [[el Hel] [er Her]].
  { destruct (contract_domains _ _ _ Hc Hrt) as (d1 & d2 & E1%from_builtin_Some & ->%from_builtin_Some).
    rewrite E1 in Hlr. split; eapply encode_scalar; try done; [destruct d1|destruct d2]; simpl; eauto. }
  assert (is_Some (select_integer (num_op o) (num_input o) (num_rhs o))) as [so Hso].
  { unfold select_integer. rewrite Hd. simpl.
    destruct (num_op o); try (eexists; done); destruct Hrhs as [c ->]; simpl;
      rewrite from_builtin_type; destruct d; eexists; done. }
  exists so, el, er. split_and!; [done..|]. simpl.
  by eapply fixed_integer_prepared.
Qed.

Lemma carrier_facts d ty mk z : carrier_of d = Some (ty, mk) → value_ok (mk z) = true →
  Std.in_range (layout d).1 (layout d).2 z = true ∧ encode (mk z) = Some (as_u64 z).
Proof. intros Hc Hz. split; [|apply encode_integer; [done|]]; by destruct d; simplify_eq/=. Qed.

Lemma integer_arithmetic_agrees op bop d lt mk zl zr :
  carrier_of d = Some (lt, mk) → integer_binary_op op = Some bop →
  value_ok (mk zl) = true → value_ok (mk zr) = true →
  agrees op lt lt (mk zl) (mk zr).
Proof.
  intros Hc Hop Hl Hr. destruct (carrier_facts _ _ _ _ Hc Hl), (carrier_facts _ _ _ _ Hc Hr).
  exists (SoInteger d (checked_op bop)), (as_u64 zl), (as_u64 zr). split_and!; [|done..|].
  - destruct op, d; simplify_eq/=; done.
  - rewrite <- (integer_kernel_prepared d lt mk op) by done.
    destruct d; try discriminate Hc; injection Hc as <- <-;
      destruct op; try discriminate Hop; reflexivity.
Qed.

Lemma arithmetic_agrees op bop lt l r :
  integer_binary_op op = Some bop → numeric lt = true →
  value_ok l = true → value_ok r = true →
  has_representation l lt = true → has_representation r lt = true → agrees op lt lt l r.
Proof.
  intros Hop Hn Hl Hr Hlr Hrr.
  destruct lt; try done; destruct l; try done; destruct r; try done; clear Hn Hlr Hrr.
  - by eapply (integer_arithmetic_agrees _ _ ItI32).
  - by eapply (integer_arithmetic_agrees _ _ ItI64).
  - by eapply (integer_arithmetic_agrees _ _ ItU64).
  - simpl in Hl, Hr. destruct op; simplify_eq/=; do 3 eexists; split_and!; try done;
      unfold float_bits, float_binary, publish; simpl; by rewrite !(cast_id 32) by (done || lia).
  - destruct op; simplify_eq/=; do 3 eexists; split_and!; try done.
Qed.

Lemma integer_comparison_agrees op c d lt mk zl zr :
  carrier_of d = Some (lt, mk) → comparison_of op = Some c →
  value_ok (mk zl) = true → value_ok (mk zr) = true →
  agrees op lt VtBool (mk zl) (mk zr).
Proof.
  intros Hc Hop Hl Hr. destruct (carrier_facts _ _ _ _ Hc Hl), (carrier_facts _ _ _ _ Hc Hr).
  exists (SoCompare (comparison_domain d) c), (as_u64 zl), (as_u64 zr). split_and!; [|done..|].
  - destruct op, d; simplify_eq/=; done.
  - rewrite <- (compare_prepared d lt mk) by done.
    destruct d; try discriminate Hc; injection Hc as <- <-;
      destruct op; try discriminate Hop; injection Hop as <-; reflexivity.
Qed.

Lemma comparison_agrees op c lt l r :
  comparison_of op = Some c →
  numeric lt || bool_decide (lt = VtChar)
    || (bool_decide (c = CEq ∨ c = CNotEq) && bool_decide (is_Some (scalar_type lt))) = true →
  value_ok l = true → value_ok r = true →
  has_representation l lt = true → has_representation r lt = true → agrees op lt VtBool l r.
Proof.
  intros Hop Hn Hl Hr Hlr Hrr.
  assert (is_Some (scalar_type lt)) as [ty Hty].
  { destruct lt; simpl in *; eauto; by rewrite andb_false_r in Hn. }
  destruct lt; try discriminate Hty; destruct l; try discriminate Hlr;
    destruct r; try discriminate Hrr; clear Hlr Hrr Hty.
  - destruct op; try discriminate Hop; injection Hop as <-; try discriminate Hn;
      eexists (SoCompare CdScalar _), 0, 0; split_and!; reflexivity.
  - destruct op; try discriminate Hop; injection Hop as <-; try discriminate Hn;
      eexists (SoCompare CdScalar _), (Z.b2z b), (Z.b2z b0); split_and!; try reflexivity;
      destruct b, b0; reflexivity.
  - by eapply (integer_comparison_agrees _ _ ItI32).
  - by eapply (integer_comparison_agrees _ _ ItI64).
  - by eapply (integer_comparison_agrees _ _ ItU64).
  - exists (SoCompare CdF32 c), bits, bits0. simpl in Hl, Hr.
    split_and!; [by destruct op; simplify_eq/=|done..|].
    cbn [evaluate domain_evaluate]. unfold float_compare.
    rewrite !(cast_id 32), test_bit by (done || lia).
    destruct op; try discriminate Hop; injection Hop as <-; reflexivity.
  - exists (SoCompare CdF64 c), bits, bits0.
    split_and!; [by destruct op; simplify_eq/=|done..|].
    cbn [evaluate domain_evaluate]. unfold float_compare. rewrite test_bit.
    destruct op; try discriminate Hop; injection Hop as <-; reflexivity.
  - exists (SoCompare CdChar c), c0, c1. simpl in Hl, Hr.
    split_and!; [by destruct op; simplify_eq/=|done..|].
    cbn [evaluate domain_evaluate]. unfold char_compare. rewrite Hl, Hr. simpl. rewrite test_bit.
    destruct op; try discriminate Hop; injection Hop as <-; reflexivity.
Qed.

Lemma expect_type_ok found expected ctx : expect_type found expected ctx = Ok tt → found = expected.
Proof. unfold expect_type. by case_bool_decide. Qed.

Lemma contract_signature o s : operation_contract o = Some s →
  s = {| sig_left := num_input o; sig_right := num_rhs o; sig_output := num_input o |}.
Proof.
  unfold operation_contract. destruct (integer_layout _), (num_rhs o) as [b|]; simpl;
    try destruct (integer_layout b); simpl; repeat case_bool_decide; intros; simplify_eq/=; done.
Qed.

Lemma verified_numeric_agrees o lt rt ty l r :
  binary_result (BoNumeric o) lt rt = Ok ty →
  value_ok l = true → value_ok r = true →
  has_representation l lt = true → has_representation r rt = true →
  agrees (BNumeric o) lt ty l r.
Proof.
  simpl. intros Hc Hl Hr Hlr Hrr.
  destruct (operation_contract o) as [s|] eqn:Ho; [|done].
  rewrite (contract_signature _ _ Ho) in Hc. simpl in Hc.
  destruct (num_rhs o) as [rty|] eqn:Hrt; [|done]. simpl in Hc.
  destruct (expect_type lt _ _) as [[]|] eqn:E1; [|done].
  destruct (expect_type rt _ _) as [[]|] eqn:E2; [|done].
  apply expect_type_ok in E1 as ->. apply expect_type_ok in E2 as ->. simplify_eq/=.
  by eapply numeric_agrees.
Qed.

Lemma verified_binary_agrees cop op lt rt ty l r :
  binary_result cop lt rt = Ok ty → lower_binary_op cop = Some op → is_Some (scalar_type lt) →
  value_ok l = true → value_ok r = true →
  has_representation l lt = true → has_representation r rt = true →
  agrees op lt ty l r.
Proof.
  intros Hc Hop Hs Hl Hr Hlr Hrr.
  destruct cop; [injection Hop as <-; by eapply verified_numeric_agrees|..].
  all: cbn [binary_result] in Hc; destruct (expect_type rt lt _) as [[]|] eqn:E; try discriminate Hc;
    apply expect_type_ok in E as ->; cbn [res_bind] in Hc.
  all: try discriminate Hop; injection Hop as <-.
  all: lazymatch type of Hc with (if ?b then _ else _) = _ => destruct b eqn:Hn end;
    try discriminate Hc; injection Hc as <-.
  all: try (eapply arithmetic_agrees; done).
  all: try (eapply comparison_agrees; [done| |done..];
            first [by rewrite Hn | destruct Hs as [? Hs]; destruct lt; try discriminate Hs; done]).
  all: apply bool_decide_eq_true_1 in Hn as ->; by destruct Hs.
Qed.

(** ** Unary operators *)

Lemma negate_integer_exact d ty mk z :
  carrier_of d = Some (ty, mk) → (layout d).2 = true →
  Std.in_range (layout d).1 true z = true →
  res_map_err arithmetic_trap (res_map mk (integer_neg (layout d).1 z))
  = publish ty (negate_integer (layout d).1 (as_u64 z)).
Proof.
  intros Hc Hs Hz. pose proof (valid_width_range _ (layout_valid d)).
  assert (Std.in_range (layout d).1 true 0 = true) as Hzero.
  { width_facts (layout d).1. apply in_range_spec. unfold Std.min_value, Std.max_value. lia. }
  unfold negate_integer, integer_value. change 0 with (as_u64 0) at 1.
  rewrite !decode_as_u64 by (done || lia). cbn [res_bind integer_value_op].
  rewrite (integer_operation_checked OpSub) by apply layout_valid.
  rewrite fixed_binary_in_range by (done || apply layout_valid).
  unfold integer_neg, Std.checked_neg, binary_ops, Std.checked_sub, Std.fit.
  change (0 - z) with (- z). destruct (Std.in_range _ true (- z)) eqn:E; [|done]. simpl. unfold publish; simpl.
  rewrite (decode_as_u64_value d ty mk) by (done || by rewrite Hs). done.
Qed.

Lemma verified_unary_agrees op lt ty v :
  unary_result op lt = Ok ty → value_ok v = true → has_representation v lt = true →
  ∃ so e, prepare_unary op lt = Some so ∧ encode v = Some e ∧
    unary op v = publish ty (evaluate so e e).
Proof.
  intros Hc Hv Hr. unfold unary_result in Hc.
  destruct op; lazymatch type of Hc with (if ?b then _ else _) = _ => destruct b eqn:Hn end;
    try discriminate Hc; injection Hc as <-.
  - destruct lt; try discriminate Hn; destruct v; try discriminate Hr; simpl in Hv.
    + exists I32Neg, (as_u64 z). split_and!; [done|by apply encode_integer|].
      by apply (negate_integer_exact ItI32).
    + exists I64Neg, (as_u64 z). split_and!; [done..|].
      by apply (negate_integer_exact ItI64).
    + exists F32Neg, bits. split_and!; [done..|]. unfold publish. simpl.
      by rewrite cast_id by (lia || by apply lxor_in_range).
    + by exists F64Neg, bits.
  - apply bool_decide_eq_true_1 in Hn as ->. destruct v; try discriminate Hr.
    exists BoolNot, (Z.b2z b). by destruct b.
Qed.
End Agreement.

(** ** Properties *)

(** The integer value [z] stored in the slot of a builtin integer type. *)
Definition integer_carrier (ty : BuiltinType) (z : Z) : Value :=
  match builtin_representation ty with VtI32 => VI32 z | VtU64 => VU64 z | _ => VI64 z end.

Definition in_domain (ty : BuiltinType) (z : Z) : bool :=
  match integer_layout ty with
  | Some (bits, signed) => Std.in_range bits signed z
  | None => false
  end.

Lemma in_domain_inv ty z : in_domain ty z = true →
  ∃ d, from_builtin ty = Some d ∧ ty = builtin_type d
       ∧ Std.in_range (layout d).1 (layout d).2 z = true.
Proof.
  unfold in_domain, integer_layout. destruct (from_builtin ty) as [d|] eqn:E; [|done].
  simpl. intros Hz. exists d. split; [done|]. split; [by apply from_builtin_Some|].
  by destruct (layout d).
Qed.

Lemma integer_carrier_facts ty z : in_domain ty z = true →
  value_ok (integer_carrier ty z) = true
  ∧ has_representation (integer_carrier ty z) (builtin_representation ty) = true
  ∧ value_integer (integer_carrier ty z) = Some z
  ∧ read_integer ty (integer_carrier ty z) = Ok z.
Proof.
  intros Hz. destruct (in_domain_inv _ _ Hz) as (d & Hd & -> & Hr).
  assert (value_ok (integer_carrier (builtin_type d) z) = true) as Hok.
  { destruct d; simpl in *; try done; apply in_range_spec in Hr; apply in_range_spec;
      unfold Std.min_value, Std.max_value in *; simpl in *; lia. }
  assert (has_representation (integer_carrier (builtin_type d) z)
            (builtin_representation (builtin_type d)) = true) as Hrep by (by destruct d).
  assert (value_integer (integer_carrier (builtin_type d) z) = Some z) as Hv by (by destruct d).
  split_and!; [done..|]. destruct (read_integer_carrier d _ Hok Hrep) as (z' & Hz' & ->).
  simplify_eq. by rewrite Hr.
Qed.

Lemma integer_carrier_decode ty z : in_domain ty z = true →
  decode (builtin_representation ty) (as_u64 z) = Some (integer_carrier ty z).
Proof.
  intros Hz. destruct (in_domain_inv _ _ Hz) as (d & _ & -> & Hr). unfold as_u64.
  destruct d; simpl in *; unfold integer_carrier; simpl; rewrite ?cast_cast by lia;
    rewrite cast_id; try done; try lia; apply in_range_spec in Hr; apply in_range_spec;
    unfold Std.min_value, Std.max_value in *; simpl in *; lia.
Qed.

Lemma method_contract_operand op ty c l r d :
  method_contract op ty = Some c → from_builtin ty = Some d →
  in_domain ty l = true → in_domain (mc_rhs c) r = true →
  method_operand_ok op (layout d).1 (layout d).2 r = true.
Proof.
  intros Hc Hd _ Hr. unfold method_contract, integer_layout in Hc. rewrite Hd in Hc.
  apply from_builtin_Some in Hd as ->. unfold in_domain, integer_layout in Hr.
  destruct op, d; simplify_eq/=; done.
Qed.

Lemma wrapped_in_domain ty z d : from_builtin ty = Some d →
  in_domain ty (Std.cast (layout d).1 (layout d).2 z) = true.
Proof.
  intros Hd. unfold in_domain, integer_layout. rewrite Hd. simpl.
  pose proof (valid_width_range _ (layout_valid d)).
  pose proof (cast_range (layout d).1 (layout d).2 z ltac:(lia)). by destruct (layout d).
Qed.

Lemma saturating_range bits signed z : 1 <= bits →
  Std.in_range bits signed (Std.saturating bits signed z) = true.
Proof.
  intros. width_facts bits. apply in_range_spec.
  unfold Std.saturating, Std.clamp, Std.min_value, Std.max_value.
  destruct signed; repeat case_match; lia.
Qed.

Lemma method_spec_range op l r bits signed v f :
  1 <= bits → Std.in_range bits signed l = true →
  method_spec op l r bits signed = Some (v, f) → Std.in_range bits signed v = true.
Proof.
  intros ? Hl. destruct op; simpl; unfold Std.checked_add, Std.checked_sub, Std.checked_mul,
    Std.checked_div, Std.checked_rem, Std.fit; repeat case_match; intros; simplify_eq/=;
    unfold Std.overflowing in *; simplify_eq;
    try apply cast_range; try apply saturating_range; try done.
  apply rem_in_range; [done..|]. by apply Z.eqb_neq.
Qed.

Lemma observed_carrier ty d v : from_builtin ty = Some d →
  Std.in_range (layout d).1 (layout d).2 v = true →
  match ty with
  | BtI8 | BtI16 | BtI32 => VI32 (Std.cast 32 true v)
  | BtU64 => VU64 (Std.cast 64 false v)
  | _ => VI64 (Std.cast 64 true v)
  end = integer_carrier ty v.
Proof.
  intros ->%from_builtin_Some Hv. destruct d; simpl; unfold integer_carrier; simpl in *;
    rewrite cast_id; try done; try lia; apply in_range_spec in Hv; apply in_range_spec;
    unfold Std.min_value, Std.max_value in *; simpl in *; lia.
Qed.

(** C18: Every explicit arithmetic method (wrapping, checked, overflowing,
    saturating, signed-offset and rotating), at every integer type, returns
    exactly what the primitive operation of that type defines: a checked method
    yields no value exactly when the primitive overflows, divides by zero or has
    no representable quotient, an overflowing one publishes the wrapped value
    with its flag, and no operand pair of the contract's domains is refused. *)
Theorem integer_method_correct alloc op ty c l r bits signed :
  method_contract op ty = Some c → integer_layout ty = Some (bits, signed) →
  in_domain ty l = true → in_domain (mc_rhs c) r = true →
  integer_method alloc op ty [integer_carrier ty l; integer_carrier (mc_rhs c) r] =
    match method_spec op l r bits signed with
    | None => Ok None
    | Some (v, flag) =>
        if method_overflowing op then res_map Some (alloc [integer_carrier ty v; VBool flag])
        else Ok (Some (integer_carrier ty v))
    end.
Proof.
  intros Hc Hlay Hl Hr. destruct (in_domain_inv _ _ Hl) as (d & Hd & Hty & Hlr).
  assert (bits = (layout d).1 ∧ signed = (layout d).2) as [-> ->].
  { unfold integer_layout in Hlay. rewrite Hd in Hlay. simpl in Hlay. destruct (layout d).
    by simplify_eq. }
  unfold integer_method. rewrite Hlay, Hc. cbn [ok_or res_bind].
  destruct (integer_carrier_facts _ _ Hl) as (_ & _ & _ & ->).
  destruct (integer_carrier_facts _ _ Hr) as (_ & _ & _ & ->). cbn [res_bind fst snd].
  pose proof (arithmetic_method_exact op l r _ _ (layout_valid d) Hlr
    (method_contract_operand _ _ _ _ _ _ Hc Hd Hl Hr)) as Hexact.
  pose proof (valid_width_range _ (layout_valid d)).
  destruct (arithmetic_method op l r _ _) as [v flag]. unfold observe in Hexact. simpl in Hexact.
  destruct (checked op && flag) eqn:Hck; [by rewrite <- Hexact|].
  pose proof (eq_sym Hexact) as Hv. apply method_spec_range in Hv; [|lia|done].
  rewrite (observed_carrier ty d v Hd Hv). rewrite <- Hexact. by destruct op.
Qed.

(** *** Conversions *)
Section Conversion.
Context `{FloatOps}.

Lemma convert_integer ds dt z :
  Std.in_range (layout ds).1 (layout ds).2 z = true →
  convert (as_u64 z) (builtin_type ds) (builtin_type dt)
  = Ok (if bool_decide (ds = dt) then as_u64 z
        else as_u64 (Std.cast (layout dt).1 (layout dt).2 z)).
Proof.
  intros Hz.
  assert (convert (as_u64 z) (builtin_type ds) (builtin_type dt) =
    let? v := decode_integer_domain (as_u64 z) (layout ds).1 (layout ds).2 in
    if bool_decide (builtin_type ds = builtin_type dt) then Ok (as_u64 z)
    else match number_type (builtin_type dt) with
         | Some ty => Ok (match number_cast (NInteger v) ty with
                          | NInteger v => as_u64 v | NF32 v => v | NF64 v => v end)
         | None => Err "numeric target"
         end) as ->.
  { unfold convert, decode_integer_domain. destruct ds; cbn -[Std.cast as_u64 bounds number_cast];
      repeat case_match; done. }
  rewrite (decode_domain ds z Hz). cbn [res_bind].
  destruct (decide (ds = dt)) as [->|Hne]; [by rewrite !bool_decide_eq_true_2|].
  rewrite !bool_decide_eq_false_2 by first [done | by intros ?%(inj builtin_type)].
  assert (number_type (builtin_type dt) = Some (NtInteger (layout dt).1 (layout dt).2)) as ->
    by (by destruct dt).
  pose proof (valid_width_range _ (layout_valid dt)).
  cbn [number_cast]. rewrite bounds_eq, wrap_cast by lia. done.
Qed.

Lemma numeric_convert_integer ds dt z :
  in_domain (builtin_type ds) z = true → ds ≠ dt →
  numeric_convert {| conv_source := builtin_type ds; conv_target := builtin_type dt |}
    (integer_carrier (builtin_type ds) z)
  = Ok (integer_carrier (builtin_type dt) (Std.cast (layout dt).1 (layout dt).2 z)).
Proof.
  intros Hz Hne. destruct (integer_carrier_facts _ _ Hz) as (Hok & Hrep & Hint & _).
  destruct (in_domain_inv _ _ Hz) as (d & Hd & _ & Hr).
  rewrite from_builtin_type in Hd. simplify_eq.
  unfold numeric_convert. simpl. rewrite Hrep. simpl.
  assert (conversion_contract {| conv_source := builtin_type d; conv_target := builtin_type dt |}
          = Some (builtin_type d, builtin_type dt)) as -> by (destruct d, dt; reflexivity).
  assert (select_conversion (builtin_type d) (builtin_type dt) = Some (SoIntegerConvert d dt)) as ->
    by (unfold select_conversion; by rewrite !from_builtin_type).
  rewrite (encode_integer _ z) by done. cbn [ok_or res_bind evaluate].
  rewrite convert_integer, bool_decide_eq_false_2 by done. cbn [res_bind res_map_err].
  by rewrite integer_carrier_decode by (apply wrapped_in_domain, from_builtin_type).
Qed.

(** C19: A checked conversion between integer types succeeds exactly when the value
    lies in the target's range, and then keeps the value: it never truncates,
    and a conversion declared lossless never fails. *)
Theorem checked_convert_integer source target z :
  in_domain source z = true → is_Some (integer_layout target) →
  checked_convert source target (integer_carrier source z)
  = Ok (if in_domain target z then Some (integer_carrier target z) else None).
Proof.
  intros Hz [lt Ht]. destruct (in_domain_inv _ _ Hz) as (ds & Hds & -> & Hr).
  unfold integer_layout in Ht. destruct (from_builtin target) as [dt|] eqn:Hdt; [|done].
  apply from_builtin_Some in Hdt as ->.
  destruct (integer_carrier_facts _ _ Hz) as (_ & _ & _ & Hread).
  unfold checked_convert, checked_conversion_fallible.
  rewrite Hread. unfold integer_layout. rewrite !from_builtin_type. cbn [fmap option_fmap option_map].
  rewrite !(bool_decide_eq_true_2 (is_Some (Some _))) by eauto.
  pose proof (valid_width_range _ (layout_valid dt)).
  assert (in_domain (builtin_type dt) z = Std.in_range (layout dt).1 (layout dt).2 z) as Hdom.
  { unfold in_domain, integer_layout. rewrite from_builtin_type. simpl. by destruct (layout dt). }
  assert (Hfin : in_domain (builtin_type dt) z = true →
    (if bool_decide (builtin_type ds = builtin_type dt)
     then Ok (Some (integer_carrier (builtin_type ds) z))
     else res_map Some (numeric_convert {| conv_source := builtin_type ds;
            conv_target := builtin_type dt |} (integer_carrier (builtin_type ds) z)))
    = Ok (Some (integer_carrier (builtin_type dt) z))).
  { intros Hin. destruct (decide (ds = dt)) as [->|Hne].
    { by rewrite bool_decide_eq_true_2. }
    rewrite bool_decide_eq_false_2 by (by intros ?%(inj builtin_type)).
    rewrite numeric_convert_integer by done. rewrite Hdom in Hin. by rewrite cast_id by (done || lia). }
  destruct (lossless_from _ _) eqn:Hll; cbn [andb ok_or res_bind res_map].
  - assert (in_domain (builtin_type dt) z = true) as Hin.
    { rewrite Hdom. eapply (lossless_in_range _ _ ds dt); eauto using from_builtin_type. }
    by rewrite Hfin, Hin.
  - rewrite bounds_eq by lia. cbn [res_bind]. rewrite overflow_flag, negb_involutive, <- Hdom.
    destruct (in_domain (builtin_type dt) z) eqn:Hin; [by apply Hfin|done].
Qed.
End Conversion.

(** *** Operators at their exact width *)
Lemma integer_operation_spec_range op l r bits signed z :
  1 <= bits → Std.in_range bits signed l = true → operand_ok op bits signed r = true →
  integer_operation_spec op l r bits signed = Ok z → Std.in_range bits signed z = true.
Proof.
  intros ? Hl Hr. unfold integer_operation_spec, exact_result.
  destruct op; simpl in Hr; repeat case_match; intros; simplify_eq; try done;
    auto using land_in_range, lor_in_range, lxor_in_range, cast_range, rem_in_range.
  - width_facts bits. apply in_range_spec in Hl. apply in_range_spec.
    unfold Std.min_value, Std.max_value, Z.lnot in *. lia.
  - width_facts bits. apply in_range_spec in Hl. apply in_range_spec.
    unfold Std.min_value, Std.max_value in *. lia.
  - apply andb_true_iff in H0 as [?%Z.leb_le ?%Z.ltb_lt].
    rewrite <- Z.shiftr_div_pow2 by lia. by apply shiftr_in_range.
  - apply rem_in_range; [done..|]. by apply Z.eqb_neq.
Qed.

Lemma contract_operand_ok o s d l r :
  operation_contract o = Some s → from_builtin (num_input o) = Some d →
  in_domain (num_input o) l = true →
  (∀ ty, num_rhs o = Some ty → in_domain ty r = true) →
  operands_in_domain o l r = true
  ∧ operand_ok (num_op o) (layout d).1 (layout d).2 (if num_rhs o then r else 0) = true.
Proof.
  intros Hc Hd Hl Hr. destruct (contract_rhs _ _ Hc) as (d' & Hd' & Hrhs). simplify_eq.
  destruct (in_domain_inv _ _ Hl) as (d1 & Hd1 & _ & Hlr). simplify_eq.
  unfold operands_in_domain. rewrite Hd. split.
  - destruct (num_rhs o) as [rty|] eqn:E; [|done]. rewrite Hlr.
    destruct (in_domain_inv rty r (Hr _ eq_refl)) as (d2 & -> & _ & ->). done.
  - destruct (num_op o); simpl; try done;
      try (rewrite Hrhs in *; simpl;
           destruct (in_domain_inv _ _ (Hr _ eq_refl)) as (d2 & Hd2 & _ & ?); by simplify_eq).
    rewrite Hrhs. by destruct d.
Qed.

Lemma select_integer_total o s : operation_contract o = Some s →
  is_Some (select_integer (num_op o) (num_input o) (num_rhs o)).
Proof.
  intros Hc. destruct (contract_rhs _ _ Hc) as (d & Hd & Hrhs). unfold select_integer.
  rewrite Hd. simpl. destruct (num_op o); try (eexists; done);
    destruct Hrhs as [c ->]; simpl; rewrite from_builtin_type; destruct d; eexists; done.
Qed.

(** The right operand as the payload operators read it. *)
Definition rhs_operand (o : NumericOperation) (r : Z) : Z := if num_rhs o then r else 0.

Lemma fixed_integer_publish `{FloatOps} o s so l r :
  operation_contract o = Some s →
  select_integer (num_op o) (num_input o) (num_rhs o) = Some so →
  in_domain (num_input o) l = true → (∀ ty, num_rhs o = Some ty → in_domain ty r = true) →
  fixed_integer o (integer_carrier (num_input o) l) ((λ ty, integer_carrier ty r) <$> num_rhs o)
  = publish (builtin_representation (num_input o))
      (evaluate so (as_u64 l) (as_u64 (rhs_operand o r))).
Proof.
  intros Hc Hso Hl Hr. unfold fixed_integer, rhs_operand. rewrite Hc, Hso.
  destruct (integer_carrier_facts _ _ Hl) as (_ & _ & _ & ->).
  destruct (num_rhs o) as [rty|] eqn:E; simpl; [|done].
  by destruct (integer_carrier_facts _ _ (Hr _ eq_refl)) as (_ & _ & _ & ->).
Qed.

Lemma integer_operation_spec_rhs o s l r bits signed : operation_contract o = Some s →
  integer_operation_spec (num_op o) l (rhs_operand o r) bits signed
  = integer_operation_spec (num_op o) l r bits signed.
Proof.
  intros Hc. destruct (contract_rhs _ _ Hc) as (? & _ & Hrhs). unfold rhs_operand.
  destruct (num_op o); try done; first [by rewrite Hrhs | by destruct Hrhs as [? ->]].
Qed.

Lemma integer_layout_domain ty d bits signed :
  integer_layout ty = Some (bits, signed) → from_builtin ty = Some d →
  bits = (layout d).1 ∧ signed = (layout d).2.
Proof.
  unfold integer_layout. intros Hlay Hd. rewrite Hd in Hlay. simpl in Hlay.
  destruct (layout d). by simplify_eq.
Qed.

(** The operator computes the shared integer kernel on the operands' values. *)
Lemma fixed_integer_operation `{FloatOps} o s bits signed l r :
  operation_contract o = Some s → integer_layout (num_input o) = Some (bits, signed) →
  in_domain (num_input o) l = true → (∀ ty, num_rhs o = Some ty → in_domain ty r = true) →
  operand_ok (num_op o) bits signed (rhs_operand o r) = true
  ∧ fixed_integer o (integer_carrier (num_input o) l) ((λ ty, integer_carrier ty r) <$> num_rhs o)
    = res_map (integer_carrier (num_input o))
        (res_map_err script_trap
           (integer_operation (num_op o) l (rhs_operand o r) bits signed)).
Proof.
  intros Hc Hlay Hl Hr. destruct (in_domain_inv _ _ Hl) as (d & Hd & _ & Hlr).
  destruct (integer_layout_domain _ _ _ _ Hlay Hd) as [-> ->].
  destruct (select_integer_total _ _ Hc) as [so Hso].
  assert (∀ ty, num_rhs o = Some ty → in_domain ty (rhs_operand o r) = true) as Hr'.
  { intros ty E. unfold rhs_operand. rewrite E. eauto. }
  destruct (contract_operand_ok _ _ _ _ _ Hc Hd Hl Hr') as [Hdom Hok].
  pose proof (evaluate_integer _ _ _ _ _ Hc Hso Hdom) as He. rewrite Hlay in He.
  assert ((if num_rhs o then rhs_operand o r else 0) = rhs_operand o r) as Hrr
    by (unfold rhs_operand; by destruct (num_rhs o)). rewrite Hrr in He, Hok. split; [done|].
  rewrite (fixed_integer_publish _ _ _ _ _ Hc Hso Hl Hr), He.
  rewrite integer_operation_exact by eauto using layout_valid.
  pose proof (integer_operation_spec_range (num_op o) l (rhs_operand o r)
    (layout d).1 (layout d).2) as Hrange.
  pose proof (valid_width_range _ (layout_valid d)).
  destruct (integer_operation_spec _ _ _ _ _) as [z|m]; [|done]. unfold publish. simpl.
  rewrite integer_carrier_decode; [done|]. unfold in_domain. rewrite Hlay.
  by apply Hrange; [lia|..].
Qed.

(** C16: every fixed-width integer operator ([CheckedAdd] to [Shr]), at every
    integer type its contract admits and on every pair of operands of the
    contract's domains, computes the exact mathematical result: arithmetic
    succeeds exactly when the exact result is representable, shifts exactly
    when the count lies in the width, each refusal carries its own trap
    message, and a result is always a value of the operand type. *)
Theorem fixed_integer_exact `{FloatOps} o s bits signed l r :
  operation_contract o = Some s → integer_layout (num_input o) = Some (bits, signed) →
  in_domain (num_input o) l = true → (∀ ty, num_rhs o = Some ty → in_domain ty r = true) →
  fixed_integer o (integer_carrier (num_input o) l) ((λ ty, integer_carrier ty r) <$> num_rhs o)
  = res_map (integer_carrier (num_input o))
      (res_map_err script_trap (integer_operation_spec (num_op o) l r bits signed)).
Proof.
  intros Hc Hlay Hl Hr. destruct (in_domain_inv _ _ Hl) as (d & Hd & _ & Hlr).
  destruct (fixed_integer_operation _ _ _ _ _ _ Hc Hlay Hl Hr) as [Hok ->].
  destruct (integer_layout_domain _ _ _ _ Hlay Hd) as [-> ->].
  rewrite integer_operation_exact by eauto using layout_valid.
  by rewrite (integer_operation_spec_rhs _ _ l r _ _ Hc).
Qed.

(** Concrete floats, so that the statements over [FloatOps] have an instance. *)
Definition bitwise_floats : FloatOps := {|
  float_arith := λ _ _ l _, l;
  float_partial_cmp := λ _ l r, Some (l ?= r);
  float_to_i128 := λ _ v, v;
  i128_to_float := λ _ v, v mod 2 ^ 32;
  f64_to_f32 := λ v, v mod 2 ^ 32;
  f32_to_f64 := λ v, v |}.

(** The quotient of the least [i8] by [-1] is refused, not wrapped. *)
Lemma fixed_integer_exact_witness :
  @fixed_integer bitwise_floats
    {| num_op := CheckedDiv; num_input := BtI8; num_rhs := Some BtI8 |}
    (VI32 (-128)) (Some (VI32 (-1))) = Err (script_trap "integer overflow").
Proof.
  exact (@fixed_integer_exact bitwise_floats
    {| num_op := CheckedDiv; num_input := BtI8; num_rhs := Some BtI8 |}
    {| sig_left := BtI8; sig_right := Some BtI8; sig_output := BtI8 |} 8 true (-128) (-1)
    eq_refl eq_refl eq_refl (λ ty E, match E in _ = x return
      match x with Some ty => in_domain ty (-1) = true | None => True end with eq_refl => eq_refl end)).
Defined.

Lemma integer_method_correct_witness :
  integer_method (λ _, Ok (VTuple {| owner := 0; slot := 0; generation := 0 |}))
    MCheckedAdd BtU8 [VI64 200; VI64 56] = Ok None.
Proof.
  exact (integer_method_correct _ MCheckedAdd BtU8
    {| mc_receiver := BtU8; mc_rhs := BtU8; mc_method := MCheckedAdd |} 200 56 8 false
    eq_refl eq_refl eq_refl eq_refl).
Defined.

Lemma checked_convert_integer_witness :
  @checked_convert bitwise_floats BtI64 BtU16 (VI64 65536) = Ok None.
Proof.
  exact (@checked_convert_integer bitwise_floats BtI64 BtU16 65536 eq_refl (ex_intro _ _ eq_refl)).
Defined.

(** ** Prepared execution *)
Section PreparedExecution.
Context `{FloatOps}.
Import Prepared.

(** *** Every catalog row is its operation *)
Lemma binary_rows : Forall (λ r, ∀ l k, br_handler r l k = evaluate (br_operation r) l k) binary_catalog.
Proof. repeat (constructor; [reflexivity|]). constructor. Qed.
Lemma shift_rows : Forall (λ r, ∀ c l k, r.2 l k c = evaluate (SoShift r.1 c) l k) shift_catalog.
Proof. repeat (constructor; [reflexivity|]). constructor. Qed.
Lemma compare_rows : Forall (λ r, ∀ c l k, cr_handler r l k c = evaluate (SoCompare (cr_domain r) c) l k) compare_catalog.
Proof. repeat (constructor; [reflexivity|]). constructor. Qed.
Lemma simple_rows : Forall (λ r, ∀ c l k, r.2 l k c = evaluate (SoCompare r.1 c) l k) simple_catalog.
Proof. repeat (constructor; [reflexivity|]). constructor. Qed.
Lemma unary_rows : Forall (λ r, ∀ l k, r.2 l l = evaluate r.1 l k) unary_catalog.
Proof. repeat (constructor; [reflexivity|]). constructor. Qed.

(** The width at which an operation keeps a constant right operand. *)
Definition immediate_width (op : ScalarOperation) : Z * bool :=
  match op with
  | SoInteger d _ => layout d
  | SoFloat F32 _ | SoCompare CdF32 _ => (32, false)
  | SoCompare CdI32 _ => (32, true)
  | SoCompare CdI64 _ => (64, true)
  | _ => (64, false)
  end.
Lemma binary_widths : Forall (λ r, immediate_width (br_operation r) = (br_bits r, br_signed r)) binary_catalog.
Proof. repeat (constructor; [reflexivity|]). constructor. Qed.
Lemma compare_widths : Forall (λ r, ∀ c, immediate_width (SoCompare (cr_domain r) c) = (cr_bits r, cr_signed r)) compare_catalog.
Proof. repeat (constructor; [reflexivity|]). constructor. Qed.
Definition immediate_ok (op : ScalarOperation) (rhs : ScalarInput) : Prop :=
  match rhs with
  | InConstant k => widen (Std.cast (immediate_width op).1 (immediate_width op).2 k) = k
  | InSlot _ => True
  end.

(** What an input supplies to its handler. *)
Definition supplies (bank : Bank) (input : ScalarInput) (bits : Z) : Prop :=
  match input with InSlot s => payload bank s = Some bits | InConstant k => k = bits end.

Lemma row_found {A} (Q R : A → Prop) `{∀ x, Decision (Q x)} rows n r :
  list_find Q rows = Some (n, r) → Forall R rows → rows !! n = Some r ∧ Q r ∧ R r.
Proof.
  intros (Hn & HQ & _)%list_find_Some HR. split_and!; [done|done|]. by eapply Forall_lookup_1.
Qed.

(** Where the result of a handler goes. *)
Definition finish (n : nat) (bank : Bank) (next : nat) (target : ScalarTarget) (r : result Z string)
    : result (Bank * nat) ScalarFailure :=
  match target with Store d => store bank next d r | BranchTo t e => branch_on n bank r t e end.

Lemma fetch_payload bank s bits : payload bank s = Some bits → fetch bank s = Ok bits.
Proof. unfold fetch. by intros ->. Qed.
Lemma handler_row {A} (rows : list A) n r : rows !! n = Some r → handler_of rows n = Ok r.
Proof. unfold handler_of. by intros ->. Qed.
Ltac run_instruction :=
  cbn [execute];
  repeat match goal with
  | H : ?rows !! ?n = Some _ |- context [handler_of ?rows ?n] => rewrite (handler_row _ _ _ H); cbn [res_bind]
  | H : payload ?b ?s = Some _ |- context [fetch ?b ?s] => rewrite (fetch_payload _ _ _ H); cbn [res_bind]
  end.

Lemma binary_arm_executes n op lhs rhs target i bank next l r :
  binary_arm op lhs rhs target = Some i → supplies bank lhs l → supplies bank rhs r → immediate_ok op rhs →
  execute n i bank next = finish n bank next target (evaluate op l r).
Proof.
  unfold binary_arm. destruct (list_find _ binary_catalog) as [[k row]|] eqn:E; [|done]. cbn.
  destruct (row_found _ (λ r, (∀ l k, br_handler r l k = evaluate (br_operation r) l k) ∧ _) _ _ _ E
    (Forall_and binary_rows binary_widths)) as (Hn & Hop & Hev & Hw).
  destruct lhs as [sl|], rhs as [sr|kr], target as [d|]; try done; intros [= <-]; cbn [supplies immediate_ok];
    intros Hl Hr Hi; run_instruction; rewrite Hev, Hop; [done|]; rewrite <- Hop in Hi.
  rewrite Hw in Hi. cbn [fst snd] in Hi. subst kr. by rewrite Hi.
Qed.
Lemma shift_arm_executes n op lhs rhs target i bank next l r :
  shift_arm op lhs rhs target = Some i → supplies bank lhs l → supplies bank rhs r → immediate_ok op rhs →
  execute n i bank next = finish n bank next target (evaluate op l r).
Proof.
  destruct op as [| |kind count| | | | | | | | | | | | | | | | | | | ]; try done. cbn [shift_arm].
  destruct (list_find _ shift_catalog) as [[k row]|] eqn:E; [|done]. cbn.
  destruct (row_found _ _ _ _ _ E shift_rows) as (Hn & Hop & Hev).
  destruct lhs as [sl|], rhs as [sr|kr], target as [d|]; try done; intros [= <-]; cbn [supplies immediate_ok];
    intros Hl Hr Hi; run_instruction; rewrite Hev, Hop; [done|].
  subst kr. cbn [immediate_width fst snd] in Hi. unfold widen, as_u64 in *.
  rewrite !cast_cast in Hi by lia. by rewrite cast_cast, Hi by lia.
Qed.
Lemma compare_arm_executes n op lhs rhs target i bank next l r :
  compare_arm op lhs rhs target = Some i → supplies bank lhs l → supplies bank rhs r → immediate_ok op rhs →
  execute n i bank next = finish n bank next target (evaluate op l r).
Proof.
  destruct op as [| | |domain condition| | | | | | | | | | | | | | | | | | ]; try done. cbn [compare_arm].
  destruct (list_find _ compare_catalog) as [[k row]|] eqn:E; [|done]. cbn.
  destruct (row_found _ (λ r, (∀ c l k, cr_handler r l k c = evaluate (SoCompare (cr_domain r) c) l k) ∧ _) _ _ _ E
    (Forall_and compare_rows compare_widths)) as (Hn & Hop & Hev & Hw).
  destruct lhs as [sl|], rhs as [sr|kr], target as [d|]; try done; intros [= <-]; cbn [supplies immediate_ok];
    intros Hl Hr Hi; run_instruction; rewrite Hev, Hop; try done; rewrite <- Hop, (Hw condition) in Hi;
    cbn [fst snd] in Hi; subst kr; by rewrite Hi.
Qed.
Lemma simple_arm_executes n op lhs rhs target i bank next l r :
  simple_arm op lhs rhs target = Some i → supplies bank lhs l → supplies bank rhs r →
  execute n i bank next = finish n bank next target (evaluate op l r).
Proof.
  destruct op as [| | |domain condition| | | | | | | | | | | | | | | | | | ]; try done. cbn [simple_arm].
  destruct (list_find _ simple_catalog) as [[k row]|] eqn:E; [|done]. cbn.
  destruct (row_found _ _ _ _ _ E simple_rows) as (Hn & Hop & Hev).
  destruct lhs as [sl|], rhs as [sr|kr], target as [d|]; try done; intros [= <-]; cbn [supplies];
    intros Hl Hr; run_instruction; by rewrite Hev, Hop.
Qed.
Lemma unary_arm_executes n op lhs target i bank next l r :
  unary_arm op lhs target = Some i → supplies bank lhs l →
  execute n i bank next = finish n bank next target (evaluate op l r).
Proof.
  unfold unary_arm. destruct lhs as [src|]; [|done]. destruct target as [d|]; [|done]. cbn [supplies]. intros Hi Hl.
  assert ((∃ k row, i = UnaryR k d src ∧ list_find (λ r, r.1 = op) unary_catalog = Some (k, row)) →
    execute n i bank next = finish n bank next (Store d) (evaluate op l r)) as Hrow.
  { intros (k & row & -> & E). destruct (row_found _ _ _ _ _ E unary_rows) as (Hn & Hop & Hev).
    run_instruction. by rewrite (Hev l r), Hop. }
  destruct op; try (injection Hi as <-; by run_instruction); apply Hrow;
    (destruct (list_find _ unary_catalog) as [[k row]|] eqn:E; [|done]); cbn in Hi; injection Hi as <-; by exists k, row.
Qed.
Lemma shared_executes n op lhs rhs target i bank next l r :
  prepare_shared op lhs rhs target = Selected i → supplies bank lhs l → supplies bank rhs r →
  execute n i bank next = finish n bank next target (evaluate op l r).
Proof.
  intros Hi Hl Hr. destruct lhs as [|kl]; [done|]. cbn [supplies] in Hl. subst kl.
  destruct op; try done; destruct target as [d|t e]; try done; destruct rhs as [sr|kr]; try done; cbn in Hi, Hr; subst.
  all: try (injection Hi as <-; by run_instruction).
  unfold finish, branch_on. cbn [evaluate]. destruct (domain_evaluate _ _ _ _) as [v|]; [|done]. injection Hi as <-. done.
Qed.

(** The selected instruction is the operation, whatever the form of its operands. *)
Lemma scalar_operation_executes n op lhs rhs target i bank next l r :
  scalar_operation op lhs rhs target = Selected i → supplies bank lhs l → supplies bank rhs r → immediate_ok op rhs →
  execute n i bank next = finish n bank next target (evaluate op l r).
Proof.
  intros Hi Hl Hr Hk. unfold scalar_operation in Hi.
  destruct (binary_arm op lhs rhs target) eqn:E1; [injection Hi as <-; by eapply binary_arm_executes|].
  destruct (shift_arm op lhs rhs target) eqn:E2; [injection Hi as <-; by eapply shift_arm_executes|].
  destruct (compare_arm op lhs rhs target) eqn:E3; [injection Hi as <-; by eapply compare_arm_executes|].
  destruct (simple_arm op lhs rhs target) eqn:E4; [injection Hi as <-; by eapply simple_arm_executes|].
  destruct (unary_arm op lhs target) eqn:E5; [injection Hi as <-; by eapply unary_arm_executes|].
  by eapply shared_executes.
Qed.

(** *** Every admitted operation is selected *)
Definition two_operands (op : ScalarOperation) : bool :=
  match op with
  | SoInteger _ (BitNot | Shl | Shr) => false
  | SoInteger _ _ | SoFloat _ _ | SoShift _ _ | SoCompare _ _ => true
  | _ => false
  end.
Definition constants_allowed (op : ScalarOperation) : bool :=
  match op with SoCompare (CdChar | CdScalar) _ => false | _ => true end.
Definition is_constant (i : ScalarInput) : bool := match i with InConstant _ => true | InSlot _ => false end.
Definition is_compare (op : ScalarOperation) : bool := match op with SoCompare _ _ => true | _ => false end.

Lemma store_selected op lhs rhs d : two_operands op = true →
  constants_allowed op = true ∨ is_constant lhs = false ∧ is_constant rhs = false →
  ∃ i, scalar_operation op lhs rhs (Store d) = Selected i.
Proof.
  intros Ho Hk. destruct op as [dm o|dm o|k c|dm c| | | | | | | | | | | | | | | | | | ]; try done.
  - destruct o; try done; destruct dm, lhs, rhs; eexists; reflexivity.
  - destruct dm, o, lhs, rhs; eexists; reflexivity.
  - destruct k, lhs, rhs; eexists; reflexivity.
  - destruct dm, lhs, rhs; try (eexists; reflexivity); by destruct Hk as [|[]].
Qed.
Lemma branch_selected op lhs rhs t e l r bank : is_compare op = true →
  constants_allowed op = true ∨ is_constant lhs = false ∧ is_constant rhs = false →
  supplies bank lhs l → supplies bank rhs r → is_ok (evaluate op l r) = true →
  ∃ i, scalar_operation op lhs rhs (BranchTo t e) = Selected i.
Proof.
  intros Ho Hk Hl Hr Hok. destruct op as [| | |dm c| | | | | | | | | | | | | | | | | | ]; try done. cbn [evaluate] in Hok.
  destruct lhs as [sl|kl], rhs as [sr|kr]; cbn [supplies] in Hl, Hr.
  - destruct dm; eexists; reflexivity.
  - destruct dm; try (eexists; reflexivity); by destruct Hk as [|[]].
  - destruct dm; try (eexists; reflexivity); by destruct Hk as [|[]].
  - subst. unfold scalar_operation, prepare_shared. destruct (domain_evaluate dm c l r) as [v|] eqn:E; [|done].
    destruct dm; cbn [binary_arm list_find]; eexists; rewrite ?E; try reflexivity; by destruct Hk as [|[]].
Qed.
Lemma unary_selected op src d : two_operands op = false → (∀ dm o, op ≠ SoInteger dm o) →
  ∃ i, scalar_operation op (InSlot src) (InSlot src) (Store d) = Selected i.
Proof. intros Ho Hn. destruct op; try done; try (by eexists; reflexivity). by edestruct Hn. Qed.
End PreparedExecution.

(** *** What the operators mean *)
Definition arithmetic_of (op : BinaryOp) : option (IntegerOp * FloatOperation) :=
  match op with
  | BAdd => Some (CheckedAdd, FAdd) | BSub => Some (CheckedSub, FSub) | BMul => Some (CheckedMul, FMul)
  | BDiv => Some (CheckedDiv, FDiv) | BRem => Some (CheckedRem, FRem) | _ => None
  end.
(** The relation a comparison asks of the order of its operands; unordered floats have none. *)
Definition relation_holds (op : BinaryOp) (o : option comparison) : option bool :=
  match op with
  | BEq => Some (bool_decide (o = Some Eq))
  | BNotEq => Some (negb (bool_decide (o = Some Eq)))
  | BLt => Some (bool_decide (o = Some Lt))
  | BLe => Some (bool_decide (o = Some Lt ∨ o = Some Eq))
  | BGt => Some (bool_decide (o = Some Gt))
  | BGe => Some (bool_decide (o = Some Gt ∨ o = Some Eq))
  | _ => None
  end.
(** An operand of a declared integer type: its value, if it is one of the type. *)
Definition operand_spec (ty : BuiltinType) (v : Value) : result Z string :=
  match value_integer v with
  | Some z => if in_domain ty z then Ok z else Err operand_error
  | None => Err operand_error
  end.
Definition fixed_spec (o : NumericOperation) (l : Value) (r : option Value) : result Value string :=
  let? a := operand_spec (num_input o) l in
  let? b := match num_rhs o, r with Some ty, Some v => operand_spec ty v | _, _ => Ok 0 end in
  match integer_layout (num_input o) with
  | Some (bits, signed) =>
      res_map (integer_carrier (num_input o)) (integer_operation_spec (num_op o) a b bits signed)
  | None => Err operand_error
  end.
Definition unary_spec (op : UnaryOp) (v : Value) : result Value string :=
  match op, v with
  | Neg, VI32 z => res_map VI32 (exact_result 32 true (- z))
  | Neg, VI64 z => res_map VI64 (exact_result 64 true (- z))
  | Neg, VF32 bits => Ok (VF32 (Z.lxor bits (2 ^ 31)))
  | Neg, VF64 bits => Ok (VF64 (Z.lxor bits (2 ^ 63)))
  | Not, VBool b => Ok (VBool (negb b))
  | _, _ => Err operand_error
  end.

Section OperatorMeaning.
Context `{FloatOps}.
Definition values_order (l r : Value) : option comparison :=
  match l, r with
  | VUnit, VUnit => Some Eq
  | VBool a, VBool b => Some (Z.b2z a ?= Z.b2z b)
  | VChar a, VChar b | VI32 a, VI32 b | VI64 a, VI64 b | VU64 a, VU64 b => Some (a ?= b)
  | VF32 a, VF32 b => float_partial_cmp F32 a b
  | VF64 a, VF64 b => float_partial_cmp F64 a b
  | _, _ => None
  end.
Definition binary_spec (op : BinaryOp) (l r : Value) : result Value string :=
  match op with
  | BNumeric o => fixed_spec o l (Some r)
  | _ =>
      match arithmetic_of op with
      | Some (iop, fop) =>
          match l, r with
          | VI32 a, VI32 b => res_map VI32 (integer_operation_spec iop a b 32 true)
          | VI64 a, VI64 b => res_map VI64 (integer_operation_spec iop a b 64 true)
          | VU64 a, VU64 b => res_map VU64 (integer_operation_spec iop a b 64 false)
          | VF32 a, VF32 b => Ok (VF32 (float_arith F32 fop a b))
          | VF64 a, VF64 b => Ok (VF64 (float_arith F64 fop a b))
          | _, _ => Err operand_error
          end
      | None =>
          match relation_holds op (values_order l r) with
          | Some b => Ok (VBool b)
          | None => Err operand_error
          end
      end
  end.

(** Conversions: integers wrap to the target's width, floats saturate to its range, and a
    conversion to the same type is the identity. *)
Definition convert_spec (source target : BuiltinType) (v : Value) : result Value string :=
  let from_integer z :=
    if bool_decide (source = target) then Ok v
    else match target with
         | BtF32 => Ok (VF32 (i128_to_float F32 z))
         | BtF64 => Ok (VF64 (i128_to_float F64 z))
         | _ => match integer_layout target with
                | Some (bits, signed) => Ok (integer_carrier target (Std.cast bits signed z))
                | None => Err operand_error
                end
         end in
  let from_float ty bits :=
    if bool_decide (source = target) then Ok v
    else match target with
         | BtF32 => Ok (VF32 (f64_to_f32 bits))
         | BtF64 => Ok (VF64 (f32_to_f64 bits))
         | _ => match integer_layout target with
                | Some (width, signed) =>
                    Ok (integer_carrier target (Std.saturating width signed (float_to_i128 ty bits)))
                | None => Err operand_error
                end
         end in
  match v with
  | VBool b => from_integer (Z.b2z b)
  | VI32 _ | VI64 _ | VU64 _ => let? z := operand_spec source v in from_integer z
  | VF32 bits => from_float F32 bits
  | VF64 bits => from_float F64 bits
  | _ => Err operand_error
  end.

(** The operation computes a meaning: the payload of the value, or the trap. *)
Definition computes (so : ScalarOperation) (el er : Z) (spec : result Value string) : Prop :=
  match spec with
  | Ok v => ∃ bits, evaluate so el er = Ok bits ∧ encode v = Some bits
  | Err m => evaluate so el er = Err m
  end.

Lemma computes_integer so el er ty bits signed r :
  integer_layout ty = Some (bits, signed) →
  evaluate so el er = res_map as_u64 r → (∀ z, r = Ok z → Std.in_range bits signed z = true) →
  computes so el er (res_map (integer_carrier ty) r).
Proof.
  intros Hlay He Hr. unfold computes. rewrite He. destruct r as [z|m]; [|done]. cbn.
  exists (as_u64 z). split; [done|].
  assert (in_domain ty z = true) as Hd by (unfold in_domain; rewrite Hlay; by apply Hr).
  destruct (integer_carrier_facts _ _ Hd) as (Hok & _ & Hz & _). by apply encode_integer.
Qed.

Lemma operand_spec_carrier d v : value_ok v = true →
  has_representation v (builtin_representation (builtin_type d)) = true →
  ∃ z, encode v = Some (as_u64 z) ∧
    (operand_spec (builtin_type d) v = Ok z ∧ in_domain (builtin_type d) z = true
     ∨ operand_spec (builtin_type d) v = Err operand_error
       ∧ decode_integer_domain (as_u64 z) (layout d).1 (layout d).2 = Err operand_error).
Proof.
  intros Hok Hr. destruct (read_integer_carrier d v Hok Hr) as (z & Hz & _). exists z.
  split; [by apply encode_integer|]. pose proof (decode_carrier d v z Hok Hz Hr) as Hd.
  unfold operand_spec. rewrite Hz.
  assert (in_domain (builtin_type d) z = Std.in_range (layout d).1 (layout d).2 z) as Hdom.
  { unfold in_domain, integer_layout. rewrite from_builtin_type. cbn. by destruct (layout d). }
  rewrite Hdom. destruct (Std.in_range _ _ z); [by left|by right].
Qed.

Lemma computes_fixed o s so l r el er :
  operation_contract o = Some s → select_integer (num_op o) (num_input o) (num_rhs o) = Some so →
  value_ok l = true → has_representation l (builtin_representation (num_input o)) = true → encode l = Some el →
  match num_rhs o with
  | Some ty => ∃ v, r = Some v ∧ value_ok v = true ∧ has_representation v (builtin_representation ty) = true ∧ encode v = Some er
  | None => True
  end → computes so el er (fixed_spec o l r).
Proof.
  intros Hc Hso Hl Hlr Hel Hr. destruct (contract_rhs _ _ Hc) as (d & Hd & Hrhs).
  pose proof (from_builtin_Some _ _ Hd) as Hdt. rewrite Hdt in Hlr.
  destruct (operand_spec_carrier d l Hl Hlr) as (zl & Hzl & Hsl). rewrite Hzl in Hel. injection Hel as <-.
  pose proof (valid_width_range _ (layout_valid d)) as Hw.
  assert (integer_layout (num_input o) = Some ((layout d).1, (layout d).2)) as Hlay.
  { unfold integer_layout. rewrite Hd. cbn. by destruct (layout d). }
  unfold fixed_spec. rewrite <- Hdt in Hsl. rewrite Hlay.
  assert (∀ zr, in_domain (num_input o) zl = true → (∀ ty, num_rhs o = Some ty → in_domain ty zr = true ∧ er = as_u64 zr) →
    computes so (as_u64 zl) er (res_map (integer_carrier (num_input o))
      (integer_operation_spec (num_op o) zl (rhs_operand o zr) (layout d).1 (layout d).2))) as Hgood.
  { intros zr Hdl Hdr.
    assert (∀ ty, num_rhs o = Some ty → in_domain ty (rhs_operand o zr) = true) as Hdr'.
    { intros ty E. unfold rhs_operand. rewrite E. by apply Hdr. }
    destruct (contract_operand_ok _ _ _ _ _ Hc Hd Hdl Hdr') as [Hdom Hok].
    pose proof (evaluate_integer _ _ _ _ _ Hc Hso Hdom) as He. rewrite Hlay in He.
    assert ((if num_rhs o then rhs_operand o zr else 0) = rhs_operand o zr) as Hrr
      by (unfold rhs_operand; by destruct (num_rhs o)). rewrite Hrr in He, Hok.
    destruct (in_domain_inv _ _ Hdl) as (d1 & Hd1 & _ & Hlrange). assert (d1 = d) as -> by congruence.
    rewrite integer_operation_exact in He by eauto using layout_valid.
    eapply computes_integer; [exact Hlay| |].
    - destruct (num_rhs o) as [ty|] eqn:E.
      + destruct (Hdr _ eq_refl) as [_ ->]. unfold rhs_operand in He |- *. by rewrite E in He |- *.
      + destruct (num_op o) eqn:Eo; try done; [|by destruct Hrhs..]. rewrite <- He.
        unfold select_integer in Hso. rewrite Hd in Hso. cbn in Hso. injection Hso as <-.
        destruct d; done.
    - intros z. apply integer_operation_spec_range; [lia|done|done]. }
  destruct Hsl as [[-> Hdl]|[-> Hbad]]; cbn [res_bind].
  - destruct (num_rhs o) as [ty|] eqn:E.
    + destruct Hr as (v & -> & Hv & Hvr & Hev).
      destruct (contract_domains _ _ _ Hc E) as (d0 & d' & Hd0 & Hd'). pose proof (from_builtin_Some _ _ Hd') as Hdt'.
      rewrite Hdt' in Hvr. destruct (operand_spec_carrier d' v Hv Hvr) as (zr & Hzr & Hsr). rewrite Hzr in Hev. injection Hev as <-.
      rewrite <- Hdt' in Hsr. destruct Hsr as [[-> Hdr]|[-> Hbad]]; cbn [res_bind].
      * specialize (Hgood zr Hdl). unfold rhs_operand in Hgood. rewrite E in Hgood. apply Hgood. intros ? [= <-]. by split.
      * destruct (evaluate_operand_errors _ _ _ _ _ _ (as_u64 zl) (as_u64 zr) Hc E Hd Hd' ltac:(by rewrite E)) as [_ Er].
        destruct (in_domain_inv _ _ Hdl) as (d1 & Hd1 & _ & Hlrange). assert (d1 = d) as -> by congruence.
        cbn [computes]. eapply Er; [by apply decode_domain|done].
    + specialize (Hgood 0 Hdl). unfold rhs_operand in Hgood. rewrite E in Hgood. apply Hgood. by intros.
  - cbn [computes]. destruct (num_rhs o) as [ty|] eqn:E.
    + destruct (contract_domains _ _ _ Hc E) as (d0 & d' & Hd0 & Hd').
      destruct (evaluate_operand_errors _ _ _ _ _ _ (as_u64 zl) er Hc E Hd Hd' ltac:(by rewrite E)) as [El _]. by apply El.
    + destruct (num_op o) eqn:Eo; try done; [|by destruct Hrhs..].
      unfold select_integer in Hso. rewrite Hd in Hso. cbn in Hso. injection Hso as <-.
      destruct d; cbn [evaluate]; unfold integer_value; cbn [layout fst snd] in Hbad; by rewrite Hbad.
Qed.

Lemma computes_arithmetic_integer d ty mk op so iop fop a b :
  carrier_of d = Some (ty, mk) → arithmetic_of op = Some (iop, fop) → prepare_binary op ty = Some so →
  value_ok (mk a) = true → value_ok (mk b) = true →
  computes so (as_u64 a) (as_u64 b) (res_map mk (integer_operation_spec iop a b (layout d).1 (layout d).2)).
Proof.
  intros Hc Hop Hso Ha Hb. destruct (carrier_facts _ _ _ _ Hc Ha) as [Hra _], (carrier_facts _ _ _ _ Hc Hb) as [Hrb _].
  assert (so = SoInteger d iop) as ->.
  { destruct op, d; try discriminate Hc; injection Hc as <- <-; try discriminate Hop; injection Hop as <- <-;
      cbn in Hso; by injection Hso as <-. }
  assert (mk = integer_carrier (builtin_type d)) as -> by (destruct d; try discriminate Hc; by injection Hc as <- <-).
  pose proof (valid_width_range _ (layout_valid d)).
  assert (operand_ok iop (layout d).1 (layout d).2 b = true) as Hob by (destruct iop; (exact Hrb || reflexivity)).
  eapply (computes_integer _ _ _ _ (layout d).1 (layout d).2).
  - unfold integer_layout. rewrite from_builtin_type. cbn. by destruct (layout d).
  - cbn [evaluate]. rewrite shared_integer_encoded by done. by rewrite integer_operation_exact by (done || apply layout_valid).
  - intros z. apply integer_operation_spec_range; [lia|done|done].
Qed.

Lemma relation_test op c o : comparison_of op = Some c → relation_holds op o = Some (negb (test c o =? 0)).
Proof. by destruct op, o as [[]|]; intros [= <-]. Qed.
Lemma computes_relation so el er op c o b :
  comparison_of op = Some c → evaluate so el er = Ok (test c o) → relation_holds op o = Some b →
  computes so el er (Ok (VBool b)).
Proof.
  intros Hop He Hb. rewrite (relation_test _ _ _ Hop) in Hb. injection Hb as <-. exists (test c o). split; [done|].
  cbn. by destruct c, o as [[]|].
Qed.

Lemma computes_binary cop op lt rt ty so l r el er :
  binary_result cop lt rt = Ok ty → lower_binary_op cop = Some op → prepare_binary op lt = Some so →
  is_Some (scalar_type lt) → value_ok l = true → value_ok r = true →
  has_representation l lt = true → has_representation r rt = true → encode l = Some el → encode r = Some er →
  computes so el er (binary_spec op l r).
Proof.
  intros Hc Hop Hso Hs Hl Hr Hlr Hrr Hel Her.
  assert ((∃ o, cop = BoNumeric o) ∨ ¬ ∃ o, cop = BoNumeric o) as [[o ->]|Hno] by (destruct cop; eauto; right; by intros []).
  { injection Hop as <-. cbn in Hc, Hso |- *. destruct (operation_contract o) as [s|] eqn:Ho; [|done].
    rewrite (contract_signature _ _ Ho) in Hc. cbn in Hc. destruct (num_rhs o) as [rty|] eqn:Hrt; [|done]. cbn in Hc.
    destruct (expect_type lt _ _) as [[]|] eqn:E1; [|done]. destruct (expect_type rt _ _) as [[]|] eqn:E2; [|done].
    apply expect_type_ok in E1 as ->. apply expect_type_ok in E2 as ->.
    eapply computes_fixed; try done; [by rewrite Hrt|]. rewrite Hrt. by exists r. }
  assert (rt = lt) as ->.
  { destruct cop; first [discriminate Hop | (destruct Hno; by eexists) | idtac]; cbn [binary_result] in Hc; destruct (expect_type rt lt _) as [[]|] eqn:E; try done;
      by apply expect_type_ok in E as ->. }
  destruct (arithmetic_of op) as [[iop fop]|] eqn:Ea.
  - assert (binary_spec op l r = match l, r with
          | VI32 a, VI32 b => res_map VI32 (integer_operation_spec iop a b 32 true)
          | VI64 a, VI64 b => res_map VI64 (integer_operation_spec iop a b 64 true)
          | VU64 a, VU64 b => res_map VU64 (integer_operation_spec iop a b 64 false)
          | VF32 a, VF32 b => Ok (VF32 (float_arith F32 fop a b))
          | VF64 a, VF64 b => Ok (VF64 (float_arith F64 fop a b))
          | _, _ => Err operand_error end) as -> by (destruct op; try discriminate Ea; cbn [binary_spec]; by rewrite Ea).
    assert (numeric lt = true) as Hn.
    { destruct op; try discriminate Ea; destruct cop; try discriminate Hop; cbn in Hc;
        destruct (expect_type lt lt _) as [[]|]; try done; cbn in Hc; by destruct (numeric lt). }
    destruct lt; try discriminate Hn; destruct l; try discriminate Hlr; destruct r; try discriminate Hrr; cbn [encode] in Hel, Her;
      injection Hel as <-; injection Her as <-; cbn [value_ok] in Hl, Hr.
    + replace (as_u64 (Std.cast 64 true z)) with (as_u64 z) by (unfold as_u64; by rewrite cast_cast by lia).
      replace (as_u64 (Std.cast 64 true z0)) with (as_u64 z0) by (unfold as_u64; by rewrite cast_cast by lia).
      by eapply (computes_arithmetic_integer ItI32).
    + by eapply (computes_arithmetic_integer ItI64).
    + assert (∀ u, Std.in_range 64 false u = true → as_u64 u = u) as Hid by (intros; apply cast_id; (lia || done)).
      rewrite <- (Hid z Hl) at 1. rewrite <- (Hid z0 Hr) at 1. by eapply (computes_arithmetic_integer ItU64).
    + assert (so = SoFloat F32 fop) as -> by (destruct op; try discriminate Ea; injection Ea as <- <-; cbn in Hso; by injection Hso as <-).
      eexists. split; [|done]. cbn [evaluate]. unfold float_binary. by rewrite !(cast_id 32) by (done || lia).
    + assert (so = SoFloat F64 fop) as -> by (destruct op; try discriminate Ea; injection Ea as <- <-; cbn in Hso; by injection Hso as <-).
      by eexists.
  - destruct (comparison_of op) as [c|] eqn:Ec.
    2: { exfalso. destruct op; try discriminate Ea; try discriminate Ec; first [discriminate Hso | destruct cop; first [discriminate Hop | destruct Hno; by eexists]]. }
    assert (∃ b, relation_holds op (values_order l r) = Some b) as [b Hb] by (destruct op; try discriminate Ec; by eexists).
    assert (binary_spec op l r = Ok (VBool b)) as -> by (destruct op; try discriminate Ec; cbn [binary_spec arithmetic_of]; by rewrite Hb).
    eapply (computes_relation _ _ _ op c (values_order l r)); [done| |done].
    assert (∃ dm, so = SoCompare dm c ∧ match lt with
      | VtI32 => dm = CdI32 | VtI64 => dm = CdI64 | VtU64 => dm = CdU64 | VtF32 => dm = CdF32 | VtF64 => dm = CdF64
      | VtChar => dm = CdChar | _ => dm = CdScalar end) as (dm & -> & Hdm).
    { destruct op; try discriminate Ec; injection Ec as <-; destruct lt; cbn in Hso; try discriminate Hso; injection Hso as <-; by eexists. }
    clear Hso Hop Hc Ea Hb.
    destruct lt; try (by destruct Hs); subst dm; destruct l; try discriminate Hlr; destruct r; try discriminate Hrr;
      cbn [encode] in Hel, Her; injection Hel as <-; injection Her as <-; cbn [value_ok] in Hl, Hr; cbn [evaluate domain_evaluate values_order];
      unfold integer_compare, float_compare, char_compare, scalar_compare.
    + done.
    + done.
    + replace (as_u64 (Std.cast 64 true z)) with (as_u64 z) by (unfold as_u64; by rewrite cast_cast by lia).
      replace (as_u64 (Std.cast 64 true z0)) with (as_u64 z0) by (unfold as_u64; by rewrite cast_cast by lia).
      by rewrite !decode_as_u64 by (done || lia).
    + by rewrite !decode_as_u64 by (done || lia).
    + assert (∀ u, Std.in_range 64 false u = true → decode_integer_domain u 64 false = Ok u) as Hid.
      { intros u Hu. pose proof (decode_as_u64 64 false u ltac:(lia) Hu) as Hd. unfold as_u64 in Hd. by rewrite cast_id in Hd by (lia || done). }
      by rewrite (Hid z Hl), (Hid z0 Hr).
    + by rewrite !(cast_id 32) by (done || lia).
    + done.
    + by rewrite Hl, Hr.
Qed.

Lemma computes_unary op lt ty so v e :
  unary_result op lt = Ok ty → prepare_unary op lt = Some so →
  value_ok v = true → has_representation v lt = true → encode v = Some e →
  computes so e e (unary_spec op v).
Proof.
  intros Hc Hso Hv Hr He.
  assert (∀ d, d = ItI32 ∨ d = ItI64 → ∀ z, Std.in_range (layout d).1 true z = true →
    computes (match d with ItI32 => I32Neg | _ => I64Neg end) (as_u64 z) (as_u64 z)
      (res_map (integer_carrier (builtin_type d)) (exact_result (layout d).1 true (- z)))) as Hneg.
  { intros d Hd z Hz. pose proof (valid_width_range _ (layout_valid d)).
    assert (Std.in_range (layout d).1 true 0 = true) as Hzero by (by destruct Hd as [-> | ->]).
    change (- z) with (0 - z). eapply (computes_integer _ _ _ _ (layout d).1 true); [by destruct Hd as [-> | ->]| |].
    - transitivity (negate_integer (layout d).1 (as_u64 z)); [destruct Hd as [-> | ->]; reflexivity|].
      unfold negate_integer, integer_value. change 0 with (as_u64 0) at 1. rewrite !decode_as_u64 by (done || lia).
      cbn [res_bind integer_value_op]. by rewrite integer_operation_exact by (done || apply layout_valid).
    - unfold exact_result. intros u. destruct (Std.in_range _ _ (0 - z)) eqn:E; [|done]. by intros [= <-]. }
  unfold unary_result in Hc. destruct op; lazymatch type of Hc with (if ?b then _ else _) = _ => destruct b eqn:Hn end;
    try discriminate Hc.
  - destruct lt; try discriminate Hn; destruct v; try discriminate Hr; cbn in Hso; cbn [encode] in He; injection Hso as <-; injection He as <-; cbn [value_ok] in Hv.
    + replace (as_u64 (Std.cast 64 true z)) with (as_u64 z) by (unfold as_u64; by rewrite cast_cast by lia).
      by apply (Hneg ItI32); [left|].
    + by apply (Hneg ItI64); [right|].
    + by eexists.
    + by eexists.
  - apply bool_decide_eq_true_1 in Hn as ->. destruct v; try discriminate Hr. injection Hso as <-. injection He as <-.
    eexists. split; [done|]. by destruct b.
Qed.

Lemma select_conversion_evaluates source target so l r :
  select_conversion source target = Some so → evaluate so l r = convert l source target.
Proof.
  unfold select_conversion. destruct source, target; cbn; intros Hs; try discriminate Hs; injection Hs as <-; reflexivity.
Qed.

Lemma encode_carrier ty z : in_domain ty z = true → encode (integer_carrier ty z) = Some (as_u64 z).
Proof. intros Hz. destruct (integer_carrier_facts _ _ Hz) as (Hok & _ & Hi & _). by apply encode_integer. Qed.

(** The cast of a number to a target other than its own type. *)
Lemma convert_number value source target number :
  source ≠ target → convert value source target = (let? n := number in
    match number_type target with
    | Some ty => Ok (match number_cast n ty with NInteger v => as_u64 v | NF32 v => v | NF64 v => v end)
    | None => Err "numeric target" end) →
  ∀ n, number = Ok n → is_Some (number_type target) →
  ∃ bits, convert value source target = Ok bits ∧
    match n, target with
    | NInteger z, BtF32 => bits = i128_to_float F32 z
    | NInteger z, BtF64 => bits = i128_to_float F64 z
    | NF32 b, BtF32 => bits = b
    | NF32 b, BtF64 => bits = f32_to_f64 b
    | NF64 b, BtF32 => bits = f64_to_f32 b
    | NF64 b, BtF64 => bits = b
    | _, _ => ∃ width signed, integer_layout target = Some (width, signed) ∧ encode (integer_carrier target (match n with
        | NInteger z => Std.cast width signed z
        | NF32 b => Std.saturating width signed (float_to_i128 F32 b)
        | NF64 b => Std.saturating width signed (float_to_i128 F64 b) end)) = Some bits
    end.
Proof.
  intros Hne Hc n -> [ty Hty]. rewrite Hc. cbn [res_bind]. rewrite Hty. eexists. split; [done|].
  destruct (from_builtin target) as [dt|] eqn:Hdt.
  - pose proof (from_builtin_Some _ _ Hdt) as ->. assert (ty = NtInteger (layout dt).1 (layout dt).2) as ->.
    { assert (number_type (builtin_type dt) = Some (NtInteger (layout dt).1 (layout dt).2)) as E by (by destruct dt). congruence. }
    pose proof (valid_width_range _ (layout_valid dt)).
    assert (integer_layout (builtin_type dt) = Some ((layout dt).1, (layout dt).2)) as Hlay.
    { unfold integer_layout. rewrite from_builtin_type. cbn. by destruct (layout dt). }
    assert (∀ z, Std.in_range (layout dt).1 (layout dt).2 z = true → encode (integer_carrier (builtin_type dt) z) = Some (as_u64 z)) as Henc.
    { intros z Hz. apply encode_carrier. unfold in_domain. by rewrite Hlay. }
    cbn [number_cast]. rewrite bounds_eq by lia.
    assert (∀ m, ∃ width signed, integer_layout (builtin_type dt) = Some (width, signed) ∧
      encode (integer_carrier (builtin_type dt) (match m with
        | NInteger z => Std.cast width signed z
        | NF32 b => Std.saturating width signed (float_to_i128 F32 b)
        | NF64 b => Std.saturating width signed (float_to_i128 F64 b) end)) = Some (as_u64 (match m with
                | NInteger v => wrap v (layout dt).1 (layout dt).2
                | NF32 v => Std.clamp (float_to_i128 F32 v) (Std.min_value (layout dt).1 (layout dt).2) (Std.max_value (layout dt).1 (layout dt).2)
                | NF64 v => Std.clamp (float_to_i128 F64 v) (Std.min_value (layout dt).1 (layout dt).2) (Std.max_value (layout dt).1 (layout dt).2)
                end))) as Hm.
    { intros m. exists (layout dt).1, (layout dt).2. split; [done|]. destruct m.
      - rewrite wrap_cast by lia. apply Henc, cast_range. lia.
      - apply Henc, saturating_range. lia.
      - apply Henc, saturating_range. lia. }
    specialize (Hm n). by destruct dt, n.
  - destruct target; cbn in Hdt, Hty; try discriminate Hdt; try discriminate Hty; injection Hty as <-; by destruct n.
Qed.

Lemma convert_from_integer d value target :
  convert value (builtin_type d) target =
    let? v := decode_integer_domain value (layout d).1 (layout d).2 in
    if bool_decide (builtin_type d = target) then Ok value
    else match number_type target with
         | Some ty => Ok (match number_cast (NInteger v) ty with
                          | NInteger v => as_u64 v | NF32 v => v | NF64 v => v end)
         | None => Err "numeric target"
         end.
Proof.
  unfold convert, decode_integer_domain. destruct d; cbn -[Std.cast as_u64 bounds number_cast number_type]; repeat case_match; done.
Qed.

Lemma computes_convert source target so v e :
  can_cast_to source target = true → select_conversion source target = Some so →
  value_ok v = true → has_representation v (builtin_representation source) = true → encode v = Some e →
  computes so e e (convert_spec source target v).
Proof.
  intros Hc Hso Hv Hr He. pose proof (select_conversion_evaluates _ _ _ e e Hso) as Hev. unfold computes. rewrite Hev. clear Hev Hso.
  assert (is_Some (number_type target)) as Hnum.
  { unfold can_cast_to in Hc. apply orb_true_iff in Hc as [[_ Ht%bool_decide_eq_true_1]%andb_true_iff|[_ Ht%bool_decide_eq_true_1]%andb_true_iff]; [done|].
    destruct target; try done; cbn in Ht |- *; eauto; by destruct Ht. }
  destruct (from_builtin source) as [d|] eqn:Hd.
  - pose proof (from_builtin_Some _ _ Hd) as ->. destruct (operand_spec_carrier d v Hv Hr) as (z & Hz & Hs). rewrite Hz in He. injection He as <-.
    assert (convert_spec (builtin_type d) target v = let? z := operand_spec (builtin_type d) v in
      if bool_decide (builtin_type d = target) then Ok v
      else match target with
         | BtF32 => Ok (VF32 (i128_to_float F32 z))
         | BtF64 => Ok (VF64 (i128_to_float F64 z))
         | _ => match integer_layout target with
                | Some (bits, signed) => Ok (integer_carrier target (Std.cast bits signed z))
                | None => Err operand_error
                end
         end) as -> by (destruct v; try done; by destruct d).
    pose proof (convert_from_integer d (as_u64 z) target) as Hconv.
    destruct Hs as [[-> Hdom]|[-> Hbad]]; cbn [res_bind]; [|by rewrite Hconv, Hbad].
    destruct (in_domain_inv _ _ Hdom) as (d1 & Hd1 & _ & Hrange). assert (d1 = d) as -> by congruence.
    rewrite (decode_domain d z Hrange) in Hconv. cbn [res_bind] in Hconv. case_bool_decide as Heq; [by exists (as_u64 z)|].
    destruct (convert_number (as_u64 z) (builtin_type d) target (Ok (NInteger z)) Heq Hconv _ eq_refl Hnum) as (bits & Hbits & Hres).
    rewrite Hbits. destruct target; try (subst bits; by eexists); try (destruct Hres as (w & sg & Hlay & Henc); rewrite Hlay; by exists bits).
  - destruct (decide (source = BtBool)) as [->|Hnb].
    { destruct v; try discriminate Hr. injection He as <-.
      assert (BtBool ≠ target) as Hne by (intros <-; by destruct Hnum).
      assert (convert (Z.b2z b) BtBool target = (let? n := Ok (NInteger (Z.b2z b)) in match number_type target with
        | Some ty => Ok (match number_cast n ty with NInteger v => as_u64 v | NF32 v => v | NF64 v => v end)
        | None => Err "numeric target" end)) as Hconv.
      { unfold convert. cbn [integer_layout integer_bounds from_builtin fmap option_fmap option_map res_bind]. by rewrite bool_decide_eq_false_2. }
      destruct (convert_number _ BtBool target _ Hne Hconv _ eq_refl Hnum) as (bits & Hbits & Hres). rewrite Hbits.
      unfold convert_spec. rewrite bool_decide_eq_false_2 by done.
      destruct target; try discriminate Hc; try (subst bits; by eexists); try (destruct Hres as (w & sg & Hlay & Henc); rewrite Hlay; by exists bits). }
    assert (∃ ty bits, float_from_builtin source = Some ty ∧ v = (if bool_decide (ty = F32) then VF32 bits else VF64 bits) ∧ e = bits
      ∧ convert e source target = (let? n := Ok (if bool_decide (ty = F32) then NF32 bits else NF64 bits) in
          if bool_decide (source = target) then Ok e else match number_type target with
          | Some ty => Ok (match number_cast n ty with NInteger v => as_u64 v | NF32 v => v | NF64 v => v end)
          | None => Err "numeric target" end)) as (ty & fb & Hf & -> & -> & Hconv).
    { destruct source; try discriminate Hd; try done; try (unfold can_cast_to in Hc; cbn in Hc; discriminate Hc);
        destruct v; try discriminate Hr; injection He as <-; [exists F32, bits|exists F64, bits]; split_and!; try done.
      unfold convert. cbn [res_bind]. cbn [value_ok] in Hv. by rewrite cast_id by (lia || done). }
    destruct (decide (source = target)) as [<-|Hne].
    { rewrite (bool_decide_eq_true_2 (source = source)) in Hconv by done. cbn [res_bind] in Hconv. rewrite Hconv.
      unfold convert_spec. rewrite (bool_decide_eq_true_2 (source = source)) by done. destruct ty; by eexists. }
    rewrite (bool_decide_eq_false_2 (source = target)) in Hconv by done.
    destruct (convert_number _ source target _ Hne Hconv _ eq_refl Hnum) as (bits & Hbits & Hres). rewrite Hbits.
    destruct ty; [change (bool_decide (F32 = F32)) with true in *|change (bool_decide (F64 = F32)) with false in *];
      unfold convert_spec; rewrite ?(bool_decide_eq_false_2 (source = target)) by done;
      destruct source; try discriminate Hf; destruct target; cbn in Hres; try done;
      try (subst bits; by eexists); try (destruct Hres as (w & sg & Hlay & Henc); injection Hlay as <- <-; by exists bits).
Qed.
End OperatorMeaning.

(** *** A prepared frame *)
Section Frames.
Import Prepared.

(** What preparation and execution see of a function and its frame. *)
Record Frame : Type := {
  fr_constants : list ConstantOperand; fr_slots : list ValueType; fr_location : Slot → option ScalarSlot;
  fr_length : nat; fr_bank : Bank
}.
Definition constant_value (k : ConstantOperand) : option Value :=
  match k with
  | KI32 z => Some (VI32 z) | KI64 z => Some (VI64 z) | KU64 z => Some (VU64 z)
  | KF32 bits => Some (VF32 bits) | KF64 bits => Some (VF64 bits) | _ => None
  end.

(** A slot of representation [ty] holds a well-formed value. *)
Definition holds (f : Frame) (s : Slot) (ty : ValueType) (v : Value) : Prop :=
  fr_slots f !! s = Some ty ∧ has_representation v ty = true ∧ value_ok v = true ∧
  ∃ p bits, fr_location f s = Some p ∧ payload (fr_bank f) p = Some bits ∧ encode v = Some bits.
(** An operand the verifier admits has this value: [verifier/scalar.rs], [operand_type]. *)
Definition operand_holds (f : Frame) (operand : ScalarOperand) (ty : ValueType) (v : Value) : Prop :=
  match operand with
  | OpSlot s => holds f s ty v
  | OpConstant constant bty => ty = builtin_representation bty ∧ value_ok v = true ∧
      ∃ k bits, fr_constants f !! constant = Some k ∧ numeric_payload k bty = Some bits ∧ constant_value k = Some v
  end.
(** [access/scalar.rs], [numeric]: a constant has the exact type the operation reads. *)
Definition operand_typed (operand : ScalarOperand) (expected : option BuiltinType) : Prop :=
  match operand with OpSlot _ => True | OpConstant _ ty => expected = Some ty end.
Definition operands_typed (op : ContractBinaryOp) (lhs rhs : ScalarOperand) : Prop :=
  match op with
  | BoNumeric o => operand_typed lhs (Some (num_input o)) ∧ operand_typed rhs (num_rhs o)
  | _ => True
  end.
Definition writable (f : Frame) (dst : Slot) : Prop :=
  ∃ d, fr_location f dst = Some d ∧ (d < length (payloads (fr_bank f)))%nat ∧ (d < length (initialized (fr_bank f)))%nat.

(** Preparation selects an instruction, and executing it writes the payload of the value
    to the destination and goes on, or traps; the operator the runtime applies to values
    returns the value that payload reads as at [ty], or raises the same trap. *)
Definition performs `{FloatOps} (f : Frame) (i : ScalarInstruction) (dst : Slot) (ty : ValueType)
    (meaning : result Value string) (reference : result Value RuntimeError) : Prop :=
  ∃ e, prepare (fr_constants f) (fr_slots f) (fr_location f) i = Selected e ∧ ∀ next,
    match meaning with
    | Ok v => ∃ d bits bank w, fr_location f dst = Some d ∧ encode v = Some bits
        ∧ write_payload (fr_bank f) d bits = Some bank ∧ payload bank d = Some bits
        ∧ execute (fr_length f) e (fr_bank f) next = Ok (bank, next)
        ∧ decode ty bits = Some w ∧ reference = Ok w
    | Err m => execute (fr_length f) e (fr_bank f) next = Err (Trap m) ∧ reference = Err (script_trap m)
    end.
(** Executing the selected instruction goes on at the target the predicate decides. *)
Definition branches `{FloatOps} (f : Frame) (i : ScalarInstruction) (target : nat) : Prop :=
  ∃ e, prepare (fr_constants f) (fr_slots f) (fr_location f) i = Selected e ∧
    ∀ next, execute (fr_length f) e (fr_bank f) next = Ok (fr_bank f, target).

Lemma write_payload_reads bank d bits : (d < length (payloads bank))%nat → (d < length (initialized bank))%nat →
  ∃ bank', write_payload bank d bits = Some bank' ∧ payload bank' d = Some bits.
Proof.
  intros Hp Hi. unfold write_payload. rewrite !decide_True by done. eexists. split; [done|].
  unfold payload. cbn. rewrite !list_lookup_insert_eq by done. done.
Qed.

Section Results.
Context `{FloatOps} (f : Frame).

(** The input of an operand, and the payload it supplies. *)
Definition input_for (operand : ScalarOperand) (input : ScalarInput) (bits : Z) : Prop :=
  input_of (fr_constants f) (fr_location f) operand = Ok (Some input) ∧ supplies (fr_bank f) input bits
  ∧ is_constant input = match operand with OpConstant _ _ => true | OpSlot _ => false end.
(** An admitted constant: an integer of its declared type, or a float's bits. *)
Lemma numeric_payload_inv k bty bits : numeric_payload k bty = Some bits →
  (∃ d z, bty = builtin_type d ∧ constant_value k = Some (integer_carrier bty z) ∧ in_domain bty z = true
     ∧ bits = (if bool_decide (d = ItU64) then z else as_u64 z))
  ∨ (bty = BtF32 ∧ k = KF32 bits) ∨ (bty = BtF64 ∧ k = KF64 bits).
Proof.
  assert (∀ d z bits0 bits, admitted (builtin_type d) z bits0 = Some bits → bits = bits0 ∧ in_domain (builtin_type d) z = true) as Hin.
  { intros d z b0 b. pose proof (valid_width_range _ (layout_valid d)). unfold admitted, in_domain, integer_bounds, integer_layout. rewrite from_builtin_type. cbn.
    destruct (layout d) as [w sg] eqn:E. cbn in *. rewrite bounds_eq by lia.
    change ((Std.min_value w sg <=? z) && (z <=? Std.max_value w sg)) with (Std.in_range w sg z).
    destruct (Std.in_range w sg z); [|done]. by intros [= <-]. }
  destruct k as [| |z|z|z|b|b| |], bty; try done; cbn [numeric_payload]; intros Hn;
    try (right; injection Hn as <-; tauto); left;
    [exists ItI8, z|exists ItI16, z|exists ItI32, z|exists ItI64, z|exists ItU8, z|exists ItU16, z|exists ItU32, z|exists ItU64, z];
    match goal with |- context [builtin_type ?d] => destruct (Hin d z _ _ Hn) as [-> Hd] end; split_and!; try done;
    unfold as_u64; by rewrite ?cast_cast by lia.
Qed.

(** The constant as the input of a handler: its value's payload. *)
Lemma constant_supplies k bty bits v : numeric_payload k bty = Some bits → constant_value k = Some v → value_ok v = true →
  encode v = Some bits ∧ has_representation v (builtin_representation bty) = true
  ∧ is_Some (scalar_type (builtin_representation bty)) ∧ numeric (builtin_representation bty) = true.
Proof.
  intros Hn Hv Hok. destruct (numeric_payload_inv _ _ _ Hn) as [(d & z & -> & Hz & Hd & ->)|[[-> ->]|[-> ->]]].
  - rewrite Hv in Hz. injection Hz as ->. destruct (integer_carrier_facts _ _ Hd) as (_ & Hr & Hi & _).
    rewrite (encode_integer _ z Hok Hi). split_and!; [|done|by destruct d; eexists|by destruct d].
    case_bool_decide as E; [|done]. subst d. cbn in Hok. unfold as_u64. by rewrite cast_id by (lia || done).
  - injection Hv as <-. split_and!; (done || by eexists).
  - injection Hv as <-. split_and!; (done || by eexists).
Qed.

Lemma operand_supplies operand ty v : operand_holds f operand ty v →
  has_representation v ty = true ∧ value_ok v = true ∧
  ∃ input bits, input_for operand input bits ∧ encode v = Some bits
    ∧ (is_constant input = true → numeric ty = true) ∧ representation_of (fr_slots f) operand = Ok (Some ty).
Proof.
  destruct operand as [s|constant bty]; cbn [operand_holds].
  - intros (Hty & Hr & Hok & p & bits & Hp & Hb & He). split_and!; [done|done|]. exists (InSlot p), bits.
    unfold input_for. cbn. rewrite Hp, Hty. by split_and!.
  - intros (-> & Hok & k & bits & Hk & Hn & Hv). destruct (constant_supplies _ _ _ _ Hn Hv Hok) as (He & Hr & _ & Hnum).
    split_and!; [done|done|]. exists (InConstant bits), bits. unfold input_for. cbn. rewrite Hk. cbn. rewrite Hn. by split_and!.
Qed.

(** A value's payload fits the width of its representation, and survives [widen]. *)
Lemma widen_payload w s z : 1 <= w <= 64 → Std.in_range w s z = true → widen (Std.cast w s (as_u64 z)) = as_u64 z.
Proof.
  intros Hw Hz. unfold widen, as_u64. rewrite (cast_cast w) by lia. rewrite (cast_id w s z) by (lia || done).
  by rewrite cast_cast by lia.
Qed.
Lemma widen_unsigned p : widen (Std.cast 64 false (as_u64 p)) = as_u64 p.
Proof. unfold widen, as_u64. by rewrite !cast_cast by lia. Qed.
Lemma as_u64_id u : Std.in_range 64 false u = true → as_u64 u = u.
Proof. intros. apply cast_id; (lia || done). Qed.

Lemma immediate_value so lt v bits : has_representation v lt = true → value_ok v = true → encode v = Some bits →
  match lt with
  | VtI32 => immediate_width so = (32, true) | VtI64 => immediate_width so = (64, true)
  | VtU64 | VtF64 => immediate_width so = (64, false) | VtF32 => immediate_width so = (32, false)
  | _ => False
  end → immediate_ok so (InConstant bits).
Proof.
  intros Hr Hok He Hw. cbn [immediate_ok]. destruct lt; try done; rewrite Hw; destruct v; try discriminate Hr;
    cbn [encode] in He; injection He as <-; cbn [value_ok] in Hok; cbn [fst snd].
  - replace (as_u64 (Std.cast 64 true z)) with (as_u64 z) by (unfold as_u64; by rewrite cast_cast by lia). by apply widen_payload.
  - by apply widen_payload.
  - rewrite <- (as_u64_id z Hok). apply widen_unsigned.
  - assert (Std.in_range 64 false bits0 = true) as Hb by (eapply in_range_mono; [|exact Hok]; lia).
    rewrite <- (as_u64_id bits0 Hb). by apply widen_payload.
  - rewrite <- (as_u64_id bits0 Hok). apply widen_unsigned.
Qed.

(** What the loader selects for an admitted binary operator. *)
Lemma prepared_shape cop op lt rt ty so :
  binary_result cop lt rt = Ok ty → lower_binary_op cop = Some op → prepare_binary op lt = Some so →
  two_operands so = true ∧ (comparison_of op ≠ None → is_compare so = true) ∧
  match cop with
  | BoNumeric o => constants_allowed so = true ∧ ∃ d, from_builtin (num_input o) = Some d ∧
      (immediate_width so = layout d ∧ num_rhs o = Some (num_input o)
       ∨ immediate_width so = (64, false) ∧ ∃ kind c, so = SoShift kind c)
  | _ => rt = lt ∧ (numeric lt = true → constants_allowed so = true ∧
      match lt with
      | VtI32 => immediate_width so = (32, true) | VtI64 => immediate_width so = (64, true)
      | VtU64 | VtF64 => immediate_width so = (64, false) | VtF32 => immediate_width so = (32, false)
      | _ => False
      end)
  end.
Proof.
  intros Hc Hop Hso. destruct cop; try discriminate Hop; injection Hop as <-.
  1: { cbn in Hc, Hso. destruct (operation_contract operation) as [s|] eqn:Ho; [|done].
    rewrite (contract_signature _ _ Ho) in Hc. cbn in Hc. destruct (num_rhs operation) as [rty|] eqn:Hrt; [|done].
    destruct (contract_rhs _ _ Ho) as (d & Hd & Hrhs). unfold select_integer in Hso. rewrite Hd, Hrt in *. cbn in Hso.
    destruct (num_op operation) eqn:E; try discriminate Hrhs; cbn in Hso;
      try (injection Hso as <-; split_and!; [done|by intros []|done|]; exists d; split; [done|left; by split]).
    all: destruct (shift_kind d _) as [k|]; [|done]; cbn in Hso; destruct (from_builtin rty) as [c|]; [|done];
      injection Hso as <-; split_and!; [done|by intros []|done|]; exists d; split; [done|right; eauto]. }
  all: cbn [binary_result] in Hc; destruct (expect_type rt lt _) as [[]|] eqn:E; try discriminate Hc;
    apply expect_type_ok in E as ->; cbn [res_bind] in Hc; destruct lt; cbn in Hc, Hso; try discriminate Hc; try discriminate Hso;
    injection Hso as <-; split_and!; try done; by intros [].
Qed.

Lemma immediate_admitted cop op lhs rhs lt rt ty so r input bits :
  binary_result cop lt rt = Ok ty → lower_binary_op cop = Some op → prepare_binary op lt = Some so →
  operands_typed cop lhs rhs → operand_holds f rhs rt r → input_for rhs input bits → encode r = Some bits → immediate_ok so input.
Proof.
  intros Hc Hop Hso Hty Hr (Hin & Hsup & Hk) He. destruct input as [|k]; [done|]. cbn in Hsup. subst k.
  destruct (prepared_shape _ _ _ _ _ _ Hc Hop Hso) as (_ & _ & Hshape). destruct rhs as [|constant bty]; [done|].
  destruct Hr as (Hrt & Hok & k & bits' & Hkc & Hn & Hv). destruct (constant_supplies _ _ _ _ Hn Hv Hok) as (He' & Hrep & _ & Hnum).
  assert (bits' = bits) as -> by congruence.
  assert ((∃ o, cop = BoNumeric o) ∨ ¬ ∃ o, cop = BoNumeric o) as [[o ->]|Hno] by (destruct cop; eauto; right; by intros []).
  - destruct Hshape as (_ & d & Hd & Hw). destruct Hty as [_ Hty]. cbn in Hty. destruct Hw as [[Hw Hrhs]|[Hw (kind & c & ->)]].
    + assert (bty = builtin_type d) as -> by (rewrite Hrhs in Hty; injection Hty as <-; by apply from_builtin_Some).
      destruct (numeric_payload_inv _ _ _ Hn) as [(d1 & z & Hd1 & Hz & Hdom & Hbits)|[[Hb _]|[Hb _]]]; [|by destruct d..].
      apply (inj builtin_type) in Hd1 as <-. destruct (in_domain_inv _ _ Hdom) as (d2 & Hd2 & _ & Hrange). rewrite from_builtin_type in Hd2. injection Hd2 as <-.
      cbn [immediate_ok]. rewrite Hw. pose proof (valid_width_range _ (layout_valid d)).
      assert (bits = as_u64 z) as ->.
      { case_bool_decide as E; [|done]. subst d bits. cbn in Hrange. by rewrite as_u64_id. }
      by apply widen_payload; [lia|].
    + cbn [immediate_ok immediate_width fst snd]. assert (as_u64 bits = bits) as <-; [|apply widen_unsigned].
      destruct (numeric_payload_inv _ _ _ Hn) as [(d1 & z & -> & Hz & Hdom & ->)|[[-> ->]|[-> ->]]].
      * case_bool_decide as E; [subst d1; by apply as_u64_id|]. unfold as_u64. by rewrite cast_cast by lia.
      * injection Hv as <-. cbn in Hok. apply as_u64_id. eapply in_range_mono; [|exact Hok]. lia.
      * injection Hv as <-. by apply as_u64_id.
  - assert (rt = lt ∧ (numeric lt = true → constants_allowed so = true ∧
      match lt with
      | VtI32 => immediate_width so = (32, true) | VtI64 => immediate_width so = (64, true)
      | VtU64 | VtF64 => immediate_width so = (64, false) | VtF32 => immediate_width so = (32, false)
      | _ => False
      end)) as [<- Hw] by (destruct cop; try done; by destruct Hno; eexists).
    rewrite Hrt in *. destruct (Hw Hnum) as [_ Hw']. by eapply immediate_value.
Qed.
End Results.
End Frames.

(** *** The scalar instructions *)
Section Instructions.
Context `{FloatOps} (f : Frame).
Import Prepared.

(** The value the payload [r] publishes at a representation is the one [reference] returns. *)
Definition observed (ty : ValueType) (r : result Z string) (reference : result Value RuntimeError) : Prop :=
  match r with
  | Ok bits => ∃ w, decode ty bits = Some w ∧ reference = Ok w
  | Err m => reference = Err (script_trap m)
  end.
Lemma publish_observed ty r reference : reference = publish ty r →
  (∀ bits, r = Ok bits → is_Some (decode ty bits)) → observed ty r reference.
Proof.
  intros -> Hd. destruct r as [bits|m]; [|done]. destruct (Hd _ eq_refl) as [w Hw]. exists w.
  unfold publish. cbn. by rewrite Hw.
Qed.
Lemma numeric_decodes ty bits : numeric ty = true → is_Some (decode ty bits).
Proof. destruct ty; try done; intros _; by eexists. Qed.
Lemma integer_numeric d : numeric (builtin_representation (builtin_type d)) = true.
Proof. by destruct d. Qed.

Lemma performs_intro i dst ty so li ri el er d meaning reference :
  selection (fr_constants f) (fr_slots f) (fr_location f) i = Ok (Some (so, li, ri, Store d)) →
  fr_location f dst = Some d → writable f dst →
  supplies (fr_bank f) li el → supplies (fr_bank f) ri er → immediate_ok so ri →
  (∃ e, scalar_operation so li ri (Store d) = Selected e) →
  computes so el er meaning → observed ty (evaluate so el er) reference →
  performs f i dst ty meaning reference.
Proof.
  intros Hsel Hd (d' & Hd' & Hp & Hi) Hl Hr Himm [e He] Hc Ho. assert (d' = d) as -> by congruence.
  exists e. unfold prepare. rewrite Hsel. split; [done|]. intros next.
  rewrite (scalar_operation_executes _ _ _ _ _ _ _ next _ _ He Hl Hr Himm). unfold computes in Hc.
  destruct meaning as [v|m].
  - destruct Hc as (bits & Hev & Henc). rewrite Hev in Ho |- *. destruct Ho as (w & Hw & ->).
    destruct (write_payload_reads _ _ bits Hp Hi) as (bank & Hb & Hread). exists d, bits, bank, w.
    unfold finish, store. cbn. rewrite Hb. by split_and!.
  - rewrite Hc in Ho |- *. done.
Qed.

Lemma verified_comparison cop op lt rt ty : binary_result cop lt rt = Ok ty → lower_binary_op cop = Some op →
  is_Some (scalar_type lt) →
  numeric ty = true ∨ (ty = VtBool ∧ ∃ c, comparison_of op = Some c).
Proof.
  intros Hc Hop Hs. destruct cop; try discriminate Hop; injection Hop as <-.
  1: { cbn in Hc. destruct (operation_contract operation) as [s|] eqn:Ho; [|done]. cbn in Hc.
    rewrite (contract_signature _ _ Ho) in Hc. cbn in Hc. destruct (num_rhs operation) as [rty|]; [|done]. cbn in Hc.
    destruct (expect_type lt _ _) as [[]|] eqn:E1; [|done]. destruct (expect_type rt _ _) as [[]|]; [|done].
    injection Hc as <-. left. destruct (contract_rhs _ _ Ho) as (d & Hd & _). rewrite (from_builtin_Some _ _ Hd).
    apply integer_numeric. }
  all: cbn [binary_result] in Hc; destruct (expect_type rt lt _) as [[]|]; try discriminate Hc; cbn [res_bind] in Hc;
    lazymatch type of Hc with (if ?b then _ else _) = _ => destruct b eqn:Hn end; try discriminate Hc; injection Hc as <-;
    first [by left | right; split; [done|]; by eexists | exfalso; apply bool_decide_eq_true_1 in Hn as ->; by destruct Hs].
Qed.
Lemma comparison_spec op c l r : comparison_of op = Some c → ∃ b, binary_spec op l r = Ok (VBool b).
Proof. destruct op; try done; intros _; by eexists. Qed.

Lemma operand_constants lhs rhs lt rt l r li ri el er op cop so ty :
  binary_result cop lt rt = Ok ty → lower_binary_op cop = Some op → prepare_binary op lt = Some so →
  operand_holds f lhs lt l → operand_holds f rhs rt r →
  input_for f lhs li el → input_for f rhs ri er →
  constants_allowed so = true ∨ is_constant li = false ∧ is_constant ri = false.
Proof.
  intros Hc Hop Hso Hl Hr (_ & _ & Kl) (_ & _ & Kr). rewrite Kl, Kr.
  destruct (prepared_shape _ _ _ _ _ _ Hc Hop Hso) as (_ & _ & Hshape).
  assert ((∃ o, cop = BoNumeric o) ∨ ¬ ∃ o, cop = BoNumeric o) as [[o ->]|Hno] by (destruct cop; eauto; right; by intros []).
  { left. apply Hshape. }
  assert (rt = lt ∧ (numeric lt = true → constants_allowed so = true)) as [-> Hw].
  { destruct cop; first [discriminate Hop | exfalso; apply Hno; by eexists | idtac]; (split; [apply Hshape|]); intros Hn; by apply Hshape. }
  assert (∀ c bty v, operand_holds f (OpConstant c bty) lt v → numeric lt = true) as Hnum.
  { intros c bty v (-> & Hok & k & bits & Hk & Hn & Hv). by destruct (constant_supplies _ _ _ _ Hn Hv Hok) as (_ & _ & _ & ?). }
  destruct lhs; [destruct rhs; [by right|]|]; left; eapply Hw, Hnum; [exact Hr|exact Hl].
Qed.

Lemma representation_operand operand ty v : operand_holds f operand ty v →
  representation_of (fr_slots f) operand = Ok (Some ty).
Proof. intros Hh. by destruct (operand_supplies f _ _ _ Hh) as (_ & _ & _ & _ & _ & _ & _ & ?). Qed.

(** What every admitted binary operator needs: its operation, its inputs and its meaning. *)
Lemma binary_prepared cop op lhs rhs lt rt ty l r :
  binary_result cop lt rt = Ok ty → lower_binary_op cop = Some op → is_Some (scalar_type lt) →
  operands_typed cop lhs rhs → operand_holds f lhs lt l → operand_holds f rhs rt r →
  ∃ so li ri el er, prepare_binary op lt = Some so ∧ input_for f lhs li el ∧ input_for f rhs ri er
    ∧ (constants_allowed so = true ∨ is_constant li = false ∧ is_constant ri = false)
    ∧ immediate_ok so ri ∧ two_operands so = true ∧ (comparison_of op ≠ None → is_compare so = true)
    ∧ computes so el er (binary_spec op l r) ∧ observed ty (evaluate so el er) (scalar_binary op l r).
Proof.
  intros Hc Hop Hs Hty Hl Hr.
  destruct (operand_supplies f _ _ _ Hl) as (Hlr & Hlo & li & el & Hli & Hel & _).
  destruct (operand_supplies f _ _ _ Hr) as (Hrr & Hro & ri & er & Hri & Her & _).
  destruct (verified_binary_agrees _ _ _ _ _ l r Hc Hop Hs Hlo Hro Hlr Hrr) as (so & el' & er' & Hso & Hel' & Her' & Hag).
  assert (el' = el) as -> by congruence. assert (er' = er) as -> by congruence.
  exists so, li, ri, el, er. destruct (prepared_shape _ _ _ _ _ _ Hc Hop Hso) as (H2 & Hcmp & _).
  pose proof (computes_binary _ _ _ _ _ _ _ _ _ _ Hc Hop Hso Hs Hlo Hro Hlr Hrr Hel Her) as Hcomp.
  split_and!; try done.
  - by eapply operand_constants.
  - by eapply immediate_admitted.
  - apply publish_observed; [done|]. intros bits Hb.
    destruct (verified_comparison _ _ _ _ _ Hc Hop Hs) as [Hn|[-> [c Hcc]]]; [by apply numeric_decodes|].
    destruct (comparison_spec op c l r Hcc) as [b Hspec]. rewrite Hspec in Hcomp. destruct Hcomp as (bits' & Hb' & Henc).
    assert (bits' = bits) as -> by congruence. injection Henc as <-. destruct b; by eexists.
Qed.

Lemma binary_operands_perform dst cop op lhs rhs lt rt ty l r :
  binary_result cop lt rt = Ok ty → lower_binary_op cop = Some op → is_Some (scalar_type lt) →
  operands_typed cop lhs rhs → operand_holds f lhs lt l → operand_holds f rhs rt r → writable f dst →
  performs f (IBinaryOperands dst op lhs rhs) dst ty (binary_spec op l r) (scalar_binary op l r).
Proof.
  intros Hc Hop Hs Hty Hl Hr Hw.
  destruct (binary_prepared _ _ _ _ _ _ _ _ _ Hc Hop Hs Hty Hl Hr) as (so & li & ri & el & er & Hso & (Ili & Sli & _) & (Iri & Sri & _) & Hk & Himm & H2 & _ & Hcomp & Ho).
  pose proof Hw as (d & Hd & _). eapply performs_intro; [|exact Hd|exact Hw|exact Sli|exact Sri|exact Himm|by apply store_selected|exact Hcomp|exact Ho].
  unfold selection. rewrite (representation_operand _ _ _ Hl). cbn. rewrite Hso. cbn. rewrite Ili. cbn. rewrite Iri. cbn. by rewrite Hd.
Qed.
Lemma binary_performs dst cop op lhs rhs lt rt ty l r :
  binary_result cop lt rt = Ok ty → lower_binary_op cop = Some op → is_Some (scalar_type lt) →
  holds f lhs lt l → holds f rhs rt r → writable f dst →
  performs f (IBinary dst op lhs rhs) dst ty (binary_spec op l r) (scalar_binary op l r).
Proof.
  intros Hc Hop Hs Hl Hr Hw.
  assert (operands_typed cop (OpSlot lhs) (OpSlot rhs)) as Hty by (by destruct cop).
  destruct (binary_operands_perform dst _ _ (OpSlot lhs) (OpSlot rhs) _ _ _ _ _ Hc Hop Hs Hty Hl Hr Hw) as (e & He & Hrun).
  exists e. split; [|done]. revert He. unfold prepare. cbn. destruct (fr_slots f !! lhs) as [t|]; [|done]. cbn.
  destruct (prepare_binary op t); [|done]. cbn. destruct (fr_location f lhs); [|done]. cbn. by destruct (fr_location f rhs).
Qed.
Lemma predicate_branches cop op lhs rhs lt rt negated t e l r :
  binary_result cop lt rt = Ok VtBool → lower_binary_op cop = Some op → is_Some (scalar_type lt) →
  operands_typed cop lhs rhs → operand_holds f lhs lt l → operand_holds f rhs rt r →
  (t < fr_length f)%nat → (e < fr_length f)%nat →
  ∃ b, binary_spec op l r = Ok (VBool b) ∧ scalar_binary op l r = Ok (VBool b) ∧
    branches f (IPredicateBranch op lhs rhs negated t e) (if xorb b negated then t else e).
Proof.
  intros Hc Hop Hs Hty Hl Hr Ht He.
  destruct (binary_prepared _ _ _ _ _ _ _ _ _ Hc Hop Hs Hty Hl Hr) as (so & li & ri & el & er & Hso & (Ili & Sli & _) & (Iri & Sri & _) & Hk & Himm & H2 & Hcmp & Hcomp & Ho).
  destruct (verified_comparison _ _ _ _ _ Hc Hop Hs) as [Hn|[_ [c Hcc]]]; [done|].
  destruct (comparison_spec op c l r Hcc) as [b Hspec]. exists b. split; [done|].
  rewrite Hspec in Hcomp. destruct Hcomp as (bits & Hev & Henc). injection Henc as <-.
  rewrite Hev in Ho. destruct Ho as (w & Hw & ->). assert (w = VBool b) as -> by (destruct b; by injection Hw as <-). split; [done|].
  destruct (branch_selected so li ri (if negated then e else t) (if negated then t else e) el er (fr_bank f)) as [i Hi];
    [apply Hcmp; by rewrite Hcc|done|done|done|by rewrite Hev|].
  exists i. split.
  - unfold prepare, selection. rewrite (representation_operand _ _ _ Hl). cbn. rewrite Hso. cbn. rewrite Ili. cbn. by rewrite Iri.
  - intros next. rewrite (scalar_operation_executes _ _ _ _ _ _ _ next _ _ Hi Sli Sri Himm), Hev. unfold finish, branch_on, jump. cbn.
    destruct b, negated; cbn; by rewrite decide_False by lia.
Qed.

(** *** Fixed-width operations and conversions *)
Lemma bit_not_prepared o s so lhs el :
  operation_contract o = Some s → num_rhs o = None → select_integer (num_op o) (num_input o) (num_rhs o) = Some so →
  value_ok lhs = true → has_representation lhs (builtin_representation (num_input o)) = true → encode lhs = Some el →
  ∃ d, two_operands so = false ∧ (∀ dm o, so ≠ SoInteger dm o) ∧ builtin_type d = num_input o
  ∧ fixed_integer o lhs None = publish (builtin_representation (num_input o)) (evaluate so el el).
Proof.
  intros Hc Hr Hs Hl Hlr Hel. destruct (contract_rhs _ _ Hc) as (d & Hd & Hrhs). exists d.
  pose proof (from_builtin_Some _ _ Hd) as Hdt. destruct (num_op o) eqn:Eo; try congruence; try (destruct Hrhs; congruence).
  pose proof Hs as Hs'. unfold select_integer in Hs'. rewrite Hd in Hs'. cbn in Hs'. injection Hs' as <-.
  split; [by destruct d|]. split; [by destruct d|]. split; [congruence|].
  unfold fixed_integer. rewrite Hc, Eo, Hs, Hr. rewrite Hdt in *.
  destruct (read_integer_carrier d lhs Hl Hlr) as (z & Hz & R). rewrite (encode_integer lhs z) in Hel by done. injection Hel as <-.
  pose proof (decode_carrier d lhs z Hl Hz Hlr) as D. rewrite R.
  cbn [res_bind ok_or]. destruct (Std.in_range (layout d).1 _ z); cbn [res_map res_bind].
  - unfold publish. by destruct d.
  - destruct d; cbn [evaluate]; unfold integer_value; cbn [layout fst snd] in D; by rewrite D.
Qed.

Lemma numeric_performs dst o s lhs rhs l r :
  operation_contract o = Some s → holds f lhs (builtin_representation (num_input o)) l →
  match num_rhs o, rhs, r with
  | Some ty, Some slot, Some v => holds f slot (builtin_representation ty) v
  | None, None, None => True
  | _, _, _ => False
  end → writable f dst →
  performs f (INumeric dst o lhs rhs) dst (builtin_representation (num_input o)) (fixed_spec o l r) (fixed_integer o l r).
Proof.
  intros Hc Hl Hr Hw. destruct (select_integer_total _ _ Hc) as [so Hso]. pose proof Hw as (d & Hd & _).
  pose proof Hl as (Hlt & Hlr & Hlo & pl & el & Hpl & Hpay & Hel).
  destruct (num_rhs o) as [rty|] eqn:Hrt; destruct rhs as [rs|], r as [v|]; try done.
  - pose proof Hr as (Hrt' & Hrr & Hro & pr & er & Hpr & Hpayr & Her).
    assert (binary_result (BoNumeric o) (builtin_representation (num_input o)) (builtin_representation rty) = Ok (builtin_representation (sig_output s))) as Hbin.
    { cbn. rewrite Hc. cbn. rewrite (contract_signature _ _ Hc). cbn. rewrite Hrt. cbn. unfold expect_type. by repeat case_bool_decide. }
    assert (prepare_binary (BNumeric o) (builtin_representation (num_input o)) = Some so) as Hso' by (cbn; by rewrite Hrt).
    destruct (prepared_shape _ _ _ _ _ _ Hbin eq_refl Hso') as (H2 & _ & Hk & _).
    eapply (performs_intro _ dst _ so (InSlot pl) (InSlot pr) el er d); [|done|done|done|done|done|by apply store_selected; [|left]| |].
    + unfold selection. rewrite Hrt, Hso. cbn. rewrite Hpl. cbn. rewrite Hpr. cbn. by rewrite Hd.
    + eapply computes_fixed; try done; rewrite Hrt; first [done | by exists v].
    + apply publish_observed; [eapply fixed_integer_prepared; try done; by rewrite Hrt|].
      intros. destruct (contract_rhs _ _ Hc) as (d0 & Hd0 & _). rewrite (from_builtin_Some _ _ Hd0). apply numeric_decodes, integer_numeric.
  - assert (select_integer (num_op o) (num_input o) (num_rhs o) = Some so) as Hso' by (by rewrite Hrt).
    destruct (bit_not_prepared _ _ _ _ _ Hc Hrt Hso' Hlo Hlr Hel) as (d0 & H2 & Hni & Hd0 & Hpub).
    eapply (performs_intro _ dst _ _ (InSlot pl) (InSlot pl) el el d); [|done|done|done|done|done|by apply unary_selected| |].
    + unfold selection. rewrite Hrt, Hso. cbn. rewrite Hpl. cbn. by rewrite Hd.
    + eapply computes_fixed; try done. by rewrite Hrt.
    + apply publish_observed; [done|]. intros. rewrite <- Hd0. apply numeric_decodes, integer_numeric.
Qed.

Lemma unary_performs dst op operand lt ty v :
  unary_result op lt = Ok ty → holds f operand lt v → writable f dst →
  performs f (IUnary dst op operand) dst ty (unary_spec op v) (unary op v).
Proof.
  intros Hc Hv Hw. pose proof Hv as (Ht & Hr & Ho & p & e & Hp & Hpay & He). pose proof Hw as (d & Hd & _).
  destruct (verified_unary_agrees _ _ _ _ Hc Ho Hr) as (so & e' & Hso & He' & Hag). assert (e' = e) as -> by congruence.
  assert (two_operands so = false ∧ (∀ dm o, so ≠ SoInteger dm o) ∧ (numeric ty = true ∨ op = Not ∧ ty = VtBool ∧ ∃ b, v = VBool b)) as (H2 & Hni & Hty).
  { unfold unary_result in Hc. destruct op.
    - destruct lt; try discriminate Hc; injection Hc as <-; cbn in Hso; injection Hso as <-; split_and!; try done; by left.
    - destruct (bool_decide (lt = VtBool)) eqn:E; [|done]. apply bool_decide_eq_true_1 in E as ->. injection Hc as <-. injection Hso as <-.
      split_and!; try done. right. destruct v; try discriminate Hr. by eauto. }
  pose proof (computes_unary _ _ _ _ _ _ Hc Hso Ho Hr He) as Hcomp.
  eapply (performs_intro _ dst _ so (InSlot p) (InSlot p) e e d); [|done|done|done|done|done|by apply unary_selected|done|].
  - unfold selection. destruct op; [cbn; rewrite Ht; cbn; cbn in Hso; rewrite Hso|injection Hso as <-]; cbn; rewrite Hp; cbn; by rewrite Hd.
  - apply publish_observed; [done|]. intros bits Hb. destruct Hty as [Hn|(-> & -> & b & ->)]; [by apply numeric_decodes|].
    injection Hso as <-. injection He as <-. cbn in Hb. injection Hb as <-. destruct b; by eexists.
Qed.

Lemma select_conversion_total source target : can_cast_to source target = true →
  ∃ so, select_conversion source target = Some so ∧ two_operands so = false ∧ ∀ dm o, so ≠ SoInteger dm o.
Proof. destruct source, target; intros Hc; try discriminate Hc; eexists; (split; [reflexivity|by split]). Qed.

Lemma convert_performs dst src c s v :
  conversion_contract c = Some s → holds f src (builtin_representation (conv_source c)) v → writable f dst →
  performs f (IConvert dst src c) dst (builtin_representation (conv_target c))
    (convert_spec (conv_source c) (conv_target c) v) (numeric_convert c v).
Proof.
  intros Hc (Ht & Hr & Ho & p & e & Hp & Hpay & He) Hw. pose proof Hw as (d & Hd & _).
  assert (can_cast_to (conv_source c) (conv_target c) = true) as Hcast by (unfold conversion_contract in Hc; by destruct (can_cast_to _ _)).
  destruct (select_conversion_total _ _ Hcast) as (so & Hso & H2 & Hni).
  pose proof (computes_convert _ _ _ _ _ Hcast Hso Ho Hr He) as Hcomp.
  eapply (performs_intro _ dst _ so (InSlot p) (InSlot p) e e d); [|done|done|done|done|done|by apply unary_selected|done|].
  - unfold selection. rewrite Hso. cbn. rewrite Hp. cbn. by rewrite Hd.
  - unfold numeric_convert. rewrite Hc, Hr, Hso, He. cbn [ok_or res_bind negb].
    rewrite !(select_conversion_evaluates _ _ _ e _ Hso). destruct (convert e _ _) as [bits|m]; cbn [observed res_map_err res_bind]; [|done].
    assert (numeric (builtin_representation (conv_target c)) = true) as Hn by (destruct (conv_source c), (conv_target c); done).
    destruct (numeric_decodes _ bits Hn) as [w Hdw]. exists w. by rewrite Hdw.
Qed.
End Instructions.

(** C17: prepared execution does what the operators mean.  In a frame whose
    operand slots hold well-formed values of their representations, with the
    constants, destination and jump targets the verifier admits, the loader
    selects an instruction for every scalar instruction: a binary operator on
    slots, on slots or constants in either position, or as a branch predicate;
    a fixed-width operation, with or without a right operand; a negation or
    not; and a conversion.  Executing that instruction writes the payload of the
    value the operator mathematically has on those operands ([binary_spec],
    [fixed_spec], [unary_spec], [convert_spec]) or raises its trap, and a
    predicate goes on at the target its truth decides; and the runtime's
    operators on values return the value that payload reads as, or the same
    trap.  Only the float operations themselves are a parameter. *)
Theorem prepared_execution_agrees `{FloatOps} (f : Frame) :
  (∀ dst cop op lhs rhs lt rt ty l r,
     binary_result cop lt rt = Ok ty → lower_binary_op cop = Some op → is_Some (scalar_type lt) →
     holds f lhs lt l → holds f rhs rt r → writable f dst →
     performs f (Prepared.IBinary dst op lhs rhs) dst ty (binary_spec op l r) (scalar_binary op l r))
  ∧ (∀ dst cop op lhs rhs lt rt ty l r,
     binary_result cop lt rt = Ok ty → lower_binary_op cop = Some op → is_Some (scalar_type lt) →
     operands_typed cop lhs rhs → operand_holds f lhs lt l → operand_holds f rhs rt r → writable f dst →
     performs f (Prepared.IBinaryOperands dst op lhs rhs) dst ty (binary_spec op l r) (scalar_binary op l r))
  ∧ (∀ cop op lhs rhs lt rt negated t e l r,
     binary_result cop lt rt = Ok VtBool → lower_binary_op cop = Some op → is_Some (scalar_type lt) →
     operands_typed cop lhs rhs → operand_holds f lhs lt l → operand_holds f rhs rt r →
     (t < fr_length f)%nat → (e < fr_length f)%nat →
     ∃ b, binary_spec op l r = Ok (VBool b) ∧ scalar_binary op l r = Ok (VBool b) ∧
       branches f (Prepared.IPredicateBranch op lhs rhs negated t e) (if xorb b negated then t else e))
  ∧ (∀ dst o s lhs rhs l r,
     operation_contract o = Some s → holds f lhs (builtin_representation (num_input o)) l →
     match num_rhs o, rhs, r with
     | Some ty, Some slot, Some v => holds f slot (builtin_representation ty) v
     | None, None, None => True
     | _, _, _ => False
     end → writable f dst →
     performs f (Prepared.INumeric dst o lhs rhs) dst (builtin_representation (num_input o))
       (fixed_spec o l r) (fixed_integer o l r))
  ∧ (∀ dst op operand lt ty v,
     unary_result op lt = Ok ty → holds f operand lt v → writable f dst →
     performs f (Prepared.IUnary dst op operand) dst ty (unary_spec op v) (unary op v))
  ∧ (∀ dst src c s v,
     conversion_contract c = Some s → holds f src (builtin_representation (conv_source c)) v → writable f dst →
     performs f (Prepared.IConvert dst src c) dst (builtin_representation (conv_target c))
       (convert_spec (conv_source c) (conv_target c) v) (numeric_convert c v)).
Proof.
  split_and!; intros; [by eapply binary_performs|by eapply binary_operands_perform|by eapply predicate_branches
    |by eapply numeric_performs|by eapply unary_performs|by eapply convert_performs].
Qed.

(** A frame of three integer slots, and one constant. *)
Definition small_frame : Frame := {|
  fr_constants := [Prepared.KI64 2]; fr_slots := [VtI64; VtI32; VtI64]; fr_location := Some; fr_length := 4;
  fr_bank := {| Prepared.payloads := [as_u64 (-7); as_u64 (-128); 0]; Prepared.initialized := [true; true; false] |} |}.

Lemma small_frame_holds : holds small_frame 0%nat VtI64 (VI64 (-7)) ∧ holds small_frame 1%nat VtI32 (VI32 (-128))
  ∧ operand_holds small_frame (Prepared.OpConstant 0%nat BtI64) VtI64 (VI64 2) ∧ writable small_frame 2%nat.
Proof.
  split_and!; try (by (split_and!; [..|eexists _, _; split_and!])).
  exists 2%nat. split_and!; [done|cbn; lia..].
Qed.

(** [-7 % 2] with a constant divisor, a branch on [-7 < 2] negated, and [!(-128i8)], [-(-7)] and [-7 as u8]. *)
Lemma prepared_execution_agrees_witness :
  (@performs bitwise_floats small_frame
    (Prepared.IBinaryOperands 2%nat BRem (Prepared.OpSlot 0%nat) (Prepared.OpConstant 0%nat BtI64)) 2%nat VtI64
    (Ok (VI64 (-1))) (Ok (VI64 (-1))))
  ∧ (∃ b, @binary_spec bitwise_floats BLt (VI64 (-7)) (VI64 2) = Ok (VBool b)
     ∧ @scalar_binary bitwise_floats BLt (VI64 (-7)) (VI64 2) = Ok (VBool b)
     ∧ @branches bitwise_floats small_frame
         (Prepared.IPredicateBranch BLt (Prepared.OpSlot 0%nat) (Prepared.OpConstant 0%nat BtI64) true 1%nat 3%nat)
         (if xorb b true then 1%nat else 3%nat))
  ∧ (@performs bitwise_floats small_frame
      (Prepared.INumeric 2%nat {| num_op := BitNot; num_input := BtI8; num_rhs := None |} 1%nat None) 2%nat VtI32
      (Ok (VI32 127)) (Ok (VI32 127)))
  ∧ (@performs bitwise_floats small_frame (Prepared.IUnary 2%nat Neg 0%nat) 2%nat VtI64 (Ok (VI64 7)) (Ok (VI64 7)))
  ∧ (@performs bitwise_floats small_frame
      (Prepared.IConvert 2%nat 0%nat {| conv_source := BtI64; conv_target := BtU8 |}) 2%nat VtI64 (Ok (VI64 249)) (Ok (VI64 249))).
Proof.
  destruct small_frame_holds as (H0 & H1 & Hk & Hd).
  destruct (@prepared_execution_agrees bitwise_floats small_frame) as (_ & Hb & Hp & Hn & Hu & Hc).
  split_and!.
  - apply (Hb 2%nat BoRem BRem (Prepared.OpSlot 0%nat) (Prepared.OpConstant 0%nat BtI64) VtI64 VtI64 VtI64 (VI64 (-7)) (VI64 2));
      (done || by eexists).
  - apply (Hp BoLt BLt (Prepared.OpSlot 0%nat) (Prepared.OpConstant 0%nat BtI64) VtI64 VtI64);
      first [done | by eexists | cbn; lia].
  - by apply (Hn 2%nat {| num_op := BitNot; num_input := BtI8; num_rhs := None |}
      {| sig_left := BtI8; sig_right := None; sig_output := BtI8 |} 1%nat None (VI32 (-128)) None).
  - by apply (Hu 2%nat Neg 0%nat VtI64 VtI64 (VI64 (-7))).
  - by apply (Hc 2%nat 0%nat {| conv_source := BtI64; conv_target := BtU8 |} (BtI64, BtU8) (VI64 (-7))).
Defined.

(** *** Scalar payloads *)
Lemma decode_char_ok c : is_scalar_value c = true → decode_char c = Some c.
Proof.
  intros Hc. unfold decode_char. rewrite Hc. unfold is_scalar_value in Hc.
  destruct (c <? 2 ^ 32) eqn:E; [done|]. lia.
Qed.

(** The integer a payload stands for in the slot of an integer type. *)
Definition payload_integer (ty : BuiltinType) (bits : Z) : Z :=
  match builtin_representation ty with VtU64 => bits | _ => Std.cast 64 true bits end.

Lemma admits_integer_payload ty bits : is_Some (integer_layout ty) →
  admits_payload (builtin_representation ty) (Some ty) bits
  = in_domain ty (payload_integer ty bits).
Proof. intros [lay Hlay]. destruct ty; try discriminate Hlay; reflexivity. Qed.

Lemma payload_integer_encode ty z : in_domain ty z = true → payload_integer ty (as_u64 z) = z.
Proof.
  intros Hz. destruct (integer_carrier_facts _ _ Hz) as (Hok & _ & Hi & _).
  destruct (in_domain_inv _ _ Hz) as (d & _ & -> & _). unfold payload_integer, as_u64.
  assert (Std.in_range 64 true z = true ∨ builtin_type d = BtU64) as [Hr|E].
  { destruct d; try (by right); left; unfold integer_carrier in Hok;
      cbn [value_ok builtin_representation builtin_type] in Hok;
      first [exact Hok | eapply (in_range_mono 32); [lia|exact Hok]]. }
  - destruct d; cbn [builtin_representation builtin_type] in *;
      rewrite ?cast_cast, ?cast_id by first [lia | done]; try done.
  - rewrite E in *. simpl in *. by rewrite cast_id by (done || lia).
Qed.

Lemma payload_integer_inv ty bits : 0 <= bits < 2 ^ 64 → as_u64 (payload_integer ty bits) = bits.
Proof.
  intros Hb. assert (as_u64 bits = bits) as Hid.
  { apply cast_id; [lia|]. apply in_range_spec. unfold Std.min_value, Std.max_value. lia. }
  unfold payload_integer, as_u64. destruct (builtin_representation ty); try done;
    by rewrite cast_cast by lia.
Qed.

Lemma decode_char_bits bits : 0 <= bits → is_Some (decode_char bits) ↔ is_scalar_value bits = true.
Proof.
  intros Hb. unfold decode_char, is_scalar_value. split.
  - intros [c Hc]. destruct (bits <? 2 ^ 32); [|done]. by case_match.
  - intros Hs. rewrite Hs. destruct (bits <? 2 ^ 32) eqn:E; [by eexists|]. lia.
Qed.
Lemma bool_payload bits : 0 <= bits → negb (1 <? bits) = true ↔ ∃ b, encode (VBool b) = Some bits.
Proof.
  intros Hb. split.
  - intros H. exists (bits =? 1). cbn. f_equal. destruct (bits =? 1) eqn:E; cbn; lia.
  - intros [[] [= <-]]; done.
Qed.
Lemma char_payload bits : 0 <= bits →
  bool_decide (is_Some (decode_char bits)) = true ↔ ∃ c, is_scalar_value c = true ∧ encode (VChar c) = Some bits.
Proof.
  intros Hb. rewrite bool_decide_eq_true, decode_char_bits by done. split; [by exists bits|by intros (c & Hc & [= <-])].
Qed.

(** The bit patterns that are payloads of a value of the type.  Only [bool], [char] and the
    integers have a pattern that is not: a float of 32 bits and the unit ignore the rest. *)
Definition pattern_of (ty : BuiltinType) (bits : Z) : Prop :=
  match ty with
  | BtBool => ∃ b, encode (VBool b) = Some bits
  | BtChar => ∃ c, is_scalar_value c = true ∧ encode (VChar c) = Some bits
  | _ => match integer_layout ty with
         | Some _ => ∃ z, in_domain ty z = true ∧ encode (integer_carrier ty z) = Some bits
         | None => True
         end
  end.
(** The same without a declared type. *)
Definition pattern_at (ty : ValueType) (bits : Z) : Prop :=
  match ty with
  | VtBool => ∃ b, encode (VBool b) = Some bits
  | VtChar => ∃ c, is_scalar_value c = true ∧ encode (VChar c) = Some bits
  | _ => True
  end.

Lemma scalar_round_trip v ty : value_ok v = true → has_representation v ty = true → is_Some (scalar_type ty) →
  ∃ bits, encode v = Some bits ∧ 0 <= bits < 2 ^ 64 ∧ decode ty bits = Some v ∧ admits_payload ty None bits = true.
Proof.
  intros Hv Hr Hs. destruct (encode_scalar _ _ Hs Hr) as [bits Hb]. exists bits.
  split; [done|]. destruct Hs as [b Hs].
  destruct ty; try discriminate Hs; destruct v; try discriminate Hr; simpl in Hb, Hv;
    injection Hb as <-.
  + done.
  + by destruct b0.
  + split; [apply as_u64_range|]. split; [|done].
    simpl. unfold as_u64. rewrite !cast_cast by lia. by rewrite cast_id by (done || lia).
  + split; [apply as_u64_range|]. split; [|done].
    simpl. unfold as_u64. rewrite !cast_cast by lia. by rewrite cast_id by (done || lia).
  + apply in_range_spec in Hv. unfold Std.min_value, Std.max_value in Hv. split; [lia|done].
  + split; [|split; [|done]].
    * apply in_range_spec in Hv. unfold Std.min_value, Std.max_value in Hv. lia.
    * simpl. by rewrite cast_id by (done || lia).
  + apply in_range_spec in Hv. unfold Std.min_value, Std.max_value in Hv. split; [lia|done].
  + split; [unfold is_scalar_value in Hv; lia|]. unfold admits_payload. simpl.
    by rewrite (decode_char_ok _ Hv).
Qed.
Lemma admits_integer ty bits : is_Some (integer_layout ty) → 0 <= bits < 2 ^ 64 →
  admits_payload (builtin_representation ty) (Some ty) bits = true ↔
  ∃ z, in_domain ty z = true ∧ encode (integer_carrier ty z) = Some bits.
Proof.
  intros Hlay Hb. rewrite admits_integer_payload by done. split.
  - intros Hd. exists (payload_integer ty bits). split; [done|].
    destruct (integer_carrier_facts _ _ Hd) as (Hok & _ & Hi & _).
    rewrite (encode_integer _ _ Hok Hi). by rewrite payload_integer_inv.
  - intros (z & Hz & He). destruct (integer_carrier_facts _ _ Hz) as (Hok & _ & Hi & _).
    rewrite (encode_integer _ _ Hok Hi) in He. injection He as <-. by rewrite payload_integer_encode.
Qed.


