(* ===== verification/Text.v ===== *)
(** * Source text, cancellation and the scanning monad

    Text is a list of Unicode scalar values; offsets are UTF-8 byte offsets, as
    in [&str].  The file models what the front end uses of Rust's [char] and
    [str], the cooperative cancellation token
    ([kagari-common/src/cancellation.rs]) and the polling iterator
    [char_indices().take_while(..).peekable()] that
    [kagari-syntax/src/lexer.rs] and [kagari-source/src/literal.rs] share.

    A [CancellationToken] is a flag another thread may set once, at any time.
    All the reader sees of it is the sequence of its [check]s, so a run is
    described by the number of checks that still succeed ([Some k]) or by
    [None], a token nobody cancels. *)
From Stdlib Require Import Ascii.
From S2P Require Import Prelude.
Open Scope nat_scope.

(** ** Characters *)
Definition char : Type := Z.
Notation text := (list Z).

(** The scalar value of an ASCII character. *)
Definition chr (a : Ascii.ascii) : Z := Z.of_N (Ascii.N_of_ascii a).
Arguments chr a%_char_scope.
Definition QUOTE : Z := 34.
Definition NUL : Z := 0.
Definition TAB : Z := 9.
Definition LF : Z := 10.
Definition CR : Z := 13.

Definition is_ch (c : Z) (a : Ascii.ascii) : bool := (c =? chr a)%Z.
Arguments is_ch c a%_char_scope.

Fixpoint text_of (s : string) : text :=
  match s with EmptyString => [] | String a s => chr a :: text_of s end.

Definition between (lo hi : Ascii.ascii) (c : Z) : bool := ((chr lo <=? c) && (c <=? chr hi))%Z.
Arguments between lo%_char_scope hi%_char_scope c.

Definition is_ascii (c : Z) : bool := (c <? 128)%Z.
Definition is_ascii_digit (c : Z) : bool := between "0" "9" c.
Definition is_ascii_alphabetic (c : Z) : bool := between "a" "z" c || between "A" "Z" c.
Definition is_ascii_alphanumeric (c : Z) : bool := is_ascii_alphabetic c || is_ascii_digit c.

(** [char::to_digit(radix)], for the radices 2, 8, 10 and 16. *)
Definition to_digit (radix : Z) (c : Z) : option Z :=
  let value :=
    if between "0" "9" c then Some (c - chr "0")%Z
    else if between "a" "z" c then Some (c - chr "a" + 10)%Z
    else if between "A" "Z" c then Some (c - chr "A" + 10)%Z
    else None in
  v ← value; if (v <? radix)%Z then Some v else None.
Definition is_digit (radix c : Z) : bool := bool_decide (is_Some (to_digit radix c)).
Definition is_ascii_hexdigit (c : Z) : bool := is_digit 16 c.

(** [char::is_whitespace]: the Unicode property [White_Space]. *)
Definition is_whitespace (c : Z) : bool :=
  (((9 <=? c) && (c <=? 13)) || (c =? 32) || (c =? 0x85) || (c =? 0xA0) || (c =? 0x1680)
   || ((0x2000 <=? c) && (c <=? 0x200A)) || (c =? 0x2028) || (c =? 0x2029) || (c =? 0x202F)
   || (c =? 0x205F) || (c =? 0x3000))%Z.

(** [char::from_u32]. *)
Definition char_from_u32 (z : Z) : option Z :=
  if ((0 <=? z) && (z <=? 0x10FFFF) && negb ((0xD800 <=? z) && (z <=? 0xDFFF)))%Z
  then Some z else None.

(** ** UTF-8 offsets *)
Definition len_utf8 (c : Z) : nat :=
  if (c <? 0x80)%Z then 1 else if (c <? 0x800)%Z then 2 else if (c <? 0x10000)%Z then 3 else 4.

(** [str::len]. *)
Fixpoint blen (t : text) : nat :=
  match t with [] => 0 | c :: t => len_utf8 c + blen t end.

(** [&t[n..]] and [&t[..n]]; [None] is the panic on a non-boundary. *)
Fixpoint suffix_at (n : nat) (t : text) : option text :=
  match n, t with
  | O, _ => Some t
  | S _, [] => None
  | S _, c :: t => if len_utf8 c <=? n then suffix_at (n - len_utf8 c) t else None
  end.
Fixpoint prefix_at (n : nat) (t : text) : option text :=
  match n, t with
  | O, _ => Some []
  | S _, [] => None
  | S _, c :: t => if len_utf8 c <=? n then cons c <$> prefix_at (n - len_utf8 c) t else None
  end.
(** [&t[a..b]]. *)
Definition slice (t : text) (a b : nat) : option text :=
  if a <=? b then s ← suffix_at a t; prefix_at (b - a) s else None.

Fixpoint starts_with (p t : text) : bool :=
  match p, t with
  | [], _ => true
  | c :: p, d :: t => (c =? d)%Z && starts_with p t
  | _ :: _, [] => false
  end.
Definition starts_with_char (p : Z → bool) (t : text) : bool :=
  match t with c :: _ => p c | [] => false end.
Definition strip_prefix (p t : text) : option text :=
  if starts_with p t then Some (drop (length p) t) else None.
Definition strip_suffix (p t : text) : option text :=
  if starts_with (rev p) (rev t) then Some (take (length t - length p) t) else None.

(** ** Cancellation *)
Notation CancellationToken := (option nat).

(** [CancellationToken::check]: [false] is [Err(Cancelled)]; a set flag stays set. *)
Definition token_check (k : CancellationToken) : bool * CancellationToken :=
  match k with
  | None => (true, None)
  | Some 0 => (false, Some 0)
  | Some (S k) => (true, Some k)
  end.

(** ** The polling iterator *)
Definition CANCELLATION_CHECK_BYTES : nat := 4 * 1024.

(** [rest] is the text not yet taken and [pos] its byte offset; [admitted] says
    the head was already pulled through [take_while] by a [peek]; [finished] is
    the fused end of [take_while]. *)
Record Cursor : Type := {
  rest : text; pos : nat; next_check : nat; admitted : bool; finished : bool
}.
Definition cursor_of (t : text) : Cursor :=
  {| rest := t; pos := 0; next_check := CANCELLATION_CHECK_BYTES;
     admitted := false; finished := false |}.

Record St : Type := { cur : Cursor; cxl : CancellationToken }.

Inductive outcome (A : Type) : Type :=
| Done (a : A) (s : St)
| Stopped          (** [Err(Cancelled)] *)
| Panicked
| OutOfFuel.
Arguments Done {A} a s.
Arguments Stopped {A}.
Arguments Panicked {A}.
Arguments OutOfFuel {A}.

Definition M (A : Type) : Type := St → outcome A.

Definition ret {A} (a : A) : M A := λ s, Done a s.
Definition bind {A B} (m : M A) (k : A → M B) : M B :=
  λ s, match m s with
       | Done a s' => k a s'
       | Stopped => Stopped
       | Panicked => Panicked
       | OutOfFuel => OutOfFuel
       end.
Definition panic {A} : M A := λ _, Panicked.
Definition out_of_fuel {A} : M A := λ _, OutOfFuel.

Notation "'let*' x ':=' m 'in' k" := (bind m (λ x, k))
  (at level 10, x binder, m at level 100, k at level 200) : kagari_scope.
Notation "m ;;; k" := (bind m (λ _, k))
  (at level 90, k at level 200, right associativity) : kagari_scope.

Definition of_option {A} (o : option A) : M A := match o with Some a => ret a | None => panic end.

(** [cancel.check()?]. *)
Definition check : M unit :=
  λ s, match token_check (cxl s) with
       | (true, k) => Done tt {| cur := cur s; cxl := k |}
       | (false, _) => Stopped
       end.

Definition set_admitted (c : Cursor) (n : nat) : Cursor :=
  {| rest := rest c; pos := pos c; next_check := n; admitted := true; finished := false |}.
Definition set_finished (c : Cursor) : Cursor :=
  {| rest := rest c; pos := pos c; next_check := next_check c; admitted := false;
     finished := true |}.
Definition advance (c : Cursor) : Cursor :=
  match rest c with
  | [] => c
  | ch :: t => {| rest := t; pos := pos c + len_utf8 ch; next_check := next_check c;
                  admitted := false; finished := finished c |}
  end.

(** [chars.peek()]: pull the head through the [take_while] predicate once. *)
Definition peek : M (option (nat * Z)) :=
  λ s, let c := cur s in
       match rest c with
       | [] => Done None s
       | ch :: _ =>
           if finished c then Done None s
           else if admitted c then Done (Some (pos c, ch)) s
           else if pos c <? next_check c then
             Done (Some (pos c, ch)) {| cur := set_admitted c (next_check c); cxl := cxl s |}
           else
             match token_check (cxl s) with
             | (true, k) =>
                 Done (Some (pos c, ch))
                      {| cur := set_admitted c (pos c + CANCELLATION_CHECK_BYTES); cxl := k |}
             | (false, k) => Done None {| cur := set_finished c; cxl := k |}
             end
       end.

(** [chars.next()]. *)
Definition next : M (option (nat * Z)) :=
  bind peek (λ o s, match o with
                    | Some x => Done (Some x) {| cur := advance (cur s); cxl := cxl s |}
                    | None => Done None s
                    end).

(** Run a scanner on another text, under the same token. *)
Definition with_text {A} (t : text) (m : M A) : M A :=
  λ s, match m {| cur := cursor_of t; cxl := cxl s |} with
       | Done a s' => Done a {| cur := cur s; cxl := cxl s' |}
       | Stopped => Stopped
       | Panicked => Panicked
       | OutOfFuel => OutOfFuel
       end.

(** ** Loops *)

(** A [loop] or [while]: [inl] goes round again, [inr] leaves.  Every iteration
    that goes round takes a character, so the remaining length bounds it. *)
Fixpoint iter_fuel {S R} (body : S → M (S + R)) (fuel : nat) (acc : S) : M R :=
  match fuel with
  | O => out_of_fuel
  | Datatypes.S fuel =>
      let* r := body acc in
      match r with inl acc => iter_fuel body fuel acc | inr b => ret b end
  end.
Definition remaining : M nat := λ s, Done (S (length (rest (cur s)))) s.
Definition iterate {S R} (body : S → M (S + R)) (acc : S) : M R :=
  let* n := remaining in iter_fuel body n acc.

(** [while let Some((i, c)) = chars.peek() { ... }] whose body decides to leave,
    to take the character and go on, or to take it and leave. *)
Inductive step (S : Type) : Type := Leave | Take (s : S) | TakeLeave (s : S).
Arguments Leave {S}.
Arguments Take {S} s.
Arguments TakeLeave {S} s.

Definition while_peek {S} (body : nat → Z → S → step S) : S → M S :=
  iterate (λ acc,
    let* o := peek in
    match o with
    | None => ret (inr acc)
    | Some (i, c) =>
        match body i c acc with
        | Leave => ret (inr acc)
        | Take acc => next ;;; ret (inl acc)
        | TakeLeave acc => next ;;; ret (inr acc)
        end
    end).

(** Take the characters that satisfy [p]. *)
Definition skip_while (p : nat → Z → bool) : M unit :=
  while_peek (λ i c _, if p i c then Take tt else Leave) tt.

(** ** Lemmas on offsets *)
Lemma len_utf8_pos c : 0 < len_utf8 c.
Proof. unfold len_utf8. repeat case_match; lia. Qed.

Lemma blen_app p q : blen (p ++ q) = blen p + blen q.
Proof. induction p as [|c p IH]; simpl; lia. Qed.

Lemma blen_snoc p c : blen (p ++ [c]) = blen p + len_utf8 c.
Proof. rewrite blen_app. simpl. lia. Qed.

Lemma blen_0 p : blen p = 0 → p = [].
Proof. destruct p as [|c p]; [done|]. simpl. pose proof (len_utf8_pos c). lia. Qed.

Lemma suffix_at_app p q : suffix_at (blen p) (p ++ q) = Some q.
Proof.
  induction p as [|c p IH]; [by destruct q|]. simpl. pose proof (len_utf8_pos c).
  destruct (len_utf8 c + blen p) eqn:E; [lia|]. rewrite <- E.
  rewrite (proj2 (Nat.leb_le _ _)) by lia. by replace (len_utf8 c + blen p - len_utf8 c) with (blen p) by lia.
Qed.

Lemma prefix_at_app p q : prefix_at (blen p) (p ++ q) = Some p.
Proof.
  induction p as [|c p IH]; [by destruct q|]. simpl. pose proof (len_utf8_pos c).
  destruct (len_utf8 c + blen p) eqn:E; [lia|]. rewrite <- E.
  rewrite (proj2 (Nat.leb_le _ _)) by lia.
  replace (len_utf8 c + blen p - len_utf8 c) with (blen p) by lia. by rewrite IH.
Qed.

Lemma slice_app p c q : slice (p ++ c ++ q) (blen p) (blen p + blen c) = Some c.
Proof.
  unfold slice. rewrite (proj2 (Nat.leb_le _ _)) by lia. rewrite suffix_at_app. simpl.
  replace (blen p + blen c - blen p) with (blen c) by lia. apply prefix_at_app.
Qed.

(** [slice] between the ends of two prefixes of the text. *)
Lemma slice_prefixes t p c q : t = p ++ c ++ q → slice t (blen p) (blen (p ++ c)) = Some c.
Proof. intros ->. rewrite blen_app. apply slice_app. Qed.

Lemma suffix_at_inv n t q : suffix_at n t = Some q → ∃ p, t = p ++ q ∧ blen p = n.
Proof.
  revert n. induction t as [|c t IH]; intros [|n]; simpl; intros H; simplify_eq; try by exists [].
  destruct (len_utf8 c <=? S n) eqn:E; [|done]. apply Nat.leb_le in E.
  destruct (IH _ H) as (p & -> & Hp). exists (c :: p). simpl. split; [done|].
  pose proof (len_utf8_pos c). destruct (len_utf8 c); lia.
Qed.
Lemma prefix_at_inv n t p : prefix_at n t = Some p → ∃ q, t = p ++ q ∧ blen p = n.
Proof.
  revert n p. induction t as [|c t IH]; intros [|n] p; simpl; intros H; simplify_eq; try by eexists.
  destruct (len_utf8 c <=? S n) eqn:E; [|done]. apply Nat.leb_le in E.
  apply fmap_Some in H as (p' & H & ->). destruct (IH _ _ H) as (q & -> & Hp).
  exists q. simpl. split; [done|]. pose proof (len_utf8_pos c). destruct (len_utf8 c); lia.
Qed.
Lemma slice_inv t a b c : slice t a b = Some c →
  ∃ p q, t = p ++ c ++ q ∧ blen p = a ∧ blen p + blen c = b.
Proof.
  unfold slice. destruct (a <=? b) eqn:E; [|done]. apply Nat.leb_le in E.
  destruct (suffix_at a t) as [s|] eqn:Es; [|done]. simpl. intros Hp.
  destruct (suffix_at_inv _ _ _ Es) as (p & -> & Hb). destruct (prefix_at_inv _ _ _ Hp) as (q & -> & Hc).
  exists p, q. split_and!; [done..|lia].
Qed.

(** A text is determined by its byte length among the prefixes of a text. *)
Lemma prefix_blen_inj p q p' q' : p ++ q = p' ++ q' → blen p = blen p' → p = p' ∧ q = q'.
Proof.
  intros He Hl. pose proof (prefix_at_app p q) as H1. pose proof (prefix_at_app p' q') as H2.
  rewrite He, Hl, H2 in H1. simplify_eq. by simplify_list_eq.
Qed.

(** A character boundary of a text. *)
Definition boundary (t : text) (n : nat) : Prop := ∃ p q, t = p ++ q ∧ n = blen p.

Lemma boundary_prefix p q : boundary (p ++ q) (blen p).
Proof. by exists p, q. Qed.
Lemma boundary_end t : boundary t (blen t).
Proof. exists t, []. by rewrite app_nil_r. Qed.

Lemma boundary_slice t a b : boundary t a → boundary t b → a ≤ b → is_Some (slice t a b).
Proof.
  intros (p & q & -> & ->) (p' & q' & He & ->) Hle.
  destruct (app_eq_inv _ _ _ _ He) as [(k & -> & ->)|(k & -> & ->)].
  - rewrite blen_app in Hle. assert (k = []) as -> by (apply blen_0; lia).
    rewrite app_nil_r. exists []. replace (p' ++ q) with (p' ++ [] ++ q) by done.
    rewrite <- (Nat.add_0_r (blen p')) at 2. apply slice_app.
  - exists k. rewrite blen_app. apply slice_app.
Qed.

(** ** Total correctness of scanners

    [wp m Q st]: [m] neither panics nor runs out of fuel from [st], and a
    result that is not a cancellation satisfies [Q]. *)
Definition wp {A} (m : M A) (Q : A → St → Prop) (st : St) : Prop :=
  match m st with
  | Done a st' => Q a st'
  | Stopped => True
  | Panicked | OutOfFuel => False
  end.

Lemma scan_ret {A} (a : A) Q st : Q a st → wp (ret a) Q st.
Proof. done. Qed.
Lemma scan_mono {A} (m : M A) (Q Q' : A → St → Prop) st :
  wp m Q st → (∀ a st', Q a st' → Q' a st') → wp m Q' st.
Proof. unfold wp. destruct (m st); eauto. Qed.
Lemma scan_bind {A B} (m : M A) (k : A → M B) Q st :
  wp m (λ a, wp (k a) Q) st → wp (bind m k) Q st.
Proof. unfold wp, bind. by destruct (m st). Qed.
Lemma wp_bind_inv {A B} (m : M A) (k : A → M B) Q R st :
  wp m R st → (∀ a st', R a st' → wp (k a) Q st') → wp (bind m k) Q st.
Proof. intros Hm Hk. apply scan_bind. by eapply scan_mono. Qed.
Lemma wp_of_option {A} (o : option A) Q st a : o = Some a → Q a st → wp (of_option o) Q st.
Proof. by intros ->. Qed.
Lemma wp_conj {A} (m : M A) (Q R : A → St → Prop) st :
  wp m Q st → wp m R st → wp m (λ a st', Q a st' ∧ R a st') st.
Proof. unfold wp. by destruct (m st). Qed.

(** The cursor stands at the end of the prefix [pre] of [input]; only a
    cancelled run has cut its iterator. *)
Definition At (input pre : text) (st : St) : Prop :=
  input = pre ++ rest (cur st) ∧ pos (cur st) = blen pre
  ∧ (finished (cur st) = true → cxl st = Some 0).
Definition ended (st : St) : Prop := rest (cur st) = [] ∨ finished (cur st) = true.
(** What a peek that answers nothing did: the text is over, or the run was cut. *)
Definition ends (st st' : St) : Prop :=
  (rest (cur st') = [] ∧ finished (cur st') = finished (cur st)) ∨ finished (cur st') = true.
Lemma ends_ended st st' : ends st st' → ended st'.
Proof. intros [[? _]|?]; [by left|by right]. Qed.

(** The next character was peeked, so [next] will yield it. *)
Definition Peeked (input pre : text) (ch : Z) (st : St) : Prop :=
  At input pre st ∧ admitted (cur st) = true ∧ finished (cur st) = false
  ∧ ∃ r, rest (cur st) = ch :: r.

Lemma Peeked_At input pre ch st : Peeked input pre ch st → At input pre st.
Proof. by intros []. Qed.

Lemma At_input input pre st : At input pre st → input = pre ++ rest (cur st).
Proof. by intros []. Qed.
Lemma At_boundary input pre st : At input pre st → boundary input (blen pre).
Proof. intros (-> & _). apply boundary_prefix. Qed.
Lemma At_slice input pre c st : At input (pre ++ c) st →
  slice input (blen pre) (blen (pre ++ c)) = Some c.
Proof. intros (-> & _). rewrite <- app_assoc. by eapply slice_prefixes. Qed.
Lemma Peeked_input input pre ch st : Peeked input pre ch st → ∃ r, input = pre ++ ch :: r.
Proof. intros ((-> & _) & _ & _ & r & ->). eauto. Qed.

Lemma wp_peek input pre st (Q : option (nat * Z) → St → Prop) :
  At input pre st →
  (∀ ch st', Peeked input pre ch st' → rest (cur st') = rest (cur st) →
     finished (cur st) = false → Q (Some (blen pre, ch)) st') →
  (∀ st', At input pre st' → rest (cur st') = rest (cur st) → ends st st' → Q None st') →
  wp peek Q st.
Proof.
  intros (Hin & Hpos & Hfin) HS HN. unfold wp, peek.
  destruct (rest (cur st)) as [|ch r] eqn:Er.
  { apply HN; [by rewrite <- Er in Hin; split_and!|done|by left]. }
  destruct (finished (cur st)) eqn:Ef.
  { apply HN; [rewrite <- Er in Hin; split_and!; auto|done|by right]. }
  rewrite Hpos.
  assert (∀ st', rest (cur st') = ch :: r → pos (cur st') = blen pre → admitted (cur st') = true →
    finished (cur st') = false → Q (Some (blen pre, ch)) st') as HQ.
  { intros st' Hr Hp Ha Hf. apply HS; [|done|done].
    split; [split_and!; [by rewrite Hr|done|by rewrite Hf]|eauto]. }
  destruct (admitted (cur st)) eqn:Ea; [by apply HQ|].
  destruct (blen pre <? next_check (cur st)); [by apply HQ|].
  destruct (cxl st) as [[|k]|] eqn:Ec; simpl; try (by apply HQ).
  apply HN; [|done|by right]. rewrite <- Er in Hin. split_and!; simpl; auto.
Qed.

Lemma wp_peek_peeked input pre ch st (Q : option (nat * Z) → St → Prop) :
  Peeked input pre ch st → Q (Some (blen pre, ch)) st → wp peek Q st.
Proof.
  intros ((_ & Hpos & _) & Ha & Hf & r & Hr) HQ. unfold wp, peek.
  rewrite Hr, Hf, Ha. by rewrite Hpos.
Qed.

Lemma Peeked_advance input pre ch st : Peeked input pre ch st →
  let st' := {| cur := advance (cur st); cxl := cxl st |} in
  At input (pre ++ [ch]) st' ∧ rest (cur st) = ch :: rest (cur st') ∧ finished (cur st') = false.
Proof.
  intros ((Hin & Hpos & _) & Ha & Hf & r & Hr). unfold At, advance. rewrite Hr in Hin |- *. simpl.
  rewrite Hf, Hpos, blen_snoc, <- app_assoc. by split_and!.
Qed.

Lemma wp_next_peeked input pre ch st (Q : option (nat * Z) → St → Prop) :
  Peeked input pre ch st →
  (∀ st', At input (pre ++ [ch]) st' → rest (cur st) = ch :: rest (cur st') →
     finished (cur st') = false → Q (Some (blen pre, ch)) st') →
  wp next Q st.
Proof.
  intros HP HQ. destruct (Peeked_advance _ _ _ _ HP) as (? & ? & ?).
  unfold next. apply scan_bind. eapply wp_peek_peeked; [done|]. by apply HQ.
Qed.

Lemma wp_next input pre st (Q : option (nat * Z) → St → Prop) :
  At input pre st →
  (∀ ch st', At input (pre ++ [ch]) st' → rest (cur st) = ch :: rest (cur st') →
     finished (cur st) = false ∧ finished (cur st') = false → Q (Some (blen pre, ch)) st') →
  (∀ st', At input pre st' → rest (cur st') = rest (cur st) → ends st st' → Q None st') →
  wp next Q st.
Proof.
  intros HA HS HN. unfold next. apply scan_bind. eapply wp_peek; [done| |done].
  intros ch st' HP Hr Hf. destruct (Peeked_advance _ _ _ _ HP) as (? & Hr' & ?).
  apply HS; [done| |done]. by rewrite <- Hr, Hr'.
Qed.

Lemma wp_check input pre st (Q : unit → St → Prop) :
  At input pre st →
  (∀ st', At input pre st' → cur st' = cur st → finished (cur st') = false → Q tt st') →
  wp check Q st.
Proof.
  intros (Hin & Hp & Hf) HQ. unfold wp, check. destruct (cxl st) as [[|k]|] eqn:Ec; simpl.
  all: try done; apply HQ; simpl; try done.
  all: try (split_and!; simpl; [done..|]; intros E; specialize (Hf E); congruence).
  all: destruct (finished (cur st)); [|done]; specialize (Hf eq_refl); congruence.
Qed.

Lemma wp_iter_fuel {S R} (Inv : S → St → Prop) (Q : R → St → Prop) body fuel acc st :
  (∀ acc st, Inv acc st → wp (body acc) (λ r st', match r with
      | inl acc' => Inv acc' st' ∧ length (rest (cur st')) < length (rest (cur st))
      | inr b => Q b st' end) st) →
  Inv acc st → length (rest (cur st)) < fuel → wp (iter_fuel body fuel acc) Q st.
Proof.
  intros Hb. revert acc st. induction fuel as [|fuel IH]; intros acc st HI Hl; [lia|].
  simpl. eapply wp_bind_inv; [by apply Hb|]. intros [acc'|b] st'; [|done].
  intros [HI' Hlt]. apply IH; [done|lia].
Qed.

Lemma wp_iterate {S R} (Inv : S → St → Prop) (Q : R → St → Prop) body acc st :
  Inv acc st →
  (∀ acc st, Inv acc st → wp (body acc) (λ r st', match r with
      | inl acc' => Inv acc' st' ∧ length (rest (cur st')) < length (rest (cur st))
      | inr b => Q b st' end) st) →
  wp (iterate body acc) Q st.
Proof.
  intros HI Hb. unfold iterate. apply scan_bind.
  change (wp (iter_fuel body (Datatypes.S (length (rest (cur st)))) acc) Q st).
  eapply wp_iter_fuel; eauto with lia.
Qed.

Lemma wp_while_peek {S} input body (Inv : text → S → Prop) (Q : S → St → Prop) pre acc st :
  At input pre st → Inv pre acc →
  (∀ pre ch acc acc', Inv pre acc → (∃ r, input = pre ++ ch :: r) →
     body (blen pre) ch acc = Take acc' → Inv (pre ++ [ch]) acc') →
  (∀ pre acc st', Inv pre acc → At input pre st' → ended st' → Q acc st') →
  (∀ pre ch acc st', Inv pre acc → Peeked input pre ch st' → body (blen pre) ch acc = Leave →
     Q acc st') →
  (∀ pre ch acc acc' st', Inv pre acc → body (blen pre) ch acc = TakeLeave acc' →
     At input (pre ++ [ch]) st' → Q acc' st') →
  wp (while_peek body acc) Q st.
Proof.
  intros HA HI Htake Hend Hleave Htl.
  eapply (wp_iterate (λ acc st, ∃ pre, At input pre st ∧ Inv pre acc)); [by exists pre|].
  clear pre acc st HA HI. intros acc st (pre & HA & HI). apply scan_bind.
  eapply wp_peek; [done| |].
  - intros ch st' Hp Hr _. destruct (body (blen pre) ch acc) as [|acc'|acc'] eqn:Eb.
    + apply scan_ret. eauto.
    + apply scan_bind. eapply wp_next_peeked; [done|]. intros st'' HA' Hr' _. apply scan_ret.
      split; [eauto using Peeked_input|]. rewrite <- Hr, Hr'. simpl. lia.
    + apply scan_bind. eapply wp_next_peeked; [done|]. intros st'' HA' Hr' _. apply scan_ret. eauto.
  - intros st' HA' _ He%ends_ended. apply scan_ret. eauto.
Qed.

(** ** Cancellation is transparent

    A run whose token is not cancelled by its end behaves as a run with a token
    nobody cancels, and a cancelled token stays cancelled. *)
Definition uncancel (st : St) : St := {| cur := cur st; cxl := None |}.

Class Faithful {A} (m : M A) : Prop := {
  faithful_run st a st' :
    m st = Done a st' → cxl st' ≠ Some 0 → m (uncancel st) = Done a (uncancel st');
  faithful_sticky st a st' : m st = Done a st' → cxl st = Some 0 → cxl st' = Some 0;
  faithful_fresh st : cxl st = None →
    match m st with Done _ st' => cxl st' = None | Stopped => False | _ => True end
}.

#[export] Instance faithful_ret {A} (a : A) : Faithful (ret a).
Proof. split; unfold ret; intros; by simplify_eq. Qed.
#[export] Instance faithful_panic {A} : Faithful (@panic A).
Proof. by split. Qed.
#[export] Instance faithful_out_of_fuel {A} : Faithful (@out_of_fuel A).
Proof. by split. Qed.
#[export] Instance faithful_of_option {A} (o : option A) : Faithful (of_option o).
Proof. destruct o; apply _. Qed.
#[export] Instance faithful_check : Faithful check.
Proof.
  split; unfold check; intros [c [[|k]|]]; simpl; intros; simplify_eq/=; try done.
Qed.
#[export] Instance faithful_remaining : Faithful remaining.
Proof. split; unfold remaining; intros; by simplify_eq. Qed.

#[export] Instance faithful_bind {A B} (m : M A) (k : A → M B) :
  Faithful m → (∀ a, Faithful (k a)) → Faithful (bind m k).
Proof.
  intros Hm Hk. split; unfold bind; intros st;
    [intros b st'; destruct (m st) as [a s1| | |] eqn:E; try done..|].
  - intros Hb Hc. assert (cxl s1 ≠ Some 0) as Hs.
    { intros Hz. apply Hc. by eapply (faithful_sticky (m := k a)). }
    rewrite (faithful_run (m := m) _ _ _ E Hs). by apply faithful_run.
  - intros Hb Hc. eapply (faithful_sticky (m := k a)); [done|]. by eapply (faithful_sticky (m := m)).
  - intros Hc. pose proof (faithful_fresh (m := m) st Hc). destruct (m st) as [a s1| | |]; try done.
    by apply (faithful_fresh (m := k a)).
Qed.

#[export] Instance faithful_peek : Faithful peek.
Proof.
  split; unfold peek; intros [[r p n ad fin] k]; destruct r as [|ch r]; simpl;
    intros; repeat case_match; simplify_eq/=; try done.
  all: destruct k as [[|k]|]; simplify_eq/=; done.
Qed.
#[export] Instance faithful_next : Faithful next.
Proof.
  apply faithful_bind; [apply _|]. intros [x|]; split; intros; by simplify_eq/=.
Qed.

#[export] Instance faithful_with_text {A} t (m : M A) : Faithful m → Faithful (with_text t m).
Proof.
  intros Hm. split; unfold with_text; intros st;
    [intros a st'; destruct (m _) as [a' s1| | |] eqn:E; intros; simplify_eq/=..|].
  - pose proof (faithful_run (m := m) _ _ _ E H0) as Hr. unfold uncancel in *. simpl in *. by rewrite Hr.
  - by eapply (faithful_sticky (m := m)).
  - intros Hc. rewrite Hc. pose proof (faithful_fresh (m := m)
      {| cur := cursor_of t; cxl := None |} eq_refl) as Hf. by destruct (m _).
Qed.

#[export] Instance faithful_iter_fuel {S R} (body : S → M (S + R)) fuel acc :
  (∀ acc, Faithful (body acc)) → Faithful (iter_fuel body fuel acc).
Proof.
  intros Hb. revert acc. induction fuel as [|fuel IH]; intros acc; simpl; [apply _|].
  apply faithful_bind; [apply _|]. intros [a|b]; apply _.
Qed.
#[export] Instance faithful_iterate {S R} (body : S → M (S + R)) acc :
  (∀ acc, Faithful (body acc)) → Faithful (iterate body acc).
Proof. intros. unfold iterate. apply _. Qed.

(** Descend through the sequencing, the branches and the loops of a scanner. *)
Ltac solve_faithful :=
  intros; cbv beta;
  lazymatch goal with
  | |- Faithful (bind _ _) => apply faithful_bind; [solve_faithful|intro; solve_faithful]
  | |- Faithful (iterate _ _) => apply faithful_iterate; intro; solve_faithful
  | |- Faithful (with_text _ _) => apply faithful_with_text; solve_faithful
  | |- Faithful (match ?x with _ => _ end) => destruct x; solve_faithful
  | |- _ => apply _
  end.

#[export] Instance faithful_while_peek {S} (body : nat → Z → S → step S) acc :
  Faithful (while_peek body acc).
Proof. unfold while_peek. solve_faithful. Qed.
#[export] Instance faithful_skip_while p : Faithful (skip_while p).
Proof. unfold skip_while. apply _. Qed.

(** Running under the scanner's token on another text leaves the cursor alone. *)
Lemma wp_with_text {A} input pre t (m : M A) (Q : A → St → Prop) st :
  Faithful m → At input pre st →
  (∀ c, wp m (λ a st', ∀ st'', At input pre st'' → cur st'' = cur st → cxl st'' = cxl st' →
     Q a st'') {| cur := cursor_of t; cxl := c |}) →
  wp (with_text t m) Q st.
Proof.
  intros Hm (Hin & Hp & Hf) HQ. specialize (HQ (cxl st)). unfold wp, with_text in *.
  destruct (m _) as [a s1| | |] eqn:E; try done. apply HQ; [|done..].
  split_and!; [done..|]. simpl. intros Hfin. eapply (faithful_sticky (m := m)); [done|]. by apply Hf.
Qed.

(** A scanner on a fresh token, as [m(..).expect("fresh cancellation token")]:
    [None] is a panic. *)
Definition run_fresh {A} (m : M A) : option A :=
  match m {| cur := cursor_of []; cxl := None |} with Done a _ => Some a | _ => None end.

Lemma run_fresh_wp {A} (m : M A) (Q : A → St → Prop) :
  Faithful m → wp m Q {| cur := cursor_of []; cxl := None |} →
  ∃ a st, run_fresh m = Some a ∧ Q a st ∧ cxl st = None.
Proof.
  intros Hm Hw. unfold run_fresh, wp in *.
  pose proof (faithful_fresh (m := m) {| cur := cursor_of []; cxl := None |} eq_refl).
  destruct (m _); try done. eauto.
Qed.

(** ** Scanners that never panic and always end

    [Safe input n st]: the cursor stands in [input] with at most [n] characters
    to go. *)
Definition Safe (input : text) (n : nat) (st : St) : Prop :=
  (∃ pre, At input pre st) ∧ length (rest (cur st)) ≤ n.

Class Total {A} (m : M A) : Prop :=
  total input n st : Safe input n st → wp m (λ _ st', Safe input n st') st.

#[export] Instance total_ret {A} (a : A) : Total (ret a).
Proof. by intros input n st. Qed.
#[export] Instance total_bind {A B} (m : M A) (k : A → M B) :
  Total m → (∀ a, Total (k a)) → Total (bind m k).
Proof.
  intros Hm Hk input n st Hs. eapply wp_bind_inv; [by apply Hm|]. intros a st'. apply Hk.
Qed.

(** An action that takes a character when it answers one. *)
Class Pulls {A} (m : M (option A)) : Prop :=
  pulls input n st : Safe input n st →
    wp m (λ o st', match o with
                   | Some _ => Safe input (pred n) st' ∧ 0 < n
                   | None => Safe input n st'
                   end) st.

#[export] Instance pulls_next : Pulls next.
Proof.
  intros input n st [[pre HA] Hn]. eapply wp_next; [done| |].
  - intros ch st' HA' Hr _. rewrite Hr in Hn. simpl in Hn. split; [split; [by eexists|lia]|lia].
  - intros st' HA' Hr _. split; [by eexists|]. by rewrite Hr.
Qed.

Lemma Safe_le input n m st : Safe input n st → n ≤ m → Safe input m st.
Proof. intros [? ?] ?. split; [done|lia]. Qed.

Lemma pulls_total {A} (m : M (option A)) : Pulls m → Total m.
Proof.
  intros Hm input n st Hs. eapply scan_mono; [by apply Hm|].
  intros [x|] st' H; [|done]. eapply Safe_le; [apply H|lia].
Qed.
#[export] Instance total_next : Total next.
Proof. apply pulls_total, _. Qed.
#[export] Instance total_peek : Total peek.
Proof.
  intros input n st [[pre HA] Hn]. eapply wp_peek; [done| |].
  - intros ch st' HP Hr _. split; [eexists; by eapply Peeked_At|by rewrite Hr].
  - intros st' HA' Hr _. split; [by eexists|by rewrite Hr].
Qed.
#[export] Instance total_check : Total check.
Proof.
  intros input n st [[pre HA] Hn]. eapply wp_check; [done|]. intros st' HA' Hc _.
  split; [by eexists|by rewrite Hc].
Qed.

Lemma At_cursor_of t c : At t [] {| cur := cursor_of t; cxl := c |}.
Proof. by split_and!. Qed.
Lemma Safe_cursor_of t c : Safe t (length t) {| cur := cursor_of t; cxl := c |}.
Proof. split; [eexists; apply At_cursor_of|done]. Qed.

#[export] Instance total_with_text {A} t (m : M A) : Faithful m → Total m → Total (with_text t m).
Proof.
  intros Hf Hm input n st [[pre HA] Hn]. eapply wp_with_text; [done|done|]. intros c.
  eapply scan_mono; [apply Hm, Safe_cursor_of|]. intros a st' _ st'' HA'' Hc _.
  split; [by eexists|by rewrite Hc].
Qed.

#[export] Instance total_while_peek {S} (body : nat → Z → S → step S) acc :
  Total (while_peek body acc).
Proof.
  intros input n st Hs.
  eapply (wp_iterate (λ _ st, Safe input n st)); [done|]. clear st acc Hs.
  intros acc st Hs. apply scan_bind. destruct Hs as [[pre HA] Hn]. eapply wp_peek; [done| |].
  - intros ch st' HP Hr _. pose proof (Peeked_At _ _ _ _ HP) as HA'.
    destruct (body (blen pre) ch acc); [by apply scan_ret; split; [eexists|rewrite Hr]|..].
    all: apply scan_bind; eapply wp_next_peeked; [done|]; intros st'' HA'' Hr' _; apply scan_ret;
      rewrite Hr in Hr'; rewrite Hr' in *; simpl in *.
    + repeat split; [by eexists|lia|lia].
    + split; [by eexists|lia].
  - intros st' HA' Hr _. apply scan_ret. split; [by eexists|by rewrite Hr].
Qed.
#[export] Instance total_skip_while p : Total (skip_while p).
Proof. unfold skip_while. apply _. Qed.

(** A loop that starts each round with a pull and leaves at its end. *)
Lemma total_iterate_pull {A S R} (m : M (option A)) (k : S → option A → M (S + R)) acc :
  Pulls m → (∀ acc, ∃ b, k acc None = ret (inr b)) → (∀ acc x, Total (k acc (Some x))) →
  Total (iterate (λ acc, let* o := m in k acc o) acc).
Proof.
  intros Hm HN HS input n st Hs.
  eapply (wp_iterate (λ _ st, Safe input n st)); [done|]. clear st acc Hs. intros acc st Hs.
  set (n' := length (rest (cur st))).
  assert (Safe input n' st) as Hs' by (destruct Hs; split; [done|subst n'; lia]).
  assert (n' ≤ n) as Hle by (destruct Hs; subst n'; lia).
  eapply wp_bind_inv; [by apply Hm|]. intros [x|] st'.
  - intros [Hs1 Hlt]. eapply scan_mono; [by apply HS|]. intros [acc'|b] st'' Hs2.
    + split; [eapply Safe_le; [done|lia]|]. destruct Hs2 as [_ ?]. lia.
    + eapply Safe_le; [done|lia].
  - intros Hs1. destruct (HN acc) as [b ->]. apply scan_ret. eapply Safe_le; [done|lia].
Qed.

Ltac solve_total :=
  intros; cbv beta;
  lazymatch goal with
  | |- Total (bind _ _) => apply total_bind; [solve_total|intro; solve_total]
  | |- Total (match ?x with _ => _ end) => destruct x; solve_total
  | |- _ => apply _
  end.

(** ** Actions that do not look at the cursor *)
Class Blind {A} (m : M A) : Prop :=
  blind c c' k : match m {| cur := c; cxl := k |}, m {| cur := c'; cxl := k |} with
                 | Done a s, Done a' s' => a = a' ∧ cxl s = cxl s' ∧ cur s = c ∧ cur s' = c'
                 | Stopped, Stopped | Panicked, Panicked | OutOfFuel, OutOfFuel => True
                 | _, _ => False
                 end.
#[export] Instance blind_ret {A} (a : A) : Blind (ret a).
Proof. by intros c c' k. Qed.
#[export] Instance blind_check : Blind check.
Proof. intros c c' [[|k]|]; simpl; done. Qed.
#[export] Instance blind_with_text {A} t (m : M A) : Blind (with_text t m).
Proof. intros c c' k. unfold with_text; simpl. by destruct (m _). Qed.
#[export] Instance blind_bind {A B} (m : M A) (f : A → M B) :
  Blind m → (∀ a, Blind (f a)) → Blind (bind m f).
Proof.
  intros Hm Hf c c' k. unfold bind. pose proof (Hm c c' k) as H.
  destruct (m {| cur := c; cxl := k |}) as [a [c1 k1]| | |],
    (m {| cur := c'; cxl := k |}) as [a' [c2 k2]| | |]; try done.
  simpl in H. destruct H as (-> & -> & -> & ->). apply Hf.
Qed.

Ltac solve_blind :=
  intros; cbv beta;
  lazymatch goal with
  | |- Blind (bind _ _) => apply blind_bind; [solve_blind|intro; solve_blind]
  | |- Blind (match ?x with _ => _ end) => destruct x; solve_blind
  | |- _ => apply _
  end.

(** An action between two checks, under any token and cursor: a result is the
    one of a fresh token. *)
Definition guarded {A B} (m : M A) (f : A → B) : M B :=
  check ;;; let* a := m in check ;;; ret (f a).

Lemma guarded_transparent {A B} (m : M A) (f : A → B) st b st' :
  Faithful m → Blind m → guarded m f st = Done b st' → run_fresh (guarded m f) = Some b.
Proof.
  intros Hf Hb. unfold guarded at 1. unfold bind at 1. unfold check at 1.
  destruct (token_check (cxl st)) as [[] k0]; [|done].
  unfold bind at 1. destruct (m _) as [a s1| | |] eqn:E; try done.
  unfold bind at 1, check, ret at 1. destruct (token_check (cxl s1)) as [[] k] eqn:Ek; [|done].
  intros [= <- <-].
  assert (cxl s1 ≠ Some 0) as Hne by (intros Hz; by rewrite Hz in Ek).
  pose proof (faithful_run (m := m) _ _ _ E Hne) as Hr.
  pose proof (Hb (cur st) (cursor_of []) None) as Hbl. unfold uncancel in Hr. simpl in Hr.
  rewrite Hr in Hbl. unfold run_fresh, guarded, bind. unfold check at 1; simpl.
  destruct (m {| cur := cursor_of []; cxl := None |}) as [a' s2| | |] eqn:E2; try done.
  destruct Hbl as (<- & Hc & _). simpl in Hc. unfold check. by rewrite <- Hc.
Qed.

Lemma guarded_total {A B} (m : M A) (f : A → B) : Faithful m → Total m →
  Faithful (guarded m f) ∧ Total (guarded m f).
Proof. intros. unfold guarded. split; [solve_faithful|solve_total]. Qed.

(** A total action always answers on a fresh token. *)
Lemma run_fresh_total {A} (m : M A) : Faithful m → Total m → is_Some (run_fresh m).
Proof.
  intros Hf Ht. destruct (run_fresh_wp m _ Hf (Ht [] 0 _ (Safe_cursor_of [] None)))
    as (a & st & -> & _). eauto.
Qed.

(** ** More rules *)
Lemma At_app_rest input pre c st st' :
  At input pre st → At input (pre ++ c) st' → rest (cur st) = c ++ rest (cur st').
Proof.
  intros (H1 & _) (H2 & _). rewrite H1 in H2. rewrite <- app_assoc in H2. by simplify_list_eq.
Qed.

Lemma wp_skip_while input pre st p (Q : unit → St → Prop) :
  At input pre st →
  (∀ c st', At input (pre ++ c) st' → forallb p c = true →
     ended st' ∨ (∃ ch, Peeked input (pre ++ c) ch st' ∧ p ch = false) → Q tt st') →
  wp (skip_while (λ _, p)) Q st.
Proof.
  intros HA HQ.
  eapply (wp_while_peek input _ (λ pre' _, ∃ c, pre' = pre ++ c ∧ forallb p c = true));
    [done|exists []; by rewrite app_nil_r| | | |].
  - intros pre' ch [] [] (c & -> & Hc) _ Hb. destruct (p ch) eqn:E; [|done].
    exists (c ++ [ch]). rewrite app_assoc, forallb_app, Hc. simpl. by rewrite E.
  - intros pre' [] st' (c & -> & Hc) HA' He. eauto.
  - intros pre' ch [] st' (c & -> & Hc) HP Hb. destruct (p ch) eqn:E; [done|].
    apply (HQ c); [by eapply Peeked_At|done|eauto].
  - intros pre' ch [] acc' st' _ Hb. by destruct (p ch).
Qed.

(** ** Reading on a fresh token

    [reads m t a t']: on an uncancelled cursor whose remaining text is [t], [m]
    answers [a] and leaves [t']. *)
Definition fresh_at (t : text) (st : St) : Prop :=
  cxl st = None ∧ finished (cur st) = false ∧ rest (cur st) = t.
Definition reads {A} (m : M A) (t : text) (a : A) (t' : text) : Prop :=
  ∀ st, fresh_at t st → ∃ st', m st = Done a st' ∧ fresh_at t' st'.

Lemma reads_ret {A} (a : A) t : reads (ret a) t a t.
Proof. intros st Hs. by exists st. Qed.
Lemma reads_bind {A B} (m : M A) (k : A → M B) t a t' b t'' :
  reads m t a t' → reads (k a) t' b t'' → reads (bind m k) t b t''.
Proof.
  intros Hm Hk st Hs. destruct (Hm st Hs) as (st' & E & Hs'). unfold bind. rewrite E. by apply Hk.
Qed.
Lemma reads_check t : reads check t tt t.
Proof. intros [c k] (Hc & ?). simpl in Hc. subst k. eexists. unfold check. simpl. by split. Qed.

Lemma reads_next_cons c t : reads (let* o := next in ret (snd <$> o)) (c :: t) (Some c) t.
Proof.
  intros [[r q n ad fin] k] (Hc & Hf & Hr). simpl in *; subst.
  unfold bind at 1, next, bind, peek, ret; simpl. destruct ad; [by eexists|].
  destruct (q <? n); by eexists.
Qed.
Lemma reads_next_nil : reads (let* o := next in ret (snd <$> o)) [] None [].
Proof.
  intros [[r q n ad fin] k] (Hc & Hf & Hr). simpl in *; subst.
  unfold bind at 1, next, bind, peek, ret; simpl. by eexists.
Qed.

Lemma reads_with_text {A} u (m : M A) t a u' : reads m u a u' → reads (with_text u m) t a t.
Proof.
  intros Hm st (Hc & Hf & Hr). unfold with_text.
  destruct (Hm {| cur := cursor_of u; cxl := cxl st |}) as (st' & -> & Hs'); [by rewrite Hc|].
  eexists. split; [done|]. destruct Hs' as [-> _]. by split.
Qed.

(** Loops, with any fuel above the remaining length. *)
Definition reads_loop {S R} (body : S → M (S + R)) (acc : S) (t : text) (b : R) (t' : text) : Prop :=
  ∀ fuel, length t < fuel → reads (iter_fuel body fuel acc) t b t'.
Lemma reads_loop_stop {S R} (body : S → M (S + R)) acc t b t' :
  reads (body acc) t (inr b) t' → reads_loop body acc t b t'.
Proof.
  intros Hb [|fuel] Hl; [lia|]. simpl. eapply reads_bind; [done|]. apply reads_ret.
Qed.
Lemma reads_loop_step {S R} (body : S → M (S + R)) acc acc' t t' b t'' :
  reads (body acc) t (inl acc') t' → length t' < length t →
  reads_loop body acc' t' b t'' → reads_loop body acc t b t''.
Proof.
  intros Hb Hl HL [|fuel] Hf; [lia|]. simpl. eapply reads_bind; [done|]. apply HL. lia.
Qed.
Lemma reads_iterate {S R} (body : S → M (S + R)) acc t b t' :
  reads_loop body acc t b t' → reads (iterate body acc) t b t'.
Proof.
  intros HL st Hs. unfold iterate, remaining, bind. pose proof Hs as (_ & _ & Hr).
  apply HL; [rewrite Hr; lia|done].
Qed.

Lemma reads_skip_while p c t :
  forallb p c = true → starts_with_char p t = false →
  reads (skip_while (λ _, p)) (c ++ t) tt t.
Proof.
  intros Hc Ht. apply reads_iterate. induction c as [|x c IH]; simpl in Hc |- *.
  - apply reads_loop_stop. intros [[r q n ad fin] k] (Hk & Hf & Hr). simpl in *; subst.
    unfold bind, peek; simpl. destruct t as [|y t]; [by eexists|]. simpl in Ht.
    destruct ad; [|destruct (q <? n)]; simpl; rewrite Ht; by eexists.
  - apply andb_true_iff in Hc as [Hx Hc].
    eapply (reads_loop_step _ _ tt _ (c ++ t)); [|simpl; lia|by apply IH].
    intros [[r q n ad fin] k] (Hk & Hf & Hr). simpl in *; subst. unfold bind, next, bind, peek; simpl.
    destruct ad; [|destruct (q <? n)]; simpl; rewrite Hx; by eexists.
Qed.

Lemma reads_run_fresh {A} (m : M A) a t' : reads m [] a t' → run_fresh m = Some a.
Proof.
  intros Hm. unfold run_fresh.
  by destruct (Hm {| cur := cursor_of []; cxl := None |}) as (st' & -> & _).
Qed.

Lemma wp_check_live (Q : unit → St → Prop) st :
  (cxl st ≠ Some 0 → ∀ st', cur st' = cur st → (cxl st = None → cxl st' = None) → Q tt st') →
  wp check Q st.
Proof.
  intros HQ. unfold wp, check. destruct (cxl st) as [[|k]|]; simpl; [done|by apply HQ..].
Qed.
