(* ===== verification/Literal.v ===== *)
(** * Literal spellings: integers, strings, characters and their escapes

    Models [kagari-source/src/literal.rs].  A decoder that polls a token is an
    action of the scanning monad; its inner [Result] is a [result _ string], its
    [Err(Cancelled)] the outcome [Stopped].  A decoder that takes an iterator of
    characters reads the cursor. *)
From Stdlib Require Import Ascii.
From S2P Require Import Prelude Integer Text.
Open Scope nat_scope.

(** ** Integer spellings *)
Definition type_suffixes : list string :=
  ["i64"; "u64"; "i32"; "u32"; "i16"; "u16"; "i8"; "u8"; "f32"; "f64"].
Definition non_decimal_prefixes : list string := ["0x"; "0o"; "0b"].

Fixpoint numeric_suffix_in (suffixes : list string) (t : text) : text * option text :=
  match suffixes with
  | [] => (t, None)
  | suffix :: more =>
      let suffix := text_of suffix in
      if starts_with_char (λ c, is_ch c "f") suffix
         && existsb (λ prefix, starts_with (text_of prefix) t) non_decimal_prefixes
      then numeric_suffix_in more t
      else match strip_suffix suffix t with
           | Some digits => (digits, Some suffix)
           | None => numeric_suffix_in more t
           end
  end.
(** The source slices the suffix out of the text again: it is the one stripped. *)
Definition numeric_literal_parts (t : text) : text * option text :=
  numeric_suffix_in type_suffixes t.

Definition integer_radix (t : text) : Z * text :=
  match strip_prefix (text_of "0b") t with
  | Some digits => (2%Z, digits)
  | None =>
      match strip_prefix (text_of "0o") t with
      | Some digits => (8%Z, digits)
      | None =>
          match strip_prefix (text_of "0x") t with
          | Some digits => (16%Z, digits)
          | None => (10%Z, t)
          end
      end
  end.

Definition integer_digits (t : text) : result (Z * text) string :=
  let '(t, suffix) := numeric_literal_parts t in
  if match suffix with Some s => starts_with_char (λ c, is_ch c "f") s | None => false end
  then Err "floating-point suffix on integer literal"
  else
    let '(radix, digits) := integer_radix t in
    if negb (existsb (is_digit radix) digits) then Err "invalid integer literal"
    else if negb (forallb (λ c, is_ch c "_" || is_digit radix c) digits)
    then Err "invalid integer literal"
    else Ok (radix, digits).

Definition is_integer_literal (t : text) : bool := is_ok (integer_digits t).

(** [u64::from_str_radix]. *)
Fixpoint from_digits (radix acc : Z) (t : text) : option Z :=
  match t with
  | [] => Some acc
  | c :: t =>
      d ← to_digit radix c;
      m ← Std.checked_mul 64 false acc radix;
      s ← Std.checked_add 64 false m d;
      from_digits radix s t
  end.
Definition from_str_radix (t : text) (radix : Z) : option Z :=
  match t with
  | [] => None
  | c :: r =>
      if is_ch c "+" || is_ch c "-" then
        match r with [] => None | _ => if is_ch c "+" then from_digits radix 0 r else None end
      else from_digits radix 0 t
  end.

Definition parse_integer_literal (t : text) : result Z string :=
  let? x := integer_digits t in
  let compact := base.filter (λ c, negb (is_ch c "_")) x.2 in
  ok_or (from_str_radix compact x.1) "integer literal is outside the u64 range".

(** ** String delimiters *)
Inductive StringDelimiter : Set := Cooked | Raw (hashes : nat).
#[export] Instance StringDelimiter_eq_dec : EqDecision StringDelimiter.
Proof. solve_decision. Defined.

(** The loop over the bytes after [r]; [hashes] is a [u8]. *)
Fixpoint raw_opening (hashes : nat) (t : text) : result (option (StringDelimiter * nat)) string :=
  match t with
  | [] => Err "invalid raw String opening delimiter"
  | c :: t =>
      if (c =? QUOTE)%Z then Ok (Some (Raw hashes, hashes + 2))
      else if is_ch c "#" then
        if hashes <? 255 then raw_opening (S hashes) t
        else Err "raw String has more than 255 hashes"
      else Err "invalid raw String opening delimiter"
  end.

Definition opening (t : text) : result (option (StringDelimiter * nat)) string :=
  if starts_with [QUOTE] t then Ok (Some (Cooked, 1))
  else match strip_prefix (text_of "r") t with
  | None => Ok None
  | Some rest =>
      if negb (starts_with_char (λ c, is_ch c "#" || (c =? QUOTE)%Z) rest) then Ok None
      else raw_opening 0 rest
  end.

Definition delimiter_hashes (d : StringDelimiter) : nat :=
  match d with Cooked => 0 | Raw hashes => hashes end.

Definition closing_len (d : StringDelimiter) (t : text) : option nat :=
  let hashes := delimiter_hashes d in
  match t with
  | c :: t =>
      if (c =? QUOTE)%Z && starts_with (replicate hashes (chr "#")) t then Some (1 + hashes)
      else None
  | [] => None
  end.

Definition string_content (t : text) : result (StringDelimiter * text) string :=
  let? o := opening t in
  let? d := ok_or o "invalid String opening delimiter" in
  let '(delimiter, opening) := d in
  let closing := delimiter_hashes delimiter + 1 in
  if (closing <=? blen t) && (opening <=? blen t - closing) then
    let end_ := blen t - closing in
    if bool_decide ((suffix_at end_ t ≫= closing_len delimiter) = Some closing) then
      let? content := ok_or (slice t opening end_) "invalid String delimiter boundary" in
      Ok (delimiter, content)
    else Err "unterminated String literal"
  else Err "unterminated String literal".

(** ** Escapes, over an iterator of characters *)
Definition next_char : M (option Z) := let* o := next in ret (snd <$> o).
Definition peek_char : M (option Z) := let* o := peek in ret (snd <$> o).

(** [for _ in 0..n] of the [\x] escape. *)
Fixpoint hex_digits (n : nat) (value : Z) : M (result Z string) :=
  match n with
  | O => ret (Ok value)
  | S n =>
      let* o := next_char in
      match o ≫= to_digit 16 with
      | Some digit => hex_digits n (value * 16 + digit)%Z
      | None => ret (Err "invalid ASCII escape")
      end
  end.

(** The loop of the [\u] escape, after its opening brace: one round on the
    character it took. *)
Definition unicode_round (acc : Z * nat) (o : option Z) : M (Z * nat + result Z string) :=
  let '(value, digits) := acc in
  match o with
  | Some c =>
      if is_ch c "}" && (0 <? digits) then ret (inr (Ok value))
      else if is_ch c "_" && (0 <? digits) then ret (inl (value, digits))
      else if is_ascii_hexdigit c && (digits <? 6) then
        match to_digit 16 c with
        | Some d => ret (inl ((value * 16 + d)%Z, S digits))
        | None => panic
        end
      else ret (inr (Err "invalid Unicode escape"))
  | None => ret (inr (Err "invalid Unicode escape"))
  end.
Definition unicode_digits : M (result Z string) :=
  iterate (λ acc, let* o := next_char in unicode_round acc o) (0%Z, 0).

Definition scalar_of (value : Z) : result Z string :=
  ok_or (char_from_u32 value) "invalid Unicode scalar".

(** [decode_escape] after its iterator has yielded [first]. *)
Definition decode_escape_from (first : option Z) (byte : bool) : M (result Z string) :=
  match first with
  | None => ret (Err "invalid char escape")
  | Some c =>
      if is_ch c "'" || (c =? QUOTE)%Z || is_ch c "\" then ret (Ok c)
      else if is_ch c "n" then ret (Ok LF)
      else if is_ch c "r" then ret (Ok CR)
      else if is_ch c "t" then ret (Ok TAB)
      else if is_ch c "0" then ret (Ok NUL)
      else if is_ch c "x" then
        let* value := hex_digits 2 0 in
        ret (let? value := value in
             if negb byte && (0x7f <? value)%Z then Err "char hexadecimal escape must be ASCII"
             else scalar_of value)
      else if is_ch c "u" then
        if byte then ret (Err "Unicode escapes are forbidden in byte literals")
        else
          let* brace := next_char in
          if bool_decide (brace = Some (chr "{")) then
            let* value := unicode_digits in ret (let? value := value in scalar_of value)
          else ret (Err "invalid Unicode escape")
      else ret (Err "invalid char escape")
  end.
Definition decode_escape (byte : bool) : M (result Z string) :=
  let* first := next_char in decode_escape_from first byte.

(** ** String contents; the characters pushed so far are the loop's state. *)
Definition string_round (cooked byte : bool) (value : text) (o : option Z)
    : M (text + result text string) :=
  match o with
  | None => ret (inr (Ok value))
  | Some ch =>
      if byte && negb (is_ascii ch)
      then ret (inr (Err "direct byte literal text must be ASCII"))
      else if (ch =? CR)%Z then
        let* n := next_char in
        if bool_decide (n = Some LF) then ret (inl (value ++ [LF]))
        else ret (inr (Err "standalone CR in String literal"))
      else if is_ch ch "\" && cooked then
        let* n := next_char in
        match n with
        | None => ret (inr (Err "incomplete String escape"))
        | Some n =>
            if (n =? LF)%Z || (n =? CR)%Z then
              let* broken :=
                (if (n =? CR)%Z
                 then let* m := next_char in ret (negb (bool_decide (m = Some LF)))
                 else ret false) in
              if broken : bool
              then ret (inr (Err "String continuation requires LF or CRLF"))
              else
                skip_while (λ _ c, is_ch c " " || (c =? TAB) || (c =? CR) || (c =? LF))%Z ;;;
                ret (inl value)
            else
              let* c := decode_escape_from (Some n) byte in
              match c with
              | Ok c => ret (inl (value ++ [c]))
              | Err reason => ret (inr (Err reason))
              end
        end
      else if (is_ch ch "{" || is_ch ch "}") && cooked && negb byte then
        let* n := next_char in
        if bool_decide (n = Some ch) then ret (inl (value ++ [ch]))
        else ret (inr (Err
          "String text requires doubled braces; interpolation requires a name binding"))
      else if (ch =? QUOTE)%Z && cooked
      then ret (inr (Err "unescaped quote in String text"))
      else ret (inl (value ++ [ch]))
  end.
Definition decode_string_characters (cooked byte : bool) : M (result text string) :=
  iterate (λ value, let* o := next_char in string_round cooked byte value o) [].

Definition decode_string_content (content : text) (cooked byte : bool) : M (result text string) :=
  let* decoded := with_text content (decode_string_characters cooked byte) in
  check ;;; ret decoded.

(** The scan of a raw string for a closing delimiter inside its content, with
    its own polling counter; [true] leaves with the error. *)
Fixpoint raw_delimiter_inside (d : StringDelimiter) (index next_check : nat) (t : text) : M bool :=
  match t with
  | [] => ret false
  | ch :: t' =>
      let* next_check :=
        (if next_check <=? index then check ;;; ret (index + CANCELLATION_CHECK_BYTES)
         else ret next_check) in
      if (ch =? QUOTE)%Z && bool_decide (is_Some (closing_len d t)) then ret true
      else raw_delimiter_inside d (index + len_utf8 ch) next_check t'
  end.

Definition decode_string_literal_inner (t : text) (byte : bool) : M (result text string) :=
  match string_content t with
  | Err reason => ret (Err reason)
  | Ok (Cooked, content) => decode_string_content content true byte
  | Ok (Raw hashes, content) =>
      let* inside := raw_delimiter_inside (Raw hashes) 0 CANCELLATION_CHECK_BYTES content in
      if inside : bool then ret (Err "unexpected text after raw String delimiter")
      else decode_string_content content false byte
  end.

Definition decode_string_literal_with_cancellation (t : text) : M (result text string) :=
  check ;;;
  let* decoded := decode_string_literal_inner t false in
  check ;;; ret decoded.
Definition decode_string_literal (t : text) : option (result text string) :=
  run_fresh (decode_string_literal_with_cancellation t).

(** [ch as u8]. *)
Definition as_u8 (c : Z) : Z := (c mod 256)%Z.

Definition decode_byte_string_literal_with_cancellation (t : text) : M (result (list Z) string) :=
  check ;;;
  let* decoded :=
    match strip_prefix (text_of "b") t with
    | Some t => decode_string_literal_inner t true
    | None => ret (Err "invalid byte string prefix")
    end in
  check ;;; ret (res_map (map as_u8) decoded).
Definition decode_byte_string_literal (t : text) : option (result (list Z) string) :=
  run_fresh (decode_byte_string_literal_with_cancellation t).

Definition decode_string_fragment_with_cancellation (content : text) : M (result text string) :=
  check ;;;
  let* decoded := decode_string_content content true false in
  check ;;; ret decoded.
Definition decode_string_fragment (content : text) : option (result text string) :=
  run_fresh (decode_string_fragment_with_cancellation content).

(** ** Character literals; [content.chars()] polls nothing. *)

(** The end of [decode_character]: nothing may follow the value. *)
Definition character_end (byte : bool) (value : Z) : M (result Z string) :=
  let* more := next_char in
  ret (match more with
       | Some _ => Err (if byte then "byte character literal must contain exactly one byte"
                        else "char literal must contain exactly one Unicode scalar")
       | None => Ok value
       end).
Definition decode_character_content (byte : bool) : M (result Z string) :=
  let* first := next_char in
  let* value :=
    match first with
    | None => ret (Err "empty char literal")
    | Some c =>
        if is_ch c "\" then decode_escape byte
        else if (c =? TAB)%Z || (c =? CR)%Z || (c =? LF)%Z
        then ret (Err "direct whitespace in char literal")
        else if is_ch c "'" then ret (Err "unescaped apostrophe in char literal")
        else if byte && negb (is_ascii c)
        then ret (Err "direct byte literal text must be ASCII")
        else ret (Ok c)
    end in
  match value with
  | Err reason => ret (Err reason)
  | Ok value => character_end byte value
  end.

(** [None] is a panic. *)
Definition decode_character (t : text) (byte : bool) : option (result Z string) :=
  match strip_prefix (text_of "'") t ≫= strip_suffix (text_of "'") with
  | None => Some (Err "unterminated char literal")
  | Some content => run_fresh (with_text content (decode_character_content byte))
  end.
Definition decode_char_literal (t : text) : option (result Z string) := decode_character t false.
Definition decode_byte_char_literal (t : text) : option (result Z string) :=
  match strip_prefix (text_of "b") t with
  | None => Some (Err "invalid byte character prefix")
  | Some t => res_map as_u8 <$> decode_character t true
  end.

Example decode_char_euro :
  decode_char_literal (text_of "'\u{20_AC}'") = Some (Ok 0x20AC%Z).
Proof. vm_compute. reflexivity. Qed.
Example decode_continuation :
  decode_string_fragment (text_of "a{{\" ++ [CR; LF; TAB] ++ text_of "b\x41") = Some (Ok (text_of "a{bA")).
Proof. vm_compute. reflexivity. Qed.

(** ** Decoders are total, transparent to cancellation and blind to the cursor *)
#[export] Instance faithful_next_char : Faithful next_char.
Proof. unfold next_char. apply _. Qed.
#[export] Instance pulls_next_char : Pulls next_char.
Proof.
  intros input n st Hs. eapply wp_bind_inv; [by apply pulls_next|]. by intros [[]|] st'.
Qed.
#[export] Instance total_next_char : Total next_char.
Proof. apply pulls_total, _. Qed.
#[export] Instance faithful_hex_digits n v : Faithful (hex_digits n v).
Proof. revert v. induction n; simpl; solve_faithful. Qed.
#[export] Instance total_hex_digits n v : Total (hex_digits n v).
Proof. revert v. induction n; simpl; solve_total. Qed.
#[export] Instance faithful_unicode_digits : Faithful unicode_digits.
Proof. unfold unicode_digits, unicode_round. solve_faithful. Qed.

#[export] Instance total_unicode_digits : Total unicode_digits.
Proof.
  apply total_iterate_pull; [apply _|intros [v d]; eauto|]. intros [v d] c. unfold unicode_round.
  destruct (_ && _); [apply _|]. destruct (_ && _); [apply _|].
  destruct (is_ascii_hexdigit c) eqn:E; [|apply _]. simpl. unfold is_ascii_hexdigit, is_digit in E.
  apply bool_decide_eq_true_1 in E as [x ->]. solve_total.
Qed.
#[export] Instance faithful_decode_escape_from o byte : Faithful (decode_escape_from o byte).
Proof. unfold decode_escape_from. solve_faithful. Qed.
#[export] Instance total_decode_escape_from o byte : Total (decode_escape_from o byte).
Proof. unfold decode_escape_from. solve_total. Qed.
#[export] Instance faithful_decode_string_characters cooked byte :
  Faithful (decode_string_characters cooked byte).
Proof. unfold decode_string_characters, string_round. solve_faithful. Qed.
#[export] Instance total_decode_string_characters cooked byte :
  Total (decode_string_characters cooked byte).
Proof.
  apply total_iterate_pull; [apply _|simpl; eauto|]. intros acc c. unfold string_round. solve_total.
Qed.

#[export] Instance faithful_decode_string_content content cooked byte :
  Faithful (decode_string_content content cooked byte).
Proof. unfold decode_string_content. solve_faithful. Qed.
#[export] Instance total_decode_string_content content cooked byte :
  Total (decode_string_content content cooked byte).
Proof. unfold decode_string_content. solve_total. Qed.
#[export] Instance blind_decode_string_content content cooked byte :
  Blind (decode_string_content content cooked byte).
Proof. unfold decode_string_content. solve_blind. Qed.

#[export] Instance faithful_raw_delimiter_inside d i n t : Faithful (raw_delimiter_inside d i n t).
Proof. revert i n. induction t; simpl; solve_faithful. Qed.
#[export] Instance total_raw_delimiter_inside d i n t : Total (raw_delimiter_inside d i n t).
Proof. revert i n. induction t; simpl; solve_total. Qed.
#[export] Instance blind_raw_delimiter_inside d i n t : Blind (raw_delimiter_inside d i n t).
Proof. revert i n. induction t; simpl; solve_blind. Qed.

#[export] Instance faithful_decode_inner t byte : Faithful (decode_string_literal_inner t byte).
Proof. unfold decode_string_literal_inner. solve_faithful. Qed.
#[export] Instance total_decode_inner t byte : Total (decode_string_literal_inner t byte).
Proof. unfold decode_string_literal_inner. solve_total. Qed.
#[export] Instance blind_decode_inner t byte : Blind (decode_string_literal_inner t byte).
Proof. unfold decode_string_literal_inner. solve_blind. Qed.

#[export] Instance total_decode_string t : Total (decode_string_literal_with_cancellation t).
Proof. unfold decode_string_literal_with_cancellation. solve_total. Qed.
#[export] Instance faithful_decode_string t : Faithful (decode_string_literal_with_cancellation t).
Proof. unfold decode_string_literal_with_cancellation. solve_faithful. Qed.
#[export] Instance total_decode_byte_string t : Total (decode_byte_string_literal_with_cancellation t).
Proof. unfold decode_byte_string_literal_with_cancellation. solve_total. Qed.
#[export] Instance faithful_decode_byte_string t :
  Faithful (decode_byte_string_literal_with_cancellation t).
Proof. unfold decode_byte_string_literal_with_cancellation. solve_faithful. Qed.
#[export] Instance total_decode_fragment t : Total (decode_string_fragment_with_cancellation t).
Proof. unfold decode_string_fragment_with_cancellation. solve_total. Qed.
#[export] Instance faithful_decode_fragment t : Faithful (decode_string_fragment_with_cancellation t).
Proof. unfold decode_string_fragment_with_cancellation. solve_faithful. Qed.

(** What a guarded decoder answers from any state. *)
Definition answers {A} (m : M A) (st : St) (fresh : option A) : Prop :=
  match m st with
  | Done r _ => fresh = Some r
  | Stopped => cxl st ≠ None
  | Panicked | OutOfFuel => False
  end.

Lemma guarded_answers {A B} (m : M A) (f : A → B) st : Faithful m → Total m → Blind m →
  answers (guarded m f) st (run_fresh (guarded m f)).
Proof.
  intros Hf Ht Hb. destruct (guarded_total m f Hf Ht) as [Hgf Hgt].
  assert (Blind (guarded m f)) as Hgb by (unfold guarded; solve_blind).
  pose proof (Hgt [] 0 _ (Safe_cursor_of [] (cxl st))) as Hw. unfold wp in Hw.
  specialize (Hgb (cur st) (cursor_of []) (cxl st)).
  pose proof (guarded_transparent m f st) as Htr.
  pose proof (faithful_fresh (m := guarded m f) st) as Hfr.
  unfold answers. destruct st as [c k]; simpl in *.
  destruct (guarded m f {| cur := c; cxl := k |}) as [b s| | |]; [by eapply Htr|auto|..];
    by destruct (guarded m f {| cur := cursor_of []; cxl := k |}).
Qed.

Lemma decode_string_answers t st :
  answers (decode_string_literal_with_cancellation t) st (decode_string_literal t).
Proof. apply (guarded_answers (decode_string_literal_inner t false) id); apply _. Qed.
Lemma decode_byte_string_answers t st :
  answers (decode_byte_string_literal_with_cancellation t) st (decode_byte_string_literal t).
Proof.
  apply (guarded_answers (match strip_prefix (text_of "b") t with
    | Some t => decode_string_literal_inner t true
    | None => ret (Err "invalid byte string prefix") end) (res_map (map as_u8)));
    [solve_faithful|solve_total|solve_blind].
Qed.
Lemma decode_fragment_answers t st :
  answers (decode_string_fragment_with_cancellation t) st (decode_string_fragment t).
Proof. apply (guarded_answers (decode_string_content t true false) id); apply _. Qed.

#[export] Instance faithful_decode_character byte : Faithful (decode_character_content byte).
Proof. unfold decode_character_content, decode_escape, character_end. solve_faithful. Qed.
#[export] Instance total_decode_character byte : Total (decode_character_content byte).
Proof. unfold decode_character_content, decode_escape, character_end. solve_total. Qed.

Lemma decode_char_total t : is_Some (decode_char_literal t).
Proof.
  unfold decode_char_literal, decode_character. case_match; [|eauto].
  apply run_fresh_total; solve_faithful || solve_total.
Qed.
Lemma decode_byte_char_total t : is_Some (decode_byte_char_literal t).
Proof.
  unfold decode_byte_char_literal, decode_character. case_match; [|eauto]. apply fmap_is_Some.
  case_match; [|eauto]. apply run_fresh_total; solve_faithful || solve_total.
Qed.

(** C26: no literal decoder panics or diverges, and none is disturbed by
    cancellation: on a fresh token every decoder returns, and under any token a
    decoder that is not cancelled returns exactly what it returns on a fresh
    one, so neither cancellation nor a partial value can be taken for a result. *)
Theorem literal_decoders_transparent :
  (∀ t, is_Some (decode_char_literal t) ∧ is_Some (decode_byte_char_literal t)
        ∧ is_Some (decode_string_literal t) ∧ is_Some (decode_byte_string_literal t)
        ∧ is_Some (decode_string_fragment t))
  ∧ (∀ t st,
      answers (decode_string_literal_with_cancellation t) st (decode_string_literal t)
      ∧ answers (decode_byte_string_literal_with_cancellation t) st (decode_byte_string_literal t)
      ∧ answers (decode_string_fragment_with_cancellation t) st (decode_string_fragment t)).
Proof.
  split.
  - intros t. split_and!; try apply run_fresh_total; try apply _.
    + apply decode_char_total.
    + apply decode_byte_char_total.
  - auto using decode_string_answers, decode_byte_string_answers, decode_fragment_answers.
Qed.
