(* ===== verification/LiteralGrammar.v ===== *)
(** * The grammar of string literals

    A declarative grammar of string contents and of whole literals, and the
    theorem that the decoders of [Literal] accept exactly that grammar and
    return the value it assigns. *)
From Stdlib Require Import Ascii.
From S2P Require Import Prelude Integer Text Literal.
Open Scope nat_scope.

(** ** Escapes, after the backslash *)

(** The digits between the braces of a Unicode escape: one to six hexadecimal
    digits, with underscores after the first. *)
Inductive unicode_spelling : Z → nat → text → Z → Prop :=
| us_end value digits : 0 < digits → unicode_spelling value digits [] value
| us_underscore value digits t v :
    0 < digits → unicode_spelling value digits t v →
    unicode_spelling value digits (chr "_" :: t) v
| us_digit value digits c d t v :
    digits < 6 → to_digit 16 c = Some d →
    unicode_spelling (value * 16 + d)%Z (S digits) t v →
    unicode_spelling value digits (c :: t) v.

Inductive escape_spelling (byte : bool) : text → Z → Prop :=
| es_same c : c = chr "'" ∨ c = QUOTE ∨ c = chr "\" → escape_spelling byte [c] c
| es_newline : escape_spelling byte [chr "n"] LF
| es_return : escape_spelling byte [chr "r"] CR
| es_tab : escape_spelling byte [chr "t"] TAB
| es_nul : escape_spelling byte [chr "0"] NUL
| es_hex a b da db :
    to_digit 16 a = Some da → to_digit 16 b = Some db →
    byte = true ∨ (da * 16 + db <= 0x7f)%Z →
    escape_spelling byte [chr "x"; a; b] (da * 16 + db)%Z
| es_unicode ds v :
    byte = false → unicode_spelling 0 0 ds v → char_from_u32 v = Some v →
    escape_spelling byte (chr "u" :: chr "{" :: ds ++ [chr "}"]) v.

(** ** Contents *)
Definition blank (c : Z) : bool := is_ch c " " || (c =? TAB)%Z || (c =? CR)%Z || (c =? LF)%Z.
Definition is_brace (c : Z) : bool := is_ch c "{" || is_ch c "}".

(** A character that stands for itself. *)
Definition direct (cooked byte : bool) (c : Z) : bool :=
  negb (byte && negb (is_ascii c)) && negb (c =? CR)%Z
  && negb (cooked && (is_ch c "\" || (c =? QUOTE)%Z))
  && negb (cooked && negb byte && is_brace c).

Inductive content_spelling (cooked byte : bool) : text → text → Prop :=
| cs_nil : content_spelling cooked byte [] []
| cs_direct c t s :
    direct cooked byte c = true → content_spelling cooked byte t s →
    content_spelling cooked byte (c :: t) (c :: s)
| cs_crlf t s :
    content_spelling cooked byte t s →
    content_spelling cooked byte (CR :: LF :: t) (LF :: s)
| cs_brace c t s :
    cooked = true → byte = false → is_brace c = true → content_spelling cooked byte t s →
    content_spelling cooked byte (c :: c :: t) (c :: s)
| cs_escape e v t s :
    cooked = true → escape_spelling byte e v → content_spelling cooked byte t s →
    content_spelling cooked byte (chr "\" :: e ++ t) (v :: s)
| cs_continuation nl ws t s :
    cooked = true → nl = [LF] ∨ nl = [CR; LF] → forallb blank ws = true →
    starts_with_char blank t = false → content_spelling cooked byte t s →
    content_spelling cooked byte (chr "\" :: nl ++ ws ++ t) s.

(** Whole literals: a raw one has at most 255 hashes and no closing delimiter
    inside its content. *)
Notation hashes n := (replicate n (chr "#")).
Definition opener (d : StringDelimiter) : text :=
  match d with Cooked => [QUOTE] | Raw n => chr "r" :: hashes n ++ [QUOTE] end.
Definition closer (d : StringDelimiter) : text := QUOTE :: hashes (delimiter_hashes d).

Inductive literal_spelling (byte : bool) : text → text → Prop :=
| ls_cooked t s :
    content_spelling true byte t s →
    literal_spelling byte (opener Cooked ++ t ++ closer Cooked) s
| ls_raw n t s :
    n ≤ 255 →
    (∀ p q, t = p ++ q → ∀ r, q ≠ closer (Raw n) ++ r) →
    content_spelling false byte t s →
    literal_spelling byte (opener (Raw n) ++ t ++ closer (Raw n)) s.

(** Character literals. *)
Definition direct_char (byte : bool) (c : Z) : bool :=
  negb (is_ch c "\") && negb (c =? TAB)%Z && negb (c =? CR)%Z && negb (c =? LF)%Z
  && negb (is_ch c "'") && negb (byte && negb (is_ascii c)).
Inductive char_spelling (byte : bool) : text → Z → Prop :=
| chs_direct c : direct_char byte c = true → char_spelling byte [chr "'"; c; chr "'"] c
| chs_escape e v : escape_spelling byte e v →
    char_spelling byte (chr "'" :: chr "\" :: e ++ [chr "'"]) v.

(** ** The decoders read the grammar *)
Lemma reads_next_char_cons c t : reads next_char (c :: t) (Some c) t.
Proof. apply reads_next_cons. Qed.
Lemma reads_next_char_nil : reads next_char [] None [].
Proof. apply reads_next_nil. Qed.

Lemma is_ch_true c a : is_ch c a = true ↔ c = chr a.
Proof. unfold is_ch. apply Z.eqb_eq. Qed.
Lemma is_ch_false c a : is_ch c a = false ↔ c ≠ chr a.
Proof. unfold is_ch. apply Z.eqb_neq. Qed.

Lemma to_digit_range r c d : to_digit r c = Some d → (0 <= d < r)%Z.
Proof.
  unfold to_digit, between. change (chr "0") with 48%Z. change (chr "9") with 57%Z.
  change (chr "a") with 97%Z. change (chr "z") with 122%Z. change (chr "A") with 65%Z.
  change (chr "Z") with 90%Z. intros H.
  repeat (case_match; simplify_eq/=); lia.
Qed.

Lemma hex_digit_char c d : to_digit 16 c = Some d →
  is_ch c "_" = false ∧ is_ch c "}" = false ∧ is_ascii_hexdigit c = true.
Proof.
  intros H. split_and!.
  - apply is_ch_false. intros ->. by vm_compute in H.
  - apply is_ch_false. intros ->. by vm_compute in H.
  - unfold is_ascii_hexdigit, is_digit. apply bool_decide_eq_true_2. eauto.
Qed.

Lemma reads_unicode_loop value digits ds v t :
  unicode_spelling value digits ds v →
  reads_loop (λ acc, let* o := next_char in unicode_round acc o) (value, digits)
    (ds ++ chr "}" :: t) (Ok v) t.
Proof.
  induction 1 as [value digits Hd|value digits ds v Hd _ IH|value digits c d ds v Hd Hc _ IH].
  - apply reads_loop_stop. eapply reads_bind; [apply reads_next_char_cons|]. simpl.
    rewrite (proj2 (Nat.ltb_lt _ _) Hd). apply reads_ret.
  - eapply reads_loop_step; [|simpl; apply Nat.lt_succ_diag_r|exact IH].
    eapply reads_bind; [apply reads_next_char_cons|]. simpl.
    rewrite (proj2 (Nat.ltb_lt _ _) Hd). apply reads_ret.
  - destruct (hex_digit_char _ _ Hc) as (H1 & H2 & H3).
    eapply reads_loop_step; [|simpl; apply Nat.lt_succ_diag_r|exact IH].
    eapply reads_bind; [apply reads_next_char_cons|]. unfold unicode_round.
    rewrite H1, H2, H3, Hc. simpl. rewrite (proj2 (Nat.ltb_lt _ _) Hd). apply reads_ret.
Qed.

Lemma reads_escape byte e v t : escape_spelling byte e v →
  ∃ c e', e = c :: e' ∧ reads (decode_escape_from (Some c) byte) (e' ++ t) (Ok v) t.
Proof.
  destruct 1 as [c Hc| | | | |a b da db Ha Hb Hv|ds v Hb Hu Hs]; do 2 eexists; (split; [done|]).
  - destruct Hc as [-> | [-> | ->]]; apply reads_ret.
  - apply reads_ret.
  - apply reads_ret.
  - apply reads_ret.
  - apply reads_ret.
  - cbn [decode_escape_from]. cbn -[hex_digits scalar_of]. eapply reads_bind.
    { cbn [hex_digits]. eapply reads_bind; [apply reads_next_char_cons|]. simpl. rewrite Ha.
      eapply reads_bind; [apply reads_next_char_cons|]. simpl. rewrite Hb. apply reads_ret. }
    simpl. pose proof (to_digit_range _ _ _ Ha). pose proof (to_digit_range _ _ _ Hb).
    change ((0 * 16 + da) * 16 + db)%Z with (da * 16 + db)%Z.
    assert (negb byte && (0x7f <? da * 16 + db)%Z = false) as ->.
    { destruct Hv as [-> |]; [done|]. destruct byte; simpl; lia. }
    unfold scalar_of, char_from_u32.
    replace ((0 <=? da * 16 + db) && (da * 16 + db <=? 1114111)
      && negb ((55296 <=? da * 16 + db) && (da * 16 + db <=? 57343)))%Z with true by lia.
    apply reads_ret.
  - subst byte. cbn -[unicode_digits scalar_of bool_decide].
    eapply reads_bind; [apply reads_next_char_cons|]. rewrite bool_decide_eq_true_2 by done.
    eapply reads_bind.
    { rewrite <- app_assoc. apply reads_iterate. by apply reads_unicode_loop. }
    simpl. unfold scalar_of. rewrite Hs. apply reads_ret.
Qed.

Lemma string_round_direct cooked byte acc c : direct cooked byte c = true →
  string_round cooked byte acc (Some c) = ret (inl (acc ++ [c])).
Proof.
  unfold direct, is_brace, string_round. rewrite !andb_true_iff, !negb_true_iff.
  intros [[[-> ->] H3] H4]. destruct cooked; simpl in *.
  - apply orb_false_iff in H3 as [-> ->]. simpl. destruct byte; simpl in *.
    + by rewrite andb_false_r.
    + rewrite H4. done.
  - by rewrite !andb_false_r.
Qed.

Lemma snoc_app {A} (l : list A) x k : l ++ x :: k = (l ++ [x]) ++ k.
Proof. by rewrite <- app_assoc. Qed.

Lemma escape_head byte c e v : escape_spelling byte (c :: e) v →
  (c =? LF)%Z || (c =? CR)%Z = false.
Proof.
  inversion 1 as [c' Hc| | | | | |]; subst; [destruct Hc as [-> | [-> | ->]]|..]; reflexivity.
Qed.

(** The round of a backslash in a cooked string. *)
Lemma string_round_backslash byte acc :
  string_round true byte acc (Some (chr "\")) =
    let* n := next_char in
    match n with
    | None => ret (inr (Err "incomplete String escape"))
    | Some n =>
        if (n =? LF)%Z || (n =? CR)%Z then
          let* broken :=
            (if (n =? CR)%Z
             then let* m := next_char in ret (negb (bool_decide (m = Some LF)))
             else ret false) in
          if broken : bool
          then ret (inr (Err "String continuation requires LF or CRLF"))
          else skip_while (λ _, blank) ;;; ret (inl acc)
        else
          let* c := decode_escape_from (Some n) byte in
          match c with
          | Ok c => ret (inl (acc ++ [c]))
          | Err reason => ret (inr (Err reason))
          end
    end.
Proof. by destruct byte. Qed.

Lemma reads_content cooked byte t s : content_spelling cooked byte t s → ∀ acc,
  reads_loop (λ value, let* o := next_char in string_round cooked byte value o) acc
    t (Ok (acc ++ s)) [].
Proof.
  induction 1 as [|c t s Hd _ IH|t s _ IH|c t s -> -> Hc _ IH|e v t s -> He _ IH
                 |nl ws t s -> Hnl Hws Ht _ IH]; intros acc.
  - rewrite app_nil_r. apply reads_loop_stop. eapply reads_bind; [apply reads_next_char_nil|].
    apply reads_ret.
  - rewrite (snoc_app acc). eapply reads_loop_step; [|simpl; apply Nat.lt_succ_diag_r|apply IH].
    eapply reads_bind; [apply reads_next_char_cons|]. rewrite string_round_direct by done.
    apply reads_ret.
  - rewrite (snoc_app acc). eapply (reads_loop_step _ _ (acc ++ [LF]) _ t); [|simpl; lia|apply IH].
    eapply reads_bind; [apply reads_next_char_cons|]. cbn [string_round].
    rewrite andb_false_r. cbn -[bool_decide].
    eapply reads_bind; [apply reads_next_char_cons|]. rewrite bool_decide_eq_true_2 by done.
    apply reads_ret.
  - rewrite (snoc_app acc). eapply (reads_loop_step _ _ (acc ++ [c]) _ t); [|simpl; lia|apply IH].
    eapply reads_bind; [apply reads_next_char_cons|]. unfold string_round.
    unfold is_brace in Hc. rewrite Hc. apply orb_true_iff in Hc as [Hc|Hc];
      apply is_ch_true in Hc as ->; cbn -[bool_decide];
      (eapply reads_bind; [apply reads_next_char_cons|]; rewrite bool_decide_eq_true_2 by done;
       apply reads_ret).
  - destruct (reads_escape _ _ _ t He) as (c & e' & -> & Hr). rewrite (snoc_app acc).
    eapply (reads_loop_step _ _ (acc ++ [v]) _ t); [|simpl; rewrite length_app; lia|apply IH].
    eapply reads_bind; [apply reads_next_char_cons|]. rewrite string_round_backslash.
    eapply reads_bind; [apply reads_next_char_cons|]. cbv beta iota.
    rewrite (escape_head _ _ _ _ He). eapply reads_bind; [done|]. apply reads_ret.
  - eapply (reads_loop_step _ _ acc _ t); [|simpl; rewrite !length_app; lia|apply IH].
    eapply reads_bind; [apply reads_next_char_cons|]. rewrite string_round_backslash.
    assert (reads (skip_while (λ _, blank) ;;; ret (inl acc)) (ws ++ t)
      (@inl text (result text string) acc) t) as Hsk.
    { eapply reads_bind; [by apply reads_skip_while|]. apply reads_ret. }
    destruct Hnl as [-> | ->]; (eapply reads_bind; [apply reads_next_char_cons|]);
      cbv beta iota; cbn [Z.eqb LF CR orb Pos.eqb].
    + eapply reads_bind; [apply reads_ret|]. exact Hsk.
    + eapply reads_bind; [eapply reads_bind; [apply reads_next_char_cons|]; apply reads_ret|].
      rewrite bool_decide_eq_true_2 by done. exact Hsk.
Qed.

(** ** What the decoders accept is in the grammar *)
Definition On (input : text) (st : St) : Prop := ∃ pre, At input pre st.

Lemma wp_next_char input st (Q : option Z → St → Prop) :
  On input st →
  (∀ c st', On input st' → rest (cur st) = c :: rest (cur st') →
     finished (cur st) = false ∧ finished (cur st') = false → Q (Some c) st') →
  (∀ st', On input st' → rest (cur st') = rest (cur st) → ends st st' → Q None st') →
  wp next_char Q st.
Proof.
  intros [pre HA] HS HN. apply scan_bind. eapply wp_next; [done| |].
  - intros c st' HA' Hr Hf. apply scan_ret, HS; [by eexists|done..].
  - intros st' HA' Hr He. apply scan_ret, HN; [by eexists|done..].
Qed.

Lemma wp_unicode_digits input st : On input st →
  wp unicode_digits (λ r st', On input st' ∧ ∃ e, rest (cur st) = e ++ rest (cur st')
    ∧ ∀ v, r = Ok v → ∃ ds, e = ds ++ [chr "}"] ∧ unicode_spelling 0 0 ds v) st.
Proof.
  intros HO. remember (rest (cur st)) as t0 eqn:Ht0.
  eapply (wp_iterate (λ acc st, On input st ∧ ∃ ds, t0 = ds ++ rest (cur st)
    ∧ ∀ ds' v, unicode_spelling acc.1 acc.2 ds' v → unicode_spelling 0 0 (ds ++ ds') v)).
  { split; [done|]. exists []. auto. }
  clear st HO Ht0. intros [value digits] st1 (HO & ds & Heq & Hds). apply scan_bind. eapply wp_next_char; [done| |].
  - intros c st' HO' Hr _. rewrite Hr in Heq. simpl in Hds. unfold unicode_round.
    rewrite snoc_app in Heq. rewrite Hr. simpl.
    destruct (is_ch c "}" && (0 <? digits)) eqn:E1.
    { apply andb_true_iff in E1 as [->%is_ch_true E1%Nat.ltb_lt]. apply scan_ret.
      split; [done|]. eexists; split; [done|]. intros v [= <-]. exists ds. split; [done|].
      rewrite <- (app_nil_r ds). by apply Hds, us_end. }
    destruct (is_ch c "_" && (0 <? digits)) eqn:E2.
    { apply andb_true_iff in E2 as [->%is_ch_true E2%Nat.ltb_lt]. apply scan_ret.
      split; [|lia]. split; [done|]. eexists; split; [done|]. intros ds' v Hu. simpl in Hu.
      rewrite <- app_assoc. by apply Hds, us_underscore. }
    destruct (is_ascii_hexdigit c && (digits <? 6)) eqn:E3.
    { apply andb_true_iff in E3 as [E3 E4%Nat.ltb_lt].
      unfold is_ascii_hexdigit, is_digit in E3. apply bool_decide_eq_true_1 in E3 as [d Hd].
      rewrite Hd. apply scan_ret. split; [|lia]. split; [done|]. eexists; split; [done|].
      intros ds' v Hu. simpl in Hu. rewrite <- app_assoc. by eapply Hds, us_digit. }
    apply scan_ret. split; [done|]. by eexists.
  - intros st' HO' Hr _. apply scan_ret. split; [done|]. exists ds. by rewrite Hr.
Qed.

Lemma wp_hex_digits input n acc st : On input st →
  wp (hex_digits n acc) (λ r st', On input st' ∧ ∃ e, rest (cur st) = e ++ rest (cur st')
    ∧ ∀ v, r = Ok v → ∃ ds, Forall2 (λ c d, to_digit 16 c = Some d) e ds ∧ length e = n
         ∧ v = fold_left (λ v d, v * 16 + d)%Z ds acc) st.
Proof.
  revert acc st. induction n as [|n IH]; intros acc st HO; cbn [hex_digits].
  - apply scan_ret. split; [done|]. exists []. split; [done|]. intros v [= <-]. by exists [].
  - apply scan_bind. eapply wp_next_char; [done| |].
    + intros c st' HO' Hr _. simpl. destruct (to_digit 16 c) as [d|] eqn:Hd.
      * eapply scan_mono; [by apply IH|]. intros r st'' (HO'' & e & He & Hv). split; [done|].
        exists (c :: e). split; [by rewrite Hr, He|]. intros v Hok.
        destruct (Hv v Hok) as (ds & H2 & Hl & ->). exists (d :: ds).
        split; [by constructor|]. simpl. by rewrite Hl.
      * apply scan_ret. split; [done|]. exists [c]. split; [done|]. by intros v [=].
    + intros st' HO' Hr _. apply scan_ret. split; [done|]. exists []. split; [by rewrite Hr|].
      by intros v [=].
Qed.

Lemma scalar_of_inv w v : scalar_of w = Ok v → v = w ∧ char_from_u32 w = Some w.
Proof.
  unfold scalar_of, char_from_u32. case_match; simpl; [|done]. by intros [= <-].
Qed.

Lemma wp_escape input c byte st : On input st →
  wp (decode_escape_from (Some c) byte)
    (λ r st', On input st' ∧ ∃ e, rest (cur st) = e ++ rest (cur st')
       ∧ ∀ v, r = Ok v → escape_spelling byte (c :: e) v) st.
Proof.
  intros HO. unfold decode_escape_from.
  assert (∀ r : result Z string, (∀ v, r = Ok v → escape_spelling byte [c] v) →
    wp (ret r) (λ r st', On input st' ∧ ∃ e, rest (cur st) = e ++ rest (cur st')
       ∧ ∀ v, r = Ok v → escape_spelling byte (c :: e) v) st) as Hone.
  { intros r Hr. apply scan_ret. split; [done|]. by exists []. }
  destruct (is_ch c "'" || _ || _) eqn:E0.
  { apply Hone. intros v [= <-]. apply es_same.
    rewrite !orb_true_iff, !is_ch_true, Z.eqb_eq in E0. tauto. }
  do 4 match goal with
  | |- context [if is_ch c ?a then ret (Ok _) else _] =>
      let E := fresh "E" in destruct (is_ch c a) eqn:E;
      [apply is_ch_true in E; subst c; apply Hone; intros v [= <-]; constructor|]
  end.
  destruct (is_ch c "x") eqn:Ex.
  { apply is_ch_true in Ex as ->. apply scan_bind. eapply scan_mono; [by apply wp_hex_digits|].
    intros r st' (HO' & e & He & Hv). apply scan_ret. split; [done|]. exists e. split; [done|].
    intros v Hok. destruct r as [w|]; [|done]. simpl in Hok.
    destruct (Hv w eq_refl) as (ds & H2 & Hl & ->). destruct e as [|a [|b []]]; try done.
    inversion H2 as [|? da ? ds' Ha H2']; subst. inversion H2' as [|? db ? ds'' Hb H2'']; subst.
    inversion H2''; subst. cbn [fold_left] in Hok.
    change ((0 * 16 + da) * 16 + db)%Z with (da * 16 + db)%Z in Hok.
    destruct (negb byte && _) eqn:E7; [done|]. apply scalar_of_inv in Hok as [-> _].
    apply es_hex; [done..|]. destruct byte; [by left|right]. simpl in E7. lia. }
  destruct (is_ch c "u") eqn:Eu; [|apply Hone; by intros v [=]].
  apply is_ch_true in Eu as ->. destruct byte; [apply Hone; by intros v [=]|].
  apply scan_bind. eapply wp_next_char; [done| |].
  - intros b st1 HO1 Hr1 _. case_bool_decide as Hbr.
    + injection Hbr as ->. apply scan_bind. eapply scan_mono; [by apply wp_unicode_digits|].
      intros r st2 (HO2 & e & He & Hv). apply scan_ret. split; [done|]. exists (chr "{" :: e).
      split; [by rewrite Hr1, He|]. intros v Hok. destruct r as [w|]; [|done]. simpl in Hok.
      destruct (Hv w eq_refl) as (ds & -> & Hus). apply scalar_of_inv in Hok as [-> Hw].
      by apply es_unicode.
    + apply scan_ret. split; [done|]. exists [b]. split; [done|]. by intros v [=].
  - intros st1 HO1 Hr1 _. rewrite bool_decide_eq_false_2 by done. apply scan_ret. split; [done|].
    exists []. split; [by rewrite Hr1|]. by intros v [=].
Qed.

(** One round takes a piece [e] of the text after [c] and appends what the
    grammar assigns to [c] and [e]. *)
Definition round_ok (input : text) (cooked byte : bool) (acc : text) (c : Z) (st : St)
    (r : text + result text string) (st' : St) : Prop :=
  match r with
  | inl acc' =>
      On input st' ∧ (∃ e, rest (cur st) = e ++ rest (cur st'))
      ∧ (finished (cur st') = true ∨ ∃ d, acc' = acc ++ d ∧
         ∀ s', content_spelling cooked byte (rest (cur st')) s' →
               content_spelling cooked byte (c :: rest (cur st)) (d ++ s'))
  | inr r => is_ok r = false
  end.

Lemma wp_round_backslash input byte acc st : On input st →
  wp (string_round true byte acc (Some (chr "\")))
     (round_ok input true byte acc (chr "\") st) st.
Proof.
  intros HO. rewrite string_round_backslash. apply scan_bind. eapply wp_next_char; [done| |].
  2: { intros st' _ _ _. by apply scan_ret. }
  intros n st1 HO1 Hr1 _. cbv beta iota. destruct ((n =? LF)%Z || (n =? CR)%Z) eqn:En.
  - assert (∀ nl st2, nl = [LF] ∨ nl = [CR; LF] → On input st2 →
        rest (cur st) = nl ++ rest (cur st2) →
        wp (skip_while (λ _, blank) ;;; ret (inl acc))
           (round_ok input true byte acc (chr "\") st) st2) as Hsk.
    { intros nl st2 Hnl [pre HA] Hr2. apply scan_bind. eapply wp_skip_while; [done|].
      intros ws st3 HA3 Hws Hend. apply scan_ret. pose proof (At_app_rest _ _ _ _ _ HA HA3) as Hr3.
      split; [by eexists|]. split; [exists (nl ++ ws); by rewrite Hr2, Hr3, app_assoc|].
      destruct (finished (cur st3)) eqn:Ef; [by left|right]. exists []. split; [by rewrite app_nil_r|].
      intros s' Hs'. rewrite Hr2, Hr3. apply cs_continuation; [done..| |done].
      destruct Hend as [[He|He]|(ch & HP & Hch)]; [by rewrite He|congruence|].
      destruct HP as (_ & _ & _ & r & ->). done. }
    apply scan_bind. destruct (n =? CR)%Z eqn:Ec.
    + apply Z.eqb_eq in Ec as ->. apply scan_bind. eapply wp_next_char; [done| |].
      * intros m st2 HO2 Hr2 _. apply scan_ret. case_bool_decide as Hm; simpl; [|by apply scan_ret].
        injection Hm as ->. apply (Hsk [CR; LF]); [by right|done|by rewrite Hr1, Hr2].
      * intros st2 _ _ _. apply scan_ret. rewrite bool_decide_eq_false_2 by done. by apply scan_ret.
    + rewrite orb_false_r in En. apply Z.eqb_eq in En as ->. apply scan_ret. simpl.
      apply (Hsk [LF]); [by left|done|by rewrite Hr1].
  - apply scan_bind. eapply scan_mono; [by apply wp_escape|].
    intros r st2 (HO2 & e & He & Hv). destruct r as [v|m]; apply scan_ret; [|done].
    split; [done|]. split; [exists (n :: e); by rewrite Hr1, He|]. right. exists [v].
    split; [done|]. intros s' Hs'. rewrite Hr1, He.
    apply (cs_escape true byte (n :: e) v _ s'); [done|by apply Hv|done].
Qed.

Lemma wp_string_round input cooked byte acc c st : On input st →
  wp (string_round cooked byte acc (Some c)) (round_ok input cooked byte acc c st) st.
Proof.
  intros HO. destruct (is_ch c "\" && cooked) eqn:Eb.
  { apply andb_true_iff in Eb as [->%is_ch_true ->]. by apply wp_round_backslash. }
  destruct (direct cooked byte c) eqn:Ed.
  { rewrite string_round_direct by done. apply scan_ret. split; [done|]. split; [by exists []|].
    right. exists [c]. split; [done|]. intros s' Hs'. by apply cs_direct. }
  unfold string_round. rewrite Eb. unfold direct in Ed.
  destruct (byte && negb (is_ascii c)); [by apply scan_ret|].
  destruct (c =? CR)%Z eqn:Ec.
  { apply Z.eqb_eq in Ec as ->. apply scan_bind. eapply wp_next_char; [done| |].
    - intros n st1 HO1 Hr1 _. case_bool_decide as Hn; [|by apply scan_ret]. injection Hn as ->.
      apply scan_ret. split; [done|]. split; [by exists [LF]|]. right. exists [LF]. split; [done|].
      intros s' Hs'. rewrite Hr1. by apply cs_crlf.
    - intros st1 _ _ _. rewrite bool_decide_eq_false_2 by done. by apply scan_ret. }
  destruct ((is_ch c "{" || is_ch c "}") && cooked && negb byte) eqn:Ebr.
  { rewrite !andb_true_iff in Ebr. destruct Ebr as [[Hc ->] Hb%negb_true_iff]. subst byte.
    apply scan_bind. eapply wp_next_char; [done| |].
    - intros n st1 HO1 Hr1 _. case_bool_decide as Hn; [|by apply scan_ret]. injection Hn as ->.
      apply scan_ret. split; [done|]. split; [by exists [c]|]. right. exists [c]. split; [done|].
      intros s' Hs'. rewrite Hr1. by apply cs_brace.
    - intros st1 _ _ _. rewrite bool_decide_eq_false_2 by done. by apply scan_ret. }
  destruct ((c =? QUOTE)%Z && cooked) eqn:Eq; [by apply scan_ret|].
  exfalso. unfold is_brace in Ed. destruct cooked, byte, (is_ch c "\"), (c =? QUOTE)%Z,
    (is_ch c "{"), (is_ch c "}"); discriminate.
Qed.

Lemma wp_string_characters input cooked byte st : At input [] st →
  wp (decode_string_characters cooked byte)
    (λ r st', finished (cur st') = true ∨ ∀ s, r = Ok s → content_spelling cooked byte input s) st.
Proof.
  intros HA.
  eapply (wp_iterate (λ acc st, On input st ∧ (finished (cur st) = true ∨
    ∀ s', content_spelling cooked byte (rest (cur st)) s' →
          content_spelling cooked byte input (acc ++ s')))).
  { split; [by eexists|]. right. destruct HA as (Hin & _). simpl in Hin. by rewrite <- Hin. }
  clear st HA. intros acc st (HO & HI). apply scan_bind. eapply wp_next_char; [done| |].
  2: { intros st' HO' Hr [[He Hf]|Hf]; apply scan_ret; [|by left].
       rewrite <- Hr, He in HI. destruct HI as [Hf'|HI]; [left; by rewrite Hf|right].
       intros s [= <-]. rewrite <- (app_nil_r acc). apply HI. constructor. }
  intros c st1 HO1 Hr1 [Hf0 Hf1]. destruct HI as [Hf|HI]; [congruence|].
  rewrite Hr1 in HI |- *. eapply scan_mono; [by apply wp_string_round|].
  intros [acc'|r] st2; [|intros Hr; right; intros s ->; done].
  intros (HO2 & [e He] & Hd). split; [|rewrite He; simpl; rewrite length_app; lia].
  split; [done|]. destruct Hd as [Hd|(d & -> & Hd)]; [by left|right].
  intros s' Hs'. rewrite <- app_assoc. by apply HI, Hd.
Qed.

(** ** Whole literals *)
Lemma starts_with_iff p t : starts_with p t = true ↔ ∃ q, t = p ++ q.
Proof.
  revert t. induction p as [|c p IH]; intros [|d t]; simpl.
  - split; [by exists []|done].
  - split; [by exists (d :: t)|done].
  - split; [done|by intros [? ?]].
  - rewrite andb_true_iff, Z.eqb_eq, IH. split.
    + intros [-> [q ->]]. by exists q.
    + intros [q ?]. simplify_eq. eauto.
Qed.

Lemma strip_prefix_iff p t q : strip_prefix p t = Some q ↔ t = p ++ q.
Proof.
  unfold strip_prefix. destruct (starts_with p t) eqn:E.
  - apply starts_with_iff in E as [r ->]. rewrite drop_app_length. split; [by intros [= ->]|].
    intros ?. by simplify_list_eq.
  - split; [done|]. intros ->. assert (starts_with p (p ++ q) = true) as E' by (apply starts_with_iff; eauto).
    congruence.
Qed.

Lemma strip_suffix_iff p t q : strip_suffix p t = Some q ↔ t = q ++ p.
Proof.
  unfold strip_suffix. destruct (starts_with (rev p) (rev t)) eqn:E.
  - apply starts_with_iff in E as [r Hr]. rewrite <- (rev_involutive t), Hr, rev_app_distr, rev_involutive.
    rewrite length_app, Nat.add_sub, take_app_length. split; [by intros [= ->]|].
    intros ?. by simplify_list_eq.
  - split; [done|]. intros ->. exfalso. rewrite rev_app_distr in E.
    assert (starts_with (rev p) (rev p ++ rev q) = true) by (apply starts_with_iff; eauto).
    congruence.
Qed.

Lemma raw_opening_spec h t d k : raw_opening h t = Ok (Some (d, k)) ↔
  ∃ n r, t = hashes n ++ QUOTE :: r ∧ d = Raw (h + n) ∧ k = h + n + 2 ∧ (n = 0 ∨ h + n ≤ 255).
Proof.
  revert h. induction t as [|c t IH]; intros h; simpl.
  { split; [done|]. intros (n & r & H & _). by destruct n. }
  destruct (c =? QUOTE)%Z eqn:Eq.
  { apply Z.eqb_eq in Eq as ->. split.
    - intros [= <- <-]. exists 0, t. rewrite Nat.add_0_r. auto.
    - intros (n & r & H & -> & -> & _). destruct n; simplify_eq/=. by rewrite Nat.add_0_r. }
  apply Z.eqb_neq in Eq. destruct (is_ch c "#") eqn:Eh.
  - apply is_ch_true in Eh as ->. destruct (h <? 255) eqn:El.
    + apply Nat.ltb_lt in El. rewrite IH. split.
      * intros (n & r & -> & -> & -> & Hn). exists (S n), r. split_and!; [done| |lia|lia].
        f_equal. lia.
      * intros (n & r & H & -> & -> & Hn). destruct n as [|n]; simplify_eq/=. exists n, r.
        split_and!; [done| |lia|lia]. f_equal. lia.
    + apply Nat.ltb_ge in El. split; [done|]. intros (n & r & H & -> & -> & Hn).
      destruct n; simplify_eq/=. lia.
  - apply is_ch_false in Eh. split; [done|]. intros (n & r & H & _). by destruct n; simplify_eq/=.
Qed.

Lemma opening_spec t d k : opening t = Ok (Some (d, k)) ↔
  match d with
  | Cooked => k = 1 ∧ ∃ r, t = QUOTE :: r
  | Raw n => k = n + 2 ∧ n ≤ 255 ∧ ∃ r, t = chr "r" :: hashes n ++ QUOTE :: r
  end.
Proof.
  unfold opening. destruct (starts_with [QUOTE] t) eqn:E0.
  { apply starts_with_iff in E0 as [r ->]. simpl. destruct d as [|n].
    - split; [intros [= <-]; eauto|intros [-> _]; done].
    - split; [done|]. by intros (_ & _ & r' & ?). }
  destruct (strip_prefix _ t) as [r|] eqn:Er.
  - apply strip_prefix_iff in Er as ->. destruct (starts_with_char _ r) eqn:Es; simpl.
    + rewrite raw_opening_spec. destruct d as [|n].
      * split; [by intros (? & ? & _ & ? & _)|]. by intros (_ & r' & ?).
      * split.
        -- intros (n' & r' & -> & [= ->] & -> & Hn). split_and!; [done|lia|eauto].
        -- intros (-> & Hn & r' & Heq). exists n, r'. simplify_eq/=. split_and!; [done..|lia].
    + split; [done|]. destruct d as [|n]; intros Hd.
      * destruct Hd as (_ & r' & Heq). done.
      * destruct Hd as (_ & _ & r' & Heq). simplify_eq/=. by destruct n.
  - split; [done|]. intros Hd. destruct d as [|n].
    + destruct Hd as (_ & r & ->). by simpl in E0.
    + destruct Hd as (_ & _ & r & ->).
      assert (strip_prefix (text_of "r") (chr "r" :: hashes n ++ QUOTE :: r)
              = Some (hashes n ++ QUOTE :: r)) by (by apply strip_prefix_iff). congruence.
Qed.

Lemma blen_hashes n : blen (hashes n) = n.
Proof. induction n; simpl; [done|]. rewrite IHn. done. Qed.
Lemma blen_opener d : blen (opener d) = match d with Cooked => 1 | Raw n => n + 2 end.
Proof. destruct d; simpl; [done|]. rewrite blen_app, blen_hashes. simpl. lia. Qed.
Lemma blen_closer d : blen (closer d) = delimiter_hashes d + 1.
Proof. unfold closer. simpl. rewrite blen_hashes. lia. Qed.

Lemma opening_iff t d k : opening t = Ok (Some (d, k)) ↔
  delimiter_hashes d ≤ 255 ∧ k = blen (opener d) ∧ ∃ r, t = opener d ++ r.
Proof.
  rewrite opening_spec, blen_opener. destruct d as [|n]; simpl.
  - split; [intros (-> & r & ->); split_and!; [lia|done|eauto]|intros (_ & -> & r & ->); eauto].
  - split.
    + intros (-> & Hn & r & ->). split_and!; [done..|]. exists r. by rewrite <- app_assoc.
    + intros (Hn & -> & r & ->). split_and!; [done..|]. exists r. by rewrite <- app_assoc.
Qed.

Lemma closing_len_iff d t n : closing_len d t = Some n ↔ n = blen (closer d) ∧ ∃ r, t = closer d ++ r.
Proof.
  rewrite blen_closer. unfold closing_len, closer. destruct t as [|c t].
  { split; [done|]. by intros (_ & r & ?). }
  destruct (_ && _) eqn:E.
  - apply andb_true_iff in E as [->%Z.eqb_eq (r & ->)%starts_with_iff].
    split; [intros [= <-]; split; [lia|eauto]|intros [-> _]; f_equal; lia].
  - split; [done|]. intros (_ & r & H). simplify_eq/=.
    assert (starts_with (hashes (delimiter_hashes d)) (hashes (delimiter_hashes d) ++ r) = true)
      by (apply starts_with_iff; eauto). congruence.
Qed.

Lemma string_content_iff t d c : string_content t = Ok (d, c) ↔
  delimiter_hashes d ≤ 255 ∧ t = opener d ++ c ++ closer d.
Proof.
  unfold string_content. split.
  - destruct (opening t) as [[[d' k]|]|] eqn:Eo; simpl; try done.
    apply opening_iff in Eo as (Hd & -> & r & ->).
    destruct (_ && _) eqn:Eb; [|done]. rewrite andb_true_iff, !Nat.leb_le in Eb.
    case_bool_decide as Hcl; [|done]. destruct (suffix_at _ _) as [q|] eqn:Eq; [|done].
    simpl in Hcl. apply closing_len_iff in Hcl as (_ & r' & ->).
    destruct (slice _ _ _) as [c'|] eqn:Es; [|done]. simpl. intros [= <- <-]. split; [done|].
    apply suffix_at_inv in Eq as (p & Hp & Hpl). apply slice_inv in Es as (p1 & q1 & Hq & Hp1 & Hl).
    rewrite Hp in Hpl. rewrite !blen_app, blen_closer in Hpl.
    assert (r' = []) as -> by (apply blen_0; lia).
    rewrite Hp in Hq. rewrite app_nil_r in *. rewrite app_assoc in Hq.
    rewrite Hp, !blen_app, blen_closer in Hl.
    destruct (prefix_blen_inj p (closer d') (p1 ++ c') q1) as [-> <-]; [done|rewrite !blen_app in *; lia|].
    rewrite <- app_assoc in Hp. rewrite Hp.
    destruct (prefix_blen_inj (opener d') r p1 (c' ++ closer d')) as [<- _]; [done|lia|done].
  - intros [Hd ->]. rewrite (proj2 (opening_iff _ d (blen (opener d)))) by eauto.
    simpl. rewrite !blen_app, blen_closer.
    replace (blen (opener d) + (blen c + (delimiter_hashes d + 1)) - (delimiter_hashes d + 1))
      with (blen (opener d ++ c)) by (rewrite blen_app; lia).
    assert ((delimiter_hashes d + 1 <=? blen (opener d) + (blen c + (delimiter_hashes d + 1)))
      && (blen (opener d) <=? blen (opener d ++ c)) = true) as ->.
    { rewrite andb_true_iff, !Nat.leb_le, blen_app. lia. }
    rewrite app_assoc, suffix_at_app. cbn [mbind option_bind].
    rewrite (proj2 (closing_len_iff d (closer d) (blen (closer d))))
      by (split; [done|exists []; by rewrite app_nil_r]).
    rewrite blen_closer, bool_decide_eq_true_2 by done.
    rewrite <- app_assoc, (slice_prefixes _ _ c (closer d)) by done. done.
Qed.

(** The scan for a closing delimiter inside a raw string. *)
Lemma reads_raw_inside d i n t t' : ∃ b,
  reads (raw_delimiter_inside d i n t) t' b t' ∧
  (b = false ↔ ∀ p q, t = p ++ q → closing_len d q = None).
Proof.
  revert i n. induction t as [|ch t IH]; intros i n; simpl.
  - exists false. split; [apply reads_ret|]. split; [|done]. intros _ [] q ?; by simplify_eq/=.
  - assert (∃ n', reads (if n <=? i then check ;;; ret (i + CANCELLATION_CHECK_BYTES) else ret n)
      t' n' t') as [n' Hn'].
    { destruct (n <=? i); eexists; [eapply reads_bind; [apply reads_check|]|]; apply reads_ret. }
    destruct ((ch =? QUOTE)%Z && bool_decide (is_Some (closing_len d (ch :: t)))) eqn:E.
    + exists true. split; [eapply reads_bind; [done|]; simpl in E |- *; rewrite E; apply reads_ret|].
      split; [done|]. intros H. specialize (H [] (ch :: t) eq_refl).
      apply andb_true_iff in E as [_ E%bool_decide_eq_true_1]. rewrite H in E. by destruct E.
    + destruct (IH (i + len_utf8 ch) n') as (b & Hb & Hiff). exists b. split.
      { eapply reads_bind; [done|]. simpl in E |- *. rewrite E. done. }
      rewrite Hiff. split.
      * intros H [|x p] q Hq; simplify_eq/=; [|by eapply H].
        destruct (ch =? QUOTE)%Z eqn:Ec; [|done]. simpl in E.
        apply bool_decide_eq_false_1 in E. destruct (starts_with _ _); [|done].
        destruct E. eauto.
      * intros H p q ->. by apply (H (ch :: p)).
Qed.

(** ** Exactness *)
Lemma fresh_run_reads {A} (m : M A) t a t' st :
  fresh_at t st → reads m t a t' → ∃ st', m st = Done a st' ∧ fresh_at t' st'.
Proof. intros Hs Hm. by apply Hm. Qed.

Lemma fresh_cursor t : fresh_at t {| cur := cursor_of t; cxl := None |}.
Proof. done. Qed.

(** A total scanner of a text has one answer on a fresh token. *)
Lemma text_answer {A} (m : M A) t (Q : A → St → Prop) :
  Faithful m → wp m Q {| cur := cursor_of t; cxl := None |} →
  ∃ a st', (∀ u, reads (with_text t m) u a u) ∧ Q a st' ∧ cxl st' = None
    ∧ ∀ b t', reads m t b t' → b = a.
Proof.
  intros Hm Hw. pose proof (faithful_fresh (m := m) {| cur := cursor_of t; cxl := None |} eq_refl) as Hf.
  unfold wp in Hw. destruct (m {| cur := cursor_of t; cxl := None |}) as [a st'| | |] eqn:E; try done.
  exists a, st'. split_and!; [|done..|].
  - intros u st (Hc & Hfi & Hr). unfold with_text. rewrite Hc, E. eexists. by split.
  - intros b t' Hb. destruct (Hb _ (fresh_cursor t)) as (st'' & E' & _). congruence.
Qed.

Lemma content_answer t cooked byte : ∃ r,
  (∀ u, reads (decode_string_content t cooked byte) u r u) ∧
  ∀ s, r = Ok s ↔ content_spelling cooked byte t s.
Proof.
  destruct (text_answer (decode_string_characters cooked byte) t
    (λ r st', (finished (cur st') = true ∨ ∀ s, r = Ok s → content_spelling cooked byte t s)
              ∧ Safe t (length t) st')) as (r & st' & Hr & [Hq [[pre Hs] _]] & Hc & Hdet).
  { apply _. }
  { apply wp_conj; [apply wp_string_characters, At_cursor_of|apply total, Safe_cursor_of]. }
  exists r. split.
  - intros u. eapply reads_bind; [apply Hr|]. eapply reads_bind; [apply reads_check|]. apply reads_ret.
  - intros s. split.
    + destruct Hq as [Hf|Hq]; [|auto]. destruct Hs as (_ & _ & Hs). specialize (Hs Hf). congruence.
    + intros Hcs. symmetry. eapply Hdet, reads_iterate, (reads_content _ _ _ _ Hcs []).
Qed.

Lemma literal_spelling_inv byte t s : literal_spelling byte t s ↔
  ∃ d c, string_content t = Ok (d, c) ∧
    match d with
    | Cooked => content_spelling true byte c s
    | Raw n => (∀ p q, c = p ++ q → closing_len d q = None) ∧ content_spelling false byte c s
    end.
Proof.
  split.
  - destruct 1 as [c s Hc|n c s Hn Hcl Hc].
    + exists Cooked, c. split; [|done]. apply string_content_iff. simpl. split; [lia|done].
    + exists (Raw n), c. split; [by apply string_content_iff|]. split; [|done].
      intros p q Hp. destruct (closing_len (Raw n) q) eqn:E; [|done].
      apply closing_len_iff in E as (_ & r & ->). by destruct (Hcl _ _ Hp r).
  - intros ([|n] & c & [Hn ->]%string_content_iff & Hm); [by constructor|].
    destruct Hm as [Hcl Hm]. constructor; [done| |done]. intros p q Hp r ->.
    specialize (Hcl _ _ Hp). rewrite (proj2 (closing_len_iff (Raw n) _ (blen (closer (Raw n))))) in Hcl
      by eauto. done.
Qed.

Lemma inner_answer t byte : ∃ r,
  (∀ u, reads (decode_string_literal_inner t byte) u r u) ∧
  ∀ s, r = Ok s ↔ literal_spelling byte t s.
Proof.
  unfold decode_string_literal_inner.
  destruct (string_content t) as [[[|n] c]|m] eqn:E.
  - destruct (content_answer c true byte) as (r & Hr & Hs). exists r. split; [done|]. intros s.
    rewrite Hs, literal_spelling_inv. split; [eauto|]. intros (d & c' & Hd & Hm). rewrite E in Hd.
    by injection Hd as <- <-.
  - destruct (content_answer c false byte) as (r & Hr & Hs).
    assert (∀ u, ∃ b, reads (raw_delimiter_inside (Raw n) 0 CANCELLATION_CHECK_BYTES c) u b u
      ∧ (b = false ↔ ∀ p q, c = p ++ q → closing_len (Raw n) q = None)) as Hin
      by (intros; apply reads_raw_inside).
    destruct (Hin []) as (b & _ & Hb).
    exists (if b then Err "unexpected text after raw String delimiter" else r). split.
    + intros u. destruct (Hin u) as (b' & Hb' & Hiff).
      assert (b' = b) as -> by (destruct b, b'; try done;
        [symmetry; by apply Hb, Hiff|by apply Hiff, Hb]).
      eapply reads_bind; [done|]. destruct b; [apply reads_ret|apply Hr].
    + intros s. rewrite literal_spelling_inv. split.
      * destruct b; [done|]. intros Hok. exists (Raw n), c. split; [done|].
        split; [by apply Hb|by apply Hs].
      * intros (d & c' & Hd & Hm). rewrite E in Hd. injection Hd as <- <-. destruct Hm as [Hm1 Hm2].
        apply Hb in Hm1 as ->. by apply Hs.
  - exists (Err m). split; [intros u; apply reads_ret|]. intros s. split; [done|].
    rewrite literal_spelling_inv. intros (d & c & Hd & _). congruence.
Qed.

Lemma reads_guarded {A B} (m : M A) (f : A → B) a :
  (∀ u, reads m u a u) → run_fresh (guarded m f) = Some (f a).
Proof.
  intros Hm. eapply (reads_run_fresh _ _ []). eapply reads_bind; [apply reads_check|].
  eapply reads_bind; [apply Hm|]. eapply reads_bind; [apply reads_check|]. apply reads_ret.
Qed.

Lemma decode_string_literal_iff t s :
  decode_string_literal t = Some (Ok s) ↔ literal_spelling false t s.
Proof.
  destruct (inner_answer t false) as (r & Hr & Hs). rewrite <- Hs.
  assert (decode_string_literal t = Some r) as -> by apply (reads_guarded _ id _ Hr).
  split; [by intros [= ->]|by intros ->].
Qed.

Lemma decode_string_fragment_iff t s :
  decode_string_fragment t = Some (Ok s) ↔ content_spelling true false t s.
Proof.
  destruct (content_answer t true false) as (r & Hr & Hs). rewrite <- Hs.
  assert (decode_string_fragment t = Some r) as -> by apply (reads_guarded _ id _ Hr).
  split; [by intros [= ->]|by intros ->].
Qed.

Lemma decode_byte_string_literal_iff t v :
  decode_byte_string_literal t = Some (Ok v) ↔
    ∃ t' s, t = chr "b" :: t' ∧ literal_spelling true t' s ∧ v = map as_u8 s.
Proof.
  unfold decode_byte_string_literal.
  destruct (strip_prefix (text_of "b") t) as [t'|] eqn:E.
  - destruct (inner_answer t' true) as (r & Hr & Hs).
    pose proof (reads_guarded _ (res_map (map as_u8)) _ Hr) as Hg. unfold guarded in Hg.
    unfold decode_byte_string_literal_with_cancellation. rewrite E, Hg.
    apply strip_prefix_iff in E as ->. split.
    + intros [= Hv]. destruct r as [s|]; [|done]. injection Hv as <-. exists t', s.
      split_and!; [done| |done]. by apply Hs.
    + intros (t'' & s & [= <-] & Hsp & ->). apply Hs in Hsp as ->. done.
  - pose proof (reads_guarded (ret (Err "invalid byte string prefix")) (res_map (map as_u8)) _
      (reads_ret _)) as Hg. unfold guarded in Hg.
    unfold decode_byte_string_literal_with_cancellation. rewrite E, Hg. split; [done|].
    intros (t'' & s & -> & _).
    assert (strip_prefix (text_of "b") (chr "b" :: t'') = Some t'') by (by apply strip_prefix_iff).
    congruence.
Qed.

(** C23: the string decoders accept exactly the declared grammar, and return the
    value it assigns: cooked literals with their escapes, doubled braces,
    normalised CRLF and line continuations, raw literals with at most 255 hashes
    and no earlier closing delimiter, byte strings with their own escape rules,
    and the text fragments between interpolation holes. *)
Theorem string_literals_exact :
  (∀ t s, decode_string_literal t = Some (Ok s) ↔ literal_spelling false t s)
  ∧ (∀ t v, decode_byte_string_literal t = Some (Ok v) ↔
       ∃ t' s, t = chr "b" :: t' ∧ literal_spelling true t' s ∧ v = map as_u8 s)
  ∧ (∀ t s, decode_string_fragment t = Some (Ok s) ↔ content_spelling true false t s).
Proof.
  auto using decode_string_literal_iff, decode_byte_string_literal_iff, decode_string_fragment_iff.
Qed.

(** The content of a character literal. *)
Definition char_content (byte : bool) (t : text) (v : Z) : Prop :=
  (t = [v] ∧ direct_char byte v = true) ∨ ∃ e, t = chr "\" :: e ∧ escape_spelling byte e v.

Lemma char_spelling_iff byte t v : char_spelling byte t v ↔
  ∃ c, t = chr "'" :: c ++ [chr "'"] ∧ char_content byte c v.
Proof.
  split.
  - destruct 1 as [c Hc|e v He]; [exists [c]|exists (chr "\" :: e)]; (split; [done|]).
    + by left.
    + right. eauto.
  - intros (c & -> & [[-> Hd]|(e & -> & He)]); [by constructor|by apply chs_escape].
Qed.

Lemma wp_char_end byte input st v (Q : Prop) : On input st →
  (rest (cur st) = [] → Q) →
  wp (character_end byte v)
    (λ r st', On input st' ∧ (finished (cur st') = true ∨ ∀ w, r = Ok w → w = v ∧ Q)) st.
Proof.
  intros HO HQ. apply scan_bind. eapply wp_next_char; [done| |].
  - intros c st' HO' _ _. apply scan_ret. split; [done|]. right. by intros w [=].
  - intros st' HO' Hr [[He _]|Hf]; apply scan_ret; (split; [done|]); [right|by left].
    intros w [= <-]. split; [done|]. apply HQ. by rewrite <- Hr.
Qed.

Lemma wp_char_content byte input st : At input [] st →
  wp (decode_character_content byte)
    (λ r st', On input st' ∧ (finished (cur st') = true ∨ ∀ v, r = Ok v → char_content byte input v)) st.
Proof.
  intros HA. assert (On input st) as HO by (by eexists). destruct HA as (Hin & _). simpl in Hin.
  unfold decode_character_content. apply scan_bind. eapply wp_next_char; [done| |].
  2: { intros st' HO' _ _. apply scan_bind, scan_ret, scan_ret. split; [done|]. right. by intros v [=]. }
  intros c st1 HO1 Hr1 _. rewrite Hr1 in Hin. apply scan_bind. destruct (is_ch c "\") eqn:Eb.
  { apply is_ch_true in Eb as ->. unfold decode_escape. apply scan_bind. eapply wp_next_char; [done| |].
    - intros n st2 HO2 Hr2 _. eapply scan_mono; [by apply wp_escape|].
      intros r st3 (HO3 & e & He & Hv). destruct r as [v|m].
      + eapply scan_mono; [apply (wp_char_end byte input st3 v (input = chr "\" :: n :: e)); [done|]|].
        * intros Hnil. rewrite Hin, Hr2, He, Hnil. by rewrite app_nil_r.
        * intros r st4 [HO4 Hq]. split; [done|]. destruct Hq as [Hq|Hq]; [by left|right].
          intros w Hw. destruct (Hq w Hw) as [-> ->]. right. exists (n :: e). split; [done|]. by apply Hv.
      + apply scan_ret. split; [done|]. right. by intros v [=].
    - intros st2 HO2 _ _. apply scan_ret, scan_ret. split; [done|]. right. by intros v [=]. }
  repeat match goal with
  | |- context [if ?b then ret (Err _) else _] =>
      let E := fresh "E" in destruct b eqn:E;
      [apply scan_ret, scan_ret; split; [done|]; right; by intros v [=]|]
  end.
  apply scan_ret. eapply scan_mono; [apply (wp_char_end byte input st1 c (input = [c])); [done|]|].
  - intros Hnil. by rewrite Hin, Hnil.
  - intros r st2 [HO2 Hq]. split; [done|]. destruct Hq as [Hq|Hq]; [by left|right].
    intros w Hw. destruct (Hq w Hw) as [-> ->]. left. split; [done|]. unfold direct_char.
    rewrite !orb_false_iff in E. destruct E as [[Et Ec] El]. by rewrite Eb, Et, Ec, El, E0, E1.
Qed.

Lemma reads_char_content byte t v : char_content byte t v →
  reads (decode_character_content byte) t (Ok v) [].
Proof.
  assert (reads (character_end byte v) [] (Ok v) []) as Hend.
  { eapply reads_bind; [apply reads_next_char_nil|]. apply reads_ret. }
  unfold decode_character_content. intros [[-> Hd]|(e & -> & He)].
  - eapply reads_bind; [apply reads_next_char_cons|]. cbv beta iota. unfold direct_char in Hd.
    rewrite !andb_true_iff, !negb_true_iff in Hd. destruct Hd as [[[[[-> ->] ->] ->] ->] ->].
    eapply reads_bind; [apply reads_ret|]. exact Hend.
  - destruct (reads_escape _ _ _ [] He) as (c & e' & -> & Hr). rewrite app_nil_r in Hr.
    eapply reads_bind; [apply reads_next_char_cons|]. cbv beta iota.
    rewrite (proj2 (is_ch_true (chr "\") "\") eq_refl). eapply reads_bind.
    { unfold decode_escape. eapply reads_bind; [apply reads_next_char_cons|]. exact Hr. }
    exact Hend.
Qed.

Lemma character_exact byte t v :
  decode_character t byte = Some (Ok v) ↔ char_spelling byte t v.
Proof.
  rewrite char_spelling_iff. unfold decode_character.
  destruct (strip_prefix _ t ≫= _) as [c|] eqn:E.
  - apply bind_Some in E as (t' & Hp%strip_prefix_iff & Hs%strip_suffix_iff). subst t' t.
    destruct (text_answer (decode_character_content byte) c _ _ (wp_char_content byte c _ (At_cursor_of c None)))
      as (r & st' & Hr & [[pre HA] Hq] & Hc & Hdet).
    rewrite (reads_run_fresh (with_text c (decode_character_content byte)) r [] (Hr [])). split.
    + intros [= ->]. exists c. split; [done|]. destruct Hq as [Hf|Hq]; [|auto].
      destruct HA as (_ & _ & HA). specialize (HA Hf). congruence.
    + intros (c' & Heq & Hcc). assert (c = c') as <-. { simpl in Heq. by simplify_list_eq. }
      f_equal. symmetry. by eapply Hdet, reads_char_content.
  - split; [done|]. intros (c & -> & _).
    assert (strip_prefix (text_of "'") (chr "'" :: c ++ [chr "'"]) = Some (c ++ [chr "'"])) as H1
      by (by apply strip_prefix_iff).
    assert (strip_suffix (text_of "'") (c ++ [chr "'"]) = Some c) as H2
      by (by apply strip_suffix_iff).
    rewrite H1 in E. cbn [mbind option_bind] in E. congruence.
Qed.

(** C24: the character decoders accept exactly one direct character or one escape
    between apostrophes, and return the scalar value, or the byte, it denotes. *)
Theorem character_literals_exact :
  (∀ t v, decode_char_literal t = Some (Ok v) ↔ char_spelling false t v)
  ∧ (∀ t v, decode_byte_char_literal t = Some (Ok v) ↔
       ∃ t' w, t = chr "b" :: t' ∧ char_spelling true t' w ∧ v = as_u8 w).
Proof.
  split; [intros; apply character_exact|]. intros t v. unfold decode_byte_char_literal.
  destruct (strip_prefix (text_of "b") t) as [t'|] eqn:E.
  - apply strip_prefix_iff in E as ->. split.
    + intros (r & Hr & Hv)%fmap_Some. destruct r as [w|]; [|done]. injection Hv as ->.
      exists t', w. split_and!; [done| |done]. by apply character_exact.
    + intros (t'' & w & [= <-] & Hw%character_exact & ->). by rewrite Hw.
  - split; [done|]. intros (t'' & w & -> & _).
    assert (strip_prefix (text_of "b") (chr "b" :: t'') = Some t'') by (by apply strip_prefix_iff).
    congruence.
Qed.
