(* ===== verification/LiteralInteger.v ===== *)
(** * The grammar and value of integer literals

    [parse_integer_literal] accepts exactly the declared spellings whose value
    fits [u64], and returns that value. *)
From Stdlib Require Import Ascii.
From S2P Require Import Prelude Integer Text Literal LiteralGrammar.
Open Scope nat_scope.

Definition radix_prefixes : list (Z * string) :=
  [(2%Z, "0b"); (8%Z, "0o"); (16%Z, "0x"); (10%Z, "")].
Definition integer_suffixes : list string :=
  [""; "i64"; "u64"; "i32"; "u32"; "i16"; "u16"; "i8"; "u8"].

(** Digits of the radix and underscores, with at least one digit. *)
Definition digits_ok (radix : Z) (ds : text) : bool :=
  existsb (is_digit radix) ds && forallb (λ c, is_ch c "_" || is_digit radix c) ds.

Inductive integer_spelling : Z → text → text → Prop :=
| integer_spelled radix prefix ds suffix :
    (radix, prefix) ∈ radix_prefixes → suffix ∈ integer_suffixes → digits_ok radix ds = true →
    integer_spelling radix ds (text_of prefix ++ ds ++ text_of suffix).

(** The positional value; underscores have none. *)
Definition digit_step (radix v c : Z) : Z :=
  match to_digit radix c with Some d => (v * radix + d)%Z | None => v end.
Definition digits_value (radix : Z) (ds : text) : Z := fold_left (digit_step radix) ds 0%Z.

(** ** The value *)
Lemma digit_step_mono radix ds v : (2 <= radix)%Z → (0 <= v)%Z →
  (v <= fold_left (digit_step radix) ds v)%Z.
Proof.
  intros Hr. revert v. induction ds as [|c ds IH]; intros v Hv; simpl; [lia|].
  assert (v <= digit_step radix v c)%Z.
  { unfold digit_step. destruct (to_digit radix c) as [d|] eqn:E; [|lia].
    apply to_digit_range in E. nia. }
  specialize (IH (digit_step radix v c)). lia.
Qed.

Lemma from_digits_value radix ds v : (2 <= radix)%Z → (0 <= v < 2 ^ 64)%Z →
  forallb (is_digit radix) ds = true →
  from_digits radix v ds =
    let r := fold_left (digit_step radix) ds v in if (r <? 2 ^ 64)%Z then Some r else None.
Proof.
  intros Hr. revert v. induction ds as [|c ds IH]; intros v Hv Hd.
  - cbn [from_digits fold_left]. cbv zeta. by rewrite (proj2 (Z.ltb_lt _ _)) by lia.
  - cbn [forallb] in Hd. apply andb_true_iff in Hd as [Hc Hd]. unfold is_digit in Hc.
    apply bool_decide_eq_true_1 in Hc as [d Hc]. cbn [from_digits fold_left]. rewrite Hc. cbn [mbind option_bind].
    pose proof (to_digit_range _ _ _ Hc).
    assert (digit_step radix v c = v * radix + d)%Z as Hstep by (unfold digit_step; by rewrite Hc).
    rewrite Hstep. unfold Std.checked_mul, Std.checked_add, Std.fit.
    pose proof (digit_step_mono radix ds (v * radix + d) Hr ltac:(nia)) as Hm.
    destruct (Std.in_range 64 false (v * radix)) eqn:E1; cbn [mbind option_bind].
    + destruct (Std.in_range 64 false (v * radix + d)) eqn:E2; cbn [mbind option_bind].
      * apply in_range_spec in E2. unfold Std.min_value, Std.max_value in E2. apply IH; [lia|done].
      * apply in_range_false in E2. unfold Std.min_value, Std.max_value in E2. cbv zeta.
        by rewrite (proj2 (Z.ltb_ge _ _)) by nia.
    + apply in_range_false in E1. unfold Std.min_value, Std.max_value in E1. cbv zeta.
      by rewrite (proj2 (Z.ltb_ge _ _)) by nia.
Qed.

Definition compact (ds : text) : text := base.filter (λ c, negb (is_ch c "_")) ds.

Lemma underscore_no_digit radix : (radix <= 16)%Z → to_digit radix (chr "_") = None.
Proof. intros. reflexivity. Qed.

Lemma compact_value radix ds v :
  fold_left (digit_step radix) (compact ds) v = fold_left (digit_step radix) ds v.
Proof.
  revert v. induction ds as [|c ds IH]; intros v; [done|]. unfold compact in *. rewrite filter_cons.
  case_decide as H; destruct (is_ch c "_") eqn:E; try done; simpl.
  - apply IH.
  - apply is_ch_true in E as ->. apply IH.
Qed.

Lemma compact_digits radix ds : digits_ok radix ds = true →
  forallb (is_digit radix) (compact ds) = true ∧ compact ds ≠ [].
Proof.
  unfold digits_ok. rewrite andb_true_iff, forallb_forall, existsb_exists. intros [(x & Hin & Hx) Hall].
  assert (∀ y, In y (compact ds) ↔ In y ds ∧ is_ch y "_" = false) as Hc.
  { intros y. unfold compact. rewrite <- !list_elem_of_In, list_elem_of_filter.
    destruct (is_ch y "_"); simpl; split; intros []; auto; done. }
  split.
  - apply forallb_forall. intros y Hy. apply Hc in Hy as [Hy Hu]. specialize (Hall y Hy).
    by rewrite Hu in Hall.
  - assert (In x (compact ds)) as Hi; [|intros E; by rewrite E in Hi].
    apply Hc. split; [done|]. apply is_ch_false. intros ->. by destruct radix.
Qed.

Lemma from_str_radix_value radix ds : (2 <= radix <= 16)%Z → digits_ok radix ds = true →
  from_str_radix (compact ds) radix =
    if (digits_value radix ds <? 2 ^ 64)%Z then Some (digits_value radix ds) else None.
Proof.
  intros Hr Hd. destruct (compact_digits _ _ Hd) as [Hall Hne].
  unfold digits_value. rewrite <- compact_value. unfold from_str_radix.
  destruct (compact ds) as [|c r] eqn:E; [done|].
  assert (is_ch c "+" || is_ch c "-" = false) as ->.
  { simpl in Hall. apply andb_true_iff in Hall as [Hc _]. unfold is_digit in Hc.
    apply bool_decide_eq_true_1 in Hc as [d Hc]. apply orb_false_iff.
    split; apply is_ch_false; intros ->; by destruct radix. }
  by rewrite from_digits_value by (done || lia).
Qed.

(** ** The grammar *)
Lemma starts_with_In p t c : starts_with p t = true → In c p → In c t.
Proof. intros (q & ->)%starts_with_iff Hc. apply in_or_app. by left. Qed.

Lemma strip_suffix_absent p t c : In c p → ¬ In c t → strip_suffix p t = None.
Proof.
  intros Hc Ht. destruct (strip_suffix p t) as [q|] eqn:E; [|done].
  apply strip_suffix_iff in E as ->. destruct Ht. apply in_or_app. by right.
Qed.

Lemma digits_ok_chars radix ds c : digits_ok radix ds = true → In c ds →
  c = chr "_" ∨ is_Some (to_digit radix c).
Proof.
  unfold digits_ok. rewrite andb_true_iff, forallb_forall. intros [_ H] Hc.
  apply H, orb_true_iff in Hc as [->%is_ch_true|Hd]; [by left|right].
  by apply bool_decide_eq_true_1 in Hd.
Qed.

Lemma radix_cases radix prefix : (radix, prefix) ∈ radix_prefixes →
  (radix = 2%Z ∧ prefix = "0b") ∨ (radix = 8%Z ∧ prefix = "0o")
  ∨ (radix = 16%Z ∧ prefix = "0x") ∨ (radix = 10%Z ∧ prefix = "").
Proof.
  unfold radix_prefixes. rewrite !elem_of_cons, elem_of_nil.
  intros [[=]|[[=]|[[=]|[[=]|[]]]]]; auto 6.
Qed.

(** The body of an integer literal contains no letter of a type suffix. *)
Lemma body_absent radix prefix ds c :
  (radix, prefix) ∈ radix_prefixes → digits_ok radix ds = true →
  c = chr "i" ∨ c = chr "u" ∨ (c = chr "f" ∧ radix ≠ 16%Z) →
  ¬ In c (text_of prefix ++ ds).
Proof.
  intros Hp Hd Hc Hin. apply in_app_or in Hin as [Hin|Hin].
  - destruct (radix_cases _ _ Hp) as [[-> ->]|[[-> ->]|[[-> ->]|[-> ->]]]]; simpl in Hin;
      destruct Hc as [-> |[-> |[-> _]]]; vm_compute in Hin; intuition discriminate.
  - destruct (digits_ok_chars _ _ _ Hd Hin) as [-> |[d Hdig]].
    { destruct Hc as [Hc|[Hc|[Hc _]]]; discriminate Hc. }
    destruct (radix_cases _ _ Hp) as [[-> _]|[[-> _]|[[-> _]|[-> _]]]];
      destruct Hc as [-> |[-> |[-> Hne]]]; try discriminate Hdig. by destruct Hne.
Qed.

(** A suffix that [numeric_literal_parts] passes over. *)
Definition passes (t : text) (suffix : string) : bool :=
  (starts_with_char (λ c, is_ch c "f") (text_of suffix)
   && existsb (λ prefix, starts_with (text_of prefix) t) non_decimal_prefixes)
  || bool_decide (strip_suffix (text_of suffix) t = None).

Lemma numeric_suffix_skip l l' t : forallb (passes t) l = true →
  numeric_suffix_in (l ++ l') t = numeric_suffix_in l' t.
Proof.
  induction l as [|s l IH]; [done|]. cbn [forallb app numeric_suffix_in].
  rewrite andb_true_iff. intros [Hs Hl]. unfold passes in Hs.
  destruct (_ && existsb _ _); [by apply IH|]. simpl in Hs.
  apply bool_decide_eq_true_1 in Hs as ->. by apply IH.
Qed.

Lemma numeric_suffix_none radix prefix ds :
  (radix, prefix) ∈ radix_prefixes → digits_ok radix ds = true →
  numeric_literal_parts (text_of prefix ++ ds) = (text_of prefix ++ ds, None).
Proof.
  intros Hp Hd. set (t := text_of prefix ++ ds).
  assert (∀ s c, In c (text_of s) → c = chr "i" ∨ c = chr "u" ∨ (c = chr "f" ∧ radix ≠ 16%Z) →
    passes t s = true) as Hiu.
  { intros s c Hs Hc. unfold passes. apply orb_true_iff. right. apply bool_decide_eq_true_2.
    eapply strip_suffix_absent; [exact Hs|]. by eapply body_absent. }
  assert (∀ s, starts_with_char (λ c, is_ch c "f") (text_of s) = true → In (chr "f") (text_of s) →
    passes t s = true) as Hf.
  { intros s H1 H2. destruct (decide (radix = 16%Z)) as [-> |Hne]; [|eapply Hiu; eauto].
    unfold passes. rewrite H1.
    destruct (radix_cases _ _ Hp) as [[? _]|[[? _]|[[_ E]|[? _]]]]; try discriminate.
    subst t. by rewrite E. }
  unfold numeric_literal_parts. rewrite <- (app_nil_r type_suffixes).
  rewrite numeric_suffix_skip; [done|]. unfold type_suffixes. cbn [forallb].
  rewrite !andb_true_iff. repeat split.
  all: first [ apply Hf; [reflexivity|by left]
             | eapply (Hiu _ (chr "i")); [by left|by left]
             | eapply (Hiu _ (chr "u")); [by left|by right; left] ].
Qed.

Lemma strip_suffix_app s t : strip_suffix s (t ++ s) = Some t.
Proof. by apply strip_suffix_iff. Qed.

Lemma strip_suffix_clash s suffix t :
  starts_with (rev s) (rev suffix ++ rev t) = false → strip_suffix s (t ++ suffix) = None.
Proof. intros H. unfold strip_suffix. by rewrite rev_app_distr, H. Qed.

Lemma numeric_suffix_some t suffix :
  suffix ∈ integer_suffixes → suffix ≠ "" →
  numeric_literal_parts (t ++ text_of suffix) = (t, Some (text_of suffix)).
Proof.
  intros Hs Hne. unfold integer_suffixes in Hs. rewrite !elem_of_cons, elem_of_nil in Hs.
  assert (∀ l l', type_suffixes = l ++ suffix :: l' →
    starts_with_char (λ c, is_ch c "f") (text_of suffix) = false →
    forallb (λ s, negb (starts_with (rev (text_of s)) (rev (text_of suffix) ++ rev t))) l = true →
    numeric_literal_parts (t ++ text_of suffix) = (t, Some (text_of suffix))) as Hgo.
  { intros l l' Hl Hf Hall. unfold numeric_literal_parts. rewrite Hl, numeric_suffix_skip.
    - cbn [numeric_suffix_in]. rewrite Hf. cbn [andb]. by rewrite strip_suffix_app.
    - rewrite forallb_forall in Hall |- *. intros x Hx. specialize (Hall x Hx).
      apply negb_true_iff in Hall. unfold passes. rewrite strip_suffix_clash by done.
      by rewrite orb_true_r. }
  destruct Hs as [-> |[-> |[-> |[-> |[-> |[-> |[-> |[-> |[-> |[]]]]]]]]]]; [done|..].
  - by apply (Hgo [] (drop 1 type_suffixes)).
  - by apply (Hgo (take 1 type_suffixes) (drop 2 type_suffixes)).
  - by apply (Hgo (take 2 type_suffixes) (drop 3 type_suffixes)).
  - by apply (Hgo (take 3 type_suffixes) (drop 4 type_suffixes)).
  - by apply (Hgo (take 4 type_suffixes) (drop 5 type_suffixes)).
  - by apply (Hgo (take 5 type_suffixes) (drop 6 type_suffixes)).
  - by apply (Hgo (take 6 type_suffixes) (drop 7 type_suffixes)).
  - by apply (Hgo (take 7 type_suffixes) (drop 8 type_suffixes)).
Qed.

Lemma parts_inv t body suffix : numeric_literal_parts t = (body, suffix) →
  match suffix with
  | None => t = body
  | Some s => t = body ++ s ∧ (starts_with_char (λ c, is_ch c "f") s = true
                               ∨ ∃ n, s = text_of n ∧ n ∈ integer_suffixes)
  end.
Proof.
  unfold numeric_literal_parts.
  assert (Forall (λ n, starts_with_char (λ c, is_ch c "f") (text_of n) = true
    ∨ n ∈ integer_suffixes) type_suffixes) as Hall.
  { unfold type_suffixes, integer_suffixes.
    repeat (apply Forall_cons_2;
            [first [left; reflexivity | right; rewrite !elem_of_cons; tauto]|]).
    apply Forall_nil_2. }
  revert Hall. generalize type_suffixes as l. induction l as [|n l IH]; intros Hall; cbn [numeric_suffix_in].
  { by intros [= <- <-]. }
  inversion Hall as [|? ? Hn Hl]; subst. destruct (_ && existsb _ _); [by apply IH|].
  destruct (strip_suffix (text_of n) t) as [b|] eqn:E; [|by apply IH].
  intros [= <- <-]. split; [by apply strip_suffix_iff|]. destruct Hn; [by left|right]; eauto.
Qed.

Lemma integer_radix_body radix prefix ds :
  (radix, prefix) ∈ radix_prefixes → digits_ok radix ds = true →
  integer_radix (text_of prefix ++ ds) = (radix, ds).
Proof.
  intros Hp Hd. unfold integer_radix.
  destruct (radix_cases _ _ Hp) as [[-> ->]|[[-> ->]|[[-> ->]|[-> ->]]]].
  1-3: repeat first
    [ rewrite (proj2 (strip_prefix_iff (text_of "0b") (text_of "0b" ++ ds) ds) eq_refl)
    | rewrite (proj2 (strip_prefix_iff (text_of "0o") (text_of "0o" ++ ds) ds) eq_refl)
    | rewrite (proj2 (strip_prefix_iff (text_of "0x") (text_of "0x" ++ ds) ds) eq_refl) ];
    reflexivity || idtac.
  cbn [text_of app].
  assert (∀ c, c = chr "b" ∨ c = chr "o" ∨ c = chr "x" → ∀ t, In c t → strip_prefix t ds = None) as Hno.
  { intros c Hc t Ht. destruct (strip_prefix t ds) as [q|] eqn:E; [|done].
    apply strip_prefix_iff in E as ->.
    destruct (digits_ok_chars _ _ c Hd ltac:(apply in_or_app; by left)) as [-> |[d Hdig]].
    - destruct Hc as [Hc|[Hc|Hc]]; discriminate Hc.
    - destruct Hc as [-> |[-> | ->]]; discriminate Hdig. }
  rewrite (Hno (chr "b")) by (simpl; tauto). rewrite (Hno (chr "o")) by (simpl; tauto).
  by rewrite (Hno (chr "x")) by (simpl; tauto).
Qed.

Lemma integer_digits_iff t radix ds :
  integer_digits t = Ok (radix, ds) ↔ integer_spelling radix ds t.
Proof.
  unfold integer_digits. split.
  - destruct (numeric_literal_parts t) as [body suffix] eqn:E. apply parts_inv in E.
    destruct (match suffix with Some _ => _ | None => _ end) eqn:Ef; [done|].
    destruct (integer_radix body) as [r d] eqn:Er.
    destruct (existsb (is_digit r) d) eqn:E1; [|done]. destruct (forallb _ d) eqn:E2; [|done].
    simpl. intros [= <- <-].
    assert (∃ prefix, (r, prefix) ∈ radix_prefixes ∧ body = text_of prefix ++ d) as (prefix & Hp & ->).
    { unfold integer_radix in Er. unfold radix_prefixes.
      destruct (strip_prefix (text_of "0b") body) eqn:Eb.
      { injection Er as <- <-. exists "0b". rewrite !elem_of_cons. split; [tauto|by apply strip_prefix_iff]. }
      destruct (strip_prefix (text_of "0o") body) eqn:Eo.
      { injection Er as <- <-. exists "0o". rewrite !elem_of_cons. split; [tauto|by apply strip_prefix_iff]. }
      destruct (strip_prefix (text_of "0x") body) eqn:Ex.
      { injection Er as <- <-. exists "0x". rewrite !elem_of_cons. split; [tauto|by apply strip_prefix_iff]. }
      injection Er as <- <-. exists "". rewrite !elem_of_cons. split; [tauto|done]. }
    assert (digits_ok r d = true) as Hd by (unfold digits_ok; by rewrite E1, E2).
    destruct suffix as [s|].
    + destruct E as [-> [Hf|(n & -> & Hn)]]; [congruence|]. rewrite <- app_assoc. by constructor.
    + subst t. replace (text_of prefix ++ d) with (text_of prefix ++ d ++ text_of "")
        by (cbn [text_of]; by rewrite app_nil_r).
      constructor; [done| |done]. unfold integer_suffixes. rewrite elem_of_cons. by left.
  - destruct 1 as [radix prefix ds suffix Hp Hs Hd].
    assert (∀ suffix', match suffix' with Some s => starts_with_char (λ c, is_ch c "f") s
      | None => false end = false →
      numeric_literal_parts (text_of prefix ++ ds ++ text_of suffix)
      = (text_of prefix ++ ds, suffix') →
      (let '(t, suffix) := numeric_literal_parts (text_of prefix ++ ds ++ text_of suffix) in
       if match suffix with Some s => starts_with_char (λ c, is_ch c "f") s | None => false end
       then Err "floating-point suffix on integer literal"
       else let '(radix, digits) := integer_radix t in
         if negb (existsb (is_digit radix) digits) then Err "invalid integer literal"
         else if negb (forallb (λ c, is_ch c "_" || is_digit radix c) digits)
         then Err "invalid integer literal" else Ok (radix, digits)) = Ok (radix, ds)) as Hgo.
    { intros suffix' Hf ->. rewrite Hf, (integer_radix_body radix prefix ds) by done. unfold digits_ok in Hd.
      apply andb_true_iff in Hd as [-> ->]. done. }
    destruct (decide (suffix = "")) as [-> |Hne].
    + apply (Hgo None); [done|]. cbn [text_of]. rewrite app_nil_r. by eapply numeric_suffix_none.
    + apply (Hgo (Some (text_of suffix))).
      * unfold integer_suffixes in Hs. rewrite !elem_of_cons, elem_of_nil in Hs.
        destruct Hs as [-> |[-> |[-> |[-> |[-> |[-> |[-> |[-> |[-> |[]]]]]]]]]]; done.
      * rewrite app_assoc. by apply numeric_suffix_some.
Qed.

(** C25: an integer literal is accepted exactly when it is a radix prefix, digits
    of that radix mixed with underscores (at least one digit) and an optional
    integer type suffix, and its positional value fits [u64]; the value returned
    is that positional value. The grammar check of the lexer is the same grammar
    without the bound, and a literal past the bound is refused with the range
    message, never truncated. *)
Theorem integer_literals_exact :
  (∀ t v, parse_integer_literal t = Ok v ↔
     ∃ radix ds, integer_spelling radix ds t ∧ v = digits_value radix ds ∧ (v < 2 ^ 64)%Z)
  ∧ (∀ t, is_integer_literal t = true ↔ ∃ radix ds, integer_spelling radix ds t)
  ∧ (∀ t radix ds, integer_spelling radix ds t → (2 ^ 64 <= digits_value radix ds)%Z →
       parse_integer_literal t = Err "integer literal is outside the u64 range").
Proof.
  assert (∀ t radix ds, integer_spelling radix ds t →
    parse_integer_literal t = if (digits_value radix ds <? 2 ^ 64)%Z then Ok (digits_value radix ds)
      else Err "integer literal is outside the u64 range") as Hparse.
  { intros t radix ds Hsp. unfold parse_integer_literal. rewrite (proj2 (integer_digits_iff _ _ _) Hsp).
    cbn [res_bind fst snd]. change (base.filter _ ds) with (compact ds).
    destruct Hsp as [radix prefix ds suffix Hp Hs Hd].
    rewrite from_str_radix_value; [by destruct (_ <? _)%Z| |done].
    destruct (radix_cases _ _ Hp) as [[-> _]|[[-> _]|[[-> _]|[-> _]]]]; lia. }
  split_and!.
  - intros t v. split.
    + intros Hv. destruct (integer_digits t) as [[radix ds]|m] eqn:E.
      * apply integer_digits_iff in E. rewrite (Hparse _ _ _ E) in Hv.
        destruct (_ <? _)%Z eqn:Hlt; [|done]. injection Hv as <-. exists radix, ds.
        apply Z.ltb_lt in Hlt. done.
      * unfold parse_integer_literal in Hv. by rewrite E in Hv.
    + intros (radix & ds & Hsp & -> & Hlt). rewrite (Hparse _ _ _ Hsp).
      by rewrite (proj2 (Z.ltb_lt _ _) Hlt).
  - intros t. unfold is_integer_literal. split.
    + destruct (integer_digits t) as [[radix ds]|m] eqn:E; [|done]. intros _.
      exists radix, ds. by apply integer_digits_iff.
    + intros (radix & ds & Hsp). by rewrite (proj2 (integer_digits_iff _ _ _) Hsp).
  - intros t radix ds Hsp Hge. rewrite (Hparse _ _ _ Hsp). by rewrite (proj2 (Z.ltb_ge _ _) Hge).
Qed.

(** [18_446_744_073_709_551_616u64] is one past the bound. *)
Lemma integer_literals_exact_witness :
  parse_integer_literal (text_of "18_446_744_073_709_551_616u64")
  = Err "integer literal is outside the u64 range".
Proof.
  apply (proj2 (proj2 integer_literals_exact) _ 10%Z (text_of "18_446_744_073_709_551_616")).
  - apply (integer_spelled 10 "" (text_of "18_446_744_073_709_551_616") "u64");
      [do 3 right; left|do 2 right; left|vm_compute]; reflexivity.
  - vm_compute. discriminate.
Defined.
