(* ===== verification/Token.v ===== *)
(** * Token and syntax kinds

    Models [kagari-syntax/src/token.rs], [kagari-syntax/src/kind.rs] and the span
    of [kagari-common/src/span.rs]. *)
From Stdlib Require Import Ascii.
From S2P Require Import Prelude Text.
Open Scope nat_scope.

(** A half-open byte range. *)
Record Span : Set := { start : nat; end_ : nat }.
#[export] Instance Span_eq_dec : EqDecision Span.
Proof. solve_decision. Defined.

(** ** Lexical categories *)
Module TokenKind.
Inductive kind : Set :=
  | Whitespace | LineComment | BlockComment | AsKw | CrateKw | ForKw | InKw | AsyncKw | AwaitKw
  | FnKw | ImplKw | ModKw | PubKw | SelfKw | SuperKw | TraitKw | TypeKw | UseKw | WhereKw
  | ConstKw | StaticKw | ValKw | VarKw | StructKw | EnumKw | ReturnKw | IfKw | ElseKw | MatchKw
  | WhileKw | LoopKw | BreakKw | ContinueKw | TrueKw | FalseKw | Ident | Number | Float | String
  | FormatStart | FormatText | FormatOpen | FormatClose | FormatEnd | LParen | RParen | LBracket
  | RBracket | LBrace | RBrace | Comma | Colon | ColonColon | Semi | Dot | DotDot | DotDotEq
  | Hash | Eq | Plus | PlusEq | Minus | MinusEq | Star | StarEq | Slash | SlashEq | Percent
  | PercentEq | Bang | Question | EqEq | NotEq | IdentityEq | IdentityNotEq | Lt | Gt | Le | Ge
  | Amp | AmpEq | PipeEq | Caret | CaretEq | AmpAmp | Pipe | PipePipe | Arrow | FatArrow | Eof
  | Unknown | Char | ByteChar | ByteString.
#[global] Instance kind_eq_dec : EqDecision kind.
Proof. unfold EqDecision, Decision. decide equality. Defined.
End TokenKind.

(** ** Tags of the syntax tree *)
Module SyntaxKind.
Inductive kind : Set :=
  | Tombstone | Eof | Whitespace | LineComment | BlockComment | Ident | Number | Float | String
  | FormatStart | FormatText | FormatOpen | FormatClose | FormatEnd | AsKw | CrateKw | ForKw
  | InKw | AsyncKw | AwaitKw | FnKw | ImplKw | ModKw | PubKw | SelfKw | SuperKw | TraitKw
  | TypeKw | UseKw | WhereKw | ConstKw | StaticKw | ValKw | VarKw | StructKw | EnumKw | ReturnKw
  | IfKw | ElseKw | MatchKw | WhileKw | LoopKw | BreakKw | ContinueKw | TrueKw | FalseKw | LParen
  | RParen | LBracket | RBracket | LBrace | RBrace | Comma | Colon | ColonColon | Semi | Dot
  | DotDot | DotDotEq | Hash | Eq | Plus | PlusEq | Minus | MinusEq | Star | StarEq | Slash
  | SlashEq | Percent | PercentEq | Bang | Question | EqEq | NotEq | IdentityEq | IdentityNotEq
  | Lt | Gt | Le | Ge | Shl | Shr | ShlEq | ShrEq | Amp | AmpEq | PipeEq | Caret | CaretEq
  | AmpAmp | Pipe | PipePipe | Arrow | FatArrow | Unknown | SourceFile | ModuleDef | ModuleBlock
  | UseDecl | UseTree | UseTreeList | Path | TraitDef | ImplBlock | MethodDef | GenericParamList
  | GenericParam | GenericArgList | WhereClause | WherePredicate | TraitBoundList | TraitRef
  | TypeAliasDef | AssociatedType | AssociatedTypeBinding | QualifiedType | TypeList | FnDef
  | ConstDef | StaticDef | StructDef | EnumDef | Name | ParamList | Param | FieldList | Field
  | VariantList | Variant | TypeRef | TupleType | ArrayType | BlockExpr | BindingStmt
  | ReturnStmt | AssignStmt | WhileStmt | LoopStmt | LoopExpr | ClosureExpr | ClosureParamList
  | ClosureParam | FunctionType | ForStmt | BreakStmt | ContinueStmt | ExprStmt | PathExpr
  | Literal | ParenExpr | PrefixExpr | CastExpr | PropagateExpr | AwaitExpr | AsyncBlockExpr
  | BinaryExpr | RangeExpr | BindingCondition | Attribute | AttributeArgs | AttributeArgList
  | AttributeArg | AttributeValue | CallExpr | FieldExpr | IndexExpr | IfExpr | StructExpr
  | StructUpdateBase | FieldInitList | FieldInit | MatchExpr | MatchArmList | MatchArm | Pattern
  | PatternField | TupleExpr | ArrayExpr | InterpolatedString | Interpolation | Error | Char
  | ByteChar | ByteString.

Definition is_trivia (k : kind) : bool :=
  match k with Whitespace | LineComment | BlockComment => true | _ => false end.
End SyntaxKind.

Record Token : Set := { token_kind : TokenKind.kind; token_span : Span }.
#[export] Instance Token_eq_dec : EqDecision Token.
Proof. solve_decision. Defined.

Definition is_trivia (k : TokenKind.kind) : bool :=
  match k with
  | TokenKind.Whitespace | TokenKind.LineComment | TokenKind.BlockComment => true
  | _ => false
  end.

Definition to_syntax_kind (k : TokenKind.kind) : SyntaxKind.kind :=
  match k with
  | TokenKind.Whitespace => SyntaxKind.Whitespace
  | TokenKind.LineComment => SyntaxKind.LineComment
  | TokenKind.BlockComment => SyntaxKind.BlockComment
  | TokenKind.AsKw => SyntaxKind.AsKw
  | TokenKind.CrateKw => SyntaxKind.CrateKw
  | TokenKind.ForKw => SyntaxKind.ForKw
  | TokenKind.InKw => SyntaxKind.InKw
  | TokenKind.AsyncKw => SyntaxKind.AsyncKw
  | TokenKind.AwaitKw => SyntaxKind.AwaitKw
  | TokenKind.FnKw => SyntaxKind.FnKw
  | TokenKind.ImplKw => SyntaxKind.ImplKw
  | TokenKind.ModKw => SyntaxKind.ModKw
  | TokenKind.PubKw => SyntaxKind.PubKw
  | TokenKind.SelfKw => SyntaxKind.SelfKw
  | TokenKind.SuperKw => SyntaxKind.SuperKw
  | TokenKind.TraitKw => SyntaxKind.TraitKw
  | TokenKind.TypeKw => SyntaxKind.TypeKw
  | TokenKind.UseKw => SyntaxKind.UseKw
  | TokenKind.WhereKw => SyntaxKind.WhereKw
  | TokenKind.ConstKw => SyntaxKind.ConstKw
  | TokenKind.StaticKw => SyntaxKind.StaticKw
  | TokenKind.ValKw => SyntaxKind.ValKw
  | TokenKind.VarKw => SyntaxKind.VarKw
  | TokenKind.StructKw => SyntaxKind.StructKw
  | TokenKind.EnumKw => SyntaxKind.EnumKw
  | TokenKind.ReturnKw => SyntaxKind.ReturnKw
  | TokenKind.IfKw => SyntaxKind.IfKw
  | TokenKind.ElseKw => SyntaxKind.ElseKw
  | TokenKind.MatchKw => SyntaxKind.MatchKw
  | TokenKind.WhileKw => SyntaxKind.WhileKw
  | TokenKind.LoopKw => SyntaxKind.LoopKw
  | TokenKind.BreakKw => SyntaxKind.BreakKw
  | TokenKind.ContinueKw => SyntaxKind.ContinueKw
  | TokenKind.TrueKw => SyntaxKind.TrueKw
  | TokenKind.FalseKw => SyntaxKind.FalseKw
  | TokenKind.Ident => SyntaxKind.Ident
  | TokenKind.Number => SyntaxKind.Number
  | TokenKind.Float => SyntaxKind.Float
  | TokenKind.String => SyntaxKind.String
  | TokenKind.Char => SyntaxKind.Char
  | TokenKind.ByteChar => SyntaxKind.ByteChar
  | TokenKind.ByteString => SyntaxKind.ByteString
  | TokenKind.FormatStart => SyntaxKind.FormatStart
  | TokenKind.FormatText => SyntaxKind.FormatText
  | TokenKind.FormatOpen => SyntaxKind.FormatOpen
  | TokenKind.FormatClose => SyntaxKind.FormatClose
  | TokenKind.FormatEnd => SyntaxKind.FormatEnd
  | TokenKind.LParen => SyntaxKind.LParen
  | TokenKind.RParen => SyntaxKind.RParen
  | TokenKind.LBracket => SyntaxKind.LBracket
  | TokenKind.RBracket => SyntaxKind.RBracket
  | TokenKind.LBrace => SyntaxKind.LBrace
  | TokenKind.RBrace => SyntaxKind.RBrace
  | TokenKind.Comma => SyntaxKind.Comma
  | TokenKind.Colon => SyntaxKind.Colon
  | TokenKind.ColonColon => SyntaxKind.ColonColon
  | TokenKind.Semi => SyntaxKind.Semi
  | TokenKind.Dot => SyntaxKind.Dot
  | TokenKind.DotDot => SyntaxKind.DotDot
  | TokenKind.DotDotEq => SyntaxKind.DotDotEq
  | TokenKind.Hash => SyntaxKind.Hash
  | TokenKind.Eq => SyntaxKind.Eq
  | TokenKind.Plus => SyntaxKind.Plus
  | TokenKind.PlusEq => SyntaxKind.PlusEq
  | TokenKind.Minus => SyntaxKind.Minus
  | TokenKind.MinusEq => SyntaxKind.MinusEq
  | TokenKind.Star => SyntaxKind.Star
  | TokenKind.StarEq => SyntaxKind.StarEq
  | TokenKind.Slash => SyntaxKind.Slash
  | TokenKind.SlashEq => SyntaxKind.SlashEq
  | TokenKind.Percent => SyntaxKind.Percent
  | TokenKind.PercentEq => SyntaxKind.PercentEq
  | TokenKind.Bang => SyntaxKind.Bang
  | TokenKind.Question => SyntaxKind.Question
  | TokenKind.IdentityEq => SyntaxKind.IdentityEq
  | TokenKind.IdentityNotEq => SyntaxKind.IdentityNotEq
  | TokenKind.EqEq => SyntaxKind.EqEq
  | TokenKind.NotEq => SyntaxKind.NotEq
  | TokenKind.Lt => SyntaxKind.Lt
  | TokenKind.Gt => SyntaxKind.Gt
  | TokenKind.Le => SyntaxKind.Le
  | TokenKind.Ge => SyntaxKind.Ge
  | TokenKind.Amp => SyntaxKind.Amp
  | TokenKind.AmpEq => SyntaxKind.AmpEq
  | TokenKind.PipeEq => SyntaxKind.PipeEq
  | TokenKind.Caret => SyntaxKind.Caret
  | TokenKind.CaretEq => SyntaxKind.CaretEq
  | TokenKind.AmpAmp => SyntaxKind.AmpAmp
  | TokenKind.Pipe => SyntaxKind.Pipe
  | TokenKind.PipePipe => SyntaxKind.PipePipe
  | TokenKind.Arrow => SyntaxKind.Arrow
  | TokenKind.FatArrow => SyntaxKind.FatArrow
  | TokenKind.Eof => SyntaxKind.Eof
  | TokenKind.Unknown => SyntaxKind.Unknown
  end.

(** ** Identifiers and keywords: [identifier_kind] of [lexer.rs] *)
Definition keywords : list (string * TokenKind.kind) :=
  [("as", TokenKind.AsKw);
   ("crate", TokenKind.CrateKw);
   ("for", TokenKind.ForKw);
   ("in", TokenKind.InKw);
   ("async", TokenKind.AsyncKw);
   ("await", TokenKind.AwaitKw);
   ("fn", TokenKind.FnKw);
   ("impl", TokenKind.ImplKw);
   ("mod", TokenKind.ModKw);
   ("pub", TokenKind.PubKw);
   ("self", TokenKind.SelfKw);
   ("super", TokenKind.SuperKw);
   ("trait", TokenKind.TraitKw);
   ("type", TokenKind.TypeKw);
   ("use", TokenKind.UseKw);
   ("where", TokenKind.WhereKw);
   ("const", TokenKind.ConstKw);
   ("static", TokenKind.StaticKw);
   ("val", TokenKind.ValKw);
   ("var", TokenKind.VarKw);
   ("struct", TokenKind.StructKw);
   ("enum", TokenKind.EnumKw);
   ("return", TokenKind.ReturnKw);
   ("if", TokenKind.IfKw);
   ("else", TokenKind.ElseKw);
   ("match", TokenKind.MatchKw);
   ("while", TokenKind.WhileKw);
   ("loop", TokenKind.LoopKw);
   ("break", TokenKind.BreakKw);
   ("continue", TokenKind.ContinueKw);
   ("true", TokenKind.TrueKw);
   ("false", TokenKind.FalseKw)].

Definition identifier_kind (ident : text) : TokenKind.kind :=
  match list_find (λ e, text_of e.1 = ident) keywords with
  | Some (_, (_, kind)) => kind
  | None => TokenKind.Ident
  end.

(** The constructor [token] of [lexer.rs]. *)
Definition token (kind : TokenKind.kind) (start end_ : nat) : Token :=
  {| token_kind := kind; token_span := {| start := start; end_ := end_ |} |}.

(** The two vocabularies agree on trivia, and no category loses its identity. *)
Lemma to_syntax_kind_trivia k : SyntaxKind.is_trivia (to_syntax_kind k) = is_trivia k.
Proof. by destruct k. Qed.

(** Left inverse of [to_syntax_kind] on the lexical categories. *)
Definition from_syntax_kind (k : SyntaxKind.kind) : option TokenKind.kind :=
  match k with
  | SyntaxKind.Whitespace => Some TokenKind.Whitespace
  | SyntaxKind.LineComment => Some TokenKind.LineComment
  | SyntaxKind.BlockComment => Some TokenKind.BlockComment
  | SyntaxKind.AsKw => Some TokenKind.AsKw
  | SyntaxKind.CrateKw => Some TokenKind.CrateKw
  | SyntaxKind.ForKw => Some TokenKind.ForKw
  | SyntaxKind.InKw => Some TokenKind.InKw
  | SyntaxKind.AsyncKw => Some TokenKind.AsyncKw
  | SyntaxKind.AwaitKw => Some TokenKind.AwaitKw
  | SyntaxKind.FnKw => Some TokenKind.FnKw
  | SyntaxKind.ImplKw => Some TokenKind.ImplKw
  | SyntaxKind.ModKw => Some TokenKind.ModKw
  | SyntaxKind.PubKw => Some TokenKind.PubKw
  | SyntaxKind.SelfKw => Some TokenKind.SelfKw
  | SyntaxKind.SuperKw => Some TokenKind.SuperKw
  | SyntaxKind.TraitKw => Some TokenKind.TraitKw
  | SyntaxKind.TypeKw => Some TokenKind.TypeKw
  | SyntaxKind.UseKw => Some TokenKind.UseKw
  | SyntaxKind.WhereKw => Some TokenKind.WhereKw
  | SyntaxKind.ConstKw => Some TokenKind.ConstKw
  | SyntaxKind.StaticKw => Some TokenKind.StaticKw
  | SyntaxKind.ValKw => Some TokenKind.ValKw
  | SyntaxKind.VarKw => Some TokenKind.VarKw
  | SyntaxKind.StructKw => Some TokenKind.StructKw
  | SyntaxKind.EnumKw => Some TokenKind.EnumKw
  | SyntaxKind.ReturnKw => Some TokenKind.ReturnKw
  | SyntaxKind.IfKw => Some TokenKind.IfKw
  | SyntaxKind.ElseKw => Some TokenKind.ElseKw
  | SyntaxKind.MatchKw => Some TokenKind.MatchKw
  | SyntaxKind.WhileKw => Some TokenKind.WhileKw
  | SyntaxKind.LoopKw => Some TokenKind.LoopKw
  | SyntaxKind.BreakKw => Some TokenKind.BreakKw
  | SyntaxKind.ContinueKw => Some TokenKind.ContinueKw
  | SyntaxKind.TrueKw => Some TokenKind.TrueKw
  | SyntaxKind.FalseKw => Some TokenKind.FalseKw
  | SyntaxKind.Ident => Some TokenKind.Ident
  | SyntaxKind.Number => Some TokenKind.Number
  | SyntaxKind.Float => Some TokenKind.Float
  | SyntaxKind.String => Some TokenKind.String
  | SyntaxKind.Char => Some TokenKind.Char
  | SyntaxKind.ByteChar => Some TokenKind.ByteChar
  | SyntaxKind.ByteString => Some TokenKind.ByteString
  | SyntaxKind.FormatStart => Some TokenKind.FormatStart
  | SyntaxKind.FormatText => Some TokenKind.FormatText
  | SyntaxKind.FormatOpen => Some TokenKind.FormatOpen
  | SyntaxKind.FormatClose => Some TokenKind.FormatClose
  | SyntaxKind.FormatEnd => Some TokenKind.FormatEnd
  | SyntaxKind.LParen => Some TokenKind.LParen
  | SyntaxKind.RParen => Some TokenKind.RParen
  | SyntaxKind.LBracket => Some TokenKind.LBracket
  | SyntaxKind.RBracket => Some TokenKind.RBracket
  | SyntaxKind.LBrace => Some TokenKind.LBrace
  | SyntaxKind.RBrace => Some TokenKind.RBrace
  | SyntaxKind.Comma => Some TokenKind.Comma
  | SyntaxKind.Colon => Some TokenKind.Colon
  | SyntaxKind.ColonColon => Some TokenKind.ColonColon
  | SyntaxKind.Semi => Some TokenKind.Semi
  | SyntaxKind.Dot => Some TokenKind.Dot
  | SyntaxKind.DotDot => Some TokenKind.DotDot
  | SyntaxKind.DotDotEq => Some TokenKind.DotDotEq
  | SyntaxKind.Hash => Some TokenKind.Hash
  | SyntaxKind.Eq => Some TokenKind.Eq
  | SyntaxKind.Plus => Some TokenKind.Plus
  | SyntaxKind.PlusEq => Some TokenKind.PlusEq
  | SyntaxKind.Minus => Some TokenKind.Minus
  | SyntaxKind.MinusEq => Some TokenKind.MinusEq
  | SyntaxKind.Star => Some TokenKind.Star
  | SyntaxKind.StarEq => Some TokenKind.StarEq
  | SyntaxKind.Slash => Some TokenKind.Slash
  | SyntaxKind.SlashEq => Some TokenKind.SlashEq
  | SyntaxKind.Percent => Some TokenKind.Percent
  | SyntaxKind.PercentEq => Some TokenKind.PercentEq
  | SyntaxKind.Bang => Some TokenKind.Bang
  | SyntaxKind.Question => Some TokenKind.Question
  | SyntaxKind.IdentityEq => Some TokenKind.IdentityEq
  | SyntaxKind.IdentityNotEq => Some TokenKind.IdentityNotEq
  | SyntaxKind.EqEq => Some TokenKind.EqEq
  | SyntaxKind.NotEq => Some TokenKind.NotEq
  | SyntaxKind.Lt => Some TokenKind.Lt
  | SyntaxKind.Gt => Some TokenKind.Gt
  | SyntaxKind.Le => Some TokenKind.Le
  | SyntaxKind.Ge => Some TokenKind.Ge
  | SyntaxKind.Amp => Some TokenKind.Amp
  | SyntaxKind.AmpEq => Some TokenKind.AmpEq
  | SyntaxKind.PipeEq => Some TokenKind.PipeEq
  | SyntaxKind.Caret => Some TokenKind.Caret
  | SyntaxKind.CaretEq => Some TokenKind.CaretEq
  | SyntaxKind.AmpAmp => Some TokenKind.AmpAmp
  | SyntaxKind.Pipe => Some TokenKind.Pipe
  | SyntaxKind.PipePipe => Some TokenKind.PipePipe
  | SyntaxKind.Arrow => Some TokenKind.Arrow
  | SyntaxKind.FatArrow => Some TokenKind.FatArrow
  | SyntaxKind.Eof => Some TokenKind.Eof
  | SyntaxKind.Unknown => Some TokenKind.Unknown
  | _ => None
  end.

#[export] Instance to_syntax_kind_inj : Inj (=) (=) to_syntax_kind.
Proof.
  intros k k' H. assert (∀ k, from_syntax_kind (to_syntax_kind k) = Some k) as Hf by (by intros []).
  pose proof (Hf k) as H1. rewrite H, Hf in H1. by injection H1.
Qed.
