(* ===== verification/Lexer.v ===== *)
(** * The lexer

    Models [kagari-syntax/src/lexer.rs] and [lexer/string.rs].  Scanners are
    actions of the scanning monad; a scanner answers the tokens it pushes.  A
    slice of the input on a non-boundary and an [expect] on an exhausted
    iterator are the outcome [Panicked]. *)
From Stdlib Require Import Ascii.
From S2P Require Import Prelude Text Literal Token.
Open Scope nat_scope.
Import TokenKind.

(** ** Iterator idioms *)

(** [chars.peek().is_some_and(..)] on the character. *)
Definition peek_is (p : Z → bool) : M bool :=
  let* o := peek in ret (match o with Some (_, c) => p c | None => false end).
(** [chars.next().expect(..)]. *)
Definition next_expect : M (nat * Z) :=
  let* o := next in match o with Some x => ret x | None => panic end.
(** [chars.peek().map_or(input.len(), ..)] on the index. *)
Definition peek_index (input : text) : M nat :=
  let* o := peek in ret (match o with Some (i, _) => i | None => blen input end).

(** [if let Some((end, c)) = chars.peek().copied() { chars.next(); .. }]. *)
Definition take_if (c : Z) : M (option nat) :=
  let* o := peek in
  match o with
  | Some (i, x) => if (x =? c)%Z then next ;;; ret (Some i) else ret None
  | None => ret None
  end.

(** The loops over [peek] that remember the end of what they took. *)
Definition take_chars (p : Z → bool) (end_ : nat) : M nat :=
  while_peek (λ i c _, if p c then Take (i + len_utf8 c) else Leave) end_.

Definition digit_or_underscore (c : Z) : bool := is_ascii_digit c || is_ch c "_".
Definition word_char (c : Z) : bool := is_ascii_alphanumeric c || is_ch c "_".
Definition line_end (c : Z) : bool := (c =? CR)%Z || (c =? LF)%Z.
Definition hash_or_quote (c : Z) : bool := is_ch c "#" || (c =? QUOTE)%Z.

(** ** lexer/string.rs *)
Definition skip_escape : M unit :=
  let* discriminator := next in
  match discriminator with
  | Some (_, c) =>
      if is_ch c "u" then
        let* brace := peek_is (λ c, is_ch c "{") in
        if brace : bool then
          next ;;;
          while_peek (λ _ c _, if (c =? QUOTE)%Z then Leave
                               else if is_ch c "}" then TakeLeave tt else Take tt) tt
        else ret tt
      else ret tt
  | None => ret tt
  end.

Definition push_text (input : text) (start end_ : nat) : M (list Token) :=
  if start =? end_ then ret []
  else
    let* fragment := of_option (slice input start end_) in
    let* decoded := decode_string_fragment_with_cancellation fragment in
    ret [token (if is_ok decoded then FormatText else Unknown) start end_].

(** The bytes of a multi-byte character are no name bytes, so the scan stops at
    its first one.  Where the source keeps an [Err(Cancelled)] aside, its next
    [check] fails. *)
Fixpoint hole_name_bytes (offset : nat) (name : text) : M bool :=
  match name with
  | [] => ret true
  | c :: name =>
      (if offset mod CANCELLATION_CHECK_BYTES =? 0 then check else ret tt) ;;;
      if negb (is_ch c "_") && negb (is_ascii_alphanumeric c) then ret false
      else hole_name_bytes (offset + len_utf8 c) name
  end.
Definition is_hole_name (name : text) : M bool :=
  if negb (starts_with_char (λ c, is_ch c "_" || is_ascii_alphabetic c) name) then ret false
  else
    let* bytes := hole_name_bytes 0 name in
    ret (bytes && bool_decide (identifier_kind name = Ident)).

Definition scan_hole (input : text) (start : nat) : M (list Token) :=
  skip_while (λ _ c, negb (is_ch c "}" || (c =? QUOTE)%Z)) ;;;
  let* end_ := peek_index input in
  check ;;;
  let* content := of_option (slice input start end_) in
  let '(name, debug) :=
    match strip_suffix (text_of ":?") content with
    | Some name => (name, true)
    | None => (content, false)
    end in
  let* valid := is_hole_name name in
  check ;;;
  let tokens :=
    if valid : bool then
      token Ident start (start + blen name)
      :: (if debug : bool
          then [token Colon (end_ - 2) (end_ - 1); token Question (end_ - 1) end_] else [])
    else if negb (start =? end_) then [token Unknown start end_] else [] in
  let* close := peek_is (λ c, is_ch c "}") in
  if close : bool then next ;;; ret (tokens ++ [token FormatClose end_ (end_ + 1)])
  else ret tokens.

Definition scan_plain (input : text) (start : nat) (delimiter : StringDelimiter) (byte : bool)
    : M (list Token) :=
  iterate (λ _,
    let* o := next in
    match o with
    | None => ret (inr [token Unknown start (blen input)])
    | Some (index, ch) =>
        if is_ch ch "\" && bool_decide (delimiter = Cooked) then skip_escape ;;; ret (inl tt)
        else if negb (ch =? QUOTE)%Z then ret (inl tt)
        else
          let* tail := of_option (suffix_at index input) in
          match closing_len delimiter tail with
          | None => ret (inl tt)
          | Some length =>
              let end_ := index + length in
              skip_while (λ i _, i <? end_) ;;;
              let* spelling := of_option (slice input start end_) in
              let* valid :=
                (if byte : bool
                 then let* r := decode_byte_string_literal_with_cancellation spelling in ret (is_ok r)
                 else let* r := decode_string_literal_with_cancellation spelling in ret (is_ok r)) in
              let kind := match valid, byte with
                          | true, true => ByteString
                          | true, false => String
                          | false, _ => Unknown
                          end in
              ret (inr [token kind start end_])
          end
    end) tt.

(** The loop over a cooked string: its state is the tokens pushed since the
    opening quote, the start of the pending text and whether a hole was seen. *)
Record cooked_state : Type := { pushed : list Token; text_start : nat; has_hole : bool }.
Record cooked_end : Type := { cooked : cooked_state; closed : bool; cooked_stop : nat }.

Definition cooked_round (input : text) (s : cooked_state) (o : option (nat * Z))
    : M (cooked_state + cooked_end) :=
  match o with
  | None => ret (inr {| cooked := s; closed := false; cooked_stop := blen input |})
  | Some (index, ch) =>
      if (ch =? QUOTE)%Z then
        let* text := push_text input (text_start s) index in
        ret (inr {| cooked := {| pushed := pushed s ++ text ++ [token FormatEnd index (index + 1)];
                                 text_start := text_start s; has_hole := has_hole s |};
                    closed := true; cooked_stop := index + 1 |})
      else if is_ch ch "\" then skip_escape ;;; ret (inl s)
      else
        let* doubled := (if is_ch ch "{" || is_ch ch "}" then peek_is (λ c, (c =? ch)%Z)
                         else ret false) in
        if doubled : bool then next ;;; ret (inl s)
        else if is_ch ch "{" then
          let* text := push_text input (text_start s) index in
          let* hole := scan_hole input (index + 1) in
          let* resume := peek_index input in
          ret (inl {| pushed := pushed s ++ text ++ token FormatOpen index (index + 1) :: hole;
                      text_start := resume; has_hole := true |})
        else ret (inl s)
  end.

Definition scan_cooked (input : text) (start opening : nat) : M (list Token) :=
  let* e := iterate (λ s, let* o := next in cooked_round input s o)
              {| pushed := [token FormatStart start (start + opening)];
                 text_start := start + opening; has_hole := false |} in
  let s := cooked e in
  let* text := (if closed e then ret [] else push_text input (text_start s) (cooked_stop e)) in
  let tokens := pushed s ++ text in
  if has_hole s then ret tokens
  else
    let valid := closed e && forallb (λ t, negb (bool_decide (token_kind t = Unknown))) tokens in
    ret [token (if valid then String else Unknown) start (cooked_stop e)].

Definition scan (input : text) (start : nat) : M (list Token) :=
  let* tail := of_option (suffix_at start input) in
  let byte := starts_with (text_of "b") tail in
  let prefix := if byte then 1 else 0 in
  let* rest := of_option (suffix_at (start + prefix) input) in
  match opening rest with
  | Ok (Some (delimiter, opening)) =>
      let opening := opening + prefix in
      skip_while (λ i _, i <? start + opening) ;;;
      if byte || negb (bool_decide (delimiter = Cooked))
      then scan_plain input start delimiter byte
      else scan_cooked input start opening
  | _ =>
      next ;;;
      (if byte then next ;;; ret tt else ret tt) ;;;
      skip_while (λ _ c, is_ch c "#") ;;;
      let* end_ := peek_index input in
      ret [token Unknown start end_]
  end.

(** ** lexer.rs: one scanner per branch of the main loop *)
Definition scan_one (kind : TokenKind.kind) (index : nat) : M Token :=
  next ;;; ret (token kind index (index + 1)).

(** A character and the same character followed by [c]. *)
Definition scan_pair (one two : TokenKind.kind) (c : Z) (index : nat) : M Token :=
  next ;;;
  let* o := take_if c in
  ret (match o with
       | Some e => token two index (e + 1)
       | None => token one index (index + 1)
       end).

Definition scan_dot (index : nat) : M Token :=
  next ;;;
  let* dot := take_if (chr ".") in
  match dot with
  | Some dot =>
      let* equal := take_if (chr "=") in
      ret (match equal with
           | Some equal => token DotDotEq index (equal + 1)
           | None => token DotDot index (dot + 1)
           end)
  | None => ret (token Dot index (index + 1))
  end.

Definition scan_equal (index : nat) : M Token :=
  next ;;;
  let* o := peek in
  match o with
  | Some (e, c) =>
      if is_ch c "=" then
        next ;;;
        let* last := take_if (chr "=") in
        ret (match last with
             | Some last => token IdentityEq index (last + 1)
             | None => token EqEq index (e + 1)
             end)
      else if is_ch c ">" then next ;;; ret (token FatArrow index (e + 1))
      else ret (token Eq index (index + 1))
  | None => ret (token Eq index (index + 1))
  end.

Definition scan_minus (index : nat) : M Token :=
  next ;;;
  let* arrow := take_if (chr ">") in
  match arrow with
  | Some e => ret (token Arrow index (e + 1))
  | None =>
      let* equal := take_if (chr "=") in
      ret (match equal with
           | Some e => token MinusEq index (e + 1)
           | None => token Minus index (index + 1)
           end)
  end.

Definition scan_bang (index : nat) : M Token :=
  next ;;;
  let* equal := take_if (chr "=") in
  match equal with
  | Some e =>
      let* last := take_if (chr "=") in
      ret (match last with
           | Some last => token IdentityNotEq index (last + 1)
           | None => token NotEq index (e + 1)
           end)
  | None => ret (token Bang index (index + 1))
  end.

Definition scan_percent (index : nat) : M Token :=
  next ;;;
  let* equal := peek_is (λ c, is_ch c "=") in
  if equal : bool then next ;;; ret (token PercentEq index (index + 2))
  else ret (token Percent index (index + 1)).

(** One round of a block comment on the character it took. *)
Definition comment_round (s : nat * nat) (o : option (nat * Z)) : M (nat * nat + nat * nat) :=
  let '(end_, depth) := s in
  match o with
  | None => ret (inr (end_, depth))
  | Some (i, c) =>
      let end_ := i + len_utf8 c in
      let* opens := (if is_ch c "/" then peek_is (λ c, is_ch c "*") else ret false) in
      if opens : bool then
        let* x := next_expect in ret (inl (x.1 + 1, S depth))
      else
        let* closes := (if is_ch c "*" then peek_is (λ c, is_ch c "/") else ret false) in
        if closes : bool then
          let* x := next_expect in
          if depth - 1 =? 0 then ret (inr (x.1 + 1, depth - 1)) else ret (inl (x.1 + 1, depth - 1))
        else ret (inl (end_, depth))
  end.

Definition scan_slash (index : nat) : M Token :=
  next ;;;
  let* line := peek_is (λ c, is_ch c "/") in
  if line : bool then
    let* end_ := take_chars (λ c, negb (line_end c)) (index + 1) in
    ret (token LineComment index end_)
  else
    let* block := peek_is (λ c, is_ch c "*") in
    if block : bool then
      let* star := next_expect in
      let* e := iterate (λ s, let* o := next in comment_round s o) (star.1 + 1, 1) in
      ret (token (if e.2 =? 0 then BlockComment else Unknown) index e.1)
    else
      let* equal := take_if (chr "=") in
      ret (match equal with
           | Some e => token SlashEq index (e + 1)
           | None => token Slash index (index + 1)
           end).

(** ['&' | '|' | '^']. *)
Definition scan_bitwise (input : text) (index : nat) (ch : Z) : M Token :=
  next ;;;
  let* equal := peek_is (λ c, is_ch c "=") in
  let* kind :=
    (if equal : bool then
       next ;;;
       ret (if is_ch ch "&" then AmpEq else if is_ch ch "|" then PipeEq else CaretEq)
     else
       let* doubled := (if negb (is_ch ch "^") then peek_is (λ c, (c =? ch)%Z) else ret false) in
       if doubled : bool then
         next ;;; ret (if is_ch ch "&" then AmpAmp else PipePipe)
       else ret (if is_ch ch "&" then Amp else if is_ch ch "|" then Pipe else Caret)) in
  let* end_ := peek_index input in
  ret (token kind index end_).

(** The state of the character literal loop: end, escaped, closed. *)
Definition scan_char (input : text) (index : nat) (ch : Z) : M Token :=
  let byte := is_ch ch "b" in
  next ;;;
  (if byte then next ;;; ret tt else ret tt) ;;;
  let* s := while_peek (λ i c '(_, escaped, closed),
    if line_end c then Leave
    else
      let end_ := i + len_utf8 c in
      if escaped : bool then Take (end_, false, closed)
      else if is_ch c "\" then Take (end_, true, closed)
      else if is_ch c "'" then TakeLeave (end_, false, true)
      else Take (end_, false, closed)) (index + 1 + (if byte then 1 else 0), false, false) in
  let '(end_, _, closed) := s in
  let* valid :=
    (if closed : bool then
       let* spelling := of_option (slice input index end_) in
       let* r := of_option (if byte then decode_byte_char_literal spelling
                            else decode_char_literal spelling) in
       ret (is_ok r)
     else ret false) in
  ret (token (match valid, byte with
              | true, true => ByteChar
              | true, false => Char
              | false, _ => Unknown
              end) index end_).

Definition integer_kind (spelling : text) : TokenKind.kind :=
  if is_integer_literal spelling then Number else Unknown.

(** The fraction and exponent of a decimal literal. *)
Definition scan_fraction (input : text) (end_ : nat) (kind : TokenKind.kind)
    : M (nat * TokenKind.kind) :=
  let* o := peek in
  let fraction :=
    match o with
    | Some (dot, c) =>
        is_ch c "." && match suffix_at (dot + 1) input with
                       | Some (d :: _) => is_ascii_digit d
                       | _ => false
                       end
    | None => false
    end in
  if fraction : bool then
    let* dot := next_expect in
    let* end_ := take_chars digit_or_underscore (dot.1 + 1) in
    ret (end_, Float)
  else ret (end_, kind).

Definition scan_exponent (end_ : nat) (kind : TokenKind.kind) : M (nat * TokenKind.kind) :=
  let* marker := peek_is (λ c, is_ch c "e" || is_ch c "E") in
  if marker : bool then
    let* exponent := next_expect in
    let* sign := peek_is (λ c, is_ch c "+" || is_ch c "-") in
    let* end_ := (if sign : bool then let* s := next_expect in ret (s.1 + 1)
                  else ret (exponent.1 + 1)) in
    let* digit := peek_is is_ascii_digit in
    let kind := if digit : bool then Float else Unknown in
    let* end_ := take_chars digit_or_underscore end_ in
    ret (end_, kind)
  else ret (end_, kind).

Definition scan_number (input : text) (index : nat) (ch : Z) : M Token :=
  next ;;;
  let* based := (if is_ch ch "0" then peek_is (λ c, is_ch c "b" || is_ch c "o" || is_ch c "x")
                 else ret false) in
  if based : bool then
    let* prefix := next_expect in
    let* end_ := take_chars word_char (prefix.1 + 1) in
    let* spelling := of_option (slice input index end_) in
    ret (token (integer_kind spelling) index end_)
  else
    let* end_ := take_chars digit_or_underscore (index + 1) in
    let* f := scan_fraction input end_ Number in
    let* x := scan_exponent f.1 f.2 in
    let* end_ := take_chars word_char x.1 in
    let* spelling := of_option (slice input index end_) in
    let kind :=
      match (numeric_literal_parts spelling).2 with
      | Some suffix => if starts_with_char (λ c, is_ch c "f") suffix then Float else x.2
      | None => x.2
      end in
    let kind := if bool_decide (kind = Number) && negb (is_integer_literal spelling)
                then Unknown else kind in
    ret (token kind index end_).

Definition scan_identifier (input : text) (index : nat) : M Token :=
  let* end_ := while_peek (λ i c _, if word_char c then Take i else Leave) index in
  let* spelling := of_option (slice input index (end_ + 1)) in
  ret (token (identifier_kind spelling) index (end_ + 1)).

Definition starts_string (input : text) (index : nat) (ch : Z) : M bool :=
  if (ch =? QUOTE)%Z then ret true
  else if is_ch ch "r" then
    let* tail := of_option (suffix_at (index + 1) input) in
    ret (starts_with_char hash_or_quote tail)
  else if is_ch ch "b" then
    let* tail := of_option (suffix_at (index + 1) input) in
    ret (starts_with [QUOTE] tail
         || match strip_prefix (text_of "r") tail with
            | Some rest => starts_with_char hash_or_quote rest
            | None => false
            end)
  else ret false.

(** [match ch { .. }]. *)
Definition scan_char_kind (input : text) (index : nat) (ch : Z) : M Token :=
  if is_ch ch "(" then scan_one LParen index
  else if is_ch ch ")" then scan_one RParen index
  else if is_ch ch "[" then scan_one LBracket index
  else if is_ch ch "]" then scan_one RBracket index
  else if is_ch ch "{" then scan_one LBrace index
  else if is_ch ch "}" then scan_one RBrace index
  else if is_ch ch "," then scan_one Comma index
  else if is_ch ch ":" then scan_pair Colon ColonColon (chr ":") index
  else if is_ch ch ";" then scan_one Semi index
  else if is_ch ch "#" then scan_one Hash index
  else if is_ch ch "." then scan_dot index
  else if is_ch ch "+" then scan_pair Plus PlusEq (chr "=") index
  else if is_ch ch "=" then scan_equal index
  else if is_ch ch "-" then scan_minus index
  else if is_ch ch "*" then scan_pair Star StarEq (chr "=") index
  else if is_ch ch "/" then scan_slash index
  else if is_ch ch "%" then scan_percent index
  else if is_ch ch "?" then scan_one Question index
  else if is_ch ch "!" then scan_bang index
  else if is_ch ch "<" then scan_pair Lt Le (chr "=") index
  else if is_ch ch ">" then scan_pair Gt Ge (chr "=") index
  else if is_ch ch "&" || is_ch ch "|" || is_ch ch "^" then scan_bitwise input index ch
  else
    let* char_literal :=
      (if is_ch ch "'" then ret true
       else if is_ch ch "b" then
         let* tail := of_option (suffix_at index input) in
         ret (starts_with (text_of "b'") tail)
       else ret false) in
    if char_literal : bool then scan_char input index ch
    else if is_ascii_digit ch then scan_number input index ch
    else if is_ch ch "_" || is_ascii_alphabetic ch then scan_identifier input index
    else next ;;; ret (token Unknown index (index + len_utf8 ch)).

(** One round of the main loop on the character it peeked. *)
Definition scan_token (input : text) (index : nat) (ch : Z) : M (list Token) :=
  let* string := starts_string input index ch in
  if string : bool then scan input index
  else
    let* unsupported :=
      (if is_ch ch "f" then
         let* tail := of_option (suffix_at index input) in
         ret (starts_with [chr "f"; QUOTE] tail)
       else ret false) in
    if unsupported : bool then next ;;; ret [token Unknown index (index + 1)]
    else if is_whitespace ch then
      let* end_ := take_chars is_whitespace index in
      ret [token Whitespace index end_]
    else let* t := scan_char_kind input index ch in ret [t].

Definition lex_round (input : text) (tokens : list Token) : M (list Token + list Token) :=
  let* o := peek in
  match o with
  | None => ret (inr tokens)
  | Some (index, ch) =>
      let* new := scan_token input index ch in ret (inl (tokens ++ new))
  end.

(** The scan of a whole input on its own cursor. *)
Definition lex_tokens (input : text) : M (list Token) :=
  let* tokens := iterate (lex_round input) [] in
  let eof := blen input in
  ret (tokens ++ [token Eof eof eof]).

Definition lex_with_cancellation (input : text) : M (list Token) :=
  check ;;;
  let* tokens := with_text input (lex_tokens input) in
  check ;;; ret tokens.

(** [None] is a panic. *)
Definition lex (input : text) : option (list Token) := run_fresh (lex_with_cancellation input).

Example lex_example :
  (map (λ t, (token_kind t, start (token_span t), end_ (token_span t)))) <$>
    lex (text_of "val x=0xFFu8;//c")
  = Some [(ValKw, 0, 3); (Whitespace, 3, 4); (Ident, 4, 5); (Eq, 5, 6); (Number, 6, 12);
          (Semi, 12, 13); (LineComment, 13, 16); (Eof, 16, 16)].
Proof. vm_compute. reflexivity. Qed.
Example lex_interpolation :
  (map token_kind) <$> lex ([QUOTE] ++ text_of "a{x:?}\u{7B}" ++ [QUOTE])
  = Some [FormatStart; FormatText; FormatOpen; Ident; Colon; Question; FormatClose; FormatText;
          FormatEnd; Eof].
Proof. vm_compute. reflexivity. Qed.
