(* ===== verification/LexerProps.v ===== *)
(** * The lexer is lossless

    Every scanner of [Lexer] ends without a panic, the tokens of a completed
    scan tile the input, each token's text has the shape its kind promises, and
    cancellation can only withhold a result, never change one. *)
From Stdlib Require Import Ascii.
From S2P Require Import Prelude Text Literal LiteralGrammar Token Lexer.
Open Scope nat_scope.
Import TokenKind.

(** ** What a kind promises of its text *)
Definition punctuation (k : TokenKind.kind) : option string :=
  match k with
  | LParen => Some "(" | RParen => Some ")" | LBracket => Some "[" | RBracket => Some "]"
  | LBrace | FormatOpen => Some "{" | RBrace | FormatClose => Some "}"
  | Comma => Some "," | Colon => Some ":" | ColonColon => Some "::" | Semi => Some ";"
  | Dot => Some "." | DotDot => Some ".." | DotDotEq => Some "..=" | Hash => Some "#"
  | Eq => Some "=" | Plus => Some "+" | PlusEq => Some "+=" | Minus => Some "-"
  | MinusEq => Some "-=" | Star => Some "*" | StarEq => Some "*=" | Slash => Some "/"
  | SlashEq => Some "/=" | Percent => Some "%" | PercentEq => Some "%=" | Bang => Some "!"
  | Question => Some "?" | EqEq => Some "==" | NotEq => Some "!=" | IdentityEq => Some "==="
  | IdentityNotEq => Some "!==" | Lt => Some "<" | Gt => Some ">" | Le => Some "<="
  | Ge => Some ">=" | Amp => Some "&" | AmpEq => Some "&=" | PipeEq => Some "|="
  | Caret => Some "^" | CaretEq => Some "^=" | AmpAmp => Some "&&" | Pipe => Some "|"
  | PipePipe => Some "||" | Arrow => Some "->" | FatArrow => Some "=>"
  | _ => None
  end.

Definition decodes {A} (o : option (result A string)) : bool :=
  match o with Some (Ok _) => true | _ => false end.
Definition word (t : text) : bool :=
  starts_with_char (λ c, is_ch c "_" || is_ascii_alphabetic c) t && forallb word_char t.

Definition kind_ok (k : TokenKind.kind) (t : text) : bool :=
  match k with
  | Unknown => true
  | Eof => bool_decide (t = [])
  | Whitespace => forallb is_whitespace t
  | LineComment => starts_with (text_of "//") t && forallb (λ c, negb (line_end c)) t
  | BlockComment => starts_with (text_of "/*") t && bool_decide (is_Some (strip_suffix (text_of "*/") t))
  | Number => is_integer_literal t
  | Float => starts_with_char is_ascii_digit t
  | String => decodes (decode_string_literal t)
  | ByteString => decodes (decode_byte_string_literal t)
  | Char => decodes (decode_char_literal t)
  | ByteChar => decodes (decode_byte_char_literal t)
  | FormatStart | FormatEnd => bool_decide (t = [QUOTE])
  | FormatText => decodes (decode_string_fragment t)
  | _ => match punctuation k with
         | Some s => bool_decide (t = text_of s)
         | None => word t && bool_decide (identifier_kind t = k)
         end
  end.

(** Tokens that tile a text from a byte offset on. *)
Inductive spelled : nat → list Token → text → Prop :=
| spelled_nil n : spelled n [] []
| spelled_cons n k t toks c :
    t ≠ [] → kind_ok k t = true → spelled (n + blen t) toks c →
    spelled n (token k n (n + blen t) :: toks) (t ++ c).

Lemma spelled_app n a c b d : spelled n a c → spelled (n + blen c) b d → spelled n (a ++ b) (c ++ d).
Proof.
  induction 1 as [n|n k t toks c Ht Hk Hs IH]; simpl; intros Hb; [by rewrite Nat.add_0_r in Hb|].
  rewrite <- app_assoc. constructor; [done..|]. apply IH. by rewrite blen_app, Nat.add_assoc in Hb.
Qed.

Lemma spelled_one k n t : t ≠ [] → kind_ok k t = true → spelled n [token k n (n + blen t)] t.
Proof. intros. rewrite <- (app_nil_r t) at 2. by constructor; [..|constructor]. Qed.

(** ** Rules for the iterator idioms *)
Lemma wp_peek_is input pre st p (Q : bool → St → Prop) :
  At input pre st →
  (∀ ch st', Peeked input pre ch st' → rest (cur st') = rest (cur st) → Q (p ch) st') →
  (∀ st', At input pre st' → rest (cur st') = rest (cur st) → ends st st' → Q false st') →
  wp (peek_is p) Q st.
Proof.
  intros HA HS HN. apply scan_bind. eapply wp_peek; [done| |].
  - intros ch st' HP Hr _. apply scan_ret. auto.
  - intros st' HA' Hr He. apply scan_ret. auto.
Qed.

Lemma wp_take_if input pre st c (Q : option nat → St → Prop) :
  At input pre st →
  (∀ st', At input (pre ++ [c]) st' → Q (Some (blen pre)) st') →
  (∀ st', At input pre st' → Q None st') →
  wp (take_if c) Q st.
Proof.
  intros HA HS HN. apply scan_bind. eapply wp_peek; [done| |].
  - intros ch st' HP _ _. destruct (Z.eqb_spec ch c) as [-> |].
    + apply scan_bind. eapply wp_next_peeked; [done|]. intros st'' HA' _ _. apply scan_ret. auto.
    + apply scan_ret, HN. by eapply Peeked_At.
  - intros st' HA' _ _. apply scan_ret. auto.
Qed.

Lemma wp_next_expect input pre ch st (Q : nat * Z → St → Prop) :
  Peeked input pre ch st →
  (∀ st', At input (pre ++ [ch]) st' → Q (blen pre, ch) st') →
  wp next_expect Q st.
Proof.
  intros HP HQ. apply scan_bind. eapply wp_next_peeked; [done|]. intros st' HA _ _. apply scan_ret. auto.
Qed.

Lemma wp_take_chars input pre st p e (Q : nat → St → Prop) :
  At input pre st → e = blen pre →
  (∀ c st', At input (pre ++ c) st' → forallb p c = true → Q (blen (pre ++ c)) st') →
  wp (take_chars p e) Q st.
Proof.
  intros HA -> HQ.
  eapply (wp_while_peek input _ (λ pre' e, ∃ c, pre' = pre ++ c ∧ forallb p c = true ∧ e = blen pre'));
    [done|exists []; by rewrite app_nil_r| | | |].
  - intros pre' ch e e' (c & -> & Hc & ->) _ Hb. destruct (p ch) eqn:E; [|done]. injection Hb as <-.
    exists (c ++ [ch]). rewrite app_assoc, forallb_app, Hc, blen_snoc. simpl. by rewrite E.
  - intros pre' e st' (c & -> & Hc & ->) HA' _. eauto.
  - intros pre' ch e st' (c & -> & Hc & ->) HP _. eapply HQ; [by eapply Peeked_At|done].
  - intros pre' ch e e' st' _ Hb. by destruct (p ch).
Qed.

Lemma wp_peek_index input pre st (Q : nat → St → Prop) :
  At input pre st →
  (∀ st', At input pre st' → finished (cur st') = true ∨ finished (cur st) = false →
     Q (if finished (cur st') then blen input else blen pre) st') →
  wp (peek_index input) Q st.
Proof.
  intros HA HQ. apply scan_bind. eapply wp_peek; [done| |].
  - intros ch st' HP _ Hf. apply scan_ret. pose proof HP as (HA' & _ & Hf' & _).
    specialize (HQ st' HA' (or_intror Hf)). by rewrite Hf' in HQ.
  - intros st' HA' Hr He. apply scan_ret. destruct (finished (cur st')) eqn:Ef.
    + specialize (HQ st' HA' (or_introl Ef)). by rewrite Ef in HQ.
    + destruct He as [[He Hff]|He]; [|congruence]. rewrite Ef in Hff.
      specialize (HQ st' HA' (or_intror (eq_sym Hff))). rewrite Ef in HQ.
      assert (input = pre) as -> by (destruct HA' as (-> & _); by rewrite He, app_nil_r). done.
Qed.

(** What a scanner of one token leaves: a nonempty text taken, and, unless the
    run was cut, the token of that text. *)
Definition scanned (input pre : text) (t : Token) (st : St) : Prop :=
  ∃ c k, c ≠ [] ∧ At input (pre ++ c) st
    ∧ (finished (cur st) = true ∨ (t = token k (blen pre) (blen (pre ++ c)) ∧ kind_ok k c = true)).

Lemma scanned_intro input pre c k e st :
  At input (pre ++ c) st → c ≠ [] → kind_ok k c = true → e = blen (pre ++ c) →
  scanned input pre (token k (blen pre) e) st.
Proof. intros HA Hc Hk ->. exists c, k. split_and!; auto. Qed.

(** Right-associate concatenations, through the heads of lists. *)
Ltac norm_app := repeat first [rewrite <- !app_assoc | progress cbn [app]].

(** ** Punctuation *)
Ltac scan_step :=
  lazymatch goal with
  | |- wp (bind _ _) _ _ => apply scan_bind
  | |- wp (ret _) _ _ => apply scan_ret
  | HP : Peeked ?i ?p ?c ?st |- wp next _ ?st =>
      eapply (wp_next_peeked i p c st); [exact HP|]; intros ? ? _ _
  | HP : Peeked ?i ?p ?c ?st |- wp next_expect _ ?st =>
      eapply (wp_next_expect i p c st); [exact HP|]; intros ? ?
  | HA : At ?i ?p ?st |- wp (take_if _) _ ?st =>
      eapply (wp_take_if i p st); [exact HA| |]; intros ? ?
  | HA : At ?i ?p ?st |- wp (peek_is _) _ ?st =>
      eapply (wp_peek_is i p st); [exact HA| |]; [intros ? ? ? _|intros ? ? _ ?]
  | HP : Peeked ?i ?p ?c ?st |- wp (peek_is _) _ ?st =>
      eapply (wp_peek_is i p st); [exact (Peeked_At _ _ _ _ HP)| |]; [intros ? ? ? _|intros ? ? _ ?]
  | HA : At ?i ?p ?st |- wp (take_chars _ _) _ ?st =>
      eapply (wp_take_chars i p st); [exact HA| |]
  end.

(** Byte lengths of texts that end in ASCII characters. *)
Ltac solve_blen :=
  rewrite ?blen_app; cbn [blen];
  repeat match goal with
  | |- context [len_utf8 (chr ?a)] => change (len_utf8 (chr a)) with 1
  | |- context [len_utf8 QUOTE] => change (len_utf8 QUOTE) with 1
  end; lia.

Ltac finish_token :=
  lazymatch goal with
  | HA : At ?i ?p ?st |- scanned ?i ?pre _ ?st =>
      rewrite <- ?app_assoc in HA; cbn [app] in HA;
      eapply scanned_intro; [exact HA|done|reflexivity|solve_blen]
  | HP : Peeked ?i ?p ?c ?st |- scanned ?i ?pre _ ?st =>
      let HA := fresh in pose proof (Peeked_At _ _ _ _ HP) as HA;
      rewrite <- ?app_assoc in HA; cbn [app] in HA;
      eapply scanned_intro; [exact HA|done|reflexivity|solve_blen]
  end.

Section Punctuation.
Context (input pre : text) (st : St).

Lemma wp_scan_one k s ch : Peeked input pre ch st → punctuation k = Some s → text_of s = [ch] →
  len_utf8 ch = 1 → kind_ok k [ch] = true → wp (scan_one k (blen pre)) (scanned input pre) st.
Proof.
  intros HP _ Hs Hl Hk. unfold scan_one. repeat scan_step.
  eapply scanned_intro; [done..|]. rewrite blen_snoc. lia.
Qed.

Lemma wp_scan_pair one two a c : Peeked input pre (chr a) st →
  len_utf8 (chr a) = 1 → len_utf8 c = 1 →
  kind_ok one [chr a] = true → kind_ok two [chr a; c] = true →
  wp (scan_pair one two c (blen pre)) (scanned input pre) st.
Proof.
  intros HP Ha Hc H1 H2. unfold scan_pair. repeat scan_step.
  - rewrite <- app_assoc in H0. eapply scanned_intro; [done..|]. rewrite !blen_app. simpl. lia.
  - eapply scanned_intro; [done..|]. rewrite !blen_app. simpl. lia.
Qed.

Lemma wp_scan_dot : Peeked input pre (chr ".") st → wp (scan_dot (blen pre)) (scanned input pre) st.
Proof. intros HP. unfold scan_dot. repeat scan_step; finish_token. Qed.
Lemma wp_scan_minus : Peeked input pre (chr "-") st →
  wp (scan_minus (blen pre)) (scanned input pre) st.
Proof. intros HP. unfold scan_minus. repeat scan_step; finish_token. Qed.
Lemma wp_scan_bang : Peeked input pre (chr "!") st →
  wp (scan_bang (blen pre)) (scanned input pre) st.
Proof. intros HP. unfold scan_bang. repeat scan_step; finish_token. Qed.

Lemma wp_scan_equal : Peeked input pre (chr "=") st →
  wp (scan_equal (blen pre)) (scanned input pre) st.
Proof.
  intros HP. unfold scan_equal. do 3 scan_step. eapply wp_peek; [done| |].
  - intros ch st2 HP2 _ _. destruct (is_ch ch "=") eqn:E1.
    { apply is_ch_true in E1 as ->. repeat scan_step; finish_token. }
    destruct (is_ch ch ">") eqn:E2.
    { apply is_ch_true in E2 as ->. repeat scan_step; finish_token. }
    repeat scan_step. finish_token.
  - intros st2 HA2 _ _. repeat scan_step. finish_token.
Qed.

Lemma wp_scan_percent : Peeked input pre (chr "%") st →
  wp (scan_percent (blen pre)) (scanned input pre) st.
Proof.
  intros HP. unfold scan_percent. repeat scan_step.
  - destruct (is_ch ch "=") eqn:E; [apply is_ch_true in E as ->|]; repeat scan_step; finish_token.
  - finish_token.
Qed.
End Punctuation.

(** ** Loops that start on a peeked character *)
Lemma wp_while_peek_first {S} input pre ch body (acc acc' : S) (Q : S → St → Prop) st :
  Peeked input pre ch st → body (blen pre) ch acc = Take acc' →
  (∀ st', At input (pre ++ [ch]) st' → finished (cur st') = false → wp (while_peek body acc') Q st') →
  wp (while_peek body acc) Q st.
Proof.
  intros HP Hb HQ. unfold while_peek at 1, iterate, remaining. apply scan_bind. unfold wp at 1.
  set (m := iter_fuel _ _ _). change (wp m Q st). subst m. cbn [iter_fuel].
  apply scan_bind, scan_bind. eapply wp_peek_peeked; [done|]. cbv beta iota. rewrite Hb.
  apply scan_bind. eapply wp_next_peeked; [done|]. intros st' HA Hr Hf. apply scan_ret.
  specialize (HQ st' HA Hf). unfold while_peek, iterate, remaining in HQ. by rewrite Hr.
Qed.

Lemma wp_take_chars_first input pre ch p e (Q : nat → St → Prop) st :
  Peeked input pre ch st → p ch = true →
  (∀ c st', At input (pre ++ ch :: c) st' → forallb p (ch :: c) = true →
     Q (blen (pre ++ ch :: c)) st') →
  wp (take_chars p e) Q st.
Proof.
  intros HP Hp HQ. eapply wp_while_peek_first; [done|by rewrite Hp|]. intros st' HA _.
  eapply (wp_take_chars _ (pre ++ [ch])); [done|by rewrite blen_snoc|].
  intros c st'' HA' Hc. rewrite <- app_assoc in HA' |- *. apply HQ; [done|]. simpl. by rewrite Hp.
Qed.

Lemma peek_finished st : finished (cur st) = true → peek st = Done None st.
Proof. intros Hf. unfold peek. destruct (rest (cur st)); [done|]. by rewrite Hf. Qed.
Lemma wp_while_peek_finished {S} body (acc : S) (Q : S → St → Prop) st :
  finished (cur st) = true → Q acc st → wp (while_peek body acc) Q st.
Proof.
  intros Hf HQ. unfold wp, while_peek, iterate, remaining, bind at 1. cbn [iter_fuel].
  unfold bind at 1 2. by rewrite (peek_finished _ Hf).
Qed.

Section Scanners.
Context (input pre : text).

(** ** Comments *)
Definition comment_inv (s : nat * nat) (st : St) : Prop :=
  ∃ c, At input (pre ++ chr "/" :: chr "*" :: c) st
    ∧ s.1 = blen (pre ++ chr "/" :: chr "*" :: c) ∧ 1 ≤ s.2.

Definition comment_end (e : nat * nat) (st : St) : Prop :=
  ∃ c, At input (pre ++ chr "/" :: chr "*" :: c) st
    ∧ e.1 = blen (pre ++ chr "/" :: chr "*" :: c)
    ∧ (e.2 = 0 → is_Some (strip_suffix (text_of "*/") (chr "/" :: chr "*" :: c))).
Definition comment_post (st : St) (r : nat * nat + nat * nat) (st' : St) : Prop :=
  match r with
  | inl s' => comment_inv s' st' ∧ length (rest (cur st')) < length (rest (cur st))
  | inr e => comment_end e st'
  end.

Lemma wp_comment : ∀ s st, comment_inv s st →
  wp (let* o := next in comment_round s o) (comment_post st) st.
Proof.
  intros [e d] st (c & HA & He & Hd). simpl in He, Hd. apply scan_bind. eapply wp_next; [done| |].
  2: { intros st' HA' _ _. apply scan_ret. exists c. split_and!; [done..|simpl; lia]. }
  intros ch st1 HA1 Hr1 _. set (p2 := pre ++ chr "/" :: chr "*" :: c) in *. cbn [comment_round].
  assert (∀ c' st', At input (p2 ++ ch :: c') st' → length (rest (cur st')) < length (rest (cur st))) as Hlen.
  { intros c' st' HA'. rewrite (At_app_rest _ _ _ _ _ HA HA'). simpl. rewrite length_app. lia. }
  assert (∀ c' st' d', At input (p2 ++ ch :: c') st' → 1 ≤ d' →
    comment_inv (blen (p2 ++ ch :: c'), d') st') as Hinv.
  { intros c' st' d' HA' Hd'. exists (c ++ ch :: c'). subst p2. rewrite <- app_assoc in *. done. }
  apply scan_bind.
  assert (∀ st', At input (p2 ++ [ch]) st' →
    wp (let* closes := (if is_ch ch "*" then peek_is (λ c, is_ch c "/") else ret false) in
        if closes : bool then
          let* x := next_expect in
          if d - 1 =? 0 then ret (inr (x.1 + 1, d - 1)) else ret (inl (x.1 + 1, d - 1))
        else ret (inl (blen p2 + len_utf8 ch, d))) (comment_post st) st') as Hclose.
  { intros st' HA'. rewrite <- blen_snoc. apply scan_bind. destruct (is_ch ch "*") eqn:Es.
    2: { apply scan_ret, scan_ret. split; [by apply Hinv|by eapply Hlen]. }
    apply is_ch_true in Es as ->. eapply wp_peek_is; [done| |].
    2: { intros st2 HA2 _ _. apply scan_ret. split; [by apply Hinv|by eapply Hlen]. }
    intros c2 st2 HP2 _. destruct (is_ch c2 "/") eqn:E2.
    2: { apply scan_ret. pose proof (Peeked_At _ _ _ _ HP2).
         split; [by apply Hinv|by eapply Hlen]. }
    apply is_ch_true in E2 as ->. apply scan_bind. eapply wp_next_expect; [done|]. intros st3 HA3.
    rewrite <- app_assoc in HA3. simpl in HA3. cbn [fst].
    assert (blen (p2 ++ [chr "*"]) + 1 = blen (p2 ++ [chr "*"; chr "/"])) as -> by solve_blen.
    destruct (Nat.eqb_spec (d - 1) 0); apply scan_ret.
    - exists (c ++ [chr "*"; chr "/"]). subst p2. rewrite <- app_assoc in HA3 |- *.
      split_and!; [done..|]. intros _. exists (chr "/" :: chr "*" :: c).
      apply strip_suffix_iff. done.
    - split; [apply Hinv; [done|lia]|by eapply Hlen]. }
  destruct (is_ch ch "/") eqn:Es; [|apply scan_ret; by apply Hclose].
  apply is_ch_true in Es as ->. eapply wp_peek_is; [done| |].
  - intros c2 st2 HP2 _. destruct (is_ch c2 "*") eqn:E2; [|apply Hclose; by eapply Peeked_At].
    apply is_ch_true in E2 as ->. apply scan_bind. eapply wp_next_expect; [done|]. intros st3 HA3.
    rewrite <- app_assoc in HA3. simpl in HA3. apply scan_ret. cbn [fst].
    assert (blen (p2 ++ [chr "/"]) + 1 = blen (p2 ++ [chr "/"; chr "*"])) as -> by solve_blen.
    split; [apply Hinv; [done|lia]|by eapply Hlen].
  - intros st2 HA2 _ _. by apply Hclose.
Qed.

Lemma wp_block_comment st : Peeked input (pre ++ [chr "/"]) (chr "*") st →
  wp (let* star := next_expect in
      let* e := iterate (λ s, let* o := next in comment_round s o) (star.1 + 1, 1) in
      ret (token (if e.2 =? 0 then BlockComment else Unknown) (blen pre) e.1))
    (scanned input pre) st.
Proof.
  intros HP. do 2 scan_step. rewrite <- app_assoc in H. cbn [app fst] in *.
  eapply wp_bind_inv; [eapply (wp_iterate comment_inv comment_end); [|apply wp_comment]|].
  - exists []. split_and!; [done| |simpl; lia]. cbn [fst]. solve_blen.
  - intros [e d] st2 (c & HA2 & He & Hd). apply scan_ret. cbn [fst snd] in *.
    destruct (Nat.eqb_spec d 0) as [-> |]; (eapply scanned_intro; [exact HA2|done| |done]); [|done].
    unfold kind_ok. rewrite (bool_decide_eq_true_2 _ (Hd eq_refl)). done.
Qed.

Lemma wp_scan_slash st : Peeked input pre (chr "/") st →
  wp (scan_slash (blen pre)) (scanned input pre) st.
Proof.
  intros HP. unfold scan_slash. do 3 scan_step.
  assert (∀ st, At input (pre ++ [chr "/"]) st →
    wp (let* equal := take_if (chr "=") in
        ret (match equal with
             | Some e => token SlashEq (blen pre) (e + 1)
             | None => token Slash (blen pre) (blen pre + 1)
             end)) (scanned input pre) st) as Hslash.
  { intros st2 HA2. repeat scan_step; finish_token. }
  eapply wp_peek_is; [done| |].
  - intros ch st1 HP1 _. destruct (is_ch ch "/") eqn:El.
    { apply is_ch_true in El as ->. apply scan_bind. eapply wp_take_chars_first; [done|done|].
      intros c st2 HA2 Hc. apply scan_ret. rewrite <- app_assoc in HA2 |- *.
      eapply scanned_intro; [done|done| |done]. unfold kind_ok. cbn [app forallb] in *.
      by apply andb_true_iff in Hc as [-> ->]. }
    apply scan_bind. eapply wp_peek_is; [by eapply Peeked_At| |].
    + intros ch2 st2 HP2 _. destruct (is_ch ch2 "*") eqn:E2.
      * apply is_ch_true in E2 as ->. by apply wp_block_comment.
      * apply Hslash. by eapply Peeked_At.
    + intros st2 HA2 _ _. by apply Hslash.
  - intros st1 HA1 _ _. apply scan_bind. eapply wp_peek_is; [done| |].
    + intros ch2 st2 HP2 _. destruct (is_ch ch2 "*") eqn:E2.
      * apply is_ch_true in E2 as ->. by apply wp_block_comment.
      * apply Hslash. by eapply Peeked_At.
    + intros st2 HA2 _ _. by apply Hslash.
Qed.

(** ** [&], [|] and [^] *)
Lemma scanned_peek_index c k st : At input (pre ++ c) st → c ≠ [] → kind_ok k c = true →
  wp (let* end_ := peek_index input in ret (token k (blen pre) end_)) (scanned input pre) st.
Proof.
  intros HA Hc Hk. apply scan_bind. eapply wp_peek_index; [done|]. intros st' HA' Hf. apply scan_ret.
  destruct (finished (cur st')) eqn:E; [|by eapply scanned_intro].
  exists c, k. split_and!; auto.
Qed.

Lemma wp_scan_bitwise ch st : Peeked input pre ch st →
  is_ch ch "&" || is_ch ch "|" || is_ch ch "^" = true →
  wp (scan_bitwise input (blen pre) ch) (scanned input pre) st.
Proof.
  intros HP Hch. assert (ch = chr "&" ∨ ch = chr "|" ∨ ch = chr "^") as Hcases.
  { rewrite !orb_true_iff, !is_ch_true in Hch. tauto. }
  unfold scan_bitwise. do 3 scan_step.
  assert (∀ st1, At input (pre ++ [ch]) st1 →
    wp (let* doubled := (if negb (is_ch ch "^") then peek_is (λ c, (c =? ch)%Z) else ret false) in
        if doubled : bool then next ;;; ret (if is_ch ch "&" then AmpAmp else PipePipe)
        else ret (if is_ch ch "&" then Amp else if is_ch ch "|" then Pipe else Caret))
      (λ kind, wp (let* end_ := peek_index input in ret (token kind (blen pre) end_))
                  (scanned input pre)) st1) as Hnoeq.
  { intros st1 HA1. assert (∀ st2, At input (pre ++ [ch]) st2 →
      wp (ret (if is_ch ch "&" then Amp else if is_ch ch "|" then Pipe else Caret))
        (λ kind, wp (let* end_ := peek_index input in ret (token kind (blen pre) end_))
                    (scanned input pre)) st2) as Hsingle.
    { intros st2 HA2. apply scan_ret, (scanned_peek_index [ch]); [done|done|].
      by destruct Hcases as [-> |[-> | ->]]. }
    apply scan_bind. destruct (negb (is_ch ch "^")) eqn:En; [|apply scan_ret; by apply Hsingle].
    eapply wp_peek_is; [done| |].
    - intros c2 st2 HP2 _. destruct (Z.eqb_spec c2 ch) as [-> |].
      + do 3 scan_step. rewrite <- app_assoc in H0.
        apply (scanned_peek_index [ch; ch]); [done|done|].
        by destruct Hcases as [-> |[-> | ->]].
      + apply Hsingle. by eapply Peeked_At.
    - intros st2 HA2 _ _. by apply Hsingle. }
  eapply wp_peek_is; [done| |].
  - intros c2 st2 HP2 _. destruct (is_ch c2 "=") eqn:Ee.
    + apply is_ch_true in Ee as ->. do 4 scan_step. rewrite <- app_assoc in H0.
      apply (scanned_peek_index [ch; chr "="]); [done|done|].
      by destruct Hcases as [-> |[-> | ->]].
    + apply scan_bind. apply Hnoeq. by eapply Peeked_At.
  - intros st2 HA2 _ _. apply scan_bind. by apply Hnoeq.
Qed.

(** ** Identifiers *)
Lemma word_char_utf8 c : word_char c = true → len_utf8 c = 1.
Proof.
  unfold word_char, is_ascii_alphanumeric, is_ascii_alphabetic, is_ascii_digit, between, is_ch.
  change (chr "a") with 97%Z. change (chr "z") with 122%Z. change (chr "A") with 65%Z.
  change (chr "Z") with 90%Z. change (chr "0") with 48%Z. change (chr "9") with 57%Z.
  change (chr "_") with 95%Z. intros H. unfold len_utf8. rewrite (proj2 (Z.ltb_lt _ _)); [done|lia].
Qed.

Definition word_start (c : Z) : bool := is_ch c "_" || is_ascii_alphabetic c.
Lemma word_start_char c : word_start c = true → word_char c = true.
Proof.
  unfold word_start, word_char, is_ascii_alphanumeric.
  intros [-> | ->]%orb_true_iff; [by rewrite orb_true_r|done].
Qed.

Lemma identifier_kind_in t : identifier_kind t ∈ Ident :: keywords.*2.
Proof.
  unfold identifier_kind. destruct (list_find _ keywords) as [[i [s k]]|] eqn:E.
  - apply list_find_Some in E as (E & _). right. apply list_elem_of_fmap. exists (s, k).
    split; [done|]. by eapply list_elem_of_lookup_2.
  - apply elem_of_cons. by left.
Qed.
Lemma identifier_kind_ok t : word t = true → kind_ok (identifier_kind t) t = true.
Proof.
  intros Hw. assert (Forall (λ k, kind_ok k t = word t && bool_decide (identifier_kind t = k))
    (Ident :: keywords.*2)) as Hall.
  { repeat (apply Forall_cons_2; [reflexivity|]). apply Forall_nil_2. }
  rewrite Forall_forall in Hall. rewrite Hall by apply list_elem_of_In, identifier_kind_in.
  rewrite Hw. by apply bool_decide_eq_true_2.
Qed.

Lemma wp_scan_identifier ch st : Peeked input pre ch st → word_start ch = true →
  wp (scan_identifier input (blen pre)) (scanned input pre) st.
Proof.
  intros HP Hch. pose proof (word_start_char _ Hch) as Hw. unfold scan_identifier.
  eapply (wp_bind_inv _ _ _ (λ e st', ∃ c, At input (pre ++ ch :: c) st'
    ∧ forallb word_char (ch :: c) = true ∧ e + 1 = blen (pre ++ ch :: c))).
  - eapply wp_while_peek_first; [done|by rewrite Hw|]. intros st1 HA1 _.
    eapply (wp_while_peek input _ (λ pre' e, ∃ c, pre' = pre ++ ch :: c
      ∧ forallb word_char (ch :: c) = true ∧ e + 1 = blen pre')); [done| | | | |].
    + exists []. split_and!; [done|simpl; by rewrite Hw|]. rewrite blen_snoc, word_char_utf8 by done. lia.
    + intros pre' x e e' (c & -> & Hc & He) _ Hb. destruct (word_char x) eqn:Ex; [|done].
      injection Hb as <-. exists (c ++ [x]). rewrite <- app_assoc. split_and!; [done| |].
      * change (ch :: c ++ [x]) with ((ch :: c) ++ [x]). rewrite forallb_app, Hc. simpl. by rewrite Ex.
      * rewrite app_assoc, blen_snoc, (word_char_utf8 x) by done. done.
    + intros pre' e st' (c & -> & Hc & He) HA' _. eauto.
    + intros pre' x e st' (c & -> & Hc & He) HP' _. exists c. split; [by eapply Peeked_At|done].
    + intros pre' x e e' st' _ Hb. by destruct (word_char x).
  - intros e st' (c & HA & Hc & ->). apply scan_bind.
    eapply wp_of_option; [by eapply At_slice|]. apply scan_ret.
    eapply scanned_intro; [done|done| |done]. apply identifier_kind_ok.
    unfold word. rewrite Hc. unfold word_start in Hch. simpl. by rewrite Hch.
Qed.

(** ** Numbers *)
Definition extends (kinds : TokenKind.kind → Prop) (p : text) (r : nat * TokenKind.kind) (st : St) : Prop :=
  ∃ c, At input (p ++ c) st ∧ r.1 = blen (p ++ c) ∧ kinds r.2.

Lemma extends_nil (kinds : TokenKind.kind → Prop) p k st :
  At input p st → kinds k → extends kinds p (blen p, k) st.
Proof. intros HA Hk. exists []. by rewrite app_nil_r. Qed.

Lemma wp_scan_fraction p k st : At input p st →
  wp (scan_fraction input (blen p) k) (extends (λ k', k' = k ∨ k' = Float) p) st.
Proof.
  intros HA. unfold scan_fraction. apply scan_bind. eapply wp_peek; [done| |].
  - intros ch st1 HP _ _. destruct (is_ch ch "." && _) eqn:E.
    + apply andb_true_iff in E as [->%is_ch_true _]. do 3 scan_step.
      eapply wp_take_chars; [done|cbn [fst]; solve_blen|]. intros c st2 HA2 _. apply scan_ret.
      rewrite <- app_assoc in HA2 |- *. eexists. split_and!; [done|done|by right].
    + apply scan_ret, extends_nil; [by eapply Peeked_At|by left].
  - intros st1 HA1 _ _. apply scan_ret, extends_nil; [done|by left].
Qed.

Lemma wp_scan_exponent p k st : At input p st →
  wp (scan_exponent (blen p) k) (extends (λ k', k' = k ∨ k' = Float ∨ k' = Unknown) p) st.
Proof.
  intros HA. unfold scan_exponent. apply scan_bind. eapply wp_peek_is; [done| |].
  2: { intros st1 HA1 _ _. apply scan_ret, extends_nil; [done|by left]. }
  intros ch st1 HP _. destruct (is_ch ch "e" || is_ch ch "E") eqn:E.
  2: { apply scan_ret, extends_nil; [by eapply Peeked_At|by left]. }
  assert (len_utf8 ch = 1) as Hlen.
  { apply orb_true_iff in E as [->%is_ch_true | ->%is_ch_true]; done. }
  apply scan_bind. eapply wp_next_expect; [done|]. intros st2 HA2.
  assert (∀ q st3, At input (p ++ ch :: q) st3 →
    wp (let* digit := peek_is is_ascii_digit in
        let kind := if digit : bool then Float else Unknown in
        let* end_ := take_chars digit_or_underscore (blen (p ++ ch :: q)) in ret (end_, kind))
      (extends (λ k', k' = k ∨ k' = Float ∨ k' = Unknown) p) st3) as Hdigits.
  { intros q st3 HA3. eapply (wp_bind_inv _ _ _ (λ _ st', At input (p ++ ch :: q) st')).
    - eapply wp_peek_is; [done| |]; [intros; by eapply Peeked_At|by intros].
    - intros d st4 HA4. apply scan_bind. eapply wp_take_chars; [done|done|]. intros c st5 HA5 _.
      apply scan_ret. rewrite <- app_assoc in HA5 |- *. eexists. split_and!; [done|done|].
      destruct d; auto. }
  eapply (wp_bind_inv _ _ _ (λ b st', if b : bool then ∃ s, (s = chr "+" ∨ s = chr "-") ∧
    Peeked input (p ++ [ch]) s st' else At input (p ++ [ch]) st')).
  { eapply wp_peek_is; [done| |]; [|by intros]. intros s st3 HP3 _.
    destruct (is_ch s "+" || is_ch s "-") eqn:Es; [|by eapply Peeked_At]. exists s.
    rewrite orb_true_iff, !is_ch_true in Es. done. }
  intros [] st3.
  - intros (s & Hs & HP3). apply scan_bind, scan_bind. eapply wp_next_expect; [done|]. intros st4 HA4.
    apply scan_ret. rewrite <- app_assoc in HA4. cbn [fst].
    replace (blen (p ++ [ch]) + 1) with (blen (p ++ ch :: [s])); [by apply Hdigits|].
    rewrite !blen_app. simpl. rewrite Hlen. destruct Hs as [-> | ->]; solve_blen.
  - intros HA3. apply scan_bind, scan_ret. cbn [fst].
    replace (blen p + 1) with (blen (p ++ [ch])) by (rewrite blen_snoc; lia). by apply Hdigits.
Qed.

Lemma ascii_digit_utf8 c : is_ascii_digit c = true → len_utf8 c = 1.
Proof.
  intros H. apply word_char_utf8. unfold word_char, is_ascii_alphanumeric. rewrite H.
  by rewrite orb_true_r.
Qed.

Lemma integer_kind_ok t : kind_ok (integer_kind t) t = true.
Proof. unfold integer_kind. by destruct (is_integer_literal t) eqn:E. Qed.

Lemma wp_scan_number ch st : Peeked input pre ch st → is_ascii_digit ch = true →
  wp (scan_number input (blen pre) ch) (scanned input pre) st.
Proof.
  intros HP Hd. pose proof (ascii_digit_utf8 _ Hd) as Hlen. unfold scan_number. do 2 scan_step.
  assert (∀ st1, At input (pre ++ [ch]) st1 →
    wp (let* end_ := take_chars digit_or_underscore (blen pre + 1) in
        let* f := scan_fraction input end_ Number in
        let* x := scan_exponent f.1 f.2 in
        let* end_ := take_chars word_char x.1 in
        let* spelling := of_option (slice input (blen pre) end_) in
        let kind :=
          match (numeric_literal_parts spelling).2 with
          | Some suffix => if starts_with_char (λ c, is_ch c "f") suffix then Float else x.2
          | None => x.2
          end in
        let kind := if bool_decide (kind = Number) && negb (is_integer_literal spelling)
                    then Unknown else kind in
        ret (token kind (blen pre) end_)) (scanned input pre) st1) as Hdec.
  { intros st1 HA1. apply scan_bind. eapply wp_take_chars; [done|rewrite blen_snoc; lia|].
    intros c1 st2 HA2 _. eapply wp_bind_inv; [by apply wp_scan_fraction|].
    intros [e1 k1] st3 (c2 & HA3 & -> & Hk1). cbn [fst snd] in *.
    eapply wp_bind_inv; [by apply wp_scan_exponent|].
    intros [e2 k2] st4 (c3 & HA4 & -> & Hk2). cbn [fst snd] in *.
    apply scan_bind. eapply wp_take_chars; [done|done|]. intros c4 st5 HA5 _.
    rewrite <- !app_assoc in HA5 |- *. cbn [app] in HA5 |- *. set (c := ch :: c1 ++ c2 ++ c3 ++ c4) in *.
    apply scan_bind. eapply wp_of_option; [by eapply At_slice|]. apply scan_ret.
    eapply scanned_intro; [done|done| |done].
    set (k := match (numeric_literal_parts c).2 with Some _ => _ | None => _ end).
    assert (k = Number ∨ k = Float ∨ k = Unknown) as Hk.
    { subst k. repeat case_match; destruct Hk1 as [-> | ->], Hk2 as [-> |[-> | ->]]; auto. }
    destruct Hk as [-> |[-> | ->]]; cbn [kind_ok bool_decide].
    - rewrite bool_decide_eq_true_2 by done. destruct (is_integer_literal c) eqn:Ei; done.
    - rewrite bool_decide_eq_false_2 by done. cbn [andb kind_ok]. subst c. simpl. by rewrite Hd.
    - rewrite bool_decide_eq_false_2 by done. done. }
  eapply (wp_bind_inv _ _ _ (λ b st', if b : bool then ∃ s, (s = chr "b" ∨ s = chr "o" ∨ s = chr "x")
    ∧ Peeked input (pre ++ [ch]) s st' else At input (pre ++ [ch]) st')).
  { destruct (is_ch ch "0"); [|by apply scan_ret]. eapply wp_peek_is; [done| |]; [|by intros].
    intros s st2 HP2 _. destruct (_ || _) eqn:Es; [|by eapply Peeked_At]. exists s.
    rewrite !orb_true_iff, !is_ch_true in Es. split; [tauto|done]. }
  intros [] st2; [|apply Hdec]. intros (s & Hs & HP2). apply scan_bind.
  eapply wp_next_expect; [done|]. intros st3 HA3. rewrite <- app_assoc in HA3. apply scan_bind.
  eapply wp_take_chars; [done| |].
  { cbn [fst]. rewrite !blen_app. cbn [blen]. destruct Hs as [-> |[-> | ->]]; solve_blen. }
  intros c st4 HA4 _. rewrite <- app_assoc in HA4 |- *. apply scan_bind.
  eapply wp_of_option; [by eapply At_slice|]. apply scan_ret.
  eapply scanned_intro; [done|done|apply integer_kind_ok|done].
Qed.

(** ** Character literals *)
Lemma wp_char_loop p e st : At input (pre ++ p) st → p ≠ [] → e = blen (pre ++ p) →
  wp (while_peek (λ i c '(_, escaped, closed),
        if line_end c then Leave
        else
          let end_ := i + len_utf8 c in
          if escaped : bool then Take (end_, false, closed)
          else if is_ch c "\" then Take (end_, true, closed)
          else if is_ch c "'" then TakeLeave (end_, false, true)
          else Take (end_, false, closed)) (e, false, false))
    (λ '(e, _, closed) st', ∃ c, c ≠ [] ∧ At input (pre ++ c) st' ∧ e = blen (pre ++ c)) st.
Proof.
  intros HA Hp ->.
  eapply (wp_while_peek input _ (λ pre' '(e, _, _), ∃ c, pre' = pre ++ c ∧ c ≠ [] ∧ e = blen pre'));
    [done|eauto| | | |].
  - intros pre' ch [[e1 esc] cl] [[e2 esc2] cl2] (c & -> & Hc & ->) _ Hb.
    destruct (line_end ch); [done|]. exists (c ++ [ch]). rewrite app_assoc.
    split_and!; [done|by destruct c|]. rewrite blen_snoc.
    cbv zeta in Hb. destruct esc; [by injection Hb as <-|].
    destruct (is_ch ch "\"); [by injection Hb as <-|]. destruct (is_ch ch "'"); [done|].
    by injection Hb as <-.
  - intros pre' [[e1 esc] cl] st' (c & -> & Hc & ->) HA' _. eauto.
  - intros pre' ch [[e1 esc] cl] st' (c & -> & Hc & ->) HP _. exists c.
    split_and!; [done|by eapply Peeked_At|done].
  - intros pre' ch [[e1 esc] cl] [[e2 esc2] cl2] st' (c & -> & Hc & ->) Hb HA'.
    destruct (line_end ch); [done|]. exists (c ++ [ch]). rewrite app_assoc.
    split_and!; [by destruct c|done|]. rewrite blen_snoc.
    cbv zeta in Hb. destruct esc; [done|]. destruct (is_ch ch "\"); [done|].
    destruct (is_ch ch "'"); [|done]. by injection Hb as <-.
Qed.

Lemma wp_scan_char ch st : Peeked input pre ch st →
  (ch = chr "'" ∨ (ch = chr "b" ∧ ∃ r, input = pre ++ chr "b" :: chr "'" :: r)) →
  wp (scan_char input (blen pre) ch) (scanned input pre) st.
Proof.
  intros HP Hch. unfold scan_char. do 2 scan_step.
  assert (len_utf8 ch = 1) as Hlen by (destruct Hch as [-> |[-> _]]; done).
  assert (∀ e closed c (byte : bool) st', c ≠ [] → At input (pre ++ c) st' → e = blen (pre ++ c) →
    wp (let* valid :=
          (if closed : bool then
             let* spelling := of_option (slice input (blen pre) e) in
             let* r := of_option (if byte then decode_byte_char_literal spelling
                                  else decode_char_literal spelling) in
             ret (is_ok r)
           else ret false) in
        ret (token (match valid, byte with
              | true, true => ByteChar
              | true, false => Char
              | false, _ => Unknown
              end) (blen pre) e)) (scanned input pre) st') as Hend.
  { intros e closed c byte st2 Hc HA ->. destruct closed.
    - apply scan_bind, scan_bind. eapply wp_of_option; [by eapply At_slice|].
      destruct (decode_byte_char_total c) as [rb Hrb], (decode_char_total c) as [rc Hrc].
      apply scan_bind. eapply (wp_of_option _ _ _ (if byte then rb else rc)); [by destruct byte|].
      apply scan_ret, scan_ret. eapply scanned_intro; [done|done| |done].
      destruct byte; [destruct rb|destruct rc]; simpl; rewrite ?Hrb, ?Hrc; done.
    - apply scan_bind, scan_ret, scan_ret. by eapply scanned_intro. }
  apply scan_bind. destruct (is_ch ch "b") eqn:Eb.
  - destruct Hch as [-> |[-> [r Hr]]]; [done|]. apply scan_bind. eapply wp_next; [done| |].
    + intros x st2 HA2 Hr2 _. apply scan_ret. rewrite <- app_assoc in HA2.
      eapply wp_bind_inv; [apply (wp_char_loop _ _ _ HA2); [done|]|].
      { rewrite blen_app. destruct H as (Hin & _). rewrite Hr, <- app_assoc in Hin. simpl in Hin.
        simplify_list_eq. rewrite Hr2 in Hin. simplify_eq. solve_blen. }
      intros [[e esc] cl] st3 (c & Hc & HA3 & ->). by apply (Hend _ cl c true).
    + intros st2 HA2 Hr2 He. apply scan_ret. destruct He as [[He _]|Hf].
      { destruct HA2 as (Hin & _). rewrite He, Hr in Hin. rewrite <- app_assoc in Hin. by simplify_list_eq. }
      apply scan_bind. apply wp_while_peek_finished; [done|].
      apply scan_bind, scan_ret, scan_ret. exists [chr "b"], Unknown. split_and!; [done|done|by left].
  - destruct Hch as [-> |[-> _]]; [|done]. apply scan_ret.
    eapply wp_bind_inv; [apply (wp_char_loop _ _ _ H); [done|]|].
    { rewrite blen_snoc. change (len_utf8 (chr "'")) with 1. lia. }
    intros [[e esc] cl] st3 (c & Hc & HA3 & ->). by apply (Hend _ cl c false).
Qed.

(** ** Strings *)

(** A decoder between two checks, run by a scanner. *)
Lemma wp_guarded {A B} p (m : M A) (f : A → B) (Q : B → St → Prop) st :
  Faithful m → Total m → Blind m → At input p st →
  (∀ r st', At input p st' → cur st' = cur st → finished (cur st) = false →
     run_fresh (guarded m f) = Some r → Q r st') →
  wp (guarded m f) Q st.
Proof.
  intros Hf Ht Hb HA HQ. pose proof (guarded_answers m f st Hf Ht Hb) as Ha.
  destruct (guarded_total m f Hf Ht) as [Hgf _].
  assert (Blind (guarded m f)) as Hgb by (unfold guarded; solve_blind).
  unfold answers, wp in *. destruct (guarded m f st) as [r st'| | |] eqn:E; [|done..].
  destruct st as [c k]. pose proof (Hgb c c k) as Hcur. rewrite E in Hcur. destruct Hcur as (_ & _ & Hc & _).
  destruct HA as (Hin & Hp & Hfin). simpl in *. apply HQ; [|done| |done].
  - split_and!; [by rewrite Hc|by rewrite Hc|]. rewrite Hc. intros Hff.
    eapply (faithful_sticky (m := guarded m f)); [done|]. by apply Hfin.
  - destruct (finished c) eqn:Ef; [|done]. exfalso. specialize (Hfin eq_refl). subst k.
    unfold guarded, bind at 1, check in E. simpl in E. done.
Qed.

Lemma wp_push_text p t q (p' : text) st (Q : list Token → St → Prop) :
  input = p ++ t ++ q → At input p' st →
  (∀ toks st', At input p' st' → cur st' = cur st → spelled (blen p) toks t →
     (forallb (λ t, negb (bool_decide (token_kind t = Unknown))) toks = true →
        t = [] ∨ decodes (decode_string_fragment t) = true) → Q toks st') →
  wp (push_text input (blen p) (blen (p ++ t))) Q st.
Proof.
  intros Hin HA HQ. unfold push_text. rewrite blen_app.
  destruct (Nat.eqb_spec (blen p) (blen p + blen t)) as [He|Hne].
  { assert (t = []) as -> by (apply blen_0; lia). apply scan_ret, HQ; [done..|constructor|by left]. }
  apply scan_bind. rewrite Hin at 1. rewrite slice_app. apply scan_ret. apply scan_bind.
  apply (wp_guarded p' (decode_string_content t true false) id); [apply _..|done|].
  intros r st' HA' Hc _ Hr. apply scan_ret. change (decode_string_fragment t = Some r) in Hr.
  apply HQ; [done..| |].
  - apply spelled_one; [intros ->; simpl in Hne; lia|]. destruct r; simpl; [by rewrite Hr|done].
  - intros Hall. right. rewrite Hr. destruct r; [done|]. by simpl in Hall.
Qed.

Lemma wp_hole_name_bytes p offset name st : At input p st →
  wp (hole_name_bytes offset name) (λ b st', At input p st' ∧ cur st' = cur st ∧
     (b = true → forallb word_char name = true)) st.
Proof.
  revert offset st. induction name as [|c name IH]; intros offset st HA; cbn [hole_name_bytes].
  { apply scan_ret. auto. }
  eapply (wp_bind_inv _ _ _ (λ _ st', At input p st' ∧ cur st' = cur st)).
  { destruct (_ =? 0); [|by apply scan_ret]. eapply wp_check; [done|]. auto. }
  intros _ st1 [HA1 Hc1].
  destruct (negb (is_ch c "_") && negb (is_ascii_alphanumeric c)) eqn:E; [by apply scan_ret|].
  eapply scan_mono; [by apply IH|]. intros b st2 (HA2 & Hc2 & Hb). split_and!; [done|congruence|].
  intros Hbt. cbn [forallb]. rewrite (Hb Hbt), andb_true_r. unfold word_char.
  destruct (is_ch c "_"), (is_ascii_alphanumeric c); done.
Qed.

Lemma wp_is_hole_name p name st : At input p st →
  wp (is_hole_name name) (λ b st', At input p st' ∧ cur st' = cur st ∧
     (b = true → name ≠ [] ∧ kind_ok Ident name = true)) st.
Proof.
  intros HA. unfold is_hole_name.
  destruct (starts_with_char _ name) eqn:Es; simpl; [|by apply scan_ret].
  apply scan_bind. eapply scan_mono; [by apply wp_hole_name_bytes|].
  intros b st' (HA' & Hc & Hb). apply scan_ret. split_and!; [done..|].
  intros [-> Hk%bool_decide_eq_true_1]%andb_true_iff. split; [by intros ->|].
  unfold kind_ok. simpl. unfold word. rewrite Es, (Hb eq_refl), Hk. done.
Qed.

(** The tokens of a hole's content. *)
Definition hole_tokens (start end_ : nat) (name : text) (debug valid : bool) : list Token :=
  if valid then
    token Ident start (start + blen name)
    :: (if debug
        then [token Colon (end_ - 2) (end_ - 1); token Question (end_ - 1) end_] else [])
  else if negb (start =? end_) then [token Unknown start end_] else [].

Lemma hole_tokens_spelled n content name (debug valid : bool) :
  content = name ++ (if debug then text_of ":?" else []) →
  (valid = true → name ≠ [] ∧ kind_ok Ident name = true) →
  spelled n (hole_tokens n (n + blen content) name debug valid) content.
Proof.
  intros Hcd Hv. unfold hole_tokens. destruct valid.
  - rewrite Hcd. destruct (Hv eq_refl) as [Hne Hk]. constructor; [done..|]. destruct debug; [|constructor].
    rewrite blen_app. change (blen (text_of ":?")) with 2.
    replace (n + (blen name + 2) - 2) with (n + blen name) by lia.
    replace (n + (blen name + 2) - 1) with (n + blen name + blen (text_of ":"))
      by (change (blen (text_of ":")) with 1; lia).
    replace (n + (blen name + 2)) with (n + blen name + blen (text_of ":") + blen (text_of "?"))
      by (change (blen (text_of ":")) with 1; change (blen (text_of "?")) with 1; lia).
    change (text_of ":?") with (text_of ":" ++ text_of "?" ++ []).
    constructor; [done..|]. constructor; [done..|]. constructor.
  - destruct (Nat.eqb_spec n (n + blen content)) as [He|He]; simpl.
    + assert (content = []) as -> by (apply blen_0; lia). constructor.
    + apply spelled_one; [|done]. intros ->. simpl in He. lia.
Qed.

Lemma wp_scan_hole p st : At input p st →
  wp (scan_hole input (blen p))
    (λ toks st', ∃ h, At input (p ++ h) st' ∧ spelled (blen p) toks h) st.
Proof.
  intros HA. unfold scan_hole. apply scan_bind. eapply wp_skip_while; [done|].
  intros c st1 HA1 _ _. apply scan_bind. eapply wp_peek_index; [done|]. intros st2 HA2 _.
  apply scan_bind. eapply wp_check; [done|]. intros st3 HA3 Hc3 Hf3. rewrite Hc3 in Hf3. rewrite Hf3.
  apply scan_bind. eapply wp_of_option; [by eapply At_slice|].
  assert (∃ name (debug : bool), c = name ++ (if debug then text_of ":?" else []) ∧
    (match strip_suffix (text_of ":?") c with Some name => (name, true) | None => (c, false) end)
    = (name, debug)) as (name & debug & Hcd & ->).
  { destruct (strip_suffix (text_of ":?") c) as [name|] eqn:E.
    - apply strip_suffix_iff in E. by exists name, true.
    - exists c, false. by rewrite app_nil_r. }
  eapply wp_bind_inv; [by apply wp_is_hole_name|]. intros valid st4 (HA4 & _ & Hv).
  apply scan_bind. eapply wp_check; [done|]. intros st5 HA5 _ _. cbv zeta.
  pose proof (hole_tokens_spelled (blen p) c name debug valid Hcd Hv) as Hsp.
  rewrite <- blen_app in Hsp.
  change (if valid then _ else _)
    with (hole_tokens (blen p) (blen (p ++ c)) name debug valid).
  apply scan_bind. eapply wp_peek_is; [done| |].
  - intros ch st6 HP6 _. destruct (is_ch ch "}") eqn:Ec.
    + apply is_ch_true in Ec as ->. do 3 scan_step. rewrite <- app_assoc in H. exists (c ++ [chr "}"]).
      split; [done|]. eapply spelled_app; [done|]. rewrite blen_app.
      apply (spelled_one FormatClose _ [chr "}"]); done.
    + apply scan_ret. exists c. split; [by eapply Peeked_At|done].
  - intros st6 HA6 _ _. apply scan_ret. by exists c.
Qed.

(** Skipping forward to a byte offset inside the text. *)
Lemma wp_skip_to p t q st : input = p ++ t ++ q → At input p st →
  wp (skip_while (λ i _, i <? blen (p ++ t)))
    (λ _ st', At input (p ++ t) st'
       ∨ (finished (cur st') = true ∧ ∃ t1 t2, t = t1 ++ t2 ∧ At input (p ++ t1) st')) st.
Proof.
  intros Hin HA.
  eapply (wp_while_peek input _ (λ pre' _, ∃ t1 t2, t = t1 ++ t2 ∧ pre' = p ++ t1)); [done| | | | |].
  - exists [], t. by rewrite app_nil_r.
  - intros pre' ch [] [] (t1 & t2 & -> & ->) [r Hr] Hb.
    destruct (_ <? _) eqn:Hlt; [|done]. apply Nat.ltb_lt in Hlt. destruct t2 as [|x t2].
    { rewrite app_nil_r in Hlt. lia. }
    rewrite Hin in Hr. rewrite <- !app_assoc in Hr. simplify_list_eq.
    exists (t1 ++ [ch]), t2. by rewrite <- !app_assoc.
  - intros pre' [] st' (t1 & t2 & -> & ->) HA' [He|He]; [left|right; split; [done|by exists t1, t2]].
    pose proof HA' as (Heq & _). rewrite Hin, He, app_nil_r in Heq. apply (f_equal length) in Heq.
    rewrite !length_app in Heq. assert (t2 = []) as -> by (destruct t2; [done|simpl in Heq; lia]).
    by rewrite app_nil_r.
  - intros pre' ch [] st' (t1 & t2 & -> & ->) HP Hb. left. destruct (_ <? _) eqn:Hlt; [done|].
    apply Nat.ltb_ge in Hlt. rewrite app_assoc, blen_app in Hlt.
    assert (t2 = []) as -> by (apply blen_0; lia). rewrite app_nil_r. by eapply Peeked_At.
  - intros pre' ch [] [] st' _ Hb. by destruct (_ <? _).
Qed.

(** The same from a peeked character, which is taken. *)
Lemma wp_skip_to_first p ch t q st : input = p ++ ch :: t ++ q → Peeked input p ch st →
  wp (skip_while (λ i _, i <? blen (p ++ ch :: t)))
    (λ _ st', At input (p ++ ch :: t) st'
       ∨ (finished (cur st') = true ∧ ∃ t1 t2, t = t1 ++ t2 ∧ At input (p ++ ch :: t1) st')) st.
Proof.
  intros Hin HP. unfold skip_while. eapply wp_while_peek_first; [done| |].
  { rewrite blen_app. cbn [blen]. pose proof (len_utf8_pos ch). by rewrite (proj2 (Nat.ltb_lt _ _)) by lia. }
  intros st' HA _. replace (p ++ ch :: t) with ((p ++ [ch]) ++ t) by (by rewrite <- app_assoc).
  eapply scan_mono; [apply (wp_skip_to (p ++ [ch]) t q); [by rewrite <- app_assoc|done]|].
  intros _ st2 [HA2|[Hf (t1 & t2 & Ht & HA2)]]; [by left|right]. split; [done|]. exists t1, t2.
  by rewrite <- app_assoc in HA2.
Qed.

Lemma wp_total_extends {A} (m : M A) p st : Total m → At input p st →
  wp m (λ _ st', ∃ c, At input (p ++ c) st') st.
Proof.
  intros Ht HA. eapply scan_mono; [apply (Ht input (length (rest (cur st)))); split; [by eexists|done]|].
  intros _ st' [[p' HA'] Hl]. pose proof HA as (H1 & _). pose proof HA' as (H2 & _).
  rewrite H1 in H2. destruct (app_eq_inv _ _ _ _ H2) as [(k & -> & Hk)|(k & -> & Hk)]; [|by exists k].
  rewrite Hk, length_app in Hl. destruct k; [|simpl in Hl; lia]. rewrite app_nil_r in *. exists [].
  by rewrite app_nil_r.
Qed.

Lemma total_skip_escape : Total skip_escape.
Proof. unfold skip_escape, peek_is. solve_total. Qed.

(** What a scanner of several tokens leaves. *)
Definition scanned_all (toks : list Token) (st : St) : Prop :=
  ∃ c, c ≠ [] ∧ At input (pre ++ c) st
    ∧ (finished (cur st) = true ∨ spelled (blen pre) toks c).

Lemma scanned_all_one k c e st :
  At input (pre ++ c) st → c ≠ [] → finished (cur st) = true ∨ (kind_ok k c = true ∧ e = blen (pre ++ c)) →
  scanned_all [token k (blen pre) e] st.
Proof.
  intros HA Hc Hk. exists c. split_and!; [done..|]. destruct Hk as [|[Hk ->]]; [by left|right].
  rewrite blen_app. by apply spelled_one.
Qed.

Lemma scanned_all_end st c : At input (pre ++ c) st → c ≠ [] → ended st →
  scanned_all [token Unknown (blen pre) (blen input)] st.
Proof.
  intros HA Hc He. eapply scanned_all_one; [done..|]. destruct He as [He|He]; [right|by left].
  split; [done|]. destruct HA as (-> & _). by rewrite He, app_nil_r.
Qed.

(** The end of a plain string whose content and closing delimiter are known. *)
Lemma wp_plain_valid (byte : bool) t p st (Q : bool → St → Prop) :
  At input p st →
  (∀ valid st', At input p st' → cur st' = cur st → finished (cur st) = false →
     (valid = true → kind_ok (if byte then ByteString else String) t = true) → Q valid st') →
  wp (if byte
      then let* r := decode_byte_string_literal_with_cancellation t in ret (is_ok r)
      else let* r := decode_string_literal_with_cancellation t in ret (is_ok r)) Q st.
Proof.
  intros HA HQ. destruct byte; apply scan_bind.
  - eapply (wp_guarded p (match strip_prefix (text_of "b") t with
      | Some t => decode_string_literal_inner t true
      | None => ret (Err "invalid byte string prefix") end) (res_map (map as_u8)));
      [solve_faithful|solve_total|solve_blind|done|].
    intros r st' HA' Hc Hf Hr. apply scan_ret, HQ; [done..|]. intros Hok.
    change (decode_byte_string_literal t = Some r) in Hr. unfold kind_ok. rewrite Hr. by destruct r.
  - eapply (wp_guarded p (decode_string_literal_inner t false) id); [apply _..|done|].
    intros r st' HA' Hc Hf Hr. apply scan_ret, HQ; [done..|]. intros Hok.
    change (decode_string_literal t = Some r) in Hr. unfold kind_ok. rewrite Hr. by destruct r.
Qed.

Lemma wp_plain_close {S} d (byte : bool) c r st (Q : S + list Token → St → Prop) :
  input = pre ++ c ++ closer d ++ r → c ≠ [] → At input (pre ++ c ++ [QUOTE]) st →
  (∀ toks st', scanned_all toks st' → Q (inr toks) st') →
  wp (skip_while (λ i _, i <? blen (pre ++ c) + blen (closer d)) ;;;
      let* spelling := of_option (slice input (blen pre) (blen (pre ++ c) + blen (closer d))) in
      let* valid :=
        (if byte
         then let* r := decode_byte_string_literal_with_cancellation spelling in ret (is_ok r)
         else let* r := decode_string_literal_with_cancellation spelling in ret (is_ok r)) in
      ret (inr [token (match valid, byte with true, true => ByteString | true, false => String
                       | false, _ => Unknown end) (blen pre) (blen (pre ++ c) + blen (closer d))]))
    Q st.
Proof.
  intros Hin Hc HA HQ.
  replace (blen (pre ++ c) + blen (closer d)) with (blen (pre ++ c ++ closer d))
    by (rewrite !blen_app; lia).
  assert (pre ++ c ++ closer d = (pre ++ c ++ [QUOTE]) ++ hashes (delimiter_hashes d)) as Heq.
  { unfold closer. by rewrite <- !app_assoc. }
  apply scan_bind. eapply scan_mono.
  { rewrite Heq. apply (wp_skip_to _ _ r); [|done]. by rewrite app_assoc, <- Heq, Hin, <- !app_assoc. }
  intros [] st2 Hst2. apply scan_bind.
  eapply wp_of_option; [apply (slice_prefixes _ _ _ r); by rewrite Hin, <- !app_assoc|].
  assert (∃ p2, p2 ≠ [] ∧ At input (pre ++ p2) st2 ∧ (finished (cur st2) = false → p2 = c ++ closer d))
    as (p2 & Hp2 & HA2 & Hp2f).
  { destruct Hst2 as [HA2|[Hf (t1 & t2 & _ & HA2)]].
    - exists (c ++ closer d). split_and!; [by destruct c|by rewrite Heq|done].
    - exists (c ++ [QUOTE] ++ t1). rewrite <- !app_assoc in HA2.
      split_and!; [by destruct c|done|by rewrite Hf]. }
  apply scan_bind. eapply wp_plain_valid; [exact HA2|]. intros valid st3 HA3 _ Hf2 Hk. apply scan_ret, HQ.
  specialize (Hp2f Hf2). subst p2. eapply scanned_all_one; [done..|right]. split; [|done].
  destruct valid; [|done]. specialize (Hk eq_refl). by destruct byte.
Qed.

Lemma wp_scan_plain d (byte : bool) c st : At input (pre ++ c) st → c ≠ [] →
  wp (scan_plain input (blen pre) d byte) scanned_all st.
Proof.
  intros HA Hc. unfold scan_plain.
  eapply (wp_iterate (λ _ st, ∃ c, c ≠ [] ∧ At input (pre ++ c) st)); [eauto|].
  clear c st HA Hc. intros _ st (c & Hc & HA). apply scan_bind. eapply wp_next; [done| |].
  2: { intros st' HA' _ He. apply scan_ret. eapply scanned_all_end; [done..|by eapply ends_ended]. }
  intros ch st1 HA1 Hr1 _. rewrite <- app_assoc in HA1.
  assert (∀ c' st2, At input (pre ++ c ++ [ch] ++ c') st2 →
    (∃ c, c ≠ [] ∧ At input (pre ++ c) st2) ∧ length (rest (cur st2)) < length (rest (cur st))) as Hgo.
  { intros c' st2 HA2. split; [exists (c ++ [ch] ++ c'); split; [by destruct c|done]|].
    rewrite app_assoc in HA2. rewrite (At_app_rest _ _ _ _ _ HA HA2). rewrite length_app. simpl. lia. }
  destruct (is_ch ch _ && _).
  { apply scan_bind. eapply scan_mono; [apply (wp_total_extends _ _ _ total_skip_escape HA1)|].
    intros _ st2 [c' HA2]. apply scan_ret. apply (Hgo c'). by rewrite <- !app_assoc in HA2. }
  destruct (ch =? QUOTE)%Z eqn:Eq; simpl; [|apply scan_ret; by apply (Hgo [])].
  apply Z.eqb_eq in Eq as ->.
  assert (input = (pre ++ c) ++ QUOTE :: rest (cur st1)) as Hin.
  { destruct HA1 as (-> & _). by rewrite <- !app_assoc. }
  apply scan_bind. eapply wp_of_option; [rewrite Hin; apply suffix_at_app|].
  destruct (closing_len d _) as [n|] eqn:Ecl; [|apply scan_ret; by apply (Hgo [])].
  apply closing_len_iff in Ecl as (-> & r & Hcl). rewrite Hcl, <- app_assoc in Hin.
  by eapply (wp_plain_close d byte c r).
Qed.

(** *** Cooked strings *)
Definition not_unknown (t : Token) : bool := negb (bool_decide (token_kind t = Unknown)).

(** [c] was taken after the opening quote: the tokens pushed spell a prefix of
    it, the rest is pending text. *)
Definition cooked_ok (s : cooked_state) (c : text) : Prop :=
  ∃ c1 c2, c = c1 ++ c2 ∧ text_start s = blen (pre ++ QUOTE :: c1)
    ∧ spelled (blen pre) (pushed s) (QUOTE :: c1)
    ∧ (has_hole s = false → c1 = [] ∧ forallb not_unknown (pushed s) = true).
Definition cooked_inv (s : cooked_state) (st : St) : Prop :=
  ∃ c, At input (pre ++ QUOTE :: c) st ∧ boundary input (text_start s)
    ∧ (finished (cur st) = true ∨ cooked_ok s c).
Definition cooked_done (e : cooked_end) (st : St) : Prop :=
  ∃ c, At input (pre ++ QUOTE :: c) st ∧ boundary input (text_start (cooked e)) ∧
    if closed e then
      cooked_stop e = blen (pre ++ QUOTE :: c)
      ∧ spelled (blen pre) (pushed (cooked e)) (QUOTE :: c)
      ∧ (has_hole (cooked e) = false → forallb not_unknown (pushed (cooked e)) = true →
         kind_ok String (QUOTE :: c) = true)
    else cooked_stop e = blen input
      ∧ (finished (cur st) = true ∨ (rest (cur st) = [] ∧ cooked_ok (cooked e) c)).

Lemma fragment_literal c : c = [] ∨ decodes (decode_string_fragment c) = true →
  kind_ok String (QUOTE :: c ++ [QUOTE]) = true.
Proof.
  intros Hc. assert (∃ s, content_spelling true false c s) as [s Hs].
  { destruct Hc as [-> |Hc]; [exists []; constructor|].
    destruct (decode_string_fragment c) as [[s|]|] eqn:E; [|done..]. exists s.
    by apply decode_string_fragment_iff. }
  unfold kind_ok. change (QUOTE :: c ++ [QUOTE]) with (opener Cooked ++ c ++ closer Cooked).
  by rewrite (proj2 (decode_string_literal_iff _ s) (ls_cooked _ _ _ Hs)).
Qed.

(** The pending text is pushed when the quote or a hole ends it. *)
Lemma wp_push_pending s c ch st (Q : list Token → St → Prop) :
  At input (pre ++ QUOTE :: c ++ [ch]) st → cooked_ok s c →
  (∀ toks st', At input (pre ++ QUOTE :: c ++ [ch]) st' → cur st' = cur st →
     spelled (blen pre) (pushed s ++ toks) (QUOTE :: c) →
     (has_hole s = false → forallb not_unknown toks = true →
        c = [] ∨ decodes (decode_string_fragment c) = true) → Q toks st') →
  wp (push_text input (text_start s) (blen (pre ++ QUOTE :: c))) Q st.
Proof.
  intros HA (c1 & c2 & -> & -> & Hsp & Hh) HQ.
  change (pre ++ QUOTE :: c1 ++ c2) with (pre ++ (QUOTE :: c1) ++ c2). rewrite app_assoc.
  eapply (wp_push_text _ c2 (ch :: rest (cur st))); [|exact HA|].
  { destruct HA as (-> & _). by norm_app. }
  intros toks st' HA' Hc Hs Hd. apply HQ; [done..| |].
  - rewrite blen_app in Hs. apply (spelled_app _ _ (QUOTE :: c1) _ c2 Hsp Hs).
  - intros Hno. destruct (Hh Hno) as [-> _]. apply Hd.
Qed.

Lemma cooked_extend s c c' : cooked_ok s c → cooked_ok s (c ++ c').
Proof.
  intros (c1 & c2 & -> & Ht & Hsp & Hh). exists c1, (c2 ++ c'). by rewrite <- app_assoc.
Qed.

Lemma wp_cooked_quote s c st : At input (pre ++ QUOTE :: c ++ [QUOTE]) st → cooked_ok s c →
  boundary input (text_start s) →
  wp (let* text := push_text input (text_start s) (blen (pre ++ QUOTE :: c)) in
      ret (inr {| cooked := {| pushed := pushed s ++ text ++
                    [token FormatEnd (blen (pre ++ QUOTE :: c)) (blen (pre ++ QUOTE :: c) + 1)];
                    text_start := text_start s; has_hole := has_hole s |};
                  closed := true; cooked_stop := blen (pre ++ QUOTE :: c) + 1 |}))
    (λ (r : cooked_state + cooked_end) st', match r with inl _ => False | inr e => cooked_done e st' end) st.
Proof.
  intros HA Hok Hb. apply scan_bind. eapply wp_push_pending; [done..|].
  intros toks st1 HA1 _ Hsp Hd. apply scan_ret. exists (c ++ [QUOTE]). split; [done|]. split; [done|].
  cbn [closed cooked_stop cooked pushed has_hole]. split_and!.
  - change (pre ++ QUOTE :: c ++ [QUOTE]) with (pre ++ (QUOTE :: c) ++ [QUOTE]). solve_blen.
  - rewrite app_assoc. change (QUOTE :: c ++ [QUOTE]) with ((QUOTE :: c) ++ [QUOTE]).
    eapply spelled_app; [done|]. rewrite blen_app. by apply (spelled_one FormatEnd _ [QUOTE]).
  - intros Hno Hall. apply fragment_literal, Hd; [done|]. rewrite !forallb_app in Hall.
    by apply andb_true_iff in Hall as [_ [Hall _]%andb_true_iff].
Qed.

Lemma wp_cooked_hole s c st : At input (pre ++ QUOTE :: c ++ [chr "{"]) st → cooked_ok s c →
  wp (let* text := push_text input (text_start s) (blen (pre ++ QUOTE :: c)) in
      let* hole := scan_hole input (blen (pre ++ QUOTE :: c) + 1) in
      let* resume := peek_index input in
      ret (inl {| pushed := pushed s ++ text ++
                    token FormatOpen (blen (pre ++ QUOTE :: c)) (blen (pre ++ QUOTE :: c) + 1) :: hole;
                  text_start := resume; has_hole := true |}))
    (λ (r : cooked_state + cooked_end) st', match r with
       | inl s' => cooked_inv s' st' ∧ ∃ h, At input (pre ++ QUOTE :: c ++ chr "{" :: h) st'
       | inr _ => False end) st.
Proof.
  intros HA Hok. apply scan_bind. eapply wp_push_pending; [done..|].
  intros toks st1 HA1 _ Hsp _. apply scan_bind.
  assert (blen (pre ++ QUOTE :: c) + 1 = blen (pre ++ QUOTE :: c ++ [chr "{"])) as Hb1.
  { change (pre ++ QUOTE :: c ++ [chr "{"]) with (pre ++ (QUOTE :: c) ++ [chr "{"]). solve_blen. }
  rewrite Hb1. eapply scan_mono; [by apply wp_scan_hole|]. intros hole st2 (h & HA2 & Hh).
  assert (At input (pre ++ QUOTE :: c ++ chr "{" :: h) st2) as HA2'.
  { rewrite <- app_assoc in HA2. simpl in HA2. by rewrite <- app_assoc in HA2. }
  apply scan_bind. eapply wp_peek_index; [exact HA2'|]. intros st3 HA3 _. apply scan_ret.
  split; [|by exists h]. exists (c ++ chr "{" :: h). cbn [text_start pushed has_hole].
  destruct (finished (cur st3)) eqn:Ef; (split; [done|]).
  { split; [apply boundary_end|by left]. }
  split; [by eapply At_boundary|right]. exists (c ++ chr "{" :: h), [].
  split_and!; [by rewrite app_nil_r|done| |done].
  rewrite app_assoc. change (QUOTE :: c ++ chr "{" :: h) with ((QUOTE :: c) ++ [chr "{"] ++ h).
  eapply spelled_app; [done|].
  replace (blen (pre ++ QUOTE :: c ++ [chr "{"]))
    with (blen pre + blen (QUOTE :: c) + blen [chr "{"]) by (rewrite <- Hb1; solve_blen).
  rewrite blen_app. constructor; [done..|].
  by rewrite <- Hb1, blen_app in Hh.
Qed.

Lemma wp_cooked_round s st : cooked_inv s st →
  wp (let* o := next in cooked_round input s o) (λ r st', match r with
    | inl s' => cooked_inv s' st' ∧ length (rest (cur st')) < length (rest (cur st))
    | inr e => cooked_done e st' end) st.
Proof.
  intros (c & HA & Hb & Hok). apply scan_bind. eapply wp_next; [done| |].
  2: { intros st' HA' Hr He. apply scan_ret. exists c. split_and!; [done..|]. cbn [closed cooked_stop cooked].
       split; [done|]. destruct He as [[He Hf]|Hf]; [|by left].
       destruct Hok as [Hf'|Hok]; [left; by rewrite Hf|by right]. }
  intros ch st1 HA1 Hr1 [Hf0 _]. destruct Hok as [Hf|Hok]; [congruence|].
  assert (At input (pre ++ QUOTE :: c ++ [ch]) st1) as HA1'.
  { revert HA1. by norm_app. }
  assert (∀ h st2, At input (pre ++ QUOTE :: c ++ ch :: h) st2 →
    length (rest (cur st2)) < length (rest (cur st))) as Hlen.
  { intros h st2 HA2. replace (pre ++ QUOTE :: c ++ ch :: h) with ((pre ++ QUOTE :: c) ++ ch :: h) in HA2
      by (by norm_app). rewrite (At_app_rest _ _ _ _ _ HA HA2). simpl. rewrite length_app. lia. }
  assert (∀ h st2, At input (pre ++ QUOTE :: c ++ ch :: h) st2 →
    cooked_inv s st2 ∧ length (rest (cur st2)) < length (rest (cur st))) as Hgo.
  { intros h st2 HA2. split; [|by eapply Hlen]. exists (c ++ ch :: h). split_and!; [done..|right].
    by apply cooked_extend. }
  cbn [cooked_round]. destruct (ch =? QUOTE)%Z eqn:Eq.
  { apply Z.eqb_eq in Eq as ->. eapply scan_mono; [by apply wp_cooked_quote|]. by intros [] st2. }
  destruct (is_ch ch _).
  { apply scan_bind. eapply scan_mono; [apply (wp_total_extends _ _ _ total_skip_escape HA1')|].
    intros _ st2 [c' HA2]. apply scan_ret, (Hgo c'). revert HA2. by norm_app. }
  eapply (wp_bind_inv _ _ _ (λ b st', if b : bool then Peeked input (pre ++ QUOTE :: c ++ [ch]) ch st'
    else At input (pre ++ QUOTE :: c ++ [ch]) st')).
  { destruct (_ || _); [|by apply scan_ret]. eapply wp_peek_is; [done| |]; [|by intros].
    intros c2 st2 HP2 _. destruct (Z.eqb_spec c2 ch) as [-> |]; [done|by eapply Peeked_At]. }
  intros [] st2.
  - intros HP2. apply scan_bind. eapply wp_next_peeked; [done|]. intros st3 HA3 _ _.
    apply scan_ret, (Hgo [ch]). revert HA3. by norm_app.
  - intros HA2. destruct (is_ch ch "{") eqn:Eo; [|apply scan_ret; by apply (Hgo [])].
    apply is_ch_true in Eo as ->. eapply scan_mono; [by apply wp_cooked_hole|].
    intros [s'|e] st3; [|done]. intros [Hinv [h HA3]]. split; [done|by eapply Hlen].
Qed.

Lemma wp_scan_cooked st : At input (pre ++ [QUOTE]) st →
  wp (scan_cooked input (blen pre) 1) scanned_all st.
Proof.
  intros HA. unfold scan_cooked.
  assert (blen pre + 1 = blen (pre ++ [QUOTE])) as Hb1 by solve_blen.
  eapply wp_bind_inv; [eapply (wp_iterate cooked_inv cooked_done); [|apply wp_cooked_round]|].
  { exists []. split; [done|]. cbn [text_start]. rewrite Hb1. split; [by eapply At_boundary|right].
    exists [], []. split_and!; [done|done| |done]. cbn [pushed]. rewrite blen_app.
    by apply (spelled_one FormatStart _ [QUOTE]). }
  intros e st1 (c & HA1 & Hb & Hdone). destruct (closed e) eqn:Ecl.
  - destruct Hdone as (Hstop & Hsp & Hstr). apply scan_bind, scan_ret. rewrite app_nil_r.
    destruct (has_hole (cooked e)) eqn:Eh; apply scan_ret.
    + exists (QUOTE :: c). split_and!; [done..|by right].
    + eapply scanned_all_one; [exact HA1|done|right]. split; [|done]. rewrite andb_true_l.
      destruct (forallb _ (pushed (cooked e))) eqn:Ea; [by apply Hstr|done].
  - destruct Hdone as (Hstop & Hfin). rewrite Hstop.
    destruct Hb as (p & q & Hin & Hts). rewrite Hts. apply scan_bind.
    assert (blen input = blen (p ++ q)) as -> by (by rewrite Hin).
    eapply (wp_push_text p q []); [by rewrite app_nil_r|exact HA1|].
    intros toks st2 HA2 Hc2 Hsp _.
    destruct (has_hole (cooked e)) eqn:Eh; apply scan_ret.
    + exists (QUOTE :: c). split_and!; [done..|]. rewrite Hc2.
      destruct Hfin as [Hf|[Hr (c1 & c2 & -> & Hts' & Hsp' & _)]]; [by left|right].
      destruct (prefix_blen_inj p q (pre ++ QUOTE :: c1) c2) as [-> ->].
      { destruct HA1 as (Hin1 & _). rewrite Hr, app_nil_r in Hin1. rewrite <- Hin, Hin1. by norm_app. }
      { congruence. }
      rewrite blen_app in Hsp. apply (spelled_app _ _ (QUOTE :: c1) _ c2 Hsp' Hsp).
    + rewrite <- Hin. eapply scanned_all_end; [exact HA2|done|]. unfold ended. rewrite Hc2.
      destruct Hfin as [Hf|[Hr _]]; auto.
Qed.

Lemma wp_invalid_opener ch (byte : bool) st : Peeked input pre ch st →
  wp (next ;;;
      (if byte then next ;;; ret tt else ret tt) ;;;
      skip_while (λ _ c, is_ch c "#") ;;;
      let* end_ := peek_index input in
      ret [token Unknown (blen pre) end_]) scanned_all st.
Proof.
  intros HP. apply scan_bind. eapply wp_next_peeked; [done|]. intros st1 HA1 _ _.
  eapply (wp_bind_inv _ _ _ (λ _ st', ∃ c, At input (pre ++ ch :: c) st')).
  { destruct byte; [|apply scan_ret; by exists []]. apply scan_bind. eapply wp_next; [done| |].
    - intros x st2 HA2 _ _. apply scan_ret. exists [x]. revert HA2. by norm_app.
    - intros st2 HA2 _ _. apply scan_ret. by exists []. }
  intros [] st2 [c HA2]. apply scan_bind. eapply wp_skip_while; [done|]. intros c' st3 HA3 _ _.
  apply scan_bind. eapply wp_peek_index; [done|]. intros st4 HA4 _. apply scan_ret.
  rewrite <- app_assoc in HA4 |- *. eapply scanned_all_one; [exact HA4|done|].
  destruct (finished (cur st4)); auto.
Qed.

(** The opening delimiter decides which scanner runs. *)
Lemma wp_scan ch r st : input = pre ++ ch :: r → Peeked input pre ch st →
  ch = QUOTE ∨ ch = chr "r" ∨ ch = chr "b" →
  wp (scan input (blen pre)) scanned_all st.
Proof.
  intros Hin HP Hch. unfold scan. apply scan_bind. eapply wp_of_option.
  { rewrite Hin. apply suffix_at_app. }
  set (byte := starts_with (text_of "b") (ch :: r)).
  set (b := if byte then [ch] else []).
  assert (∃ u, ch :: r = b ++ u ∧ (if byte then 1 else 0) = blen b
    ∧ (byte = true → ch = chr "b")) as (u & Hu & -> & Hbyte).
  { subst b byte. destruct (starts_with _ _) eqn:E.
    - apply starts_with_iff in E as (q & Hq). simplify_eq/=. by exists q.
    - by exists (ch :: r). }
  apply scan_bind. rewrite <- blen_app. eapply wp_of_option.
  { rewrite Hin, Hu, app_assoc. apply suffix_at_app. }
  destruct (opening u) as [[[d k]|]|] eqn:Eo.
  - apply opening_iff in Eo as (Hd & -> & q & Hq).
    assert (∃ t, b ++ opener d = ch :: t) as [t Ht].
    { subst b. destruct byte; [by eexists|]. simpl in Hu. subst u. destruct d; simpl in *; simplify_eq; eauto. }
    assert (blen pre + (blen (opener d) + blen b) = blen (pre ++ ch :: t)) as Hend.
    { rewrite <- Ht, !blen_app. lia. }
    apply scan_bind. rewrite Hend. eapply scan_mono.
    { apply (wp_skip_to_first _ _ t q); [|done]. rewrite Hin, Hu, Hq, (app_assoc b), Ht. by norm_app. }
    intros [] st1 Hst1.
    assert (∃ t1 t2, t = t1 ++ t2 ∧ At input (pre ++ ch :: t1) st1) as (t1 & t2 & -> & HA1).
    { destruct Hst1 as [|[_ ?]]; [|done]. exists t, []. by rewrite app_nil_r. }
    destruct (byte || negb (bool_decide (d = Cooked))) eqn:Ek.
    { by eapply wp_scan_plain. }
    apply orb_false_iff in Ek as [Eb Ed%negb_false_iff%bool_decide_eq_true_1]. subst d.
    subst b. rewrite Eb in *. simpl in Ht. injection Ht as <- Ht. symmetry in Ht.
    apply app_eq_nil in Ht as [-> ->]. by apply wp_scan_cooked.
  - by eapply wp_invalid_opener.
  - by eapply wp_invalid_opener.
Qed.

(** ** One token *)
Lemma scanned_to_all t st : scanned input pre t st → scanned_all [t] st.
Proof.
  intros (c & k & Hc & HA & Hk). destruct Hk as [Hf|[-> Hk]].
  - exists c. split_and!; auto.
  - eapply scanned_all_one; eauto.
Qed.

Ltac single_token :=
  match goal with
  | E : is_ch ?ch _ = true |- _ =>
      apply is_ch_true in E; subst ch;
      first [ eapply wp_scan_one; [eassumption|reflexivity..]
            | eapply wp_scan_pair; [eassumption|reflexivity..]
            | by apply wp_scan_dot | by apply wp_scan_equal | by apply wp_scan_minus
            | by apply wp_scan_slash | by apply wp_scan_percent | by apply wp_scan_bang ]
  end.

Lemma wp_scan_char_kind ch r st : input = pre ++ ch :: r → Peeked input pre ch st →
  wp (scan_char_kind input (blen pre) ch) (scanned input pre) st.
Proof.
  intros Hin HP. unfold scan_char_kind.
  do 21 (lazymatch goal with
    | |- wp (if is_ch ch ?a then _ else _) _ _ =>
        let E := fresh "E" in destruct (is_ch ch a) eqn:E; [single_token|clear E] end).
  destruct (is_ch ch "&" || is_ch ch "|" || is_ch ch "^") eqn:Eb; [by apply wp_scan_bitwise|].
  eapply (wp_bind_inv _ _ _ (λ b st', st' = st ∧ (b = true → ch = chr "'" ∨
    (ch = chr "b" ∧ ∃ r, input = pre ++ chr "b" :: chr "'" :: r)))).
  { destruct (is_ch ch "'") eqn:E1; [apply scan_ret; split; [done|]; intros _; left; by apply is_ch_true|].
    destruct (is_ch ch "b") eqn:E2; [|by apply scan_ret]. apply is_ch_true in E2 as ->.
    apply scan_bind. eapply wp_of_option; [rewrite Hin; apply suffix_at_app|]. apply scan_ret.
    split; [done|]. intros (q & Hq)%starts_with_iff. right. split; [done|]. exists q.
    by rewrite Hin, Hq. }
  intros [] st' [-> Hc].
  - apply wp_scan_char; auto.
  - destruct (is_ascii_digit ch) eqn:Ed; [by apply wp_scan_number|].
    destruct (is_ch ch "_" || is_ascii_alphabetic ch) eqn:Ew; [by eapply wp_scan_identifier|].
    do 3 scan_step. eapply scanned_intro; [done..|]. by rewrite blen_snoc.
Qed.

Lemma wp_starts_string ch r st (Q : bool → St → Prop) : input = pre ++ ch :: r →
  (∀ b : bool, (b = true → ch = QUOTE ∨ ch = chr "r" ∨ ch = chr "b") → Q b st) →
  wp (starts_string input (blen pre) ch) Q st.
Proof.
  intros Hin HQ. unfold starts_string.
  destruct (ch =? QUOTE)%Z eqn:Eq; [apply scan_ret, HQ; intros _; left; by apply Z.eqb_eq|].
  assert (∀ a, ch = chr a → len_utf8 ch = 1 → suffix_at (blen pre + 1) input = Some r) as Hsuf.
  { intros a -> Hl. replace (blen pre + 1) with (blen (pre ++ [chr a])) by (rewrite blen_snoc; lia).
    rewrite Hin, (snoc_app pre (chr a) r). apply suffix_at_app. }
  destruct (is_ch ch "r") eqn:Er.
  { apply is_ch_true in Er as ->. apply scan_bind.
    eapply wp_of_option; [by eapply Hsuf|]. apply scan_ret, HQ. auto. }
  destruct (is_ch ch "b") eqn:Eb; [|by apply scan_ret, HQ].
  apply is_ch_true in Eb as ->. apply scan_bind.
  eapply wp_of_option; [by eapply Hsuf|]. apply scan_ret, HQ. auto.
Qed.

Lemma wp_scan_token ch st : Peeked input pre ch st →
  wp (scan_token input (blen pre) ch) scanned_all st.
Proof.
  intros HP. destruct (Peeked_input _ _ _ _ HP) as [r Hin]. unfold scan_token. apply scan_bind.
  eapply wp_starts_string; [done|]. intros [] Hs; [eapply wp_scan; eauto|].
  eapply (wp_bind_inv _ _ _ (λ b st', st' = st ∧ (b = true → ch = chr "f"))).
  { destruct (is_ch ch "f") eqn:Ef; [|by apply scan_ret]. apply is_ch_true in Ef as ->. apply scan_bind.
    eapply wp_of_option; [rewrite Hin; apply suffix_at_app|]. by apply scan_ret. }
  intros [] st' [-> Hf].
  { rewrite (Hf eq_refl) in *. do 3 scan_step. eapply scanned_all_one; [exact H|done|right].
    split; [done|solve_blen]. }
  destruct (is_whitespace ch) eqn:Ew.
  - apply scan_bind. eapply wp_take_chars_first; [done..|]. intros c st2 HA2 Hc. apply scan_ret.
    eapply scanned_all_one; [exact HA2|done|right]. by split.
  - apply scan_bind. eapply scan_mono; [by eapply wp_scan_char_kind|]. intros t st2 Ht.
    apply scan_ret. by apply scanned_to_all.
Qed.
End Scanners.

(** ** Whole inputs *)
Lemma wp_lex_tokens input st : At input [] st →
  wp (lex_tokens input) (λ toks st', (∃ pre, At input pre st') ∧ (finished (cur st') = true ∨
    ∃ front, toks = front ++ [token Eof (blen input) (blen input)] ∧ spelled 0 front input)) st.
Proof.
  intros HA. unfold lex_tokens.
  eapply (wp_bind_inv _ _ _ (λ toks st', (∃ pre, At input pre st') ∧
    (finished (cur st') = true ∨ spelled 0 toks input))).
  - eapply (wp_iterate (λ toks st, ∃ pre, At input pre st ∧
      (finished (cur st) = true ∨ spelled 0 toks pre))).
    { exists []. split; [done|]. right. constructor. }
    clear st HA. intros toks st (pre & HA & Hsp). unfold lex_round. apply scan_bind.
    eapply wp_peek; [done| |].
    + intros ch st1 HP Hr Hf. destruct Hsp as [Hf'|Hsp]; [congruence|].
      apply scan_bind. eapply scan_mono; [by apply wp_scan_token|].
      intros new st2 (c & Hc & HA2 & Hnew). apply scan_ret. split.
      * exists (pre ++ c). split; [done|]. destruct Hnew as [|Hnew]; [by left|right].
        by eapply spelled_app.
      * rewrite <- Hr. rewrite (At_app_rest _ _ _ _ _ (Peeked_At _ _ _ _ HP) HA2).
        rewrite length_app. destruct c; [done|simpl; lia].
    + intros st1 HA1 Hr He. apply scan_ret. split; [by exists pre|].
      destruct He as [[He Hf]|Hf]; [|by left]. destruct Hsp as [Hf'|Hsp]; [left; by rewrite Hf|right].
      destruct HA1 as (-> & _). by rewrite He, app_nil_r.
  - intros toks st' [Hp Hsp]. apply scan_ret. split; [done|]. destruct Hsp as [|Hsp]; [by left|right].
    eauto.
Qed.

(** The tokens of an input: a lossless tiling and an empty end marker. *)
Definition lossless (input : text) (toks : list Token) : Prop :=
  ∃ front, toks = front ++ [token Eof (blen input) (blen input)] ∧ spelled 0 front input.

#[export] Instance faithful_lex_tokens input : Faithful (lex_tokens input).
Proof.
  unfold lex_tokens, lex_round, scan_token, starts_string, scan, scan_plain, scan_cooked, cooked_round,
    push_text, scan_hole, is_hole_name, skip_escape, scan_char_kind, scan_one, scan_pair, scan_dot,
    scan_equal, scan_minus, scan_slash, comment_round, scan_percent, scan_bang, scan_bitwise, scan_char,
    scan_number, scan_fraction, scan_exponent, scan_identifier, take_chars, take_if, peek_is,
    peek_index, next_expect.
  assert (∀ o n, Faithful (hole_name_bytes o n)).
  { intros o n. revert o. induction n; simpl; solve_faithful. }
  solve_faithful.
Qed.

Lemma wp_lex input st : wp (lex_with_cancellation input) (λ toks _, lossless input toks) st.
Proof.
  unfold lex_with_cancellation. apply scan_bind, wp_check_live. intros _ st1 _ _. apply scan_bind.
  assert (∀ c, wp (lex_tokens input) (λ toks st', (finished (cur st') = true → cxl st' = Some 0) ∧
    (finished (cur st') = true ∨ lossless input toks)) {| cur := cursor_of input; cxl := c |}) as Hl.
  { intros c. eapply scan_mono; [apply wp_lex_tokens, At_cursor_of|].
    intros toks st' [[pre (_ & _ & Hf)] Hs]. by split. }
  specialize (Hl (cxl st1)). unfold wp, with_text in *.
  destruct (lex_tokens input _) as [toks st2| | |]; try done. destruct Hl as [Hf Hs].
  apply scan_bind, wp_check_live. simpl. intros Hne st3 _ _. apply scan_ret.
  destruct Hs as [Hs|]; [|done]. by specialize (Hf Hs).
Qed.

Lemma lex_guarded input : lex_with_cancellation input = guarded (with_text input (lex_tokens input)) id.
Proof. done. Qed.

(** The text of a token, as its readers slice it. *)
Definition token_text (input : text) (t : Token) : option text :=
  slice input (start (token_span t)) (end_ (token_span t)).

Lemma spelled_texts input p toks c q : spelled (blen p) toks c → input = p ++ c ++ q →
  ∃ texts, Forall2 (λ t s, token_text input t = Some s ∧ s ≠ [] ∧ kind_ok (token_kind t) s = true)
             toks texts ∧ concat texts = c.
Proof.
  intros Hs. remember (blen p) as n eqn:Hn. revert p Hn q.
  induction Hs as [n|n k t toks c Ht Hk Hs IH]; intros p -> q Hin.
  { exists []. by split; [constructor|]. }
  destruct (IH (p ++ t) ltac:(by rewrite blen_app) q) as (texts & HF & Hc).
  { rewrite Hin. by rewrite <- !app_assoc. }
  exists (t :: texts). split; [|simpl; by rewrite Hc]. constructor; [|done]. split_and!; [|done..].
  unfold token_text. simpl. rewrite Hin, <- app_assoc. apply slice_app.
Qed.


#[export] Instance faithful_lex_with_cancellation input : Faithful (lex_with_cancellation input).
Proof. unfold lex_with_cancellation. solve_faithful. Qed.

Lemma lex_done input st toks st' :
  lex_with_cancellation input st = Done toks st' → lex input = Some toks.
Proof.
  unfold lex. rewrite lex_guarded. intros E. eapply guarded_transparent; [solve_faithful| |done].
  apply blind_with_text.
Qed.

(** C22: cancellation is transparent.  Under any token, from any state, lexing
    either returns exactly the tokens of [lex], or reports the cancellation of a
    token that was cancelled; it never panics, never diverges and never returns
    a truncated buffer. *)
Theorem lex_cancellation_transparent input st :
  match lex_with_cancellation input st with
  | Done tokens _ => lex input = Some tokens ∧ lossless input tokens
  | Stopped => cxl st ≠ None
  | Panicked | OutOfFuel => False
  end.
Proof.
  pose proof (wp_lex input st) as Hw. unfold wp in Hw.
  destruct (lex_with_cancellation input st) as [toks st'| | |] eqn:E; [| |done..].
  - split; [by eapply lex_done|done].
  - intros Hc. pose proof (faithful_fresh (m := lex_with_cancellation input) st Hc) as H.
    by rewrite E in H.
Qed.
