(* ===== verification/LineIndex.v ===== *)
(** * Line index

    Models [kagari-source/src/line_index.rs]: the table of line starts and ends,
    and the two conversions between byte offsets and line/character positions.
    A byte of a multi-byte character is neither LF nor CR, so the table is built
    from characters. *)
From Stdlib Require Import Ascii.
From S2P Require Import Prelude Text LiteralGrammar.
Open Scope nat_scope.

Inductive PositionEncoding : Set := Utf8 | Utf16.
Record Position : Set := { line : nat; character : nat }.
Record LineIndex : Set := { starts : list nat; ends_ : list nat }.

(** The loop of [LineIndex::new]: the end of each line and the start of the next. *)
Fixpoint line_breaks (prev : option Z) (offset : nat) (t : text) : list (nat * nat) :=
  match t with
  | [] => []
  | c :: t =>
      let more := line_breaks (Some c) (offset + len_utf8 c) t in
      if (c =? LF)%Z
      then (if bool_decide (prev = Some CR) then offset - 1 else offset, offset + 1) :: more
      else more
  end.
Definition line_index (t : text) : LineIndex :=
  let breaks := line_breaks None 0 t in
  {| starts := 0 :: breaks.*2; ends_ := breaks.*1 ++ [blen t] |}.

(** [slice::partition_point] on a partitioned slice: the number of leading
    elements that satisfy the predicate. *)
Fixpoint partition_point {A} (p : A → bool) (l : list A) : nat :=
  match l with [] => 0 | x :: l => if p x then S (partition_point p l) else 0 end.

Definition len_utf16 (c : Z) : nat := if (c <? 0x10000)%Z then 1 else 2.
Fixpoint utf16_count (t : text) : nat :=
  match t with [] => 0 | c :: t => len_utf16 c + utf16_count t end.

Definition is_char_boundary (t : text) (n : nat) : bool := bool_decide (is_Some (suffix_at n t)).

(** [str::get]. *)
Definition get_range (t : text) (a b : nat) : option text := slice t a b.

Definition position (index : LineIndex) (t : text) (offset : nat) (encoding : PositionEncoding)
    : option Position :=
  if negb (is_char_boundary t offset) then None
  else
    match partition_point (λ s, s <=? offset) (starts index) with
    | O => None
    | S line =>
        stop ← ends_ index !! line;
        if stop <? offset then None
        else
          start ← starts index !! line;
          prefix ← get_range t start offset;
          Some {| line := line;
                  character := match encoding with
                               | Utf8 => blen prefix
                               | Utf16 => utf16_count prefix
                               end |}
    end.

(** The loop over UTF-16 units of a line. *)
Fixpoint utf16_offset (units offset target : nat) (t : text) : option nat :=
  match t with
  | [] => if units =? target then Some offset else None
  | c :: t =>
      if units =? target then Some offset
      else
        let units := units + len_utf16 c in
        if target <? units then None else utf16_offset units (offset + len_utf8 c) target t
  end.

Definition offset_of (index : LineIndex) (t : text) (p : Position) (encoding : PositionEncoding)
    : option nat :=
  start ← starts index !! line p;
  stop ← ends_ index !! line p;
  content ← get_range t start stop;
  match encoding with
  | Utf8 => if (character p <=? blen content) && is_char_boundary content (character p)
            then Some (start + character p) else None
  | Utf16 => utf16_offset 0 start (character p) content
  end.

Example line_index_example :
  let t := text_of "a" ++ [CR; LF; 0x1F600%Z; LF] in
  (line_index t, position (line_index t) t 7 Utf16, offset_of (line_index t) t {| line := 1; character := 2 |} Utf16,
   position (line_index t) t 2 Utf8)
  = ({| starts := [0; 3; 8]; ends_ := [1; 7; 8] |}, Some {| line := 1; character := 2 |}, Some 7, None).
Proof. vm_compute. reflexivity. Qed.

(** ** Lines *)
Definition no_lf (t : text) : bool := forallb (λ c, negb (c =? LF)%Z) t.
Fixpoint count_lf (t : text) : nat :=
  match t with [] => 0 | c :: t => (if (c =? LF)%Z then 1 else 0) + count_lf t end.
Definition ends_in (c : Z) (t : text) : Prop := ∃ t', t = t' ++ [c].

(** The terminator after line [l]: a CR directly before the LF belongs to it. *)
Definition terminator (l term : text) : Prop :=
  (term = [LF] ∧ ¬ ends_in CR l) ∨ term = [CR; LF].

(** [t], which follows [p], cut into lines with the two columns of the table. *)
Inductive indexed : text → text → list nat → list nat → Prop :=
| indexed_last p t : no_lf t = true → indexed p t [blen p] [blen (p ++ t)]
| indexed_line p l term t ss es :
    no_lf l = true → terminator l term →
    indexed (p ++ l ++ term) t ss es →
    indexed p (l ++ term ++ t) (blen p :: ss) (blen (p ++ l) :: es).

Lemma no_lf_app p q : no_lf (p ++ q) = true ↔ no_lf p = true ∧ no_lf q = true.
Proof. unfold no_lf. by rewrite forallb_app, andb_true_iff. Qed.
Lemma count_lf_app p q : count_lf (p ++ q) = count_lf p + count_lf q.
Proof. induction p as [|c p IH]; simpl; lia. Qed.
Lemma no_lf_count p : no_lf p = true → count_lf p = 0.
Proof. induction p as [|c p IH]; simpl; [done|]. destruct (c =? LF)%Z; simpl; [done|auto]. Qed.
Lemma ends_in_snoc c d t : ends_in c (t ++ [d]) ↔ c = d.
Proof.
  split; [|intros ->; by exists t]. intros (t' & Heq). by apply app_inj_2 in Heq as [_ [= ->]].
Qed.
Lemma ends_in_nil c : ¬ ends_in c [].
Proof. by intros ([] & ?). Qed.
Lemma terminator_cases l term : terminator l term → term = [LF] ∨ term = [CR; LF].
Proof. intros [[-> _]| ->]; auto. Qed.

(** The columns built from [t], where [l] is the part of the current line
    already passed and [prev] the character before [t]. *)
Lemma line_breaks_indexed t p l prev :
  no_lf l = true → (prev = Some CR ↔ ends_in CR l) →
  indexed p (l ++ t) (blen p :: (line_breaks prev (blen (p ++ l)) t).*2)
    ((line_breaks prev (blen (p ++ l)) t).*1 ++ [blen (p ++ l ++ t)]).
Proof.
  revert p l prev. induction t as [|c t IH]; intros p l prev Hl Hprev.
  { simpl. rewrite app_nil_r. by apply indexed_last. }
  cbn [line_breaks]. destruct (c =? LF)%Z eqn:Ec.
  - apply Z.eqb_eq in Ec as ->. cbn [fmap list_fmap fst snd app].
    assert (∀ l1 term, l ++ [LF] = l1 ++ term → no_lf l1 = true → terminator l1 term →
      indexed p (l ++ LF :: t)
        (blen p :: blen (p ++ l) + 1 :: (line_breaks (Some LF) (blen (p ++ l) + len_utf8 LF) t).*2)
        (blen (p ++ l1) :: (line_breaks (Some LF) (blen (p ++ l) + len_utf8 LF) t).*1
           ++ [blen (p ++ l ++ LF :: t)])) as Hgo.
    { intros l1 term Heq Hl1 Hterm. change (len_utf8 LF) with 1.
      replace (l ++ LF :: t) with (l1 ++ term ++ t) by (rewrite app_assoc, <- Heq; by rewrite <- app_assoc).
      specialize (IH (p ++ l1 ++ term) [] (Some LF) eq_refl). rewrite !app_nil_r in IH.
      replace (blen (p ++ l) + 1) with (blen (p ++ l1 ++ term)).
      2: { rewrite <- Heq, !blen_app. simpl. change (len_utf8 LF) with 1. lia. }
      replace (p ++ l1 ++ term ++ t) with ((p ++ l1 ++ term) ++ [] ++ t) by (by rewrite <- !app_assoc).
      apply indexed_line; [done..|]. apply IH. split; [done|]. by intros ?%ends_in_nil. }
    case_bool_decide as Hcr.
    + apply Hprev in Hcr as [l' ->].
      replace (blen (p ++ l' ++ [CR]) - 1) with (blen (p ++ l')).
      2: { rewrite !blen_app. simpl. change (len_utf8 CR) with 1. lia. }
      apply (Hgo l' [CR; LF]); [by rewrite <- app_assoc| |by right].
      by apply no_lf_app in Hl as [? _].
    + apply (Hgo l [LF]); [done|done|left]. by rewrite <- Hprev.
  - replace (l ++ c :: t) with ((l ++ [c]) ++ t) by (by rewrite <- app_assoc).
    specialize (IH p (l ++ [c]) (Some c)). rewrite app_assoc, blen_snoc in IH.
    replace (blen (p ++ l) + len_utf8 c) with (blen ((p ++ l) ++ [c])) by apply blen_snoc.
    rewrite blen_snoc. apply IH.
    + apply no_lf_app. split; [done|]. simpl. by rewrite Ec.
    + rewrite ends_in_snoc. by split; [intros [= ->]|intros ->].
Qed.

Lemma line_index_indexed t : indexed [] t (starts (line_index t)) (ends_ (line_index t)).
Proof.
  apply (line_breaks_indexed t [] [] None); [done|]. split; [done|]. by intros ?%ends_in_nil.
Qed.

(** A place where a line starts, after [k] line feeds. *)
Definition line_start (u : text) (k : nat) : Prop := (u = [] ∨ ends_in LF u) ∧ count_lf u = k.

Lemma line_start_next u k l term : line_start u k → no_lf l = true → terminator l term →
  line_start (u ++ l ++ term) (S k).
Proof.
  intros [_ <-] Hl Hterm. split.
  - right. destruct (terminator_cases _ _ Hterm) as [-> | ->].
    + exists (u ++ l). by rewrite <- app_assoc.
    + exists (u ++ l ++ [CR]). by rewrite <- !app_assoc.
  - rewrite !count_lf_app, (no_lf_count l Hl).
    destruct (terminator_cases _ _ Hterm) as [-> | ->]; simpl; lia.
Qed.

(** A row of the table: the line it describes, and what follows the line. *)
Record row (t : text) (ss es : list nat) (i : nat) (u l q : text) : Prop := {
  row_text : t = u ++ l ++ q;
  row_start : ss !! i = Some (blen u);
  row_end : es !! i = Some (blen (u ++ l));
  row_no_lf : no_lf l = true;
  row_next : (q = [] ∧ ss !! S i = None)
             ∨ ∃ term q', q = term ++ q' ∧ terminator l term ∧ ss !! S i = Some (blen (u ++ l ++ term))
}.

Lemma indexed_row p t ss es i k : indexed p t ss es → line_start p k → i < length ss →
  ∃ u l q, row (p ++ t) ss es i u l q ∧ line_start u (k + i).
Proof.
  intros H. revert i k. induction H as [p t Ht|p l term t ss es Hl Hterm H IH]; intros i k Hp Hi.
  - destruct i; [|simpl in Hi; lia]. exists p, t, []. rewrite Nat.add_0_r.
    split; [|done]. split; rewrite ?app_nil_r; auto.
  - destruct i as [|i].
    + exists p, l, (term ++ t). rewrite Nat.add_0_r. split; [|done]. split; [done..|]. right.
      exists term, t. split_and!; [done..|]. simpl. by inversion H.
    + simpl in Hi.
      destruct (IH i (S k) (line_start_next _ _ _ _ Hp Hl Hterm) ltac:(lia)) as (u & l' & q & Hr & Hu).
      exists u, l', q. replace (k + S i) with (S k + i) by lia. split; [|done].
      destruct Hr as [Ht Hs He Hn Hx]. split; [|done..]. by rewrite <- Ht, <- !app_assoc.
Qed.

Lemma indexed_first p t ss es : indexed p t ss es → ∃ ss', ss = blen p :: ss'.
Proof. destruct 1; by eexists. Qed.

(** The starts increase. *)
Lemma indexed_ge p t ss es i s : indexed p t ss es → ss !! i = Some s → blen p ≤ s.
Proof.
  intros H. revert i s. induction H as [p t Ht|p l term t ss es Hl Hterm H IH]; intros [|i] s Hs; simplify_eq/=; try lia.
  apply IH in Hs. rewrite !blen_app in Hs. lia.
Qed.

Lemma partition_point_row p t ss es i n : indexed p t ss es →
  (∃ s, ss !! i = Some s ∧ s ≤ n) → (∀ s, ss !! (S i) = Some s → n < s) →
  partition_point (λ s, s <=? n) ss = S i.
Proof.
  intros H. revert i. induction H as [p t Ht|p l term t ss es Hl Hterm H IH]; intros i (s & Hs & Hle) Hn.
  - destruct i; simplify_eq/=. by rewrite (proj2 (Nat.leb_le _ _) Hle).
  - destruct i as [|i]; simplify_eq/=.
    + rewrite (proj2 (Nat.leb_le _ _) Hle). f_equal. destruct ss as [|s' ss]; [done|]. simpl.
      by rewrite (proj2 (Nat.leb_gt _ _) (Hn s' eq_refl)).
    + assert (blen p ≤ s) as Hp.
      { pose proof (indexed_ge _ _ _ _ _ _ H Hs) as Hge. rewrite !blen_app in Hge. lia. }
      rewrite (proj2 (Nat.leb_le _ _)) by lia. f_equal. apply IH; eauto.
Qed.

Lemma partition_point_spec p t ss es n k : indexed p t ss es →
  partition_point (λ s, s <=? n) ss = S k →
  (∃ s, ss !! k = Some s ∧ s ≤ n) ∧ ∀ s, ss !! (S k) = Some s → n < s.
Proof.
  intros H. revert k. induction H as [p t Ht|p l term t ss es Hl Hterm H IH]; intros k; simpl.
  - destruct (blen p <=? n) eqn:E; [|done]. apply Nat.leb_le in E. intros [= <-]. split; [eauto|done].
  - destruct (blen p <=? n) eqn:E; [|done]. apply Nat.leb_le in E. intros [= <-].
    destruct (partition_point _ ss) as [|k] eqn:Ek.
    + split; [eauto|]. intros s Hs. destruct ss as [|s' ss]; simplify_eq/=.
      destruct (s <=? n) eqn:Es; [done|]. by apply Nat.leb_gt in Es.
    + apply (IH k eq_refl).
Qed.

#[local] Opaque line_index.

(** ** Positions *)
Definition units (encoding : PositionEncoding) (x : text) : nat :=
  match encoding with Utf8 => blen x | Utf16 => utf16_count x end.

(** What a position means, with no table: [offset] is after [u ++ x], where
    [u] ends the lines before, [x] is the part of its own line before it, and
    the offset does not split a CR LF pair. *)
Definition located (t : text) (offset : nat) (encoding : PositionEncoding) (p : Position) : Prop :=
  ∃ u x y, t = u ++ x ++ y ∧ offset = blen (u ++ x) ∧ line_start u (line p) ∧ no_lf x = true
    ∧ character p = units encoding x ∧ ¬ (ends_in CR x ∧ ∃ y', y = LF :: y').

(** The same, read off a row of the table. *)
Definition placed (t : text) (offset : nat) (encoding : PositionEncoding) (p : Position) : Prop :=
  ∃ u x y q, row t (starts (line_index t)) (ends_ (line_index t)) (line p) u (x ++ y) q
    ∧ offset = blen (u ++ x) ∧ character p = units encoding x.

Lemma row_of t i : i < length (starts (line_index t)) →
  ∃ u l q, row t (starts (line_index t)) (ends_ (line_index t)) i u l q ∧ line_start u i.
Proof. apply (indexed_row [] t _ _ i 0 (line_index_indexed t)). split; [by left|done]. Qed.

Lemma app_cut (p q u v : text) : p ++ q = u ++ v → blen u ≤ blen p → ∃ x, p = u ++ x ∧ v = x ++ q.
Proof.
  intros Heq Hle. apply app_eq_inv in Heq as [(k & -> & ->)|(k & -> & ->)]; [by exists k|].
  rewrite blen_app in Hle. assert (k = []) as -> by (apply blen_0; lia).
  exists []. by rewrite !app_nil_r.
Qed.

Lemma is_char_boundary_iff t n : is_char_boundary t n = true ↔ boundary t n.
Proof.
  unfold is_char_boundary, boundary. rewrite bool_decide_eq_true. split.
  - intros [q (p & -> & <-)%suffix_at_inv]. by exists p, q.
  - intros (p & q & -> & ->). rewrite suffix_at_app. by eexists.
Qed.

Lemma position_iff t off enc p : position (line_index t) t off enc = Some p ↔ placed t off enc p.
Proof.
  unfold position. pose proof (line_index_indexed t) as Hidx. split.
  - destruct (is_char_boundary t off) eqn:Hb; simpl; [|done].
    apply is_char_boundary_iff in Hb as (a & b & Hab & ->).
    destruct (partition_point _ _) as [|k] eqn:Hk; [done|].
    destruct (partition_point_spec _ _ _ _ _ _ Hidx Hk) as [(s & Hs & Hle) Hn].
    destruct (row_of t k) as (u & l & q & Hr & Hu); [by eapply lookup_lt_Some|].
    pose proof Hr as [Ht Hs' He Hl Hx]. rewrite Hs in Hs'. injection Hs' as ->.
    rewrite He. simpl. destruct (_ <? _) eqn:Hend; [done|]. apply Nat.ltb_ge in Hend.
    rewrite Hs. simpl. rewrite Ht in Hab.
    destruct (app_cut a b u (l ++ q) (eq_sym Hab) Hle) as (x & -> & Hlq).
    symmetry in Hlq.
    destruct (app_cut l q x b (eq_sym Hlq)) as (y & -> & ->); [rewrite !blen_app in Hend; lia|].
    unfold get_range. rewrite Ht at 1.
    rewrite <- app_assoc, (slice_prefixes _ u x (y ++ q)) by (by rewrite <- ?app_assoc). simpl.
    intros [= <-]. exists u, x, y, q. by destruct enc.
  - intros (u & x & y & q & Hr & -> & Hc). pose proof Hr as [Ht Hs He Hl Hx].
    rewrite (proj2 (is_char_boundary_iff _ _)); simpl.
    2: { exists (u ++ x), (y ++ q). by rewrite Ht, <- !app_assoc. }
    rewrite (partition_point_row _ _ _ _ (line p) _ Hidx).
    + rewrite He. simpl. rewrite (proj2 (Nat.ltb_ge _ _)) by (rewrite !blen_app; lia).
      rewrite Hs. simpl. unfold get_range. rewrite Ht at 1.
      rewrite <- app_assoc, (slice_prefixes _ u x (y ++ q)) by (by rewrite <- ?app_assoc). simpl.
      destruct p as [ln ch]. simpl in *. subst ch. by destruct enc.
    + eexists. split; [done|]. rewrite blen_app. lia.
    + intros s Hs'. destruct Hx as [[_ Hnone]|(term & q' & -> & Hterm & Hsome)]; [congruence|].
      rewrite Hsome in Hs'. injection Hs' as <-. rewrite !blen_app.
      destruct (terminator_cases _ _ Hterm) as [-> | ->]; simpl; change (len_utf8 LF) with 1; lia.
Qed.

Lemma len_utf16_pos c : 0 < len_utf16 c.
Proof. unfold len_utf16. case_match; lia. Qed.
Lemma utf16_count_0 x : utf16_count x = 0 → x = [].
Proof. destruct x as [|c x]; [done|]. simpl. pose proof (len_utf16_pos c). lia. Qed.

Lemma utf16_offset_iff l n off target res : n ≤ target →
  utf16_offset n off target l = Some res ↔
  ∃ x y, l = x ++ y ∧ target = n + utf16_count x ∧ res = off + blen x.
Proof.
  revert n off. induction l as [|c l IH]; intros n off Hle; simpl.
  - case_match eqn:E; [apply Nat.eqb_eq in E|apply Nat.eqb_neq in E].
    + split; [intros [= <-]; exists [], []; simpl; split_and!; [done|lia..]|].
      intros ([] & y & Heq & Ht & ->); [|done]. simpl. f_equal. lia.
    + split; [done|]. intros ([] & y & Heq & Ht & ->); [|done]. simpl in *. lia.
  - case_match eqn:E; [apply Nat.eqb_eq in E|apply Nat.eqb_neq in E].
    + split; [intros [= <-]; exists [], (c :: l); simpl; split_and!; [done|lia..]|].
      intros (x & y & Heq & Ht & ->). assert (x = []) as -> by (apply utf16_count_0; lia).
      simpl. f_equal. lia.
    + destruct (target <? _) eqn:Et.
      * apply Nat.ltb_lt in Et. split; [done|]. intros ([|d x] & y & Heq & Ht & ->); simpl in *; [lia|].
        simplify_eq. lia.
      * apply Nat.ltb_ge in Et. rewrite (IH _ _ Et). split.
        -- intros (x & y & -> & Ht & ->). exists (c :: x), y. simpl. split_and!; [done|lia..].
        -- intros ([|d x] & y & Heq & Ht & ->); simpl in *; [lia|]. simplify_eq.
           exists x, y. split_and!; [done|lia..].
Qed.

Lemma offset_of_iff t off enc p : offset_of (line_index t) t p enc = Some off ↔ placed t off enc p.
Proof.
  unfold offset_of.
  destruct (starts (line_index t) !! line p) as [s|] eqn:Hs.
  2: { split; [done|]. intros (u & x & y & q & [_ Hs' _ _ _] & _). congruence. }
  destruct (row_of t (line p)) as (u & l & q & Hr & _); [by eapply lookup_lt_Some|].
  pose proof Hr as [Ht Hs' He Hl Hx]. rewrite Hs in Hs'. injection Hs' as ->.
  cbn [mbind option_bind]. rewrite He. cbn [mbind option_bind]. unfold get_range.
  rewrite Ht at 1. rewrite (slice_prefixes _ u l q) by done. cbn [mbind option_bind].
  assert (placed t off enc p ↔ ∃ x y, l = x ++ y ∧ off = blen u + blen x ∧ character p = units enc x) as ->.
  { split.
    - intros (u' & x & y & q' & [Ht' Hs' He' _ _] & -> & Hc). rewrite Hs in Hs'. rewrite He in He'.
      injection Hs' as Hu. injection He' as Hul. rewrite Ht in Ht'.
      destruct (prefix_blen_inj _ _ _ _ Ht' Hu) as [<- Hlq].
      destruct (prefix_blen_inj _ _ _ _ Hlq) as [-> _]; [rewrite !blen_app in *; lia|].
      exists x, y. by rewrite blen_app.
    - intros (x & y & -> & -> & Hc). exists u, x, y, q. by rewrite blen_app. }
  destruct enc; simpl.
  - destruct (is_char_boundary l (character p)) eqn:Hb; rewrite ?andb_true_r, ?andb_false_r.
    + apply is_char_boundary_iff in Hb as (x & y & -> & Hc). rewrite Hc, blen_app.
      rewrite (proj2 (Nat.leb_le _ _)) by lia. split.
      * intros [= <-]. by exists x, y.
      * intros (x' & y' & Heq & -> & Hc'). f_equal. lia.
    + split; [done|]. intros (x & y & -> & -> & Hc).
      rewrite Hc, (proj2 (is_char_boundary_iff _ _) (boundary_prefix x y)) in Hb. done.
  - rewrite utf16_offset_iff by lia. simpl.
    split; intros (x & y & ? & ? & ?); exists x, y; split_and!; (done || lia).
Qed.

Lemma line_start_unique u v x y k j : u ++ x = v ++ y → no_lf x = true → no_lf y = true →
  line_start u k → line_start v j → u = v ∧ x = y.
Proof.
  intros Heq Hx Hy [Hu _] [Hv _].
  assert (∀ (a b c d : text), a ++ c = b ++ d → no_lf c = true → (b = [] ∨ ends_in LF b) →
    ∀ e, b = a ++ e → e = []) as Hgo.
  { intros a b c d H Hc Hb e ->. rewrite <- app_assoc in H. apply app_inv_head in H as ->.
    apply no_lf_app in Hc as [He _]. destruct e as [|z e _] using rev_ind; [done|].
    destruct Hb as [Hb|(b' & Hb)]; [by destruct a, e|].
    rewrite app_assoc in Hb. apply app_inj_2 in Hb as [_ [= ->]]; [|done].
    by apply no_lf_app in He as [_ ?]. }
  pose proof Heq as Heq'. apply app_eq_inv in Heq' as [(e & He & _)|(e & He & _)].
  - pose proof (Hgo v u y x (eq_sym Heq) Hy Hu e He) as ->. rewrite app_nil_r in He. subst.
    by apply app_inv_head in Heq.
  - pose proof (Hgo u v x y Heq Hx Hv e He) as ->. rewrite app_nil_r in He. subst.
    by apply app_inv_head in Heq.
Qed.

Lemma located_unique t off enc p p' : located t off enc p → located t off enc p' → p = p'.
Proof.
  intros (u & x & y & -> & -> & Hu & Hx & Hc & _) (v & w & z & Ht & Hoff & Hv & Hw & Hc' & _).
  rewrite !app_assoc in Ht.
  destruct (prefix_blen_inj _ _ _ _ Ht Hoff) as [Huv _].
  destruct (line_start_unique _ _ _ _ _ _ Huv Hx Hw Hu Hv) as [-> ->].
  destruct p, p', Hu as [_ ?], Hv as [_ ?]; simpl in *. congruence.
Qed.

Lemma placed_located t off enc p : placed t off enc p → located t off enc p.
Proof.
  intros (u & x & y & q & Hr & -> & Hc). pose proof Hr as [Ht Hs He Hl Hx].
  destruct (row_of t (line p)) as (u' & l' & q' & [Ht' Hs' _ _ _] & Hu'); [by eapply lookup_lt_Some|].
  rewrite Hs in Hs'. injection Hs' as Hu. pose proof Ht' as Heq. rewrite Ht in Heq.
  destruct (prefix_blen_inj _ _ _ _ Heq Hu) as [<- _].
  apply no_lf_app in Hl as [Hlx Hly].
  exists u, x, (y ++ q). split_and!; [by rewrite Ht, <- !app_assoc|done..|].
  intros [Hcr (r & Hq)]. destruct y as [|c y]; simplify_eq/=.
  destruct Hx as [[? _]|(term & r' & Heq' & Hterm & _)]; [done|].
  rewrite app_nil_r in Hterm. by destruct Hterm as [[-> Hn]| ->].
Qed.

(** Whether an offset splits a CR LF pair. *)
Definition splits_crlf (t : text) (off : nat) : Prop :=
  ∃ p q, t = p ++ [CR; LF] ++ q ∧ off = blen (p ++ [CR]).

Lemma placed_total t off enc : boundary t off → ¬ splits_crlf t off → ∃ p, placed t off enc p.
Proof.
  intros (a & b & Hab & ->) Hsplit. pose proof (line_index_indexed t) as Hidx.
  destruct (partition_point (λ s, s <=? blen a) (starts (line_index t))) as [|k] eqn:Hk.
  { destruct (indexed_first _ _ _ _ Hidx) as [ss' Hss]. by rewrite Hss in Hk. }
  destruct (partition_point_spec _ _ _ _ _ _ Hidx Hk) as [(s & Hs & Hle) Hn].
  destruct (row_of t k) as (u & l & q & Hr & _); [by eapply lookup_lt_Some|].
  pose proof Hr as [Ht Hs' He Hl Hx]. rewrite Hs in Hs'. injection Hs' as ->. rewrite Ht in Hab.
  destruct (app_cut a b u (l ++ q) (eq_sym Hab) Hle) as (x & -> & Hlq).
  assert (blen x ≤ blen l) as Hxl.
  { destruct (decide (blen x ≤ blen l)) as [|Hgt]; [done|]. exfalso.
    destruct (app_cut x b l q (eq_sym Hlq)) as (z & -> & ->); [lia|].
    destruct Hx as [[Hnil _]|(term & q' & Heq & Hterm & Hnext)].
    - apply app_eq_nil in Hnil as [-> _]. rewrite app_nil_r in Hgt. lia.
    - apply Hn in Hnext. rewrite !blen_app in *.
      destruct (app_cut term q' z b (eq_sym Heq)) as (w & -> & ->); [lia|].
      rewrite blen_app in Hnext. destruct z as [|c z]; [simpl in Hgt; lia|].
      destruct (terminator_cases _ _ Hterm) as [Heq'|Heq'].
      + destruct z, w; simplify_eq/=; lia.
      + destruct z as [|d z]; [|destruct z, w; simplify_eq/=; lia]. simplify_eq/=.
        apply Hsplit. exists (u ++ l), q'. split; [by rewrite <- !app_assoc|].
        rewrite !blen_app. simpl. change (len_utf8 CR) with 1. lia. }
  destruct (app_cut l q x b Hlq Hxl) as (y & -> & ->).
  exists {| line := k; character := units enc x |}, u, x, y, q. done.
Qed.

(** C29: Positions mean what an editor means by them. [LineIndex::position]
    answers for exactly the offsets that are character boundaries and do not fall
    between a CR and its LF. Its line is the number of line feeds before the
    offset, and its character counts the UTF-8 bytes, or the UTF-16 code units, of
    the part of that line before the offset; and no other answer would fit. *)
Theorem position_exact t offset encoding p :
  (position (line_index t) t offset encoding = Some p ↔ located t offset encoding p)
  ∧ (is_Some (position (line_index t) t offset encoding)
     ↔ is_char_boundary t offset = true ∧ ¬ splits_crlf t offset).
Proof.
  assert (∀ p', located t offset encoding p' → boundary t offset ∧ ¬ splits_crlf t offset) as Hloc.
  { intros p' (u & x & y & -> & -> & Hu & Hx & _ & Hns). split.
    - rewrite app_assoc. apply boundary_prefix.
    - intros (a & b & Heq & Hoff). apply Hns. rewrite app_assoc in Heq.
      replace (a ++ [CR; LF] ++ b) with ((a ++ [CR]) ++ LF :: b) in Heq by (by rewrite <- app_assoc).
      destruct (prefix_blen_inj _ _ _ _ Heq Hoff) as [Hux ->]. split; [|by eexists].
      destruct x as [|z x _] using rev_ind.
      + rewrite app_nil_r in Hux. subst u. destruct Hu as [[Hu|Hu%ends_in_snoc] _]; [by destruct a|done].
      + rewrite app_assoc in Hux. apply app_inj_2 in Hux as [_ [= ->]]; [by exists x|done]. }
  assert (position (line_index t) t offset encoding = Some p ↔ located t offset encoding p) as H.
  { rewrite position_iff. split; [apply placed_located|]. intros Hp. destruct (Hloc _ Hp) as [Hb Hs].
    destruct (placed_total _ _ encoding Hb Hs) as [p' Hp'].
    by rewrite (located_unique _ _ _ _ _ Hp (placed_located _ _ _ _ Hp')). }
  split; [done|]. rewrite is_char_boundary_iff. split.
  - intros [p' Hp%position_iff%placed_located]. by eapply Hloc.
  - intros [Hb Hs]. destruct (placed_total _ _ encoding Hb Hs) as [p' Hp'%position_iff]. by eexists.
Qed.

(** C30: Offsets and positions are inverse to each other, in both encodings:
    [LineIndex::offset] finds an offset for a position exactly when that position
    is what [LineIndex::position] reports for it. *)
Theorem position_offset_roundtrip t offset encoding p :
  offset_of (line_index t) t p encoding = Some offset
  ↔ position (line_index t) t offset encoding = Some p.
Proof. by rewrite offset_of_iff, position_iff. Qed.
