(* ===== verification/Lexical.v ===== *)
(** * The lexical table

    Models [kagari-syntax/src/lexical.rs]: the retained table of token kinds and
    starts, its two storage widths, and the sparse map of trivia boundaries that
    decides which syntax node owns the comments and blanks between two tokens;
    and the part of [kagari-syntax/src/parser.rs] that builds it. *)
From stdpp Require Import gmap.
From Stdlib Require Import Ascii.
From S2P Require Import Prelude Text Literal LiteralGrammar Token Lexer LexerProps.
Import TokenKind.
Open Scope nat_scope.

Definition CANCELLATION_CHECK_TOKENS : nat := 1024.

(** [u16::try_from] and [u32::try_from] on a [usize]. *)
Definition try_u16 (n : nat) : option nat := if (Z.of_nat n <? 2 ^ 16)%Z then Some n else None.
Definition try_u32 (n : nat) : option nat := if (Z.of_nat n <? 2 ^ 32)%Z then Some n else None.

Inductive Offsets : Set := Narrow (starts : list nat) | Wide (starts : list nat).
Definition offsets_get (o : Offsets) (index : nat) : option nat :=
  match o with Narrow starts => starts !! index | Wide starts => starts !! index end.

Record Lexical : Type := {
  lex_starts : Offsets;
  lex_kinds : list TokenKind.kind;
  boundaries : gmap nat nat;
  lex_length : nat
}.

(** Coverage in the table ([ast/site.rs]). *)
Record SyntaxSite : Set := { first : nat; site_end : nat }.

(** [if index.is_multiple_of(CANCELLATION_CHECK_TOKENS) { cancel.check()?; }]. *)
Definition check_at (index : nat) : M unit :=
  if index mod CANCELLATION_CHECK_TOKENS =? 0 then check else ret tt.

(** [for (index, x) in l.iter().enumerate()] with [index] starting at [i]. *)
Fixpoint for_each {A T} (body : nat → A → T → M T) (i : nat) (l : list A) (s : T) : M T :=
  match l with
  | [] => ret s
  | x :: l => let* s := body i x s in for_each body (S i) l s
  end.

(** [spelling.find(['\r', '\n'])] and the offset after that line break. *)
Fixpoint newline_end (at_ : nat) (spelling : text) : option nat :=
  match spelling with
  | [] => None
  | c :: more =>
      if (c =? CR)%Z || (c =? LF)%Z
      then Some (at_ + 1 + (if (c =? CR)%Z && starts_with [LF] more then 1 else 0))
      else newline_end (at_ + len_utf8 c) more
  end.

(** The search of one gap, up to the trivia that holds the first line break. *)
Fixpoint gap_boundary (text_ : text) (index : nat) (boundary : nat) (trivia : list Token) : M nat :=
  match trivia with
  | [] => ret boundary
  | t :: more =>
      check_at index ;;;
      let* spelling := of_option (slice text_ (start (token_span t)) (end_ (token_span t))) in
      match newline_end 0 spelling with
      | Some e =>
          ret (if bool_decide (token_kind t = BlockComment) then end_ (token_span t)
               else start (token_span t) + e)
      | None => gap_boundary text_ (S index) boundary more
      end
  end.

(** What a reader assumes of a position with no entry. *)
Definition default_boundary (text_ : text) (tokens : list Token) (position : nat) : option nat :=
  t ← tokens !! position;
  Some (if is_trivia (token_kind t)
        then match tokens !! S position with
             | Some t' => start (token_span t')
             | None => blen text_
             end
        else start (token_span t)).

Definition record_boundary (text_ : text) (tokens : list Token) (boundary : nat)
    (position : nat) (_ : unit) (boundaries : gmap nat nat) : M (gmap nat nat) :=
  check_at position ;;;
  let* default := of_option (default_boundary text_ tokens position) in
  if default =? boundary then ret boundaries
  else let* offset := of_option (try_u32 boundary) in ret (<[position := offset]> boundaries).

(** One token of the boundary loop; the state is [previous] and [boundaries]. *)
Definition boundary_round (text_ : text) (tokens : list Token) (index : nat) (t : Token)
    (s : option nat * gmap nat nat) : M (option nat * gmap nat nat) :=
  check_at index ;;;
  if is_trivia (token_kind t) then ret s
  else
    let first := match fst s with Some p => p + 1 | None => 0 end in
    let* boundary :=
      (match fst s with
       | Some _ => gap_boundary text_ first (start (token_span t))
                     (take (index - first) (drop first tokens))
       | None => ret 0
       end) in
    let* b := for_each (record_boundary text_ tokens boundary) first
                (replicate (S index - first) tt) (snd s) in
    ret (Some index, b).

Definition push_start (index : nat) (t : Token) (s : list nat * list TokenKind.kind)
    : M (list nat * list TokenKind.kind) :=
  check_at index ;;;
  let* offset := of_option (try_u32 (start (token_span t))) in
  ret (fst s ++ [offset], snd s ++ [token_kind t]).

(** [Lexical::new]. *)
Definition lexical_new (text_ : text) (tokens : list Token) : M Lexical :=
  let* len := of_option (try_u32 (blen text_)) in
  let* _ := of_option (try_u32 (length tokens)) in
  let* s := for_each (boundary_round text_ tokens) 0 tokens (None, ∅) in
  let* columns := for_each push_start 0 tokens ([], []) in
  let* offsets :=
    (match try_u16 (blen text_) with
     | Some _ => let* narrow := of_option (mapM try_u16 (fst columns)) in ret (Narrow narrow)
     | None => ret (Wide (fst columns))
     end) in
  ret {| lex_starts := offsets; lex_kinds := snd columns; boundaries := snd s; lex_length := len |}.

Definition len (l : Lexical) : nat := length (lex_kinds l).
Definition kind (l : Lexical) (index : nat) : TokenKind.kind :=
  match lex_kinds l !! index with Some k => k | None => Eof end.
Definition offset (l : Lexical) (index : nat) : nat :=
  match offsets_get (lex_starts l) index with Some o => o | None => lex_length l end.
Definition boundary_at (l : Lexical) (index : nat) : nat :=
  match boundaries l !! index with
  | Some o => o
  | None => if is_trivia (kind l index) then offset l (index + 1) else offset l index
  end.
Definition span (l : Lexical) (index : nat) : Span :=
  {| start := offset l index; end_ := offset l (index + 1) |}.
Definition body_span (l : Lexical) (site : SyntaxSite) : Span :=
  {| start := offset l (first site); end_ := offset l (site_end site) |}.
Definition full_span (l : Lexical) (site : SyntaxSite) : Span :=
  if first site =? site_end site then body_span l site
  else {| start := boundary_at l (first site); end_ := boundary_at l (site_end site) |}.

(** The statements of [parser::parse] before the parser runs. *)
Definition parse_lexical (text_ : text) : M Lexical :=
  let* tokens := lex_with_cancellation text_ in
  let* lexical := lexical_new text_ tokens in
  check ;;; ret lexical.

Example lexical_example :
  match run_fresh (parse_lexical (text_of "a //x" ++ [CR; LF] ++ text_of " b;")) with
  | Some l => (kind l 3, span l 3, full_span l {| first := 0; site_end := 1 |},
               full_span l {| first := 4; site_end := 6 |})
              = (Whitespace, {| start := 5; end_ := 8 |}, {| start := 0; end_ := 7 |},
                 {| start := 7; end_ := 10 |})
  | None => False
  end.
Proof. vm_compute. reflexivity. Qed.

(** ** Contiguous tokens *)
Fixpoint contiguous (text_ : text) (n : nat) (tokens : list Token) (m : nat) : Prop :=
  match tokens with
  | [] => n = m
  | t :: more =>
      start (token_span t) = n ∧ n ≤ end_ (token_span t) ∧ is_Some (token_text text_ t)
      ∧ contiguous text_ (end_ (token_span t)) more m
  end.

Lemma contiguous_app t n a b m :
  contiguous t n (a ++ b) m ↔ ∃ k, contiguous t n a k ∧ contiguous t k b m.
Proof.
  revert n. induction a as [|x a IH]; intros n; simpl.
  - split; [by eexists|]. by intros (k & -> & ?).
  - split.
    + intros (? & ? & ? & (k & ? & ?)%IH). eauto 10.
    + intros (k & (? & ? & ? & ?) & ?). split_and!; [done..|]. apply IH. eauto.
Qed.
Lemma contiguous_le t n a m : contiguous t n a m → n ≤ m.
Proof. revert n. induction a as [|x a IH]; simpl; [lia|]. intros n (<- & ? & _ & ?%IH). lia. Qed.

Lemma spelled_contiguous input p toks c q : spelled (blen p) toks c → input = p ++ c ++ q →
  contiguous input (blen p) toks (blen (p ++ c)).
Proof.
  intros Hs. remember (blen p) as n eqn:Hn. revert p Hn q.
  induction Hs as [n|n k t toks c Ht Hk Hs IH]; intros p -> q Hin; simpl.
  { by rewrite app_nil_r. }
  split_and!; [done|lia| |].
  - unfold token_text. simpl. rewrite Hin, <- app_assoc, slice_app. by eexists.
  - rewrite app_assoc. rewrite <- blen_app. rewrite <- blen_app in IH.
    apply (IH (p ++ t) eq_refl q). by rewrite Hin, <- !app_assoc.
Qed.

Lemma lossless_contiguous input toks : lossless input toks → contiguous input 0 toks (blen input).
Proof.
  intros (front & -> & Hs). apply contiguous_app. exists (blen input). split.
  - by apply (spelled_contiguous input [] front input []); [|rewrite app_nil_r].
  - simpl. split_and!; [done|lia| |done]. unfold token_text. simpl.
    apply boundary_slice; [apply boundary_end..|lia].
Qed.

Lemma spelled_length n toks c : spelled n toks c → length toks ≤ blen c.
Proof.
  induction 1 as [|n k t toks c Ht Hk Hs IH]; simpl; [lia|]. rewrite blen_app.
  assert (blen t ≠ 0) by (intros ?%blen_0; done). lia.
Qed.

(** The start of the [i]-th token, where the text ends after the last. *)
Definition start_of (text_ : text) (tokens : list Token) (i : nat) : nat :=
  match tokens !! i with Some t => start (token_span t) | None => blen text_ end.

Lemma contiguous_start_of t n a i : contiguous t n a (blen t) → n ≤ start_of t a i.
Proof.
  unfold start_of. revert n i. induction a as [|x a IH]; intros n i; simpl; [by intros ->|].
  intros (Hs & Hle & _ & Hc). destruct i as [|i]; simpl; [lia|]. specialize (IH _ i Hc). lia.
Qed.
Lemma contiguous_token t n a i x : contiguous t n a (blen t) → a !! i = Some x →
  start (token_span x) = start_of t a i ∧ end_ (token_span x) = start_of t a (S i)
  ∧ start_of t a i ≤ start_of t a (S i).
Proof.
  unfold start_of. revert n i. induction a as [|y a IH]; intros n i; [done|].
  cbn [contiguous]. intros (Hs & Hle & _ & Hc). destruct i as [|i]; cbn [lookup list_lookup].
  - intros [= ->]. split_and!; [done| |].
    + destruct a as [|z a]; [by simpl in Hc|]. simpl in *. by destruct Hc.
    + destruct a as [|z a]; simpl in *; [lia|]. destruct Hc as (-> & _). lia.
  - apply (IH _ i Hc).
Qed.
Lemma contiguous_split t n a b : contiguous t n (a ++ b) (blen t) →
  contiguous t n a (start_of t (a ++ b) (length a))
  ∧ contiguous t (start_of t (a ++ b) (length a)) b (blen t).
Proof.
  intros (k & Ha & Hb)%contiguous_app.
  assert (start_of t (a ++ b) (length a) = k) as ->; [|done].
  unfold start_of. rewrite lookup_app_r, Nat.sub_diag by lia. destruct b as [|y b]; simpl in *.
  - done.
  - by destruct Hb.
Qed.
Lemma start_of_mono t a i j : contiguous t 0 a (blen t) → i ≤ j → start_of t a i ≤ start_of t a j.
Proof.
  intros Hc. induction 1 as [|j Hij IH]; [done|].
  destruct (a !! j) as [x|] eqn:Hx.
  - destruct (contiguous_token _ _ _ _ _ Hc Hx) as (_ & _ & Hle). lia.
  - etrans; [done|]. unfold start_of. rewrite Hx.
    apply lookup_ge_None in Hx. rewrite (proj2 (lookup_ge_None a (S j))) by lia. done.
Qed.

(** ** The cut of a gap *)
Fixpoint cut (text_ : text) (trivia : list Token) (stop : nat) : nat :=
  match trivia with
  | [] => stop
  | t :: more =>
      match token_text text_ t ≫= newline_end 0 with
      | Some e => if bool_decide (token_kind t = BlockComment) then end_ (token_span t)
                  else start (token_span t) + e
      | None => cut text_ more stop
      end
  end.

Lemma newline_end_le s n e : newline_end n s = Some e → n ≤ e ≤ n + blen s.
Proof.
  revert n. induction s as [|c s IH]; intros n; cbn [newline_end blen]; [done|].
  pose proof (len_utf8_pos c). destruct (_ || _).
  - intros [= <-]. destruct (_ && _) eqn:E; [|lia]. apply andb_true_iff in E as [_ E].
    destruct s as [|d s]; [done|]. pose proof (len_utf8_pos d). cbn [blen]. lia.
  - intros ?%IH. lia.
Qed.

Lemma cut_bounds t n trivia m : contiguous t n trivia m → n ≤ cut t trivia m ≤ m.
Proof.
  revert n. induction trivia as [|x trivia IH]; intros n; simpl; [lia|].
  intros (<- & Hle & [s Hs] & Hc). pose proof (contiguous_le _ _ _ _ Hc).
  rewrite Hs. simpl. destruct (newline_end 0 s) as [e|] eqn:He.
  - unfold token_text in Hs. apply slice_inv in Hs as (p & q & _ & Hp & Hb).
    apply newline_end_le in He. case_bool_decide; lia.
  - specialize (IH _ Hc). lia.
Qed.

(** ** Building the table *)
Lemma wp_check_at n (Q : unit → St → Prop) st : (∀ st', Q tt st') → wp (check_at n) Q st.
Proof.
  intros HQ. unfold check_at. destruct (_ =? _); [|by apply scan_ret].
  unfold wp, check. by destruct (token_check (cxl st)) as [[] ?].
Qed.

(** A loop keeps an invariant on the elements it has passed. *)
Lemma wp_for_each {A T} (body : nat → A → T → M T) (l : list A) (Inv : nat → T → Prop) i s st :
  Inv i s →
  (∀ k x s st, l !! k = Some x → Inv (i + k) s → wp (body (i + k) x s) (λ s' _, Inv (S (i + k)) s') st) →
  wp (for_each body i l s) (λ s' _, Inv (i + length l) s') st.
Proof.
  revert i s st. induction l as [|x l IH]; intros i s st Hi Hb; simpl.
  { apply scan_ret. by rewrite Nat.add_0_r. }
  apply scan_bind. eapply scan_mono.
  - pose proof (Hb 0 x s st eq_refl) as H0. rewrite Nat.add_0_r in H0. by apply H0.
  - intros s' st' Hs. replace (i + S (length l)) with (S i + length l) by lia. apply IH; [done|].
    intros k y s1 st1 Hy Hk. replace (S i + k) with (i + S k) in * by lia. by apply Hb.
Qed.

Lemma wp_gap_boundary t trivia n i b m st (Q : nat → St → Prop) : contiguous t n trivia m →
  (∀ st', Q (cut t trivia b) st') → wp (gap_boundary t i b trivia) Q st.
Proof.
  revert n i st. induction trivia as [|x trivia IH]; intros n i st Hc HQ; simpl in *; [by apply scan_ret|].
  destruct Hc as (_ & _ & [s Hs] & Hc). apply scan_bind, wp_check_at. intros st1.
  apply scan_bind. eapply wp_of_option; [exact Hs|]. rewrite Hs in HQ. simpl in HQ.
  destruct (newline_end 0 s) as [e|]; [by apply scan_ret|]. by eapply IH.
Qed.

(** What the sparse map stands for: the boundary of every position of a gap,
    that is of the trivia after one token and of the token that ends it. *)
Definition dense (t : text) (tokens : list Token) (i b : nat) : Prop :=
  ∃ p trivia x q, tokens = p ++ trivia ++ x :: q
    ∧ (∀ k y, trivia !! k = Some y → is_trivia (token_kind y) = true)
    ∧ is_trivia (token_kind x) = false
    ∧ (p = [] ∨ ∃ p' y, p = p' ++ [y] ∧ is_trivia (token_kind y) = false)
    ∧ length p ≤ i ≤ length p + length trivia
    ∧ b = match p with [] => 0 | _ => cut t trivia (start (token_span x)) end.

Lemma split_gap {A} (l : list A) n i x : l !! i = Some x → n ≤ i →
  l = take n l ++ take (i - n) (drop n l) ++ x :: drop (S i) l.
Proof.
  intros Hx Hle. rewrite <- (take_drop n l) at 1. f_equal.
  rewrite <- (take_drop (i - n) (drop n l)) at 1. f_equal. rewrite drop_drop.
  replace (n + (i - n)) with i by lia. by apply drop_S.
Qed.

Section build.
Context (t : text) (tokens : list Token).
Hypothesis Hc : contiguous t 0 tokens (blen t).
Hypothesis Hlen : (Z.of_nat (blen t) < 2 ^ 32)%Z.

Definition next_of (prev : option nat) : nat := match prev with Some p => p + 1 | None => 0 end.
Definition entry (bs : gmap nat nat) (i b : nat) : Prop :=
  ∃ d, default_boundary t tokens i = Some d ∧ bs !! i = if d =? b then None else Some b.

(** The map after the positions below [n] were recorded. *)
Definition recorded (bs : gmap nat nat) (n : nat) : Prop :=
  (∀ i, i < n → ∃ b, dense t tokens i b ∧ entry bs i b) ∧ ∀ i, n ≤ i → bs !! i = None.

Definition loop_inv (idx : nat) (s : option nat * gmap nat nat) : Prop :=
  next_of (fst s) ≤ idx
  ∧ (∀ k y, next_of (fst s) ≤ k < idx → tokens !! k = Some y → is_trivia (token_kind y) = true)
  ∧ (∀ p, fst s = Some p → ∃ y, tokens !! p = Some y ∧ is_trivia (token_kind y) = false)
  ∧ recorded (snd s) (next_of (fst s)).

Lemma start_of_le i : start_of t tokens i ≤ blen t.
Proof.
  destruct (tokens !! i) as [x|] eqn:Hx.
  - transitivity (start_of t tokens (length tokens)).
    + apply start_of_mono; [done|]. apply lookup_lt_Some in Hx. lia.
    + unfold start_of. by rewrite (proj2 (lookup_ge_None tokens _)).
  - unfold start_of. by rewrite Hx.
Qed.

Lemma dense_bounds i b : dense t tokens i b → b ≤ blen t.
Proof.
  intros (p & trivia & x & q & Ht & _ & _ & _ & _ & ->). destruct p; [lia|].
  rewrite Ht in Hc. apply contiguous_app in Hc as (k & _ & (m & Htr & Hx)%contiguous_app).
  destruct Hx as (-> & Hle & _ & Hq). pose proof (contiguous_le _ _ _ _ Hq).
  pose proof (cut_bounds _ _ _ _ Htr). lia.
Qed.

Lemma try_u32_some n : n ≤ blen t → try_u32 n = Some n.
Proof. intros. unfold try_u32. by rewrite (proj2 (Z.ltb_lt _ _)) by lia. Qed.

Lemma wp_record_boundary bs n b st : recorded bs n → dense t tokens n b → n < length tokens →
  wp (record_boundary t tokens b n tt bs) (λ bs' _, recorded bs' (S n)) st.
Proof.
  intros [Hlo Hhi] Hd Hn. unfold record_boundary. apply scan_bind, wp_check_at. intros st1.
  destruct (tokens !! n) as [x|] eqn:Hx; [|apply lookup_ge_None in Hx; lia].
  assert (is_Some (default_boundary t tokens n)) as [d Hdef].
  { unfold default_boundary. rewrite Hx. by eexists. }
  apply scan_bind. eapply wp_of_option; [exact Hdef|].
  destruct (d =? b) eqn:Eb.
  - apply scan_ret. split; [|intros; apply Hhi; lia]. intros i Hi.
    destruct (decide (i = n)) as [->|]; [|apply Hlo; lia].
    exists b. split; [done|]. exists d. split; [done|]. rewrite Eb. by apply Hhi.
  - apply scan_bind. eapply wp_of_option; [apply try_u32_some; by eapply dense_bounds|].
    apply scan_ret. split.
    + intros i Hi. destruct (decide (i = n)) as [->|Hne].
      * exists b. split; [done|]. exists d. split; [done|]. rewrite Eb. apply lookup_insert_eq.
      * destruct (Hlo i ltac:(lia)) as (b' & Hb' & d' & Hd' & Hl). exists b'. split; [done|].
        exists d'. split; [done|]. by rewrite lookup_insert_ne.
    + intros i Hi. rewrite lookup_insert_ne by lia. apply Hhi. lia.
Qed.

Lemma wp_gap idx x prev bs st (Q : nat → St → Prop) : loop_inv idx (prev, bs) →
  tokens !! idx = Some x → is_trivia (token_kind x) = false →
  (∀ b st', (∀ i, next_of prev ≤ i ≤ idx → dense t tokens i b) → Q b st') →
  wp (match prev with
      | Some _ => gap_boundary t (next_of prev) (start (token_span x))
                    (take (idx - next_of prev) (drop (next_of prev) tokens))
      | None => ret 0
      end) Q st.
Proof.
  intros (Hle & Htriv & Hprev & _) Hx Hnt HQ. simpl in *.
  pose proof (split_gap tokens (next_of prev) idx x Hx Hle) as Hsplit.
  set (gap := take (idx - next_of prev) (drop (next_of prev) tokens)) in *.
  assert (idx < length tokens) by (by eapply lookup_lt_Some).
  assert (length gap = idx - next_of prev) as Hgl.
  { unfold gap. rewrite length_take, length_drop. lia. }
  assert (∀ k y, gap !! k = Some y → is_trivia (token_kind y) = true) as Hgap.
  { intros k y Hy. pose proof (lookup_lt_Some _ _ _ Hy). unfold gap in Hy.
    rewrite lookup_take, decide_True, lookup_drop in Hy by lia.
    apply (Htriv (next_of prev + k)); [lia|done]. }
  assert (∀ b, b = match take (next_of prev) tokens with [] => 0 | _ => cut t gap (start (token_span x)) end →
    ∀ i, next_of prev ≤ i ≤ idx → dense t tokens i b) as Hdense.
  { intros b Hb i Hi. exists (take (next_of prev) tokens), gap, x, (drop (S idx) tokens).
    rewrite length_take_le by lia. split_and!; [done..| |lia|lia|done].
    destruct prev as [p|]; [right|by left]. destruct (Hprev p eq_refl) as (y & Hy & Hyn).
    exists (take p tokens), y. split; [|done]. simpl. rewrite Nat.add_1_r. by apply take_S_r. }
  destruct prev as [p|]; [|by apply scan_ret, HQ, Hdense].
  pose proof Hc as Hc'. rewrite Hsplit in Hc'.
  apply contiguous_app in Hc' as (k & _ & (m & Htr & _)%contiguous_app).
  eapply wp_gap_boundary; [done|]. intros st'. apply HQ, Hdense.
  destruct (take (next_of (Some p)) tokens) eqn:E; [|done].
  apply (f_equal length) in E. rewrite length_take_le in E by lia. simpl in E. lia.
Qed.

Lemma wp_boundary_round idx x s st : tokens !! idx = Some x → loop_inv idx s →
  wp (boundary_round t tokens idx x s) (λ s' _, loop_inv (S idx) s') st.
Proof.
  destruct s as [prev bs]. intros Hx Hinv. unfold boundary_round.
  apply scan_bind, wp_check_at. intros st1. destruct (is_trivia (token_kind x)) eqn:Hk.
  { apply scan_ret. destruct Hinv as (Hle & Htriv & Hprev & Hrec). split_and!; [lia| |done..].
    intros k y [Hlo Hhi] Hy. destruct (decide (k = idx)) as [->|]; [by simplify_eq|].
    apply (Htriv k); [lia|done]. }
  cbn [fst snd]. fold (next_of prev). apply scan_bind.
  eapply wp_gap; [exact Hinv|exact Hx|exact Hk|]. intros b st2 Hdense.
  destruct Hinv as (Hle & Htriv & Hprev & Hrec). simpl in *.
  assert (idx < length tokens) by (by eapply lookup_lt_Some).
  apply scan_bind. eapply scan_mono.
  - apply (wp_for_each _ _ (λ n bs', recorded bs' n)); [exact Hrec|].
    intros k [] bs' st' Hl%lookup_lt_Some Hr. rewrite length_replicate in Hl.
    apply wp_record_boundary; [done|apply Hdense; lia|lia].
  - intros bs' st'. rewrite length_replicate.
    replace (next_of prev + (S idx - next_of prev)) with (S idx) by lia. intros Hr. apply scan_ret.
    unfold loop_inv; simpl. rewrite Nat.add_1_r. split_and!; [lia| | |done].
    + intros k y [? ?]. lia.
    + intros p [= <-]. eauto.
Qed.

Lemma wp_columns st :
  wp (for_each push_start 0 tokens ([], []))
    (λ s _, s = ((λ x, start (token_span x)) <$> tokens, token_kind <$> tokens)) st.
Proof.
  eapply scan_mono.
  - apply (wp_for_each _ _ (λ n s, s = ((λ x, start (token_span x)) <$> take n tokens,
                                        token_kind <$> take n tokens))); [done|].
    intros k x s st' Hx ->. unfold push_start. apply scan_bind, wp_check_at. intros st1.
    destruct (contiguous_token _ _ _ _ _ Hc Hx) as (Hs & _). simpl.
    apply scan_bind. eapply wp_of_option.
    { apply try_u32_some. rewrite Hs. apply start_of_le. }
    apply scan_ret. rewrite (take_S_r _ _ _ Hx), !fmap_app. done.
  - intros s st' ->. simpl. by rewrite firstn_all.
Qed.

(** The table of these tokens. *)
Definition tabulates (l : Lexical) : Prop :=
  lex_kinds l = token_kind <$> tokens ∧ lex_length l = blen t
  ∧ (∀ i, offsets_get (lex_starts l) i = (λ x, start (token_span x)) <$> tokens !! i)
  ∧ ∃ n, recorded (boundaries l) n
         ∧ ∀ k y, n ≤ k → tokens !! k = Some y → is_trivia (token_kind y) = true.

Lemma wp_lexical_new st : (Z.of_nat (length tokens) < 2 ^ 32)%Z →
  wp (lexical_new t tokens) (λ l _, tabulates l) st.
Proof.
  intros Hn. unfold lexical_new. apply scan_bind. eapply wp_of_option; [by apply try_u32_some|].
  apply scan_bind. eapply wp_of_option.
  { unfold try_u32. by rewrite (proj2 (Z.ltb_lt _ _) Hn). }
  apply scan_bind. eapply scan_mono.
  { apply (wp_for_each _ _ loop_inv).
    - split_and!; simpl; [lia| |done|]; [intros ? ? [? ?]; lia|]. by split; [lia|].
    - intros k x s st' Hx Hi. by apply wp_boundary_round. }
  intros [prev bs] st1 (Hle & Htriv & Hprev & Hrec). simpl in *.
  apply scan_bind. eapply scan_mono; [apply wp_columns|]. intros s st2 ->. cbn [fst snd].
  apply scan_bind. destruct (try_u16 (blen t)) as [n|] eqn:E16.
  - apply scan_bind. eapply wp_of_option.
    { instantiate (1 := (λ x, start (token_span x)) <$> tokens). apply mapM_Some_2.
      apply Forall2_same_length_lookup_2; [done|]. intros i a b Ha Hb. rewrite Ha in Hb. simplify_eq.
      apply list_lookup_fmap_Some in Ha as (x & -> & Hx).
      destruct (contiguous_token _ _ _ _ _ Hc Hx) as (Hs & _). pose proof (start_of_le i) as Hle'.
      unfold try_u16 in *. destruct (Z.of_nat (blen t) <? 2 ^ 16)%Z eqn:E; [|done].
      apply Z.ltb_lt in E. by rewrite (proj2 (Z.ltb_lt _ _)) by lia. }
    apply scan_ret, scan_ret. split_and!; [done..| |].
    + intros i. simpl. by rewrite list_lookup_fmap.
    + exists (next_of prev). split; [done|]. intros k y Hk Hy. apply (Htriv k); [|done].
      apply lookup_lt_Some in Hy. lia.
  - apply scan_ret, scan_ret. split_and!; [done..| |].
    + intros i. simpl. by rewrite list_lookup_fmap.
    + exists (next_of prev). split; [done|]. intros k y Hk Hy. apply (Htriv k); [|done].
      apply lookup_lt_Some in Hy. lia.
Qed.
End build.

#[export] Instance faithful_for_each {A T} (body : nat → A → T → M T) i l s :
  (∀ i x s, Faithful (body i x s)) → Faithful (for_each body i l s).
Proof.
  intros Hb. revert i s. induction l as [|x l IH]; intros i s; simpl; [apply _|].
  apply faithful_bind; apply _.
Qed.
#[export] Instance faithful_gap_boundary t i b l : Faithful (gap_boundary t i b l).
Proof.
  revert i. induction l as [|x l IH]; intros i; simpl; [apply _|]. unfold check_at. solve_faithful.
Qed.
#[export] Instance faithful_check_at i : Faithful (check_at i).
Proof. unfold check_at. solve_faithful. Qed.
#[export] Instance faithful_record_boundary t tokens b i x s : Faithful (record_boundary t tokens b i x s).
Proof. unfold record_boundary. solve_faithful. Qed.
#[export] Instance faithful_boundary_round t tokens i x s : Faithful (boundary_round t tokens i x s).
Proof. unfold boundary_round. solve_faithful. Qed.
#[export] Instance faithful_push_start i x s : Faithful (push_start i x s).
Proof. unfold push_start. solve_faithful. Qed.
#[export] Instance faithful_lexical_new t tokens : Faithful (lexical_new t tokens).
Proof. unfold lexical_new. solve_faithful. Qed.

(** ** Reading the table *)
Section read.
Context (t : text) (tokens : list Token) (l : Lexical).
Hypothesis Hloss : lossless t tokens.
Hypothesis Htab : tabulates t tokens l.

Lemma tab_contiguous : contiguous t 0 tokens (blen t).
Proof. by apply lossless_contiguous. Qed.

Lemma tab_len : len l = length tokens.
Proof. destruct Htab as (Hk & _). unfold len. by rewrite Hk, length_fmap. Qed.
Lemma tab_kind i : kind l i = match tokens !! i with Some x => token_kind x | None => Eof end.
Proof. destruct Htab as (Hk & _). unfold kind. rewrite Hk, list_lookup_fmap. by destruct (tokens !! i). Qed.
Lemma tab_offset i : offset l i = start_of t tokens i.
Proof.
  destruct Htab as (_ & Hl & Ho & _). unfold offset, start_of. rewrite Ho, Hl. by destruct (tokens !! i).
Qed.

Definition gap_cut (a e : nat) : nat :=
  if a =? 0 then 0 else cut t (take (e - a) (drop a tokens)) (start_of t tokens e).

(** A gap seen from the table. *)
Definition gap_at (i a e b : nat) : Prop :=
  a ≤ i ≤ e ∧ e < length tokens ∧ (∀ k, a ≤ k < e → is_trivia (kind l k) = true)
  ∧ is_trivia (kind l e) = false ∧ (a = 0 ∨ (0 < a ∧ is_trivia (kind l (a - 1)) = false))
  ∧ start_of t tokens a ≤ b ≤ start_of t tokens e ∧ b = gap_cut a e.

Lemma dense_gap i b : dense t tokens i b → ∃ a e, gap_at i a e b.
Proof.
  intros (p & trivia & x & q & Ht & Htr & Hx & Hp & Hi & Hb).
  assert (∀ k y, trivia !! k = Some y → tokens !! (length p + k) = Some y) as Hlook.
  { intros k y Hy. rewrite Ht, lookup_app_r by lia.
    replace (length p + k - length p) with k by lia. by apply lookup_app_l_Some. }
  assert (tokens !! (length p + length trivia) = Some x) as Hlx.
  { rewrite Ht, app_assoc, <- length_app. by apply list_lookup_middle. }
  exists (length p), (length p + length trivia). split_and!; [lia|lia|..].
  - by eapply lookup_lt_Some.
  - intros k Hk. destruct (trivia !! (k - length p)) as [y|] eqn:Hy; [|apply lookup_ge_None in Hy; lia].
    rewrite tab_kind. replace k with (length p + (k - length p)) by lia. rewrite (Hlook _ _ Hy). eauto.
  - by rewrite tab_kind, Hlx.
  - destruct Hp as [->|(p' & y & -> & Hy)]; [by left|right]. rewrite length_app; simpl.
    split; [lia|]. rewrite tab_kind, Ht. replace (length p' + 1 - 1) with (length p') by lia.
    rewrite <- app_assoc. simpl. by rewrite (list_lookup_middle p' _ y).
  - pose proof tab_contiguous as Hc. rewrite Ht in Hc. apply contiguous_split in Hc as [Hp0 Hg].
    apply contiguous_app in Hg as (m & Hg & Hx' & _). rewrite Ht. subst b m.
    destruct p; [simpl in *; lia|]. apply cut_bounds in Hg. lia.
  - pose proof tab_contiguous as Hc. rewrite Ht in Hc. apply contiguous_split in Hc as [_ Hg].
    apply contiguous_app in Hg as (m & Hg & Hx' & _). unfold start_of at 1. rewrite Hlx. subst b m.
    destruct p; [lia|]. apply cut_bounds in Hg. lia.
  - unfold gap_cut, start_of. rewrite Hlx, Hb. destruct p as [|p0 p]; [done|]. simpl Nat.eqb. f_equal.
    rewrite Ht, drop_app_length. replace (length (p0 :: p) + _ - _) with (length trivia) by lia.
    by rewrite take_app_length.
Qed.

Lemma gap_at_unique i j a e b a' e' b' : gap_at i a e b → gap_at j a' e' b' → i ≤ j →
  (∀ k, i ≤ k < j → is_trivia (kind l k) = true) → a = a' ∧ e = e'.
Proof.
  intros (Hi & _ & Htr & He & Ha & _) (Hj & _ & Htr' & He' & Ha' & _) Hij Hbetween.
  assert (a = a') as <-.
  { destruct (lt_eq_lt_dec a a') as [[Hlt| ->]|Hlt]; [|done|]; exfalso.
    - destruct Ha' as [-> |[Hp Ha']]; [lia|].
      destruct (decide (a' - 1 < e)) as [|]; [rewrite Htr in Ha' by lia; done|].
      rewrite Hbetween in Ha' by lia. done.
    - destruct Ha as [-> |[Hp Ha]]; [lia|].
      destruct (decide (a - 1 < e')) as [|]; [rewrite Htr' in Ha by lia; done|]. lia. }
  split; [done|]. destruct (lt_eq_lt_dec e e') as [[Hlt| ->]|Hlt]; [|done|]; exfalso.
  - rewrite Htr' in He by lia. done.
  - rewrite Htr in He' by lia. done.
Qed.

Lemma dense_unique i j b b' : dense t tokens i b → dense t tokens j b' → i ≤ j →
  (∀ k, i ≤ k < j → is_trivia (kind l k) = true) → b = b'.
Proof.
  intros Hd Hd' Hij Hk.
  destruct (dense_gap _ _ Hd) as (a & e & Hg), (dense_gap _ _ Hd') as (a' & e' & Hg').
  destruct (gap_at_unique _ _ _ _ _ _ _ _ Hg Hg' Hij Hk) as [<- <-].
  destruct Hg as (_ & _ & _ & _ & _ & _ & ->). by destruct Hg' as (_ & _ & _ & _ & _ & _ & ->).
Qed.

Lemma boundary_gap i : i < length tokens → ∃ b, dense t tokens i b ∧ boundary_at l i = b.
Proof.
  intros Hi. destruct Htab as (_ & _ & _ & n & [Hlo Hhi] & Hn).
  assert (i < n) as Hin.
  { destruct (decide (i < n)) as [|Hge]; [done|]. exfalso. destruct Hloss as (front & Htok & _).
    assert (tokens !! length front = Some (token Eof (blen t) (blen t))) as Hl
      by (rewrite Htok; by apply list_lookup_middle).
    assert (length tokens = length front + 1) by (by rewrite Htok, length_app).
    specialize (Hn (length front) _ ltac:(lia) Hl). done. }
  destruct (Hlo i Hin) as (b & Hb & d & Hd & Hl). exists b. split; [done|].
  unfold boundary_at. rewrite Hl. destruct (d =? b) eqn:E; [|done]. apply Nat.eqb_eq in E as <-.
  unfold default_boundary in Hd. rewrite tab_kind, !tab_offset, Nat.add_1_r. unfold start_of.
  destruct (tokens !! i) as [x|]; [|done]. simpl in Hd. by case_match; simplify_eq.
Qed.

Lemma boundary_end_of i : length tokens ≤ i → boundary_at l i = blen t.
Proof.
  intros Hi. destruct Htab as (_ & _ & _ & n & [Hlo Hhi] & _). unfold boundary_at.
  destruct (decide (i < n)) as [Hlt|Hge].
  - destruct (Hlo i Hlt) as (b & Hb & _). apply dense_gap in Hb as (a & e & ? & ? & _). lia.
  - rewrite Hhi, tab_kind by lia. rewrite (proj2 (lookup_ge_None tokens i)) by done. simpl.
    rewrite tab_offset. unfold start_of. by rewrite (proj2 (lookup_ge_None tokens i)).
Qed.

Lemma boundary_gap_at i : i < length tokens → ∃ a e, gap_at i a e (boundary_at l i).
Proof. intros (b & Hd & ->)%boundary_gap. by apply dense_gap. Qed.
End read.

(** ** The table is the token sequence *)
Definition only_trivia (l : Lexical) (i j : nat) : Prop :=
  ∀ k, i ≤ k < j → is_trivia (kind l k) = true.
(** A nonempty site that begins and ends with a written token. *)
Definition proper (l : Lexical) (s : SyntaxSite) : Prop :=
  first s < site_end s ≤ len l ∧ is_trivia (kind l (first s)) = false
  ∧ is_trivia (kind l (site_end s - 1)) = false.

Section sites.
Context (t : text) (tokens : list Token) (l : Lexical).
Hypothesis Hloss : lossless t tokens.
Hypothesis Htab : tabulates t tokens l.

Lemma full_span_proper s : proper l s →
  full_span l s = {| start := boundary_at l (first s); end_ := boundary_at l (site_end s) |}.
Proof. intros ([Hlt _] & _). unfold full_span. by rewrite (proj2 (Nat.eqb_neq _ _)) by lia. Qed.

(** The first token of a site ends its gap. *)
Lemma site_first s : proper l s → ∃ a, gap_at t tokens l (first s) a (first s) (boundary_at l (first s)).
Proof.
  intros ([Hlt Hle] & Hf & _). rewrite (tab_len _ _ _ Htab) in Hle.
  destruct (boundary_gap_at _ _ _ Hloss Htab (first s) ltac:(lia)) as (a & e & Hg).
  assert (e = first s) as ->; [|by exists a]. destruct Hg as (Hi & _ & Htr & _).
  destruct (decide (first s < e)); [|lia]. rewrite Htr in Hf by lia. done.
Qed.

(** The gap after a site begins where the site ends. *)
Lemma site_last s : proper l s →
  (site_end s = len l ∧ boundary_at l (site_end s) = blen t)
  ∨ ∃ e, gap_at t tokens l (site_end s) (site_end s) e (boundary_at l (site_end s)).
Proof.
  intros ([Hlt Hle] & _ & He). rewrite (tab_len _ _ _ Htab) in *.
  destruct (decide (site_end s = length tokens)) as [Heq|Hne].
  - left. split; [done|]. apply (boundary_end_of t tokens); [done..|lia].
  - right. destruct (boundary_gap_at _ _ _ Hloss Htab (site_end s) ltac:(lia)) as (a & e & Hg).
    assert (a = site_end s) as ->; [|by exists e]. destruct Hg as (Hi & _ & Htr & _).
    destruct (decide (a < site_end s)); [|lia]. rewrite Htr in He by lia. done.
Qed.

Lemma site_contains s : proper l s →
  boundary_at l (first s) ≤ offset l (first s) ∧ offset l (site_end s) ≤ boundary_at l (site_end s).
Proof.
  intros Hp. rewrite !(tab_offset _ _ _ Htab). split.
  - destruct (site_first s Hp) as (a & _ & _ & _ & _ & _ & ? & _). lia.
  - destruct (site_last s Hp) as [[Heq ->]|(e & _ & _ & _ & _ & _ & ? & _)]; [|lia].
    by apply start_of_le, tab_contiguous.
Qed.

Lemma site_before s i : proper l s → i < first s → is_trivia (kind l i) = false →
  offset l (i + 1) ≤ boundary_at l (first s).
Proof.
  intros Hp Hi Hk. destruct (site_first s Hp) as (a & _ & _ & Htr & _ & _ & Hb & _).
  destruct (decide (a ≤ i)); [rewrite Htr in Hk by lia; done|].
  rewrite (tab_offset _ _ _ Htab). etrans; [|apply Hb].
  apply start_of_mono; [by apply tab_contiguous|lia].
Qed.

Lemma site_after s i : proper l s → site_end s ≤ i → is_trivia (kind l i) = false →
  boundary_at l (site_end s) ≤ offset l i.
Proof.
  intros Hp Hi Hk. rewrite (tab_offset _ _ _ Htab).
  destruct (site_last s Hp) as [[Heq ->]|(e & _ & _ & Htr & _ & _ & Hb & _)].
  - unfold start_of. rewrite (proj2 (lookup_ge_None tokens i)); [done|].
    rewrite (tab_len _ _ _ Htab) in Heq. lia.
  - destruct (decide (i < e)); [rewrite Htr in Hk by lia; done|].
    etrans; [apply Hb|]. apply start_of_mono; [by apply tab_contiguous|lia].
Qed.

Lemma site_leading s : proper l s → only_trivia l 0 (first s) → boundary_at l (first s) = 0.
Proof.
  intros Hp Htr. destruct (site_first s Hp) as (a & Hi & _ & _ & _ & Ha & _ & Hz).
  destruct Ha as [->|[Hpos Ha]]; [done|]. rewrite Htr in Ha by lia. done.
Qed.

Lemma site_adjacent s s' : proper l s → proper l s' → site_end s ≤ first s' →
  only_trivia l (site_end s) (first s') → boundary_at l (site_end s) = boundary_at l (first s').
Proof.
  intros Hp Hp' Hle Htr. pose proof Hp' as ([Hlt' Hle'] & _). rewrite (tab_len _ _ _ Htab) in Hle'.
  destruct (boundary_gap _ _ _ Hloss Htab (site_end s) ltac:(lia)) as (b & Hd & ->).
  destruct (boundary_gap _ _ _ Hloss Htab (first s') ltac:(lia)) as (b' & Hd' & ->).
  eapply (dense_unique t tokens l); eauto.
Qed.
End sites.

Lemma wp_parse_lexical t st : (Z.of_nat (blen t) + 1 < 2 ^ 32)%Z →
  match parse_lexical t st with
  | Done l _ => ∃ tokens, lex t = Some tokens ∧ lossless t tokens ∧ tabulates t tokens l
  | Stopped => cxl st ≠ None
  | Panicked | OutOfFuel => False
  end.
Proof.
  intros Hlen.
  assert (Faithful (parse_lexical t)) as Hf by (unfold parse_lexical; solve_faithful).
  assert (wp (parse_lexical t)
    (λ l _, ∃ tokens, lex t = Some tokens ∧ lossless t tokens ∧ tabulates t tokens l) st) as Hw.
  { unfold parse_lexical. apply scan_bind.
    pose proof (wp_lex t st) as Hw. unfold wp at 1. unfold wp in Hw.
    destruct (lex_with_cancellation t st) as [toks st'| | |] eqn:E; [|done..].
    apply lex_done in E. apply scan_bind. eapply scan_mono.
    - apply wp_lexical_new; [by apply lossless_contiguous|lia|].
      destruct Hw as (front & -> & Hs%spelled_length). rewrite length_app. simpl. lia.
    - intros l st1 Hl. apply scan_bind. unfold wp at 1, check.
      destruct (token_check (cxl st1)) as [[] ?]; [|done]. apply scan_ret. eauto. }
  unfold wp in Hw. destruct (parse_lexical t st) eqn:E; [done| |done..].
  intros Hc. pose proof (faithful_fresh (m := parse_lexical t) st Hc) as H. by rewrite E in H.
Qed.

(** C27: The lexical table is the lexer's token sequence. For a source whose size
    fits the 32-bit coordinates with one to spare, building the table either ends
    or reports the cancellation of a cancelled token; it never panics. The table
    built, narrow or wide, has one record per token, and [kind] and [span] give
    back each token's kind and span, or an empty [Eof] at the end of the source
    for an index past the last record. *)
Theorem lexical_table_exact t st : (Z.of_nat (blen t) + 1 < 2 ^ 32)%Z →
  match parse_lexical t st with
  | Done l _ =>
      ∃ tokens, lex t = Some tokens ∧ len l = length tokens
        ∧ (∀ i x, tokens !! i = Some x → kind l i = token_kind x ∧ span l i = token_span x)
        ∧ ∀ i, len l ≤ i → kind l i = Eof ∧ span l i = {| start := blen t; end_ := blen t |}
  | Stopped => cxl st ≠ None
  | Panicked | OutOfFuel => False
  end.
Proof.
  intros Hlen%(wp_parse_lexical t st). destruct (parse_lexical t st) as [l st'| | |]; [|done..].
  destruct Hlen as (tokens & Hlex & Hloss & Htab). exists tokens.
  split_and!; [done|by eapply tab_len|..].
  - intros i x Hx. rewrite (tab_kind _ _ _ Htab), Hx. split; [done|].
    destruct (contiguous_token _ _ _ _ _ (tab_contiguous _ _ Hloss) Hx) as (Hs & He & _).
    unfold span. rewrite !(tab_offset _ _ _ Htab), Nat.add_1_r, <- Hs, <- He. by destruct (token_span x).
  - rewrite (tab_len _ _ _ Htab). intros i Hi. rewrite (tab_kind _ _ _ Htab).
    unfold span. rewrite !(tab_offset _ _ _ Htab). unfold start_of.
    by rewrite !(proj2 (lookup_ge_None tokens _)) by lia.
Qed.

Definition sample : text := text_of "f" ++ [LF] ++ text_of " x".
Definition fresh : St := {| cur := cursor_of []; cxl := None |}.

Lemma lexical_table_exact_witness :
  (Z.of_nat (blen sample) + 1 < 2 ^ 32)%Z ∧
  match parse_lexical sample fresh with
  | Done l _ => ∃ tokens, lex sample = Some tokens ∧ len l = length tokens
      ∧ (∀ i x, tokens !! i = Some x → kind l i = token_kind x ∧ span l i = token_span x)
      ∧ ∀ i, len l ≤ i → kind l i = Eof ∧ span l i = {| start := blen sample; end_ := blen sample |}
  | _ => False
  end.
Proof.
  split; [reflexivity|].
  pose proof (lexical_table_exact sample fresh eq_refl) as H.
  destruct (parse_lexical sample fresh) as [l st'| | |]; [exact H|exact (H eq_refl)|exact H..].
Defined.

(** *** Where a gap is cut *)
(** A text without a line break. *)
Definition unbroken (s : text) : bool := forallb (λ c, negb (line_end c)) s.
(** The first line break of a text ends after [n] bytes; CR LF is one break. *)
Definition first_break (s : text) (n : nat) : Prop :=
  ∃ p nl q, s = p ++ nl ++ q ∧ unbroken p = true ∧ n = blen (p ++ nl)
    ∧ (nl = [LF] ∨ nl = [CR; LF] ∨ nl = [CR] ∧ starts_with [LF] q = false).

Lemma newline_end_spec k s : match newline_end k s with
  | Some e => ∃ n, first_break s n ∧ e = k + n
  | None => unbroken s = true
  end.
Proof.
  revert k. induction s as [|c s IH]; intros k; cbn [newline_end]; [done|].
  destruct ((c =? CR)%Z || (c =? LF)%Z) eqn:Ec.
  - destruct ((c =? CR)%Z && starts_with [LF] s) eqn:E.
    + apply andb_true_iff in E as [->%Z.eqb_eq [q ->]%starts_with_iff]. exists 2. split; [|lia].
      exists [], [CR; LF], q. by split_and!; auto.
    + exists 1. split; [|lia]. apply orb_true_iff in Ec as [->%Z.eqb_eq| ->%Z.eqb_eq].
      * exists [], [CR], s. split_and!; auto.
      * exists [], [LF], s. split_and!; auto.
  - specialize (IH (k + len_utf8 c)).
    assert (unbroken [c] = true) as Hc by (unfold unbroken, line_end; cbn; by rewrite Ec).
    unfold unbroken in *. cbn [forallb] in *. rewrite andb_true_r in Hc. destruct (newline_end _ s) as [e|].
    + destruct IH as (n & (p & nl & q & -> & Hp & -> & Hnl) & ->). exists (len_utf8 c + blen (p ++ nl)). split; [|lia].
      exists (c :: p), nl, q. split_and!; try done. unfold unbroken. cbn [forallb]. by rewrite Hc.
    + by rewrite Hc.
Qed.

(** The trivia from [n] on are cut at [b]: at [m], where they end, when none has a line
    break; otherwise in the first that has one, after a block comment as a whole or just
    after the break of any other. *)
Inductive cut_at (text_ : text) : nat → list Token → nat → nat → Prop :=
| cut_end m : cut_at text_ m [] m m
| cut_skip n t s more m b : start (token_span t) = n → token_text text_ t = Some s → unbroken s = true →
    cut_at text_ (end_ (token_span t)) more m b → cut_at text_ n (t :: more) m b
| cut_comment n t s k more m : start (token_span t) = n → token_text text_ t = Some s → first_break s k →
    token_kind t = BlockComment → cut_at text_ n (t :: more) m (end_ (token_span t))
| cut_break n t s k more m : start (token_span t) = n → token_text text_ t = Some s → first_break s k →
    token_kind t ≠ BlockComment → cut_at text_ n (t :: more) m (n + k).

Lemma cut_cut_at t n trivia m : contiguous t n trivia m → cut_at t n trivia m (cut t trivia m).
Proof.
  revert n. induction trivia as [|x trivia IH]; intros n; cbn [contiguous cut]; [intros ->; constructor|].
  intros (Hs & Hle & [s Ht] & Hc). rewrite Ht. cbn. pose proof (newline_end_spec 0 s) as Hn.
  destruct (newline_end 0 s) as [e|]; [|eapply cut_skip; eauto]. destruct Hn as (k & Hk & ->).
  case_bool_decide; [by eapply cut_comment|]. rewrite Hs. by eapply cut_break.
Qed.

Definition is_comment (k : TokenKind.kind) : bool := bool_decide (k = LineComment ∨ k = BlockComment).
(** No comment is cut: a line comment has no line break. *)
Lemma cut_whole t n trivia m i y : contiguous t n trivia m → 
  (∀ i y, trivia !! i = Some y → token_kind y = LineComment → ∃ s, token_text t y = Some s ∧ unbroken s = true) →
  trivia !! i = Some y → is_comment (token_kind y) = true →
  cut t trivia m ≤ start (token_span y) ∨ end_ (token_span y) ≤ cut t trivia m.
Proof.
  revert n i. induction trivia as [|x trivia IH]; intros n i Hc Hline Hi Hy; [done|].
  pose proof Hc as (Hs & Hle & [s Ht] & Hc'). pose proof (cut_bounds _ _ _ _ Hc) as Hb. cbn [cut] in Hb |- *.
  destruct i as [|i]; cbn [lookup list_lookup] in Hi.
  - injection Hi as ->. rewrite Ht in Hb |- *. cbn in Hb |- *. pose proof (newline_end_spec 0 s) as Hn.
    destruct (newline_end 0 s) as [e|].
    + case_bool_decide as Hk; [by right|]. apply bool_decide_eq_true_1 in Hy as [Hy|Hy]; [|done].
      destruct (Hline 0 y eq_refl Hy) as (s' & Hs' & Hun). rewrite Ht in Hs'. injection Hs' as <-.
      destruct Hn as (k & (p & nl & q & -> & _ & _ & Hnl) & _). unfold unbroken in Hun. rewrite !forallb_app in Hun.
      apply andb_true_iff in Hun as [_ [Hun _]%andb_true_iff]. by destruct Hnl as [-> |[-> |[-> _]]].
    + right. pose proof (cut_bounds _ _ _ _ Hc'). lia.
  - assert (start (token_span y) ≥ end_ (token_span x)) as Hge.
    { apply take_drop_middle in Hi; rewrite <- Hi in Hc'. apply contiguous_app in Hc' as (k & Hc1 & Hk & _).
      apply contiguous_le in Hc1. lia. }
    rewrite Ht in Hb |- *. cbn in Hb |- *. destruct (newline_end 0 s) as [e|] eqn:He.
    + left. apply newline_end_le in He. unfold token_text in Ht. apply slice_inv in Ht as (p & q & _ & Hp & Hl). case_bool_decide; lia.
    + apply (IH _ i Hc'); [|done|done]. intros j z Hj. by apply (Hline (S j)).
Qed.

Lemma lossless_line_comments t tokens i y : lossless t tokens → tokens !! i = Some y → token_kind y = LineComment →
  ∃ s, token_text t y = Some s ∧ unbroken s = true.
Proof.
  intros (front & -> & Hs) Hi Hk. apply lookup_app_Some in Hi as [Hi|[_ [_ <-]%list_lookup_singleton_Some]]; [|done].
  destruct (spelled_texts t [] front t [] Hs ltac:(by rewrite app_nil_r)) as (texts & HF & _).
  destruct (Forall2_lookup_l _ _ _ _ _ HF Hi) as (s & _ & Ht & _ & Hok). exists s. split; [done|]. rewrite Hk in Hok.
  by apply andb_true_iff in Hok as [_ Hok].
Qed.

Section cuts.
Context (t : text) (tokens : list Token) (l : Lexical).
Hypothesis Hloss : lossless t tokens.
Hypothesis Htab : tabulates t tokens l.

Lemma gap_contiguous a e : a ≤ e → e < length tokens →
  contiguous t (start_of t tokens a) (take (e - a) (drop a tokens)) (start_of t tokens e).
Proof.
  intros Hae He. pose proof (tab_contiguous _ _ Hloss) as Hc. destruct (lookup_lt_is_Some_2 tokens e He) as [x Hx].
  pose proof (split_gap tokens a e x Hx Hae) as Hsplit. rewrite Hsplit in Hc.
  apply contiguous_split in Hc as [_ Hc]. rewrite <- Hsplit, length_take_le in Hc by lia.
  apply contiguous_app in Hc as (k & Hg & Hk & _). unfold start_of at 2. rewrite Hx. by rewrite Hk.
Qed.

Lemma gap_whole i a e b k : gap_at t tokens l i a e b → is_comment (kind l k) = true →
  b ≤ start (span l k) ∨ end_ (span l k) ≤ b.
Proof.
  intros (Hi & He & Htr & Hne & Ha & [Hlo Hhi] & ->) Hk. unfold span. cbn [start end_]. rewrite !(tab_offset _ _ _ Htab).
  pose proof (tab_contiguous _ _ Hloss) as Hc.
  destruct (decide (k < a)) as [Hka|Hka].
  { right. etrans; [|exact Hlo]. apply start_of_mono; [done|lia]. }
  destruct (decide (e ≤ k)) as [Hek|Hek].
  { left. etrans; [exact Hhi|]. by apply start_of_mono. }
  unfold gap_cut. destruct (Nat.eqb_spec a 0); [left; lia|].
  destruct (lookup_lt_is_Some_2 tokens k ltac:(lia)) as [y Hy].
  destruct (contiguous_token _ _ _ _ _ Hc Hy) as (Hs & Hend & _). rewrite Nat.add_1_r, <- Hs, <- Hend.
  rewrite (tab_kind _ _ _ Htab), Hy in Hk. eapply (cut_whole _ _ _ _ (k - a)); [by apply gap_contiguous; lia| | |done].
  - intros j z Hj. apply lookup_take_Some in Hj as [Hj _]. rewrite lookup_drop in Hj. by eapply lossless_line_comments.
  - rewrite lookup_take, decide_True, lookup_drop by lia. by replace (a + (k - a)) with k by lia.
Qed.

Lemma boundary_whole i k : is_comment (kind l k) = true → boundary_at l i ≤ start (span l k) ∨ end_ (span l k) ≤ boundary_at l i.
Proof.
  intros Hk. destruct (decide (i < length tokens)) as [Hi|Hi].
  - destruct (boundary_gap_at _ _ _ Hloss Htab i Hi) as (a & e & Hg). by eapply gap_whole.
  - right. rewrite (boundary_end_of t tokens) by (done || lia). unfold span. cbn [end_]. rewrite (tab_offset _ _ _ Htab).
    by apply start_of_le, tab_contiguous.
Qed.

(** The gap after a site. *)
Lemma site_cut s e : proper l s → site_end s ≤ e < len l → only_trivia l (site_end s) e → is_trivia (kind l e) = false →
  cut_at t (offset l (site_end s)) (take (e - site_end s) (drop (site_end s) tokens)) (offset l e) (boundary_at l (site_end s)).
Proof.
  intros Hp He Htr Hne. pose proof Hp as ([Hlt Hle] & _ & Hlast). rewrite (tab_len _ _ _ Htab) in *.
  destruct (boundary_gap_at _ _ _ Hloss Htab (site_end s) ltac:(lia)) as (a & e' & Hi & He' & Htr' & Hne' & _ & _ & ->).
  assert (a = site_end s) as ->.
  { destruct (decide (a < site_end s)); [|lia]. rewrite Htr' in Hlast by lia. done. }
  assert (e' = e) as ->.
  { destruct (lt_eq_lt_dec e e') as [[Hee| ->]|Hee]; [|done|]; exfalso.
    - rewrite Htr' in Hne by lia. done.
    - rewrite Htr in Hne' by lia. done. }
  unfold gap_cut. destruct (Nat.eqb_spec (site_end s) 0); [lia|]. rewrite !(tab_offset _ _ _ Htab).
  apply cut_cut_at, gap_contiguous; lia.
Qed.
End cuts.

(** C28: Full spans give every comment and blank to exactly one neighbour. For
    sites that begin and end with a written token, the full span contains the
    body span, reaches no other written token, starts at 0 when nothing but
    trivia precedes it, and ends exactly where the full span of the next site
    begins when nothing but trivia separates them. Neither end of a full span
    falls inside a comment, line or block, so a comment lies whole in one of the
    two sites it separates. Between a site and the written token [e] after it,
    the full span takes every comment and blank up to the first line break of the
    gap: the whole block comment that holds the break, or the blanks up to and
    including the break, CR LF counting as one; without a break it takes them all. *)
Theorem full_spans_tile t st : (Z.of_nat (blen t) + 1 < 2 ^ 32)%Z →
  match parse_lexical t st with
  | Done l _ => ∃ tokens, lex t = Some tokens ∧ ∀ s, proper l s →
      start (full_span l s) ≤ start (body_span l s)
      ∧ end_ (body_span l s) ≤ end_ (full_span l s)
      ∧ (∀ i, i < first s → is_trivia (kind l i) = false → end_ (span l i) ≤ start (full_span l s))
      ∧ (∀ i, site_end s ≤ i → is_trivia (kind l i) = false → end_ (full_span l s) ≤ start (span l i))
      ∧ (only_trivia l 0 (first s) → start (full_span l s) = 0)
      ∧ (∀ s', proper l s' → site_end s ≤ first s' → only_trivia l (site_end s) (first s') →
          end_ (full_span l s) = start (full_span l s'))
      ∧ (∀ i, is_comment (kind l i) = true →
          (start (full_span l s) ≤ start (span l i) ∨ end_ (span l i) ≤ start (full_span l s))
          ∧ (end_ (full_span l s) ≤ start (span l i) ∨ end_ (span l i) ≤ end_ (full_span l s)))
      ∧ ∀ e, site_end s ≤ e < len l → only_trivia l (site_end s) e → is_trivia (kind l e) = false →
          cut_at t (end_ (body_span l s)) (take (e - site_end s) (drop (site_end s) tokens))
            (start (span l e)) (end_ (full_span l s))
  | Stopped => cxl st ≠ None
  | Panicked | OutOfFuel => False
  end.
Proof.
  intros Hlen%(wp_parse_lexical t st). destruct (parse_lexical t st) as [l st'| | |]; [|done..].
  destruct Hlen as (tokens & Hlex & Hloss & Htab). exists tokens. split; [done|]. intros s Hp.
  rewrite (full_span_proper l s Hp). unfold body_span. cbn [start end_]. split_and!.
  - by eapply site_contains.
  - by eapply site_contains.
  - intros i. by eapply site_before.
  - intros i. by eapply site_after.
  - intros Htr. by eapply site_leading.
  - intros s' Hp' Hle Htr. rewrite (full_span_proper l s' Hp'). by eapply site_adjacent.
  - intros i Hi. split; by eapply boundary_whole.
  - intros e. by eapply site_cut.
Qed.

(** A block comment with a line break stays whole, with the site before it. *)
Example block_comment_whole :
  match run_fresh (parse_lexical (text_of "a/*x" ++ [LF] ++ text_of "y*/b")) with
  | Some l => (full_span l {| first := 0; site_end := 1 |}, full_span l {| first := 2; site_end := 3 |})
              = ({| start := 0; end_ := 8 |}, {| start := 8; end_ := 9 |})
  | None => False
  end.
Proof. vm_compute. reflexivity. Qed.

Lemma full_spans_tile_witness :
  match parse_lexical sample fresh with
  | Done l _ =>
      let s := {| first := 0; site_end := 1 |} in let s' := {| first := 2; site_end := 3 |} in
      proper l s ∧ proper l s' ∧ end_ (full_span l s) = start (full_span l s')
      ∧ full_span l s = {| start := 0; end_ := 2 |}
  | _ => False
  end.
Proof.
  pose proof (full_spans_tile sample fresh eq_refl) as H. vm_compute parse_lexical in H |- *.
  destruct H as (tokens & _ & H). specialize (H {| first := 0; site_end := 1 |}).
  lazymatch type of H with
  | proper ?l _ → _ =>
      assert (proper l {| first := 0; site_end := 1 |}) as Hs by (split_and!; [cbv; lia..|reflexivity|reflexivity]);
      assert (proper l {| first := 2; site_end := 3 |}) as Hs' by (split_and!; [cbv; lia..|reflexivity|reflexivity])
  end.
  split; [exact Hs|split; [exact Hs'|split; [|reflexivity]]].
  apply (H Hs); [exact Hs'|cbv; lia|]. intros [|[|k]] Hk; cbv in Hk; (lia || reflexivity).
Defined.
