(* ===== verification/Syntax.v ===== *)
(** * The typed syntax tree

    Models the node types of [kagari-syntax/src/ast/]: sites, required roles and
    separated lists ([site.rs]), tokens ([tokens.rs]), names, paths, types, generics,
    attributes, patterns, expressions, statements and items.  A node's struct and the
    enum variant that boxes it are one constructor with the struct's fields in order; a
    [Token<K>] is its lexical index, the marker [K] being no data. *)
From S2P Require Import Prelude Text Token Lexical.
Open Scope nat_scope.

(** ** site.rs and tokens.rs *)
Notation TokenRef := nat (only parsing).
Definition site_token (index : TokenRef) : SyntaxSite := {| first := index; site_end := index + 1 |}.

Inductive Required (T : Type) : Type := Present (value : T) | Missing (at_ : nat).
Arguments Present {T} value.
Arguments Missing {T} at_.
Definition required_map {T U} (map : T → U) (r : Required T) : Required U :=
  match r with Present value => Present (map value) | Missing at_ => Missing at_ end.
Definition required_ref {T} (r : Required T) : option T :=
  match r with Present value => Some value | Missing _ => None end.

Inductive ListEntry (T : Type) : Type :=
| MkListEntry (element : Required T) (separator : option (Required TokenRef)).
Arguments MkListEntry {T} element separator.
Definition SeparatedList (T : Type) : Type := list (ListEntry T).

Inductive RecoveryPart : Set := PartElement | PartSeparator.
#[export] Instance RecoveryPart_eq_dec : EqDecision RecoveryPart.
Proof. solve_decision. Defined.
Record Unexpected : Set := {
  un_field : nat; un_entry : nat; un_part : RecoveryPart; un_first : nat; un_end : nat
}.
Record Recovery : Set := { rec_site : SyntaxSite; rec_unexpected : list Unexpected }.

(** Ordered coordinates are inline; reversed ones are a one-based recovery index. *)
Definition site_resolve (recoveries : list Recovery) (site : SyntaxSite) : option SyntaxSite :=
  if site_end site <? first site then rec_site <$> recoveries !! (first site - 1) else Some site.

Inductive OperatorToken (O : Type) : Type := MkOperator (operation : O) (op_first op_end : nat).
Arguments MkOperator {O} operation op_first op_end.

(** ** misc.rs and ty.rs *)
Inductive Name : Set := MkName (token : TokenRef).
Inductive PathSegment : Type := MkPathSegment (separator : TokenRef) (name : Required Name).
Inductive Path : Type :=
| PathSingle (name : Name)
| PathSegmented (site : SyntaxSite) (first : Name) (rest : list PathSegment).

Inductive Writeability : Set := WrVal | WrVar.
Inductive BindingKeyword : Set := MkBindingKeyword (writeability : Writeability) (token : TokenRef).

Inductive TypeSyntax : Type :=
| TsNamed (path : Path)
| TsApplied (site : SyntaxSite) (path : Required Path) (arguments : GenericArgList)
| TsNever (token : TokenRef)
| TsGrouped (site : SyntaxSite) (open : TokenRef) (ty : Required TypeSyntax) (close : Required TokenRef)
| TsTuple (site : SyntaxSite) (open : TokenRef) (elements : list (ListEntry TypeSyntax)) (close : Required TokenRef)
| TsArray (site : SyntaxSite) (open : TokenRef) (element : Required TypeSyntax) (close : Required TokenRef)
| TsFunction (site : SyntaxSite) (keyword : TokenRef) (open : Required TokenRef)
    (parameters : list (ListEntry TypeSyntax)) (close arrow : Required TokenRef) (result : Required TypeSyntax)
| TsQualified (ty : QualifiedType)
| TsError (site : SyntaxSite)
with GenericArgList : Type :=
| MkGenericArgList (site : SyntaxSite) (open : Required TokenRef)
    (arguments : list (ListEntry GenericArgument)) (close : Required TokenRef)
with GenericArgument : Type :=
| GaType (ty : TypeSyntax)
| GaBinding (site : SyntaxSite) (name : Required Name) (equal : Required TokenRef) (ty : Required TypeSyntax)
with QualifiedType : Type :=
| MkQualifiedType (site : SyntaxSite) (open : TokenRef) (receiver : Required TypeSyntax)
    (as_keyword : Required TokenRef) (trait_ref : Required TraitRef) (close separator : Required TokenRef)
    (member : Required Name) (arguments : option GenericArgList)
with TraitRef : Type :=
| MkTraitRef (site : SyntaxSite) (path : Required Path) (application : option TraitApplication)
with TraitApplication : Type :=
| TaGeneric (arguments : GenericArgList)
| TaCallable (site : SyntaxSite) (open : TokenRef) (inputs : list (ListEntry TypeSyntax))
    (close : Required TokenRef) (output : option ReturnType)
with ReturnType : Type := MkReturnType (arrow : TokenRef) (ty : Required TypeSyntax).

Inductive TypeAnnotation : Type := MkTypeAnnotation (colon : Required TokenRef) (ty : Required TypeSyntax).
Inductive TraitBound : Type := MkTraitBound (plus : TokenRef) (trait_ref : Required TraitRef).
Inductive TraitBoundList : Type :=
| MkTraitBoundList (site : SyntaxSite) (first : Required TraitRef) (rest : list TraitBound).
Inductive BoundClause : Type := MkBoundClause (colon : TokenRef) (bounds : Required TraitBoundList).
Inductive GenericParam : Type :=
| MkGenericParam (site : SyntaxSite) (name : Required Name) (bounds : option BoundClause).
Inductive GenericParamList : Type :=
| MkGenericParamList (site : SyntaxSite) (open : Required TokenRef)
    (parameters : SeparatedList GenericParam) (close : Required TokenRef).
Inductive WherePredicate : Type :=
| MkWherePredicate (site : SyntaxSite) (target : Required TypeSyntax) (colon : Required TokenRef)
    (bounds : Required TraitBoundList).
Inductive WhereClause : Type :=
| MkWhereClause (site : SyntaxSite) (keyword : TokenRef) (predicates : SeparatedList WherePredicate).
Inductive ParameterType : Type :=
| PtReceiver
| PtExplicit (colon : Required TokenRef) (ty : Required TypeSyntax).
Inductive Param : Type := MkParam (site : SyntaxSite) (name : Required Name) (annotation : ParameterType).
Inductive ParamList : Type :=
| MkParamList (site : SyntaxSite) (open : Required TokenRef) (parameters : SeparatedList Param)
    (close : Required TokenRef).

(** ** item.rs: visibility and attributes *)
Inductive VisibilityRestriction : Type :=
| MkVisibilityRestriction (open : TokenRef) (scope close : Required TokenRef).
Inductive Visibility : Type :=
| VisPrivate
| VisPublic (keyword : TokenRef) (restriction : option VisibilityRestriction).

(** expr.rs *)
Inductive Literal : Set := MkLiteral (token : TokenRef).

Inductive AttributeKey : Set := MkAttributeKey (name : Name) (equal : TokenRef).
Inductive AttributeValue : Type :=
| AvLiteral (literal : Literal)
| AvPath (path : Path)
| AvList (site : SyntaxSite) (open : TokenRef) (elements : list (ListEntry AttributeArg)) (close : Required TokenRef)
| AvError (site : SyntaxSite)
with AttributeArg : Type :=
| MkAttributeArg (site : SyntaxSite) (key : option AttributeKey) (value : Required AttributeValue).
Inductive AttributePayload : Type :=
| ApValue (equal : TokenRef) (value : Required AttributeValue)
| ApArguments (site : SyntaxSite) (open : TokenRef) (arguments : SeparatedList AttributeArg) (close : Required TokenRef).
Inductive Attribute : Type :=
| MkAttribute (site : SyntaxSite) (hash : TokenRef) (open : Required TokenRef) (path : Required Path)
    (payload : option AttributePayload) (close : Required TokenRef).
Definition Attributes : Type := list Attribute.

(** ** expr.rs: paths and patterns *)
Inductive PathMember : Type := MkPathMember (separator : TokenRef) (name : Required Name).
Inductive PathExpr : Type :=
| PePlain (path : Path)
| PeApplied (site : SyntaxSite) (path : Required Path) (application_separator : option TokenRef)
    (arguments : GenericArgList) (member : option PathMember)
| PeQualified (ty : QualifiedType).

Inductive RangeOp : Set := RangeExclusive | RangeInclusive.
Inductive PatternBound : Type := PbLiteral (literal : Literal) | PbPath (path : PathExpr).
Inductive PatternRest : Set := MkPatternRest (dots : TokenRef) (comma : option TokenRef).
Inductive Pattern : Type :=
| PatWildcard (token : TokenRef)
| PatPath (path : PathExpr)
| PatLiteral (literal : Literal)
| PatOr (site : SyntaxSite) (first : Required Pattern) (alternatives : list PatternAlternative)
| PatRange (site : SyntaxSite) (start : Required PatternBound) (operator : OperatorToken RangeOp) (end_ : Required PatternBound)
| PatGrouped (site : SyntaxSite) (open : TokenRef) (pattern : Required Pattern) (close : Required TokenRef)
| PatTuple (site : SyntaxSite) (open : TokenRef) (elements : list (ListEntry Pattern)) (close : Required TokenRef)
| PatTupleStruct (site : SyntaxSite) (path : PathExpr) (open : TokenRef) (elements : list (ListEntry Pattern))
    (close : Required TokenRef)
| PatStruct (site : SyntaxSite) (path : PathExpr) (open : TokenRef) (fields : list (ListEntry PatternField))
    (rest : option PatternRest) (close : Required TokenRef)
| PatError (site : SyntaxSite)
with PatternAlternative : Type := MkPatternAlternative (separator : TokenRef) (pattern : Required Pattern)
with PatternField : Type :=
| MkPatternField (site : SyntaxSite) (name : Required Name) (pattern : option FieldPattern)
with FieldPattern : Type := MkFieldPattern (colon : TokenRef) (pattern : Required Pattern).

(** ** expr.rs and stmt.rs: expressions and statements *)
Inductive PrefixOp : Set := OpNegate | OpNot.
Inductive BinaryOp : Set :=
| BAdd | BSubtract | BMultiply | BDivide | BRemainder | BBitAnd | BBitOr | BBitXor | BShiftLeft | BShiftRight
| BAnd | BOr | BEqual | BNotEqual | BIdentityEqual | BIdentityNotEqual | BLess | BLessEqual | BGreater | BGreaterEqual.
Inductive AssignmentOp : Set := AsAssign | AsCompound (op : BinaryOp).

Inductive CallApplication : Type := MkCallApplication (separator : option TokenRef) (arguments : GenericArgList).
Inductive ClosureParam : Type :=
| MkClosureParam (site : SyntaxSite) (name : Required Name) (annotation : option TypeAnnotation).
Inductive ClosureParams : Type :=
| CpEmpty (token : TokenRef)
| CpList (site : SyntaxSite) (open : TokenRef) (parameters : SeparatedList ClosureParam) (close : Required TokenRef).
Inductive DebugMarker : Set := MkDebugMarker (colon : TokenRef) (question : Required TokenRef).
Inductive StringPart : Type :=
| SpText (token : TokenRef)
| SpHole (site : SyntaxSite) (open : TokenRef) (expression : Required PathExpr) (debug : option DebugMarker)
    (close : Required TokenRef).

Inductive Expr : Type :=
| ExBlock (block : BlockExpr)
| ExPath (path : PathExpr)
| ExLiteral (literal : Literal)
| ExParen (site : SyntaxSite) (open : TokenRef) (expression : Required Expr) (close : Required TokenRef)
| ExPrefix (site : SyntaxSite) (operator : Required (OperatorToken PrefixOp)) (expression : Required Expr)
| ExCast (site : SyntaxSite) (expression : Required Expr) (keyword : TokenRef) (ty : Required TypeSyntax)
| ExPropagate (site : SyntaxSite) (expression : Required Expr) (question : TokenRef)
| ExAwait (site : SyntaxSite) (expression : Required Expr) (dot : TokenRef) (keyword : Required TokenRef)
| ExBinary (site : SyntaxSite) (lhs : Required Expr) (operator : Required (OperatorToken BinaryOp)) (rhs : Required Expr)
| ExRange (site : SyntaxSite) (start : option Expr) (operator : OperatorToken RangeOp) (end_ : option (Required Expr))
| ExCall (site : SyntaxSite) (callee : Required Expr) (application : option CallApplication) (open : Required TokenRef)
    (arguments : list (ListEntry Expr)) (close : Required TokenRef)
| ExField (site : SyntaxSite) (receiver : Required Expr) (dot : TokenRef) (name : Required Name)
| ExIndex (site : SyntaxSite) (receiver : Required Expr) (open : TokenRef) (index : Required Expr) (close : Required TokenRef)
| ExIf (site : SyntaxSite) (keyword : TokenRef) (condition : Required Condition) (then_body : Required BlockExpr)
    (else_clause : option ElseClause)
| ExStruct (site : SyntaxSite) (path : Required PathExpr) (arguments : option GenericArgList) (fields : FieldInitList)
| ExMatch (site : SyntaxSite) (keyword : TokenRef) (scrutinee : Required Expr) (arms : MatchArmList)
| ExLoop (site : SyntaxSite) (keyword : TokenRef) (body : Required BlockExpr)
| ExClosure (site : SyntaxSite) (async_keyword : option TokenRef) (parameters : Required ClosureParams) (body : Required Expr)
| ExAsyncBlock (site : SyntaxSite) (keyword : TokenRef) (body : Required BlockExpr)
| ExTuple (site : SyntaxSite) (open : TokenRef) (elements : list (ListEntry Expr)) (close : Required TokenRef)
| ExArray (site : SyntaxSite) (open : TokenRef) (contents : ArrayContents) (close : Required TokenRef)
| ExString (site : SyntaxSite) (open : TokenRef) (parts : list StringPart) (close : Required TokenRef)
| ExError (site : SyntaxSite)
with BlockExpr : Type :=
| MkBlockExpr (site : SyntaxSite) (open : Required TokenRef) (statements : list Stmt) (tail : option Expr)
    (close : Required TokenRef)
with Condition : Type :=
| CoExpression (expression : Expr)
| CoBinding (site : SyntaxSite) (keyword : TokenRef) (pattern : Required Pattern) (equal : Required TokenRef)
    (initializer : Required Expr)
with ElseClause : Type := MkElseClause (keyword : TokenRef) (body : Required Expr)
with FieldInitList : Type :=
| MkFieldInitList (site : SyntaxSite) (open : Required TokenRef) (entries : list (ListEntry StructEntry))
    (close : Required TokenRef)
with StructEntry : Type :=
| SeField (site : SyntaxSite) (name : Required Name) (value : option FieldValue)
| SeUpdate (site : SyntaxSite) (dots : TokenRef) (value : Required Expr)
with FieldValue : Type := MkFieldValue (colon : TokenRef) (expression : Required Expr)
with MatchArmList : Type :=
| MkMatchArmList (site : SyntaxSite) (open : Required TokenRef) (arms : list (ListEntry MatchArm)) (close : Required TokenRef)
with MatchArm : Type :=
| MkMatchArm (site : SyntaxSite) (pattern : Required Pattern) (guard : option MatchGuard) (arrow : Required TokenRef)
    (expression : Required Expr)
with MatchGuard : Type := MkMatchGuard (keyword : TokenRef) (expression : Required Expr)
with ArrayContents : Type :=
| AcList (elements : list (ListEntry Expr))
| AcRepeat (value : Required Expr) (separator : TokenRef) (count : Required Expr)
with Stmt : Type :=
| StBinding (site : SyntaxSite) (binding : Required BindingKeyword) (pattern : Required Pattern)
    (annotation : option TypeAnnotation) (initializer : option Initializer) (terminator : Required TokenRef)
| StReturn (site : SyntaxSite) (keyword : TokenRef) (value : option Expr) (terminator : Required TokenRef)
| StExpr (site : SyntaxSite) (expression : Required Expr) (terminator : option (Required TokenRef))
| StAssign (site : SyntaxSite) (target : Required Expr) (operator : Required (OperatorToken AssignmentOp))
    (value : Required Expr) (terminator : Required TokenRef)
| StWhile (site : SyntaxSite) (keyword : TokenRef) (condition : Required Condition) (body : Required BlockExpr)
| StLoop (site : SyntaxSite) (keyword : TokenRef) (body : Required BlockExpr)
| StFor (site : SyntaxSite) (keyword : TokenRef) (pattern : Required Pattern) (in_keyword : Required TokenRef)
    (iterable : Required Expr) (body : Required BlockExpr)
| StBreak (site : SyntaxSite) (keyword : TokenRef) (value : option Expr) (terminator : Required TokenRef)
| StContinue (site : SyntaxSite) (keyword : TokenRef) (terminator : Required TokenRef)
| StFnDef (function : FnDef)
| StError (site : SyntaxSite)
with Initializer : Type := MkInitializer (equal : TokenRef) (expression : Required Expr)
with FnDef : Type :=
| MkFnDef (site : SyntaxSite) (attributes : Attributes) (visibility : Visibility) (async_keyword : option TokenRef)
    (keyword : Required TokenRef) (name : Required Name) (generics : option GenericParamList) (parameters : ParamList)
    (result : option ReturnType) (where_clause : option WhereClause) (body : FunctionBody)
with FunctionBody : Type :=
| FbBlock (block : Required BlockExpr)
| FbDeclaration (semicolon : Required TokenRef).

(** ** item.rs: declarations *)
Notation ModuleId := nat (only parsing).
Inductive Field : Type :=
| MkField (site : SyntaxSite) (attributes : Attributes) (visibility : Visibility) (binding : Required BindingKeyword)
    (name : Required Name) (colon : Required TokenRef) (ty : Required TypeSyntax).
Inductive FieldList : Type :=
| MkFieldList (site : SyntaxSite) (open : Required TokenRef) (fields : SeparatedList Field) (close : Required TokenRef).
Inductive TuplePayload : Type :=
| MkTuplePayload (site : SyntaxSite) (open : TokenRef) (types : SeparatedList TypeSyntax) (close : Required TokenRef).
Inductive VariantDef : Type :=
| MkVariant (site : SyntaxSite) (attributes : Attributes) (name : Required Name) (payload : option TuplePayload).
Inductive VariantList : Type :=
| MkVariantList (site : SyntaxSite) (open : Required TokenRef) (variants : SeparatedList VariantDef) (close : Required TokenRef).

Inductive UseTree : Type :=
| MkUseTree (site : SyntaxSite) (prefix : option Path) (suffix : option UseSuffix)
with UseSuffix : Type :=
| UsAlias (keyword : TokenRef) (name : Required Name)
| UsGlob (separator : TokenRef) (star : Required TokenRef)
| UsGroup (separator : option TokenRef) (group : UseTreeList)
with UseTreeList : Type :=
| MkUseTreeList (site : SyntaxSite) (open : Required TokenRef) (trees : list (ListEntry UseTree)) (close : Required TokenRef).
Inductive UseDecl : Type :=
| MkUseDecl (site : SyntaxSite) (attributes : Attributes) (visibility : Visibility) (keyword : Required TokenRef)
    (tree : Required UseTree) (terminator : Required TokenRef).

Inductive ModuleForm : Type := MfExternal (semicolon : TokenRef) | MfInline (body : Required ModuleId).
Inductive ModuleDef : Type :=
| MkModuleDef (site : SyntaxSite) (attributes : Attributes) (visibility : Visibility) (keyword : Required TokenRef)
    (name : Required Name) (form : ModuleForm).

Inductive ConstInitializer : Type :=
| CiDefinition (equal : Required TokenRef) (value : Required Expr)
| CiDeclaration.
Inductive ConstDef : Type :=
| MkConstDef (site : SyntaxSite) (attributes : Attributes) (visibility : Visibility) (keyword : Required TokenRef)
    (name : Required Name) (annotation : option TypeAnnotation) (initializer : ConstInitializer) (terminator : Required TokenRef).
Inductive StaticDef : Type :=
| MkStaticDef (site : SyntaxSite) (attributes : Attributes) (visibility : Visibility) (keyword : Required TokenRef)
    (binding : Required BindingKeyword) (name : Required Name) (colon : Required TokenRef) (ty : Required TypeSyntax)
    (equal : Required TokenRef) (initializer : Required Expr) (terminator : Required TokenRef).
Definition static_site (d : StaticDef) : SyntaxSite := match d with MkStaticDef site _ _ _ _ _ _ _ _ _ _ => site end.
Inductive StructDef : Type :=
| MkStructDef (site : SyntaxSite) (attributes : Attributes) (visibility : Visibility) (keyword : Required TokenRef)
    (name : Required Name) (generics : option GenericParamList) (fields : Required FieldList).
Inductive EnumDef : Type :=
| MkEnumDef (site : SyntaxSite) (attributes : Attributes) (visibility : Visibility) (keyword : Required TokenRef)
    (name : Required Name) (generics : option GenericParamList) (variants : Required VariantList).

Inductive Supertraits : Type := MkSupertraits (colon : TokenRef) (bounds : Required TraitBoundList).
Inductive AssociatedDefault : Type := MkAssociatedDefault (equal : TokenRef) (ty : Required TypeSyntax).
Inductive MethodDef : Type :=
| MkMethodDef (site : SyntaxSite) (attributes : Attributes) (visibility : Visibility) (async_keyword : option TokenRef)
    (keyword : Required TokenRef) (name : Required Name) (generics : option GenericParamList) (parameters : ParamList)
    (result : option ReturnType) (where_clause : option WhereClause) (body : FunctionBody).
Inductive AssociatedType : Type :=
| MkAssociatedType (site : SyntaxSite) (attributes : Attributes) (visibility : Visibility) (keyword : Required TokenRef)
    (name : Required Name) (generics : option GenericParamList) (bounds : option Supertraits)
    (default_ : option AssociatedDefault) (where_clause : option WhereClause) (terminator : Required TokenRef).
Inductive Member : Type :=
| MeMethod (method : MethodDef)
| MeAssociatedType (ty : AssociatedType)
| MeConst (const : ConstDef)
| MeError (site : SyntaxSite).
Inductive TraitDef : Type :=
| MkTraitDef (site : SyntaxSite) (attributes : Attributes) (visibility : Visibility) (keyword : Required TokenRef)
    (name : Required Name) (generics : option GenericParamList) (supertraits : option Supertraits)
    (open : Required TokenRef) (members : list Member) (close : Required TokenRef).
Inductive ImplTrait : Type := MkImplTrait (trait_ref : Required TraitRef) (for_keyword : Required TokenRef).
Inductive ImplBlock : Type :=
| MkImplBlock (site : SyntaxSite) (attributes : Attributes) (keyword : Required TokenRef) (generics : option GenericParamList)
    (trait_clause : option ImplTrait) (target : Required TypeSyntax) (where_clause : option WhereClause)
    (open : Required TokenRef) (members : list Member) (close : Required TokenRef).
Inductive AliasTarget : Type :=
| AtLeadingWhere (clause : WhereClause) (equal : Required TokenRef) (ty : Required TypeSyntax)
| AtTrailingWhere (equal : Required TokenRef) (ty : Required TypeSyntax) (clause : option WhereClause).
Inductive TypeAlias : Type :=
| MkTypeAlias (site : SyntaxSite) (attributes : Attributes) (visibility : Visibility) (keyword : Required TokenRef)
    (name : Required Name) (generics : option GenericParamList) (bounds : option Supertraits) (target : AliasTarget)
    (terminator : Required TokenRef).
Inductive OpaqueTypeDef : Type :=
| MkOpaqueTypeDef (site : SyntaxSite) (attributes : Attributes) (visibility : Visibility) (keyword : Required TokenRef)
    (name : Required Name) (generics : option GenericParamList) (bounds : option Supertraits)
    (where_clause : option WhereClause) (terminator : Required TokenRef).
Inductive Item : Type :=
| ItModule (module : ModuleDef) | ItUse (decl : UseDecl) | ItFn (function : FnDef) | ItConst (const : ConstDef)
| ItStatic (static : StaticDef) | ItStruct (struct_ : StructDef) | ItEnum (enum : EnumDef) | ItTrait (trait_ : TraitDef)
| ItImpl (impl : ImplBlock) | ItTypeAlias (alias : TypeAlias) | ItOpaqueType (ty : OpaqueTypeDef) | ItError (site : SyntaxSite).
Inductive ModuleBody : Type :=
| MkModuleBody (site : SyntaxSite) (open : option TokenRef) (items : list Item) (close : option (Required TokenRef)).
Definition module_site (b : ModuleBody) : SyntaxSite := match b with MkModuleBody site _ _ _ => site end.

(** ** borrow.rs: the coverage of a node *)
Class NodeData (T : Type) : Type := node_site : T → SyntaxSite.
#[export] Instance name_site : NodeData Name := λ n, match n with MkName t => site_token t end.
#[export] Instance literal_site : NodeData Literal := λ l, match l with MkLiteral t => site_token t end.
#[export] Instance path_site : NodeData Path :=
  λ p, match p with PathSingle n => node_site n | PathSegmented site _ _ => site end.
#[export] Instance qualified_site : NodeData QualifiedType :=
  λ q, match q with MkQualifiedType site _ _ _ _ _ _ _ _ => site end.
#[export] Instance path_expr_site : NodeData PathExpr :=
  λ p, match p with PePlain p => node_site p | PeApplied site _ _ _ _ => site | PeQualified q => node_site q end.
#[export] Instance block_site : NodeData BlockExpr := λ b, match b with MkBlockExpr site _ _ _ _ => site end.
#[export] Instance pattern_site : NodeData Pattern :=
  λ p, match p with
       | PatWildcard t => site_token t
       | PatPath p => node_site p
       | PatLiteral l => node_site l
       | PatOr site _ _ | PatRange site _ _ _ | PatGrouped site _ _ _ | PatTuple site _ _ _
       | PatTupleStruct site _ _ _ _ | PatStruct site _ _ _ _ _ | PatError site => site
       end.
#[export] Instance expr_site : NodeData Expr :=
  λ e, match e with
       | ExBlock b => node_site b
       | ExPath p => node_site p
       | ExLiteral l => node_site l
       | ExParen site _ _ _ | ExPrefix site _ _ | ExCast site _ _ _ | ExPropagate site _ _ | ExAwait site _ _ _
       | ExBinary site _ _ _ | ExRange site _ _ _ | ExCall site _ _ _ _ _ | ExField site _ _ _ | ExIndex site _ _ _ _
       | ExIf site _ _ _ _ | ExStruct site _ _ _ | ExMatch site _ _ _ | ExLoop site _ _ | ExClosure site _ _ _
       | ExAsyncBlock site _ _ | ExTuple site _ _ _ | ExArray site _ _ _ | ExString site _ _ _ | ExError site => site
       end.
