(* ===== verification/ParserCore.v ===== *)
(** * The parser's cursor, diagnostics and recovery scopes

    Models [kagari-syntax/src/parser/core.rs] and the options of
    [kagari-syntax/src/parser.rs].  A method of [Parser] is an action of a state monad;
    an [assert!], an [expect] and an index out of range are the outcome [Crash], and a
    loop that outlives its fuel is the outcome [Exhausted].  A loop of the grammar has
    the fuel of two more rounds than the table has records; the parser's theorems show
    that neither outcome happens.  Table, recovery and module indices are unbounded
    here: the table's own construction bounds the first to 32 bits. *)
From S2P Require Import Prelude Text Literal Token Lexical Syntax.
Import TokenKind.
Open Scope nat_scope.

(** ** Options and diagnostics *)
Record ParseLimits : Set := { max_diagnostics : nat; max_nesting : nat; max_tree_depth : nat }.
Definition default_limits : ParseLimits :=
  {| max_diagnostics := 256; max_nesting := 64; max_tree_depth := 128 |}.
Inductive ParseMode : Set := Source | Declarations.
#[export] Instance ParseMode_eq_dec : EqDecision ParseMode.
Proof. solve_decision. Defined.
Record ParseOptions : Set := { opt_mode : ParseMode; opt_limits : ParseLimits }.
Definition default_options : ParseOptions := {| opt_mode := Source; opt_limits := default_limits |}.

(** The kinds the parser reports. *)
Inductive DiagnosticKind : Set :=
| UnexpectedToken | ExpectedTopLevelItem | ExpectedAssignmentOperator | ExpectedBindingKeyword
| ExpectedBindingName | ExpectedBlockEnd | ExpectedClosingBracket | ExpectedClosingParen
| ExpectedConstInitializer | ExpectedConstKeyword | ExpectedConstName | ExpectedEnumKeyword
| ExpectedEnumName | ExpectedExpression | ExpectedFieldBinding | ExpectedFieldName
| ExpectedFieldTypeSeparator | ExpectedForKeyword | ExpectedFunctionBodyStart
| ExpectedFunctionKeyword | ExpectedFunctionName | ExpectedFunctionParameterListEnd
| ExpectedFunctionParameterListStart | ExpectedGenericParameterName | ExpectedImplBodyStart
| ExpectedImplKeyword | ExpectedMatchPattern | ExpectedModuleBodyStart | ExpectedModuleKeyword
| ExpectedModuleName | ExpectedParameterName | ExpectedParameterTypeSeparator | ExpectedPath
| ExpectedStatementTerminator | ExpectedStructBodyStart | ExpectedStructKeyword
| ExpectedStructLiteralBodyStart | ExpectedStructName | ExpectedTraitBodyStart
| ExpectedTraitKeyword | ExpectedTraitName | ExpectedType | ExpectedUseAlias | ExpectedUseKeyword
| ExpectedUseTree | ExpectedVariantName | ExpectedWherePredicateSeparator
| InvalidLiteral (reason : string)
| UnsupportedSyntax (feature : string)
| CompileLimitExceeded (resource : string) (limit : nat).
Record Diagnostic : Set := { diag_kind : DiagnosticKind; diag_span : Span }.

Definition is_invalid_literal (k : DiagnosticKind) : bool :=
  match k with InvalidLiteral _ => true | _ => false end.

(** ** The state *)
Record Built (T : Type) : Type := { node : Required T; depth : nat }.
Arguments node {T} b : rename.
Arguments depth {T} b : rename.
Definition built_missing {T} (at_ : nat) : Built T := {| node := Missing at_; depth := 0 |}.
Definition built_present {T} (n : T) (d : nat) : Built T := {| node := Present n; depth := d |}.

Record Mark : Set := { mark_first : nat; mark_frame : nat }.
Record RecoveryFrame : Set := {
  frame_field : nat; frame_entry : nat; frame_part : RecoveryPart;
  frame_unexpected : list Unexpected; deepest_child : nat
}.

(** The last opened frame is the head of [p_frames]. *)
Record Parser : Type := {
  p_text : text;
  p_lex : Lexical;
  p_cursor : nat;
  p_diagnostics : list Diagnostic;
  p_modules : list (option ModuleBody);
  p_recoveries : list Recovery;
  p_frames : list RecoveryFrame;
  p_limits : ParseLimits;
  p_nesting : nat;
  p_stopped : option nat;
  p_depth : nat;
  p_cancel : CancellationToken;
  p_mode : ParseMode;
  p_allow : bool
}.

Definition parser_new (source : text) (lexical : Lexical) (limits : ParseLimits)
    (cancel : CancellationToken) (mode : ParseMode) : Parser :=
  {| p_text := source; p_lex := lexical; p_cursor := 0; p_diagnostics := []; p_modules := [];
     p_recoveries := []; p_frames := []; p_limits := limits; p_nesting := 0; p_stopped := None;
     p_depth := 0; p_cancel := cancel; p_mode := mode; p_allow := true |}.

Definition set_cursor (c : nat) (s : Parser) : Parser :=
  {| p_text := p_text s; p_lex := p_lex s; p_cursor := c; p_diagnostics := p_diagnostics s;
     p_modules := p_modules s; p_recoveries := p_recoveries s; p_frames := p_frames s;
     p_limits := p_limits s; p_nesting := p_nesting s; p_stopped := p_stopped s; p_depth := p_depth s;
     p_cancel := p_cancel s; p_mode := p_mode s; p_allow := p_allow s |}.
Definition set_diagnostics (d : list Diagnostic) (s : Parser) : Parser :=
  {| p_text := p_text s; p_lex := p_lex s; p_cursor := p_cursor s; p_diagnostics := d;
     p_modules := p_modules s; p_recoveries := p_recoveries s; p_frames := p_frames s;
     p_limits := p_limits s; p_nesting := p_nesting s; p_stopped := p_stopped s; p_depth := p_depth s;
     p_cancel := p_cancel s; p_mode := p_mode s; p_allow := p_allow s |}.
Definition set_modules (m : list (option ModuleBody)) (s : Parser) : Parser :=
  {| p_text := p_text s; p_lex := p_lex s; p_cursor := p_cursor s; p_diagnostics := p_diagnostics s;
     p_modules := m; p_recoveries := p_recoveries s; p_frames := p_frames s;
     p_limits := p_limits s; p_nesting := p_nesting s; p_stopped := p_stopped s; p_depth := p_depth s;
     p_cancel := p_cancel s; p_mode := p_mode s; p_allow := p_allow s |}.
Definition set_recoveries (r : list Recovery) (s : Parser) : Parser :=
  {| p_text := p_text s; p_lex := p_lex s; p_cursor := p_cursor s; p_diagnostics := p_diagnostics s;
     p_modules := p_modules s; p_recoveries := r; p_frames := p_frames s;
     p_limits := p_limits s; p_nesting := p_nesting s; p_stopped := p_stopped s; p_depth := p_depth s;
     p_cancel := p_cancel s; p_mode := p_mode s; p_allow := p_allow s |}.
Definition set_frames (f : list RecoveryFrame) (s : Parser) : Parser :=
  {| p_text := p_text s; p_lex := p_lex s; p_cursor := p_cursor s; p_diagnostics := p_diagnostics s;
     p_modules := p_modules s; p_recoveries := p_recoveries s; p_frames := f;
     p_limits := p_limits s; p_nesting := p_nesting s; p_stopped := p_stopped s; p_depth := p_depth s;
     p_cancel := p_cancel s; p_mode := p_mode s; p_allow := p_allow s |}.
Definition set_nesting (n : nat) (s : Parser) : Parser :=
  {| p_text := p_text s; p_lex := p_lex s; p_cursor := p_cursor s; p_diagnostics := p_diagnostics s;
     p_modules := p_modules s; p_recoveries := p_recoveries s; p_frames := p_frames s;
     p_limits := p_limits s; p_nesting := n; p_stopped := p_stopped s; p_depth := p_depth s;
     p_cancel := p_cancel s; p_mode := p_mode s; p_allow := p_allow s |}.
Definition set_stopped (o : option nat) (s : Parser) : Parser :=
  {| p_text := p_text s; p_lex := p_lex s; p_cursor := p_cursor s; p_diagnostics := p_diagnostics s;
     p_modules := p_modules s; p_recoveries := p_recoveries s; p_frames := p_frames s;
     p_limits := p_limits s; p_nesting := p_nesting s; p_stopped := o; p_depth := p_depth s;
     p_cancel := p_cancel s; p_mode := p_mode s; p_allow := p_allow s |}.
Definition set_depth (n : nat) (s : Parser) : Parser :=
  {| p_text := p_text s; p_lex := p_lex s; p_cursor := p_cursor s; p_diagnostics := p_diagnostics s;
     p_modules := p_modules s; p_recoveries := p_recoveries s; p_frames := p_frames s;
     p_limits := p_limits s; p_nesting := p_nesting s; p_stopped := p_stopped s; p_depth := n;
     p_cancel := p_cancel s; p_mode := p_mode s; p_allow := p_allow s |}.
Definition set_cancel (k : CancellationToken) (s : Parser) : Parser :=
  {| p_text := p_text s; p_lex := p_lex s; p_cursor := p_cursor s; p_diagnostics := p_diagnostics s;
     p_modules := p_modules s; p_recoveries := p_recoveries s; p_frames := p_frames s;
     p_limits := p_limits s; p_nesting := p_nesting s; p_stopped := p_stopped s; p_depth := p_depth s;
     p_cancel := k; p_mode := p_mode s; p_allow := p_allow s |}.
Definition set_allow (b : bool) (s : Parser) : Parser :=
  {| p_text := p_text s; p_lex := p_lex s; p_cursor := p_cursor s; p_diagnostics := p_diagnostics s;
     p_modules := p_modules s; p_recoveries := p_recoveries s; p_frames := p_frames s;
     p_limits := p_limits s; p_nesting := p_nesting s; p_stopped := p_stopped s; p_depth := p_depth s;
     p_cancel := p_cancel s; p_mode := p_mode s; p_allow := b |}.

(** ** The monad *)
Inductive answer (A : Type) : Type :=
| Ret (a : A) (s : Parser)
| Crash
| Exhausted.
Arguments Ret {A} a s.
Arguments Crash {A}.
Arguments Exhausted {A}.
Definition P (A : Type) : Type := Parser → answer A.

Definition give {A} (a : A) : P A := λ s, Ret a s.
Definition chain {A B} (m : P A) (k : A → P B) : P B :=
  λ s, match m s with Ret a s' => k a s' | Crash => Crash | Exhausted => Exhausted end.
Definition crash {A} : P A := λ _, Crash.
Definition exhausted {A} : P A := λ _, Exhausted.
Definition gets {A} (f : Parser → A) : P A := λ s, Ret (f s) s.
Definition update (f : Parser → Parser) : P unit := λ s, Ret tt (f s).
Definition expected {A} (o : option A) : P A := match o with Some a => give a | None => crash end.

Declare Scope parser_scope.
Notation "'let!' x ':=' m 'in' k" := (chain m (λ x, k))
  (at level 10, x binder, m at level 100, k at level 200) : parser_scope.
Notation "m ;;! k" := (chain m (λ _, k)) (at level 90, k at level 200, right associativity) : parser_scope.
Open Scope parser_scope.

(** Short-circuit conditions. *)
Definition notM (m : P bool) : P bool := let! b := m in give (negb b).
Definition andM (m k : P bool) : P bool := let! b := m in if b then k else give false.
Definition orM (m k : P bool) : P bool := let! b := m in if b then give true else k.
Notation "m &&! k" := (andM m k) (at level 40, left associativity) : parser_scope.
Notation "m ||! k" := (orM m k) (at level 50, left associativity) : parser_scope.
(** [condition.then(|| body)]. *)
Definition thenM {A} (condition : bool) (body : P A) : P (option A) :=
  if condition then let! a := body in give (Some a) else give None.
(** [option.map(|value| body)] with an effect in the body. *)
Definition mapO {A B} (o : option A) (body : A → P B) : P (option B) :=
  match o with Some a => let! b := body a in give (Some b) | None => give None end.

(** A round of a loop ends it with [inr] or continues with [inl]. *)
Fixpoint rounds {A B} (fuel : nat) (body : A → P (A + B)) (a : A) : P B :=
  match fuel with
  | 0 => exhausted
  | S fuel =>
      let! r := body a in
      match r with inl a => rounds fuel body a | inr b => give b end
  end.
Definition loop {A B} (body : A → P (A + B)) (a : A) : P B :=
  λ s, rounds (S (S (len (p_lex s)))) body a s.
Definition again {A B} (a : A) : P (A + B) := give (inl a).
Definition leave {A B} (b : B) : P (A + B) := give (inr b).

(** ** Reading the current token *)
Definition is_kind (k k' : kind) : bool := bool_decide (k = k').
Definition one_of (ks : list kind) (k : kind) : bool := existsb (is_kind k) ks.
Definition is_some_kind (k : kind) (o : option kind) : bool :=
  match o with Some k' => is_kind k' k | None => false end.
Definition some_one_of (ks : list kind) (o : option kind) : bool :=
  match o with Some k => one_of ks k | None => false end.

(** The record under the cursor, whether or not the grammar has stopped. *)
Definition raw (s : Parser) : kind := Lexical.kind (p_lex s) (p_cursor s).
Definition kind_now (s : Parser) : kind :=
  match p_stopped s with Some _ => Eof | None => raw s end.
Definition current_kind : P kind := gets kind_now.
Definition at_ (k : kind) : P bool := gets (λ s, is_kind (kind_now s) k).
Definition at_any (ks : list kind) : P bool := gets (λ s, one_of ks (kind_now s)).
Definition anchor : P nat := gets (λ s, offset (p_lex s) (p_cursor s)).
Definition cursor : P nat := gets p_cursor.
Definition completed_depth : P nat := gets p_depth.
Definition is_stopped (s : Parser) : bool := match p_stopped s with Some _ => true | None => false end.
Definition in_declarations : P bool := gets (λ s, bool_decide (p_mode s = Declarations)).
Definition allow_struct_literals : P bool := gets p_allow.

Definition span_text (s : Parser) (sp : Span) : P text :=
  expected (slice (p_text s) (start sp) (end_ sp)).
Definition current_text : P text :=
  let! s := gets id in span_text s (span (p_lex s) (p_cursor s)).

(** ** Stopping *)
Definition push_diagnostic (k : DiagnosticKind) (sp : Span) : P unit :=
  update (λ s, set_diagnostics (p_diagnostics s ++ [{| diag_kind := k; diag_span := sp |}]) s).

Definition limit (resource : string) (n suffix : nat) : P unit :=
  let! s := gets id in
  if is_stopped s then give tt
  else
    push_diagnostic (CompileLimitExceeded resource n) (span (p_lex s) (p_cursor s)) ;;!
    update (set_stopped (Some suffix)).

Definition poll : P bool :=
  let! s := gets id in
  let '(live, k) := token_check (p_cancel s) in
  update (set_cancel k) ;;! give live.

Definition continue_parsing : P bool :=
  let! s := gets id in
  if is_stopped s then give false
  else
    let! live := poll in
    if live then give true
    else update (set_stopped (Some (p_cursor s))) ;;! give false.

(** [decode_string_literal_with_cancellation(text, &self.cancel).ok().and_then(Result::err)]. *)
Definition literal_reason (t : text) : P (option string) :=
  λ s, match decode_string_literal_with_cancellation t {| cur := cursor_of []; cxl := p_cancel s |} with
       | Done (Err reason) st => Ret (Some reason) (set_cancel (cxl st) s)
       | Done (Ok _) st => Ret None (set_cancel (cxl st) s)
       | Stopped => Ret None (set_cancel (Some 0) s)
       | Panicked => Crash
       | OutOfFuel => Exhausted
       end.

Definition unknown_reason : P (option string) :=
  let! s := gets id in
  let sp := span (p_lex s) (p_cursor s) in
  let! t := span_text s sp in
  let! f_prefix :=
    (if bool_decide (t = text_of "f")
     then let! rest := expected (slice (p_text s) (end_ sp) (blen (p_text s))) in
          give (starts_with [QUOTE] rest)
     else give false) in
  if f_prefix : bool
  then give (Some "the f String prefix is not supported; use ordinary quotes and name-only interpolation"%string)
  else if starts_with [QUOTE] t || starts_with (text_of "r" ++ [QUOTE]) t || starts_with (text_of "r#") t
  then literal_reason t
  else give None.

Definition error_here (k : DiagnosticKind) : P unit :=
  let! s := gets id in
  if is_stopped s then give tt
  else
    let sp := span (p_lex s) (p_cursor s) in
    let! k :=
      (if is_kind (kind_now s) Unknown && negb (is_invalid_literal k)
       then let! reason := unknown_reason in
            give (match reason with Some reason => InvalidLiteral reason | None => k end)
       else give k) in
    if length (p_diagnostics s) <? max_diagnostics (p_limits s)
    then push_diagnostic k sp
    else limit "parser diagnostics" (max_diagnostics (p_limits s)) (p_cursor s).

(** [self.error_here(k); Required::Missing { at: self.anchor() }], or a missing node. *)
Definition missing_here {T} (k : DiagnosticKind) : P (Required T) :=
  error_here k ;;! let! at_ := anchor in give (Missing at_).
Definition built_missing_here {T} (k : DiagnosticKind) : P (Built T) :=
  error_here k ;;! let! at_ := anchor in give (built_missing at_).

(** ** Advancing *)
Definition advance_cursor (n : nat) : P unit := update (λ s, set_cursor (p_cursor s + n) s).

Definition bump_trivia : P unit :=
  loop (λ _ : unit,
    let! s := gets id in
    if negb (is_trivia (raw s)) then leave tt
    else
      let! stop := (if p_cursor s mod CANCELLATION_CHECK_TOKENS =? 0
                    then notM continue_parsing else give false) in
      if stop : bool then leave tt else advance_cursor 1 ;;! again tt) tt.

Definition take_token : P TokenRef :=
  bump_trivia ;;!
  let! s := gets id in
  if is_kind (raw s) Eof then crash
  else advance_cursor 1 ;;! bump_trivia ;;! give (p_cursor s).

Definition eat (k : kind) : P (option TokenRef) :=
  bump_trivia ;;! let! b := at_ k in thenM b take_token.

Definition expect (k : kind) (diagnostic : DiagnosticKind) : P (Required TokenRef) :=
  bump_trivia ;;!
  let! b := at_ k &&! notM (at_ Eof) in
  if b then let! t := take_token in give (Present t)
  else let! at_ := anchor in error_here diagnostic ;;! give (Missing at_).

Definition operator {O} (operation : O) (pieces : nat) : P (OperatorToken O) :=
  let! first := cursor in
  advance_cursor pieces ;;!
  let! end_ := cursor in
  bump_trivia ;;! give (MkOperator operation first end_).

(** ** Recovery scopes *)
Definition begin_at (first child_depth : nat) : P Mark :=
  let! s := gets id in
  update (set_frames ({| frame_field := 0; frame_entry := 0; frame_part := PartElement;
                         frame_unexpected := []; deepest_child := child_depth |} :: p_frames s)) ;;!
  give {| mark_first := first; mark_frame := length (p_frames s) |}.
Definition begin : P Mark := bump_trivia ;;! let! c := cursor in begin_at c 0.

(** [self.frames.last_mut()]. *)
Definition on_frame (f : RecoveryFrame → RecoveryFrame) (frames : list RecoveryFrame) : list RecoveryFrame :=
  match frames with [] => [] | frame :: more => f frame :: more end.
Definition last_frame : P RecoveryFrame := let! s := gets id in expected (head (p_frames s)).
Definition set_last_frame (frame : RecoveryFrame) : P unit :=
  update (λ s, set_frames (on_frame (λ _, frame) (p_frames s)) s).

Definition account_depth (d : nat) : P unit :=
  update (set_depth d) ;;!
  update (λ s, set_frames (on_frame (λ f,
    {| frame_field := frame_field f; frame_entry := frame_entry f; frame_part := frame_part f;
       frame_unexpected := frame_unexpected f; deepest_child := deepest_child f `max` d |}) (p_frames s)) s) ;;!
  let! s := gets id in
  if max_tree_depth (p_limits s) <? d
  then limit "syntax tree depth" (max_tree_depth (p_limits s)) (p_cursor s) else give tt.

(** [while end > first && self.lexical.kind(end - 1).is_trivia() { end -= 1; }]. *)
Fixpoint trim_trivia (l : Lexical) (first e : nat) : nat :=
  match e with
  | 0 => 0
  | S e' => if (first <? e) && is_trivia (Lexical.kind l e') then trim_trivia l first e' else e
  end.

(** [assert_eq!(mark.frame + 1, self.frames.len())] and the [pop]. *)
Definition pop_frame (mark : Mark) : P RecoveryFrame :=
  let! s := gets id in
  if mark_frame mark + 1 =? length (p_frames s)
  then let! frame := last_frame in update (set_frames (tail (p_frames s))) ;;! give frame
  else crash.

Definition end_mark (mark : Mark) : P SyntaxSite :=
  let! frame := pop_frame mark in
  account_depth (deepest_child frame + 1) ;;!
  let! s := gets id in
  let site := {| first := mark_first mark;
                 site_end := trim_trivia (p_lex s) (mark_first mark) (p_cursor s) |} in
  match frame_unexpected frame with
  | [] => give site
  | unexpected =>
      let recoveries := p_recoveries s ++ [{| rec_site := site; rec_unexpected := unexpected |}] in
      update (set_recoveries recoveries) ;;!
      give {| first := length recoveries; site_end := 0 |}
  end.

Definition first_of {T} `{NodeData T} (built : Built T) (fallback : nat) : P nat :=
  match node built with
  | Missing _ => give fallback
  | Present n =>
      let! recoveries := gets p_recoveries in
      let! site := expected (site_resolve recoveries (node_site n)) in
      give (first site)
  end.

Definition abandon (mark : Mark) (suffix : nat) : P unit :=
  let! _ := pop_frame mark in
  let! s := gets id in
  update (set_stopped (Some (match p_stopped s with Some f => f `min` suffix | None => suffix end))) ;;!
  update (set_cursor suffix).

Definition position (field entry : nat) : P unit :=
  let! f := last_frame in
  set_last_frame {| frame_field := field; frame_entry := entry; frame_part := PartElement;
                    frame_unexpected := frame_unexpected f; deepest_child := deepest_child f |}.

(** [frame.unexpected]: extend the last range when it is adjacent and has the same owner. *)
Fixpoint push_unexpected (u : Unexpected) (l : list Unexpected) : list Unexpected :=
  match l with
  | [] => [u]
  | [previous] =>
      if (un_field previous =? un_field u) && (un_entry previous =? un_entry u)
         && bool_decide (un_part previous = un_part u) && (un_end previous =? un_first u)
      then [{| un_field := un_field previous; un_entry := un_entry previous; un_part := un_part previous;
               un_first := un_first previous; un_end := un_end u |}]
      else [previous; u]
  | previous :: more => previous :: push_unexpected u more
  end.
Definition unexpected_range (first e : nat) : P unit :=
  if e <=? first then give tt
  else
    let! f := last_frame in
    set_last_frame {| frame_field := frame_field f; frame_entry := frame_entry f;
                      frame_part := frame_part f; deepest_child := deepest_child f;
                      frame_unexpected :=
                        push_unexpected {| un_field := frame_field f; un_entry := frame_entry f;
                                           un_part := frame_part f; un_first := first; un_end := e |}
                                        (frame_unexpected f) |}.

Definition bump_as_error : P unit :=
  let! eof := at_ Eof in
  if eof then give tt
  else
    let! first := cursor in
    advance_cursor 1 ;;!
    let! e := cursor in
    unexpected_range first e ;;! bump_trivia.

(** [if self.cursor() == before && !self.at(Eof) { self.bump_as_error(); }]. *)
Definition guard_progress (before : nat) : P unit :=
  let! c := cursor in
  let! b := give (c =? before) &&! notM (at_ Eof) in
  if b then bump_as_error else give tt.

Definition rejected {T} (parse : P T) : P unit :=
  let! first := cursor in
  let! recoveries := gets (λ s, length (p_recoveries s)) in
  let! _ := parse in
  update (λ s, set_recoveries (firstn recoveries (p_recoveries s)) s) ;;!
  let! s := gets id in
  unexpected_range first (trim_trivia (p_lex s) first (p_cursor s)).

Definition U16_MAX : nat := Z.to_nat (2 ^ 16 - 1).
Definition finish_remaining_tokens : P unit :=
  let! s := gets id in
  match p_stopped s with
  | Some first =>
      position U16_MAX 0 ;;!
      unexpected_range first (len (p_lex s)) ;;!
      update (set_cursor (len (p_lex s)))
  | None =>
      let! eof := at_ Eof in
      if eof then update (set_cursor (len (p_lex s))) else give tt
  end.

(** ** Limits on growth *)
Definition with_nesting {T} (parse : P T) : P (option T) :=
  let! s := gets id in
  if is_stopped s then give None
  else if max_nesting (p_limits s) <=? p_nesting s
  then limit "parser nesting" (max_nesting (p_limits s)) (p_cursor s) ;;! give None
  else
    update (set_nesting (p_nesting s + 1)) ;;!
    let! result := parse in
    update (λ s, set_nesting (p_nesting s - 1) s) ;;!
    give (Some result).

(** [self.with_nesting(parse).unwrap_or_else(|| Built::missing(self.anchor()))]. *)
Definition nested {T} (parse : P (Built T)) : P (Built T) :=
  let! result := with_nesting parse in
  match result with
  | Some built => give built
  | None => let! at_ := anchor in give (built_missing at_)
  end.

Definition admit_depth (d suffix : nat) : P bool :=
  let! s := gets id in
  if is_stopped s then give false
  else if max_tree_depth (p_limits s) <? d
  then limit "syntax tree depth" (max_tree_depth (p_limits s)) suffix ;;! give false
  else give true.

Definition with_struct_literals {T} (allowed : bool) (parse : P T) : P T :=
  let! previous := allow_struct_literals in
  update (set_allow allowed) ;;!
  let! result := parse in
  update (set_allow previous) ;;! give result.

(** ** Lookahead *)
Definition nth_nontrivia_kind_from (at_ : nat) : P (option kind * nat) :=
  let! s := gets id in
  if is_stopped s then give (None, at_)
  else
    loop (λ at_,
      if len (p_lex s) <=? at_ then leave (None, at_)
      else
        let! live := (if at_ mod CANCELLATION_CHECK_TOKENS =? 0 then poll else give true) in
        if negb live then leave (None, at_)
        else
          let k := Lexical.kind (p_lex s) at_ in
          if is_trivia k then again (at_ + 1) else leave (Some k, at_ + 1)) at_.

Fixpoint nth_from (index at_ : nat) : P (option kind) :=
  let! r := nth_nontrivia_kind_from at_ in
  match index, fst r with
  | 0, k => give k
  | S index, Some _ => nth_from index (snd r)
  | S _, None => give None
  end.
Definition nth_nontrivia_kind (index : nat) : P (option kind) :=
  let! c := cursor in nth_from index c.

Definition shift_of (k1 k2 : kind) : option SyntaxKind.kind :=
  match k1, k2 with
  | Lt, Lt => Some SyntaxKind.Shl
  | Gt, Gt => Some SyntaxKind.Shr
  | Lt, Le => Some SyntaxKind.ShlEq
  | Gt, Ge => Some SyntaxKind.ShrEq
  | _, _ => None
  end.
Definition shift_now (s : Parser) : option SyntaxKind.kind :=
  if is_stopped s then None
  else shift_of (raw s) (Lexical.kind (p_lex s) (p_cursor s + 1)).

(** ** Skipping *)
(** [while !self.at_any(stops) && self.continue_parsing() { self.bump_as_error(); }]. *)
Definition skip_to (stops : list kind) : P unit :=
  loop (λ _ : unit,
    let! go := notM (at_any stops) &&! continue_parsing in
    if negb go then leave tt else bump_as_error ;;! again tt) tt.

(** ** Separated lists *)
Definition skip_unknown : P unit :=
  loop (λ _ : unit,
    let! go := at_ Unknown &&! continue_parsing in
    if go then error_here UnexpectedToken ;;! bump_as_error ;;! again tt else leave tt) tt.
Definition recover_list_separator (end_ : kind) (starts : P bool) : P (option (Required TokenRef)) :=
  let! f := last_frame in
  set_last_frame {| frame_field := frame_field f; frame_entry := frame_entry f;
                    frame_part := PartSeparator; frame_unexpected := frame_unexpected f;
                    deepest_child := deepest_child f |} ;;!
  skip_unknown ;;!
  let! comma := eat Comma in
  match comma with
  | Some comma => give (Some (Present comma))
  | None =>
      let! missing := notM (at_ end_) &&! starts in
      if missing then let! m := missing_here UnexpectedToken in give (Some m) else give None
  end.

Definition list_ {T} (end_ : kind) (starts : P bool) (parse : P (Built T)) (field start_index : nat)
    : P (SeparatedList T * nat) :=
  loop (λ '(result, d),
    let! go := notM (at_ end_) &&! notM (at_ Eof) &&! continue_parsing in
    if negb go then leave (result, d)
    else
      let index := start_index + length result in
      position field index ;;!
      let! before := cursor in
      let! value := parse in
      let d := d `max` depth value in
      position field index ;;!
      let! separator := recover_list_separator end_ starts in
      let result := result ++ [MkListEntry (node value) separator] in
      match separator with
      | None => leave (result, d)
      | Some _ => guard_progress before ;;! again (result, d)
      end) ([], 0).
