(* ===== verification/GrammarTypes.v ===== *)
(** * Names, paths, types, signatures and attributes

    Models [grammar/types.rs], [grammar/signature.rs] and [grammar/attributes.rs] of
    [kagari-syntax/src/parser/], and the literals and path expressions of
    [grammar/expr.rs].  The grammar recurs only through [with_nesting], so the guarded
    bodies are the fields of a record [Grammar] that the productions take as an argument. *)
From S2P Require Import Prelude Text Token Lexical Syntax ParserCore.
Import TokenKind.
Open Scope nat_scope.

Record Grammar : Type := {
  type_inner : P (Built TypeSyntax);
  attribute_value_inner : P (Built AttributeValue);
  single_pattern : P (Built Pattern);
  pattern_alternatives : P (Built Pattern);
  range_inner : P (Built Expr);
  prefix_inner : P (Built Expr);
  if_inner : P (Built Expr);
  block_inner : P (Built BlockExpr);
  use_tree_inner : P (Built UseTree);
  module_def : P ModuleDef
}.

(** Leaf kinds of several productions. *)
Definition path_kinds : list kind := [Ident; CrateKw; SelfKw; SuperKw].
Definition literal_kinds : list kind := [Number; Float; TokenKind.String; Char; ByteChar; TrueKw; FalseKw].

Definition map_built {T U} (f : T → U) (b : Built T) : Built U :=
  {| node := required_map f (node b); depth := depth b |}.
Definition present_here {T} (n : T) : P (Built T) := let! d := completed_depth in give (built_present n d).
Definition required_here {T} (n : Required T) : P (Built T) :=
  let! d := completed_depth in give {| node := n; depth := d |}.
Definition eat_separator : P (option (Required TokenRef)) :=
  let! comma := eat Comma in give (Present <$> comma).

(** ** Names and paths *)
Definition take_name : P Name :=
  let! t := take_token in account_depth 1 ;;! give (MkName t).
Definition parse_name (diagnostic : DiagnosticKind) : P (Required Name) :=
  let! b := at_ Ident in
  if b then let! name := take_name in give (Present name) else missing_here diagnostic.

Definition path_starts : P bool := at_any path_kinds.

(** The condition of the segment loop: a [::] that a name follows. *)
Definition path_continues : P bool :=
  at_ ColonColon &&! continue_parsing
  &&! (let! k := nth_nontrivia_kind 1 in give (some_one_of path_kinds k)).

Definition parse_path_segments : P (list PathSegment) :=
  loop (λ rest,
    let! go := path_continues in
    if negb go then leave rest
    else
      let! separator := take_token in
      let! name := take_name in
      again (rest ++ [MkPathSegment separator (Present name)])) [].

Definition parse_path : P (Required Path) :=
  let! b := path_starts in
  if negb b then missing_here ExpectedPath
  else
    let! mark := begin in
    let! first := take_name in
    let! rest := parse_path_segments in
    let! site := end_mark mark in
    give (Present (match rest with [] => PathSingle first | _ => PathSegmented site first rest end)).

(** [closes] keeps the expected delimiters, the innermost first. *)
Definition skip_angle_group (at_ : nat) : P (bool * nat) :=
  loop (λ '(closes, at_),
    let! r := nth_nontrivia_kind_from at_ in
    match fst r with
    | None => leave (false, snd r)
    | Some k =>
        if is_kind k Lt then again (Gt :: closes, snd r)
        else if is_kind k LParen then again (RParen :: closes, snd r)
        else if is_kind k LBracket then again (RBracket :: closes, snd r)
        else if one_of [Gt; RParen; RBracket] k then
          match closes with
          | [] => leave (false, snd r)
          | close :: closes =>
              if negb (is_kind close k) then leave (false, snd r)
              else match closes with
                   | [] => leave (true, snd r)
                   | _ => again (closes, snd r)
                   end
          end
        else if one_of (path_kinds ++ [ColonColon; Comma; Bang; FnKw; Arrow; AsKw; Eq]) k
        then again (closes, snd r)
        else leave (false, snd r)
    end) ([Gt], at_).

(** The segments and generic arguments of the target, up to [for]. *)
Definition impl_target_rest (at_ : nat) : P bool :=
  loop (λ at_,
    let! r := nth_nontrivia_kind_from at_ in
    if is_some_kind ColonColon (fst r) then
      let! r := nth_nontrivia_kind_from (snd r) in
      if negb (some_one_of path_kinds (fst r)) then leave false else again (snd r)
    else if is_some_kind Lt (fst r) then
      let! r := skip_angle_group (snd r) in
      if negb (fst r) then leave false else again (snd r)
    else leave (is_some_kind ForKw (fst r))) at_.

Definition impl_target_followed_by_for : P bool :=
  let! c := cursor in
  let! r := nth_nontrivia_kind_from c in
  if negb (some_one_of path_kinds (fst r)) then give false else impl_target_rest (snd r).

Definition parse_visibility : P Visibility :=
  let! keyword := eat PubKw in
  match keyword with
  | None => give VisPrivate
  | Some keyword =>
      let! open := eat LParen in
      let! restriction := mapO open (λ open,
        let! b := at_any [CrateKw; SuperKw] in
        let! scope := (if b then let! t := take_token in give (Present t)
                       else missing_here UnexpectedToken) in
        let! close := expect RParen ExpectedClosingParen in
        give (MkVisibilityRestriction open scope close)) in
      give (VisPublic keyword restriction)
  end.

Definition parse_literal : P Literal :=
  let! t := take_token in account_depth 1 ;;! give (MkLiteral t).

Section grammar.
Context (G : Grammar).

Definition type_starts : P bool := path_starts ||! at_any [Bang; LParen; LBracket; FnKw; Lt].
Definition parse_type_ref : P (Built TypeSyntax) := nested (type_inner G).

(** ** Generic arguments *)
Definition generic_argument_starts : P bool := type_starts.

Definition at_binding : P bool :=
  at_ Ident &&! (let! k := nth_nontrivia_kind 1 in give (is_some_kind Eq k)).

Definition parse_generic_argument : P (Built GenericArgument) :=
  let! binding := at_binding in
  if binding then
    let! mark := begin in
    let! name := parse_name ExpectedType in
    let! equal := expect Eq ExpectedType in
    let! ty := parse_type_ref in
    let! site := end_mark mark in
    present_here (GaBinding site name equal (node ty))
  else let! ty := parse_type_ref in give (map_built GaType ty).

Definition parse_call_generic_argument : P (Built GenericArgument) :=
  let! binding := at_binding in
  (if binding then error_here (UnsupportedSyntax "associated type bindings in call arguments") else give tt) ;;!
  parse_generic_argument.

Definition parse_generic_arguments (argument : P (Built GenericArgument)) : P (GenericArgList * nat) :=
  let! mark := begin in
  let! open := expect Lt ExpectedType in
  let! arguments := list_ Gt generic_argument_starts argument 1 0 in
  let! close := expect Gt ExpectedType in
  let! site := end_mark mark in
  let! d := completed_depth in
  give (MkGenericArgList site open (fst arguments) close, d).
Definition parse_generic_arg_list : P (GenericArgList * nat) := parse_generic_arguments parse_generic_argument.
Definition parse_call_generic_arg_list : P (GenericArgList * nat) :=
  parse_generic_arguments parse_call_generic_argument.

(** ** Trait references *)
Definition parse_return_type : P (option ReturnType) :=
  let! arrow := eat Arrow in
  mapO arrow (λ arrow, let! ty := parse_type_ref in give (MkReturnType arrow (node ty))).
Definition parse_annotation : P (option TypeAnnotation) :=
  let! colon := eat Colon in
  mapO colon (λ colon, let! ty := parse_type_ref in give (MkTypeAnnotation (Present colon) (node ty))).

Definition parse_trait_ref : P (Built TraitRef) :=
  let! mark := begin in
  let! path := parse_path in
  let! angle := at_ Lt in
  let! paren := at_ LParen in
  let! application :=
    (if angle then let! arguments := parse_generic_arg_list in give (Some (TaGeneric (fst arguments)))
     else if paren then
       let! callable_mark := begin in
       let! open := take_token in
       let! inputs := list_ RParen type_starts parse_type_ref 1 0 in
       let! close := expect RParen ExpectedClosingParen in
       let! output := parse_return_type in
       let! site := end_mark callable_mark in
       give (Some (TaCallable site open (fst inputs) close output))
     else give None) in
  let! site := end_mark mark in
  present_here (MkTraitRef site path application).

Definition parse_more_bounds : P (list TraitBound) :=
  loop (λ rest,
    let! go := at_ Plus &&! continue_parsing in
    if negb go then leave rest
    else
      let! plus := take_token in
      let! trait_ref := parse_trait_ref in
      again (rest ++ [MkTraitBound plus (node trait_ref)])) [].
Definition parse_trait_bound_list : P (Built TraitBoundList) :=
  let! mark := begin in
  let! first := parse_trait_ref in
  let! rest := parse_more_bounds in
  let! site := end_mark mark in
  present_here (MkTraitBoundList site (node first) rest).

(** ** Types *)
Definition parse_qualified_type : P (QualifiedType * nat) :=
  let! mark := begin in
  let! open := take_token in
  let! receiver := parse_type_ref in
  let! as_keyword := expect AsKw ExpectedType in
  let! trait_ref := parse_trait_ref in
  let! close := expect Gt ExpectedType in
  let! separator := expect ColonColon ExpectedType in
  let! member := parse_name ExpectedFunctionName in
  let! angle := at_ Lt in
  let! arguments := thenM angle parse_generic_arg_list in
  let! site := end_mark mark in
  let! d := completed_depth in
  give (MkQualifiedType site open (node receiver) as_keyword (node trait_ref) close separator member
          (fst <$> arguments), d).

Definition parse_parenthesized_type : P (Built TypeSyntax) :=
  let! mark := begin in
  let! open := take_token in
  let! empty := at_ RParen in
  let! first := thenM (negb empty) parse_type_ref in
  let! comma := at_ Comma in
  match first, comma with
  | Some first, false =>
      let! close := expect RParen ExpectedClosingParen in
      let! site := end_mark mark in
      present_here (TsGrouped site open (node first) close)
  | first, _ =>
      let! elements :=
        (match first with
         | Some first =>
             let! separator := eat_separator in
             let! rest := list_ RParen type_starts parse_type_ref 1 1 in
             give (MkListEntry (node first) separator :: fst rest)
         | None => give []
         end) in
      let! close := expect RParen ExpectedClosingParen in
      let! site := end_mark mark in
      present_here (TsTuple site open elements close)
  end.

Definition parse_named_type : P (Built TypeSyntax) :=
  let! mark := begin in
  let! path := parse_path in
  let! angle := at_ Lt in
  if angle then
    let! arguments := parse_generic_arg_list in
    let! site := end_mark mark in
    present_here (TsApplied site path (fst arguments))
  else
    end_mark mark ;;! required_here (required_map TsNamed path).

Definition parse_array_type : P (Built TypeSyntax) :=
  let! mark := begin in
  let! open := take_token in
  let! element := parse_type_ref in
  let! close := expect RBracket ExpectedClosingBracket in
  let! site := end_mark mark in
  present_here (TsArray site open (node element) close).

Definition parse_function_type : P (Built TypeSyntax) :=
  let! mark := begin in
  let! keyword := take_token in
  let! open := expect LParen ExpectedClosingParen in
  let! parameters := list_ RParen type_starts parse_type_ref 2 0 in
  let! close := expect RParen ExpectedClosingParen in
  let! arrow := expect Arrow ExpectedType in
  let! result := parse_type_ref in
  let! site := end_mark mark in
  present_here (TsFunction site keyword open (fst parameters) close arrow (node result)).

Definition parse_type_inner : P (Built TypeSyntax) :=
  let! path := path_starts in
  if path then parse_named_type
  else
    let! k := current_kind in
    if is_kind k Bang then
      let! t := take_token in account_depth 1 ;;! present_here (TsNever t)
    else if is_kind k LParen then parse_parenthesized_type
    else if is_kind k LBracket then parse_array_type
    else if is_kind k FnKw then parse_function_type
    else if is_kind k Lt then
      let! qualified := parse_qualified_type in present_here (TsQualified (fst qualified))
    else built_missing_here ExpectedType.

(** ** Generics, parameters and where clauses *)
Definition generic_param_starts : P bool := at_ Ident.

Definition parse_bounds : P (option Supertraits) :=
  let! colon := eat Colon in
  mapO colon (λ colon, let! bounds := parse_trait_bound_list in give (MkSupertraits colon (node bounds))).

Definition parse_generic_param : P (Built GenericParam) :=
  let! mark := begin in
  let! name := parse_name ExpectedGenericParameterName in
  let! colon := eat Colon in
  let! bounds := mapO colon (λ colon,
    let! bounds := parse_trait_bound_list in give (MkBoundClause colon (node bounds))) in
  let! site := end_mark mark in
  present_here (MkGenericParam site name bounds).

Definition parse_generic_params : P (option GenericParamList) :=
  let! angle := at_ Lt in
  if negb angle then give None
  else
    let! mark := begin in
    let! open := take_token in
    let! parameters := list_ Gt generic_param_starts parse_generic_param 1 0 in
    let! close := expect Gt ExpectedGenericParameterName in
    let! site := end_mark mark in
    give (Some (MkGenericParamList site (Present open) (fst parameters) close)).

Definition parse_param : P (Built Param) :=
  let! mark := begin in
  let! name := parse_name ExpectedParameterName in
  let! colon := expect Colon ExpectedParameterTypeSeparator in
  let! ty := parse_type_ref in
  let! site := end_mark mark in
  present_here (MkParam site name (PtExplicit colon (node ty))).

Definition parse_receiver : P (SeparatedList Param) :=
  let! receiver_mark := begin in
  let! name := take_name in
  let! site := end_mark receiver_mark in
  let! separator := eat_separator in
  let entry := MkListEntry (Present (MkParam site (Present name) PtReceiver)) separator in
  match separator with
  | Some _ => let! rest := list_ RParen generic_param_starts parse_param 1 1 in give (entry :: fst rest)
  | None => give [entry]
  end.

Definition parse_parameters (method : bool) : P (ParamList * nat) :=
  let! mark := begin in
  let! open := expect LParen ExpectedFunctionParameterListStart in
  let! receiver := give method &&! at_ SelfKw in
  let! parameters :=
    (if receiver then parse_receiver
     else let! parsed := list_ RParen generic_param_starts parse_param 1 0 in give (fst parsed)) in
  let! close := expect RParen ExpectedFunctionParameterListEnd in
  let! site := end_mark mark in
  let! d := completed_depth in
  give (MkParamList site open parameters close, d).

Definition parse_where_predicate : P (Built WherePredicate) :=
  let! mark := begin in
  let! target := parse_type_ref in
  let! colon := expect Colon ExpectedWherePredicateSeparator in
  let! bounds := parse_trait_bound_list in
  let! site := end_mark mark in
  present_here (MkWherePredicate site (node target) colon (node bounds)).

Definition parse_where_predicates : P (SeparatedList WherePredicate) :=
  loop (λ predicates,
    let! go := notM (at_any [LBrace; RBrace; Eq; Semi; Eof]) &&! continue_parsing in
    if negb go then leave predicates
    else
      let! predicate := parse_where_predicate in
      let! separator := eat_separator in
      let predicates := predicates ++ [MkListEntry (node predicate) separator] in
      match separator with Some _ => again predicates | None => leave predicates end) [].

Definition parse_where_clause : P (option WhereClause) :=
  let! b := at_ WhereKw in
  if negb b then give None
  else
    let! mark := begin in
    let! keyword := take_token in
    let! predicates := parse_where_predicates in
    let! site := end_mark mark in
    give (Some (MkWhereClause site keyword predicates)).

(** ** Attributes *)
(** [self.nth_nontrivia_kind_from(&mut cursor)?]. *)
Definition lookahead {A} (at_ : nat) (k : kind → nat → P (option A)) : P (option A) :=
  let! r := nth_nontrivia_kind_from at_ in
  match fst r with Some found => k found (snd r) | None => give None end.
(** The same in a loop that [None] ends. *)
Definition peek_on {S A} (at_ : nat) (k : kind → nat → P (S + option A)) : P (S + option A) :=
  let! r := nth_nontrivia_kind_from at_ in
  match fst r with Some found => k found (snd r) | None => leave None end.

Definition skip_attribute_path (k : kind) (at_ : nat) : P (option (kind * nat)) :=
  loop (λ '(k, at_),
    if negb (is_kind k ColonColon) then leave (Some (k, at_))
    else peek_on at_ (λ k at_,
      if negb (one_of path_kinds k) then leave None
      else peek_on at_ (λ k at_, again (k, at_)))) (k, at_).
Definition skip_attribute_value (k : kind) (at_ : nat) : P (option (kind * nat)) :=
  loop (λ '(k, at_),
    if is_kind k RBracket then leave (Some (k, at_))
    else if is_kind k Eof then leave None
    else peek_on at_ (λ k at_, again (k, at_))) (k, at_).
Definition skip_attribute_arguments (at_ : nat) : P (option nat) :=
  loop (λ '(d, at_),
    if d =? 0 then leave (Some at_)
    else peek_on at_ (λ k at_,
      if is_kind k LParen then again (d + 1, at_)
      else if is_kind k RParen then again (d - 1, at_)
      else if is_kind k Eof then leave None
      else again (d, at_))) (1, at_).

(** What follows the path, up to the attribute's last token. *)
Definition skip_attribute_payload (k : kind) (at_ : nat) : P (option (kind * nat)) :=
  if is_kind k Eq then lookahead at_ skip_attribute_value
  else if is_kind k LParen then
    let! closed := skip_attribute_arguments at_ in
    match closed with
    | None => give None
    | Some at_ => lookahead at_ (λ k at_, give (Some (k, at_)))
    end
  else give (Some (k, at_)).

(** One round of the attribute loop, after its [#]. *)
Definition skip_attribute (at_ : nat) : P (option (kind * nat)) :=
  lookahead at_ (λ k at_,
  if negb (is_kind k LBracket) then give None
  else lookahead at_ (λ k at_,
  if negb (one_of path_kinds k) then give None
  else lookahead at_ (λ k at_,
  let! path := skip_attribute_path k at_ in
  match path with
  | None => give None
  | Some (k, at_) =>
      let! payload := skip_attribute_payload k at_ in
      match payload with
      | None => give None
      | Some (k, at_) =>
          if negb (is_kind k RBracket) then give None
          else lookahead at_ (λ k at_, give (Some (k, at_)))
      end
  end))).

Definition skip_attributes (k : kind) (at_ : nat) : P (option (kind * nat)) :=
  loop (λ '(k, at_),
    if negb (is_kind k Hash) then leave (Some (k, at_))
    else
      let! r := skip_attribute at_ in
      match r with None => leave None | Some (k, at_) => again (k, at_) end) (k, at_).

Definition attributed_item_kind : P (option kind) :=
  let! c := cursor in
  lookahead c (λ k at_,
    let! r := skip_attributes k at_ in
    match r with
    | None => give None
    | Some (k, at_) =>
        if is_kind k PubKw then
          lookahead at_ (λ next at_,
            if is_kind next LParen then
              lookahead at_ (λ _ at_, lookahead at_ (λ _ at_, lookahead at_ (λ k _, give (Some k))))
            else give (Some next))
        else give (Some k)
    end).

Definition attribute_value_starts : P bool := path_starts ||! at_any (literal_kinds ++ [LBracket]).
Definition parse_attribute_value : P (Built AttributeValue) := nested (attribute_value_inner G).

(** A name that is not [Present] is the source's [unreachable!]. *)
Definition parse_attribute_arg : P (Built AttributeArg) :=
  let! mark := begin in
  let! keyed := at_binding in
  let! key :=
    (if keyed then
       let! name := parse_name ExpectedFunctionName in
       let! name := expected (required_ref name) in
       let! equal := take_token in
       give (Some (MkAttributeKey name equal))
     else give None) in
  let! value := parse_attribute_value in
  let! site := end_mark mark in
  present_here (MkAttributeArg site key (node value)).

Definition parse_attribute_value_inner : P (Built AttributeValue) :=
  let! k := current_kind in
  if one_of literal_kinds k then
    let! mark := begin in
    let! literal := parse_literal in
    end_mark mark ;;! present_here (AvLiteral literal)
  else if is_kind k LBracket then
    let! mark := begin in
    let! open := take_token in
    let! elements := list_ RBracket attribute_value_starts parse_attribute_arg 1 0 in
    let! close := expect RBracket ExpectedClosingBracket in
    let! site := end_mark mark in
    present_here (AvList site open (fst elements) close)
  else
    let! path := path_starts in
    if path then
      let! mark := begin in
      let! path := parse_path in
      end_mark mark ;;! required_here (required_map AvPath path)
    else built_missing_here ExpectedExpression.

Definition parse_attribute_payload : P (option AttributePayload) :=
  let! equal := eat Eq in
  match equal with
  | Some equal => let! value := parse_attribute_value in give (Some (ApValue equal (node value)))
  | None =>
      let! paren := at_ LParen in
      if paren then
        let! args_mark := begin in
        let! open := take_token in
        let! arguments := list_ RParen attribute_value_starts parse_attribute_arg 1 0 in
        let! close := expect RParen ExpectedClosingParen in
        let! site := end_mark args_mark in
        give (Some (ApArguments site open (fst arguments) close))
      else give None
  end.

Definition parse_attributes : P Attributes :=
  loop (λ attributes,
    let! go := at_ Hash &&! continue_parsing in
    if negb go then leave attributes
    else
      let! mark := begin in
      let! hash := take_token in
      let! open := expect LBracket UnexpectedToken in
      let! path := parse_path in
      let! payload := parse_attribute_payload in
      let! close := expect RBracket UnexpectedToken in
      let! site := end_mark mark in
      again (attributes ++ [MkAttribute site hash open path payload close])) [].

(** ** Path expressions *)
(** Whether generic arguments follow the path, and if so whether a [::] comes first. *)
Definition path_application : P (option bool) :=
  let! c := cursor in
  let! r := nth_nontrivia_kind_from c in
  let separator := is_some_kind ColonColon (fst r) in
  let! angle :=
    (if is_some_kind Lt (fst r) then give (true, snd r)
     else if separator then
       let! r := nth_nontrivia_kind_from (snd r) in give (is_some_kind Lt (fst r), snd r)
     else give (false, snd r)) in
  if negb (fst angle) then give None
  else
    let! group := skip_angle_group (snd angle) in
    if negb (fst group) then give None
    else
      let! r := nth_nontrivia_kind_from (snd group) in
      let applied := if separator then negb (is_some_kind LParen (fst r)) else is_some_kind ColonColon (fst r) in
      give (if applied then Some separator else None).

Definition parse_path_expr : P (Built PathExpr) :=
  let! angle := at_ Lt in
  if angle then
    let! mark := begin in
    let! qualified := parse_qualified_type in
    end_mark mark ;;! present_here (PeQualified (fst qualified))
  else
    let! mark := begin in
    let! path := parse_path in
    let! application := path_application in
    match application with
    | Some separator =>
        let! application_separator := thenM separator take_token in
        let! arguments := parse_generic_arg_list in
        let! separator := eat ColonColon in
        let! member := mapO separator (λ separator,
          let! name := parse_name ExpectedFunctionName in give (MkPathMember separator name)) in
        let! site := end_mark mark in
        present_here (PeApplied site path application_separator (fst arguments) member)
    | None =>
        end_mark mark ;;! required_here (required_map PePlain path)
    end.
End grammar.
