(* ===== verification/GrammarExpr.v ===== *)
(** * Patterns and expressions

    Models [grammar/patterns.rs] and [grammar/expr.rs] of [kagari-syntax/src/parser/].
    The climbing of [parse_binary] recurs on the precedence, which eleven levels bound. *)
From S2P Require Import Prelude Text Token Lexical Syntax ParserCore GrammarTypes.
Import TokenKind.
Open Scope nat_scope.

Definition range_kinds : list kind := [DotDot; DotDotEq].

Section grammar.
Context (G : Grammar).

(** ** Patterns *)
Definition pattern_starts : P bool := path_starts ||! at_any (LParen :: literal_kinds).
Definition parse_binding_pattern : P (Built Pattern) := nested (single_pattern G).
Definition parse_match_pattern : P (Built Pattern) := nested (pattern_alternatives G).

Definition begin_from {T} `{NodeData T} (built : Built T) (d : nat) : P Mark :=
  let! c := cursor in let! first := first_of built c in begin_at first d.

Definition parse_tuple_pattern : P (Built Pattern) :=
  let! mark := begin in
  let! open := take_token in
  let! empty := at_ RParen in
  let! first := thenM (negb empty) parse_match_pattern in
  let! comma := at_ Comma in
  match first, comma with
  | Some first, false =>
      let! close := expect RParen ExpectedClosingParen in
      let! site := end_mark mark in
      present_here (PatGrouped site open (node first) close)
  | first, _ =>
      let! elements :=
        (match first with
         | Some first =>
             let! separator := eat_separator in
             let! rest := list_ RParen pattern_starts parse_match_pattern 1 1 in
             give (MkListEntry (node first) separator :: fst rest)
         | None => give []
         end) in
      let! close := expect RParen ExpectedClosingParen in
      let! site := end_mark mark in
      present_here (PatTuple site open elements close)
  end.

Definition parse_pattern_field : P (Built PatternField) :=
  let! mark := begin in
  let! name := parse_name ExpectedFieldName in
  let! colon := eat Colon in
  let! pattern := mapO colon (λ colon,
    let! pattern := parse_match_pattern in give (MkFieldPattern colon (node pattern))) in
  let! site := end_mark mark in
  present_here (MkPatternField site name pattern).

(** The rounds of [parse_struct_pattern]: the fields and the rest found so far. *)
Definition struct_pattern_round (acc : SeparatedList PatternField * option PatternRest)
    : P ((SeparatedList PatternField * option PatternRest) + (SeparatedList PatternField * option PatternRest)) :=
  let '(fields, rest) := acc in
  let! go := notM (at_any [RBrace; Eof]) &&! continue_parsing in
  if negb go then leave acc
  else
    let! dots := at_ DotDot in
    let! ident := at_ Ident in
    if dots then
      match rest with
      | Some _ =>
          position 4 0 ;;!
          error_here UnexpectedToken ;;!
          bump_as_error ;;!
          let! comma := at_ Comma in
          (if comma then bump_as_error else give tt) ;;! again acc
      | None =>
          let! dots := take_token in
          let! comma := eat Comma in
          again (fields, Some (MkPatternRest dots comma))
      end
    else if ident then
      match rest with
      | Some _ =>
          position 4 0 ;;!
          error_here UnexpectedToken ;;!
          rejected parse_pattern_field ;;!
          let! comma := at_ Comma in
          if comma then bump_as_error ;;! again acc else leave acc
      | None =>
          let! field := parse_pattern_field in
          let! separator := eat_separator in
          let acc := (fields ++ [MkListEntry (node field) separator], rest) in
          match separator with Some _ => again acc | None => leave acc end
      end
    else leave acc.

Definition parse_struct_pattern (path : Built PathExpr) : P (Built Pattern) :=
  let! mark := begin_from path (depth path) in
  let! open := take_token in
  let! body := loop struct_pattern_round ([], None) in
  let! close := expect RBrace ExpectedBlockEnd in
  let! site := end_mark mark in
  match node path with
  | Present path => present_here (PatStruct site path open (fst body) (snd body) close)
  | Missing at_ => give (built_missing at_)
  end.

Definition parse_path_pattern : P (Built Pattern) :=
  let! path := parse_path_expr G in
  let! paren := at_ LParen in
  let! brace := at_ LBrace in
  if paren then
    let! mark := begin_from path (depth path) in
    let! open := take_token in
    let! elements := list_ RParen pattern_starts parse_match_pattern 2 0 in
    let! close := expect RParen ExpectedClosingParen in
    let! site := end_mark mark in
    match node path with
    | Present path => present_here (PatTupleStruct site path open (fst elements) close)
    | Missing at_ => give (built_missing at_)
    end
  else if brace then parse_struct_pattern path
  else
    let! mark := begin_from path (depth path) in
    end_mark mark ;;! required_here (required_map PatPath (node path)).

(** What comes before a range operator, and what follows it. *)
Definition parse_pattern_head : P (Built Pattern) :=
  let! k := current_kind in
  let! wildcard :=
    (if is_kind k Ident then let! t := current_text in give (bool_decide (t = text_of "_")) else give false) in
  if wildcard : bool then
    let! t := take_token in account_depth 1 ;;! present_here (PatWildcard t)
  else
    let! path := path_starts in
    if path then parse_path_pattern
    else if one_of literal_kinds k then
      let! mark := begin in
      let! literal := parse_literal in
      end_mark mark ;;! present_here (PatLiteral literal)
    else if is_kind k LParen then parse_tuple_pattern
    else built_missing_here ExpectedMatchPattern.

Definition parse_pattern_bound : P (Required PatternBound) :=
  let! path := path_starts in
  let! literal := at_any literal_kinds in
  if path then let! p := parse_path_expr G in give (required_map PbPath (node p))
  else if literal then let! l := parse_literal in give (Present (PbLiteral l))
  else missing_here ExpectedMatchPattern.

Definition parse_single_pattern : P (Built Pattern) :=
  let! first := parse_pattern_head in
  let! range := at_any range_kinds in
  if negb range then give first
  else
    let! c := cursor in
    let! first_token := first_of first c in
    let! operator_start := cursor in
    let! mark := begin_at first_token (depth first - 1) in
    let! inclusive := at_ DotDotEq in
    let! op := operator (if inclusive : bool then RangeInclusive else RangeExclusive) 1 in
    let! start :=
      (match node first with
       | Present (PatLiteral value) => give (Present (PbLiteral value))
       | Present (PatPath value) => give (Present (PbPath value))
       | Missing at_ => give (Missing at_)
       | Present _ =>
           unexpected_range first_token operator_start ;;!
           missing_here ExpectedMatchPattern
       end) in
    let! end_ := parse_pattern_bound in
    let! site := end_mark mark in
    present_here (PatRange site start op end_).

Definition parse_more_alternatives : P (list PatternAlternative) :=
  loop (λ alternatives,
    let! go := at_ Pipe &&! continue_parsing in
    if negb go then leave alternatives
    else
      let! separator := take_token in
      let! pattern := parse_single_pattern in
      again (alternatives ++ [MkPatternAlternative separator (node pattern)])) [].

Definition parse_pattern_alternatives : P (Built Pattern) :=
  let! first := parse_single_pattern in
  let! pipe := at_ Pipe in
  if negb pipe then give first
  else
    let! mark := begin_from first (depth first) in
    let! alternatives := parse_more_alternatives in
    let! site := end_mark mark in
    present_here (PatOr site (node first) alternatives).

(** ** Guarded entries *)
Definition expr_kinds : list kind :=
  [Ident; Lt; CrateKw; SelfKw; SuperKw; Number; Float; TokenKind.String; Char; ByteChar; ByteString;
   FormatStart; TrueKw; FalseKw; IfKw; MatchKw; LoopKw; LParen; LBracket; Minus; Bang; Pipe; PipePipe;
   AsyncKw; DotDot; DotDotEq; LBrace].
Definition expr_starts : P bool := at_any expr_kinds.
Definition parse_expr : P (Built Expr) := nested (range_inner G).
Definition parse_condition_expr : P (Built Expr) := with_struct_literals false parse_expr.
Definition parse_prefix : P (Built Expr) := nested (prefix_inner G).
Definition parse_if : P (Built Expr) := nested (if_inner G).
Definition parse_block : P (Built BlockExpr) := with_struct_literals true (nested (block_inner G)).

(** ** Conditions *)
Definition parse_condition : P (Built Condition) :=
  let! b := at_ ValKw in
  if b then
    let! mark := begin in
    let! keyword := take_token in
    let! pattern := parse_match_pattern in
    let! equal := expect Eq UnexpectedToken in
    let! initializer := parse_condition_expr in
    let! site := end_mark mark in
    present_here (CoBinding site keyword (node pattern) equal (node initializer))
  else let! expression := parse_condition_expr in give (map_built CoExpression expression).

Definition parse_condition_body : P (Built Condition * Built BlockExpr) :=
  let! at_start := anchor in
  let! condition := parse_condition in
  let! brace := at_ LBrace in
  match brace, node condition with
  | false, Present (CoExpression (ExBlock body)) =>
      error_here ExpectedExpression ;;!
      give (built_missing at_start, built_present body (depth condition))
  | _, _ => let! body := parse_block in give (condition, body)
  end.

(** ** Literals with fields *)
Definition parse_struct_entry : P (Built StructEntry) :=
  let! mark := begin in
  let! dots := at_ DotDot in
  if dots then
    let! dots := take_token in
    let! starts := expr_starts &&! notM (at_any range_kinds) in
    let! value := (if starts then parse_expr else built_missing_here ExpectedExpression) in
    let! site := end_mark mark in
    present_here (SeUpdate site dots (node value))
  else
    let! name := parse_name ExpectedFieldName in
    let! colon := eat Colon in
    let! value := mapO colon (λ colon,
      let! expression := parse_expr in give (MkFieldValue colon (node expression))) in
    let! site := end_mark mark in
    present_here (SeField site name value).

(** [if self.expr_starts() { self.rejected(Self::parse_expr); }] after a rejected [..=]. *)
Definition reject_range_tail : P unit :=
  bump_as_error ;;!
  let! starts := expr_starts in
  if starts then rejected parse_expr else give tt.

Definition reject_update : P unit :=
  error_here UnexpectedToken ;;!
  let! dots := at_ DotDot in
  if dots then rejected parse_struct_entry else reject_range_tail.

Definition reject_struct_update_tail (entry : nat) : P unit :=
  loop (λ _ : unit,
    let! go := continue_parsing in
    if negb go then leave tt
    else
      position 1 entry ;;!
      let! comma := at_ Comma in
      (if comma then error_here UnexpectedToken ;;! bump_as_error else give tt) ;;!
      let! field := at_ Ident &&! (give comma ||!
        (let! k := nth_nontrivia_kind 1 in give (some_one_of [Colon; Comma; RBrace] k))) in
      let! range := at_any range_kinds in
      if field then
        (if negb comma then error_here UnexpectedToken else give tt) ;;!
        rejected parse_struct_entry ;;! again tt
      else if range then reject_update ;;! again tt
      else leave tt) tt.

Definition parse_struct_fields : P (SeparatedList StructEntry) :=
  loop (λ entries,
    let! go := at_ Ident &&! continue_parsing in
    if negb go then leave entries
    else
      position 1 (length entries) ;;!
      let! field := parse_struct_entry in
      let! separator := eat_separator in
      let entries := entries ++ [MkListEntry (node field) separator] in
      match separator with
      | Some _ => again entries
      | None =>
          let! range := at_any range_kinds in
          (if range then error_here UnexpectedToken else give tt) ;;! leave entries
      end) [].

Definition parse_field_initializers : P (FieldInitList * nat) :=
  let! mark := begin in
  let! open := expect LBrace ExpectedStructLiteralBodyStart in
  let! entries := parse_struct_fields in
  let! range := at_any range_kinds in
  let! entries :=
    (if range then
       position 1 (length entries) ;;!
       let! dots := at_ DotDot in
       let! entries :=
         (if dots then
            let! base := parse_struct_entry in give (entries ++ [MkListEntry (node base) None])
          else error_here UnexpectedToken ;;! reject_range_tail ;;! give entries) in
       reject_struct_update_tail (length entries) ;;! give entries
     else give entries) in
  let! close := expect RBrace ExpectedBlockEnd in
  let! site := end_mark mark in
  let! d := completed_depth in
  give (MkFieldInitList site open entries close, d).

Definition generic_struct_ahead : P bool :=
  let! allow := allow_struct_literals in
  if negb allow then give false
  else
    let! c := cursor in
    let! r := nth_nontrivia_kind_from c in
    if negb (is_some_kind Lt (fst r)) then give false
    else
      let! group := skip_angle_group (snd r) in
      if negb (fst group) then give false
      else let! r := nth_nontrivia_kind_from (snd group) in give (is_some_kind LBrace (fst r)).

Definition parse_path_or_struct : P (Built Expr) :=
  let! path := parse_path_expr G in
  let! generic_struct := generic_struct_ahead in
  let! literal := allow_struct_literals &&! (give generic_struct ||! at_ LBrace) in
  if literal then
    let! mark := begin_from path (depth path) in
    let! arguments := thenM generic_struct (parse_generic_arg_list G) in
    let! fields := parse_field_initializers in
    let! site := end_mark mark in
    present_here (ExStruct site (node path) (fst <$> arguments) (fst fields))
  else give (map_built ExPath path).

Definition parse_parenthesized : P (Built Expr) :=
  let! mark := begin in
  let! open := take_token in
  let! empty := at_ RParen in
  let! first := thenM (negb empty) parse_expr in
  let! comma := at_ Comma in
  match first, comma with
  | Some first, false =>
      let! close := expect RParen ExpectedClosingParen in
      let! site := end_mark mark in
      present_here (ExParen site open (node first) close)
  | first, _ =>
      let! elements :=
        (match first with
         | Some first =>
             let! separator := eat_separator in
             let! rest := list_ RParen expr_starts parse_expr 1 1 in
             give (MkListEntry (node first) separator :: fst rest)
         | None => give []
         end) in
      let! close := expect RParen ExpectedClosingParen in
      let! site := end_mark mark in
      present_here (ExTuple site open elements close)
  end.

Definition parse_array : P (Built Expr) :=
  let! mark := begin in
  let! open := take_token in
  let! empty := at_ RBracket in
  let! first := thenM (negb empty) parse_expr in
  let! separator := eat Semi in
  let! contents :=
    (match separator with
     | Some separator =>
         let! count := parse_expr in
         let! value := (match first with
                        | Some first => give (node first)
                        | None => let! at_ := anchor in give (Missing at_)
                        end) in
         give (AcRepeat value separator (node count))
     | None =>
         let! elements :=
           (match first with
            | Some first =>
                let! separator := eat_separator in
                let entry := MkListEntry (node first) separator in
                match separator with
                | Some _ =>
                    let! rest := list_ RBracket expr_starts parse_expr 1 1 in give (entry :: fst rest)
                | None => give [entry]
                end
            | None => give []
            end) in
         give (AcList elements)
     end) in
  let! close := expect RBracket ExpectedClosingBracket in
  let! site := end_mark mark in
  present_here (ExArray site open contents close).

(** ** Control flow *)
Definition parse_match_arm : P (Built MatchArm) :=
  let! mark := begin in
  let! pattern := parse_match_pattern in
  let! keyword := eat IfKw in
  let! guard := mapO keyword (λ keyword,
    let! expression := parse_expr in give (MkMatchGuard keyword (node expression))) in
  let! arrow := expect FatArrow UnexpectedToken in
  let! expression := parse_expr in
  let! site := end_mark mark in
  present_here (MkMatchArm site (node pattern) guard arrow (node expression)).

Definition is_present {T} (r : Required T) : bool :=
  match r with Present _ => true | Missing _ => false end.

Definition parse_match : P (Built Expr) :=
  let! mark := begin in
  let! keyword := take_token in
  let! scrutinee := parse_condition_expr in
  let! arms_mark := begin in
  let! open := expect LBrace ExpectedStructLiteralBodyStart in
  let! allow := allow_struct_literals in
  let! arms := with_struct_literals (is_present open || allow)
    (list_ RBrace pattern_starts parse_match_arm 1 0) in
  let! close := expect RBrace ExpectedBlockEnd in
  let! arms_site := end_mark arms_mark in
  let! site := end_mark mark in
  present_here (ExMatch site keyword (node scrutinee) (MkMatchArmList arms_site open (fst arms) close)).

Definition parse_loop_expr : P (Built Expr) :=
  let! mark := begin in
  let! keyword := take_token in
  let! body := parse_block in
  let! site := end_mark mark in
  present_here (ExLoop site keyword (node body)).

Definition parse_async_block : P (Built Expr) :=
  let! mark := begin in
  let! keyword := take_token in
  let! brace := at_ LBrace in
  let! body := (if brace then parse_block else built_missing_here ExpectedExpression) in
  let! site := end_mark mark in
  present_here (ExAsyncBlock site keyword (node body)).

(** ** Closures and strings *)
Definition closure_param_starts : P bool := at_ Ident.
Definition parse_closure_param : P (Built ClosureParam) :=
  let! mark := begin in
  let! name := parse_name ExpectedFunctionName in
  let! annotation := parse_annotation G in
  let! site := end_mark mark in
  present_here (MkClosureParam site name annotation).

Definition parse_closure_params : P (Required ClosureParams) :=
  let! empty := at_ PipePipe in
  let! pipe := at_ Pipe in
  if empty then let! t := take_token in give (Present (CpEmpty t))
  else if pipe then
    let! list_mark := begin in
    let! open := take_token in
    let! parameters := list_ Pipe closure_param_starts parse_closure_param 1 0 in
    let! close := expect Pipe ExpectedExpression in
    let! site := end_mark list_mark in
    give (Present (CpList site open (fst parameters) close))
  else missing_here ExpectedExpression.

Definition parse_closure : P (Built Expr) :=
  let! mark := begin in
  let! async_keyword := eat AsyncKw in
  let! parameters := parse_closure_params in
  let! body := parse_expr in
  let! site := end_mark mark in
  present_here (ExClosure site async_keyword parameters (node body)).

Definition parse_interpolation : P StringPart :=
  let! hole_mark := begin in
  let! open := take_token in
  position 1 0 ;;!
  let! ident := at_ Ident in
  let! expression :=
    (if ident then let! p := parse_path_expr G in give (node p)
     else
       error_here (InvalidLiteral "interpolation requires {name} or {name:?} without whitespace; bind expressions outside the String") ;;!
       skip_to [FormatClose; FormatEnd; Eof] ;;!
       let! at_ := anchor in give (Missing at_)) in
  let! colon := eat Colon in
  let! debug := mapO colon (λ colon,
    let! question := expect Question UnexpectedToken in give (MkDebugMarker colon question)) in
  let! close := expect FormatClose (InvalidLiteral "unterminated interpolation; expected `}`") in
  let! site := end_mark hole_mark in
  give (SpHole site open expression debug close).

Definition parse_string_parts : P (list StringPart) :=
  loop (λ parts,
    let! go := notM (at_any [FormatEnd; Eof]) &&! continue_parsing in
    if negb go then leave parts
    else
      position 1 (length parts) ;;!
      let! is_text := at_ FormatText in
      let! is_hole := at_ FormatOpen in
      if is_text then let! t := take_token in again (parts ++ [SpText t])
      else if is_hole then let! hole := parse_interpolation in again (parts ++ [hole])
      else error_here UnexpectedToken ;;! bump_as_error ;;! again parts) [].
Definition parse_string : P (Built Expr) :=
  let! mark := begin in
  let! open := take_token in
  let! parts := parse_string_parts in
  let! close := expect FormatEnd (InvalidLiteral "unterminated String literal; expected closing quote") in
  let! site := end_mark mark in
  present_here (ExString site open parts close).

(** ** Atoms *)
Definition parse_atom : P (Built Expr) :=
  let! k := current_kind in
  if one_of [Ident; CrateKw; SelfKw; SuperKw; Lt] k then parse_path_or_struct
  else if one_of [Number; Float; TokenKind.String; Char; ByteChar; ByteString; TrueKw; FalseKw] k then
    let! literal := parse_literal in present_here (ExLiteral literal)
  else if is_kind k LBrace then
    let! block := parse_block in give (map_built ExBlock block)
  else if is_kind k LParen then with_struct_literals true parse_parenthesized
  else if is_kind k LBracket then with_struct_literals true parse_array
  else if is_kind k IfKw then parse_if
  else if is_kind k MatchKw then parse_match
  else if is_kind k LoopKw then parse_loop_expr
  else
    let! async_block :=
      (if is_kind k AsyncKw
       then let! next := nth_nontrivia_kind 1 in give (negb (some_one_of [Pipe; PipePipe] next))
       else give false) in
    if async_block : bool then parse_async_block
    else if one_of [AsyncKw; Pipe; PipePipe] k then parse_closure
    else if is_kind k FormatStart then parse_string
    else if is_kind k Unknown then
      let! mark := begin in
      error_here ExpectedExpression ;;!
      bump_as_error ;;!
      let! site := end_mark mark in
      present_here (ExError site)
    else built_missing_here ExpectedExpression.

(** ** Postfix chains *)
Definition postfix_kinds : list kind := [LParen; ColonColon; Dot; Question; LBracket].

(** The generic arguments of a call, with their depth. *)
Definition parse_call_application : P (option (CallApplication * nat)) :=
  let! separator := eat ColonColon in
  mapO separator (λ separator,
    let! arguments := parse_call_generic_arg_list G in
    give (MkCallApplication (Some separator) (fst arguments), snd arguments)).

(** A round's node, or [None] once [abandon] has ended the chain. *)
Definition parse_call (mark : Mark) (lhs : Built Expr) (suffix : nat) : P (option Expr) :=
  let! application := parse_call_application in
  let application_depth := match application with Some a => snd a | None => 0 end in
  let! open := expect LParen ExpectedClosingParen in
  let! allow := allow_struct_literals in
  let! arguments := with_struct_literals (is_present open || allow)
    (list_ RParen expr_starts parse_expr 3 0) in
  let! close := expect RParen ExpectedClosingParen in
  let! admitted := admit_depth (depth lhs `max` snd arguments `max` application_depth + 1) suffix in
  if negb admitted then abandon mark suffix ;;! give None
  else
    let! site := end_mark mark in
    give (Some (ExCall site (node lhs) (fst <$> application) open (fst arguments) close)).

Definition parse_member (mark : Mark) (lhs : Built Expr) : P Expr :=
  let! dot := take_token in
  let! await := at_ AwaitKw in
  if await then
    let! keyword := take_token in
    let! site := end_mark mark in
    give (ExAwait site (node lhs) dot (Present keyword))
  else
    let! name := parse_name ExpectedFieldName in
    let! site := end_mark mark in
    give (ExField site (node lhs) dot name).

Definition parse_index (mark : Mark) (lhs : Built Expr) (suffix : nat) : P (option Expr) :=
  let! open := take_token in
  let! index := with_struct_literals true parse_expr in
  let! close := expect RBracket ExpectedClosingBracket in
  let! admitted := admit_depth (depth lhs `max` depth index + 1) suffix in
  if negb admitted then abandon mark suffix ;;! give None
  else
    let! site := end_mark mark in
    give (Some (ExIndex site (node lhs) open (node index) close)).

(** The arms of a round; no other kind was admitted. *)
Definition postfix_node (mark : Mark) (lhs : Built Expr) (suffix : nat) : P (option Expr) :=
  let! k := current_kind in
  if one_of [LParen; ColonColon] k then parse_call mark lhs suffix
  else if is_kind k Dot then let! e := parse_member mark lhs in give (Some e)
  else if is_kind k Question then
    let! question := take_token in
    let! site := end_mark mark in
    give (Some (ExPropagate site (node lhs) question))
  else if is_kind k LBracket then parse_index mark lhs suffix
  else crash.

Definition postfix_round (lhs : Built Expr) : P (Built Expr + Built Expr) :=
  let! suffix := cursor in
  let! postfix := at_any postfix_kinds in
  let! bare_path := at_ ColonColon &&! (let! k := nth_nontrivia_kind 1 in give (negb (is_some_kind Lt k))) in
  if negb postfix || bare_path then leave lhs
  else
    let! go := continue_parsing &&! admit_depth (depth lhs + 1) suffix in
    if negb go then leave lhs
    else
      let! first := first_of lhs suffix in
      let! mark := begin_at first (depth lhs) in
      let! expression := postfix_node mark lhs suffix in
      match expression with
      | None => leave lhs
      | Some e => let! lhs := present_here e in again lhs
      end.
Definition parse_postfix : P (Built Expr) := let! lhs := parse_atom in loop postfix_round lhs.

Definition parse_prefix_inner : P (Built Expr) :=
  let! prefix := at_any [Minus; Bang] in
  if prefix then
    let! mark := begin in
    let! minus := at_ Minus in
    let! op := operator (if minus : bool then OpNegate else OpNot) 1 in
    let! expression := parse_prefix in
    let! site := end_mark mark in
    present_here (ExPrefix site (Present op) (node expression))
  else parse_postfix.

(** ** Casts and binary operators *)
Definition cast_round (expression : Built Expr) : P (Built Expr + Built Expr) :=
  let! go := at_ AsKw &&! continue_parsing in
  if negb go then leave expression
  else
    let! suffix := cursor in
    let! admitted := admit_depth (depth expression + 1) suffix in
    if negb admitted then leave expression
    else
      let! first := first_of expression suffix in
      let! mark := begin_at first (depth expression) in
      let! keyword := take_token in
      let! ty := parse_type_ref G in
      let! admitted := admit_depth (depth expression `max` depth ty + 1) suffix in
      if negb admitted then abandon mark suffix ;;! leave expression
      else
        let! site := end_mark mark in
        let! e := present_here (ExCast site (node expression) keyword (node ty)) in again e.
Definition parse_cast : P (Built Expr) := let! expression := parse_prefix in loop cast_round expression.

Definition binary_of (k : kind) (shift : option SyntaxKind.kind) : option (nat * BinaryOp * nat) :=
  match k, shift with
  | PipePipe, _ => Some (0, BOr, 1)
  | AmpAmp, _ => Some (1, BAnd, 1)
  | EqEq, _ => Some (2, BEqual, 1)
  | NotEq, _ => Some (2, BNotEqual, 1)
  | IdentityEq, _ => Some (2, BIdentityEqual, 1)
  | IdentityNotEq, _ => Some (2, BIdentityNotEqual, 1)
  | Lt, Some SyntaxKind.Shl => Some (8, BShiftLeft, 2)
  | Gt, Some SyntaxKind.Shr => Some (8, BShiftRight, 2)
  | Lt, None => Some (3, BLess, 1)
  | Le, _ => Some (3, BLessEqual, 1)
  | Gt, None => Some (3, BGreater, 1)
  | Ge, _ => Some (3, BGreaterEqual, 1)
  | Pipe, _ => Some (4, BBitOr, 1)
  | Caret, _ => Some (5, BBitXor, 1)
  | Amp, _ => Some (6, BBitAnd, 1)
  | Plus, _ => Some (9, BAdd, 1)
  | Minus, _ => Some (9, BSubtract, 1)
  | Star, _ => Some (10, BMultiply, 1)
  | Slash, _ => Some (10, BDivide, 1)
  | Percent, _ => Some (10, BRemainder, 1)
  | _, _ => None
  end.
Definition binary_operator : P (option (nat * BinaryOp * nat)) :=
  gets (λ s, binary_of (kind_now s) (shift_now s)).

Definition MAX_PRECEDENCE : nat := 10.
(** [climb] is [parse_binary] at the next precedence. *)
Definition binary_round (climb : nat → P (Built Expr)) (minimum : nat) (lhs : Built Expr)
    : P (Built Expr + Built Expr) :=
  let! found := binary_operator in
  match found with
  | None => leave lhs
  | Some (precedence, operation, pieces) =>
      let! go := give (negb (precedence <? minimum)) &&! continue_parsing in
      if negb go then leave lhs
      else
        let! suffix := cursor in
        let! admitted := admit_depth (depth lhs + 1) suffix in
        if negb admitted then leave lhs
        else
          let! first := first_of lhs suffix in
          let! mark := begin_at first (depth lhs) in
          let! op := operator operation pieces in
          let! rhs := climb (precedence + 1) in
          let! admitted := admit_depth (depth lhs `max` depth rhs + 1) suffix in
          if negb admitted then abandon mark suffix ;;! leave lhs
          else
            let! site := end_mark mark in
            let! lhs := present_here (ExBinary site (node lhs) (Present op) (node rhs)) in again lhs
  end.
Fixpoint parse_binary_within (levels minimum : nat) : P (Built Expr) :=
  match levels with
  | 0 => exhausted
  | S levels =>
      let! lhs := parse_cast in loop (binary_round (parse_binary_within levels) minimum) lhs
  end.
(** Every recursion raises the minimum, and no operator reaches [MAX_PRECEDENCE + 1]. *)
Definition parse_binary (minimum : nat) : P (Built Expr) :=
  parse_binary_within (S (S MAX_PRECEDENCE) - minimum) minimum.

Definition parse_range_start : P (option (Built Expr)) :=
  let! leading := at_any range_kinds in thenM (negb leading) (parse_binary 0).
Definition begin_range (lhs : option (Built Expr)) : P Mark :=
  let! c := cursor in
  match lhs with
  | Some lhs => let! first := first_of lhs c in begin_at first (depth lhs)
  | None => begin_at c 0
  end.

Definition parse_range : P (Built Expr) :=
  let! lhs := parse_range_start in
  let! range := at_any range_kinds in
  if negb range then
    match lhs with
    | Some lhs => give lhs
    | None => let! at_ := anchor in give (built_missing at_)
    end
  else
    let! mark := begin_range lhs in
    let! inclusive := at_ DotDotEq in
    let! op := operator (if inclusive : bool then RangeInclusive else RangeExclusive) 1 in
    let! follows := give inclusive ||! (expr_starts &&! (notM (at_ LBrace) ||! allow_struct_literals)) in
    let! rhs := thenM follows (parse_binary 0) in
    let! site := end_mark mark in
    present_here (ExRange site (lhs ≫= λ lhs, required_ref (node lhs)) op (node <$> rhs)).

Definition parse_if_inner : P (Built Expr) :=
  let! mark := begin in
  let! keyword := take_token in
  let! branch := parse_condition_body in
  let! else_keyword := eat ElseKw in
  let! else_clause := mapO else_keyword (λ keyword,
    let! again_if := at_ IfKw in
    let! brace := at_ LBrace in
    let! expression :=
      (if again_if then parse_if
       else if brace then parse_atom
       else built_missing_here ExpectedExpression) in
    give (MkElseClause keyword (node expression))) in
  let! site := end_mark mark in
  present_here (ExIf site keyword (node (fst branch)) (node (snd branch)) else_clause).
End grammar.
