(* ===== verification/GrammarItems.v ===== *)
(** * Statements, items and the entry point

    Models [grammar/stmt.rs], [grammar/items.rs] and [grammar/members.rs] of
    [kagari-syntax/src/parser/], and [parse] of [kagari-syntax/src/parser.rs].  [grammar]
    ties the recursion of the productions: its argument bounds the guarded entries that
    are active at once, which [ParseLimits::max_nesting] bounds in the program. *)
From S2P Require Import Prelude Text Token Lexical Syntax ParserCore GrammarTypes GrammarExpr.
Import TokenKind.
Open Scope nat_scope.

Section grammar.
Context (G : Grammar).

(** ** Simple statements *)
Definition parse_binding_kind (diagnostic : DiagnosticKind) : P (Required BindingKeyword) :=
  let! b := at_any [ValKw; VarKw] in
  if b then
    let! val := at_ ValKw in
    let! t := take_token in
    give (Present (MkBindingKeyword (if val : bool then WrVal else WrVar) t))
  else missing_here diagnostic.

Definition parse_binding_stmt : P (Built Stmt) :=
  let! mark := begin in
  let! binding := parse_binding_kind ExpectedBindingKeyword in
  let! pattern := parse_binding_pattern G in
  let! pipe := at_ Pipe in
  (if pipe then position 2 0 ;;! error_here UnexpectedToken ;;! skip_to [Colon; Eq; Semi; RBrace; Eof]
   else give tt) ;;!
  let! annotation := parse_annotation G in
  let! equal := eat Eq in
  let! initializer := mapO equal (λ equal,
    let! expression := parse_expr G in give (MkInitializer equal (node expression))) in
  let! terminator := expect Semi ExpectedStatementTerminator in
  let! site := end_mark mark in
  present_here (StBinding site binding (node pattern) annotation initializer terminator).

(** The optional value of [return] and [break]. *)
Definition parse_value : P (option Expr) :=
  let! semi := at_ Semi in
  let! value := thenM (negb semi) (parse_expr G) in
  give (value ≫= λ value, required_ref (node value)).

Definition parse_return : P (Built Stmt) :=
  let! mark := begin in
  let! keyword := take_token in
  let! value := parse_value in
  let! terminator := expect Semi ExpectedStatementTerminator in
  let! site := end_mark mark in
  present_here (StReturn site keyword value terminator).

Definition assignment_of (k : kind) (shift : option SyntaxKind.kind) : option (AssignmentOp * nat) :=
  match k, shift with
  | Eq, _ => Some (AsAssign, 1)
  | PlusEq, _ => Some (AsCompound BAdd, 1)
  | MinusEq, _ => Some (AsCompound BSubtract, 1)
  | StarEq, _ => Some (AsCompound BMultiply, 1)
  | SlashEq, _ => Some (AsCompound BDivide, 1)
  | PercentEq, _ => Some (AsCompound BRemainder, 1)
  | AmpEq, _ => Some (AsCompound BBitAnd, 1)
  | PipeEq, _ => Some (AsCompound BBitOr, 1)
  | CaretEq, _ => Some (AsCompound BBitXor, 1)
  | _, Some SyntaxKind.ShlEq => Some (AsCompound BShiftLeft, 2)
  | _, Some SyntaxKind.ShrEq => Some (AsCompound BShiftRight, 2)
  | _, _ => None
  end.
Definition assignment_operator : P (option (AssignmentOp * nat)) :=
  gets (λ s, assignment_of (kind_now s) (shift_now s)).

Definition parse_assignment (target : Built Expr) : P (Built Stmt) :=
  let! mark := begin_from target (depth target) in
  let! found := assignment_operator in
  let! found := expected found in
  let! op := operator (fst found) (snd found) in
  let! value := parse_expr G in
  let! terminator := expect Semi ExpectedStatementTerminator in
  let! site := end_mark mark in
  present_here (StAssign site (node target) (Present op) (node value) terminator).

Definition parse_while : P (Built Stmt) :=
  let! mark := begin in
  let! keyword := take_token in
  let! branch := parse_condition_body G in
  let! site := end_mark mark in
  present_here (StWhile site keyword (node (fst branch)) (node (snd branch))).

Definition parse_loop_stmt : P (Built Stmt) :=
  let! mark := begin in
  let! keyword := take_token in
  let! body := parse_block G in
  let! site := end_mark mark in
  present_here (StLoop site keyword (node body)).

Definition parse_for : P (Built Stmt) :=
  let! mark := begin in
  let! keyword := take_token in
  let! pattern := parse_match_pattern G in
  let! in_keyword := expect InKw UnexpectedToken in
  let! iterable := parse_condition_expr G in
  let! body := parse_block G in
  let! site := end_mark mark in
  present_here (StFor site keyword (node pattern) in_keyword (node iterable) (node body)).

Definition parse_break : P (Built Stmt) :=
  let! mark := begin in
  let! keyword := take_token in
  let! value := parse_value in
  let! terminator := expect Semi ExpectedStatementTerminator in
  let! site := end_mark mark in
  present_here (StBreak site keyword value terminator).

Definition parse_continue : P (Built Stmt) :=
  let! mark := begin in
  let! keyword := take_token in
  let! terminator := expect Semi ExpectedStatementTerminator in
  let! site := end_mark mark in
  present_here (StContinue site keyword terminator).

(** ** Functions, constants and statics *)
Definition parse_function : P (Built FnDef) :=
  let! mark := begin in
  let! attributes := parse_attributes G in
  let! visibility := parse_visibility in
  let! async_keyword := eat AsyncKw in
  let! keyword := expect FnKw ExpectedFunctionKeyword in
  let! name := parse_name ExpectedFunctionName in
  let! generics := parse_generic_params G in
  let! parameters := parse_parameters G false in
  let! result := parse_return_type G in
  let! where_clause := parse_where_clause G in
  let! declaration := in_declarations &&! at_ Semi in
  let! body :=
    (if declaration then let! t := take_token in give (FbDeclaration (Present t))
     else let! body := parse_block G in give (FbBlock (node body))) in
  let! site := end_mark mark in
  present_here (MkFnDef site attributes visibility async_keyword keyword name generics (fst parameters)
                  result where_clause body).

Definition parse_const (associated : bool) : P ConstDef :=
  let! mark := begin in
  let! attributes := parse_attributes G in
  let! visibility := parse_visibility in
  let! keyword := expect ConstKw ExpectedConstKeyword in
  let! name := parse_name ExpectedConstName in
  let! annotation :=
    (if associated then
       let! colon := expect Colon ExpectedType in
       let! ty := parse_type_ref G in give (Some (MkTypeAnnotation colon (node ty)))
     else parse_annotation G) in
  let! declaration := give associated &&! notM (at_ Eq) in
  let! initializer :=
    (if declaration then give CiDeclaration
     else
       let! equal := expect Eq ExpectedConstInitializer in
       let! value := parse_expr G in give (CiDefinition equal (node value))) in
  let! terminator := expect Semi ExpectedStatementTerminator in
  let! site := end_mark mark in
  give (MkConstDef site attributes visibility keyword name annotation initializer terminator).

Definition static_stops : list kind :=
  [RBrace; Hash; PubKw; ModKw; UseKw; AsyncKw; FnKw; TypeKw; ConstKw; StaticKw; StructKw; EnumKw;
   TraitKw; ImplKw].
Definition recover_static_tail : P unit :=
  loop (λ braces,
    let! go := notM (at_ Eof) &&! continue_parsing in
    if negb go then leave tt
    else
      let! stop := give (braces =? 0) &&! at_any static_stops in
      let! semi := give (braces =? 0) &&! at_ Semi in
      if stop then leave tt
      else if semi then bump_as_error ;;! leave tt
      else
        let! open := at_ LBrace in
        let! close := at_ RBrace in
        bump_as_error ;;!
        again (if open : bool then braces + 1 else if close : bool then braces - 1 else braces)) 0.

Definition parse_static : P StaticDef :=
  let! mark := begin in
  let! attributes := parse_attributes G in
  let! visibility := parse_visibility in
  let! keyword := expect StaticKw UnexpectedToken in
  let! binding := parse_binding_kind ExpectedBindingKeyword in
  let! name := parse_name ExpectedBindingName in
  let! colon := expect Colon ExpectedType in
  let! function := at_ FnKw &&! (let! k := nth_nontrivia_kind 1 in give (is_some_kind Ident k)) in
  let! ty := (if function then missing_here ExpectedType
              else let! ty := parse_type_ref G in give (node ty)) in
  let! equal := expect Eq ExpectedAssignmentOperator in
  let! initializer := parse_expr G in
  let! terminator := expect Semi ExpectedStatementTerminator in
  (if is_present terminator then give tt else position 9 0 ;;! recover_static_tail) ;;!
  let! site := end_mark mark in
  give (MkStaticDef site attributes visibility keyword binding name colon ty equal (node initializer)
          terminator).

(** ** Blocks *)
Definition local_function : P (Built Stmt) :=
  let! function := parse_function in give (map_built StFnDef function).

Definition is_if_or_block (r : Required Expr) : bool :=
  match r with Present (ExIf _ _ _ _ _) | Present (ExBlock _) => true | _ => false end.

(** An expression statement that is neither an assignment nor the block's tail. *)
Definition parse_expr_stmt (before : nat) (expression : Built Expr) : P (Built Stmt) :=
  let! first := first_of expression before in
  let! mark := begin_at first (depth expression) in
  let! semi := at_ Semi in
  let! terminator :=
    (if semi then let! t := take_token in give (Some (Present t))
     else if is_if_or_block (node expression) then give None
     else let! t := expect Semi ExpectedStatementTerminator in give (Some t)) in
  let! site := end_mark mark in
  present_here (StExpr site (node expression) terminator).

(** A round's statement, or the tail that ends the block. *)
Definition expression_round (before : nat) : P (option (Built Stmt) + option Expr) :=
  let! expression := parse_expr G in
  let! assignment := assignment_operator in
  match assignment with
  | Some _ => let! stmt := parse_assignment expression in again (Some stmt)
  | None =>
      let! ends := at_any [RBrace; Eof] in
      if ends then leave (required_ref (node expression))
      else let! stmt := parse_expr_stmt before expression in again (Some stmt)
  end.

Definition rejected_static : P (Built Stmt) :=
  error_here UnexpectedToken ;;!
  let! rejected := parse_static in present_here (StError (static_site rejected)).

Definition statement_round (before : nat) : P (option (Built Stmt) + option Expr) :=
  let! k := current_kind in
  let! async_fn :=
    (if is_kind k AsyncKw then let! next := nth_nontrivia_kind 1 in give (is_some_kind FnKw next)
     else give false) in
  let! attributed_fn :=
    (if one_of [Hash; PubKw] k
     then let! item := attributed_item_kind in give (some_one_of [FnKw; AsyncKw] item) else give false) in
  if is_kind k FnKw || async_fn || attributed_fn then let! stmt := local_function in again (Some stmt)
  else
    let! attributed_static :=
      (if one_of [StaticKw; Hash; PubKw] k
       then let! item := attributed_item_kind in give (is_some_kind StaticKw item) else give false) in
    if attributed_static : bool then let! stmt := rejected_static in again (Some stmt)
    else if one_of [ValKw; VarKw] k then let! stmt := parse_binding_stmt in again (Some stmt)
    else if is_kind k ReturnKw then let! stmt := parse_return in again (Some stmt)
    else if is_kind k WhileKw then let! stmt := parse_while in again (Some stmt)
    else if is_kind k LoopKw then let! stmt := parse_loop_stmt in again (Some stmt)
    else if is_kind k ForKw then let! stmt := parse_for in again (Some stmt)
    else if is_kind k BreakKw then let! stmt := parse_break in again (Some stmt)
    else if is_kind k ContinueKw then let! stmt := parse_continue in again (Some stmt)
    else
      let! starts := expr_starts in
      if starts then expression_round before
      else
        let! unknown := at_ Unknown in
        error_here (if unknown : bool then UnexpectedToken else ExpectedExpression) ;;!
        bump_as_error ;;! again None.

Definition push_present {T} (statement : option (Built T)) (statements : list T) : list T :=
  match statement with
  | Some {| node := Present statement |} => statements ++ [statement]
  | _ => statements
  end.

Definition block_round (statements : list Stmt) : P (list Stmt + (list Stmt * option Expr)) :=
  let! go := notM (at_any [RBrace; Eof]) &&! continue_parsing in
  if negb go then leave (statements, None)
  else
    position 1 (length statements) ;;!
    let! before := cursor in
    let! round := statement_round before in
    match round with
    | inr tail => leave (statements, tail)
    | inl statement => guard_progress before ;;! again (push_present statement statements)
    end.

Definition parse_block_inner : P (Built BlockExpr) :=
  let! brace := at_ LBrace in
  if negb brace then built_missing_here ExpectedFunctionBodyStart
  else
    let! mark := begin in
    let! open := take_token in
    let! body := loop block_round [] in
    let! close := expect RBrace ExpectedBlockEnd in
    let! site := end_mark mark in
    present_here (MkBlockExpr site (Present open) (fst body) (snd body) close).

(** ** Data declarations *)
Definition field_starts : P bool := at_any [Hash; PubKw; ValKw; VarKw; Ident].
Definition parse_field : P (Built Field) :=
  let! mark := begin in
  let! attributes := parse_attributes G in
  let! visibility := parse_visibility in
  let! binding := parse_binding_kind ExpectedFieldBinding in
  let! name := parse_name ExpectedFieldName in
  let! colon := expect Colon ExpectedFieldTypeSeparator in
  let! ty := parse_type_ref G in
  let! site := end_mark mark in
  present_here (MkField site attributes visibility binding name colon (node ty)).

Definition parse_struct : P StructDef :=
  let! mark := begin in
  let! attributes := parse_attributes G in
  let! visibility := parse_visibility in
  let! keyword := expect StructKw ExpectedStructKeyword in
  let! name := parse_name ExpectedStructName in
  let! generics := parse_generic_params G in
  let! fields_mark := begin in
  let! open := expect LBrace ExpectedTraitBodyStart in
  let! fields := list_ RBrace field_starts parse_field 1 0 in
  let! close := expect RBrace ExpectedBlockEnd in
  let! fields_site := end_mark fields_mark in
  let! site := end_mark mark in
  give (MkStructDef site attributes visibility keyword name generics
          (Present (MkFieldList fields_site open (fst fields) close))).

Definition variant_starts : P bool := at_ Ident.
Definition parse_variant : P (Built VariantDef) :=
  let! mark := begin in
  let! name := parse_name ExpectedVariantName in
  let! paren := at_ LParen in
  let! payload :=
    (if paren then
       let! payload_mark := begin in
       let! open := take_token in
       let! types := list_ RParen type_starts (parse_type_ref G) 1 0 in
       let! close := expect RParen ExpectedClosingParen in
       let! site := end_mark payload_mark in
       give (Some (MkTuplePayload site open (fst types) close))
     else give None) in
  let! site := end_mark mark in
  present_here (MkVariant site [] name payload).

Definition parse_enum : P EnumDef :=
  let! mark := begin in
  let! attributes := parse_attributes G in
  let! visibility := parse_visibility in
  let! keyword := expect EnumKw ExpectedEnumKeyword in
  let! name := parse_name ExpectedEnumName in
  let! generics := parse_generic_params G in
  let! variants_mark := begin in
  let! open := expect LBrace ExpectedImplBodyStart in
  let! variants := list_ RBrace variant_starts parse_variant 1 0 in
  let! close := expect RBrace ExpectedBlockEnd in
  let! variants_site := end_mark variants_mark in
  let! site := end_mark mark in
  give (MkEnumDef site attributes visibility keyword name generics
          (Present (MkVariantList variants_site open (fst variants) close))).

(** ** Type declarations *)
Definition parse_type_bounds : P (option Supertraits) :=
  let! colon := eat Colon in
  mapO colon (λ colon,
    let! declarations := in_declarations in
    (if declarations then give tt else error_here UnexpectedToken) ;;!
    let! bounds := parse_trait_bound_list G in give (MkSupertraits colon (node bounds))).

Definition parse_alias_target (where_clause : option WhereClause) : P AliasTarget :=
  let! equal := expect Eq ExpectedAssignmentOperator in
  let! ty := (if is_present equal then let! ty := parse_type_ref G in give (node ty)
              else let! at_ := anchor in give (Missing at_)) in
  match where_clause with
  | Some clause => give (AtLeadingWhere clause equal ty)
  | None => let! clause := parse_where_clause G in give (AtTrailingWhere equal ty clause)
  end.

Definition is_someb {A} (o : option A) : bool := match o with Some _ => true | None => false end.

Definition parse_module_type : P Item :=
  let! mark := begin in
  let! attributes := parse_attributes G in
  let! visibility := parse_visibility in
  let! keyword := expect TypeKw UnexpectedToken in
  let! name := parse_name ExpectedFunctionName in
  let! generics := parse_generic_params G in
  let! bounds := parse_type_bounds in
  let! where_clause := parse_where_clause G in
  let! alias := at_ Eq ||! notM in_declarations in
  if alias then
    let! bounded := give (is_someb bounds) &&! in_declarations in
    (if bounded then error_here UnexpectedToken else give tt) ;;!
    let! target := parse_alias_target where_clause in
    let! terminator := expect Semi ExpectedStatementTerminator in
    let! site := end_mark mark in
    give (ItTypeAlias (MkTypeAlias site attributes visibility keyword name generics bounds target terminator))
  else
    let! terminator := expect Semi ExpectedStatementTerminator in
    let! site := end_mark mark in
    give (ItOpaqueType (MkOpaqueTypeDef site attributes visibility keyword name generics bounds where_clause
                          terminator)).

(** ** Imports *)
Definition use_tree_starts : P bool := path_starts ||! at_ LBrace.
Definition parse_use_tree : P (Built UseTree) := nested (use_tree_inner G).

Definition parse_use_group : P UseTreeList :=
  let! mark := begin in
  let! open := expect LBrace ExpectedUseTree in
  let! trees := list_ RBrace use_tree_starts parse_use_tree 1 0 in
  let! close := expect RBrace ExpectedBlockEnd in
  let! site := end_mark mark in
  give (MkUseTreeList site open (fst trees) close).

Definition parse_use_suffix (prefixed : bool) : P (option UseSuffix) :=
  let! brace := at_ LBrace in
  if brace then
    (if prefixed then error_here ExpectedUseTree else give tt) ;;!
    let! group := parse_use_group in give (Some (UsGroup None group))
  else
    let! keyword := eat AsKw in
    match keyword with
    | Some keyword => let! name := parse_name ExpectedUseAlias in give (Some (UsAlias keyword name))
    | None =>
        let! separator := eat ColonColon in
        match separator with
        | Some separator =>
            let! brace := at_ LBrace in
            if brace then let! group := parse_use_group in give (Some (UsGroup (Some separator) group))
            else let! star := expect Star ExpectedUseTree in give (Some (UsGlob separator star))
        | None => give None
        end
    end.

Definition parse_use_tree_inner : P (Built UseTree) :=
  let! mark := begin in
  let! starts := use_tree_starts in
  (if starts then give tt else error_here ExpectedUseTree) ;;!
  let! prefixed := path_starts in
  let! prefix := (if prefixed then let! path := parse_path in give (required_ref path) else give None) in
  let! suffix := parse_use_suffix (is_someb prefix) in
  let! site := end_mark mark in
  present_here (MkUseTree site prefix suffix).

Definition parse_use : P UseDecl :=
  let! mark := begin in
  let! attributes := parse_attributes G in
  let! visibility := parse_visibility in
  let! keyword := expect UseKw ExpectedUseKeyword in
  let! tree := parse_use_tree in
  let! terminator := expect Semi ExpectedStatementTerminator in
  let! site := end_mark mark in
  give (MkUseDecl site attributes visibility keyword (node tree) terminator).

(** ** Members *)
Definition parse_method (allow_visibility : bool) : P MethodDef :=
  let! mark := begin in
  let! attributes := parse_attributes G in
  let! public := give (negb allow_visibility) &&! at_ PubKw in
  (if public then error_here UnexpectedToken else give tt) ;;!
  let! visibility := parse_visibility in
  let! async_keyword := eat AsyncKw in
  let! keyword := expect FnKw ExpectedFunctionKeyword in
  let! name := parse_name ExpectedFunctionName in
  let! generics := parse_generic_params G in
  let! parameters := parse_parameters G true in
  let! result := parse_return_type G in
  let! where_clause := parse_where_clause G in
  let! brace := at_ LBrace in
  let! body :=
    (if brace then let! body := parse_block G in give (FbBlock (node body))
     else let! t := expect Semi ExpectedStatementTerminator in give (FbDeclaration t)) in
  let! site := end_mark mark in
  give (MkMethodDef site attributes visibility async_keyword keyword name generics (fst parameters) result
          where_clause body).

Definition parse_associated_type : P AssociatedType :=
  let! mark := begin in
  let! attributes := parse_attributes G in
  let! public := notM in_declarations &&! at_ PubKw in
  (if public then error_here UnexpectedToken else give tt) ;;!
  let! visibility := parse_visibility in
  let! keyword := expect TypeKw UnexpectedToken in
  let! name := parse_name ExpectedFunctionName in
  let! generics := parse_generic_params G in
  let! bounds := parse_bounds G in
  let! equal := eat Eq in
  let! default_ := mapO equal (λ equal,
    let! ty := parse_type_ref G in give (MkAssociatedDefault equal (node ty))) in
  let! where_clause := parse_where_clause G in
  let! terminator := expect Semi ExpectedStatementTerminator in
  let! site := end_mark mark in
  give (MkAssociatedType site attributes visibility keyword name generics bounds default_ where_clause
          terminator).

(** [None] is the arm that reports and skips a token. *)
Definition parse_member_item (implementation : bool) : P (option Member) :=
  let! item := attributed_item_kind in
  if is_some_kind TypeKw item then let! t := parse_associated_type in give (Some (MeAssociatedType t))
  else if is_some_kind ConstKw item then let! c := parse_const true in give (Some (MeConst c))
  else if is_some_kind StaticKw item then
    error_here UnexpectedToken ;;!
    let! d := parse_static in give (Some (MeError (static_site d)))
  else if some_one_of [AsyncKw; FnKw] item then
    let! m := parse_method implementation in give (Some (MeMethod m))
  else error_here ExpectedFunctionKeyword ;;! bump_as_error ;;! give None.

Definition parse_members (implementation : bool) : P (list Member) :=
  loop (λ members,
    let! go := notM (at_any [RBrace; Eof]) &&! continue_parsing in
    if negb go then leave members
    else
      position 7 (length members) ;;!
      let! before := cursor in
      let! member := parse_member_item implementation in
      match member with
      | Some member => guard_progress before ;;! again (members ++ [member])
      | None => let! c := cursor in if c =? before then leave members else again members
      end) [].

Definition parse_trait : P TraitDef :=
  let! mark := begin in
  let! attributes := parse_attributes G in
  let! visibility := parse_visibility in
  let! keyword := expect TraitKw ExpectedTraitKeyword in
  let! name := parse_name ExpectedTraitName in
  let! generics := parse_generic_params G in
  let! supertraits := parse_bounds G in
  let! open := expect LBrace ExpectedStructBodyStart in
  let! members := parse_members false in
  let! close := expect RBrace ExpectedBlockEnd in
  let! site := end_mark mark in
  give (MkTraitDef site attributes visibility keyword name generics supertraits open members close).

Definition parse_impl : P ImplBlock :=
  let! mark := begin in
  let! attributes := parse_attributes G in
  let! keyword := expect ImplKw ExpectedImplKeyword in
  let! generics := parse_generic_params G in
  let! for_trait := impl_target_followed_by_for in
  let! trait_clause := thenM for_trait (
    let! trait_ref := parse_trait_ref G in
    let! for_keyword := expect ForKw ExpectedForKeyword in
    give (MkImplTrait (node trait_ref) for_keyword)) in
  let! target := parse_type_ref G in
  let! where_clause := parse_where_clause G in
  let! open := expect LBrace ExpectedStructBodyStart in
  let! members := parse_members true in
  let! close := expect RBrace ExpectedBlockEnd in
  let! site := end_mark mark in
  give (MkImplBlock site attributes keyword generics trait_clause (node target) where_clause open members close).

(** ** Items and modules *)
Definition parse_item : P (option Item) :=
  let! item := attributed_item_kind in
  let! public := at_ PubKw in
  if is_some_kind ModKw item then
    let! m := with_nesting (module_def G) in give (ItModule <$> m)
  else if is_some_kind UseKw item then let! d := parse_use in give (Some (ItUse d))
  else if some_one_of [FnKw; AsyncKw] item then
    let! function := parse_function in give (ItFn <$> required_ref (node function))
  else if is_some_kind ConstKw item then let! d := parse_const false in give (Some (ItConst d))
  else if is_some_kind StaticKw item then let! d := parse_static in give (Some (ItStatic d))
  else if is_some_kind StructKw item then let! d := parse_struct in give (Some (ItStruct d))
  else if is_some_kind EnumKw item then let! d := parse_enum in give (Some (ItEnum d))
  else if is_some_kind TraitKw item then let! d := parse_trait in give (Some (ItTrait d))
  else if is_some_kind ImplKw item && negb public then let! d := parse_impl in give (Some (ItImpl d))
  else if is_some_kind TypeKw item then let! d := parse_module_type in give (Some d)
  else
    let! unknown := at_ Unknown in
    error_here (if unknown : bool then UnexpectedToken else ExpectedTopLevelItem) ;;!
    bump_as_error ;;! give None.

Definition open_module : P ModuleId :=
  let! id := gets (λ s, length (p_modules s)) in
  update (λ s, set_modules (p_modules s ++ [None]) s) ;;! give id.
(** [self.modules[id] = Some(body)]. *)
Definition close_module (id : ModuleId) (body : ModuleBody) : P unit :=
  let! n := gets (λ s, length (p_modules s)) in
  if id <? n then update (λ s, set_modules (<[id := Some body]> (p_modules s)) s) else crash.

Definition parse_items (inline : bool) : P (list Item) :=
  loop (λ items,
    let! go := notM (at_ Eof) &&! notM (give inline &&! at_ RBrace) &&! continue_parsing in
    if negb go then leave items
    else
      position 1 (length items) ;;!
      let! before := cursor in
      let! item := parse_item in
      guard_progress before ;;!
      again (match item with Some item => items ++ [item] | None => items end)) [].

(** The statements between [self.modules.push(None)] and [self.modules[id] = ...]. *)
Definition parse_module_contents (inline : bool) : P ModuleBody :=
  let! mark := begin in
  let! open := thenM inline take_token in
  let! items := parse_items inline in
  let! close := thenM inline (expect RBrace ExpectedBlockEnd) in
  (if inline then give tt else finish_remaining_tokens) ;;!
  let! site := end_mark mark in
  give (MkModuleBody site open items close).

Definition parse_module_body (inline : bool) : P ModuleId :=
  let! id := open_module in
  let! body := parse_module_contents inline in
  close_module id body ;;! give id.

Definition parse_module_def : P ModuleDef :=
  let! mark := begin in
  let! attributes := parse_attributes G in
  let! visibility := parse_visibility in
  let! keyword := expect ModKw ExpectedModuleKeyword in
  let! name := parse_name ExpectedModuleName in
  let! semicolon := eat Semi in
  let! form :=
    (match semicolon with
     | Some semicolon => give (MfExternal semicolon)
     | None =>
         let! brace := at_ LBrace in
         let! body := (if brace then let! id := parse_module_body true in give (Present id)
                       else missing_here ExpectedModuleBodyStart) in
         give (MfInline body)
     end) in
  let! site := end_mark mark in
  give (MkModuleDef site attributes visibility keyword name form).

Definition parse_root : P ModuleId := parse_module_body false.

(** The guarded bodies, with [G] for the entries they make in turn. *)
Definition productions : Grammar := {|
  type_inner := parse_type_inner G;
  attribute_value_inner := parse_attribute_value_inner G;
  single_pattern := parse_single_pattern G;
  pattern_alternatives := parse_pattern_alternatives G;
  range_inner := parse_range G;
  prefix_inner := parse_prefix_inner G;
  if_inner := parse_if_inner G;
  block_inner := parse_block_inner;
  use_tree_inner := parse_use_tree_inner;
  module_def := parse_module_def
|}.
End grammar.

Fixpoint grammar (entries : nat) : Grammar :=
  match entries with
  | 0 => {| type_inner := exhausted; attribute_value_inner := exhausted; single_pattern := exhausted;
            pattern_alternatives := exhausted; range_inner := exhausted; prefix_inner := exhausted;
            if_inner := exhausted; block_inner := exhausted; use_tree_inner := exhausted;
            module_def := exhausted |}
  | S entries => productions (grammar entries)
  end.

(** ** The entry point *)
Record ParsedFile : Type := {
  file_text : text; file_mode : ParseMode; file_lexical : Lexical; file_modules : list ModuleBody;
  file_recoveries : list Recovery; file_diagnostics : list Diagnostic; file_root : ModuleId
}.
Definition finish (root : ModuleId) : P ParsedFile :=
  let! s := gets id in
  if bool_decide (p_frames s = []) then
    let! modules := expected (mapM id (p_modules s)) in
    give {| file_text := p_text s; file_mode := p_mode s; file_lexical := p_lex s; file_modules := modules;
            file_recoveries := p_recoveries s; file_diagnostics := p_diagnostics s; file_root := root |}
  else crash.

Inductive parse_result : Type :=
| Parsed (file : ParsedFile)
| Cancelled
| ParsePanicked
| ParseExhausted.

Definition parse_file (options : ParseOptions) : P ParsedFile :=
  let! root := parse_root (grammar (max_nesting (opt_limits options))) in finish root.

Definition parse (source : text) (options : ParseOptions) (cancel : CancellationToken) : parse_result :=
  match parse_lexical source {| cur := cursor_of []; cxl := cancel |} with
  | Done lexical st =>
      match parse_file options (parser_new source lexical (opt_limits options) (cxl st) (opt_mode options)) with
      | Ret file s => if fst (token_check (p_cancel s)) then Parsed file else Cancelled
      | Crash => ParsePanicked
      | Exhausted => ParseExhausted
      end
  | Stopped => Cancelled
  | Panicked => ParsePanicked
  | OutOfFuel => ParseExhausted
  end.
