(* ===== verification/ParserInv.v ===== *)
(** * What every action of the parser keeps

    The invariant of a running parser, the relation between the states before and after
    an action, and the specification of each operation of [ParserCore].  A specification
    [Acts n m pre post] says that [m], entered in a state that satisfies the invariant
    and [pre] with at most [n] guarded entries left, neither crashes nor exhausts its
    fuel and ends in a state that extends the first and satisfies [post]. *)
From S2P Require Import Prelude Text Literal Token Lexer LexerProps Lexical Syntax ParserCore.
Import TokenKind.
Open Scope nat_scope.

(** ** Weakest preconditions *)
Definition wpp {A} (m : P A) (Q : A → Parser → Prop) (s : Parser) : Prop :=
  match m s with Ret a s' => Q a s' | Crash | Exhausted => False end.

Lemma wpp_give {A} (a : A) (Q : A → Parser → Prop) s : Q a s → wpp (give a) Q s.
Proof. done. Qed.
Lemma wpp_gets {A} (f : Parser → A) (Q : A → Parser → Prop) s : Q (f s) s → wpp (gets f) Q s.
Proof. done. Qed.
Lemma wpp_update f (Q : unit → Parser → Prop) s : Q tt (f s) → wpp (update f) Q s.
Proof. done. Qed.
Lemma wpp_expected {A} (o : option A) a (Q : A → Parser → Prop) s : o = Some a → Q a s → wpp (expected o) Q s.
Proof. by intros ->. Qed.
Lemma wpp_chain {A B} (m : P A) (k : A → P B) Q s : wpp m (λ a s', wpp (k a) Q s') s → wpp (chain m k) Q s.
Proof. unfold wpp, chain. by destruct (m s). Qed.
Lemma wpp_mono {A} (m : P A) (Q R : A → Parser → Prop) s :
  wpp m Q s → (∀ a s', Q a s' → R a s') → wpp m R s.
Proof. unfold wpp. destruct (m s); naive_solver. Qed.

(** A loop whose rounds decrease a measure below the fuel ends. *)
Lemma wpp_rounds {A B} (body : A → P (A + B)) (I : A → Parser → Prop) (f : A → Parser → nat) Q fuel a s :
  I a s → f a s < fuel →
  (∀ a s, I a s → wpp (body a) (λ r s', match r with
                                        | inl a' => I a' s' ∧ f a' s' < f a s
                                        | inr b => Q b s'
                                        end) s) →
  wpp (rounds fuel body a) Q s.
Proof.
  intros HI Hf Hb. revert a s HI Hf. induction fuel as [|fuel IH]; intros a s HI Hf; [lia|].
  simpl. apply wpp_chain. eapply wpp_mono; [by apply Hb|].
  intros [a'|b] s'; [|done]. intros [HI' Hlt]. apply IH; [done|lia].
Qed.
Lemma wpp_loop {A B} (body : A → P (A + B)) (I : A → Parser → Prop) (f : A → Parser → nat) Q a s :
  I a s → f a s ≤ S (len (p_lex s)) →
  (∀ a s, I a s → wpp (body a) (λ r s', match r with
                                        | inl a' => I a' s' ∧ f a' s' < f a s
                                        | inr b => Q b s'
                                        end) s) →
  wpp (loop body a) Q s.
Proof. intros HI Hf Hb. unfold loop. eapply (wpp_rounds _ I f); [done|lia|done]. Qed.

(** ** The table under the cursor *)
Fixpoint upcoming_in (ks : list kind) : kind :=
  match ks with [] => Eof | k :: ks => if is_trivia k then upcoming_in ks else k end.
(** The kind of the first written token at or after [c]. *)
Definition upcoming (l : Lexical) (c : nat) : kind := upcoming_in (drop c (lex_kinds l)).
Definition ahead (s : Parser) : kind := upcoming (p_lex s) (p_cursor s).
Definition nf (s : Parser) : nat := length (p_frames s).

Lemma kind_drop l c : Lexical.kind l c = default Eof (head (drop c (lex_kinds l))).
Proof.
  unfold Lexical.kind. rewrite <- (Nat.add_0_r c) at 1. rewrite <- lookup_drop.
  by destruct (drop c (lex_kinds l)).
Qed.
Lemma drop_next {A} (l : list A) c x more : drop c l = x :: more → drop (S c) l = more.
Proof. intros H. replace (S c) with (c + 1) by lia. rewrite <- drop_drop, H. done. Qed.
Lemma upcoming_trivia l c : is_trivia (Lexical.kind l c) = true → upcoming l (S c) = upcoming l c.
Proof.
  rewrite kind_drop. unfold upcoming. destruct (drop c (lex_kinds l)) as [|k ks] eqn:E; [done|].
  simpl. intros ->. by rewrite (drop_next _ _ _ _ E).
Qed.
Lemma upcoming_kind l c : is_trivia (Lexical.kind l c) = false → upcoming l c = Lexical.kind l c.
Proof.
  rewrite kind_drop. unfold upcoming. destruct (drop c (lex_kinds l)) as [|k ks]; [done|]. simpl. by intros ->.
Qed.
Lemma kind_lt l c : Lexical.kind l c ≠ Eof → c < len l.
Proof.
  unfold Lexical.kind, len. destruct (lex_kinds l !! c) eqn:E; [|done]. intros _.
  by eapply lookup_lt_Some.
Qed.
Lemma trivia_not_eof k : is_trivia k = true → k ≠ Eof.
Proof. by intros H ->. Qed.

(** The table of a source. *)
Definition table (t : text) (l : Lexical) : Prop := ∃ tokens, lossless t tokens ∧ tabulates t tokens l.

Lemma table_boundary t l i : table t l → boundary t (offset l i).
Proof.
  intros (tokens & Hloss & Htab). rewrite (tab_offset _ _ _ Htab).
  pose proof (tab_contiguous _ _ Hloss) as Hc. unfold start_of.
  destruct (tokens !! i) as [x|] eqn:Hx; [|apply boundary_end].
  assert (is_Some (token_text t x)) as [c Hs].
  { clear Htab Hloss. revert Hc Hx. generalize 0. revert i.
    induction tokens as [|y tokens IH]; intros i n Hc Hx; [done|]. destruct Hc as (_ & _ & Ht & Hc).
    destruct i as [|i]; simpl in Hx; [by simplify_eq|]. by eapply IH. }
  unfold token_text in Hs. apply slice_inv in Hs as (p & q & -> & Hp & _). exists p, (c ++ q). by split.
Qed.
Lemma table_offset_mono t l i j : table t l → i ≤ j → offset l i ≤ offset l j ≤ blen t.
Proof.
  intros (tokens & Hloss & Htab) Hij. rewrite !(tab_offset _ _ _ Htab).
  pose proof (tab_contiguous _ _ Hloss) as Hc. split; [by apply start_of_mono|by apply start_of_le].
Qed.
Lemma table_text t l i : table t l → is_Some (slice t (offset l i) (offset l (i + 1))).
Proof.
  intros Ht. apply boundary_slice; [by eapply table_boundary..|].
  apply (table_offset_mono t l i (i + 1) Ht). lia.
Qed.
Lemma table_rest t l i : table t l → is_Some (slice t (offset l i) (blen t)).
Proof.
  intros Ht. apply boundary_slice; [by eapply table_boundary|apply boundary_end|].
  by apply (table_offset_mono t l i i Ht).
Qed.

(** ** The invariant *)
Definition is_limit (k : DiagnosticKind) : bool :=
  match k with CompileLimitExceeded _ _ => true | _ => false end.

(** At most [max_diagnostics] ordinary diagnostics, then at most one limit, which stops the
    parser; every span is the span of a record. *)
Definition diag_ok (s : Parser) : Prop :=
  ∃ ordinary rest, p_diagnostics s = ordinary ++ rest
    ∧ length ordinary ≤ max_diagnostics (p_limits s)
    ∧ Forall (λ d, is_limit (diag_kind d) = false) ordinary
    ∧ (rest = [] ∨ p_stopped s ≠ None ∧ ∃ d, rest = [d] ∧ is_limit (diag_kind d) = true)
    ∧ Forall (λ d, ∃ i, diag_span d = span (p_lex s) i) (p_diagnostics s).

(** [n] guarded entries suffice. *)
Record Inv (n : nat) (s : Parser) : Prop := {
  inv_table : table (p_text s) (p_lex s);
  inv_diag : diag_ok s;
  inv_room : max_nesting (p_limits s) ≤ p_nesting s + n
}.

(** What an action never undoes. *)
Record Ext (s s' : Parser) : Prop := {
  ext_text : p_text s' = p_text s;
  ext_lex : p_lex s' = p_lex s;
  ext_limits : p_limits s' = p_limits s;
  ext_mode : p_mode s' = p_mode s;
  ext_nesting : p_nesting s' = p_nesting s;
  ext_allow : p_allow s' = p_allow s;
  ext_stopped : p_stopped s ≠ None → p_stopped s' ≠ None;
  ext_recoveries : p_recoveries s `prefix_of` p_recoveries s';
  ext_modules : ∃ new, p_modules s' = p_modules s ++ new ∧ Forall is_Some new;
  ext_cancel : p_cancel s = None → p_cancel s' = None;
  ext_diag : diag_ok s → diag_ok s'
}.

#[export] Instance Ext_refl : Reflexive Ext.
Proof. intros s. split; try done. exists []. by rewrite app_nil_r. Qed.
#[export] Instance Ext_trans : Transitive Ext.
Proof.
  intros s1 s2 s3 [] []. split; try congruence; auto; [by etrans|].
  destruct ext_modules0 as (a & Ha & HA), ext_modules1 as (b & Hb & HB). exists (a ++ b).
  rewrite Hb, Ha, app_assoc. split; [done|]. by apply Forall_app.
Qed.
Lemma Inv_ext n s s' : Inv n s → Ext s s' → Inv n s'.
Proof.
  intros [Ht Hd Hr] []. split; [by rewrite ext_text0, ext_lex0|auto|].
  by rewrite ext_limits0, ext_nesting0.
Qed.

(** A site that resolves, to coverage that starts behind the cursor. *)
Definition valid (s : Parser) (site : SyntaxSite) : Prop :=
  ∃ r, site_resolve (p_recoveries s) site = Some r ∧ first r ≤ p_cursor s.
Definition valid_node {T} `{NodeData T} (r : Required T) (s : Parser) : Prop :=
  match r with Present x => valid s (node_site x) | Missing _ => True end.

Lemma valid_ext s s' site : Ext s s' → p_cursor s ≤ p_cursor s' → valid s site → valid s' site.
Proof.
  intros HE Hc (r & Hr & Hf). exists r. split; [|lia]. unfold site_resolve in *.
  destruct (_ <? _); [|done]. apply fmap_Some in Hr as (x & Hx & ->).
  by rewrite (prefix_lookup_Some _ _ _ _ Hx (ext_recoveries _ _ HE)).
Qed.
Lemma valid_node_ext {T} `{NodeData T} s s' (r : Required T) :
  Ext s s' → p_cursor s ≤ p_cursor s' → valid_node r s → valid_node r s'.
Proof. destruct r; [|done]. apply valid_ext. Qed.
Lemma valid_node_map {T U} `{NodeData T, NodeData U} (f : T → U) (r : Required T) s :
  (∀ x, node_site (f x) = node_site x) → valid_node r s → valid_node (required_map f r) s.
Proof. intros Hf. destruct r as [x|]; [|done]. simpl. by rewrite Hf. Qed.
Lemma valid_token s i : i < p_cursor s → valid s (site_token i).
Proof.
  intros Hi. exists (site_token i). split; [|simpl; lia]. unfold site_resolve. simpl.
  by rewrite (proj2 (Nat.ltb_ge _ _)) by lia.
Qed.

(** ** Specifications *)
Class Acts {A} (n : nat) (m : P A) (pre : Parser → Prop) (post : Parser → A → Parser → Prop) : Prop :=
  acts : ∀ s, Inv n s → pre s → wpp m (λ a s', Ext s s' ∧ post s a s') s.
#[export] Hint Mode Acts ! - ! - - : typeclass_instances.

Lemma acts_use {A} n (m : P A) pre post s0 s (Q : A → Parser → Prop) :
  Acts n m pre post → Inv n s0 → Ext s0 s → pre s →
  (∀ a s', Ext s0 s' → post s a s' → Q a s') → wpp m Q s.
Proof.
  intros Ha HI HE Hp HQ. eapply wpp_mono; [apply Ha; [by eapply Inv_ext|done]|].
  intros a s' [HE' Hpost]. apply HQ; [by etrans|done].
Qed.

Lemma acts_step {A} n (m : P A) pre post s0 s (Q : A → Parser → Prop) :
  Acts n m pre post → Inv n s0 → Ext s0 s → pre s →
  (∀ a s', Ext s0 s' → Ext s s' → post s a s' → Q a s') → wpp m Q s.
Proof.
  intros Ha HI HE Hp HQ. eapply wpp_mono; [apply Ha; [by eapply Inv_ext|done]|].
  intros a s' [HE' Hpost]. apply HQ; [by etrans|done..].
Qed.

(** The postcondition of most productions. *)
Definition anything {A} (_ : A) (_ : Parser) : Prop := True.
Definition keeps {A} (X : A → Parser → Prop) : Parser → A → Parser → Prop :=
  λ s a s', nf s' = nf s ∧ p_cursor s ≤ p_cursor s' ∧ X a s'.
Definition always (_ : Parser) : Prop := True.
Definition owned (s : Parser) : Prop := 0 < nf s.
Definition written (s : Parser) : Prop := ahead s ≠ Eof.

(** The rounds left to a loop of the grammar. *)
Definition mu (s : Parser) : nat :=
  match p_stopped s with Some _ => 0 | None => S (len (p_lex s) - p_cursor s) end.
Lemma mu_le s : mu s ≤ S (len (p_lex s)).
Proof. unfold mu. destruct (p_stopped s); lia. Qed.
Definition progress (s s' : Parser) : Prop := p_stopped s' ≠ None ∨ p_cursor s < p_cursor s'.
Lemma progress_ext s s' x : Ext s s' → p_cursor s ≤ p_cursor s' → progress x s → progress x s'.
Proof. intros HE Hc [Hp|Hp]; [left; by eapply ext_stopped|right; lia]. Qed.
Lemma mu_lt s s' : Ext s s' → p_stopped s = None → raw s ≠ Eof → progress s s' → mu s' < mu s.
Proof.
  unfold mu, progress. intros HE Hs Hr Hp. rewrite Hs, (ext_lex _ _ HE). pose proof (kind_lt _ _ Hr).
  destruct (p_stopped s'); [lia|]. destruct Hp as [?|?]; [done|lia].
Qed.
Lemma mu_lt_at s x s' : Ext s s' → p_stopped s = None → Ext s x → p_cursor s ≤ p_cursor x → raw x ≠ Eof →
  progress s s' → mu s' < mu s.
Proof.
  unfold mu, progress. intros HE Hs HEx Hc Hr Hp. rewrite Hs, (ext_lex _ _ HE). pose proof (kind_lt _ _ Hr) as Hx.
  rewrite (ext_lex _ _ HEx) in Hx. destruct (p_stopped s'); [lia|]. destruct Hp as [?|?]; [done|lia].
Qed.
Lemma raw_same s s' : p_lex s' = p_lex s → p_cursor s' = p_cursor s → raw s' = raw s ∧ ahead s' = ahead s.
Proof. unfold raw, ahead. by intros -> ->. Qed.

(** ** Reading *)
Lemma is_kind_true k k' : is_kind k k' = true ↔ k = k'.
Proof. apply bool_decide_eq_true. Qed.
Lemma is_kind_false k k' : is_kind k k' = false ↔ k ≠ k'.
Proof. apply bool_decide_eq_false. Qed.
Lemma one_of_true ks k : one_of ks k = true ↔ k ∈ ks.
Proof.
  unfold one_of. rewrite existsb_exists. setoid_rewrite is_kind_true. setoid_rewrite list_elem_of_In. naive_solver.
Qed.
Lemma some_one_of_true ks o : some_one_of ks o = true → ∃ k, o = Some k ∧ k ∈ ks.
Proof. destruct o as [k|]; [|done]. intros Hk. exists k. split; [done|]. by apply one_of_true. Qed.
Lemma is_some_kind_true k o : is_some_kind k o = true → o = Some k.
Proof. destruct o as [k'|]; [|done]. simpl. intros Hk. apply is_kind_true in Hk. by subst. Qed.
Lemma is_stopped_true s : is_stopped s = true ↔ p_stopped s ≠ None.
Proof. unfold is_stopped. by destruct (p_stopped s). Qed.
Lemma is_stopped_false s : is_stopped s = false ↔ p_stopped s = None.
Proof. unfold is_stopped. by destruct (p_stopped s). Qed.

(** A written kind other than [Eof]. *)
Definition lively (k : kind) : bool := negb (is_trivia k) && negb (is_kind k Eof).
Lemma lively_raw s : lively (raw s) = true → is_trivia (raw s) = false ∧ raw s ≠ Eof ∧ written s.
Proof.
  unfold lively. intros [Ht Hk]%andb_true_iff. apply negb_true_iff in Ht, Hk.
  apply is_kind_false in Hk. unfold written, ahead. by rewrite upcoming_kind.
Qed.
Lemma now_is s k : is_kind (kind_now s) k = true → lively k = true →
  p_stopped s = None ∧ raw s = k ∧ is_trivia (raw s) = false ∧ raw s ≠ Eof ∧ written s.
Proof.
  rewrite is_kind_true. unfold kind_now. destruct (p_stopped s); [by intros <-|].
  intros <- Hl. split; [done|]. split; [done|]. by apply lively_raw.
Qed.
Lemma now_lively s : lively (kind_now s) = true →
  p_stopped s = None ∧ raw s = kind_now s ∧ is_trivia (raw s) = false ∧ raw s ≠ Eof ∧ written s.
Proof. apply now_is. by apply is_kind_true. Qed.
Lemma now_in s ks : one_of ks (kind_now s) = true → forallb lively ks = true →
  p_stopped s = None ∧ one_of ks (raw s) = true ∧ is_trivia (raw s) = false ∧ raw s ≠ Eof ∧ written s.
Proof.
  intros Hk Hl. pose proof Hk as Hin. apply one_of_true in Hin. rewrite forallb_forall in Hl.
  assert (lively (kind_now s) = true) as Hlive by (apply Hl; by apply list_elem_of_In).
  unfold kind_now in *. destruct (p_stopped s); [done|]. split; [done|]. split; [done|]. by apply lively_raw.
Qed.
Lemma now_not_eof s : is_kind (kind_now s) Eof = false → p_stopped s = None ∧ raw s ≠ Eof.
Proof. rewrite is_kind_false. unfold kind_now. by destruct (p_stopped s). Qed.
Lemma now_not_in s ks : one_of ks (kind_now s) = false → one_of ks Eof = true →
  p_stopped s = None ∧ raw s ≠ Eof.
Proof.
  intros Hk He. unfold kind_now in *. destruct (p_stopped s); [congruence|]. split; [done|]. congruence.
Qed.

Lemma now_eof s : is_kind (kind_now s) Eof = true → p_stopped s ≠ None ∨ raw s = Eof.
Proof. rewrite is_kind_true. unfold kind_now. destruct (p_stopped s); auto. Qed.

(** ** Actions that leave the cursor and the scopes alone *)
Record still (s s' : Parser) : Prop := {
  still_lex : p_lex s' = p_lex s;
  still_cursor : p_cursor s' = p_cursor s;
  still_nf : nf s' = nf s;
  still_raw : raw s' = raw s;
  still_ahead : ahead s' = ahead s
}.
Lemma still_intro s s' : p_lex s' = p_lex s → p_cursor s' = p_cursor s → nf s' = nf s → still s s'.
Proof. intros Hl Hc Hn. destruct (raw_same s s' Hl Hc). by split. Qed.

(** A change of the diagnostics, the stop, the token, the scopes or the depth. *)
Lemma Ext_quiet s s' :
  p_text s' = p_text s → p_lex s' = p_lex s → p_limits s' = p_limits s → p_mode s' = p_mode s →
  p_nesting s' = p_nesting s → p_allow s' = p_allow s → p_recoveries s' = p_recoveries s →
  p_modules s' = p_modules s → (p_stopped s ≠ None → p_stopped s' ≠ None) →
  (p_cancel s = None → p_cancel s' = None) → (diag_ok s → diag_ok s') → Ext s s'.
Proof.
  intros. split; try done; [by rewrite H5|]. exists []. by rewrite app_nil_r.
Qed.
Lemma diag_same s s' : p_diagnostics s' = p_diagnostics s → p_limits s' = p_limits s →
  p_lex s' = p_lex s → (p_stopped s ≠ None → p_stopped s' ≠ None) → diag_ok s → diag_ok s'.
Proof.
  intros Hd Hl Hx Hs (o & r & Ho & Hlen & Ho' & Hr & Hf). exists o, r.
  rewrite Hd, Hl, Hx. split_and!; try done. destruct Hr as [?|[? ?]]; auto.
Qed.
Ltac quiet := apply Ext_quiet; try done; apply diag_same; done.

#[export] Instance acts_poll n : Acts n poll always (λ s b s', still s s' ∧ p_stopped s' = p_stopped s
  ∧ p_recoveries s' = p_recoveries s ∧ (p_cancel s = None → b = true)).
Proof.
  intros s HI _. unfold poll, wpp, chain, gets, update, give. simpl.
  destruct (token_check (p_cancel s)) as [b k] eqn:E. split.
  - apply Ext_quiet; try done. intros Hc. simpl. rewrite Hc in E. by inversion E.
  - split_and!; try done. intros Hc. rewrite Hc in E. by inversion E.
Qed.

#[export] Instance acts_continue n : Acts n continue_parsing always (λ s b s', still s s'
  ∧ p_recoveries s' = p_recoveries s
  ∧ (b = true → p_stopped s = None ∧ p_stopped s' = None) ∧ (b = false → p_stopped s' ≠ None)).
Proof.
  intros s HI _. unfold continue_parsing. apply wpp_chain, wpp_gets. simpl.
  destruct (is_stopped s) eqn:Es.
  { apply wpp_give. split; [done|]. apply is_stopped_true in Es. split_and!; done. }
  apply is_stopped_false in Es. apply wpp_chain. eapply acts_use; [apply _|done|done|done|].
  intros b s1 HE (Hs & Hst & Hr & _). destruct b.
  - apply wpp_give. split; [done|]. split_and!; try done. by rewrite Hst.
  - apply wpp_chain, wpp_update, wpp_give. split.
    + etrans; [exact HE|]. quiet.
    + split_and!; try done. by destruct Hs.
Qed.

Lemma diag_push s k stop : diag_ok s → p_stopped s = None →
  (is_limit k = false → length (p_diagnostics s) < max_diagnostics (p_limits s)) →
  (is_limit k = true → stop ≠ None) →
  diag_ok (set_stopped stop (set_diagnostics
    (p_diagnostics s ++ [{| diag_kind := k; diag_span := span (p_lex s) (p_cursor s) |}]) s)).
Proof.
  intros (o & r & Ho & Hlen & Hord & Hr & Hf) Hs Hlt Hstop.
  assert (r = []) as -> by (destruct Hr as [?|[? _]]; [done|congruence]). rewrite app_nil_r in Ho.
  destruct (is_limit k) eqn:Ek.
  - exists o, [{| diag_kind := k; diag_span := span (p_lex s) (p_cursor s) |}]. simpl. rewrite Ho.
    split_and!; [done..| |].
    + right. split; [by apply Hstop|]. eexists. by split.
    + apply Forall_app. rewrite Ho in Hf. split; [done|]. constructor; [by eexists|constructor].
  - exists (o ++ [{| diag_kind := k; diag_span := span (p_lex s) (p_cursor s) |}]), []. simpl.
    rewrite Ho, app_nil_r in *. rewrite length_app. simpl. split_and!; [done| | | |].
    + specialize (Hlt eq_refl). lia.
    + apply Forall_app. split; [done|]. by constructor.
    + by left.
    + apply Forall_app. split; [done|]. constructor; [by eexists|constructor].
Qed.

#[export] Instance acts_limit n resource m suffix : Acts n (limit resource m suffix) always
  (λ s _ s', still s s' ∧ p_recoveries s' = p_recoveries s ∧ p_stopped s' ≠ None).
Proof.
  intros s HI _. unfold limit. apply wpp_chain, wpp_gets. simpl. destruct (is_stopped s) eqn:Es.
  { apply wpp_give. apply is_stopped_true in Es. done. }
  apply is_stopped_false in Es. apply wpp_chain, wpp_update, wpp_update. simpl. split; [|done].
  apply Ext_quiet; try done. intros Hd. by apply (diag_push s _ (Some suffix)).
Qed.

#[export] Instance acts_literal_reason n t : Acts n (literal_reason t) always
  (λ s _ s', still s s' ∧ p_recoveries s' = p_recoveries s ∧ p_stopped s' = p_stopped s
             ∧ p_diagnostics s' = p_diagnostics s).
Proof.
  intros s HI _. unfold literal_reason, wpp.
  pose proof (decode_string_answers t {| cur := cursor_of []; cxl := p_cancel s |}) as Ha.
  pose proof (faithful_fresh (m := decode_string_literal_with_cancellation t)
                {| cur := cursor_of []; cxl := p_cancel s |}) as Hf. unfold answers in Ha.
  destruct (decode_string_literal_with_cancellation t _) as [[x|e] st| | |]; [| |simpl in Ha|done..].
  all: split; [|done]; apply Ext_quiet; try done; by apply diag_same.
Qed.

Lemma span_text_some n s i : Inv n s → is_Some (slice (p_text s) (start (span (p_lex s) i)) (end_ (span (p_lex s) i))).
Proof. intros [Ht _ _]. by apply table_text. Qed.

#[export] Instance acts_unknown_reason n : Acts n unknown_reason always
  (λ s _ s', still s s' ∧ p_recoveries s' = p_recoveries s ∧ p_stopped s' = p_stopped s
             ∧ p_diagnostics s' = p_diagnostics s).
Proof.
  intros s HI _. unfold unknown_reason. apply wpp_chain, wpp_gets. simpl. apply wpp_chain.
  destruct (span_text_some n s (p_cursor s) HI) as [t Ht]. eapply wpp_expected; [exact Ht|].
  apply wpp_chain.
  assert (∀ Q : bool → Parser → Prop, (∀ b, Q b s) →
    wpp (if bool_decide (t = text_of "f")
         then let! rest := expected (slice (p_text s) (offset (p_lex s) (p_cursor s + 1)) (blen (p_text s))) in
              give (starts_with [QUOTE] rest)
         else give false) Q s) as Hf.
  { intros Q HQ. case_bool_decide; [|by apply wpp_give].
    destruct (table_rest _ _ (p_cursor s + 1) (inv_table _ _ HI)) as [r Hr].
    apply wpp_chain. eapply wpp_expected; [exact Hr|]. apply wpp_give. apply HQ. }
  apply Hf. intros []; [by apply wpp_give|]. destruct (_ || _); [|by apply wpp_give].
  by eapply acts_use; [apply _|done..|].
Qed.

#[export] Instance acts_error n k : Acts n (error_here k) (λ _, is_limit k = false)
  (λ s _ s', still s s' ∧ p_recoveries s' = p_recoveries s).
Proof.
  intros s HI Hk. unfold error_here. apply wpp_chain, wpp_gets. simpl. destruct (is_stopped s) eqn:Es.
  { by apply wpp_give. }
  apply is_stopped_false in Es. apply wpp_chain.
  assert (∀ Q : DiagnosticKind → Parser → Prop,
    (∀ k s', is_limit k = false → Ext s s' → still s s' → p_recoveries s' = p_recoveries s →
       p_stopped s' = p_stopped s → p_diagnostics s' = p_diagnostics s → Q k s') →
    wpp (if is_kind (kind_now s) Unknown && negb (is_invalid_literal k)
         then let! reason := unknown_reason in
              give (match reason with Some reason => InvalidLiteral reason | None => k end)
         else give k) Q s) as Hreason.
  { intros Q HQ. destruct (_ && _); [|apply wpp_give; by apply HQ].
    apply wpp_chain. eapply acts_use; [apply _|done..|]. intros o s1 HE (? & ? & ? & ?).
    apply wpp_give. apply HQ; try done. by destruct o. }
  apply Hreason. clear Hreason. intros k' s1 Hk' HE Hs1 Hr Hst Hd.
  rewrite <- Hd, <- (ext_limits _ _ HE), <- (ext_lex _ _ HE), <- (still_cursor _ _ Hs1). rewrite Es in Hst.
  destruct (_ <? _) eqn:El.
  - apply Nat.ltb_lt in El. apply wpp_update. split.
    + etrans; [exact HE|]. apply Ext_quiet; try done. intros Hok.
      pose proof (diag_push s1 k' None Hok Hst ltac:(done) ltac:(congruence)) as H.
      eapply diag_same; [..|exact H]; done.
    + split; [|done]. by destruct Hs1.
  - eapply acts_use; [apply _|done|exact HE|done|]. intros _ s2 HE2 (Hs2 & Hr2 & _). split; [done|].
    split; [|congruence]. destruct Hs1, Hs2. split; congruence.
Qed.

Definition looks (s s' : Parser) : Prop :=
  still s s' ∧ p_recoveries s' = p_recoveries s ∧ p_stopped s' = p_stopped s.

(** A position found at or after another one. *)
Definition reached {A} (at_of : A → nat) (at_ : nat) (o : option A) (l : nat) : Prop :=
  match o with Some a => at_ ≤ at_of a ≤ l | None => True end.

(** ** Stepping through an action *)

Ltac unstill := repeat match goal with H : still _ _ |- _ => destruct H end.
Ltac tidy :=
  repeat match goal with
  | H : _ ∧ _ |- _ => destruct H
  | H : ∃ _, _ |- _ => destruct H
  | H : looks _ _ |- _ => destruct H
  | H : reached _ _ (Some _) _ |- _ => unfold reached, id in H; cbn [fst snd] in H
  | H : ?x = ?x → _ |- _ => specialize (H eq_refl)
  | H : true = false → _ |- _ => clear H
  | H : false = true → _ |- _ => clear H
  | H : Some _ = None → _ |- _ => clear H
  | H : None = Some _ → _ |- _ => clear H
  | H : @eq Parser ?x ?y |- _ => first [subst x | subst y]
  | H : ∀ i, Some ?x = Some i → _ |- _ => specialize (H x eq_refl)
  | H : ∀ i, None = Some i → _ |- _ => clear H
  | H : True |- _ => clear H
  end; unstill.
(** Names the one table. *)
Ltac relex :=
  repeat match goal with
  | H : p_lex ?x = p_lex _, K : context [p_lex ?x] |- _ =>
      first [constr_eq H K; fail 1 | rewrite H in K]
  | H : p_lex ?x = p_lex _ |- context [p_lex ?x] => rewrite H
  end.
(** Discharges the premises that the facts at hand give. *)
Ltac spec :=
  repeat match goal with
  | H : ?A → _ |- _ =>
      lazymatch type of A with
      | Prop => let HA := fresh in assert (HA : A) by (first [assumption|congruence|lia]); specialize (H HA); clear HA
      end
  end; tidy.
(** What a test of the current kind says. *)
Ltac learn H :=
  lazymatch type of H with
  | is_kind (kind_now _) Eof = false => apply now_not_eof in H
  | is_kind (kind_now _) Eof = true => apply now_eof in H
  | is_kind (kind_now _) _ = true =>
      first [apply now_is in H; [|first [reflexivity|assumption]] | idtac]
  | one_of _ (kind_now _) = true => first [apply now_in in H; [|reflexivity] | idtac]
  | one_of _ (kind_now _) = false => first [apply now_not_in in H; [|reflexivity] | idtac]
  | some_one_of _ ?o = true => apply some_one_of_true in H as (? & H & ?); try subst o
  | is_some_kind _ ?o = true => apply is_some_kind_true in H; try subst o
  | is_stopped _ = true => apply is_stopped_true in H
  | (_ =? _) = true => apply Nat.eqb_eq in H
  | (_ =? _) = false => apply Nat.eqb_neq in H
  | (_ <? _) = true => apply Nat.ltb_lt in H
  | (_ <? _) = false => apply Nat.ltb_ge in H
  | (_ <=? _) = true => apply Nat.leb_le in H
  | (_ <=? _) = false => apply Nat.leb_gt in H
  | is_stopped _ = false => apply is_stopped_false in H
  | _ => idtac
  end; tidy.
Ltac split_on b :=
  lazymatch b with
  | negb ?c => split_on c
  | ?a && ?c => split_on a
  | ?a || ?c => split_on a
  | true => idtac
  | false => idtac
  | _ => let H := fresh "Hb" in destruct b eqn:H; learn H
  end.
Definition valid_built {T} `{NodeData T} (b : Built T) (s : Parser) : Prop := valid_node (node b) s.
Ltac solve_pre :=
  unfold always, owned, written, valid_built in *;
  first
    [ exact I | reflexivity | congruence | lia | assumption
    | eapply valid_node_ext; [eassumption|lia|eassumption]
    | (split; solve_pre)
    | (case_match; reflexivity)
    | (spec; congruence)
    | (relex; lia) ].

(** Valid nodes stay valid. *)
Ltac carry Hstep :=
  unfold valid_built in *;
  repeat match goal with
  | H : ?A → progress _ _ |- _ =>
      let HA := fresh in assert (HA : A) by (first [assumption|congruence|left; congruence|right; congruence]);
      specialize (H HA); clear HA
  end;
  lazymatch type of Hstep with
  | Ext ?s ?s' =>
      repeat match goal with
      | H : valid_node ?x s |- _ =>
          lazymatch goal with
          | _ : valid_node x s' |- _ => fail
          | _ => assert (valid_node x s') by (eapply valid_node_ext; [exact Hstep|lia|exact H])
          end
      | H : progress ?x s |- _ =>
          lazymatch goal with
          | _ : progress x s' |- _ => fail
          | _ => assert (progress x s') by (eapply progress_ext; [exact Hstep|lia|exact H])
          end
      | H : valid s ?x |- _ =>
          lazymatch goal with
          | _ : valid s' x |- _ => fail
          | _ => assert (valid s' x) by (eapply valid_ext; [exact Hstep|lia|exact H])
          end
      end
  end; clear Hstep.
(** What follows does not depend on how a block of statements ran. *)
Lemma wpp_cut {A B} n s0 s (m : P A) (k : A → P B) Q : Inv n s0 → Ext s0 s →
  (Inv n s → Ext s s → wpp m (λ _ s', Ext s s' ∧ nf s' = nf s ∧ p_cursor s ≤ p_cursor s') s) →
  (∀ a s', Ext s0 s' → Ext s s' → nf s' = nf s → p_cursor s ≤ p_cursor s' → wpp (k a) Q s') →
  wpp (chain m k) Q s.
Proof.
  intros HI HE Hm Hk. apply wpp_chain. eapply wpp_mono; [apply Hm; [by eapply Inv_ext|done]|].
  intros a s' (? & ? & ?). apply Hk; try done. by etrans.
Qed.
Ltac pcut :=
  match goal with
  | HI : Inv _ ?s0, HE : Ext ?s0 ?s |- wpp (chain _ _) _ ?s =>
      eapply (wpp_cut _ s0 s); [exact HI|exact HE|clear HI; intros ? ?|];
      [|let a := fresh "a" in let s := fresh "s" in let Hstep := fresh "Hstep" in
        intros a s ? Hstep ? ?; carry Hstep]
  end.
Ltac pchain :=
  lazymatch goal with
  | |- wpp (@chain bool _ _ _) _ _ => apply wpp_chain
  | |- wpp (@chain (bool * nat) _ _ _) _ _ => apply wpp_chain
  | |- wpp (chain (mapO _ _) _) _ _ => pcut
  | |- wpp (chain (thenM _ _) _) _ _ => pcut
  | |- wpp (chain (if _ then _ else _) _) _ _ => pcut
  | |- wpp (chain (match _ with _ => _ end) _) _ _ => pcut
  | |- wpp (chain _ _) _ _ => apply wpp_chain
  end.
Ltac pcall :=
  eapply acts_step; [|eassumption|eassumption| |]; [apply _|cbv beta; solve_pre|cbv beta];
  let a := fresh "a" in let s := fresh "s" in let Hstep := fresh "Hstep" in
  intros a s ? Hstep ?; unfold keeps in *;
  try (lazymatch type of a with (option kind * nat)%type => destruct a as [? ?] | (bool * nat)%type => destruct a as [? ?] end);
  cbn [fst snd] in *; tidy; carry Hstep.
Ltac pstep :=
  lazymatch goal with
  | |- wpp (chain _ _) _ _ => pchain
  | |- wpp (thenM _ _) _ _ => unfold thenM at 1
  | |- wpp (mapO _ _) _ _ => unfold mapO at 1
  | |- wpp (give _) _ _ => apply wpp_give
  | |- wpp (again _) _ _ => apply wpp_give
  | |- wpp (leave _) _ _ => apply wpp_give
  | |- wpp (gets _) _ _ => apply wpp_gets
  | |- wpp (update _) _ _ => apply wpp_update
  | |- wpp (at_ _) _ _ => apply wpp_gets
  | |- wpp (at_any _) _ _ => apply wpp_gets
  | |- wpp current_kind _ _ => apply wpp_gets
  | |- wpp anchor _ _ => apply wpp_gets
  | |- wpp cursor _ _ => apply wpp_gets
  | |- wpp completed_depth _ _ => apply wpp_gets
  | |- wpp in_declarations _ _ => apply wpp_gets
  | |- wpp allow_struct_literals _ _ => apply wpp_gets
  | |- wpp (andM _ _) _ _ => unfold andM at 1
  | |- wpp (orM _ _) _ _ => unfold orM at 1
  | |- wpp (notM _) _ _ => unfold notM at 1
  | |- wpp (if ?b then _ else _) _ _ => split_on b
  | |- wpp (match ?x with _ => _ end) _ _ => destruct x eqn:?; cbn [fst snd] in *; tidy
  | |- wpp _ _ _ => pcall
  end; cbn [negb andb orb fst snd]; cbv beta.
Ltac psteps := repeat pstep.
Tactic Notation "start" ident(s) ident(HI) simple_intropattern(p) :=
  intros s HI p; assert (Ext s s) by reflexivity; unfold always, owned, written in *.

(** The end of a path: the extension, the numbers, the progress of a round. *)
Ltac solve_progress :=
  repeat match goal with
  | H : ?A → progress _ _ |- _ =>
      let HA := fresh in assert (HA : A) by (first [assumption|congruence|left; congruence|right; congruence]);
      specialize (H HA); clear HA
  end;
  unfold progress in *;
  first
    [ left; congruence
    | right; lia
    | match goal with
      | H : Lexical.kind (p_lex ?x) (p_cursor ?y) ≠ Eof → _, Hx : Ext ?s ?x, Hy : Ext ?s ?y |- _ =>
          rewrite (ext_lex _ _ Hx), <- (ext_lex _ _ Hy) in H;
          change (Lexical.kind (p_lex y) (p_cursor y)) with (raw y) in H;
          destruct H; [congruence|lia|left; assumption|right; lia]
      end
    | match goal with H : _ → _ ∨ _ < _ |- _ => destruct H; [congruence|left; assumption|right; lia] end
    | match goal with H : _ ∨ _ < _ |- _ => destruct H; [first [left; assumption|congruence]|right; lia] end
    ].
Ltac pdone :=
  unfold keeps, always, owned, anything, valid_built in *;
  repeat match goal with |- _ ∧ _ => split | |- still _ _ => split end;
  first
    [ assumption
    | exact I
    | reflexivity
    | lia
    | congruence
    | apply valid_token; lia
    | (subst; simpl; first [exact I|assumption|apply valid_token; lia])
    | match goal with
      | H : node ?a = _ |- valid_node (node ?a) _ =>
          rewrite H;
          first [exact I | assumption | (apply valid_node_map; [done|assumption])
                | (subst; simpl; first [assumption|apply valid_token; lia])]
      end
    | (apply valid_node_map; [done|assumption])
    | eapply valid_node_ext; [eassumption|lia|eassumption]
    | apply mu_lt; [assumption|congruence|congruence|solve_progress]
    | match goal with
      | H : raw ?x ≠ Eof |- mu _ < mu ?s =>
          apply (mu_lt_at s x); [assumption|congruence|assumption|lia|exact H|solve_progress]
      end
    | idtac ].

(** ** Advancing *)
#[export] Instance acts_bump n : Acts n bump_trivia always (λ s _ s', nf s' = nf s
  ∧ p_cursor s ≤ p_cursor s' ∧ p_recoveries s' = p_recoveries s ∧ ahead s' = ahead s
  ∧ (is_trivia (raw s) = false → s' = s)
  ∧ (p_stopped s' = None → is_trivia (raw s') = false)).
Proof.
  intros s HI _. unfold bump_trivia.
  eapply (wpp_loop _ (λ _ s1, Ext s s1 ∧ nf s1 = nf s ∧ p_cursor s ≤ p_cursor s1
    ∧ p_recoveries s1 = p_recoveries s ∧ ahead s1 = ahead s
    ∧ (is_trivia (raw s) = false → s1 = s)) (λ _ s1, len (p_lex s1) - p_cursor s1)); [done|lia|].
  intros _ s1 (HE & Hn & Hc & Hr & Ha & Hsame). apply wpp_chain, wpp_gets. cbv beta. unfold id. destruct (is_trivia (raw s1)) eqn:Et; simpl.
  2: { apply wpp_give. split_and!; try done. }
  assert (p_cursor s1 < len (p_lex s1)) as Hlt by (by apply kind_lt, trivia_not_eof).
  apply wpp_chain.
  assert (∀ Q : bool → Parser → Prop,
    (∀ b s2, Ext s s2 → still s1 s2 → p_recoveries s2 = p_recoveries s1 →
       (b = true → p_stopped s2 ≠ None) → Q b s2) →
    wpp (if p_cursor s1 mod CANCELLATION_CHECK_TOKENS =? 0 then notM continue_parsing else give false) Q s1)
    as Hstop.
  { intros Q HQ. destruct (_ =? _); [|by apply wpp_give, HQ]. psteps. apply HQ; [done|by split|done|].
    intros Hna%negb_true_iff. auto. }
  assert (is_trivia (raw s) = false → False) as Hno by (intros H; rewrite (Hsame H), H in Et; done).
  apply Hstop. intros [] s2 HE2 Hs2 Hr2 Hst.
  - apply wpp_give. destruct Hs2. specialize (Hst eq_refl). split_and!; try done; try congruence; try lia; done.
  - apply wpp_chain, wpp_update, wpp_give. destruct Hs2 as [_ Hc2 Hn2 _ Ha2].
    pose proof (ext_lex _ _ HE2) as Hl2. pose proof (ext_lex _ _ HE) as Hl.
    assert (Ext s (set_cursor (p_cursor s2 + 1) s2)) as HE3 by (etrans; [exact HE2|quiet]).
    simpl. split_and!; try done; try lia.
    + by transitivity (nf s2); [|congruence].
    + congruence.
    + unfold ahead at 1. simpl. replace (p_cursor s2 + 1) with (S (p_cursor s1)) by lia.
      rewrite <- Ha. unfold ahead. rewrite Hl2, <- Hl. by apply upcoming_trivia.
    + rewrite Hl2, <- Hl. lia.
Qed.

Lemma Ext_cursor s c : Ext s (set_cursor c s).
Proof. quiet. Qed.

#[export] Instance acts_advance n k : Acts n (advance_cursor k) always
  (λ s _ s', p_cursor s' = p_cursor s + k ∧ nf s' = nf s ∧ p_recoveries s' = p_recoveries s
             ∧ p_stopped s' = p_stopped s ∧ p_lex s' = p_lex s ∧ p_frames s' = p_frames s).
Proof. intros s HI _. apply wpp_update. split; [apply Ext_cursor|done]. Qed.

Lemma ahead_advance s s' : p_cursor s' = p_cursor s + 1 → p_lex s' = p_lex s →
  ahead s' = upcoming (p_lex s) (S (p_cursor s)).
Proof. unfold ahead. intros -> ->. by rewrite Nat.add_1_r. Qed.
Lemma written_raw s : ahead s ≠ Eof → raw s ≠ Eof.
Proof.
  unfold ahead. destruct (is_trivia (raw s)) eqn:Et; [by intros _; apply trivia_not_eof|].
  by rewrite upcoming_kind.
Qed.

(** A token is taken once one is written ahead. *)
#[export] Instance acts_take n : Acts n take_token written (λ s i s', nf s' = nf s
  ∧ p_cursor s ≤ i < p_cursor s' ∧ p_recoveries s' = p_recoveries s
  ∧ (is_trivia (raw s) = false → ahead s' = upcoming (p_lex s) (S (p_cursor s)))).
Proof.
  start s HI Hw. unfold take_token. psteps.
  { apply is_kind_true in Hb. apply written_raw in Hb; [done|]. unfold id. congruence. }
  unfold id in *. split; [done|]. split_and!; try congruence; try lia.
  intros Ht. assert (s0 = s) as -> by auto. rewrite <- ahead_advance with (s' := s1) by done. congruence.
Qed.

#[export] Instance acts_eat n k : Acts n (eat k) (λ _, lively k = true) (λ s o s', nf s' = nf s
  ∧ p_cursor s ≤ p_cursor s' ∧ (∀ i, o = Some i → p_cursor s ≤ i < p_cursor s')
  ∧ (is_trivia (raw s) = false → o = None → s' = s)
  ∧ (p_stopped s = None → raw s = k → o ≠ None)).
Proof.
  start s HI Hk. unfold eat, thenM. psteps.
  - split; [done|]. split_and!; try done; try lia. intros i [= <-]. lia.
  - split; [done|]. split_and!; try done; [auto|]. intros Hs Hr. rewrite <- Hr in Hk.
    assert (s0 = s) as -> by (apply H5, lively_raw, Hk).
    unfold kind_now in Hb. rewrite Hs, Hr in Hb. by apply is_kind_false in Hb.
Qed.

#[export] Instance acts_expect n k d : Acts n (expect k d) (λ _, lively k = true ∧ is_limit d = false)
  (λ s r s', nf s' = nf s ∧ p_cursor s ≤ p_cursor s' ∧ (p_stopped s = None → raw s = k → p_cursor s < p_cursor s')).
Proof.
  start s HI [Hk Hd]. unfold expect. psteps.
  all: split; [done|]; split_and!; try done; try lia; intros Hs Hr.
  - destruct Hb; congruence.
  - rewrite <- Hr in Hk. assert (s0 = s) as -> by (apply H5, lively_raw, Hk).
    unfold kind_now in Hb. rewrite Hs, Hr in Hb. by apply is_kind_false in Hb.
Qed.

#[export] Instance acts_missing_here {T} n k : Acts n (missing_here (T := T) k) (λ _, is_limit k = false)
  (λ s r s', still s s' ∧ p_recoveries s' = p_recoveries s ∧ ∃ at_, r = Missing at_).
Proof. start s HI Hk. unfold missing_here. psteps. split; [done|]. split_and!; try done; eauto. Qed.
#[export] Instance acts_built_missing_here {T} n k : Acts n (built_missing_here (T := T) k)
  (λ _, is_limit k = false)
  (λ s r s', still s s' ∧ p_recoveries s' = p_recoveries s ∧ ∃ at_, node r = Missing at_).
Proof. start s HI Hk. unfold built_missing_here. psteps. split; [done|]. split_and!; try done; eauto. Qed.

#[export] Instance acts_operator {O} n (o : O) k : Acts n (operator o k) always
  (λ s _ s', nf s' = nf s ∧ p_cursor s + k ≤ p_cursor s' ∧ p_recoveries s' = p_recoveries s).
Proof. start s HI _. unfold operator. psteps. split; [done|]. split_and!; try congruence; lia. Qed.

(** ** Recovery scopes *)
Lemma Ext_frames s f : Ext s (set_frames f s).
Proof. quiet. Qed.

#[export] Instance acts_begin_at n f d : Acts n (begin_at f d) always
  (λ s m s', nf s' = S (nf s) ∧ mark_frame m = nf s ∧ mark_first m = f ∧ p_cursor s' = p_cursor s
             ∧ p_stopped s' = p_stopped s ∧ p_lex s' = p_lex s ∧ p_recoveries s' = p_recoveries s
             ∧ raw s' = raw s ∧ ahead s' = ahead s).
Proof. start s HI _. unfold begin_at. psteps. split; [apply Ext_frames|done]. Qed.
#[export] Instance acts_begin n : Acts n begin always
  (λ s m s', nf s' = S (nf s) ∧ mark_frame m = nf s ∧ mark_first m = p_cursor s' ∧ p_cursor s ≤ p_cursor s'
             ∧ ahead s' = ahead s
             ∧ (is_trivia (raw s) = false →
                p_cursor s' = p_cursor s ∧ raw s' = raw s ∧ p_stopped s' = p_stopped s)).
Proof.
  start s HI _. unfold begin. psteps. split; [done|]. split_and!; try congruence; try lia.
  intros Ht. assert (s0 = s) as -> by auto. done.
Qed.

#[export] Instance acts_last_frame n : Acts n last_frame owned (λ s f s', s' = s ∧ head (p_frames s) = Some f).
Proof.
  start s HI Ho. unfold last_frame. do 2 pstep. unfold nf, id in *. destruct (p_frames s) as [|f fs]; simpl in Ho; [lia|].
  by eapply wpp_expected.
Qed.
Lemma on_frame_length f l : length (on_frame f l) = length l.
Proof. by destruct l. Qed.
#[export] Instance acts_set_last_frame n f : Acts n (set_last_frame f) always
  (λ s _ s', still s s' ∧ p_recoveries s' = p_recoveries s ∧ p_stopped s' = p_stopped s).
Proof.
  start s HI _. unfold set_last_frame. psteps. split; [apply Ext_frames|]. split_and!; try done.
  apply still_intro; try done. apply on_frame_length.
Qed.

#[export] Instance acts_account n d : Acts n (account_depth d) always
  (λ s _ s', still s s' ∧ p_recoveries s' = p_recoveries s).
Proof.
  start s HI _. unfold account_depth. apply wpp_chain, wpp_update, wpp_chain, wpp_update, wpp_chain, wpp_gets.
  set (s1 := set_frames _ _). assert (Ext s s1) as HE by quiet.
  assert (still s s1) as Hs by (apply still_intro; try done; apply on_frame_length).
  assert (p_recoveries s1 = p_recoveries s) as Hr by done. clearbody s1. unfold id. psteps; (split; [done|]).
  - split; [|congruence]. split; congruence.
  - split; [|congruence]. split; congruence.
Qed.

#[export] Instance acts_position n a b : Acts n (position a b) owned
  (λ s _ s', still s s' ∧ p_recoveries s' = p_recoveries s ∧ p_stopped s' = p_stopped s).
Proof. start s HI Ho. unfold position. psteps. subst. split; [done|]. by split_and!. Qed.

#[export] Instance acts_unexpected n a b : Acts n (unexpected_range a b) owned
  (λ s _ s', still s s' ∧ p_recoveries s' = p_recoveries s ∧ p_stopped s' = p_stopped s).
Proof. start s HI Ho. unfold unexpected_range. psteps; subst; (split; [done|]); by split_and!. Qed.

#[export] Instance acts_bump_as_error n : Acts n bump_as_error owned
  (λ s _ s', nf s' = nf s ∧ p_cursor s ≤ p_cursor s' ∧ (raw s ≠ Eof → progress s s')).
Proof.
  start s HI Ho. unfold bump_as_error, progress. psteps; (split; [done|]).
  - split_and!; try done; try lia. intros. by destruct Hb; [left|].
  - split_and!; try congruence; try lia; intros; right; lia.
Qed.

#[export] Instance acts_guard n before : Acts n (guard_progress before) owned
  (λ s _ s', nf s' = nf s ∧ p_cursor s ≤ p_cursor s'
     ∧ (Lexical.kind (p_lex s) before ≠ Eof → before ≤ p_cursor s →
        p_stopped s' ≠ None ∨ before < p_cursor s')).
Proof.
  start s HI Ho. unfold guard_progress. psteps.
  all: split; [done|]; split_and!; try done; try lia; intros Hk Hle.
  - subst. by destruct Hb0 as [?|?]; [left|].
  - subst. by apply H5.
Qed.

#[export] Instance acts_pop n m : Acts n (pop_frame m) (λ s, mark_frame m + 1 = nf s)
  (λ s _ s', nf s = S (nf s') ∧ p_cursor s' = p_cursor s ∧ p_recoveries s' = p_recoveries s
             ∧ p_stopped s' = p_stopped s ∧ p_lex s' = p_lex s ∧ raw s' = raw s ∧ ahead s' = ahead s).
Proof.
  start s HI Hm. unfold pop_frame. do 2 pstep. unfold id, nf in *. rewrite Hm, Nat.eqb_refl.
  assert (owned s) as Ho by (unfold owned, nf; lia). psteps. subst. unfold nf in *. simpl.
  split; [apply Ext_frames|]. split_and!; try done. rewrite length_tl. lia.
Qed.

Lemma trim_bounds l f e : f ≤ e → f ≤ trim_trivia l f e ≤ e.
Proof.
  induction e as [|e IH]; simpl; [lia|]. intros Hle. destruct (_ && _) eqn:E; [|lia].
  apply andb_true_iff in E as [E _]. apply Nat.ltb_lt in E. specialize (IH ltac:(lia)). lia.
Qed.

(** The coverage a site stands for. *)
Definition covers (s : Parser) (site : SyntaxSite) (a b : nat) : Prop :=
  site_resolve (p_recoveries s) site = Some {| first := a; site_end := b |}.
Lemma acts_end_site n m : Acts n (end_mark m) (λ s, mark_frame m + 1 = nf s ∧ mark_first m ≤ p_cursor s)
  (λ s site s', nf s = S (nf s') ∧ p_cursor s' = p_cursor s
     ∧ covers s' site (mark_first m) (trim_trivia (p_lex s) (mark_first m) (p_cursor s))
     ∧ raw s' = raw s ∧ ahead s' = ahead s).
Proof.
  start s HI [Hm Hf]. unfold end_mark, covers. psteps; unfold id in *.
  - split; [done|]. split_and!; try congruence. unfold site_resolve. simpl. replace (p_cursor s1) with (p_cursor s) by congruence.
    replace (p_lex s1) with (p_lex s) by congruence. rewrite (proj2 (Nat.ltb_ge _ _)); [done|]. by apply trim_bounds.
  - set (r := {| rec_site := _; rec_unexpected := _ |}). split.
    + etrans; [eassumption|]. split; try done; [by apply prefix_app_r|].
      exists []. by rewrite app_nil_r.
    + split; [change (nf s = S (nf s1)); congruence|]. split; [simpl; congruence|].
      split; [|split; [change (raw s1 = raw s)|change (ahead s1 = ahead s)]; congruence].
      unfold site_resolve. simpl. rewrite length_app. simpl. rewrite (proj2 (Nat.ltb_lt _ _)) by lia.
      rewrite Nat.add_sub, list_lookup_middle by done. simpl. congruence.
Qed.
#[export] Instance acts_end n m : Acts n (end_mark m) (λ s, mark_frame m + 1 = nf s ∧ mark_first m ≤ p_cursor s)
  (λ s site s', nf s = S (nf s') ∧ p_cursor s' = p_cursor s ∧ valid s' site ∧ raw s' = raw s ∧ ahead s' = ahead s).
Proof.
  intros s HI Hp. eapply wpp_mono; [exact (acts_end_site n m s HI Hp)|]. intros site s' (HE & ? & Hc & Hv & ? & ?).
  split; [done|]. split_and!; try done. eexists. split; [exact Hv|]. simpl. destruct Hp. lia.
Qed.

#[export] Instance acts_first_of {T} `{NodeData T} n (b : Built T) f : Acts n (first_of b f)
  (λ s, valid_node (node b) s ∧ f ≤ p_cursor s) (λ s c s', s' = s ∧ c ≤ p_cursor s).
Proof.
  start s HI [Hv Hf]. unfold first_of. destruct (node b) as [x|]; [|by apply wpp_give].
  destruct Hv as (r & Hr & Hle). do 2 pstep. apply wpp_chain. eapply wpp_expected; [exact Hr|]. by psteps.
Qed.

#[export] Instance acts_abandon n m c : Acts n (abandon m c) (λ s, mark_frame m + 1 = nf s)
  (λ s _ s', nf s = S (nf s') ∧ p_cursor s' = c ∧ p_stopped s' ≠ None).
Proof.
  start s HI Hm. unfold abandon. psteps. split; [|done].
  etrans; [eassumption|]. etrans; [|apply Ext_cursor]. quiet.
Qed.

(** ** Limits *)
#[export] Instance acts_admit n d c : Acts n (admit_depth d c) always
  (λ s b s', still s s' ∧ p_recoveries s' = p_recoveries s
             ∧ (b = true → p_stopped s = None ∧ p_stopped s' = None) ∧ (b = false → p_stopped s' ≠ None)).
Proof.
  start s HI _. unfold admit_depth. psteps; unfold id in *; (split; [done|]); split_and!; try done; by split.
Qed.

Lemma acts_struct_literals {A} n b (m : P A) pre X :
  Acts n m pre (keeps X) → (∀ s b, pre s → pre (set_allow b s)) → (∀ a s b, X a s → X a (set_allow b s)) →
  Acts n (with_struct_literals b m) pre (keeps X).
Proof.
  intros Hm Hpre HX. start s HI Hp. unfold with_struct_literals. do 4 pstep. apply wpp_chain.
  assert (Inv n (set_allow b s)) as HI' by (destruct HI; by split).
  eapply wpp_mono; [apply Hm; [done|by apply Hpre]|]. intros a s' [HE (Hn & Hc & Hx)]. psteps. split.
  - destruct HE. by split.
  - split_and!; auto.
Qed.

Definition Guarded {A} (n : nat) (m : P A) (pre : Parser → Prop) (post : Parser → A → Parser → Prop) : Prop :=
  match n with 0 => True | S n => Acts n m pre post end.

Lemma acts_with_nesting {A} n (m : P A) pre X : Guarded n m pre (keeps X) →
  (∀ s k, pre s → pre (set_nesting k s)) → (∀ a s k, X a s → X a (set_nesting k s)) →
  Acts n (with_nesting m) pre (keeps (λ o s', match o with Some a => X a s' | None => True end)).
Proof.
  intros Hm Hpre HX. start s HI Hp. unfold with_nesting. psteps; unfold id in *.
  - by split.
  - split; [done|]. split_and!; try done; lia.
  - destruct n as [|n]; [destruct HI; lia|]. simpl in Hm.
    assert (Inv n (set_nesting (p_nesting s + 1) s)) as HI' by (destruct HI; split; simpl; try done; lia).
    eapply wpp_mono; [apply Hm; [done|by apply Hpre]|]. intros a s' [HE (Hn & Hc & Hx)]. psteps. split.
    + destruct HE. split; try done. simpl. rewrite ext_nesting0. simpl. lia.
    + split_and!; auto.
Qed.
Lemma acts_nested {T} n (m : P (Built T)) pre X : Guarded n m pre (keeps X) →
  (∀ s k, pre s → pre (set_nesting k s)) → (∀ a s k, X a s → X a (set_nesting k s)) →
  (∀ at_ s, X (built_missing at_) s) → Acts n (nested m) pre (keeps X).
Proof.
  intros Hm Hpre HX Hmiss. start s HI Hp. unfold nested. apply wpp_chain.
  eapply acts_use; [by apply acts_with_nesting|done..|]. intros o s' HE (? & ? & Ho). destruct o; psteps; done.
Qed.

Lemma acts_rejected {A} n (m : P A) pre (post : Parser → A → Parser → Prop) : Acts n m pre post →
  (∀ s a s', post s a s' → nf s' = nf s ∧ p_cursor s ≤ p_cursor s') →
  Acts n (rejected m) (λ s, pre s ∧ owned s)
    (λ s _ s', nf s' = nf s ∧ p_cursor s ≤ p_cursor s' ∧ ∃ a s1, post s a s1 ∧ p_cursor s' = p_cursor s1).
Proof.
  intros Hm Hpost. start s HI [Hp Ho]. unfold rejected. do 5 pstep.
  eapply wpp_mono; [by apply Hm|]. intros a s' [HE Hx]. destruct (Hpost _ _ _ Hx) as [Hn Hc]. do 4 pstep.
  set (s1 := set_recoveries _ _). assert (p_recoveries s1 = p_recoveries s) as Hr.
  { simpl. destruct (ext_recoveries _ _ HE) as [l ->]. by rewrite take_app_length. }
  assert (Ext s s1) as HE1 by (destruct HE; split; try done; by rewrite Hr).
  assert (nf s1 = nf s) as Hn1 by done. assert (p_cursor s1 = p_cursor s') as Hc1 by done.
  clearbody s1. psteps. split; [done|]. split; [congruence|]. split; [lia|].
  exists a, s'. split; [done|congruence].
Qed.

(** ** Lookahead *)
Lemma looks_refl s : looks s s.
Proof. done. Qed.
Lemma looks_trans s1 s2 s3 : looks s1 s2 → looks s2 s3 → looks s1 s3.
Proof. intros ([] & ? & ?) ([] & ? & ?). split; [split; congruence|]. split; congruence. Qed.

(** A lookahead loop moves its own position forward. *)
Lemma acts_look_loop {A B} n (body : A → P (A + B)) (at_of : A → nat) (lo : nat) (K : B → nat → Prop) a :
  (∀ a, lo ≤ at_of a → Acts n (body a) (λ s, at_of a ≤ len (p_lex s)) (λ s r s', looks s s' ∧
     match r with inl a' => at_of a < at_of a' ≤ len (p_lex s) | inr b => K b (len (p_lex s)) end)) →
  lo ≤ at_of a →
  Acts n (loop body a) (λ s, at_of a ≤ len (p_lex s)) (λ s b s', looks s s' ∧ K b (len (p_lex s))).
Proof.
  intros Hb Hlo s HI Hle.
  eapply (wpp_loop _ (λ a s1, Ext s s1 ∧ looks s s1 ∧ lo ≤ at_of a ≤ len (p_lex s))
           (λ a s1, len (p_lex s1) - at_of a)); [done|lia|].
  intros a1 s1 (HE & Hl & Hlo1 & Hle1). pose proof (ext_lex _ _ HE) as Hx.
  eapply acts_use; [by apply Hb|done|done|cbv beta; by rewrite Hx|]. intros r s2 HE2 [Hl2 Hr]. rewrite Hx in Hr.
  pose proof (ext_lex _ _ HE2) as Hx2. destruct r as [a2|b].
  - rewrite Hx, Hx2. split; [|lia]. split; [done|]. split; [by eapply looks_trans|lia].
  - split; [done|]. split; [by eapply looks_trans|done].
Qed.

#[export] Instance acts_nth_from n at_ : Acts n (nth_nontrivia_kind_from at_) always
  (λ s r s', looks s s' ∧ ∀ k, fst r = Some k → k = upcoming (p_lex s) at_
     ∧ at_ < snd r ≤ len (p_lex s) ∧ (is_trivia (Lexical.kind (p_lex s) at_) = false → snd r = S at_)).
Proof.
  start s HI _. unfold nth_nontrivia_kind_from. do 2 pstep. unfold id. destruct (is_stopped s) eqn:Es.
  { apply wpp_give. split; [done|]. split; [apply looks_refl|done]. }
  eapply (wpp_loop _ (λ a s1, Ext s s1 ∧ looks s s1 ∧ at_ ≤ a ∧ upcoming (p_lex s) a = upcoming (p_lex s) at_
            ∧ (is_trivia (Lexical.kind (p_lex s) at_) = false → a = at_))
           (λ a s1, len (p_lex s1) - a)); [by split_and!; try apply looks_refl|lia|].
  intros a s1 (HE & Hl & Ha & Hu & Hsame). pstep; [by apply wpp_give|]. apply wpp_chain.
  assert (∀ Q : bool → Parser → Prop, (∀ b s2, Ext s s2 → looks s s2 → Q b s2) →
    wpp (if a mod CANCELLATION_CHECK_TOKENS =? 0 then poll else give true) Q s1) as Hpoll.
  { intros Q HQ. destruct (_ =? _); [|by apply wpp_give, HQ].
    eapply acts_use; [apply _|done..|]. intros b s2 HE2 (? & ? & ? & _). apply HQ; [done|].
    eapply looks_trans; [done|]. by split. }
  apply Hpoll. intros b s2 HE2 Hl2. destruct b; cbn [negb]; [|by apply wpp_give].
  pose proof (ext_lex _ _ HE2) as Hx. pose proof (ext_lex _ _ HE) as Hx1.
  destruct (is_trivia (Lexical.kind (p_lex s) a)) eqn:Et; apply wpp_give; cbv beta iota.
  - rewrite Hx, Hx1, Nat.add_1_r. split; [|lia]. split_and!; try done; [lia|..].
    + rewrite <- Hu. by apply upcoming_trivia.
    + intros H'. rewrite (Hsame H') in Et. congruence.
  - split; [done|]. split; [done|]. intros k [= <-]. simpl. rewrite <- Hu, upcoming_kind by done.
    split_and!; try done; try lia. intros H'. rewrite (Hsame H'). lia.
Qed.

#[export] Instance acts_nth_1 n : Acts n (nth_nontrivia_kind 1) always
  (λ s o s', looks s s' ∧ ∀ k, o = Some k → is_trivia (raw s) = false →
     k = upcoming (p_lex s) (S (p_cursor s))).
Proof.
  start s HI _. unfold nth_nontrivia_kind. do 2 pstep. simpl nth_from. apply wpp_chain.
  eapply acts_use; [apply _|done..|]. intros [o1 at1] s1 HE [Hl Hr]. cbn [fst snd] in *.
  destruct o1 as [k1|]; [|apply wpp_give; split; [done|]; split; [done|intros ? [=]]].
  apply wpp_chain. eapply acts_use; [apply _|done|exact HE|done|]. intros [o2 at2] s2 HE2 [Hl2 Hr2].
  apply wpp_give. split; [done|]. split; [by eapply looks_trans|]. cbn [fst snd] in *. intros k -> Ht.
  destruct (Hr2 k eq_refl) as (-> & _). destruct (Hr k1 eq_refl) as (_ & _ & Hs).
  by rewrite (ext_lex _ _ HE), (Hs Ht).
Qed.

(** ** Loops of the grammar *)
Lemma acts_loop {A B} n (body : A → P (A + B)) (J : A → Parser → Prop) (K : B → Parser → Prop) a :
  (∀ a, Acts n (body a) (J a) (λ s r s', nf s' = nf s ∧ p_cursor s ≤ p_cursor s' ∧
     match r with inl a' => J a' s' ∧ mu s' < mu s | inr b => K b s' end)) →
  Acts n (loop body a) (J a) (keeps K).
Proof.
  intros Hb s HI HJ.
  eapply (wpp_loop _ (λ a s1, Ext s s1 ∧ nf s1 = nf s ∧ p_cursor s ≤ p_cursor s1 ∧ J a s1) (λ _, mu));
    [done|apply mu_le|].
  intros a1 s1 (HE & Hn & Hc & HJ1). eapply acts_use; [apply Hb|done..|].
  intros r s2 HE2 (Hn2 & Hc2 & Hr). destruct r as [a2|b].
  - destruct Hr. split_and!; try done; try congruence; lia.
  - unfold keeps. split_and!; try done; try congruence; lia.
Qed.

(** A condition that only reads. *)
Class Reads {A} (m : P A) : Prop := reads_run : ∀ s, ∃ a, m s = Ret a s.
#[export] Instance reads_gets {A} (f : Parser → A) : Reads (gets f).
Proof. intros s. by eexists. Qed.
#[export] Instance reads_at k : Reads (at_ k).
Proof. intros s. by eexists. Qed.
#[export] Instance reads_at_any ks : Reads (at_any ks).
Proof. intros s. by eexists. Qed.
#[export] Instance reads_or m k : Reads m → Reads k → Reads (orM m k).
Proof.
  intros Hm Hk s. destruct (Hm s) as [a Ha], (Hk s) as [b Hb]. unfold orM, chain. rewrite Ha.
  destruct a; [by eexists|]. rewrite Hb. by eexists.
Qed.
Lemma reads_acts {A} n (m : P A) : Reads m → Acts n m always (λ s _ s', s' = s).
Proof. intros Hm s HI _. destruct (Hm s) as [a Ha]. unfold wpp. rewrite Ha. done. Qed.

#[export] Instance acts_skip_unknown n : Acts n skip_unknown owned (keeps anything).
Proof. apply (acts_loop n _ (λ _, owned)). intros []. start s HI Ho. psteps; pdone. Qed.
#[export] Instance acts_skip_to n stops : Acts n (skip_to stops) (λ s, owned s ∧ one_of stops Eof = true) (keeps anything).
Proof.
  intros s HI [Ho He]. revert s HI Ho. apply (acts_loop n _ (λ _, owned)). intros []. start s HI Ho. psteps.
  all: try (apply now_not_in in Hb; [|done]); tidy; pdone.
Qed.

#[export] Instance acts_separator n e starts : Reads starts →
  Acts n (recover_list_separator e starts) owned (keeps anything).
Proof.
  intros Hst. pose proof (reads_acts n starts Hst). start s HI Ho. unfold recover_list_separator. psteps; pdone.
Qed.

#[export] Instance acts_list {T} n e starts (parse : P (Built T)) X f i : Reads starts → Acts n parse always (keeps X) →
  Acts n (list_ e starts parse f i) owned (keeps anything).
Proof.
  intros Hst Hp. apply (acts_loop n _ (λ _, owned)). intros [result d]. start s HI Ho. psteps; pdone.
Qed.
