(* ===== verification/GrammarInv.v ===== *)
(** * The productions keep the parser's invariant

    Every production of [GrammarTypes], [GrammarExpr] and [GrammarItems] acts: given that
    the guarded entries it makes act with one entry less, it neither crashes nor exhausts
    a loop, closes the recovery scopes it opens and never moves the cursor back. *)
From S2P Require Import Prelude Text Token Lexical Syntax ParserCore GrammarTypes GrammarExpr GrammarItems ParserInv.
Import TokenKind.
Open Scope nat_scope.

(** ** Names and paths *)
#[export] Instance acts_take_name n : Acts n take_name written (λ s name s', nf s' = nf s
  ∧ (∃ i, name = MkName i ∧ p_cursor s ≤ i < p_cursor s') ∧ p_recoveries s' = p_recoveries s
  ∧ (is_trivia (raw s) = false → ahead s' = upcoming (p_lex s) (S (p_cursor s)))).
Proof.
  start s HI Hw. unfold take_name. psteps. split; [done|]. split_and!; try congruence.
  - eexists. split; [done|]. lia.
  - intros Ht. etrans; [eassumption|auto].
Qed.

#[export] Instance acts_parse_name n d : Acts n (parse_name d) (λ _, is_limit d = false)
  (λ s r s', nf s' = nf s ∧ p_cursor s ≤ p_cursor s'
     ∧ (p_stopped s = None → raw s = Ident → p_cursor s < p_cursor s' ∧ (∃ name, r = Present name)
          ∧ ahead s' = upcoming (p_lex s) (S (p_cursor s)))).
Proof.
  start s HI Hd. unfold parse_name. psteps; (split; [done|]).
  - subst. split_and!; try done; try lia. intros _ _. split_and!; eauto; lia.
  - split_and!; try lia. intros Hs Hr. unfold kind_now in Hb. rewrite Hs, Hr in Hb. by apply is_kind_false in Hb.
Qed.

#[export] Instance reads_path_starts : Reads path_starts.
Proof. apply _. Qed.


#[export] Instance acts_path_continues n : Acts n path_continues always (λ s b s', still s s'
  ∧ p_recoveries s' = p_recoveries s ∧ (b = true → p_stopped s = None ∧ raw s = ColonColon
     ∧ is_trivia (raw s) = false ∧ ahead s ≠ Eof ∧ upcoming (p_lex s) (S (p_cursor s)) ≠ Eof)).
Proof.
  start s HI _. unfold path_continues. psteps.
  - split; [done|]. split_and!; pdone.
    intros (k & -> & Hk)%some_one_of_true. split_and!; try done.
    tidy. spec. intros He. replace k with Eof in Hk by congruence.
    by apply one_of_true in Hk.
  - by split.
  - by split.
Qed.

#[export] Instance acts_segments n : Acts n parse_path_segments always (keeps anything).
Proof. apply (acts_loop n _ (λ _, always)). intros r. start s HI _. psteps; pdone. Qed.
#[export] Instance acts_parse_path n : Acts n parse_path always (keeps valid_node).
Proof.
  start s HI _. unfold parse_path, path_starts. psteps; pdone.
  subst. case_match; simpl; [by apply valid_token; lia|done].
Qed.

(** ** Lookahead *)
Ltac look_done :=
  split; [assumption|]; split;
  [split; [split|split]; congruence
  |first [done | lia | intros; discriminate | (intros; split; lia) | (relex; lia) | (intros; relex; split; lia) | idtac]].

#[export] Instance acts_skip_angle n at_ : Acts n (skip_angle_group at_) (λ s, at_ ≤ len (p_lex s))
  (λ s b s', looks s s' ∧ (fst b = true → at_ < snd b ≤ len (p_lex s))).
Proof.
  refine (acts_look_loop n _ snd at_ (λ b l, fst b = true → at_ < snd b ≤ l) ([Gt], at_) _ _); [|done].
  intros [closes a] Hlo. simpl in Hlo. start s HI Hle. simpl in Hle. psteps; look_done.
Qed.

#[export] Instance acts_impl_rest n at_ : Acts n (impl_target_rest at_) (λ s, at_ ≤ len (p_lex s))
  (λ s _ s', looks s s' ∧ True).
Proof.
  refine (acts_look_loop n _ id at_ (λ _ _, True) at_ _ _); [|done].
  intros a Hlo. start s HI Hle. unfold id in *. psteps; look_done.
Qed.
#[export] Instance acts_impl_target n : Acts n impl_target_followed_by_for always (λ s _ s', looks s s' ∧ True).
Proof. start s HI _. unfold impl_target_followed_by_for. psteps; look_done. Qed.

(** ** Visibility and literals *)
#[export] Instance acts_visibility n : Acts n parse_visibility always (keeps anything).
Proof. start s HI _. unfold parse_visibility. psteps; pdone. Qed.

#[export] Instance acts_literal n : Acts n parse_literal written
  (λ s l s', nf s' = nf s ∧ p_cursor s < p_cursor s' ∧ valid s' (node_site l)).
Proof. start s HI Hw. unfold parse_literal. psteps; pdone. Qed.

#[export] Instance acts_present {T} n (x : T) : Acts n (present_here x) always
  (λ s b s', s' = s ∧ node b = Present x).
Proof. start s HI _. unfold present_here. psteps; pdone. Qed.
#[export] Instance acts_required {T} n (x : Required T) : Acts n (required_here x) always
  (λ s b s', s' = s ∧ node b = x).
Proof. start s HI _. unfold required_here. psteps; pdone. Qed.
#[export] Instance acts_eat_separator n : Acts n eat_separator always (λ s o s', nf s' = nf s
  ∧ p_cursor s ≤ p_cursor s' ∧ (∀ t, o = Some t → p_cursor s < p_cursor s')).
Proof. start s HI _. unfold eat_separator. psteps; pdone. intros t Ho. destruct a; [tidy; lia|done]. Qed.

Section grammar.
Context (n : nat) (G : Grammar).

(** What the guarded bodies do, when [n] entries suffice around them. *)
Class GrammarOk : Prop := {
  ok_type : Guarded n (type_inner G) always (keeps anything);
  ok_attribute : Guarded n (attribute_value_inner G) always (keeps anything);
  ok_single : Guarded n (single_pattern G) always (keeps anything);
  ok_alternatives : Guarded n (pattern_alternatives G) always (keeps anything);
  ok_range : Guarded n (range_inner G) always (keeps valid_built);
  ok_prefix : Guarded n (prefix_inner G) always (keeps valid_built);
  ok_if : Guarded n (if_inner G) written (keeps valid_built);
  ok_block : Guarded n (block_inner G) always (keeps valid_built);
  ok_use : Guarded n (use_tree_inner G) always (keeps anything);
  ok_module : Guarded n (module_def G) always (keeps anything)
}.
Context {HG : GrammarOk}.

#[export] Instance acts_type_ref : Acts n (parse_type_ref G) always (keeps anything).
Proof. by apply acts_nested; [apply ok_type|..]. Qed.
#[export] Instance acts_attribute_value : Acts n (parse_attribute_value G) always (keeps anything).
Proof. by apply acts_nested; [apply ok_attribute|..]. Qed.
#[export] Instance acts_binding_pattern : Acts n (parse_binding_pattern G) always (keeps anything).
Proof. by apply acts_nested; [apply ok_single|..]. Qed.
#[export] Instance acts_match_pattern : Acts n (parse_match_pattern G) always (keeps anything).
Proof. by apply acts_nested; [apply ok_alternatives|..]. Qed.
#[export] Instance acts_expr : Acts n (parse_expr G) always (keeps valid_built).
Proof. by apply acts_nested; [apply ok_range|..]. Qed.
#[export] Instance acts_prefix : Acts n (parse_prefix G) always (keeps valid_built).
Proof. by apply acts_nested; [apply ok_prefix|..]. Qed.
#[export] Instance acts_if : Acts n (parse_if G) written (keeps valid_built).
Proof. by apply acts_nested; [apply ok_if|..]. Qed.
#[export] Instance acts_block : Acts n (parse_block G) always (keeps valid_built).
Proof. apply acts_struct_literals; [|done..]. by apply acts_nested; [apply ok_block|..]. Qed.
#[export] Instance acts_condition_expr : Acts n (parse_condition_expr G) always (keeps valid_built).
Proof. by apply acts_struct_literals; [apply acts_expr|..]. Qed.
#[export] Instance acts_use_tree : Acts n (parse_use_tree G) always (keeps anything).
Proof. by apply acts_nested; [apply ok_use|..]. Qed.

(** ** Types and signatures *)
#[export] Instance reads_type_starts : Reads type_starts.
Proof. apply _. Qed.
#[export] Instance acts_at_binding : Acts n at_binding always (λ s b s', looks s s' ∧
  (b = true → p_stopped s = None ∧ raw s = Ident ∧ is_trivia (raw s) = false
     ∧ upcoming (p_lex s) (S (p_cursor s)) = Eq)).
Proof.
  start s HI _. unfold at_binding. psteps; look_done.
  intros Ha%is_some_kind_true. subst. tidy. spec. split_and!; congruence.
Qed.
#[export] Instance acts_generic_argument : Acts n (parse_generic_argument G) always (keeps anything).
Proof. start s HI _. unfold parse_generic_argument. psteps; pdone. Qed.
#[export] Instance acts_call_generic_argument : Acts n (parse_call_generic_argument G) always (keeps anything).
Proof. start s HI _. unfold parse_call_generic_argument. psteps; pdone. Qed.
#[export] Instance acts_generic_arguments argument : Acts n argument always (keeps anything) →
  Acts n (parse_generic_arguments argument) always (keeps anything).
Proof. intros Ha. start s HI _. unfold parse_generic_arguments. psteps; pdone. Qed.
#[export] Instance acts_generic_arg_list : Acts n (parse_generic_arg_list G) always (keeps anything).
Proof. apply _. Qed.
#[export] Instance acts_call_generic_arg_list : Acts n (parse_call_generic_arg_list G) always (keeps anything).
Proof. apply _. Qed.
#[export] Instance acts_return_type : Acts n (parse_return_type G) always (keeps anything).
Proof. start s HI _. unfold parse_return_type. psteps; pdone. Qed.
#[export] Instance acts_annotation : Acts n (parse_annotation G) always (keeps anything).
Proof. start s HI _. unfold parse_annotation. psteps; pdone. Qed.
#[export] Instance acts_trait_ref : Acts n (parse_trait_ref G) always (keeps anything).
Proof. start s HI _. unfold parse_trait_ref. psteps; pdone. Qed.
#[export] Instance acts_more_bounds : Acts n (parse_more_bounds G) always (keeps anything).
Proof. apply (acts_loop n _ (λ _, always)). intros r. start s HI _. psteps; pdone. Qed.
#[export] Instance acts_bound_list : Acts n (parse_trait_bound_list G) always (keeps anything).
Proof. start s HI _. unfold parse_trait_bound_list. psteps; pdone. Qed.
#[export] Instance acts_qualified_type : Acts n (parse_qualified_type G) written
  (keeps (λ q s', valid s' (node_site (fst q)))).
Proof. start s HI Hw. unfold parse_qualified_type. psteps; pdone. Qed.
#[export] Instance acts_parenthesized_type : Acts n (parse_parenthesized_type G) written (keeps anything).
Proof. start s HI Hw. unfold parse_parenthesized_type. psteps; pdone. Qed.
#[export] Instance acts_named_type : Acts n (parse_named_type G) always (keeps anything).
Proof. start s HI _. unfold parse_named_type. psteps; pdone. Qed.
#[export] Instance acts_array_type : Acts n (parse_array_type G) written (keeps anything).
Proof. start s HI Hw. unfold parse_array_type. psteps; pdone. Qed.
#[export] Instance acts_function_type : Acts n (parse_function_type G) written (keeps anything).
Proof. start s HI Hw. unfold parse_function_type. psteps; pdone. Qed.
#[export] Instance acts_type_inner : Acts n (parse_type_inner G) always (keeps anything).
Proof. start s HI _. unfold parse_type_inner, path_starts. psteps; pdone. Qed.
#[export] Instance acts_bounds : Acts n (parse_bounds G) always (keeps anything).
Proof. start s HI _. unfold parse_bounds. psteps; pdone. Qed.
#[export] Instance acts_generic_param : Acts n (parse_generic_param G) always (keeps anything).
Proof. start s HI _. unfold parse_generic_param. psteps; pdone. Qed.
#[export] Instance reads_param_starts : Reads generic_param_starts.
Proof. apply _. Qed.
#[export] Instance acts_generic_params : Acts n (parse_generic_params G) always (keeps anything).
Proof. start s HI _. unfold parse_generic_params. psteps; pdone. Qed.
#[export] Instance acts_param : Acts n (parse_param G) always (keeps anything).
Proof. start s HI _. unfold parse_param. psteps; pdone. Qed.
#[export] Instance acts_receiver : Acts n (parse_receiver G) (λ s, written s ∧ owned s) (keeps anything).
Proof. start s HI [Hw Ho]. unfold parse_receiver. psteps; pdone. Qed.
#[export] Instance acts_parameters method : Acts n (parse_parameters G method) always (keeps anything).
Proof. start s HI _. unfold parse_parameters. psteps; pdone. Qed.
#[export] Instance acts_where_predicate : Acts n (parse_where_predicate G) always (keeps anything).
Proof. start s HI _. unfold parse_where_predicate. psteps; pdone. Qed.
#[export] Instance acts_where_predicates : Acts n (parse_where_predicates G) always (keeps anything).
Proof. apply (acts_loop n _ (λ _, always)). intros r. start s HI _. psteps; pdone. Qed.
#[export] Instance acts_where_clause : Acts n (parse_where_clause G) always (keeps anything).
Proof. start s HI _. unfold parse_where_clause. psteps; pdone. Qed.

(** ** Attributes *)
#[export] Instance reads_attribute_starts : Reads attribute_value_starts.
Proof. apply _. Qed.
Ltac looking :=
  unfold lookahead, peek_on; psteps; unfold reached, id in *; cbn [fst snd] in *; look_done;
  repeat case_match; simplify_eq/=; first [done|relex; lia].

#[export] Instance acts_skip_path k at_ : Acts n (skip_attribute_path k at_) (λ s, at_ ≤ len (p_lex s))
  (λ s o s', looks s s' ∧ reached snd at_ o (len (p_lex s))).
Proof.
  refine (acts_look_loop n _ snd at_ (reached snd at_) (k, at_) _ _); [|done].
  intros [k1 a] Hlo. simpl in Hlo. start s HI Hle. simpl in Hle. looking.
Qed.
#[export] Instance acts_skip_value k at_ : Acts n (skip_attribute_value k at_) (λ s, at_ ≤ len (p_lex s))
  (λ s o s', looks s s' ∧ reached snd at_ o (len (p_lex s))).
Proof.
  refine (acts_look_loop n _ snd at_ (reached snd at_) (k, at_) _ _); [|done].
  intros [k1 a] Hlo. simpl in Hlo. start s HI Hle. simpl in Hle. looking.
Qed.
#[export] Instance acts_skip_arguments at_ : Acts n (skip_attribute_arguments at_) (λ s, at_ ≤ len (p_lex s))
  (λ s o s', looks s s' ∧ reached id at_ o (len (p_lex s))).
Proof.
  refine (acts_look_loop n _ snd at_ (reached id at_) (1, at_) _ _); [|done].
  intros [d a] Hlo. simpl in Hlo. start s HI Hle. simpl in Hle. looking.
Qed.
#[export] Instance acts_skip_payload k at_ : Acts n (skip_attribute_payload k at_) (λ s, at_ ≤ len (p_lex s))
  (λ s o s', looks s s' ∧ reached snd at_ o (len (p_lex s))).
Proof. start s HI Hle. unfold skip_attribute_payload. looking. Qed.
#[export] Instance acts_skip_attribute at_ : Acts n (skip_attribute at_) (λ s, at_ ≤ len (p_lex s))
  (λ s o s', looks s s' ∧ reached snd (S at_) o (len (p_lex s))).
Proof. start s HI Hle. unfold skip_attribute. looking. Qed.
#[export] Instance acts_skip_attributes k at_ : Acts n (skip_attributes k at_) (λ s, at_ ≤ len (p_lex s))
  (λ s o s', looks s s' ∧ reached snd at_ o (len (p_lex s))).
Proof.
  refine (acts_look_loop n _ snd at_ (reached snd at_) (k, at_) _ _); [|done].
  intros [k1 a] Hlo. simpl in Hlo. start s HI Hle. simpl in Hle. looking.
Qed.
#[export] Instance acts_item_kind : Acts n attributed_item_kind always (λ s _ s', looks s s' ∧ True).
Proof. start s HI _. unfold attributed_item_kind. looking. Qed.

#[export] Instance acts_attribute_arg : Acts n (parse_attribute_arg G) always (keeps anything).
Proof.
  start s HI _. unfold parse_attribute_arg. psteps; pdone. spec. subst.
  eapply wpp_expected; [reflexivity|]. psteps; pdone.
Qed.
#[export] Instance acts_attribute_inner : Acts n (parse_attribute_value_inner G) always (keeps anything).
Proof. start s HI _. unfold parse_attribute_value_inner, path_starts. psteps; pdone. Qed.
#[export] Instance acts_attribute_payload : Acts n (parse_attribute_payload G) always (keeps anything).
Proof. start s HI _. unfold parse_attribute_payload. psteps; pdone. Qed.
#[export] Instance acts_attributes : Acts n (parse_attributes G) always (keeps anything).
Proof. apply (acts_loop n _ (λ _, always)). intros r. start s HI _. psteps; pdone. Qed.

(** ** Path expressions *)
#[export] Instance acts_path_application : Acts n path_application always
  (λ s o s', looks s s' ∧ (o = Some true → ahead s ≠ Eof)).
Proof.
  start s HI _. unfold path_application. psteps; look_done.
  all: intros _; unfold ahead; congruence.
Qed.
#[export] Instance acts_path_expr : Acts n (parse_path_expr G) always (keeps valid_built).
Proof. start s HI _. unfold parse_path_expr. psteps; pdone. Qed.
End grammar.
