(* ===== verification/ExprInv.v ===== *)
(** * Patterns and expressions keep the parser's invariant *)
From S2P Require Import Prelude Text Token Lexical Syntax ParserCore GrammarTypes GrammarExpr GrammarItems ParserInv GrammarInv.
Import TokenKind.
Open Scope nat_scope.

Section grammar.
Context (n : nat) (G : Grammar) {HG : GrammarOk n G}.

(** ** Patterns *)
#[export] Instance reads_pattern_starts : Reads pattern_starts.
Proof. apply _. Qed.
#[export] Instance acts_begin_from {T} `{NodeData T} (b : Built T) d : Acts n (begin_from b d)
  (λ s, valid_node (node b) s)
  (λ s m s', nf s' = S (nf s) ∧ mark_frame m = nf s ∧ mark_first m ≤ p_cursor s ∧ p_cursor s' = p_cursor s
             ∧ p_stopped s' = p_stopped s ∧ p_lex s' = p_lex s ∧ raw s' = raw s ∧ ahead s' = ahead s).
Proof. start s HI Hv. unfold begin_from. psteps; pdone. Qed.
#[export] Instance acts_tuple_pattern : Acts n (parse_tuple_pattern G) written (keeps valid_built).
Proof. start s HI Hw. unfold parse_tuple_pattern. psteps; pdone. Qed.
#[export] Instance acts_pattern_field : Acts n (parse_pattern_field G) always (keeps anything).
Proof. start s HI _. unfold parse_pattern_field. psteps; pdone. Qed.
#[export] Instance acts_rejected_field : Acts n (rejected (parse_pattern_field G)) owned (keeps anything).
Proof.
  start s HI Ho. eapply acts_use; [apply (acts_rejected n _ _ _ acts_pattern_field)|done..|]; [unfold keeps; naive_solver|].
  intros; tidy; pdone.
Qed.
#[export] Instance acts_struct_pattern_rounds acc : Acts n (loop (struct_pattern_round G) acc) owned (keeps anything).
Proof.
  apply (acts_loop n _ (λ _, owned)). intros [fields rest]. start s HI Ho. unfold struct_pattern_round. psteps; pdone.
Qed.
#[export] Instance acts_struct_pattern path : Acts n (parse_struct_pattern G path)
  (λ s, written s ∧ valid_node (node path) s) (keeps valid_built).
Proof. start s HI [Hw Hv]. unfold parse_struct_pattern. psteps; pdone. Qed.
#[export] Instance acts_path_pattern : Acts n (parse_path_pattern G) always (keeps valid_built).
Proof. start s HI _. unfold parse_path_pattern. psteps; pdone. Qed.
#[export] Instance acts_current_text : Acts n current_text always (λ s _ s', s' = s).
Proof.
  start s HI _. unfold current_text. do 2 pstep. destruct (span_text_some n s (p_cursor s) HI) as [t Ht].
  by eapply wpp_expected.
Qed.
#[export] Instance acts_pattern_head : Acts n (parse_pattern_head G) always (keeps valid_built).
Proof. start s HI _. unfold parse_pattern_head, path_starts. psteps; pdone. Qed.
#[export] Instance acts_pattern_bound : Acts n (parse_pattern_bound G) always (keeps anything).
Proof. start s HI _. unfold parse_pattern_bound, path_starts. psteps; pdone. Qed.
#[export] Instance acts_single_pattern : Acts n (parse_single_pattern G) always (keeps valid_built).
Proof. start s HI _. unfold parse_single_pattern. psteps; pdone. Qed.
#[export] Instance acts_more_alternatives : Acts n (parse_more_alternatives G) always (keeps anything).
Proof. apply (acts_loop n _ (λ _, always)). intros r. start s HI _. psteps; pdone. Qed.
#[export] Instance acts_alternatives : Acts n (parse_pattern_alternatives G) always (keeps valid_built).
Proof. start s HI _. unfold parse_pattern_alternatives. psteps; pdone. Qed.

(** ** Conditions and struct literals *)
#[export] Instance acts_condition : Acts n (parse_condition G) always (keeps anything).
Proof. start s HI _. unfold parse_condition. psteps; pdone. Qed.
#[export] Instance acts_condition_body : Acts n (parse_condition_body G) always (keeps anything).
Proof. start s HI _. unfold parse_condition_body. psteps; pdone. Qed.
#[export] Instance reads_expr_starts : Reads expr_starts.
Proof. apply _. Qed.
#[export] Instance acts_struct_entry : Acts n (parse_struct_entry G) always
  (λ s _ s', nf s' = nf s ∧ p_cursor s ≤ p_cursor s'
             ∧ (p_stopped s = None → raw s = Ident ∨ raw s = DotDot → p_cursor s < p_cursor s')).
Proof.
  start s HI _. unfold parse_struct_entry, expr_starts. psteps; pdone.
  intros Hs Hr. assert (is_trivia (raw s) = false) as Ht by (by destruct Hr as [-> | ->]). spec.
  destruct Hr as [Hr|Hr]; [spec; lia|]. unfold kind_now in Hb. apply is_kind_false in Hb.
  case_match; congruence.
Qed.
#[export] Instance acts_rejected_entry : Acts n (rejected (parse_struct_entry G)) owned
  (λ s _ s', nf s' = nf s ∧ p_cursor s ≤ p_cursor s'
             ∧ (raw s = Ident ∨ raw s = DotDot → progress s s')).
Proof.
  start s HI Ho. eapply acts_use; [apply (acts_rejected n _ _ _ acts_struct_entry)|done..|]; [naive_solver|].
  intros _ s' HE (? & ? & a & s1 & (? & ? & Hp) & Hc). pdone. intros Hr. unfold progress.
  destruct (p_stopped s) eqn:Es; [left; eapply ext_stopped; [done|by rewrite Es]|right].
  specialize (Hp eq_refl Hr). lia.
Qed.
#[export] Instance acts_rejected_expr : Acts n (rejected (parse_expr G)) owned (keeps anything).
Proof.
  start s HI Ho. eapply acts_use; [apply (acts_rejected n _ _ _ (acts_expr n G))|done..|];
    [unfold keeps; naive_solver|]. intros; tidy; pdone.
Qed.
#[export] Instance acts_range_tail : Acts n (reject_range_tail G) owned
  (λ s _ s', nf s' = nf s ∧ p_cursor s ≤ p_cursor s' ∧ (raw s ≠ Eof → progress s s')).
Proof. start s HI Ho. unfold reject_range_tail, expr_starts. psteps; pdone; intros; solve_progress. Qed.
#[export] Instance acts_reject_update : Acts n (reject_update G) owned
  (λ s _ s', nf s' = nf s ∧ p_cursor s ≤ p_cursor s' ∧ (raw s ≠ Eof → progress s s')).
Proof. start s HI Ho. unfold reject_update. psteps; pdone; intros; solve_progress. Qed.
#[export] Instance acts_update_tail entry : Acts n (reject_struct_update_tail G entry) owned (keeps anything).
Proof.
  apply (acts_loop n _ (λ _, owned)). intros []. start s HI Ho. psteps; pdone.
Qed.
#[export] Instance acts_struct_fields : Acts n (parse_struct_fields G) owned (keeps anything).
Proof. apply (acts_loop n _ (λ _, owned)). intros r. start s HI Ho. psteps; pdone. Qed.
#[export] Instance acts_field_initializers : Acts n (parse_field_initializers G) always (keeps anything).
Proof. start s HI _. unfold parse_field_initializers. psteps; pdone. Qed.
#[export] Instance acts_generic_struct : Acts n generic_struct_ahead always (λ s _ s', looks s s' ∧ True).
Proof. start s HI _. unfold generic_struct_ahead. psteps; look_done. Qed.
#[export] Instance acts_path_or_struct : Acts n (parse_path_or_struct G) always (keeps valid_built).
Proof. start s HI _. unfold parse_path_or_struct. psteps; pdone. Qed.
#[export] Instance acts_parenthesized : Acts n (parse_parenthesized G) written (keeps valid_built).
Proof. start s HI Hw. unfold parse_parenthesized. psteps; pdone. Qed.
#[export] Instance acts_array : Acts n (parse_array G) written (keeps valid_built).
Proof. start s HI Hw. unfold parse_array. psteps; pdone. Qed.

#[export] Instance acts_literals_owned {A} b (m : P A) : Acts n m owned (keeps anything) →
  Acts n (with_struct_literals b m) owned (keeps anything).
Proof. intros Hm. by apply acts_struct_literals. Qed.
#[export] Instance acts_literals_written b (m : P (Built Expr)) : Acts n m written (keeps valid_built) →
  Acts n (with_struct_literals b m) written (keeps valid_built).
Proof. intros Hm. by apply acts_struct_literals. Qed.
#[export] Instance acts_literals_expr b : Acts n (with_struct_literals b (parse_expr G)) always (keeps valid_built).
Proof. by apply acts_struct_literals; [apply _|..]. Qed.

(** ** Control flow, closures and strings *)
#[export] Instance acts_match_arm : Acts n (parse_match_arm G) always (keeps anything).
Proof. start s HI _. unfold parse_match_arm. psteps; pdone. Qed.
#[export] Instance acts_match : Acts n (parse_match G) written (keeps valid_built).
Proof. start s HI Hw. unfold parse_match. psteps; pdone. Qed.
#[export] Instance acts_loop_expr : Acts n (parse_loop_expr G) written (keeps valid_built).
Proof. start s HI Hw. unfold parse_loop_expr. psteps; pdone. Qed.
#[export] Instance acts_async_block : Acts n (parse_async_block G) written (keeps valid_built).
Proof. start s HI Hw. unfold parse_async_block. psteps; pdone. Qed.
#[export] Instance reads_closure_starts : Reads closure_param_starts.
Proof. apply _. Qed.
#[export] Instance acts_closure_param : Acts n (parse_closure_param G) always (keeps anything).
Proof. start s HI _. unfold parse_closure_param. psteps; pdone. Qed.
#[export] Instance acts_closure_params : Acts n (parse_closure_params G) always (keeps anything).
Proof. start s HI _. unfold parse_closure_params. psteps; pdone. Qed.
#[export] Instance acts_closure : Acts n (parse_closure G) always (keeps valid_built).
Proof. start s HI _. unfold parse_closure. psteps; pdone. Qed.
#[export] Instance acts_interpolation : Acts n (parse_interpolation G) written
  (λ s _ s', nf s' = nf s ∧ p_cursor s < p_cursor s').
Proof. start s HI Hw. unfold parse_interpolation. psteps; pdone. Qed.
#[export] Instance acts_string_parts : Acts n (parse_string_parts G) owned (keeps anything).
Proof. apply (acts_loop n _ (λ _, owned)). intros r. start s HI Ho. psteps; pdone. Qed.
#[export] Instance acts_string : Acts n (parse_string G) written (keeps valid_built).
Proof. start s HI Hw. unfold parse_string. psteps; pdone. Qed.
#[export] Instance acts_atom : Acts n (parse_atom G) always (keeps valid_built).
Proof. start s HI _. unfold parse_atom. psteps; pdone. Qed.

(** ** Chains *)
(** A round in an open scope closes it, or abandons it and goes back to the suffix. *)
Definition closes (suffix : nat) (s : Parser) (o : option Expr) (s' : Parser) : Prop :=
  nf s = S (nf s') ∧
  match o with
  | Some e => valid s' (node_site e) ∧ p_cursor s < p_cursor s'
  | None => p_cursor s' = suffix
  end.
Definition scoped (mark : Mark) (s : Parser) : Prop := mark_frame mark + 1 = nf s ∧ mark_first mark ≤ p_cursor s.

#[export] Instance acts_call_application : Acts n (parse_call_application G) always
  (λ s o s', nf s' = nf s ∧ p_cursor s ≤ p_cursor s'
     ∧ (p_stopped s = None → raw s = ColonColon → p_cursor s < p_cursor s')
     ∧ (raw s = LParen → p_cursor s < p_cursor s' ∨ s' = s)).
Proof.
  start s HI _. unfold parse_call_application. psteps; pdone; intros; spec; try done.
  right. match goal with H : _ → _ → s0 = s, Hr : raw s = _ |- _ => apply H; [by rewrite Hr|done] end.
Qed.
#[export] Instance acts_call mark lhs suffix : Acts n (parse_call G mark lhs suffix)
  (λ s, scoped mark s ∧ p_stopped s = None ∧ one_of [LParen; ColonColon] (raw s) = true) (closes suffix).
Proof.
  start s HI [[Hm Hf] [Hs Hr]]. apply one_of_true, list_elem_of_In in Hr. simpl in Hr. unfold parse_call, closes. psteps; pdone.
  destruct Hr as [Hr|[Hr|[]]]; spec; [|lia].
  match goal with H : _ ∨ _ = s |- _ => destruct H; [lia|subst; spec; lia] end.
Qed.
#[export] Instance acts_member mark lhs : Acts n (parse_member mark lhs)
  (λ s, scoped mark s ∧ written s) (λ s e s', closes 0 s (Some e) s').
Proof. start s HI [[Hm Hf] Hw]. unfold parse_member, closes. psteps; pdone. Qed.
#[export] Instance acts_index mark lhs suffix : Acts n (parse_index G mark lhs suffix)
  (λ s, scoped mark s ∧ written s) (closes suffix).
Proof. start s HI [[Hm Hf] Hw]. unfold parse_index, closes. psteps; pdone. Qed.

(** A round of a chain keeps the node valid, or leaves the chain with it. *)
Definition rounds_on (s : Parser) (r : Built Expr + Built Expr) (s' : Parser) : Prop :=
  nf s' = nf s ∧ p_cursor s ≤ p_cursor s' ∧
  match r with inl lhs => valid_built lhs s' ∧ mu s' < mu s | inr lhs => valid_built lhs s' end.
#[export] Instance acts_postfix_node mark lhs suffix : Acts n (postfix_node G mark lhs suffix)
  (λ s, scoped mark s ∧ p_stopped s = None ∧ one_of postfix_kinds (raw s) = true) (closes suffix).
Proof.
  start s HI [[Hm Hf] [Hs Hr]]. unfold postfix_node. psteps; unfold closes in *; tidy; pdone.
  unfold kind_now in *. rewrite Hs in *. by destruct (raw s).
Qed.
#[export] Instance acts_postfix_round lhs : Acts n (postfix_round G lhs) (valid_built lhs) rounds_on.
Proof.
  start s HI Hv. unfold postfix_round, rounds_on. psteps; unfold closes in *; tidy; pdone.
Qed.
Lemma acts_rounds_on (round : Built Expr → P (Built Expr + Built Expr)) lhs :
  (∀ lhs, Acts n (round lhs) (valid_built lhs) rounds_on) → Acts n (loop round lhs) (valid_built lhs) (keeps valid_built).
Proof. intros Hr. apply (acts_loop n _ valid_built). intros a. apply Hr. Qed.
#[export] Instance acts_postfix : Acts n (parse_postfix G) always (keeps valid_built).
Proof.
  pose proof (λ lhs, acts_rounds_on _ lhs acts_postfix_round). start s HI _. unfold parse_postfix. psteps; pdone.
Qed.
#[export] Instance acts_prefix_inner : Acts n (parse_prefix_inner G) always (keeps valid_built).
Proof. start s HI _. unfold parse_prefix_inner. psteps; pdone. Qed.

#[export] Instance acts_cast_round e : Acts n (cast_round G e) (valid_built e) rounds_on.
Proof. start s HI Hv. unfold cast_round, rounds_on. psteps; pdone. Qed.
#[export] Instance acts_cast : Acts n (parse_cast G) always (keeps valid_built).
Proof. pose proof (λ e, acts_rounds_on _ e acts_cast_round). start s HI _. unfold parse_cast. psteps; pdone. Qed.

Lemma binary_of_some k sh p o c : binary_of k sh = Some (p, o, c) → p ≤ MAX_PRECEDENCE ∧ 1 ≤ c ∧ lively k = true.
Proof.
  unfold MAX_PRECEDENCE. intros Hb.
  destruct k; simpl in Hb; try done; repeat case_match; simplify_eq; (split; [lia|]); split; (lia || reflexivity).
Qed.
Lemma acts_binary_round climb minimum lhs :
  (∀ p, minimum ≤ p ≤ MAX_PRECEDENCE → Acts n (climb (p + 1)) always (keeps valid_built)) →
  Acts n (binary_round climb minimum lhs) (valid_built lhs) rounds_on.
Proof.
  intros Hc. start s HI Hv. unfold binary_round, binary_operator, rounds_on. do 2 pstep.
  destruct (binary_of _ _) as [[[p o] c]|] eqn:Eb; [|psteps; pdone].
  apply binary_of_some in Eb as (Hp & Hpc & Hk).
  apply now_lively in Hk. tidy.
  destruct (p <? minimum) eqn:Em; [psteps; pdone|]. apply Nat.ltb_ge in Em.
  pose proof (Hc p ltac:(lia)). psteps; pdone.
Qed.
Lemma acts_binary_within levels minimum : S (S MAX_PRECEDENCE) ≤ levels + minimum → minimum ≤ S MAX_PRECEDENCE →
  Acts n (parse_binary_within G levels minimum) always (keeps valid_built).
Proof.
  revert minimum. induction levels as [|levels IH]; intros minimum Hl Hm; [lia|].
  pose proof (λ lhs, acts_rounds_on _ lhs (λ lhs, acts_binary_round (parse_binary_within G levels) minimum lhs
    (λ p Hp, IH (p + 1) ltac:(lia) ltac:(lia)))).
  start s HI _. simpl. psteps; pdone.
Qed.
#[export] Instance acts_binary : Acts n (parse_binary G 0) always (keeps valid_built).
Proof. apply acts_binary_within; unfold MAX_PRECEDENCE; lia. Qed.
Definition valid_option (o : option (Built Expr)) (s : Parser) : Prop :=
  match o with Some b => valid_node (node b) s | None => True end.
#[export] Instance acts_range_start : Acts n (parse_range_start G) always (keeps valid_option).
Proof. start s HI _. unfold parse_range_start. psteps; pdone. Qed.
#[export] Instance acts_begin_range lhs : Acts n (begin_range lhs) (valid_option lhs)
  (λ s m s', nf s' = S (nf s) ∧ mark_frame m = nf s ∧ mark_first m ≤ p_cursor s ∧ p_cursor s' = p_cursor s).
Proof. start s HI Hv. unfold begin_range. destruct lhs; simpl in Hv; psteps; pdone. Qed.
#[export] Instance acts_range : Acts n (parse_range G) always (keeps valid_built).
Proof. start s HI _. unfold parse_range, expr_starts. psteps; pdone. Qed.
#[export] Instance acts_if_inner : Acts n (parse_if_inner G) written (keeps valid_built).
Proof. start s HI Hw. unfold parse_if_inner. psteps; pdone. Qed.
End grammar.
