(* ===== verification/ItemsInv.v ===== *)
(** * Statements, items and modules keep the parser's invariant *)
From S2P Require Import Prelude Text Token Lexical Syntax ParserCore GrammarTypes GrammarExpr GrammarItems ParserInv GrammarInv ExprInv.
Import TokenKind.
Open Scope nat_scope.

Section grammar.
Context (n : nat) (G : Grammar) {HG : GrammarOk n G}.

(** ** Statements *)
#[export] Instance acts_binding_kind d : Acts n (parse_binding_kind d) (λ _, is_limit d = false) (keeps anything).
Proof. start s HI Hd. unfold parse_binding_kind. psteps; pdone. Qed.
#[export] Instance acts_binding_stmt : Acts n (parse_binding_stmt G) always (keeps anything).
Proof. start s HI _. unfold parse_binding_stmt. psteps; pdone. Qed.
#[export] Instance acts_value : Acts n (parse_value G) always (keeps anything).
Proof. start s HI _. unfold parse_value. psteps; pdone. Qed.
#[export] Instance acts_return : Acts n (parse_return G) written (keeps anything).
Proof. start s HI Hw. unfold parse_return. psteps; pdone. Qed.
Definition assigns (s : Parser) : Prop := is_Some (assignment_of (kind_now s) (shift_now s)).
Lemma now_same s s' : p_stopped s' = p_stopped s → p_lex s' = p_lex s → p_cursor s' = p_cursor s →
  kind_now s' = kind_now s ∧ shift_now s' = shift_now s.
Proof. unfold kind_now, shift_now, is_stopped, raw. by intros -> -> ->. Qed.
#[export] Instance acts_assignment target : Acts n (parse_assignment G target)
  (λ s, valid_built target s ∧ assigns s) (keeps anything).
Proof.
  start s HI [Hv [op Hop]]. unfold parse_assignment, assignment_operator. do 4 pstep. apply wpp_chain.
  eapply wpp_expected; [destruct (now_same s s0) as [-> ->]; done|]. psteps; pdone.
Qed.
#[export] Instance acts_while : Acts n (parse_while G) written (keeps anything).
Proof. start s HI Hw. unfold parse_while. psteps; pdone. Qed.
#[export] Instance acts_loop_stmt : Acts n (parse_loop_stmt G) written (keeps anything).
Proof. start s HI Hw. unfold parse_loop_stmt. psteps; pdone. Qed.
#[export] Instance acts_for : Acts n (parse_for G) written (keeps anything).
Proof. start s HI Hw. unfold parse_for. psteps; pdone. Qed.
#[export] Instance acts_break : Acts n (parse_break G) written (keeps anything).
Proof. start s HI Hw. unfold parse_break. psteps; pdone. Qed.
#[export] Instance acts_continue_stmt : Acts n parse_continue written (keeps anything).
Proof. start s HI Hw. unfold parse_continue. psteps; pdone. Qed.

(** ** Functions, constants and statics *)
#[export] Instance acts_function : Acts n (parse_function G) always (keeps anything).
Proof. start s HI _. unfold parse_function. psteps; pdone. Qed.
#[export] Instance acts_const b : Acts n (parse_const G b) always (keeps anything).
Proof. start s HI _. unfold parse_const. psteps; pdone. Qed.
#[export] Instance acts_static_tail : Acts n recover_static_tail owned (keeps anything).
Proof. apply (acts_loop n _ (λ _, owned)). intros r. start s HI Ho. psteps; pdone. Qed.
#[export] Instance acts_static : Acts n (parse_static G) always (keeps anything).
Proof. start s HI _. unfold parse_static. psteps; pdone. Qed.

(** ** Blocks *)
#[export] Instance acts_local_function : Acts n (local_function G) always (keeps anything).
Proof. start s HI _. unfold local_function. psteps; pdone. Qed.
#[export] Instance acts_expr_stmt before e : Acts n (parse_expr_stmt before e)
  (λ s, valid_built e s ∧ before ≤ p_cursor s) (keeps anything).
Proof. start s HI [Hv Hb]. unfold parse_expr_stmt. psteps; pdone. Qed.
#[export] Instance acts_expression_round before : Acts n (expression_round G before)
  (λ s, before ≤ p_cursor s) (keeps anything).
Proof.
  start s HI Hb. unfold expression_round, assignment_operator. do 4 pstep.
  destruct (assignment_of _ _) as [op|] eqn:E; [|psteps; pdone].
  assert (assigns s0) by by eexists. psteps; pdone.
Qed.
#[export] Instance acts_rejected_static : Acts n (rejected_static G) always (keeps anything).
Proof. start s HI _. unfold rejected_static. psteps; pdone. Qed.
#[export] Instance acts_statement_round before : Acts n (statement_round G before)
  (λ s, before ≤ p_cursor s ∧ owned s) (keeps anything).
Proof. start s HI [Hb Ho]. unfold statement_round, expr_starts. psteps; pdone. Qed.
#[export] Instance acts_block_round : Acts n (loop (block_round G) []) owned (keeps anything).
Proof.
  apply (acts_loop n _ (λ _, owned)). intros r. start s HI Ho. unfold block_round. psteps; pdone.
Qed.
#[export] Instance acts_block_inner : Acts n (parse_block_inner G) always (keeps valid_built).
Proof. start s HI _. unfold parse_block_inner. psteps; pdone. Qed.

(** ** Declarations *)
#[export] Instance reads_field_starts : Reads field_starts.
Proof. apply _. Qed.
#[export] Instance acts_field : Acts n (parse_field G) always (keeps anything).
Proof. start s HI _. unfold parse_field. psteps; pdone. Qed.
#[export] Instance acts_struct : Acts n (parse_struct G) always (keeps anything).
Proof. start s HI _. unfold parse_struct. psteps; pdone. Qed.
#[export] Instance reads_variant_starts : Reads variant_starts.
Proof. apply _. Qed.
#[export] Instance acts_variant : Acts n (parse_variant G) always (keeps anything).
Proof. start s HI _. unfold parse_variant. psteps; pdone. Qed.
#[export] Instance acts_enum : Acts n (parse_enum G) always (keeps anything).
Proof. start s HI _. unfold parse_enum. psteps; pdone. Qed.
#[export] Instance acts_type_bounds : Acts n (parse_type_bounds G) always (keeps anything).
Proof. start s HI _. unfold parse_type_bounds. psteps; pdone. Qed.
#[export] Instance acts_alias_target w : Acts n (parse_alias_target G w) always (keeps anything).
Proof. start s HI _. unfold parse_alias_target. psteps; pdone. Qed.
#[export] Instance acts_module_type : Acts n (parse_module_type G) always (keeps anything).
Proof. start s HI _. unfold parse_module_type. psteps; pdone. Qed.
#[export] Instance reads_use_starts : Reads use_tree_starts.
Proof. apply _. Qed.
#[export] Instance acts_use_group : Acts n (parse_use_group G) always (keeps anything).
Proof. start s HI _. unfold parse_use_group. psteps; pdone. Qed.
#[export] Instance acts_use_suffix b : Acts n (parse_use_suffix G b) always (keeps anything).
Proof. start s HI _. unfold parse_use_suffix. psteps; pdone. Qed.
#[export] Instance acts_use_inner : Acts n (parse_use_tree_inner G) always (keeps anything).
Proof. start s HI _. unfold parse_use_tree_inner, use_tree_starts, path_starts. psteps; pdone. Qed.
#[export] Instance acts_use_decl : Acts n (parse_use G) always (keeps anything).
Proof. start s HI _. unfold parse_use. psteps; pdone. Qed.

(** ** Members *)
#[export] Instance acts_method b : Acts n (parse_method G b) always (keeps anything).
Proof. start s HI _. unfold parse_method. psteps; pdone. Qed.
#[export] Instance acts_associated_type : Acts n (parse_associated_type G) always (keeps anything).
Proof. start s HI _. unfold parse_associated_type. psteps; pdone. Qed.
#[export] Instance acts_member_item b : Acts n (parse_member_item G b) owned (keeps anything).
Proof. start s HI Ho. unfold parse_member_item. psteps; pdone. Qed.
#[export] Instance acts_members b : Acts n (parse_members G b) owned (keeps anything).
Proof. apply (acts_loop n _ (λ _, owned)). intros r. start s HI Ho. psteps; pdone. Qed.
#[export] Instance acts_trait : Acts n (parse_trait G) always (keeps anything).
Proof. start s HI _. unfold parse_trait. psteps; pdone. Qed.
#[export] Instance acts_impl : Acts n (parse_impl G) always (keeps anything).
Proof. start s HI _. unfold parse_impl. psteps; pdone. Qed.

(** ** Items and modules *)
#[export] Instance acts_nested_module : Acts n (with_nesting (module_def G)) always (keeps anything).
Proof.
  start s HI _. pose proof (acts_with_nesting n _ always anything (ok_module n G)) as Hm.
  eapply wpp_mono; [apply (Hm ltac:(done) ltac:(done) s HI I)|]. intros a s' (HE & ? & ? & ?). done.
Qed.
#[export] Instance acts_item : Acts n (parse_item G) owned (keeps anything).
Proof. start s HI Ho. unfold parse_item. psteps; pdone. Qed.

Definition read_to_end (inline : bool) (s : Parser) : Prop :=
  inline = false → p_stopped s ≠ None ∨ raw s = Eof.
#[export] Instance acts_items inline : Acts n (parse_items G inline) owned (keeps (λ _, read_to_end inline)).
Proof.
  apply (acts_loop n _ (λ _, owned) (λ _, read_to_end inline)). intros items. unfold read_to_end.
  start s HI Ho. psteps; pdone. by left.
Qed.

#[export] Instance acts_finish_remaining : Acts n finish_remaining_tokens
  (λ s, owned s ∧ read_to_end false s) (λ s _ s', nf s' = nf s ∧ p_cursor s' = len (p_lex s)).
Proof.
  start s HI [Ho Hend]. unfold finish_remaining_tokens. psteps; unfold id in *.
  - split; [|split; [exact (eq_trans (still_nf0) still_nf)|done]]. etrans; [eassumption|apply Ext_cursor].
  - split; [apply Ext_cursor|done].
  - by destruct Hend.
Qed.

(** ** Modules *)
#[export] Instance acts_contents : Acts n (parse_module_contents G true) written (keeps anything).
Proof. start s HI Hw. unfold parse_module_contents. psteps; pdone. Qed.

(** A module's slot is reserved before its contents are read, and filled after them. *)
Lemma acts_body (inline : bool) pre (X : ModuleBody → Parser → Prop) :
  Acts n (parse_module_contents G inline) pre (keeps X) → (∀ s m, pre s → pre (set_modules m s)) →
  (∀ b s m, X b s → X b (set_modules m s)) →
  Acts n (parse_module_body G inline) pre
    (λ s id s', nf s' = nf s ∧ p_cursor s ≤ p_cursor s' ∧ id = length (p_modules s)
       ∧ ∃ body, p_modules s' !! id = Some (Some body) ∧ X body s').
Proof.
  intros Hc Hpre HX s HI Hp. unfold parse_module_body, open_module, close_module. apply wpp_chain, wpp_chain, wpp_gets.
  apply wpp_chain, wpp_update, wpp_give, wpp_chain. set (s0 := set_modules _ s).
  assert (Inv n s0) as HI0 by (destruct HI; by split).
  eapply wpp_mono; [apply Hc; [done|by apply Hpre]|]. intros body s1 [HE (Hn & Hcur & Hx)].
  destruct (ext_modules _ _ HE) as (new & Hm & Hnew). simpl in Hm.
  apply wpp_chain, wpp_chain, wpp_gets. cbv beta. rewrite Hm, !length_app. simpl.
  rewrite (proj2 (Nat.ltb_lt _ _)) by lia. apply wpp_update, wpp_give.
  rewrite Hm, <- app_assoc. rewrite insert_app_r_alt, Nat.sub_diag by done. simpl.
  split.
  - destruct HE. split; try done. exists (Some body :: new). split; [done|]. constructor; [by eexists|done].
  - split_and!; try done. exists body. split; [by apply list_lookup_middle|]. by apply HX.
Qed.
#[export] Instance acts_inline_body : Acts n (parse_module_body G true) written (keeps anything).
Proof.
  intros s HI Hw. eapply wpp_mono; [by apply (acts_body true written anything acts_contents)|].
  intros id s' (HE & ? & ? & _). done.
Qed.
#[export] Instance acts_module_def : Acts n (parse_module_def G) always (keeps anything).
Proof. start s HI _. unfold parse_module_def. psteps; pdone. Qed.
End grammar.

(** With as many entries as the limit allows, the grammar acts. *)
Lemma acts_keeps {A} n (m : P A) pre X : Acts n m pre (keeps X) → Acts n m pre (keeps anything).
Proof. intros Hm s HI Hp. eapply wpp_mono; [by apply Hm|]. intros a s' (? & ? & ? & ?). done. Qed.
Lemma productions_ok n G : GrammarOk n G → GrammarOk (S n) (productions G).
Proof. intros HG. split; simpl; first [apply _|eapply acts_keeps; apply _]. Qed.
#[export] Instance grammar_ok n : GrammarOk n (grammar n).
Proof. induction n; [by split|by apply productions_ok]. Qed.
