(* ===== verification/RootInv.v ===== *)
(** * The root module and the whole parse

    The root of a file is read from the first record to the last one: the loop over its
    items ends only at the end marker or once the grammar has stopped, and what is left
    then belongs to the root's recovery scope. *)
From S2P Require Import Prelude Text Token Lexer LexerProps Lexical Syntax ParserCore GrammarTypes GrammarExpr GrammarItems ParserInv GrammarInv ExprInv ItemsInv.
Import TokenKind.
Open Scope nat_scope.

Lemma wpp_and {A} (m : P A) (Q R : A → Parser → Prop) s :
  wpp m Q s → wpp m R s → wpp m (λ a s', Q a s' ∧ R a s') s.
Proof. unfold wpp. by destruct (m s). Qed.
Lemma wpp_ret {A} (m : P A) Q s : wpp m Q s → ∃ a s', m s = Ret a s' ∧ Q a s'.
Proof. unfold wpp. destruct (m s); naive_solver. Qed.

(** ** The last record is the end marker *)
Lemma table_last t l : table t l → 0 < len l ∧ Lexical.kind l (len l - 1) = Eof.
Proof.
  intros (tokens & Hloss & Htab). rewrite (tab_kind _ _ _ Htab), (tab_len _ _ _ Htab).
  destruct Hloss as (front & -> & _). rewrite length_app. simpl. split; [lia|].
  replace (length front + 1 - 1) with (length front) by lia. by rewrite list_lookup_middle.
Qed.
Lemma trim_written l f e : f < e → is_trivia (Lexical.kind l (e - 1)) = false → trim_trivia l f e = e.
Proof.
  destruct e as [|e]; [lia|]. simpl. rewrite Nat.sub_0_r. intros _ ->. by rewrite andb_false_r.
Qed.

(** ** What [bump_trivia] skips *)
Definition runs_on (s : Parser) : Prop := p_cancel s = None ∧ p_stopped s = None.
Lemma continue_runs_on s : runs_on s → continue_parsing s = Ret true s.
Proof.
  intros [Hc Hs]. unfold continue_parsing, chain, gets, poll, update, give. simpl.
  unfold is_stopped. rewrite Hs. unfold chain, gets, id. rewrite Hc. simpl. by destruct s; simpl in *; subst.
Qed.
Lemma bump_skips n s : Inv n s → p_cursor s ≤ len (p_lex s) →
  wpp bump_trivia (λ _ s', p_cursor s' ≤ len (p_lex s') ∧ only_trivia (p_lex s) (p_cursor s) (p_cursor s')
    ∧ (runs_on s → runs_on s')) s.
Proof.
  intros HI Hle. unfold bump_trivia.
  eapply (wpp_loop _ (λ _ s1, Ext s s1 ∧ p_cursor s ≤ p_cursor s1 ≤ len (p_lex s1)
    ∧ only_trivia (p_lex s) (p_cursor s) (p_cursor s1) ∧ (runs_on s → runs_on s1))
    (λ _ s1, len (p_lex s1) - p_cursor s1)); [|lia|].
  { split_and!; try done. intros k ?. lia. }
  intros _ s1 (HE & Hc & Ht & Hr). apply wpp_chain, wpp_gets. cbv beta. unfold id.
  destruct (is_trivia (raw s1)) eqn:Et; simpl; [|apply wpp_give; by destruct Hc].
  assert (p_cursor s1 < len (p_lex s1)) as Hlt by (by apply kind_lt, trivia_not_eof).
  apply wpp_chain.
  assert (∀ Q : bool → Parser → Prop,
    (∀ b s2, Ext s s2 → p_cursor s2 = p_cursor s1 → (runs_on s → runs_on s2) → Q b s2) →
    wpp (if p_cursor s1 mod CANCELLATION_CHECK_TOKENS =? 0 then notM continue_parsing else give false) Q s1)
    as Hstop.
  { intros Q HQ. destruct (_ =? _); [|by apply wpp_give, HQ]. unfold notM. apply wpp_chain.
    destruct (wpp_ret _ _ _ (acts_continue n s1 (Inv_ext _ _ _ HI HE) I)) as (b & s2 & E & HE2 & Hs & _).
    unfold wpp at 1. rewrite E. apply wpp_give, HQ; [by etrans|apply Hs|].
    intros H. rewrite (continue_runs_on s1) in E by auto. inversion E. subst. auto. }
  apply Hstop. intros b s2 HE2 Hc2 Hr2. pose proof (ext_lex _ _ HE) as Hl. pose proof (ext_lex _ _ HE2) as Hl2.
  rewrite Hl in Hlt. destruct b.
  - apply wpp_give. rewrite Hc2, Hl2. split_and!; try done; lia.
  - apply wpp_chain, wpp_update, wpp_give. simpl. rewrite Hc2, Hl, Hl2. split; [|lia].
    split; [etrans; [exact HE2|apply Ext_cursor]|]. split; [lia|]. split; [|exact Hr2].
    intros k Hk. destruct (decide (k = p_cursor s1)) as [->|]; [by rewrite <- Hl|apply Ht; lia].
Qed.

(** ** The root *)
Section root.
Context (n : nat) (G : Grammar) {HG : GrammarOk n G} (live : Prop).
Definition at_start (s : Parser) : Prop := p_cursor s = 0 ∧ (live → runs_on s).
(** The root covers every record from the first written one on. *)
Definition covers_all (body : ModuleBody) (s : Parser) : Prop :=
  ∃ c, covers s (module_site body) c (len (p_lex s)) ∧ c ≤ len (p_lex s)
    ∧ only_trivia (p_lex s) 0 c ∧ (live → is_trivia (Lexical.kind (p_lex s) c) = false).

Lemma begin_root s : Inv n s → at_start s →
  wpp begin (λ m s', Ext s s' ∧ nf s' = S (nf s) ∧ mark_frame m = nf s ∧ mark_first m ≤ len (p_lex s)
    ∧ only_trivia (p_lex s) 0 (mark_first m)
    ∧ (live → is_trivia (Lexical.kind (p_lex s) (mark_first m)) = false)) s.
Proof.
  intros HI [Hz Hl]. unfold begin. apply wpp_chain.
  destruct (wpp_ret _ _ _ (wpp_and _ _ _ _ (acts_bump n s HI I) (bump_skips n s HI ltac:(lia))))
    as ([] & s1 & E & (HE & Hn & _ & _ & _ & _ & Ht) & Hle & Htr & Hr).
  unfold wpp at 1. rewrite E. pose proof (ext_lex _ _ HE) as Hx. do 2 apply wpp_chain, wpp_gets.
  apply wpp_chain, wpp_update, wpp_give. split; [etrans; [exact HE|apply Ext_frames]|].
  rewrite Hx, Hz in *. unfold nf in *. simpl. split_and!; try done; [by rewrite Hn..|].
  intros HL. destruct (Hr (Hl HL)) as [_ Hs]. specialize (Ht Hs). unfold raw in Ht. by rewrite Hx in Ht.
Qed.

Lemma acts_root_contents : Acts n (parse_module_contents G false) at_start (keeps covers_all).
Proof.
  intros s HI Hst. pose proof Hst as [Hz _]. destruct (table_last _ _ (inv_table _ _ HI)) as [Hpos Hlast].
  unfold parse_module_contents. apply wpp_chain. eapply wpp_mono; [by apply begin_root|].
  intros m s1 (HE & Hn & Hm & Hle & Htr & Hlive). apply wpp_chain, wpp_give, wpp_chain.
  eapply acts_use; [by apply acts_items|exact HI|exact HE|unfold owned; lia|].
  intros items s2 HE2 (Hn2 & _ & Hend). apply wpp_chain, wpp_give, wpp_chain. cbv iota.
  eapply acts_use; [by apply acts_finish_remaining|exact HI|exact HE2|split; [unfold owned; lia|done]|].
  intros [] s3 HE3 (Hn3 & Hc3). pose proof (ext_lex _ _ HE2) as Hx2. pose proof (ext_lex _ _ HE3) as Hx3. apply wpp_chain.
  eapply acts_use; [by apply acts_end_site|exact HI|exact HE3|split; [lia|rewrite Hc3, Hx2; lia]|].
  intros site s4 HE4 (Hn4 & Hc4 & Hcov & _). pose proof (ext_lex _ _ HE4) as Hx4. apply wpp_give.
  split; [done|]. split; [lia|]. split; [lia|]. exists (mark_first m). simpl.
  rewrite Hx4. split_and!; try done. rewrite Hc3, Hx2, Hx3 in Hcov.
  destruct (decide (mark_first m = len (p_lex s))) as [Heq|Hne].
  - rewrite Heq in Hcov |- *. pose proof (trim_bounds (p_lex s) (len (p_lex s)) (len (p_lex s)) ltac:(lia)).
    by replace (trim_trivia (p_lex s) (len (p_lex s)) (len (p_lex s))) with (len (p_lex s)) in Hcov by lia.
  - rewrite trim_written in Hcov; [done|lia|]. by rewrite Hlast.
Qed.

Lemma acts_root : Acts n (parse_root G) at_start
  (λ s id s', nf s' = nf s ∧ id = length (p_modules s)
     ∧ ∃ body, p_modules s' !! id = Some (Some body) ∧ covers_all body s').
Proof.
  intros s HI Hst. eapply wpp_mono; [apply (acts_body n G false at_start covers_all acts_root_contents)|].
  1-4: done.
  intros id s' (HE & ? & _ & ?). done.
Qed.
End root.

(** ** The whole file *)
Lemma modules_filled (l : list (option ModuleBody)) : Forall is_Some l →
  ∃ k, mapM id l = Some k ∧ ∀ i b, l !! i = Some (Some b) → k !! i = Some b.
Proof.
  induction 1 as [|x l [b ->] _ (k & Hk & Hi)]; [by exists []|]. exists (b :: k). simpl. rewrite Hk.
  split; [done|]. intros [|i] c; simpl; [congruence|]. apply Hi.
Qed.

(** What a published file carries. *)
Record published (source : text) (options : ParseOptions) (lexical : Lexical) (live : Prop) (file : ParsedFile) : Prop := {
  pub_text : file_text file = source;
  pub_lexical : file_lexical file = lexical;
  pub_mode : file_mode file = opt_mode options;
  pub_diagnostics : ∃ s, diag_ok s ∧ p_diagnostics s = file_diagnostics file ∧ p_lex s = lexical
                        ∧ p_limits s = opt_limits options;
  pub_root : ∃ body c, file_modules file !! file_root file = Some body
    ∧ site_resolve (file_recoveries file) (module_site body) = Some {| first := c; site_end := len lexical |}
    ∧ c ≤ len lexical ∧ only_trivia lexical 0 c ∧ (live → is_trivia (Lexical.kind lexical c) = false)
}.

Lemma wpp_parse_file source options lexical cancel : table source lexical →
  wpp (parse_file options)
    (λ file s', published source options lexical (cancel = None) file ∧ (cancel = None → p_cancel s' = None))
    (parser_new source lexical (opt_limits options) cancel (opt_mode options)).
Proof.
  intros Ht. set (s := parser_new _ _ _ _ _). set (n := max_nesting (opt_limits options)).
  assert (Inv n s) as HI.
  { split; [done| |simpl; lia]. exists [], []. split_and!; try done; first [by left|simpl; lia]. }
  unfold parse_file. apply wpp_chain. fold n.
  assert (at_start (cancel = None) s) as Hst by (split; [done|by intros ->]).
  eapply wpp_mono; [exact (acts_root n (grammar n) (cancel = None) s HI Hst)|].
  intros id s' (HE & Hn & Hid & body & Hb & c & Hcov & Hc & Htr & Hlive). simpl in Hid. subst id.
  pose proof (ext_lex _ _ HE) as Hx. destruct (ext_modules _ _ HE) as (new & Hm & Hnew). simpl in Hm, Hx.
  rewrite Hx in *. rewrite Hm in Hb. destruct (modules_filled new Hnew) as (k & Hk & Hi).
  assert (p_frames s' = []) as Hf by (unfold nf in Hn; simpl in Hn; by apply nil_length_inv).
  unfold finish. apply wpp_chain, wpp_gets. cbv beta. change (id s') with s'. rewrite bool_decide_true by done.
  apply wpp_chain. eapply wpp_expected; [rewrite Hm; exact Hk|]. apply wpp_give.
  split; [|by apply HE]. split; simpl; try by apply HE.
  - exists s'. split_and!; try done; [|by apply HE]. apply (ext_diag _ _ HE), HI.
  - exists body, c. split_and!; try done. by apply Hi.
Qed.
