(* ===== verification/ParserCancel.v ===== *)
(** * Cancellation never changes what the parser builds

    An action is steady when a run that ends with its token still live is the run under no
    token, and a cancelled token stays cancelled.  Every action of the parser is steady. *)
From S2P Require Import Prelude Text Literal LiteralGrammar Token Lexical Syntax ParserCore GrammarTypes GrammarExpr GrammarItems.
Import TokenKind.
Open Scope nat_scope.

Definition unwatched (s : Parser) : Parser := set_cancel None s.
Class Steady {A} (m : P A) : Prop := {
  steady_run s a s' : m s = Ret a s' → p_cancel s' ≠ Some 0 → m (unwatched s) = Ret a (unwatched s');
  steady_sticky s a s' : m s = Ret a s' → p_cancel s = Some 0 → p_cancel s' = Some 0
}.

#[export] Instance steady_give {A} (a : A) : Steady (give a).
Proof. split; unfold give; intros; by simplify_eq. Qed.
#[export] Instance steady_crash {A} : Steady (@crash A).
Proof. by split. Qed.
#[export] Instance steady_exhausted {A} : Steady (@exhausted A).
Proof. by split. Qed.
#[export] Instance steady_expected {A} (o : option A) : Steady (expected o).
Proof. destruct o; apply _. Qed.
Lemma steady_gets {A} (f : Parser → A) : (∀ s, f (unwatched s) = f s) → Steady (gets f).
Proof. intros Hf. split; unfold gets; intros; simplify_eq; by rewrite ?Hf. Qed.
Lemma steady_update f : (∀ s, f (unwatched s) = unwatched (f s)) → (∀ s, p_cancel (f s) = p_cancel s) →
  Steady (update f).
Proof. intros Hf Hc. split; unfold update; intros; simplify_eq; [by rewrite Hf|by rewrite Hc]. Qed.
Lemma steady_chain {A B} (m : P A) (k : A → P B) : Steady m → (∀ a, Steady (k a)) → Steady (chain m k).
Proof.
  intros Hm Hk. split; unfold chain; intros s b s'; destruct (m s) as [a s1| |] eqn:E; try done; intros Hb.
  - intros Hc. rewrite (steady_run _ _ _ E); [exact (steady_run _ _ _ Hb Hc)|].
    intros H1. exact (Hc (steady_sticky _ _ _ Hb H1)).
  - intros Hc. exact (steady_sticky _ _ _ Hb (steady_sticky _ _ _ E Hc)).
Qed.
(** The state that an action reads may feed anything but the token to what follows. *)
Lemma steady_state {B} (k : Parser → P B) : (∀ x, Steady (k x)) → (∀ x, k (unwatched x) = k x) →
  Steady (chain (gets id) k).
Proof.
  intros Hk Hu. split; unfold chain, gets, id; intros s b s' Hb.
  - rewrite Hu. apply (steady_run _ _ _ Hb).
  - apply (steady_sticky _ _ _ Hb).
Qed.
Lemma steady_rounds {A B} (body : A → P (A + B)) fuel a : (∀ a, Steady (body a)) → Steady (rounds fuel body a).
Proof.
  intros Hb. revert a. induction fuel as [|fuel IH]; intros a; simpl; [apply _|].
  apply steady_chain; [done|]. intros []; [apply IH|apply _].
Qed.
Lemma steady_loop {A B} (body : A → P (A + B)) a : (∀ a, Steady (body a)) → Steady (loop body a).
Proof.
  intros Hb. split; unfold loop; intros s b s' Hr.
  all: pose proof (steady_rounds body (S (S (len (p_lex s)))) a Hb) as Hs.
  - exact (steady_run _ _ _ Hr).
  - exact (steady_sticky _ _ _ Hr).
Qed.

#[export] Instance steady_poll : Steady poll.
Proof.
  split; unfold poll, chain, gets, update, give, id; intros s a s'.
  all: destruct (p_cancel s) as [[|k]|] eqn:E; simpl; rewrite ?E; intros; simplify_eq/=; done.
Qed.
#[export] Instance steady_literal_reason t : Steady (literal_reason t).
Proof.
  split; unfold literal_reason; intros s a s'.
  all: destruct (decode_string_literal_with_cancellation t _) as [[x|e] st| | |] eqn:E; intros; simplify_eq/=; try done.
  1-2: apply (faithful_run (m := decode_string_literal_with_cancellation t)) in E; [|done]; simpl in E |- *;
       unfold uncancel in E; simpl in E; by rewrite E.
  all: by eapply (faithful_sticky (m := decode_string_literal_with_cancellation t)) in E.
Qed.

(** ** Automation *)
Ltac head_of t := lazymatch t with ?f _ => head_of f | _ => t end.
Ltac steady :=
  intros; cbv beta zeta;
  lazymatch goal with
  | |- Steady (chain (gets id) _) => apply steady_state; [intro; steady|reflexivity]
  | |- Steady (chain _ _) => apply steady_chain; [steady|intro; steady]
  | |- Steady (loop _ _) => apply steady_loop; intro; steady
  | |- Steady (gets _) => apply steady_gets; reflexivity
  | |- Steady (update _) => apply steady_update; reflexivity
  | |- Steady (match ?x with _ => _ end) => destruct x; steady
  | |- Steady ?m => first [assumption | apply _ | (let h := head_of m in unfold h); steady]
  end.

(** ** Operations *)
#[export] Instance steady_continue : Steady continue_parsing.
Proof. steady. Qed.
#[export] Instance steady_error k : Steady (error_here k).
Proof. steady. Qed.
#[export] Instance steady_bump : Steady bump_trivia.
Proof. steady. Qed.
#[export] Instance steady_take : Steady take_token.
Proof. steady. Qed.
#[export] Instance steady_eat k : Steady (eat k).
Proof. steady. Qed.
#[export] Instance steady_expect k d : Steady (expect k d).
Proof. steady. Qed.
#[export] Instance steady_operator {O} (o : O) k : Steady (operator o k).
Proof. steady. Qed.
#[export] Instance steady_end m : Steady (end_mark m).
Proof. steady. Qed.
#[export] Instance steady_bump_error : Steady bump_as_error.
Proof. steady. Qed.
#[export] Instance steady_guard b : Steady (guard_progress b).
Proof. steady. Qed.
#[export] Instance steady_lookahead a : Steady (nth_nontrivia_kind_from a).
Proof. steady. Qed.
#[export] Instance steady_nth i a : Steady (nth_from i a).
Proof. revert a. induction i; simpl; steady. Qed.
#[export] Instance steady_nested {T} (m : P (Built T)) : Steady m → Steady (nested m).
Proof. steady. Qed.
#[export] Instance steady_struct_literals {T} b (m : P T) : Steady m → Steady (with_struct_literals b m).
Proof. steady. Qed.
#[export] Instance steady_rejected {T} (m : P T) : Steady m → Steady (rejected m).
Proof. steady. Qed.
#[export] Instance steady_separator e m : Steady m → Steady (recover_list_separator e m).
Proof. steady. Qed.
#[export] Instance steady_list {T} e starts (m : P (Built T)) f i : Steady starts → Steady m →
  Steady (list_ e starts m f i).
Proof. steady. Qed.

(** ** Productions *)
#[export] Instance steady_path : Steady parse_path.
Proof. steady. Qed.
#[export] Instance steady_impl_target : Steady impl_target_followed_by_for.
Proof. steady. Qed.
#[export] Instance steady_item_kind : Steady attributed_item_kind.
Proof. steady. Qed.
#[export] Instance steady_application : Steady path_application.
Proof. steady. Qed.
#[export] Instance steady_literal : Steady parse_literal.
Proof. steady. Qed.

Section grammar.
Context (G : Grammar).

Class SteadyGrammar : Prop := {
  steady_type :: Steady (type_inner G);
  steady_attribute :: Steady (attribute_value_inner G);
  steady_single :: Steady (single_pattern G);
  steady_alternatives :: Steady (pattern_alternatives G);
  steady_range :: Steady (range_inner G);
  steady_prefix :: Steady (prefix_inner G);
  steady_if :: Steady (if_inner G);
  steady_block :: Steady (block_inner G);
  steady_use :: Steady (use_tree_inner G);
  steady_module :: Steady (module_def G)
}.
Context {HG : SteadyGrammar}.

#[export] Instance steady_generic_arguments : Steady (parse_generic_arg_list G).
Proof. steady. Qed.
#[export] Instance steady_call_arguments : Steady (parse_call_generic_arg_list G).
Proof. steady. Qed.
#[export] Instance steady_trait_ref : Steady (parse_trait_ref G).
Proof. steady. Qed.
#[export] Instance steady_bound_list : Steady (parse_trait_bound_list G).
Proof. steady. Qed.
#[export] Instance steady_type_inner : Steady (parse_type_inner G).
Proof. steady. Qed.
#[export] Instance steady_generic_params : Steady (parse_generic_params G).
Proof. steady. Qed.
#[export] Instance steady_parameters b : Steady (parse_parameters G b).
Proof. steady. Qed.
#[export] Instance steady_where_clause : Steady (parse_where_clause G).
Proof. steady. Qed.
#[export] Instance steady_attribute_inner : Steady (parse_attribute_value_inner G).
Proof. steady. Qed.
#[export] Instance steady_attributes : Steady (parse_attributes G).
Proof. steady. Qed.
#[export] Instance steady_path_expr : Steady (parse_path_expr G).
Proof. steady. Qed.
#[export] Instance steady_single_pattern : Steady (parse_single_pattern G).
Proof. steady. Qed.
#[export] Instance steady_pattern_alternatives : Steady (parse_pattern_alternatives G).
Proof. steady. Qed.
#[export] Instance steady_condition : Steady (parse_condition G).
Proof. steady. Qed.
#[export] Instance steady_condition_body : Steady (parse_condition_body G).
Proof. steady. Qed.
#[export] Instance steady_field_initializers : Steady (parse_field_initializers G).
Proof. steady. Qed.
#[export] Instance steady_atom : Steady (parse_atom G).
Proof. steady. Qed.
#[export] Instance steady_prefix_inner : Steady (parse_prefix_inner G).
Proof. steady. Qed.
#[export] Instance steady_cast : Steady (parse_cast G).
Proof. steady. Qed.
#[export] Instance steady_binary levels minimum : Steady (parse_binary_within G levels minimum).
Proof. revert minimum. induction levels; simpl; steady. Qed.
#[export] Instance steady_range_inner : Steady (parse_range G).
Proof. steady. Qed.
#[export] Instance steady_if_inner : Steady (parse_if_inner G).
Proof. steady. Qed.
#[export] Instance steady_function : Steady (parse_function G).
Proof. steady. Qed.
#[export] Instance steady_const b : Steady (parse_const G b).
Proof. steady. Qed.
#[export] Instance steady_static : Steady (parse_static G).
Proof. steady. Qed.
#[export] Instance steady_block_inner : Steady (parse_block_inner G).
Proof. steady. Qed.
#[export] Instance steady_use_inner : Steady (parse_use_tree_inner G).
Proof. steady. Qed.
#[export] Instance steady_members b : Steady (parse_members G b).
Proof. steady. Qed.
#[export] Instance steady_item : Steady (parse_item G).
Proof. steady. Qed.
#[export] Instance steady_body b : Steady (parse_module_body G b).
Proof. steady. Qed.
#[export] Instance steady_module_inner : Steady (parse_module_def G).
Proof. steady. Qed.
End grammar.

Lemma productions_steady G : SteadyGrammar G → SteadyGrammar (productions G).
Proof. intros HG. split; simpl; apply _. Qed.
#[export] Instance grammar_steady n : SteadyGrammar (grammar n).
Proof. induction n; [split; simpl; apply _|by apply productions_steady]. Qed.
#[export] Instance steady_file options : Steady (parse_file options).
Proof. steady. Qed.
