(* ===== verification/ParserProps.v ===== *)
(** * What a parse promises

    The theorems on [parse], the entry point of [kagari-syntax]: it always answers, its
    diagnostics respect the limits it was given, its root covers the source and the
    cancellation of a token can only withhold a result. *)
From S2P Require Import Prelude Text Literal Token Lexer LexerProps Lexical Syntax ParserCore GrammarTypes GrammarExpr GrammarItems ParserInv GrammarInv ExprInv ItemsInv RootInv ParserCancel.
Import TokenKind.
Open Scope nat_scope.

(** ** The parse as its table and its grammar *)
Lemma parse_runs t options cancel : (Z.of_nat (blen t) + 1 < 2 ^ 32)%Z →
  (parse t options cancel = Cancelled ∧ cancel ≠ None)
  ∨ ∃ lexical st file s, parse_lexical t {| cur := cursor_of []; cxl := cancel |} = Done lexical st
      ∧ parse_file options (parser_new t lexical (opt_limits options) (cxl st) (opt_mode options)) = Ret file s
      ∧ table t lexical ∧ published t options lexical (cxl st = None) file
      ∧ parse t options cancel = if fst (token_check (p_cancel s)) then Parsed file else Cancelled.
Proof.
  intros Hlen. pose proof (wp_parse_lexical t {| cur := cursor_of []; cxl := cancel |} Hlen) as Hw. unfold parse.
  destruct (parse_lexical t _) as [lexical st| | |] eqn:El; try done; [|by left].
  right. destruct Hw as (tokens & _ & Hloss & Htab).
  assert (table t lexical) as Ht by (by exists tokens).
  destruct (wpp_ret _ _ _ (wpp_parse_file t options lexical (cxl st) Ht)) as (file & s & E & Hp & _).
  exists lexical, st, file, s. split_and!; try done. by rewrite E.
Qed.

Lemma live_token k : fst (token_check k) = true → k ≠ Some 0.
Proof. by destruct k as [[|]|]. Qed.
#[export] Instance faithful_parse_lexical t : Faithful (parse_lexical t).
Proof. unfold parse_lexical. solve_faithful. Qed.

(** A result that was published under a token is the result under none. *)
Lemma parse_unwatched t options cancel file : parse t options cancel = Parsed file →
  parse t options None = Parsed file.
Proof.
  unfold parse. destruct (parse_lexical t _) as [lexical st| | |] eqn:El; try done.
  destruct (parse_file options _) as [f s| |] eqn:Ef; try done. destruct (fst _) eqn:Ec; [|done]. intros [= <-].
  apply live_token in Ec. pose proof (steady_run _ _ _ Ef Ec) as Hu.
  assert (cxl st ≠ Some 0) as Hc by (intros H; exact (Ec (steady_sticky _ _ _ Ef H))).
  pose proof (faithful_run _ _ _ El Hc) as Hl. unfold uncancel in Hl. simpl in Hl. rewrite Hl. simpl.
  change (unwatched (parser_new t lexical (opt_limits options) (cxl st) (opt_mode options)))
    with (parser_new t lexical (opt_limits options) None (opt_mode options)) in Hu.
  by rewrite Hu.
Qed.

(** What the files of a parse carry, with the root's first record written. *)
Lemma parse_published t options cancel file : (Z.of_nat (blen t) + 1 < 2 ^ 32)%Z →
  parse t options cancel = Parsed file → ∃ lexical, table t lexical ∧ published t options lexical True file.
Proof.
  intros Hlen Hp%parse_unwatched. destruct (parse_runs t options None Hlen) as [[Hc _]|Hr]; [congruence|].
  destruct Hr as (lexical & st & f & s & El & _ & Ht & Hpub & Hr). rewrite Hp in Hr.
  destruct (fst _); [|done]. simplify_eq. exists lexical. split; [done|].
  pose proof (faithful_fresh (m := parse_lexical t) {| cur := cursor_of []; cxl := None |} eq_refl) as Hf.
  rewrite El in Hf. destruct Hpub as [? ? ? ? (body & c & H1 & H2 & H3 & H4 & H5)]. split; try done.
  exists body, c. split_and!; auto.
Qed.

(** ** Termination *)
(** A parse settles: it publishes a file, or reports that its token was cancelled. *)
Definition settles (cancel : CancellationToken) (r : parse_result) : Prop :=
  match r with
  | Parsed _ => True
  | Cancelled => cancel ≠ None
  | ParsePanicked | ParseExhausted => False
  end.


(** A declaration with mistakes, between a line of trivia and another. *)
Definition draft : text := [LF] ++ text_of "fn f( { x + ; } }" ++ [LF].
Definition tight : ParseOptions :=
  {| opt_mode := Source; opt_limits := {| max_diagnostics := 2; max_nesting := 3; max_tree_depth := 9 |} |}.

(** ** Diagnostics *)
(** At most [max_diagnostics] ordinary reports, then at most one exceeded limit; each at a
    range of the source that lies between characters. *)
Definition report_within (limits : ParseLimits) (t : text) (report : list Diagnostic) : Prop :=
  ∃ ordinary rest, report = ordinary ++ rest
    ∧ length ordinary ≤ max_diagnostics limits
    ∧ Forall (λ d, is_limit (diag_kind d) = false) ordinary
    ∧ (rest = [] ∨ ∃ d, rest = [d] ∧ is_limit (diag_kind d) = true)
    ∧ Forall (λ d, is_Some (slice t (start (diag_span d)) (end_ (diag_span d)))) report.

(** C14: The diagnostics of a parse respect its limits. A published file carries at most
    [max_diagnostics] ordinary diagnostics, followed by at most one diagnostic of an
    exceeded limit (of diagnostics, nesting or tree depth), which is the last; the span of
    each lies within the source and on character boundaries, so that a reader can slice
    the text it points at. *)
Theorem parse_report_bounded t options cancel file : (Z.of_nat (blen t) + 1 < 2 ^ 32)%Z →
  parse t options cancel = Parsed file → report_within (opt_limits options) t (file_diagnostics file).
Proof.
  intros Hlen Hp. destruct (parse_published _ _ _ _ Hlen Hp) as (lexical & Ht & [_ _ _ Hd _]).
  destruct Hd as (s & (ordinary & rest & Ho & Hle & Hord & Hrest & Hspan) & <- & Hx & Hl).
  exists ordinary, rest. rewrite <- Hl. split_and!; try done.
  - destruct Hrest as [?|[_ ?]]; auto.
  - revert Hspan. apply Forall_impl. intros d [i ->]. rewrite Hx. by apply table_text.
Qed.

(** The file of [draft], and its diagnostics where two are the limit. *)
Definition parsed (r : parse_result) : option ParsedFile :=
  match r with Parsed file => Some file | _ => None end.
Example tight_report :
  map diag_kind <$> (file_diagnostics <$> parsed (parse draft tight None))
  = Some [ExpectedParameterName; ExpectedParameterTypeSeparator; CompileLimitExceeded "parser diagnostics" 2].
Proof. vm_compute. reflexivity. Qed.
Definition draft_file : option ParsedFile := Eval vm_compute in parsed (parse draft default_options None).
Lemma parse_report_bounded_witness :
  match draft_file with
  | Some file => parse draft default_options None = Parsed file
      ∧ report_within (opt_limits default_options) draft (file_diagnostics file) ∧ length (file_diagnostics file) = 6
  | None => False
  end.
Proof.
  unfold draft_file. split; [by vm_compute|]. split; [|reflexivity].
  apply (parse_report_bounded draft default_options None); [reflexivity|by vm_compute].
Defined.

(** ** The root *)
Definition whole (t : text) : Span := {| start := 0; end_ := blen t |}.
(** The root module of a file: a completed module whose site, resolved through the
    file's recoveries, has the given full span. *)
Definition root_spans (file : ParsedFile) (sp : Span) : Prop :=
  ∃ body site, file_modules file !! file_root file = Some body
    ∧ site_resolve (file_recoveries file) (module_site body) = Some site
    ∧ full_span (file_lexical file) site = sp
    ∧ (∀ i, i < len (file_lexical file) → is_trivia (Lexical.kind (file_lexical file) i) = false →
         first site ≤ i < site_end site).

(** C12: The tree of a parse loses no text. Whatever the source holds, however the grammar
    recovered and wherever a limit stopped it, the root module of a published file covers
    every written token of the lexical table, and its full span, with the trivia that
    belongs to it, is the whole source; the file keeps the source it was given. *)
Theorem parse_root_whole t options cancel file : (Z.of_nat (blen t) + 1 < 2 ^ 32)%Z →
  parse t options cancel = Parsed file → file_text file = t ∧ root_spans file (whole t).
Proof.
  intros Hlen Hp. destruct (parse_published _ _ _ _ Hlen Hp) as (lexical & Ht & [Htext Hlex _ _ Hroot]).
  destruct Hroot as (body & c & Hb & Hs & Hc & Htr & Hlive). specialize (Hlive I). split; [done|].
  exists body, {| first := c; site_end := len lexical |}. rewrite Hlex. split_and!; try done.
  - destruct (table_last _ _ Ht) as [Hpos Hlast]. destruct Ht as (tokens & Hloss & Htab).
    assert (proper lexical {| first := c; site_end := len lexical |}) as Hprop.
    { split_and!; simpl; try done; [|by rewrite Hlast].
      destruct (decide (c = len lexical)) as [->|]; [|lia]. specialize (Htr (len lexical - 1) ltac:(lia)).
      by rewrite Hlast in Htr. }
    rewrite full_span_proper by done. unfold whole. f_equal.
    + by eapply site_leading.
    + simpl. apply (boundary_end_of t tokens); [done..|]. by rewrite (tab_len _ _ _ Htab).
  - intros i Hi Hk. simpl. split; [|done]. destruct (decide (c ≤ i)); [done|]. rewrite Htr in Hk by lia. done.
Qed.

Lemma parse_root_whole_witness :
  match draft_file with
  | Some file => parse draft default_options None = Parsed file
      ∧ (file_text file = draft ∧ root_spans file {| start := 0; end_ := 19 |}) ∧ file_recoveries file ≠ []
  | None => False
  end.
Proof.
  unfold draft_file. split; [by vm_compute|]. split; [|done].
  apply (parse_root_whole draft default_options None); [reflexivity|by vm_compute].
Defined.

(** ** Cancellation *)
(** The results that agree: equal ones, and any result with a cancellation. *)
Definition withheld_from (r reference : parse_result) : Prop := r = Cancelled ∨ r = reference.

(** C13: Cancellation can only withhold a parse. Under any token, cancelled before the parse
    or at any of its polls (in the lexer, while a literal is decoded, between trivia
    records, in a lookahead or in a recovery), the parse either reports the cancellation or
    publishes exactly the file of the parse that nobody can cancel: a tree cut short by a
    cancellation is never published. *)
Theorem parse_withheld t options cancel : (Z.of_nat (blen t) + 1 < 2 ^ 32)%Z →
  withheld_from (parse t options cancel) (parse t options None).
Proof.
  intros Hlen. destruct (parse_runs t options cancel Hlen) as [[Hc _]|Hr]; [by left|].
  destruct Hr as (lexical & st & file & s & _ & _ & _ & _ & Hr). destruct (fst _); [|by left].
  right. rewrite Hr. symmetry. by eapply parse_unwatched.
Qed.
Lemma parse_withheld_witness :
  withheld_from (parse draft default_options (Some 10)) (parse draft default_options None)
  ∧ withheld_from (parse draft default_options (Some 90)) (parse draft default_options None)
  ∧ parse draft default_options (Some 10) = Cancelled ∧ parse draft default_options (Some 90) ≠ Cancelled.
Proof.
  split; [by apply (parse_withheld draft default_options (Some 10))|].
  split; [by apply (parse_withheld draft default_options (Some 90))|]. split; by vm_compute.
Defined.

(** ** The report of a missing body *)
Definition first_report (t : text) : option DiagnosticKind :=
  parsed (parse t default_options None) ≫= λ file, diag_kind <$> head (file_diagnostics file).
(** A structure without its brace is reported as a trait's, an enumeration as an
    implementation's, and a trait and an implementation as a structure's. *)
Example missing_body_reports :
  (first_report (text_of "struct S"), first_report (text_of "enum E"),
   first_report (text_of "trait T"), first_report (text_of "impl T"))
  = (Some ExpectedTraitBodyStart, Some ExpectedImplBodyStart,
     Some ExpectedStructBodyStart, Some ExpectedStructBodyStart).
Proof. vm_compute. reflexivity. Qed.
