(* ===== verification/Mir.v ===== *)
(** * The mid-level representation

    Models the data of [kagari-mir]: [ids.rs], [instruction.rs] with
    [instruction/operands.rs] and [instruction/rewrite.rs], the function and block
    records of [function.rs], and the semantic types of [kagari-types/src/ty.rs]
    that annotate them.  Identifiers are the indices they stand for.  The call
    contracts an instruction carries but no pass looks into are the carriers of
    the class [CallContracts]. *)
From stdpp Require Import gmap.
From S2P Require Import Prelude Integer Scalar RuntimeNumeric Contracts Token.
Open Scope nat_scope.

Notation BlockId := nat (only parsing).
Notation InstanceId := nat (only parsing).
Notation LocalId := nat (only parsing).
Notation ModuleSlotId := nat (only parsing).
Notation TempId := nat (only parsing).

(** ** Semantic types *)
Record DefinitionId : Set := { def_table : Z; def_index : Z }.
Inductive RangeKind : Set := RkExclusive | RkInclusive | RkFrom | RkTo | RkToInclusive | RkFull.
Inductive CollectionAccess : Set := CaReadOnly | CaMutable.
Inductive ReferenceAccess : Set := RaShared | RaMutable.

Inductive Ty : Set :=
| TyProjection (arguments : list Ty) (receiver : Ty) (interface : NominalTy) (member : DefinitionId)
| TyHost (id : DefinitionId)
| TySelfType (id : DefinitionId)
| TyParameter (owner : DefinitionId) (position : nat)
| TyBuiltin (kind : BuiltinType)
| TyTuple (items : list Ty)
| TyFunction (params : list Ty) (ty_result : Ty)
| TyIter (item : Ty)
| TyRange (item : Ty) (kind : RangeKind)
| TyArray (item : Ty)
| TyMap (key value : Ty) (access : CollectionAccess)
| TySet (item : Ty) (access : CollectionAccess)
| TyStruct (ty : NominalTy)
| TyNativeObject (ty : NominalTy)
| TyEnum (ty : NominalTy)
| TyTrait (ty : NominalTy)
| TyReference (target : Ty) (access : ReferenceAccess)
with NominalTy : Set :=
| Nominal (declaration : DefinitionId) (arguments : list Ty)
    (associated_types : list (DefinitionId * Ty)).

#[export] Instance DefinitionId_eq_dec : EqDecision DefinitionId.
Proof. solve_decision. Defined.
#[export] Instance RangeKind_eq_dec : EqDecision RangeKind.
Proof. solve_decision. Defined.
#[export] Instance CollectionAccess_eq_dec : EqDecision CollectionAccess.
Proof. solve_decision. Defined.
#[export] Instance ReferenceAccess_eq_dec : EqDecision ReferenceAccess.
Proof. solve_decision. Defined.
Lemma ty_dec (x y : Ty) : {x = y} + {x ≠ y}
with nominal_dec (x y : NominalTy) : {x = y} + {x ≠ y}.
Proof.
  - decide equality; try apply (@list_eq_dec _ ty_dec); try apply (decide (_ = _)).
  - decide equality; try apply (@list_eq_dec _ ty_dec); try apply (decide (_ = _)).
    apply (@list_eq_dec _ (@prod_eq_dec _ DefinitionId_eq_dec _ ty_dec)).
Defined.
#[export] Instance Ty_eq_dec : EqDecision Ty := ty_dec.

(** The static types whose values have an object identity. *)
Definition object_identity_type (ty : Ty) : bool :=
  match ty with
  | TyStruct _ | TyNativeObject _ | TyArray _ | TyMap _ _ _ | TySet _ _ => true
  | _ => false
  end.

(** ** Operands *)
Record MirValue : Set := { temp : TempId; value_ty : ValueType }.
#[export] Instance MirValue_eq_dec : EqDecision MirValue.
Proof. solve_decision. Defined.

(** A float constant is its bit pattern. *)
Inductive Constant : Set :=
| KUnit | KBool (b : bool) | KI32 (z : Z) | KI64 (z : Z) | KU64 (z : Z)
| KF32 (bits : Z) | KF64 (bits : Z) | KStr (s : string) | KChar (c : Z).
#[export] Instance Constant_eq_dec : EqDecision Constant.
Proof. solve_decision. Defined.

Inductive StringIterKind : Set :=
| SiChars | SiBytes | SiCharIndices | SiSplit | SiSplitN | SiWhitespace | SiLines.
Inductive IterOp : Set := IterNew | IterString (kind : StringIterKind) | IterNext.

Inductive RuntimeHelper : Set :=
| ReflectTypeOf | ReflectGetField (name : string) | ReflectSetField (name : string)
| ReflectSetIndex | DynamicCall.

(** Contracts of calls and host paths: carried, never inspected here. *)
Class CallContracts : Type := {
  SharedCall : Type;
  InterfaceCallContract : Type;
  NativeImport : Type;
  OperationWitness : Type;
  ConstructionWitness : Type;
  ConstructionRequirement : Type;
  HostPathDeclaration : Type
}.

Record SourceFunctionContract : Set := {
  sf_declaration : DefinitionId; sf_arguments : list Ty; sf_params : list ValueType;
  sf_return_type : ValueType
}.
Record AggregateFieldRef : Set := {
  field_owner : NominalTy; field_slot : nat; field_reference : option ReferenceAccess
}.
Record StructFieldInit : Set := { init_slot : nat; init_value : MirValue }.

Section Instructions.
Context `{CallContracts}.

Inductive ConstructionTarget : Type :=
| Declared (implementation : DefinitionId) (arguments : list Ty)
    (operations : list OperationWitness) (constructions : list ConstructionWitness)
| Bound (requirement : ConstructionRequirement).

Record PathRef : Type := {
  path_declaration : option HostPathDeclaration; contract_fingerprint : Z;
  root_ty : ValueType; result_ty : ValueType; read_only : bool; debug_name : string
}.

Inductive CallTarget : Type :=
| CtShared (call : SharedCall)
| CtSourceFunction (contract : SourceFunctionContract)
| CtFunction (id : InstanceId)
| CtInterfaceMethod (contract : InterfaceCallContract)
| CtNative (import : NativeImport)
| CtValue (value : MirValue)
| CtClosure (value : MirValue) (params : list ValueType) (return_type : ValueType)
| CtRuntimePrimitive (primitive : RuntimePrimitive)
| CtRuntimeHelper (helper : RuntimeHelper).

Inductive Instruction : Type :=
| Await (dst value : MirValue) (future : Ty)
| Convert (dst src : MirValue) (conversion : NumericConversion)
| Numeric (dst : MirValue) (operation : NumericOperation) (lhs : MirValue) (rhs : option MirValue)
| Iter (dst : MirValue) (value : option MirValue) (ty : Ty) (op : IterOp)
| LoadConst (dst : MirValue) (constant : Constant)
| LoadLocal (dst : MirValue) (local : LocalId)
| LoadModule (dst : MirValue) (slot : ModuleSlotId)
| StoreLocal (local : LocalId) (src : MirValue)
| StoreModule (slot : ModuleSlotId) (src : MirValue)
| Move (dst src : MirValue)
| Unary (dst : MirValue) (op : UnaryOp) (operand : MirValue)
| Binary (dst : MirValue) (op : ContractBinaryOp) (lhs rhs : MirValue)
| Call (dst : option MirValue) (callee : CallTarget) (args : list MirValue)
| MakeTuple (dst : MirValue) (elements : list MirValue)
| RangeBound (dst value : MirValue) (range bound : Ty) (upper : bool)
| MakeRange (dst : MirValue) (start end_ : option MirValue) (ty : Ty)
| RepeatArray (element : Ty) (dst value count : MirValue)
| MakeArray (element : Ty) (dst : MirValue) (elements : list MirValue)
| MakeFuture (dst : MirValue) (function : InstanceId) (arguments : list MirValue) (future : Ty)
| MakeClosure (dst : MirValue) (function : InstanceId) (captures : list MirValue)
| MakeCell (dst value : MirValue)
| ReadCell (dst cell : MirValue)
| WriteCell (cell value : MirValue)
| UpcastInterface (dst value : MirValue) (source target : NominalTy)
| MakeInterface (dst value : MirValue) (target : ConstructionTarget)
| MakeStruct (dst : MirValue) (structure : NominalTy) (fields : list StructFieldInit)
| MakeEnum (dst : MirValue) (enumeration : NominalTy) (variant : nat) (fields : list MirValue)
| TestEnumVariant (dst value : MirValue) (enumeration : NominalTy) (variant : nat)
| ReadEnumPayload (dst value : MirValue) (enumeration : NominalTy) (variant index : nat)
| ReadAggregateField (dst base : MirValue) (field : AggregateFieldRef)
| WriteAggregateField (base : MirValue) (field : AggregateFieldRef) (value : MirValue)
| ReadAggregateIndex (dst base index : MirValue)
| WriteAggregateIndex (base index value : MirValue)
| ReadPath (dst root_or_view : MirValue) (path : PathRef) (dynamic_args : list MirValue)
| SetPath (root_or_view : MirValue) (path : PathRef) (dynamic_args : list MirValue) (value : MirValue)
| ModifyPath (dst : option MirValue) (root_or_view : MirValue) (path : PathRef)
    (dynamic_args : list MirValue) (op : ContractBinaryOp) (value : MirValue)
| MakePathView (dst root_or_view : MirValue) (path : PathRef) (dynamic_args : list MirValue).

Inductive Terminator : Set :=
| Return (value : option MirValue)
| Jump (target : BlockId)
| Branch (cond : MirValue) (then_block else_block : BlockId)
| Unreachable.

(** ** Effects *)
Definition helper_effects (helper : RuntimeHelper) : EffectSet :=
  match helper with
  | DynamicCall => Effect.runtime_call
  | ReflectTypeOf | ReflectGetField _ => Effect.union Effect.runtime_call Effect.aggregate_read
  | ReflectSetField _ | ReflectSetIndex => Effect.union Effect.runtime_call Effect.aggregate_write
  end.

Definition call_effects (callee : CallTarget) : EffectSet :=
  match callee with
  | CtFunction _ | CtSourceFunction _ | CtValue _ | CtClosure _ _ _ => Effect.call
  | CtInterfaceMethod _ | CtShared _ => Effect.runtime_call
  | CtNative _ => Effect.native_call
  | CtRuntimePrimitive primitive => runtime_primitive_effects primitive
  | CtRuntimeHelper helper => helper_effects helper
  end.

Definition with_suspend (e : EffectSet) : EffectSet :=
  {| reads_local := reads_local e; writes_local := writes_local e;
     reads_module := reads_module e; writes_module := writes_module e;
     reads_aggregate := reads_aggregate e; writes_aggregate := writes_aggregate e;
     reads_path := reads_path e; writes_path := writes_path e; allocates := allocates e;
     calls := calls e; touches_runtime := touches_runtime e; may_trap := may_trap e;
     may_suspend := true |}.

(** [EffectSet { reads_aggregate, may_trap, ..default }]. *)
Definition read_or_trap (reads traps : bool) : EffectSet :=
  {| reads_local := false; writes_local := false; reads_module := false; writes_module := false;
     reads_aggregate := reads; writes_aggregate := false; reads_path := false;
     writes_path := false; allocates := false; calls := false; touches_runtime := false;
     may_trap := traps; may_suspend := false |}.

Definition unary_traps (op : UnaryOp) (ty : ValueType) : bool :=
  match op, ty with Neg, (VtI32 | VtI64) => true | _, _ => false end.
Definition heap_comparison (op : ContractBinaryOp) (ty : ValueType) : bool :=
  match op with
  | BoEq | BoNotEq | BoIdentityEq | BoIdentityNotEq => bool_decide (ty = VtHeapObject)
  | _ => false
  end.
Definition binary_traps (op : ContractBinaryOp) (ty : ValueType) : bool :=
  match op with
  | BoNumeric _ => true
  | BoAdd | BoSub | BoMul | BoDiv | BoRem =>
      match ty with VtI32 | VtI64 | VtU64 => true | _ => false end
  | _ => heap_comparison op ty
  end.

Definition effects (i : Instruction) : EffectSet :=
  match i with
  | Await _ _ _ => with_suspend Effect.native_call
  | LoadConst _ _ | Move _ _ => Effect.default
  | Convert _ _ _ => Effect.trap
  | Numeric _ _ _ _ => Effect.trap
  | Unary _ op operand => read_or_trap false (unary_traps op (value_ty operand))
  | Binary _ op lhs _ =>
      read_or_trap (heap_comparison op (value_ty lhs)) (binary_traps op (value_ty lhs))
  | LoadLocal _ _ => Effect.local_read
  | StoreLocal _ _ => Effect.local_write
  | LoadModule _ _ => Effect.module_read
  | StoreModule _ _ => Effect.module_write
  | Call _ callee _ => call_effects callee
  | MakeRange _ _ _ _ => Effect.trap
  | MakeTuple _ _ | MakeArray _ _ _ | RepeatArray _ _ _ _ | RangeBound _ _ _ _ _
  | MakeFuture _ _ _ _ | MakeClosure _ _ _ | MakeCell _ _ | MakeInterface _ _ _
  | UpcastInterface _ _ _ _ | MakeStruct _ _ _ | MakeEnum _ _ _ _ => Effect.allocation
  | Iter _ _ _ _ => Effect.union Effect.allocation Effect.aggregate_write
  | ReadAggregateField _ _ field =>
      if field_reference field then Effect.native_call else Effect.aggregate_read
  | WriteAggregateField _ field _ =>
      if field_reference field then Effect.native_call else Effect.aggregate_write
  | ReadCell _ _ | ReadAggregateIndex _ _ _ | TestEnumVariant _ _ _ _ | ReadEnumPayload _ _ _ _ _ =>
      Effect.aggregate_read
  | WriteAggregateIndex _ _ _ | WriteCell _ _ => Effect.aggregate_write
  | ReadPath _ _ _ _ | MakePathView _ _ _ _ => Effect.path_read
  | SetPath _ _ _ _ => Effect.path_write
  | ModifyPath _ _ _ _ _ _ => Effect.union Effect.path_read Effect.path_write
  end.

Definition terminator_effects (t : Terminator) : EffectSet :=
  read_or_trap false (match t with Unreachable => true | _ => false end).

(** ** Operands *)
Definition successors (t : Terminator) : list BlockId :=
  match t with
  | Jump target => [target]
  | Branch _ then_block else_block => [then_block; else_block]
  | Return _ | Unreachable => []
  end.
Definition terminator_input (t : Terminator) : option MirValue :=
  match t with Return value => value | Branch cond _ _ => Some cond | _ => None end.

Definition inputs (i : Instruction) : list MirValue :=
  match i with
  | Await _ value _ => [value]
  | Convert _ src _ => [src]
  | Numeric _ _ lhs rhs => lhs :: option_list rhs
  | Iter _ value _ _ => option_list value
  | LoadConst _ _ | LoadLocal _ _ | LoadModule _ _ => []
  | StoreLocal _ src | StoreModule _ src | Move _ src => [src]
  | Unary _ _ operand => [operand]
  | RangeBound _ value _ _ _ => [value]
  | MakeRange _ start end_ _ => option_list start ++ option_list end_
  | RepeatArray _ _ value count => [value; count]
  | Binary _ _ lhs rhs => [lhs; rhs]
  | Call _ callee args =>
      args ++ match callee with CtValue value | CtClosure value _ _ => [value] | _ => [] end
  | MakeTuple _ elements | MakeArray _ _ elements | MakeEnum _ _ _ elements => elements
  | MakeFuture _ _ arguments _ => arguments
  | MakeClosure _ _ captures => captures
  | MakeCell _ value => [value]
  | ReadCell _ cell => [cell]
  | WriteCell cell value => [cell; value]
  | MakeStruct _ _ fields => init_value <$> fields
  | MakeInterface _ value _ | UpcastInterface _ value _ _ => [value]
  | TestEnumVariant _ value _ _ | ReadEnumPayload _ value _ _ _ => [value]
  | ReadAggregateField _ base _ => [base]
  | WriteAggregateField base _ value => [base; value]
  | ReadAggregateIndex _ base index => [base; index]
  | WriteAggregateIndex base index value => [base; index; value]
  | ReadPath _ root _ dynamic_args | MakePathView _ root _ dynamic_args => dynamic_args ++ [root]
  | SetPath root _ dynamic_args value | ModifyPath _ root _ dynamic_args _ value =>
      dynamic_args ++ [root; value]
  end.

Definition output (i : Instruction) : option MirValue :=
  match i with
  | Await dst _ _ | LoadConst dst _ | LoadLocal dst _ | LoadModule dst _ | Move dst _
  | Unary dst _ _ | Binary dst _ _ _ | MakeTuple dst _ | MakeArray _ dst _
  | RepeatArray _ dst _ _ | MakeRange dst _ _ _ | RangeBound dst _ _ _ _ | MakeFuture dst _ _ _
  | MakeClosure dst _ _ | MakeCell dst _ | ReadCell dst _ | MakeStruct dst _ _
  | Convert dst _ _ | Numeric dst _ _ _ | Iter dst _ _ _ | MakeEnum dst _ _ _
  | MakeInterface dst _ _ | UpcastInterface dst _ _ _ | TestEnumVariant dst _ _ _
  | ReadEnumPayload dst _ _ _ _ | ReadAggregateField dst _ _ | ReadAggregateIndex dst _ _
  | ReadPath dst _ _ _ | MakePathView dst _ _ _ => Some dst
  | Call dst _ _ | ModifyPath dst _ _ _ _ _ => dst
  | StoreLocal _ _ | StoreModule _ _ | WriteAggregateField _ _ _ | WriteAggregateIndex _ _ _
  | SetPath _ _ _ _ | WriteCell _ _ => None
  end.

(** [rewrite_inputs] with a pure rewriting of one operand. *)
Definition rewrite_inputs (f : MirValue → MirValue) (i : Instruction) : Instruction :=
  match i with
  | LoadConst _ _ | LoadLocal _ _ | LoadModule _ _ => i
  | Convert dst src conversion => Convert dst (f src) conversion
  | StoreLocal local src => StoreLocal local (f src)
  | StoreModule slot src => StoreModule slot (f src)
  | Move dst src => Move dst (f src)
  | Unary dst op operand => Unary dst op (f operand)
  | Numeric dst operation lhs rhs => Numeric dst operation (f lhs) (f <$> rhs)
  | Iter dst value ty op => Iter dst (f <$> value) ty op
  | Binary dst op lhs rhs => Binary dst op (f lhs) (f rhs)
  | Call dst callee args =>
      Call dst (match callee with
                | CtValue value => CtValue (f value)
                | CtClosure value params return_type => CtClosure (f value) params return_type
                | _ => callee
                end) (f <$> args)
  | MakeTuple dst elements => MakeTuple dst (f <$> elements)
  | MakeArray element dst elements => MakeArray element dst (f <$> elements)
  | MakeEnum dst enumeration variant fields => MakeEnum dst enumeration variant (f <$> fields)
  | MakeClosure dst function captures => MakeClosure dst function (f <$> captures)
  | MakeFuture dst function arguments future => MakeFuture dst function (f <$> arguments) future
  | Await dst value future => Await dst (f value) future
  | RangeBound dst value range bound upper => RangeBound dst (f value) range bound upper
  | MakeCell dst value => MakeCell dst (f value)
  | MakeInterface dst value target => MakeInterface dst (f value) target
  | UpcastInterface dst value source target => UpcastInterface dst (f value) source target
  | TestEnumVariant dst value enumeration variant => TestEnumVariant dst (f value) enumeration variant
  | ReadEnumPayload dst value enumeration variant index =>
      ReadEnumPayload dst (f value) enumeration variant index
  | MakeRange dst start end_ ty => MakeRange dst (f <$> start) (f <$> end_) ty
  | RepeatArray element dst value count => RepeatArray element dst (f value) (f count)
  | ReadCell dst cell => ReadCell dst (f cell)
  | WriteCell cell value => WriteCell (f cell) (f value)
  | MakeStruct dst structure fields =>
      MakeStruct dst structure
        ((λ x, {| init_slot := init_slot x; init_value := f (init_value x) |}) <$> fields)
  | ReadAggregateField dst base field => ReadAggregateField dst (f base) field
  | WriteAggregateField base field value => WriteAggregateField (f base) field (f value)
  | ReadAggregateIndex dst base index => ReadAggregateIndex dst (f base) (f index)
  | WriteAggregateIndex base index value => WriteAggregateIndex (f base) (f index) (f value)
  | ReadPath dst root path dynamic_args => ReadPath dst (f root) path (f <$> dynamic_args)
  | MakePathView dst root path dynamic_args => MakePathView dst (f root) path (f <$> dynamic_args)
  | SetPath root path dynamic_args value => SetPath (f root) path (f <$> dynamic_args) (f value)
  | ModifyPath dst root path dynamic_args op value =>
      ModifyPath dst (f root) path (f <$> dynamic_args) op (f value)
  end.
Definition rewrite_input (f : MirValue → MirValue) (t : Terminator) : Terminator :=
  match t with
  | Return (Some value) => Return (Some (f value))
  | Branch cond then_block else_block => Branch (f cond) then_block else_block
  | Return None | Jump _ | Unreachable => t
  end.

(** ** Functions *)
Record MirParameter : Set := { param_name : string; param_ty : ValueType; param_local : LocalId }.
Record MirLocal : Set := { local_name : string; local_ty : ValueType }.
Record MirTemp : Set := { temp_ty : ValueType }.
Record MirLexicalScope : Set := { scope_parent : option nat; scope_local : option LocalId }.

Record MirLocalDebugInfo : Set := {
  dl_local : LocalId; dl_name : string; dl_span : Span; dl_ty : ValueType; dl_is_parameter : bool
}.

Record MirCapturedBindingDebugInfo : Set := { cb_name : string; cb_span : Span; cb_ty : ValueType }.
Record SourcePosition : Set := {
  position_offset : nat; position_line : option nat; position_column : option nat
}.
#[export] Instance SourcePosition_eq_dec : EqDecision SourcePosition.
Proof. solve_decision. Defined.
Record SourceOrigin : Set := {
  origin_uri : string; origin_byte_len : nat; positions : list SourcePosition
}.

Record BasicBlock : Type := {
  instructions : list Instruction;
  instruction_spans : list Span;
  instruction_scopes : list nat;
  terminator : option Terminator;
  terminator_span : option Span;
  terminator_scope : option nat
}.

(** The fields the verifier and the passes of this development read: [registers]
    and [local_types] are [semantic.registers] and [semantic.locals], the last five
    fields are those of [debug]. *)
Record MirFunction : Type := {
  registers : gmap nat Ty;
  local_types : gmap nat Ty;
  params : list MirParameter;
  return_type : ValueType;
  locals : list MirLocal;
  temps : list MirTemp;
  blocks : list BasicBlock;
  entry : BlockId;
  function_effects : EffectSet;
  debug_source : option SourceOrigin;
  source_span : Span;
  debug_locals : list MirLocalDebugInfo;
  captured_bindings : list MirCapturedBindingDebugInfo;
  lexical_scopes : list MirLexicalScope
}.
Definition with_blocks (f : MirFunction) (bs : list BasicBlock) : MirFunction :=
  {| registers := registers f; local_types := local_types f; params := params f;
     return_type := return_type f; locals := locals f; temps := temps f; blocks := bs;
     entry := entry f; function_effects := function_effects f; debug_source := debug_source f;
     source_span := source_span f; debug_locals := debug_locals f;
     captured_bindings := captured_bindings f; lexical_scopes := lexical_scopes f |}.

(** [emission_order]: the block indices, entry first. *)
Definition emission_order (f : MirFunction) : list BlockId :=
  entry f :: filter (λ i, i ≠ entry f) (seq 0 (length (blocks f))).

(** [root_slots]. *)
Definition root_indices {A} (ty : A → ValueType) (slots : list A) : list nat :=
  filter (λ i, Is_true (match slots !! i with
                        | Some slot => may_contain_gc_reference (ty slot)
                        | None => false
                        end)) (seq 0 (length slots)).
Definition root_slots (f : MirFunction) : list LocalId * list TempId :=
  (root_indices local_ty (locals f), root_indices temp_ty (temps f)).
End Instructions.

(** No call or path contract, for functions without calls. *)
Definition no_contracts : CallContracts :=
  {| SharedCall := Empty_set; InterfaceCallContract := Empty_set; NativeImport := Empty_set;
     OperationWitness := Empty_set; ConstructionWitness := Empty_set;
     ConstructionRequirement := Empty_set; HostPathDeclaration := Empty_set |}.
