(* ===== verification/TyShape.v ===== *)
(** * Semantic types: shape limits

    Models [kagari-types/src/ty/shape.rs] and the predicates of [kagari-types/src/ty.rs]
    over the types of [Mir].  A walk over a type keeps a count (the nodes visited, or the
    steps that remain) and the cancellation token; the limits are those of
    [ty/substitution.rs].  The walks recur on fuel that the depth limit bounds: running
    out of it is the outcome [TypeFuel], which no theorem allows. *)
From S2P Require Import Prelude Text Scalar Mir.
Open Scope Z_scope.

(** ** Effects *)
Inductive TypeTransformError : Set := TypeCancelled | TypeLimitExceeded | TypeInvalidContract.
Inductive DefinitionTableError : Set :=
| DtTableIdentityExhausted | DtIndexExhausted | DtForeignTable | DtInvalidIndex | DtInvalidModuleRoot
| DtPathLimit | DtUnmappedDefinition | DtInvalidPortableRecord | DtPortableLimit.
(** [IdentityTransformError], and the fuel. *)
Inductive TypeFailure : Set :=
| TypeError (e : TypeTransformError)
| TypeIdentity (e : DefinitionTableError)
| TypeFuel.

Definition TM (S A : Type) : Type := S → result (A * S) TypeFailure.
Definition tret {S A} (a : A) : TM S A := λ s, Ok (a, s).
Definition tfail {S A} (e : TypeTransformError) : TM S A := λ _, Err (TypeError e).
Definition tfuel {S A} : TM S A := λ _, Err TypeFuel.
Definition tbind {S A B} (m : TM S A) (k : A → TM S B) : TM S B :=
  λ s, match m s with Ok (a, s') => k a s' | Err e => Err e end.
Declare Scope ty_walk_scope.
Notation "'let%' x ':=' m 'in' k" := (tbind m (λ x, k))
  (at level 10, x binder, m at level 100, k at level 200) : ty_walk_scope.
Notation "m ;;% k" := (tbind m (λ _, k)) (at level 90, k at level 200, right associativity) : ty_walk_scope.
Open Scope ty_walk_scope.

Fixpoint each {S A} (f : A → TM S unit) (l : list A) : TM S unit :=
  match l with [] => tret tt | x :: l => f x ;;% each f l end.
Fixpoint collect {S A B} (f : A → TM S B) (l : list A) : TM S (list B) :=
  match l with
  | [] => tret []
  | x :: l => let% y := f x in let% r := collect f l in tret (y :: r)
  end.

(** [cancel.check().map_err(|_| TypeTransformError::Cancelled)?]. *)
Definition token_live : TM CancellationToken unit :=
  λ k, let '(live, k') := token_check k in if live then Ok (tt, k') else Err (TypeError TypeCancelled).

Record Walk : Set := { w_count : Z; w_cancel : CancellationToken }.
Definition walk_live : TM Walk unit :=
  λ w, match token_live (w_cancel w) with
       | Ok (_, k) => Ok (tt, {| w_count := w_count w; w_cancel := k |})
       | Err e => Err e
       end.
Definition get_count : TM Walk Z := λ w, Ok (w_count w, w).
Definition set_count (n : Z) : TM Walk unit := λ w, Ok (tt, {| w_count := n; w_cancel := w_cancel w |}).
(** A walk with a count of its own. *)
Definition walking {A} (count : Z) (m : TM Walk A) : TM CancellationToken A :=
  λ k, match m {| w_count := count; w_cancel := k |} with Ok (a, w) => Ok (a, w_cancel w) | Err e => Err e end.

(** ** Limits *)
Definition MAX_TYPE_DEPTH : Z := 64.
Definition MAX_TYPE_NODES : Z := 4096.
Definition usize_saturating_add (a b : Z) : Z := (2 ^ 64 - 1) `min` (a + b).
Definition zlen {A} (l : list A) : Z := Z.of_nat (length l).

Definition nominal_declaration (n : NominalTy) : DefinitionId := match n with Nominal d _ _ => d end.
Definition nominal_arguments (n : NominalTy) : list Ty := match n with Nominal _ a _ => a end.
Definition nominal_associated (n : NominalTy) : list (DefinitionId * Ty) := match n with Nominal _ _ b => b end.
(** [associated_types.values()]: the map iterates in the order of its keys. *)
Definition associated_values (n : NominalTy) : list Ty := map snd (nominal_associated n).
(** [associated_types.get(member)]. *)
Definition associated_get (n : NominalTy) (member : DefinitionId) : option Ty :=
  (λ found, snd (snd found)) <$> list_find (λ b, fst b = member) (nominal_associated n).

Module Shape.
(** The budget of [ShapeBudget]: the count is its [visited]. *)
Definition count_nominal (n : NominalTy) : Z :=
  usize_saturating_add (zlen (nominal_arguments n)) (zlen (nominal_associated n)).

Definition enter_children (children depth : Z) : TM Walk unit :=
  let% visited := get_count in
  if (MAX_TYPE_DEPTH <? depth) || (MAX_TYPE_NODES <=? visited) then tfail TypeLimitExceeded
  else
    set_count (visited + 1) ;;%
    if MAX_TYPE_NODES - (visited + 1) <? children then tfail TypeLimitExceeded else tret tt.

Definition enter (ty : Ty) (depth : Z) : TM Walk unit :=
  let% visited := get_count in
  if (MAX_TYPE_DEPTH <? depth) || (MAX_TYPE_NODES <=? visited) then tfail TypeLimitExceeded
  else
    let% children :=
      match ty with
      | TyHost _ | TySelfType _ | TyParameter _ _ | TyBuiltin _ => tret 0
      | TyReference _ _ | TyRange _ _ | TyIter _ | TyArray _ | TySet _ _ => tret 1
      | TyMap _ _ _ => tret 2
      | TyTuple elements => tret (zlen elements)
      | TyFunction params _ => tret (usize_saturating_add (zlen params) 1)
      | TyStruct n | TyNativeObject n | TyEnum n =>
          match nominal_associated n with
          | [] => tret (zlen (nominal_arguments n))
          | _ => tfail TypeInvalidContract
          end
      | TyTrait n => tret (count_nominal n)
      | TyProjection arguments _ interface _ =>
          tret (usize_saturating_add (usize_saturating_add (count_nominal interface) (zlen arguments)) 1)
      end in
    enter_children children depth.

Definition nominal_children (visit : Ty → TM Walk unit) (n : NominalTy) : TM Walk unit :=
  each visit (nominal_arguments n) ;;% each visit (associated_values n).

Fixpoint visit (fuel : nat) (ty : Ty) (depth : Z) : TM Walk unit :=
  match fuel with
  | O => tfuel
  | S fuel =>
      let child := λ ty, visit fuel ty (depth + 1) in
      walk_live ;;%
      enter ty depth ;;%
      match ty with
      | TyHost _ | TySelfType _ | TyParameter _ _ | TyBuiltin _ => tret tt
      | TyReference target _ | TyRange target _ | TyIter target | TyArray target | TySet target _ => child target
      | TyMap key value _ => child key ;;% child value
      | TyTuple elements => each child elements
      | TyFunction params result => each child params ;;% child result
      | TyStruct n | TyNativeObject n | TyEnum n | TyTrait n => nominal_children child n
      | TyProjection arguments receiver interface _ =>
          child receiver ;;% nominal_children child interface ;;% each child arguments
      end
  end.

(** One level more than the depth limit. *)
Definition FUEL : nat := S (Z.to_nat MAX_TYPE_DEPTH).
Definition validate (ty : Ty) : TM CancellationToken unit := walking 0 (visit FUEL ty 1).
Definition validate_nominal (n : NominalTy) : TM CancellationToken unit :=
  walking 0 (walk_live ;;% enter_children (count_nominal n) 1 ;;%
             nominal_children (λ ty, visit FUEL ty 2) n).
End Shape.

(** [Ty::within_wire_limits]. *)
Definition within_wire_limits (ty : Ty) : bool := is_ok (Shape.validate ty None).

(** ** What the walks count *)
Definition ty_children (ty : Ty) : list Ty :=
  match ty with
  | TyHost _ | TySelfType _ | TyParameter _ _ | TyBuiltin _ => []
  | TyReference t _ | TyRange t _ | TyIter t | TyArray t | TySet t _ => [t]
  | TyMap key value _ => [key; value]
  | TyTuple elements => elements
  | TyFunction params result => params ++ [result]
  | TyStruct n | TyNativeObject n | TyEnum n | TyTrait n => nominal_arguments n ++ associated_values n
  | TyProjection arguments receiver interface _ =>
      receiver :: (nominal_arguments interface ++ associated_values interface) ++ arguments
  end.

Definition zsum (l : list Z) : Z := foldr Z.add 0 l.
Definition zmax (l : list Z) : Z := foldr Z.max 0 l.
Arguments zsum : simpl never.
Arguments zmax : simpl never.

Fixpoint nodes (ty : Ty) : Z :=
  let all l := zsum (map nodes l) in
  1 + match ty with
  | TyHost _ | TySelfType _ | TyParameter _ _ | TyBuiltin _ => 0
  | TyReference t _ | TyRange t _ | TyIter t | TyArray t | TySet t _ => nodes t
  | TyMap key value _ => nodes key + nodes value
  | TyTuple elements => all elements
  | TyFunction params result => all params + nodes result
  | TyStruct n | TyNativeObject n | TyEnum n | TyTrait n => nominal_nodes n
  | TyProjection arguments receiver interface _ => nodes receiver + nominal_nodes interface + all arguments
  end
with nominal_nodes (n : NominalTy) : Z :=
  match n with
  | Nominal _ arguments associated =>
      zsum (map nodes arguments) + zsum (map (λ '(_, t), nodes t) associated)
  end.

Fixpoint height (ty : Ty) : Z :=
  let all l := zmax (map height l) in
  1 + match ty with
  | TyHost _ | TySelfType _ | TyParameter _ _ | TyBuiltin _ => 0
  | TyReference t _ | TyRange t _ | TyIter t | TyArray t | TySet t _ => height t
  | TyMap key value _ => height key `max` height value
  | TyTuple elements => all elements
  | TyFunction params result => all params `max` height result
  | TyStruct n | TyNativeObject n | TyEnum n | TyTrait n => nominal_height n
  | TyProjection arguments receiver interface _ =>
      height receiver `max` nominal_height interface `max` all arguments
  end
with nominal_height (n : NominalTy) : Z :=
  match n with
  | Nominal _ arguments associated =>
      zmax (map height arguments) `max` zmax (map (λ '(_, t), height t) associated)
  end.

(** Only traits and projections carry associated types. *)
Definition plain_here (ty : Ty) : bool :=
  match ty with
  | TyStruct n | TyNativeObject n | TyEnum n => match nominal_associated n with [] => true | _ => false end
  | _ => true
  end.
(** A predicate at every node. *)
Section every.
  Context (p : Ty → bool).

Fixpoint every (ty : Ty) : bool :=
  p ty &&
  match ty with
  | TyHost _ | TySelfType _ | TyParameter _ _ | TyBuiltin _ => true
  | TyReference t _ | TyRange t _ | TyIter t | TyArray t | TySet t _ => every t
  | TyMap key value _ => every key && every value
  | TyTuple elements => forallb every elements
  | TyFunction params result => forallb every params && every result
  | TyStruct n | TyNativeObject n | TyEnum n | TyTrait n => every_nominal n
  | TyProjection arguments receiver interface _ =>
      every receiver && every_nominal interface && forallb every arguments
  end
with every_nominal (n : NominalTy) : bool :=
  match n with
  | Nominal _ arguments associated => forallb every arguments && forallb (λ '(_, t), every t) associated
  end.
End every.
Definition plain : Ty → bool := every plain_here.

(** The types that fit the limits. *)
Definition fits (ty : Ty) : Prop :=
  plain ty = true ∧ height ty ≤ MAX_TYPE_DEPTH ∧ nodes ty ≤ MAX_TYPE_NODES.
#[export] Instance fits_dec ty : Decision (fits ty).
Proof. apply _. Defined.

Lemma ty_children_ind (P : Ty → Prop) : (∀ ty, Forall P (ty_children ty) → P ty) → ∀ ty, P ty.
Proof.
  intros H. fix IH 1. intros ty. apply H.
  destruct ty as [arguments r [d args assoc] m|?|?|? ?|?|items|params r|t|t ?|t|k v ?|t ?|[d args assoc]|[d args assoc]
    |[d args assoc]|[d args assoc]|t ?]; simpl; unfold associated_values; simpl.
  all: try (constructor; [apply IH|]); try (apply Forall_app; split).
  all: try apply Forall_nil_2.
  all: try (apply Forall_app; split).
  all: try (constructor; [apply IH|constructor]).
  all: first [ induction args as [|x l Hl]; constructor; [apply IH|exact Hl]
             | induction items as [|x l Hl]; constructor; [apply IH|exact Hl]
             | induction params as [|x l Hl]; constructor; [apply IH|exact Hl]
             | induction arguments as [|x l Hl]; constructor; [apply IH|exact Hl]
             | induction assoc as [|[c x] l Hl]; constructor; [apply IH|exact Hl] ].
Qed.

Lemma zsum_cons x l : zsum (x :: l) = x + zsum l.
Proof. done. Qed.
Lemma zsum_nil : zsum [] = 0.
Proof. done. Qed.
Lemma zsum_app a b : zsum (a ++ b) = zsum a + zsum b.
Proof. induction a as [|x a IH]; simpl; [done|]. rewrite !zsum_cons, IH. lia. Qed.
Lemma zmax_cons x l : zmax (x :: l) = x `max` zmax l.
Proof. done. Qed.
Lemma zmax_nil : zmax [] = 0.
Proof. done. Qed.
Lemma zmax_nonneg l : 0 ≤ zmax l.
Proof. induction l as [|x l IH]; [done|]. rewrite zmax_cons. lia. Qed.
Lemma zmax_app a b : zmax (a ++ b) = zmax a `max` zmax b.
Proof.
  pose proof (zmax_nonneg b). induction a as [|x a IH]; simpl; [rewrite zmax_nil; lia|]. rewrite !zmax_cons, IH. lia.
Qed.
Lemma forallb_one {A} (f : A → bool) x : forallb f [x] = f x.
Proof. simpl. by rewrite andb_true_r. Qed.
Lemma map_pair_snd {A B C} (f : B → C) (l : list (A * B)) : map (λ '(_, t), f t) l = map f (map snd l).
Proof. rewrite map_map. apply map_ext. by intros []. Qed.
Lemma forallb_pair_snd {A B} (f : B → bool) (l : list (A * B)) :
  forallb (λ '(_, t), f t) l = forallb f (map snd l).
Proof. induction l as [|[a b] l IH]; simpl; [done|]. by rewrite IH. Qed.
Lemma nominal_nodes_children n : nominal_nodes n = zsum (map nodes (nominal_arguments n ++ associated_values n)).
Proof. destruct n. simpl. by rewrite map_pair_snd, map_app, zsum_app. Qed.
Lemma nominal_height_children n : nominal_height n = zmax (map height (nominal_arguments n ++ associated_values n)).
Proof. destruct n. simpl. by rewrite map_pair_snd, map_app, zmax_app. Qed.
Lemma every_nominal_children p n : every_nominal p n = forallb (every p) (nominal_arguments n ++ associated_values n).
Proof. destruct n. simpl. by rewrite forallb_pair_snd, forallb_app. Qed.


Ltac by_children :=
  intros; match goal with ty : Ty |- _ => destruct ty end;
  cbn [nodes height every ty_children nominal_nodes nominal_height every_nominal map forallb];
  rewrite ?nominal_nodes_children, ?nominal_height_children, ?every_nominal_children, ?map_app, ?forallb_app;
  cbn [map]; rewrite ?map_app, ?zsum_cons, ?zsum_app, ?zsum_cons, ?zsum_nil, ?zmax_cons, ?zmax_app, ?zmax_cons,
    ?zmax_nil, ?forallb_one, ?forallb_app, ?andb_assoc, ?andb_true_r; cbn [forallb map];
  repeat match goal with |- context [zmax ?l] =>
    lazymatch goal with _ : 0 ≤ zmax l |- _ => fail | _ => pose proof (zmax_nonneg l) end end.
Lemma nodes_children ty : nodes ty = 1 + zsum (map nodes (ty_children ty)).
Proof. by_children; lia. Qed.
Lemma every_children p ty : every p ty = p ty && forallb (every p) (ty_children ty).
Proof. by_children; rewrite ?andb_true_r; done. Qed.
Lemma plain_children ty : plain ty = plain_here ty && forallb plain (ty_children ty).
Proof. apply every_children. Qed.
Lemma height_pos ty : 1 ≤ height ty.
Proof.
  induction ty as [ty IH] using ty_children_ind.
  by_children; cbn [ty_children] in IH; rewrite ?Forall_cons_iff, ?Forall_app, ?Forall_cons_iff in IH;
    cbv beta in IH; destruct_and?; lia.
Qed.
Lemma height_children ty : height ty = 1 + zmax (map height (ty_children ty)).
Proof.
  by_children; repeat match goal with |- context [height ?t] =>
    lazymatch goal with _ : 1 ≤ height t |- _ => fail | _ => pose proof (height_pos t) end end; lia.
Qed.
Lemma zsum_nonneg (f : Ty → Z) l : Forall (λ t, 0 ≤ f t) l → 0 ≤ zsum (map f l).
Proof. induction 1 as [|x l Hx _ IH]; [done|]. cbn [map]. rewrite zsum_cons. lia. Qed.
Lemma nodes_pos ty : 1 ≤ nodes ty.
Proof.
  induction ty as [ty IH] using ty_children_ind. rewrite nodes_children.
  assert (0 ≤ zsum (map nodes (ty_children ty))); [|lia]. apply zsum_nonneg. revert IH. apply Forall_impl.
  simpl. lia.
Qed.
Lemma zsum_length l : zlen l ≤ zsum (map nodes l).
Proof.
  unfold zlen. induction l as [|x l IH]; [done|]. cbn [map length]. rewrite zsum_cons. pose proof (nodes_pos x). lia.
Qed.
Lemma zsum_all_nonneg l : 0 ≤ zsum (map nodes l).
Proof. pose proof (zsum_length l). unfold zlen in *. lia. Qed.

(** ** Specifications of walks *)
(** [Q] for a value, [E] for an error of a type; no error of an identity, and never out of fuel. *)
Definition twp {S A} (m : TM S A) (Q : A → S → Prop) (E : TypeTransformError → Prop) (s : S) : Prop :=
  match m s with Ok (a, s') => Q a s' | Err (TypeError e) => E e | Err _ => False end.
Lemma twp_ok {S A} (m : TM S A) Q E s a s' : twp m Q E s → m s = Ok (a, s') → Q a s'.
Proof. unfold twp. intros H Hm. by rewrite Hm in H. Qed.
Lemma twp_ret {S A} (a : A) (Q : A → S → Prop) E s : Q a s → twp (tret a) Q E s.
Proof. done. Qed.
Lemma twp_fail {S A} e (Q : A → S → Prop) (E : TypeTransformError → Prop) s : E e → twp (tfail e) Q E s.
Proof. done. Qed.
Lemma twp_bind {S A B} (m : TM S A) (k : A → TM S B) Q E s :
  twp m (λ a s', twp (k a) Q E s') E s → twp (tbind m k) Q E s.
Proof. unfold twp, tbind. by destruct (m s) as [[a s']|[]]. Qed.
Lemma twp_mono {S A} (m : TM S A) (Q R : A → S → Prop) (E F : TypeTransformError → Prop) s :
  twp m Q E s → (∀ a s', Q a s' → R a s') → (∀ e, E e → F e) → twp m R F s.
Proof. unfold twp. destruct (m s) as [[a s']|[]]; auto. Qed.

Lemma twp_walking {A} c (m : TM Walk A) (Q : A → CancellationToken → Prop) E k :
  twp m (λ a w, Q a (w_cancel w)) E {| w_count := c; w_cancel := k |} → twp (walking c m) Q E k.
Proof. unfold twp, walking. by destruct (m _) as [[a w]|[]]. Qed.

(** A token that nobody can cancel stays so, and only another one reports a cancellation. *)
Definition follows (k k' : CancellationToken) : Prop := k = None → k' = None.
Lemma twp_live (Q : unit → CancellationToken → Prop) (E : TypeTransformError → Prop) k :
  (∀ k', follows k k' → Q tt k') → (k ≠ None → E TypeCancelled) → twp token_live Q E k.
Proof. intros HQ HE. unfold twp, token_live. destruct k as [[|n]|]; simpl; [by apply HE|by apply HQ..]. Qed.
Lemma twp_walk_live (Q : unit → Walk → Prop) (E : TypeTransformError → Prop) w :
  (∀ w', w_count w' = w_count w → follows (w_cancel w) (w_cancel w') → Q tt w') →
  (w_cancel w ≠ None → E TypeCancelled) → twp walk_live Q E w.
Proof.
  intros HQ HE. unfold twp, walk_live, token_live. destruct w as [c [[|n]|]]; simpl; [by apply HE|by apply HQ..].
Qed.
Lemma follows_refl a : follows a a.
Proof. unfold follows. auto. Qed.
Lemma follows_trans a b c : follows a b → follows b c → follows a c.
Proof. unfold follows. auto. Qed.

(** ** Walks over children *)
Lemma tbind_ret {S A} (m : TM S A) s : tbind m (λ a, tret a) s = m s.
Proof. unfold tbind, tret. by destruct (m s) as [[]|]. Qed.
Lemma each_app {S A} (f : A → TM S unit) a b s : each f (a ++ b) s = tbind (each f a) (λ _, each f b) s.
Proof.
  revert s. induction a as [|x a IH]; intros s; [done|]. simpl. unfold tbind at 1 2 3.
  destruct (f x s) as [[? s']|]; [|done]. rewrite IH. done.
Qed.
Lemma each_one {S A} (f : A → TM S unit) x s : each f [x] s = f x s.
Proof. simpl. unfold tbind, tret. by destruct (f x s) as [[[] ?]|]. Qed.
Lemma tbind_ext {S A B} (m m' : TM S A) (k k' : A → TM S B) s :
  m s = m' s → (∀ a s, k a s = k' a s) → tbind m k s = tbind m' k' s.
Proof. unfold tbind. intros -> Hk. destruct (m' s) as [[]|]; auto. Qed.

(** [l] fits below depth [d - 1], after [c] nodes. *)
Definition room (d c : Z) (l : list Ty) : Prop :=
  Forall (λ t, plain t = true ∧ d + height t ≤ MAX_TYPE_DEPTH + 1) l ∧ c + zsum (map nodes l) ≤ MAX_TYPE_NODES.
Lemma room_children d c ty :
  room d c [ty] ↔ plain_here ty = true ∧ d ≤ MAX_TYPE_DEPTH ∧ room (d + 1) (c + 1) (ty_children ty).
Proof.
  unfold room. rewrite Forall_singleton. cbn [map]. rewrite zsum_cons, zsum_nil, nodes_children.
  rewrite plain_children, andb_true_iff, height_children.
  assert (d + (1 + zmax (map height (ty_children ty))) ≤ MAX_TYPE_DEPTH + 1 ∧ forallb plain (ty_children ty) = true
    ↔ d ≤ MAX_TYPE_DEPTH ∧ Forall (λ t, plain t = true ∧ d + 1 + height t ≤ MAX_TYPE_DEPTH + 1) (ty_children ty)) as H.
  { generalize (ty_children ty). intros l. induction l as [|x l IH]; cbn [map forallb].
    - rewrite zmax_nil. split; [intros; split; [lia|constructor]|]. intros [? _]. split; [lia|done].
    - rewrite zmax_cons, Forall_cons_iff, andb_true_iff. pose proof (zmax_nonneg (map height l)).
      pose proof (height_pos x).
      split; [intros (? & ? & ?)|intros (? & [? ?] & ?)]; destruct IH as [IH1 IH2].
      + destruct IH1; [split; [lia|done]|]. split_and!; try done; lia.
      + destruct IH2; [done|]. split_and!; try done; lia. }
  split.
  - intros [[[? ?] ?] ?]. destruct (proj1 H); [split; [lia|done]|]. split_and!; try done; lia.
  - intros (? & ? & ? & ?). destruct (proj2 H); [done|]. split_and!; try done; lia.
Qed.
Lemma room_nodes_mono d c l : room d c l → c ≤ MAX_TYPE_NODES.
Proof. intros [_ H]. pose proof (zsum_all_nonneg l). lia. Qed.
Lemma room_cons d c x l : room d c (x :: l) ↔ room d c [x] ∧ room d (c + nodes x) l.
Proof.
  unfold room. rewrite !Forall_cons_iff. cbn [map]. rewrite !zsum_cons, zsum_nil. pose proof (zsum_all_nonneg l).
  pose proof (nodes_pos x). split; intros; destruct_and?; split_and!; try done; try lia; constructor.
Qed.

Definition walked (d : Z) (l : list Ty) (w : Walk) : unit → Walk → Prop :=
  λ _ w', room d (w_count w) l ∧ w_count w' = w_count w + zsum (map nodes l) ∧ follows (w_cancel w) (w_cancel w').
Definition refused (d : Z) (l : list Ty) (w : Walk) : TypeTransformError → Prop :=
  λ e, e = TypeCancelled ∧ w_cancel w ≠ None ∨ e ≠ TypeCancelled ∧ ¬ room d (w_count w) l.

Lemma twp_each d (f : Ty → TM Walk unit) l w :
  (∀ t w, w_count w ≤ MAX_TYPE_NODES → twp (f t) (walked d [t] w) (refused d [t] w) w) →
  w_count w ≤ MAX_TYPE_NODES → twp (each f l) (walked d l w) (refused d l w) w.
Proof.
  intros Hf. revert w. induction l as [|x l IH]; intros w Hw.
  - apply twp_ret. split; [|split; [cbn [map]; rewrite zsum_nil; lia|by apply follows_refl]]. split; [constructor|].
    cbn [map]. rewrite zsum_nil. lia.
  - simpl. apply twp_bind. eapply twp_mono; [by apply Hf| |].
    + intros [] w1 (Hr & Hc & Hk). cbn [map] in Hc. rewrite zsum_cons, zsum_nil in Hc.
      pose proof (room_nodes_mono _ _ _ Hr). destruct Hr as [Hr1 Hr2]. cbn [map] in Hr2. rewrite zsum_cons, zsum_nil in Hr2.
      eapply twp_mono; [apply IH; lia| |].
      * intros [] w2 (Hr' & Hc' & Hk'). rewrite Hc in Hr', Hc'. split; [|split].
        -- apply room_cons. split; [split; [done|cbn [map]; rewrite zsum_cons, zsum_nil; lia]|].
           by replace (w_count w + nodes x) with (w_count w + (nodes x + 0)) by lia.
        -- cbn [map]. rewrite zsum_cons. lia.
        -- by eapply follows_trans.
      * intros e [[-> He]|[He Hn]]; [left; split; [done|]; intros H'; by apply He, Hk|right]. split; [done|].
        rewrite room_cons. intros [_ Hr']. apply Hn. rewrite Hc.
        by replace (w_count w + (nodes x + 0)) with (w_count w + nodes x) by lia.
    + intros e [?|[He Hn]]; [by left|right]. split; [done|]. rewrite room_cons. by intros [? _].
Qed.

Lemma sat_le a b m : a + b ≤ m → m ≤ MAX_TYPE_NODES → usize_saturating_add a b ≤ m.
Proof. unfold usize_saturating_add, MAX_TYPE_NODES. lia. Qed.
Lemma sat_gt a b m : m < usize_saturating_add a b → m < a + b.
Proof. unfold usize_saturating_add. lia. Qed.

(** [enter] admits a node and its children before any child is visited. *)
Lemma twp_enter_children c d w : w_count w ≤ MAX_TYPE_NODES →
  twp (Shape.enter_children c d)
    (λ _ w', w_count w' = w_count w + 1 ∧ w_cancel w' = w_cancel w ∧ d ≤ MAX_TYPE_DEPTH ∧ w_count w' ≤ MAX_TYPE_NODES)
    (λ e, e = TypeLimitExceeded ∧ (MAX_TYPE_DEPTH < d ∨ MAX_TYPE_NODES < w_count w + 1 + Z.max 0 c)) w.
Proof.
  intros Hw. unfold Shape.enter_children, twp, tbind, get_count, set_count, tfail, tret.
  destruct (_ || _) eqn:E.
  - split; [done|]. apply orb_true_iff in E as [E|E]; lia.
  - apply orb_false_iff in E as [E1 E2]. apply Z.leb_gt in E2. apply Z.ltb_ge in E1.
    destruct (MAX_TYPE_NODES - (w_count w + 1) <? c) eqn:E3; cbn [w_count w_cancel].
    + apply Z.ltb_lt in E3. split; [done|right; lia].
    + apply Z.ltb_ge in E3. split_and!; first [done | lia].
Qed.
Lemma twp_enter ty d w : w_count w ≤ MAX_TYPE_NODES →
  twp (Shape.enter ty d)
    (λ _ w', w_count w' = w_count w + 1 ∧ w_cancel w' = w_cancel w ∧ plain_here ty = true ∧ d ≤ MAX_TYPE_DEPTH
             ∧ w_count w' ≤ MAX_TYPE_NODES)
    (λ e, e ≠ TypeCancelled ∧ ¬ room d (w_count w) [ty]) w.
Proof.
  intros Hw. unfold Shape.enter. apply twp_bind. unfold twp at 1, get_count. cbv beta.
  pose proof (zsum_length (ty_children ty)) as Hlen. unfold zlen in Hlen.
  assert (∀ c, (plain_here ty = true → c ≤ Z.max 0 (Z.of_nat (length (ty_children ty)))) → plain_here ty = true →
    twp (Shape.enter_children c d) (λ _ w', w_count w' = w_count w + 1 ∧ w_cancel w' = w_cancel w ∧ plain_here ty = true
      ∧ d ≤ MAX_TYPE_DEPTH ∧ w_count w' ≤ MAX_TYPE_NODES) (λ e, e ≠ TypeCancelled ∧ ¬ room d (w_count w) [ty]) w) as Hc.
  { intros c Hle Hp. specialize (Hle Hp). eapply twp_mono; [by apply twp_enter_children|intros; cbv beta in *; by destruct_and?|].
    intros e [-> He]. split; [done|]. rewrite room_children. intros (_ & Hd & [_ Hn]). lia. }
  destruct (_ || _) eqn:E.
  - apply twp_fail. split; [done|]. rewrite room_children. intros (_ & Hd & [_ Hn]).
    apply orb_true_iff in E as [E|E]; lia.
  - clear E. destruct ty; apply twp_bind; cbn [ty_children length] in Hc; try (apply twp_ret, Hc; [simpl; lia|done]).
    all: try (apply twp_ret, Hc; [|done]; intros _; unfold zlen; lia).
    all: try (destruct (nominal_associated _) eqn:Ea;
      [apply twp_ret, Hc; [intros _; rewrite length_app; unfold zlen; lia|simpl; by rewrite Ea]
      |apply twp_fail; split; [done|]; rewrite room_children; simpl; rewrite Ea; by intros [? _]]).
    all: apply twp_ret, Hc; [|done]; intros _; unfold Shape.count_nominal, usize_saturating_add, zlen, associated_values;
      cbn [length]; rewrite ?length_app, ?length_map; cbn [length]; lia.
Qed.

(** A visit of a node is a visit of its children in order. *)
Lemma visit_children fuel ty d w :
  Shape.visit (S fuel) ty d w =
  (walk_live ;;% Shape.enter ty d ;;% each (λ t, Shape.visit fuel t (d + 1)) (ty_children ty)) w.
Proof.
  cbn [Shape.visit]. apply tbind_ext; [done|]. intros [] w1. apply tbind_ext; [done|]. intros [] w2.
  destruct ty; cbn [ty_children]; unfold Shape.nominal_children; rewrite ?each_one; try done.
  - cbn [each]. apply tbind_ext; [done|]. intros [] w3. rewrite each_app. apply tbind_ext; [|done]. by rewrite each_app.
  - rewrite each_app. apply tbind_ext; [done|]. intros [] w3. by rewrite each_one.
  - cbn [each]. apply tbind_ext; [done|]. intros [] w3. symmetry. apply (each_one (λ t, Shape.visit fuel t (d + 1))).
  - by rewrite each_app.
  - by rewrite each_app.
  - by rewrite each_app.
  - by rewrite each_app.
Qed.

(** The children of a node that was admitted. *)
Lemma twp_below d ty w w2 (f : Ty → TM Walk unit) :
  w_count w2 = w_count w + 1 → follows (w_cancel w) (w_cancel w2) → w_count w2 ≤ MAX_TYPE_NODES →
  plain_here ty = true → d ≤ MAX_TYPE_DEPTH →
  (∀ t w, w_count w ≤ MAX_TYPE_NODES → twp (f t) (walked (d + 1) [t] w) (refused (d + 1) [t] w) w) →
  twp (each f (ty_children ty)) (walked d [ty] w) (refused d [ty] w) w2.
Proof.
  intros Hc2 Hk2 Hn2 Hp Hd Hf. eapply twp_mono; [by apply (twp_each (d + 1))| |].
  - intros [] w3 (Hr & Hc3 & Hk3). rewrite Hc2 in Hr, Hc3. split; [|split].
    + by apply room_children.
    + rewrite Hc3. cbn [map]. rewrite zsum_cons, zsum_nil, nodes_children. lia.
    + by eapply follows_trans.
  - intros e [[-> He]|[He Hn]]; [left|right]; (split; [done|]).
    + intros H. by apply He, Hk2.
    + rewrite room_children. intros (_ & _ & H). apply Hn. by rewrite Hc2.
Qed.

(** A visit counts the nodes of the types that fit and refuses the others. *)
Lemma visit_spec fuel ty d w :
  MAX_TYPE_DEPTH + 2 - d ≤ Z.of_nat fuel → d ≤ MAX_TYPE_DEPTH + 1 → w_count w ≤ MAX_TYPE_NODES →
  twp (Shape.visit fuel ty d) (walked d [ty] w) (refused d [ty] w) w.
Proof.
  revert ty d w. induction fuel as [|fuel IH]; intros ty d w Hf Hd Hw; [lia|].
  unfold twp. rewrite visit_children. change (twp (walk_live ;;% Shape.enter ty d ;;%
    each (λ t, Shape.visit fuel t (d + 1)) (ty_children ty)) (walked d [ty] w) (refused d [ty] w) w).
  apply twp_bind, twp_walk_live; [|by left]. intros w1 Hc1 Hk1.
  apply twp_bind. eapply twp_mono; [apply twp_enter; lia| |].
  - intros [] w2 (Hc2 & Hk2 & Hp & Hd2 & Hn2). rewrite Hc1 in Hc2. rewrite <- Hk2 in Hk1.
    apply twp_below; [done..|]. intros t w' Hw'. apply IH; lia.
  - intros e [He Hn]. right. by rewrite Hc1 in Hn.
Qed.
Lemma room_one ty : room 1 0 [ty] ↔ fits ty.
Proof.
  unfold room, fits. rewrite Forall_singleton. cbn [map]. rewrite zsum_cons, zsum_nil.
  split; intros; destruct_and?; split_and!; try done; lia.
Qed.

Lemma walked_fits ty k u w' :
  walked 1 [ty] {| w_count := 0; w_cancel := k |} u w' → fits ty ∧ follows k (w_cancel w').
Proof. intros (H & _ & Hk). split; [by apply room_one|done]. Qed.
Lemma refused_fits ty k e : refused 1 [ty] {| w_count := 0; w_cancel := k |} e →
  e = TypeCancelled ∧ k ≠ None ∨ e ≠ TypeCancelled ∧ ¬ fits ty.
Proof. intros [H|[He H]]; [by left|right]. split; [done|]. by rewrite <- room_one. Qed.

(** [validate] is the decision of [fits]. *)
Lemma validate_spec ty k :
  twp (Shape.validate ty) (λ _ k', fits ty ∧ follows k k')
    (λ e, e = TypeCancelled ∧ k ≠ None ∨ e ≠ TypeCancelled ∧ ¬ fits ty) k.
Proof.
  apply twp_walking. eapply twp_mono; [by apply visit_spec|apply walked_fits|apply refused_fits].
Qed.
Lemma within_wire_limits_fits ty : within_wire_limits ty = bool_decide (fits ty).
Proof.
  pose proof (validate_spec ty None) as H. unfold within_wire_limits, twp in *.
  destruct (Shape.validate ty None) as [[[] k]|[e| |]]; simpl in *.
  - symmetry. apply bool_decide_eq_true. by destruct H.
  - symmetry. apply bool_decide_eq_false. naive_solver.
  - done.
  - done.
Qed.
(** [validate_nominal] decides whether the trait type of the nominal fits. *)
Lemma validate_nominal_spec n k :
  twp (Shape.validate_nominal n) (λ _ k', fits (TyTrait n) ∧ follows k k')
    (λ e, e = TypeCancelled ∧ k ≠ None ∨ e ≠ TypeCancelled ∧ ¬ fits (TyTrait n)) k.
Proof.
  set (w := {| w_count := 0; w_cancel := k |}).
  apply twp_walking. eapply twp_mono; [|apply walked_fits|apply refused_fits]. fold w.
  apply twp_bind, twp_walk_live; [|by left]. intros w1 Hc1 Hk1. apply twp_bind.
  eapply twp_mono; [apply twp_enter_children; rewrite Hc1; done| |].
  - intros [] w2 (Hc2 & Hk2 & _ & Hn2). rewrite Hc1 in Hc2. rewrite <- Hk2 in Hk1.
    unfold twp, Shape.nominal_children. rewrite <- (each_app (λ ty, Shape.visit Shape.FUEL ty 2)).
    apply (twp_below 1 (TyTrait n)); [done..|]. intros t w' Hw'. by apply visit_spec.
  - intros e [-> He]. right. split; [done|]. rewrite room_children. intros (_ & _ & [_ H]).
    pose proof (zsum_length (ty_children (TyTrait n))) as Hlen. rewrite Hc1 in He.
    assert (Shape.count_nominal n ≤ zlen (ty_children (TyTrait n))).
    { unfold Shape.count_nominal, usize_saturating_add, zlen. cbn [ty_children]. unfold associated_values.
      rewrite length_app, length_map. lia. }
    pose proof (zsum_all_nonneg (ty_children (TyTrait n))). unfold MAX_TYPE_DEPTH in *. lia.
Qed.
