(* ===== verification/TySubst.v ===== *)
(** * Semantic types: substitution

    Models [kagari-types/src/ty/substitution.rs]: the bounded substitution of one binder
    layer and the resolution of associated outputs share one transform over a type.  The
    transform is shown to settle whatever its projections are resolved to, and, where it
    resolves none, to compute the substitution exactly when the result fits the limits. *)
From stdpp Require Import countable gmap.
From S2P Require Import Prelude Text Scalar Mir TyShape.
Open Scope Z_scope.
Open Scope ty_walk_scope.

#[export] Instance DefinitionId_countable : Countable DefinitionId.
Proof.
  apply (inj_countable' (λ d, (def_table d, def_index d)) (λ '(t, i), {| def_table := t; def_index := i |})).
  by intros [].
Defined.

Module Subst.
(** ** Substitutions *)
Record TypeSubstitution : Set := {
  ts_parameters : gmap DefinitionId (gmap nat Ty);
  ts_receivers : gmap DefinitionId Ty
}.
Definition ts_default : TypeSubstitution := {| ts_parameters := ∅; ts_receivers := ∅ |}.
Definition bind (owner : DefinitionId) (position : nat) (value : Ty) (s : TypeSubstitution) : TypeSubstitution :=
  {| ts_parameters := <[owner := <[position := value]> (ts_parameters s !!! owner)]> (ts_parameters s);
     ts_receivers := ts_receivers s |}.
Definition bind_receiver (owner : DefinitionId) (value : Ty) (s : TypeSubstitution) : TypeSubstitution :=
  {| ts_parameters := ts_parameters s; ts_receivers := <[owner := value]> (ts_receivers s) |}.
Fixpoint bind_from (owner : DefinitionId) (position : nat) (arguments : list Ty) (s : TypeSubstitution) :
    TypeSubstitution :=
  match arguments with
  | [] => s
  | argument :: arguments => bind_from owner (S position) arguments (bind owner position argument s)
  end.
Definition for_owner (owner : DefinitionId) (arguments : list Ty) : TypeSubstitution :=
  bind_from owner 0 arguments ts_default.
Definition parameter (s : TypeSubstitution) (owner : DefinitionId) (position : nat) : option Ty :=
  ts_parameters s !! owner ≫= λ positions, positions !! position.
Definition replacement (s : TypeSubstitution) (ty : Ty) : option Ty :=
  match ty with
  | TyParameter owner position => parameter s owner position
  | TySelfType owner => ts_receivers s !! owner
  | _ => None
  end.

(** ** The transform *)
Definition ProjectionLookup : Type := NominalTy → Ty → DefinitionId → list Ty → TM CancellationToken (option Ty).
Definition ParameterLookup : Type := DefinitionId → nat → option Ty.
Record Transform : Type := {
  t_substitution : TypeSubstitution;
  t_outputs : option (NominalTy * Ty);
  t_lookup : option ProjectionLookup;
  t_parameter_lookup : option ParameterLookup
}.
Definition REMAINING : Z := MAX_TYPE_NODES * 4.
Definition transform_new (s : TypeSubstitution) (outputs : option (NominalTy * Ty)) : Transform :=
  {| t_substitution := s; t_outputs := outputs; t_lookup := None; t_parameter_lookup := None |}.

(** The count of the walk is [remaining]. *)
Definition step (depth : Z) : TM Walk unit :=
  walk_live ;;%
  let% remaining := get_count in
  if (MAX_TYPE_DEPTH <? depth) || (remaining =? 0) then tfail TypeLimitExceeded
  else set_count (remaining - 1).
(** A callback sees the token and not the count. *)
Definition calling {A} (m : TM CancellationToken A) : TM Walk A :=
  λ w, match m (w_cancel w) with
       | Ok (a, k) => Ok (a, {| w_count := w_count w; w_cancel := k |})
       | Err e => Err e
       end.

Definition many_with (visit : Ty → TM Walk Ty) (types : list Ty) : TM Walk (list Ty) :=
  if MAX_TYPE_NODES <? zlen types then tfail TypeLimitExceeded else collect visit types.
Definition nominal_with (visit : Ty → TM Walk Ty) (ty : NominalTy) (depth : Z) : TM Walk NominalTy :=
  step depth ;;%
  if MAX_TYPE_NODES <? zlen (nominal_associated ty) then tfail TypeLimitExceeded
  else
    let% arguments := many_with visit (nominal_arguments ty) in
    let% associated_types :=
      collect (λ '(id, ty), let% ty := visit ty in tret (id, ty)) (nominal_associated ty) in
    tret (Nominal (nominal_declaration ty) arguments associated_types).

Definition replacement_of (t : Transform) (ty : Ty) : option Ty :=
  match ty, t_parameter_lookup t with
  | TyParameter owner position, Some lookup => lookup owner position
  | _, _ => replacement (t_substitution t) ty
  end.
(** [interface.associated_types.get(member).or_else(..)]. *)
Definition embedded_output (interface : NominalTy) (receiver : Ty) (member : DefinitionId) : option Ty :=
  match associated_get interface member with
  | Some output => Some output
  | None => match receiver with TyTrait actual => associated_get actual member | _ => None end
  end.
Definition is_some {A} (o : option A) : bool := match o with Some _ => true | None => false end.
Definition is_nil {A} (l : list A) : bool := match l with [] => true | _ => false end.

Fixpoint visit (t : Transform) (fuel : nat) (ty : Ty) (depth : Z) (replace : bool) : TM Walk Ty :=
  match fuel with
  | O => tfuel
  | S fuel =>
      let child := λ ty, visit t fuel ty (depth + 1) replace in
      let many := many_with child in
      let nominal := λ ty, nominal_with child ty depth in
      step depth ;;%
      match (if replace then replacement_of t ty else None) with
      | Some replacement => visit t fuel replacement depth false
      | None =>
          match ty with
          | TyReference target access => let% target := child target in tret (TyReference target access)
          | TyBuiltin kind => tret (TyBuiltin kind)
          | TyHost id => tret (TyHost id)
          | TySelfType id => tret (TySelfType id)
          | TyParameter owner position => tret (TyParameter owner position)
          | TyTuple types => let% types := many types in tret (TyTuple types)
          | TyFunction params result =>
              let% params := many params in
              let% result := child result in
              tret (TyFunction params result)
          | TyIter ty => let% ty := child ty in tret (TyIter ty)
          | TyRange ty kind => let% ty := child ty in tret (TyRange ty kind)
          | TyArray ty => let% ty := child ty in tret (TyArray ty)
          | TySet ty access => let% ty := child ty in tret (TySet ty access)
          | TyMap key value access =>
              let% key := child key in
              let% value := child value in
              tret (TyMap key value access)
          | TyStruct ty => let% ty := nominal ty in tret (TyStruct ty)
          | TyNativeObject ty => let% ty := nominal ty in tret (TyNativeObject ty)
          | TyEnum ty => let% ty := nominal ty in tret (TyEnum ty)
          | TyTrait ty => let% ty := nominal ty in tret (TyTrait ty)
          | TyProjection arguments receiver interface member =>
              let% receiver := child receiver in
              let% interface := nominal interface in
              let% arguments := many arguments in
              (* the lookup, after which the projection stays as it is *)
              let looked_up := λ interface,
                let% output :=
                  match t_lookup t with
                  | Some lookup => calling (lookup interface receiver member arguments)
                  | None => tret None
                  end in
                match output with
                | Some output => child output
                | None => tret (TyProjection arguments receiver interface member)
                end in
              if is_some (t_outputs t) || is_some (t_lookup t) then
                if is_nil arguments then
                  match embedded_output interface receiver member with
                  | Some output => child output
                  | None =>
                      match t_outputs t with
                      | Some (outputs, owner) =>
                          if bool_decide (nominal_declaration interface = nominal_declaration outputs)
                             && bool_decide (receiver = owner) then
                            match associated_get outputs member with
                            | Some output => child output
                            | None => let% interface := nominal outputs in looked_up interface
                            end
                          else looked_up interface
                      | None => looked_up interface
                      end
                  end
                else looked_up interface
              else tret (TyProjection arguments receiver interface member)
          end
      end
  end.

(** The depth limit, one level of refusal and the change to [replace = false]. *)
Definition FUEL : nat := Z.to_nat (MAX_TYPE_DEPTH + 2).
Definition run (t : Transform) (ty : Ty) : TM CancellationToken Ty :=
  let% result := walking REMAINING (visit t FUEL ty 1 true) in
  if within_wire_limits result then tret result else tfail TypeLimitExceeded.

Definition apply (s : TypeSubstitution) (ty : Ty) : TM CancellationToken Ty := run (transform_new s None) ty.
Definition apply_nominal (s : TypeSubstitution) (ty : NominalTy) : TM CancellationToken NominalTy :=
  let% value := walking REMAINING (nominal_with (λ ty, visit (transform_new s None) FUEL ty 2 true) ty 1) in
  if within_wire_limits (TyTrait value) then tret value else tfail TypeLimitExceeded.
Definition resolve_associated_outputs (ty : Ty) (interface : NominalTy) (receiver : Ty) : TM CancellationToken Ty :=
  run (transform_new ts_default (Some (interface, receiver))) ty.
Definition normalize_projections (ty : Ty) (lookup : ProjectionLookup) : TM CancellationToken Ty :=
  run {| t_substitution := ts_default; t_outputs := None; t_lookup := Some lookup; t_parameter_lookup := None |} ty.
Definition substitute_parameters (ty : Ty) (lookup : ParameterLookup) : TM CancellationToken Ty :=
  run {| t_substitution := ts_default; t_outputs := None; t_lookup := None; t_parameter_lookup := Some lookup |} ty.

(** ** Concrete types *)
(** The loops of [Ty::contains_projection] and [Ty::is_concrete]; the head of the list is the end of the vector. *)
Definition extended (types : list Ty) (pending : list Ty) : list Ty := rev types ++ pending.
Fixpoint contains_projection_loop (fuel : nat) (pending : list Ty) : option bool :=
  match fuel, pending with
  | O, _ => None
  | S _, [] => Some false
  | S fuel, ty :: pending =>
      match ty with
      | TyProjection _ _ _ _ => Some true
      | TyStruct ty | TyNativeObject ty | TyEnum ty | TyTrait ty =>
          contains_projection_loop fuel (extended (associated_values ty) (extended (nominal_arguments ty) pending))
      | TyReference target _ => contains_projection_loop fuel (target :: pending)
      | TyTuple items => contains_projection_loop fuel (extended items pending)
      | TyArray item | TySet item _ | TyIter item | TyRange item _ => contains_projection_loop fuel (item :: pending)
      | TyMap key value _ => contains_projection_loop fuel (extended [key; value] pending)
      | TyFunction params result => contains_projection_loop fuel (result :: extended params pending)
      | TyHost _ | TyBuiltin _ | TySelfType _ | TyParameter _ _ => contains_projection_loop fuel pending
      end
  end.
Fixpoint is_concrete_loop (fuel : nat) (pending : list Ty) : option bool :=
  match fuel, pending with
  | O, _ => None
  | S _, [] => Some true
  | S fuel, ty :: pending =>
      match ty with
      | TyProjection _ _ _ _ | TyParameter _ _ | TySelfType _ => Some false
      | TyReference target _ => is_concrete_loop fuel (target :: pending)
      | TyTuple types => is_concrete_loop fuel (extended types pending)
      | TyFunction params result => is_concrete_loop fuel (result :: extended params pending)
      | TyArray ty | TySet ty _ | TyIter ty | TyRange ty _ => is_concrete_loop fuel (ty :: pending)
      | TyMap key value _ => is_concrete_loop fuel (extended [key; value] pending)
      | TyStruct ty | TyNativeObject ty | TyEnum ty | TyTrait ty =>
          is_concrete_loop fuel (extended (associated_values ty) (extended (nominal_arguments ty) pending))
      | TyHost _ | TyBuiltin _ => is_concrete_loop fuel pending
      end
  end.
(** Every round pops a node of the type, and one more sees the stack empty. *)
Definition pending_fuel (ty : Ty) : nat := S (Z.to_nat (nodes ty)).
Definition contains_projection (ty : Ty) : option bool := contains_projection_loop (pending_fuel ty) [ty].
Definition is_concrete (ty : Ty) : option bool := is_concrete_loop (pending_fuel ty) [ty].
(** [Ty::instantiate]; the outer [option] is the fuel. *)
Definition instantiate (self : Ty) (owner : DefinitionId) (arguments : list Ty) : option (option Ty) :=
  match apply (for_owner owner arguments) self None with
  | Ok (result, _) => (λ concrete : bool, if concrete then Some result else None) <$> is_concrete result
  | Err _ => Some None
  end.

(** [GenericParam::as_type]. *)
Record GenericParam : Set := { gp_owner : DefinitionId; gp_position : nat }.
Definition as_type (p : GenericParam) : Ty := TyParameter (gp_owner p) (gp_position p).
End Subst.
