(* ===== verification/TySubstProps.v ===== *)
(** * Semantic types: what a substitution computes

    The reference substitution is a structural function; the transform of [TySubst] spends
    at most three steps for each node of its result, so the steps it has never run out
    on a result that fits the limits. *)
From stdpp Require Import countable gmap.
From S2P Require Import Prelude Text Scalar Mir TyShape TySubst.
Open Scope Z_scope.
Open Scope ty_walk_scope.

(** ** The reference *)
Section reference.
  Context (f : Ty → option Ty).

Fixpoint subst (ty : Ty) : Ty :=
  match f ty with
  | Some r => r
  | None =>
      match ty with
      | TyReference t access => TyReference (subst t) access
      | TyBuiltin kind => TyBuiltin kind
      | TyHost id => TyHost id
      | TySelfType id => TySelfType id
      | TyParameter owner position => TyParameter owner position
      | TyTuple items => TyTuple (map subst items)
      | TyFunction params result => TyFunction (map subst params) (subst result)
      | TyIter t => TyIter (subst t)
      | TyRange t kind => TyRange (subst t) kind
      | TyArray t => TyArray (subst t)
      | TySet t access => TySet (subst t) access
      | TyMap key value access => TyMap (subst key) (subst value) access
      | TyStruct n => TyStruct (subst_nominal n)
      | TyNativeObject n => TyNativeObject (subst_nominal n)
      | TyEnum n => TyEnum (subst_nominal n)
      | TyTrait n => TyTrait (subst_nominal n)
      | TyProjection arguments receiver interface member =>
          TyProjection (map subst arguments) (subst receiver) (subst_nominal interface) member
      end
  end
with subst_nominal (n : NominalTy) : NominalTy :=
  match n with
  | Nominal d arguments associated => Nominal d (map subst arguments) (map (λ '(id, t), (id, subst t)) associated)
  end.
End reference.

(** ** What a walk spends *)
Definition total (l : list Ty) : Z := zsum (map nodes l).
Definition spare (d c z : Z) (rs : list Ty) : Prop :=
  Forall (λ t, d + height t ≤ MAX_TYPE_DEPTH + 1) rs ∧ z ≤ c ∧ total rs ≤ MAX_TYPE_NODES.
Definition spent (w : Walk) (z : Z) (w' : Walk) : Prop :=
  w_count w - z ≤ w_count w' ∧ follows (w_cancel w) (w_cancel w').
Definition denied (d : Z) (w : Walk) (z : Z) (rs : list Ty) (e : TypeTransformError) : Prop :=
  e = TypeCancelled ∧ w_cancel w ≠ None ∨ e = TypeLimitExceeded ∧ ¬ spare d (w_count w) z rs.
(** [m] computes [a] in [z] steps, unless the types [rs] at depth [d] or the steps do not fit. *)
Definition yields {A} (d : Z) (w : Walk) (m : TM Walk A) (a : A) (z : Z) (rs : list Ty) : Prop :=
  twp m (λ r w', r = a ∧ spent w z w') (denied d w z rs) w.

Lemma total_app a b : total (a ++ b) = total a + total b.
Proof. unfold total. by rewrite map_app, zsum_app. Qed.
Lemma total_cons a b : total (a :: b) = nodes a + total b.
Proof. done. Qed.
Lemma total_nonneg l : 0 ≤ total l.
Proof. apply zsum_all_nonneg. Qed.
Lemma total_length l : zlen l ≤ total l.
Proof. apply zsum_length. Qed.

Lemma total_perm l r : l ≡ₚ r → total l = total r.
Proof.
  unfold total. induction 1 as [|x l r _ IH|x y l|a b c _ IH1 _ IH2]; cbn [map]; rewrite ?zsum_cons; lia.
Qed.

Lemma yields_ret {A} d w (a : A) : yields d w (tret a) a 0 [].
Proof. apply twp_ret. split; [done|]. split; [lia|apply follows_refl]. Qed.
Lemma yields_bind {A B} d w (m : TM Walk A) (k : A → TM Walk B) a b z1 z2 rs1 rs2 : 0 ≤ z1 → 0 ≤ z2 →
  yields d w m a z1 rs1 → (∀ w1, yields d w1 (k a) b z2 rs2) → yields d w (tbind m k) b (z1 + z2) (rs1 ++ rs2).
Proof.
  intros Hz1 Hz2 Hm Hk. apply twp_bind. pose proof (total_nonneg rs1). pose proof (total_nonneg rs2).
  eapply twp_mono; [exact Hm| |].
  - intros a' w1 [-> [Hc1 Hf1]]. eapply twp_mono; [apply Hk| |].
    + intros b' w2 [-> [Hc2 Hf2]]. split; [done|]. split; [lia|by eapply follows_trans].
    + intros e [[-> He]|[-> He]]; [left|right]; (split; [done|]).
      * intros H'. by apply He, Hf1.
      * intros (Hs & Hz & Ht). apply He. rewrite Forall_app, total_app in *. split; [apply Hs|lia].
  - intros e [He|[-> He]]; [by left|right]. split; [done|]. intros (Hs & Hz & Ht). apply He.
    rewrite Forall_app, total_app in *. split; [apply Hs|lia].
Qed.
Lemma yields_mono {A} d w (m : TM Walk A) a z z' rs : z ≤ z' → yields d w m a z rs → yields d w m a z' rs.
Proof.
  intros Hz H. eapply twp_mono; [exact H| |].
  - intros a' w' [-> [Hc Hf]]. split; [done|]. split; [lia|done].
  - intros e [He|[-> He]]; [by left|right]. split; [done|]. intros (? & ? & ?). apply He. split_and!; [done|lia|done].
Qed.
(** The end of a computation that only builds its result. *)
Lemma yields_map {A B} d w (m : TM Walk A) (g : A → B) a z rs :
  0 ≤ z → yields d w m a z rs → yields d w (let% x := m in tret (g x)) (g a) z rs.
Proof.
  intros Hz H. replace z with (z + 0) by lia. rewrite <- (app_nil_r rs).
  eapply yields_bind; [done|lia|exact H|]. intros w1. apply yields_ret.
Qed.

Lemma twp_step d w :
  twp (Subst.step d) (λ _ w', w_count w' = w_count w - 1 ∧ follows (w_cancel w) (w_cancel w') ∧ d ≤ MAX_TYPE_DEPTH)
    (λ e, e = TypeCancelled ∧ w_cancel w ≠ None ∨ e = TypeLimitExceeded ∧ (MAX_TYPE_DEPTH < d ∨ w_count w = 0)) w.
Proof.
  unfold Subst.step. apply twp_bind, twp_walk_live; [|by left]. intros w1 Hc Hk.
  apply twp_bind. unfold twp, get_count, set_count, tfail. destruct (_ || _) eqn:E.
  - right. split; [done|]. apply orb_true_iff in E as [E|E]; lia.
  - apply orb_false_iff in E as [E1 E2]. cbn [w_count w_cancel]. split_and!; [lia|done|lia].
Qed.
Lemma yields_step d w : d ≤ MAX_TYPE_DEPTH → yields (d + 1) w (Subst.step d) tt 1 [].
Proof.
  intros Hd. eapply twp_mono; [apply twp_step| |].
  - intros [] w' (Hc & Hf & _). split; [done|]. split; [lia|done].
  - intros e [He|[-> He]]; [by left|right]. split; [done|]. intros (_ & Hz & _). lia.
Qed.
Lemma height_below d t : d + height t ≤ MAX_TYPE_DEPTH + 1 →
  Forall (λ t, d + 1 + height t ≤ MAX_TYPE_DEPTH + 1) (ty_children t).
Proof.
  rewrite height_children. generalize (ty_children t). intros l.
  induction l as [|x l IH]; intros H; constructor; cbn [map] in H; rewrite zmax_cons in H; [lia|apply IH; lia].
Qed.
(** A step into a node of the result at depth [d]. *)
Lemma yields_enter d d' w (m : TM Walk Ty) r z rs : 0 ≤ z →
  (∀ c, spare d c (1 + z) [r] → spare d' (c - 1) z rs) →
  (∀ w1, d ≤ MAX_TYPE_DEPTH → yields d' w1 m r z rs) → yields d w (Subst.step d ;;% m) r (1 + z) [r].
Proof.
  intros Hz Hs Hm. apply twp_bind. eapply twp_mono; [apply twp_step| |].
  - intros [] w1 (Hc & Hf & Hd). eapply twp_mono; [by apply Hm| |].
    + intros r' w2 [-> [Hc2 Hf2]]. split; [done|]. split; [lia|by eapply follows_trans].
    + intros e [[-> He]|[-> He]]; [left|right]; (split; [done|]).
      * intros H'. by apply He, Hf.
      * intros H. apply He. rewrite Hc. by apply Hs.
  - intros e [He|[-> He]]; [by left|right]. split; [done|]. intros (Hh & Hc & _). rewrite Forall_singleton in Hh.
    pose proof (height_pos r). lia.
Qed.
Lemma spare_children d c z r : spare d c (1 + z) [r] → spare (d + 1) (c - 1) z (ty_children r).
Proof.
  intros (Hh & Hs & Ht). rewrite Forall_singleton in Hh. split_and!; [by apply height_below|lia|].
  rewrite total_cons, nodes_children in Ht. unfold total in *. cbn [map] in Ht. rewrite zsum_nil in Ht. lia.
Qed.

(** ** Walks over lists *)
Definition weigh (k : Z) (l : list Ty) : Z := k * total l.
Lemma weigh_app k a b : weigh k (a ++ b) = weigh k a + weigh k b.
Proof. unfold weigh. rewrite total_app. lia. Qed.
Lemma weigh_cons k x l : weigh k (x :: l) = weigh k [x] + weigh k l.
Proof. apply (weigh_app k [x]). Qed.
Lemma weigh_nonneg k l : 0 ≤ k → 0 ≤ weigh k l.
Proof. intros. apply Z.mul_nonneg_nonneg; [done|]. apply total_nonneg. Qed.
Lemma weigh_nil k : weigh k [] = 0.
Proof. unfold weigh, total. cbn [map]. rewrite zsum_nil. lia. Qed.

Lemma yields_seq {A B} d w (m : TM Walk A) (k : A → TM Walk B) a b n rs1 rs2 : 0 ≤ n →
  yields d w m a (weigh n rs1) rs1 → (∀ w1, yields d w1 (k a) b (weigh n rs2) rs2) →
  yields d w (tbind m k) b (weigh n (rs1 ++ rs2)) (rs1 ++ rs2).
Proof. intros Hn ? ?. rewrite weigh_app. by eapply yields_bind; [apply weigh_nonneg..| |]. Qed.
Lemma yields_last {A B} d w (m : TM Walk A) (g : A → B) a k rs :
  0 ≤ k → yields d w m a (weigh k rs) rs → yields d w (let% x := m in tret (g x)) (g a) (weigh k rs) rs.
Proof. intros Hk H. by apply yields_map; [apply weigh_nonneg|]. Qed.
Lemma yields_leaf {A} d w k (a : A) : yields d w (tret a) a (weigh k []) [].
Proof. rewrite weigh_nil. apply yields_ret. Qed.

Lemma yields_collect {A B} d w (f : A → TM Walk B) (g : A → B) (h : A → Ty) l k : 0 ≤ k →
  (∀ x w, yields d w (f x) (g x) (weigh k [h x]) [h x]) →
  yields d w (collect f l) (map g l) (weigh k (map h l)) (map h l).
Proof.
  intros Hk Hf. revert w. induction l as [|x l IH]; intros w; [apply yields_leaf|].
  cbn [collect map]. apply (yields_seq d w _ _ (g x) _ k [h x] (map h l)); [done|apply Hf|].
  intros w1. by apply (yields_last _ _ _ (cons (g x))).
Qed.
Lemma yields_many d w (f : Ty → TM Walk Ty) (g : Ty → Ty) l k : 0 ≤ k →
  (∀ x w, yields d w (f x) (g x) (weigh k [g x]) [g x]) →
  yields d w (Subst.many_with f l) (map g l) (weigh k (map g l)) (map g l).
Proof.
  intros Hk Hf. unfold Subst.many_with. destruct (_ <? _) eqn:E; [|by apply yields_collect].
  apply twp_fail. right. split; [done|]. intros (_ & _ & Ht). pose proof (total_length (map g l)).
  unfold zlen in *. rewrite length_map in *. lia.
Qed.

Definition nominal_map (g : Ty → Ty) (n : NominalTy) : NominalTy :=
  Nominal (nominal_declaration n) (map g (nominal_arguments n)) (map (λ '(id, t), (id, g t)) (nominal_associated n)).
Definition nominal_kids (n : NominalTy) : list Ty := nominal_arguments n ++ associated_values n.
Lemma nominal_map_kids g n : nominal_kids (nominal_map g n) = map g (nominal_kids n).
Proof.
  unfold nominal_kids, associated_values, nominal_map. simpl. rewrite map_app, !map_map. f_equal.
  apply map_ext. by intros [].
Qed.
Lemma subst_nominal_map f n : subst_nominal f n = nominal_map (subst f) n.
Proof. by destruct n. Qed.

Lemma yields_nominal d w (f : Ty → TM Walk Ty) (g : Ty → Ty) n k : 0 ≤ k → d ≤ MAX_TYPE_DEPTH →
  (∀ x w, yields (d + 1) w (f x) (g x) (weigh k [g x]) [g x]) →
  yields (d + 1) w (Subst.nominal_with f n d) (nominal_map g n) (1 + weigh k (nominal_kids (nominal_map g n)))
    (nominal_kids (nominal_map g n)).
Proof.
  intros Hk Hd Hf. unfold Subst.nominal_with. rewrite nominal_map_kids. unfold nominal_kids, associated_values.
  apply (yields_bind (d + 1) w _ _ tt _ 1 _ [] (map g (nominal_arguments n ++ map snd (nominal_associated n)))); [done|by apply weigh_nonneg|by apply yields_step|]. intros w1.
  destruct (_ <? _) eqn:E.
  { apply twp_fail. right. split; [done|]. intros (_ & _ & Ht). rewrite map_app, map_map, total_app in Ht.
    pose proof (total_nonneg (map g (nominal_arguments n))).
    pose proof (total_length (map (λ x, g x.2) (nominal_associated n))). unfold zlen in *. rewrite length_map in *. lia. }
  rewrite map_app. apply (yields_seq _ _ _ _ (map g (nominal_arguments n))); [done|by apply yields_many|]. intros w2.
  apply (yields_last _ _ _ (Nominal (nominal_declaration n) (map g (nominal_arguments n)))); [done|].
  rewrite map_map. apply yields_collect; [done|]. intros [id t] w3. by apply (yields_last _ _ _ (pair id)).
Qed.

(** ** The transform without projections to resolve *)
Lemma subst_none ty : subst (λ _, None) ty = ty.
Proof.
  assert (∀ l, Forall (λ t, subst (λ _, None) t = t) l → map (subst (λ _, None)) l = l) as Hl.
  { intros l. induction 1 as [|x l Hx _ IH]; [done|]. simpl. by rewrite Hx, IH. }
  assert (∀ n, Forall (λ t, subst (λ _, None) t = t) (nominal_kids n) → subst_nominal (λ _, None) n = n) as Hn.
  { intros [d args assoc] [H1 H2]%Forall_app. simpl in *. rewrite Hl by done. f_equal.
    induction assoc as [|[id t] assoc IH]; [done|]. apply Forall_cons_iff in H2 as [Ht H2]. simpl in *.
    rewrite Ht. f_equal. by apply IH. }
  induction ty as [ty IH] using ty_children_ind.
  destruct ty; cbn [ty_children] in IH; rewrite ?Forall_cons_iff, ?Forall_app in IH; cbn [subst];
    fold (nominal_kids) in IH; destruct_and?; f_equal; auto.
  all: try (apply Hn; unfold nominal_kids; rewrite Forall_app; done).
  all: rewrite Forall_cons_iff in *; by destruct_and?.
Qed.
Lemma subst_some f ty v : f ty = Some v → subst f ty = v.
Proof. by destruct ty; cbn [subst]; intros ->. Qed.
(** The function a visit applies: [replace] is off below a replacement. *)
Definition layer (t : Subst.Transform) (replace : bool) : Ty → option Ty :=
  if replace then Subst.replacement_of t else λ _, None.
Definition cost (replace : bool) : Z := if replace then 3 else 2.
Definition resolves_none (t : Subst.Transform) : Prop := Subst.t_outputs t = None ∧ Subst.t_lookup t = None.

Lemma yields_kind d w (m : TM Walk Ty) r k : 2 ≤ k →
  (∀ w1, d ≤ MAX_TYPE_DEPTH → yields (d + 1) w1 m r (1 + weigh k (ty_children r)) (ty_children r)) →
  yields d w (Subst.step d ;;% m) r (weigh k [r]) [r].
Proof.
  intros Hk Hm. assert (0 ≤ weigh k (ty_children r)) as H by (apply weigh_nonneg; lia).
  apply (yields_mono d w (Subst.step d ;;% m) r (1 + (1 + weigh k (ty_children r)))).
  - unfold weigh, total in *. cbn [map]. rewrite zsum_cons, zsum_nil, nodes_children. lia.
  - apply (yields_enter _ (d + 1) _ _ _ _ (ty_children r)); [lia| |done]. intros c. apply spare_children.
Qed.
Lemma yields_spare {A} d w (m : TM Walk A) a z rs : yields d w m a z rs → yields d w m a (1 + z) rs.
Proof. apply yields_mono. lia. Qed.

Lemma visit_yields t fuel : resolves_none t → ∀ ty d (replace : bool) w,
  MAX_TYPE_DEPTH + 2 - d + (if replace then 1 else 0) ≤ Z.of_nat fuel → d ≤ MAX_TYPE_DEPTH + 1 →
  let r := subst (layer t replace) ty in
  yields d w (Subst.visit t fuel ty d replace) r (weigh (cost replace) [r]) [r].
Proof.
  intros [Ho Hl]. induction fuel as [|fuel IH]; intros ty d replace w Hf Hd r; [destruct replace; lia|].
  assert (0 ≤ cost replace ∧ 2 ≤ cost replace) as [Hk0 Hk] by (destruct replace; done).
  destruct (layer t replace ty) as [v|] eqn:Ev.
  { destruct replace; [|done]. assert (r = v) as -> by (by apply subst_some).
    cbn [Subst.visit]. unfold layer in Ev. rewrite Ev.
    apply (yields_mono _ _ _ _ (1 + weigh 2 [v])).
    { unfold weigh, total. cbn [map cost]. rewrite zsum_cons, zsum_nil. pose proof (nodes_pos v). lia. }
    apply (yields_enter d d _ _ _ _ [v]); [by apply weigh_nonneg| |].
    - intros c (? & ? & ?). split_and!; [done|lia|done].
    - intros w1 Hd1. pose proof (IH v d false w1) as H. simpl in H. rewrite subst_none in H. apply H; lia. }
  cbn [Subst.visit]. replace (if replace then Subst.replacement_of t ty else None) with (None (A:=Ty))
    by (destruct replace; done). rewrite Ho, Hl. cbn [Subst.is_some orb].
  apply yields_kind; [done|]. intros w1 Hd1.
  assert (∀ x w, let g := subst (layer t replace) in
    yields (d + 1) w (Subst.visit t fuel x (d + 1) replace) (g x) (weigh (cost replace) [g x]) [g x]) as Hc.
  { intros x w2. apply IH; lia. }
  unfold r. clear r. set (g := subst (layer t replace)) in *.
  destruct ty; cbn [subst]; unfold g at 1 2 3; cbn [subst]; rewrite Ev; fold g; rewrite ?subst_nominal_map; fold g; cbn [ty_children].
  all: try (apply yields_spare, yields_leaf).
  all: try (apply (yields_map _ _ _ (λ n, _ n) (nominal_map g _));
    [pose proof (weigh_nonneg (cost replace) (nominal_kids (nominal_map g ty)) Hk0); unfold nominal_kids in *; lia
    |by apply yields_nominal]).
  all: try (match goal with |- context [TyProjection] => fail 1 | _ => apply yields_spare end).
  - apply (yields_mono _ _ _ _ (weigh (cost replace) [g ty] + ((1 + weigh (cost replace) (nominal_kids (nominal_map g interface)))
      + weigh (cost replace) (map g arguments)))).
    { rewrite (weigh_cons _ (g ty) (_ ++ _)), weigh_app. unfold nominal_kids. lia. }
    pose proof (weigh_nonneg (cost replace) (nominal_kids (nominal_map g interface)) Hk0).
    pose proof (weigh_nonneg (cost replace) (map g arguments) Hk0).
    apply (yields_bind _ _ _ _ (g ty) _ _ _ [g ty] (nominal_kids (nominal_map g interface) ++ map g arguments));
      [by apply weigh_nonneg|lia|apply Hc|]. intros w2.
    apply (yields_bind _ _ _ _ (nominal_map g interface)); [lia|lia|by apply yields_nominal|]. intros w3.
    apply (yields_last _ _ _ (λ l, TyProjection l (g ty) (nominal_map g interface) member) (map g arguments)); [done|].
    by apply yields_many.
  - apply (yields_last _ _ _ TyTuple (map g items)); [done|]. by apply yields_many.
  - apply (yields_seq _ _ _ _ (map g params)); [done|by apply yields_many|]. intros w2.
    by apply (yields_last _ _ _ (TyFunction (map g params))); [|apply Hc].
  - by apply (yields_last _ _ _ TyIter); [|apply Hc].
  - by apply (yields_last _ _ _ (λ x, TyRange x kind)); [|apply Hc].
  - by apply (yields_last _ _ _ TyArray); [|apply Hc].
  - apply (yields_seq _ _ _ _ (g ty1) _ _ [g ty1] [g ty2]); [done|apply Hc|]. intros w2.
    by apply (yields_last _ _ _ (λ x, TyMap (g ty1) x access)); [|apply Hc].
  - by apply (yields_last _ _ _ (λ x, TySet x access)); [|apply Hc].
  - by apply (yields_last _ _ _ (λ x, TyReference x access)); [|apply Hc].
Qed.

(** Two tables that differ at most in binding a parameter to itself are the same substitution. *)
Definition same_binding (f g : Ty → option Ty) (t : Ty) : Prop :=
  f t = g t ∨ (∃ owner position, t = TyParameter owner position) ∧ default t (f t) = default t (g t).
Lemma subst_default f owner position :
  subst f (TyParameter owner position) = default (TyParameter owner position) (f (TyParameter owner position)).
Proof. cbn [subst]. by destruct (f _). Qed.
Lemma subst_node f g ty : same_binding f g ty → Forall (λ t, subst f t = subst g t) (ty_children ty) →
  subst f ty = subst g ty.
Proof.
  intros Hfg Hkids. assert (∀ l, Forall (λ t, subst f t = subst g t) l → map (subst f) l = map (subst g) l) as Hl.
  { intros l. induction 1 as [|x l Hx _ IH]; [done|]. simpl. by rewrite Hx, IH. }
  assert (∀ n, Forall (λ t, subst f t = subst g t) (nominal_kids n) → subst_nominal f n = subst_nominal g n) as Hn.
  { intros [d args assoc] [H1 H2]%Forall_app. simpl in *. rewrite Hl by done. f_equal.
    induction assoc as [|[id t] assoc IH]; [done|]. apply Forall_cons_iff in H2 as [Ht H2]. simpl in *.
    rewrite Ht. f_equal. by apply IH. }
  destruct Hfg as [E|[(owner & position & ->) E]]; [|by rewrite !subst_default].
  destruct (g ty) as [v|] eqn:Eg; [by rewrite !(subst_some _ _ v) by (rewrite ?E; done)|].
  destruct ty; cbn [ty_children] in Hkids; rewrite ?Forall_cons_iff, ?Forall_app in Hkids; cbn [subst]; rewrite E, Eg;
    destruct_and?; f_equal; auto.
  all: try (apply Hn; unfold nominal_kids; rewrite Forall_app; done).
  all: rewrite Forall_cons_iff in *; by destruct_and?.
Qed.

Lemma subst_ext_on p f g ty :
  (∀ t, p t = true → same_binding f g t) → every p ty = true → subst f ty = subst g ty.
Proof.
  intros Hfg. induction ty as [ty IH] using ty_children_ind. rewrite every_children, andb_true_iff.
  intros [Hp Hc]. apply subst_node; [by apply Hfg|]. apply Forall_forall. intros t Ht.
  rewrite Forall_forall in IH. apply IH; [done|]. rewrite forallb_forall in Hc. by apply Hc.
Qed.
Lemma subst_ext f g ty : (∀ t, same_binding f g t) → subst f ty = subst g ty.
Proof.
  intros Hfg. induction ty as [ty IH] using ty_children_ind. by apply subst_node.
Qed.

(** ** The entry points *)
(** [m] computes [v] when [ok] holds and is refused otherwise; a token that nobody cancels is never reported. *)
Definition computes {A} (k : CancellationToken) (m : TM CancellationToken A) (v : A) (ok : Prop) : Prop :=
  twp m (λ r k', r = v ∧ ok ∧ follows k k')
    (λ e, e = TypeCancelled ∧ k ≠ None ∨ e = TypeLimitExceeded ∧ ¬ ok) k.

(** A walk whose result is admitted by its shape: a result that fits is within the steps. *)
Lemma computes_checked {A} k (m : TM Walk A) (v : A) (shape : A → Ty) d rs :
  yields d {| w_count := Subst.REMAINING; w_cancel := k |} m v (1 + weigh 3 rs) rs →
  (fits (shape v) → Forall (λ t, d + height t ≤ MAX_TYPE_DEPTH + 1) rs ∧ total rs ≤ MAX_TYPE_NODES) →
  computes k (let% r := walking Subst.REMAINING m in
              if within_wire_limits (shape r) then tret r else tfail TypeLimitExceeded) v (fits (shape v)).
Proof.
  intros H Hfit. unfold yields, computes, twp, tbind, walking in *.
  destruct (m {| w_count := Subst.REMAINING; w_cancel := k |}) as [[r w]|[e| |]]; [| |done..].
  - destruct H as [-> [_ Hk]]. rewrite within_wire_limits_fits. case_bool_decide; [done|by right].
  - destruct H as [H|[-> H]]; [by left|right]. split; [done|]. intros Hv. destruct (Hfit Hv) as [Hh Ht]. apply H.
    split; [done|]. cbn [w_count]. unfold weigh, Subst.REMAINING, MAX_TYPE_NODES in *. lia.
Qed.
Lemma fits_spare v : fits v → Forall (λ t, 1 + height t ≤ MAX_TYPE_DEPTH + 1) [v] ∧ total [v] ≤ MAX_TYPE_NODES.
Proof.
  intros (_ & Hh & Hn). rewrite Forall_singleton. unfold total. cbn [map]. rewrite zsum_cons, zsum_nil. lia.
Qed.
Lemma run_computes t ty k : resolves_none t →
  computes k (Subst.run t ty) (subst (Subst.replacement_of t) ty) (fits (subst (Subst.replacement_of t) ty)).
Proof.
  intros Ht. unfold Subst.run. apply (computes_checked k _ _ (λ r, r) 1 [subst (Subst.replacement_of t) ty]);
    [|apply fits_spare].
  apply yields_spare. by apply (visit_yields t Subst.FUEL Ht ty 1 true).
Qed.

Lemma nominal_computes s n k :
  computes k (Subst.apply_nominal s n) (subst_nominal (Subst.replacement s) n)
    (fits (TyTrait (subst_nominal (Subst.replacement s) n))).
Proof.
  set (t := Subst.transform_new s None). set (g := subst (Subst.replacement_of t)).
  assert (subst_nominal (Subst.replacement s) n = nominal_map g n) as ->.
  { rewrite subst_nominal_map. unfold nominal_map, g. f_equal.
    - apply map_ext. intros x. apply subst_ext. by intros []; left.
    - apply map_ext. intros [id x]. f_equal. apply subst_ext. by intros []; left. }
  unfold Subst.apply_nominal. fold t.
  apply (computes_checked k _ _ TyTrait 2 (nominal_kids (nominal_map g n))).
  - apply (yields_nominal 1 _ _ g n 3); [done|done|]. intros x w. by apply (visit_yields t Subst.FUEL).
  - intros (_ & Hh & Hn). split; [apply (height_below 1 (TyTrait (nominal_map g n))); lia|].
    rewrite nodes_children in Hn. unfold total, nominal_kids. cbn [ty_children] in Hn. lia.
Qed.

Lemma apply_computes s ty k :
  computes k (Subst.apply s ty) (subst (Subst.replacement s) ty) (fits (subst (Subst.replacement s) ty)).
Proof.
  assert (∀ t, same_binding (Subst.replacement_of (Subst.transform_new s None)) (Subst.replacement s) t) as E by (by intros []; left).
  rewrite <- (subst_ext _ _ ty E). by apply run_computes.
Qed.

(** ** Termination *)
Definition settles {S A} (m : TM S A) : Prop := ∀ s, m s ≠ Err TypeFuel.
Lemma settles_ret {S A} (a : A) : settles (S:=S) (tret a).
Proof. done. Qed.
Lemma settles_fail {S A} e : settles (S:=S) (A:=A) (tfail e).
Proof. intros s H. discriminate. Qed.
Lemma settles_bind {S A B} (m : TM S A) (k : A → TM S B) :
  settles m → (∀ a, settles (k a)) → settles (tbind m k).
Proof.
  unfold settles, tbind. intros Hm Hk s. specialize (Hm s). destruct (m s) as [[a s']|[e| |]]; [apply Hk|done..].
Qed.
Lemma settles_collect {S A B} (f : A → TM S B) l : (∀ x, settles (f x)) → settles (collect f l).
Proof.
  intros Hf. induction l as [|x l IH]; [apply settles_ret|]. simpl. apply settles_bind; [apply Hf|]. intros y.
  apply settles_bind; [done|]. intros r. apply settles_ret.
Qed.
Lemma settles_calling {A} (m : TM CancellationToken A) : settles m → settles (Subst.calling m).
Proof.
  unfold settles, Subst.calling. intros Hm w. specialize (Hm (w_cancel w)).
  destruct (m (w_cancel w)) as [[a k]|[e| |]]; done.
Qed.
Lemma settles_walking {A} c (m : TM Walk A) : settles m → settles (walking c m).
Proof.
  unfold settles, walking. intros Hm k. specialize (Hm {| w_count := c; w_cancel := k |}).
  destruct (m _) as [[a w]|[e| |]]; done.
Qed.
(** A step at depth [d] is refused below the limit. *)
Lemma settles_step {A} d (m : TM Walk A) : (d ≤ MAX_TYPE_DEPTH → settles m) → settles (Subst.step d ;;% m).
Proof.
  intros Hm w. pose proof (twp_step d w) as H. unfold twp in H. unfold tbind at 1.
  destruct (Subst.step d w) as [[[] w']|[e| |]]; [|done..]. destruct H as (_ & _ & Hd). by apply Hm.
Qed.
Lemma settles_many (f : Ty → TM Walk Ty) l : (∀ x, settles (f x)) → settles (Subst.many_with f l).
Proof. intros Hf. unfold Subst.many_with. destruct (_ <? _); [apply settles_fail|by apply settles_collect]. Qed.
Lemma settles_nominal (f : Ty → TM Walk Ty) n d : (∀ x, settles (f x)) → settles (Subst.nominal_with f n d).
Proof.
  intros Hf. apply settles_step. intros _. destruct (_ <? _); [apply settles_fail|].
  apply settles_bind; [by apply settles_many|]. intros a. apply settles_bind; [|intros; apply settles_ret].
  apply settles_collect. intros [id t]. apply settles_bind; [apply Hf|]. intros. apply settles_ret.
Qed.
Create HintDb settling discriminated.
#[export] Hint Resolve settles_ret settles_fail settles_bind settles_many settles_nominal settles_calling : settling.

Definition lookup_settles (t : Subst.Transform) : Prop :=
  match Subst.t_lookup t with Some lookup => ∀ i r m a, settles (lookup i r m a) | None => True end.
Lemma visit_settles t fuel : lookup_settles t → ∀ ty d (replace : bool),
  MAX_TYPE_DEPTH + 2 - d + (if replace then 1 else 0) ≤ Z.of_nat fuel → d ≤ MAX_TYPE_DEPTH + 1 →
  settles (Subst.visit t fuel ty d replace).
Proof.
  intros Hl. induction fuel as [|fuel IH]; intros ty d replace Hf Hd; [destruct replace; lia|].
  cbn [Subst.visit]. apply settles_step. intros Hd'.
  assert (∀ x, settles (Subst.visit t fuel x (d + 1) replace)) as Hc by (intros x; apply IH; lia).
  destruct (if replace then Subst.replacement_of t ty else None) as [v|] eqn:E; [destruct replace; [|done]; apply IH; lia|].
  assert (∀ i r m a, settles (match Subst.t_lookup t with
    | Some lookup => Subst.calling (lookup i r m a) | None => tret None end)) as Hlook.
  { unfold lookup_settles in Hl. intros. destruct (Subst.t_lookup t); auto with settling. }
  destruct ty; repeat (apply settles_bind; [by auto with settling|intros ?]); auto with settling.
  assert (∀ i, settles (let% output := match Subst.t_lookup t with
      | Some lookup => Subst.calling (lookup i a member a1) | None => tret None end in
    match output with
    | Some output => Subst.visit t fuel output (d + 1) replace
    | None => tret (TyProjection a1 a i member)
    end)) as Hrest.
  { intros i. apply settles_bind; [apply Hlook|]. intros [o|]; auto with settling. }
  destruct (_ || _); [|auto with settling]. destruct (Subst.is_nil a1); [|apply Hrest].
  destruct (Subst.embedded_output _ _ _); [apply Hc|]. destruct (Subst.t_outputs t) as [[outputs owner]|]; [|apply Hrest].
  destruct (_ && _); [|apply Hrest]. destruct (associated_get outputs member); [apply Hc|].
  apply settles_bind; [by apply settles_nominal|]. intros i. apply Hrest.
Qed.
Lemma run_settles t ty : lookup_settles t → settles (Subst.run t ty).
Proof.
  intros Hl. apply settles_bind; [apply settles_walking, visit_settles; [done|done|done]|].
  intros r. destruct (within_wire_limits r); auto with settling.
Qed.

(** ** Concrete types *)
(** A search that stops at the nodes [p] refuses, and otherwise pushes the children. *)
Lemma search_spec (loop : nat → list Ty → option bool) (p : Ty → bool) (hit : bool) :
  (∀ fuel, loop (S fuel) [] = Some (negb hit)) →
  (∀ fuel ty pending, loop (S fuel) (ty :: pending)
     = if p ty then loop fuel (rev (ty_children ty) ++ pending) else Some hit) →
  ∀ fuel pending, total pending < Z.of_nat fuel →
    loop fuel pending = Some (if forallb (every p) pending then negb hit else hit).
Proof.
  intros Hnil Hcons. induction fuel as [|fuel IH]; intros pending Hf; [pose proof (total_nonneg pending); lia|].
  destruct pending as [|ty pending]; [by rewrite Hnil|]. rewrite Hcons. cbn [forallb]. rewrite every_children.
  destruct (p ty); [|done]. rewrite total_cons, nodes_children in Hf.
  assert (rev (ty_children ty) ++ pending ≡ₚ ty_children ty ++ pending) as Hp by (by rewrite <- Permutation_rev).
  rewrite IH.
  - f_equal. rewrite forallb_app. replace (forallb (every p) (rev (ty_children ty))) with (forallb (every p) (ty_children ty)); [done|].
    apply eq_true_iff_eq. rewrite !forallb_forall. split; intros H x Hx; apply H; by apply in_rev in Hx || apply in_rev.
  - rewrite (total_perm _ _ Hp), total_app. unfold total in *. lia.
Qed.
Definition not_projection (t : Ty) : bool := match t with TyProjection _ _ _ _ => false | _ => true end.
Definition concrete_here (t : Ty) : bool :=
  match t with TyProjection _ _ _ _ | TyParameter _ _ | TySelfType _ => false | _ => true end.
Lemma extended_two a b l : Subst.extended b (Subst.extended a l) = rev (a ++ b) ++ l.
Proof. unfold Subst.extended. by rewrite rev_app_distr, app_assoc. Qed.
Lemma extended_last a x l : x :: Subst.extended a l = rev (a ++ [x]) ++ l.
Proof. unfold Subst.extended. by rewrite rev_app_distr. Qed.
Lemma contains_projection_spec ty : Subst.contains_projection ty = Some (negb (every not_projection ty)).
Proof.
  unfold Subst.contains_projection. rewrite (search_spec Subst.contains_projection_loop not_projection true).
  - simpl. rewrite andb_true_r. by destruct (every not_projection ty).
  - done.
  - intros fuel t pending. destruct t; cbn [Subst.contains_projection_loop not_projection ty_children];
      rewrite ?extended_two, ?extended_last; done.
  - unfold total, Subst.pending_fuel. cbn [map]. rewrite zsum_cons, zsum_nil. pose proof (nodes_pos ty). lia.
Qed.
Lemma is_concrete_spec ty : Subst.is_concrete ty = Some (every concrete_here ty).
Proof.
  unfold Subst.is_concrete. rewrite (search_spec Subst.is_concrete_loop concrete_here false).
  - simpl. rewrite andb_true_r. by destruct (every concrete_here ty).
  - done.
  - intros fuel t pending. destruct t; cbn [Subst.is_concrete_loop concrete_here ty_children];
      rewrite ?extended_two, ?extended_last; done.
  - unfold total, Subst.pending_fuel. cbn [map]. rewrite zsum_cons, zsum_nil. pose proof (nodes_pos ty). lia.
Qed.

(** ** Bindings *)
Lemma parameter_bind (b : Subst.TypeSubstitution) owner position v o p :
  Subst.parameter (Subst.bind owner position v b) o p
  = if decide (owner = o ∧ position = p) then Some v else Subst.parameter b o p.
Proof.
  unfold Subst.parameter, Subst.bind. cbn [Subst.ts_parameters]. rewrite lookup_total_alt.
  destruct (decide (owner = o)) as [->|Ho].
  - rewrite lookup_insert_eq. cbn [mbind option_bind]. destruct (decide (position = p)) as [->|Hp].
    + rewrite lookup_insert_eq. by rewrite decide_True.
    + rewrite lookup_insert_ne, decide_False by naive_solver. destruct (Subst.ts_parameters b !! o) as [m|]; [done|].
      apply lookup_empty.
  - by rewrite lookup_insert_ne, decide_False by naive_solver.
Qed.
Lemma parameter_bind_from (b : Subst.TypeSubstitution) owner i arguments o p :
  Subst.parameter (Subst.bind_from owner i arguments b) o p
  = if decide (owner = o ∧ (i ≤ p)%nat ∧ (p < i + length arguments)%nat) then arguments !! (p - i)%nat
    else Subst.parameter b o p.
Proof.
  revert b i. induction arguments as [|x l IH]; intros b i; cbn [Subst.bind_from length].
  - by rewrite decide_False by (intros ?; destruct_and?; lia).
  - rewrite IH, parameter_bind. destruct (decide (owner = o)) as [->|]; [|by rewrite !decide_False by naive_solver].
    destruct (decide (i = p)) as [->|].
    + rewrite decide_False by (intros ?; destruct_and?; lia).
      rewrite !decide_True by (split_and!; done || lia). by rewrite Nat.sub_diag.
    + destruct (decide (S i ≤ p ∧ p < S i + length l)%nat) as [Hin|Hout].
      * rewrite !decide_True by (split_and!; done || lia). by replace (p - i)%nat with (S (p - S i)) by lia.
      * by rewrite !decide_False by (intros ?; destruct_and?; lia).
Qed.
(** The arguments of an owner are its parameters, and nothing else is bound. *)
Lemma for_owner_replacement owner arguments t :
  Subst.replacement (Subst.for_owner owner arguments) t
  = match t with
    | TyParameter o p => if decide (owner = o) then arguments !! p else None
    | _ => None
    end.
Proof.
  assert (Subst.ts_receivers (Subst.for_owner owner arguments) = ∅) as Hr.
  { unfold Subst.for_owner. assert (Subst.ts_receivers Subst.ts_default = ∅) as H by done. revert H.
    generalize Subst.ts_default, 0%nat. induction arguments as [|x l IH]; intros b i Hb; [done|]. by apply IH. }
  destruct t; try done; simpl.
  - by rewrite Hr, lookup_empty.
  - unfold Subst.for_owner. rewrite parameter_bind_from. destruct (decide (owner = owner0)) as [->|].
    + destruct (decide (position < length arguments)%nat).
      * rewrite decide_True by (split_and!; [done|lia|lia]). by rewrite Nat.sub_0_r.
      * rewrite decide_False by (intros ?; destruct_and?; lia). rewrite lookup_ge_None_2 by lia. unfold Subst.parameter. simpl. by rewrite lookup_empty.
    + rewrite decide_False by naive_solver. unfold Subst.parameter. simpl. by rewrite lookup_empty.
Qed.
Definition argument_of (owner : DefinitionId) (arguments : list Ty) (t : Ty) : option Ty :=
  match t with TyParameter o p => if decide (owner = o) then arguments !! p else None | _ => None end.
Lemma instantiate_spec ty owner arguments :
  Subst.instantiate ty owner arguments =
  Some (let r := subst (argument_of owner arguments) ty in
        if bool_decide (fits r) && every concrete_here r then Some r else None).
Proof.
  rewrite <- (subst_ext (Subst.replacement (Subst.for_owner owner arguments)))
    by (intros t; left; apply for_owner_replacement).
  pose proof (apply_computes (Subst.for_owner owner arguments) ty None) as H. unfold computes, twp in H.
  unfold Subst.instantiate. cbv zeta. destruct (Subst.apply _ _ _) as [[r k]|[e| |]]; [|..]; try done.
  - destruct H as (-> & Hf & _). rewrite is_concrete_spec, bool_decide_true by done. done.
  - destruct H as [[_ H]|[_ H]]; [done|]. by rewrite bool_decide_false.
Qed.

(** ** Properties *)
(** C38: a substitution replaces one binder layer and nothing below the replacements, whether it comes
    from a table, is applied to a nominal type or comes from a lookup: the result is the reference substitution, delivered exactly
    when it fits the depth and node limits and refused with [LimitExceeded] otherwise; the step budget
    never refuses a result that fits, and only a token somebody cancelled is reported as cancelled.  A type
    is instantiated exactly when the substitution of the arguments fits and leaves nothing symbolic, and the
    resolution of associated outputs ends even where the outputs are cyclic. *)
Theorem substitution_exact s n ty (lookup : Subst.ParameterLookup) owner arguments receiver k :
  computes k (Subst.apply s ty) (subst (Subst.replacement s) ty) (fits (subst (Subst.replacement s) ty))
  ∧ computes k (Subst.apply_nominal s n) (subst_nominal (Subst.replacement s) n)
      (fits (TyTrait (subst_nominal (Subst.replacement s) n)))
  ∧ let f := λ t, match t with TyParameter owner position => lookup owner position | _ => None end in
    computes k (Subst.substitute_parameters ty lookup) (subst f ty) (fits (subst f ty))
  ∧ Subst.instantiate ty owner arguments =
    Some (let r := subst (argument_of owner arguments) ty in
          if bool_decide (fits r) && every concrete_here r then Some r else None)
  ∧ settles (Subst.resolve_associated_outputs ty n receiver).
Proof.
  split; [|split; [|intros f; split; [|split]]]; [|apply nominal_computes| |apply instantiate_spec|by apply run_settles].
  - apply apply_computes.
  - set (t := {| Subst.t_substitution := Subst.ts_default; Subst.t_outputs := None; Subst.t_lookup := None;
      Subst.t_parameter_lookup := Some lookup |}).
    assert (∀ x, same_binding (Subst.replacement_of t) f x) as E by (by intros []; left).
    rewrite <- (subst_ext _ _ ty E). by apply run_computes.
Qed.
