(* ===== verification/TyMatch.v ===== *)
(** * Semantic types: matching implementation headers

    Models [kagari-types/src/ty/matching.rs] and [NominalTy::satisfies]: a template is
    matched against a type by a stack of pairs, binding each parameter at its first
    occurrence, and the bindings are then checked by substitution.

    A match is the most general one: the assignments of the declared parameters under which
    the template is the actual type are those that agree with the bindings found, and none
    exists when the search ends without one. *)
From stdpp Require Import countable gmap.
From S2P Require Import Prelude Text Scalar Mir TyShape TySubst TySubstProps.
Open Scope Z_scope.
Open Scope ty_walk_scope.

Module Matching.
Import Subst.

(** [NominalTy::satisfies]. *)
Definition satisfies (self required : NominalTy) : bool :=
  bool_decide (nominal_declaration self = nominal_declaration required)
  && bool_decide (nominal_arguments self = nominal_arguments required)
  && forallb (λ '(member, ty), bool_decide (associated_get self member = Some ty)) (nominal_associated required).

Record ImplementationPattern : Set := {
  ip_parameters : list GenericParam;
  ip_receiver : Ty;
  ip_interface : NominalTy
}.

Definition shape_error (e : TypeTransformError) : TypeTransformError :=
  match e with TypeCancelled => e | _ => TypeLimitExceeded end.
(** [m.map_err(shape_error)?]. *)
Definition shaped {A} (m : TM CancellationToken A) : TM CancellationToken A :=
  λ k, match m k with Err (TypeError e) => Err (TypeError (shape_error e)) | r => r end.

Definition declares (parameters : list GenericParam) (owner : DefinitionId) (position : nat) : bool :=
  existsb (λ p, bool_decide (gp_owner p = owner) && bool_decide (gp_position p = position)) parameters.

(** What one pair does: bind, push further pairs, or end the search. *)
Inductive PairStep : Type :=
| PairPush (pairs : list (Ty * Ty))
| PairBind (owner : DefinitionId) (position : nat) (actual : Ty)
| PairSame
| PairNone.
(** The pairs [pending.extend(left.iter().zip(right))] leaves on the stack, the next one first. *)
Definition zipped (lhs rhs : list Ty) : list (Ty * Ty) := rev (zip lhs rhs).
Definition match_pair (parameters : list GenericParam) (template actual : Ty) : PairStep :=
  let otherwise := if bool_decide (template = actual) then PairSame else PairNone in
  let nominal := λ lhs rhs : NominalTy,
    if negb (bool_decide (nominal_declaration lhs = nominal_declaration rhs))
       || negb (Nat.eqb (length (nominal_arguments lhs)) (length (nominal_arguments rhs)))
       || negb (bool_decide (map fst (nominal_associated lhs) = map fst (nominal_associated rhs)))
    then PairNone
    else PairPush (zipped (associated_values lhs) (associated_values rhs)
                   ++ zipped (nominal_arguments lhs) (nominal_arguments rhs)) in
  match template, actual with
  | TyReference lhs la, TyReference rhs ra =>
      if bool_decide (la = ra) then PairPush [(lhs, rhs)] else otherwise
  | TyParameter owner position, _ =>
      if declares parameters owner position then PairBind owner position actual else otherwise
  | TyStruct lhs, TyStruct rhs | TyNativeObject lhs, TyNativeObject rhs
  | TyEnum lhs, TyEnum rhs | TyTrait lhs, TyTrait rhs => nominal lhs rhs
  | TyTuple lhs, TyTuple rhs =>
      if Nat.eqb (length lhs) (length rhs) then PairPush (zipped lhs rhs) else otherwise
  | TyFunction lhs lr, TyFunction rhs rr =>
      if Nat.eqb (length lhs) (length rhs) then PairPush (zipped lhs rhs ++ [(lr, rr)]) else otherwise
  | TyRange lhs a, TyRange rhs b => if bool_decide (a = b) then PairPush [(lhs, rhs)] else otherwise
  | TyIter lhs, TyIter rhs => PairPush [(lhs, rhs)]
  | TyArray lhs, TyArray rhs => PairPush [(lhs, rhs)]
  | TySet lhs a, TySet rhs b => if bool_decide (a = b) then PairPush [(lhs, rhs)] else otherwise
  | TyMap lk lv la, TyMap rk rv ra =>
      if bool_decide (la = ra) then PairPush [(lv, rv); (lk, rk)] else otherwise
  | _, _ => otherwise
  end.

(** The loop of [match_pairs]; the head of the list is the end of the vector. *)
Fixpoint match_loop (parameters : list GenericParam) (remaining : nat) (bindings : TypeSubstitution)
    (pending : list (Ty * Ty)) : TM CancellationToken (option TypeSubstitution) :=
  match pending with
  | [] => tret (Some bindings)
  | (template, actual) :: pending =>
      token_live ;;%
      match remaining with
      | O => tfail TypeLimitExceeded
      | S remaining =>
          let continue := λ bindings pending,
            if MAX_TYPE_NODES * 2 <? zlen pending then tfail TypeLimitExceeded
            else match_loop parameters remaining bindings pending in
          match match_pair parameters template actual with
          | PairPush pairs => continue bindings (pairs ++ pending)
          | PairBind owner position actual =>
              match parameter bindings owner position with
              | Some bound => if bool_decide (bound = actual) then continue bindings pending else tret None
              | None => continue (bind owner position actual bindings) pending
              end
          | PairSame => continue bindings pending
          | PairNone => tret None
          end
      end
  end.
Definition match_pairs (parameters : list GenericParam) (pending : list (Ty * Ty)) :
    TM CancellationToken (option TypeSubstitution) :=
  match_loop parameters (Z.to_nat (MAX_TYPE_NODES * 2)) ts_default pending.

(** The early return [return Ok(None)] of the checks. *)
Fixpoint all_apply (bindings : TypeSubstitution) (pairs : list (Ty * Ty)) : TM CancellationToken bool :=
  match pairs with
  | [] => tret true
  | (template, actual) :: pairs =>
      let% target := apply bindings template in
      if bool_decide (target = actual) then all_apply bindings pairs else tret false
  end.
Fixpoint all_outputs (bindings : TypeSubstitution) (implemented : NominalTy) (required : list (DefinitionId * Ty)) :
    TM CancellationToken bool :=
  match required with
  | [] => tret true
  | (member, expected) :: required =>
      token_live ;;%
      match associated_get implemented member with
      | None => tret false
      | Some actual =>
          let% target := apply bindings actual in
          if bool_decide (target = expected) then all_outputs bindings implemented required else tret false
      end
  end.

Definition match_pattern (pattern : ImplementationPattern) (interface : NominalTy) (receiver : Ty) :
    TM CancellationToken (option TypeSubstitution) :=
  let implemented := ip_interface pattern in
  if MAX_TYPE_NODES <? zlen (ip_parameters pattern) then tfail TypeLimitExceeded
  else
    shaped (Shape.validate (ip_receiver pattern)) ;;%
    shaped (Shape.validate receiver) ;;%
    if negb (bool_decide (nominal_declaration implemented = nominal_declaration interface))
       || negb (Nat.eqb (length (nominal_arguments implemented)) (length (nominal_arguments interface)))
    then tret None
    else
      shaped (Shape.validate_nominal interface) ;;%
      shaped (Shape.validate_nominal implemented) ;;%
      let% matched := match_pairs (ip_parameters pattern)
        (zipped (nominal_arguments implemented) (nominal_arguments interface) ++ [(ip_receiver pattern, receiver)]) in
      match matched with
      | None => tret None
      | Some bindings =>
          let% target := apply bindings (ip_receiver pattern) in
          if negb (bool_decide (target = receiver)) then tret None
          else
            let% arguments := all_apply bindings
              (zip (nominal_arguments implemented) (nominal_arguments interface)) in
            if negb arguments then tret None
            else
              let% outputs := all_outputs bindings implemented (nominal_associated interface) in
              if negb outputs then tret None else tret (Some bindings)
      end.

Definition match_receiver (parameters : list GenericParam) (template actual : Ty) :
    TM CancellationToken (option TypeSubstitution) :=
  if MAX_TYPE_NODES <? zlen parameters then tfail TypeLimitExceeded
  else
    shaped (Shape.validate template) ;;%
    shaped (Shape.validate actual) ;;%
    let% matched := match_pairs parameters [(template, actual)] in
    match matched with
    | None => tret None
    | Some bindings =>
        let% target := apply bindings template in
        if bool_decide (target = actual) then tret (Some bindings) else tret None
    end.

Record GenericBound : Set := { gb_ty : Ty; gb_constraints : list NominalTy }.
Record AssociatedTypeFamily : Set := {
  af_declaration : DefinitionId; af_generic_params : list GenericParam; af_bounds : list GenericBound; af_value : Ty
}.
Definition bind_all (pairs : list (GenericParam * Ty)) (s : TypeSubstitution) : TypeSubstitution :=
  fold_left (λ s '(p, argument), bind (gp_owner p) (gp_position p) argument s) pairs s.
Definition projection_output (pattern : ImplementationPattern) (families : list AssociatedTypeFamily)
    (interface : NominalTy) (receiver : Ty) (member : DefinitionId) (arguments : list Ty) :
    TM CancellationToken (option Ty) :=
  let% matched := match_pattern pattern interface receiver in
  match matched with
  | None => tret None
  | Some substitution =>
      match arguments with
      | _ :: _ =>
          match List.find (λ family, bool_decide (af_declaration family = member)) families with
          | None => tret None
          | Some family =>
              if negb (Nat.eqb (length (af_generic_params family)) (length arguments)) then tfail TypeInvalidContract
              else
                let% ty := apply (bind_all (zip (af_generic_params family) arguments) substitution) (af_value family) in
                tret (Some ty)
          end
      | [] =>
          match associated_get (ip_interface pattern) member with
          | None => tret None
          | Some value => let% ty := apply substitution value in tret (Some ty)
          end
      end
  end.
End Matching.

Import Subst Matching.

(** ** Assignments *)
Section assignments.
  Context (parameters : list GenericParam).
  Implicit Types (σ : DefinitionId → nat → Ty) (b : TypeSubstitution).

Definition assigned σ (t : Ty) : option Ty :=
  match t with
  | TyParameter owner position => if declares parameters owner position then Some (σ owner position) else None
  | _ => None
  end.
Definition solves σ (pairs : list (Ty * Ty)) : Prop := Forall (λ '(t, a), subst (assigned σ) t = a) pairs.
Definition agrees σ b : Prop := ∀ owner position v, Subst.parameter b owner position = Some v → σ owner position = v.

(** Projections are compared and not searched: a template whose projections mention a parameter
    can be refused although an assignment exists. *)
Definition undeclared (t : Ty) : bool :=
  match t with TyParameter owner position => negb (declares parameters owner position) | _ => true end.
Definition rigid : Ty → bool := every undeclared.
Definition matchable : Ty → bool := every (λ t, match t with TyProjection _ _ _ _ => rigid t | _ => true end).

Lemma subst_rigid σ t : rigid t = true → subst (assigned σ) t = t.
Proof.
  intros H. rewrite <- (subst_none t) at 2. revert H. apply subst_ext_on. intros [] Ht; left; try done.
  simpl in *. by destruct (declares _ _ _).
Qed.

(** ** One pair *)
Lemma zip_equal (g : Ty → Ty) l r : length l = length r → (map g l = r ↔ Forall (λ '(t, a), g t = a) (zip l r)).
Proof.
  revert r. induction l as [|x l IH]; intros [|y r] Hl; simplify_eq/=.
  - split; [constructor|done].
  - rewrite Forall_cons_iff, <- IH by done. split; [by intros [= -> ->]|]. by intros [-> ->].
Qed.
Lemma zipped_solves σ l r : length l = length r → (map (subst (assigned σ)) l = r ↔ solves σ (zipped l r)).
Proof.
  intros Hl. rewrite zip_equal by done. unfold solves, zipped.
  split; intros H; [by apply Forall_rev|]. rewrite <- (rev_involutive (zip l r)). by apply Forall_rev.
Qed.
Lemma values_equal {A B} (g : B → B) (l r : list (A * B)) : map fst l = map fst r →
  (map (λ '(id, t), (id, g t)) l = r ↔ map g (map snd l) = map snd r).
Proof.
  revert r. induction l as [|[i x] l IH]; intros [|[j y] r] Hl; simplify_eq/=; [done|].
  split.
  - intros H. injection H as Hy Hr. rewrite Hy. f_equal. by apply IH.
  - intros H. injection H as Hy Hr. rewrite Hy. f_equal. by apply IH.
Qed.
Lemma zipped_fst l r : length l = length r → map fst (zipped l r) ≡ₚ l.
Proof.
  intros Hl. unfold zipped. rewrite map_rev, <- Permutation_rev. revert r Hl.
  induction l as [|x l IH]; intros [|y r] Hl; simplify_eq/=; [done|]. by rewrite IH.
Qed.

Definition pair_spec (t a : Ty) (s : PairStep) : Prop :=
  match s with
  | PairPush pairs => (∀ σ, subst (assigned σ) t = a ↔ solves σ pairs) ∧ map fst pairs ≡ₚ ty_children t
  | PairBind owner position actual => t = TyParameter owner position ∧ declares parameters owner position = true ∧ actual = a
  | PairSame => ∀ σ, subst (assigned σ) t = a
  | PairNone => ∀ σ, subst (assigned σ) t ≠ a
  end.
Lemma otherwise_spec t a : (t = a → ∀ σ, subst (assigned σ) t = a) → (t ≠ a → ∀ σ, subst (assigned σ) t ≠ a) →
  pair_spec t a (if bool_decide (t = a) then PairSame else PairNone).
Proof. intros H1 H2. case_bool_decide; simpl; auto. Qed.
Lemma nominal_spec (C : NominalTy → Ty) l r :
  (∀ x y, C x = C y → x = y) → (∀ σ n, subst (assigned σ) (C n) = C (subst_nominal (assigned σ) n)) →
  (∀ n, ty_children (C n) = nominal_arguments n ++ associated_values n) →
  pair_spec (C l) (C r)
   (if negb (bool_decide (nominal_declaration l = nominal_declaration r))
       || negb (Nat.eqb (length (nominal_arguments l)) (length (nominal_arguments r)))
       || negb (bool_decide (map fst (nominal_associated l) = map fst (nominal_associated r)))
    then PairNone
    else PairPush (zipped (associated_values l) (associated_values r)
                   ++ zipped (nominal_arguments l) (nominal_arguments r))).
Proof.
  intros Hi Hs Hc. destruct l as [d args assoc], r as [d' args' assoc']. cbn [nominal_declaration nominal_arguments nominal_associated].
  unfold associated_values in *. cbn [nominal_associated].
  assert (∀ σ, subst (assigned σ) (C (Nominal d args assoc)) = C (Nominal d' args' assoc') →
    d = d' ∧ length args = length args' ∧ map fst assoc = map fst assoc') as Hnone.
  { intros σ H. rewrite Hs in H. apply Hi in H. cbn [subst_nominal] in H. injection H as -> <- <-.
    rewrite length_map, map_map. split_and!; [done|done|]. apply map_ext. by intros []. }
  destruct (Nat.eqb_spec (length args) (length args')); repeat case_bool_decide; cbn [negb orb];
    try (intros σ H'%Hnone; naive_solver). subst d'.
  assert (length (map snd assoc) = length (map snd assoc')) as Hl.
  { rewrite !length_map. rewrite <- (length_map fst assoc), <- (length_map fst assoc'). congruence. }
  split.
  - intros σ. rewrite Hs. unfold solves. rewrite Forall_app. fold (solves σ (zipped args args')).
    fold (solves σ (zipped (map snd assoc) (map snd assoc'))).
    rewrite <- !zipped_solves, <- values_equal by done. cbn [subst_nominal]. split.
    + intros H'. apply Hi in H'. by injection H' as -> ->.
    + intros [-> ->]. done.
  - rewrite map_app, !zipped_fst, Hc by done. cbn [nominal_arguments nominal_associated]. by rewrite Permutation_app_comm.
Qed.
Lemma solves_one σ t a : solves σ [(t, a)] ↔ subst (assigned σ) t = a.
Proof. unfold solves. by rewrite Forall_singleton. Qed.
Lemma solves_app σ l r : solves σ (l ++ r) ↔ solves σ l ∧ solves σ r.
Proof. apply Forall_app. Qed.

Ltac other := apply otherwise_spec; [intros ?; simplify_eq; try done|intros ? σ Hσ; cbn [subst assigned] in Hσ; congruence].
Ltac single := split; [intros σ; rewrite solves_one; cbn [subst assigned]; split; [by intros [= ->]|by intros ->]|done].
Lemma match_pair_spec t a : matchable t = true → pair_spec t a (match_pair parameters t a).
Proof.
  intros Hm. destruct t.
  all: try (by destruct a; other).
  all: try (destruct a; try other; cbn [match_pair]; single).
  all: try (destruct a; try other; cbn [match_pair]; case_bool_decide; [simplify_eq; single|other]).
  all: try (destruct a; try other; by (apply (nominal_spec TyStruct) || apply (nominal_spec TyNativeObject)
    || apply (nominal_spec TyEnum) || apply (nominal_spec TyTrait)); intros; simplify_eq).
  - unfold matchable in Hm. rewrite every_children in Hm. apply andb_true_iff in Hm as [Hm _].
    assert (∀ σ, subst (assigned σ) (TyProjection arguments t interface member) = TyProjection arguments t interface member)
      as Hr by (intros σ; by apply subst_rigid).
    replace (match_pair _ _ _) with (if bool_decide (TyProjection arguments t interface member = a) then PairSame else PairNone)
      by (by destruct a).
    apply otherwise_spec; [intros <-; apply Hr|intros Hn σ; by rewrite Hr].
  - cbn [match_pair]. destruct (declares parameters owner position) eqn:E.
    + done.
    + apply otherwise_spec; [intros <- σ|intros Hn σ]; rewrite subst_default; simpl; by rewrite E.
  - destruct a; try other. cbn [match_pair]. destruct (Nat.eqb_spec (length items) (length items0)) as [El|El].
    + split; [|by apply zipped_fst]. intros σ. rewrite <- zipped_solves by done. cbn [subst assigned]. split; congruence.
    + apply otherwise_spec; [intros ?; simplify_eq|]. intros ? σ Hσ. cbn [subst assigned] in Hσ. simplify_eq.
      by rewrite length_map in El.
  - destruct a; try other. cbn [match_pair]. destruct (Nat.eqb_spec (length params) (length params0)) as [El|El].
    + split; [|by rewrite map_app, zipped_fst by done]. intros σ. rewrite solves_app, <- zipped_solves, solves_one by done.
      cbn [subst assigned]. split; [by intros [= -> ->]|by intros [-> ->]].
    + apply otherwise_spec; [intros ?; simplify_eq|]. intros ? σ Hσ. cbn [subst assigned] in Hσ. simplify_eq.
      by rewrite length_map in El.
  - destruct a; try other. cbn [match_pair]. case_bool_decide; [simplify_eq|other].
    split; [|apply Permutation_swap]. intros σ. unfold solves. rewrite Forall_cons_iff, Forall_singleton. cbn [subst assigned].
    split; [by intros [= -> ->]|by intros [-> ->]].
Qed.

(** ** Bindings *)
Definition well_bound b : Prop :=
  (∀ owner position v, Subst.parameter b owner position = Some v → declares parameters owner position = true)
  ∧ ts_receivers b = ∅.
Lemma well_bound_bind b owner position v :
  declares parameters owner position = true → well_bound b → well_bound (bind owner position v b).
Proof.
  intros Hd [Hb Hr]. split; [|done]. intros o p u. rewrite parameter_bind.
  destruct (decide _) as [[-> ->]|_]; [done|apply Hb].
Qed.
Lemma agrees_bind σ b owner position v : Subst.parameter b owner position = None →
  agrees σ (bind owner position v b) ↔ agrees σ b ∧ σ owner position = v.
Proof.
  intros Hn. unfold agrees. split.
  - intros H. split.
    + intros o p u Hu. apply H. rewrite parameter_bind. destruct (decide _) as [[-> ->]|_]; [congruence|done].
    + apply H. rewrite parameter_bind. by rewrite decide_True.
  - intros [H Hv] o p u. rewrite parameter_bind. destruct (decide _) as [[-> ->]|_]; [congruence|apply H].
Qed.

(** ** The search *)
Definition found b (pending : list (Ty * Ty)) (r : option TypeSubstitution) : Prop :=
  match r with
  | Some b' => well_bound b' ∧ ∀ σ, agrees σ b' ↔ agrees σ b ∧ solves σ pending
  | None => ∀ σ, ¬ (agrees σ b ∧ solves σ pending)
  end.
Lemma found_mono b b1 pending pending1 r :
  (∀ σ, agrees σ b ∧ solves σ pending ↔ agrees σ b1 ∧ solves σ pending1) → found b1 pending1 r → found b pending r.
Proof. intros H. destruct r as [b'|]; simpl; [intros [Hw Hs]; split; [done|]; intros σ; by rewrite H|]. naive_solver. Qed.
Lemma matchable_children t : matchable t = true → Forall (λ t, matchable t = true) (ty_children t).
Proof.
  unfold matchable. rewrite every_children. intros [_ H]%andb_true_iff. rewrite forallb_forall in H. by apply List.Forall_forall.
Qed.

Definition ready (remaining : nat) (pending : list (Ty * Ty)) : Prop :=
  Forall (λ t, matchable t = true) (map fst pending)
  ∧ total (map fst pending) ≤ Z.of_nat remaining ∧ total (map fst pending) ≤ MAX_TYPE_NODES * 2.
Lemma loop_spec remaining b pending k : ready remaining pending → well_bound b →
  twp (match_loop parameters remaining b pending) (λ r k', follows k k' ∧ found b pending r)
    (λ e, e = TypeCancelled ∧ k ≠ None) k.
Proof.
  revert b pending k. induction remaining as [|remaining IH]; intros b [|[t a] pending] k (Hm & Hr & Hl) Hb.
  - apply twp_ret. split; [apply follows_refl|]. split; [done|]. intros σ. split; [intros ?; split; [done|constructor]|by intros [? _]].
  - simpl in Hr. rewrite total_cons in Hr. pose proof (nodes_pos t). pose proof (total_nonneg (map fst pending)). lia.
  - apply twp_ret. split; [apply follows_refl|]. split; [done|]. intros σ. split; [intros ?; split; [done|constructor]|by intros [? _]].
  - cbn [map fst] in *. rewrite total_cons in *. apply Forall_cons_iff in Hm as [Ht Hm].
    pose proof (nodes_pos t) as Hpos. cbn [match_loop].
    apply twp_bind, twp_live; [|done]. intros k1 Hk1.
    assert (∀ b1 pending1, ready remaining pending1 → well_bound b1 →
      (∀ σ, agrees σ b ∧ solves σ ((t, a) :: pending) ↔ agrees σ b1 ∧ solves σ pending1) →
      twp (if MAX_TYPE_NODES * 2 <? zlen pending1 then tfail TypeLimitExceeded
           else match_loop parameters remaining b1 pending1)
        (λ r k', follows k k' ∧ found b ((t, a) :: pending) r) (λ e, e = TypeCancelled ∧ k ≠ None) k1) as Hgo.
    { intros b1 pending1 Hready Hb1 Hs. pose proof (total_length (map fst pending1)) as Hlen.
      unfold zlen in Hlen. rewrite length_map in Hlen. destruct (_ <? _) eqn:E; [unfold ready, zlen in *; lia|].
      eapply twp_mono; [by apply IH| |].
      - intros r k2 [Hk2 Hf]. split; [by eapply follows_trans|]. by eapply found_mono.
      - intros e [-> He]. split; [done|]. intros H. by apply He, Hk1. }
    assert (ready remaining pending) as Hrest by (split_and!; [done|lia|lia]).
    assert (∀ σ, solves σ ((t, a) :: pending) ↔ subst (assigned σ) t = a ∧ solves σ pending) as Hcons
      by (intros σ; apply Forall_cons_iff).
    pose proof (match_pair_spec t a Ht) as Hp. destruct (match_pair parameters t a) as [pairs|owner position v| |].
    + destruct Hp as [Hp Hperm]. apply Hgo; [|done|].
      * split; [|rewrite map_app, total_app, (total_perm _ _ Hperm); rewrite nodes_children in Hr, Hl; unfold total in *; lia].
        rewrite map_app. apply Forall_app. split; [|done]. rewrite Hperm. by apply matchable_children.
      * intros σ. by rewrite Hcons, solves_app, Hp.
    + destruct Hp as (-> & Hd & ->).
      assert (∀ σ, subst (assigned σ) (TyParameter owner position) = σ owner position) as Hs
        by (intros σ; rewrite subst_default; simpl; by rewrite Hd).
      destruct (Subst.parameter b owner position) as [v|] eqn:Ev; [case_bool_decide as Hv|].
      * apply Hgo; [done|done|]. intros σ. rewrite Hcons, Hs. split; [naive_solver|]. intros [Hσ ?].
        split_and!; [done| |done]. rewrite <- Hv. by apply Hσ.
      * apply twp_ret. split; [done|]. intros σ [Hσ H']. rewrite Hcons, Hs in H'. destruct H' as [H' _].
        apply Hv. rewrite <- H'. symmetry. by apply Hσ.
      * apply Hgo; [done|by apply well_bound_bind|]. intros σ. rewrite Hcons, Hs, agrees_bind by done. naive_solver.
    + apply Hgo; [done|done|]. intros σ. rewrite Hcons. split; [naive_solver|]. intros [? ?]. by split_and!.
    + apply twp_ret. split; [done|]. intros σ [_ H']. rewrite Hcons in H'. by destruct H' as [H' _]; apply Hp in H'.
Qed.

(** The bindings as an assignment: an unbound parameter stays itself. *)
Definition completed b : DefinitionId → nat → Ty :=
  λ owner position, default (TyParameter owner position) (Subst.parameter b owner position).
Lemma completed_agrees b : agrees (completed b) b.
Proof. intros o p v H. unfold completed. by rewrite H. Qed.
Lemma subst_completed b t : well_bound b → subst (assigned (completed b)) t = subst (replacement b) t.
Proof.
  intros [Hb Hr]. apply subst_ext. intros [| | owner|owner position| | | | | | | | | | | | | ]; try by left.
  - left. simpl. by rewrite Hr, lookup_empty.
  - simpl. destruct (declares parameters owner position) eqn:E; simpl.
    + right. split; [by eexists _, _|]. simpl. by rewrite E.
    + left. simpl. rewrite E. destruct (Subst.parameter b owner position) eqn:Ep; [|done]. apply Hb in Ep. congruence.
Qed.
End assignments.

Lemma shaped_spec ty k :
  twp (shaped (Shape.validate ty)) (λ _ k', fits ty ∧ follows k k')
    (λ e, e = TypeCancelled ∧ k ≠ None ∨ e = TypeLimitExceeded ∧ ¬ fits ty) k.
Proof.
  pose proof (validate_spec ty k) as H. unfold twp, shaped in *.
  destruct (Shape.validate ty k) as [[[] k']|[e| |]]; [done| |done..]. destruct e; naive_solver.
Qed.

(** ** Headers *)
Lemma total_fits l : fits l → total [l] ≤ MAX_TYPE_NODES.
Proof. intros H. apply fits_spare in H. by destruct H. Qed.
Lemma default_bound parameters : well_bound parameters ts_default.
Proof. split; [|done]. intros o p v. unfold Subst.parameter. simpl. by rewrite lookup_empty. Qed.
Lemma default_agrees σ : agrees σ ts_default.
Proof. intros o p v. unfold Subst.parameter. simpl. by rewrite lookup_empty. Qed.
Lemma receiver_search parameters template actual k :
  matchable parameters template = true → fits template →
  twp (match_pairs parameters [(template, actual)])
    (λ r k', follows k k' ∧ found parameters ts_default [(template, actual)] r)
    (λ e, e = TypeCancelled ∧ k ≠ None) k.
Proof.
  intros Hm Hf. apply loop_spec; [|apply default_bound]. apply total_fits in Hf.
  split; [by constructor|]. cbn [map fst]. unfold MAX_TYPE_NODES in *. lia.
Qed.

(** The substitution a receiver is matched with. *)
Lemma match_receiver_spec parameters template actual k : matchable parameters template = true →
  twp (match_receiver parameters template actual)
    (λ r _, match r with
            | Some b => subst (replacement b) template = actual
                        ∧ ∀ σ, subst (assigned parameters σ) template = actual ↔ agrees σ b
            | None => ∀ σ, subst (assigned parameters σ) template ≠ actual
            end)
    (λ e, e = TypeCancelled ∧ k ≠ None
          ∨ e = TypeLimitExceeded ∧ (MAX_TYPE_NODES < zlen parameters ∨ ¬ fits template ∨ ¬ fits actual)) k.
Proof.
  intros Hm. unfold match_receiver. destruct (_ <? _) eqn:E; [apply twp_fail; right; split; [done|left; lia]|].
  apply twp_bind. eapply twp_mono; [apply shaped_spec| |naive_solver]. intros [] k1 [Hft Hk1].
  apply twp_bind. eapply twp_mono; [apply shaped_spec| |intros e [[? He]|?]; [left|naive_solver]].
  2: { split; [done|]. intros Hn. by apply He, Hk1. }
  intros [] k2 [Hfa Hk2]. assert (follows k k2) as Hk by (by eapply follows_trans).
  apply twp_bind. eapply twp_mono; [by apply receiver_search| |].
  2: { intros e [-> He]. left. split; [done|]. intros H. by apply He, Hk. }
  intros [b|] k3 [Hk3 Hfound].
  - destruct Hfound as [Hb Hs]. assert (subst (replacement b) template = actual) as Ha.
    { rewrite <- (subst_completed parameters) by done. apply solves_one, Hs, completed_agrees. }
    apply twp_bind. eapply twp_mono; [apply apply_computes| |].
    + intros target k4 (-> & _ & _). rewrite bool_decide_true by done. apply twp_ret. split; [done|]. intros σ.
      rewrite Hs, solves_one. pose proof (default_agrees σ). naive_solver.
    + intros e [[-> He]|[-> He]]; [|by rewrite Ha in He]. left. split; [done|]. intros H. by apply He, Hk3, Hk.
  - apply twp_ret. intros σ Hσ. apply (Hfound σ). split; [apply default_agrees|by apply solves_one].
Qed.

Lemma associated_get_subst f n member : associated_get (subst_nominal f n) member = subst f <$> associated_get n member.
Proof.
  destruct n as [d args assoc]. unfold associated_get. cbn [subst_nominal nominal_associated].
  induction assoc as [|[id t] assoc IH]; [done|]. cbn [map list_find]. destruct (decide (id = member)) as [->|Hn].
  - by rewrite !decide_True by done.
  - rewrite !decide_False by done. revert IH.
    destruct (list_find _ (map _ assoc)) as [[i [id1 t1]]|], (list_find _ assoc) as [[j [id2 t2]]|]; naive_solver.
Qed.
Definition delivers b (implemented : NominalTy) (required : list (DefinitionId * Ty)) : Prop :=
  Forall (λ '(member, ty), subst (replacement b) <$> associated_get implemented member = Some ty) required.
Lemma satisfies_spec f n required :
  satisfies (subst_nominal f n) required = true ↔
  nominal_declaration n = nominal_declaration required ∧ map (subst f) (nominal_arguments n) = nominal_arguments required
  ∧ Forall (λ '(member, ty), subst f <$> associated_get n member = Some ty) (nominal_associated required).
Proof.
  unfold satisfies. rewrite !andb_true_iff, !bool_decide_eq_true, forallb_forall, List.Forall_forall.
  assert (nominal_declaration (subst_nominal f n) = nominal_declaration n
    ∧ nominal_arguments (subst_nominal f n) = map (subst f) (nominal_arguments n)) as [-> ->] by (by destruct n).
  rewrite Logic.and_assoc. apply and_iff_compat_l, and_iff_compat_l. split; intros H [member ty] Hin; specialize (H _ Hin);
    cbv beta iota in *; rewrite <- associated_get_subst in *.
  - by apply bool_decide_eq_true in H.
  - by apply bool_decide_eq_true.
Qed.

(** A cancellation somebody asked for, or a limit for the reason [why]. *)
Definition stopped (why : Prop) (k : CancellationToken) (e : TypeTransformError) : Prop :=
  e = TypeCancelled ∧ k ≠ None ∨ e = TypeLimitExceeded ∧ why.
Lemma stopped_mono (why why' : Prop) k k' e : follows k k' → (why' → why) → stopped why' k' e → stopped why k e.
Proof. intros Hk Hw [[-> He]|[-> He]]; [left|right; auto]. split; [done|]. intros H. by apply He, Hk. Qed.
Lemma twp_after {A} (m : TM CancellationToken A) (Q : A → CancellationToken → Prop) (why why' : Prop) k k' :
  follows k k' → (why' → why) → twp m Q (stopped why' k') k' → twp m Q (stopped why k) k'.
Proof. intros Hk Hw H. eapply twp_mono; [exact H|done|]. intros e. by apply stopped_mono. Qed.
Lemma apply_runs b t k :
  twp (apply b t) (λ r k', follows k k' ∧ r = subst (replacement b) t ∧ fits r)
    (stopped (¬ fits (subst (replacement b) t)) k) k.
Proof. eapply twp_mono; [apply apply_computes|intros r k' (-> & ? & ?); by split_and!|done]. Qed.
Lemma all_apply_spec b pairs k :
  twp (all_apply b pairs)
    (λ r k', follows k k' ∧ (r = true ↔ Forall (λ '(t, a), subst (replacement b) t = a) pairs))
    (stopped (Exists (λ '(t, _), ¬ fits (subst (replacement b) t)) pairs) k) k.
Proof.
  revert k. induction pairs as [|[t a] pairs IH]; intros k.
  - apply twp_ret. split; [apply follows_refl|]. split; [constructor|done].
  - cbn [all_apply]. apply twp_bind. eapply twp_after; [apply follows_refl| |eapply twp_mono; [apply apply_runs| |done]];
      [by left|]. intros r k1 (Hk1 & -> & _).
    case_bool_decide as Hb.
    + eapply (twp_after _ _ _ _ k k1); [done|by right|]. eapply twp_mono; [apply IH| |done]. intros r k2 [Hk2 Hr].
      split; [by eapply follows_trans|]. rewrite Forall_cons_iff, Hr. naive_solver.
    + apply twp_ret. split; [done|]. rewrite Forall_cons_iff. naive_solver.
Qed.
(** An output asked for that leaves the limits under the bindings. *)
Definition output_unfit b (implemented : NominalTy) (required : list (DefinitionId * Ty)) : Prop :=
  Exists (λ '(member, _), ∃ t, associated_get implemented member = Some t ∧ ¬ fits (subst (replacement b) t)) required.
Lemma all_outputs_spec b implemented required k :
  twp (all_outputs b implemented required)
    (λ r k', follows k k' ∧ (r = true ↔ delivers b implemented required))
    (stopped (output_unfit b implemented required) k) k.
Proof.
  unfold delivers, output_unfit. revert k. induction required as [|[m e] required IH]; intros k.
  - apply twp_ret. split; [apply follows_refl|]. split; [constructor|done].
  - cbn [all_outputs]. apply twp_bind, twp_live; [|by left]. intros k0 Hk0.
    destruct (associated_get implemented m) as [t|] eqn:Eg; [|apply twp_ret; split; [done|]; rewrite Forall_cons_iff; split; [done|intros [Hg _]; by rewrite Eg in Hg]].
    apply twp_bind. eapply (twp_after _ _ _ _ k k0); [done| |eapply twp_mono; [apply apply_runs| |done]]; [left; eauto|].
    intros r k1 (Hk1 & -> & _). assert (follows k k1) by (by eapply follows_trans). case_bool_decide as Hb; simpl.
    + eapply (twp_after _ _ _ _ k k1); [done|by right|]. eapply twp_mono; [apply IH| |done]. intros r k2 [Hk2 Hr].
      split; [by eapply follows_trans|]. rewrite Forall_cons_iff, Hr, Eg. naive_solver.
    + apply twp_ret. split; [done|]. rewrite Forall_cons_iff, Eg. naive_solver.
Qed.

(** What an implementation header asks of an assignment. *)
Definition heads (pattern : ImplementationPattern) (interface : NominalTy) (receiver : Ty)
    (σ : DefinitionId → nat → Ty) : Prop :=
  subst (assigned (ip_parameters pattern) σ) (ip_receiver pattern) = receiver
  ∧ map (subst (assigned (ip_parameters pattern) σ)) (nominal_arguments (ip_interface pattern))
    = nominal_arguments interface.
(** The header fixes the outputs: every parameter they mention is constrained by it. *)
Definition constrained (pattern : ImplementationPattern) (interface : NominalTy) (receiver : Ty) : Prop :=
  ∀ σ τ, heads pattern interface receiver σ → heads pattern interface receiver τ →
    subst_nominal (assigned (ip_parameters pattern) σ) (ip_interface pattern)
    = subst_nominal (assigned (ip_parameters pattern) τ) (ip_interface pattern).
Definition matchable_header (pattern : ImplementationPattern) : bool :=
  matchable (ip_parameters pattern) (ip_receiver pattern)
  && forallb (matchable (ip_parameters pattern)) (nominal_arguments (ip_interface pattern)).

(** Why a header is refused: too many parameters, a type outside the limits, or, once the header is matched,
    an output asked for that leaves the limits under the bindings. *)
Definition header_oversized (pattern : ImplementationPattern) (interface : NominalTy) (receiver : Ty) : Prop :=
  MAX_TYPE_NODES < zlen (ip_parameters pattern) ∨ ¬ fits (ip_receiver pattern) ∨ ¬ fits receiver
  ∨ nominal_declaration (ip_interface pattern) = nominal_declaration interface
    ∧ length (nominal_arguments (ip_interface pattern)) = length (nominal_arguments interface)
    ∧ (¬ fits (TyTrait interface) ∨ ¬ fits (TyTrait (ip_interface pattern))
       ∨ ∃ b, (∀ σ, heads pattern interface receiver σ ↔ agrees σ b)
              ∧ output_unfit b (ip_interface pattern) (nominal_associated interface)).

Lemma shaped_stopped ty k : twp (shaped (Shape.validate ty)) (λ _ k', follows k k' ∧ fits ty) (stopped (¬ fits ty) k) k.
Proof. eapply twp_mono; [apply shaped_spec|naive_solver|done]. Qed.
Lemma shaped_nominal_stopped n k :
  twp (shaped (Shape.validate_nominal n)) (λ _ k', follows k k' ∧ fits (TyTrait n)) (stopped (¬ fits (TyTrait n)) k) k.
Proof.
  pose proof (validate_nominal_spec n k) as H. unfold twp, shaped, stopped in *.
  destruct (Shape.validate_nominal n k) as [[[] k']|[e| |]]; [naive_solver| |done..]. destruct e; naive_solver.
Qed.
(** What is inside a type within the limits is within them. *)
Lemma fits_child t ty : In t (ty_children ty) → fits ty → fits t.
Proof.
  intros Ht (Hp & Hh & Hn). rewrite plain_children, andb_true_iff, forallb_forall in Hp.
  assert (1 + height ty ≤ MAX_TYPE_DEPTH + 1) as Hh' by lia.
  apply height_below in Hh'. rewrite List.Forall_forall in Hh'. apply Hh' in Ht as Hht.
  split; [by apply Hp|]. split; [lia|]. rewrite nodes_children in Hn.
  assert (nodes t ≤ zsum (map nodes (ty_children ty))); [|lia]. clear - Ht.
  induction (ty_children ty) as [|x l IH]; [done|]. cbn [map]. rewrite zsum_cons.
  pose proof (nodes_pos x). pose proof (zsum_all_nonneg l). destruct Ht as [->|Ht]; [lia|]. apply IH in Ht. lia.
Qed.
Lemma subst_nominal_completed parameters b n : well_bound parameters b →
  subst_nominal (assigned parameters (completed b)) n = subst_nominal (replacement b) n.
Proof.
  intros Hb. destruct n as [d args assoc]. cbn [subst_nominal]. f_equal; apply map_ext; [|intros [id t]; f_equal];
    intros; by apply subst_completed.
Qed.
Lemma header_search pattern interface receiver k : matchable_header pattern = true →
  length (nominal_arguments (ip_interface pattern)) = length (nominal_arguments interface) →
  fits (ip_receiver pattern) → fits (TyTrait (ip_interface pattern)) →
  twp (match_pairs (ip_parameters pattern)
        (zipped (nominal_arguments (ip_interface pattern)) (nominal_arguments interface)
         ++ [(ip_receiver pattern, receiver)]))
    (λ r k', follows k k' ∧ match r with
       | Some b => well_bound (ip_parameters pattern) b ∧ ∀ σ, agrees σ b ↔ heads pattern interface receiver σ
       | None => ∀ σ, ¬ heads pattern interface receiver σ
       end) (stopped False k) k.
Proof.
  intros Hm Hl Hfr (_ & _ & Hfn). apply andb_true_iff in Hm as [Hmr Hma]. rewrite forallb_forall in Hma.
  assert (∀ σ, solves (ip_parameters pattern) σ (zipped (nominal_arguments (ip_interface pattern))
      (nominal_arguments interface) ++ [(ip_receiver pattern, receiver)]) ↔ heads pattern interface receiver σ) as Hs.
  { intros σ. rewrite solves_app, solves_one, <- zipped_solves by done. unfold heads. naive_solver. }
  eapply twp_mono; [apply loop_spec; [|apply default_bound]| |intros e ?; by left].
  - apply total_fits in Hfr. unfold ready. rewrite map_app, total_app, (total_perm _ _ (zipped_fst _ _ Hl)).
    cbn [map fst]. rewrite nodes_children in Hfn. cbn [ty_children] in Hfn. rewrite map_app, zsum_app in Hfn.
    pose proof (zsum_all_nonneg (associated_values (ip_interface pattern))). split.
    + rewrite (zipped_fst _ _ Hl). apply Forall_app. split; [by apply List.Forall_forall|by constructor].
    + unfold total, MAX_TYPE_NODES in *. lia.
  - intros [b|] k' [Hk H]; (split; [done|]); simpl in H.
    + destruct H as [Hb H]. split; [done|]. intros σ. rewrite H, Hs. pose proof (default_agrees σ). naive_solver.
    + intros σ Hσ. apply (H σ). split; [apply default_agrees|by apply Hs].
Qed.

Definition pattern_result (pattern : ImplementationPattern) (interface : NominalTy) (receiver : Ty)
    (r : option TypeSubstitution) : Prop :=
  match r with
  | Some b => subst (replacement b) (ip_receiver pattern) = receiver
      ∧ satisfies (subst_nominal (replacement b) (ip_interface pattern)) interface = true
      ∧ ∀ σ, heads pattern interface receiver σ ↔ agrees σ b
  | None => constrained pattern interface receiver → ∀ σ, heads pattern interface receiver σ →
      satisfies (subst_nominal (assigned (ip_parameters pattern) σ) (ip_interface pattern)) interface = false
  end.
(** The checks on the bindings found. *)
Lemma header_checks pattern interface receiver b k :
  nominal_declaration (ip_interface pattern) = nominal_declaration interface →
  length (nominal_arguments (ip_interface pattern)) = length (nominal_arguments interface) →
  fits receiver → fits (TyTrait interface) →
  well_bound (ip_parameters pattern) b → (∀ σ, agrees σ b ↔ heads pattern interface receiver σ) →
  twp (let% target := apply b (ip_receiver pattern) in
       if negb (bool_decide (target = receiver)) then tret None
       else
         let% arguments := all_apply b (zip (nominal_arguments (ip_interface pattern)) (nominal_arguments interface)) in
         if negb arguments then tret None
         else
           let% outputs := all_outputs b (ip_interface pattern) (nominal_associated interface) in
           if negb outputs then tret None else tret (Some b))
    (λ r _, pattern_result pattern interface receiver r)
    (stopped (output_unfit b (ip_interface pattern) (nominal_associated interface)) k) k.
Proof.
  intros Hd Hl Hfr Hfi Hb Hs. pose proof (proj1 (Hs _) (completed_agrees b)) as Hhead. destruct (Hhead) as [Hr Ha].
  rewrite subst_completed in Hr by done. rewrite (map_ext _ _ (λ t, subst_completed _ b t Hb)) in Ha.
  apply twp_bind. eapply twp_after; [apply follows_refl| |eapply twp_mono; [apply apply_runs| |done]]; [by rewrite Hr|].
  intros target k6 (Hk6 & -> & _). rewrite bool_decide_true by done. cbn [negb].
  apply twp_bind. eapply (twp_after _ _ _ _ k k6); [done| |eapply twp_mono; [apply all_apply_spec| |done]].
  { intros Hex. exfalso. apply List.Exists_exists in Hex as ([t a] & Hin & Hnf). apply Hnf.
    pose proof (proj1 (zip_equal _ _ _ Hl) Ha) as Hz. rewrite List.Forall_forall in Hz. rewrite (Hz _ Hin).
    apply (fits_child a (TyTrait interface)); [|done]. cbn [ty_children]. apply in_app_iff. left. by eapply in_combine_r. }
  intros args k7 [Hk7 Hargs]. apply (follows_trans _ _ _ Hk6) in Hk7.
  rewrite <- zip_equal in Hargs by done. apply Hargs in Ha as Hargs1. subst args. cbn [negb].
  apply twp_bind. eapply (twp_after _ _ _ _ k k7); [done| |eapply twp_mono; [apply all_outputs_spec| |done]]; [done|].
  intros outs k8 [Hk8 Houts]. destruct outs; apply twp_ret; cbn [pattern_result].
  - split_and!; [done| |intros σ; by rewrite Hs]. apply satisfies_spec. split_and!; [done|done|by apply Houts].
  - intros Hc σ Hσ. rewrite (Hc _ _ Hσ Hhead), subst_nominal_completed by done. apply not_true_is_false.
    rewrite satisfies_spec. intros (_ & _ & Ho). by apply Houts in Ho.
Qed.
(** The substitution an implementation is matched with. *)
Lemma match_pattern_spec pattern interface receiver k : matchable_header pattern = true →
  twp (match_pattern pattern interface receiver) (λ r _, pattern_result pattern interface receiver r)
    (stopped (header_oversized pattern interface receiver) k) k.
Proof.
  intros Hm. unfold match_pattern, header_oversized. destruct (_ <? _) eqn:E; [apply twp_fail; right; split; [done|left; lia]|].
  apply twp_bind. eapply twp_after; [apply follows_refl| |eapply twp_mono; [apply shaped_stopped| |done]]; [tauto|].
  intros [] k1 [Hk1 Hfr].
  apply twp_bind. eapply (twp_after _ _ _ _ k k1); [done| |eapply twp_mono; [apply shaped_stopped| |done]]; [tauto|].
  intros [] k2 [Hk2 Hfa]. apply (follows_trans _ _ _ Hk1) in Hk2.
  destruct (_ || _) eqn:Eh.
  { apply twp_ret. intros _ σ [_ Hσ]. apply not_true_is_false. rewrite satisfies_spec. intros (Hd & _ & _).
    rewrite Hd, <- Hσ, length_map, bool_decide_true, Nat.eqb_refl in Eh by done. done. }
  apply orb_false_iff in Eh as [Hd Hl]. apply negb_false_iff, bool_decide_eq_true in Hd.
  apply negb_false_iff, Nat.eqb_eq in Hl.
  apply twp_bind. eapply (twp_after _ _ _ _ k k2); [done| |eapply twp_mono; [apply shaped_nominal_stopped| |done]]; [tauto|].
  intros [] k3 [Hk3 Hfi]. apply (follows_trans _ _ _ Hk2) in Hk3.
  apply twp_bind. eapply (twp_after _ _ _ _ k k3); [done| |eapply twp_mono; [apply shaped_nominal_stopped| |done]]; [tauto|].
  intros [] k4 [Hk4 Hfn]. apply (follows_trans _ _ _ Hk3) in Hk4.
  apply twp_bind. eapply (twp_after _ _ _ _ k k4); [done| |eapply twp_mono; [by apply header_search| |done]]; [done|].
  intros [b|] k5 [Hk5 Hfound]; [|apply twp_ret; intros _ σ Hσ; by apply Hfound in Hσ].
  apply (follows_trans _ _ _ Hk4) in Hk5. destruct Hfound as [Hb Hs].
  eapply (twp_after _ _ _ _ k k5); [done| |by apply header_checks]. intros Hu.
  right; right; right. split_and!; [done|done|]. right; right. exists b. split; [|done]. intros σ. by rewrite Hs.
Qed.


(** [impl<T> Read<T> for [T]] matched with [Read<i32>] for [[i32]]. *)
Definition sample_owner : DefinitionId := {| def_table := 1; def_index := 7 |}.
Definition sample_parameters : list GenericParam := [{| gp_owner := sample_owner; gp_position := 0 |}].
Definition sample_interface (argument : Ty) : NominalTy :=
  Nominal {| def_table := 1; def_index := 2 |} [argument] [({| def_table := 1; def_index := 3 |}, argument)].
Definition sample_pattern : ImplementationPattern :=
  {| ip_parameters := sample_parameters; ip_receiver := TyArray (TyParameter sample_owner 0);
     ip_interface := sample_interface (TyParameter sample_owner 0) |}.
Definition sample_bindings : TypeSubstitution := bind sample_owner 0 (TyBuiltin BtI32) ts_default.
Lemma sample_receiver_matches :
  match_receiver sample_parameters (TyArray (TyParameter sample_owner 0)) (TyArray (TyBuiltin BtI32)) None
  = Ok (Some sample_bindings, None).
Proof. vm_compute. reflexivity. Qed.
Lemma sample_pattern_matches :
  match_pattern sample_pattern (sample_interface (TyBuiltin BtI32)) (TyArray (TyBuiltin BtI32)) None
  = Ok (Some sample_bindings, None).
Proof. vm_compute. reflexivity. Qed.
