(* ===== verification/TyWire.v ===== *)
(** * Semantic types: the flat encoding

    Models [kagari-types/src/ty/wire.rs], and [DefinitionEncoding::reference] and
    [DefinitionDecoding::resolve] of [kagari-common/src/identity/table/wire.rs]: a type is
    written as its nodes in preorder, with portable references for its definitions, and
    read back by a recursion that the depth limit bounds.

    The reference encoding lists the nodes of a type in preorder, the outputs of a trait in
    the order of their portable references; the encoder writes it exactly for the types
    within the limits, and the decoder reads the type back with every definition renamed
    into the scope of the table it reads with. *)
From stdpp Require Import countable gmap sorting.
From S2P Require Import Prelude Text Scalar Mir TyShape TySubst TySubstProps.
Open Scope Z_scope.
Open Scope ty_walk_scope.

Module Wire.
(** ** Portable references *)
(** [PortableDefinitionRef], a [u32]. *)
Definition PortableDefinitionRef : Set := Z.
(** What [reference] and [resolve] read; the portable table itself is written beside the types. *)
Record DefinitionEncoding : Set := { de_owner : Z; de_references : gmap Z PortableDefinitionRef }.
Record DefinitionDecoding : Set := { dd_references : list DefinitionId }.
Definition reference (self : DefinitionEncoding) (id : DefinitionId) :
    result PortableDefinitionRef DefinitionTableError :=
  if negb (bool_decide (def_table id = de_owner self)) then Err DtForeignTable
  else match de_references self !! def_index id with Some r => Ok r | None => Err DtUnmappedDefinition end.
Definition resolve (self : DefinitionDecoding) (r : PortableDefinitionRef) : result DefinitionId DefinitionTableError :=
  match dd_references self !! Z.to_nat r with Some id => Ok id | None => Err DtInvalidIndex end.
(** [.map_err(Into::into)?]. *)
Definition converted {S A} (r : result A DefinitionTableError) : TM S A :=
  λ s, match r with Ok a => Ok (a, s) | Err e => Err (TypeIdentity e) end.

(** ** Nodes *)
Inductive Node : Set :=
| NodeHost (id : PortableDefinitionRef)
| NodeSelfType (id : PortableDefinitionRef)
| NodeParameter (owner : PortableDefinitionRef) (position : nat)
| NodeBuiltin (kind : BuiltinType)
| NodeTuple (count : Z)
| NodeFunction (count : Z)
| NodeIter
| NodeRange (kind : RangeKind)
| NodeArray
| NodeMap (access : CollectionAccess)
| NodeSet (access : CollectionAccess)
| NodeStruct (id : PortableDefinitionRef) (count : Z)
| NodeNativeObject (id : PortableDefinitionRef) (count : Z)
| NodeEnum (id : PortableDefinitionRef) (count : Z)
| NodeTrait (id : PortableDefinitionRef) (count : Z) (bindings : list PortableDefinitionRef)
| NodeProjection (member_arguments : Z) (member owner : PortableDefinitionRef) (arguments : Z)
    (bindings : list PortableDefinitionRef)
| NodeReference (access : ReferenceAccess).
Record WireType : Set := { wt_nodes : list Node }.

(** [len() as u32]. *)
Definition count_u32 {A} (l : list A) : Z := zlen l mod 2 ^ 32.

(** ** Encoding *)
(** [sort_by] is stable: an entry goes after those with the same key. *)
Fixpoint insert_sorted {B} (x : PortableDefinitionRef * B) (l : list (PortableDefinitionRef * B)) :
    list (PortableDefinitionRef * B) :=
  match l with
  | [] => [x]
  | y :: l => if fst x <? fst y then x :: y :: l else y :: insert_sorted x l
  end.
Definition sort_bindings {B} (l : list (PortableDefinitionRef * B)) : list (PortableDefinitionRef * B) :=
  fold_left (λ sorted x, insert_sorted x sorted) l [].
(** [windows(2).any(|pair| pair[0].0 == pair[1].0)]. *)
Fixpoint adjacent_equal {B} (l : list (PortableDefinitionRef * B)) : bool :=
  match l with
  | x :: ((y :: _) as l) => (fst x =? fst y) || adjacent_equal l
  | _ => false
  end.
Section encode.
  Context (convert : DefinitionId → result PortableDefinitionRef DefinitionTableError).

Definition ordered_bindings (bindings : list (DefinitionId * Ty)) : TM Walk (list (PortableDefinitionRef * Ty)) :=
  let% pairs := collect (λ '(id, ty), let% j := converted (convert id) in tret (j, ty)) bindings in
  let sorted := sort_bindings pairs in
  if adjacent_equal sorted then tfail TypeInvalidContract else tret sorted.

(** The node of a type, and the types it pushes in the order they are popped. *)
Definition node_of (ty : Ty) : TM Walk (Node * list Ty) :=
  match ty with
  | TyReference target access => tret (NodeReference access, [target])
  | TyHost id => let% id := converted (convert id) in tret (NodeHost id, [])
  | TySelfType id => let% id := converted (convert id) in tret (NodeSelfType id, [])
  | TyParameter owner position => let% owner := converted (convert owner) in tret (NodeParameter owner position, [])
  | TyBuiltin kind => tret (NodeBuiltin kind, [])
  | TyTuple elements => tret (NodeTuple (count_u32 elements), elements)
  | TyFunction params result => tret (NodeFunction (count_u32 params), params ++ [result])
  | TyRange element kind => tret (NodeRange kind, [element])
  | TyIter element => tret (NodeIter, [element])
  | TyArray element => tret (NodeArray, [element])
  | TyMap key value access => tret (NodeMap access, [key; value])
  | TySet element access => tret (NodeSet access, [element])
  | TyNativeObject nominal =>
      let% id := converted (convert (nominal_declaration nominal)) in
      tret (NodeNativeObject id (count_u32 (nominal_arguments nominal)), nominal_arguments nominal)
  | TyStruct nominal =>
      let% id := converted (convert (nominal_declaration nominal)) in
      tret (NodeStruct id (count_u32 (nominal_arguments nominal)), nominal_arguments nominal)
  | TyEnum ty =>
      let% id := converted (convert (nominal_declaration ty)) in
      tret (NodeEnum id (count_u32 (nominal_arguments ty)), nominal_arguments ty)
  | TyTrait ty =>
      let% bindings := ordered_bindings (nominal_associated ty) in
      let% id := converted (convert (nominal_declaration ty)) in
      tret (NodeTrait id (count_u32 (nominal_arguments ty)) (map fst bindings),
            nominal_arguments ty ++ map snd bindings)
  | TyProjection arguments receiver interface member =>
      let% bindings := ordered_bindings (nominal_associated interface) in
      let% member := converted (convert member) in
      let% owner := converted (convert (nominal_declaration interface)) in
      tret (NodeProjection (count_u32 arguments) member owner (count_u32 (nominal_arguments interface)) (map fst bindings),
            receiver :: (nominal_arguments interface ++ map snd bindings) ++ arguments)
  end.

(** The loop of [wire_nodes_with]; the head of [pending] is the end of the vector. *)
Fixpoint wire_loop (fuel : nat) (pending : list (Ty * Z)) (nodes : list Node) : TM Walk (list Node) :=
  match fuel with
  | O => tfuel
  | S fuel =>
      match pending with
      | [] => tret nodes
      | (ty, depth) :: pending =>
          walk_live ;;%
          Shape.enter ty depth ;;%
          let% '(node, pushed) := node_of ty in
          let pending := map (λ ty, (ty, depth + 1)) pushed ++ pending in
          let nodes := nodes ++ [node] in
          if MAX_TYPE_NODES <? zlen nodes + zlen pending then tfail TypeLimitExceeded
          else wire_loop fuel pending nodes
      end
  end.
(** The budget refuses the node after the limit, and one round more sees the stack empty. *)
Definition WIRE_FUEL : nat := Z.to_nat (MAX_TYPE_NODES + 2).
Definition wire_nodes_with (ty : Ty) : TM CancellationToken (list Node) :=
  walking 0 (wire_loop WIRE_FUEL [(ty, 1)] []).
End encode.
Definition encode (ty : Ty) (encoding : DefinitionEncoding) : TM CancellationToken WireType :=
  let% nodes := wire_nodes_with (reference encoding) ty in tret {| wt_nodes := nodes |}.

(** ** Decoding *)
(** The derived order of [DefinitionId]. *)
Definition id_lt (a b : DefinitionId) : bool :=
  (def_table a <? def_table b) || (def_table a =? def_table b) && (def_index a <? def_index b).
(** [BTreeMap::insert], with the entries in the order of their keys; [None] when the key was bound. *)
Fixpoint btree_insert (id : DefinitionId) (ty : Ty) (map : list (DefinitionId * Ty)) : option (list (DefinitionId * Ty)) :=
  match map with
  | [] => Some [(id, ty)]
  | (id', ty') :: rest =>
      if bool_decide (id = id') then None
      else if id_lt id id' then Some ((id, ty) :: map)
      else (λ rest, (id', ty') :: rest) <$> btree_insert id ty rest
  end.

Record Reader : Set := { r_nodes : list Node; r_cancel : CancellationToken }.
Definition reader_live : TM Reader unit :=
  λ s, match token_live (r_cancel s) with
       | Ok (_, k) => Ok (tt, {| r_nodes := r_nodes s; r_cancel := k |})
       | Err e => Err e
       end.
(** [nodes.next().ok_or(InvalidContract)?]. *)
Definition next_node : TM Reader Node :=
  λ s, match r_nodes s with
       | [] => Err (TypeError TypeInvalidContract)
       | node :: rest => Ok (node, {| r_nodes := rest; r_cancel := r_cancel s |})
       end.
Definition nodes_left : TM Reader Z := λ s, Ok (zlen (r_nodes s), s).

Section decode.
  Context (convert : PortableDefinitionRef → result DefinitionId DefinitionTableError).

(** [(0..count).map(|_| ..).collect()]. *)
Definition children_with (child : TM Reader Ty) (count : Z) : TM Reader (list Ty) :=
  let% left_ := nodes_left in
  if left_ <? count then tfail TypeInvalidContract else collect (λ _, child) (seq 0 (Z.to_nat count)).
Fixpoint bindings_with (child : TM Reader Ty) (previous : option PortableDefinitionRef)
    (bindings : list PortableDefinitionRef) (associated : list (DefinitionId * Ty)) : TM Reader (list (DefinitionId * Ty)) :=
  match bindings with
  | [] => tret associated
  | r :: bindings =>
      if match previous with Some p => r <=? p | None => false end then tfail TypeInvalidContract
      else
        let% id := converted (convert r) in
        let% ty := child in
        match btree_insert id ty associated with
        | None => tfail TypeInvalidContract
        | Some associated => bindings_with child (Some r) bindings associated
        end
  end.

Fixpoint build (fuel : nat) (depth : Z) : TM Reader Ty :=
  match fuel with
  | O => tfuel
  | S fuel =>
      let child := build fuel (depth + 1) in
      let children := children_with child in
      reader_live ;;%
      if MAX_TYPE_DEPTH <? depth then tfail TypeLimitExceeded
      else
        let% next := next_node in
        match next with
        | NodeReference access => let% target := child in tret (TyReference target access)
        | NodeHost id => let% id := converted (convert id) in tret (TyHost id)
        | NodeSelfType id => let% id := converted (convert id) in tret (TySelfType id)
        | NodeParameter owner position => let% owner := converted (convert owner) in tret (TyParameter owner position)
        | NodeBuiltin kind => tret (TyBuiltin kind)
        | NodeTuple count => let% items := children count in tret (TyTuple items)
        | NodeFunction count =>
            let% params := children count in
            let% result := child in
            tret (TyFunction params result)
        | NodeRange kind => let% item := child in tret (TyRange item kind)
        | NodeIter => let% item := child in tret (TyIter item)
        | NodeArray => let% item := child in tret (TyArray item)
        | NodeMap access =>
            let% key := child in
            let% value := child in
            tret (TyMap key value access)
        | NodeSet access => let% item := child in tret (TySet item access)
        | NodeStruct id count =>
            let% declaration := converted (convert id) in
            let% arguments := children count in
            tret (TyStruct (Nominal declaration arguments []))
        | NodeNativeObject id count =>
            let% declaration := converted (convert id) in
            let% arguments := children count in
            tret (TyNativeObject (Nominal declaration arguments []))
        | NodeEnum id count =>
            let% declaration := converted (convert id) in
            let% arguments := children count in
            tret (TyEnum (Nominal declaration arguments []))
        | NodeTrait id count bindings =>
            let% arguments := children count in
            let% associated_types := bindings_with child None bindings [] in
            let% declaration := converted (convert id) in
            tret (TyTrait (Nominal declaration arguments associated_types))
        | NodeProjection member_arguments member owner arguments bindings =>
            let% receiver := child in
            let% arguments := children arguments in
            let% associated_types := bindings_with child None bindings [] in
            let% member_arguments := children member_arguments in
            let% declaration := converted (convert owner) in
            let% member := converted (convert member) in
            tret (TyProjection member_arguments receiver (Nominal declaration arguments associated_types) member)
        end
  end.
End decode.
Definition decode (self : WireType) (decoding : DefinitionDecoding) : TM CancellationToken Ty :=
  λ k, match build (resolve decoding) Shape.FUEL 1 {| r_nodes := wt_nodes self; r_cancel := k |} with
       | Ok (ty, s) => match r_nodes s with [] => Ok (ty, r_cancel s) | _ => Err (TypeError TypeInvalidContract) end
       | Err e => Err e
       end.
End Wire.

Import Wire.

(** ** Sorting *)
Section sort_by.
  Context {A : Type} (key : A → Z).

Fixpoint insert_by (x : A) (l : list A) : list A :=
  match l with [] => [x] | y :: l => if key x <? key y then x :: y :: l else y :: insert_by x l end.
Definition sort_by (l : list A) : list A := fold_left (λ sorted x, insert_by x sorted) l [].
Definition key_lt (x y : A) : Prop := key x < key y.
Lemma insert_by_perm x l : insert_by x l ≡ₚ x :: l.
Proof. induction l as [|y l IH]; simpl; [done|]. destruct (_ <? _); [done|]. rewrite IH. apply Permutation_swap. Qed.
Lemma sort_by_perm l : sort_by l ≡ₚ l.
Proof.
  unfold sort_by. assert (∀ acc, fold_left (λ sorted x, insert_by x sorted) l acc ≡ₚ l ++ acc) as H.
  { induction l as [|x l IH]; intros acc; simpl; [done|]. rewrite IH, insert_by_perm.
    symmetry. apply Permutation_middle. }
  rewrite H. by rewrite app_nil_r.
Qed.
Lemma insert_by_sorted x l : StronglySorted key_lt l → Forall (λ y, key x ≠ key y) l → StronglySorted key_lt (insert_by x l).
Proof.
  induction 1 as [|y l Hl IH Hy]; intros Hx; simpl; [by repeat constructor|].
  apply Forall_cons_iff in Hx as [Hxy Hx]. destruct (_ <? _) eqn:E.
  - constructor; [by constructor|]. constructor; [unfold key_lt; lia|]. revert Hy. apply Forall_impl. unfold key_lt. lia.
  - constructor; [by apply IH|]. rewrite insert_by_perm. constructor; [unfold key_lt; lia|done].
Qed.
Lemma sort_by_sorted l : NoDup (map key l) → StronglySorted key_lt (sort_by l).
Proof.
  unfold sort_by. assert (∀ acc, NoDup (map key l) → StronglySorted key_lt acc →
    Forall (λ x, Forall (λ y, key x ≠ key y) acc) l → StronglySorted key_lt (fold_left (λ s x, insert_by x s) l acc)) as H.
  { induction l as [|x l IH]; intros acc Hn Ha Hf; simpl; [done|]. simpl in Hn. inversion Hn as [|? ? Hx Hn']; subst.
    apply Forall_cons_iff in Hf as [Hfx Hf]. apply IH; [done|by apply insert_by_sorted|].
    apply List.Forall_forall. intros z Hz. rewrite insert_by_perm. constructor.
    - intros E. apply Hx. rewrite <- E. apply list_elem_of_In, in_map, Hz.
    - rewrite List.Forall_forall in Hf. by apply Hf. }
  intros Hn. apply H; [done|constructor|]. apply List.Forall_forall. constructor.
Qed.
End sort_by.
Lemma insert_by_map {A B} (key : B → Z) (f : A → B) x l :
  insert_by key (f x) (map f l) = map f (insert_by (λ a, key (f a)) x l).
Proof. induction l as [|y l IH]; simpl; [done|]. destruct (_ <? _); [done|]. simpl. by rewrite IH. Qed.
Lemma sort_by_map {A B} (key : B → Z) (f : A → B) l : sort_by key (map f l) = map f (sort_by (λ a, key (f a)) l).
Proof.
  unfold sort_by. change (@nil B) with (map f []). generalize (@nil A). induction l as [|x l IH]; intros acc; simpl; [done|].
  by rewrite insert_by_map, IH.
Qed.
Lemma sort_bindings_by {B} (l : list (PortableDefinitionRef * B)) : sort_bindings l = sort_by fst l.
Proof.
  assert (∀ (x : PortableDefinitionRef * B) l, insert_sorted x l = insert_by fst x l) as H.
  { intros x s. induction s as [|y s IH]; simpl; [done|]. by rewrite IH. }
  assert (∀ acc, fold_left (λ sorted x, insert_sorted x sorted) l acc = fold_left (λ sorted x, insert_by fst x sorted) l acc)
    as Hf; [|apply Hf]. induction l as [|x l IH]; intros acc; simpl; [done|]. by rewrite H, IH.
Qed.
Lemma adjacent_sorted {B} (l : list (PortableDefinitionRef * B)) : StronglySorted (key_lt fst) l → adjacent_equal l = false.
Proof.
  induction 1 as [|x l Hl IH Hx]; [done|]. destruct l as [|y l]; [done|].
  apply Forall_cons_iff in Hx as [Hx _]. unfold key_lt in Hx. apply orb_false_iff. split; [apply Z.eqb_neq, Z.lt_neq, Hx|done].
Qed.

(** ** Maps in the order of their keys *)
Definition entry_lt (x y : DefinitionId * Ty) : Prop := id_lt x.1 y.1 = true.
Lemma id_lt_spec a b : id_lt a b = true ↔
  def_table a < def_table b ∨ def_table a = def_table b ∧ def_index a < def_index b.
Proof. unfold id_lt. rewrite orb_true_iff, andb_true_iff. lia. Qed.
Lemma id_lt_total a b : a ≠ b → id_lt a b = false → id_lt b a = true.
Proof.
  intros Hn H. apply not_true_iff_false in H. rewrite id_lt_spec in *. destruct a as [t i], b as [t' i']. simpl in *.
  assert (t ≠ t' ∨ i ≠ i'); [|lia]. destruct (decide (t = t')) as [->|]; [|by left]. right. by intros ->.
Qed.
#[export] Instance entry_lt_antisym : AntiSymm (=) entry_lt.
Proof. intros x y H1 H2. unfold entry_lt in *. rewrite id_lt_spec in *. lia. Qed.
Lemma btree_insert_spec id t l : StronglySorted entry_lt l → Forall (λ e, id ≠ e.1) l →
  ∃ l', btree_insert id t l = Some l' ∧ l' ≡ₚ (id, t) :: l ∧ StronglySorted entry_lt l'.
Proof.
  induction 1 as [|[i u] l Hl IH Hi]; intros Hf; simpl.
  - eexists. split; [done|]. split; [done|]. by repeat constructor.
  - apply Forall_cons_iff in Hf as [Hn Hf]. simpl in Hn. rewrite bool_decide_false by done. destruct (id_lt id i) eqn:E.
    + eexists. split; [done|]. split; [done|]. constructor; [by constructor|]. constructor; [done|]. revert Hi.
      apply Forall_impl. intros [j v]. unfold entry_lt. simpl. rewrite !id_lt_spec. apply id_lt_spec in E. lia.
    + destruct (IH Hf) as (l' & -> & Hp & Hs). eexists. split; [done|]. split; [rewrite Hp; apply Permutation_swap|].
      constructor; [done|]. rewrite Hp. constructor; [|done]. unfold entry_lt. simpl. by apply id_lt_total.
Qed.

(** ** The reference *)
(** The definitions a node names itself. *)
Definition nominal_ids (n : NominalTy) : list DefinitionId := nominal_declaration n :: map fst (nominal_associated n).
Definition ids_here (ty : Ty) : list DefinitionId :=
  match ty with
  | TyHost id | TySelfType id | TyParameter id _ => [id]
  | TyStruct n | TyNativeObject n | TyEnum n | TyTrait n => nominal_ids n
  | TyProjection _ _ n member => member :: nominal_ids n
  | _ => []
  end.
(** The outputs of a nominal are a map: its entries are in the order of distinct keys. *)
Fixpoint ordered_keys (l : list (DefinitionId * Ty)) : bool :=
  match l with
  | x :: ((y :: _) as l) => id_lt (fst x) (fst y) && ordered_keys l
  | _ => true
  end.
Definition map_here (ty : Ty) : bool :=
  match ty with
  | TyStruct n | TyNativeObject n | TyEnum n | TyTrait n | TyProjection _ _ n _ => ordered_keys (nominal_associated n)
  | _ => true
  end.
Definition canonical : Ty → bool := every map_here.

Section reference.
  Context (c : DefinitionId → PortableDefinitionRef) (ρ : DefinitionId → DefinitionId).

Definition sort_outputs {B} (l : list (DefinitionId * B)) : list (DefinitionId * B) := sort_by (λ e, c (fst e)) l.
Definition outputs_wire (l : list (DefinitionId * list Node)) : list Node := concat (map snd (sort_outputs l)).
Definition outputs_refs {B} (l : list (DefinitionId * B)) : list PortableDefinitionRef := map (λ e, c (fst e)) (sort_outputs l).

Fixpoint wire_of (ty : Ty) : list Node :=
  match ty with
  | TyReference t access => NodeReference access :: wire_of t
  | TyHost id => [NodeHost (c id)]
  | TySelfType id => [NodeSelfType (c id)]
  | TyParameter owner position => [NodeParameter (c owner) position]
  | TyBuiltin kind => [NodeBuiltin kind]
  | TyTuple items => NodeTuple (count_u32 items) :: concat (map wire_of items)
  | TyFunction params result => NodeFunction (count_u32 params) :: concat (map wire_of params) ++ wire_of result
  | TyRange t kind => NodeRange kind :: wire_of t
  | TyIter t => NodeIter :: wire_of t
  | TyArray t => NodeArray :: wire_of t
  | TyMap key value access => NodeMap access :: wire_of key ++ wire_of value
  | TySet t access => NodeSet access :: wire_of t
  | TyStruct n =>
      NodeStruct (c (nominal_declaration n)) (count_u32 (nominal_arguments n)) :: wire_nominal n
  | TyNativeObject n =>
      NodeNativeObject (c (nominal_declaration n)) (count_u32 (nominal_arguments n)) :: wire_nominal n
  | TyEnum n =>
      NodeEnum (c (nominal_declaration n)) (count_u32 (nominal_arguments n)) :: wire_nominal n
  | TyTrait n =>
      NodeTrait (c (nominal_declaration n)) (count_u32 (nominal_arguments n)) (outputs_refs (nominal_associated n))
      :: wire_nominal n
  | TyProjection arguments receiver n member =>
      NodeProjection (count_u32 arguments) (c member) (c (nominal_declaration n)) (count_u32 (nominal_arguments n))
        (outputs_refs (nominal_associated n))
      :: wire_of receiver ++ wire_nominal n ++ concat (map wire_of arguments)
  end
with wire_nominal (n : NominalTy) : list Node :=
  match n with
  | Nominal _ arguments associated =>
      concat (map wire_of arguments) ++ outputs_wire (map (λ '(id, t), (id, wire_of t)) associated)
  end.

(** A type in the scope of another table. *)
Definition put (id : DefinitionId) (ty : Ty) (l : list (DefinitionId * Ty)) : list (DefinitionId * Ty) :=
  default l (btree_insert id ty l).
Definition in_order (l : list (DefinitionId * Ty)) : list (DefinitionId * Ty) := foldr (λ '(id, t), put id t) [] l.
Fixpoint rename (ty : Ty) : Ty :=
  match ty with
  | TyReference t access => TyReference (rename t) access
  | TyHost id => TyHost (ρ id)
  | TySelfType id => TySelfType (ρ id)
  | TyParameter owner position => TyParameter (ρ owner) position
  | TyBuiltin kind => TyBuiltin kind
  | TyTuple items => TyTuple (map rename items)
  | TyFunction params result => TyFunction (map rename params) (rename result)
  | TyRange t kind => TyRange (rename t) kind
  | TyIter t => TyIter (rename t)
  | TyArray t => TyArray (rename t)
  | TyMap key value access => TyMap (rename key) (rename value) access
  | TySet t access => TySet (rename t) access
  | TyStruct n => TyStruct (rename_nominal n)
  | TyNativeObject n => TyNativeObject (rename_nominal n)
  | TyEnum n => TyEnum (rename_nominal n)
  | TyTrait n => TyTrait (rename_nominal n)
  | TyProjection arguments receiver n member =>
      TyProjection (map rename arguments) (rename receiver) (rename_nominal n) (ρ member)
  end
with rename_nominal (n : NominalTy) : NominalTy :=
  match n with
  | Nominal d arguments associated =>
      Nominal (ρ d) (map rename arguments) (in_order (map (λ '(id, t), (ρ id, rename t)) associated))
  end.

Lemma wire_nominal_kids n :
  wire_nominal n = concat (map wire_of (nominal_arguments n ++ map snd (sort_outputs (nominal_associated n)))).
Proof.
  destruct n as [d args assoc]. cbn [wire_nominal nominal_arguments nominal_associated].
  rewrite map_app, concat_app. f_equal. unfold outputs_wire, sort_outputs.
  rewrite sort_by_map, !map_map. f_equal.
  assert (sort_by (λ a : DefinitionId * Ty, c (fst (let '(id, t) := a in (id, wire_of t)))) assoc
    = sort_by (λ e, c e.1) assoc) as ->.
  { unfold sort_by. generalize (@nil (DefinitionId * Ty)). induction assoc as [|x l IH]; intros acc; simpl; [done|].
    rewrite IH. f_equal. induction acc as [|y acc IHa]; simpl; [done|]. destruct x, y. simpl. by rewrite IHa. }
  apply map_ext. by intros [].
Qed.
End reference.

(** ** Encoding *)
Lemma sort_by_ext {A} (k1 k2 : A → Z) l : (∀ a, k1 a = k2 a) → sort_by k1 l = sort_by k2 l.
Proof.
  intros Hk. unfold sort_by. generalize (@nil A). induction l as [|x l IH]; intros acc; simpl; [done|].
  rewrite IH. f_equal. induction acc as [|y acc IHa]; simpl; [done|]. by rewrite !Hk, IHa.
Qed.
Lemma ordered_keys_sorted l : ordered_keys l = true → StronglySorted entry_lt l.
Proof.
  intros H. apply Sorted_StronglySorted.
  - intros x y z H1 H2. unfold entry_lt in *. rewrite !id_lt_spec in *. lia.
  - induction l as [|x l IH]; [constructor|]. constructor.
    + apply IH. destruct l; [done|]. by apply andb_true_iff in H as [_ ?].
    + destruct l; constructor. by apply andb_true_iff in H as [? _].
Qed.
Lemma ordered_keys_nodup l : ordered_keys l = true → NoDup (map fst l).
Proof.
  intros H%ordered_keys_sorted. induction H as [|x l Hl IH Hx]; simpl; constructor; [|done].
  intros (y & Hy & Hin)%list_elem_of_fmap. rewrite List.Forall_forall in Hx.
  apply list_elem_of_In in Hin. apply Hx in Hin. unfold entry_lt in Hin. rewrite Hy, id_lt_spec in Hin. lia.
Qed.
Section encoding.
  Context (convert : DefinitionId → result PortableDefinitionRef DefinitionTableError).
  Context (c : DefinitionId → PortableDefinitionRef) (P : DefinitionId → bool).
  Hypothesis convert_ok : ∀ id, P id = true → convert id = Ok (c id).
  Hypothesis c_inj : ∀ a b, P a = true → P b = true → c a = c b → a = b.

Definition named : Ty → bool := every (λ t, forallb P (ids_here t)).
Lemma sorted_outputs {B} (l : list (DefinitionId * B)) : NoDup (map fst l) → forallb P (map fst l) = true →
  StronglySorted (key_lt (λ e, c (fst e))) (sort_outputs c l).
Proof.
  intros Hn HP. apply sort_by_sorted. rewrite <- (map_map fst c). apply NoDup_ListNoDup in Hn. apply NoDup_ListNoDup.
  rewrite forallb_forall in HP. induction Hn as [|x k Hx Hn IH]; simpl; constructor.
  - intros (y & Hy & Hin)%in_map_iff. apply Hx. apply c_inj in Hy; [by subst|by apply HP; right|by apply HP; left].
  - apply IH. intros y Hy. apply HP. by right.
Qed.
Lemma ordered_bindings_spec l w : NoDup (map fst l) → forallb P (map fst l) = true →
  ordered_bindings convert l w = Ok (map (λ '(id, t), (c id, t)) (sort_outputs c l), w).
Proof.
  intros Hn HP. unfold ordered_bindings.
  assert (∀ w : Walk, collect (λ e : DefinitionId * Ty, let '(id, ty) := e in
      let% j := converted (convert id) in tret (j, ty)) l w
    = Ok (map (λ '(id, t), (c id, t)) l, w)) as Hc.
  { clear Hn. induction l as [|[id t] l IH]; intros w'; [done|]. cbn [map forallb fst] in HP. apply andb_true_iff in HP as [H1 H2].
    cbn [collect map]. unfold tbind at 1 2, converted. rewrite convert_ok by done. unfold tret at 1.
    unfold tbind. by rewrite IH. }
  unfold tbind at 1. rewrite Hc. rewrite sort_bindings_by, sort_by_map.
  rewrite (sort_by_ext _ (λ e, c (fst e))) by (by intros []). fold (sort_outputs c l).
  rewrite adjacent_sorted; [done|].
  pose proof (sorted_outputs l Hn HP) as H. induction H as [|x k Hk IH Hx]; simpl; constructor; [done|].
  apply List.Forall_forall. intros [r t] ([id t'] & [= <- <-] & Hin)%in_map_iff.
  rewrite List.Forall_forall in Hx. apply Hx in Hin. destruct x. apply Hin.
Qed.
Lemma outputs_pairs (l : list (DefinitionId * Ty)) :
  map fst (map (λ '(id, t), (c id, t)) (sort_outputs c l)) = outputs_refs c l
  ∧ map snd (map (λ '(id, t), (c id, t)) (sort_outputs c l)) = map snd (sort_outputs c l).
Proof. split; rewrite map_map; apply map_ext; by intros []. Qed.
Lemma outputs_perm n :
  nominal_arguments n ++ map snd (sort_outputs c (nominal_associated n)) ≡ₚ nominal_arguments n ++ associated_values n.
Proof. apply Permutation_app_head, Permutation_map, sort_by_perm. Qed.
Lemma bare_outputs n : match nominal_associated n with [] => true | _ => false end = true →
  wire_nominal c n = concat (map (wire_of c) (nominal_arguments n)) ∧ nominal_arguments n ++ associated_values n = nominal_arguments n.
Proof.
  rewrite wire_nominal_kids. unfold associated_values. destruct (nominal_associated n); [|done]. simpl. by rewrite app_nil_r.
Qed.
Lemma node_of_spec ty w : plain_here ty = true → map_here ty = true → forallb P (ids_here ty) = true →
  ∃ node pushed, node_of convert ty w = Ok ((node, pushed), w)
    ∧ wire_of c ty = node :: concat (map (wire_of c) pushed) ∧ pushed ≡ₚ ty_children ty.
Proof.
  intros Hp Hm HP.
  destruct ty; cbn [plain_here map_here ids_here nominal_ids forallb] in *; cbn [node_of wire_of ty_children];
    rewrite ?andb_true_iff in HP; destruct_and?; unfold tbind, converted.
  all: repeat (rewrite convert_ok by done).
  all: try (eexists _, _; split; [done|]; split; [|done]; simpl; rewrite ?app_nil_r; done).
  - rewrite ordered_bindings_spec by (done || by apply ordered_keys_nodup). destruct (outputs_pairs (nominal_associated interface)) as [-> ->].
    eexists _, _. split; [done|]. rewrite wire_nominal_kids. split.
    + cbn [map concat]. by rewrite (map_app _ (nominal_arguments interface ++ _) arguments), concat_app.
    + constructor. apply Permutation_app_tail, outputs_perm.
  - eexists _, _. split; [done|]. split; [|done]. rewrite map_app, concat_app. simpl. by rewrite app_nil_r.
  - destruct (bare_outputs _ Hp) as [-> ->]. eexists _, _. done.
  - destruct (bare_outputs _ Hp) as [-> ->]. eexists _, _. done.
  - destruct (bare_outputs _ Hp) as [-> ->]. eexists _, _. done.
  - rewrite ordered_bindings_spec by (done || by apply ordered_keys_nodup). destruct (outputs_pairs (nominal_associated ty)) as [-> ->].
    eexists _, _. split; [done|]. rewrite wire_nominal_kids. split; [done|apply outputs_perm].
Qed.

(** What is pending fits after [n] nodes. *)
Definition roomy (n : Z) (pending : list (Ty * Z)) : Prop :=
  Forall (λ '(t, d), plain t = true ∧ d + height t ≤ MAX_TYPE_DEPTH + 1) pending
  ∧ n + total (map fst pending) ≤ MAX_TYPE_NODES.
Lemma roomy_step n t d pushed pending : pushed ≡ₚ ty_children t →
  roomy n ((t, d) :: pending) ↔
  plain_here t = true ∧ d ≤ MAX_TYPE_DEPTH ∧ roomy (n + 1) (map (λ t, (t, d + 1)) pushed ++ pending).
Proof.
  intros Hp. unfold roomy. rewrite Forall_cons_iff, Forall_app, map_app, total_app, map_map. cbn [map fst].
  rewrite map_id, total_cons, (total_perm _ _ Hp).
  pose proof (room_children d n t) as H. unfold room in H. rewrite Forall_singleton in H.
  pose proof (nodes_children t) as Hn. unfold total.
  assert (Forall (λ '(t, d0), plain t = true ∧ d0 + height t ≤ MAX_TYPE_DEPTH + 1) (map (λ t, (t, d + 1)) pushed) ↔
    Forall (λ t, plain t = true ∧ d + 1 + height t ≤ MAX_TYPE_DEPTH + 1) (ty_children t)) as Hf.
  { rewrite <- Hp. rewrite Forall_map. done. }
  rewrite Hf. cbn [map] in H. rewrite zsum_cons, zsum_nil in H. clear Hf Hp.
  pose proof (zsum_all_nonneg (ty_children t)). pose proof (total_nonneg (map fst pending)). unfold total in *.
  split; intros; destruct_and?.
  - destruct (proj1 H) as (? & ? & ? & _); [split; [done|lia]|]. split_and!; try done; lia.
  - destruct (proj2 H) as ((? & ?) & _); [split_and!; [done|done|done|lia]|]. split_and!; try done; lia.
Qed.

Definition ready_to_write (pending : list (Ty * Z)) : Prop :=
  Forall (λ t, canonical t = true ∧ named t = true) (map fst pending).
Lemma ready_children t : canonical t = true → named t = true →
  Forall (λ t, canonical t = true ∧ named t = true) (ty_children t).
Proof.
  unfold canonical, named. rewrite !every_children, !andb_true_iff, !forallb_forall. intros [_ H1] [_ H2].
  apply List.Forall_forall. auto.
Qed.
Lemma wire_loop_spec fuel pending acc w :
  ready_to_write pending → zlen acc = w_count w → w_count w ≤ MAX_TYPE_NODES →
  MAX_TYPE_NODES + 2 - w_count w ≤ Z.of_nat fuel →
  twp (wire_loop convert fuel pending acc)
    (λ r w', r = acc ++ concat (map (wire_of c) (map fst pending)) ∧ roomy (w_count w) pending
             ∧ follows (w_cancel w) (w_cancel w'))
    (λ e, e = TypeCancelled ∧ w_cancel w ≠ None ∨ e ≠ TypeCancelled ∧ ¬ roomy (w_count w) pending) w.
Proof.
  revert pending acc w. induction fuel as [|fuel IH]; intros pending acc w Hr Ha Hw Hf; [lia|].
  destruct pending as [|[t d] pending]; cbn [wire_loop].
  { apply twp_ret. split; [simpl; by rewrite app_nil_r|]. split; [|apply follows_refl]. split; [constructor|].
    cbn [map]. unfold total. cbn [map]. rewrite zsum_nil. lia. }
  apply Forall_cons_iff in Hr as [[Hcan Hnam] Hr]. simpl in Hcan, Hnam.
  apply twp_bind, twp_walk_live; [|by left]. intros w1 Hc1 Hk1.
  apply twp_bind. eapply twp_mono; [apply twp_enter; lia| |].
  2: { intros e [He Hn]. right. split; [done|]. rewrite Hc1 in Hn. intros [Hroom Ht]. apply Hn.
    apply Forall_cons_iff in Hroom as [? _]. split; [by constructor|]. cbn [map fst] in *. rewrite total_cons in Ht.
    pose proof (total_nonneg (map fst pending)). rewrite zsum_cons, zsum_nil. lia. }
  intros [] w2 (Hc2 & Hk2 & Hp & Hd & Hn2). rewrite Hc1 in Hc2. rewrite <- Hk2 in Hk1. clear Hk2.
  pose proof (ready_children t Hcan Hnam) as Hkids.
  unfold canonical, named in Hcan, Hnam. rewrite every_children, andb_true_iff in Hcan, Hnam.
  destruct (node_of_spec t w2 Hp (proj1 Hcan) (proj1 Hnam)) as (node & pushed & Hnode & Hwire & Hperm).
  apply twp_bind. unfold twp at 1. rewrite Hnode. cbv beta iota.
  assert (zlen (acc ++ [node]) = w_count w2) as Ha2 by (unfold zlen in *; rewrite length_app; simpl; lia).
  pose proof (roomy_step (w_count w) t d pushed pending Hperm) as Hstep. rewrite <- Hc2 in Hstep.
  set (next := map (λ ty, (ty, d + 1)) pushed ++ pending) in *.
  assert (map fst next = pushed ++ map fst pending) as Hnext
    by (unfold next; rewrite map_app, map_map; simpl; by rewrite map_id).
  destruct (_ <? _) eqn:E.
  { apply twp_fail. right. split; [done|]. rewrite Hstep. intros (_ & _ & [_ Ht]). rewrite Ha2 in E.
    pose proof (total_length (map fst next)) as Hlen. unfold zlen in *. rewrite length_map in Hlen. lia. }
  eapply twp_mono; [apply IH; [|done|done|lia]| |].
  - unfold ready_to_write. rewrite Hnext. apply Forall_app. split; [by rewrite Hperm|done].
  - intros r w3 (-> & Hroom & Hk3). split; [|split; [by apply Hstep|by eapply follows_trans]].
    rewrite Hnext, map_app, concat_app. cbn [map fst concat]. rewrite Hwire. by rewrite <- app_assoc.
  - intros e [[-> He]|[He Hn]]; [left|right]; (split; [done|]).
    + intros H. by apply He, Hk1.
    + rewrite Hstep. by intros (_ & _ & ?).
Qed.
Lemma wire_nodes_spec ty k : canonical ty = true → named ty = true →
  twp (wire_nodes_with convert ty) (λ r k', r = wire_of c ty ∧ fits ty ∧ follows k k')
    (λ e, e = TypeCancelled ∧ k ≠ None ∨ e ≠ TypeCancelled ∧ ¬ fits ty) k.
Proof.
  intros Hc Hn. apply twp_walking.
  assert (roomy 0 [(ty, 1)] ↔ fits ty) as Hroom.
  { rewrite <- room_one. unfold roomy, room, total. rewrite !Forall_singleton. done. }
  eapply twp_mono; [apply wire_loop_spec; [by constructor|done|done|done]| |].
  - intros r w (-> & Hr & Hk). split; [|split; [by apply Hroom|done]]. simpl. by rewrite app_nil_r.
  - intros e. cbn [w_count w_cancel]. by rewrite Hroom.
Qed.
End encoding.

(** ** Decoding *)
(** [m] reads exactly the nodes [l] and returns [a]. *)
Definition reads {A} (m : TM Reader A) (l : list Node) (a : A) : Prop := ∀ rest k,
  twp m (λ r s, r = a ∧ r_nodes s = rest ∧ follows k (r_cancel s)) (λ e, e = TypeCancelled ∧ k ≠ None)
    {| r_nodes := l ++ rest; r_cancel := k |}.
Lemma wire_ret {A} (a : A) : reads (tret a) [] a.
Proof. intros rest k. apply twp_ret. split_and!; [done|done|apply follows_refl]. Qed.
Lemma wire_bind {A B} (m : TM Reader A) (f : A → TM Reader B) l1 l2 a b :
  reads m l1 a → reads (f a) l2 b → reads (tbind m f) (l1 ++ l2) b.
Proof.
  intros Hm Hf rest k. rewrite <- app_assoc. apply twp_bind. eapply twp_mono; [apply Hm| |done].
  intros r [nodes k1] (-> & Hn & Hk). simpl in *. subst nodes. eapply twp_mono; [apply Hf| |].
  - intros r s (-> & ? & ?). split_and!; [done|done|by eapply follows_trans].
  - intros e [-> He]. split; [done|]. intros H. by apply He, Hk.
Qed.
Lemma reads_last {A B} (m : TM Reader A) (g : A → B) l a :
  reads m l a → reads (let% x := m in tret (g x)) l (g a).
Proof. intros Hm. rewrite <- (app_nil_r l). eapply wire_bind; [exact Hm|apply wire_ret]. Qed.
Lemma reads_skip {A B} (m : TM Reader A) (f : A → TM Reader B) l a b :
  reads m [] a → reads (f a) l b → reads (tbind m f) l b.
Proof. apply (wire_bind m f []). Qed.

Section decoding.
  Context (convert : PortableDefinitionRef → result DefinitionId DefinitionTableError).
  Context (c : DefinitionId → PortableDefinitionRef) (ρ : DefinitionId → DefinitionId) (P : DefinitionId → bool).
  Hypothesis resolve_ok : ∀ id, P id = true → convert (c id) = Ok (ρ id).
  Hypothesis ρ_inj : ∀ a b, P a = true → P b = true → ρ a = ρ b → a = b.
  Hypothesis c_inj : ∀ a b, P a = true → P b = true → c a = c b → a = b.

Lemma reads_converted id : P id = true → reads (converted (convert (c id))) [] (ρ id).
Proof.
  intros HP rest k. unfold converted, twp. rewrite resolve_ok by done. split_and!; [done|done|apply follows_refl].
Qed.
Lemma wire_length l : zlen l ≤ zlen (concat (map (wire_of c) l)).
Proof.
  unfold zlen. induction l as [|t l IH]; [done|]. cbn [map concat]. rewrite length_app.
  assert (1 ≤ length (wire_of c t))%nat by (destruct t; simpl; lia). simpl. lia.
Qed.
Lemma reads_collect (child : TM Reader Ty) l i :
  Forall (λ t, reads child (wire_of c t) (rename ρ t)) l →
  reads (collect (λ _, child) (seq i (length l))) (concat (map (wire_of c) l)) (map (rename ρ) l).
Proof.
  intros H. revert i. induction H as [|t l Ht _ IH]; intros i; [apply wire_ret|]. cbn [length seq collect map concat].
  eapply wire_bind; [exact Ht|]. apply (reads_last _ (cons (rename ρ t))), IH.
Qed.
Lemma reads_children (child : TM Reader Ty) l : zlen l ≤ MAX_TYPE_NODES →
  Forall (λ t, reads child (wire_of c t) (rename ρ t)) l →
  reads (children_with child (count_u32 l)) (concat (map (wire_of c) l)) (map (rename ρ) l).
Proof.
  intros Hl H rest k. unfold children_with. apply twp_bind. unfold twp at 1, nodes_left. cbn [r_nodes].
  assert (count_u32 l = zlen l) as -> by (apply Z.mod_small; unfold MAX_TYPE_NODES, zlen in *; lia).
  pose proof (wire_length l) as Hlen. destruct (_ <? _) eqn:E.
  { cbn [r_nodes] in E. unfold zlen in *. rewrite length_app in E. apply Z.ltb_lt in E. unfold PortableDefinitionRef in *. lia. }
  unfold zlen. rewrite Nat2Z.id. by apply reads_collect.
Qed.

(** The outputs of a nominal, read in the order of their references. *)
Definition renamed (e : DefinitionId * Ty) : DefinitionId * Ty := (ρ (fst e), rename ρ (snd e)).
Lemma reads_bindings (child : TM Reader Ty) l (previous : option PortableDefinitionRef) associated :
  StronglySorted (key_lt (λ e, c (fst e))) l →
  Forall (λ e, match previous with Some p => p < c (fst e) | None => True end) l →
  Forall (λ e, reads child (wire_of c (snd e)) (rename ρ (snd e))) l →
  forallb P (map fst l) = true → StronglySorted entry_lt associated →
  NoDup (map fst (map renamed l ++ associated)) →
  ∃ result, reads (bindings_with convert child previous (map (λ e, c (fst e)) l) associated)
              (concat (map (wire_of c) (map snd l))) result
    ∧ result ≡ₚ map renamed l ++ associated ∧ StronglySorted entry_lt result.
Proof.
  intros Hs. revert previous associated. induction Hs as [|[id t] l Hl IH Hx]; intros previous associated Hp Hr HP Ha Hn.
  { exists associated. split; [apply wire_ret|]. by split. }
  cbn [map concat fst snd bindings_with forallb] in *. apply Forall_cons_iff in Hp as [Hp _], Hr as [Hrt Hr].
  apply andb_true_iff in HP as [HPid HP]. simpl in Hp, Hrt.
  assert (match previous with Some p => c id <=? p | None => false end = false) as Hprev
    by (destruct previous; [apply Z.leb_gt; apply Hp|done]).
  apply NoDup_ListNoDup in Hn. simpl in Hn. inversion Hn as [|? ? Hid Hn']; subst. apply NoDup_ListNoDup in Hn'.
  destruct (btree_insert_spec (ρ id) (rename ρ t) associated Ha) as (next & Hins & Hperm & Hsort).
  { apply List.Forall_forall. intros e He Heq. apply Hid. rewrite map_app, in_app_iff. right. rewrite Heq. by apply in_map. }
  destruct (IH (Some (c id)) next) as (result & Hread & Hres & Hsorted); [|done|done|done| |].
  - revert Hx. apply Forall_impl. done.
  - rewrite Hperm, <- Permutation_middle. simpl. constructor; [|done]. by rewrite <- list_elem_of_In in Hid.
  - exists result. split; [|split; [|done]].
    + rewrite Hprev. eapply reads_skip; [by apply reads_converted|]. eapply wire_bind; [exact Hrt|]. by rewrite Hins.
    + rewrite Hres, Hperm. symmetry. apply Permutation_middle.
Qed.
Lemma in_order_spec l : NoDup (map fst l) → in_order l ≡ₚ l ∧ StronglySorted entry_lt (in_order l).
Proof.
  intros Hn. apply NoDup_ListNoDup in Hn. induction l as [|[id t] l IH]; [split; [done|constructor]|].
  simpl in Hn. inversion Hn as [|? ? Hid Hn']; subst. destruct (IH Hn') as [Hp Hs]. cbn [in_order foldr]. fold (in_order l).
  destruct (btree_insert_spec id t (in_order l) Hs) as (next & Hins & Hperm & Hsort).
  { rewrite Hp. apply List.Forall_forall. intros e He ->. apply Hid. by apply in_map. }
  unfold put. rewrite Hins. cbn [default]. split; [by rewrite Hperm, Hp|done].
Qed.
Lemma renamed_nodup (l : list (DefinitionId * Ty)) : NoDup (map fst l) → forallb P (map fst l) = true →
  NoDup (map fst (map renamed l)).
Proof.
  intros Hn HP. rewrite map_map. unfold renamed. cbn [fst]. rewrite <- (map_map fst ρ).
  apply NoDup_ListNoDup in Hn. apply NoDup_ListNoDup. rewrite forallb_forall in HP.
  induction Hn as [|x k Hx Hn IH]; simpl; constructor.
  - intros (y & Hy & Hin)%in_map_iff. apply Hx. apply ρ_inj in Hy; [by subst|by apply HP; right|by apply HP; left].
  - apply IH. intros y Hy. apply HP. by right.
Qed.
Lemma reads_outputs (child : TM Reader Ty) l : ordered_keys l = true → forallb P (map fst l) = true →
  Forall (λ t, reads child (wire_of c t) (rename ρ t)) (map snd l) →
  reads (bindings_with convert child None (outputs_refs c l) []) (concat (map (wire_of c) (map snd (sort_outputs c l))))
    (in_order (map (λ '(id, t), (ρ id, rename ρ t)) l)).
Proof.
  intros Ho HP Hr. pose proof (ordered_keys_nodup l Ho) as Hn. pose proof (sort_by_perm (λ e, c (fst e)) l) as Hperm.
  fold (sort_outputs c l) in Hperm.
  pose proof (renamed_nodup l Hn HP) as Hren.
  destruct (reads_bindings child (sort_outputs c l) None []) as (result & Hread & Hres & Hsorted).
  - by apply (sorted_outputs c P).
  - apply List.Forall_forall. done.
  - rewrite Hperm. rewrite Forall_map in Hr. done.
  - rewrite forallb_forall in *. intros x Hx. apply HP. revert Hx. apply Permutation_in. by rewrite Hperm.
  - constructor.
  - rewrite app_nil_r. by rewrite Hperm.
  - rewrite app_nil_r, Hperm in Hres. replace (in_order _) with result; [done|].
    replace (map (λ '(id, t), (ρ id, rename ρ t)) l) with (map renamed l) by (apply map_ext; by intros []).
    destruct (in_order_spec (map renamed l) Hren) as [Hp Hs].
    apply (StronglySorted_unique entry_lt); [done|done|]. by rewrite Hres, Hp.
Qed.
Lemma reads_node {B} d (f : Node → TM Reader B) node l b : d ≤ MAX_TYPE_DEPTH → reads (f node) l b →
  reads (reader_live ;;% if MAX_TYPE_DEPTH <? d then tfail TypeLimitExceeded else let% next := next_node in f next)
    (node :: l) b.
Proof.
  intros Hd Hf rest k. apply twp_bind. replace (MAX_TYPE_DEPTH <? d) with false by (symmetry; apply Z.ltb_ge; lia).
  pose proof (twp_live (λ _ k1, follows k k1) (λ e, e = TypeCancelled ∧ k ≠ None) k) as Hlive.
  unfold twp in *. unfold reader_live. cbn [r_cancel r_nodes].
  destruct (token_live k) as [[[] k1]|[e| |]]; [|by apply Hlive..]. specialize (Hlive (λ _ H, H) (λ H, conj eq_refl H)).
  specialize (Hf rest k1). unfold twp in Hf. unfold tbind at 1. unfold next_node. cbn [r_nodes r_cancel app].
  destruct (f node _) as [[r s]|[e| |]]; [|..]; try done.
  - destruct Hf as (? & ? & ?). split_and!; [done|done|by eapply follows_trans].
  - destruct Hf as [-> He]. split; [done|]. intros H. by apply He, Hlive.
Qed.
(** A type the decoder reads at depth [d]. *)
Definition readable (d : Z) (ty : Ty) : Prop :=
  plain ty = true ∧ d + height ty ≤ MAX_TYPE_DEPTH + 1 ∧ nodes ty ≤ MAX_TYPE_NODES ∧ canonical ty = true ∧ named P ty = true.
Lemma nodes_child t l : In t l → nodes t ≤ zsum (map nodes l).
Proof.
  induction l as [|x l IH]; [done|]. cbn [map]. rewrite zsum_cons. pose proof (nodes_pos x). pose proof (zsum_all_nonneg l).
  intros [->|Hin]; [lia|]. apply IH in Hin. lia.
Qed.
Lemma readable_children d ty : readable d ty → Forall (readable (d + 1)) (ty_children ty).
Proof.
  intros (Hp & Hh & Hn & Hc & Hm). pose proof (ready_children P ty Hc Hm) as Hk.
  pose proof (height_below d ty Hh) as Hb. rewrite plain_children, andb_true_iff, forallb_forall in Hp.
  rewrite nodes_children in Hn. rewrite List.Forall_forall in Hb, Hk. apply List.Forall_forall. intros t Ht.
  pose proof (nodes_child t _ Ht). destruct (Hk t Ht). split_and!; [by apply Hp|by apply Hb|lia|done|done].
Qed.
Ltac part Hlen := unfold zlen in *; cbn [length] in Hlen; rewrite ?length_app in Hlen; lia.
Lemma reads_bare (C : NominalTy → Ty) (child : TM Reader Ty) n :
  match nominal_associated n with [] => true | _ => false end = true → P (nominal_declaration n) = true →
  zlen (nominal_arguments n) ≤ MAX_TYPE_NODES →
  Forall (λ t, reads child (wire_of c t) (rename ρ t)) (nominal_arguments n) →
  reads (let% declaration := converted (convert (c (nominal_declaration n))) in
         let% arguments := children_with child (count_u32 (nominal_arguments n)) in
         tret (C (Nominal declaration arguments [])))
    (wire_nominal c n) (C (rename_nominal ρ n)).
Proof.
  intros Hb HP Hl Hr. destruct (bare_outputs c n Hb) as [-> _]. destruct n as [d args [|]]; [|done].
  eapply reads_skip; [by apply reads_converted|]. by apply (reads_last _ (λ x, C (Nominal (ρ d) x []))), reads_children.
Qed.
Lemma build_reads fuel d ty : MAX_TYPE_DEPTH + 2 - d ≤ Z.of_nat fuel → readable d ty →
  reads (build convert fuel d) (wire_of c ty) (rename ρ ty).
Proof.
  revert d ty. induction fuel as [|fuel IH]; intros d ty Hf Hr.
  { destruct Hr as (_ & Hh & _). pose proof (height_pos ty). lia. }
  pose proof (readable_children d ty Hr) as Hkids.
  assert (Forall (λ t, reads (build convert fuel (d + 1)) (wire_of c t) (rename ρ t)) (ty_children ty)) as Hread.
  { revert Hkids. apply Forall_impl. intros t. apply IH. lia. }
  clear IH Hkids. destruct Hr as (Hp & Hh & Hn & Hc & Hm). unfold canonical, named in Hc, Hm.
  rewrite plain_children, andb_true_iff in Hp. rewrite every_children, andb_true_iff in Hc, Hm.
  destruct Hp as [Hp _], Hc as [Hc _], Hm as [Hm _].
  assert (d ≤ MAX_TYPE_DEPTH) as Hd by (pose proof (height_pos ty); lia).
  assert (zlen (ty_children ty) ≤ MAX_TYPE_NODES) as Hlen.
  { pose proof (zsum_length (ty_children ty)). rewrite nodes_children in Hn. lia. }
  clear Hn Hh Hf. set (child := build convert fuel (d + 1)) in *.
  cbn [build]. fold child.
  destruct ty; cbn [wire_of rename plain_here map_here ids_here nominal_ids forallb ty_children] in *; apply reads_node; try done;
    rewrite ?andb_true_iff in Hm; destruct_and?; rewrite ?Forall_cons_iff, ?Forall_app in Hread.
  all: try (apply wire_ret).
  all: try (by apply (reads_last _ (λ x, _ x)); apply reads_converted).
  - destruct Hread as [Hrec [[Hargs Houts] Hmem]].
    rewrite wire_nominal_kids, map_app, concat_app, <- app_assoc. apply (wire_bind _ _ _ _ (rename ρ ty)); [done|].
    apply (wire_bind _ _ _ _ (map (rename ρ) (nominal_arguments interface))); [by apply reads_children; [part Hlen|]|].
    eapply wire_bind; [by apply reads_outputs|].
    rewrite <- (app_nil_r (concat (map (wire_of c) arguments))).
    apply (wire_bind _ _ _ _ (map (rename ρ) arguments)); [by apply reads_children; [part Hlen|]|].
    eapply reads_skip; [by apply reads_converted|]. destruct interface as [decl args assoc].
    by apply (reads_last _ (TyProjection _ _ _)), reads_converted.
  - by apply (reads_last _ (λ x, TyParameter x position)), reads_converted.
  - by apply (reads_last _ TyTuple), reads_children.
  - destruct Hread as [Hparams Hres%Forall_inv].
    apply (wire_bind _ _ _ _ (map (rename ρ) params)); [by apply reads_children; [part Hlen|]|]. by apply (reads_last _ (TyFunction _)).
  - by apply (reads_last _ TyIter); destruct Hread.
  - by apply (reads_last _ (λ x, TyRange x kind)); destruct Hread.
  - by apply (reads_last _ TyArray); destruct Hread.
  - destruct Hread as [Hkey [Hval _]]. apply (wire_bind _ _ _ _ (rename ρ ty1)); [done|].
    by apply (reads_last _ (λ x, TyMap _ x access)).
  - by apply (reads_last _ (λ x, TySet x access)); destruct Hread.
  - by apply (reads_bare TyStruct); [..|part Hlen|apply Hread].
  - by apply (reads_bare TyNativeObject); [..|part Hlen|apply Hread].
  - by apply (reads_bare TyEnum); [..|part Hlen|apply Hread].
  - destruct Hread as [Hargs Houts]. rewrite wire_nominal_kids, map_app, concat_app.
    apply (wire_bind _ _ _ _ (map (rename ρ) (nominal_arguments ty))); [by apply reads_children; [part Hlen|]|].
    rewrite <- (app_nil_r (concat (map (wire_of c) (map snd _)))). eapply wire_bind; [by apply reads_outputs|].
    destruct ty as [decl args assoc]. by apply (reads_last _ (λ x, TyTrait (Nominal x _ _))), reads_converted.
  - by apply (reads_last _ (λ x, TyReference x access)); destruct Hread.
Qed.
End decoding.

(** A renaming that keeps the definitions of a type keeps the type. *)
Lemma rename_same ρ P ty : (∀ id, P id = true → ρ id = id) → canonical ty = true → named P ty = true → rename ρ ty = ty.
Proof.
  intros Hρ. assert (∀ l, Forall (λ t, rename ρ t = t) l → map (rename ρ) l = l) as Hl.
  { intros l. induction 1 as [|x l Hx _ IH]; [done|]. simpl. by rewrite Hx, IH. }
  assert (∀ n, ordered_keys (nominal_associated n) = true → forallb P (nominal_ids n) = true →
    Forall (λ t, rename ρ t = t) (nominal_kids n) → rename_nominal ρ n = n) as Hn.
  { intros [d args assoc] Ho HP [H1 H2]%Forall_app. cbn [nominal_associated nominal_arguments] in *.
    unfold nominal_ids, associated_values in *. cbn [nominal_declaration nominal_associated forallb rename_nominal] in *.
    apply andb_true_iff in HP as [Hd HP]. rewrite Hρ, Hl by done. f_equal.
    assert (map (λ '(id, t), (ρ id, rename ρ t)) assoc = assoc) as ->.
    { clear Ho. induction assoc as [|[id t] assoc IH]; [done|]. cbn [map forallb fst snd] in *.
      apply andb_true_iff in HP as [? ?]. apply Forall_cons_iff in H2 as [-> ?]. rewrite Hρ by done. f_equal. by apply IH. }
    destruct (in_order_spec assoc (ordered_keys_nodup _ Ho)) as [Hp Hs].
    by apply (StronglySorted_unique entry_lt); [|apply ordered_keys_sorted|]. }
  induction ty as [ty IH] using ty_children_ind. intros Hc Hm. pose proof (ready_children P ty Hc Hm) as Hk.
  assert (Forall (λ t, rename ρ t = t) (ty_children ty)) as Hkids.
  { rewrite List.Forall_forall in *. intros t Ht. apply IH; [done|by apply Hk..]. }
  unfold canonical, named in Hc, Hm. rewrite every_children, andb_true_iff in Hc, Hm.
  destruct Hc as [Hc _], Hm as [Hm _].
  destruct ty; cbn [ty_children map_here ids_here rename forallb] in *; rewrite ?Forall_cons_iff, ?Forall_app in Hkids;
    rewrite ?andb_true_iff in Hm; destruct_and?; f_equal; auto.
  all: try (apply Hn; unfold nominal_kids; rewrite ?Forall_app; done).
  all: rewrite Forall_cons_iff in *; by destruct_and?.
Qed.

(** ** Tables *)
(** References are distinct [u32] numbers, and the definitions they resolve to are distinct. *)
Definition encoding_valid (enc : DefinitionEncoding) : Prop :=
  (∀ i r, de_references enc !! i = Some r → 0 ≤ r)
  ∧ ∀ i j r, de_references enc !! i = Some r → de_references enc !! j = Some r → i = j.
Definition decoding_valid (dec : DefinitionDecoding) : Prop := NoDup (dd_references dec).
Definition mapped (enc : DefinitionEncoding) (dec : DefinitionDecoding) (id : DefinitionId) : bool :=
  match reference enc id with Ok r => is_ok (resolve dec r) | Err _ => false end.
Definition reference_of (enc : DefinitionEncoding) (id : DefinitionId) : PortableDefinitionRef :=
  match reference enc id with Ok r => r | Err _ => 0 end.
(** The definition a reference written for [id] is read as. *)
Definition moved (enc : DefinitionEncoding) (dec : DefinitionDecoding) (id : DefinitionId) : DefinitionId :=
  match resolve dec (reference_of enc id) with Ok id' => id' | Err _ => id end.
Lemma reference_ok enc dec id : mapped enc dec id = true → reference enc id = Ok (reference_of enc id).
Proof. unfold mapped, reference_of. by destruct (reference enc id). Qed.
Lemma resolve_moved enc dec id : mapped enc dec id = true → resolve dec (reference_of enc id) = Ok (moved enc dec id).
Proof. unfold mapped, moved, reference_of. destruct (reference enc id); [|done]. by destruct (resolve dec a). Qed.
Lemma reference_inj enc a b r : encoding_valid enc → reference enc a = Ok r → reference enc b = Ok r → 0 ≤ r ∧ a = b.
Proof.
  intros [Hpos Hinj]. unfold reference. repeat case_bool_decide; try done. cbn [negb].
  destruct (de_references enc !! def_index a) eqn:Ea, (de_references enc !! def_index b) eqn:Eb; try done.
  intros [= ->] [= ->]. split; [by eapply Hpos|]. destruct a, b; simpl in *. f_equal; [congruence|by eapply Hinj].
Qed.
Lemma moved_inj enc dec a b : encoding_valid enc → decoding_valid dec → mapped enc dec a = true → mapped enc dec b = true →
  moved enc dec a = moved enc dec b → a = b.
Proof.
  intros He Hd Ha Hb Hm. pose proof (reference_ok _ _ _ Ha) as Ra. pose proof (reference_ok _ _ _ Hb) as Rb.
  apply resolve_moved in Ha, Hb. rewrite Hm in Ha. unfold resolve in Ha, Hb.
  destruct (dd_references dec !! Z.to_nat (reference_of enc a)) as [x|] eqn:Ea; [|done].
  destruct (dd_references dec !! Z.to_nat (reference_of enc b)) as [y|] eqn:Eb; [|done]. simplify_eq.
  pose proof (NoDup_lookup _ _ _ _ Hd Ea Eb) as Heq.
  destruct (reference_inj enc a a _ He Ra Ra) as [? _], (reference_inj enc b b _ He Rb Rb) as [? _].
  apply (reference_inj enc a b (reference_of enc a) He Ra). rewrite Rb. f_equal. unfold PortableDefinitionRef in *. lia.
Qed.

(** C40: a type within the limits whose definitions the tables map is encoded, and its encoding is decoded to
    the type itself with every definition moved into the scope of the decoding table (the very same type where
    the scope is the same); a type outside the limits is refused, and only a token
    somebody cancelled is reported as cancelled. *)
Theorem wire_round_trip enc dec ty k :
  encoding_valid enc → decoding_valid dec → canonical ty = true → named (mapped enc dec) ty = true →
  twp (encode ty enc)
    (λ wire _, fits ty ∧ ∀ k1,
       twp (decode wire dec)
         (λ r _, r = rename (moved enc dec) ty ∧ ((∀ id, mapped enc dec id = true → moved enc dec id = id) → r = ty))
         (λ e, e = TypeCancelled ∧ k1 ≠ None) k1)
    (λ e, e = TypeCancelled ∧ k ≠ None ∨ e ≠ TypeCancelled ∧ ¬ fits ty) k.
Proof.
  intros He Hd Hc Hm.
  assert (∀ a b, mapped enc dec a = true → mapped enc dec b = true → reference_of enc a = reference_of enc b → a = b) as Hinj.
  { intros a b Ha Hb E. apply reference_ok in Ha, Hb. rewrite E in Ha. by eapply reference_inj. }
  apply twp_bind. eapply twp_mono; [apply (wire_nodes_spec _ (reference_of enc) (mapped enc dec))| |done]; try done.
  { intros id. apply reference_ok. }
  intros nodes k' (-> & Hf & _). apply twp_ret. split; [done|]. intros k1.
  pose proof (build_reads (resolve dec) (reference_of enc) (moved enc dec) (mapped enc dec)
    (resolve_moved enc dec) (λ a b, moved_inj enc dec a b He Hd) Hinj Shape.FUEL 1 ty) as H.
  destruct Hf as (Hp & Hh & Hn).
  specialize (H ltac:(done) ltac:(split_and!; [done|lia|done|done|done]) [] k1). rewrite app_nil_r in H.
  unfold twp, decode in *. cbn [wt_nodes].
  destruct (build _ _ _ _) as [[r s]|[e| |]]; [|done..]. destruct H as (-> & -> & _). split; [done|].
  intros Hsame. by apply (rename_same _ (mapped enc dec)).
Qed.

(** A trait type whose outputs change their order in the decoding scope. *)
Definition sample_encoding : DefinitionEncoding := {| de_owner := 1; de_references := {[0 := 2; 1 := 0; 2 := 1]} |}.
Definition sample_id (table index : Z) : DefinitionId := {| def_table := table; def_index := index |}.
Definition sample_decoding : DefinitionDecoding := {| dd_references := [sample_id 2 5; sample_id 2 3; sample_id 2 4] |}.
Definition sample_trait (table : Z) (outputs : list (DefinitionId * Ty)) : Ty :=
  TyTrait (Nominal (sample_id table (if table =? 1 then 0 else 4)) [TyTuple []] outputs).
Definition sample_written : Ty :=
  sample_trait 1 [(sample_id 1 1, TyBuiltin BtI32); (sample_id 1 2, TyBuiltin BtBool)].
Definition sample_read : Ty := sample_trait 2 [(sample_id 2 3, TyBuiltin BtBool); (sample_id 2 5, TyBuiltin BtI32)].
Lemma sample_encoding_valid : encoding_valid sample_encoding.
Proof.
  split.
  - intros i r H. unfold sample_encoding in H. simpl in H.
    repeat (apply lookup_insert_Some in H as [[? ?]|[? H]]; [lia|]). apply lookup_singleton_Some in H. lia.
  - intros i j r Hi Hj. unfold sample_encoding in *. simpl in *.
    repeat (apply lookup_insert_Some in Hi as [[? ?]|[? Hi]]); try (apply lookup_singleton_Some in Hi as [? ?]);
    repeat (apply lookup_insert_Some in Hj as [[? ?]|[? Hj]]); try (apply lookup_singleton_Some in Hj as [? ?]); lia.
Qed.
Lemma sample_decoding_valid : decoding_valid sample_decoding.
Proof. unfold decoding_valid. apply (bool_decide_unpack _). vm_compute. done. Qed.
Definition sample_wire : WireType :=
  {| wt_nodes := [NodeTrait 2 1 [0; 1]; NodeTuple 0; NodeBuiltin BtI32; NodeBuiltin BtBool] |}.
Lemma sample_encodes : encode sample_written sample_encoding None = Ok (sample_wire, None).
Proof. vm_compute. reflexivity. Qed.
Lemma wire_round_trip_witness :
  canonical sample_written = true
  ∧ twp (decode sample_wire sample_decoding) (λ r _, r = sample_read) (λ _, False) None.
Proof.
  split; [done|].
  pose proof (wire_round_trip sample_encoding sample_decoding sample_written None
    sample_encoding_valid sample_decoding_valid eq_refl eq_refl) as H.
  apply twp_ok with (2 := sample_encodes) in H. destruct H as [_ H].
  eapply twp_mono; [exact (H None)| |by intros e [_ ?]]. intros r k' [-> _]. vm_compute. reflexivity.
Defined.
