(* ===== verification/Pass.v ===== *)
(** * Verifier and optimization passes: work, failures and statistics

    Models the bookkeeping of [kagari-mir/src/passes.rs] and of
    [kagari-mir/src/verify.rs]: the [Work] budget that every pass charges and the
    [Budget] of the verifier, both of which poll cancellation, the verification
    errors (without their source location) and [PassStatistics].  A pass is an
    action of the monad [P]; [PfPanic] is an out-of-range index or a failed
    [expect], [PfOutOfFuel] a worklist loop cut short, which no proved run reports. *)
From S2P Require Import Prelude RuntimeNumeric Contracts Text.
Open Scope Z_scope.

Definition usize_max : Z := 2 ^ 64 - 1.

Record Work : Set := { used : Z; work_limit : Z; work_cancel : option nat }.

(** [MirVerificationErrorKind], cancellation and limits apart. *)
Inductive MirErrorKind : Set :=
| InvalidInstance | InvalidStructLayout | InvalidEnumLayout | InvalidPublicAbi
| InvalidHostInterface | InvalidEnumInitializer | InvalidInterfaceTable | InvalidNativeTarget
| InvalidField | InvalidStructInitializer | ReadOnlyField | InvalidModuleSlot
| InvalidInitializer | InvalidBlock (id : nat) | MissingTerminator | InvalidDebugMetadata
| InvalidParameterLayout | InvalidTemp (id : nat) | InvalidLocal (id : nat)
| UninitializedTemp (id : nat) | UninitializedLocal (id : nat) | InvalidCall (id : nat)
| CallArity (expected found : nat) | UnsupportedCall | ReadOnlyPath | MissingEffects
| Contract (error : ContractError).

Inductive PassFailure : Set :=
| PfCancelled | PfLimit (limit : Z) | PfError (kind : MirErrorKind) | PfPanic | PfOutOfFuel.

Record PassStatistics : Set := {
  constants_folded : nat; branches_simplified : nat; dead_operations_removed : nat;
  copies_removed : nat; constants_reused : nat
}.
Definition no_statistics : PassStatistics :=
  {| constants_folded := 0; branches_simplified := 0; dead_operations_removed := 0;
     copies_removed := 0; constants_reused := 0 |}.
Definition count_fold (s : PassStatistics) : PassStatistics :=
  {| constants_folded := S (constants_folded s); branches_simplified := branches_simplified s;
     dead_operations_removed := dead_operations_removed s; copies_removed := copies_removed s;
     constants_reused := constants_reused s |}.
Definition count_branch (s : PassStatistics) : PassStatistics :=
  {| constants_folded := constants_folded s; branches_simplified := S (branches_simplified s);
     dead_operations_removed := dead_operations_removed s; copies_removed := copies_removed s;
     constants_reused := constants_reused s |}.

Definition count_copy (s : PassStatistics) : PassStatistics :=
  {| constants_folded := constants_folded s; branches_simplified := branches_simplified s;
     dead_operations_removed := dead_operations_removed s; copies_removed := S (copies_removed s);
     constants_reused := constants_reused s |}.
Definition count_reuse (s : PassStatistics) : PassStatistics :=
  {| constants_folded := constants_folded s; branches_simplified := branches_simplified s;
     dead_operations_removed := dead_operations_removed s; copies_removed := copies_removed s;
     constants_reused := S (constants_reused s) |}.

Definition P (A : Type) : Type := Work → result (A * Work) PassFailure.
Definition pret {A} (a : A) : P A := λ w, Ok (a, w).
Definition pbind {A B} (m : P A) (k : A → P B) : P B :=
  λ w, match m w with Ok (a, w') => k a w' | Err e => Err e end.
Definition ppanic {A} : P A := λ _, Err PfPanic.
Definition pfail {A} (kind : MirErrorKind) : P A := λ _, Err (PfError kind).
Definition pexpect {A} (o : option A) : P A := match o with Some a => pret a | None => ppanic end.

Notation "'do' x ':=' m 'in' k" := (pbind m (λ x, k))
  (at level 10, x binder, m at level 100, k at level 200) : kagari_scope.
Notation "m ;;> k" := (pbind m (λ _, k))
  (at level 90, k at level 200, right associativity) : kagari_scope.

(** [Work::charge]: cancellation first, then the saturating budget. *)
Definition charge (count : nat) : P unit :=
  λ w, match token_check (work_cancel w) with
       | (false, _) => Err PfCancelled
       | (true, k) =>
           let u := Z.min usize_max (used w + Z.of_nat count) in
           if work_limit w <? u then Err (PfLimit (work_limit w))
           else Ok (tt, {| used := u; work_limit := work_limit w; work_cancel := k |})
       end.

(** [PassOptions::default] with a token that is never cancelled. *)
Definition default_work : Work := {| used := 0; work_limit := 1000000; work_cancel := None |}.

(** [check_cancel]. *)
Definition check_cancel : P unit :=
  λ w, match token_check (work_cancel w) with
       | (false, _) => Err PfCancelled
       | (true, k) => Ok (tt, {| used := used w; work_limit := work_limit w; work_cancel := k |})
       end.

(** [for x in &mut l], where the body replaces [x] and updates the loop state. *)
Fixpoint map_each {A B S} (body : S → A → P (S * B)) (s : S) (l : list A) : P (S * list B) :=
  match l with
  | [] => pret (s, [])
  | x :: l =>
      do r := body s x in
      do r' := map_each body (fst r) l in
      pret (fst r', snd r :: snd r')
  end.
(** [for x in l], updating the loop state only. *)
Fixpoint fold_each {A S} (body : S → A → P S) (s : S) (l : list A) : P S :=
  match l with
  | [] => pret s
  | x :: l => do s := body s x in fold_each body s l
  end.

(** ** Reasoning

    [prun m Q]: from any budget and token, [m] does not panic, reports a
    cancellation or an exhausted budget only when there is one, is not cut short, reports no other
    error than those of [E], and otherwise answers with [Q]. *)
Definition prun_or {A} (E : MirErrorKind → Prop) (m : P A) (Q : A → Prop) : Prop :=
  ∀ w, match m w with
       | Ok (a, w') => Q a ∧ work_limit w' = work_limit w
                       ∧ (work_cancel w = None → work_cancel w' = None)
       | Err PfCancelled => work_cancel w ≠ None
       | Err (PfLimit limit) => limit = work_limit w
       | Err (PfError kind) => E kind
       | Err (PfPanic | PfOutOfFuel) => False
       end.
Notation prun := (prun_or (λ _, False)).

Section Rules.
Context (E : MirErrorKind → Prop).

Lemma prun_ret {A} (a : A) (Q : A → Prop) : Q a → prun_or E (pret a) Q.
Proof. by intros H w. Qed.
Lemma prun_fail {A} kind (Q : A → Prop) : E kind → prun_or E (pfail kind) Q.
Proof. by intros H w. Qed.
Lemma prun_bind {A B} (m : P A) (k : A → P B) Q :
  prun_or E m (λ a, prun_or E (k a) Q) → prun_or E (pbind m k) Q.
Proof.
  intros Hm w. specialize (Hm w). unfold pbind. destruct (m w) as [[a w']|[| | | |]]; try done.
  destruct Hm as (Hk & Hl & Hc). specialize (Hk w').
  rewrite <- Hl. destruct (k a w') as [[b w'']|[| | | |]]; auto; naive_solver.
Qed.
Lemma prun_mono {A} (m : P A) (Q R : A → Prop) :
  prun_or E m Q → (∀ a, Q a → R a) → prun_or E m R.
Proof.
  intros Hm Hi w. specialize (Hm w). destruct (m w) as [[a w']|[| | | |]]; try done.
  destruct Hm as (? & ? & ?). auto.
Qed.
Lemma prun_charge n (Q : unit → Prop) : Q tt → prun_or E (charge n) Q.
Proof.
  intros HQ w. unfold charge. destruct (work_cancel w) as [[|k]|] eqn:Ec; cbn [token_check]; [done| |];
    destruct (work_limit w <? _); cbn [work_limit work_cancel]; done.
Qed.
Lemma prun_check_cancel (Q : unit → Prop) : Q tt → prun_or E check_cancel Q.
Proof.
  intros HQ w. unfold check_cancel. by destruct (work_cancel w) as [[|k]|] eqn:Ec.
Qed.
Lemma prun_expect {A} (o : option A) (a : A) (Q : A → Prop) :
  o = Some a → Q a → prun_or E (pexpect o) Q.
Proof. intros -> HQ. by apply prun_ret. Qed.
Lemma prun_charge_bind {B} n (k : unit → P B) Q :
  prun_or E (k tt) Q → prun_or E (pbind (charge n) k) Q.
Proof. intros. by apply prun_bind, prun_charge. Qed.

(** A loop keeps an invariant on the elements passed and the ones made. *)
Lemma prun_map_each {A B S} (body : S → A → P (S * B)) (Inv : list A → S → list B → Prop) s l :
  Inv [] s [] →
  (∀ p x q s out, l = p ++ x :: q → Inv p s out →
     prun_or E (body s x) (λ r, Inv (p ++ [x]) (fst r) (out ++ [snd r]))) →
  prun_or E (map_each body s l) (λ r, Inv l (fst r) (snd r)).
Proof.
  intros H0 Hb.
  assert (∀ q p s out, l = p ++ q → Inv p s out →
    prun_or E (map_each body s q) (λ r, Inv l (fst r) (out ++ snd r))) as Hgo.
  { induction q as [|x q IH]; intros p s1 out Hl Hi; simpl.
    - apply prun_ret. simpl. rewrite app_nil_r in *. by subst.
    - apply prun_bind. eapply prun_mono; [by eapply Hb|]. intros r Hr.
      apply prun_bind. eapply prun_mono; [apply (IH (p ++ [x])); [|exact Hr]|].
      + by rewrite Hl, <- app_assoc.
      + intros r' Hr'. apply prun_ret. cbn [fst snd]. by rewrite (cons_middle (snd r) out), app_assoc. }
  exact (Hgo l [] s [] eq_refl H0).
Qed.
Lemma prun_fold_each {A S} (body : S → A → P S) (Inv : list A → S → Prop) s l :
  Inv [] s →
  (∀ p x q s, l = p ++ x :: q → Inv p s → prun_or E (body s x) (λ s', Inv (p ++ [x]) s')) →
  prun_or E (fold_each body s l) (λ s', Inv l s').
Proof.
  intros H0 Hb.
  assert (∀ q p s, l = p ++ q → Inv p s → prun_or E (fold_each body s q) (λ s', Inv l s')) as Hgo.
  { induction q as [|x q IH]; intros p s1 Hl Hi; simpl.
    - apply prun_ret. rewrite app_nil_r in *. by subst.
    - apply prun_bind. eapply prun_mono; [by eapply Hb|]. intros s' Hs.
      apply (IH (p ++ [x])); [by rewrite Hl, <- app_assoc|done]. }
  exact (Hgo l [] s eq_refl H0).
Qed.
End Rules.

(** ** Runs within a budget

    The same for budgets below the saturation point of the counter, where a loop that
    charges every round is bound to end. *)
Definition pbound_or {A} (E : MirErrorKind → Prop) (m : P A) (Q : A → Prop) : Prop :=
  ∀ w, work_limit w < usize_max →
       match m w with
       | Ok (a, w') => Q a ∧ work_limit w' = work_limit w
                       ∧ (work_cancel w = None → work_cancel w' = None)
       | Err PfCancelled => work_cancel w ≠ None
       | Err (PfLimit limit) => limit = work_limit w
       | Err (PfError kind) => E kind
       | Err (PfPanic | PfOutOfFuel) => False
       end.
Notation pbound := (pbound_or (λ _, False)).

Section Bounded.
Context (E : MirErrorKind → Prop).

Lemma prun_bound {A} (m : P A) Q : prun_or E m Q → pbound_or E m Q.
Proof. intros Hm w _. apply Hm. Qed.
Lemma pbound_ret {A} (a : A) (Q : A → Prop) : Q a → pbound_or E (pret a) Q.
Proof. intros. by apply prun_bound, prun_ret. Qed.
Lemma pbound_mono {A} (m : P A) (Q R : A → Prop) : pbound_or E m Q → (∀ a, Q a → R a) → pbound_or E m R.
Proof. intros Hm Hi w Hw. specialize (Hm w Hw). destruct (m w) as [[a w']|[]]; try done. destruct Hm as (? & ? & ?). auto. Qed.
Lemma pbound_bind {A B} (m : P A) (k : A → P B) Q : pbound_or E m (λ a, pbound_or E (k a) Q) → pbound_or E (pbind m k) Q.
Proof.
  intros Hm w Hw. specialize (Hm w Hw). unfold pbind. destruct (m w) as [[a w']|[| | | |]]; try done.
  destruct Hm as (Hk & Hl & Hc). rewrite <- Hl in Hw. specialize (Hk w' Hw).
  rewrite <- Hl. destruct (k a w') as [[b w'']|[| | | |]]; auto; naive_solver.
Qed.
(** Bind after a step of the first kind. *)
Lemma pbound_step {A B} (m : P A) (k : A → P B) Q R : prun_or E m R → (∀ a, R a → pbound_or E (k a) Q) → pbound_or E (pbind m k) Q.
Proof. intros Hm Hk. apply pbound_bind. eapply pbound_mono; [by apply prun_bound|done]. Qed.
Lemma pbound_fold_each {A S} (body : S → A → P S) (Inv : list A → S → Prop) s l : Inv [] s →
  (∀ p x q s, l = p ++ x :: q → Inv p s → pbound_or E (body s x) (λ s', Inv (p ++ [x]) s')) → pbound_or E (fold_each body s l) (λ s', Inv l s').
Proof.
  intros H0 Hb. assert (∀ q p s, l = p ++ q → Inv p s → pbound_or E (fold_each body s q) (λ s', Inv l s')) as Hgo; [|exact (Hgo l [] s eq_refl H0)].
  induction q as [|x q IH]; intros p s1 Hl Hi; simpl.
  - apply pbound_ret. rewrite app_nil_r in *. by subst.
  - apply pbound_bind. eapply pbound_mono; [by eapply Hb|]. intros s' Hs. apply (IH (p ++ [x])); [by rewrite Hl, <- app_assoc|done].
Qed.
Lemma pbound_map_each {A B S} (body : S → A → P (S * B)) (R : A → B → Prop) s l :
  (∀ s x, x ∈ l → pbound_or E (body s x) (λ r, R x (snd r))) → pbound_or E (map_each body s l) (λ r, Forall2 R l (snd r)).
Proof.
  revert s. induction l as [|x l IH]; intros s Hb; simpl; [apply pbound_ret; constructor|]. apply pbound_bind. eapply pbound_mono; [apply Hb; left|].
  intros r Hr. apply pbound_bind. eapply pbound_mono; [apply IH; intros; apply Hb; by right|]. intros r' Hr'. apply pbound_ret. by constructor.
Qed.
End Bounded.
Lemma prun_weaken {A} (E E' : MirErrorKind → Prop) (m : P A) Q : prun_or E m Q → (∀ k, E k → E' k) → prun_or E' m Q.
Proof. intros Hm Hi w. specialize (Hm w). destruct (m w) as [[a w']|[]]; auto. Qed.
Lemma pbound_weaken {A} (E E' : MirErrorKind → Prop) (m : P A) Q : pbound_or E m Q → (∀ k, E k → E' k) → pbound_or E' m Q.
Proof. intros Hm Hi w Hw. specialize (Hm w Hw). destruct (m w) as [[a w']|[]]; auto. Qed.
Lemma prun_and {A} (E E' : MirErrorKind → Prop) (m : P A) Q R : prun_or E m Q → prun_or E' m R → prun_or E m (λ a, Q a ∧ R a).
Proof. intros Hm Hm' w. specialize (Hm w). specialize (Hm' w). destruct (m w) as [[a w']|[]]; naive_solver. Qed.
Lemma charge_spec n w :
  match charge n w with
  | Ok (_, w') => used w' = Z.min usize_max (used w + Z.of_nat n) ∧ used w' <= work_limit w ∧ work_limit w' = work_limit w
                  ∧ (work_cancel w = None → work_cancel w' = None)
  | Err PfCancelled => work_cancel w ≠ None
  | Err (PfLimit limit) => limit = work_limit w
  | Err _ => False
  end.
Proof.
  unfold charge. destruct (work_cancel w) as [[|k]|]; cbn [token_check]; [done| |]; destruct (work_limit w <? _) eqn:E; try done;
    apply Z.ltb_ge in E; done.
Qed.

(** ** Runs that succeed *)
Definition succeeds {A} (m : P A) (a : A) : Prop := ∃ w w', m w = Ok (a, w').

Lemma succeeds_bind {A B} (m : P A) (k : A → P B) b :
  succeeds (pbind m k) b → ∃ a, succeeds m a ∧ succeeds (k a) b.
Proof.
  intros (w & w' & Hr). unfold pbind in Hr. destruct (m w) as [[a w1]|] eqn:E; [|done].
  exists a. split; by eexists _, _.
Qed.
Lemma succeeds_ret {A} (a b : A) : succeeds (pret a) b → a = b.
Proof. intros (w & w' & [= -> _]). done. Qed.
Lemma succeeds_fail {A} kind (a : A) : ¬ succeeds (pfail kind) a.
Proof. by intros (w & w' & ?). Qed.
Lemma succeeds_panic {A} (a : A) : ¬ succeeds ppanic a.
Proof. by intros (w & w' & ?). Qed.
Lemma succeeds_expect {A} (o : option A) a : succeeds (pexpect o) a → o = Some a.
Proof. destruct o; [by intros <-%succeeds_ret|by intros ?%succeeds_panic]. Qed.
Lemma succeeds_prun {A} (E : MirErrorKind → Prop) (m : P A) Q a : prun_or E m Q → succeeds m a → Q a.
Proof. intros Hm (w & w' & Hr). specialize (Hm w). rewrite Hr in Hm. by destruct Hm. Qed.
Lemma succeeds_fold_each {A S} (body : S → A → P S) s l s' : succeeds (fold_each body s l) s' →
  ∀ x, x ∈ l → ∃ s1 s2, succeeds (body s1 x) s2.
Proof.
  revert s. induction l as [|y l IH]; intros s Hs x; simpl in *; [by intros ?%elem_of_nil|].
  apply succeeds_bind in Hs as (s1 & Hb & Hl). rewrite elem_of_cons. intros [->|Hx]; eauto.
Qed.
Lemma succeeds_fold_inv {A S} (body : S → A → P S) (Inv : list A → S → Prop) s l s' :
  succeeds (fold_each body s l) s' → Inv [] s →
  (∀ p x s s', x ∈ l → Inv p s → succeeds (body s x) s' → Inv (p ++ [x]) s') → Inv l s'.
Proof.
  intros Hs H0 Hb.
  assert (∀ q p s, (∀ x, x ∈ q → x ∈ l) → Inv p s → succeeds (fold_each body s q) s' → Inv (p ++ q) s') as Hgo;
    [|by apply (Hgo l [] s)].
  clear Hs H0 s. induction q as [|x q IH]; intros p s Hq Hi Hs; simpl in Hs.
  - apply succeeds_ret in Hs as <-. by rewrite app_nil_r.
  - apply succeeds_bind in Hs as (s1 & Hx & Hs). rewrite (cons_middle x), app_assoc. eapply IH; [|by eapply Hb; [apply Hq; left|..]|done].
    intros y Hy. apply Hq. by right.
Qed.

(** ** Runs that end

    [pends m Q]: below the saturation point of the counter, [m] does not panic, is not
    cut short, reports a cancellation only when there is one, may report a limit or an
    error, and otherwise answers with [Q]. *)
Definition pends {A} (m : P A) (Q : A → Prop) : Prop :=
  ∀ w, work_limit w < usize_max →
       match m w with
       | Ok (a, w') => Q a ∧ work_limit w' = work_limit w
                       ∧ (work_cancel w = None → work_cancel w' = None)
       | Err PfCancelled => work_cancel w ≠ None
       | Err (PfLimit _ | PfError _) => True
       | Err (PfPanic | PfOutOfFuel) => False
       end.
Lemma pends_bound {A} E (m : P A) Q : pbound_or E m Q → pends m Q.
Proof. intros Hm w Hw. specialize (Hm w Hw). by destruct (m w) as [[a w']|[]]. Qed.
Lemma pends_run {A} E (m : P A) Q : prun_or E m Q → pends m Q.
Proof. intros. by apply (pends_bound E), prun_bound. Qed.
Lemma pends_ret {A} (a : A) (Q : A → Prop) : Q a → pends (pret a) Q.
Proof. by intros H w. Qed.
Lemma pends_fail {A} kind (Q : A → Prop) : pends (pfail kind) Q.
Proof. by intros w. Qed.
Lemma pends_limit {A} bound (Q : A → Prop) : pends (λ _, Err (PfLimit bound)) Q.
Proof. by intros w. Qed.
Lemma pends_mono {A} (m : P A) (Q R : A → Prop) : pends m Q → (∀ a, Q a → R a) → pends m R.
Proof. intros Hm Hi w Hw. specialize (Hm w Hw). destruct (m w) as [[a w']|[]]; try done. destruct Hm as (? & ? & ?). auto. Qed.
Lemma pends_bind {A B} (m : P A) (k : A → P B) Q : pends m (λ a, pends (k a) Q) → pends (pbind m k) Q.
Proof.
  intros Hm w Hw. specialize (Hm w Hw). unfold pbind. destruct (m w) as [[a w']|[| | | |]]; try done.
  destruct Hm as (Hk & Hl & Hc). rewrite <- Hl in Hw. specialize (Hk w' Hw).
  rewrite <- Hl. destruct (k a w') as [[b w'']|[| | | |]]; auto; naive_solver.
Qed.
Lemma pends_step {A B} (m : P A) (k : A → P B) Q R : pends m R → (∀ a, R a → pends (k a) Q) → pends (pbind m k) Q.
Proof. intros Hm Hk. apply pends_bind. by eapply pends_mono. Qed.
(** The answer is one the action gives. *)
Lemma pends_succeeds {A} (m : P A) Q : pends m Q → pends m (λ a, Q a ∧ succeeds m a).
Proof.
  intros Hm w Hw. specialize (Hm w Hw). destruct (m w) as [[a w']|[]] eqn:E; try done.
  destruct Hm as (? & ? & ?). split_and!; try done. by exists w, w'.
Qed.
Lemma pends_fold_each {A S} (body : S → A → P S) s l : (∀ s x, x ∈ l → pends (body s x) (λ _, True)) → pends (fold_each body s l) (λ _, True).
Proof.
  revert s. induction l as [|x l IH]; intros s Hb; [by apply pends_ret|]. eapply pends_step; [apply Hb; left|].
  intros s' _. apply IH. intros. apply Hb. by right.
Qed.
Lemma pends_map_each {A B S} (body : S → A → P (S * B)) (R : A → B → Prop) s l :
  (∀ s x, x ∈ l → pends (body s x) (λ r, R x (snd r))) → pends (map_each body s l) (λ r, Forall2 R l (snd r)).
Proof.
  revert s. induction l as [|x l IH]; intros s Hb; simpl; [apply pends_ret; constructor|]. eapply pends_step; [apply Hb; left|].
  intros r Hr. eapply pends_step; [apply IH; intros; apply Hb; by right|]. intros r' Hr'. apply pends_ret. by constructor.
Qed.
(** One property of a family for each instance. *)
Lemma prun_all {X A} (E : MirErrorKind → Prop) (m : P A) (Q : X → A → Prop) : X → (∀ x, prun_or E m (Q x)) → prun_or E m (λ a, ∀ x, Q x a).
Proof.
  intros x0 Hm w. pose proof (Hm x0 w) as H0. assert (∀ x, match m w with Ok (a, _) => Q x a | Err _ => True end) as Hall.
  { intros x. specialize (Hm x w). destruct (m w) as [[a w']|]; naive_solver. }
  destruct (m w) as [[a w']|[]]; naive_solver.
Qed.
