(* ===== verification/MirSemantics.v ===== *)
(** * What a function of the mid-level representation computes

    The reference semantics the passes are proved against.  Scalar instructions
    run the runtime operators of [RuntimeNumeric]; local slots are read and
    written; every other instruction is performed by a [Host], about which
    nothing is assumed except that it sees the operand values, the local slots
    and a world of its own, and answers with a result, new locals (a debugger
    may write them) and a new world, or with an error.  [Stuck] is a read of an
    uninitialized slot or an operand the verifier rejects. *)
From stdpp Require Import gmap.
From S2P Require Import Prelude Integer Scalar Payload RuntimeNumeric Contracts NumericProps Token Mir.
Open Scope nat_scope.

Section Semantics.
Context `{CallContracts} `{FloatOps} {W : Type}.

Record MirState : Type := {
  temp_values : gmap nat Value; local_values : gmap nat Value; world : W
}.

Class Host : Type := {
  perform : Instruction → list Value → gmap nat Value → W →
            result (option Value * gmap nat Value * W) (RuntimeError * W);
  string_constant : string → Value
}.
Context `{Host}.

Definition set_temp (dst : MirValue) (v : Value) (s : MirState) : MirState :=
  {| temp_values := <[temp dst := v]> (temp_values s); local_values := local_values s;
     world := world s |}.
Definition set_local (l : nat) (v : Value) (s : MirState) : MirState :=
  {| temp_values := temp_values s; local_values := <[l := v]> (local_values s);
     world := world s |}.

Definition constant_value (c : Constant) : Value :=
  match c with
  | KUnit => VUnit | KBool b => VBool b | KI32 z => VI32 z | KI64 z => VI64 z | KU64 z => VU64 z
  | KF32 b => VF32 b | KF64 b => VF64 b | KStr s => string_constant s | KChar c => VChar c
  end.

Definition read_temp (s : MirState) (v : MirValue) : option Value := temp_values s !! temp v.
Definition operands (s : MirState) (i : Instruction) : option (list Value) :=
  mapM (read_temp s) (inputs i).

(** The scalar instructions; comparisons of references are the host's. *)
Definition scalar_step (i : Instruction) (vs : list Value) : option (result Value RuntimeError) :=
  match i, vs with
  | LoadConst _ c, [] => Some (Ok (constant_value c))
  | Move _ _, [v] => Some (Ok v)
  | Unary _ op _, [v] => Some (unary op v)
  | Binary _ op lhs _, [l; r] =>
      if scalar_type (value_ty lhs)
      then bop ← lower_binary_op op; Some (scalar_binary bop l r) else None
  | Numeric _ o _ _, [l] => Some (fixed_integer o l None)
  | Numeric _ o _ _, [l; r] => Some (fixed_integer o l (Some r))
  | Convert _ _ c, [v] => Some (numeric_convert c v)
  | _, _ => None
  end.

Inductive MirOutcome (A : Type) : Type :=
| Finished (a : A)
| Faulted (e : RuntimeError) (w : W)
| Stuck.
Arguments Finished {A} a.
Arguments Faulted {A} e w.
Arguments Stuck {A}.

Definition obind {A B} (m : MirOutcome A) (k : A → MirOutcome B) : MirOutcome B :=
  match m with Finished a => k a | Faulted e w => Faulted e w | Stuck => Stuck end.
Definition from_option_stuck {A} (o : option A) : MirOutcome A :=
  match o with Some a => Finished a | None => Stuck end.

(** Publish a result in the destination, if the instruction has one. *)
Definition publish_result (i : Instruction) (r : option Value) (s : MirState) : MirOutcome MirState :=
  match output i, r with
  | Some dst, Some v => Finished (set_temp dst v s)
  | Some _, None => Stuck
  | None, _ => Finished s
  end.

Definition exec (i : Instruction) (s : MirState) : MirOutcome MirState :=
  obind (from_option_stuck (operands s i)) (λ vs,
    match i with
    | LoadLocal dst l => obind (from_option_stuck (local_values s !! l)) (λ v, Finished (set_temp dst v s))
    | StoreLocal l _ => match vs with [v] => Finished (set_local l v s) | _ => Stuck end
    | _ =>
        match scalar_step i vs with
        | Some (Ok v) => publish_result i (Some v) s
        | Some (Err e) => Faulted e (world s)
        | None =>
            match perform i vs (local_values s) (world s) with
            | Ok (r, locals, w) =>
                publish_result i r
                  {| temp_values := temp_values s; local_values := locals; world := w |}
            | Err (e, w) => Faulted e w
            end
        end
    end).

Fixpoint exec_all (l : list Instruction) (s : MirState) : MirOutcome MirState :=
  match l with [] => Finished s | i :: l => obind (exec i s) (exec_all l) end.

Inductive Exit : Type :=
| Goto (b : nat) (s : MirState)
| Returned (v : option Value) (s : MirState)
| ReachedUnreachable (s : MirState).

Definition exec_terminator (t : Terminator) (s : MirState) : MirOutcome Exit :=
  match t with
  | Jump b => Finished (Goto b s)
  | Branch c a b =>
      match read_temp s c with Some (VBool x) => Finished (Goto (if x then a else b) s) | _ => Stuck end
  | Return None => Finished (Returned None s)
  | Return (Some v) => obind (from_option_stuck (read_temp s v)) (λ v, Finished (Returned (Some v) s))
  | Unreachable => Finished (ReachedUnreachable s)
  end.

Definition run_block (b : BasicBlock) (s : MirState) : MirOutcome Exit :=
  obind (exec_all (instructions b) s) (λ s,
    obind (from_option_stuck (terminator b)) (λ t, exec_terminator t s)).

(** [n] blocks from block [b]; [Goto] means the function is still running. *)
Fixpoint run (f : MirFunction) (n : nat) (b : nat) (s : MirState) : MirOutcome Exit :=
  match n with
  | O => Finished (Goto b s)
  | S n =>
      obind (from_option_stuck (blocks f !! b)) (λ block,
        obind (run_block block s) (λ e, match e with Goto b s => run f n b s | _ => Finished e end))
  end.

Lemma exec_all_app l1 l2 s : exec_all (l1 ++ l2) s = obind (exec_all l1 s) (exec_all l2).
Proof.
  revert s. induction l1 as [|i l1 IH]; intros s; simpl; [done|].
  destruct (exec i s); simpl; auto.
Qed.

(** An instruction writes no temporary but its output. *)
Lemma exec_frame i s s' t : exec i s = Finished s' →
  (∀ dst, output i = Some dst → temp dst ≠ t) → temp_values s' !! t = temp_values s !! t.
Proof.
  intros He Ho. unfold exec in He. destruct (operands s i) as [vs|]; [|done]. simpl in He.
  assert (∀ r s0, publish_result i r s0 = Finished s' → temp_values s' !! t = temp_values s0 !! t) as Hpub.
  { intros r s0. unfold publish_result. destruct (output i) as [dst|], r; try done; intros [= <-]; try done.
    simpl. by rewrite lookup_insert_ne by eauto. }
  assert (match scalar_step i vs with
    | Some (Ok v) => publish_result i (Some v) s
    | Some (Err e) => Faulted e (world s)
    | None => match perform i vs (local_values s) (world s) with
              | Ok (r, locals, w) =>
                  publish_result i r {| temp_values := temp_values s; local_values := locals; world := w |}
              | Err (e, w) => Faulted e w
              end
    end = Finished s' → temp_values s' !! t = temp_values s !! t) as Hgen.
  { destruct (scalar_step i vs) as [[v|e]|]; [apply Hpub|done|].
    destruct (perform i vs _ _) as [[[r ls] w]|[e w]]; [|done]. intros Hp. by rewrite (Hpub _ _ Hp). }
  destruct i; try exact (Hgen He).
  - destruct (local_values s !! local); simpl in He; [|done]. injection He as <-. simpl.
    rewrite lookup_insert_ne; [done|]. by apply Ho.
  - destruct vs as [|v [|]]; try done. by injection He as <-.
Qed.
End Semantics.
Arguments MirState W : clear implicits.
Arguments Finished {W A} a.
Arguments Faulted {W A} e w.
Arguments Stuck {W A}.
Arguments Host {_} W.
