(* ===== verification/MirVerify.v ===== *)
(** * Verification of function bodies

    Models the checks of [kagari-mir/src/verify.rs] on the blocks of a function
    and the arms of [verify/operation.rs] for scalar and local-slot instructions.
    The other arms depend on declarations this development does not model: they
    are the parameter [other].  Error locations are not modelled. *)
From stdpp Require Import gmap.
From S2P Require Import Prelude Integer Scalar Payload RuntimeNumeric Contracts NumericProps Token.
From S2P Require Import Mir Pass.
Open Scope nat_scope.

Section Verify.
Context `{CallContracts}.
Context (other : Instruction → P unit).

Definition expect (found expected : ValueType) (label : string) : P unit :=
  match expect_type found expected label with
  | Ok _ => pret tt
  | Err e => pfail (Contract e)
  end.

(** [Context::value] and [Context::local]. *)
Definition verify_value (f : MirFunction) (v : MirValue) : P unit :=
  match temps f !! temp v with
  | None => pfail (InvalidTemp (temp v))
  | Some t => expect (value_ty v) (temp_ty t) "temporary annotation"
  end.
Definition verify_local (f : MirFunction) (l : nat) : P ValueType :=
  match locals f !! l with
  | None => pfail (InvalidLocal l)
  | Some local => pret (local_ty local)
  end.

Definition invalid_operation {A} (reason : string) : P A :=
  pfail (Contract (InvalidOperation reason)).
Definition of_contract {A} (r : result A ContractError) : P A :=
  match r with Ok a => pret a | Err e => pfail (Contract e) end.

Definition constant_type (c : Constant) : ValueType :=
  match c with
  | KUnit => VtUnit | KBool _ => VtBool | KI32 _ => VtI32 | KI64 _ => VtI64 | KF32 _ => VtF32
  | KF64 _ => VtF64 | KU64 _ => VtU64 | KStr _ => VtStr | KChar _ => VtChar
  end.

(** [operation::verify]. *)
Definition verify_operation (f : MirFunction) (i : Instruction) : P unit :=
  match i with
  | Convert dst src conversion =>
      match conversion_contract conversion with
      | None => invalid_operation "invalid numeric conversion"
      | Some (input, output) =>
          expect (value_ty src) (builtin_representation input) "conversion source" ;;>
          expect (value_ty dst) (builtin_representation output) "conversion destination"
      end
  | Numeric dst operation lhs rhs =>
      match operation_contract operation with
      | None => invalid_operation "invalid numeric contract"
      | Some s =>
          expect (value_ty lhs) (builtin_representation (sig_left s)) "numeric input" ;;>
          expect (value_ty dst) (builtin_representation (sig_output s)) "numeric output" ;;>
          match sig_right s, rhs with
          | Some ty, Some value => expect (value_ty value) (builtin_representation ty) "numeric rhs"
          | None, None => pret tt
          | _, _ => invalid_operation "numeric arity"
          end
      end
  | LoadConst dst c => expect (value_ty dst) (constant_type c) "constant destination"
  | LoadLocal dst l => do ty := verify_local f l in expect (value_ty dst) ty "local load"
  | StoreLocal l src => do ty := verify_local f l in expect (value_ty src) ty "local store"
  | Move dst src => expect (value_ty dst) (value_ty src) "move destination"
  | Unary dst op operand =>
      do ty := of_contract (unary_result op (value_ty operand)) in
      expect (value_ty dst) ty "unary destination"
  | Binary dst op lhs rhs =>
      do ty := of_contract (binary_result op (value_ty lhs) (value_ty rhs)) in
      expect (value_ty dst) ty "binary destination" ;;>
      (match op with
       | BoIdentityEq | BoIdentityNotEq =>
           if forallb (λ v, match registers f !! temp v with
                            | Some ty => object_identity_type ty
                            | None => false
                            end) [lhs; rhs]
           then pret tt else pfail UnsupportedCall
       | _ => pret tt
       end)
  | _ => other i
  end.

(** The body of the instruction loop of [verify_function]. *)
Definition verify_instruction (f : MirFunction) (effect : EffectSet) (i : Instruction) : P EffectSet :=
  check_cancel ;;>
  do _ := fold_each (λ _, verify_value f) tt (inputs i) in
  do _ := (match output i with Some dst => verify_value f dst | None => pret tt end) in
  verify_operation f i ;;>
  pret (Effect.union effect (effects i)).

Definition verify_terminator (f : MirFunction) (t : Terminator) : P unit :=
  do _ := fold_each (λ _ target, if length (blocks f) <=? target then pfail (InvalidBlock target)
                                 else pret tt) tt (successors t) in
  match t with
  | Return value =>
      if bool_decide (return_type f = VtNever)
      then invalid_operation "Never function cannot return"
      else
        do _ := (match value with Some v => verify_value f v | None => pret tt end) in
        expect (match value with Some v => value_ty v | None => VtUnit end) (return_type f)
          "return value"
  | Branch cond _ _ =>
      verify_value f cond ;;> expect (value_ty cond) VtBool "branch condition"
  | _ => pret tt
  end.

Definition u32_max : Z := 2 ^ 32 - 1.

(** One block of the body loop; the state is the running effects and [count]. *)
Definition verify_block (f : MirFunction) (s : EffectSet * Z) (b : BasicBlock) : P (EffectSet * Z) :=
  check_cancel ;;>
  let count := Z.min usize_max (Z.min usize_max (snd s + Z.of_nat (length (instructions b))) + 1) in
  if (u32_max <? count)%Z then (λ _, Err (PfLimit u32_max))
  else if negb ((length (instructions b) =? length (instruction_spans b))
                && (length (instructions b) =? length (instruction_scopes b))
                && match terminator_scope b with
                   | Some scope => forallb (λ scope, scope <? length (lexical_scopes f))
                                     (instruction_scopes b ++ [scope])
                   | None => false
                   end)
  then pfail InvalidDebugMetadata
  else
    match terminator b with
    | None => pfail MissingTerminator
    | Some t =>
        do effect := fold_each (verify_instruction f) (fst s) (instructions b) in
        verify_terminator f t ;;>
        pret (Effect.union effect (terminator_effects t), count)
    end.

(** The loop of [verify_function] over the blocks, and the declared effects. *)
Definition verify_blocks (f : MirFunction) : P unit :=
  do s := fold_each (verify_block f) (Effect.default, 0%Z) (blocks f) in
  if bool_decide (Effect.union (function_effects f) (fst s) = function_effects f) then pret tt
  else pfail MissingEffects.

(** ** Parameters and debug metadata *)
Definition u16_max : Z := 2 ^ 16 - 1.
Definition limit (count : nat) (bound : Z) : P unit :=
  if (bound <? Z.of_nat count)%Z then (λ _, Err (PfLimit bound)) else pret tt.
Definition verify_limits (f : MirFunction) : P unit :=
  do _ := fold_each (λ _ count, limit count u16_max) tt
            [length (params f); length (locals f); length (temps f)] in
  limit (length (blocks f)) u32_max.

Definition verify_param (f : MirFunction) (index : nat) (param : MirParameter) : P nat :=
  check_cancel ;;>
  if negb (param_local param =? index) then pfail InvalidParameterLayout
  else
    do ty := verify_local f (param_local param) in
    expect ty (param_ty param) "parameter local" ;;> pret (S index).
Definition verify_params (f : MirFunction) : P unit :=
  fold_each (verify_param f) 0 (params f) ;;> pret tt.

Definition verify_debug_local (f : MirFunction) (ids : gset nat) (info : MirLocalDebugInfo)
    : P (gset nat) :=
  check_cancel ;;>
  if decide (dl_local info ∈ ids) then pfail InvalidDebugMetadata
  else
    do ty := verify_local f (dl_local info) in
    expect ty (dl_ty info) "debug local" ;;>
    if negb (eqb (dl_is_parameter info) (dl_local info <? length (params f)))
    then pfail InvalidDebugMetadata else pret ({[dl_local info]} ∪ ids).
Definition verify_debug_locals (f : MirFunction) : P (gset nat) :=
  do ids := fold_each (verify_debug_local f) ∅ (debug_locals f) in
  if existsb (λ param, negb (bool_decide (param_local param ∈ ids))) (params f)
  then pfail InvalidDebugMetadata else pret ids.

(** One scope after the root; the state is its index and the locals seen. *)
Definition verify_scope (f : MirFunction) (ids : gset nat) (s : nat * gset nat)
    (scope : MirLexicalScope) : P (nat * gset nat) :=
  check_cancel ;;>
  match scope_local scope with
  | None => pfail InvalidDebugMetadata
  | Some local =>
      if match scope_parent scope with None => true | Some parent => fst s <=? parent end
         || (local <? length (params f)) || bool_decide (local ∈ snd s)
         || negb (bool_decide (local ∈ ids))
      then pfail InvalidDebugMetadata else pret (S (fst s), {[local]} ∪ snd s)
  end.
Definition expected_scopes (f : MirFunction) : nat :=
  if length (debug_locals f) <? length (params f) then 0
  else length (debug_locals f) - length (params f) + 1.
Definition verify_scopes (f : MirFunction) (ids : gset nat) : P unit :=
  if negb (length (lexical_scopes f) =? expected_scopes f)
     || match head (lexical_scopes f) with
        | Some root => match scope_parent root, scope_local root with
                       | None, None => false | _, _ => true end
        | None => true
        end
  then pfail InvalidDebugMetadata
  else fold_each (verify_scope f ids) (1, ∅) (tail (lexical_scopes f)) ;;> pret tt.

(** verify/debug.rs. [origin_position] is a binary search; it is run after
    [verify_origin] has checked that the offsets are strictly increasing. *)
Definition origin_position (o : SourceOrigin) (offset : nat) : option SourcePosition :=
  snd <$> list_find (λ p, position_offset p = offset) (positions o).
Definition ordered (previous next : SourcePosition) : bool :=
  (position_offset previous <? position_offset next) &&
  let distance := position_offset next - position_offset previous in
  match position_line previous, position_line next with
  | Some first_line, Some last_line =>
      negb ((last_line <? first_line) || (distance <? last_line - first_line)) &&
      match position_column previous, position_column next with
      | Some first, Some last =>
          if first_line =? last_line then first + distance =? last
          else if first_line <? last_line then last <=? distance else true
      | None, Some last => if first_line <? last_line then last <=? distance else true
      | _, _ => true
      end
  | _, _ => true
  end.
Definition position_invalid (o : SourceOrigin) (previous : option SourcePosition)
    (p : SourcePosition) : bool :=
  (origin_byte_len o <? position_offset p)
  || bool_decide (position_line p = Some 0) || bool_decide (position_column p = Some 0)
  || match position_line p with Some line => position_offset p <? line - 1 | None => false end
  || match position_column p with Some column => position_offset p <? column - 1 | None => false end
  || match previous with Some previous => negb (ordered previous p) | None => false end.
(** [mem::size_of::<SourcePosition>()]: an offset and two optional 32-bit numbers. *)
Definition source_position_bytes : Z := 24.
Definition verify_origin (o : SourceOrigin) : P unit :=
  let bytes := Z.min usize_max (Z.min usize_max (Z.of_nat (length (positions o)) * source_position_bytes)
                                + Z.of_nat (String.length (origin_uri o))) in
  if (64 * 1024 * 1024 <? bytes)%Z then (λ _, Err (PfLimit (64 * 1024 * 1024)))
  else if negb (bool_decide (head (positions o)
    = Some {| position_offset := 0; position_line := Some 1; position_column := Some 1 |}))
  then pfail InvalidDebugMetadata
  else
    fold_each (λ previous p, check_cancel ;;>
                 if position_invalid o previous p then pfail InvalidDebugMetadata
                 else pret (Some p)) None (positions o) ;;>
    pret tt.
Definition source_spans (f : MirFunction) : list Span :=
  {| start := 0; end_ := 0 |} :: source_span f :: (dl_span <$> debug_locals f)
  ++ (cb_span <$> captured_bindings f)
  ++ concat ((λ b, instruction_spans b ++ option_list (terminator_span b)) <$> blocks f).
Definition span_invalid (f : MirFunction) (span : Span) : bool :=
  (end_ span <? start span)
  || match debug_source f with
     | Some o => (origin_byte_len o <? end_ span)
                 || bool_decide (origin_position o (start span) = None)
                 || bool_decide (origin_position o (end_ span) = None)
     | None => false
     end.
Definition verify_debug (f : MirFunction) : P unit :=
  (match debug_source f with Some o => verify_origin o | None => pret tt end) ;;>
  fold_each (λ _ span, check_cancel ;;>
               if span_invalid f span then pfail InvalidDebugMetadata else pret tt) tt (source_spans f).

(** [verify_function] between the signature checks and the flow analysis. *)
Definition verify_body (f : MirFunction) : P unit :=
  verify_limits f ;;>
  if length (blocks f) <=? entry f then pfail (InvalidBlock (entry f))
  else
    verify_params f ;;>
    do ids := verify_debug_locals f in
    verify_scopes f ids ;;>
    verify_debug f ;;>
    verify_blocks f.

(** ** What a verified body satisfies *)
Definition value_fits (f : MirFunction) (v : MirValue) : Prop :=
  ∃ t, temps f !! temp v = Some t ∧ value_ty v = temp_ty t.

Record instruction_verified (f : MirFunction) (i : Instruction) : Prop := {
  iv_inputs : ∀ v, v ∈ inputs i → value_fits f v;
  iv_output : ∀ dst, output i = Some dst → value_fits f dst;
  iv_operation : succeeds (verify_operation f i) tt
}.

Record terminator_verified (f : MirFunction) (t : Terminator) : Prop := {
  tv_successors : ∀ b, b ∈ successors t → b < length (blocks f);
  tv_input : ∀ v, terminator_input t = Some v → value_fits f v;
  tv_type : match t with
            | Branch cond _ _ => value_ty cond = VtBool
            | Return value => match value with Some v => value_ty v | None => VtUnit end = return_type f
            | _ => True
            end
}.

Record block_verified (f : MirFunction) (b : BasicBlock) : Prop := {
  bv_instructions : ∀ i, i ∈ instructions b → instruction_verified f i;
  bv_terminator : ∃ t, terminator b = Some t ∧ terminator_verified f t;
  bv_columns : length (instruction_spans b) = length (instructions b)
               ∧ length (instruction_scopes b) = length (instructions b);
  bv_scopes : ∃ scope, terminator_scope b = Some scope
              ∧ ∀ s, s ∈ instruction_scopes b ++ [scope] → s < length (lexical_scopes f)
}.

Lemma succeeds_expect_type found expected label :
  succeeds (expect found expected label) tt → found = expected.
Proof.
  unfold expect, expect_type. case_bool_decide; [done|]. by intros ?%succeeds_fail.
Qed.
Lemma succeeds_value f v : succeeds (verify_value f v) tt → value_fits f v.
Proof.
  unfold verify_value, value_fits. destruct (temps f !! temp v) as [t|]; [|by intros ?%succeeds_fail].
  intros ?%succeeds_expect_type. eauto.
Qed.
Lemma succeeds_contract {A} (r : result A ContractError) a : succeeds (of_contract r) a → r = Ok a.
Proof. destruct r; simpl; [by intros ->%succeeds_ret|by intros ?%succeeds_fail]. Qed.

Lemma succeeds_unit_each {A} (body : A → P unit) l u :
  succeeds (fold_each (λ _, body) tt l) u → ∀ x, x ∈ l → succeeds (body x) tt.
Proof. intros Hs x Hx. by destruct (succeeds_fold_each _ _ _ _ Hs x Hx) as ([] & [] & ?). Qed.

Lemma verify_instruction_sound f e i e' :
  succeeds (verify_instruction f e i) e' → instruction_verified f i.
Proof.
  intros ([] & _ & (u & Hin & ([] & Hout & ([] & Hop & _)%succeeds_bind)%succeeds_bind)%succeeds_bind)%succeeds_bind.
  split; [|intros dst Hdst; rewrite Hdst in Hout; by apply succeeds_value|done].
  intros v Hv. by apply succeeds_value, (succeeds_unit_each _ _ _ Hin).
Qed.

Lemma verify_terminator_sound f t u : succeeds (verify_terminator f t) u → terminator_verified f t.
Proof.
  destruct u. intros (u' & Hs & Ht)%succeeds_bind. split.
  - intros b Hb. apply (succeeds_unit_each _ _ _ Hs) in Hb. destruct (_ <=? b) eqn:E.
    + by apply succeeds_fail in Hb.
    + by apply Nat.leb_gt in E.
  - intros v Hv. destruct t as [r|b|c x y|]; simplify_eq/=.
    + case_bool_decide; [by apply succeeds_fail in Ht|].
      apply succeeds_bind in Ht as ([] & Hval & _). by apply succeeds_value.
    + apply succeeds_bind in Ht as ([] & Hval & _). by apply succeeds_value.
  - destruct t as [r|b|c x y|]; try done.
    + case_bool_decide; [by apply succeeds_fail in Ht|]. by apply succeeds_bind in Ht as (? & _ & ?%succeeds_expect_type).
    + by apply succeeds_bind in Ht as (? & _ & ?%succeeds_expect_type).
Qed.

Lemma verify_block_sound f s b s' : succeeds (verify_block f s b) s' → block_verified f b.
Proof.
  intros ([] & _ & Hb)%succeeds_bind. cbv zeta in Hb.
  destruct (_ <? _)%Z; [by destruct Hb as (? & ? & ?)|].
  destruct (negb _) eqn:Hdebug; [by apply succeeds_fail in Hb|].
  apply negb_false_iff in Hdebug. rewrite !andb_true_iff, !Nat.eqb_eq in Hdebug.
  destruct (terminator b) as [t|] eqn:Et; [|by apply succeeds_fail in Hb].
  apply succeeds_bind in Hb as (e & Hi & (u & Ht & _)%succeeds_bind). split.
  - intros i Hin. destruct (succeeds_fold_each _ _ _ _ Hi i Hin) as (e1 & e2 & ?).
    by eapply verify_instruction_sound.
  - exists t. split; [done|]. by eapply verify_terminator_sound.
  - destruct Hdebug as [[? ?] _]. done.
  - destruct Hdebug as [_ Hsc]. destruct (terminator_scope b) as [scope|]; [|done]. exists scope.
    split; [done|]. intros x Hx%list_elem_of_In. rewrite forallb_forall in Hsc. by apply Nat.ltb_lt, Hsc.
Qed.

Lemma verify_blocks_sound f : succeeds (verify_blocks f) tt →
  ∀ b, b ∈ blocks f → block_verified f b.
Proof.
  intros (s & Hs & _)%succeeds_bind b Hb.
  destruct (succeeds_fold_each _ _ _ _ Hs b Hb) as (s1 & s2 & ?). by eapply verify_block_sound.
Qed.

(** Parameters are the first locals; scopes form a forest over the others. *)
Record layout_verified (f : MirFunction) : Prop := {
  lv_params : ∀ p, p ∈ params f → param_local p < length (locals f);
  lv_scopes : ∀ k scope, lexical_scopes f !! k = Some scope →
    (∀ parent, scope_parent scope = Some parent → parent < k)
    ∧ ∀ l, scope_local scope = Some l → l < length (locals f)
}.

Lemma succeeds_local f l ty : succeeds (verify_local f l) ty → l < length (locals f).
Proof.
  unfold verify_local. destruct (locals f !! l) eqn:E; [|by intros ?%succeeds_fail].
  intros _. by eapply lookup_lt_Some.
Qed.
Lemma verify_params_sound f u : succeeds (verify_params f) u →
  ∀ p, p ∈ params f → param_local p < length (locals f).
Proof.
  intros (n & Hs & _)%succeeds_bind p Hp.
  destruct (succeeds_fold_each _ _ _ _ Hs p Hp) as (i & j & (? & _ & Hb)%succeeds_bind).
  destruct (negb _); [by apply succeeds_fail in Hb|].
  apply succeeds_bind in Hb as (ty & Hl & _). by eapply succeeds_local.
Qed.
Lemma verify_debug_locals_sound f ids : succeeds (verify_debug_locals f) ids →
  ∀ l, l ∈ ids → l < length (locals f).
Proof.
  intros (ids' & Hs & Hr)%succeeds_bind. destruct (existsb _ _); [by apply succeeds_fail in Hr|].
  apply succeeds_ret in Hr as <-.
  apply (succeeds_fold_inv _ (λ _ ids, ∀ l, l ∈ ids → l < length (locals f)) _ _ _ Hs); [set_solver|].
  intros p info s s' _ Hi (? & _ & Hb)%succeeds_bind. case_decide; [by apply succeeds_fail in Hb|].
  apply succeeds_bind in Hb as (ty & Hl & ([] & _ & Hb)%succeeds_bind).
  destruct (negb _); [by apply succeeds_fail in Hb|]. apply succeeds_ret in Hb as <-.
  intros l. rewrite elem_of_union, elem_of_singleton. intros [->|]; [by eapply succeeds_local|auto].
Qed.
Lemma verify_scopes_sound f ids u : succeeds (verify_scopes f ids) u → (∀ l, l ∈ ids → l < length (locals f)) →
  ∀ k scope, lexical_scopes f !! k = Some scope →
    (∀ parent, scope_parent scope = Some parent → parent < k)
    ∧ ∀ l, scope_local scope = Some l → l < length (locals f).
Proof.
  intros Hs Hids. unfold verify_scopes in Hs. destruct (lexical_scopes f) as [|root rest]; [done|].
  destruct (negb _ || _) eqn:E; [by apply succeeds_fail in Hs|].
  apply orb_false_iff in E as [_ Hroot]. apply succeeds_bind in Hs as (s' & Hs & _).
  simpl in *. destruct (scope_parent root) eqn:Er, (scope_local root) eqn:El; try done.
  intros [|k] scope; simpl; [intros [= <-]; by rewrite Er, El|].
  assert (length rest + 1 = fst s' ∧ ∀ k scope, rest !! k = Some scope →
    (∀ parent, scope_parent scope = Some parent → parent < S k)
    ∧ ∀ l, scope_local scope = Some l → l < length (locals f)) as [_ Hall]; [|by apply Hall].
  apply (succeeds_fold_inv _ (λ p s, length p + 1 = fst s ∧ ∀ k scope, p !! k = Some scope →
    (∀ parent, scope_parent scope = Some parent → parent < S k)
    ∧ ∀ l, scope_local scope = Some l → l < length (locals f)) _ _ _ Hs); [done|].
  intros p x s s1 _ [Hlen Hi] (? & _ & Hb)%succeeds_bind.
  destruct (scope_local x) as [local|] eqn:Ex; [|by apply succeeds_fail in Hb].
  destruct (_ || _ || _ || _) eqn:E in Hb; [by apply succeeds_fail in Hb|].
  apply succeeds_ret in Hb as <-. rewrite !orb_false_iff in E. destruct E as [[[Hp _] _] Hin].
  apply negb_false_iff, bool_decide_eq_true in Hin. split; [rewrite length_app; simpl; lia|].
  intros k' sc. rewrite lookup_app_Some. intros [Hk|[Hge Hk]]; [by apply Hi|].
  apply list_lookup_singleton_Some in Hk as [Hk ->]. assert (k' = length p) as -> by lia. split.
  - intros parent Hpar. rewrite Hpar in Hp. apply Nat.leb_gt in Hp. lia.
  - intros l Hl. rewrite Ex in Hl. injection Hl as <-. auto.
Qed.

Lemma verify_body_sound f : succeeds (verify_body f) tt →
  entry f < length (blocks f) ∧ layout_verified f ∧ ∀ b, b ∈ blocks f → block_verified f b.
Proof.
  intros (u & _ & Hs)%succeeds_bind. destruct (_ <=? _) eqn:E; [by apply succeeds_fail in Hs|].
  apply Nat.leb_gt in E.
  apply succeeds_bind in Hs as (u1 & Hp & (ids & Hd & (u2 & Hsc & ([] & _ & Hb)%succeeds_bind)%succeeds_bind)%succeeds_bind).
  split_and!; [done| |by apply verify_blocks_sound]. split; [by eapply verify_params_sound|].
  eapply verify_scopes_sound; [done|]. by eapply verify_debug_locals_sound.
Qed.
End Verify.
