(* ===== verification/MirFold.v ===== *)
(** * Constant folding

    Models [kagari-mir/src/passes/scalar.rs] (the copyable scalar facts and their
    evaluation) and [passes/constants.rs] (the forward sweep of each block that
    replaces instructions by constants and branches by jumps), and proves that the
    sweep leaves the meaning of every block as it was. *)
From stdpp Require Import gmap.
From S2P Require Import Prelude Integer Scalar Payload RuntimeNumeric Contracts NumericProps Token.
From S2P Require Import Mir Pass MirSemantics MirVerify.
Open Scope Z_scope.

(** ** passes/scalar.rs *)
Inductive Fact : Set :=
| ScUnit | ScBool (b : bool) | ScI32 (z : Z) | ScI64 (z : Z) | ScU64 (z : Z) | ScChar (c : Z).
#[export] Instance Fact_eq_dec : EqDecision Fact.
Proof. solve_decision. Defined.

Definition from_constant (c : Constant) : option Fact :=
  match c with
  | KUnit => Some ScUnit
  | KBool b => Some (ScBool b)
  | KI32 z => Some (ScI32 z)
  | KI64 z => Some (ScI64 z)
  | KU64 z => Some (ScU64 z)
  | KChar c => Some (ScChar c)
  | _ => None
  end.

Definition constant (s : Fact) : Constant :=
  match s with
  | ScUnit => KUnit | ScBool b => KBool b | ScI32 z => KI32 z | ScI64 z => KI64 z
  | ScU64 z => KU64 z | ScChar c => KChar c
  end.

Definition fact_integer (s : Fact) : option Z :=
  match s with ScI32 z | ScI64 z | ScU64 z => Some z | _ => None end.

Definition fits (s : Fact) (ty : option Ty) : bool :=
  match ty, fact_integer s with
  | Some (TyBuiltin kind), Some value =>
      match integer_bounds kind with
      | None => true
      | Some (min, max) => (min <=? value) && (value <=? max)
      end
  | _, _ => true
  end.

Definition fact_unary (s : Fact) (op : UnaryOp) : option Fact :=
  match op, s with
  | Not, ScBool value => Some (ScBool (negb value))
  | Neg, ScI32 value => ScI32 <$> res_ok (i32_neg value)
  | Neg, ScI64 value => ScI64 <$> res_ok (i64_neg value)
  | _, _ => None
  end.

Definition fact_read_integer (s : Fact) (kind : BuiltinType) : option Z :=
  representation ← (match s with
                    | ScI32 _ => Some VtI32 | ScI64 _ => Some VtI64 | ScU64 _ => Some VtU64
                    | _ => None
                    end);
  if negb (bool_decide (representation = builtin_representation kind)) then None
  else
    value ← fact_integer s;
    bounds ← integer_bounds kind;
    if (bounds.1 <=? value) && (value <=? bounds.2) then Some value else None.

(** [result.try_into().ok()?] into a machine integer. *)
Definition try_into (bits : Z) (signed : bool) (z : Z) : option Z :=
  if Std.in_range bits signed z then Some z else None.

Definition fact_numeric (s : Fact) (operation : NumericOperation) (rhs : option Fact) : option Fact :=
  _ ← operation_contract operation;
  lhs ← fact_read_integer s (num_input operation);
  rhs ← (match num_rhs operation, rhs with
         | Some kind, Some rhs => fact_read_integer rhs kind
         | None, None => Some 0
         | _, _ => None
         end);
  lay ← integer_layout (num_input operation);
  result ← res_ok (integer_operation (num_op operation) lhs rhs lay.1 lay.2);
  match builtin_representation (num_input operation) with
  | VtI32 => ScI32 <$> try_into 32 true result
  | VtI64 => ScI64 <$> try_into 64 true result
  | VtU64 => ScU64 <$> try_into 64 false result
  | _ => None
  end.

Definition fact_compare (a b : Fact) : option comparison :=
  match a, b with
  | ScUnit, ScUnit => Some Eq
  | ScBool a, ScBool b => Some (Bool.compare a b)
  | ScI32 a, ScI32 b | ScI64 a, ScI64 b | ScU64 a, ScU64 b | ScChar a, ScChar b => Some (a ?= b)
  | _, _ => None
  end.
Definition fact_condition (op : ContractBinaryOp) (c : comparison) : option bool :=
  match op with
  | BoEq => Some (match c with Eq => true | _ => false end)
  | BoNotEq => Some (match c with Eq => false | _ => true end)
  | BoLt => Some (match c with Lt => true | _ => false end)
  | BoGt => Some (match c with Gt => true | _ => false end)
  | BoLe => Some (match c with Gt => false | _ => true end)
  | BoGe => Some (match c with Lt => false | _ => true end)
  | _ => None
  end.
Definition fact_arithmetic (op : ContractBinaryOp) : option IntegerBinaryOp :=
  match op with
  | BoAdd => Some OpAdd | BoSub => Some OpSub | BoMul => Some OpMul | BoDiv => Some OpDiv
  | BoRem => Some OpRem | _ => None
  end.

Definition fact_binary (s : Fact) (op : ContractBinaryOp) (rhs : Fact) : option Fact :=
  match op with
  | BoNumeric operation => fact_numeric s operation (Some rhs)
  | _ =>
      comparison ← fact_compare s rhs;
      match fact_condition op comparison with
      | Some condition => Some (ScBool condition)
      | None =>
          arithmetic ← fact_arithmetic op;
          match s, rhs with
          | ScI32 a, ScI32 b => ScI32 <$> res_ok (i32_binary arithmetic a b)
          | ScI64 a, ScI64 b => ScI64 <$> res_ok (i64_binary arithmetic a b)
          | ScU64 _, ScU64 _ =>
              fact_numeric s {| num_op := checked_op arithmetic; num_input := BtU64;
                                num_rhs := Some BtU64 |} (Some rhs)
          | _, _ => None
          end
      end
  end.

(** ** passes/constants.rs *)
Section Simplify.
Context `{CallContracts}.

(** [values[index]]. *)
Definition read_fact (values : list (option Fact)) (v : MirValue) : P (option Fact) :=
  pexpect (values !! temp v).

Definition evaluate_fact (i : Instruction) (values : list (option Fact)) : P (option Fact) :=
  match i with
  | LoadConst _ constant => pret (from_constant constant)
  | Move _ src => read_fact values src
  | Unary _ op operand =>
      do v := read_fact values operand in pret (v ≫= λ v, fact_unary v op)
  | Binary _ op lhs rhs =>
      do l := read_fact values lhs in
      match l with
      | None => pret None
      | Some l => do r := read_fact values rhs in pret (r ≫= fact_binary l op)
      end
  | Numeric _ operation lhs rhs =>
      do l := read_fact values lhs in
      match l, rhs with
      | None, _ => pret None
      | Some l, None => pret (fact_numeric l operation None)
      | Some l, Some rhs =>
          do r := read_fact values rhs in
          pret (r ≫= λ r, fact_numeric l operation (Some r))
      end
  | _ => pret None
  end.

Definition is_load_const (i : Instruction) : bool :=
  match i with LoadConst _ _ => true | _ => false end.

(** One instruction of the sweep; the state is [values] and the statistics. *)
Definition simplify_instruction (registers : gmap nat Ty)
    (s : list (option Fact) * PassStatistics) (i : Instruction)
    : P (list (option Fact) * PassStatistics * Instruction) :=
  charge 1 ;;>
  let '(values, statistics) := s in
  do value := evaluate_fact i values in
  do r :=
    (match output i with
     | None => pret (values, statistics, i)
     | Some dst =>
         let value := v ← value; if fits v (registers !! temp dst) then Some v else None in
         do _ := pexpect (values !! temp dst) in
         let values := <[temp dst := value]> values in
         match value with
         | Some v =>
             if is_load_const i then pret (values, statistics, i)
             else pret (values, count_fold statistics, LoadConst dst (constant v))
         | None => pret (values, statistics, i)
         end
     end) in
  let '(values, statistics, i) := r in
  if calls (effects i)
  then charge (length values) ;;> pret (replicate (length values) None, statistics, i)
  else pret (values, statistics, i).

Definition simplify_terminator (values : list (option Fact)) (statistics : PassStatistics)
    (t : option Terminator) : P (PassStatistics * option Terminator) :=
  match t with
  | Some (Branch cond then_block else_block) =>
      do v := read_fact values cond in
      match v with
      | Some (ScBool condition) =>
          pret (count_branch statistics, Some (Jump (if condition then then_block else else_block)))
      | _ => pret (statistics, t)
      end
  | _ => pret (statistics, t)
  end.

Definition simplify_block (f : MirFunction) (statistics : PassStatistics) (b : BasicBlock)
    : P (PassStatistics * BasicBlock) :=
  charge (length (temps f)) ;;>
  do r := map_each (simplify_instruction (registers f))
            (replicate (length (temps f)) None, statistics) (instructions b) in
  charge 1 ;;>
  do t := simplify_terminator (fst (fst r)) (snd (fst r)) (terminator b) in
  pret (fst t, {| instructions := snd r; instruction_spans := instruction_spans b;
                  instruction_scopes := instruction_scopes b; terminator := snd t;
                  terminator_span := terminator_span b; terminator_scope := terminator_scope b |}).

Definition simplify_function (statistics : PassStatistics) (f : MirFunction)
    : P (PassStatistics * MirFunction) :=
  do r := map_each (simplify_block f) statistics (blocks f) in
  pret (fst r, with_blocks f (snd r)).

(** [constants::simplify] on the functions of a module. *)
Definition simplify (statistics : PassStatistics) (functions : list MirFunction)
    : P (PassStatistics * list MirFunction) :=
  map_each simplify_function statistics functions.
End Simplify.

(** ** Facts are what the runtime computes *)
Definition fact_value (s : Fact) : Value :=
  match s with
  | ScUnit => VUnit | ScBool b => VBool b | ScI32 z => VI32 z | ScI64 z => VI64 z
  | ScU64 z => VU64 z | ScChar c => VChar c
  end.
Definition fact_type (s : Fact) : ValueType :=
  match s with
  | ScUnit => VtUnit | ScBool _ => VtBool | ScI32 _ => VtI32 | ScI64 _ => VtI64
  | ScU64 _ => VtU64 | ScChar _ => VtChar
  end.
Definition fact_ok (s : Fact) : Prop := value_ok (fact_value s) = true.

Lemma fact_type_scalar s : is_Some (scalar_type (fact_type s)).
Proof. destruct s; by eexists. Qed.

Section FactSound.
Context `{FloatOps}.

Lemma fact_unary_sound s op ty r : unary_result op (fact_type s) = Ok ty → fact_ok s →
  fact_unary s op = Some r →
  unary op (fact_value s) = Ok (fact_value r) ∧ fact_ok r ∧ fact_type r = ty.
Proof.
  intros Hc Hs Hr.
  assert (∀ b z z', integer_neg b z = Ok z' → Std.in_range b true z' = true) as Hneg.
  { intros b z z'. unfold integer_neg, Std.checked_neg, Std.fit.
    destruct (Std.in_range b true (- z)) eqn:E; simpl; by intros [= <-]. }
  destruct op, s; try discriminate Hr; simpl in *; simplify_eq/=.
  - unfold i32_neg in *. destruct (integer_neg 32 z) eqn:E; simplify_eq/=. split_and!; [done| |done].
    by apply (Hneg 32) in E.
  - unfold i64_neg in *. destruct (integer_neg 64 z) eqn:E; simplify_eq/=. split_and!; [done| |done].
    by apply (Hneg 64) in E.
  - done.
Qed.

Lemma fact_read_sound s kind z : fact_read_integer s kind = Some z →
  fact_value s = integer_carrier kind z ∧ in_domain kind z = true
  ∧ fact_type s = builtin_representation kind.
Proof.
  unfold fact_read_integer, integer_bounds, in_domain. intros Hr.
  assert (∀ bits signed, integer_layout kind = Some (bits, signed) → 1 <= bits) as Hbits.
  { intros bits signed. unfold integer_layout. destruct (from_builtin kind) as [d|]; [|done].
    pose proof (valid_width_range _ (layout_valid d)). simpl. intros [= Hd]. rewrite Hd in *. simpl in *. lia. }
  destruct (integer_layout kind) as [[bits signed]|];
    [|destruct s; simpl in Hr; try done; by case_bool_decide].
  specialize (Hbits _ _ eq_refl). cbn [fmap option_fmap option_map] in Hr. rewrite bounds_eq in Hr by done.
  destruct s; simpl in Hr; try done; case_bool_decide as Hrep; simpl in Hr; try done;
    destruct (_ && _) eqn:Eb in Hr; simplify_eq/=; split_and!; try done;
    unfold integer_carrier; by rewrite <- Hrep.
Qed.

Lemma fact_numeric_sound s o rhs r : fact_numeric s o rhs = Some r →
  fixed_integer o (fact_value s) (fact_value <$> rhs) = Ok (fact_value r)
  ∧ fact_ok r ∧ fact_type r = builtin_representation (num_input o).
Proof.
  unfold fact_numeric. destruct (operation_contract o) as [sg|] eqn:Hc; simpl; [|done].
  destruct (fact_read_integer s (num_input o)) as [l|] eqn:Hl; simpl; [|done].
  apply fact_read_sound in Hl as (Hsv & Hld & Hst).
  destruct (match num_rhs o, rhs with Some _, Some _ => _ | None, None => _ | _, _ => _ end)
    as [z|] eqn:Hz; simpl; [|done].
  assert ((∀ ty, num_rhs o = Some ty → in_domain ty z = true)
    ∧ fact_value <$> rhs = (λ ty, integer_carrier ty z) <$> num_rhs o ∧ z = rhs_operand o z) as (Hrd & Hrv & Hzr).
  { unfold rhs_operand. destruct (num_rhs o) as [ty|], rhs as [r'|]; simplify_eq/=; try done.
    apply fact_read_sound in Hz as (? & ? & ?). split_and!; [by intros ? [= <-]|by f_equal|done]. }
  destruct (integer_layout (num_input o)) as [[bits signed]|] eqn:Hlay; simpl; [|done].
  destruct (fixed_integer_operation _ _ _ _ _ _ Hc Hlay Hld Hrd) as [_ Hfix].
  rewrite Hsv, Hrv, Hfix, <- Hzr. clear Hfix.
  destruct (integer_operation _ _ _ _ _) as [z'|] eqn:Hop; simpl; [|done].
  unfold integer_carrier, try_into, fact_ok.
  destruct (builtin_representation (num_input o)) eqn:Hrep; try done;
    destruct (Std.in_range _ _ z') eqn:Hrg; simpl; intros; simplify_eq/=; done.
Qed.

Lemma test_condition op bop c b : lower_binary_op op = Some bop → fact_condition op c = Some b →
  compare_with bop (Some c) = Ok (VBool b).
Proof. destruct op; intros; simplify_eq/=; by destruct c. Qed.

Lemma fact_compare_sound op bop s rhs c b ty :
  binary_result op (fact_type s) (fact_type rhs) = Ok ty → lower_binary_op op = Some bop →
  fact_compare s rhs = Some c → fact_condition op c = Some b →
  scalar_binary bop (fact_value s) (fact_value rhs) = Ok (VBool b) ∧ ty = VtBool.
Proof.
  intros Hc Hop Hcmp Hcond.
  assert (scalar_binary bop (fact_value s) (fact_value rhs)
          = RuntimeNumeric.compare bop (fact_value s) (fact_value rhs)) as ->
    by (destruct op; simplify_eq/=; done).
  pose proof (test_condition _ _ _ _ Hop Hcond) as Ht.
  destruct s, rhs; simplify_eq/=; unfold RuntimeNumeric.compare; simpl; rewrite ?Ht.
  all: try (split; [done|]; destruct op; simplify_eq/=; done).
  - destruct op; simplify_eq/=; done.
  - destruct op; simplify_eq/=; destruct b0, b1; simplify_eq/=; done.
Qed.

(** The unsigned arithmetic goes through the fixed-width kernel. *)
Lemma fact_u64_binary op a b r :
  Std.in_range 64 false a = true → Std.in_range 64 false b = true →
  fact_numeric (ScU64 a) {| num_op := checked_op op; num_input := BtU64; num_rhs := Some BtU64 |}
    (Some (ScU64 b)) = Some r →
  res_ok (u64_binary op a b) = fact_integer r ∧ fact_type r = VtU64.
Proof.
  intros Ha Hb. unfold fact_numeric.
  assert (∀ z r', Std.in_range 64 false z = true → fact_read_integer (ScU64 z) BtU64 = Some r' → r' = z) as Hread.
  { intros z r' Hz. unfold fact_read_integer. simpl. by case_match; intros [= <-]. }
  replace (operation_contract _) with
    (Some {| sig_left := BtU64; sig_right := Some BtU64; sig_output := BtU64 |}) by (by destruct op).
  cbn [num_input num_rhs num_op mbind option_bind].
  destruct (fact_read_integer (ScU64 a) BtU64) as [za|] eqn:Era; [|done]. apply Hread in Era as ->; [|done].
  destruct (fact_read_integer (ScU64 b) BtU64) as [zb|] eqn:Erb; [|done]. apply Hread in Erb as ->; [|done].
  change (integer_layout BtU64) with (Some (64, false)). cbn [mbind option_bind fst snd].
  rewrite integer_operation_checked by done. rewrite fixed_binary_in_range by done.
  change (u64_binary op a b) with (binary_ops 64 false op a b).
  destruct (binary_ops 64 false op a b) as [z|] eqn:E; [|done]. simpl.
  unfold try_into. rewrite (binary_ops_range 64 false op a b z ltac:(lia) Ha E). by intros [= <-].
Qed.

Lemma arithmetic_op op aop bop : fact_arithmetic op = Some aop → lower_binary_op op = Some bop →
  integer_binary_op bop = Some aop ∧ ∀ x y, scalar_binary bop x y = binary bop x y.
Proof.
  intros Ha Hl. destruct op; try discriminate Ha; injection Ha as <-; injection Hl as <-; by split.
Qed.
Lemma arithmetic_type op aop lt rt ty : fact_arithmetic op = Some aop →
  binary_result op lt rt = Ok ty → ty = lt.
Proof.
  intros Ha Hc. destruct op; try discriminate Ha; cbn [binary_result] in Hc;
    destruct (expect_type _ _ _); try discriminate Hc; cbn [res_bind] in Hc;
    destruct (numeric lt); try discriminate Hc; by injection Hc as ->.
Qed.

Lemma fact_binary_sound op s rhs ty r :
  binary_result op (fact_type s) (fact_type rhs) = Ok ty → fact_ok s → fact_ok rhs →
  fact_binary s op rhs = Some r →
  ∃ bop, lower_binary_op op = Some bop
    ∧ scalar_binary bop (fact_value s) (fact_value rhs) = Ok (fact_value r)
    ∧ fact_ok r ∧ fact_type r = ty.
Proof.
  intros Hc Hs Hr Hf. destruct (lower_binary_op op) as [bop|] eqn:Hop.
  2: { destruct op; try discriminate Hop; simpl in Hc; by destruct (expect_type _ _ _). }
  exists bop. split; [done|].
  assert ((∃ o, op = BoNumeric o) ∨ ¬ ∃ o, op = BoNumeric o) as [[o ->]|Hnn]
    by (destruct op; eauto; right; by intros [? ?]).
  { simpl in Hop. injection Hop as <-. simpl in Hf. destruct (fact_numeric_sound _ _ _ _ Hf) as (Hfix & Hok & Hty).
    split_and!; [done..|]. simpl in Hc. destruct (operation_contract o) as [sg|] eqn:Ho; [|done].
    rewrite (contract_signature _ _ Ho) in Hc. simpl in Hc. destruct (num_rhs o); [|done]. simpl in Hc.
    destruct (expect_type _ _ _); [|done]. simpl in Hc. destruct (expect_type _ _ _); [|done].
    simpl in Hc. by injection Hc as <-. }
  assert (fact_binary s op rhs =
    (c ← fact_compare s rhs;
     match fact_condition op c with
     | Some condition => Some (ScBool condition)
     | None => arithmetic ← fact_arithmetic op;
         match s, rhs with
         | ScI32 a, ScI32 b => ScI32 <$> res_ok (i32_binary arithmetic a b)
         | ScI64 a, ScI64 b => ScI64 <$> res_ok (i64_binary arithmetic a b)
         | ScU64 _, ScU64 _ =>
             fact_numeric s {| num_op := checked_op arithmetic; num_input := BtU64;
                               num_rhs := Some BtU64 |} (Some rhs)
         | _, _ => None
         end
     end)) as Heq by (destruct op; try done; by destruct Hnn; eexists).
  rewrite Heq in Hf. clear Heq. destruct (fact_compare s rhs) as [c|] eqn:Hcmp; [|done]. simpl in Hf.
  destruct (fact_condition op c) as [b|] eqn:Hcond.
  { injection Hf as <-. by destruct (fact_compare_sound _ _ _ _ _ _ _ Hc Hop Hcmp Hcond) as [-> ->]. }
  destruct (fact_arithmetic op) as [aop|] eqn:Har; [|done]. simpl in Hf.
  destruct (arithmetic_op _ _ _ Har Hop) as [Hib Hsb]. pose proof (arithmetic_type _ _ _ _ _ Har Hc) as ->.
  rewrite Hsb. unfold fact_ok in *.
  assert (∀ x y, binary bop x y = match x, y with
    | VI32 l, VI32 r => integer_kernel i32_binary VI32 bop l r
    | VI64 l, VI64 r => integer_kernel i64_binary VI64 bop l r
    | VU64 l, VU64 r => integer_kernel u64_binary VU64 bop l r
    | VF32 l, VF32 r => res_map (λ bits, VF32 (Std.cast 32 false bits)) (float_bits F32 bop l r)
    | VF64 l, VF64 r => res_map VF64 (float_bits F64 bop l r)
    | _, _ => Err (script_trap "arithmetic requires matching numeric operands")
    end) as Hbin by (destruct bop; done).
  rewrite Hbin. unfold integer_kernel. rewrite Hib. destruct s, rhs; try done; simpl in *.
  - unfold i32_binary in *. destruct (binary_ops 32 true aop z z0) eqn:E; simplify_eq/=.
    split_and!; [done| |done]. by apply (binary_ops_range 32) in E; [|lia|].
  - unfold i64_binary in *. destruct (binary_ops 64 true aop z z0) eqn:E; simplify_eq/=.
    split_and!; [done| |done]. by apply (binary_ops_range 64) in E; [|lia|].
  - destruct (fact_u64_binary _ _ _ _ Hs Hr Hf) as [Hu Hty]. unfold u64_binary in *.
    destruct (binary_ops 64 false aop z z0) eqn:E; destruct r; simplify_eq/=.
    split_and!; [done| |done]. by apply (binary_ops_range 64) in E; [|lia|].
Qed.
End FactSound.

(** ** The sweep preserves meaning *)

(** The range of a constant's Rust type. *)
Definition constant_typed (c : Constant) : Prop :=
  match c with
  | KI32 z => Std.in_range 32 true z = true
  | KI64 z => Std.in_range 64 true z = true
  | KU64 z => Std.in_range 64 false z = true
  | KChar c => is_scalar_value c = true
  | _ => True
  end.
Definition constants_typed `{CallContracts} (i : Instruction) : Prop :=
  match i with LoadConst _ c => constant_typed c | _ => True end.

Section Sweep.
#[local] Open Scope nat_scope.
Context `{CallContracts} `{FloatOps} {W : Type} `{!Host W}.
Context (other : Instruction → P unit) (f : MirFunction).
Notation verified := (instruction_verified other f).

Definition fact_holds (s : MirState W) (t : nat) (r : Fact) : Prop :=
  temp_values s !! t = Some (fact_value r) ∧ fact_ok r
  ∧ ∃ mt, temps f !! t = Some mt ∧ temp_ty mt = fact_type r.
Definition facts_hold (values : list (option Fact)) (s : MirState W) : Prop :=
  ∀ t r, values !! t = Some (Some r) → fact_holds s t r.

Lemma facts_none n s : facts_hold (replicate n None) s.
Proof. intros t r Hr. by apply lookup_replicate in Hr as [? _]. Qed.

(** A fact about an annotated operand gives its value and its type. *)
Lemma fact_operand values s v r : facts_hold values s → value_fits f v →
  values !! temp v = Some (Some r) →
  read_temp s v = Some (fact_value r) ∧ fact_ok r ∧ value_ty v = fact_type r.
Proof.
  intros Hv (mt & Hmt & Hty) Hr. destruct (Hv _ _ Hr) as (Hval & Hok & mt' & Hmt' & Hty').
  simplify_eq. by rewrite Hty.
Qed.

(** What [evaluate] promises about its instruction. *)
Definition folds (values : list (option Fact)) (i : Instruction) (r : Fact) : Prop :=
  ∃ dst, output i = Some dst ∧ ∀ s, facts_hold values s →
    exec i s = Finished (set_temp dst (fact_value r) s) ∧ fact_ok r ∧ fact_type r = value_ty dst.

Lemma prun_read_fact values v (Q : option Fact → Prop) : temp v < length values →
  (∀ r, values !! temp v = Some r → Q r) → prun (read_fact values v) Q.
Proof.
  intros Hlt HQ. unfold read_fact. destruct (lookup_lt_is_Some_2 _ _ Hlt) as [r Hr].
  eapply prun_expect; [done|]. by apply HQ.
Qed.

(** One lemma per kind of folded instruction: the facts about its operands
    give the result the runtime computes. *)
Lemma folds_const values dst c r : verified (LoadConst dst c) → constant_typed c →
  from_constant c = Some r → folds values (LoadConst dst c) r.
Proof.
  intros [_ _ Hop] Hct Hr. exists dst. split; [done|]. intros s _. apply succeeds_expect_type in Hop.
  destruct c; simplify_eq/=; by split_and!.
Qed.

Lemma folds_move values dst src r : verified (Move dst src) →
  values !! temp src = Some (Some r) → folds values (Move dst src) r.
Proof.
  intros [Hin _ Hop] Hr. exists dst. split; [done|]. intros s Hs. apply succeeds_expect_type in Hop.
  destruct (fact_operand _ _ _ _ Hs (Hin src ltac:(left)) Hr) as (Hv & Hok & Hty).
  unfold exec, operands. simpl. rewrite Hv. simpl. split_and!; [done..|congruence].
Qed.

Lemma folds_unary values dst op v a r : verified (Unary dst op v) →
  values !! temp v = Some (Some a) → fact_unary a op = Some r → folds values (Unary dst op v) r.
Proof.
  intros [Hin _ Hop] Ha Hr. exists dst. split; [done|]. intros s Hs.
  apply succeeds_bind in Hop as (ty & Hc%succeeds_contract & Hd%succeeds_expect_type).
  destruct (fact_operand _ _ _ _ Hs (Hin v ltac:(left)) Ha) as (Hv & Hok & Hty). rewrite Hty in Hc.
  destruct (fact_unary_sound _ _ _ _ Hc Hok Hr) as (Hu & Hok' & Hty').
  unfold exec, operands. simpl. rewrite Hv. simpl. rewrite Hu. split_and!; [done..|congruence].
Qed.

Lemma folds_binary values dst op l r a b x : verified (Binary dst op l r) →
  values !! temp l = Some (Some a) → values !! temp r = Some (Some b) →
  fact_binary a op b = Some x → folds values (Binary dst op l r) x.
Proof.
  intros [Hin _ Hop] Ha Hb Hx. exists dst. split; [done|]. intros s Hs.
  apply succeeds_bind in Hop as (ty & Hc%succeeds_contract & Hd).
  apply succeeds_bind in Hd as ([] & Hd%succeeds_expect_type & _).
  destruct (fact_operand _ _ _ _ Hs (Hin l ltac:(left)) Ha) as (Hl & Hokl & Htyl).
  destruct (fact_operand _ _ _ _ Hs (Hin r ltac:(right; left)) Hb) as (Hr & Hokr & Htyr).
  rewrite Htyl, Htyr in Hc.
  destruct (fact_binary_sound _ _ _ _ _ Hc Hokl Hokr Hx) as (bop & Hbop & Hbin & Hok & Hty).
  destruct (fact_type_scalar a) as [sty Hsty].
  unfold exec, operands. simpl. rewrite Hl, Hr. simpl. rewrite Htyl, Hsty. simpl. rewrite Hbop. simpl.
  rewrite Hbin. split_and!; [done..|congruence].
Qed.

Lemma folds_numeric values dst o l rhs a b x : verified (Numeric dst o l rhs) →
  values !! temp l = Some (Some a) →
  match rhs, b with
  | Some r, Some b => values !! temp r = Some (Some b)
  | None, None => True
  | _, _ => False
  end →
  fact_numeric a o b = Some x → folds values (Numeric dst o l rhs) x.
Proof.
  intros [Hin _ Hop] Ha Hb Hx. exists dst. split; [done|]. intros s Hs.
  destruct (fact_numeric_sound _ _ _ _ Hx) as (Hfix & Hok & Hty).
  destruct (fact_operand _ _ _ _ Hs (Hin l ltac:(left)) Ha) as (Hl & _ & _).
  assert (value_ty dst = builtin_representation (num_input o)) as Hd.
  { simpl in Hop. destruct (operation_contract o) as [sg|] eqn:Ho; [|by apply succeeds_fail in Hop].
    rewrite (contract_signature _ _ Ho) in Hop.
    apply succeeds_bind in Hop as ([] & _ & ([] & Hd%succeeds_expect_type & _)%succeeds_bind). done. }
  unfold exec, operands. destruct rhs as [r|], b as [b|]; try done; simpl in *.
  - destruct (fact_operand _ _ _ _ Hs (Hin r ltac:(right; left)) Hb) as (Hr & _ & _).
    rewrite Hl, Hr. simpl. rewrite Hfix. split_and!; [done..|congruence].
  - rewrite Hl. simpl. rewrite Hfix. split_and!; [done..|congruence].
Qed.

Lemma prun_evaluate values i : length values = length (temps f) → verified i → constants_typed i →
  prun (evaluate_fact i values) (λ o, ∀ r, o = Some r → folds values i r).
Proof.
  intros Hlen Hv Hct.
  assert (∀ v, v ∈ inputs i → temp v < length values) as Hlt.
  { intros v Hin. destruct (iv_inputs _ _ _ Hv v Hin) as (mt & Hmt & _). rewrite Hlen.
    by eapply lookup_lt_Some. }
  destruct i; try (apply prun_ret; by intros ? ?); cbn [evaluate_fact inputs] in *.
  - apply prun_bind, prun_read_fact; [apply Hlt; left|]. intros [l|] Hl; [|by apply prun_ret].
    destruct rhs as [rv|].
    + apply prun_bind, prun_read_fact; [apply Hlt; right; left|]. intros [r|] Hr; apply prun_ret; [|done].
      intros x Hx. by apply (folds_numeric _ _ _ _ _ l (Some r)).
    + apply prun_ret. intros x Hx. by apply (folds_numeric _ _ _ _ _ l None).
  - apply prun_ret. intros r. by apply folds_const.
  - apply prun_read_fact; [apply Hlt; left|]. intros o Ho r ->. by apply folds_move.
  - apply prun_bind, prun_read_fact; [apply Hlt; left|]. intros [a|] Ha; apply prun_ret; [|done].
    intros r Hr. by eapply folds_unary.
  - apply prun_bind, prun_read_fact; [apply Hlt; left|]. intros [a|] Ha; [|by apply prun_ret].
    apply prun_bind, prun_read_fact; [apply Hlt; right; left|]. intros [b|] Hb; apply prun_ret; [|done].
    intros r Hr. by eapply folds_binary.
Qed.

(** What one step of the sweep promises. *)
Definition step_sound (values values' : list (option Fact)) (i i' : Instruction) : Prop :=
  length values' = length (temps f) ∧
  ∀ s, facts_hold values s → exec i' s = exec i s ∧
    ∀ s', exec i s = Finished s' → facts_hold values' s'.

Lemma facts_frame values i s s' : facts_hold values s → exec i s = Finished s' → output i = None →
  facts_hold values s'.
Proof.
  intros Hs He Ho t r Hr. destruct (Hs t r Hr) as (Hv & Hok & Hty). split; [|done].
  rewrite (exec_frame i s s' t He); [done|]. intros dst Hd. by rewrite Ho in Hd.
Qed.
Lemma facts_update values i s s' dst o : facts_hold values s → exec i s = Finished s' →
  output i = Some dst → (∀ r, o = Some r → fact_holds s' (temp dst) r) →
  facts_hold (<[temp dst := o]> values) s'.
Proof.
  intros Hs He Ho Hr t r Hl. destruct (decide (t = temp dst)) as [->|Hne].
  - apply Hr. apply list_lookup_insert_Some in Hl as [(_ & -> & _)|[Hn _]]; [done|done].
  - rewrite list_lookup_insert_ne in Hl by done. destruct (Hs t r Hl) as (Hv & Hok & Hty). split; [|done].
    rewrite (exec_frame i s s' t He); [done|]. intros dst' Hd. rewrite Ho in Hd. by simplify_eq.
Qed.

Lemma prun_simplify_instruction values statistics i :
  length values = length (temps f) → verified i → constants_typed i →
  prun (simplify_instruction (registers f) (values, statistics) i)
    (λ r, step_sound values (fst (fst r)) i (snd r)).
Proof.
  intros Hlen Hv Hct. unfold simplify_instruction. apply prun_charge_bind. apply prun_bind.
  eapply prun_mono; [by apply prun_evaluate|]. intros value Hval.
  apply prun_bind. eapply prun_mono
    with (Q := λ r : list (option Fact) * PassStatistics * Instruction,
      step_sound values (fst (fst r)) i (snd r)).
  2: { intros [[values' st'] i'] Hs. simpl in Hs. destruct (calls (effects i')); [|by apply prun_ret].
    apply prun_charge_bind, prun_ret. simpl. destruct Hs as [Hl Hs]. split; [by rewrite length_replicate|].
    intros s Hf. split; [by apply Hs|]. intros s' _. apply facts_none. }
  destruct (output i) as [dst|] eqn:Ho.
  2: { apply prun_ret. split; [done|]. intros s Hs. split; [done|]. intros s' He. by eapply facts_frame. }
  destruct (iv_output _ _ _ Hv dst Ho) as (mt & Hmt & Hty).
  apply prun_bind. destruct (lookup_lt_is_Some_2 values (temp dst)) as [old Hold].
  { rewrite Hlen. by eapply lookup_lt_Some. }
  eapply prun_expect; [done|].
  set (v := v ← value; if fits v (registers f !! temp dst) then Some v else None).
  assert (∀ r, v = Some r → folds values i r) as Hfold.
  { intros r Hr. apply Hval. unfold v in Hr. destruct value as [x|]; [|done]. simpl in Hr.
    destruct (fits x _); [|done]. by simplify_eq. }
  assert (∀ s s' r, facts_hold values s → exec i s = Finished s' → v = Some r →
    fact_holds s' (temp dst) r) as Hnew.
  { intros s s' r Hs He Hr. destruct (Hfold r Hr) as (dst' & Hd & Hx). rewrite Ho in Hd. injection Hd as <-.
    destruct (Hx s Hs) as (He' & Hok & Ht). rewrite He in He'. injection He' as ->.
    split; [simpl; apply lookup_insert_eq|]. split; [done|]. exists mt. split; [done|]. congruence. }
  assert (∀ s s', facts_hold values s → exec i s = Finished s' →
    facts_hold (<[temp dst := v]> values) s') as Hupd.
  { intros s s' Hs He. eapply facts_update; eauto. }
  assert (length (<[temp dst := v]> values) = length (temps f)) as Hlen' by (by rewrite length_insert).
  destruct v as [r|] eqn:Hr; [|by apply prun_ret; split; [|split; eauto]].
  destruct (is_load_const i); apply prun_ret; (split; [done|]); intros s Hs; (split; [|eauto]); [done|].
  destruct (Hfold r eq_refl) as (dst' & Hd & Hx). rewrite Ho in Hd. injection Hd as <-.
  destruct (Hx s Hs) as (He & _). simpl. rewrite He. by destruct r.
Qed.

Notation blocks_verified := (block_verified other f).

Lemma prun_simplify_block statistics b : blocks_verified b →
  (∀ i, i ∈ instructions b → constants_typed i) →
  prun (simplify_block f statistics b) (λ r, ∀ s : MirState W, run_block (snd r) s = run_block b s).
Proof.
  intros [Hi (t & Ht & [Hts Htv _]) _ _] Hct. unfold simplify_block. apply prun_charge_bind, prun_bind.
  eapply prun_mono.
  { apply (prun_map_each _ _ (λ p (st : list (option Fact) * PassStatistics) out,
      length (fst st) = length (temps f) ∧ ∀ s : MirState W, exec_all out s = exec_all p s
        ∧ ∀ s', exec_all p s = Finished s' → facts_hold (fst st) s')).
    - simpl. rewrite length_replicate. split; [done|]. intros s. split; [done|].
      intros s' [= <-]. apply facts_none.
    - intros p x q [values st] out Hl (Hlen & Hinv). simpl in *.
      assert (x ∈ instructions b) as Hx by (rewrite Hl; set_solver).
      eapply prun_mono; [apply prun_simplify_instruction; auto|].
      intros [[values' st'] i'] [Hlen' Hs]. simpl in *. split; [done|]. intros s.
      rewrite !exec_all_app. destruct (Hinv s) as [-> Hf]. destruct (exec_all p s) as [s1| |]; try done.
      simpl. destruct (Hs s1 (Hf _ eq_refl)) as [-> Hn]. split; [done|].
      by destruct (exec x s1). }
  intros [[values st] out] (Hlen & Hinv). simpl in *. apply prun_charge_bind, prun_bind.
  eapply prun_mono with (Q := λ r : PassStatistics * option Terminator,
    ∃ t', snd r = Some t' ∧ ∀ s : MirState W, facts_hold values s → exec_terminator t' s = exec_terminator t s).
  - rewrite Ht. unfold simplify_terminator. destruct t as [r|tb|c x y|];
      try (apply prun_ret; eexists; by split).
    apply prun_bind. destruct (Htv c eq_refl) as (mt & Hmt & Hty). apply prun_read_fact.
    { rewrite Hlen. by eapply lookup_lt_Some. }
    intros o Ho. destruct o as [[|bl| | | |]|]; try (apply prun_ret; eexists; by split).
    apply prun_ret. eexists. split; [done|]. intros s Hs. simpl.
    destruct (Hs _ _ Ho) as (Hv & _). unfold read_temp. by rewrite Hv.
  - intros [st' o] (t' & Ho & Hex). simpl in Ho. subst o. apply prun_ret. intros s. unfold run_block. simpl.
    rewrite Ht. destruct (Hinv s) as [-> Hf]. destruct (exec_all (instructions b) s) as [s1| |]; try done.
    simpl. by rewrite Hex by auto.
Qed.
End Sweep.

Section Functions.
#[local] Open Scope nat_scope.
Context `{CallContracts} `{FloatOps} {W : Type} `{!Host W}.
Context (other : Instruction → P unit).

(** The two functions do the same from every block and state, for any number of
    blocks. *)
Definition same_meaning (f f' : MirFunction) : Prop :=
  ∀ n b (s : MirState W), run f' n b s = run f n b s.

Lemma run_blocks f f' : Forall2 (λ b b', ∀ s : MirState W, run_block b' s = run_block b s) (blocks f) (blocks f') →
  same_meaning f f'.
Proof.
  intros HF n. induction n as [|n IH]; intros b s; simpl; [done|].
  destruct (blocks f !! b) as [x|] eqn:Hx.
  - destruct (Forall2_lookup_l _ _ _ _ _ HF Hx) as (y & -> & Hy). simpl. rewrite Hy.
    destruct (run_block x s) as [[]| |]; simpl; auto.
  - rewrite (proj2 (lookup_ge_None _ _)); [done|]. rewrite <- (Forall2_length HF).
    by apply lookup_ge_None.
Qed.

Definition foldable (f : MirFunction) : Prop :=
  succeeds (verify_body other f) tt
  ∧ ∀ b i, b ∈ blocks f → i ∈ instructions b → constants_typed i.

Lemma prun_simplify_function statistics f : foldable f →
  prun (simplify_function statistics f)
    (λ r, same_meaning f (snd r)).
Proof.
  intros [(_ & _ & Hb)%verify_body_sound Hct]. unfold simplify_function. apply prun_bind. eapply prun_mono.
  { apply (prun_map_each _ _ (λ p _ out, Forall2 (λ b b', ∀ s : MirState W, run_block b' s = run_block b s) p out));
      [constructor|].
    intros p x q st out Hl HF. assert (x ∈ blocks f) as Hx by (rewrite Hl; set_solver).
    eapply prun_mono; [apply (prun_simplify_block other); eauto|].
    intros r Hr. apply Forall2_app; [done|]. by constructor. }
  intros [st out] HF. apply prun_ret. by apply run_blocks.
Qed.

(** C6: Constant folding preserves meaning. For functions whose bodies pass the
    verifier, the sweep never panics and fails only on a cancelled token or an
    exhausted budget. The functions it returns do exactly what the originals do:
    from any block and any state, for any host and any number of blocks, they
    return the same value, stop with the same error in the same world, or reach
    the same state. *)
Theorem constant_folding_sound statistics functions :
  (∀ f, f ∈ functions → foldable f) →
  prun (simplify statistics functions) (λ r, Forall2 same_meaning functions (snd r)).
Proof.
  intros Hf. unfold simplify.
  apply (prun_map_each _ _ (λ p _ out, Forall2 same_meaning p out)); [constructor|].
  intros p x q st out Hl HF. eapply prun_mono.
  - apply prun_simplify_function, Hf. rewrite Hl. set_solver.
  - intros r Hr. apply Forall2_app; [done|]. by constructor.
Qed.
End Functions.

(** A function [t2 = 2 + 3; return t2], with a branch that folds to a jump. *)
Section Sample.
#[local] Open Scope nat_scope.
#[local] Existing Instance no_contracts.
#[local] Existing Instance bitwise_floats.
Definition inert_host : Host unit :=
  {| perform := λ _ _ locals w, Ok (Some VUnit, locals, w);
     string_constant := λ _, VStr {| owner := 0; slot := 0; generation := 0 |} |}.
#[local] Existing Instance inert_host.

Definition i32_temp (n : nat) : MirValue := {| temp := n; value_ty := VtI32 |}.
Definition sample_block : BasicBlock :=
  {| instructions := [LoadConst (i32_temp 0) (KI32 2); LoadConst (i32_temp 1) (KI32 3);
       Binary (i32_temp 2) BoAdd (i32_temp 0) (i32_temp 1);
       Binary {| temp := 3; value_ty := VtBool |} BoLt (i32_temp 0) (i32_temp 2)];
     instruction_spans := replicate 4 {| start := 0; end_ := 0 |};
     instruction_scopes := [0; 0; 0; 0];
     terminator := Some (Branch {| temp := 3; value_ty := VtBool |} 1 0);
     terminator_span := None; terminator_scope := Some 0 |}.
Definition sample_exit : BasicBlock :=
  {| instructions := []; instruction_spans := []; instruction_scopes := [];
     terminator := Some (Return (Some (i32_temp 2)));
     terminator_span := None; terminator_scope := Some 0 |}.
Definition sample_function : MirFunction :=
  {| registers := ∅; local_types := ∅; params := []; return_type := VtI32; locals := [];
     temps := [{| temp_ty := VtI32 |}; {| temp_ty := VtI32 |}; {| temp_ty := VtI32 |}; {| temp_ty := VtBool |}];
     blocks := [sample_block; sample_exit]; entry := 0; function_effects := Effect.trap;
     debug_source := None; source_span := {| start := 0; end_ := 0 |};
     debug_locals := []; captured_bindings := []; lexical_scopes := [{| scope_parent := None; scope_local := None |}] |}.

Example sample_folds :
  match simplify no_statistics [sample_function] default_work with
  | Ok (statistics, [f], _) =>
      constants_folded statistics = 2 ∧ branches_simplified statistics = 1
      ∧ instructions <$> blocks f !! 0
        = Some [LoadConst (i32_temp 0) (KI32 2); LoadConst (i32_temp 1) (KI32 3);
                LoadConst (i32_temp 2) (KI32 5);
                LoadConst {| temp := 3; value_ty := VtBool |} (KBool true)]
      ∧ (terminator <$> blocks f !! 0) = Some (Some (Jump 1))
  | _ => False
  end.
Proof. vm_compute. auto. Qed.

Lemma constant_folding_sound_witness :
  foldable (λ _, pret tt) sample_function ∧
  prun (simplify no_statistics [sample_function])
    (λ r, Forall2 (same_meaning (W := unit)) [sample_function] (snd r)).
Proof.
  assert (foldable (λ _, pret tt) sample_function) as Hf.
  { split; [exists default_work; eexists; vm_compute; reflexivity|].
    intros b i Hb Hi. cbn [blocks sample_function] in Hb. rewrite !elem_of_cons, elem_of_nil in Hb.
    destruct Hb as [->|[->|[]]]; cbn [instructions sample_block sample_exit] in Hi;
      rewrite ?elem_of_cons, ?elem_of_nil in Hi; destruct_or? Hi; subst; done. }
  split; [exact Hf|]. apply (constant_folding_sound (λ _, pret tt)).
  intros f Hin. apply list_elem_of_singleton in Hin as ->. exact Hf.
Defined.
End Sample.
