(* ===== verification/SlotBits.v ===== *)
(** * Dense slot sets

    Models the bit vectors of [kagari-mir/src/verify/flow.rs] and
    [verify/analysis.rs] ([insert], [contains], [remove], the word-wise unions and
    intersections) and the [SlotSet] of [kagari-mir/src/analysis.rs].  A row is a
    vector of 64-bit words; [None] is an index past its end. *)
From S2P Require Import Prelude.
Open Scope nat_scope.

#[local] Arguments Nat.div : simpl never.
#[local] Arguments Nat.modulo : simpl never.

Definition u64_max : Z := (2 ^ 64 - 1)%Z.
Notation row := (list Z).

Definition mask (index : nat) : Z := Z.shiftl 1 (Z.of_nat (index mod 64)).

Definition row_contains (r : row) (index : nat) : option bool :=
  w ← r !! (index / 64); Some (negb (Z.land w (mask index) =? 0)%Z).
Definition row_insert (r : row) (index : nat) : option row :=
  w ← r !! (index / 64); Some (<[index / 64 := Z.lor w (mask index)]> r).
Definition row_remove (r : row) (index : nat) : option row :=
  w ← r !! (index / 64); Some (<[index / 64 := Z.land w (Z.lxor u64_max (mask index))]> r).

(** [for (word, other) in state.iter_mut().zip(other)]. *)
Fixpoint zip_words (op : Z → Z → Z) (r q : row) : row :=
  match r, q with
  | w :: r, x :: q => op w x :: zip_words op r q
  | _, _ => r
  end.
Definition row_and : row → row → row := zip_words Z.land.
Definition row_or : row → row → row := zip_words Z.lor.

(** [(temps + locals).div_ceil(64)]. *)
Definition row_words (slots : nat) : nat := (slots + 63) / 64.

(** ** analysis.rs *)
Record SlotSet : Set := { slot_words : row; slot_temps : nat; slot_locals : nat }.
Definition contains_temp (s : SlotSet) (t : nat) : option bool :=
  if t <? slot_temps s then row_contains (slot_words s) t else Some false.
Definition contains_local (s : SlotSet) (l : nat) : option bool :=
  if l <? slot_locals s then row_contains (slot_words s) (slot_temps s + l) else Some false.

(** ** Bits *)
Definition word_ok (w : Z) : Prop := (0 <= w < 2 ^ 64)%Z.
Definition row_ok (n : nat) (r : row) : Prop := length r = n ∧ ∀ k w, r !! k = Some w → word_ok w.
Definition bit (r : row) (i : nat) : bool :=
  match r !! (i / 64) with Some w => Z.testbit w (Z.of_nat (i mod 64)) | None => false end.

Lemma mask_bit i k : (0 <= k)%Z → Z.testbit (mask i) k = bool_decide (k = Z.of_nat (i mod 64)).
Proof.
  intros Hk. unfold mask. rewrite Z.shiftl_1_l, Z.pow2_bits_eqb by lia. symmetry.
  destruct (Z.eqb_spec (Z.of_nat (i mod 64)) k); case_bool_decide; congruence.
Qed.

Lemma land_mask w i : negb (Z.land w (mask i) =? 0)%Z = Z.testbit w (Z.of_nat (i mod 64)).
Proof.
  destruct (Z.testbit w _) eqn:E.
  - apply negb_true_iff, Z.eqb_neq. intros H0.
    pose proof (Z.land_spec w (mask i) (Z.of_nat (i mod 64))) as Hl.
    rewrite H0, Z.bits_0, E, mask_bit, bool_decide_eq_true_2 in Hl by lia. done.
  - apply negb_false_iff, Z.eqb_eq. apply Z.bits_inj'. intros k Hk.
    rewrite Z.bits_0, Z.land_spec, mask_bit by done. case_bool_decide; [subst; by rewrite E|apply andb_false_r].
Qed.

Lemma row_contains_spec r i : i < 64 * length r → row_contains r i = Some (bit r i).
Proof.
  intros Hi. unfold row_contains, bit.
  destruct (lookup_lt_is_Some_2 r (i / 64)) as [w Hw]; [by apply Nat.Div0.div_lt_upper_bound|].
  rewrite Hw. simpl. by rewrite land_mask.
Qed.

Lemma bit_insert r k f i w : r !! k = Some w →
  bit (<[k := f]> r) i = if bool_decide (i / 64 = k) then Z.testbit f (Z.of_nat (i mod 64)) else bit r i.
Proof.
  intros Hw. unfold bit. case_bool_decide as E.
  - subst k. rewrite list_lookup_insert_eq; [done|]. by eapply lookup_lt_Some.
  - by rewrite list_lookup_insert_ne.
Qed.

Lemma index_eq i j : i / 64 = j / 64 → i mod 64 = j mod 64 → i = j.
Proof. intros H1 H2. rewrite (Nat.div_mod_eq i 64), (Nat.div_mod_eq j 64). congruence. Qed.

Lemma word_ok_bits w : (0 <= w)%Z → (∀ k, (64 <= k)%Z → Z.testbit w k = false) → word_ok w.
Proof.
  intros H0 Hb. split; [done|]. destruct (decide (w = 0)%Z) as [->|Hne]; [done|].
  apply Z.log2_lt_pow2; [lia|]. destruct (Z.lt_ge_cases (Z.log2 w) 64) as [|Hge]; [done|].
  specialize (Hb _ Hge). rewrite Z.bit_log2 in Hb by lia. done.
Qed.
Lemma bits_word_ok w k : word_ok w → (64 <= k)%Z → Z.testbit w k = false.
Proof.
  intros [H0 H1] Hk. destruct (decide (w = 0)%Z) as [->|Hne]; [apply Z.bits_0|].
  apply Z.bits_above_log2; [lia|]. apply Z.lt_le_trans with 64%Z; [|lia]. apply Z.log2_lt_pow2; lia.
Qed.
Lemma mask_ok i : word_ok (mask i).
Proof.
  apply word_ok_bits; [apply Z.shiftl_nonneg; lia|]. intros k Hk. rewrite mask_bit by lia.
  apply bool_decide_eq_false_2. pose proof (Nat.mod_upper_bound i 64). lia.
Qed.
Lemma u64_max_bit k : (0 <= k < 64)%Z → Z.testbit u64_max k = true.
Proof.
  intros Hk. change u64_max with (Z.ones 64). rewrite Z.ones_spec_low by lia. done.
Qed.
Lemma u64_max_ok : word_ok u64_max.
Proof. done. Qed.

Lemma row_insert_spec n r i : row_ok n r → i < 64 * n →
  ∃ r', row_insert r i = Some r' ∧ row_ok n r' ∧ ∀ j, bit r' j = bool_decide (j = i) || bit r j.
Proof.
  intros [Hn Hw] Hi. unfold row_insert.
  destruct (lookup_lt_is_Some_2 r (i / 64)) as [w Hr]; [subst n; by apply Nat.Div0.div_lt_upper_bound|].
  rewrite Hr. simpl. eexists. split; [done|]. split.
  - split; [by rewrite length_insert|]. intros k x Hx.
    apply list_lookup_insert_Some in Hx as [(<- & <- & _)|[_ Hx]]; [|by eapply Hw].
    pose proof (Hw _ _ Hr) as Hok. pose proof (mask_ok i) as Hm.
    apply word_ok_bits; [apply Z.lor_nonneg; by destruct Hok, Hm|]. intros b Hb.
    rewrite Z.lor_spec, !bits_word_ok; done.
  - intros j. rewrite (bit_insert _ _ _ _ _ Hr). case_bool_decide as E.
    + rewrite Z.lor_spec, mask_bit by lia. unfold bit. rewrite E, Hr. rewrite orb_comm. f_equal.
      apply bool_decide_ext. split; [|by intros ->]. intros ?%Nat2Z.inj. by apply index_eq.
    + rewrite (bool_decide_eq_false_2 (j = i)); [done|]. by intros ->.
Qed.

Lemma row_remove_spec n r i : row_ok n r → i < 64 * n →
  ∃ r', row_remove r i = Some r' ∧ row_ok n r' ∧ ∀ j, bit r' j = negb (bool_decide (j = i)) && bit r j.
Proof.
  intros [Hn Hw] Hi. unfold row_remove.
  destruct (lookup_lt_is_Some_2 r (i / 64)) as [w Hr]; [subst n; by apply Nat.Div0.div_lt_upper_bound|].
  rewrite Hr. simpl. eexists. split; [done|]. pose proof (Hw _ _ Hr) as Hok. split.
  - split; [by rewrite length_insert|]. intros k x Hx.
    apply list_lookup_insert_Some in Hx as [(<- & <- & _)|[_ Hx]]; [|by eapply Hw].
    apply word_ok_bits; [apply Z.land_nonneg; left; by destruct Hok|]. intros b Hb.
    rewrite Z.land_spec, bits_word_ok; done.
  - intros j. rewrite (bit_insert _ _ _ _ _ Hr). case_bool_decide as E.
    + pose proof (Nat.mod_upper_bound j 64).
      rewrite Z.land_spec, Z.lxor_spec, mask_bit, u64_max_bit by lia. unfold bit. rewrite E, Hr.
      rewrite andb_comm. f_equal. rewrite xorb_true_l. f_equal.
      apply bool_decide_ext. split; [|by intros ->]. intros ?%Nat2Z.inj. by apply index_eq.
    + rewrite (bool_decide_eq_false_2 (j = i)); [done|]. by intros ->.
Qed.

Lemma zip_words_lookup op r q k : length q = length r →
  zip_words op r q !! k = (w ← r !! k; x ← q !! k; Some (op w x)).
Proof.
  revert q k. induction r as [|w r IH]; intros [|x q] k Hl; simplify_eq/=; [done|].
  destruct k; simpl; [done|]. by apply IH.
Qed.
Lemma zip_words_length op r q : length (zip_words op r q) = length r.
Proof. revert q. induction r; intros [|x q]; simpl; auto. Qed.

Section zip.
Context (op : Z → Z → Z) (bop : bool → bool → bool).
Hypothesis op_spec : ∀ a b k, Z.testbit (op a b) k = bop (Z.testbit a k) (Z.testbit b k).
Hypothesis op_nonneg : ∀ a b, (0 <= a)%Z → (0 <= b)%Z → (0 <= op a b)%Z.
Hypothesis bop_false : bop false false = false.

Lemma zip_row_ok n r q : row_ok n r → row_ok n q → row_ok n (zip_words op r q).
Proof.
  intros [Hr Hrw] [Hq Hqw]. split; [by rewrite zip_words_length|]. intros k x.
  rewrite zip_words_lookup by congruence. destruct (r !! k) as [w|] eqn:Ew; [|done].
  destruct (q !! k) as [y|] eqn:Ey; [|done]. simpl. intros [= <-].
  pose proof (Hrw _ _ Ew) as Hw. pose proof (Hqw _ _ Ey) as Hy.
  apply word_ok_bits; [apply op_nonneg; [by destruct Hw|by destruct Hy]|]. intros b Hb.
  by rewrite op_spec, !bits_word_ok.
Qed.
Lemma zip_bit n r q i : row_ok n r → row_ok n q → bit (zip_words op r q) i = bop (bit r i) (bit q i).
Proof.
  intros [Hr _] [Hq _]. unfold bit. rewrite zip_words_lookup by congruence.
  destruct (r !! (i / 64)) as [w|] eqn:Ew.
  - destruct (lookup_lt_is_Some_2 q (i / 64)) as [y ->]; [|by simpl; rewrite op_spec].
    apply lookup_lt_Some in Ew. congruence.
  - simpl. rewrite (proj2 (lookup_ge_None q _)); [done|]. apply lookup_ge_None in Ew. congruence.
Qed.
End zip.

Lemma row_and_ok n r q : row_ok n r → row_ok n q → row_ok n (row_and r q).
Proof. apply (zip_row_ok Z.land andb); [apply Z.land_spec| |done]. intros. by apply Z.land_nonneg; left. Qed.
Lemma row_and_bit n r q i : row_ok n r → row_ok n q → bit (row_and r q) i = bit r i && bit q i.
Proof. apply (zip_bit Z.land andb); [apply Z.land_spec|done]. Qed.
Lemma row_or_ok n r q : row_ok n r → row_ok n q → row_ok n (row_or r q).
Proof. apply (zip_row_ok Z.lor orb); [apply Z.lor_spec| |done]. intros. by apply Z.lor_nonneg. Qed.
Lemma row_or_bit n r q i : row_ok n r → row_ok n q → bit (row_or r q) i = bit r i || bit q i.
Proof. apply (zip_bit Z.lor orb); [apply Z.lor_spec|done]. Qed.

Lemma row_const_ok n w : word_ok w → row_ok n (replicate n w).
Proof.
  intros Hw. split; [apply length_replicate|]. intros k x Hx. by apply lookup_replicate in Hx as [-> _].
Qed.
Lemma row_zero_bit n i : bit (replicate n 0%Z) i = false.
Proof.
  unfold bit. destruct (replicate n 0%Z !! (i / 64)) eqn:E; [|done].
  apply lookup_replicate in E as [-> _]. apply Z.bits_0.
Qed.
Lemma row_full_bit n i : i < 64 * n → bit (replicate n u64_max) i = true.
Proof.
  intros Hi. unfold bit. pose proof (Nat.mod_upper_bound i 64).
  rewrite lookup_replicate_2 by (by apply Nat.Div0.div_lt_upper_bound). apply u64_max_bit. lia.
Qed.

(** Rows are determined by their bits. *)
Lemma row_ext n r q : row_ok n r → row_ok n q → (∀ i, i < 64 * n → bit r i = bit q i) → r = q.
Proof.
  intros [Hr Hrw] [Hq Hqw] Hb. apply list_eq_same_length with n; [done..|].
  intros k x y Hk Hx Hy. pose proof (Hrw _ _ Hx). pose proof (Hqw _ _ Hy).
  apply Z.bits_inj'. intros j Hj. destruct (Z.lt_ge_cases j 64) as [Hlt|Hge];
    [|by rewrite !bits_word_ok].
  specialize (Hb (64 * k + Z.to_nat j) ltac:(lia)). unfold bit in Hb.
  replace ((64 * k + Z.to_nat j) / 64) with k in Hb.
  2: { rewrite Nat.mul_comm, Nat.div_add_l, Nat.div_small by lia. lia. }
  replace ((64 * k + Z.to_nat j) mod 64) with (Z.to_nat j) in Hb.
  2: { rewrite Nat.mul_comm, Nat.add_comm, Nat.Div0.mod_add, Nat.mod_small by lia. done. }
  rewrite Hx, Hy, Z2Nat.id in Hb by lia. done.
Qed.

(** ** Counting *)
Definition count_row (n : nat) (r : row) : nat := length (filter (λ i, bit r i = true) (seq 0 (64 * n))).

Lemma count_filter (P Q : nat → Prop) `{∀ i, Decision (P i), ∀ i, Decision (Q i)} l :
  (∀ i, i ∈ l → P i → Q i) → length (filter P l) ≤ length (filter Q l)
  ∧ ((∃ i, i ∈ l ∧ Q i ∧ ¬ P i) → length (filter P l) < length (filter Q l)).
Proof.
  induction l as [|x l IH]; intros HPQ; simpl; [split; [done|]; by intros (? & ?%elem_of_nil & _)|].
  destruct (IH ltac:(intros; apply HPQ; [by right|done])) as [Hle Hlt].
  rewrite !filter_cons. split.
  - pose proof (HPQ x ltac:(left)). repeat case_decide; simpl; try lia; naive_solver.
  - intros (i & Hi & HQ & HP). apply elem_of_cons in Hi as [->|Hi].
    + rewrite (decide_False (P := P x)), (decide_True (P := Q x)) by done. simpl. lia.
    + specialize (Hlt ltac:(eauto)). pose proof (HPQ x ltac:(left)).
      repeat case_decide; simpl; try lia; naive_solver.
Qed.
Lemma count_row_lt n r q : row_ok n r → row_ok n q → (∀ i, bit r i = true → bit q i = true) → r ≠ q →
  count_row n r < count_row n q.
Proof.
  intros Hr Hq Hsub Hne.
  assert (∃ i, i ∈ seq 0 (64 * n) ∧ bit q i = true ∧ ¬ bit r i = true) as Hex.
  { destruct (decide (Exists (λ i, bit q i = true ∧ ¬ bit r i = true) (seq 0 (64 * n)))) as [He|Hn].
    - apply Exists_exists in He as (i & Hi & ?). exists i. by rewrite list_elem_of_In.
    - exfalso. apply Hne. eapply row_ext; [done..|]. intros i Hi.
      destruct (bit r i) eqn:Er; [symmetry; by apply Hsub|]. destruct (bit q i) eqn:Eq; [|done].
      exfalso. apply Hn, Exists_exists. exists i. rewrite <- list_elem_of_In, elem_of_seq. split; [lia|].
      by rewrite Er, Eq. }
  unfold count_row. apply (count_filter (λ i, bit r i = true) (λ i, bit q i = true)); auto.
Qed.
Lemma count_row_le n r : count_row n r ≤ 64 * n.
Proof. unfold count_row. etrans; [apply length_filter|]. by rewrite length_seq. Qed.

(** The row with the given bits. *)
Definition row_of_bits (n : nat) (p : nat → bool) : row :=
  foldl (λ r i, if p i then default r (row_insert r i) else r) (replicate n 0%Z) (seq 0 (64 * n)).
Lemma row_of_bits_spec n p : row_ok n (row_of_bits n p)
  ∧ ∀ i, i < 64 * n → bit (row_of_bits n p) i = p i.
Proof.
  assert (∀ l r, (∀ i, i ∈ l → i < 64 * n) → row_ok n r →
    row_ok n (foldl (λ r i, if p i then default r (row_insert r i) else r) r l)
    ∧ ∀ j, bit (foldl (λ r i, if p i then default r (row_insert r i) else r) r l) j
           = bit r j || (bool_decide (j ∈ l) && p j)) as Hgo.
  { induction l as [|i l IH]; intros r Hl Hr; simpl; [by split; [|intros; rewrite orb_false_r]|].
    assert (∃ r', (if p i then default r (row_insert r i) else r) = r' ∧ row_ok n r'
      ∧ ∀ j, bit r' j = bit r j || (bool_decide (j = i) && p j)) as (r' & -> & Hr' & Hb).
    { destruct (p i) eqn:Ep.
      - destruct (row_insert_spec n r i Hr) as (r' & -> & ? & Hb); [apply Hl; left|].
        exists r'. split_and!; [done..|]. intros j. rewrite Hb, orb_comm. f_equal.
        case_bool_decide; [by subst|done].
      - exists r. split_and!; [done..|]. intros j. case_bool_decide; [subst; by rewrite Ep, orb_false_r|by rewrite orb_false_r]. }
    destruct (IH r') as [H1 H2]; [intros; apply Hl; by right|done|]. split; [done|]. intros j.
    rewrite H2, Hb, <- orb_assoc, <- andb_orb_distrib_l, <- bool_decide_or. do 2 f_equal.
    apply bool_decide_ext. by rewrite elem_of_cons. }
  destruct (Hgo (seq 0 (64 * n)) (replicate n 0%Z)) as [H1 H2];
    [intros i ?%elem_of_seq; lia|by apply row_const_ok|].
  split; [done|]. intros i Hi. unfold row_of_bits. rewrite H2, row_zero_bit, bool_decide_eq_true_2; [done|].
  apply elem_of_seq. lia.
Qed.
