(* ===== verification/Worklist.v ===== *)
(** * The worklist loop

    The fixed-point loop that [kagari-mir/src/verify/flow.rs] (definite
    initialization) and [verify/analysis.rs] (liveness) share: a queue of block
    indices with membership flags, a row of slots per block, and the blocks to
    revisit when a row changes.  The second half proves that the loop ends in a
    fixed point when rows can only move one way. *)
From stdpp Require Import sets.
From S2P Require Import Prelude Pass SlotBits.
Open Scope nat_scope.

(** [if !mem::replace(&mut queued[t], true) { queue.push_back(t) }]. *)
Definition enqueue (s : list nat * list bool) (t : nat) : P (list nat * list bool) :=
  do q := pexpect (snd s !! t) in
  if q : bool then pret s else pret (fst s ++ [t], <[t := true]> (snd s)).

Fixpoint solve (compute : nat → list row → P row) (dependents : nat → P (list nat))
    (fuel : nat) (rows : list row) (queue : list nat) (queued : list bool) : P (list row) :=
  match queue with
  | [] => pret rows
  | index :: queue =>
      match fuel with
      | O => λ _, Err PfOutOfFuel
      | S fuel =>
          do _ := pexpect (queued !! index) in
          let queued := <[index := false]> queued in
          do state := compute index rows in
          do old := pexpect (rows !! index) in
          if decide (state = old) then solve compute dependents fuel rows queue queued
          else
            do deps := dependents index in
            do s := fold_each enqueue (queue, queued) deps in
            solve compute dependents fuel (<[index := state]> rows) (fst s) (snd s)
      end
  end.

Section Solve.
Context (E : MirErrorKind → Prop) (n : nat).
Context (compute : nat → list row → P row) (dependents : nat → P (list nat)).
Context (F : nat → list row → row) (deps : nat → list nat).
Context (tracked : nat → Prop) (Inv : list row → Prop) (mu : list row → nat).
Hypothesis Inv_length : ∀ rows, Inv rows → length rows = n.
Hypothesis tracked_lt : ∀ i, tracked i → i < n.
Hypothesis compute_ok : ∀ i rows, Inv rows → tracked i → prun_or E (compute i rows) (λ s, s = F i rows).
Hypothesis dependents_ok : ∀ i, tracked i → prun_or E (dependents i) (λ l, l = deps i).
Hypothesis deps_tracked : ∀ i j, tracked i → j ∈ deps i → tracked j.
Hypothesis step_ok : ∀ i rows, Inv rows → tracked i → rows !! i ≠ Some (F i rows) →
  Inv (<[i := F i rows]> rows) ∧ mu (<[i := F i rows]> rows) < mu rows.
Hypothesis local : ∀ i j s rows, Inv rows → tracked i → tracked j → j ∉ deps i →
  F j (<[i := s]> rows) = F j rows.

Definition queue_ok (queue : list nat) (queued : list bool) : Prop :=
  length queued = n ∧ NoDup queue ∧ (∀ i, i ∈ queue → tracked i)
  ∧ ∀ i, queued !! i = Some true ↔ i ∈ queue.

Lemma queue_length queue queued : queue_ok queue queued → length queue ≤ n.
Proof.
  intros (_ & Hnd & Ht & _). rewrite <- (length_seq n 0). apply submseteq_length, NoDup_submseteq; [done|].
  intros i Hi. apply elem_of_seq. specialize (tracked_lt i (Ht i Hi)). lia.
Qed.

Lemma prun_enqueue queue queued t : queue_ok queue queued → tracked t →
  prun_or E (enqueue (queue, queued) t)
    (λ s, queue_ok (fst s) (snd s) ∧ t ∈ fst s ∧ ∀ i, i ∈ queue → i ∈ fst s).
Proof.
  intros (Hl & Hnd & Ht & Hq) Htr. unfold enqueue. simpl. pose proof (tracked_lt t Htr) as Hlt.
  apply prun_bind. destruct (lookup_lt_is_Some_2 queued t) as [q Hqt]; [by rewrite Hl|].
  eapply prun_expect; [done|]. destruct q; apply prun_ret; simpl.
  - split_and!; [by split|by apply Hq|done].
  - assert (t ∉ queue) as Hni by (rewrite <- Hq; congruence). split_and!; [|set_solver..].
    split_and!; [by rewrite length_insert|apply list.NoDup_app; split_and!; [done|set_solver|apply NoDup_singleton]|set_solver|].
    intros i. rewrite elem_of_app, list_elem_of_singleton. destruct (decide (i = t)) as [->|Hne].
    + rewrite list_lookup_insert_eq by lia. by split; [right|].
    + rewrite list_lookup_insert_ne by done. rewrite Hq. naive_solver.
Qed.

Lemma prun_enqueue_all queue queued l : queue_ok queue queued → (∀ t, t ∈ l → tracked t) →
  prun_or E (fold_each enqueue (queue, queued) l)
    (λ s, queue_ok (fst s) (snd s) ∧ (∀ t, t ∈ l → t ∈ fst s) ∧ ∀ i, i ∈ queue → i ∈ fst s).
Proof.
  intros Hq Hl.
  apply (prun_fold_each E _ (λ p s, queue_ok (fst s) (snd s) ∧ (∀ t, t ∈ p → t ∈ fst s)
                                     ∧ ∀ i, i ∈ queue → i ∈ fst s)); [split_and!; [done|set_solver..]|].
  intros p x r [qu qd] Heq (H1 & H2 & H3). eapply prun_mono.
  - apply prun_enqueue; [done|]. apply Hl. rewrite Heq. set_solver.
  - intros s (Hs1 & Hs2 & Hs3). split_and!; [done|set_solver..].
Qed.

Lemma queue_ok_pop index queue queued : queue_ok (index :: queue) queued →
  queue_ok queue (<[index := false]> queued).
Proof.
  intros (Hl & Hnd & Ht & Hq). apply list.NoDup_cons in Hnd as [Hni Hnd].
  pose proof (tracked_lt index (Ht index ltac:(left))).
  split_and!; [by rewrite length_insert|done|set_solver|]. intros i.
  destruct (decide (i = index)) as [->|Hne].
  - rewrite list_lookup_insert_eq by lia. by split.
  - rewrite list_lookup_insert_ne by done. rewrite Hq. set_solver.
Qed.

Definition settled (rows : list row) (queue : list nat) : Prop :=
  ∀ j, tracked j → j ∉ queue → rows !! j = Some (F j rows).

Lemma prun_solve fuel rows queue queued :
  Inv rows → queue_ok queue queued → settled rows queue →
  S n * mu rows + length queue ≤ fuel →
  prun_or E (solve compute dependents fuel rows queue queued)
    (λ rows', Inv rows' ∧ settled rows' []).
Proof.
  revert rows queue queued. induction fuel as [|fuel IH]; intros rows queue queued HI Hq Hs Hf.
  { destruct queue; [by apply prun_ret|simpl in Hf; lia]. }
  destruct queue as [|index queue]; [by apply prun_ret|]. cbn [solve].
  pose proof Hq as (Hl & _ & Ht & _). assert (tracked index) as Hti by (apply Ht; left).
  pose proof (tracked_lt _ Hti) as Hlt. pose proof (queue_ok_pop _ _ _ Hq) as Hq'.
  apply prun_bind. destruct (lookup_lt_is_Some_2 queued index) as [b Hb]; [by rewrite Hl|].
  eapply prun_expect; [done|]. apply prun_bind. eapply prun_mono; [by apply compute_ok|]. intros s ->.
  apply prun_bind. destruct (lookup_lt_is_Some_2 rows index) as [old Hold]; [by rewrite (Inv_length _ HI)|].
  eapply prun_expect; [done|]. destruct (decide _) as [Heq|Hne].
  - apply IH; [done..| |simpl in Hf; lia]. intros j Hj Hnj.
    destruct (decide (j = index)) as [->|Hji]; [by rewrite Hold, Heq|]. apply Hs; [done|set_solver].
  - destruct (step_ok index rows HI Hti) as [HI' Hmu]; [congruence|].
    apply prun_bind. eapply prun_mono; [by apply dependents_ok|]. intros l ->.
    apply prun_bind. eapply prun_mono; [apply prun_enqueue_all; [done|eauto]|].
    intros [qu qd] (Hqu & Hdeps & Hold'). simpl in *. apply IH; [done..| |].
    + intros j Hj Hnj.
      assert (j ∉ deps index) as Hnd by (intros Hd; by apply Hnj, Hdeps).
      rewrite (local index j (F index rows) rows HI Hti Hj Hnd).
      destruct (decide (j = index)) as [->|Hji].
      * rewrite list_lookup_insert_eq; [done|]. by rewrite (Inv_length _ HI).
      * rewrite list_lookup_insert_ne by done. apply Hs; [done|]. set_solver.
    + pose proof (queue_length _ _ Hqu). nia.
Qed.
End Solve.
