(* ===== verification/MirFlow.v ===== *)
(** * Definite initialization

    Models [kagari-mir/src/verify/flow.rs]: the reachability walk with its
    predecessor lists, the forward fixed point over slot sets and the check that
    every read of a reachable block finds its slot written.  The theorem says the
    check is exact: it accepts a function precisely when no path through its blocks
    reads a slot that nothing on the path has written. *)
From stdpp Require Import gmap.
From S2P Require Import Prelude Integer Scalar Payload RuntimeNumeric Contracts NumericProps Token.
From S2P Require Import Mir Pass MirVerify SlotBits Worklist.
Open Scope nat_scope.

#[local] Arguments Nat.div : simpl never.
#[local] Arguments Nat.modulo : simpl never.

Section Flow.
Context `{CallContracts}.

(** Temporaries come first in a row, then locals. *)
Definition slots (f : MirFunction) : nat := length (temps f) + length (locals f).
Definition flow_words (f : MirFunction) : nat := row_words (slots f).
Definition local_slot (f : MirFunction) (l : nat) : nat := length (temps f) + l.

Record Initialization : Set := {
  init_reachable : list bool; init_predecessors : list (list nat); init_entries : list row
}.

(** [function.blocks[id].terminator.as_ref().expect(..)]. *)
Definition block_terminator (f : MirFunction) (id : nat) : P Terminator :=
  do b := pexpect (blocks f !! id) in pexpect (terminator b).

(** One successor of the walk: the state is [predecessors] and the stack. *)
Definition visit_target (id : nat) (s : list (list nat) * list nat) (target : nat)
    : P (list (list nat) * list nat) :=
  do ps := pexpect (fst s !! target) in pret (<[target := ps ++ [id]]> (fst s), target :: snd s).

Fixpoint reach (f : MirFunction) (fuel : nat) (pending : list nat) (reachable : list bool)
    (predecessors : list (list nat)) : P (list bool * list (list nat)) :=
  match pending with
  | [] => pret (reachable, predecessors)
  | id :: pending =>
      match fuel with
      | O => λ _, Err PfOutOfFuel
      | S fuel =>
          charge 1 ;;>
          do seen := pexpect (reachable !! id) in
          if seen : bool then reach f fuel pending reachable predecessors
          else
            do t := block_terminator f id in
            do s := fold_each (visit_target id) (predecessors, pending) (successors t) in
            reach f fuel (snd s) (<[id := true]> reachable) (fst s)
      end
  end.

Definition define (f : MirFunction) (i : Instruction) (state : row) : option row :=
  state ← (match output i with Some dst => row_insert state (temp dst) | None => Some state end);
  match i with StoreLocal l _ => row_insert state (local_slot f l) | _ => Some state end.

Definition incoming (f : MirFunction) (index words : nat) (predecessors : list (list nat))
    (outputs : list row) : option row :=
  if decide (index = entry f) then
    foldl (λ state p, state ≫= λ state, row_insert state (local_slot f (param_local p)))
      (Some (replicate words 0%Z)) (params f)
  else
    ps ← predecessors !! index;
    foldl (λ state p, state ≫= λ state, out ← outputs !! p; Some (row_and state out))
      (Some (replicate words u64_max)) ps.

Definition incoming_work (f : MirFunction) (words : nat) (predecessors : list nat) : nat :=
  words * (length predecessors + 1) + length (params f) + 1.

(** The body of the fixed-point loop up to the comparison. *)
Definition flow_step (f : MirFunction) (predecessors : list (list nat)) (index : nat)
    (outputs : list row) : P row :=
  check_cancel ;;>
  do ps := pexpect (predecessors !! index) in
  charge (incoming_work f (flow_words f) ps) ;;>
  do state := pexpect (incoming f index (flow_words f) predecessors outputs) in
  do b := pexpect (blocks f !! index) in
  fold_each (λ state i, charge 1 ;;> pexpect (define f i state)) state (instructions b).
Definition flow_dependents (f : MirFunction) (index : nat) : P (list nat) :=
  do t := block_terminator f index in pret (successors t).

Definition check_slot (state : row) (slot : nat) (kind : MirErrorKind) : P unit :=
  do c := pexpect (row_contains state slot) in if c : bool then pret tt else pfail kind.
Definition check_temp (state : row) (v : MirValue) : P unit :=
  check_slot state (temp v) (UninitializedTemp (temp v)).

Definition check_instruction (f : MirFunction) (state : row) (i : Instruction) : P row :=
  charge (length (inputs i) + 1) ;;>
  do _ := fold_each (λ _, check_temp state) tt (inputs i) in
  do _ := (match i with
           | LoadLocal _ l => check_slot state (local_slot f l) (UninitializedLocal l)
           | _ => pret tt
           end) in
  pexpect (define f i state).

(** The last loop: entry rows of the reachable blocks, and the reads. *)
Definition check_block (f : MirFunction) (reachable : list bool) (predecessors : list (list nat))
    (outputs entries : list row) (index : nat) : P (list row) :=
  do b := pexpect (blocks f !! index) in
  do r := pexpect (reachable !! index) in
  if negb r then pret entries
  else
    do ps := pexpect (predecessors !! index) in
    charge (incoming_work f (flow_words f) ps) ;;>
    do state := pexpect (incoming f index (flow_words f) predecessors outputs) in
    do _ := pexpect (entries !! index) in
    let entries := <[index := state]> entries in
    do state := fold_each (check_instruction f) state (instructions b) in
    do t := pexpect (terminator b) in
    do _ := (match terminator_input t with Some v => check_temp state v | None => pret tt end) in
    pret entries.

Definition reach_fuel (f : MirFunction) : nat := 1 + 2 * length (blocks f).
Definition solve_fuel (f : MirFunction) : nat :=
  S (length (blocks f)) * (length (blocks f) * (64 * flow_words f)) + length (blocks f).

Definition flow_verify (f : MirFunction) : P Initialization :=
  let n := length (blocks f) in
  do r := reach f (reach_fuel f) [entry f] (replicate n false) (replicate n []) in
  let reachable := fst r in let predecessors := snd r in
  do outputs := solve (flow_step f predecessors) (flow_dependents f) (solve_fuel f)
                  (replicate n (replicate (flow_words f) u64_max))
                  (filter (λ i, reachable !! i = Some true) (seq 0 n)) reachable in
  do entries := fold_each (check_block f reachable predecessors outputs)
                  (replicate n (replicate (flow_words f) 0%Z)) (seq 0 n) in
  pret {| init_reachable := reachable; init_predecessors := predecessors; init_entries := entries |}.

Definition max_flow_bytes : Z := 64 * 1024 * 1024.
Definition check_size (f : MirFunction) : P unit :=
  let bytes := Z.min usize_max (Z.min usize_max (Z.of_nat (length (blocks f)) * Z.of_nat (flow_words f)) * 8) in
  if (max_flow_bytes <? bytes)%Z then (λ _, Err (PfLimit max_flow_bytes)) else pret tt.

(** ** Slots an instruction touches *)
Definition instr_reads (f : MirFunction) (i : Instruction) : list nat :=
  (temp <$> inputs i) ++ match i with LoadLocal _ l => [local_slot f l] | _ => [] end.
Definition instr_writes (f : MirFunction) (i : Instruction) : list nat :=
  (temp <$> option_list (output i)) ++ match i with StoreLocal l _ => [local_slot f l] | _ => [] end.
Definition term_reads (t : Terminator) : list nat := temp <$> option_list (terminator_input t).
Definition param_slots (f : MirFunction) : list nat := local_slot f ∘ param_local <$> params f.
Definition block_writes (f : MirFunction) (l : list Instruction) : list nat := l ≫= instr_writes f.

Definition edge (f : MirFunction) (b t : nat) : Prop :=
  ∃ blk term, blocks f !! b = Some blk ∧ terminator blk = Some term ∧ t ∈ successors term.
Definition cfg_reachable (f : MirFunction) : nat → Prop := rtc (edge f) (entry f).

(** A path from the entry reaches [b] and nothing on it writes [slot]. *)
Inductive may_lack (f : MirFunction) (slot : nat) : nat → Prop :=
| lack_entry : slot ∉ param_slots f → may_lack f slot (entry f)
| lack_edge b blk t : may_lack f slot b → blocks f !! b = Some blk →
    slot ∉ block_writes f (instructions blk) → edge f b t → may_lack f slot t.

(** Some path reads [slot] before anything on it has written it. *)
Definition lacking_read (f : MirFunction) (slot : nat) : Prop :=
  ∃ b blk, blocks f !! b = Some blk ∧ may_lack f slot b ∧
    ((∃ k i, instructions blk !! k = Some i ∧ slot ∉ block_writes f (take k (instructions blk))
             ∧ slot ∈ instr_reads f i)
     ∨ ∃ t, terminator blk = Some t ∧ slot ∉ block_writes f (instructions blk)
            ∧ slot ∈ term_reads t).

(** The errors of the check, each with the path that justifies it. *)
Definition flow_error (f : MirFunction) (kind : MirErrorKind) : Prop :=
  match kind with
  | UninitializedTemp t => lacking_read f t
  | UninitializedLocal l => lacking_read f (local_slot f l)
  | _ => False
  end.

Record cfg_ok (f : MirFunction) : Prop := {
  ok_entry : entry f < length (blocks f);
  ok_params : ∀ s, s ∈ param_slots f → s < slots f;
  ok_instructions : ∀ b blk i s, blocks f !! b = Some blk → i ∈ instructions blk →
    s ∈ instr_reads f i ++ instr_writes f i → s < slots f;
  ok_terminator : ∀ b blk, blocks f !! b = Some blk → ∃ t, terminator blk = Some t
    ∧ (∀ x, x ∈ successors t → x < length (blocks f)) ∧ ∀ s, s ∈ term_reads t → s < slots f
}.

(** ** Bits of the transfer functions *)
Lemma slots_words f : slots f ≤ 64 * flow_words f.
Proof.
  unfold flow_words, row_words. pose proof (Nat.div_mod_eq (slots f + 63) 64).
  pose proof (Nat.mod_upper_bound (slots f + 63) 64). lia.
Qed.

Lemma block_writes_app f l1 l2 : block_writes f (l1 ++ l2) = block_writes f l1 ++ block_writes f l2.
Proof. apply bind_app. Qed.

Lemma verify_cfg_ok other f : succeeds (verify_body other f) tt → cfg_ok f.
Proof.
  intros (Hentry & [Hparams _] & Hb)%verify_body_sound.
  assert (∀ v, value_fits f v → temp v < slots f) as Hfit.
  { intros v (t & Ht & _). apply lookup_lt_Some in Ht. unfold slots. lia. }
  assert (∀ l ty, succeeds (verify_local f l) ty → local_slot f l < slots f) as Hloc.
  { intros l ty Hl%succeeds_local. unfold slots, local_slot. lia. }
  split; [done|..].
  - intros s (p & -> & Hp)%list_elem_of_fmap. simpl. unfold slots, local_slot.
    specialize (Hparams p Hp). lia.
  - intros b blk i s Hblk Hi Hs. destruct (bv_instructions _ _ _ (Hb blk ltac:(by eapply list_elem_of_lookup_2)) i Hi)
      as [Hin Hout Hop].
    unfold instr_reads, instr_writes in Hs. rewrite !elem_of_app in Hs.
    destruct Hs as [[Hs|Hs]|[Hs|Hs]].
    + apply list_elem_of_fmap in Hs as (v & -> & Hv). auto.
    + destruct i; try by apply elem_of_nil in Hs. apply list_elem_of_singleton in Hs as ->.
      apply succeeds_bind in Hop as (ty & Hl & _). eauto.
    + destruct (output i) as [dst|]; [|by apply elem_of_nil in Hs].
      apply list_elem_of_singleton in Hs as ->. auto.
    + destruct i; try by apply elem_of_nil in Hs. apply list_elem_of_singleton in Hs as ->.
      apply succeeds_bind in Hop as (ty & Hl & _). eauto.
  - intros b blk Hblk. destruct (bv_terminator _ _ _ (Hb blk ltac:(by eapply list_elem_of_lookup_2))) as (t & Ht & [Hsu Hi _]).
    exists t. split_and!; [done..|]. intros s Hs. unfold term_reads in Hs.
    destruct (terminator_input t) as [v|]; [|by apply elem_of_nil in Hs].
    apply list_elem_of_singleton in Hs as ->. auto.
Qed.

Section Proofs.
Context (f : MirFunction) (Hok : cfg_ok f).
Notation n := (length (blocks f)).
Notation words := (flow_words f).
Implicit Types (r : row) (rows : list row).

Definition writes_bit (l : list nat) (i : nat) : bool := bool_decide (i ∈ l).

Lemma row_insert_slot r s : row_ok words r → s < slots f →
  ∃ r', row_insert r s = Some r' ∧ row_ok words r' ∧ ∀ j, bit r' j = bool_decide (j = s) || bit r j.
Proof. intros Hr Hs. apply row_insert_spec; [done|]. pose proof (slots_words f). lia. Qed.

Lemma define_spec i r : row_ok words r → (∀ s, s ∈ instr_writes f i → s < slots f) →
  ∃ r', define f i r = Some r' ∧ row_ok words r' ∧ ∀ j, bit r' j = writes_bit (instr_writes f i) j || bit r j.
Proof.
  intros Hr Hs. unfold define, instr_writes in *.
  assert (∃ r', match output i with Some dst => row_insert r (temp dst) | None => Some r end = Some r'
    ∧ row_ok words r' ∧ ∀ j, bit r' j = writes_bit (temp <$> option_list (output i)) j || bit r j)
    as (r1 & -> & Hr1 & Hb1).
  { destruct (output i) as [dst|] eqn:Eo.
    - destruct (row_insert_slot r (temp dst) Hr) as (r1 & -> & ? & Hb).
      { apply Hs. cbn. left. }
      eexists; split_and!; [done..|]. intros j. rewrite Hb. unfold writes_bit. f_equal.
      apply bool_decide_ext. cbn. by rewrite list_elem_of_singleton.
    - eexists; split_and!; done. }
  cbn [mbind option_bind].
  assert (∀ j l, writes_bit ((temp <$> option_list (output i)) ++ l) j
    = writes_bit (temp <$> option_list (output i)) j || writes_bit l j) as Happ.
  { intros j l. unfold writes_bit. rewrite <- bool_decide_or. apply bool_decide_ext, elem_of_app. }
  destruct i; try (eexists; split_and!; [done..|]; intros j; by rewrite Happ, orb_false_r, Hb1).
  destruct (row_insert_slot r1 (local_slot f local) Hr1) as (r2 & -> & ? & Hb).
  { apply Hs. rewrite elem_of_app, list_elem_of_singleton. by right. }
  eexists; split_and!; [done..|]. intros j. rewrite Hb, Hb1, Happ. rewrite orb_assoc. f_equal.
  unfold writes_bit at 3. rewrite (bool_decide_ext (j ∈ [local_slot f local]) (j = local_slot f local))
    by apply list_elem_of_singleton. apply orb_comm.
Qed.
Definition define_all (l : list Instruction) (r : row) : row :=
  foldl (λ r i, default r (define f i r)) r l.
Lemma define_all_spec l r : row_ok words r → (∀ i s, i ∈ l → s ∈ instr_writes f i → s < slots f) →
  row_ok words (define_all l r) ∧ ∀ j, bit (define_all l r) j = writes_bit (block_writes f l) j || bit r j.
Proof.
  revert r. induction l as [|i l IH]; intros r Hr Hs; [done|]. cbn [define_all foldl].
  destruct (define_spec i r Hr) as (r' & -> & Hr' & Hb); [intros s; apply Hs; left|]. simpl.
  destruct (IH r' Hr') as [IH1 IH2]; [intros; eapply Hs; [by right|done]|]. split; [done|].
  intros j. change (foldl _ r' l) with (define_all l r'). rewrite IH2, Hb, orb_assoc. f_equal.
  unfold writes_bit. rewrite <- bool_decide_or. apply bool_decide_ext. cbn. rewrite elem_of_app. tauto.
Qed.
Lemma prun_define_all E l r (Q : row → Prop) :
  row_ok words r → (∀ i s, i ∈ l → s ∈ instr_writes f i → s < slots f) →
  Q (define_all l r) →
  prun_or E (fold_each (λ state i, charge 1 ;;> pexpect (define f i state)) r l) Q.
Proof.
  revert r. induction l as [|i l IH]; intros r Hr Hs HQ; [by apply prun_ret|]. cbn [fold_each].
  apply prun_bind, prun_charge_bind.
  destruct (define_spec i r Hr) as (r' & Hd & Hr' & _); [intros s; apply Hs; left|].
  eapply prun_expect; [done|]. apply IH; [done|intros; eapply Hs; [by right|done]|].
  cbn [define_all foldl] in HQ. by rewrite Hd in HQ.
Qed.

(** What a path through the predecessors has written. *)
Definition incoming_row index predecessors rows : row := default [] (incoming f index words predecessors rows).
Definition flow_fun predecessors index rows : row :=
  define_all (default [] (instructions <$> blocks f !! index)) (incoming_row index predecessors rows).

Definition rows_ok rows : Prop := length rows = n ∧ ∀ k r, rows !! k = Some r → row_ok words r.

Lemma incoming_entry preds rows : ∃ r, incoming f (entry f) words preds rows = Some r
  ∧ row_ok words r ∧ ∀ i, bit r i = writes_bit (param_slots f) i.
Proof.
  unfold incoming. rewrite decide_True by done.
  assert (∀ l r, (∀ s, s ∈ local_slot f ∘ param_local <$> l → s < slots f) → row_ok words r →
    ∃ r', foldl (λ state p, state ≫= λ state, row_insert state (local_slot f (param_local p))) (Some r) l = Some r'
      ∧ row_ok words r' ∧ ∀ i, bit r' i = writes_bit (local_slot f ∘ param_local <$> l) i || bit r i) as Hgo.
  { induction l as [|p l IH]; intros r Hs Hr; [by eexists|]. cbn.
    destruct (row_insert_slot r (local_slot f (param_local p)) Hr) as (r1 & -> & Hr1 & Hb1); [apply Hs; left|].
    destruct (IH r1) as (r2 & -> & Hr2 & Hb2); [intros; apply Hs; by right|done|].
    eexists; split_and!; [done..|]. intros i. rewrite Hb2, Hb1, orb_assoc. f_equal. unfold writes_bit.
    rewrite <- bool_decide_or. apply bool_decide_ext. rewrite elem_of_cons. tauto. }
  destruct (Hgo (params f) (replicate words 0%Z) (ok_params _ Hok)) as (r & -> & Hr & Hb); [by apply row_const_ok|].
  eexists; split_and!; [done..|]. intros i. by rewrite Hb, row_zero_bit, orb_false_r.
Qed.
Lemma incoming_join index preds ps rows : index ≠ entry f → preds !! index = Some ps →
  (∀ p, p ∈ ps → p < n) → rows_ok rows →
  ∃ r, incoming f index words preds rows = Some r ∧ row_ok words r
    ∧ ∀ i, i < 64 * words → bit r i = forallb (λ p, bit (default [] (rows !! p)) i) ps.
Proof.
  intros Hne Hps Hlt [Hlen Hrows]. unfold incoming. rewrite decide_False, Hps by done. cbn [mbind option_bind].
  assert (∀ l r, (∀ p, p ∈ l → p < n) → row_ok words r →
    ∃ r', foldl (λ state p, state ≫= λ state, out ← rows !! p; Some (row_and state out)) (Some r) l = Some r'
      ∧ row_ok words r' ∧ ∀ i, bit r' i = bit r i && forallb (λ p, bit (default [] (rows !! p)) i) l) as Hgo.
  { induction l as [|p l IH]; intros r Hl Hr; [eexists; split_and!; [done..|]; intros; by rewrite andb_true_r|].
    cbn. destruct (lookup_lt_is_Some_2 rows p) as [out Hout]; [rewrite Hlen; apply Hl; left|].
    rewrite Hout. cbn. destruct (IH (row_and r out)) as (r2 & -> & Hr2 & Hb2);
      [intros; apply Hl; by right|apply row_and_ok; eauto|].
    eexists; split_and!; [done..|]. intros i. rewrite Hb2, (row_and_bit words) by eauto. by rewrite andb_assoc. }
  destruct (Hgo ps (replicate words u64_max) Hlt) as (r & -> & Hr & Hb); [apply row_const_ok, u64_max_ok|].
  eexists; split_and!; [done..|]. intros i Hi. by rewrite Hb, row_full_bit.
Qed.

(** ** The reachability walk *)
Definition visited (reachable : list bool) (b : nat) : Prop := reachable !! b = Some true.

Record walk_inv (pending : list nat) (reachable : list bool) (predecessors : list (list nat)) : Prop := {
  wi_length : length reachable = n;
  wi_lists : length predecessors = n;
  wi_pending : ∀ x, x ∈ pending → x < n ∧ cfg_reachable f x;
  wi_seen : ∀ b, visited reachable b → cfg_reachable f b;
  wi_entry : visited reachable (entry f) ∨ entry f ∈ pending;
  wi_closed : ∀ b t, visited reachable b → edge f b t →
    (visited reachable t ∨ t ∈ pending) ∧ ∃ ps, predecessors !! t = Some ps ∧ b ∈ ps;
  wi_preds : ∀ t ps p, predecessors !! t = Some ps → p ∈ ps → visited reachable p ∧ edge f p t
}.

Lemma prun_block_terminator E id (Q : Terminator → Prop) : id < n →
  (∀ blk t, blocks f !! id = Some blk → terminator blk = Some t →
     (∀ x, x ∈ successors t ↔ edge f id x) → (∀ x, x ∈ successors t → x < n) → Q t) →
  prun_or E (block_terminator f id) Q.
Proof.
  intros Hid HQ. destruct (lookup_lt_is_Some_2 _ _ Hid) as [blk Hblk].
  destruct (ok_terminator _ Hok id blk Hblk) as (t & Ht & Hs & _).
  apply prun_bind. eapply prun_expect; [done|]. eapply prun_expect; [done|].
  eapply HQ; [done..| |done]. intros x. split; [by exists blk, t|].
  intros (blk' & t' & ? & ? & ?). by simplify_eq.
Qed.

Lemma prun_visit_targets E id targets predecessors pending :
  length predecessors = n → (∀ x, x ∈ targets → x < n) →
  prun_or E (fold_each (visit_target id) (predecessors, pending) targets) (λ s,
    length (fst s) = n ∧ length (snd s) = length targets + length pending
    ∧ (∀ x, x ∈ snd s ↔ x ∈ targets ∨ x ∈ pending)
    ∧ ∀ t ps', fst s !! t = Some ps' → ∃ ps, predecessors !! t = Some ps
        ∧ ∀ q, q ∈ ps' ↔ q ∈ ps ∨ q = id ∧ t ∈ targets).
Proof.
  intros Hlen Hlt.
  apply (prun_fold_each E _ (λ p s, length (fst s) = n ∧ length (snd s) = length p + length pending
    ∧ (∀ x, x ∈ snd s ↔ x ∈ p ∨ x ∈ pending)
    ∧ ∀ t ps', fst s !! t = Some ps' → ∃ ps, predecessors !! t = Some ps
        ∧ ∀ q, q ∈ ps' ↔ q ∈ ps ∨ q = id ∧ t ∈ p)).
  { split_and!; [done|done|set_solver|]. intros t ps' Ht. exists ps'. split; [done|set_solver]. }
  intros p x q [preds pend] Heq (H1 & H2 & H3 & H4). simpl in *.
  destruct (lookup_lt_is_Some_2 preds x) as [ps Hps]; [rewrite H1; apply Hlt; set_solver|].
  apply prun_bind. eapply prun_expect; [exact Hps|]. apply prun_ret. simpl.
  split_and!; [by rewrite length_insert|rewrite length_app; simpl; lia|set_solver|].
  intros t ps' Ht. apply list_lookup_insert_Some in Ht as [(<- & <- & _)|[Hne Ht]].
  - destruct (H4 _ _ Hps) as (ps0 & Hps0 & Hq). exists ps0. split; [done|]. intros q'.
    rewrite elem_of_app, list_elem_of_singleton, Hq, elem_of_app, list_elem_of_singleton. naive_solver.
  - destruct (H4 _ _ Ht) as (ps0 & Hps0 & Hq). exists ps0. split; [done|]. intros q'.
    rewrite Hq, elem_of_app, list_elem_of_singleton. naive_solver.
Qed.

Definition unvisited (reachable : list bool) : nat := length (filter (λ b, b = false) reachable).
Lemma unvisited_insert reachable id : reachable !! id = Some false →
  unvisited reachable = S (unvisited (<[id := true]> reachable)).
Proof.
  intros Hid. unfold unvisited. rewrite insert_take_drop by (by eapply lookup_lt_Some).
  rewrite <- (take_drop_middle _ _ _ Hid) at 1. rewrite !list.filter_app, !length_app, !list.filter_cons, decide_True, decide_False by done.
  simpl. lia.
Qed.

Lemma successors_length t : length (successors t) ≤ 2.
Proof. destruct t; simpl; lia. Qed.

Lemma prun_reach E fuel pending reachable predecessors :
  walk_inv pending reachable predecessors → length pending + 2 * unvisited reachable ≤ fuel →
  prun_or E (reach f fuel pending reachable predecessors) (λ o, walk_inv [] (fst o) (snd o)).
Proof.
  revert pending reachable predecessors. induction fuel as [|fuel IH]; intros pending reachable preds Hi Hf.
  { destruct pending; [by apply prun_ret|simpl in Hf; lia]. }
  destruct pending as [|id pending]; [by apply prun_ret|]. cbn [reach]. simpl in Hf.
  apply prun_charge_bind. destruct (wi_pending _ _ _ Hi id ltac:(left)) as [Hid Hreach].
  destruct (lookup_lt_is_Some_2 reachable id) as [seen Hseen]; [by rewrite (wi_length _ _ _ Hi)|].
  apply prun_bind. eapply prun_expect; [done|]. destruct seen.
  { apply IH; [|lia]. destruct Hi as [H1 H2 H3 H4 H5 H6 H7]. split; try done; [set_solver|..].
    - apply elem_of_cons in H5 || idtac. destruct H5 as [|[->|]%elem_of_cons]; [by left|by left|by right].
    - intros b t Hb He. destruct (H6 b t Hb He) as [[|[->|]%elem_of_cons] ?]; naive_solver. }
  apply prun_bind, prun_block_terminator; [done|]. intros blk t Hblk Ht Hedge Hlt.
  apply prun_bind. eapply prun_mono; [apply prun_visit_targets; [apply (wi_lists _ _ _ Hi)|done]|].
  intros [preds' pending'] (H1 & H2 & H3 & H4). simpl in *. pose proof (successors_length t).
  apply IH; [|rewrite (unvisited_insert _ _ Hseen) in Hf; lia].
  assert (∀ b, visited (<[id := true]> reachable) b ↔ b = id ∨ visited reachable b) as Hvis.
  { intros b. unfold visited. destruct (decide (b = id)) as [->|Hne].
    - rewrite list_lookup_insert_eq by (by eapply lookup_lt_Some). naive_solver.
    - rewrite list_lookup_insert_ne by done. naive_solver. }
  destruct Hi as [I1 I2 I3 I4 I5 I6 I7]. split.
  - by rewrite length_insert.
  - done.
  - intros x [Hx|Hx]%H3; [|apply I3; by right]. split; [by apply Hlt|]. apply rtc_r with id; [done|by apply Hedge].
  - intros b [->|Hb]%Hvis; auto.
  - rewrite Hvis, H3. destruct I5 as [|[->|]%elem_of_cons]; auto.
  - intros b x Hb He. rewrite Hvis, H3.
    assert (x < n) as Hx. { destruct He as (bb & tt' & Hbb & Htt & Hx).
      destruct (ok_terminator _ Hok _ _ Hbb) as (t2 & Ht2 & Hs2 & _). simplify_eq. auto. }
    destruct (lookup_lt_is_Some_2 preds' x) as [ps' Hps']; [by rewrite H1|].
    destruct (H4 _ _ Hps') as (ps & Hps & Hq). apply Hvis in Hb as [->|Hb].
    + split; [right; left; by apply Hedge|]. exists ps'. split; [done|]. apply Hq. right. split; [done|by apply Hedge].
    + destruct (I6 b x Hb He) as [Hin (ps0 & Hps0 & Hb0)]. simplify_eq. split.
      * destruct Hin as [|[->|]%elem_of_cons]; auto.
      * exists ps'. split; [done|]. apply Hq. by left.
  - intros x ps' p Hx Hp. destruct (H4 _ _ Hx) as (ps & Hps & Hq). rewrite Hvis.
    destruct (proj1 (Hq p) Hp) as [Hp'|[Heq Hin]].
    + destruct (I7 _ _ _ Hps Hp'). by split; [right|].
    + subst p. by split; [left|apply Hedge].
Qed.

(** What the walk returns. *)
Record walk_done (reachable : list bool) (predecessors : list (list nat)) : Prop := {
  wd_length : length reachable = n;
  wd_lists : length predecessors = n;
  wd_reachable : ∀ b, visited reachable b ↔ cfg_reachable f b;
  wd_preds : ∀ t ps p, predecessors !! t = Some ps → p ∈ ps ↔ cfg_reachable f p ∧ edge f p t
}.

Lemma edge_lt b t : edge f b t → b < n ∧ t < n.
Proof.
  intros (blk & term & Hb & Ht & Hx). split; [by eapply lookup_lt_Some|].
  destruct (ok_terminator _ Hok _ _ Hb) as (t2 & Ht2 & Hs2 & _). simplify_eq. auto.
Qed.
Lemma reachable_lt b : cfg_reachable f b → b < n.
Proof. intros Hr. destruct (rtc_inv_r _ _ Hr) as [<-|(x & _ & He)]; [apply Hok|by apply edge_lt in He as [_ ?]]. Qed.

Lemma prun_walk E : prun_or E (reach f (reach_fuel f) [entry f] (replicate n false) (replicate n []))
  (λ o, walk_done (fst o) (snd o)).
Proof.
  eapply prun_mono.
  - apply prun_reach.
    + split; rewrite ?length_replicate; try done.
      * intros x ->%list_elem_of_singleton. split; [apply Hok|apply rtc_refl].
      * intros b Hb. by apply lookup_replicate in Hb as [? _].
      * right. left.
      * intros b t Hb. by apply lookup_replicate in Hb as [? _].
      * intros t ps p Ht. apply lookup_replicate in Ht as [-> _]. by intros ?%elem_of_nil.
    + unfold reach_fuel, unvisited. etrans; [apply Nat.add_le_mono_l, Nat.mul_le_mono_l, length_filter|].
      by rewrite length_replicate.
  - intros [reachable preds] [I1 I2 I3 I4 I5 I6 I7]. simpl in *.
    assert (∀ b, visited reachable b ↔ cfg_reachable f b) as Hv.
    { intros b. split; [auto|]. intros Hr. revert b Hr. apply (rtc_ind_r (R := edge f) (visited reachable) (entry f)).
      - destruct I5 as [|?%elem_of_nil]; done.
      - intros x y _ He Hx. by destruct (I6 x y Hx He) as [[|?%elem_of_nil] _]. }
    split; try done. intros t ps p Ht. rewrite <- Hv. split; [by apply I7|]. intros [Hp He].
    destruct (I6 p t Hp He) as (_ & ps' & ? & ?). by simplify_eq.
Qed.

(** ** The fixed point *)
Section Solution.
Context (reachable : list bool) (predecessors : list (list nat)) (Hwalk : walk_done reachable predecessors).
Notation preds j := (default [] (predecessors !! j)).
Notation row_of rows j := (default [] (rows !! j)).
Definition code (j : nat) : list Instruction := default [] (instructions <$> blocks f !! j).
Notation F := (flow_fun predecessors).

Lemma preds_spec j p : j < n → p ∈ preds j ↔ cfg_reachable f p ∧ edge f p j.
Proof.
  intros Hj. destruct (lookup_lt_is_Some_2 predecessors j) as [ps Hps]; [by rewrite (wd_lists _ _ Hwalk)|].
  rewrite Hps. by apply (wd_preds _ _ Hwalk).
Qed.
Lemma code_slots j i s : i ∈ code j → s ∈ instr_reads f i ++ instr_writes f i → s < slots f.
Proof.
  unfold code. destruct (blocks f !! j) as [blk|] eqn:E; [|by intros ?%elem_of_nil].
  by apply (ok_instructions _ Hok j).
Qed.
Lemma code_writes j i s : i ∈ code j → s ∈ instr_writes f i → s < slots f.
Proof. intros Hi Hs. eapply code_slots; [done|]. apply elem_of_app. by right. Qed.

Definition in_bit (j : nat) (rows : list row) (i : nat) : bool :=
  if decide (j = entry f) then writes_bit (param_slots f) i
  else forallb (λ p, bit (row_of rows p) i) (preds j).

Lemma incoming_bits j rows : j < n → rows_ok rows →
  incoming f j words predecessors rows = Some (incoming_row j predecessors rows)
  ∧ row_ok words (incoming_row j predecessors rows)
  ∧ ∀ i, i < 64 * words → bit (incoming_row j predecessors rows) i = in_bit j rows i.
Proof.
  intros Hj Hrows. unfold incoming_row, in_bit. destruct (decide (j = entry f)) as [->|Hne].
  - destruct (incoming_entry predecessors rows) as (r & -> & ? & ?). done.
  - destruct (lookup_lt_is_Some_2 predecessors j) as [ps Hps]; [by rewrite (wd_lists _ _ Hwalk)|].
    destruct (incoming_join j predecessors ps rows) as (r & -> & ? & Hb); [done..| |done|by rewrite Hps].
    intros p Hp. apply reachable_lt. by apply (wd_preds _ _ Hwalk _ _ _ Hps) in Hp as [? _].
Qed.
Lemma flow_fun_bits j rows : j < n → rows_ok rows → row_ok words (F j rows)
  ∧ ∀ i, i < 64 * words → bit (F j rows) i = writes_bit (block_writes f (code j)) i || in_bit j rows i.
Proof.
  intros Hj Hrows. destruct (incoming_bits j rows Hj Hrows) as (_ & Hr & Hb).
  destruct (define_all_spec (code j) _ Hr) as [H1 H2]; [apply code_writes|]. split; [done|].
  intros i Hi. unfold flow_fun. fold (code j). by rewrite H2, Hb.
Qed.

Lemma bit_lt r i : row_ok words r → bit r i = true → i < 64 * words.
Proof.
  intros [Hl _]. unfold bit. destruct (r !! (i / 64)) eqn:E; [|done]. intros _. apply lookup_lt_Some in E.
  pose proof (Nat.div_mod_eq i 64). pose proof (Nat.mod_upper_bound i 64). lia.
Qed.

Definition lack_out (i j : nat) : Prop := may_lack f i j ∧ i ∉ block_writes f (code j).

Definition flow_inv (rows : list row) : Prop :=
  rows_ok rows ∧ ∀ j, cfg_reachable f j →
    (∀ i, bit (F j rows) i = true → bit (row_of rows j) i = true)
    ∧ ∀ i, i < 64 * words → bit (row_of rows j) i = false → lack_out i j.
Definition flow_mu (rows : list row) : nat := sum_list (count_row words <$> rows).

(** A cleared bit of a join is a path that lacks the slot. *)
Lemma in_bit_lacks j rows i : flow_inv rows → cfg_reachable f j → i < 64 * words →
  in_bit j rows i = false → may_lack f i j.
Proof.
  intros [_ Hinv] Hj Hi. unfold in_bit. destruct (decide (j = entry f)) as [->|Hne].
  - intros Hb%bool_decide_eq_false. by apply lack_entry.
  - intros Hb. destruct (decide (Exists (λ p, bit (row_of rows p) i = false) (preds j))) as [He|Hn].
    + apply Exists_exists in He as (p & Hp%list_elem_of_In & Hpb). apply preds_spec in Hp as [Hp Hedge]; [|by apply reachable_lt].
      destruct (proj2 (Hinv p Hp) i Hi Hpb) as [Hl Hw]. destruct (edge_lt _ _ Hedge) as [[blk Hblk]%lookup_lt_is_Some_2 _].
      eapply lack_edge; [done..| |done]. unfold code in Hw. by rewrite Hblk in Hw.
    + apply not_Exists_Forall in Hn; [|intros ?; apply bool_eq_dec || apply _].
      exfalso. rewrite (proj2 (forallb_forall _ _)) in Hb; [done|]. intros p Hp.
      rewrite Forall_forall in Hn. by apply not_false_is_true, Hn.
Qed.

Lemma in_bit_mono j rows rows' i : (∀ p, bit (row_of rows p) i = true → bit (row_of rows' p) i = true) →
  in_bit j rows i = true → in_bit j rows' i = true.
Proof.
  intros Hle. unfold in_bit. destruct (decide _); [done|]. rewrite !forallb_forall. auto.
Qed.

Lemma sum_list_insert (l : list nat) i x y : l !! i = Some x → y < x → sum_list (<[i := y]> l) < sum_list l.
Proof.
  revert i. induction l as [|a l IH]; intros [|i] Hi Hlt; simplify_eq/=; [lia|]. specialize (IH i Hi Hlt). lia.
Qed.

Lemma flow_step_inv j rows : flow_inv rows → cfg_reachable f j → rows !! j ≠ Some (F j rows) →
  flow_inv (<[j := F j rows]> rows) ∧ flow_mu (<[j := F j rows]> rows) < flow_mu rows.
Proof.
  intros Hinv Hj Hne. pose proof Hinv as [Hrows Hrest]. pose proof Hrows as [Hlen Hrow]. pose proof (reachable_lt j Hj) as Hlt.
  destruct (flow_fun_bits j rows Hlt Hrows) as [HF HFb].
  destruct (lookup_lt_is_Some_2 rows j) as [old Hold]; [by rewrite Hlen|].
  assert (rows_ok (<[j := F j rows]> rows)) as Hrows'.
  { split; [by rewrite length_insert|]. intros k r Hk.
    apply list_lookup_insert_Some in Hk as [(<- & <- & _)|[_ Hk]]; eauto. }
  assert (∀ i p, bit (row_of (<[j := F j rows]> rows) p) i = true → bit (row_of rows p) i = true) as Hle.
  { intros i p. destruct (decide (p = j)) as [->|Hpj]; [|by rewrite list_lookup_insert_ne].
    rewrite list_lookup_insert_eq by congruence. simpl. apply Hrest. done. }
  assert (∀ k i, k < n → bit (F k (<[j := F j rows]> rows)) i = true → bit (F k rows) i = true) as Hmono.
  { intros k i Hk Hb. destruct (flow_fun_bits k rows Hk Hrows) as [HFk HFkb].
    destruct (flow_fun_bits k _ Hk Hrows') as [HFk' HFkb']. pose proof (bit_lt _ _ HFk' Hb) as Hi.
    rewrite HFkb' in Hb by done. rewrite HFkb by done. apply orb_true_iff in Hb as [->|Hb]; [done|].
    rewrite (in_bit_mono k _ rows _ (Hle i) Hb). apply orb_true_r. }
  split; [split; [done|]; intros k Hk|].
  - pose proof (reachable_lt k Hk) as Hkn. destruct (decide (k = j)) as [->|Hkj].
    + rewrite list_lookup_insert_eq by congruence. simpl. split; [by intros i; apply Hmono|].
      intros i Hi. rewrite HFb by done. rewrite orb_false_iff. intros [Hw Hb]. split.
      * by eapply in_bit_lacks.
      * by apply bool_decide_eq_false in Hw.
    + rewrite list_lookup_insert_ne by done. split; [|by apply Hrest].
      intros i Hb. apply (Hrest k Hk). by apply Hmono.
  - unfold flow_mu. rewrite list_fmap_insert. apply sum_list_insert with (count_row words old).
    + by rewrite list_lookup_fmap, Hold.
    + apply count_row_lt; [done|by eapply Hrow| |congruence]. intros i Hi.
      specialize (proj1 (Hrest j Hj) i Hi). by rewrite Hold.
Qed.

Lemma flow_fun_local i j s rows : flow_inv rows → cfg_reachable f j → ¬ edge f i j →
  F j (<[i := s]> rows) = F j rows.
Proof.
  intros [[Hlen _] _] Hj He. unfold flow_fun, incoming_row. f_equal. f_equal. unfold incoming.
  destruct (decide _); [done|]. pose proof (reachable_lt j Hj) as Hlt.
  destruct (lookup_lt_is_Some_2 predecessors j) as [ps Hps]; [by rewrite (wd_lists _ _ Hwalk)|].
  rewrite Hps. cbn [mbind option_bind].
  assert (∀ p, p ∈ ps → p ≠ i) as Hp.
  { intros p Hp ->. by apply (wd_preds _ _ Hwalk _ _ _ Hps) in Hp as [_ ?]. }
  generalize (Some (replicate words u64_max)). clear Hps. induction ps as [|p ps IH]; intros o; simpl; [done|].
  rewrite list_lookup_insert_ne by (apply not_eq_sym, Hp; left). apply IH. intros q Hq. apply Hp. by right.
Qed.

Lemma prun_flow_step E j rows : flow_inv rows → cfg_reachable f j →
  prun_or E (flow_step f predecessors j rows) (λ s, s = F j rows).
Proof.
  intros [Hrows _] Hj. pose proof (reachable_lt j Hj) as Hlt. unfold flow_step.
  apply prun_bind, prun_check_cancel, prun_bind.
  destruct (lookup_lt_is_Some_2 predecessors j) as [ps Hps]; [by rewrite (wd_lists _ _ Hwalk)|].
  eapply prun_expect; [done|]. apply prun_charge_bind, prun_bind.
  destruct (incoming_bits j rows Hlt Hrows) as (Hin & Hr & _). eapply prun_expect; [exact Hin|].
  destruct (lookup_lt_is_Some_2 _ _ Hlt) as [blk Hblk]. apply prun_bind. eapply prun_expect; [done|].
  assert (code j = instructions blk) as Hcode by (unfold code; by rewrite Hblk).
  apply prun_define_all; [done|rewrite <- Hcode; apply code_writes|].
  unfold flow_fun. fold (code j). by rewrite Hcode.
Qed.

Definition targets (j : nat) : list nat :=
  default [] (blk ← blocks f !! j; t ← terminator blk; Some (successors t)).
Lemma targets_edge j t : j < n → t ∈ targets j ↔ edge f j t.
Proof.
  intros [blk Hblk]%lookup_lt_is_Some_2. destruct (ok_terminator _ Hok _ _ Hblk) as (term & Ht & _).
  unfold targets. rewrite Hblk. cbn [mbind option_bind]. rewrite Ht. simpl. split; [by exists blk, term|].
  intros (b & t' & ? & ? & ?). by simplify_eq.
Qed.

Lemma flow_inv_start : flow_inv (replicate n (replicate words u64_max)).
Proof.
  assert (rows_ok (replicate n (replicate words u64_max))) as Hrows.
  { split; [by rewrite length_replicate|]. intros k r [-> _]%lookup_replicate. apply row_const_ok, u64_max_ok. }
  split; [done|]. intros j Hj%reachable_lt. rewrite lookup_replicate_2 by done. simpl.
  split; [|intros i Hi; by rewrite row_full_bit]. intros i Hb. apply row_full_bit.
  eapply bit_lt; [|exact Hb]. by apply flow_fun_bits.
Qed.

Lemma prun_flow_solve E :
  prun_or E (solve (flow_step f predecessors) (flow_dependents f) (solve_fuel f)
    (replicate n (replicate words u64_max))
    (filter (λ i, reachable !! i = Some true) (seq 0 n)) reachable)
    (λ rows, flow_inv rows ∧ ∀ j, cfg_reachable f j → rows !! j = Some (F j rows)).
Proof.
  eapply prun_mono.
  - apply (prun_solve E n _ _ F targets (cfg_reachable f) flow_inv flow_mu).
    + by intros rows [[? _] _].
    + apply reachable_lt.
    + intros. by apply prun_flow_step.
    + intros i Hi%reachable_lt. apply prun_bind, prun_block_terminator; [done|].
      intros blk t Hblk Ht _ _. apply prun_ret. unfold targets. rewrite Hblk. simpl. by rewrite Ht.
    + intros i j Hi Hj. apply targets_edge in Hj; [|by apply reachable_lt]. by apply rtc_r with i.
    + intros. by apply flow_step_inv.
    + intros i j s rows HI Hi Hj Hd. apply flow_fun_local; [done..|]. intros He. apply Hd, targets_edge; [|done].
      by apply reachable_lt.
    + apply flow_inv_start.
    + split_and!; [apply Hwalk|apply list.NoDup_filter, NoDup_seq|..].
      * intros i [Hi _]%list_elem_of_filter. by apply (wd_reachable _ _ Hwalk).
      * intros i. rewrite list_elem_of_filter, elem_of_seq. split; [|tauto]. intros Hi. split; [done|].
        apply lookup_lt_Some in Hi. rewrite (wd_length _ _ Hwalk) in Hi. lia.
    + intros j Hj Hn. exfalso. apply Hn, list_elem_of_filter. split; [by apply (wd_reachable _ _ Hwalk)|].
      apply elem_of_seq. apply reachable_lt in Hj. lia.
    + unfold solve_fuel, flow_mu. apply Nat.add_le_mono.
      * apply Nat.mul_le_mono_l. rewrite fmap_replicate. generalize (count_row_le words (replicate words u64_max)).
        generalize (count_row words (replicate words u64_max)). intros c Hc.
        induction n as [|m IH]; simpl; [done|]. lia.
      * etrans; [apply length_filter|]. by rewrite length_seq.
  - intros rows [HI Hs]. split; [done|]. intros j Hj. apply Hs; [done|apply not_elem_of_nil].
Qed.

(** At the fixed point a set bit means no path lacks the slot. *)
Lemma may_lack_reachable i j : may_lack f i j → cfg_reachable f j ∧ i ∉ param_slots f.
Proof.
  induction 1 as [Hp|b blk t _ [IH1 IH2] _ _ He]; [split; [apply rtc_refl|done]|].
  split; [by apply rtc_r with b|done].
Qed.
Lemma entry_bits rows j i : flow_inv rows → (∀ j, cfg_reachable f j → rows !! j = Some (F j rows)) →
  cfg_reachable f j → i < 64 * words →
  bit (incoming_row j predecessors rows) i = false ↔ may_lack f i j.
Proof.
  intros HI Hfix Hj Hi. pose proof HI as [Hrows _].
  destruct (incoming_bits j rows (reachable_lt j Hj) Hrows) as (_ & _ & Hb). rewrite Hb by done.
  split; [by apply in_bit_lacks|]. clear Hb Hj. intros Hl.
  induction Hl as [Hp|b blk t Hl IH Hblk Hw He].
  - unfold in_bit. rewrite decide_True by done. by apply bool_decide_eq_false_2.
  - unfold in_bit. apply may_lack_reachable in Hl as [Hr Hp]. destruct (decide (t = entry f)) as [->|Hne].
    { by apply bool_decide_eq_false_2. }
    apply not_true_iff_false. rewrite forallb_forall. intros Hall.
    assert (b ∈ preds t) as Hbt by (apply preds_spec; [by apply edge_lt in He as [_ ?]|done]).
    specialize (Hall b ltac:(by apply list_elem_of_In)). rewrite (Hfix b Hr) in Hall. simpl in Hall.
    destruct (flow_fun_bits b rows (reachable_lt b Hr) Hrows) as [_ HF]. rewrite HF, IH, orb_false_r in Hall by done.
    apply bool_decide_eq_true in Hall. unfold code in Hall. by rewrite Hblk in Hall.
Qed.

(** ** The reads *)
Section Check.
Context (rows : list row) (HI : flow_inv rows) (Hfix : ∀ j, cfg_reachable f j → rows !! j = Some (F j rows)).
Context (j : nat) (blk : BasicBlock) (Hj : cfg_reachable f j) (Hblk : blocks f !! j = Some blk).
Notation r0 := (incoming_row j predecessors rows).

Lemma prun_check_slot r slot kind : row_ok words r → slot < slots f →
  (bit r slot = false → flow_error f kind) →
  prun_or (flow_error f) (check_slot r slot kind) (λ _, bit r slot = true).
Proof.
  intros [Hr _] Hs He. apply prun_bind. eapply prun_expect.
  { apply row_contains_spec. rewrite Hr. pose proof (slots_words f). lia. }
  destruct (bit r slot) eqn:E; [by apply prun_ret|by apply prun_fail, He].
Qed.

(** The row after [p] instructions, and that their reads found their slots. *)
Definition checked (p : list Instruction) (r : row) : Prop :=
  row_ok words r ∧ (∀ i, bit r i = writes_bit (block_writes f p) i || bit r0 i)
  ∧ ∀ k x s, p !! k = Some x → s ∈ instr_reads f x → s ∉ block_writes f (take k p) → bit r0 s = true.

Lemma unset_lacks p r s : checked p r → s < slots f → bit r s = false →
  may_lack f s j ∧ s ∉ block_writes f p.
Proof.
  intros (_ & Hb & _) Hs Hf. rewrite Hb in Hf. apply orb_false_iff in Hf as [Hw Hf].
  apply bool_decide_eq_false in Hw. split; [|done]. apply (entry_bits rows); [done..| |done].
  pose proof (slots_words f). lia.
Qed.

Lemma prun_check_instruction p x q r : instructions blk = p ++ x :: q → checked p r →
  prun_or (flow_error f) (check_instruction f r x) (checked (p ++ [x])).
Proof.
  intros Hins Hc. pose proof Hc as (Hr & Hb & Hreads).
  assert (∀ s, s ∈ instr_reads f x ++ instr_writes f x → s < slots f) as Hslots.
  { intros s. apply (ok_instructions _ Hok j blk); [done|]. rewrite Hins. set_solver. }
  assert (∀ s, s ∈ instr_reads f x → bit r s = false → lacking_read f s) as Hlack.
  { intros s Hs Hf. destruct (unset_lacks p r s Hc) as [Hl Hw]; [apply Hslots; set_solver|done|].
    exists j, blk. split_and!; [done..|]. left. exists (length p), x. rewrite Hins.
    rewrite take_app_length, list_lookup_middle by done. done. }
  apply prun_charge_bind, prun_bind. eapply prun_mono.
  { apply (prun_fold_each _ _ (λ vs _, ∀ s, s ∈ temp <$> vs → bit r s = true));
      [intros s ?%elem_of_nil; done|].
    intros vs v vs' [] Hvs IH. assert (temp v ∈ instr_reads f x) as Hv.
    { apply elem_of_app. left. apply list_elem_of_fmap. exists v. split; [done|]. rewrite Hvs. set_solver. }
    eapply prun_mono; [apply prun_check_slot; [done|apply Hslots; set_solver|by apply Hlack]|].
    intros ? Hv1 s. rewrite fmap_app, elem_of_app. intros [|Hs]; [auto|].
    apply list_elem_of_singleton in Hs as ->. done. }
  intros ? Hin. apply prun_bind. apply (prun_mono _ _ (λ _, ∀ s, s ∈ instr_reads f x → bit r s = true)).
  { destruct x; try (apply prun_ret; intros s Hs; apply elem_of_app in Hs as [|?%elem_of_nil]; [auto|done]).
    assert (local_slot f local ∈ instr_reads f (LoadLocal dst local)) as Hl by (cbn; left).
    eapply prun_mono; [apply prun_check_slot; [done|apply Hslots; set_solver|by apply Hlack]|].
    intros ? Hl1 s. cbn. rewrite list_elem_of_singleton. by intros ->. }
  intros ? Hall. destruct (define_spec x r Hr) as (r' & Hd & Hr' & Hb'); [intros; apply Hslots; set_solver|].
  eapply prun_expect; [done|]. split_and!; [done|..].
  - intros i. rewrite Hb', Hb, block_writes_app, orb_assoc. f_equal. unfold writes_bit.
    rewrite <- bool_decide_or. apply bool_decide_ext. rewrite elem_of_app. cbn. rewrite app_nil_r. tauto.
  - intros k y s [Hk|[Hge Hk]]%lookup_app_Some Hs Hw.
    + rewrite take_app_le in Hw by (apply lookup_lt_Some in Hk; lia). eauto.
    + apply list_lookup_singleton_Some in Hk as [Hk ->]. replace k with (length p) in Hw by lia.
      rewrite take_app_length in Hw. specialize (Hall s Hs). rewrite Hb in Hall.
      apply orb_true_iff in Hall as [Hall%bool_decide_eq_true|]; done.
Qed.

Lemma prun_check_reads :
  prun_or (flow_error f) (fold_each (check_instruction f) r0 (instructions blk)) (checked (instructions blk)).
Proof.
  apply (prun_fold_each _ _ checked).
  - split_and!; [apply incoming_bits; [by apply reachable_lt|apply HI]|done|done].
  - intros p x q r Hins Hc. by eapply prun_check_instruction.
Qed.

(** No path reads an unwritten slot in this block. *)
Definition block_reads_ok : Prop :=
  ∀ slot, may_lack f slot j →
    (∀ k i, instructions blk !! k = Some i → slot ∉ block_writes f (take k (instructions blk)) →
       slot ∉ instr_reads f i)
    ∧ ∀ t, terminator blk = Some t → slot ∉ block_writes f (instructions blk) → slot ∉ term_reads t.

Lemma prun_check_terminator t r : terminator blk = Some t → checked (instructions blk) r →
  prun_or (flow_error f)
    (match terminator_input t with Some v => check_temp r v | None => pret tt end) (λ _, block_reads_ok).
Proof.
  intros Ht Hc. pose proof Hc as (Hr & Hb & Hreads).
  destruct (ok_terminator _ Hok j blk Hblk) as (t' & ? & _ & Hts). simplify_eq.
  assert (∀ s, s < slots f → may_lack f s j → bit r0 s = false) as Hentry.
  { intros s Hs. apply (entry_bits rows); [done..|]. pose proof (slots_words f). lia. }
  apply (prun_mono _ _ (λ _, ∀ s, s ∈ term_reads t → bit r s = true)).
  - unfold term_reads in *. destruct (terminator_input t) as [v|] eqn:Ev; [|apply prun_ret; by intros s ?%elem_of_nil].
    assert (temp v ∈ term_reads t) as Hv by (unfold term_reads; rewrite Ev; left).
    eapply prun_mono; [apply prun_check_slot; [done|apply Hts; left|]|].
    + intros Hf. destruct (unset_lacks _ r (temp v) Hc) as [Hl Hw]; [apply Hts; left|done|].
      exists j, blk. split_and!; [done..|]. right. eauto.
    + intros ? Hs s. cbn. rewrite list_elem_of_singleton. by intros ->.
  - intros ? Hall slot Hl. split.
    + intros k i Hk Hw Hs. assert (slot < slots f) as Hlt.
      { eapply (ok_instructions _ Hok j blk i); [done|by eapply list_elem_of_lookup_2|]. set_solver. }
      specialize (Hreads k i slot Hk Hs Hw). rewrite Hentry in Hreads; done.
    + intros t' ? Hw Hs. simplify_eq. specialize (Hall slot Hs). rewrite Hb, Hentry in Hall; [|by apply Hts|done].
      rewrite orb_false_r in Hall. by apply bool_decide_eq_true in Hall.
Qed.
End Check.

Lemma prun_check_blocks rows : flow_inv rows → (∀ j, cfg_reachable f j → rows !! j = Some (F j rows)) →
  prun_or (flow_error f) (fold_each (check_block f reachable predecessors rows)
      (replicate n (replicate words 0%Z)) (seq 0 n))
    (λ entries, rows_ok entries ∧ ∀ j, j ∈ seq 0 n → cfg_reachable f j →
       entries !! j = Some (incoming_row j predecessors rows)
       ∧ ∀ blk, blocks f !! j = Some blk → block_reads_ok j blk).
Proof.
  intros HI Hfix.
  apply (prun_fold_each _ _ (λ p entries, rows_ok entries ∧ ∀ j, j ∈ p → cfg_reachable f j →
       entries !! j = Some (incoming_row j predecessors rows)
       ∧ ∀ blk, blocks f !! j = Some blk → block_reads_ok j blk)).
  { split; [|by intros j ?%elem_of_nil]. split; [by rewrite length_replicate|].
    intros k r [-> _]%lookup_replicate. by apply row_const_ok. }
  intros p j q entries Hseq [[Hlen Hrow] Hp].
  assert (j < n) as Hlt by (assert (j ∈ seq 0 n) by (rewrite Hseq; set_solver);
    by match goal with Hx : j ∈ seq 0 n |- _ => apply elem_of_seq in Hx; lia end).
  destruct (lookup_lt_is_Some_2 _ _ Hlt) as [blk Hblk]. apply prun_bind. eapply prun_expect; [done|].
  destruct (lookup_lt_is_Some_2 reachable j) as [b Hb]; [by rewrite (wd_length _ _ Hwalk)|].
  apply prun_bind. eapply prun_expect; [done|]. destruct b; simpl.
  2: { apply prun_ret. split; [done|]. intros k. rewrite elem_of_app, list_elem_of_singleton.
       intros [Hk|Hk]; [by apply Hp|subst k]. intros Hr%(wd_reachable _ _ Hwalk). unfold visited in Hr. congruence. }
  assert (cfg_reachable f j) as Hj by (by apply (wd_reachable _ _ Hwalk)).
  destruct (lookup_lt_is_Some_2 predecessors j) as [ps Hps]; [by rewrite (wd_lists _ _ Hwalk)|].
  apply prun_bind. eapply prun_expect; [done|]. apply prun_charge_bind, prun_bind.
  destruct (incoming_bits j rows Hlt (proj1 HI)) as (Hin & Hinr & _). eapply prun_expect; [exact Hin|].
  destruct (lookup_lt_is_Some_2 entries j) as [old Hold]; [by rewrite Hlen|].
  apply prun_bind. eapply prun_expect; [done|]. apply prun_bind.
  eapply prun_mono; [by eapply prun_check_reads|]. intros r Hr.
  destruct (ok_terminator _ Hok j blk Hblk) as (t & Ht & _). apply prun_bind. eapply prun_expect; [done|].
  apply prun_bind. eapply prun_mono; [by eapply (prun_check_terminator rows)|]. intros ? Hok_j. apply prun_ret.
  split.
  { split; [by rewrite length_insert|]. intros k x Hx.
    apply list_lookup_insert_Some in Hx as [(_ & <- & _)|[_ Hx]]; eauto. }
  intros k. rewrite elem_of_app, list_elem_of_singleton. destruct (decide (k = j)) as [->|Hne].
  - intros _ _. split; [apply list_lookup_insert_eq; congruence|]. intros blk' ?. by simplify_eq.
  - intros [Hk|]; [|done]. rewrite list_lookup_insert_ne by done. auto.
Qed.
End Solution.

(** What an accepted function satisfies, and what the analysis hands on. *)
Record initialized (init : Initialization) : Prop := {
  in_reads : ∀ slot, ¬ lacking_read f slot;
  in_walk : walk_done (init_reachable init) (init_predecessors init);
  in_rows : rows_ok (init_entries init);
  in_entries : ∀ j, cfg_reachable f j → ∃ r, init_entries init !! j = Some r ∧ row_ok words r
    ∧ ∀ slot, slot < slots f → bit r slot = false ↔ may_lack f slot j
}.

Lemma prun_flow_verify : prun_or (flow_error f) (flow_verify f) initialized.
Proof.
  apply prun_bind. eapply prun_mono; [apply prun_walk|]. intros [reachable preds] Hwalk. simpl in *.
  apply prun_bind. eapply prun_mono; [by apply prun_flow_solve|]. intros rows [HI Hfix].
  apply prun_bind. eapply prun_mono; [by apply prun_check_blocks|]. intros entries [Hlen Hent].
  apply prun_ret. assert (∀ j, cfg_reachable f j → j ∈ seq 0 n) as Hseq.
  { intros j Hj%reachable_lt. apply elem_of_seq. lia. }
  split; simpl; [|done..|].
  - intros slot (j & blk & Hblk & Hl & Hr). destruct (may_lack_reachable _ _ Hl) as [Hj _].
    destruct (proj2 (Hent j (Hseq j Hj) Hj) blk Hblk slot Hl) as [H1 H2].
    destruct Hr as [(k & i & Hk & Hw & Hs)|(t & Ht & Hw & Hs)]; [by apply (H1 k i)|by apply (H2 t)].
  - intros j Hj. eexists. split; [by apply Hent; auto|]. split.
    + apply (incoming_bits reachable); [done|by apply reachable_lt|apply HI].
    + intros slot Hs. apply (entry_bits reachable); [done..|]. pose proof (slots_words f). lia.
Qed.
End Proofs.

(** C3: The initialization check is exact. On a function that passed the
    structural checks it never panics and always ends. It rejects the function
    only with a real path on which the named slot is read before it is written,
    and it accepts only when no such path exists; the rows it then returns hold,
    at the entry of every reachable block, exactly the slots every path writes. *)
Theorem initialization_exact other f : succeeds (verify_body other f) tt →
  prun_or (flow_error f) (flow_verify f) (initialized f).
Proof. intros Hv. eapply prun_flow_verify, verify_cfg_ok, Hv. Qed.
End Flow.

(** A loop-free diamond on a parameter: both arms write local 1, the join reads it. *)
Section Sample.
#[local] Existing Instance no_contracts.
Definition bool_temp (t : nat) : MirValue := {| temp := t; value_ty := VtBool |}.
Definition plain_block (l : list Instruction) (t : Terminator) : BasicBlock :=
  {| instructions := l; instruction_spans := replicate (length l) {| start := 0; end_ := 0 |};
     instruction_scopes := replicate (length l) 0; terminator := Some t; terminator_span := None;
     terminator_scope := Some 0 |}.
Definition diamond_with (arm : list Instruction) : MirFunction :=
  {| registers := ∅; local_types := ∅;
     params := [{| param_name := "p"; param_ty := VtBool; param_local := 0 |}];
     return_type := VtBool;
     locals := [{| local_name := "p"; local_ty := VtBool |}; {| local_name := "x"; local_ty := VtBool |}];
     temps := [{| temp_ty := VtBool |}; {| temp_ty := VtBool |}];
     blocks := [plain_block [LoadLocal (bool_temp 0) 0] (Branch (bool_temp 0) 1 2);
                plain_block [StoreLocal 1 (bool_temp 0)] (Jump 3);
                plain_block arm (Jump 3);
                plain_block [LoadLocal (bool_temp 1) 1] (Return (Some (bool_temp 1)))];
     entry := 0; function_effects := Effect.union Effect.local_read Effect.local_write;
     debug_source := None; source_span := {| start := 0; end_ := 0 |};
     debug_locals := [{| dl_local := 0; dl_name := "p"; dl_span := {| start := 0; end_ := 0 |};
                         dl_ty := VtBool; dl_is_parameter := true |}];
     captured_bindings := [];
     lexical_scopes := [{| scope_parent := None; scope_local := None |}] |}.
Definition diamond : MirFunction := diamond_with [StoreLocal 1 (bool_temp 0)].

Example diamond_accepted :
  match flow_verify diamond default_work with
  | Ok (init, _) => init_reachable init = [true; true; true; true] ∧ init_entries init = [[4]; [5]; [5]; [13]]%Z
  | _ => False
  end.
Proof. vm_compute. auto. Qed.
Example broken_diamond_rejected :
  flow_verify (diamond_with []) default_work = Err (PfError (UninitializedLocal 1)).
Proof. vm_compute. reflexivity. Qed.

Lemma initialization_exact_witness :
  succeeds (verify_body (λ _, pret tt) diamond) tt
  ∧ prun_or (flow_error diamond) (flow_verify diamond) (initialized diamond).
Proof.
  assert (succeeds (verify_body (λ _, pret tt) diamond) tt) as Hv.
  { exists default_work. eexists. vm_compute. reflexivity. }
  split; [exact Hv|]. exact (initialization_exact _ _ Hv).
Defined.
End Sample.
