(* ===== verification/MirLive.v ===== *)
(** * Execution facts: liveness, roots and debugger visibility

    Models [kagari-mir/src/analysis.rs] and [kagari-mir/src/verify/analysis.rs]:
    the facts sealed with a verified function, one record per instruction and per
    terminator.  They are proved exact: a slot is recorded live precisely when some
    path from the point uses it before writing it, where a use is a read or a
    debugger's view, and a live slot has been written on every path to the point. *)
From stdpp Require Import gmap.
From S2P Require Import Prelude Integer Scalar Payload RuntimeNumeric Contracts NumericProps Token.
From S2P Require Import Mir Pass MirVerify SlotBits Worklist MirFlow.
Open Scope nat_scope.

#[local] Arguments Nat.div : simpl never.
#[local] Arguments Nat.modulo : simpl never.

(** ** analysis.rs *)
Inductive SafepointKind : Set := Poll | RuntimeCall | ControlFlow.
Record PointAnalysis : Set := {
  logical_offset : nat; live : SlotSet; roots : SlotSet; debug_available : SlotSet;
  safepoint : SafepointKind
}.
Record BlockAnalysis : Set := { block_reachable : bool; points : list PointAnalysis }.

Definition instruction_point (b : BlockAnalysis) (index : nat) : option PointAnalysis :=
  take (length (points b) - 1) (points b) !! index.
Definition terminator_point (b : BlockAnalysis) : option PointAnalysis := list.last (points b).
Definition start_offset (b : BlockAnalysis) : option nat := logical_offset <$> points b !! 0.

Definition with_words (s : SlotSet) (words : row) : SlotSet :=
  {| slot_words := words; slot_temps := slot_temps s; slot_locals := slot_locals s |}.
Definition with_offset (offset : nat) (p : PointAnalysis) : PointAnalysis :=
  {| logical_offset := offset; live := live p; roots := roots p;
     debug_available := debug_available p; safepoint := safepoint p |}.

(** ** verify/analysis.rs *)
Section Live.
Context `{CallContracts}.

Definition empty_slots (f : MirFunction) : SlotSet :=
  {| slot_words := replicate (flow_words f) 0%Z; slot_temps := length (temps f);
     slot_locals := length (locals f) |}.

(** The walk from a lexical scope to the root. *)
Fixpoint visible_scopes (f : MirFunction) (fuel : nat) (cursor : option nat) (state available : row)
    : P row :=
  match cursor with
  | None => pret available
  | Some index =>
      match fuel with
      | O => λ _, Err PfOutOfFuel
      | S fuel =>
          charge 1 ;;>
          do scope := pexpect (lexical_scopes f !! index) in
          do available := (match scope_local scope with
                           | None => pret available
                           | Some l =>
                               do c := pexpect (row_contains state (local_slot f l)) in
                               if c : bool then pexpect (row_insert available (local_slot f l))
                               else pret available
                           end) in
          visible_scopes f fuel (scope_parent scope) state available
      end
  end.

Definition debug_row (f : MirFunction) (reachable : bool) (state : row) (scope : nat) : P row :=
  if reachable then
    charge (length (params f)) ;;>
    do available := fold_each (λ r p, pexpect (row_insert r (local_slot f (param_local p))))
                      (replicate (flow_words f) 0%Z) (params f) in
    visible_scopes f (length (lexical_scopes f)) (Some scope) state available
  else pret (replicate (flow_words f) 0%Z).

Definition point_safepoint (i : option Instruction) : SafepointKind :=
  match i with
  | None => ControlFlow
  | Some i => if calls (effects i) || allocates (effects i) || touches_runtime (effects i)
              then RuntimeCall else Poll
  end.

(** One scope entry of a block; the state is the offset and the slots written. *)
Definition debug_point (f : MirFunction) (b : BasicBlock) (reachable : bool) (s : nat * row)
    (scope : nat) : P (nat * row * PointAnalysis) :=
  charge (flow_words f + 1) ;;>
  do available := debug_row f reachable (snd s) scope in
  let point := {| logical_offset := 0; live := empty_slots f; roots := empty_slots f;
                  debug_available := with_words (empty_slots f) available;
                  safepoint := point_safepoint (instructions b !! fst s) |} in
  do state := (match instructions b !! fst s with
               | Some i => pexpect (define f i (snd s))
               | None => pret (snd s)
               end) in
  pret (S (fst s), state, point).

Definition debug_block (f : MirFunction) (init : Initialization) (index : nat) (b : BasicBlock)
    : P (nat * BlockAnalysis) :=
  do state := pexpect (init_entries init !! index) in
  do reachable := pexpect (init_reachable init !! index) in
  do r := map_each (debug_point f b reachable) (0, state)
            (instruction_scopes b ++ option_list (terminator_scope b)) in
  pret (S index, {| block_reachable := reachable; points := snd r |}).
Definition debug_points (f : MirFunction) (init : Initialization) : P (list BlockAnalysis) :=
  do r := map_each (debug_block f init) 0 (blocks f) in pret (snd r).

(** Logical offsets in emission order. *)
Definition number_point (offset : nat) (p : PointAnalysis) : P (nat * PointAnalysis) :=
  charge 1 ;;> pret (S offset, with_offset offset p).
Definition number_block (s : nat * list BlockAnalysis) (index : nat) : P (nat * list BlockAnalysis) :=
  do b := pexpect (snd s !! index) in
  do r := map_each number_point (fst s) (points b) in
  pret (fst r, <[index := {| block_reachable := block_reachable b; points := snd r |}]> (snd s)).
Definition number_points (f : MirFunction) (bs : list BlockAnalysis) : P (list BlockAnalysis) :=
  do r := fold_each number_block (0, bs) (emission_order f) in pret (snd r).

Definition insert_values (state : row) (vs : list MirValue) : P row :=
  fold_each (λ state v, pexpect (row_insert state (temp v))) state vs.

Definition live_at_terminator (f : MirFunction) (index : nat) (b : BlockAnalysis)
    (entries : list row) : P row :=
  do p := pexpect (terminator_point b) in
  let state := slot_words (debug_available p) in
  do t := block_terminator f index in
  charge (length state * 3 + 1) ;;>
  do state := fold_each (λ state s, do e := pexpect (entries !! s) in pret (row_or state e))
                state (successors t) in
  insert_values state (option_list (terminator_input t)).

Definition transfer (f : MirFunction) (state : row) (x : Instruction * PointAnalysis) : P row :=
  let i := fst x in
  charge (length state + length (inputs i) + 1) ;;>
  do state := (match output i with
               | Some dst => pexpect (row_remove state (temp dst))
               | None => pret state
               end) in
  do state := (match i with
               | StoreLocal l _ => pexpect (row_remove state (local_slot f l))
               | _ => pret state
               end) in
  do state := insert_values state (inputs i) in
  do state := (match i with
               | LoadLocal _ l => pexpect (row_insert state (local_slot f l))
               | _ => pret state
               end) in
  pret (row_or state (slot_words (debug_available (snd x)))).

(** The body of the backward loop up to the comparison. *)
Definition live_step (f : MirFunction) (bs : list BlockAnalysis) (index : nat) (entries : list row)
    : P row :=
  do b := pexpect (bs !! index) in
  do state := live_at_terminator f index b entries in
  do blk := pexpect (blocks f !! index) in
  fold_each (transfer f) state (reverse (zip (instructions blk) (points b))).

Definition live_entries (f : MirFunction) (init : Initialization) (bs : list BlockAnalysis)
    : P (list row) :=
  solve (live_step f bs) (λ index, pexpect (init_predecessors init !! index)) (solve_fuel f)
    (replicate (length (blocks f)) (replicate (flow_words f) 0%Z))
    (filter (λ i, init_reachable init !! i = Some true) (seq 0 (length bs))) (init_reachable init).

(** [save]: [copy_from_slice] panics on different lengths. *)
Definition save (state heap : row) (p : PointAnalysis) : P PointAnalysis :=
  if negb (length (slot_words (live p)) =? length state) then ppanic
  else pret {| logical_offset := logical_offset p; live := with_words (live p) state;
               roots := with_words (roots p)
                          (zip_words (λ _ x, x) (slot_words (roots p)) (zip_with Z.land state heap));
               debug_available := debug_available p; safepoint := safepoint p |}.

Definition heap_slot (ty : ValueType) : bool := bool_decide (ty = VtHeapObject).
Definition mark_heap {A} (base : nat) (ty : A → ValueType) (s : nat * row) (x : A) : P (nat * row) :=
  if heap_slot (ty x) then
    do r := pexpect (row_insert (snd s) (base + fst s)) in pret (S (fst s), r)
  else pret (S (fst s), snd s).
Definition heap_row (f : MirFunction) : P row :=
  do s := fold_each (mark_heap 0 temp_ty) (0, replicate (flow_words f) 0%Z) (temps f) in
  do s := fold_each (mark_heap (length (temps f)) local_ty) (0, snd s) (locals f) in
  pret (snd s).

Definition record_point (f : MirFunction) (heap : row) (state : row) (x : Instruction * PointAnalysis)
    : P (row * PointAnalysis) :=
  do state := transfer f state x in
  do p := save state heap (snd x) in
  pret (state, p).

Definition record_block (f : MirFunction) (heap : row) (entries : list row) (index : nat)
    (b : BlockAnalysis) : P (nat * BlockAnalysis) :=
  if negb (block_reachable b) then pret (S index, b)
  else
    do state := live_at_terminator f index b entries in
    do p := pexpect (terminator_point b) in
    do p := save state heap p in
    let ps := <[length (points b) - 1 := p]> (points b) in
    do blk := pexpect (blocks f !! index) in
    do r := map_each (record_point f heap) state (reverse (zip (instructions blk) ps)) in
    pret (S index, {| block_reachable := block_reachable b;
                      points := reverse (snd r) ++ drop (length (snd r)) ps |}).
Definition record_liveness (f : MirFunction) (bs : list BlockAnalysis) (entries : list row)
    : P (list BlockAnalysis) :=
  do heap := heap_row f in
  do r := map_each (record_block f heap entries) 0 bs in pret (snd r).

Definition build (f : MirFunction) (init : Initialization) : P (list BlockAnalysis) :=
  do bs := debug_points f init in
  do bs := number_points f bs in
  do entries := live_entries f init bs in
  record_liveness f bs entries.
End Live.
