(* ===== verification/MirLiveProps.v ===== *)
(** * The sealed execution facts are exact

    What [MirLive] computes, stated on the paths of the function: which locals a
    debugger sees at a point, which slots a point needs, and that a needed slot is
    always written.  The proofs follow the phases of [build]: visibility, numbering,
    the backward fixed point and the recording of its rows. *)
From stdpp Require Import gmap.
From S2P Require Import Prelude Integer Scalar Payload RuntimeNumeric Contracts NumericProps Token.
From S2P Require Import Mir Pass MirVerify SlotBits Worklist MirFlow MirLive.
Open Scope nat_scope.

#[local] Arguments Nat.div : simpl never.
#[local] Arguments Nat.modulo : simpl never.

Section Spec.
Context `{CallContracts} (f : MirFunction).
Notation n := (length (blocks f)).
Notation words := (flow_words f).

(** The scope entry of point [k] of a block: its instructions, then its terminator. *)
Definition scope_at (b : BasicBlock) (k : nat) : option nat :=
  (instruction_scopes b ++ option_list (terminator_scope b)) !! k.

Inductive in_scope : nat → nat → Prop :=
| in_scope_here index scope l : lexical_scopes f !! index = Some scope →
    scope_local scope = Some l → in_scope index l
| in_scope_parent index scope parent l : lexical_scopes f !! index = Some scope →
    scope_parent scope = Some parent → in_scope parent l → in_scope index l.

(** Every path to point [k] of block [j] has written [slot]. *)
Definition defined_at (j k slot : nat) : Prop :=
  ¬ (may_lack f slot j ∧ slot ∉ block_writes f (take k (code f j))).

(** A debugger stopped at the point can read the slot. *)
Definition visible (j k slot : nat) : Prop :=
  slot ∈ param_slots f
  ∨ ∃ b scope l, blocks f !! j = Some b ∧ scope_at b k = Some scope ∧ in_scope scope l
      ∧ slot = local_slot f l ∧ defined_at j k slot.

(** Some path from the point reads or shows [slot] before writing it. *)
Inductive needed (slot : nat) : nat → nat → Prop :=
| needed_visible j k : k ≤ length (code f j) → visible j k slot → needed slot j k
| needed_read j k i : code f j !! k = Some i → slot ∈ instr_reads f i → needed slot j k
| needed_skip j k i : code f j !! k = Some i → slot ∉ instr_writes f i → needed slot j (S k) →
    needed slot j k
| needed_branch j b t : blocks f !! j = Some b → terminator b = Some t → slot ∈ term_reads t →
    needed slot j (length (code f j))
| needed_edge j t : edge f j t → needed slot t 0 → needed slot j (length (code f j)).

(** A needed slot is written on every path to the point. *)
Lemma needed_defined slot j k : cfg_ok f → (∀ s, ¬ lacking_read f s) → j < n → needed slot j k → defined_at j k slot.
Proof.
  intros Hok Hsafe Hj Hn. revert Hj. induction Hn as [j k Hk Hv|j k i Hi Hr|j k i Hi Hw _ IH|j b t Hb Ht Hr|j t He _ IH];
    intros Hj [Hl Hnw].
  - destruct Hv as [Hp|(b & scope & l & _ & _ & _ & _ & Hd)]; [|by apply Hd].
    by apply may_lack_reachable in Hl as [_ ?].
  - destruct (lookup_lt_is_Some_2 _ _ Hj) as [b Hb]. unfold code in *. rewrite Hb in *. simpl in *.
    apply (Hsafe slot). exists j, b. split_and!; [done..|]. left. eauto.
  - apply IH; [done|]. split; [done|]. rewrite (take_S_r _ _ _ Hi), block_writes_app, elem_of_app.
    intros [|Hx]; [done|]. cbn in Hx. by rewrite app_nil_r in Hx.
  - rewrite take_ge in Hnw by lia. unfold code in *. rewrite Hb in *. simpl in *.
    apply (Hsafe slot). exists j, b. split_and!; [done..|]. right. eauto.
  - rewrite take_ge in Hnw by lia. pose proof He as (b & term & Hb & _). unfold code in *. rewrite Hb in *. simpl in *.
    apply IH; [by apply (edge_lt f Hok) in He as [_ ?]|]. split; [by eapply lack_edge|].
    rewrite take_0. apply not_elem_of_nil.
Qed.

(** What the verifier checked of the debug metadata. *)
Record scopes_ok : Prop := {
  so_points : ∀ j b, blocks f !! j = Some b →
    length (instruction_scopes b ++ option_list (terminator_scope b)) = S (length (instructions b))
    ∧ ∀ k s, scope_at b k = Some s → s < length (lexical_scopes f);
  so_parents : ∀ k scope, lexical_scopes f !! k = Some scope →
    (∀ parent, scope_parent scope = Some parent → parent < k)
    ∧ ∀ l, scope_local scope = Some l → l < length (locals f)
}.
End Spec.

Lemma verify_scopes_ok `{CallContracts} other f : succeeds (verify_body other f) tt → scopes_ok f.
Proof.
  intros (_ & [_ Hp] & Hb)%verify_body_sound. split; [|done]. intros j b Hj.
  destruct (Hb b ltac:(by eapply list_elem_of_lookup_2)) as [_ _ [_ Hlen] (scope & Hs & Hlt)].
  unfold scope_at. rewrite Hs. simpl. split; [rewrite length_app; simpl; lia|].
  intros k x Hx. apply Hlt. by eapply list_elem_of_lookup_2.
Qed.

(** ** Debugger visibility *)
Section Visible.
Context `{CallContracts} (f : MirFunction) (Hok : cfg_ok f) (Hsc : scopes_ok f) (E : MirErrorKind → Prop).
Notation n := (length (blocks f)).
Notation words := (flow_words f).

(** Locals of the enclosing scopes that are set in [state] join the row. *)
Lemma prun_visible_scopes fuel index state r : index < fuel → index < length (lexical_scopes f) →
  row_ok words state → row_ok words r →
  prun_or E (visible_scopes f fuel (Some index) state r) (λ r', row_ok words r'
    ∧ ∀ i, bit r' i = true ↔ bit r i = true
        ∨ ∃ l, in_scope f index l ∧ i = local_slot f l ∧ bit state i = true).
Proof.
  revert index r. induction fuel as [|fuel IH]; intros index r Hf Hi Hs Hr; [lia|]. cbn [visible_scopes].
  apply prun_charge_bind, prun_bind. destruct (lookup_lt_is_Some_2 _ _ Hi) as [scope Hscope].
  eapply prun_expect; [done|]. destruct (so_parents _ Hsc _ _ Hscope) as [Hparent Hlocal].
  apply prun_bind. apply (prun_mono _ _ (λ r1, row_ok words r1 ∧ ∀ i, bit r1 i = true ↔ bit r i = true
     ∨ ∃ l, scope_local scope = Some l ∧ i = local_slot f l ∧ bit state i = true)).
  { destruct (scope_local scope) as [l|]; [|apply prun_ret; split; [done|]; intros i; split; [by left|by intros [?|(? & ? & _)]]].
    assert (local_slot f l < slots f) as Hl by (specialize (Hlocal l eq_refl); unfold slots, local_slot; lia).
    apply prun_bind. eapply prun_expect.
    { apply row_contains_spec. destruct Hs as [-> _]. pose proof (slots_words f). lia. }
    destruct (bit state (local_slot f l)) eqn:Eb; [|apply prun_ret; split; [done|]; intros i; split; [by left|]].
    2: { intros [?|(? & [= <-] & -> & ?)]; congruence. }
    destruct (row_insert_slot f r _ Hr Hl) as (r1 & Hins & Hr1 & Hb). eapply prun_expect; [done|].
    split; [done|]. intros i. rewrite Hb, orb_true_iff, bool_decide_eq_true. naive_solver. }
  intros r1 [Hr1 Hb1]. destruct (scope_parent scope) as [parent|] eqn:Ep.
  - eapply prun_mono; [apply IH; [specialize (Hparent _ eq_refl); lia|specialize (Hparent _ eq_refl); lia|done..]|].
    intros r2 [Hr2 Hb2]. split; [done|]. intros i. rewrite Hb2, Hb1. split.
    + intros [[?|(l & ? & ? & ?)]|(l & ? & ? & ?)]; [by left|right; exists l; split; [by eapply in_scope_here|done]|
        right; exists l; split; [by eapply in_scope_parent|done]].
    + intros [?|(l & Hin & ? & ?)]; [by left; left|]. inversion Hin; simplify_eq; [left; right|right]; eauto.
  - destruct fuel; apply prun_ret; (split; [done|]); intros i; rewrite Hb1; split;
      (intros [?|(l & Hin & ? & ?)]; [by left|right; exists l; split; [|done]]);
      solve [by eapply in_scope_here|inversion Hin; by simplify_eq].
Qed.

Definition point_sees (j k : nat) (p : PointAnalysis) : Prop :=
  row_ok words (slot_words (debug_available p))
  ∧ ∀ i, bit (slot_words (debug_available p)) i = true ↔ visible f j k i.

(** The facts of one point before liveness: their shape, and what is visible. *)
Definition fresh_point (j k : nat) (p : PointAnalysis) : Prop :=
  live p = empty_slots f ∧ roots p = empty_slots f
  ∧ slot_temps (debug_available p) = length (temps f) ∧ slot_locals (debug_available p) = length (locals f)
  ∧ safepoint p = point_safepoint (code f j !! k)
  ∧ (cfg_reachable f j → point_sees j k p).

Lemma prun_insert_slots {A} (g : A → nat) (l : list A) r : row_ok words r → (∀ x, x ∈ l → g x < slots f) →
  prun_or E (fold_each (λ r x, pexpect (row_insert r (g x))) r l)
    (λ r', row_ok words r' ∧ ∀ i, bit r' i = writes_bit (g <$> l) i || bit r i).
Proof using Type.
  intros Hr Hl. apply (prun_fold_each E _ (λ p r', row_ok words r' ∧ ∀ i, bit r' i = writes_bit (g <$> p) i || bit r i));
    [done|].
  intros p x q r1 Heq [Hr1 Hb1]. destruct (row_insert_slot f r1 (g x) Hr1) as (r2 & Hins & Hr2 & Hb2);
    [apply Hl; rewrite Heq; apply elem_of_app; right; left|].
  eapply prun_expect; [done|]. split; [done|]. intros i. rewrite Hb2, Hb1, orb_assoc. f_equal. unfold writes_bit.
  rewrite <- bool_decide_or. apply bool_decide_ext. rewrite fmap_app, elem_of_app. cbn.
  rewrite list_elem_of_singleton. tauto.
Qed.

Lemma in_scope_local index l : in_scope f index l → local_slot f l < slots f.
Proof.
  unfold local_slot, slots. induction 1 as [k sc l Hk Hl|k sc p l Hk Hp _ IH]; [|done].
  pose proof (proj2 (so_parents _ Hsc _ _ Hk) l Hl). lia.
Qed.

(** [state] holds, below [slots f], what every path to the point has written. *)
Definition state_at (j k : nat) (state : row) : Prop :=
  row_ok words state ∧ (cfg_reachable f j →
    ∀ i, i < slots f → bit state i = true ↔ defined_at f j k i).

Lemma prun_debug_row j k b scope reachable state : blocks f !! j = Some b → scope_at b k = Some scope →
  (cfg_reachable f j → reachable = true) → state_at j k state →
  prun_or E (debug_row f reachable state scope) (λ r, row_ok words r
    ∧ (cfg_reachable f j → ∀ i, bit r i = true ↔ visible f j k i)).
Proof.
  intros Hb Hscope Hr [Hst Hdef]. pose proof (proj2 (so_points _ Hsc _ _ Hb) _ _ Hscope) as Hlt.
  unfold debug_row. destruct reachable.
  2: { apply prun_ret. split; [by apply row_const_ok|]. by intros ?%Hr. }
  apply prun_charge_bind, prun_bind. eapply prun_mono.
  { apply (prun_insert_slots (λ p, local_slot f (param_local p))); [by apply row_const_ok|].
    intros p Hp. apply (ok_params _ Hok). apply list_elem_of_fmap. by exists p. }
  intros r [Hr1 Hb1]. eapply prun_mono; [by apply prun_visible_scopes|].
  intros r' [Hr' Hb']. split; [done|]. intros Hj i. rewrite Hb', Hb1, row_zero_bit, orb_false_r.
  unfold writes_bit. rewrite bool_decide_eq_true. unfold visible. apply or_iff_compat_l. split.
  - intros (l & Hin & -> & Hbit). exists b, scope, l. split_and!; [done..|].
    apply Hdef; [done|by eapply in_scope_local|done].
  - intros (b' & scope' & l & ? & ? & Hin & -> & Hd). simplify_eq. exists l. split_and!; [done..|].
    apply Hdef; [done|by eapply in_scope_local|done].
Qed.

Lemma state_next j k state i : code f j !! k = Some i → state_at j k state →
  ∃ state', define f i state = Some state' ∧ state_at j (S k) state'.
Proof.
  intros Hi [Hst Hdef].
  destruct (define_spec f i state Hst) as (s' & Hd & Hs' & Hb).
  { intros s Hs. eapply (code_writes f Hok j); [by eapply list_elem_of_lookup_2|done]. }
  exists s'. split; [done|]. split; [done|]. intros Hj x Hx. rewrite Hb, orb_true_iff, Hdef by done.
  unfold writes_bit. rewrite bool_decide_eq_true. unfold defined_at.
  rewrite (take_S_r _ _ _ Hi), block_writes_app, elem_of_app. cbn. rewrite app_nil_r.
  destruct (decide (x ∈ instr_writes f i)); [|tauto]. split; [|tauto]. tauto.
Qed.

Lemma prun_debug_points_of j b reachable state : blocks f !! j = Some b →
  (cfg_reachable f j → reachable = true) → state_at j 0 state →
  prun_or E (map_each (debug_point f b reachable) (0, state)
               (instruction_scopes b ++ option_list (terminator_scope b)))
    (λ r, length (snd r) = S (length (instructions b)) ∧ ∀ k p, snd r !! k = Some p → fresh_point j k p).
Proof.
  intros Hb Hr Hst. assert (code f j = instructions b) as Hcode by (unfold code; by rewrite Hb).
  eapply prun_mono.
  - apply (prun_map_each E _ (λ p s out, fst s = length p ∧ length out = length p
      ∧ (length p ≤ length (instructions b) → state_at j (length p) (snd s))
      ∧ ∀ k q, out !! k = Some q → fresh_point j k q)); [done|].
    intros p scope q [k st] out Hl (Hk & Hlen & Hs & Hout). cbn [fst snd] in *. subst k.
    assert (scope_at b (length p) = Some scope) as Hscope.
    { unfold scope_at. by rewrite Hl, list_lookup_middle. }
    assert (length p ≤ length (instructions b)) as Hle.
    { pose proof (proj1 (so_points _ Hsc _ _ Hb)) as Hlen'. rewrite Hl, length_app in Hlen'. simpl in Hlen'. lia. }
    specialize (Hs Hle). apply prun_charge_bind, prun_bind. eapply prun_mono; [by eapply prun_debug_row|].
    intros r [Hrow Hvis]. cbn zeta. apply prun_bind.
    assert (fresh_point j (length p) {| logical_offset := 0; live := empty_slots f; roots := empty_slots f;
        debug_available := with_words (empty_slots f) r;
        safepoint := point_safepoint (instructions b !! length p) |}) as Hfresh.
    { unfold fresh_point. rewrite Hcode. split_and!; try done. intros Hj. by split; [|apply Hvis]. }
    apply (prun_mono _ _ (λ st', length p < length (instructions b) → state_at j (S (length p)) st')).
    + cbn [fst snd]. destruct (instructions b !! length p) as [i|] eqn:Hi.
      * rewrite <- Hcode in Hi. destruct (state_next _ _ _ _ Hi Hs) as (st' & Hd & Hs'). eapply prun_expect; [exact Hd|done].
      * apply prun_ret. intros. apply lookup_ge_None in Hi. lia.
    + intros st' Hst'. apply prun_ret. cbn [fst snd]. rewrite !length_app. simpl.
      split_and!; [lia|lia| |].
      * rewrite Nat.add_1_r. intros. apply Hst'. lia.
      * intros k x [Hx|[Hge Hx]]%lookup_app_Some; [auto|]. apply list_lookup_singleton_Some in Hx as [Hx <-].
        replace k with (length p) by lia. done.
  - intros [s out] (_ & Hlen & _ & Hout). cbn [fst snd] in *. split; [|done].
    rewrite Hlen. apply (so_points _ Hsc _ _ Hb).
Qed.

(** The facts of all blocks before liveness. *)
Definition fresh_blocks (bs : list BlockAnalysis) : Prop :=
  length bs = n ∧ ∀ j b, bs !! j = Some b →
    (block_reachable b = true ↔ cfg_reachable f j) ∧ length (points b) = S (length (code f j))
    ∧ ∀ k p, points b !! k = Some p → fresh_point j k p.

Lemma initialized_state init j b : initialized f init → blocks f !! j = Some b →
  ∃ r reachable, init_entries init !! j = Some r ∧ init_reachable init !! j = Some reachable
    ∧ (reachable = true ↔ cfg_reachable f j) ∧ state_at j 0 r.
Proof.
  intros [_ Hw [Hlen Hrows] Hent] Hb. pose proof (lookup_lt_Some _ _ _ Hb) as Hj.
  destruct (lookup_lt_is_Some_2 (init_entries init) j) as [r Hr]; [by rewrite Hlen|].
  destruct (lookup_lt_is_Some_2 (init_reachable init) j) as [x Hx]; [by rewrite (wd_length _ _ _ Hw)|].
  exists r, x. split_and!; [done..| |].
  - rewrite <- (wd_reachable _ _ _ Hw j). unfold visited. rewrite Hx. by split; [intros ->|intros [= ->]].
  - split; [by eapply Hrows|]. intros Hreach i Hi. destruct (Hent j Hreach) as (r' & Hr' & _ & Hbits).
    simplify_eq. specialize (Hbits i Hi). unfold defined_at. rewrite take_0.
    destruct (bit r i); split; try done.
    + intros _ [Hl _]. by apply Hbits in Hl.
    + intros Hd. exfalso. apply Hd. split; [by apply Hbits|apply not_elem_of_nil].
Qed.

Lemma prun_debug_points init : initialized f init → prun_or E (debug_points f init) fresh_blocks.
Proof.
  intros Hinit. apply prun_bind. eapply prun_mono.
  - apply (prun_map_each E _ (λ p s out, s = length p ∧ length out = length p ∧ ∀ j b, out !! j = Some b →
      (block_reachable b = true ↔ cfg_reachable f j) ∧ length (points b) = S (length (code f j))
      ∧ ∀ k q, points b !! k = Some q → fresh_point j k q)); [done|].
    intros p b q s out Hl (-> & Hlen & Hout).
    assert (blocks f !! length p = Some b) as Hb by (by rewrite Hl, list_lookup_middle).
    destruct (initialized_state init _ b Hinit Hb) as (r & x & Hr & Hx & Hxr & Hst).
    apply prun_bind. eapply prun_expect; [done|]. apply prun_bind. eapply prun_expect; [done|].
    apply prun_bind. eapply prun_mono; [apply (prun_debug_points_of (length p)); [done|tauto|done]|].
    intros [s out'] [Hlen' Hps]. apply prun_ret. cbn [fst snd] in *. rewrite !length_app. simpl.
    split_and!; [lia|lia|]. intros j y [Hy|[Hge Hy]]%lookup_app_Some; [auto|].
    apply list_lookup_singleton_Some in Hy as [Hy <-]. replace j with (length p) by lia.
    split_and!; [done| |done]. cbn [points]. rewrite Hlen'. unfold code. by rewrite Hb.
  - intros [s out] (_ & Hlen & Hout). apply prun_ret. by split.
Qed.

(** ** Numbering *)
Definition offsets_of (bs : list BlockAnalysis) (j : nat) : list nat :=
  logical_offset <$> default [] (points <$> bs !! j).
(** Logical offsets count the points of the blocks in emission order. *)
Definition numbered (bs : list BlockAnalysis) : Prop :=
  ∃ total, emission_order f ≫= offsets_of bs = seq 0 total.

Lemma prun_number_block offset l :
  prun_or E (map_each number_point offset l) (λ s, fst s = offset + length l
    ∧ logical_offset <$> snd s = seq offset (length l)
    ∧ Forall2 (λ p q, q = with_offset (logical_offset q) p) l (snd s)).
Proof.
  apply (prun_map_each E _ (λ p s out, s = offset + length p ∧ logical_offset <$> out = seq offset (length p)
    ∧ Forall2 (λ p q, q = with_offset (logical_offset q) p) p out)); [split_and!; [simpl; lia|done|constructor]|].
  intros p x q s out _ (-> & Ho & HF). apply prun_charge_bind, prun_ret. cbn [fst snd].
  rewrite length_app, fmap_app, seq_app, Ho. simpl. split_and!; [lia|done|].
  apply Forall2_app; [done|]. by constructor.
Qed.

Lemma fresh_with_offset j k p q : q = with_offset (logical_offset q) p → fresh_point j k p → fresh_point j k q.
Proof. intros ->. done. Qed.

Lemma emission_order_lt j : j ∈ emission_order f → j < n.
Proof.
  unfold emission_order. rewrite elem_of_cons, list_elem_of_filter, elem_of_seq.
  intros [->|[_ ?]]; [apply Hok|lia].
Qed.
Lemma emission_order_NoDup : NoDup (emission_order f).
Proof.
  apply list.NoDup_cons. split; [rewrite list_elem_of_filter; tauto|]. apply list.NoDup_filter, NoDup_seq.
Qed.

Lemma bind_ext_in {A B} (g h : A → list B) l : (∀ x, x ∈ l → g x = h x) → l ≫= g = l ≫= h.
Proof.
  induction l as [|x l IH]; intros Hgh; [done|]. cbn. rewrite Hgh by left. f_equal. apply IH.
  intros y Hy. apply Hgh. by right.
Qed.

Lemma prun_number_points bs : fresh_blocks bs →
  prun_or E (number_points f bs) (λ bs', fresh_blocks bs' ∧ numbered bs').
Proof.
  intros Hbs. apply prun_bind. eapply prun_mono.
  - apply (prun_fold_each E _ (λ p s, fresh_blocks (snd s) ∧ p ≫= offsets_of (snd s) = seq 0 (fst s))); [done|].
    intros p x q [offset bs1] Hl [[Hlen Hf] Hoff]. cbn [fst snd] in *.
    destruct (lookup_lt_is_Some_2 bs1 x) as [b Hb].
    { rewrite Hlen. apply emission_order_lt. rewrite Hl. set_solver. }
    apply prun_bind. eapply prun_expect; [done|]. apply prun_bind. eapply prun_mono; [apply prun_number_block|].
    intros [offset' ps] (Hfst & Hps & HF). apply prun_ret. cbn [fst snd] in *. split.
    + split; [by rewrite length_insert|]. intros j c Hc.
      apply list_lookup_insert_Some in Hc as [(<- & <- & _)|[_ Hc]]; [|by apply Hf].
      destruct (Hf _ _ Hb) as (Hr & Hlenp & Hpt). split_and!; [done|cbn [points]; by rewrite <- (Forall2_length HF)|].
      intros k y Hy. destruct (Forall2_lookup_r _ _ _ _ _ HF Hy) as (y0 & Hy0 & Heq).
      eapply fresh_with_offset; [done|]. by apply Hpt.
    + rewrite bind_app. cbn. rewrite app_nil_r, Hfst, seq_app, <- Hoff. f_equal.
      * apply bind_ext_in. intros j Hj. unfold offsets_of. rewrite list_lookup_insert_ne; [done|].
        intros <-. pose proof emission_order_NoDup as Hnd. rewrite Hl in Hnd.
        apply list.NoDup_app in Hnd as (_ & Hd & _). apply (Hd x Hj). left.
      * unfold offsets_of. rewrite list_lookup_insert_eq by (by eapply lookup_lt_Some). exact Hps.
  - intros [total bs'] [Hf Ho]. apply prun_ret. split; [done|by exists total].
Qed.
End Visible.

(** ** The backward fixed point *)
Section Backward.
Context `{CallContracts} (f : MirFunction) (Hok : cfg_ok f) (E : MirErrorKind → Prop).
Notation n := (length (blocks f)).
Notation words := (flow_words f).
Context (bs : list BlockAnalysis) (Hbs : fresh_blocks f bs).
Notation row_of rows j := (default [] (rows !! j)).

(** Point facts of a block, and its instructions paired with them. *)
Definition facts_of (j : nat) : list PointAnalysis := default [] (points <$> bs !! j).
Definition annotated (j : nat) : list (Instruction * PointAnalysis) := zip (code f j) (facts_of j).
Definition available (p : PointAnalysis) (i : nat) : bool := bit (slot_words (debug_available p)) i.

Lemma facts_spec j : j < n → ∃ b, bs !! j = Some b ∧ facts_of j = points b
  ∧ length (facts_of j) = S (length (code f j)) ∧ ∀ k p, facts_of j !! k = Some p → fresh_point f j k p.
Proof.
  intros Hj. destruct Hbs as [Hlen Hall]. destruct (lookup_lt_is_Some_2 bs j) as [b Hb]; [by rewrite Hlen|].
  destruct (Hall _ _ Hb) as (_ & Hl & Hp). exists b. unfold facts_of. by rewrite Hb.
Qed.
Lemma annotated_length j : j < n → length (annotated j) = length (code f j).
Proof.
  intros Hj. destruct (facts_spec j Hj) as (b & _ & _ & Hl & _). unfold annotated.
  rewrite length_zip_with, Hl. lia.
Qed.
Lemma annotated_lookup j k i p : annotated j !! k = Some (i, p) ↔
  code f j !! k = Some i ∧ facts_of j !! k = Some p.
Proof. unfold annotated. rewrite lookup_zip_with_Some. naive_solver. Qed.

(** The bits of the backward pass over annotated instructions. *)
Definition sweep_bit (l : list (Instruction * PointAnalysis)) (e : nat → bool) : nat → bool :=
  foldr (λ x acc i, writes_bit (instr_reads f (fst x)) i
                    || (acc i && negb (writes_bit (instr_writes f (fst x)) i))
                    || available (snd x) i) e l.
Definition exit_bit (j : nat) (rows : list row) (i : nat) : bool :=
  match list.last (facts_of j) with Some p => available p i | None => false end
  || existsb (λ s, bit (row_of rows s) i) (targets f j)
  || writes_bit (default [] (b ← blocks f !! j; t ← terminator b; Some (term_reads t))) i.
Definition live_fun (j : nat) (rows : list row) : row :=
  row_of_bits words (sweep_bit (annotated j) (exit_bit j rows)).

Lemma prun_insert_values r vs : row_ok words r → (∀ v, v ∈ vs → temp v < slots f) →
  prun_or E (insert_values r vs) (λ r', row_ok words r' ∧ ∀ i, bit r' i = writes_bit (temp <$> vs) i || bit r i).
Proof. apply (prun_insert_slots f E temp). Qed.

Lemma row_remove_slot r s : row_ok words r → s < slots f →
  ∃ r', row_remove r s = Some r' ∧ row_ok words r' ∧ ∀ j, bit r' j = negb (bool_decide (j = s)) && bit r j.
Proof. intros Hr Hs. apply row_remove_spec; [done|]. pose proof (slots_words f). lia. Qed.

Lemma writes_bit_app l1 l2 i : writes_bit (l1 ++ l2) i = writes_bit l1 i || writes_bit l2 i.
Proof. unfold writes_bit. rewrite <- bool_decide_or. apply bool_decide_ext, elem_of_app. Qed.
Lemma writes_bit_singleton s i : writes_bit [s] i = bool_decide (i = s).
Proof. apply bool_decide_ext, list_elem_of_singleton. Qed.

(** [transfer] computes one step of [sweep_bit]. *)
Lemma prun_transfer r i p : row_ok words r → row_ok words (slot_words (debug_available p)) →
  (∀ s, s ∈ instr_reads f i ++ instr_writes f i → s < slots f) →
  prun_or E (transfer f r (i, p)) (λ r', row_ok words r' ∧ ∀ x,
    bit r' x = writes_bit (instr_reads f i) x || (bit r x && negb (writes_bit (instr_writes f i) x))
               || available p x).
Proof.
  intros Hr Hp Hs. apply prun_charge_bind, prun_bind. cbn [fst snd].
  apply (prun_mono _ _ (λ r1, row_ok words r1 ∧ ∀ x, bit r1 x = bit r x && negb (writes_bit (temp <$> option_list (output i)) x))).
  { unfold instr_writes in Hs. destruct (output i) as [dst|].
    - destruct (row_remove_slot r (temp dst) Hr) as (r1 & Hrm & ? & Hb); [apply Hs; set_solver|].
      eapply prun_expect; [done|]. split; [done|]. intros x. rewrite Hb, andb_comm. cbn. by rewrite writes_bit_singleton.
    - apply prun_ret. split; [done|]. intros x. by rewrite andb_true_r. }
  intros r1 [Hr1 Hb1]. apply prun_bind.
  apply (prun_mono _ _ (λ r2, row_ok words r2 ∧ ∀ x, bit r2 x = bit r x && negb (writes_bit (instr_writes f i) x))).
  { assert (∀ l x, negb (writes_bit ((temp <$> option_list (output i)) ++ l) x)
      = negb (writes_bit (temp <$> option_list (output i)) x) && negb (writes_bit l x)) as Happ.
    { intros. by rewrite writes_bit_app, negb_orb. }
    unfold instr_writes in *.
    destruct i; try (apply prun_ret; split; [done|]; intros y; rewrite app_nil_r; apply Hb1).
    destruct (row_remove_slot r1 (local_slot f local) Hr1) as (r2 & Hrm & ? & Hb); [apply Hs; cbn; set_solver|].
    eapply prun_expect; [done|]. split; [done|]. intros x. rewrite Hb, Happ, Hb1, writes_bit_singleton.
    by rewrite andb_comm, andb_assoc. }
  intros r2 [Hr2 Hb2]. apply prun_bind. unfold instr_reads in *. eapply prun_mono.
  { apply prun_insert_values; [done|]. intros v Hv. apply Hs. rewrite !elem_of_app. left. left.
    apply list_elem_of_fmap. by exists v. }
  intros r3 [Hr3 Hb3]. apply prun_bind.
  apply (prun_mono _ _ (λ r4, row_ok words r4 ∧ ∀ x, bit r4 x
     = writes_bit ((temp <$> inputs i) ++ match i with LoadLocal _ l => [local_slot f l] | _ => [] end) x || bit r2 x)).
  { destruct i; try (apply prun_ret; split; [done|]; intros y; rewrite app_nil_r; apply Hb3).
    destruct (row_insert_slot f r3 (local_slot f local) Hr3) as (r4 & Hrm & ? & Hb); [apply Hs; cbn; set_solver|].
    eapply prun_expect; [done|]. split; [done|]. intros x.
    rewrite Hb, Hb3, writes_bit_app, writes_bit_singleton, orb_assoc. f_equal. apply orb_comm. }
  intros r4 [Hr4 Hb4]. apply prun_ret. split; [by apply row_or_ok|]. intros x.
  by rewrite (row_or_bit words), Hb4, Hb2.
Qed.

Lemma sweep_bit_ext l e e' i : (∀ i, e i = e' i) → sweep_bit l e i = sweep_bit l e' i.
Proof.
  intros He. revert i. induction l as [|x l IH]; intros i; simpl; [done|]. by rewrite IH.
Qed.
Lemma sweep_bit_mono l e e' i : (e i = true → e' i = true) → sweep_bit l e i = true → sweep_bit l e' i = true.
Proof.
  intros He. induction l as [|x l IH]; simpl; [done|]. rewrite !orb_true_iff, !andb_true_iff. tauto.
Qed.

Lemma last_facts j : j < n → list.last (facts_of j) = facts_of j !! length (code f j).
Proof.
  intros Hj. destruct (facts_spec j Hj) as (b & _ & _ & Hl & _). by rewrite last_lookup, Hl.
Qed.
Lemma fact_sees j k p : cfg_reachable f j → facts_of j !! k = Some p → point_sees f j k p.
Proof.
  intros Hj Hp. destruct (facts_spec j (reachable_lt f Hok j Hj)) as (b & _ & _ & _ & Hfresh).
  by apply (Hfresh _ _ Hp).
Qed.
Lemma last_fact j : cfg_reachable f j → ∃ p, list.last (facts_of j) = Some p ∧ facts_of j !! length (code f j) = Some p
  ∧ point_sees f j (length (code f j)) p.
Proof.
  intros Hj. pose proof (reachable_lt f Hok j Hj) as Hlt. rewrite last_facts by done.
  destruct (facts_spec j Hlt) as (b & _ & _ & Hl & _).
  destruct (lookup_lt_is_Some_2 (facts_of j) (length (code f j))) as [p Hp]; [lia|].
  exists p. split_and!; [done..|]. by eapply fact_sees.
Qed.

Lemma prun_live_exit j b rows : cfg_reachable f j → bs !! j = Some b → rows_ok f rows →
  prun_or E (live_at_terminator f j b rows) (λ r, row_ok words r ∧ ∀ i, bit r i = exit_bit j rows i).
Proof.
  intros Hj Hb [Hlen Hrows]. pose proof (reachable_lt f Hok j Hj) as Hlt.
  destruct (last_fact j Hj) as (p & Hlast & _ & Hp & _). unfold live_at_terminator, exit_bit, terminator_point.
  rewrite Hlast. unfold facts_of in Hlast. rewrite Hb in Hlast. simpl in Hlast.
  apply prun_bind. eapply prun_expect; [done|]. cbv zeta. apply prun_bind, (prun_block_terminator f Hok); [done|].
  intros blk t Hblk Ht Hedge Hsucc. apply prun_charge_bind, prun_bind.
  assert (targets f j = successors t) as Htg by (unfold targets; rewrite Hblk; simpl; by rewrite Ht).
  rewrite Htg, Hblk. simpl. rewrite Ht. simpl. eapply prun_mono.
  { apply (prun_fold_each E _ (λ q r, row_ok words r ∧ ∀ i, bit r i = available p i
      || existsb (λ s, bit (row_of rows s) i) q)); [split; [done|]; intros; by rewrite orb_false_r|].
    intros q s q' r Hq [Hr Hbr]. destruct (lookup_lt_is_Some_2 rows s) as [e He].
    { rewrite Hlen. apply Hsucc. rewrite Hq. set_solver. }
    apply prun_bind. eapply prun_expect; [done|]. apply prun_ret. split; [apply row_or_ok; eauto|].
    intros i. rewrite (row_or_bit words), Hbr, existsb_app by eauto. simpl. by rewrite He, orb_false_r, orb_assoc. }
  intros r [Hr Hbr]. eapply prun_mono.
  { apply prun_insert_values; [done|]. intros v Hv. destruct (ok_terminator _ Hok _ _ Hblk) as (t' & ? & _ & Hts).
    simplify_eq. apply Hts. apply list_elem_of_fmap. by exists v. }
  intros r' [Hr' Hb']. split; [done|]. intros i. by rewrite Hb', Hbr, orb_comm.
Qed.

(** The sweep of a block from its end. *)
Lemma prun_sweep j l r : (∀ x, x ∈ l → x ∈ annotated j) → cfg_reachable f j → row_ok words r →
  prun_or E (fold_each (transfer f) r (reverse l)) (λ r', row_ok words r' ∧ ∀ i, bit r' i = sweep_bit l (bit r) i).
Proof.
  intros Hl Hj Hr. eapply prun_mono.
  - apply (prun_fold_each E _ (λ q r', row_ok words r' ∧ ∀ i, bit r' i = sweep_bit (reverse q) (bit r) i)); [done|].
    intros q [x p] q' r1 Hq [Hr1 Hb1]. assert ((x, p) ∈ annotated j) as Hin.
    { apply Hl, elem_of_reverse. rewrite Hq. set_solver. }
    apply list_elem_of_lookup in Hin as [k [Hx Hp]%annotated_lookup].
    eapply prun_mono; [apply prun_transfer; [done|by eapply fact_sees|]|].
    + intros s. apply (code_slots f Hok j). by eapply list_elem_of_lookup_2.
    + intros r2 [Hr2 Hb2]. split; [done|]. intros i. rewrite Hb2, reverse_snoc, Hb1. done.
  - intros r'. by rewrite reverse_involutive.
Qed.

Lemma live_fun_bits j rows : row_ok words (live_fun j rows)
  ∧ ∀ i, i < 64 * words → bit (live_fun j rows) i = sweep_bit (annotated j) (exit_bit j rows) i.
Proof. apply row_of_bits_spec. Qed.

Lemma prun_live_step j rows : rows_ok f rows → cfg_reachable f j →
  prun_or E (live_step f bs j rows) (λ r, r = live_fun j rows).
Proof.
  intros Hrows Hj. pose proof (reachable_lt f Hok j Hj) as Hlt.
  destruct (facts_spec j Hlt) as (b & Hb & Hf & _). apply prun_bind. eapply prun_expect; [done|].
  apply prun_bind. eapply prun_mono; [by apply prun_live_exit|]. intros r [Hr Hbr].
  destruct (lookup_lt_is_Some_2 _ _ Hlt) as [blk Hblk]. apply prun_bind. eapply prun_expect; [done|].
  replace (zip (instructions blk) (points b)) with (annotated j).
  2: { unfold annotated, code. by rewrite Hblk, Hf. }
  eapply prun_mono; [by apply (prun_sweep j)|]. intros r' [Hr' Hb']. destruct (live_fun_bits j rows) as [Hl Hlb].
  apply (row_ext words); [done..|]. intros i Hi. rewrite Hb', Hlb by done. by apply sweep_bit_ext.
Qed.

Lemma annotated_drop j k i p : annotated j !! k = Some (i, p) → drop k (annotated j) = (i, p) :: drop (S k) (annotated j).
Proof. apply drop_S. Qed.

(** Set bits of the pass come from a need. *)
Lemma exit_needed j rows i : cfg_reachable f j →
  (∀ t, cfg_reachable f t → bit (row_of rows t) i = true → needed f i t 0) →
  exit_bit j rows i = true → needed f i j (length (code f j)).
Proof.
  intros Hj Hrows. pose proof (reachable_lt f Hok j Hj) as Hlt. unfold exit_bit.
  destruct (last_fact j Hj) as (p & -> & _ & _ & Hp). rewrite !orb_true_iff. intros [[Hv|He]|Hr].
  - apply needed_visible; [done|]. by apply Hp.
  - apply existsb_exists in He as (t & Ht%list_elem_of_In & Hb). apply (targets_edge f Hok) in Ht; [|done].
    apply needed_edge with t; [done|]. apply Hrows; [by apply rtc_r with j|done].
  - apply bool_decide_eq_true in Hr. destruct (lookup_lt_is_Some_2 _ _ Hlt) as [blk Hblk].
    rewrite Hblk in Hr. simpl in Hr. destruct (terminator blk) as [t|] eqn:Ht; [|by apply elem_of_nil in Hr].
    by eapply needed_branch.
Qed.
Lemma sweep_needed j rows i k : cfg_reachable f j → k ≤ length (code f j) →
  (∀ t, cfg_reachable f t → bit (row_of rows t) i = true → needed f i t 0) →
  sweep_bit (drop k (annotated j)) (exit_bit j rows) i = true → needed f i j k.
Proof.
  intros Hj Hk Hrows. pose proof (reachable_lt f Hok j Hj) as Hlt. remember (length (code f j) - k) as d eqn:Hd.
  revert k Hk Hd. induction d as [|d IH]; intros k Hk Hd.
  - rewrite drop_ge by (rewrite annotated_length; [lia|done]). simpl. replace k with (length (code f j)) by lia.
    by apply exit_needed.
  - destruct (lookup_lt_is_Some_2 (annotated j) k) as [[x p] Hx]; [rewrite annotated_length; [lia|done]|].
    rewrite (annotated_drop _ _ _ _ Hx). simpl. apply annotated_lookup in Hx as [Hx Hp].
    rewrite !orb_true_iff, andb_true_iff, negb_true_iff. unfold writes_bit at 1 2.
    rewrite bool_decide_eq_true, bool_decide_eq_false. intros [[Hr|[Hs Hw]]|Hv].
    + by eapply needed_read.
    + eapply needed_skip; [done..|]. apply IH; [lia|lia|done].
    + apply needed_visible; [lia|]. by apply (fact_sees j k p).
Qed.

Definition live_inv (rows : list row) : Prop :=
  rows_ok f rows ∧ ∀ j, cfg_reachable f j → ∀ i, bit (row_of rows j) i = true →
    bit (live_fun j rows) i = true ∧ needed f i j 0.
Definition live_mu (rows : list row) : nat := sum_list ((λ r, 64 * words - count_row words r) <$> rows).

Lemma exit_mono j rows rows' i : (∀ p, bit (row_of rows p) i = true → bit (row_of rows' p) i = true) →
  exit_bit j rows i = true → exit_bit j rows' i = true.
Proof.
  intros Hle. unfold exit_bit. rewrite !orb_true_iff, !existsb_exists. naive_solver.
Qed.

Lemma live_step_inv j rows : live_inv rows → cfg_reachable f j → rows !! j ≠ Some (live_fun j rows) →
  live_inv (<[j := live_fun j rows]> rows) ∧ live_mu (<[j := live_fun j rows]> rows) < live_mu rows.
Proof.
  intros [Hrows Hrest] Hj Hne. pose proof Hrows as [Hlen Hrow]. pose proof (reachable_lt f Hok j Hj) as Hlt.
  destruct (live_fun_bits j rows) as [HF HFb]. destruct (lookup_lt_is_Some_2 rows j) as [old Hold]; [by rewrite Hlen|].
  assert (∀ i p, bit (row_of rows p) i = true → bit (row_of (<[j := live_fun j rows]> rows) p) i = true) as Hle.
  { intros i p. destruct (decide (p = j)) as [->|Hpj]; [|by rewrite list_lookup_insert_ne].
    rewrite list_lookup_insert_eq by congruence. simpl. apply Hrest. done. }
  assert (∀ k i, bit (live_fun k rows) i = true → bit (live_fun k (<[j := live_fun j rows]> rows)) i = true) as Hmono.
  { intros k i Hb. destruct (live_fun_bits k rows) as [Hk Hkb]. pose proof (bit_lt _ _ _ Hk Hb) as Hi.
    destruct (live_fun_bits k (<[j := live_fun j rows]> rows)) as [_ Hkb']. rewrite Hkb in Hb by done. rewrite Hkb' by done.
    eapply sweep_bit_mono; [|exact Hb]. apply exit_mono, Hle. }
  split; [split; [|intros k Hk i]|].
  - split; [by rewrite length_insert|]. intros k r Hr.
    apply list_lookup_insert_Some in Hr as [(<- & <- & _)|[_ Hr]]; eauto.
  - destruct (decide (k = j)) as [->|Hkj].
    + rewrite list_lookup_insert_eq by congruence. simpl. intros Hb. split; [by apply Hmono|].
      apply (sweep_needed j rows); [done|lia| |].
      * intros t Ht Hbt. by apply Hrest.
      * rewrite drop_0, <- HFb; [done|]. by eapply bit_lt.
    + rewrite list_lookup_insert_ne by done. intros Hb. destruct (Hrest k Hk i Hb). auto.
  - unfold live_mu. rewrite list_fmap_insert. eapply sum_list_insert; [by rewrite list_lookup_fmap, Hold|].
    assert (count_row words old < count_row words (live_fun j rows)).
    { apply count_row_lt; [by eapply Hrow|done| |congruence]. intros i Hi. apply Hrest; [done|]. by rewrite Hold. }
    pose proof (count_row_le words (live_fun j rows)). lia.
Qed.

Lemma live_fun_local i j s rows : ¬ edge f j i → j < n → live_fun j (<[i := s]> rows) = live_fun j rows.
Proof.
  intros He Hj. unfold live_fun. assert (∀ x, exit_bit j (<[i := s]> rows) x = exit_bit j rows x) as Hx.
  { intros x. unfold exit_bit. f_equal. f_equal. assert (∀ t, t ∈ targets f j → t ≠ i) as Ht.
    { intros t Ht ->. by apply (targets_edge f Hok) in Ht. }
    induction (targets f j) as [|t l IH]; [done|]. simpl. rewrite list_lookup_insert_ne by (apply not_eq_sym, Ht; left).
    f_equal. apply IH. intros u Hu. apply Ht. by right. }
  apply (row_ext words); [apply row_of_bits_spec..|]. intros x Hlt.
  rewrite !(proj2 (row_of_bits_spec _ _)) by done. by apply sweep_bit_ext.
Qed.

Lemma prun_live_entries init : initialized f init →
  prun_or E (live_entries f init bs)
    (λ rows, live_inv rows ∧ ∀ j, cfg_reachable f j → rows !! j = Some (live_fun j rows)).
Proof.
  intros Hinit. pose proof (in_walk _ _ Hinit) as Hw. unfold live_entries. rewrite (proj1 Hbs). eapply prun_mono.
  - apply (prun_solve E n _ _ live_fun (λ i, default [] (init_predecessors init !! i)) (cfg_reachable f) live_inv live_mu).
    + by intros rows [[? _] _].
    + by apply reachable_lt.
    + intros i rows [Hr _] Hi. by apply prun_live_step.
    + intros i Hi%reachable_lt; [|done]. destruct (lookup_lt_is_Some_2 (init_predecessors init) i) as [ps Hps];
        [by rewrite (wd_lists _ _ _ Hw)|]. eapply prun_expect; [done|]. by rewrite Hps.
    + intros i j Hi%reachable_lt Hj; [|done]. by apply (preds_spec f _ _ Hw) in Hj as [? _].
    + intros. by apply live_step_inv.
    + intros i j s rows _ Hi%reachable_lt Hj Hd; [|done]. apply live_fun_local; [|by apply reachable_lt].
      intros He. apply Hd. by apply (preds_spec f _ _ Hw).
    + split; [split; [by rewrite length_replicate|]; intros k r [-> _]%lookup_replicate; by apply row_const_ok|].
      intros j Hj%reachable_lt i; [|done]. rewrite lookup_replicate_2 by done. simpl. by rewrite row_zero_bit.
    + split_and!; [apply Hw|apply list.NoDup_filter, NoDup_seq|..].
      * intros i [Hi _]%list_elem_of_filter. by apply (wd_reachable _ _ _ Hw).
      * intros i. rewrite list_elem_of_filter, elem_of_seq. split; [|tauto]. intros Hi. split; [done|].
        apply lookup_lt_Some in Hi. rewrite (wd_length _ _ _ Hw) in Hi. lia.
    + intros j Hj Hn. exfalso. apply Hn, list_elem_of_filter. split; [by apply (wd_reachable _ _ _ Hw)|].
      apply elem_of_seq. apply reachable_lt in Hj; [lia|done].
    + unfold solve_fuel, live_mu. apply Nat.add_le_mono.
      * apply Nat.mul_le_mono_l. rewrite fmap_replicate. generalize (64 * words). intros w. induction n as [|m IH]; simpl; [done|]. lia.
      * etrans; [apply length_filter|]. by rewrite length_seq.
  - intros rows [HI Hs]. split; [done|]. intros j Hj. apply Hs; [done|apply not_elem_of_nil].
Qed.

(** ** Recording *)
Definition slot_type (i : nat) : option ValueType :=
  if i <? length (temps f) then temp_ty <$> temps f !! i
  else local_ty <$> locals f !! (i - length (temps f)).

Lemma prun_mark_heap {A} base (ty : A → ValueType) (l : list A) r : row_ok words r →
  base + length l ≤ slots f →
  prun_or E (fold_each (mark_heap base ty) (0, r) l) (λ s, row_ok words (snd s) ∧ ∀ i, bit (snd s) i = true ↔
    bit r i = true ∨ ∃ k x, l !! k = Some x ∧ ty x = VtHeapObject ∧ i = base + k).
Proof.
  intros Hr Hl. eapply prun_mono.
  - apply (prun_fold_each E _ (λ p s, fst s = length p ∧ row_ok words (snd s) ∧ ∀ i, bit (snd s) i = true ↔
      bit r i = true ∨ ∃ k x, p !! k = Some x ∧ ty x = VtHeapObject ∧ i = base + k)).
    { split_and!; [done..|]. intros i. split; [by left|]. by intros [|(k & x & ? & _)]. }
    intros p x q [k r1] Heq (Hk & Hr1 & Hb1). cbn [fst snd] in *. subst k.
    assert (∀ i, (∃ k y, (p ++ [x]) !! k = Some y ∧ ty y = VtHeapObject ∧ i = base + k) ↔
      (∃ k y, p !! k = Some y ∧ ty y = VtHeapObject ∧ i = base + k) ∨ ty x = VtHeapObject ∧ i = base + length p) as Hsnoc.
    { intros i. split.
      - intros (k & y & [Hk|[Hge Hk]]%lookup_app_Some & Hy & ->); [left; eauto|].
        apply list_lookup_singleton_Some in Hk as [Hk <-]. right. split; [done|lia].
      - intros [(k & y & Hk & Hy & ->)|[Hx ->]]; [exists k, y|exists (length p), x]; split_and!; try done.
        + by apply lookup_app_l_Some.
        + by rewrite list_lookup_middle. }
    unfold mark_heap, heap_slot. cbn [fst snd]. case_bool_decide as Hx.
    + destruct (row_insert_slot f r1 (base + length p) Hr1) as (r2 & Hins & Hr2 & Hb2).
      { rewrite Heq, length_app in Hl. simpl in Hl. lia. }
      apply prun_bind. eapply prun_expect; [done|]. apply prun_ret. cbn [fst snd].
      split_and!; [rewrite length_app; simpl; lia|done|]. intros i.
      rewrite Hb2, orb_true_iff, bool_decide_eq_true, Hb1, Hsnoc. tauto.
    + apply prun_ret. cbn [fst snd]. split_and!; [rewrite length_app; simpl; lia|done|]. intros i.
      rewrite Hb1, Hsnoc. tauto.
  - intros s (_ & ? & ?). done.
Qed.
Lemma prun_heap_row : prun_or E (heap_row f) (λ r, row_ok words r ∧
  ∀ i, bit r i = true ↔ slot_type i = Some VtHeapObject).
Proof.
  apply prun_bind. eapply prun_mono.
  { apply prun_mark_heap; [by apply row_const_ok|]. unfold slots. simpl. lia. }
  intros [k r] [Hr Hb]. cbn [fst snd] in *. apply prun_bind. eapply prun_mono.
  { apply prun_mark_heap; [done|]. done. }
  intros [k' r'] [Hr' Hb']. apply prun_ret. cbn [fst snd] in *. split; [done|]. intros i. rewrite Hb', Hb, row_zero_bit.
  unfold slot_type. destruct (Nat.ltb_spec i (length (temps f))) as [Hi|Hi]; split.
  - intros [[?|(j & x & Hx & Ht & ->)]|(j & x & Hx & Ht & ->)]; [done| |lia]. simpl. by rewrite Hx, <- Ht.
  - intros (x & Ht & Hx)%fmap_Some. left. right. exists i, x. by rewrite <- Ht.
  - intros [[?|(j & x & Hx%lookup_lt_Some & Ht & ->)]|(j & x & Hx & Ht & ->)]; [done|lia|].
    replace (_ + j - _) with j by lia. by rewrite Hx, <- Ht.
  - intros (x & Ht & Hx)%fmap_Some. right. exists (i - length (temps f)), x. split_and!; [done|done|lia].
Qed.

Lemma zip_words_pick r q : length r = length q → zip_words (λ _ x, x) r q = q.
Proof. revert q. induction r as [|w r IH]; intros [|x q] Hl; simplify_eq/=; [done|]. by rewrite IH. Qed.
Lemma zip_with_words r q : length r = length q → zip_with Z.land r q = row_and r q.
Proof. revert q. induction r as [|w r IH]; intros [|x q] Hl; simplify_eq/=; [done|]. by rewrite IH. Qed.

(** The point [p] with the live bits [e] recorded. *)
Definition saved (heap : row) (e : nat → bool) (p p' : PointAnalysis) : Prop :=
  ∃ r, row_ok words r ∧ (∀ i, bit r i = e i)
    ∧ p' = {| logical_offset := logical_offset p; live := with_words (live p) r;
              roots := with_words (roots p) (row_and r heap);
              debug_available := debug_available p; safepoint := safepoint p |}.

Lemma prun_save r heap j k p : row_ok words r → row_ok words heap → fresh_point f j k p →
  prun_or E (save r heap p) (saved heap (bit r) p).
Proof.
  intros Hr Hh (Hlive & Hroots & _). unfold save. rewrite Hlive. cbn [slot_words empty_slots].
  rewrite length_replicate, (proj1 Hr), Nat.eqb_refl. cbn [negb]. apply prun_ret. exists r.
  split_and!; [done..|]. rewrite Hroots, Hlive. cbn [slot_words empty_slots].
  rewrite zip_with_words by (by rewrite (proj1 Hr), (proj1 Hh)).
  rewrite zip_words_pick; [done|]. unfold row_and. by rewrite zip_words_length, length_replicate, (proj1 Hr).
Qed.

Lemma saved_ext heap e e' p p' : (∀ i, e i = e' i) → saved heap e p p' → saved heap e' p p'.
Proof. intros He (r & Hr & Hb & Hp). exists r. split_and!; [done| |done]. intros i. by rewrite Hb. Qed.

(** The points written by the loop over the reversed block. *)
Lemma prun_record_points heap j e r : row_ok words heap → cfg_reachable f j → row_ok words r → (∀ i, bit r i = e i) →
  prun_or E (map_each (record_point f heap) r (reverse (annotated j)))
    (λ s, length (snd s) = length (annotated j) ∧ ∀ k p', reverse (snd s) !! k = Some p' →
       ∃ p, facts_of j !! k = Some p ∧ saved heap (sweep_bit (drop k (annotated j)) e) p p').
Proof.
  intros Hh Hj Hr He. set (l := annotated j). eapply prun_mono.
  - apply (prun_map_each E _ (λ q st out, row_ok words st ∧ (∀ i, bit st i = sweep_bit (reverse q) e i)
      ∧ length out = length q ∧ ∀ m p', out !! m = Some p' → ∃ x p, reverse l !! m = Some (x, p)
          ∧ saved heap (sweep_bit (reverse (take (S m) (reverse l))) e) p p')); [done|].
    intros q [x p] q' st out Hq (Hst & Hb & Hlen & Hout).
    assert ((x, p) ∈ l) as [k [Hx Hp]%annotated_lookup]%list_elem_of_lookup.
    { apply elem_of_reverse. rewrite Hq. set_solver. }
    pose proof (fact_sees j k p Hj Hp) as [Hpr _].
    apply prun_bind. eapply prun_mono; [apply prun_transfer; [done|done|]|].
    { intros s. apply (code_slots f Hok j). by eapply list_elem_of_lookup_2. }
    intros st' [Hst' Hb']. apply prun_bind. eapply prun_mono.
    { destruct (facts_spec j (reachable_lt f Hok j Hj)) as (b & _ & _ & _ & Hfresh).
      apply (prun_save st' heap j k p); [done..|]. by apply Hfresh. }
    intros p' Hsaved. apply prun_ret. cbn [fst snd].
    assert (∀ i, bit st' i = sweep_bit (reverse (q ++ [(x, p)])) e i) as Hb''.
    { intros i. rewrite Hb', reverse_snoc, Hb. done. }
    split_and!; [done|done|rewrite !length_app; simpl; lia|].
    intros m y [Hm|[Hge Hm]]%lookup_app_Some; [auto|]. apply list_lookup_singleton_Some in Hm as [Hm <-].
    replace m with (length q) by lia. exists x, p. rewrite Hq. split; [by rewrite list_lookup_middle|].
    rewrite (take_S_r _ _ (x, p)) by (by rewrite list_lookup_middle). rewrite take_app_length.
    by eapply saved_ext; [|exact Hsaved].
  - intros [st out] (_ & _ & Hlen & Hout). cbn [fst snd] in *. rewrite length_reverse in Hlen. split; [done|].
    intros k p' Hk. assert (k < length l) as Hkl by (apply lookup_lt_Some in Hk; by rewrite length_reverse, Hlen in Hk).
    rewrite reverse_lookup in Hk by (by rewrite Hlen). rewrite Hlen in Hk.
    destruct (Hout _ _ Hk) as (x & p & Hx & Hs). rewrite reverse_lookup in Hx by lia.
    replace (length l - S (length l - S k)) with k in Hx by lia. apply annotated_lookup in Hx as [_ Hp].
    exists p. split; [done|]. rewrite take_reverse, reverse_involutive in Hs.
    replace (length l - S (length l - S k)) with k in Hs by lia. done.
Qed.

Lemma prun_record_block heap rows j b : row_ok words heap → rows_ok f rows → cfg_reachable f j → bs !! j = Some b →
  prun_or E (record_block f heap rows j b) (λ s, fst s = S j ∧ block_reachable (snd s) = true
    ∧ length (points (snd s)) = length (points b)
    ∧ ∀ k p', points (snd s) !! k = Some p' → ∃ p, points b !! k = Some p
        ∧ saved heap (sweep_bit (drop k (annotated j)) (exit_bit j rows)) p p').
Proof.
  intros Hh Hrows Hj Hb. pose proof (reachable_lt f Hok j Hj) as Hlt.
  assert (block_reachable b = true) as Hre by (by apply (proj2 Hbs _ _ Hb)).
  destruct (facts_spec j Hlt) as (b' & Hb' & Hfacts & Hlen & Hfresh). simplify_eq.
  destruct (last_fact j Hj) as (p & Hlast & Hlookup & _). unfold record_block. rewrite Hre. cbn [negb].
  apply prun_bind. eapply prun_mono; [by apply prun_live_exit|]. intros r [Hr Hbr].
  apply prun_bind. eapply prun_expect; [unfold terminator_point; by rewrite <- Hfacts|].
  apply prun_bind. eapply prun_mono; [eapply (prun_save r heap j); [done..|by apply Hfresh]|]. intros p' Hp'. cbv zeta.
  destruct (lookup_lt_is_Some_2 _ _ Hlt) as [blk Hblk]. apply prun_bind. eapply prun_expect; [done|].
  rewrite <- Hfacts in *. replace (length (facts_of j) - 1) with (length (code f j)) by lia.
  replace (zip (instructions blk) (<[length (code f j) := p']> (facts_of j))) with (annotated j).
  2: { unfold annotated. assert (code f j = instructions blk) as <- by (unfold code; by rewrite Hblk).
       rewrite <- (zip_with_take_r pair _ (<[_ := p']> _)), take_insert_ge by lia. by rewrite zip_with_take_r. }
  apply prun_bind. eapply prun_mono; [by apply (prun_record_points heap j (exit_bit j rows))|].
  intros [st out] [Hout Hpts]. apply prun_ret. cbn [fst snd points block_reachable] in *.
  rewrite annotated_length in Hout by done. split_and!; [done|done| |].
  - rewrite length_app, length_reverse, length_drop, length_insert. lia.
  - intros k q [Hk|[Hge Hk]]%lookup_app_Some; [by apply Hpts|]. rewrite length_reverse in *.
    rewrite lookup_drop, Hout in Hk. replace (length (code f j) + (k - length (code f j))) with k in Hk by lia.
    apply list_lookup_insert_Some in Hk as [(Hki & <- & _)|[Hne Hk]].
    + exists p. rewrite <- Hki. split; [done|]. rewrite drop_ge by (rewrite annotated_length; [lia|done]). simpl.
      by eapply saved_ext; [|exact Hp'].
    + apply lookup_lt_Some in Hk. lia.
Qed.

Lemma needed_slot i j k : scopes_ok f → needed f i j k → i < slots f.
Proof.
  intros Hsc. induction 1 as [j k _ Hv|j k x Hx Hr|j k x _ _ _ IH|j b t Hb Ht Hr|j t _ _ IH]; try done.
  - destruct Hv as [Hp|(b & scope & l & _ & _ & Hin & -> & _)]; [by apply (ok_params _ Hok)|].
    by eapply in_scope_local.
  - eapply (code_slots f Hok j); [by eapply list_elem_of_lookup_2|]. apply elem_of_app. by left.
  - destruct (ok_terminator _ Hok _ _ Hb) as (t' & ? & _ & Hts). simplify_eq. auto.
Qed.

(** At the fixed point the pass finds every need. *)
Lemma sweep_complete rows i j k : scopes_ok f → rows_ok f rows →
  (∀ j, cfg_reachable f j → rows !! j = Some (live_fun j rows)) →
  needed f i j k → cfg_reachable f j → k ≤ length (code f j) →
  sweep_bit (drop k (annotated j)) (exit_bit j rows) i = true.
Proof.
  intros Hsc Hrows Hfix. 
  assert (∀ j k x, cfg_reachable f j → code f j !! k = Some x → ∃ p, facts_of j !! k = Some p
    ∧ drop k (annotated j) = (x, p) :: drop (S k) (annotated j)) as Hstep.
  { intros j0 k0 x Hj Hx. pose proof (reachable_lt f Hok j0 Hj) as Hlt.
    destruct (facts_spec j0 Hlt) as (b & _ & _ & Hlen & _).
    destruct (lookup_lt_is_Some_2 (facts_of j0) k0) as [p Hp]; [apply lookup_lt_Some in Hx; lia|].
    exists p. split; [done|]. apply annotated_drop. by apply annotated_lookup. }
  assert (∀ j, cfg_reachable f j → drop (length (code f j)) (annotated j) = []) as Hend.
  { intros j0 Hj. apply drop_ge. rewrite annotated_length; [lia|by apply reachable_lt]. }
  induction 1 as [j k Hk Hv|j k x Hx Hr|j k x Hx Hw Hn IH|j b t Hb Ht Hr|j t He Hn IH]; intros Hj Hle.
  - destruct (decide (k = length (code f j))) as [->|Hne].
    + rewrite Hend by done. simpl. unfold exit_bit. destruct (last_fact j Hj) as (p & -> & _ & _ & Hp).
      unfold available. by rewrite (proj2 (Hp i) Hv).
    + destruct (lookup_lt_is_Some_2 (code f j) k) as [x Hx]; [lia|].
      destruct (Hstep _ _ _ Hj Hx) as (p & Hp & ->). simpl. unfold available.
      rewrite (proj2 (proj2 (fact_sees j k p Hj Hp) i) Hv). apply orb_true_r.
  - destruct (Hstep _ _ _ Hj Hx) as (p & Hp & ->). simpl. unfold writes_bit at 1. by rewrite bool_decide_eq_true_2.
  - destruct (Hstep _ _ _ Hj Hx) as (p & Hp & ->). simpl. rewrite IH by (first [done|apply lookup_lt_Some in Hx; lia]).
    unfold writes_bit at 2. rewrite (bool_decide_eq_false_2 (i ∈ instr_writes f x)) by done. simpl.
    by rewrite orb_true_r.
  - rewrite Hend by done. simpl. unfold exit_bit. rewrite Hb. simpl. rewrite Ht. simpl.
    unfold writes_bit. rewrite (bool_decide_eq_true_2 (i ∈ term_reads t)) by done. apply orb_true_r.
  - rewrite Hend by done. simpl. unfold exit_bit. apply orb_true_iff. left. apply orb_true_iff. right.
    apply existsb_exists. exists t. rewrite <- list_elem_of_In, (targets_edge f Hok) by (by apply reachable_lt).
    split; [done|]. assert (cfg_reachable f t) as Ht by (by apply rtc_r with j). rewrite (Hfix t Ht). simpl.
    rewrite (proj2 (live_fun_bits t rows)).
    + rewrite <- (drop_0 (annotated t)). apply IH; [done|lia].
    + pose proof (slots_words f). apply needed_slot in Hn; [lia|done].
Qed.
Lemma sweep_exact rows i j k : scopes_ok f → live_inv rows →
  (∀ j, cfg_reachable f j → rows !! j = Some (live_fun j rows)) → cfg_reachable f j → k ≤ length (code f j) →
  sweep_bit (drop k (annotated j)) (exit_bit j rows) i = true ↔ needed f i j k.
Proof.
  intros Hsc [Hrows Hrest] Hfix Hj Hk. split; [|intros; by apply sweep_complete].
  apply sweep_needed; [done..|]. intros t Ht Hb. by apply Hrest.
Qed.

(** ** The facts of a sealed function *)
Definition in_set (s : SlotSet) (slot : nat) : Prop :=
  contains_temp s slot = Some true ∨ ∃ l, slot = local_slot f l ∧ contains_local s l = Some true.

Lemma in_set_bit s slot : slot_temps s = length (temps f) → slot_locals s = length (locals f) →
  row_ok words (slot_words s) → in_set s slot ↔ slot < slots f ∧ bit (slot_words s) slot = true.
Proof.
  intros Ht Hl [Hw _]. pose proof (slots_words f) as Hsw. unfold slots in *.
  assert (∀ i, i < slots f → row_contains (slot_words s) i = Some true ↔ bit (slot_words s) i = true) as Hc.
  { intros i Hi. unfold slots in Hi. rewrite row_contains_spec by lia. by split; [intros [= ->]|intros ->]. }
  unfold slots in Hc. unfold in_set, contains_temp, contains_local, local_slot. rewrite Ht, Hl. split.
  - intros [Hs|(l & -> & Hs)].
    + destruct (Nat.ltb_spec slot (length (temps f))); [|done]. apply Hc in Hs; [|lia]. split; [lia|done].
    + destruct (Nat.ltb_spec l (length (locals f))); [|done]. apply Hc in Hs; [|lia]. split; [lia|done].
  - intros [Hlt Hb]. destruct (Nat.ltb_spec slot (length (temps f))) as [Hs|Hs].
    + left. apply Hc; [lia|done].
    + right. exists (slot - length (temps f)). split; [lia|].
      destruct (Nat.ltb_spec (slot - length (temps f)) (length (locals f))); [|lia].
      replace (_ + (_ - _)) with slot by lia. by apply Hc.
Qed.

Definition shaped (s : SlotSet) : Prop :=
  slot_temps s = length (temps f) ∧ slot_locals s = length (locals f) ∧ row_ok words (slot_words s).

Record point_exact (j k : nat) (p : PointAnalysis) : Prop := {
  pe_shape : shaped (live p) ∧ shaped (roots p) ∧ shaped (debug_available p);
  pe_live : ∀ slot, in_set (live p) slot ↔ needed f slot j k;
  pe_roots : ∀ slot, in_set (roots p) slot ↔ needed f slot j k ∧ slot_type slot = Some VtHeapObject;
  pe_debug : ∀ slot, in_set (debug_available p) slot ↔ visible f j k slot;
  pe_safepoint : safepoint p = point_safepoint (code f j !! k)
}.

Lemma saved_exact heap rows j k p p' : scopes_ok f → live_inv rows →
  (∀ j, cfg_reachable f j → rows !! j = Some (live_fun j rows)) →
  row_ok words heap → (∀ i, bit heap i = true ↔ slot_type i = Some VtHeapObject) →
  cfg_reachable f j → k ≤ length (code f j) → fresh_point f j k p →
  saved heap (sweep_bit (drop k (annotated j)) (exit_bit j rows)) p p' → point_exact j k p'.
Proof.
  intros Hsc HI Hfix Hh Hheap Hj Hk (Hlive & Hroots & Ht & Hl & Hsafe & Hsee) (r & Hr & Hb & ->).
  destruct (Hsee Hj) as [Hdr Hdb].
  assert (∀ i, bit r i = true ↔ needed f i j k) as Hneed by (intros i; rewrite Hb; by apply sweep_exact).
  split; cbn [live roots debug_available safepoint]; [| | | |done]; [|intros slot..].
  - rewrite Hlive, Hroots. split_and!; [by split_and!|split_and!; [done|done|by apply row_and_ok]|by split_and!].
  - rewrite in_set_bit by (rewrite ?Hlive; done). cbn [slot_words with_words]. rewrite Hneed.
    split; [by intros [_ ?]|]. intros Hn. split; [by eapply needed_slot|done].
  - rewrite in_set_bit by (rewrite ?Hroots; first [done|by apply row_and_ok]). cbn [slot_words with_words].
    rewrite (row_and_bit words), andb_true_iff, Hneed, Hheap by done.
    split; [by intros [_ ?]|]. intros [Hn ?]. split; [by eapply needed_slot|done].
  - rewrite in_set_bit by done. rewrite Hdb. split; [by intros [_ ?]|]. intros Hv. split; [|done].
    apply needed_slot with j k; [done|]. by apply needed_visible.
Qed.

Record analyzed (bs' : list BlockAnalysis) : Prop := {
  an_length : length bs' = n;
  an_blocks : ∀ j b, bs' !! j = Some b →
    (block_reachable b = true ↔ cfg_reachable f j) ∧ length (points b) = S (length (code f j));
  an_points : ∀ j b k p, bs' !! j = Some b → cfg_reachable f j → points b !! k = Some p → point_exact j k p;
  an_numbered : numbered f bs'
}.

Lemma prun_record_liveness rows : scopes_ok f → live_inv rows → numbered f bs →
  (∀ j, cfg_reachable f j → rows !! j = Some (live_fun j rows)) →
  prun_or E (record_liveness f bs rows) analyzed.
Proof.
  intros Hsc HI [total Hnum] Hfix. apply prun_bind. eapply prun_mono; [apply prun_heap_row|]. intros heap [Hh Hheap].
  apply prun_bind. eapply prun_mono.
  - apply (prun_map_each E _ (λ p s out, s = length p ∧ length out = length p ∧ ∀ j b', out !! j = Some b' →
      ∃ b, bs !! j = Some b ∧ block_reachable b' = block_reachable b
        ∧ logical_offset <$> points b' = logical_offset <$> points b
        ∧ (cfg_reachable f j → ∀ k p, points b' !! k = Some p → point_exact j k p))); [done|].
    intros p b q s out Hl (-> & Hlen & Hout). assert (bs !! length p = Some b) as Hb by (by rewrite Hl, list_lookup_middle).
    apply (prun_mono _ _ (λ s, fst s = S (length p) ∧ block_reachable (snd s) = block_reachable b
      ∧ logical_offset <$> points (snd s) = logical_offset <$> points b
      ∧ (cfg_reachable f (length p) → ∀ k q, points (snd s) !! k = Some q → point_exact (length p) k q))).
    + destruct (block_reachable b) eqn:Hre.
      2: { unfold record_block. rewrite Hre. apply prun_ret. split_and!; [done..|].
           intros Hj%(proj2 Hbs _ _ Hb). congruence. }
      pose proof (proj2 Hbs _ _ Hb) as (Hreach & Hlenp & Hfresh). apply Hreach in Hre as Hj.
      eapply prun_mono; [apply prun_record_block; [done|apply HI|done..]|].
      intros [s b'] (Hs & Hre' & Hlen' & Hpts). cbn [fst snd] in *. split_and!; [done|congruence| |].
      * apply list_eq_same_length with (length (points b)); [by rewrite length_fmap|by rewrite length_fmap|].
        intros k x y _ Hx Hy. rewrite list_lookup_fmap in Hx, Hy.
        destruct (points b' !! k) as [p'|] eqn:Hp'; [|done]. destruct (Hpts _ _ Hp') as (p0 & Hp0 & r & _ & _ & ->).
        rewrite Hp0 in Hy. simpl in *. congruence.
      * intros _ k p' Hp'. destruct (Hpts _ _ Hp') as (p0 & Hp0 & Hsaved).
        eapply saved_exact; [done..| |by apply Hfresh|done]. apply lookup_lt_Some in Hp0. lia.
    + intros [s b'] (-> & Hre & Hoff & Hpts). cbn [fst snd] in *. rewrite !length_app. simpl.
      split_and!; [lia|lia|]. intros j y [Hy|[Hge Hy]]%lookup_app_Some; [auto|].
      apply list_lookup_singleton_Some in Hy as [Hy <-]. replace j with (length p) by lia. exists b. done.
  - intros [s out] (_ & Hlen & Hout). apply prun_ret. cbn [fst snd] in *.
    assert (∀ j b', out !! j = Some b' → length (points b') = length (default [] (points <$> bs !! j))) as Hsame.
    { intros j b' Hb'. destruct (Hout j b' Hb') as (b & Hb & _ & Hoff & _). rewrite Hb. simpl.
      rewrite <- (length_fmap logical_offset (points b')), Hoff. apply length_fmap. }
    destruct Hbs as [Hbslen Hall]. split; [congruence|..].
    + intros j b' Hb'. destruct (Hout j b' Hb') as (b & Hb & Hre & _). rewrite (Hsame _ _ Hb'), Hb, Hre. simpl.
      destruct (Hall _ _ Hb) as (? & ? & _). done.
    + intros j b' k p Hb' Hj Hp. destruct (Hout j b' Hb') as (b & Hb & _ & _ & Hex). by apply Hex.
    + exists total. rewrite <- Hnum. apply bind_ext_in. intros j Hj%emission_order_lt; [|done].
      destruct (lookup_lt_is_Some_2 out j) as [b' Hb']; [by rewrite Hlen, Hbslen|].
      destruct (Hout j b' Hb') as (b & Hb & _ & Hoff & _). unfold offsets_of. rewrite Hb', Hb. exact Hoff.
Qed.
End Backward.

Section Sealed.
Context `{CallContracts} (other : Instruction → P unit) (f : MirFunction).

Lemma prun_build E init : cfg_ok f → scopes_ok f → initialized f init → prun_or E (build f init) (analyzed f).
Proof.
  intros Hok Hsc Hinit. apply prun_bind. eapply prun_mono; [by apply prun_debug_points|]. intros bs Hbs.
  apply prun_bind. eapply prun_mono; [by apply prun_number_points|]. intros bs' [Hbs' Hnum].
  apply prun_bind. eapply prun_mono; [by apply prun_live_entries|]. intros rows [HI Hfix].
  by eapply prun_record_liveness.
Qed.

(** C4: The sealed execution facts are exact. For a function that passes the
    verifier up to here, computing them never panics and always ends. At every
    point of a reachable block the live set holds precisely the slots some path
    reads or shows to a debugger before writing them, the roots are the live heap
    objects, the debugger sees the parameters and the initialized locals in scope,
    and logical offsets number the points in emission order without gap. *)
Theorem execution_facts_exact init :
  succeeds (verify_body other f) tt → succeeds (flow_verify f) init → prun (build f init) (analyzed f).
Proof.
  intros Hv Hf. pose proof (verify_cfg_ok _ _ Hv) as Hok. apply prun_build; [done|by eapply verify_scopes_ok|].
  by apply (succeeds_prun _ _ _ _ (prun_flow_verify f Hok)).
Qed.

(** C9: Every slot a sealed point reports live, and so every garbage collection
    root and every local shown to a debugger, has been written on every path to
    that point: no collector or debugger reads an uninitialized slot. *)
Theorem live_slots_initialized init bs j b k p slot :
  succeeds (verify_body other f) tt → succeeds (flow_verify f) init → succeeds (build f init) bs →
  bs !! j = Some b → block_reachable b = true → points b !! k = Some p →
  in_set f (live p) slot ∨ in_set f (roots p) slot ∨ in_set f (debug_available p) slot →
  defined_at f j k slot.
Proof.
  intros Hv Hf Hbuild Hb Hre Hp Hin. pose proof (verify_cfg_ok _ _ Hv) as Hok.
  pose proof (succeeds_prun _ _ _ _ (prun_flow_verify f Hok) Hf) as Hinit.
  pose proof (verify_scopes_ok _ _ Hv) as Hsc.
  pose proof (succeeds_prun _ _ _ _ (prun_build (λ _, False) _ Hok Hsc Hinit) Hbuild) as [_ Hbl Hpt _].
  destruct (Hbl _ _ Hb) as [Hj%proj1 Hlen]. specialize (Hj Hre). destruct (Hpt _ _ _ _ Hb Hj Hp) as [_ Hl Hr Hd _].
  apply needed_defined; [done|apply Hinit|by apply reachable_lt|].
  destruct Hin as [?%Hl|[?%Hr|Hv'%Hd]]; [done|naive_solver|]. apply needed_visible; [|done].
  apply lookup_lt_Some in Hp. lia.
Qed.
End Sealed.

Section Sample.
#[local] Existing Instance no_contracts.
Definition no_facts : Initialization :=
  {| init_reachable := []; init_predecessors := []; init_entries := [] |}.
Definition diamond_init : Initialization :=
  Eval vm_compute in match flow_verify diamond default_work with Ok (init, _) => init | Err _ => no_facts end.
Definition diamond_facts : list BlockAnalysis :=
  Eval vm_compute in match build diamond diamond_init default_work with Ok (bs, _) => bs | Err _ => [] end.
Definition live_words (bs : list BlockAnalysis) : list (list row) :=
  (λ b, (λ p, slot_words (live p)) <$> points b) <$> bs.

(** Parameter 0 is slot 2, always shown; local 1 is slot 3, temporaries 0 and 1. *)
Example diamond_live : live_words diamond_facts
  = [[[4]; [5]]; [[5]; [12]]; [[5]; [12]]; [[12]; [6]]]%Z.
Proof. vm_compute. reflexivity. Qed.

Lemma diamond_verified : succeeds (verify_body (λ _, pret tt) diamond) tt.
Proof. exists default_work. eexists. vm_compute. reflexivity. Qed.
Lemma diamond_initialized : succeeds (flow_verify diamond) diamond_init.
Proof. exists default_work. eexists. vm_compute. reflexivity. Qed.
Lemma diamond_analyzed : succeeds (build diamond diamond_init) diamond_facts.
Proof. exists default_work. eexists. vm_compute. reflexivity. Qed.

Lemma execution_facts_exact_witness : prun (build diamond diamond_init) (analyzed diamond).
Proof. exact (execution_facts_exact _ _ _ diamond_verified diamond_initialized). Defined.

Lemma live_slots_initialized_witness : defined_at diamond 3 0 3.
Proof.
  eapply (live_slots_initialized _ _ _ _ 3 _ 0);
    [exact diamond_verified|exact diamond_initialized|exact diamond_analyzed|reflexivity..|].
  left. right. exists 1. split; reflexivity.
Defined.
End Sample.
