(* ===== verification/MirSuspend.v ===== *)
(** * Suspension safety

    Models [kagari-mir/src/verify/suspension.rs]: a function that may suspend is
    walked from its entry, and an [Await] is rejected when a slot live across it
    holds a host capability.  The check is proved exact on the paths of the
    function. *)
From stdpp Require Import gmap.
From S2P Require Import Prelude Integer Scalar Payload RuntimeNumeric Contracts NumericProps Token.
From S2P Require Import Mir Pass MirVerify SlotBits Worklist MirFlow MirLive MirLiveProps.
Open Scope nat_scope.

Fixpoint inline_host (ty : Ty) : bool :=
  match ty with
  | TyHost _ => true
  | TyTuple items => existsb inline_host items
  | _ => false
  end.
Definition ephemeral (physical : ValueType) (semantic : option Ty) : bool :=
  bool_decide (physical = VtHostHandle)
  || match semantic with Some ty => inline_host ty | None => false end.

Section Suspend.
Context `{CallContracts}.

(** [live.temps().any(..)] and [live.locals().any(..)]. *)
Definition any_slot (contains unsafe : nat → option bool) (count : nat) : P bool :=
  fold_each (λ found x,
    if found : bool then pret true
    else do c := pexpect (contains x) in if c : bool then pexpect (unsafe x) else pret false)
    false (seq 0 count).
Definition unsafe_temp (f : MirFunction) (t : nat) : option bool :=
  x ← temps f !! t; Some (ephemeral (temp_ty x) (registers f !! t)).
Definition unsafe_local (f : MirFunction) (l : nat) : option bool :=
  x ← locals f !! l; Some (ephemeral (local_ty x) (local_types f !! l)).

Definition is_await (i : Instruction) : bool := match i with Await _ _ _ => true | _ => false end.
Definition host_across_await : MirErrorKind := Contract (InvalidOperation "host capability live across await").

(** One instruction of the walk; the state is its index. *)
Definition suspend_instruction (f : MirFunction) (facts : BlockAnalysis) (index : nat) (i : Instruction)
    : P nat :=
  charge 1 ;;>
  if is_await i then
    do p := pexpect (instruction_point facts index) in
    charge (length (temps f) + length (locals f)) ;;>
    do t := any_slot (contains_temp (live p)) (unsafe_temp f) (slot_temps (live p)) in
    do l := any_slot (contains_local (live p)) (unsafe_local f) (slot_locals (live p)) in
    if t || l then pfail host_across_await else pret (S index)
  else pret (S index).

Definition suspend_successor (s : list bool * list nat) (successor : nat) : P (list bool * list nat) :=
  charge 1 ;;>
  do seen := pexpect (fst s !! successor) in
  if seen : bool then pret s else pret (<[successor := true]> (fst s), successor :: snd s).

Fixpoint suspend_walk (f : MirFunction) (bs : list BlockAnalysis) (fuel : nat) (visited : list bool)
    (pending : list nat) : P unit :=
  match pending with
  | [] => pret tt
  | id :: pending =>
      match fuel with
      | O => λ _, Err PfOutOfFuel
      | S fuel =>
          do b := pexpect (blocks f !! id) in
          do facts := pexpect (bs !! id) in
          do _ := fold_each (suspend_instruction f facts) 0 (instructions b) in
          do t := pexpect (terminator b) in
          do s := fold_each suspend_successor (visited, pending) (successors t) in
          suspend_walk f bs fuel (fst s) (snd s)
      end
  end.

Definition suspend_verify (f : MirFunction) (bs : list BlockAnalysis) : P unit :=
  if negb (may_suspend (function_effects f)) then pret tt
  else
    do _ := pexpect (replicate (length (blocks f)) false !! entry f) in
    suspend_walk f bs (length (blocks f)) (<[entry f := true]> (replicate (length (blocks f)) false))
      [entry f].

(** ** Exactness *)
Definition slot_ephemeral (f : MirFunction) (slot : nat) : bool :=
  default false (if slot <? length (temps f) then unsafe_temp f slot
                 else unsafe_local f (slot - length (temps f))).

(** A capability some path still needs while a reachable [Await] suspends. *)
Definition capability_across (f : MirFunction) (j k slot : nat) : Prop :=
  cfg_reachable f j ∧ (∃ i, code f j !! k = Some i ∧ is_await i = true)
  ∧ needed f slot j k ∧ slot_ephemeral f slot = true.
Definition suspend_error (f : MirFunction) (kind : MirErrorKind) : Prop :=
  kind = host_across_await ∧ ∃ j k slot, capability_across f j k slot.

Section Proofs.
Context (f : MirFunction) (bs : list BlockAnalysis) (Hok : cfg_ok f) (Hbs : analyzed f bs).
Notation n := (length (blocks f)).
Notation E := (suspend_error f).

Lemma prun_any_slot contains unsafe count : (∀ x, x < count → is_Some (contains x) ∧ is_Some (unsafe x)) →
  prun_or E (any_slot contains unsafe count)
    (λ found, found = true ↔ ∃ x, x < count ∧ contains x = Some true ∧ unsafe x = Some true).
Proof.
  intros Hall. eapply prun_mono.
  - apply (prun_fold_each E _ (λ p found, found = true ↔ ∃ x, x ∈ p ∧ contains x = Some true ∧ unsafe x = Some true)).
    { split; [done|]. by intros (x & ?%elem_of_nil & _). }
    intros p x q found Hq Hf.
    assert (x < count) as Hx by (assert (x ∈ seq 0 count) as Hin by (rewrite Hq; set_solver); apply elem_of_seq in Hin; lia).
    destruct (Hall x Hx) as [[c Hc] [u Hu]]. destruct found.
    + apply prun_ret. split; [|done]. intros _. destruct (proj1 Hf eq_refl) as (y & ? & ?). exists y. set_solver.
    + apply prun_bind. eapply prun_expect; [exact Hc|].
      assert (∀ y, y ∈ p → contains y = Some true → unsafe y = Some true → False) as Hno.
      { intros y Hy H1 H2. by assert (false = true) by (apply Hf; eauto). }
      destruct c.
      * eapply prun_expect; [exact Hu|]. split.
        -- intros ->. exists x. set_solver.
        -- intros (y & Hy & H1 & H2). apply elem_of_app in Hy as [Hy|Hy]; [by exfalso; eapply Hno|].
           apply list_elem_of_singleton in Hy as ->. congruence.
      * apply prun_ret. split; [done|]. intros (y & Hy & H1 & H2).
        apply elem_of_app in Hy as [Hy|Hy]; [by exfalso; eapply Hno|].
        apply list_elem_of_singleton in Hy as ->. congruence.
  - intros found Hf. rewrite Hf. split; intros (x & Hx & ?); exists x; split; try done; apply elem_of_seq in Hx || apply elem_of_seq; lia.
Qed.

Lemma shaped_contains s : shaped f s → (∀ t, t < length (temps f) → is_Some (contains_temp s t))
  ∧ ∀ l, l < length (locals f) → is_Some (contains_local s l).
Proof.
  intros (Ht & Hl & Hw & _). pose proof (slots_words f) as Hs. unfold slots in Hs.
  unfold contains_temp, contains_local. rewrite Ht, Hl.
  split; intros x Hx; rewrite (proj2 (Nat.ltb_lt _ _) Hx), row_contains_spec by lia; done.
Qed.

Lemma unsafe_slots : (∀ t, t < length (temps f) → unsafe_temp f t = Some (slot_ephemeral f t))
  ∧ ∀ l, l < length (locals f) → unsafe_local f l = Some (slot_ephemeral f (local_slot f l)).
Proof.
  unfold slot_ephemeral, local_slot. split; intros x Hx.
  - destruct (Nat.ltb_spec x (length (temps f))); [|lia]. unfold unsafe_temp.
    by destruct (lookup_lt_is_Some_2 _ _ Hx) as [y ->].
  - destruct (Nat.ltb_spec (length (temps f) + x) (length (temps f))); [lia|].
    replace (_ + x - _) with x by lia. unfold unsafe_local. by destruct (lookup_lt_is_Some_2 _ _ Hx) as [y ->].
Qed.

(** The two searches find a live capability exactly when there is one. *)
Lemma live_capability s : shaped f s →
  (∃ x, x < length (temps f) ∧ contains_temp s x = Some true ∧ unsafe_temp f x = Some true)
  ∨ (∃ x, x < length (locals f) ∧ contains_local s x = Some true ∧ unsafe_local f x = Some true)
  ↔ ∃ slot, in_set f s slot ∧ slot_ephemeral f slot = true.
Proof.
  intros (Ht & Hl & _). destruct unsafe_slots as [Ut Ul]. split.
  - intros [(x & Hx & Hc & Hu)|(x & Hx & Hc & Hu)].
    + exists x. split; [by left|]. rewrite Ut in Hu by done. congruence.
    + exists (local_slot f x). split; [right; eauto|]. rewrite Ul in Hu by done. congruence.
  - intros (slot & [Hc|(l & -> & Hc)] & He).
    + left. exists slot. assert (slot < length (temps f)) as Hx.
      { unfold contains_temp in Hc. rewrite Ht in Hc. by destruct (Nat.ltb_spec slot (length (temps f))). }
      split_and!; [done..|]. rewrite Ut by done. by rewrite He.
    + right. exists l. assert (l < length (locals f)) as Hx.
      { unfold contains_local in Hc. rewrite Hl in Hc. by destruct (Nat.ltb_spec l (length (locals f))). }
      split_and!; [done..|]. rewrite Ul by done. by rewrite He.
Qed.

(** No [Await] of the first [k] instructions of the block is crossed. *)
Definition block_clear (j k : nat) : Prop := ∀ k' slot, k' < k → ¬ capability_across f j k' slot.

Lemma prun_suspend_block j b facts : cfg_reachable f j → blocks f !! j = Some b → bs !! j = Some facts →
  prun_or E (fold_each (suspend_instruction f facts) 0 (instructions b)) (λ _, block_clear j (length (instructions b))).
Proof.
  intros Hj Hb Hfacts. destruct (an_blocks _ _ Hbs _ _ Hfacts) as [_ Hlen].
  assert (code f j = instructions b) as Hcode by (unfold code; by rewrite Hb). rewrite Hcode in Hlen.
  apply (prun_mono _ _ (λ k, k = length (instructions b) ∧ block_clear j (length (instructions b)))); [|by intros ? [_ ?]].
  apply (prun_fold_each E _ (λ p k, k = length p ∧ block_clear j (length p))); [split; [done|]; intros ? ? Hk; simpl in Hk; lia|].
  intros p i q k Hq [-> Hclear]. apply prun_charge_bind. rewrite length_app. simpl. rewrite Nat.add_1_r.
  assert (code f j !! length p = Some i) as Hi by (by rewrite Hcode, Hq, list_lookup_middle).
  assert ((∀ slot, ¬ capability_across f j (length p) slot) → block_clear j (S (length p))) as Hnext.
  { intros Hn k slot Hk. destruct (decide (k = length p)) as [->|]; [auto|]. apply Hclear. lia. }
  destruct (is_await i) eqn:Ha.
  2: { apply prun_ret. split; [done|]. apply Hnext. intros slot (_ & (i' & ? & ?) & _). simplify_eq. congruence. }
  assert (length p < length (instructions b)) as Hlt by (rewrite Hq, length_app; simpl; lia).
  destruct (lookup_lt_is_Some_2 (points facts) (length p)) as [pt Hpt]; [lia|].
  apply prun_bind. eapply prun_expect; [unfold instruction_point; rewrite Hlen, lookup_take_lt by lia; exact Hpt|].
  destruct (an_points _ _ Hbs _ _ _ _ Hfacts Hj Hpt) as [(Hshape & _) Hlive _ _ _].
  pose proof Hshape as (Ht & Hl & _). destruct (shaped_contains _ Hshape) as [Ct Cl]. destruct unsafe_slots as [Ut Ul].
  apply prun_charge_bind, prun_bind. rewrite Ht, Hl. eapply prun_mono; [apply prun_any_slot|].
  { intros x Hx. split; [by apply Ct|]. by rewrite Ut. }
  intros t Htemp. apply prun_bind. eapply prun_mono; [apply prun_any_slot|].
  { intros x Hx. split; [by apply Cl|]. by rewrite Ul. }
  intros l Hlocal. pose proof (live_capability (live pt) Hshape) as Hcap. rewrite <- Htemp, <- Hlocal, <- orb_true_iff in Hcap.
  destruct (t || l).
  - apply prun_fail. split; [done|]. destruct (proj1 Hcap eq_refl) as (slot & Hs & He).
    exists j, (length p), slot. split_and!; [done|eauto|by apply Hlive|done].
  - apply prun_ret. split; [done|]. apply Hnext. intros slot (_ & _ & Hn & He).
    assert (false = true); [|done]. apply Hcap. exists slot. split; [by apply Hlive|done].
Qed.

Record suspend_inv (visited_ : list bool) (pending : list nat) : Prop := {
  si_length : length visited_ = n;
  si_pending : ∀ x, x ∈ pending → visited visited_ x;
  si_seen : ∀ x, visited visited_ x → cfg_reachable f x;
  si_entry : visited visited_ (entry f);
  si_done : ∀ x, visited visited_ x → x ∉ pending →
    block_clear x (length (code f x)) ∧ ∀ t, edge f x t → visited visited_ t
}.

Lemma prun_suspend_successors v0 pending targets : length v0 = n → (∀ x, x ∈ targets → x < n) →
  prun_or E (fold_each suspend_successor (v0, pending) targets) (λ s,
    length (fst s) = n ∧ length (snd s) + unvisited (fst s) = length pending + unvisited v0
    ∧ (∀ x, visited (fst s) x ↔ visited v0 x ∨ x ∈ targets)
    ∧ (∀ x, x ∈ snd s → x ∈ pending ∨ x ∈ targets) ∧ (∀ x, x ∈ pending → x ∈ snd s)
    ∧ ∀ x, visited (fst s) x → x ∉ snd s → visited v0 x).
Proof.
  intros Hlen Hlt.
  apply (prun_fold_each E _ (λ p s, length (fst s) = n ∧ length (snd s) + unvisited (fst s) = length pending + unvisited v0
    ∧ (∀ x, visited (fst s) x ↔ visited v0 x ∨ x ∈ p)
    ∧ (∀ x, x ∈ snd s → x ∈ pending ∨ x ∈ p) ∧ (∀ x, x ∈ pending → x ∈ snd s)
    ∧ ∀ x, visited (fst s) x → x ∉ snd s → visited v0 x)).
  { split_and!; [done|done|set_solver|set_solver|done|done]. }
  intros p t q [v1 pd] Hq (H1 & H2 & H3 & H4 & H5 & H6). cbn [fst snd] in *. apply prun_charge_bind, prun_bind.
  destruct (lookup_lt_is_Some_2 v1 t) as [seen Hseen]; [rewrite H1; apply Hlt; rewrite Hq; set_solver|].
  eapply prun_expect; [exact Hseen|]. destruct seen; apply prun_ret; cbn [fst snd].
  - split_and!; [done|done| |set_solver|done|done]. intros x. rewrite H3, elem_of_app, list_elem_of_singleton.
    split; [tauto|]. intros [?|[?|Hx]]; [tauto..|]. subst x. by apply H3.
  - assert (∀ x, visited (<[t := true]> v1) x ↔ x = t ∨ visited v1 x) as Hvis.
    { intros x. unfold visited. destruct (decide (x = t)) as [->|Hne].
      - rewrite list_lookup_insert_eq by (by eapply lookup_lt_Some). naive_solver.
      - rewrite list_lookup_insert_ne by done. naive_solver. }
    rewrite (unvisited_insert _ _ Hseen) in H2. split_and!.
    + by rewrite length_insert.
    + simpl. lia.
    + intros x. rewrite Hvis, H3, elem_of_app, list_elem_of_singleton. tauto.
    + set_solver.
    + set_solver.
    + intros x Hx Hn. apply Hvis in Hx as [->|Hx]; [set_solver|]. apply H6; [done|set_solver].
Qed.

Lemma prun_suspend_walk fuel v0 pending : suspend_inv v0 pending → length pending + unvisited v0 ≤ fuel →
  prun_or E (suspend_walk f bs fuel v0 pending) (λ _, ∀ j k slot, ¬ capability_across f j k slot).
Proof.
  revert v0 pending. induction fuel as [|fuel IH]; intros v0 pending Hi Hf.
  all: destruct pending as [|id pending].
  1, 3: apply prun_ret; intros j k slot Hc; destruct Hi as [_ _ Hseen Hentry Hdone];
    assert (∀ x, cfg_reachable f x → visited v0 x) as Hall by
      (apply (rtc_ind_r (R := edge f) (visited v0) (entry f)); [done|]; intros x y _ He Hx;
       apply (Hdone x Hx); [apply not_elem_of_nil|done]);
    pose proof Hc as (Hj & (i & Hk & _) & _); apply (proj1 (Hdone j (Hall j Hj) (not_elem_of_nil _)) k slot);
    [by eapply lookup_lt_Some|done].
  { simpl in Hf. lia. }
  cbn [suspend_walk]. simpl in Hf. pose proof Hi as [I1 I2 I3 I4 I5].
  assert (cfg_reachable f id) as Hid by (apply I3, I2; left). pose proof (reachable_lt f Hok id Hid) as Hlt.
  destruct (lookup_lt_is_Some_2 _ _ Hlt) as [b Hb]. apply prun_bind. eapply prun_expect; [done|].
  destruct (lookup_lt_is_Some_2 bs id) as [facts Hfacts]; [by rewrite (an_length _ _ Hbs)|].
  apply prun_bind. eapply prun_expect; [done|]. apply prun_bind.
  eapply prun_mono; [by eapply prun_suspend_block|]. intros ? Hclear.
  destruct (ok_terminator _ Hok _ _ Hb) as (t & Ht & Hs & _). apply prun_bind. eapply prun_expect; [done|].
  apply prun_bind. eapply prun_mono; [by apply prun_suspend_successors|].
  intros [v1 pd] (H1 & H2 & H3 & H4 & H5 & H6). cbn [fst snd] in *.
  assert (∀ x, edge f id x ↔ x ∈ successors t) as Hedge.
  { intros x. split; [|by exists b, t]. intros (b' & t' & ? & ? & ?). by simplify_eq. }
  apply IH; [|lia]. split; [done|..].
  - intros x Hx. apply H3. destruct (H4 x Hx); [left; apply I2; by right|by right].
  - intros x [?|Hx]%H3; [auto|]. apply rtc_r with id; [done|]. by apply Hedge.
  - apply H3. by left.
  - intros x Hx Hn. destruct (decide (x = id)) as [->|Hne].
    + split; [unfold code; by rewrite Hb|]. intros y Hy. apply H3. right. by apply Hedge.
    + specialize (H6 x Hx Hn). destruct (I5 x H6) as [Hc He]; [set_solver|]. split; [done|].
      intros y Hy. apply H3. left. by apply He.
Qed.
End Proofs.

Lemma union_suspend e1 e2 : may_suspend (Effect.union e1 e2) = may_suspend e1 || may_suspend e2.
Proof. done. Qed.

(** The declared effects cover those of every instruction. *)
Lemma verified_may_suspend other f j k i : succeeds (verify_body other f) tt → code f j !! k = Some i →
  is_await i = true → may_suspend (function_effects f) = true.
Proof.
  intros Hv Hk Hi. apply succeeds_bind in Hv as (? & _ & Hv). destruct (_ <=? _); [by apply succeeds_fail in Hv|].
  apply succeeds_bind in Hv as (? & _ & (ids & _ & (? & _ & (? & _ & Hv)%succeeds_bind)%succeeds_bind)%succeeds_bind).
  apply succeeds_bind in Hv as (s & Hs & Heff). case_bool_decide as Hunion; [|by apply succeeds_fail in Heff].
  unfold code in Hk. destruct (blocks f !! j) as [b|] eqn:Hb; [|done]. simpl in Hk.
  assert (∀ b, b ∈ blocks f → (∃ i, i ∈ instructions b ∧ is_await i = true) → may_suspend (fst s) = true) as Hall.
  { apply (succeeds_fold_inv _ (λ p s, ∀ b, b ∈ p → (∃ i, i ∈ instructions b ∧ is_await i = true) → may_suspend (fst s) = true)
      _ _ _ Hs); [by intros ? ?%elem_of_nil|].
    intros p blk s0 s1 _ Hp (? & _ & Hx)%succeeds_bind. cbv zeta in Hx.
    destruct (_ <? _)%Z; [by destruct Hx as (? & ? & ?)|]. destruct (negb _); [by apply succeeds_fail in Hx|].
    destruct (terminator blk) as [t|]; [|by apply succeeds_fail in Hx].
    apply succeeds_bind in Hx as (e & He & (? & _ & <-%succeeds_ret)%succeeds_bind).
    assert ((may_suspend (fst s0) = true → may_suspend e = true)
      ∧ ∀ i, i ∈ instructions blk → is_await i = true → may_suspend e = true) as [Hmono Hin].
    { apply (succeeds_fold_inv _ (λ q e, (may_suspend (fst s0) = true → may_suspend e = true)
        ∧ ∀ i, i ∈ q → is_await i = true → may_suspend e = true) _ _ _ He); [split; [done|]; by intros ? ?%elem_of_nil|].
      intros q y e0 e1 _ [Hq1 Hq2] (? & _ & (? & _ & (? & _ & (? & _ & <-%succeeds_ret)%succeeds_bind)%succeeds_bind)%succeeds_bind)%succeeds_bind.
      rewrite union_suspend. split; [by intros ->%Hq1|]. intros i' Hi'. apply elem_of_app in Hi' as [Hi'|Hi'].
      - intros Ha. by rewrite (Hq2 i' Hi' Ha).
      - apply list_elem_of_singleton in Hi' as ->. destruct y; try done. intros _. apply orb_true_r. }
    intros b' Hb' Hex. cbn [fst]. rewrite union_suspend. apply elem_of_app in Hb' as [Hb'|Hb'].
    - by rewrite (Hmono (Hp b' Hb' Hex)).
    - apply list_elem_of_singleton in Hb' as ->. destruct Hex as (i' & ? & ?). by rewrite (Hin i'). }
  rewrite <- Hunion, union_suspend, (Hall b); [apply orb_true_r|by eapply list_elem_of_lookup_2|].
  exists i. split; [by eapply list_elem_of_lookup_2|done].
Qed.

Lemma prun_suspend_verify other f init bs :
  succeeds (verify_body other f) tt → succeeds (flow_verify f) init → succeeds (build f init) bs →
  prun_or (suspend_error f) (suspend_verify f bs) (λ _, ∀ j k slot, ¬ capability_across f j k slot).
Proof.
  intros Hv Hf Hb. pose proof (verify_cfg_ok _ _ Hv) as Hok. pose proof (verify_scopes_ok _ _ Hv) as Hsc.
  pose proof (succeeds_prun _ _ _ _ (prun_flow_verify f Hok) Hf) as Hinit.
  pose proof (succeeds_prun _ _ _ _ (prun_build f (λ _, False) _ Hok Hsc Hinit) Hb) as Hbs.
  unfold suspend_verify. destruct (may_suspend (function_effects f)) eqn:Hm; cbn [negb].
  2: { apply prun_ret. intros j k slot (_ & (i & Hk & Hi) & _).
       rewrite (verified_may_suspend _ _ _ _ _ Hv Hk Hi) in Hm. done. }
  pose proof (ok_entry _ Hok) as He. apply prun_bind. eapply prun_expect; [by apply lookup_replicate_2|].
  assert (∀ x, visited (<[entry f := true]> (replicate (length (blocks f)) false)) x ↔ x = entry f) as Hvis.
  { intros x. unfold visited. destruct (decide (x = entry f)) as [->|Hne].
    - rewrite list_lookup_insert_eq by (by rewrite length_replicate). naive_solver.
    - rewrite list_lookup_insert_ne by done. split; [|done]. by intros [? _]%lookup_replicate. }
  apply prun_suspend_walk; [done..| |].
  - split; [by rewrite length_insert, length_replicate|..].
    + intros x ->%list_elem_of_singleton. by apply Hvis.
    + intros x ->%Hvis. apply rtc_refl.
    + by apply Hvis.
    + intros x ->%Hvis Hn. exfalso. apply Hn. left.
  - assert (replicate (length (blocks f)) false !! entry f = Some false) as Hx by (by apply lookup_replicate_2).
    pose proof (unvisited_insert _ _ Hx) as Hu. simpl. rewrite <- Hu.
    unfold unvisited. etrans; [apply length_filter|]. by rewrite length_replicate.
Qed.

(** C10: Suspension is safe. On a function verified so far, the walk never panics
    and always ends; it rejects the function only when a reachable await is crossed
    by a capability some path still needs, and accepts only when no await of any
    path is, whatever effects the function declares. *)
Theorem suspension_exact other f init bs :
  succeeds (verify_body other f) tt → succeeds (flow_verify f) init → succeeds (build f init) bs →
  prun_or (suspend_error f) (suspend_verify f bs) (λ _, ∀ j k slot, ¬ capability_across f j k slot).
Proof. apply prun_suspend_verify. Qed.
End Suspend.

(** A function that awaits its first parameter and returns; the second parameter
    stays visible across the await. *)
Section Sample.
#[local] Existing Instance no_contracts.
Definition awaiting (second : ValueType) : MirFunction :=
  let fut := {| temp := 0; value_ty := VtHeapObject |} in
  {| registers := ∅; local_types := ∅;
     params := [{| param_name := "future"; param_ty := VtHeapObject; param_local := 0 |};
                {| param_name := "other"; param_ty := second; param_local := 1 |}];
     return_type := VtBool;
     locals := [{| local_name := "future"; local_ty := VtHeapObject |};
                {| local_name := "other"; local_ty := second |}];
     temps := [{| temp_ty := VtHeapObject |}; {| temp_ty := VtBool |}];
     blocks := [plain_block [LoadLocal fut 0; Await (bool_temp 1) fut (TyBuiltin BtBool)]
                  (Return (Some (bool_temp 1)))];
     entry := 0; function_effects := Effect.union Effect.local_read (with_suspend Effect.native_call);
     debug_source := None; source_span := {| start := 0; end_ := 0 |};
     debug_locals := [{| dl_local := 0; dl_name := "future"; dl_span := {| start := 0; end_ := 0 |};
                         dl_ty := VtHeapObject; dl_is_parameter := true |};
                      {| dl_local := 1; dl_name := "other"; dl_span := {| start := 0; end_ := 0 |};
                         dl_ty := second; dl_is_parameter := true |}];
     captured_bindings := [];
     lexical_scopes := [{| scope_parent := None; scope_local := None |}] |}.
Definition awaiting_init : Initialization :=
  Eval vm_compute in match flow_verify (awaiting VtBool) default_work with Ok (init, _) => init | Err _ => no_facts end.
Definition awaiting_facts : list BlockAnalysis :=
  Eval vm_compute in match build (awaiting VtBool) awaiting_init default_work with Ok (bs, _) => bs | Err _ => [] end.

Example awaiting_accepted : ∃ w, suspend_verify (awaiting VtBool) awaiting_facts default_work = Ok (tt, w).
Proof. eexists. vm_compute. reflexivity. Qed.
Example awaiting_host_rejected :
  match (do init := flow_verify (awaiting VtHostHandle) in do bs := build (awaiting VtHostHandle) init in
         suspend_verify (awaiting VtHostHandle) bs) default_work with
  | Err (PfError kind) => kind = host_across_await
  | _ => False
  end.
Proof. vm_compute. reflexivity. Qed.

Lemma suspension_exact_witness :
  prun_or (suspend_error (awaiting VtBool)) (suspend_verify (awaiting VtBool) awaiting_facts)
    (λ _, ∀ j k slot, ¬ capability_across (awaiting VtBool) j k slot).
Proof.
  apply (suspension_exact (λ _, pret tt) (awaiting VtBool) awaiting_init awaiting_facts);
    (exists default_work; eexists; vm_compute; reflexivity).
Defined.
End Sample.
