(* ===== verification/MirSafe.v ===== *)
(** * Verified functions do not get stuck

    The checks of [MirVerify] and [MirFlow] against the semantics of
    [MirSemantics]: in a verified function every operand is initialized and has the
    representation its annotation declares, so a run only finishes, faults with a
    runtime error or goes on.  The host is held to the interface [HostLaws]. *)
From stdpp Require Import gmap.
From S2P Require Import Prelude Integer Scalar Payload RuntimeNumeric Contracts NumericProps Token.
From S2P Require Import Mir Pass MirSemantics MirVerify SlotBits Worklist MirFlow MirLive MirLiveProps.
Open Scope nat_scope.

Notation typed v ty := (has_representation v ty = true).

Lemma decode_typed ty bits v : decode ty bits = Some v → typed v ty.
Proof.
  destruct ty; simpl; try done; try (intros [= <-]; done).
  - destruct (_ <=? _)%Z; [intros [= <-]; done|done].
  - destruct (decode_char bits); [intros [= <-]; done|done].
Qed.

Section ScalarTypes.
Context `{FloatOps}.

Lemma unary_typed op lt ty v x : unary_result op lt = Ok ty → typed v lt → unary op v = Ok x → typed x ty.
Proof.
  destruct op; simpl.
  - destruct (_ && _) eqn:E; [|done]. intros [= ->] Hv. destruct v; try done; destruct ty; try done.
    + by destruct (i32_neg _) as [?|?]; intros [= <-].
    + by destruct (i64_neg _) as [?|?]; intros [= <-].
    + by intros [= <-].
    + by intros [= <-].
  - case_bool_decide; [subst|done]. intros [= <-] Hv. destruct v; try done. by intros [= <-].
Qed.

Lemma fixed_integer_typed o l r x : fixed_integer o l r = Ok x → typed x (builtin_representation (num_input o)).
Proof.
  unfold fixed_integer. destruct (operation_contract o); [|done]. simpl.
  destruct (read_integer (num_input o) l); [|done]. simpl.
  destruct (match num_rhs o with Some _ => _ | None => _ end); [|done]. simpl.
  destruct (select_integer _ _ _); [|done]. simpl. destruct (evaluate _ _ _); [|done]. simpl.
  destruct (decode _ _) eqn:E; [|done]. intros [= <-]. by eapply decode_typed.
Qed.
Lemma numeric_convert_typed c v x : numeric_convert c v = Ok x → typed x (builtin_representation (conv_target c)).
Proof.
  unfold numeric_convert. destruct (conversion_contract c); [|done]. simpl. destruct (negb _); [done|].
  destruct (select_conversion _ _); [|done]. simpl. destruct (encode v); [|done]. simpl.
  destruct (evaluate _ _ _); [|done]. simpl. destruct (decode _ _) eqn:E; [|done]. intros [= <-].
  by eapply decode_typed.
Qed.

Lemma compare_bool op l r x : compare op l r = Ok x → typed x VtBool.
Proof.
  unfold compare, compare_with. destruct l, r; try done; try (case_bool_decide; [|done]; by intros [= <-]);
    destruct (comparison_of op); try done; by intros [= <-].
Qed.
Lemma kernel_typed k wrap op l r x ty : (∀ z, typed (wrap z) ty) → integer_kernel k wrap op l r = Ok x → typed x ty.
Proof.
  intros Hw. unfold integer_kernel. destruct (integer_binary_op op) as [o|]; [|done]. simpl.
  destruct (k o l r); [|done]. simpl. intros [= <-]. apply Hw.
Qed.
Lemma binary_arithmetic_typed op lt l r x : (∀ o, op ≠ BNumeric o) → typed l lt → scalar_type lt ≠ None →
  binary op l r = Ok x → typed x lt.
Proof.
  intros Hn Hl Hs Hb. unfold binary in Hb.
  assert (match l, r with
      | VI32 l, VI32 r => integer_kernel i32_binary VI32 op l r
      | VI64 l, VI64 r => integer_kernel i64_binary VI64 op l r
      | VU64 l, VU64 r => integer_kernel u64_binary VU64 op l r
      | VF32 l, VF32 r => res_map (λ bits, VF32 (Std.cast 32 false bits)) (float_bits F32 op l r)
      | VF64 l, VF64 r => res_map VF64 (float_bits F64 op l r)
      | _, _ => Err (script_trap "arithmetic requires matching numeric operands")
      end = Ok x) as Hx by (destruct op; first [exact Hb|by destruct (Hn operation)]).
  clear Hb Hn. destruct l, r; try discriminate Hx; destruct lt; try done;
    try (eapply kernel_typed; [|exact Hx]; done); destruct (float_bits _ _ _ _); try done; injection Hx as <-; done.
Qed.

Lemma binary_typed cop op lt rt ty l r x : binary_result cop lt rt = Ok ty → lower_binary_op cop = Some op →
  scalar_type lt ≠ None → typed l lt → scalar_binary op l r = Ok x → typed x ty.
Proof.
  intros Hc Hlow Hs Hl Hx. destruct cop; try discriminate Hlow; injection Hlow as <-; cbn [scalar_binary] in Hx.
  1: { simpl in Hc. destruct (operation_contract operation) as [s|] eqn:Ho; [|done].
       rewrite (contract_signature _ _ Ho) in Hc. simpl in Hc. destruct (num_rhs operation); [|done]. simpl in Hc.
       destruct (expect_type lt _ _); [|done]. simpl in Hc. destruct (expect_type rt _ _); [|done].
       injection Hc as <-. by eapply fixed_integer_typed. }
  all: simpl in Hc; destruct (expect_type rt lt _); [|done]; simpl in Hc.
  all: try (destruct (numeric lt); [|done]; injection Hc as <-; eapply binary_arithmetic_typed; [|exact Hl|exact Hs|exact Hx]; done).
  all: match type of Hc with (if ?b then _ else _) = _ => destruct b eqn:Hb; [|done] end; injection Hc as <-.
  all: try by eapply compare_bool.
  all: apply bool_decide_eq_true in Hb; by subst.
Qed.
End ScalarTypes.

Section Safe.
Context `{CallContracts} `{FloatOps} {W : Type} `{!Host W}.
Context (other : Instruction → P unit) (f : MirFunction).
Notation verified := (instruction_verified other f).
Implicit Types (s : MirState W).

Definition typed_operands (i : Instruction) (vs : list Value) : Prop :=
  Forall2 (λ v x, typed x (value_ty v)) (inputs i) vs.
Definition typed_locals (ls : gmap nat Value) : Prop :=
  ∀ l v, ls !! l = Some v → ∃ x, locals f !! l = Some x ∧ typed v (local_ty x).

(** What the passes and the verifier rely on: a host that answers, answers in the
    declared representation and forgets no local, and an instruction without
    effects has none. *)
Class HostLaws : Prop := {
  host_result i vs ls (w : W) r ls' w' : verified i → typed_operands i vs → typed_locals ls →
    perform i vs ls w = Ok (r, ls', w') →
    typed_locals ls' ∧ dom ls ⊆ dom ls'
    ∧ ∀ dst, output i = Some dst → ∃ v, r = Some v ∧ typed v (value_ty dst);
  host_pure i vs ls (w : W) : verified i → typed_operands i vs → typed_locals ls →
    effects i = Effect.default → ∃ v, perform i vs ls w = Ok (Some v, ls, w);
  host_string c : typed (string_constant c) VtStr
}.
Context `{!HostLaws}.

Definition typed_state s : Prop :=
  (∀ t v, temp_values s !! t = Some v → ∃ x, temps f !! t = Some x ∧ typed v (temp_ty x))
  ∧ typed_locals (local_values s).
Definition present s (slot : nat) : Prop :=
  if slot <? length (temps f) then is_Some (temp_values s !! slot)
  else is_Some (local_values s !! (slot - length (temps f))).

Lemma present_temp s t : t < length (temps f) → present s t ↔ is_Some (temp_values s !! t).
Proof. intros Ht. unfold present. by rewrite (proj2 (Nat.ltb_lt _ _) Ht). Qed.
Lemma present_local s l : present s (local_slot f l) ↔ is_Some (local_values s !! l).
Proof.
  unfold present, local_slot. destruct (Nat.ltb_spec (length (temps f) + l) (length (temps f))); [lia|].
  by replace (_ + l - _) with l by lia.
Qed.
Lemma fits_lt v : value_fits f v → temp v < length (temps f).
Proof. intros (t & Ht & _). by eapply lookup_lt_Some. Qed.

Lemma typed_read s v x : typed_state s → value_fits f v → read_temp s v = Some x → typed x (value_ty v).
Proof. intros [Ht _] (t & Hl & ->) Hx. destruct (Ht _ _ Hx) as (t' & ? & ?). by simplify_eq. Qed.

(** Initialized operands are read, with their declared representations. *)
Lemma operands_read s i : verified i → typed_state s → (∀ slot, slot ∈ instr_reads f i → present s slot) →
  ∃ vs, operands s i = Some vs ∧ typed_operands i vs.
Proof.
  intros Hv Ht Hp. unfold operands, typed_operands.
  assert (∀ v, v ∈ inputs i → value_fits f v ∧ present s (temp v)) as Hall.
  { intros v Hin. split; [by apply Hv|]. apply Hp, elem_of_app. left. apply list_elem_of_fmap. eauto. }
  clear Hv Hp. induction (inputs i) as [|v l IH]; [by exists []; split; [|constructor]|].
  destruct (Hall v ltac:(left)) as [Hf Hpr]. apply present_temp in Hpr as [x Hx]; [|by apply fits_lt].
  destruct IH as (vs & Hvs & HF); [intros; apply Hall; by right|]. exists (x :: vs). simpl.
  assert (read_temp s v = Some x) as Hrd by done. rewrite Hrd. simpl. rewrite Hvs. simpl. split; [done|].
  constructor; [by eapply typed_read|done].
Qed.

Lemma scalar_step_typed i vs v : verified i → typed_operands i vs → scalar_step i vs = Some (Ok v) →
  ∃ dst, output i = Some dst ∧ typed v (value_ty dst).
Proof.
  intros [_ _ Hop] Hvs Hs. unfold typed_operands in Hvs.
  destruct i; cbn [scalar_step] in Hs; try discriminate Hs; cbn [inputs option_list app] in Hvs;
    apply Forall2_cons_inv_l in Hvs as (a & vs' & Ha & Hvs & ->) || idtac; cbn [verify_operation] in Hop; exists dst; (split; [done|]).
  - apply Forall2_nil_inv_l in Hvs as ->. destruct (conversion_contract conversion) as [[src' out]|] eqn:Hc; [|by apply succeeds_fail in Hop].
    apply succeeds_bind in Hop as (? & _ & ->%succeeds_expect_type). injection Hs as Hs.
    apply numeric_convert_typed in Hs. unfold conversion_contract in Hc. destruct (can_cast_to _ _); [|done]. by injection Hc as <- <-.
  - destruct (operation_contract operation) as [sg|] eqn:Hc; [|by apply succeeds_fail in Hop].
    rewrite (contract_signature _ _ Hc) in Hop. cbn [sig_left sig_output] in Hop.
    apply succeeds_bind in Hop as (? & _ & ([] & ->%succeeds_expect_type & _)%succeeds_bind).
    destruct vs' as [|b [|]]; try discriminate Hs; injection Hs as Hs; by eapply fixed_integer_typed.
  - apply Forall2_nil_inv_l in Hvs as ->. apply succeeds_expect_type in Hop as ->. injection Hs as <-.
    destruct constant; try done. apply host_string.
  - apply Forall2_nil_inv_l in Hvs as ->. apply succeeds_expect_type in Hop as ->. by injection Hs as <-.
  - apply Forall2_nil_inv_l in Hvs as ->. apply succeeds_bind in Hop as (ty & Hu%succeeds_contract & ->%succeeds_expect_type).
    injection Hs as Hs. by eapply unary_typed.
  - apply Forall2_cons_inv_l in Hvs as (b & vs'' & Hb & Hvs & ->). apply Forall2_nil_inv_l in Hvs as ->.
    apply succeeds_bind in Hop as (ty & Hu%succeeds_contract & ([] & ->%succeeds_expect_type & _)%succeeds_bind).
    destruct (scalar_type (value_ty lhs)) eqn:Hsc; [|done]. destruct (lower_binary_op op) eqn:Hlow; [|done].
    injection Hs as Hs. eapply binary_typed; [exact Hu|exact Hlow|by rewrite Hsc|exact Ha|exact Hs].
Qed.

Lemma typed_set_temp s dst v : typed_state s → value_fits f dst → typed v (value_ty dst) → typed_state (set_temp dst v s).
Proof.
  intros [Ht Hl] (t & Hd & Hty) Hv. split; [|done]. intros x y. simpl.
  rewrite lookup_insert_Some. intros [[<- <-]|[_ Hx]]; [|eauto]. exists t. by rewrite <- Hty.
Qed.
Lemma present_set_temp s dst v slot : value_fits f dst →
  present (set_temp dst v s) slot ↔ slot = temp dst ∨ present s slot.
Proof.
  intros Hd%fits_lt. unfold present. simpl. destruct (Nat.ltb_spec slot (length (temps f))) as [Hs|Hs].
  - destruct (decide (slot = temp dst)) as [->|Hne]; [rewrite lookup_insert_eq; naive_solver|].
    rewrite lookup_insert_ne by done. naive_solver.
  - split; [by right|]. intros [->|]; [lia|done].
Qed.

(** An instruction that publishes does so in its output's slot and type. *)
Lemma publish_safe i r s : verified i → typed_state s →
  (∀ dst, output i = Some dst → ∃ v, r = Some v ∧ typed v (value_ty dst)) →
  ∃ s', publish_result i r s = Finished s' ∧ typed_state s' ∧ local_values s' = local_values s ∧ world s' = world s
    ∧ ∀ slot, present s' slot ↔ slot ∈ temp <$> option_list (output i) ∨ present s slot.
Proof.
  intros Hv Ht Hr. unfold publish_result. destruct (output i) as [dst|] eqn:Ho.
  - destruct (Hr dst eq_refl) as (v & -> & Hty). pose proof (iv_output _ _ _ Hv dst Ho) as Hfit.
    eexists. split_and!; [done|by apply typed_set_temp|done|done|]. intros slot. rewrite present_set_temp by done.
    cbn. by rewrite list_elem_of_singleton.
  - exists s. split_and!; [done..|]. intros slot. cbn. rewrite elem_of_nil. naive_solver.
Qed.

(** Progress and preservation for one instruction. *)
Lemma exec_safe i s : verified i → typed_state s → (∀ slot, slot ∈ instr_reads f i → present s slot) →
  match exec i s with
  | Finished s' => typed_state s' ∧ ∀ slot, slot ∈ instr_writes f i ∨ present s slot → present s' slot
  | Faulted _ _ => True
  | Stuck => False
  end.
Proof.
  intros Hv Ht Hp. destruct (operands_read s i Hv Ht Hp) as (vs & Hvs & Hty). unfold exec. rewrite Hvs. cbn [obind from_option_stuck].
  assert (match i with LoadLocal _ _ | StoreLocal _ _ => False | _ => True end →
    match (match scalar_step i vs with
           | Some (Ok v) => publish_result i (Some v) s
           | Some (Err e) => Faulted e (world s)
           | None => match perform i vs (local_values s) (world s) with
                     | Ok (r, ls, w) => publish_result i r {| temp_values := temp_values s; local_values := ls; world := w |}
                     | Err (e, w) => Faulted e w
                     end
           end) with
    | Finished s' => typed_state s' ∧ ∀ slot, slot ∈ instr_writes f i ∨ present s slot → present s' slot
    | Faulted _ _ => True
    | Stuck => False
    end) as Hgen.
  { intros Hkind. assert (instr_writes f i = temp <$> option_list (output i)) as Hw.
    { unfold instr_writes. destruct i; try done; apply app_nil_r. }
    rewrite Hw. destruct (scalar_step i vs) as [[v|e]|] eqn:Hs; [| done|].
    - destruct (publish_safe i (Some v) s Hv Ht) as (s' & -> & Ht' & _ & _ & Hpr).
      { intros dst Hd. destruct (scalar_step_typed _ _ _ Hv Hty Hs) as (dst' & ? & ?). simplify_eq. eauto. }
      split; [done|]. intros slot Hs'. by apply Hpr.
    - destruct (perform i vs _ _) as [[[r ls] w]|[e w]] eqn:Hperf; [|done].
      destruct (host_result _ _ _ _ _ _ _ Hv Hty (proj2 Ht) Hperf) as (Hls & Hdom & Hr).
      set (s1 := {| temp_values := temp_values s; local_values := ls; world := w |}).
      destruct (publish_safe i r s1 Hv) as (s' & -> & Ht' & _ & _ & Hpr); [by split; [apply Ht|]|done|].
      split; [done|]. intros slot [?|Hslot]; apply Hpr; [by left|right]. unfold present in *. simpl.
      destruct (slot <? _); [done|]. apply elem_of_dom. apply Hdom. by apply elem_of_dom. }
  destruct i; try exact (Hgen I).
  - assert (present s (local_slot f local)) as [v Hl]%present_local by (apply Hp; cbn; left). rewrite Hl. cbn [obind from_option_stuck].
    pose proof (iv_operation _ _ _ Hv) as Hop. apply succeeds_bind in Hop as (ty & Hloc & Hty'%succeeds_expect_type).
    pose proof (iv_output _ _ _ Hv dst eq_refl) as Hfit. split.
    + apply typed_set_temp; [done..|]. destruct (proj2 Ht _ _ Hl) as (x & Hx & Hvx). unfold verify_local in Hloc.
      rewrite Hx in Hloc. apply succeeds_ret in Hloc. congruence.
    + intros slot. rewrite present_set_temp by done. cbn. by rewrite list_elem_of_singleton.
  - unfold typed_operands in Hty. cbn [inputs] in Hty. apply Forall2_cons_inv_l in Hty as (v & vs' & Hv1 & Hnil & ->).
    apply Forall2_nil_inv_l in Hnil as ->. pose proof (iv_operation _ _ _ Hv) as Hop.
    apply succeeds_bind in Hop as (ty & Hloc & Hty'%succeeds_expect_type). split.
    + split; [apply Ht|]. intros l x. simpl. rewrite lookup_insert_Some. intros [[<- <-]|[_ Hx]]; [|by apply Ht].
      unfold verify_local in Hloc. destruct (locals f !! local) as [lo|]; [|by apply succeeds_fail in Hloc].
      apply succeeds_ret in Hloc. exists lo. split; [done|]. congruence.
    + intros slot. cbn. rewrite list_elem_of_singleton. intros [->|Hs].
      * apply present_local. simpl. by rewrite lookup_insert_eq.
      * unfold present in *. simpl. destruct (slot <? _); [done|].
        destruct (decide (slot - length (temps f) = local)) as [->|Hne]; [by rewrite lookup_insert_eq|by rewrite lookup_insert_ne].
Qed.

(** ** Blocks and runs *)
Definition good_state (j k : nat) s : Prop :=
  typed_state s ∧ ∀ slot, slot < slots f → defined_at f j k slot → present s slot.

Section Run.
Context (Hok : cfg_ok f) (Hverified : ∀ b, b ∈ blocks f → block_verified other f b)
        (Hsafe : ∀ slot, ¬ lacking_read f slot).

Lemma code_verified j i : i ∈ code f j → verified i.
Proof.
  unfold code. destruct (blocks f !! j) as [b|] eqn:Hb; [|by intros ?%elem_of_nil].
  apply bv_instructions. apply Hverified. by eapply list_elem_of_lookup_2.
Qed.
Lemma reads_defined j k i slot : code f j !! k = Some i → slot ∈ instr_reads f i → j < length (blocks f) → defined_at f j k slot.
Proof. intros Hi Hs Hj. apply needed_defined; [done..|]. by eapply needed_read. Qed.

Lemma step_good j k i s : j < length (blocks f) → code f j !! k = Some i → good_state j k s →
  match exec i s with
  | Finished s' => good_state j (S k) s' | Faulted _ _ => True | Stuck => False
  end.
Proof.
  intros Hj Hi [Ht Hd]. pose proof (list_elem_of_lookup_2 _ _ _ Hi) as Hin.
  assert (∀ slot, slot ∈ instr_reads f i → present s slot) as Hp.
  { intros slot Hs. apply Hd; [|by eapply reads_defined]. eapply (code_slots f Hok j); [done|]. apply elem_of_app. by left. }
  pose proof (exec_safe i s (code_verified j i Hin) Ht Hp) as He. destruct (exec i s) as [s'| |]; [|done..].
  destruct He as [Ht' Hpr]. split; [done|]. intros slot Hs Hdef. apply Hpr.
  destruct (decide (slot ∈ instr_writes f i)) as [|Hw]; [by left|]. right. apply Hd; [done|].
  intros [Hl Hnw]. apply Hdef. split; [done|]. rewrite (take_S_r _ _ _ Hi), block_writes_app, elem_of_app.
  cbn. rewrite app_nil_r. tauto.
Qed.
Lemma exec_all_good j k s : j < length (blocks f) → k ≤ length (code f j) → good_state j k s →
  match exec_all (drop k (code f j)) s with
  | Finished s' => good_state j (length (code f j)) s' | Faulted _ _ => True | Stuck => False
  end.
Proof.
  intros Hj Hk. remember (length (code f j) - k) as d eqn:Hd. revert k s Hk Hd.
  induction d as [|d IH]; intros k s Hk Hd Hg.
  - rewrite drop_ge by lia. simpl. by replace (length (code f j)) with k by lia.
  - destruct (lookup_lt_is_Some_2 (code f j) k) as [i Hi]; [lia|]. rewrite (drop_S _ _ _ Hi). cbn [exec_all].
    pose proof (step_good j k i s Hj Hi Hg) as Hstep. destruct (exec i s) as [s'| |]; [|done..]. simpl.
    apply IH; [lia|lia|done].
Qed.

(** What leaving a block means. *)
Definition good_exit (e : Exit) : Prop :=
  match e with
  | Goto b s => cfg_reachable f b ∧ good_state b 0 s
  | Returned (Some v) s => typed v (return_type f) ∧ typed_state s
  | Returned None s => return_type f = VtUnit ∧ typed_state s
  | ReachedUnreachable s => typed_state s
  end.

Lemma edge_good j t s : edge f j t → good_state j (length (code f j)) s → good_state t 0 s.
Proof.
  intros He [Ht Hd]. split; [done|]. intros slot Hs Hdef. apply Hd; [done|]. intros [Hl Hw]. apply Hdef.
  rewrite take_0. split; [|apply not_elem_of_nil]. pose proof He as (b & term & Hb & _).
  rewrite take_ge in Hw by lia. unfold code in Hw. rewrite Hb in Hw. by eapply lack_edge.
Qed.

Lemma terminator_good j b t s : cfg_reachable f j → blocks f !! j = Some b → terminator b = Some t →
  good_state j (length (code f j)) s →
  match exec_terminator t s with Finished e => good_exit e | Faulted _ _ => True | Stuck => False end.
Proof.
  intros Hj Hb Ht Hg. pose proof Hg as [Hty Hd].
  destruct (bv_terminator _ _ _ (Hverified b (list_elem_of_lookup_2 _ _ _ Hb))) as (t' & ? & [_ Hin Htype]). simplify_eq.
  assert (∀ x, x ∈ successors t → good_exit (Goto x s)) as Hgoto.
  { intros x Hx. assert (edge f j x) as He by (by exists b, t). split; [by apply rtc_r with j|by eapply edge_good]. }
  assert (∀ v, terminator_input t = Some v → ∃ x, read_temp s v = Some x ∧ typed x (value_ty v)) as Hread.
  { intros v Hv. pose proof (Hin v Hv) as Hfit. assert (temp v < length (temps f)) as Hlt by (by apply fits_lt).
    assert (present s (temp v)) as Hp.
    { apply Hd; [unfold slots; lia|]. apply needed_defined; [done..|by apply reachable_lt|]. eapply needed_branch; [done..|].
      unfold term_reads. rewrite Hv. left. }
    apply present_temp in Hp as [x Hx]; [|done]. exists x. split; [done|]. by eapply typed_read. }
  destruct t as [[v|]|x|c x y|]; cbn [exec_terminator].
  - destruct (Hread v eq_refl) as (z & -> & Hz). simpl. by rewrite <- Htype.
  - done.
  - apply Hgoto. left.
  - destruct (Hread c eq_refl) as (z & -> & Hz). rewrite Htype in Hz. destruct z; try done.
    apply Hgoto. destruct b0; simpl; set_solver.
  - done.
Qed.

Lemma run_block_good j b s : cfg_reachable f j → blocks f !! j = Some b → good_state j 0 s →
  match run_block b s with Finished e => good_exit e | Faulted _ _ => True | Stuck => False end.
Proof.
  intros Hj Hb Hg. unfold run_block. assert (code f j = instructions b) as Hcode by (unfold code; by rewrite Hb).
  pose proof (exec_all_good j 0 s (reachable_lt f Hok j Hj) ltac:(lia) Hg) as Hall.
  rewrite drop_0, Hcode in Hall. destruct (exec_all (instructions b) s) as [s'| |]; [|done..]. simpl.
  destruct (ok_terminator _ Hok _ _ Hb) as (t & Ht & _). rewrite Ht. simpl.
  eapply terminator_good; [done..|]. by rewrite Hcode.
Qed.

Lemma run_good n j s : cfg_reachable f j → good_state j 0 s →
  match run f n j s with Finished e => good_exit e | Faulted _ _ => True | Stuck => False end.
Proof.
  revert j s. induction n as [|n IH]; intros j s Hj Hg; simpl; [done|].
  destruct (lookup_lt_is_Some_2 _ _ (reachable_lt f Hok j Hj)) as [b Hb]. rewrite Hb. simpl.
  pose proof (run_block_good j b s Hj Hb Hg) as Hr. destruct (run_block b s) as [e| |]; [|done..]. simpl.
  destruct e as [b' s'| |]; [|done..]. destruct Hr. by apply IH.
Qed.

Lemma entry_good s : typed_state s → (∀ p, p ∈ params f → is_Some (local_values s !! param_local p)) →
  good_state (entry f) 0 s.
Proof.
  intros Ht Hp. split; [done|]. intros slot Hs Hdef. destruct (decide (slot ∈ param_slots f)) as [Hin|Hn].
  - apply list_elem_of_fmap in Hin as (p & -> & Hin). apply present_local. by apply Hp.
  - exfalso. apply Hdef. rewrite take_0. split; [by apply lack_entry|apply not_elem_of_nil].
Qed.
End Run.

End Safe.

(** ** Instructions without effects *)
Lemma pure_instruction `{CallContracts} i : effects i = Effect.default →
  match i with LoadConst _ _ | Move _ _ | Unary _ _ _ | Binary _ _ _ _ => True | _ => False end.
Proof.
  destruct i; try done.
  - destruct callee; simpl; try done; by destruct primitive || by destruct helper.
  - simpl. by destruct (field_reference field).
  - simpl. by destruct (field_reference field).
Qed.

(** A host that answers every request with some value of the declared type. *)
Definition nil_object : HeapObjectId := {| owner := 0; slot := 0; generation := 0 |}.
Definition default_value (ty : ValueType) : option Value :=
  match ty with
  | VtUnit | VtGeneric => Some VUnit | VtBool => Some (VBool false) | VtChar => Some (VChar 0)
  | VtI32 => Some (VI32 0) | VtI64 => Some (VI64 0) | VtU64 => Some (VU64 0)
  | VtF32 => Some (VF32 0) | VtF64 => Some (VF64 0) | VtStr => Some (VStr nil_object)
  | VtHeapObject => Some (VTuple nil_object) | VtHostHandle => Some (VHostRoot nil_object)
  | VtNever => None
  end.
Lemma default_typed ty v : default_value ty = Some v → typed v ty.
Proof. destruct ty; simpl; intros [= <-]; done. Qed.
Lemma default_inhabited ty v : typed v ty → is_Some (default_value ty).
Proof. destruct ty; simpl; try done. by destruct v. Qed.

Definition typed_host `{CallContracts} : Host unit :=
  {| perform := λ i _ ls w,
       match output i with
       | None => Ok (None, ls, w)
       | Some dst => match default_value (value_ty dst) with
                     | Some v => Ok (Some v, ls, w)
                     | None => Err (script_trap "never returns", w)
                     end
       end;
     string_constant := λ _, VStr nil_object |}.

Lemma typed_host_laws `{CallContracts} other f : @HostLaws _ unit typed_host other f.
Proof.
  split.
  - intros i vs ls w r ls' w' Hv _ Hls Hp. simpl in Hp. destruct (output i) as [dst|] eqn:Ho.
    + destruct (default_value (value_ty dst)) as [v|] eqn:Hd; [|done]. injection Hp as <- <- <-. split_and!; [done|done|].
      intros ? [= <-]. exists v. split; [done|]. by apply default_typed.
    + injection Hp as <- <- <-. by split_and!.
  - intros i vs ls w [_ _ Hop] Hvs Hls He. assert (∃ dst v, output i = Some dst ∧ default_value (value_ty dst) = Some v) as (dst & v & Ho & Hd).
    { apply pure_instruction in He. unfold typed_operands in Hvs. destruct i; try done; exists dst; cbn [output inputs verify_operation] in *.
      - apply succeeds_expect_type in Hop as ->. destruct constant; by eexists.
      - apply succeeds_expect_type in Hop as ->. apply Forall2_cons_inv_l in Hvs as (x & _ & Hx & _).
        apply default_inhabited in Hx as [v Hx]. eauto.
      - apply succeeds_bind in Hop as (ty & Hu%succeeds_contract & ->%succeeds_expect_type).
        apply Forall2_cons_inv_l in Hvs as (x & _ & Hx & _). apply default_inhabited in Hx as [v Hx].
        unfold unary_result in Hu. destruct op.
        + destruct (_ && _); [|done]. injection Hu as <-. eauto.
        + case_bool_decide; [|done]. injection Hu as <-. by eexists.
      - apply succeeds_bind in Hop as (ty & Hu%succeeds_contract & ([] & ->%succeeds_expect_type & _)%succeeds_bind).
        apply Forall2_cons_inv_l in Hvs as (x & vs' & Hx & _). apply default_inhabited in Hx as [v Hx].
        destruct op; simpl in Hu.
        1: { destruct (operation_contract operation) as [sg|] eqn:Hc; [|done].
             rewrite (contract_signature _ _ Hc) in Hu. simpl in Hu. destruct (num_rhs operation); [|done]. simpl in Hu.
             destruct (expect_type (value_ty lhs) _ _) as [[]|] eqn:He1; [|done]. apply expect_type_ok in He1.
             simpl in Hu. destruct (expect_type _ _ _); [|done]. injection Hu as <-. rewrite <- He1. eauto. }
        all: destruct (expect_type _ _ _); [|done]; simpl in Hu.
        all: try discriminate Hu.
        all: match type of Hu with (if ?b then _ else _) = _ => destruct b; [|done] end; injection Hu as <-; eauto; by eexists. }
    exists v. simpl. by rewrite Ho, Hd.
  - done.
Qed.

Section Sample.
#[local] Existing Instance no_contracts.
#[local] Existing Instance bitwise_floats.
#[local] Existing Instance typed_host.
Definition diamond_state : MirState unit :=
  {| temp_values := ∅; local_values := {[0 := VBool true]}; world := tt |}.

Example diamond_returns :
  match run diamond 5 0 diamond_state with
  | Finished (Returned (Some v) _) => v = VBool true
  | _ => False
  end.
Proof. vm_compute. reflexivity. Qed.

End Sample.
