(* ===== verification/MirDead.v ===== *)
(** * Dead operations

    Models [kagari-mir/src/passes/dead.rs] (the backward sweep that finds pure
    operations whose result no path needs) and [passes/compaction.rs] (their
    removal from the three parallel columns of a block), and proves that removing
    them changes nothing a run can observe. *)
From stdpp Require Import gmap sorting.
From S2P Require Import Prelude Integer Scalar Payload RuntimeNumeric Contracts NumericProps Token.
From S2P Require Import Mir Pass MirSemantics MirVerify SlotBits Worklist MirFlow MirLive MirLiveProps MirSafe.
Open Scope nat_scope.

Section Dead.
Context `{CallContracts}.

(** A removal: function, block and instruction index. *)
Notation Removal := (nat * nat * nat)%type.

(** ** dead.rs *)
(** [live[value.temp.index()] = true]. *)
Definition set_live (live : list bool) (t : nat) : P (list bool) :=
  do _ := pexpect (live !! t) in pret (<[t := true]> live).

Definition dead_instruction (key : nat * nat) (s : list bool * list Removal) (x : nat * Instruction)
    : P (list bool * list Removal) :=
  let '(live, removals) := s in
  let '(index, i) := x in
  charge 1 ;;>
  match output i with
  | Some dst =>
      do l := pexpect (live !! temp dst) in
      if negb l && bool_decide (effects i = Effect.default) then pret (live, removals ++ [(key, index)])
      else
        charge (length (inputs i)) ;;>
        do live := fold_each (λ live v, set_live live (temp v)) (<[temp dst := false]> live) (inputs i) in
        pret (live, removals)
  | None =>
      charge (length (inputs i)) ;;>
      do live := fold_each (λ live v, set_live live (temp v)) live (inputs i) in
      pret (live, removals)
  end.

(** [for temp in facts.terminator().live().temps()]. *)
Definition seed_live (s : SlotSet) (live : list bool) : P (list bool) :=
  fold_each (λ live t, do c := pexpect (contains_temp s t) in
                       if c : bool then set_live live t else pret live) live (seq 0 (slot_temps s)).

(** One block; the state is the block index and the removals so far. *)
Definition dead_block (f : MirFunction) (bs : list BlockAnalysis) (function : nat)
    (s : nat * list Removal) (b : BasicBlock) : P (nat * list Removal) :=
  do facts := pexpect (bs !! fst s) in
  if negb (block_reachable facts) then pret (S (fst s), snd s)
  else
    charge (length (temps f)) ;;>
    do p := pexpect (terminator_point facts) in
    do live := seed_live (MirLive.live p) (replicate (length (temps f)) false) in
    do r := fold_each (dead_instruction (function, fst s)) (live, snd s)
              (reverse (zip (seq 0 (length (instructions b))) (instructions b))) in
    pret (S (fst s), snd r).

(** [find]; the analysis of a function is the one at its index. *)
Definition dead_function (analyses : list (list BlockAnalysis)) (s : nat * list Removal)
    (f : MirFunction) : P (nat * list Removal) :=
  do bs := pexpect (analyses !! fst s) in
  do r := fold_each (dead_block f bs (fst s)) (0, snd s) (blocks f) in
  pret (S (fst s), snd r).
Definition find (functions : list MirFunction) (analyses : list (list BlockAnalysis)) : P (list Removal) :=
  do r := fold_each (dead_function analyses) (0, []) functions in pret (snd r).

(** ** compaction.rs *)
Definition swap {A} (a b : nat) (l : list A) : option (list A) :=
  x ← l !! a; y ← l !! b; Some (<[b := x]> (<[a := y]> l)).
Definition with_columns (b : BasicBlock) (ops : list Instruction) (spans : list Span) (scopes : list nat)
    : BasicBlock :=
  {| instructions := ops; instruction_spans := spans; instruction_scopes := scopes;
     terminator := terminator b; terminator_span := terminator_span b;
     terminator_scope := terminator_scope b |}.

(** One position of the first loop: the retained count, the removals left, the block. *)
Definition compact_step (s : nat * list nat * BasicBlock) (read : nat) : P (nat * list nat * BasicBlock) :=
  let '(retained, removals, b) := s in
  charge 1 ;;>
  if bool_decide (head removals = Some read) then pret (retained, tail removals, b)
  else if retained =? read then pret (S retained, removals, b)
  else
    charge 6 ;;>
    do ops := pexpect (swap retained read (instructions b)) in
    do spans := pexpect (swap retained read (instruction_spans b)) in
    do scopes := pexpect (swap retained read (instruction_scopes b)) in
    pret (S retained, removals, with_columns b ops spans scopes).

(** The second loop drops the tail in batches of 256. *)
Fixpoint truncate_tail (fuel retained : nat) (b : BasicBlock) : P BasicBlock :=
  if length (instructions b) <=? retained then pret b
  else
    match fuel with
    | O => λ _, Err PfOutOfFuel
    | S fuel =>
        let stop := Nat.max (length (instructions b) - 256) retained in
        charge (3 * (length (instructions b) - stop)) ;;>
        truncate_tail fuel retained
          (with_columns b (take stop (instructions b)) (take stop (instruction_spans b))
             (take stop (instruction_scopes b)))
    end.

Definition compact_block (b : BasicBlock) (removals : list nat) : P BasicBlock :=
  do s := fold_each compact_step (0, removals, b) (seq 0 (length (instructions b))) in
  let '(retained, _, b) := s in
  truncate_tail (length (instructions b)) retained b.

(** The length of the group of [key] at the front. *)
Fixpoint group_length (key : nat * nat) (removals : list Removal) : P nat :=
  match removals with
  | [] => pret 0
  | r :: removals =>
      if decide (fst r = key) then charge 1 ;;> do k := group_length key removals in pret (S k)
      else pret 0
  end.

Fixpoint apply_removals (fuel : nat) (functions : list MirFunction) (removals : list Removal)
    : P (list MirFunction) :=
  match removals with
  | [] => pret functions
  | (function, block, _) :: _ =>
      match fuel with
      | O => λ _, Err PfOutOfFuel
      | S fuel =>
          do stop := group_length (function, block) removals in
          do f := pexpect (functions !! function) in
          do b := pexpect (blocks f !! block) in
          do b' := compact_block b (reverse (snd <$> take stop removals)) in
          apply_removals fuel (<[function := with_blocks f (<[block := b']> (blocks f))]> functions)
            (drop stop removals)
      end
  end.

(** The dead-code stage of [optimize]: find, count, compact. *)
Definition remove_dead (functions : list MirFunction) (analyses : list (list BlockAnalysis))
    : P (nat * list MirFunction) :=
  do removals := find functions analyses in
  do functions := apply_removals (length removals) functions removals in
  pret (length removals, functions).

(** ** Compaction keeps the other positions *)
Fixpoint keep {A} (k : nat) (rs : list nat) (l : list A) : list A :=
  match l with
  | [] => []
  | x :: l => if decide (k ∈ rs) then keep (S k) rs l else x :: keep (S k) rs l
  end.
Definition keep_columns (rs : list nat) (b : BasicBlock) : BasicBlock :=
  with_columns b (keep 0 rs (instructions b)) (keep 0 rs (instruction_spans b)) (keep 0 rs (instruction_scopes b)).

Lemma keep_app {A} k rs (l1 l2 : list A) : keep k rs (l1 ++ l2) = keep k rs l1 ++ keep (k + length l1) rs l2.
Proof.
  revert k. induction l1 as [|x l1 IH]; intros k; simpl; [by rewrite Nat.add_0_r|].
  rewrite IH. replace (S k + length l1) with (k + S (length l1)) by lia. by case_decide.
Qed.
Lemma keep_length {A B} k rs (l : list A) (l' : list B) : length l = length l' →
  length (keep k rs l) = length (keep k rs l').
Proof.
  revert k l'. induction l as [|x l IH]; intros k [|y l'] Hl; simplify_eq/=; [done|].
  case_decide; simpl; auto.
Qed.
Lemma keep_le {A} k rs (l : list A) : length (keep k rs l) ≤ length l.
Proof. revert k. induction l; intros k; simpl; [done|]. case_decide; simpl; [etrans; eauto|specialize (IHl (S k)); lia]. Qed.

(** [read] positions of a column are done: the kept ones lead, the rest is as it was. *)
Definition column_at {A} (rs : list nat) (read retained : nat) (l l' : list A) : Prop :=
  length l' = length l ∧ take retained l' = keep 0 rs (take read l) ∧ drop read l' = drop read l.

Lemma column_skip {A} rs read retained (l l' : list A) : read < length l → read ∈ rs →
  column_at rs read retained l l' → column_at rs (S read) retained l l'.
Proof.
  intros [x Hx]%lookup_lt_is_Some_2 Hin (Hlen & Ht & Hd). split_and!; [done| |].
  - rewrite (take_S_r _ _ _ Hx), keep_app, Ht. rewrite length_take_le by (apply lookup_lt_Some in Hx; lia).
    simpl. by rewrite decide_True, app_nil_r.
  - replace (S read) with (read + 1) by lia. by rewrite <- !drop_drop, Hd.
Qed.
Lemma column_keep {A} rs read retained (l l' : list A) x : read ∉ rs → l !! read = Some x → l' !! retained = Some x →
  column_at rs read retained l l' → column_at rs (S read) (S retained) l l'.
Proof.
  intros Hin Hx Hx' (Hlen & Ht & Hd). split_and!; [done| |].
  - rewrite (take_S_r _ _ _ Hx), (take_S_r _ _ _ Hx'), keep_app, Ht.
    rewrite length_take_le by (apply lookup_lt_Some in Hx; lia). simpl. by rewrite decide_False.
  - replace (S read) with (read + 1) by lia. by rewrite <- !drop_drop, Hd.
Qed.
Lemma column_swap {A} rs read retained (l l' : list A) : retained < read → read < length l → read ∉ rs →
  column_at rs read retained l l' → ∃ l'', swap retained read l' = Some l'' ∧ column_at rs (S read) (S retained) l l''.
Proof.
  intros Hlt Hr Hin (Hlen & Ht & Hd). destruct (lookup_lt_is_Some_2 l read Hr) as [y Hy].
  destruct (lookup_lt_is_Some_2 l' retained) as [x Hx]; [lia|].
  assert (l' !! read = Some y) as Hy'.
  { replace read with (read + 0) by lia. rewrite <- lookup_drop, Hd, lookup_drop. by rewrite Nat.add_0_r. }
  unfold swap. rewrite Hx, Hy'. simpl. eexists. split; [done|]. split_and!; [by rewrite !length_insert| |].
  - rewrite (take_S_r _ _ y), (take_S_r l _ _ Hy), keep_app, length_take_le by
      (first [lia|rewrite list_lookup_insert_ne by lia; apply list_lookup_insert_eq; lia]).
    simpl. rewrite decide_False by done. by rewrite !take_insert_ge, Ht by lia.
  - rewrite !drop_insert_lt by lia. replace (S read) with (read + 1) by lia. by rewrite <- !drop_drop, Hd.
Qed.

(** Removals still to come when position [read] is reached. *)
Lemma ascending_head rs read : StronglySorted lt rs →
  (head (filter (λ x, read ≤ x) rs) = Some read ↔ read ∈ rs)
  ∧ filter (λ x, S read ≤ x) rs
    = if decide (read ∈ rs) then tail (filter (λ x, read ≤ x) rs) else filter (λ x, read ≤ x) rs.
Proof.
  induction 1 as [|x rs Hs [IH1 IH2] Hx]; [by split; [split; [done|by intros ?%elem_of_nil]|]|].
  rewrite Forall_forall in Hx. rewrite !list.filter_cons.
  assert (∀ y, y ∈ rs → x < y) as Hlt by (intros y Hy; by apply Hx, list_elem_of_In).
  destruct (decide (read ≤ x)) as [Hle|Hgt].
  - assert (∀ l : list nat, (∀ y, y ∈ l → read < y) → filter (λ x, read ≤ x) l = l ∧ filter (λ x, S read ≤ x) l = l) as Hall.
    { induction l as [|y l IHl]; intros Hl; [done|]. rewrite !list.filter_cons, !decide_True by (specialize (Hl y ltac:(left)); lia).
      destruct IHl as [-> ->]; [intros; apply Hl; by right|done]. }
    destruct (Hall rs) as [E1 E2]; [intros y Hy; specialize (Hlt y Hy); lia|]. split.
    + simpl. rewrite elem_of_cons. split; [intros [= ->]; by left|]. intros [->|Hin]; [done|]. specialize (Hlt _ Hin). lia.
    + rewrite E1, E2. destruct (decide (S read ≤ x)) as [Hlt'|Hge].
      * rewrite decide_False; [done|]. rewrite elem_of_cons. intros [->|Hin]; [lia|]. specialize (Hlt _ Hin). lia.
      * assert (x = read) as -> by lia. rewrite decide_True by left. done.
  - rewrite (decide_False (P := S read ≤ x)) by lia. split.
    + rewrite IH1, elem_of_cons. split; [by right|]. intros [->|]; [lia|done].
    + rewrite IH2. apply decide_ext || (destruct (decide (read ∈ rs)), (decide (read ∈ x :: rs)); try done; exfalso; set_solver by lia).
      rewrite elem_of_cons. split; [by right|]. intros [->|]; [lia|done].
Qed.

Lemma seq_prefix m p x q : seq 0 m = p ++ x :: q → x = length p ∧ x < m.
Proof.
  intros Hs. assert (seq 0 m !! length p = Some x) as Hx by (by rewrite Hs, list_lookup_middle).
  apply lookup_seq in Hx as [-> ?]. done.
Qed.

Definition same_columns (b : BasicBlock) : Prop :=
  length (instruction_spans b) = length (instructions b) ∧ length (instruction_scopes b) = length (instructions b).

Section Compact.
Context (E : MirErrorKind → Prop) (b : BasicBlock) (rs : list nat).
Hypothesis (Hrs : StronglySorted lt rs) (Hcols : same_columns b).

Definition compact_at (read : nat) (s : nat * list nat * BasicBlock) : Prop :=
  let '(retained, rem, b') := s in
  rem = filter (λ x, read ≤ x) rs ∧ retained = length (keep 0 rs (take read (instructions b)))
  ∧ column_at rs read retained (instructions b) (instructions b')
  ∧ column_at rs read retained (instruction_spans b) (instruction_spans b')
  ∧ column_at rs read retained (instruction_scopes b) (instruction_scopes b')
  ∧ b' = with_columns b (instructions b') (instruction_spans b') (instruction_scopes b').

Lemma prun_compact_step read s : read < length (instructions b) → compact_at read s →
  prun_or E (compact_step s read) (compact_at (S read)).
Proof.
  destruct s as [[retained rem] b']. intros Hread (-> & -> & H1 & H2 & H3 & H4). destruct Hcols as [C1 C2].
  destruct (ascending_head rs read Hrs) as [Hhead Hnext]. unfold compact_step. apply prun_charge_bind.
  destruct (lookup_lt_is_Some_2 _ _ Hread) as [x Hx].
  assert (length (keep 0 rs (take (S read) (instructions b)))
    = length (keep 0 rs (take read (instructions b))) + if decide (read ∈ rs) then 0 else 1) as Hlen.
  { rewrite (take_S_r _ _ _ Hx), keep_app, length_app, length_take_le by lia. simpl. by case_decide. }
  destruct (decide (read ∈ rs)) as [Hin|Hout].
  - rewrite bool_decide_eq_true_2 by (by apply Hhead). apply prun_ret. unfold compact_at. rewrite Hlen, Hnext, Nat.add_0_r.
    split_and!; [done|done|apply column_skip; [lia|done|done]..|done].
  - rewrite bool_decide_eq_false_2 by (by rewrite Hhead). set (retained := length (keep 0 rs (take read (instructions b)))) in *.
    assert (retained ≤ read) as Hle.
    { subst retained. etrans; [apply keep_le|]. rewrite length_take. lia. }
    destruct (Nat.eqb_spec retained read) as [Heq|Hne].
    + apply prun_ret. unfold compact_at. rewrite Hlen, Hnext, Nat.add_1_r.
      assert (∀ A (l l' : list A), length l = length (instructions b) → column_at rs read retained l l' →
        column_at rs (S read) (S retained) l l') as Hcol.
      { intros A l l' Hl Hc. destruct (lookup_lt_is_Some_2 l read) as [y Hy]; [lia|]. eapply column_keep; [done|exact Hy| |done].
        destruct Hc as (_ & _ & Hd). rewrite Heq. replace read with (read + 0) by lia.
        rewrite <- lookup_drop, Hd, lookup_drop. by rewrite Nat.add_0_r. }
      split_and!; [done|done|apply Hcol; done..|done].
    + assert (∀ A (l l' : list A), length l = length (instructions b) → column_at rs read retained l l' →
        ∃ l'', swap retained read l' = Some l'' ∧ column_at rs (S read) (S retained) l l'') as Hsw.
      { intros A l l' Hl Hc. apply column_swap; [lia|lia|done|done]. }
      destruct (Hsw _ _ _ eq_refl H1) as (ops & E1 & K1). destruct (Hsw _ _ _ C1 H2) as (spans & E2 & K2).
      destruct (Hsw _ _ _ C2 H3) as (scopes & E3 & K3). apply prun_charge_bind.
      apply prun_bind. eapply prun_expect; [done|]. apply prun_bind. eapply prun_expect; [done|].
      apply prun_bind. eapply prun_expect; [done|]. apply prun_ret. unfold compact_at. rewrite Hlen, Hnext, Nat.add_1_r.
      split_and!; try done. rewrite H4. done.
Qed.

Lemma prun_truncate_tail fuel retained b' : length (instructions b') - retained ≤ fuel →
  (length (instruction_spans b') = length (instructions b') ∧ length (instruction_scopes b') = length (instructions b')) →
  prun_or E (truncate_tail fuel retained b') (λ b'', b'' = with_columns b' (take retained (instructions b'))
    (take retained (instruction_spans b')) (take retained (instruction_scopes b'))).
Proof.
  revert b'. induction fuel as [|fuel IH]; intros b' Hf [L1 L2]; cbn [truncate_tail];
    destruct (Nat.leb_spec (length (instructions b')) retained) as [Hle|Hgt]; try lia.
  1, 2: apply prun_ret; rewrite !take_ge by lia; by destruct b'.
  apply prun_charge_bind. set (stop := Nat.max (length (instructions b') - 256) retained).
  assert (stop < length (instructions b') ∧ retained ≤ stop) as [Hs1 Hs2] by (subst stop; lia).
  eapply prun_mono; [apply IH|].
  - cbn [instructions with_columns]. rewrite length_take. lia.
  - cbn [instructions instruction_spans instruction_scopes with_columns]. rewrite !length_take. lia.
  - intros b'' ->. cbn [instructions instruction_spans instruction_scopes with_columns]. rewrite !take_take.
    unfold with_columns. simpl. by rewrite Nat.min_l.
Qed.

Lemma prun_compact_block : prun_or E (compact_block b rs) (λ b', b' = keep_columns rs b).
Proof.
  unfold compact_block. apply prun_bind. eapply prun_mono.
  - apply (prun_fold_each E _ (λ p s, compact_at (length p) s)).
    + split_and!; try done. 2: by destruct b. clear. induction rs as [|x l IH]; [done|].
      rewrite list.filter_cons, decide_True by (simpl; lia). by f_equal.
    + intros p x q s [-> Hlt]%seq_prefix Hs. rewrite length_app, Nat.add_1_r. by apply prun_compact_step.
  - intros [[retained rem] b']. rewrite length_seq. intros (_ & _ & (L1 & T1 & _) & (L2 & T2 & _) & (L3 & T3 & _) & Hb').
    destruct Hcols as [C1 C2]. rewrite (take_ge (instructions b)) in T1 by lia.
    rewrite (take_ge (instruction_spans b)) in T2 by lia. rewrite (take_ge (instruction_scopes b)) in T3 by lia.
    eapply prun_mono; [apply prun_truncate_tail; lia|]. intros b'' ->. rewrite T1, T2, T3, Hb'. done.
Qed.
End Compact.

(** ** The sweep as a function *)
Definition dead_op (i : Instruction) (L : nat → bool) : bool :=
  match output i with
  | Some dst => negb (L (temp dst)) && bool_decide (effects i = Effect.default)
  | None => false
  end.
Definition live_before (i : Instruction) (L : nat → bool) (t : nat) : bool :=
  writes_bit (temp <$> inputs i) t || (L t && negb (writes_bit (temp <$> option_list (output i)) t)).
(** Dead indices, last first, and the temporaries live before the list. *)
Fixpoint sweep_dead (l : list (nat * Instruction)) (L : nat → bool) : list nat * (nat → bool) :=
  match l with
  | [] => ([], L)
  | (k, i) :: l =>
      let '(d, L') := sweep_dead l L in
      if dead_op i L' then (d ++ [k], L') else (d, live_before i L')
  end.
Fixpoint prune (l : list (nat * Instruction)) (L : nat → bool) : list Instruction :=
  match l with
  | [] => []
  | (_, i) :: l => if dead_op i (snd (sweep_dead l L)) then prune l L else i :: prune l L
  end.
Definition indexed (l : list Instruction) : list (nat * Instruction) := zip (seq 0 (length l)) l.

Section Sweep.
Context (E : MirErrorKind → Prop) (f : MirFunction).
Notation m := (length (temps f)).

Definition represents (live : list bool) (L : nat → bool) : Prop :=
  length live = m ∧ ∀ t, t < m → live !! t = Some (L t).

Lemma prun_set_live_all live L ts : represents live L → (∀ v : MirValue, v ∈ ts → temp v < m) →
  prun_or E (fold_each (λ live v, set_live live (temp v)) live ts)
    (λ live', represents live' (λ t, writes_bit (temp <$> ts) t || L t)).
Proof.
  intros Hr Hts.
  apply (prun_fold_each E _ (λ p live', represents live' (λ t, writes_bit (temp <$> p) t || L t))); [done|].
  intros p v q live' Hq [Hlen Hl]. assert (temp v < m) as Hv by (apply Hts; rewrite Hq; set_solver).
  apply prun_bind. eapply prun_expect; [by apply Hl|]. apply prun_ret. split; [by rewrite length_insert|].
  intros t Ht. destruct (decide (t = temp v)) as [->|Hne].
  - rewrite list_lookup_insert_eq by lia. unfold writes_bit. rewrite bool_decide_eq_true_2; [done|].
    rewrite fmap_app, elem_of_app. right. left.
  - rewrite list_lookup_insert_ne, Hl by done. f_equal. f_equal. unfold writes_bit. apply bool_decide_ext.
    rewrite fmap_app, elem_of_app. cbn. rewrite list_elem_of_singleton. tauto.
Qed.

Lemma prun_dead_instruction key live L removals k i : represents live L →
  (∀ s, s ∈ (temp <$> inputs i) ++ (temp <$> option_list (output i)) → s < m) →
  prun_or E (dead_instruction key (live, removals) (k, i)) (λ s,
    represents (fst s) (if dead_op i L then L else live_before i L)
    ∧ snd s = removals ++ if dead_op i L then [(key, k)] else []).
Proof.
  intros Hr Hs. pose proof Hr as [Hlen Hl]. apply prun_charge_bind.
  assert (∀ v, v ∈ inputs i → temp v < m) as Hin.
  { intros v Hv. apply Hs, elem_of_app. left. apply list_elem_of_fmap. eauto. }
  unfold dead_op, live_before. destruct (output i) as [dst|].
  - assert (temp dst < m) as Hd by (apply Hs, elem_of_app; right; left). apply prun_bind. eapply prun_expect; [by apply Hl|].
    destruct (negb (L (temp dst)) && _); [by apply prun_ret|]. apply prun_charge_bind, prun_bind.
    eapply prun_mono; [apply (prun_set_live_all _ (λ t, L t && negb (writes_bit [temp dst] t))); [|done]|].
    + split; [by rewrite length_insert|]. intros t Ht. destruct (decide (t = temp dst)) as [->|Hne].
      * rewrite list_lookup_insert_eq by lia. unfold writes_bit. rewrite bool_decide_eq_true_2 by left. by rewrite andb_false_r.
      * rewrite list_lookup_insert_ne, Hl by done. unfold writes_bit.
        rewrite bool_decide_eq_false_2 by (by rewrite list_elem_of_singleton). by rewrite andb_true_r.
    + intros live' Hlive. apply prun_ret. split; [done|]. by rewrite app_nil_r.
  - apply prun_charge_bind, prun_bind. eapply prun_mono; [by apply prun_set_live_all|].
    intros live' [Hlen' Hlive]. apply prun_ret. rewrite app_nil_r. split; [|done]. split; [done|].
    intros t Ht. cbn [fst]. rewrite Hlive by done. cbn. by rewrite andb_true_r.
Qed.

Lemma prun_sweep_dead key live L removals l : represents live L →
  (∀ k i s, (k, i) ∈ l → s ∈ (temp <$> inputs i) ++ (temp <$> option_list (output i)) → s < m) →
  prun_or E (fold_each (dead_instruction key) (live, removals) (reverse l)) (λ s,
    snd s = removals ++ ((λ k, (key, k)) <$> fst (sweep_dead l L))).
Proof.
  intros Hr Hl. eapply prun_mono.
  - apply (prun_fold_each E _ (λ q s, represents (fst s) (snd (sweep_dead (reverse q) L))
      ∧ snd s = removals ++ ((λ k, (key, k)) <$> fst (sweep_dead (reverse q) L)))).
    { split; [done|]. cbn. by rewrite app_nil_r. }
    intros q [k i] q' [live' rem] Hq [H1 H2]. cbn [fst snd] in *. eapply prun_mono.
    + apply (prun_dead_instruction _ _ (snd (sweep_dead (reverse q) L))); [done|]. intros s. apply (Hl k).
      apply elem_of_reverse. rewrite Hq. set_solver.
    + intros s [Hs1 Hs2]. rewrite reverse_snoc. cbn [sweep_dead]. destruct (sweep_dead (reverse q) L) as [d L']. cbn [fst snd] in *.
      rewrite Hs2, H2. destruct (dead_op i L'); cbn [fst snd]; [rewrite fmap_app, app_assoc|rewrite app_nil_r]; done.
  - intros s [_ Hs]. by rewrite reverse_involutive in Hs.
Qed.
End Sweep.

(** Dead indices are indices of the list, and descend. *)
Lemma sweep_dead_sorted l L : StronglySorted lt (l.*1) →
  (∀ k, k ∈ fst (sweep_dead l L) → k ∈ l.*1) ∧ StronglySorted lt (reverse (fst (sweep_dead l L))).
Proof.
  induction l as [|[k i] l IH]; intros Hs; [split; [done|constructor]|]. cbn in Hs.
  apply StronglySorted_inv in Hs as [Hs Hk]. destruct (IH Hs) as [IH1 IH2]. cbn [sweep_dead fmap list_fmap].
  destruct (sweep_dead l L) as [d L']. cbn [fst snd] in *. destruct (dead_op i L'); cbn [fst].
  - split.
    + intros x. rewrite elem_of_app, list_elem_of_singleton. intros [Hx|Hx]; [right; auto|subst; left].
    + rewrite reverse_snoc. constructor; [done|]. apply Forall_forall. intros x Hx%list_elem_of_In. rewrite elem_of_reverse in Hx.
      rewrite Forall_forall in Hk. by apply Hk, list_elem_of_In, IH1.
  - split; [|done]. intros x Hx. right. auto.
Qed.

Lemma keep_prune l k rs L :
  (∀ j, k ≤ j → j ∈ rs ↔ j ∈ fst (sweep_dead (zip (seq k (length l)) l) L)) →
  keep k rs l = prune (zip (seq k (length l)) l) L.
Proof.
  revert k. induction l as [|i l IH]; intros k Hrs; [done|]. cbn [length seq zip zip_with keep prune sweep_dead] in *.
  fold (zip (seq (S k) (length l)) l) in *.
  assert (∀ j, j ∈ fst (sweep_dead (zip (seq (S k) (length l)) l) L) → k < j) as Hlt.
  { intros j Hj. destruct (sweep_dead_sorted (zip (seq (S k) (length l)) l) L) as [Hin _].
    - rewrite fst_zip by (by rewrite length_seq). clear. generalize (S k). induction (length l) as [|n IH]; intros k0; simpl; [constructor|].
      constructor; [apply IH|]. apply Forall_forall. intros x ?%list_elem_of_In%elem_of_seq. lia.
    - apply Hin in Hj. rewrite fst_zip in Hj by (by rewrite length_seq). apply elem_of_seq in Hj. lia. }
  destruct (sweep_dead (zip (seq (S k) (length l)) l) L) as [d L'] eqn:Hsd. cbn [fst snd] in *.
  rewrite (IH (S k)).
  - destruct (dead_op i L'); cbn [fst] in Hrs.
    + rewrite decide_True; [done|]. apply Hrs; [done|]. rewrite elem_of_app. right. left.
    + rewrite decide_False; [done|]. rewrite Hrs by done. intros Hj%Hlt. lia.
  - intros j Hj. rewrite Hsd. cbn [fst]. rewrite Hrs by lia. destruct (dead_op i L'); cbn [fst]; [|done].
    rewrite elem_of_app, list_elem_of_singleton. split; [intros [|]; [done|lia]|by left].
Qed.

(** ** What is found *)
Definition exit_live (bs : list BlockAnalysis) (j t : nat) : bool :=
  default false (b ← bs !! j; p ← terminator_point b; contains_temp (MirLive.live p) t).
Definition dead_of (f : MirFunction) (bs : list BlockAnalysis) (j : nat) : list nat :=
  match bs !! j with
  | Some b => if block_reachable b then fst (sweep_dead (indexed (code f j)) (exit_live bs j)) else []
  | None => []
  end.

(** What the pass is given: a verified function with its own facts. *)
Record sealed (f : MirFunction) (bs : list BlockAnalysis) : Prop := {
  se_cfg : cfg_ok f;
  se_facts : analyzed f bs;
  se_operands : ∀ j i s, i ∈ code f j → s ∈ (temp <$> inputs i) ++ (temp <$> option_list (output i)) →
    s < length (temps f);
  se_columns : ∀ b, b ∈ blocks f → same_columns b
}.

Section Find.
Context (E : MirErrorKind → Prop).

Lemma prun_seed_live f s : shaped f s →
  prun_or E (seed_live s (replicate (length (temps f)) false))
    (λ live, represents f live (λ t, default false (contains_temp s t))).
Proof.
  intros (Ht & Hl & Hw & _). unfold seed_live. rewrite Ht. pose proof (slots_words f) as Hsw. unfold slots in Hsw.
  assert (∀ t, t < length (temps f) → ∃ c, contains_temp s t = Some c) as Hc.
  { intros t Hlt. unfold contains_temp. rewrite Ht, (proj2 (Nat.ltb_lt _ _) Hlt), row_contains_spec by lia. eauto. }
  eapply prun_mono.
  - apply (prun_fold_each E _ (λ p live, length live = length (temps f) ∧ ∀ t, t < length (temps f) →
      live !! t = Some (if decide (t < length p) then default false (contains_temp s t) else false))).
    { split; [by rewrite length_replicate|]. intros t Hlt. rewrite decide_False by (simpl; lia). by apply lookup_replicate_2. }
    intros p x q live [-> Hlt]%seq_prefix [Hlen Hlive]. destruct (Hc _ Hlt) as [c Hcx].
    apply prun_bind. eapply prun_expect; [done|]. rewrite length_app. simpl.
    assert (∀ live', length live' = length (temps f) → live' !! length p = Some c →
      (∀ t, t ≠ length p → live' !! t = live !! t) → length live' = length (temps f) ∧ ∀ t, t < length (temps f) →
      live' !! t = Some (if decide (t < length p + 1) then default false (contains_temp s t) else false)) as Hnext.
    { intros live' Hlen' Hp Hother. split; [done|]. intros t Htm. destruct (decide (t = length p)) as [->|Hne].
      - rewrite Hp, decide_True by lia. by rewrite Hcx.
      - rewrite Hother, Hlive by done. do 2 case_decide; try done; lia. }
    destruct c.
    + apply prun_bind. eapply prun_expect; [by apply Hlive|]. apply prun_ret. apply Hnext.
      * by rewrite length_insert.
      * apply list_lookup_insert_eq. lia.
      * intros. by apply list_lookup_insert_ne.
    + apply prun_ret. apply Hnext; [done| |done]. rewrite Hlive by done. rewrite decide_False by lia. done.
  - intros live. rewrite length_seq. intros [Hlen Hlive]. split; [done|]. intros t Hlt. rewrite Hlive by done. by rewrite decide_True.
Qed.

Lemma indexed_elem l k i : (k, i) ∈ indexed l → i ∈ l.
Proof. intros (x & _ & Hi)%elem_of_zip_inv || (intros Hin; unfold indexed in Hin; by apply elem_of_zip_r in Hin). Qed.

Lemma prun_dead_block f bs function removals j b : sealed f bs → blocks f !! j = Some b →
  prun_or E (dead_block f bs function (j, removals) b) (λ s,
    s = (S j, removals ++ ((λ k, ((function, j), k)) <$> dead_of f bs j))).
Proof.
  intros [Hok Hfacts Hops Hcols] Hb. pose proof (lookup_lt_Some _ _ _ Hb) as Hlt.
  destruct (lookup_lt_is_Some_2 bs j) as [facts Hf]; [by rewrite (an_length _ _ Hfacts)|].
  assert (code f j = instructions b) as Hcode by (unfold code; by rewrite Hb).
  destruct (an_blocks _ _ Hfacts _ _ Hf) as [Hreach Hlen].
  unfold dead_block, dead_of. cbn [fst snd]. rewrite Hf. apply prun_bind. eapply prun_expect; [done|].
  destruct (block_reachable facts) eqn:Hr; cbn [negb]; [|apply prun_ret; by rewrite app_nil_r].
  apply prun_charge_bind.
  assert (is_Some (terminator_point facts)) as [p Hp].
  { unfold terminator_point. rewrite last_lookup, Hlen. apply lookup_lt_is_Some_2. lia. }
  assert (point_exact f j (length (code f j)) p) as Hpe.
  { eapply (an_points _ _ Hfacts); [done|by apply Hreach|]. unfold terminator_point in Hp.
    by rewrite last_lookup, Hlen in Hp. }
  apply prun_bind. eapply prun_expect; [done|]. apply prun_bind.
  eapply prun_mono; [apply (prun_seed_live f), Hpe|]. intros live Hlive. apply prun_bind.
  replace (zip (seq 0 (length (instructions b))) (instructions b)) with (indexed (code f j)) by (by rewrite Hcode).
  eapply prun_mono; [apply (prun_sweep_dead E f _ _ (exit_live bs j))|].
  - destruct Hlive as [H1 H2]. split; [exact H1|]. intros t Ht. rewrite (H2 t Ht). unfold exit_live. rewrite Hf. simpl.
    by rewrite Hp.
  - intros k i s Hin. apply (Hops j). by eapply indexed_elem.
  - intros [live' rem] Hrem. cbn [fst snd] in Hrem. apply prun_ret. cbn [fst snd]. by rewrite Hrem.
Qed.

(** The keys of all blocks in the order of the two loops. *)
Definition block_keys (function : nat) (f : MirFunction) : list (nat * nat) :=
  (λ j, (function, j)) <$> seq 0 (length (blocks f)).
Definition keys_of (functions : list MirFunction) : list (nat * nat) :=
  concat (imap block_keys functions).
Definition removed (functions : list MirFunction) (analyses : list (list BlockAnalysis)) (key : nat * nat)
    : list nat :=
  match functions !! fst key, analyses !! fst key with
  | Some f, Some bs => dead_of f bs (snd key)
  | _, _ => []
  end.
Definition removals_at (rs : nat * nat → list nat) (key : nat * nat) : list Removal := (λ k, (key, k)) <$> rs key.

Lemma prun_find functions analyses : Forall2 sealed functions analyses →
  prun_or E (find functions analyses)
    (λ R, R = keys_of functions ≫= removals_at (removed functions analyses)).
Proof.
  intros HF. apply prun_bind. eapply prun_mono.
  - apply (prun_fold_each E _ (λ p s, fst s = length p
      ∧ snd s = keys_of p ≫= removals_at (removed functions analyses))); [done|].
    intros p f q [k rem] Hp [Hk Hrem]. cbn [fst snd] in *. subst k.
    assert (functions !! length p = Some f) as Hf by (by rewrite Hp, list_lookup_middle).
    destruct (Forall2_lookup_l _ _ _ _ _ HF Hf) as (bs & Hbs & Hsealed).
    apply prun_bind. eapply prun_expect; [done|]. apply prun_bind. eapply prun_mono.
    + apply (prun_fold_each E _ (λ q s, fst s = length q ∧ snd s = rem
        ++ ((λ j, (length p, j)) <$> seq 0 (length q)) ≫= removals_at (removed functions analyses))).
      { split; [done|]. cbn. by rewrite app_nil_r. }
      intros pb b qb [j rem'] Hb [Hj Hrem']. cbn [fst snd] in *. subst j.
      assert (blocks f !! length pb = Some b) as Hblk by (by rewrite Hb, list_lookup_middle).
      eapply prun_mono; [by apply prun_dead_block|]. intros s ->. cbn [fst snd]. rewrite length_app. simpl.
      split; [lia|]. rewrite Hrem', seq_app, fmap_app, bind_app, app_assoc. f_equal. cbn. rewrite app_nil_r.
      unfold removals_at, removed. cbn [fst snd]. by rewrite Hf, Hbs.
    + intros [j rem'] [_ Hrem']. apply prun_ret. cbn [fst snd] in *. rewrite length_app. simpl. split; [lia|].
      rewrite Hrem', Hrem. unfold keys_of. rewrite imap_app, concat_app, bind_app. f_equal. cbn. rewrite app_nil_r.
      unfold block_keys. by rewrite Nat.add_0_r.
  - intros [k rem] [_ Hrem]. by apply prun_ret.
Qed.
End Find.

(** ** What is applied *)
Section Apply.
Context (E : MirErrorKind → Prop) (functions : list MirFunction) (rs : nat * nat → list nat).
Hypothesis Hsorted : ∀ key, StronglySorted lt (reverse (rs key)).
Hypothesis Hcolumns : ∀ f b, f ∈ functions → b ∈ blocks f → same_columns b.

Lemma prun_group_length key ds rest : (∀ r, r ∈ rest → fst r ≠ key) →
  prun_or E (group_length key (((λ k, (key, k)) <$> ds) ++ rest)) (λ k, k = length ds).
Proof.
  intros Hrest. induction ds as [|d ds IH]; simpl.
  - destruct rest as [|r rest]; [by apply prun_ret|]. simpl. rewrite decide_False by (apply Hrest; left). by apply prun_ret.
  - rewrite decide_True by done. apply prun_charge_bind, prun_bind. eapply prun_mono; [done|]. intros k ->. by apply prun_ret.
Qed.

(** The functions after the blocks of [finished] have been compacted. *)
Definition applied (finished : list (nat * nat)) (fs : list MirFunction) : Prop :=
  length fs = length functions ∧ ∀ k f, functions !! k = Some f → ∃ f', fs !! k = Some f'
    ∧ f' = with_blocks f (blocks f') ∧ length (blocks f') = length (blocks f)
    ∧ ∀ j b, blocks f !! j = Some b →
        blocks f' !! j = Some (if decide ((k, j) ∈ finished) then keep_columns (reverse (rs (k, j))) b else b).

Lemma keep_nil {A} k (l : list A) : keep k [] l = l.
Proof. revert k. induction l as [|x l IH]; intros k; simpl; [done|]. by rewrite IH. Qed.
Lemma keep_columns_nil b : keep_columns [] b = b.
Proof. unfold keep_columns. rewrite !keep_nil. by destruct b. Qed.

Lemma applied_skip finished key fs : rs key = [] → applied finished fs → applied (finished ++ [key]) fs.
Proof.
  intros Hrs [Hlen Hall]. split; [done|]. intros k f Hf. destruct (Hall k f Hf) as (f' & H1 & H2 & H3 & H4).
  exists f'. split_and!; [done..|]. intros j b Hb. rewrite (H4 j b Hb). f_equal.
  destruct (decide ((k, j) ∈ finished)) as [Hin|Hn]; [by rewrite decide_True by set_solver|].
  case_decide as Hc; [|done]. assert ((k, j) = key) as -> by set_solver. rewrite Hrs. symmetry. apply keep_columns_nil.
Qed.

Lemma prun_apply keys finished fuel fs : NoDup (finished ++ keys) →
  (∀ k j, (k, j) ∈ keys → ∃ f, functions !! k = Some f ∧ j < length (blocks f)) →
  applied finished fs → length (keys ≫= removals_at rs) ≤ fuel →
  prun_or E (apply_removals fuel fs (keys ≫= removals_at rs)) (applied (finished ++ keys)).
Proof.
  revert finished fuel fs. induction keys as [|key keys IH]; intros finished fuel fs Hnd Hvalid Happ Hfuel.
  { rewrite app_nil_r. by destruct fuel; apply prun_ret. }
  rewrite (cons_middle key), app_assoc in Hnd. rewrite (cons_middle key), app_assoc.
  destruct (rs key) as [|d ds] eqn:Hrs.
  { assert ((key :: keys) ≫= removals_at rs = keys ≫= removals_at rs) as Hskip by (cbn; unfold removals_at at 1; by rewrite Hrs).
    rewrite Hskip in *. apply IH; [done|set_solver|by apply applied_skip|done]. }
  destruct key as [k j]. destruct (Hvalid k j ltac:(left)) as (f & Hf & Hj).
  pose proof Happ as [Hlen Hall]. destruct (Hall k f Hf) as (f' & Hf' & Hwith & Hblen & Hbl).
  destruct (lookup_lt_is_Some_2 _ _ Hj) as [b Hb]. pose proof (Hbl j b Hb) as Hb'.
  assert (∀ x, x ∈ keys → x ≠ (k, j)) as Hother.
  { intros x Hx ->. apply list.NoDup_app in Hnd as (_ & Hd & _). apply (Hd (k, j)); [set_solver|done]. }
  rewrite decide_False in Hb'.
  2: { intros Hin. rewrite <- app_assoc in Hnd. apply list.NoDup_app in Hnd as (_ & Hd & _). apply (Hd (k, j) Hin). left. }
  assert (∀ r, r ∈ keys ≫= removals_at rs → fst r ≠ (k, j)) as Hrest.
  { intros r (x & Hr & Hx)%list_elem_of_bind. apply list_elem_of_fmap in Hr as (d0 & -> & _). by apply Hother. }
  assert (((k, j) :: keys) ≫= removals_at rs = removals_at rs (k, j) ++ (keys ≫= removals_at rs)) as Hsplit by done.
  rewrite Hsplit in *. rewrite length_app in Hfuel. unfold removals_at at 1 in Hfuel. rewrite length_fmap, Hrs in Hfuel.
  destruct fuel as [|fuel]; [simpl in Hfuel; lia|].
  assert (removals_at rs (k, j) = (k, j, d) :: ((λ x, ((k, j), x)) <$> ds)) as Hhead by (unfold removals_at; by rewrite Hrs).
  rewrite Hhead. cbn [app apply_removals]. apply prun_bind.
  rewrite (app_comm_cons _ _ (k, j, d)), <- Hhead. eapply prun_mono; [by apply prun_group_length|]. intros stop ->.
  apply prun_bind. eapply prun_expect; [done|]. apply prun_bind. eapply prun_expect; [done|]. apply prun_bind.
  rewrite <- (length_fmap (λ x, ((k, j), x)) (rs (k, j))). fold (removals_at rs (k, j)).
  rewrite take_app_length, drop_app_length.
  assert (snd <$> removals_at rs (k, j) = rs (k, j)) as ->.
  { unfold removals_at. rewrite <- list_fmap_compose. apply list_fmap_id. }
  eapply prun_mono; [apply prun_compact_block; [apply Hsorted|]|].
  { eapply Hcolumns; [by eapply list_elem_of_lookup_2|by eapply list_elem_of_lookup_2]. }
  intros b' ->. apply IH; [done|set_solver| |simpl in Hfuel; lia].
  split; [by rewrite length_insert|]. intros k1 f1 Hf1. destruct (decide (k1 = k)) as [->|Hk].
  - simplify_eq. exists (with_blocks f' (<[j := keep_columns (reverse (rs (k, j))) b]> (blocks f'))).
    split_and!; [apply list_lookup_insert_eq; by eapply lookup_lt_Some|rewrite Hwith; done|cbn; by rewrite length_insert|].
    intros j1 b1 Hb1. cbn [blocks with_blocks]. destruct (decide (j1 = j)) as [->|Hj1].
    + simplify_eq. rewrite list_lookup_insert_eq by (by eapply lookup_lt_Some). by rewrite decide_True by set_solver.
    + rewrite list_lookup_insert_ne, (Hbl _ _ Hb1) by done. f_equal. apply decide_ext. set_solver.
  - destruct (Hall k1 f1 Hf1) as (f1' & H1 & H2 & H3 & H4). exists f1'.
    split_and!; [by rewrite list_lookup_insert_ne|done..|]. intros j1 b1 Hb1. rewrite (H4 _ _ Hb1). f_equal. apply decide_ext. set_solver.
Qed.
End Apply.
End Dead.

(** ** Pure operations finish *)
Section Pure.
Context `{FloatOps}.

Lemma compare_scalar cop op lt ty l r : binary_result cop lt lt = Ok ty → lower_binary_op cop = Some op →
  scalar_type lt ≠ None → typed l lt → typed r lt → comparison_of op ≠ None → ∃ x, compare op l r = Ok x.
Proof.
  intros Hc Hlow Hs Hl Hr Hcmp. destruct (comparison_of op) as [c|] eqn:Hop; [clear Hcmp|done].
  destruct lt; try done; destruct l; try done; destruct r; try done; unfold compare, compare_with; rewrite ?Hop; eauto;
    (destruct cop; try discriminate Hc; injection Hlow as <-; try discriminate Hop; cbn; eauto).
Qed.
Lemma float_arithmetic op lt l r : op ∈ [BAdd; BSub; BMul; BDiv; BRem] → lt = VtF32 ∨ lt = VtF64 →
  typed l lt → typed r lt → ∃ x, scalar_binary op l r = Ok x.
Proof.
  intros Hop Hlt Hl Hr. rewrite !elem_of_cons, elem_of_nil in Hop.
  destruct Hlt as [-> | ->]; destruct l; try done; destruct r; try done;
    destruct Hop as [->|[->|[->|[->|[->|[]]]]]]; cbn; eauto.
Qed.
End Pure.

Section Equivalent.
Context `{CallContracts} `{FloatOps} {W : Type} `{!Host W}.
Context (other : Instruction → P unit) (f : MirFunction) `{!HostLaws other f}.
Notation verified := (instruction_verified other f).
Implicit Types (s : MirState W).

Lemma effects_flags reads traps : read_or_trap reads traps = Effect.default → reads = false ∧ traps = false.
Proof. by intros [= -> ->]. Qed.

Lemma pure_scalar i vs e : verified i → typed_operands i vs → effects i = Effect.default → scalar_step i vs ≠ Some (Err e).
Proof.
  intros [_ _ Hop] Hvs He. pose proof (pure_instruction i He) as Hkind. unfold typed_operands in Hvs.
  destruct i; try done; cbn [inputs] in Hvs; cbn [effects] in He; cbn [verify_operation] in Hop.
  - by apply Forall2_nil_inv_l in Hvs as ->.
  - apply Forall2_cons_inv_l in Hvs as (a & vs' & Ha & Hvs & ->). by apply Forall2_nil_inv_l in Hvs as ->.
  - apply Forall2_cons_inv_l in Hvs as (a & vs' & Ha & Hvs & ->). apply Forall2_nil_inv_l in Hvs as ->.
    apply succeeds_bind in Hop as (ty & Hu%succeeds_contract & _). apply effects_flags in He as [_ Htrap].
    cbn. unfold unary_traps in Htrap. destruct op; simpl in Hu.
    + destruct (value_ty operand); try done; destruct a; done.
    + case_bool_decide as Hb; [|done]. rewrite Hb in Ha. by destruct a.
  - apply Forall2_cons_inv_l in Hvs as (a & vs' & Ha & Hvs & ->). apply Forall2_cons_inv_l in Hvs as (b & vs'' & Hb & Hvs & ->).
    apply Forall2_nil_inv_l in Hvs as ->. apply succeeds_bind in Hop as (ty & Hu%succeeds_contract & _).
    apply effects_flags in He as [Hheap Htrap]. cbn [scalar_step]. destruct (scalar_type (value_ty lhs)) eqn:Hsc; [|done].
    destruct (lower_binary_op op) as [bop|] eqn:Hlow; [|done]. cbn [mbind option_bind].
    assert (∃ x, scalar_binary bop a b = Ok x) as [x ->]; [|done].
    destruct op; try discriminate Hlow; try discriminate Htrap; injection Hlow as <-.
    all: assert (value_ty rhs = value_ty lhs) as Hrl by
      (simpl in Hu; destruct (expect_type (value_ty rhs) (value_ty lhs) _) as [[]|] eqn:Hex; [by apply expect_type_ok in Hex|done]).
    all: rewrite Hrl in *.
    all: try (apply (float_arithmetic _ (value_ty lhs)); [rewrite !elem_of_cons; tauto| |done|done];
      simpl in Hu, Htrap; destruct (expect_type _ _ _); [|done]; simpl in Hu; destruct (value_ty lhs); try done; auto).
    all: try (cbn [scalar_binary]; eapply (compare_scalar _ _ (value_ty lhs)); [exact Hu|reflexivity|by rewrite Hsc|done|done|done]).
    all: simpl in Hu; destruct (expect_type _ _ _); [|done]; simpl in Hu; case_bool_decide as Hh; [|done]; by rewrite Hh in Hsc.
Qed.

Lemma pure_exec i s : verified i → typed_state f s → (∀ slot, slot ∈ instr_reads f i → present f s slot) →
  effects i = Effect.default → ∃ s', exec i s = Finished s' ∧ local_values s' = local_values s ∧ world s' = world s.
Proof.
  intros Hv Ht Hp He. destruct (operands_read other f s i Hv Ht Hp) as (vs & Hvs & Hty).
  assert (∃ v, scalar_step i vs = Some (Ok v) ∨ (scalar_step i vs = None
    ∧ perform i vs (local_values s) (world s) = Ok (Some v, local_values s, world s))) as [v Hres].
  { destruct (scalar_step i vs) as [[v|e]|] eqn:Hs; [by exists v; left|by apply pure_scalar in Hs|].
    destruct (host_pure other f i vs (local_values s) (world s) Hv Hty (proj2 Ht) He) as [v Hpv]. exists v. by right. }
  assert (∃ dst, output i = Some dst) as [dst Ho].
  { apply pure_instruction in He. destruct i; try done; by eexists. }
  exists (set_temp dst v s). split; [|done]. unfold exec. rewrite Hvs. cbn [obind from_option_stuck].
  assert (∀ s0, temp_values s0 = temp_values s → local_values s0 = local_values s → world s0 = world s →
    publish_result i (Some v) s0 = Finished (set_temp dst v s)) as Hpub.
  { intros s0 H1 H2 H3. unfold publish_result. rewrite Ho. unfold set_temp. by rewrite H1, H2, H3. }
  apply pure_instruction in He. destruct i; try done; (destruct Hres as [Hs|[Hs Hpf]]; rewrite Hs; [by apply Hpub|rewrite Hpf; by apply Hpub]).
Qed.

(** Runs of one instruction from states that agree on its operands. *)
Definition same_rest s1 s2 : Prop := local_values s1 = local_values s2 ∧ world s1 = world s2.

Lemma exec_agree i s1 s2 : (∀ t, t ∈ temp <$> inputs i → temp_values s1 !! t = temp_values s2 !! t) → same_rest s1 s2 →
  match exec i s1, exec i s2 with
  | Finished a, Finished b => same_rest a b ∧ ∀ t, t ∈ temp <$> option_list (output i) ∨ temp_values s1 !! t = temp_values s2 !! t →
                                temp_values a !! t = temp_values b !! t
  | Faulted e w, Faulted e' w' => e = e' ∧ w = w'
  | Stuck, Stuck => True
  | _, _ => False
  end.
Proof.
  intros Hin [Hl Hw]. assert (operands s1 i = operands s2 i) as Hops.
  { unfold operands. assert (∀ v, v ∈ inputs i → read_temp s1 v = read_temp s2 v) as Hread.
    { intros v Hv. apply Hin, list_elem_of_fmap. eauto. }
    clear Hin. induction (inputs i) as [|v l IH]; [done|]. cbn [mapM]. rewrite Hread by left.
    rewrite IH; [done|]. intros u Hu. apply Hread. by right. }
  unfold exec. rewrite Hops. destruct (operands s2 i) as [vs|]; [|done]. cbn [obind from_option_stuck].
  assert (∀ r a b, temp_values a = temp_values s1 → temp_values b = temp_values s2 → same_rest a b →
    match publish_result i r a, publish_result i r b with
    | Finished a, Finished b => same_rest a b ∧ ∀ t, t ∈ temp <$> option_list (output i) ∨ temp_values s1 !! t = temp_values s2 !! t →
                                temp_values a !! t = temp_values b !! t
    | Faulted e w, Faulted e' w' => e = e' ∧ w = w'
    | Stuck, Stuck => True
    | _, _ => False
    end) as Hpub.
  { intros r a b Ha Hb Hr. unfold publish_result. destruct (output i) as [dst|], r as [v|]; try done.
    - split; [done|]. intros t Ht. cbn [temp_values set_temp]. rewrite Ha, Hb. destruct (decide (t = temp dst)) as [->|Hne].
      + by rewrite !lookup_insert_eq.
      + rewrite !lookup_insert_ne by done. destruct Ht as [Ht|]; [|done]. cbn in Ht. by apply list_elem_of_singleton in Ht.
    - split; [done|]. intros t [Ht|Ht]; [by apply elem_of_nil in Ht|]. by rewrite Ha, Hb.
    - split; [done|]. intros t [Ht|Ht]; [by apply elem_of_nil in Ht|]. by rewrite Ha, Hb. }
  rewrite Hl, Hw. destruct i; try (destruct (scalar_step _ vs) as [[v|e]|]; [by apply Hpub|done|];
    destruct (perform _ vs _ _) as [[[r ls] w]|[e w]]; [by apply Hpub|done]).
  - destruct (local_values s2 !! local) as [v|]; [|done]. cbn [obind from_option_stuck].
    specialize (Hpub (Some v) s1 s2 eq_refl eq_refl (conj Hl Hw)). exact Hpub.
  - destruct vs as [|v [|]]; try done. split; [split; [simpl; by rewrite Hl|done]|]. intros t [Ht|Ht]; [by apply elem_of_nil in Ht|done].
Qed.

(** ** Blocks *)
Section Blocks.
Context (bs : list BlockAnalysis) (Hsealed : sealed f bs).
Context (Hverified : ∀ b, b ∈ blocks f → block_verified other f b) (Hsafe : ∀ slot, ¬ lacking_read f slot).
Notation m := (length (temps f)).
Let Hok : cfg_ok f := se_cfg _ _ Hsealed.

Lemma indexed_lookup l k i : l !! k = Some i → drop k (indexed l) = (k, i) :: drop (S k) (indexed l).
Proof.
  intros Hi. apply drop_S. unfold indexed. apply lookup_zip_with_Some. exists k, i. split_and!; [done| |done].
  apply lookup_seq. apply lookup_lt_Some in Hi. lia.
Qed.

(** States that agree on the temporaries of [L] run the pruned list to the same end. *)
Definition agree (L : nat → bool) s1 s2 : Prop :=
  same_rest s1 s2 ∧ ∀ t, L t = true → temp_values s1 !! t = temp_values s2 !! t.

Lemma prune_exec j k L s1 s2 : j < length (blocks f) → k ≤ length (code f j) → good_state f j k s1 →
  agree (snd (sweep_dead (drop k (indexed (code f j))) L)) s1 s2 →
  match exec_all (drop k (code f j)) s1, exec_all (prune (drop k (indexed (code f j))) L) s2 with
  | Finished a, Finished b => agree L a b
  | Faulted e w, Faulted e' w' => e = e' ∧ w = w'
  | _, _ => False
  end.
Proof.
  intros Hj Hk. remember (length (code f j) - k) as d eqn:Hd. revert k s1 s2 Hk Hd.
  induction d as [|d IH]; intros k s1 s2 Hk Hd Hg Ha.
  { rewrite !drop_ge in * by (unfold indexed; rewrite ?length_zip_with, ?length_seq; lia). done. }
  destruct (lookup_lt_is_Some_2 (code f j) k) as [i Hi]; [lia|].
  rewrite (drop_S _ _ _ Hi). rewrite (indexed_lookup _ _ _ Hi) in *. cbn [exec_all prune sweep_dead] in *.
  pose proof (list_elem_of_lookup_2 _ _ _ Hi) as Hin. pose proof (code_verified other f Hverified j i Hin) as Hv.
  pose proof (step_good other f Hok Hverified Hsafe j k i s1 Hj Hi Hg) as Hstep.
  specialize (IH (S k)). set (rest := drop (S k) (indexed (code f j))) in *.
  destruct (sweep_dead rest L) as [dd L'] eqn:Hsd. cbn [fst snd] in *. destruct (dead_op i L') eqn:Hdead; cbn [fst snd] in Ha.
  - unfold dead_op in Hdead. destruct (output i) as [dst|] eqn:Ho; [|done]. apply andb_true_iff in Hdead as [Hnl He%bool_decide_eq_true].
    destruct (pure_exec i s1 Hv (proj1 Hg)) as (s1' & Hex & Hl & Hw); [|done|].
    { intros slot Hs. apply Hg; [|by eapply reads_defined]. eapply (code_slots f Hok j); [done|]. apply elem_of_app. by left. }
    rewrite Hex in *. cbn [obind]. apply IH; [lia|lia|done|]. destruct Ha as [[Hl1 Hw1] Ht1].
    split; [split; congruence|]. intros t Ht. rewrite <- (Ht1 t Ht). apply (exec_frame i s1 s1' t Hex).
    intros dst' Hd'. rewrite Ho in Hd'. injection Hd' as <-. intros Heq. rewrite <- Heq in Ht. rewrite Ht in Hnl. done.
  - cbn [exec_all]. destruct Ha as [Hrest Ht]. pose proof (exec_agree i s1 s2) as Hag.
    specialize (Hag ltac:(intros t Hin'; apply Ht; unfold live_before, writes_bit at 1; by rewrite bool_decide_eq_true_2) Hrest).
    destruct (exec i s1) as [a|e w|], (exec i s2) as [b|e' w'|]; try done. cbn [obind]. destruct Hag as [Hr' Ht'].
    apply IH; [lia|lia|done|]. split; [done|]. intros t Hlt. apply Ht'.
    destruct (decide (t ∈ temp <$> option_list (output i))) as [|Hn]; [by left|right]. apply Ht. unfold live_before.
    rewrite Hlt. unfold writes_bit at 2. rewrite (bool_decide_eq_false_2 (t ∈ temp <$> option_list (output i))) by done.
    by rewrite orb_true_r.
Qed.

(** The sweep's live temporaries are needed. *)
Lemma exit_live_spec j t : cfg_reachable f j → exit_live bs j t = true ↔ t < m ∧ needed f t j (length (code f j)).
Proof.
  intros Hj. pose proof (reachable_lt f Hok j Hj) as Hlt. pose proof (se_facts _ _ Hsealed) as Hfacts.
  destruct (lookup_lt_is_Some_2 bs j) as [b Hb]; [by rewrite (an_length _ _ Hfacts)|].
  destruct (an_blocks _ _ Hfacts _ _ Hb) as [_ Hlen].
  destruct (lookup_lt_is_Some_2 (points b) (length (code f j))) as [p Hp]; [lia|].
  destruct (an_points _ _ Hfacts _ _ _ _ Hb Hj Hp) as [((Ht & Hl & Hw) & _) Hlive _ _ _].
  unfold exit_live, terminator_point. rewrite Hb. simpl. rewrite last_lookup, Hlen. simpl. rewrite Hp. simpl.
  rewrite <- (Hlive t). unfold in_set, contains_temp. rewrite Ht. destruct (Nat.ltb_spec t m) as [Htm|Htm].
  - destruct (row_contains _ t) as [[]|]; simpl; split; try done; try (intros _; split; [done|by left]);
      intros [_ [?|(l & Heq & _)]]; try done; unfold local_slot in Heq; lia.
  - simpl. split; [done|]. intros [? _]. lia.
Qed.
Lemma sweep_dead_needed j k t : cfg_reachable f j → k ≤ length (code f j) →
  snd (sweep_dead (drop k (indexed (code f j))) (exit_live bs j)) t = true → t < m ∧ needed f t j k.
Proof.
  intros Hj Hk. remember (length (code f j) - k) as d eqn:Hd. revert k Hk Hd.
  induction d as [|d IH]; intros k Hk Hd.
  { rewrite drop_ge by (unfold indexed; rewrite length_zip_with, length_seq; lia). cbn.
    replace k with (length (code f j)) by lia. by apply exit_live_spec. }
  destruct (lookup_lt_is_Some_2 (code f j) k) as [i Hi]; [lia|]. rewrite (indexed_lookup _ _ _ Hi). cbn [sweep_dead].
  specialize (IH (S k) ltac:(lia) ltac:(lia)).
  destruct (sweep_dead (drop (S k) (indexed (code f j))) (exit_live bs j)) as [dd L'] eqn:Hsd. cbn [snd] in *.
  assert (∀ u, L' u = true → u ∉ temp <$> option_list (output i) → u < m → u ∉ instr_writes f i) as Hnw.
  { intros u _ Hu Hm. unfold instr_writes. rewrite elem_of_app. intros [|Hx]; [done|].
    destruct i; try by apply elem_of_nil in Hx. apply list_elem_of_singleton in Hx. unfold local_slot in Hx. lia. }
  destruct (dead_op i L') eqn:Hdead; cbn [snd].
  - intros Ht. destruct (IH Ht) as [Hm Hn]. split; [done|]. eapply needed_skip; [done| |done].
    apply Hnw; [done| |done]. unfold dead_op in Hdead. destruct (output i) as [dst|]; [|done]. cbn.
    rewrite list_elem_of_singleton. intros ->. by rewrite Ht in Hdead.
  - unfold live_before. rewrite orb_true_iff, andb_true_iff, negb_true_iff. unfold writes_bit.
    rewrite bool_decide_eq_true, bool_decide_eq_false. intros [Hin|[Ht Hn]].
    + split.
      * eapply (se_operands _ _ Hsealed j i); [by eapply list_elem_of_lookup_2|]. apply elem_of_app. by left.
      * eapply needed_read; [done|]. apply elem_of_app. by left.
    + destruct (IH Ht) as [Hm Hne]. split; [done|]. eapply needed_skip; [done| |done]. by apply Hnw.
Qed.

(** States that agree on what block [j] needs of the temporaries. *)
Definition agree_at (j : nat) s1 s2 : Prop :=
  same_rest s1 s2 ∧ ∀ t, t < m → needed f t j 0 → temp_values s1 !! t = temp_values s2 !! t.

Definition same_exit (o1 o2 : @MirOutcome W (@Exit W)) : Prop :=
  match o1, o2 with
  | Finished (Goto b s1), Finished (Goto b' s2) => b = b' ∧ agree_at b s1 s2
  | Finished (Returned v s1), Finished (Returned v' s2) => v = v' ∧ same_rest s1 s2
  | Finished (ReachedUnreachable s1), Finished (ReachedUnreachable s2) => same_rest s1 s2
  | Faulted e w, Faulted e' w' => e = e' ∧ w = w'
  | _, _ => False
  end.

Lemma terminator_agree j b t s1 s2 : cfg_reachable f j → blocks f !! j = Some b → terminator b = Some t →
  good_state f j (length (code f j)) s1 → agree (exit_live bs j) s1 s2 →
  same_exit (exec_terminator t s1) (exec_terminator t s2).
Proof.
  intros Hj Hb Ht Hg [Hrest Ha].
  pose proof (terminator_good other f Hok Hverified Hsafe j b t s1 Hj Hb Ht Hg) as Hgood.
  assert (∀ v, terminator_input t = Some v → read_temp s1 v = read_temp s2 v) as Hread.
  { intros v Hv. apply Ha, exit_live_spec; [done|].
    destruct (bv_terminator _ _ _ (Hverified b (list_elem_of_lookup_2 _ _ _ Hb))) as (t' & ? & [_ Hfit _]). simplify_eq.
    split; [by apply fits_lt, Hfit|]. eapply needed_branch; [done..|]. unfold term_reads. rewrite Hv. left. }
  assert (∀ x, x ∈ successors t → agree_at x s1 s2) as Hgoto.
  { intros x Hx. split; [done|]. intros u Hu Hn. apply Ha, exit_live_spec; [done|]. split; [done|].
    apply needed_edge with x; [by exists b, t|done]. }
  destruct t as [[v|]|x|c x y|]; cbn [exec_terminator] in *; try done.
  - rewrite <- Hread in * by done. destruct (read_temp s1 v); [|done]. done.
  - split; [done|]. apply Hgoto. left.
  - rewrite <- (Hread c eq_refl). destruct (read_temp s1 c) as [[]|]; try done. split; [done|].
    apply Hgoto. destruct b0; simpl; set_solver.
Qed.

Lemma run_block_agree j b b' s1 s2 : cfg_reachable f j → blocks f !! j = Some b →
  instructions b' = prune (indexed (code f j)) (exit_live bs j) → terminator b' = terminator b →
  good_state f j 0 s1 → agree_at j s1 s2 → same_exit (run_block b s1) (run_block b' s2).
Proof.
  intros Hj Hb Hins Hterm Hg [Hrest Ha]. unfold run_block. rewrite Hins, Hterm.
  assert (code f j = instructions b) as Hcode by (unfold code; by rewrite Hb).
  pose proof (reachable_lt f Hok j Hj) as Hlt.
  pose proof (prune_exec j 0 (exit_live bs j) s1 s2 Hlt ltac:(lia) Hg) as Hp.
  pose proof (exec_all_good other f Hok Hverified Hsafe j 0 s1 Hlt ltac:(lia) Hg) as Hgood.
  rewrite !drop_0 in *. rewrite <- Hcode. specialize (Hp ltac:(split; [done|]; intros t Ht;
    rewrite <- (drop_0 (indexed (code f j))) in Ht; apply sweep_dead_needed in Ht as [? ?]; [by apply Ha|done|lia])).
  destruct (exec_all (code f j) s1) as [a|e w|], (exec_all (prune _ _) s2) as [c|e' w'|]; try done.
  cbn [obind]. destruct (ok_terminator _ Hok _ _ Hb) as (t & Ht & _). rewrite Ht. cbn [obind from_option_stuck].
  by eapply terminator_agree.
Qed.

Lemma run_agree f' n j s1 s2 :
  (∀ j b, blocks f !! j = Some b → cfg_reachable f j → ∃ b', blocks f' !! j = Some b'
     ∧ instructions b' = prune (indexed (code f j)) (exit_live bs j) ∧ terminator b' = terminator b) →
  cfg_reachable f j → good_state f j 0 s1 → agree_at j s1 s2 → same_exit (run f n j s1) (run f' n j s2).
Proof.
  intros Hf'. revert j s1 s2. induction n as [|n IH]; intros j s1 s2 Hj Hg Ha; [done|]. cbn [run].
  destruct (lookup_lt_is_Some_2 _ _ (reachable_lt f Hok j Hj)) as [b Hb].
  destruct (Hf' j b Hb Hj) as (b' & Hb' & Hins & Hterm). rewrite Hb, Hb'. cbn [obind from_option_stuck].
  pose proof (run_block_agree j b b' s1 s2 Hj Hb Hins Hterm Hg Ha) as Hrb.
  pose proof (run_block_good other f Hok Hverified Hsafe j b s1 Hj Hb Hg) as Hgood.
  destruct (run_block b s1) as [[]|e w|], (run_block b' s2) as [[]|e' w'|]; try done. cbn [obind].
  destruct Hrb as [<- Hagree]. destruct Hgood. by apply IH.
Qed.
End Blocks.
End Equivalent.

(** ** The pass *)
Section Whole.
Context `{CallContracts} (other : Instruction → P unit).

(** A function that passed the verifier, with the facts the verifier computed of it. *)
Definition verified_with (f : MirFunction) (bs : list BlockAnalysis) : Prop :=
  succeeds (verify_body other f) tt
  ∧ ∃ init, succeeds (flow_verify f) init ∧ succeeds (build f init) bs.

(** Equal behaviour from every typed start, for any number of blocks, on any host. *)
Definition dead_equivalent (f f' : MirFunction) : Prop :=
  ∀ (F : FloatOps) (W : Type) (host : Host W) (laws : @HostLaws _ W host other f) n (s : MirState W),
    typed_state f s → (∀ p, p ∈ params f → is_Some (local_values s !! param_local p)) →
    same_exit f (run f n (entry f) s) (run f' n (entry f') s).

Lemma verified_sealed f bs : verified_with f bs →
  sealed f bs ∧ (∀ b, b ∈ blocks f → block_verified other f b) ∧ ∀ slot, ¬ lacking_read f slot.
Proof.
  intros (Hv & init & Hf & Hbuild). pose proof (verify_cfg_ok _ _ Hv) as Hok. pose proof (verify_scopes_ok _ _ Hv) as Hsc.
  pose proof (succeeds_prun _ _ _ _ (prun_flow_verify f Hok) Hf) as Hinit.
  pose proof (succeeds_prun _ _ _ _ (prun_build f (λ _, False) _ Hok Hsc Hinit) Hbuild) as Hfacts.
  apply verify_body_sound in Hv as (_ & _ & Hb). split_and!; [|done|apply Hinit]. split; [done..| |].
  - intros j i s Hi. destruct (code_verified other f Hb j i Hi) as [Hin Hout _].
    rewrite elem_of_app, !list_elem_of_fmap. intros [(v & -> & Hx)|(v & -> & Hx)]; apply (fits_lt f); [by apply Hin|].
    apply Hout. destruct (output i); cbn in Hx; [by apply list_elem_of_singleton in Hx as ->|by apply elem_of_nil in Hx].
  - intros b Hbl. exact (bv_columns _ _ _ (Hb b Hbl)).
Qed.

Lemma seq_sorted k m : StronglySorted lt (seq k m).
Proof.
  revert k. induction m as [|m IH]; intros k; constructor; [done|]. apply Forall_forall. intros x Hx%list_elem_of_In%elem_of_seq. lia.
Qed.
Lemma indexed_sorted l : StronglySorted lt ((indexed l).*1).
Proof. unfold indexed. rewrite fst_zip by (by rewrite length_seq). apply seq_sorted. Qed.

Lemma removed_sorted functions analyses key : StronglySorted lt (reverse (removed functions analyses key)).
Proof.
  unfold removed, dead_of. repeat case_match; try constructor. apply sweep_dead_sorted, indexed_sorted.
Qed.

Lemma keys_of_elem functions k j :
  (k, j) ∈ keys_of functions ↔ ∃ f, functions !! k = Some f ∧ j < length (blocks f).
Proof.
  unfold keys_of. rewrite list_elem_of_In, in_concat. setoid_rewrite <- list_elem_of_In. split.
  - intros (ks & (k' & f & -> & Hf)%elem_of_lookup_imap & Hin).
    apply list_elem_of_fmap in Hin as (j' & [= -> ->] & Hj%elem_of_seq). exists f. split; [done|lia].
  - intros (f & Hf & Hj). exists (block_keys k f). split; [by apply elem_of_lookup_imap_2|].
    apply list_elem_of_fmap. exists j. split; [done|]. apply elem_of_seq. lia.
Qed.
Lemma keys_of_nodup functions : NoDup (keys_of functions).
Proof.
  induction functions as [|f fs IH] using rev_ind; [constructor|]. unfold keys_of in *. rewrite imap_app, concat_app.
  apply list.NoDup_app. split_and!; [done| |].
  - intros [k j] (f' & Hf' & _)%keys_of_elem. cbn. rewrite app_nil_r, Nat.add_0_r. intros (j' & [= -> _] & _)%list_elem_of_fmap.
    apply lookup_lt_Some in Hf'. lia.
  - cbn. rewrite app_nil_r. apply NoDup_fmap; [by intros ?? [= ->]|apply NoDup_seq].
Qed.

(** What the pass makes of one function with its facts behaves as the function. *)
Lemma compacted_equivalent f f' bs : verified_with f bs → entry f' = entry f →
  (∀ j b, blocks f !! j = Some b → blocks f' !! j = Some (keep_columns (reverse (dead_of f bs j)) b)) →
  dead_equivalent f f'.
Proof.
  intros Hw He Hbl F W host laws n s Ht Hp. destruct (verified_sealed f bs Hw) as (Hs & Hv & Hsafe). rewrite He.
  eapply (run_agree other f bs Hs Hv Hsafe f' n).
  - intros j b Hb Hj. eexists. split; [by apply Hbl|]. split; [|done]. cbn.
    assert (code f j = instructions b) as -> by (unfold code; by rewrite Hb).
    apply keep_prune. intros x _. rewrite elem_of_reverse. unfold dead_of.
    pose proof (se_facts _ _ Hs) as Hfacts. destruct (lookup_lt_is_Some_2 bs j) as [a Ha].
    { rewrite (an_length _ _ Hfacts). by eapply lookup_lt_Some. }
    rewrite Ha. destruct (an_blocks _ _ Hfacts _ _ Ha) as [Hre _]. rewrite (proj2 Hre Hj).
    unfold code. by rewrite Hb.
  - apply rtc_refl.
  - by apply entry_good.
  - split; [done|]. intros; reflexivity.
Qed.

Lemma verified_all_sealed functions analyses : Forall2 verified_with functions analyses → Forall2 sealed functions analyses.
Proof. intros HF. eapply list.Forall2_impl; [exact HF|]. intros f bs Hw. apply (verified_sealed f bs Hw). Qed.
(** The removals of the search. *)
Definition removals_of (functions : list MirFunction) (analyses : list (list BlockAnalysis)) : list (nat * nat * nat) :=
  keys_of functions ≫= removals_at (removed functions analyses).
Lemma prun_apply_found functions analyses : Forall2 verified_with functions analyses →
  prun (apply_removals (length (removals_of functions analyses)) functions (removals_of functions analyses)) (Forall2 dead_equivalent functions).
Proof.
  intros HF. pose proof (verified_all_sealed _ _ HF) as HS. eapply prun_mono.
  - apply (prun_apply (λ _, False) functions (removed functions analyses) (removed_sorted functions analyses)) with (finished := []).
    + intros f b Hf Hb. apply list_elem_of_lookup in Hf as [k Hf].
      destruct (Forall2_lookup_l _ _ _ _ _ HS Hf) as (bs & _ & Hse). by apply (se_columns _ _ Hse).
    + apply keys_of_nodup.
    + intros k j. apply keys_of_elem.
    + split; [done|]. intros k f Hf. exists f. split_and!; [done| |done|done]. by destruct f.
    + done.
  - intros fs [Hlen Hall]. apply Forall2_same_length_lookup. split; [done|].
    intros k f f' Hf Hf'. destruct (Hall k f Hf) as (f'' & Hf'' & Hwith & _ & Hbl). simplify_eq.
    destruct (Forall2_lookup_l _ _ _ _ _ HF Hf) as (bs & Hbs & Hw).
    apply compacted_equivalent with bs; [done|by rewrite Hwith|].
    intros j b Hb. rewrite (Hbl j b Hb), decide_True; [unfold removed; cbn [fst snd]; by rewrite Hf, Hbs|].
    apply keys_of_elem. exists f. split; [done|by eapply lookup_lt_Some].
Qed.
Lemma prun_remove_dead functions analyses : Forall2 verified_with functions analyses →
  prun (remove_dead functions analyses) (λ r, Forall2 dead_equivalent functions (snd r)).
Proof.
  intros HF. apply prun_bind. eapply prun_mono; [by apply prun_find, verified_all_sealed|]. intros R ->.
  apply prun_bind. eapply prun_mono; [by apply prun_apply_found|]. intros fs Hfs. by apply prun_ret.
Qed.

End Whole.

(** A diamond whose second arm also computes a constant nobody reads. *)
Section Sample.
#[local] Existing Instance no_contracts.
Definition wasteful : MirFunction :=
  diamond_with [LoadConst (bool_temp 1) (KBool false); StoreLocal 1 (bool_temp 0)].
Definition wasteful_init : Initialization :=
  Eval vm_compute in match flow_verify wasteful default_work with Ok (init, _) => init | Err _ => no_facts end.
Definition wasteful_facts : list BlockAnalysis :=
  Eval vm_compute in match build wasteful wasteful_init default_work with Ok (bs, _) => bs | Err _ => [] end.

Example wasteful_shortened :
  match remove_dead [wasteful] [wasteful_facts] default_work with
  | Ok ((1, [f]), _) => blocks f = blocks diamond
  | _ => False
  end.
Proof. vm_compute. reflexivity. Qed.

End Sample.
