(* ===== verification/MirPaths.v ===== *)
(** * Routes through a function and equal behaviour

    What the passes that rename operands are proved with: the routes from the entry
    to a point with the temporaries they have written, the interface a host must
    offer to code whose operands are renamed, and what it means for two functions to
    behave alike. *)
From stdpp Require Import gmap.
From S2P Require Import Prelude Integer Scalar Payload RuntimeNumeric Contracts NumericProps Token.
From S2P Require Import Mir Pass MirSemantics MirVerify MirFlow.
Open Scope nat_scope.

(** ** Rewritten operands *)
Section Rewrite.
Context `{CallContracts}.

Lemma inputs_rewrite g i : inputs (rewrite_inputs g i) = g <$> inputs i.
Proof.
  destruct i; cbn; try done; try (by destruct rhs); try (by destruct value); rewrite ?fmap_app; try done.
  - by destruct callee.
  - by destruct start, end_.
  - rewrite <- !list_fmap_compose. done.
Qed.
Lemma output_rewrite g i : output (rewrite_inputs g i) = output i.
Proof. by destruct i. Qed.
Lemma calls_rewrite g i : calls (effects (rewrite_inputs g i)) = calls (effects i).
Proof. destruct i; try done. by destruct callee. Qed.
Lemma rewrite_compose g h i : rewrite_inputs g (rewrite_inputs h i) = rewrite_inputs (g ∘ h) i.
Proof.
  destruct i; cbn; try done; f_equal; rewrite <- ?list_fmap_compose, <- ?option_fmap_compose; try done.
  by destruct callee.
Qed.
Lemma rewrite_ext g h i : (∀ v, v ∈ inputs i → g v = h v) → rewrite_inputs g i = rewrite_inputs h i.
Proof.
  intros Hg. assert (∀ l : list MirValue, (∀ v, v ∈ l → v ∈ inputs i) → g <$> l = h <$> l) as Hl.
  { intros l Hl. apply list_fmap_ext. intros k v Hv. apply Hg, Hl. by eapply list_elem_of_lookup_2. }
  assert (∀ o : option MirValue, (∀ v, o = Some v → v ∈ inputs i) → g <$> o = h <$> o) as Ho.
  { intros [v|] Hv; [|done]. cbn. f_equal. by apply Hg, Hv. }
  assert (∀ v, v ∈ inputs i → g v = h v) as H1 by done.
  destruct i; cbn [inputs rewrite_inputs] in *; try done; rewrite ?H1 by set_solver; try done.
  - f_equal. apply Ho. intros v ->. set_solver.
  - f_equal. apply Ho. intros v ->. set_solver.
  - rewrite Hl by set_solver. f_equal. destruct callee; try done; f_equal; apply H1; set_solver.
  - rewrite Hl by set_solver. done.
  - rewrite (Ho start), (Ho end_); [done|..]; intros v ->; set_solver.
  - rewrite Hl by set_solver. done.
  - rewrite Hl by set_solver. done.
  - rewrite Hl by set_solver. done.
  - f_equal. apply list_fmap_ext. intros k x Hx. f_equal. apply H1, list_elem_of_fmap. exists x.
    split; [done|]. by eapply list_elem_of_lookup_2.
  - rewrite Hl by set_solver. done.
  - rewrite Hl by set_solver. done.
  - rewrite Hl by set_solver. done.
  - rewrite Hl by set_solver. done.
  - rewrite Hl by set_solver. done.
Qed.
Lemma rewrite_id i : rewrite_inputs id i = i.
Proof.
  assert (∀ l : list MirValue, id <$> l = l) as Hl by (intros; by rewrite list_fmap_id).
  assert (∀ o : option MirValue, id <$> o = o) as Ho by (intros; by rewrite option_fmap_id).
  destruct i; cbn; rewrite ?Hl, ?Ho; try done; f_equal.
  - by destruct callee.
  - etrans; [|apply list_fmap_id]. apply list_fmap_ext. by intros k [].
Qed.
Lemma rewrite_input_id t : rewrite_input id t = t.
Proof. by destruct t as [[]| | |]. Qed.
Lemma terminator_input_rewrite g t : terminator_input (rewrite_input g t) = g <$> terminator_input t.
Proof. by destruct t as [[]| | |]. Qed.
Lemma successors_rewrite g t : successors (rewrite_input g t) = successors t.
Proof. by destruct t as [[]| | |]. Qed.
End Rewrite.

(** ** Routes *)
Section Routes.
Context `{CallContracts} (f : MirFunction).

Definition written (i : Instruction) : list nat := temp <$> option_list (output i).

(** [route W j k]: a path from the entry reaches point [k] of block [j], having
    written the temporaries [W]. *)
Inductive route : list nat → nat → nat → Prop :=
| route_entry : route [] (entry f) 0
| route_step W j k i : route W j k → code f j !! k = Some i → route (written i ++ W) j (S k)
| route_edge W j t : route W j (length (code f j)) → edge f j t → route W t 0.

(** The temporaries point [k] of block [j] reads. *)
Definition term_at (j : nat) : option Terminator := blocks f !! j ≫= terminator.
Definition reads_at (j k : nat) (t : nat) : Prop :=
  (∃ i, code f j !! k = Some i ∧ t ∈ temp <$> inputs i)
  ∨ (k = length (code f j) ∧ ∃ x, term_at j = Some x ∧ t ∈ term_reads x).

(** Every route to a read has written what it reads. *)
Definition ready : Prop := ∀ W j k t, route W j k → reads_at j k t → t ∈ W.

Lemma route_lacks W j k t : route W j k → t ∉ W → t < length (temps f) →
  may_lack f t j ∧ t ∉ block_writes f (take k (code f j)).
Proof.
  intros Hr Hn Ht. induction Hr as [|W j k i Hr IH Hi|W j x Hr IH He].
  - rewrite take_0. split; [|apply not_elem_of_nil]. constructor.
    intros (p & -> & _)%list_elem_of_fmap. unfold local_slot in Ht. cbn in Ht. lia.
  - rewrite elem_of_app in Hn. destruct IH as [Hl Hw]; [tauto|]. split; [done|].
    rewrite (take_S_r _ _ _ Hi), block_writes_app, elem_of_app. intros [|Hx]; [done|].
    cbn in Hx. rewrite app_nil_r in Hx. unfold instr_writes in Hx. apply elem_of_app in Hx as [Hx|Hx]; [by apply Hn; left|].
    destruct i; try by apply elem_of_nil in Hx. apply list_elem_of_singleton in Hx. unfold local_slot in Hx. lia.
  - destruct (IH Hn) as [Hl Hw]. rewrite take_0. split; [|apply not_elem_of_nil].
    rewrite take_ge in Hw by done. pose proof He as (b & term & Hb & _). unfold code in Hw. rewrite Hb in Hw.
    by eapply lack_edge.
Qed.

Lemma route_block W j k : route W j k → k ≤ length (code f j).
Proof. destruct 1 as [|W j k i Hr Hi|W j x Hr He]; [lia| |lia]. apply lookup_lt_Some in Hi. lia. Qed.
(** What was written since the block was entered. *)
Lemma route_since W j k t : route W j k → t ∈ take k (code f j) ≫= written → t ∈ W.
Proof.
  induction 1 as [|W j k i Hr IH Hi|W j x Hr IH He].
  - by intros ?%elem_of_nil.
  - rewrite (take_S_r _ _ _ Hi), bind_app, !elem_of_app. cbn. rewrite app_nil_r. tauto.
  - rewrite take_0. by intros ?%elem_of_nil.
Qed.
(** A temporary with one definition is unwritten on some route to it. *)
Lemma route_first W j k t j0 k0 : route W j k → t ∈ W →
  (∀ j k i, code f j !! k = Some i → t ∈ written i → j = j0 ∧ k = k0) → ∃ W', route W' j0 k0 ∧ t ∉ W'.
Proof.
  intros Hr Ht Hu. induction Hr as [|W j k i Hr IH Hi|W j x Hr IH He]; [by apply elem_of_nil in Ht| |auto].
  destruct (decide (t ∈ W)) as [|Hn]; [auto|]. apply elem_of_app in Ht as [Ht|]; [|done].
  destruct (Hu _ _ _ Hi Ht) as [-> ->]. by exists W.
Qed.
End Routes.

(** A verified, initialized function is ready. *)
Lemma verified_ready `{CallContracts} other f : succeeds (verify_body other f) tt → (∀ slot, ¬ lacking_read f slot) → ready f.
Proof.
  intros (_ & _ & Hb)%verify_body_sound Hsafe W j k t Hr Hread.
  assert (t < length (temps f) → t ∈ W) as Hin.
  { intros Ht. destruct (decide (t ∈ W)) as [|Hn]; [done|]. exfalso.
    destruct (route_lacks f W j k t Hr Hn Ht) as [Hl Hw]. apply (Hsafe t). unfold lacking_read.
    destruct (blocks f !! j) as [b|] eqn:Hbl.
    - exists j, b. split_and!; [done..|]. unfold reads_at, term_at, code in *. rewrite Hbl in *. cbn in *.
      destruct Hread as [(i & Hi & Hx)|(-> & x & Hx & Hy)].
      + left. exists k, i. split_and!; [done..|]. apply elem_of_app. by left.
      + right. exists x. rewrite take_ge in Hw by done. done.
    - unfold reads_at, term_at, code in *. rewrite Hbl in *. cbn in *. destruct Hread as [(i & ? & _)|(_ & x & ? & _)]; done. }
  apply Hin. destruct (blocks f !! j) as [b|] eqn:Hbl; unfold reads_at, term_at, code in *; rewrite Hbl in *; cbn in *.
  - pose proof (Hb b (list_elem_of_lookup_2 _ _ _ Hbl)) as [Hi (x' & Ht' & [_ Hfit _]) _ _].
    destruct Hread as [(i & Hik & (v & -> & Hv)%list_elem_of_fmap)|(_ & x & Hx & Hy)].
    + destruct (iv_inputs _ _ _ (Hi i (list_elem_of_lookup_2 _ _ _ Hik)) v Hv) as (mt & Hmt & _). by eapply lookup_lt_Some.
    + simplify_eq. unfold term_reads in Hy. destruct (terminator_input x) as [v|]; cbn in Hy; [|by apply elem_of_nil in Hy].
      apply list_elem_of_singleton in Hy as ->. destruct (Hfit v eq_refl) as (mt & Hmt & _). by eapply lookup_lt_Some.
  - destruct Hread as [(i & ? & _)|(_ & x & ? & _)]; done.
Qed.

(** ** Hosts and renamed operands *)
Section Alike.
Context `{CallContracts} `{FloatOps} {W : Type} `{!Host W}.
Implicit Types (s : MirState W).

(** A host sees operand values, not the slots they come from, and writes local slots
    only in an instruction that calls. *)
Class HostSlots : Prop := {
  host_names g i vs ls (w : W) : (∀ v, v ∈ inputs i → value_ty (g v) = value_ty v) →
    perform (rewrite_inputs g i) vs ls w = perform i vs ls w;
  host_locals i vs ls (w : W) r ls' w' : calls (effects i) = false → perform i vs ls w = Ok (r, ls', w') → ls' = ls
}.

Definition same_host_state s1 s2 : Prop := local_values s1 = local_values s2 ∧ world s1 = world s2.
(** Two steps that end alike, with the temporaries of [T] equal. *)
Definition alike (T : nat → Prop) (o1 o2 : @MirOutcome W (MirState W)) : Prop :=
  match o1, o2 with
  | Finished a, Finished b => same_host_state a b ∧ ∀ t, T t → temp_values a !! t = temp_values b !! t
  | Faulted e w, Faulted e' w' => e = e' ∧ w = w'
  | Stuck, Stuck => True
  | _, _ => False
  end.

Lemma operands_rewrite g i s1 s2 : (∀ v, v ∈ inputs i → read_temp s2 (g v) = read_temp s1 v) →
  operands s2 (rewrite_inputs g i) = operands s1 i.
Proof.
  intros Hv. unfold operands. rewrite inputs_rewrite. induction (inputs i) as [|v l IH]; [done|]. cbn.
  rewrite Hv by left. rewrite IH; [done|]. intros. apply Hv. by right.
Qed.
Lemma scalar_step_rewrite g i vs : (∀ v, v ∈ inputs i → value_ty (g v) = value_ty v) →
  scalar_step (rewrite_inputs g i) vs = scalar_step i vs.
Proof. intros Hty. destruct i; try done. cbn. by rewrite Hty by left. Qed.

Lemma exec_rewrite g i s1 s2 (T : nat → Prop) :
  (∀ vs ls (w : W), perform (rewrite_inputs g i) vs ls w = perform i vs ls w) →
  (∀ v, v ∈ inputs i → read_temp s2 (g v) = read_temp s1 v ∧ value_ty (g v) = value_ty v) → same_host_state s1 s2 →
  (∀ t, T t → t ∈ written i ∨ temp_values s1 !! t = temp_values s2 !! t) →
  alike T (exec i s1) (exec (rewrite_inputs g i) s2).
Proof.
  intros Hperf Hv [Hl Hw] HT. unfold exec. rewrite (operands_rewrite g i s1 s2) by naive_solver.
  destruct (operands s1 i) as [vs|]; [|done]. cbn [obind from_option_stuck].
  assert (∀ r a b, temp_values a = temp_values s1 → temp_values b = temp_values s2 → same_host_state a b →
    alike T (publish_result i r a) (publish_result (rewrite_inputs g i) r b)) as Hpub.
  { intros r a b Ha Hb Hr. unfold publish_result. rewrite output_rewrite. unfold written in HT.
    destruct (output i) as [dst|], r as [v|]; try done; (split; [done|]); intros t Ht; cbn [temp_values set_temp]; rewrite Ha, Hb.
    - destruct (HT t Ht) as [Hx|Hx]; [cbn in Hx; apply list_elem_of_singleton in Hx as ->; by rewrite !lookup_insert_eq|].
      destruct (decide (t = temp dst)) as [->|]; [by rewrite !lookup_insert_eq|by rewrite !lookup_insert_ne].
    - destruct (HT t Ht) as [Hx|]; [by apply elem_of_nil in Hx|done].
    - destruct (HT t Ht) as [Hx|]; [by apply elem_of_nil in Hx|done]. }
  assert (alike T
    match scalar_step i vs with
    | Some (Ok v) => publish_result i (Some v) s1
    | Some (Err e) => Faulted e (world s1)
    | None => match perform i vs (local_values s1) (world s1) with
              | Ok (r, locals, w) => publish_result i r {| temp_values := temp_values s1; local_values := locals; world := w |}
              | Err (e, w) => Faulted e w
              end
    end
    match scalar_step (rewrite_inputs g i) vs with
    | Some (Ok v) => publish_result (rewrite_inputs g i) (Some v) s2
    | Some (Err e) => Faulted e (world s2)
    | None => match perform (rewrite_inputs g i) vs (local_values s2) (world s2) with
              | Ok (r, locals, w) => publish_result (rewrite_inputs g i) r {| temp_values := temp_values s2; local_values := locals; world := w |}
              | Err (e, w) => Faulted e w
              end
    end) as Hgen.
  { rewrite scalar_step_rewrite, Hperf by naive_solver. rewrite <- Hl, <- Hw.
    destruct (scalar_step i vs) as [[v|e]|]; [by apply Hpub|done|].
    destruct (perform i vs _ _) as [[[r ls] w]|[e w]]; [by apply Hpub|done]. }
  destruct i; try exact Hgen; cbn [rewrite_inputs].
  - rewrite <- Hl. destruct (local_values s1 !! local) as [v|]; [|done]. cbn [obind from_option_stuck].
    exact (Hpub (Some v) s1 s2 eq_refl eq_refl (conj Hl Hw)).
  - destruct vs as [|v [|]]; try done. split; [split; [cbn; by rewrite Hl|done]|]. intros t Ht.
    destruct (HT t Ht) as [Hx|]; [by apply elem_of_nil in Hx|done].
Qed.

(** The same instruction on two states. *)
Lemma exec_alike i s1 s2 (T : nat → Prop) : (∀ v, v ∈ inputs i → read_temp s2 v = read_temp s1 v) → same_host_state s1 s2 →
  (∀ t, T t → t ∈ written i ∨ temp_values s1 !! t = temp_values s2 !! t) → alike T (exec i s1) (exec i s2).
Proof.
  intros Hv Hh HT. rewrite <- (rewrite_id i) at 2. apply exec_rewrite; [intros; by rewrite rewrite_id|intros v Hin; split; [by apply Hv|done]|done|done].
Qed.

Lemma exec_terminator_rewrite g t s1 s2 : (∀ v, terminator_input t = Some v → read_temp s2 (g v) = read_temp s1 v) →
  match exec_terminator t s1, exec_terminator (rewrite_input g t) s2 with
  | Finished (Goto b a), Finished (Goto b' a') => b = b' ∧ a = s1 ∧ a' = s2 ∧ b ∈ successors t
  | Finished (Returned v a), Finished (Returned v' a') => v = v' ∧ a = s1 ∧ a' = s2
  | Finished (ReachedUnreachable a), Finished (ReachedUnreachable a') => a = s1 ∧ a' = s2
  | Stuck, Stuck => True
  | _, _ => False
  end.
Proof.
  intros Hv. destruct t as [[v|]|x|c x y|]; cbn [rewrite_input exec_terminator]; try done.
  - rewrite Hv by done. by destruct (read_temp s1 v).
  - split_and!; try done. left.
  - rewrite Hv by done. destruct (read_temp s1 c) as [[]|]; try done. split_and!; try done. destruct b; set_solver.
Qed.

(** ** Equal behaviour *)
Definition same_result (o1 o2 : @MirOutcome W (@Exit W)) : Prop :=
  match o1, o2 with
  | Finished (Goto b s1), Finished (Goto b' s2) => b = b' ∧ same_host_state s1 s2
  | Finished (Returned v s1), Finished (Returned v' s2) => v = v' ∧ same_host_state s1 s2
  | Finished (ReachedUnreachable s1), Finished (ReachedUnreachable s2) => same_host_state s1 s2
  | Faulted e w, Faulted e' w' => e = e' ∧ w = w'
  | Stuck, Stuck => True
  | _, _ => False
  end.
(** A run that is over. *)
Definition ends (o : @MirOutcome W (@Exit W)) : Prop := match o with Finished (Goto _ _) => False | _ => True end.
(** Whatever one function ends with, the other ends with. *)
Definition behaves_from (f f' : MirFunction) s : Prop :=
  (∀ n, ends (run f n (entry f) s) → ∃ n', same_result (run f n (entry f) s) (run f' n' (entry f') s))
  ∧ (∀ n', ends (run f' n' (entry f') s) → ∃ n, same_result (run f n (entry f) s) (run f' n' (entry f') s)).

Lemma same_result_trans o1 o2 o3 : same_result o1 o2 → same_result o2 o3 → same_result o1 o3.
Proof.
  unfold same_result, same_host_state. destruct o1 as [[]| |], o2 as [[]| |]; try done; destruct o3 as [[]| |]; try done; intros ? ?; destruct_and?; split_and?; congruence.
Qed.
Lemma same_result_ends o1 o2 : same_result o1 o2 → ends o1 ↔ ends o2.
Proof. by destruct o1 as [[]| |], o2 as [[]| |]. Qed.
Lemma behaves_trans f g h s : behaves_from f g s → behaves_from g h s → behaves_from f h s.
Proof.
  intros [H1 H2] [H3 H4]. split.
  - intros n He. destruct (H1 n He) as [m Hm]. destruct (H3 m) as [k Hk]; [by apply (same_result_ends _ _ Hm)|]. exists k. by eapply same_result_trans.
  - intros n He. destruct (H4 n He) as [m Hm]. destruct (H2 m) as [k Hk]; [by apply (same_result_ends _ _ Hm)|]. exists k. by eapply same_result_trans.
Qed.
Lemma behaves_lockstep f g s : (∀ n, same_result (run f n (entry f) s) (run g n (entry g) s)) → behaves_from f g s.
Proof. intros Hn. split; intros n _; by exists n. Qed.
End Alike.
Arguments HostSlots {_ W} _.
