(* ===== verification/MirCopies.v ===== *)
(** * Copy propagation

    Models [kagari-mir/src/passes/copies.rs]: one sweep over the blocks in emission
    order that forwards the snapshot a local holds, copies and repeated constants to
    the temporary that was defined first, the resolution of the aliases this leaves,
    and the rewriting of the remaining operands. *)
From stdpp Require Import gmap.
From S2P Require Import Prelude Integer Scalar Payload RuntimeNumeric Contracts NumericProps Token.
From S2P Require Import Mir Pass.
Open Scope nat_scope.

Inductive ConstantKey : Set :=
| CkUnit | CkBool (b : bool) | CkI32 (z : Z) | CkI64 (z : Z) | CkU64 (z : Z) | CkF32 (bits : Z)
| CkF64 (bits : Z) | CkChar (c : Z).
#[export] Instance ConstantKey_eq_dec : EqDecision ConstantKey.
Proof. solve_decision. Defined.

(** [ConstantKey::from_constant]. *)
Definition constant_key (c : Constant) : option ConstantKey :=
  match c with
  | KUnit => Some CkUnit
  | KBool v => Some (CkBool v)
  | KI32 v => Some (CkI32 v)
  | KI64 v => Some (CkI64 v)
  | KU64 v => Some (CkU64 v)
  | KF32 v => Some (CkF32 v)
  | KF64 v => Some (CkF64 v)
  | KStr _ => None
  | KChar v => Some (CkChar v)
  end.

Section Copies.
Context `{CallContracts}.

(** A snapshot of the locals: the temporary each is known to equal. *)
Notation Snapshot := (list (option MirValue)).
Notation ConstantTable := (list (ConstantKey * option Ty * MirValue)).

(** The hash map of constants: the entry of a key. *)
Definition find_constant (key : ConstantKey * option Ty) (table : ConstantTable) : option MirValue :=
  snd <$> (snd <$> list_find (λ e, fst e = key) table).

(** [vec[index] += 1]. *)
Definition bump (counts : list nat) (index : nat) : P (list nat) :=
  do c := pexpect (counts !! index) in pret (<[index := S c]> counts).
Definition count_definition (counts : list nat) (i : Instruction) : P (list nat) :=
  charge 1 ;;> match output i with Some dst => bump counts (temp dst) | None => pret counts end.

(** [instruction.rewrite_inputs(|value| *value = aliases[value.temp.index()])]. *)
Definition alias_of (aliases : list MirValue) (v : MirValue) : MirValue := default v (aliases !! temp v).
Definition rewrite_operands (aliases : list MirValue) (i : Instruction) : P Instruction :=
  do _ := fold_each (λ _ v, do _ := pexpect (aliases !! temp v) in pret tt) tt (inputs i) in
  pret (rewrite_inputs (alias_of aliases) i).

Definition count_predecessor (index : nat) (predecessors : list (list nat)) (successor : nat)
    : P (list (list nat)) :=
  charge 1 ;;>
  do ps := pexpect (predecessors !! successor) in
  pret (<[successor := ps ++ [index]]> predecessors).
(** One block of the predecessor loop; the state is its index and the lists. *)
Definition block_predecessors (s : nat * list (list nat)) (b : BasicBlock) : P (nat * list (list nat)) :=
  do ps := (match terminator b with
            | Some t => fold_each (count_predecessor (fst s)) (snd s) (successors t)
            | None => pret (snd s)
            end) in
  pret (S (fst s), ps).

(** [outgoing[predecessor].as_ref().expect(..)[local]]. *)
Definition outgoing_fact (outgoing : list (option Snapshot)) (local predecessor : nat) : P (option MirValue) :=
  do out := pexpect (outgoing !! predecessor) in
  do facts := pexpect out in
  pexpect (facts !! local).
Fixpoint meet_rest (outgoing : list (option Snapshot)) (local : nat) (candidate : option MirValue)
    (predecessors : list nat) : P (option MirValue) :=
  match predecessors with
  | [] => pret candidate
  | p :: predecessors =>
      charge 1 ;;>
      do fact := outgoing_fact outgoing local p in
      if decide (fact = candidate) then meet_rest outgoing local candidate predecessors else pret None
  end.
Definition meet_local (outgoing : list (option Snapshot)) (predecessors : list nat)
    (s : Snapshot) (local : nat) : P Snapshot :=
  do first := pexpect (head predecessors) in
  do candidate := outgoing_fact outgoing local first in
  do fact := meet_rest outgoing local candidate predecessors in
  pret (s ++ [fact]).

(** [predecessors[index].iter().all(|p| outgoing[p].is_some())]. *)
Fixpoint all_processed (outgoing : list (option Snapshot)) (predecessors : list nat) : P bool :=
  match predecessors with
  | [] => pret true
  | p :: predecessors =>
      do out := pexpect (outgoing !! p) in
      match out with Some _ => all_processed outgoing predecessors | None => pret false end
  end.

(** The snapshot at the start of a block. *)
Definition incoming_snapshot (f : MirFunction) (predecessors : list (list nat))
    (outgoing : list (option Snapshot)) (index : nat) : P Snapshot :=
  let unknown := replicate (length (locals f)) None in
  if decide (index = entry f) then pret unknown
  else
    do ps := pexpect (predecessors !! index) in
    if length ps =? 0 then pret unknown
    else
      do known := all_processed outgoing ps in
      if known : bool
      then fold_each (meet_local outgoing ps) [] (seq 0 (length (locals f)))
      else pret unknown.

(** What the sweep of a block carries along. *)
Record Sweep : Type := {
  sw_aliases : list MirValue;
  sw_locals : Snapshot;
  sw_constants : ConstantTable;
  sw_statistics : PassStatistics;
  sw_retained : list (Instruction * Span * nat)
}.

(** [same]. *)
Definition same_annotation (registers : gmap nat Ty) (a b : MirValue) : bool :=
  bool_decide (value_ty a = value_ty b) && bool_decide (registers !! temp a = registers !! temp b).

(** [aliases[dst.temp.index()] = value]. *)
Definition set_alias (aliases : list MirValue) (dst value : MirValue) : P (list MirValue) :=
  do _ := pexpect (aliases !! temp dst) in pret (<[temp dst := value]> aliases).
Definition defined_once (definitions : list nat) (v : MirValue) : P bool :=
  do c := pexpect (definitions !! temp v) in pret (c =? 1).

(** The arms of the match; the answer is the new state without the retained list and
    whether the instruction goes. *)
Definition sweep_const (registers : gmap nat Ty) (s : Sweep) (dst : MirValue) (c : Constant)
    : P (Sweep * bool) :=
  match constant_key c with
  | None => pret (s, false)
  | Some key =>
      let key := (key, registers !! temp dst) in
      do s :=
        (match find_constant key (sw_constants s) with
         | Some previous =>
             do aliases := set_alias (sw_aliases s) dst previous in
             pret {| sw_aliases := aliases; sw_locals := sw_locals s; sw_constants := sw_constants s;
                     sw_statistics := count_reuse (sw_statistics s); sw_retained := sw_retained s |}
         | None =>
             pret {| sw_aliases := sw_aliases s; sw_locals := sw_locals s;
                     sw_constants := (key, dst) :: sw_constants s;
                     sw_statistics := sw_statistics s; sw_retained := sw_retained s |}
         end) in
      do alias := pexpect (sw_aliases s !! temp dst) in
      pret (s, negb (bool_decide (alias = dst)))
  end.
Definition sweep_load (registers : gmap nat Ty) (s : Sweep) (dst : MirValue) (local : nat)
    : P (Sweep * bool) :=
  do fact := pexpect (sw_locals s !! local) in
  do r :=
    (match fact with
     | Some previous =>
         if same_annotation registers dst previous
         then do aliases := set_alias (sw_aliases s) dst previous in
              pret (aliases, count_copy (sw_statistics s), true)
         else pret (sw_aliases s, sw_statistics s, false)
     | None => pret (sw_aliases s, sw_statistics s, false)
     end) in
  let '(aliases, statistics, remove) := r in
  do alias := pexpect (aliases !! temp dst) in
  pret ({| sw_aliases := aliases; sw_locals := <[local := Some alias]> (sw_locals s);
           sw_constants := sw_constants s; sw_statistics := statistics; sw_retained := sw_retained s |},
        remove).
Definition sweep_store (definitions : list nat) (s : Sweep) (local : nat) (src : MirValue)
    : P (Sweep * bool) :=
  do once := defined_once definitions src in
  do _ := pexpect (sw_locals s !! local) in
  pret ({| sw_aliases := sw_aliases s;
           sw_locals := <[local := if once : bool then Some src else None]> (sw_locals s);
           sw_constants := sw_constants s; sw_statistics := sw_statistics s;
           sw_retained := sw_retained s |}, false).
Definition sweep_move (s : Sweep) (dst src : MirValue) : P (Sweep * bool) :=
  do aliases := set_alias (sw_aliases s) dst src in
  pret ({| sw_aliases := aliases; sw_locals := sw_locals s; sw_constants := sw_constants s;
           sw_statistics := count_copy (sw_statistics s); sw_retained := sw_retained s |}, true).

Definition sweep_arm (definitions : list nat) (registers : gmap nat Ty) (s : Sweep) (i : Instruction)
    : P (Sweep * bool) :=
  match i with
  | LoadConst dst c =>
      do once := defined_once definitions dst in
      if once : bool then sweep_const registers s dst c else pret (s, false)
  | LoadLocal dst local =>
      do once := defined_once definitions dst in
      if once : bool then sweep_load registers s dst local else pret (s, false)
  | StoreLocal local src => sweep_store definitions s local src
  | Move dst src =>
      do once := defined_once definitions dst in
      if negb once then pret (s, false)
      else
        do once := defined_once definitions src in
        if once && same_annotation registers dst src then sweep_move s dst src else pret (s, false)
  | _ => pret (s, false)
  end.

(** [locals.fill(None)] after a call. *)
Definition forget_locals (i : Instruction) (s : Sweep) : P Sweep :=
  if calls (effects i) then
    charge (length (sw_locals s)) ;;>
    pret {| sw_aliases := sw_aliases s; sw_locals := replicate (length (sw_locals s)) None;
            sw_constants := sw_constants s; sw_statistics := sw_statistics s;
            sw_retained := sw_retained s |}
  else pret s.
Definition retain_instruction (x : Instruction * Span * nat) (remove : bool) (s : Sweep) : Sweep :=
  if remove then s
  else {| sw_aliases := sw_aliases s; sw_locals := sw_locals s; sw_constants := sw_constants s;
          sw_statistics := sw_statistics s; sw_retained := sw_retained s ++ [x] |}.

Definition sweep_instruction (definitions : list nat) (registers : gmap nat Ty) (s : Sweep)
    (x : Instruction * Span * nat) : P Sweep :=
  let '(i, span, scope) := x in
  charge (1 + length (inputs i)) ;;>
  do i := rewrite_operands (sw_aliases s) i in
  do r := sweep_arm definitions registers s i in
  do s := forget_locals i (fst r) in
  pret (retain_instruction (i, span, scope) (snd r) s).

(** The state of the block loop. *)
Record CopyState : Type := {
  cp_aliases : list MirValue;
  cp_blocks : list BasicBlock;
  cp_outgoing : list (option Snapshot);
  cp_statistics : PassStatistics
}.
Definition columns (b : BasicBlock) : list (Instruction * Span * nat) :=
  zip (zip (instructions b) (instruction_spans b)) (instruction_scopes b).
Definition of_columns (b : BasicBlock) (l : list (Instruction * Span * nat)) : BasicBlock :=
  {| instructions := fst ∘ fst <$> l; instruction_spans := snd ∘ fst <$> l;
     instruction_scopes := snd <$> l; terminator := terminator b;
     terminator_span := terminator_span b; terminator_scope := terminator_scope b |}.

Definition sweep_block (f : MirFunction) (definitions : list nat) (predecessors : list (list nat))
    (s : CopyState) (index : nat) : P CopyState :=
  charge (length (locals f)) ;;>
  do snapshot := incoming_snapshot f predecessors (cp_outgoing s) index in
  do b := pexpect (cp_blocks s !! index) in
  do r := fold_each (sweep_instruction definitions (registers f))
            {| sw_aliases := cp_aliases s; sw_locals := snapshot; sw_constants := [];
               sw_statistics := cp_statistics s; sw_retained := [] |} (columns b) in
  do _ := pexpect (cp_outgoing s !! index) in
  pret {| cp_aliases := sw_aliases r;
          cp_blocks := <[index := of_columns b (sw_retained r)]> (cp_blocks s);
          cp_outgoing := <[index := Some (sw_locals r)]> (cp_outgoing s);
          cp_statistics := sw_statistics r |}.

(** ** Resolution of the aliases

    Every round of the loop charges the budget, so what is left of it bounds the
    rounds. *)
Fixpoint follow (fuel : nat) (aliases : list MirValue) (value : MirValue) : P MirValue :=
  do next := pexpect (aliases !! temp value) in
  if temp next =? temp value then pret value
  else
    match fuel with
    | O => λ _, Err PfOutOfFuel
    | S fuel => charge 1 ;;> follow fuel aliases next
    end.
Definition budget_left (w : Work) : nat := S (Z.to_nat (work_limit w - used w)).
Definition resolve_alias (aliases : list MirValue) (index : nat) : P (list MirValue) :=
  do value := pexpect (aliases !! index) in
  do value := (λ w, follow (budget_left w) aliases value w) in
  pret (<[index := value]> aliases).

(** The last loop. *)
Definition rewrite_retained (aliases : list MirValue) (i : Instruction) : P Instruction :=
  charge (1 + length (inputs i)) ;;> rewrite_operands aliases i.
Definition rewrite_terminator (aliases : list MirValue) (t : Terminator) : P Terminator :=
  do _ := (match terminator_input t with
           | Some v => do _ := pexpect (aliases !! temp v) in pret tt
           | None => pret tt
           end) in
  pret (rewrite_input (alias_of aliases) t).
Definition rewrite_block (aliases : list MirValue) (b : BasicBlock) : P BasicBlock :=
  do code := map_each (λ _ i, do i := rewrite_retained aliases i in pret (tt, i)) tt (instructions b) in
  charge 1 ;;>
  do t := (match terminator b with
           | Some t => do t := rewrite_terminator aliases t in pret (Some t)
           | None => pret None
           end) in
  pret {| instructions := snd code; instruction_spans := instruction_spans b;
          instruction_scopes := instruction_scopes b; terminator := t;
          terminator_span := terminator_span b; terminator_scope := terminator_scope b |}.

(** [aliases] before the sweep: every temporary stands for itself. *)
Definition identity_aliases (f : MirFunction) : list MirValue :=
  imap (λ index t, {| temp := index; value_ty := temp_ty t |}) (temps f).

Definition copies_function (statistics : PassStatistics) (f : MirFunction)
    : P (PassStatistics * MirFunction) :=
  charge (length (temps f)) ;;>
  do definitions := fold_each count_definition (replicate (length (temps f)) 0)
                      (concat (instructions <$> blocks f)) in
  do predecessors := fold_each block_predecessors (0, replicate (length (blocks f)) []) (blocks f) in
  do s := fold_each (sweep_block f definitions (snd predecessors))
            {| cp_aliases := identity_aliases f; cp_blocks := blocks f;
               cp_outgoing := replicate (length (blocks f)) None; cp_statistics := statistics |}
            (emission_order f) in
  do aliases := fold_each resolve_alias (cp_aliases s) (seq 0 (length (cp_aliases s))) in
  do bs := map_each (λ _ b, do b := rewrite_block aliases b in pret (tt, b)) tt (cp_blocks s) in
  pret (cp_statistics s, with_blocks f (snd bs)).

(** [copies::simplify] on the functions of a module. *)
Definition copies_simplify (statistics : PassStatistics) (functions : list MirFunction)
    : P (PassStatistics * list MirFunction) :=
  map_each copies_function statistics functions.
End Copies.

(** [t0 = p; x = t0; t1 = x; t2 = t1; t3 = 7; t4 = 7; return t2 + t4] in one block. *)
Section Sample.
#[local] Existing Instance no_contracts.
Definition i32_value (t : nat) : MirValue := {| temp := t; value_ty := VtI32 |}.
Definition copying_code : list Instruction :=
  [LoadLocal (i32_value 0) 0; StoreLocal 1 (i32_value 0); LoadLocal (i32_value 1) 1; Move (i32_value 2) (i32_value 1);
   LoadConst (i32_value 3) (KI32 7); LoadConst (i32_value 4) (KI32 7); Binary (i32_value 5) BoAdd (i32_value 2) (i32_value 4)].
Definition copying_block : BasicBlock :=
  {| instructions := copying_code; instruction_spans := replicate 7 {| start := 0; end_ := 0 |};
     instruction_scopes := replicate 7 0; terminator := Some (Return (Some (i32_value 5)));
     terminator_span := None; terminator_scope := Some 0 |}.
Definition copying : MirFunction :=
  {| registers := ∅; local_types := ∅; params := [{| param_name := "p"; param_ty := VtI32; param_local := 0 |}];
     return_type := VtI32;
     locals := [{| local_name := "p"; local_ty := VtI32 |}; {| local_name := "x"; local_ty := VtI32 |}];
     temps := replicate 6 {| temp_ty := VtI32 |}; blocks := [copying_block]; entry := 0;
     function_effects := Effect.union Effect.trap (Effect.union Effect.local_read Effect.local_write);
     debug_source := None; source_span := {| start := 0; end_ := 0 |};
     debug_locals := [{| dl_local := 0; dl_name := "p"; dl_span := {| start := 0; end_ := 0 |};
                         dl_ty := VtI32; dl_is_parameter := true |}];
     captured_bindings := []; lexical_scopes := [{| scope_parent := None; scope_local := None |}] |}.
Example copying_forwarded :
  match copies_simplify no_statistics [copying] default_work with
  | Ok (statistics, [f], _) =>
      copies_removed statistics = 2 ∧ constants_reused statistics = 1 ∧
      (instructions <$> blocks f !! 0)
      = Some [LoadLocal (i32_value 0) 0; StoreLocal 1 (i32_value 0); LoadConst (i32_value 3) (KI32 7);
              Binary (i32_value 5) BoAdd (i32_value 0) (i32_value 3)]
  | _ => False
  end.
Proof. vm_compute. auto. Qed.
End Sample.
