(* ===== verification/MirCopiesSound.v ===== *)
(** * Why copy propagation is sound

    The facts copy propagation collects about a function, stated independently of the
    order in which the pass finds them, and the proof that a function rewritten along
    such facts behaves as the original.  An alias equals the temporary it stands for
    wherever a route can read it; the argument is that a route on which the older
    temporary is written again has forgotten the newer one, so that no read of the
    newer one can follow. *)
From stdpp Require Import gmap.
From S2P Require Import Prelude Integer Scalar Payload RuntimeNumeric Contracts NumericProps Token.
From S2P Require Import Mir Pass MirSemantics MirVerify MirFlow MirPaths MirCopies.
Open Scope nat_scope.

Section Certificate.
Context `{CallContracts} (f : MirFunction).

(** [alias] maps a temporary to the one it was replaced by or to itself; [facts j k l]
    is the temporary local [l] equals at a point, [consts j k] the constants the block
    has loaded, [gone j k] whether the instruction was dropped. *)
Context (alias : nat → nat) (facts : nat → nat → nat → option nat)
        (consts : nat → nat → list (ConstantKey * nat)) (gone : nat → nat → bool).

(** All definitions of [t] are one. *)
Definition defined_once_at (t j k : nat) : Prop :=
  ∀ j' k' i, code f j' !! k' = Some i → t ∈ written i → j' = j ∧ k' = k.
Definition single (t : nat) : Prop :=
  ∀ j k i, code f j !! k = Some i → t ∈ written i → defined_once_at t j k.

(** The temporary itself or what stands for it. *)
Definition stands_for (s t : nat) : Prop := s = t ∨ s = alias t.

Definition dropped_ok (j k : nat) (i : Instruction) : Prop :=
  match i with
  | LoadConst dst c => ∃ key, constant_key c = Some key ∧ (key, alias (temp dst)) ∈ consts j k
  | LoadLocal dst l => facts j k l = Some (alias (temp dst))
  | Move dst src => stands_for (alias (temp dst)) (temp src)
  | _ => False
  end.
Definition fact_kept (j k : nat) (i : Instruction) (l s : nat) : Prop :=
  calls (effects i) = false ∧
  match i with
  | StoreLocal l' src => if decide (l' = l) then stands_for s (temp src) else facts j k l = Some s
  | LoadLocal dst l' => facts j k l = Some s ∨ (l' = l ∧ s = temp dst)
  | _ => facts j k l = Some s
  end.
Definition constant_kept (j k : nat) (i : Instruction) (key : ConstantKey) (s : nat) : Prop :=
  (key, s) ∈ consts j k ∨ ∃ dst c, i = LoadConst dst c ∧ s = temp dst ∧ constant_key c = Some key.

Record copy_facts : Prop := {
  cf_dropped j k i : code f j !! k = Some i → gone j k = true → dropped_ok j k i;
  cf_single j k i t : code f j !! k = Some i → gone j k = true → t ∈ written i → single t ∧ single (alias t);
  cf_facts j k i l s : code f j !! k = Some i → facts j (S k) l = Some s → single s ∧ fact_kept j k i l s;
  cf_consts j k i key s : code f j !! k = Some i → (key, s) ∈ consts j (S k) → single s ∧ constant_kept j k i key s;
  cf_edge b j l s : edge f b j → facts j 0 l = Some s → single s ∧ facts b (length (code f b)) l = Some s;
  cf_entry l : facts (entry f) 0 l = None;
  cf_start j : consts j 0 = [];
  cf_alias t : alias t ≠ t → ∃ j k i, code f j !! k = Some i ∧ t ∈ written i ∧ gone j k = true
}.
Context (Hcf : copy_facts).

Lemma written_single i t u : t ∈ written i → u ∈ written i → t = u.
Proof.
  unfold written. destruct (output i); cbn; [|by intros ?%elem_of_nil]. by intros ->%list_elem_of_singleton ->%list_elem_of_singleton.
Qed.
Lemma alias_single t : alias t ≠ t → single t ∧ single (alias t).
Proof. intros (j & k & i & Hi & Ht & Hg)%(cf_alias Hcf). by eapply (cf_single Hcf). Qed.
Lemma alias_dropped t j k i : alias t ≠ t → code f j !! k = Some i → t ∈ written i → gone j k = true ∧ dropped_ok j k i.
Proof.
  intros Ha Hi Ht. destruct (alias_single t Ha) as [Hs _]. destruct (cf_alias Hcf t Ha) as (j' & k' & i' & Hi' & Ht' & Hg).
  destruct (Hs _ _ _ Hi Ht _ _ _ Hi' Ht') as [-> ->]. split; [done|]. by apply (cf_dropped Hcf).
Qed.

(** ** On every route *)
Context (Hready : ready f).

(** What a route has written covers the aliases of what it has written, and the facts. *)
Record covered (W : list nat) (j k : nat) : Prop := {
  cv_alias t : t ∈ W → alias t ∈ W;
  cv_facts l s : facts j k l = Some s → s ∈ W;
  cv_consts key s : (key, s) ∈ consts j k → s ∈ W
}.
Lemma covered_dropped W j k i t : route f W j k → covered W j k → code f j !! k = Some i → dropped_ok j k i → t ∈ written i → alias t ∈ W.
Proof.
  intros Hr [Ha Hf Hc] Hi Hd Ht. destruct i; try done; cbn in Ht; apply list_elem_of_singleton in Ht as ->; cbn in Hd.
  - destruct Hd as (key & _ & Hin). by eapply Hc.
  - by eapply Hf.
  - assert (temp src ∈ W) as Hs. { apply (Hready W j k); [done|]. left. eexists. split; [done|]. cbn. left. }
    destruct Hd as [->| ->]; [done|by apply Ha].
Qed.
Lemma route_covered W j k : route f W j k → covered W j k.
Proof.
  induction 1 as [|W j k i Hr IH Hi|W j x Hr IH He].
  - split; [by intros t ?%elem_of_nil| |].
    + intros l s. by rewrite (cf_entry Hcf).
    + intros key s. rewrite (cf_start Hcf). by intros ?%elem_of_nil.
  - pose proof IH as [Ha Hf Hc]. split.
    + intros t. rewrite !elem_of_app. intros [Ht|Ht]; [|right; by apply Ha].
      destruct (decide (alias t = t)) as [->|Hne]; [by left|]. right.
      destruct (alias_dropped t j k i Hne Hi Ht) as [_ Hd]. by eapply covered_dropped.
    + intros l s Hs. destruct (cf_facts Hcf j k i l s Hi Hs) as [_ [_ Hk]]. rewrite elem_of_app.
      assert (∀ t, t ∈ temp <$> inputs i → t ∈ W) as Hin. { intros t Ht. apply (Hready W j k); [done|]. left. by exists i. }
      destruct i; try (right; by eapply Hf).
      * destruct Hk as [Hk|[-> ->]]; [right; by eapply Hf|]. left. cbn. left.
      * case_decide; [|right; by eapply Hf]. right. assert (temp src ∈ W) by (apply Hin; cbn; left). destruct Hk as [->| ->]; auto.
    + intros key s Hs. destruct (cf_consts Hcf j k i key s Hi Hs) as [_ [Hk|(dst & c & -> & -> & _)]]; rewrite elem_of_app; [right; by eapply Hc|left; cbn; left].
  - destruct IH as [Ha Hf Hc]. split; [done| |].
    + intros l s Hs. destruct (cf_edge Hcf j x l s He Hs) as [_ Hs']. by eapply Hf.
    + intros key s. rewrite (cf_start Hcf). by intros ?%elem_of_nil.
Qed.

Definition lacks (t j k : nat) : Prop := ∃ W, route f W j k ∧ t ∉ W.
Lemma lacks_alias t j k : lacks (alias t) j k → lacks t j k.
Proof. intros (W & Hr & Hn). exists W. split; [done|]. intros Ht. apply Hn. by eapply cv_alias; [apply route_covered|]. Qed.
Lemma reads_not_lack t j k : reads_at f j k t → ¬ lacks t j k.
Proof. intros Hrd (W & Hr & Hn). by apply Hn, (Hready W j k). Qed.
(** At its definition a temporary that is defined once is unwritten on some route. *)
Lemma definition_lacks W t j k i : route f W j k → code f j !! k = Some i → single t → t ∈ written i → lacks t j k.
Proof.
  intros Hr Hi Hs Ht. destruct (route_first f (written i ++ W) j (S k) t j k) as (W' & ? & ?); [by constructor|apply elem_of_app; by left|..|by exists W'].
  intros j' k' i' Hi' Ht'. by eapply Hs.
Qed.
Lemma fact_not_written W j k i l s : route f W j k → code f j !! k = Some i → facts j k l = Some s → single s → s ∉ written i.
Proof.
  intros Hr Hi Hf Hs Hw. destruct (definition_lacks W s j k i Hr Hi Hs Hw) as (W' & Hr' & Hn). apply Hn. by eapply cv_facts; [apply route_covered|].
Qed.
Lemma constant_not_written W j k i key s : route f W j k → code f j !! k = Some i → (key, s) ∈ consts j k → single s → s ∉ written i.
Proof.
  intros Hr Hi Hf Hs Hw. destruct (definition_lacks W s j k i Hr Hi Hs Hw) as (W' & Hr' & Hn). apply Hn. by eapply cv_consts; [apply route_covered|].
Qed.
(** On a route an instruction that goes has a real alias. *)
Lemma gone_alias W j k i t : route f W j k → code f j !! k = Some i → gone j k = true → t ∈ written i → alias t ≠ t.
Proof.
  intros Hr Hi Hg Ht Ha. destruct (cf_single Hcf _ _ _ _ Hi Hg Ht) as [Hs _].
  destruct (definition_lacks W t j k i Hr Hi Hs Ht) as (W' & Hr' & Hn). apply Hn. rewrite <- Ha.
  eapply covered_dropped; [done|by apply route_covered|done|by apply (cf_dropped Hcf)|done].
Qed.

(** ** Along a run *)
Section Runs.
Context `{FloatOps} {W : Type} `{!Host W} `{!HostSlots _}.
Implicit Types (s a b : MirState W).

(** What a finished instruction leaves in its destination and in the locals. *)
Lemma exec_written i a b t : exec i a = Finished b → t ∈ written i → is_Some (temp_values b !! t).
Proof.
  intros He Ht. unfold written in Ht. destruct (output i) as [dst|] eqn:Ho; cbn in Ht; [|by apply elem_of_nil in Ht].
  apply list_elem_of_singleton in Ht as ->. unfold exec in He. destruct (operands a i) as [vs|]; [|done]. cbn [obind from_option_stuck] in He.
  assert (∀ r a', publish_result i r a' = Finished b → is_Some (temp_values b !! temp dst)) as Hpub.
  { intros r a'. unfold publish_result. rewrite Ho. destruct r; [|done]. intros [= <-]. cbn. by rewrite lookup_insert_eq. }
  assert (match scalar_step i vs with
    | Some (Ok v) => publish_result i (Some v) a
    | Some (Err e) => Faulted e (world a)
    | None => match perform i vs (local_values a) (world a) with
              | Ok (r, locals, w) => publish_result i r {| temp_values := temp_values a; local_values := locals; world := w |}
              | Err (e, w) => Faulted e w
              end
    end = Finished b → is_Some (temp_values b !! temp dst)) as Hgen.
  { destruct (scalar_step i vs) as [[v|e]|]; [apply Hpub|done|]. destruct (perform i vs _ _) as [[[r ls] w]|[e w]]; [apply Hpub|done]. }
  destruct i; try exact (Hgen He); try done. cbn in Ho. injection Ho as ->. destruct (local_values a !! local); [|done]. cbn in He. injection He as <-.
  cbn. by rewrite lookup_insert_eq.
Qed.
Lemma exec_locals i a b l : exec i a = Finished b → calls (effects i) = false → (∀ src, i ≠ StoreLocal l src) →
  local_values b !! l = local_values a !! l.
Proof.
  intros He Hc Hl. unfold exec in He. destruct (operands a i) as [vs|]; [|done]. cbn [obind from_option_stuck] in He.
  assert (∀ r a', publish_result i r a' = Finished b → local_values b = local_values a') as Hpub.
  { intros r a'. unfold publish_result. destruct (output i), r; try done; intros [= <-]; done. }
  assert (match scalar_step i vs with
    | Some (Ok v) => publish_result i (Some v) a
    | Some (Err e) => Faulted e (world a)
    | None => match perform i vs (local_values a) (world a) with
              | Ok (r, locals, w) => publish_result i r {| temp_values := temp_values a; local_values := locals; world := w |}
              | Err (e, w) => Faulted e w
              end
    end = Finished b → local_values b !! l = local_values a !! l) as Hgen.
  { destruct (scalar_step i vs) as [[v|e]|]; [by intros ->%Hpub|done|].
    destruct (perform i vs _ _) as [[[r ls] w]|[e w]] eqn:Hp; [|done]. intros ->%Hpub. cbn. by rewrite (host_locals _ _ _ _ _ _ _ Hc Hp). }
  destruct i; try exact (Hgen He).
  - destruct (local_values a !! local); [|done]. cbn in He. by injection He as <-.
  - destruct vs as [|v [|]]; try done. injection He as <-. cbn. rewrite lookup_insert_ne; [done|]. intros ->. by eapply Hl.
Qed.
Lemma exec_const dst c a b : exec (LoadConst dst c) a = Finished b → temp_values b !! temp dst = Some (constant_value c).
Proof. cbn. intros [= <-]. cbn. by rewrite lookup_insert_eq. Qed.
Lemma exec_move dst src a b : exec (Move dst src) a = Finished b → temp_values b !! temp dst = temp_values a !! temp src ∧ is_Some (temp_values a !! temp src).
Proof.
  unfold exec, operands. cbn. unfold read_temp. destruct (temp_values a !! temp src) as [v|]; [|done]. cbn. intros [= <-]. cbn. by rewrite lookup_insert_eq.
Qed.
Lemma exec_load dst l a b : exec (LoadLocal dst l) a = Finished b → temp_values b !! temp dst = local_values a !! l ∧ is_Some (local_values a !! l).
Proof. cbn. destruct (local_values a !! l) as [v|]; [|done]. cbn. intros [= <-]. cbn. by rewrite lookup_insert_eq. Qed.
Lemma exec_store l src a b : exec (StoreLocal l src) a = Finished b → ∃ v, temp_values a !! temp src = Some v ∧ local_values b !! l = Some v.
Proof.
  unfold exec, operands. cbn. unfold read_temp. destruct (temp_values a !! temp src) as [v|]; [|done]. cbn. intros [= <-]. exists v. cbn. by rewrite lookup_insert_eq.
Qed.
Lemma key_constant c c' key : constant_key c = Some key → constant_key c' = Some key → c = c'.
Proof. destruct c, c'; cbn; intros ? ?; by simplify_eq. Qed.

(** The state of the original at a point reached along a route that wrote [D]. *)
Record tracked (D : list nat) (j k : nat) s : Prop := {
  tr_route : route f D j k;
  tr_present t : t ∈ D → is_Some (temp_values s !! t);
  tr_alias t : alias t ≠ t → temp_values s !! t = temp_values s !! alias t ∨ lacks t j k;
  tr_facts l t : facts j k l = Some t → ∃ v, local_values s !! l = Some v ∧ temp_values s !! t = Some v;
  tr_consts key t : (key, t) ∈ consts j k → ∃ c, constant_key c = Some key ∧ temp_values s !! t = Some (constant_value c)
}.

Lemma tracked_read D j k s t u : tracked D j k s → reads_at f j k t → stands_for u t → temp_values s !! u = temp_values s !! t.
Proof.
  intros Ht Hr [->| ->]; [done|]. destruct (decide (alias t = t)) as [->|Hne]; [done|].
  destruct (tr_alias _ _ _ _ Ht t Hne) as [|Hl]; [done|]. by apply reads_not_lack in Hl.
Qed.
Lemma tracked_dropped D j k i s b t : tracked D j k s → code f j !! k = Some i → gone j k = true → exec i s = Finished b → t ∈ written i →
  temp_values b !! t = temp_values s !! alias t.
Proof.
  intros Ht Hi Hg He Hw. pose proof (cf_dropped Hcf _ _ _ Hi Hg) as Hd. destruct i; try done; cbn in Hw; apply list_elem_of_singleton in Hw as ->; cbn in Hd.
  - destruct Hd as (key & Hk & Hin). destruct (tr_consts _ _ _ _ Ht _ _ Hin) as (c' & Hk' & ->). rewrite (key_constant _ _ _ Hk' Hk). by eapply exec_const.
  - destruct (tr_facts _ _ _ _ Ht _ _ Hd) as (v & Hl & ->). rewrite <- Hl. by eapply exec_load.
  - destruct (exec_move _ _ _ _ He) as [-> _]. symmetry. eapply tracked_read; [done| |done]. left. eexists. split; [done|]. cbn. left.
Qed.
Lemma tracked_step_alias D j k i s b t : tracked D j k s → code f j !! k = Some i → exec i s = Finished b → alias t ≠ t →
  temp_values b !! t = temp_values b !! alias t ∨ lacks t j (S k).
Proof.
  intros Ht Hi He Hne. pose proof (tr_route _ _ _ _ Ht) as Hr. destruct (alias_single t Hne) as [_ Hsa].
  assert (∀ u, u ∉ written i → temp_values b !! u = temp_values s !! u) as Hframe.
  { intros u Hu. eapply exec_frame; [done|]. intros dst Ho <-. apply Hu. unfold written. rewrite Ho. left. }
  destruct (decide (t ∈ written i)) as [Hw|Hw].
  - left. destruct (alias_dropped t j k i Hne Hi Hw) as [Hg _]. rewrite (tracked_dropped D j k i s b t Ht Hi Hg He Hw). symmetry. apply Hframe.
    intros Hw'. by apply Hne, (written_single i).
  - assert (∀ W', route f W' j k → t ∉ W' → lacks t j (S k)) as Hext.
    { intros W' Hr' Hn. exists (written i ++ W'). split; [by constructor|]. by rewrite elem_of_app; intros [|]. }
    destruct (decide (alias t ∈ written i)) as [Hwa|Hwa].
    + right. destruct (lacks_alias t j k (definition_lacks D (alias t) j k i Hr Hi Hsa Hwa)) as (W' & ? & ?). eauto.
    + rewrite !Hframe by done. destruct (tr_alias _ _ _ _ Ht t Hne) as [|(W' & ? & ?)]; [by left|right; eauto].
Qed.

Lemma tracked_step D j k i s b : tracked D j k s → code f j !! k = Some i → exec i s = Finished b → tracked (written i ++ D) j (S k) b.
Proof.
  intros Ht Hi He. pose proof (tr_route _ _ _ _ Ht) as Hr.
  assert (∀ u, u ∉ written i → temp_values b !! u = temp_values s !! u) as Hframe.
  { intros u Hu. eapply exec_frame; [done|]. intros dst Ho <-. apply Hu. unfold written. rewrite Ho. left. }
  split.
  - by constructor.
  - intros t Hin. destruct (decide (t ∈ written i)) as [Hw|Hw]; [by eapply exec_written|]. rewrite Hframe by done. apply (tr_present _ _ _ _ Ht).
    apply elem_of_app in Hin as [|]; done.
  - intros t. by eapply tracked_step_alias.
  - intros l t Hf. destruct (cf_facts Hcf j k i l t Hi Hf) as [Hs [Hc Hk]].
    assert (facts j k l = Some t → (∀ src, i ≠ StoreLocal l src) → ∃ v, local_values b !! l = Some v ∧ temp_values b !! t = Some v) as Hold.
    { intros Hfo Hns. rewrite (exec_locals i s b l He Hc Hns), Hframe by (by eapply fact_not_written). by apply (tr_facts _ _ _ _ Ht). }
    destruct i; try (by apply Hold).
    + destruct Hk as [Hk|[-> ->]]; [by apply Hold|]. destruct (exec_load _ _ _ _ He) as [Hv [v Hl]]. exists v. rewrite Hv, Hl. split; [|done].
      by rewrite (exec_locals _ s b l He Hc).
    + case_decide as Hd; [|apply Hold; [done|]; intros src' [= ? _]; done]. subst. destruct (exec_store _ _ _ _ He) as (v & Hv & Hl).
      exists v. split; [done|]. rewrite Hframe by (by apply not_elem_of_nil). rewrite <- Hv. eapply tracked_read; [done| |done]. left. eexists. split; [done|]. cbn. left.
  - intros key t Hin. destruct (cf_consts Hcf j k i key t Hi Hin) as [Hs [Hk|(dst & c & -> & -> & Hk)]].
    + rewrite Hframe by (by eapply constant_not_written). by apply (tr_consts _ _ _ _ Ht).
    + exists c. split; [done|]. by eapply exec_const.
Qed.
Lemma tracked_edge D j x s : tracked D j (length (code f j)) s → edge f j x → tracked D x 0 s.
Proof.
  intros [Hr Hp Ha Hf Hc] He. split; [by apply route_edge with j|done| | |].
  - intros t Hne. destruct (Ha t Hne) as [|(W' & ? & ?)]; [by left|right]. exists W'. split; [by apply route_edge with j|done].
  - intros l t [_ Hs]%(cf_edge Hcf j x l t He). by apply Hf.
  - intros key t. rewrite (cf_start Hcf). by intros ?%elem_of_nil.
Qed.

(** ** The rewritten function *)
(** The end of a chain of aliases. *)
Inductive root : nat → nat → Prop :=
| root_here t : alias t = t → root t t
| root_next t r : alias t ≠ t → root (alias t) r → root t r.
Lemma root_fixed t r : root t r → alias r = r.
Proof. by induction 1. Qed.
Lemma tracked_root D j k s t r : tracked D j k s → ¬ lacks t j k → root t r → temp_values s !! t = temp_values s !! r.
Proof.
  intros Ht Hn Hr. induction Hr as [|t r Hne _ IH]; [done|]. destruct (tr_alias _ _ _ _ Ht t Hne) as [->|]; [|done].
  apply IH. by intros ?%lacks_alias.
Qed.

Context (g : MirValue → MirValue).
Definition replaces (v : MirValue) : Prop := root (temp v) (temp (g v)) ∧ value_ty (g v) = value_ty v.
Context (Hg : ∀ j i v, i ∈ code f j → v ∈ inputs i → replaces v)
        (Hgt : ∀ j x v, term_at f j = Some x → terminator_input x = Some v → replaces v).

Fixpoint surviving (j k : nat) (l : list Instruction) : list Instruction :=
  match l with
  | [] => []
  | i :: l => if gone j k then surviving j (S k) l else rewrite_inputs g i :: surviving j (S k) l
  end.

Record linked (D : list nat) (j k : nat) a b : Prop := {
  li_tracked : tracked D j k a;
  li_host : same_host_state a b;
  li_roots t : alias t = t → temp_values a !! t = temp_values b !! t
}.

Lemma linked_read D j k a b v : linked D j k a b → reads_at f j k (temp v) → replaces v → read_temp b (g v) = read_temp a v.
Proof.
  intros [Ht _ Hroots] Hr [Hroot _]. unfold read_temp. rewrite (tracked_root _ _ _ _ _ _ Ht (reads_not_lack _ _ _ Hr) Hroot).
  symmetry. by apply Hroots, root_fixed with (temp v).
Qed.
(** A dropped instruction has an effect on aliases only. *)
Lemma linked_drop D j k i a b : linked D j k a b → code f j !! k = Some i → gone j k = true →
  ∃ a', exec i a = Finished a' ∧ linked (written i ++ D) j (S k) a' b.
Proof.
  intros [Ht Hh Hroots] Hi Hgo. pose proof (cf_dropped Hcf _ _ _ Hi Hgo) as Hd.
  assert (∃ dst v, output i = Some dst ∧ exec i a = Finished (set_temp dst v a)) as (dst & v & Ho & He).
  { destruct i; try done; cbn in Hd; exists dst.
    - eexists. by split.
    - destruct (tr_facts _ _ _ _ Ht _ _ Hd) as (v & Hl & _). exists v. split; [done|]. cbn. by rewrite Hl.
    - destruct (tr_present _ _ _ _ Ht (temp src)) as [v Hv].
      { apply (Hready D j k); [apply Ht|]. left. eexists. split; [done|]. cbn. left. }
      exists v. split; [done|]. unfold exec, operands. cbn. unfold read_temp. by rewrite Hv. }
  eexists. split; [done|]. split; [by eapply tracked_step|done|]. intros t Hroot. cbn. rewrite lookup_insert_ne; [by apply Hroots|].
  intros <-. eapply (gone_alias D j k i (temp dst)); [apply Ht|done|done| |done]. unfold written. rewrite Ho. cbn. left.
Qed.
Lemma linked_keep D j k i a b : linked D j k a b → code f j !! k = Some i →
  match exec i a, exec (rewrite_inputs g i) b with
  | Finished a', Finished b' => linked (written i ++ D) j (S k) a' b'
  | Faulted e w, Faulted e' w' => e = e' ∧ w = w'
  | Stuck, Stuck => True
  | _, _ => False
  end.
Proof.
  intros Hl Hi. pose proof (exec_rewrite g i a b (λ t, alias t = t)) as He. unfold alike in He.
  assert (∀ v, v ∈ inputs i → replaces v) as Hrep by (intros v; eapply Hg; by eapply list_elem_of_lookup_2).
  specialize (He ltac:(intros; apply host_names; intros v Hv; by apply Hrep) ltac:(intros v Hv; split; [eapply linked_read; [done| |by apply Hrep]; left; exists i; split; [done|by apply list_elem_of_fmap_2]|by apply Hrep])
    (li_host _ _ _ _ _ Hl) ltac:(intros t Hr; right; by eapply li_roots)).
  destruct (exec i a) as [a'| |] eqn:Hx, (exec (rewrite_inputs g i) b) as [b'| |]; try done.
  destruct He as [Hh Hroots]. split; [|done|done]. eapply tracked_step; [apply Hl|done|done].
Qed.
Lemma linked_code D j k a b : linked D j k a b → k ≤ length (code f j) →
  match exec_all (drop k (code f j)) a, exec_all (surviving j k (drop k (code f j))) b with
  | Finished a', Finished b' => ∃ D', linked D' j (length (code f j)) a' b'
  | Faulted e w, Faulted e' w' => e = e' ∧ w = w'
  | Stuck, Stuck => True
  | _, _ => False
  end.
Proof.
  intros Hl Hk. remember (length (code f j) - k) as d eqn:Hd. revert D k a b Hl Hk Hd. induction d as [|d IH]; intros D k a b Hl Hk Hd.
  - rewrite drop_ge by lia. cbn. exists D. by replace (length (code f j)) with k by lia.
  - destruct (lookup_lt_is_Some_2 (code f j) k) as [i Hi]; [lia|]. rewrite (drop_S _ _ _ Hi). cbn [exec_all surviving].
    destruct (gone j k) eqn:Hgo.
    + destruct (linked_drop D j k i a b Hl Hi Hgo) as (a' & -> & Hl'). cbn [obind]. eapply IH; [done|lia..].
    + pose proof (linked_keep D j k i a b Hl Hi) as Hs. cbn [exec_all].
      destruct (exec i a) as [a'| |], (exec (rewrite_inputs g i) b) as [b'| |]; try done. cbn [obind]. eapply IH; [done|lia..].
Qed.

Context (f' : MirFunction) (Hblocks : ∀ j x, blocks f !! j = Some x → ∃ y, blocks f' !! j = Some y
  ∧ instructions y = surviving j 0 (instructions x) ∧ terminator y = rewrite_input g <$> terminator x)
  (Hoff : ∀ j, blocks f !! j = None → blocks f' !! j = None).
Lemma copied_run n j D a b : linked D j 0 a b → same_result (run f n j a) (run f' n j b).
Proof.
  revert j D a b. induction n as [|n IH]; intros j D a b Hl; [split; [done|apply Hl]|]. cbn [run].
  destruct (blocks f !! j) as [x|] eqn:Hx; [|by rewrite (Hoff j Hx)]. destruct (Hblocks j x Hx) as (x' & -> & Hins & Hterm). cbn [obind from_option_stuck].
  unfold run_block. rewrite Hins, Hterm. assert (code f j = instructions x) as Hcode by (unfold code; by rewrite Hx).
  pose proof (linked_code D j 0 a b Hl ltac:(lia)) as Hall. rewrite drop_0, Hcode in Hall.
  destruct (exec_all (instructions x) a) as [a'| |], (exec_all (surviving j 0 (instructions x)) b) as [b'| |]; try done. cbn [obind].
  destruct Hall as [D' Hl']. destruct (terminator x) as [t|] eqn:Ht; [|done]. cbn [fmap option_fmap option_map from_option_stuck obind].
  assert (term_at f j = Some t) as Hta by (unfold term_at; rewrite Hx; done).
  pose proof (exec_terminator_rewrite g t a' b') as He.
  specialize (He ltac:(intros v Hv; eapply linked_read; [done| |by eapply Hgt]; right; rewrite Hcode; split; [done|]; exists t; split; [done|];
    unfold term_reads; rewrite Hv; cbn; left)).
  destruct (exec_terminator t a') as [[y s1|v s1|s1]| |], (exec_terminator (rewrite_input g t) b') as [[y' s2|v' s2|s2]| |]; try done; cbn [obind].
  - destruct He as (<- & -> & -> & Hy). eapply (IH y D'). destruct Hl' as [Ht' Hh Hroots]. split; [|done|done].
    rewrite <- Hcode in Ht'. eapply tracked_edge; [done|]. by exists x, t.
  - destruct He as (<- & -> & ->). split; [done|apply Hl'].
  - destruct He as (-> & ->). apply Hl'.
Qed.
Lemma linked_start s : linked [] (entry f) 0 s s.
Proof.
  split; [|done|done]. split; [constructor|by intros t ?%elem_of_nil| | |].
  - intros t _. right. exists []. split; [constructor|apply not_elem_of_nil].
  - intros l t. by rewrite (cf_entry Hcf).
  - intros key t. rewrite (cf_start Hcf). by intros ?%elem_of_nil.
Qed.
End Runs.
End Certificate.
