(* ===== verification/MirCopiesProps.v ===== *)
(** * Copy propagation preserves behaviour

    The sweep of [MirCopies] finds facts of the kind [MirCopiesSound] asks for,
    resolution ends at the root of every alias chain, and so the rewritten function
    behaves as the original. *)
From stdpp Require Import gmap.
From S2P Require Import Prelude Integer Scalar Payload RuntimeNumeric Contracts NumericProps Token.
From S2P Require Import Mir Pass MirSemantics MirVerify MirFlow MirPaths MirCopies MirCopiesSound.
Open Scope nat_scope.

(** ** Shape *)
Section Shape.
Context `{CallContracts}.

(** What the renaming passes need of the function they are given. *)
Record instruction_shaped (f : MirFunction) (i : Instruction) : Prop := {
  sh_inputs v : v ∈ inputs i → value_fits f v;
  sh_output dst : output i = Some dst → value_fits f dst;
  sh_local : match i with LoadLocal _ l | StoreLocal l _ => l < length (locals f) | _ => True end;
  sh_const : match i with LoadConst dst c => value_ty dst = constant_type c | _ => True end;
  sh_binary : match i with Binary _ op l r => lower_binary_op op ≠ None | _ => True end
}.
Record block_shaped (f : MirFunction) (b : BasicBlock) : Prop := {
  sb_instructions i : i ∈ instructions b → instruction_shaped f i;
  sb_terminator : ∃ t, terminator b = Some t ∧ (∀ x, x ∈ successors t → x < length (blocks f))
                  ∧ ∀ v, terminator_input t = Some v → value_fits f v;
  sb_columns : length (instruction_spans b) = length (instructions b)
               ∧ length (instruction_scopes b) = length (instructions b)
}.
Record shaped (f : MirFunction) : Prop := {
  sh_entry : entry f < length (blocks f);
  sh_blocks b : b ∈ blocks f → block_shaped f b
}.
Lemma verified_shaped other f : succeeds (verify_body other f) tt → shaped f.
Proof.
  intros (He & _ & Hb)%verify_body_sound. split; [done|]. intros b [Hi (t & Ht & [Hs Hv _]) Hc _]%Hb. split; [|by exists t|done].
  intros i [Hin Hout Hop]%Hi. split; [done..| | |]; destruct i; try done.
  - apply succeeds_bind in Hop as (ty & Hl & _). by eapply succeeds_local.
  - apply succeeds_bind in Hop as (ty & Hl & _). by eapply succeeds_local.
  - by apply succeeds_expect_type in Hop.
  - apply succeeds_bind in Hop as (ty & Hr%succeeds_contract & _). destruct op; try done; cbn in Hr; by destruct (expect_type _ _ _).
Qed.
Lemma value_fits_eq f u v : value_fits f u → value_fits f v → temp u = temp v → u = v.
Proof. intros (t & Ht & Hu) (t' & Ht' & Hv) Heq. destruct u, v; cbn in *. subst. rewrite Ht in Ht'. by simplify_eq. Qed.

Section Code.
Context (f : MirFunction) (Hf : shaped f).
Lemma code_shaped j i : i ∈ code f j → instruction_shaped f i.
Proof.
  unfold code. destruct (blocks f !! j) as [b|] eqn:Hb; [|by intros ?%elem_of_nil]. cbn. apply (sh_blocks _ Hf). by eapply list_elem_of_lookup_2.
Qed.
Lemma written_lt j k i t : code f j !! k = Some i → t ∈ written i → t < length (temps f).
Proof.
  intros Hi Ht. unfold written in Ht. destruct (output i) as [dst|] eqn:Ho; cbn in Ht; [|by apply elem_of_nil in Ht].
  apply list_elem_of_singleton in Ht as ->. destruct (sh_output _ _ (code_shaped j i (list_elem_of_lookup_2 _ _ _ Hi)) dst Ho) as (mt & Hmt & _).
  by eapply lookup_lt_Some.
Qed.
End Code.
End Shape.

(** ** Counting definitions *)
Section Counting.
Context `{CallContracts}.

Definition occurrences (t : nat) (l : list Instruction) : nat := length (filter (λ i, t ∈ written i) l).
Lemma occurrences_app t l1 l2 : occurrences t (l1 ++ l2) = occurrences t l1 + occurrences t l2.
Proof. unfold occurrences. by rewrite list.filter_app, length_app. Qed.
Lemma occurrences_pos t l k i : l !! k = Some i → t ∈ written i → 1 ≤ occurrences t l.
Proof.
  intros Hi Ht. unfold occurrences. assert (i ∈ filter (λ i, t ∈ written i) l) as Hin by (apply list_elem_of_filter; split; [done|by eapply list_elem_of_lookup_2]).
  destruct (filter _ l); [by apply elem_of_nil in Hin|cbn; lia].
Qed.
Lemma occurrences_unique t l k k' i i' : occurrences t l ≤ 1 → l !! k = Some i → t ∈ written i → l !! k' = Some i' → t ∈ written i' → k = k'.
Proof.
  revert k k'. induction l as [|x l IH]; intros k k' Ho Hi Ht Hi' Ht'; [done|].
  change (x :: l) with ([x] ++ l) in Ho. rewrite occurrences_app in Ho.
  destruct k as [|k], k' as [|k']; cbn in Hi, Hi'; simplify_eq; [done|..].
  - pose proof (occurrences_pos t l k' i' Hi' Ht'). pose proof (occurrences_pos t [i] 0 i eq_refl Ht). lia.
  - pose proof (occurrences_pos t l k i Hi Ht). pose proof (occurrences_pos t [i'] 0 i' eq_refl Ht'). lia.
  - f_equal. apply IH; [lia|done..].
Qed.
Lemma occurrences_nested t (ll : list (list Instruction)) j k j' k' l l' i i' : occurrences t (concat ll) ≤ 1 →
  ll !! j = Some l → l !! k = Some i → t ∈ written i → ll !! j' = Some l' → l' !! k' = Some i' → t ∈ written i' → j = j' ∧ k = k'.
Proof.
  revert j j'. induction ll as [|x ll IH]; intros j j' Ho Hl Hi Ht Hl' Hi' Ht'; [done|]. cbn [concat] in Ho. rewrite occurrences_app in Ho.
  assert (∀ j l k i, ll !! j = Some l → l !! k = Some i → t ∈ written i → 1 ≤ occurrences t (concat ll)) as Hdeep.
  { clear. induction ll as [|y ll IH]; intros j l k i Hl Hi Ht; [done|]. cbn [concat]. rewrite occurrences_app. destruct j as [|j]; cbn in Hl.
    - simplify_eq. pose proof (occurrences_pos _ _ _ _ Hi Ht). lia.
    - specialize (IH _ _ _ _ Hl Hi Ht). lia. }
  destruct j as [|j], j' as [|j']; cbn in Hl, Hl'; simplify_eq.
  - split; [done|]. eapply occurrences_unique; [|done..]. lia.
  - pose proof (Hdeep _ _ _ _ Hl' Hi' Ht'). pose proof (occurrences_pos _ _ _ _ Hi Ht). lia.
  - pose proof (Hdeep _ _ _ _ Hl Hi Ht). pose proof (occurrences_pos _ _ _ _ Hi' Ht'). lia.
  - destruct (IH j j') as [-> ->]; [lia|done..|done].
Qed.

Definition counted (f : MirFunction) (definitions : list nat) : Prop :=
  length definitions = length (temps f) ∧ ∀ t c, definitions !! t = Some c → c = occurrences t (concat (instructions <$> blocks f)).
Lemma counted_single f definitions t : counted f definitions → definitions !! t = Some 1 → single f t.
Proof.
  intros [_ Hc] H1%Hc j k i Hi Ht j' k' i' Hi' Ht'. unfold code in *.
  destruct (blocks f !! j) as [b|] eqn:Hb, (blocks f !! j') as [b'|] eqn:Hb'; cbn in *; try done.
  eapply (occurrences_nested t (instructions <$> blocks f)); [lia|..]; try done; rewrite list_lookup_fmap; [by rewrite Hb'|by rewrite Hb].
Qed.
Lemma prun_definitions f : shaped f →
  prun (fold_each count_definition (replicate (length (temps f)) 0) (concat (instructions <$> blocks f))) (counted f).
Proof.
  intros Hf. eapply prun_mono; [apply (prun_fold_each _ _ (λ p ds, length ds = length (temps f) ∧ ∀ t c, ds !! t = Some c → c = occurrences t p))|done].
  - rewrite length_replicate. split; [done|]. by intros t c [-> _]%lookup_replicate.
  - intros p x q ds Hl [Hlen Hc]. apply prun_charge_bind.
    assert (∀ dst, output x = Some dst → temp dst < length (temps f)) as Hlt.
    { intros dst Ho. assert (x ∈ concat (instructions <$> blocks f)) as Hx by (rewrite Hl; set_solver).
      apply list_elem_of_In, in_concat in Hx as (l & Hll & Hx). apply list_elem_of_In in Hll, Hx. apply list_elem_of_fmap in Hll as (b & -> & Hb).
      destruct (sh_output _ _ (sb_instructions _ _ (sh_blocks _ Hf b Hb) x Hx) dst Ho) as (mt & Hmt & _). by eapply lookup_lt_Some. }
    assert (∀ t, occurrences t (p ++ [x]) = occurrences t p + (if decide (t ∈ written x) then 1 else 0)) as Hsnoc.
    { intros t. rewrite occurrences_app. f_equal. unfold occurrences. rewrite list.filter_cons, list.filter_nil. by case_decide. }
    unfold written in Hsnoc. destruct (output x) as [dst|] eqn:Ho; cbn in Hsnoc.
    + unfold bump. destruct (lookup_lt_is_Some_2 ds (temp dst)) as [c Hcd]; [rewrite Hlen; by apply Hlt|]. apply prun_bind. eapply prun_expect; [done|].
      apply prun_ret. split; [by rewrite length_insert|]. intros t c'. rewrite Hsnoc. rewrite list_lookup_insert_Some.
      intros [(<- & <- & _)|[Hne Ht]].
      * rewrite decide_True by left. rewrite <- (Hc _ _ Hcd). lia.
      * rewrite decide_False by (by intros ->%list_elem_of_singleton). rewrite (Hc _ _ Ht). lia.
    + apply prun_ret. split; [done|]. intros t c Ht. rewrite Hsnoc, decide_False by apply not_elem_of_nil. rewrite (Hc _ _ Ht). lia.
Qed.
End Counting.

(** ** Predecessors *)
Section Predecessors.
Context `{CallContracts}.

Definition listed (preds : list (list nat)) (b j : nat) : Prop := ∃ ps, preds !! j = Some ps ∧ b ∈ ps.
Definition joined (f : MirFunction) (preds : list (list nat)) : Prop :=
  length preds = length (blocks f) ∧ ∀ b j, listed preds b j ↔ edge f b j.

Lemma prun_count_predecessors n index preds l : length preds = n → (∀ x, x ∈ l → x < n) →
  prun (fold_each (count_predecessor index) preds l)
    (λ preds', length preds' = n ∧ ∀ b j, listed preds' b j ↔ listed preds b j ∨ (b = index ∧ j ∈ l)).
Proof.
  intros Hlen Hl. apply (prun_fold_each _ _ (λ q preds', length preds' = n ∧ ∀ b j, listed preds' b j ↔ listed preds b j ∨ (b = index ∧ j ∈ q))).
  - split; [done|]. intros b j. rewrite elem_of_nil. tauto.
  - intros p x q preds' Hq [Hlen' Hi]. apply prun_charge_bind, prun_bind. destruct (lookup_lt_is_Some_2 preds' x) as [ps Hps].
    { rewrite Hlen'. apply Hl. rewrite Hq. set_solver. }
    eapply prun_expect; [done|]. apply prun_ret. split; [by rewrite length_insert|]. intros b j. rewrite elem_of_app, list_elem_of_singleton.
    destruct (decide (j = x)) as [->|Hne].
    + unfold listed at 1. rewrite list_lookup_insert_eq by (by eapply lookup_lt_Some). specialize (Hi b x). unfold listed in Hi at 1. rewrite Hps in Hi. split.
      * intros (ps' & [= <-] & Hin). apply elem_of_app in Hin as [Hin|Hin%list_elem_of_singleton]; [|tauto]. destruct (proj1 Hi) as [|[]]; eauto.
      * intros Hor. exists (ps ++ [index]). split; [done|]. rewrite elem_of_app, list_elem_of_singleton. destruct Hor as [Ho|[-> _]]; [|by right]. left.
        destruct (proj2 Hi (or_introl Ho)) as (ps' & [= <-] & ?). done.
    + unfold listed at 1. rewrite list_lookup_insert_ne by done. specialize (Hi b j). unfold listed in Hi at 1. rewrite Hi. naive_solver.
Qed.
Lemma prun_predecessors f : shaped f →
  prun (fold_each block_predecessors (0, replicate (length (blocks f)) []) (blocks f)) (λ r, joined f (snd r)).
Proof.
  intros Hf. eapply prun_mono; [apply (prun_fold_each _ _ (λ p s, fst s = length p ∧ length (snd s) = length (blocks f)
    ∧ ∀ b j, listed (snd s) b j ↔ b < length p ∧ edge f b j))|].
  - cbn. rewrite length_replicate. split_and!; [done..|]. intros b j. split; [|lia]. intros (ps & [-> _]%lookup_replicate & Hin). by apply elem_of_nil in Hin.
  - intros p x q [index preds] Hl (Hidx & Hlen & Hi). cbn [fst snd] in *. subst index. unfold block_predecessors. cbn [fst snd].
    assert (blocks f !! length p = Some x) as Hx by (rewrite Hl; by rewrite list_lookup_middle).
    destruct (sb_terminator _ _ (sh_blocks _ Hf x ltac:(by eapply list_elem_of_lookup_2))) as (t & Ht & Hs & _). rewrite Ht.
    apply prun_bind. eapply prun_mono; [by apply prun_count_predecessors|]. intros preds' [Hlen' Hi']. apply prun_ret. cbn [fst snd]. split_and!; [rewrite length_app; cbn; lia|done|].
    intros b j. rewrite Hi', Hi, length_app. cbn. split.
    + intros [[? ?]|[-> Hj]]; [split; [lia|done]|]. split; [lia|]. by exists x, t.
    + intros [Hb He]. destruct (decide (b < length p)) as [|Hge]; [by left|right]. assert (b = length p) as -> by lia. split; [done|].
      destruct He as (x' & t' & ? & ? & ?). by simplify_eq.
  - intros s (_ & Hlen & Hi). split; [done|]. intros b j. rewrite Hi. split; [tauto|]. intros He. split; [|done].
    destruct He as (x & t & Hx & _). by eapply lookup_lt_Some.
Qed.
End Predecessors.

(** ** One instruction of the sweep *)
Record Note : Type := { nt_facts : nat → option nat; nt_consts : list (ConstantKey * nat); nt_gone : bool }.

Section Sweeping.
Context `{CallContracts} (f : MirFunction) (Hf : shaped f) (definitions : list nat) (Hd : counted f definitions).

Definition alias_fun (a : list MirValue) (t : nat) : nat := match a !! t with Some v => temp v | None => t end.
Definition aliases_fit (a : list MirValue) : Prop :=
  length a = length (temps f) ∧ ∀ t v, a !! t = Some v → value_fits f v ∧ ∃ mt, temps f !! t = Some mt ∧ value_ty v = temp_ty mt.
Definition snapshot_facts (L : list (option MirValue)) (l : nat) : option nat := temp <$> (L !! l ≫= id).
Definition table_consts (C : list (ConstantKey * option Ty * MirValue)) : list (ConstantKey * nat) :=
  (λ e, (fst (fst e), temp (snd e))) <$> C.
Definition key_type (key : ConstantKey) : ValueType :=
  match key with
  | CkUnit => VtUnit | CkBool _ => VtBool | CkI32 _ => VtI32 | CkI64 _ => VtI64 | CkU64 _ => VtU64
  | CkF32 _ => VtF32 | CkF64 _ => VtF64 | CkChar _ => VtChar
  end.
Lemma constant_key_type c key : constant_key c = Some key → constant_type c = key_type key.
Proof. destruct c; cbn; by intros [= <-]. Qed.

(** Note [n] of a point and [n'] of the next one fit the instruction between them. *)
Definition point_ok (alias : nat → nat) (n n' : Note) (i : Instruction) : Prop :=
  (nt_gone n = true → dropped_ok alias (λ _ _, nt_facts n) (λ _ _, nt_consts n) 0 0 i ∧ ∀ t, t ∈ written i → single f t ∧ single f (alias t))
  ∧ (∀ l s, nt_facts n' l = Some s → single f s ∧ fact_kept alias (λ _ _, nt_facts n) 0 0 i l s)
  ∧ (∀ key s, (key, s) ∈ nt_consts n' → single f s ∧ constant_kept (λ _ _, nt_consts n) 0 0 i key s).

(** The alias of [T] members may change, from themselves. *)
Definition grows (T : nat → Prop) (alias alias' : nat → nat) : Prop := ∀ u, alias' u = alias u ∨ (T u ∧ alias u = u).
Lemma stands_for_grows T alias alias' s u : grows T alias alias' → stands_for alias s u → stands_for alias' s u.
Proof. intros Hg [->| ->]; [by left|]. destruct (Hg u) as [<-|[_ ->]]; [by right|by left]. Qed.
Lemma point_ok_grows T alias alias' n n' i : grows T alias alias' → (nt_gone n = true → ∀ t, t ∈ written i → ¬ T t) →
  point_ok alias n n' i → point_ok alias' n n' i.
Proof.
  intros Hg Hn (Hdr & Hfa & Hco). split_and!; [|intros l s Hs; destruct (Hfa l s Hs) as [? [? Hk]]; split; [done|]; split; [done|]|done].
  - intros Hgo. destruct (Hdr Hgo) as [Hd1 Hs]. assert (∀ t, t ∈ written i → alias' t = alias t) as Heq.
    { intros t Ht. destruct (Hg t) as [|[HT _]]; [done|]. by destruct (Hn Hgo t Ht). }
    split; [|intros t Ht; rewrite Heq by done; by apply Hs].
    destruct i; try done; cbn in *; rewrite Heq by left; try done. by eapply stands_for_grows.
  - destruct i; try done. case_decide; [|done]. by eapply stands_for_grows.
Qed.

Definition locals_ok (L : list (option MirValue)) : Prop :=
  length L = length (locals f) ∧ ∀ l v, L !! l = Some (Some v) → value_fits f v ∧ single f (temp v).
Definition consts_ok (C : list (ConstantKey * option Ty * MirValue)) : Prop :=
  ∀ key ty v, (key, ty, v) ∈ C → value_fits f v ∧ single f (temp v) ∧ value_ty v = key_type key.
Record sweep_ok (s : Sweep) : Prop := {
  so_aliases : aliases_fit (sw_aliases s);
  so_locals : locals_ok (sw_locals s);
  so_consts : consts_ok (sw_constants s)
}.
Definition note_of (s : Sweep) (g : bool) : Note :=
  {| nt_facts := snapshot_facts (sw_locals s); nt_consts := table_consts (sw_constants s); nt_gone := g |}.

Lemma snapshot_facts_Some L l t : snapshot_facts L l = Some t ↔ ∃ v, L !! l = Some (Some v) ∧ t = temp v.
Proof. unfold snapshot_facts. destruct (L !! l) as [[v|]|]; cbn; naive_solver. Qed.
Lemma table_consts_elem C key t : (key, t) ∈ table_consts C ↔ ∃ ty v, (key, ty, v) ∈ C ∧ t = temp v.
Proof.
  unfold table_consts. rewrite list_elem_of_fmap. split.
  - intros ([[k ty] v] & [= -> ->] & Hin). eauto.
  - intros (ty & v & Hin & ->). by exists (key, ty, v).
Qed.
Lemma locals_fact L l t : locals_ok L → snapshot_facts L l = Some t → single f t.
Proof. intros [_ HL] (v & Hv & ->)%snapshot_facts_Some. by eapply HL. Qed.
Lemma consts_fact C key t : consts_ok C → (key, t) ∈ table_consts C → single f t.
Proof. intros HC (ty & v & Hin & ->)%table_consts_elem. by eapply HC. Qed.

Lemma alias_of_fun a v : temp (alias_of a v) = alias_fun a (temp v).
Proof. unfold alias_of, alias_fun. by destruct (a !! temp v). Qed.
Lemma alias_of_fit a v : aliases_fit a → value_fits f v → value_fits f (alias_of a v) ∧ value_ty (alias_of a v) = value_ty v.
Proof.
  intros [Hlen Ha] Hv. unfold alias_of. destruct (a !! temp v) as [u|] eqn:Hu; [|done]. destruct (Ha _ _ Hu) as (Hfu & mt & Hmt & Hty). split; [done|].
  destruct Hv as (mt' & Hmt' & ->). by simplify_eq.
Qed.
Lemma alias_lookup a v : aliases_fit a → value_fits f v → a !! temp v = Some (alias_of a v).
Proof.
  intros [Hlen _] (mt & Hmt & _). unfold alias_of. destruct (lookup_lt_is_Some_2 a (temp v)) as [u ->]; [|done]. rewrite Hlen. by eapply lookup_lt_Some.
Qed.
Lemma alias_fun_insert a t v u : t < length a → alias_fun (<[t := v]> a) u = if decide (u = t) then temp v else alias_fun a u.
Proof. intros Ht. unfold alias_fun. case_decide as Hu; [subst; by rewrite list_lookup_insert_eq|by rewrite list_lookup_insert_ne]. Qed.
Lemma aliases_fit_insert a dst v : aliases_fit a → value_fits f dst → value_fits f v → value_ty v = value_ty dst → aliases_fit (<[temp dst := v]> a).
Proof.
  intros [Hlen Ha] (mt & Hmt & Hdt) Hv Hty. split; [by rewrite length_insert|]. intros t u. rewrite list_lookup_insert_Some. intros [(<- & <- & _)|[_ Hu]]; [|by apply Ha].
  split; [done|]. exists mt. split; [done|]. congruence.
Qed.
Lemma prun_rewrite_operands a i : aliases_fit a → (∀ v, v ∈ inputs i → value_fits f v) →
  prun (rewrite_operands a i) (λ r, r = rewrite_inputs (alias_of a) i).
Proof.
  intros Ha Hv. apply prun_bind. eapply prun_mono; [apply (prun_fold_each _ _ (λ _ _, True)); [done|]|intros ? _; by apply prun_ret].
  intros p x q s Hl _. apply prun_bind. eapply prun_expect; [apply alias_lookup; [done|]|by apply prun_ret]. apply Hv. rewrite Hl. apply elem_of_app. right. left.
Qed.
Lemma prun_defined_once v : value_fits f v → prun (defined_once definitions v) (λ c, c = true → single f (temp v)).
Proof.
  intros (mt & Hmt & _). unfold defined_once. destruct (lookup_lt_is_Some_2 definitions (temp v)) as [c Hc]; [rewrite (proj1 Hd); by eapply lookup_lt_Some|].
  apply prun_bind. eapply prun_expect; [done|]. apply prun_ret. intros ->%Nat.eqb_eq. by eapply counted_single.
Qed.
Lemma prun_set_alias a dst v : aliases_fit a → value_fits f dst → prun (set_alias a dst v) (λ a', a' = <[temp dst := v]> a).
Proof. intros Ha Hdst. apply prun_bind. eapply prun_expect; [by apply alias_lookup|]. by apply prun_ret. Qed.

(** What an arm promises of the original instruction [i]. *)
Record armed (s : Sweep) (i : Instruction) (r : Sweep * bool) : Prop := {
  ar_ok : sweep_ok (fst r);
  ar_retained : sw_retained (fst r) = sw_retained s;
  ar_grows : grows (λ t, snd r = true ∧ t ∈ written i) (alias_fun (sw_aliases s)) (alias_fun (sw_aliases (fst r)));
  ar_point : calls (effects i) = false → point_ok (alias_fun (sw_aliases (fst r))) (note_of s (snd r)) (note_of (fst r) false) i;
  ar_call : calls (effects i) = true → fst r = s ∧ snd r = false
}.
Definition fresh (s : Sweep) (i : Instruction) : Prop := ∀ t, t ∈ written i → single f t → alias_fun (sw_aliases s) t = t.

Lemma armed_skip s i : sweep_ok s → match i with StoreLocal _ _ => False | _ => True end → armed s i (s, false).
Proof.
  intros Hs Hi. split; [done|done|by left| |done]. intros Hc. split_and!; [done| |]; cbn.
  - intros l t Ht. split; [by eapply locals_fact; [apply Hs|]|]. split; [done|]. destruct i; try done. by left.
  - intros key t Ht. split; [by eapply consts_fact; [apply Hs|]|]. by left.
Qed.
Lemma find_constant_elem key C v : find_constant key C = Some v → (key, v) ∈ C.
Proof.
  unfold find_constant. destruct (list_find _ C) as [[k [key' v']]|] eqn:E; [|done]. cbn. intros [= <-].
  apply list_find_Some in E as (Hk & Heq & _). cbn in Heq. subst. by eapply list_elem_of_lookup_2.
Qed.
Lemma armed_const s dst c : sweep_ok s → instruction_shaped f (LoadConst dst c) → fresh s (LoadConst dst c) → single f (temp dst) →
  prun (sweep_const (registers f) s dst c) (armed s (LoadConst dst c)).
Proof.
  intros Hs [_ Hout _ Hty _] Hfr Hsi. unfold sweep_const. destruct (constant_key c) as [key|] eqn:Hkey; [|apply prun_ret; by apply armed_skip].
  specialize (Hout dst eq_refl). specialize (Hfr (temp dst) ltac:(cbn; left) Hsi). pose proof Hs as [Ha HL HC]. rewrite (constant_key_type _ _ Hkey) in Hty.
  destruct (find_constant _ _) as [previous|] eqn:Hfind; cbn [mbind].
  - apply find_constant_elem in Hfind. destruct (HC _ _ _ Hfind) as (Hpf & Hps & Hpt).
    apply prun_bind, prun_bind. eapply prun_mono; [by apply prun_set_alias|]. intros a' ->. apply prun_ret. cbn [sw_aliases].
    assert (aliases_fit (<[temp dst := previous]> (sw_aliases s))) as Ha' by (apply aliases_fit_insert; [done..|congruence]).
    apply prun_bind. assert (temp dst < length (sw_aliases s)) as Hlt by (eapply lookup_lt_Some; by apply alias_lookup).
    eapply prun_expect; [by apply list_lookup_insert_eq|]. apply prun_ret. set (g := negb (bool_decide (previous = dst))).
    assert (∀ u, alias_fun (<[temp dst := previous]> (sw_aliases s)) u = if decide (u = temp dst) then temp previous else alias_fun (sw_aliases s) u) as Hal
      by (intros; by apply alias_fun_insert).
    split; cbn [fst snd sw_aliases sw_retained]; [by split|done| | |done].
    + intros u. rewrite Hal. case_decide as Hu; [subst u|by left]. destruct g eqn:Hg.
      * right. split; [split; [done|cbn; left]|done].
      * left. rewrite Hfr. unfold g in Hg. apply negb_false_iff, bool_decide_eq_true in Hg. by subst.
    + intros _. split_and!; cbn.
      * intros _. rewrite Hal, decide_True by done. split.
        { exists key. split; [done|]. apply table_consts_elem. eauto. }
        intros t ->%list_elem_of_singleton. rewrite Hal, decide_True by done. done.
      * intros l t Ht. split; [by eapply locals_fact|done].
      * intros k t Ht. split; [by eapply consts_fact|by left].
  - apply prun_bind, prun_ret. cbn [sw_aliases]. apply prun_bind. eapply prun_expect; [by apply alias_lookup|]. apply prun_ret.
    assert (alias_of (sw_aliases s) dst = dst) as ->.
    { eapply value_fits_eq; [by eapply alias_of_fit|done|]. by rewrite alias_of_fun. }
    rewrite bool_decide_eq_true_2 by done. cbn [negb]. split; cbn [fst snd sw_aliases sw_retained]; [split; [done..|]|done|by left| |done].
    + intros k ty v. cbn [sw_constants]. rewrite elem_of_cons. intros [[= -> -> ->]|Hin]; [done|by eapply HC].
    + intros _. split_and!; cbn; [done| |].
      * intros l t Ht. split; [by eapply locals_fact|done].
      * intros k t. rewrite elem_of_cons. intros [[= -> ->]|Hin]; [split; [done|]; right; eauto 6|]. split; [by eapply consts_fact|by left].
Qed.
Lemma armed_load s dst l : sweep_ok s → instruction_shaped f (LoadLocal dst l) → fresh s (LoadLocal dst l) → single f (temp dst) →
  prun (sweep_load (registers f) s dst l) (armed s (LoadLocal dst l)).
Proof.
  intros Hs [_ Hout Hl _ _] Hfr Hsi. specialize (Hout dst eq_refl). specialize (Hfr (temp dst) ltac:(cbn; left) Hsi). pose proof Hs as [Ha HL HC].
  unfold sweep_load. destruct (lookup_lt_is_Some_2 (sw_locals s) l) as [fact Hfact]; [by rewrite (proj1 HL)|].
  apply prun_bind. eapply prun_expect; [done|]. apply prun_bind.
  assert (∀ v, value_fits f v → single f (temp v) → locals_ok (<[l := Some v]> (sw_locals s))) as HL'.
  { intros v Hv Hsv. split; [rewrite length_insert; apply HL|]. intros l' v'. rewrite list_lookup_insert_Some. intros [(<- & [= <-] & _)|[_ Hx]]; [done|by eapply HL]. }
  assert (∀ v l' t, snapshot_facts (<[l := Some v]> (sw_locals s)) l' = Some t → (l' = l ∧ t = temp v) ∨ snapshot_facts (sw_locals s) l' = Some t) as Hins.
  { intros v l' t (v' & Hv' & ->)%snapshot_facts_Some. apply list_lookup_insert_Some in Hv' as [(<- & [= <-] & _)|[_ Hx]]; [by left|]. right.
    apply snapshot_facts_Some. eauto. }
  assert (alias_of (sw_aliases s) dst = dst) as Hself.
  { eapply value_fits_eq; [by eapply alias_of_fit|done|]. by rewrite alias_of_fun. }
  assert (∀ st, prun (do alias := pexpect (sw_aliases s !! temp dst) in pret ({| sw_aliases := sw_aliases s; sw_locals := <[l := Some alias]> (sw_locals s);
    sw_constants := sw_constants s; sw_statistics := st; sw_retained := sw_retained s |}, false)) (armed s (LoadLocal dst l))) as Hkeep.
  { intros st. apply prun_bind. eapply prun_expect; [by apply alias_lookup|]. rewrite Hself. apply prun_ret.
    split; cbn [fst snd sw_aliases sw_retained]; [split; [done|by apply HL'|done]|done|by left| |done]. intros _. split_and!; cbn; [done| |].
    - intros l' t Ht. split; [by eapply locals_fact; [by apply (HL' dst)|]|]. split; [done|]. destruct (Hins _ _ _ Ht) as [[-> ->]|]; [by right|by left].
    - intros k t Ht. split; [by eapply consts_fact|by left]. }
  destruct fact as [previous|]; [|apply prun_ret; apply Hkeep].
  destruct (same_annotation _ _ _) eqn:Hsame; [|apply prun_ret; apply Hkeep].
  apply andb_true_iff in Hsame as [Hty _]. apply bool_decide_eq_true in Hty. destruct (proj2 HL _ _ Hfact) as [Hpf Hps].
  apply prun_bind. eapply prun_mono; [by apply prun_set_alias|]. intros a' ->. apply prun_ret. apply prun_bind.
  assert (temp dst < length (sw_aliases s)) as Hlt by (eapply lookup_lt_Some; by apply alias_lookup).
  eapply prun_expect; [by apply list_lookup_insert_eq|]. apply prun_ret.
  assert (∀ u, alias_fun (<[temp dst := previous]> (sw_aliases s)) u = if decide (u = temp dst) then temp previous else alias_fun (sw_aliases s) u) as Hal
    by (intros; by apply alias_fun_insert).
  split; cbn [fst snd sw_aliases sw_retained]; [split; [by apply aliases_fit_insert|by apply HL'|done]|done| | |done].
  - intros u. rewrite Hal. case_decide; [right|by left]. subst u. split; [split; [done|cbn; left]|done].
  - intros _. split_and!; cbn.
    + intros _. rewrite Hal, decide_True by done. split; [apply snapshot_facts_Some; eauto|].
      intros t ->%list_elem_of_singleton. rewrite Hal, decide_True by done. done.
    + intros l' t Ht. split; [by eapply locals_fact; [by apply (HL' previous)|]|]. split; [done|]. left. destruct (Hins _ _ _ Ht) as [[-> ->]|]; [|done].
      apply snapshot_facts_Some. eauto.
    + intros k t Ht. split; [by eapply consts_fact|by left].
Qed.
Lemma armed_store s l src : sweep_ok s → instruction_shaped f (StoreLocal l src) →
  prun (sweep_store definitions s l (alias_of (sw_aliases s) src)) (armed s (StoreLocal l src)).
Proof.
  intros Hs [Hin _ Hl _ _]. specialize (Hin src ltac:(cbn; left)). pose proof Hs as [Ha HL HC]. destruct (alias_of_fit _ _ Ha Hin) as [Hfit _].
  unfold sweep_store. apply prun_bind. eapply prun_mono; [by apply prun_defined_once|]. intros once Honce.
  destruct (lookup_lt_is_Some_2 (sw_locals s) l) as [fact Hfact]; [by rewrite (proj1 HL)|]. apply prun_bind. eapply prun_expect; [done|]. apply prun_ret.
  assert (locals_ok (<[l := if once then Some (alias_of (sw_aliases s) src) else None]> (sw_locals s))) as HL'.
  { split; [rewrite length_insert; apply HL|]. intros l' v'. rewrite list_lookup_insert_Some. intros [(<- & Hx & _)|[_ Hx]]; [|by eapply HL].
    destruct once; [|done]. injection Hx as <-. auto. }
  split; cbn [fst snd sw_aliases sw_retained]; [by split|done|by left| |done]. intros _. split_and!; cbn; [done| |].
  - intros l' t Ht. split; [by eapply locals_fact|]. split; [done|]. apply snapshot_facts_Some in Ht as (v & Hv & ->).
    apply list_lookup_insert_Some in Hv as [(<- & Hx & _)|[Hne Hx]].
    + destruct once; [|done]. injection Hx as <-. rewrite decide_True by done. right. by rewrite alias_of_fun.
    + rewrite decide_False by done. apply snapshot_facts_Some. eauto.
  - intros k t Ht. split; [by eapply consts_fact|by left].
Qed.
Lemma armed_move s dst src : sweep_ok s → instruction_shaped f (Move dst src) → fresh s (Move dst src) → single f (temp dst) →
  single f (temp (alias_of (sw_aliases s) src)) → value_ty dst = value_ty (alias_of (sw_aliases s) src) →
  prun (sweep_move s dst (alias_of (sw_aliases s) src)) (armed s (Move dst src)).
Proof.
  intros Hs [Hin Hout _ _ _] Hfr Hsd Hss Hty. specialize (Hin src ltac:(cbn; left)). specialize (Hout dst eq_refl). pose proof Hs as [Ha HL HC].
  specialize (Hfr (temp dst) ltac:(cbn; left) Hsd). destruct (alias_of_fit _ _ Ha Hin) as [Hfit _].
  unfold sweep_move. apply prun_bind. eapply prun_mono; [by apply prun_set_alias|]. intros a' ->. apply prun_ret.
  assert (temp dst < length (sw_aliases s)) as Hlt by (eapply lookup_lt_Some; by apply alias_lookup).
  assert (∀ u, alias_fun (<[temp dst := alias_of (sw_aliases s) src]> (sw_aliases s)) u
    = if decide (u = temp dst) then alias_fun (sw_aliases s) (temp src) else alias_fun (sw_aliases s) u) as Hal
    by (intros; rewrite alias_fun_insert by done; by rewrite alias_of_fun).
  assert (grows (λ t, true = true ∧ t ∈ written (Move dst src)) (alias_fun (sw_aliases s)) (alias_fun (<[temp dst := alias_of (sw_aliases s) src]> (sw_aliases s)))) as Hgr.
  { intros u. rewrite Hal. case_decide; [right|by left]. subst u. split; [split; [done|cbn; left]|done]. }
  split; cbn [fst snd sw_aliases sw_retained]; [split; [by apply aliases_fit_insert|done|done]|done|done| |done]. intros _. split_and!; cbn.
  - intros _. split.
    + rewrite Hal, decide_True by done. eapply stands_for_grows; [exact Hgr|]. by right.
    + intros t ->%list_elem_of_singleton. rewrite Hal, decide_True by done. split; [done|]. by rewrite <- alias_of_fun.
  - intros l t Ht. split; [by eapply locals_fact|done].
  - intros k t Ht. split; [by eapply consts_fact|by left].
Qed.
Lemma prun_sweep_arm s i : sweep_ok s → instruction_shaped f i → fresh s i →
  prun (sweep_arm definitions (registers f) s (rewrite_inputs (alias_of (sw_aliases s)) i)) (armed s i).
Proof.
  intros Hs Hi Hfr. destruct i; try (apply prun_ret; by apply armed_skip); cbn [rewrite_inputs sweep_arm].
  - apply prun_bind. eapply prun_mono; [apply prun_defined_once; by apply (sh_output _ _ Hi)|]. intros [] Hsi; [|apply prun_ret; by apply armed_skip].
    apply armed_const; auto.
  - apply prun_bind. eapply prun_mono; [apply prun_defined_once; by apply (sh_output _ _ Hi)|]. intros [] Hsi; [|apply prun_ret; by apply armed_skip].
    apply armed_load; auto.
  - by apply armed_store.
  - apply prun_bind. eapply prun_mono; [apply prun_defined_once; by apply (sh_output _ _ Hi)|]. intros [] Hsd; [|apply prun_ret; by apply armed_skip]. cbn [negb].
    apply prun_bind. eapply prun_mono; [apply prun_defined_once|].
    { eapply alias_of_fit; [apply Hs|]. apply (sh_inputs _ _ Hi). cbn. left. }
    intros once Hss. destruct (once && _) eqn:E; [|apply prun_ret; by apply armed_skip]. apply andb_true_iff in E as [-> E].
    apply andb_true_iff in E as [E _]. apply bool_decide_eq_true in E. apply armed_move; auto.
Qed.

(** ** One block *)
Definition renamed (alias : nat → nat) (i r : Instruction) : Prop :=
  ∃ h, r = rewrite_inputs h i ∧ ∀ v, v ∈ inputs i → value_fits f (h v) ∧ value_ty (h v) = value_ty v ∧ stands_for alias (temp (h v)) (temp v).
Inductive kept (alias : nat → nat) : list Note → list Instruction → list Instruction → Prop :=
| kept_nil : kept alias [] [] []
| kept_gone ns c rs n i : kept alias ns c rs → nt_gone n = true → kept alias (ns ++ [n]) (c ++ [i]) rs
| kept_here ns c rs n i r : kept alias ns c rs → nt_gone n = false → renamed alias i r → kept alias (ns ++ [n]) (c ++ [i]) (rs ++ [r]).
Lemma renamed_grows T alias alias' i r : grows T alias alias' → renamed alias i r → renamed alias' i r.
Proof. intros Hg (h & -> & Hh). exists h. split; [done|]. intros v Hv. destruct (Hh v Hv) as (? & ? & ?). split_and!; [done..|]. by eapply stands_for_grows. Qed.
Lemma kept_grows T alias alias' ns c rs : grows T alias alias' → kept alias ns c rs → kept alias' ns c rs.
Proof. intros Hg. induction 1; [constructor|by apply kept_gone|]. apply kept_here; [done..|]. by eapply renamed_grows. Qed.

Record stepped (s : Sweep) (x : Instruction * Span * nat) (g : bool) (r : Sweep) : Prop := {
  sp_ok : sweep_ok r;
  sp_grows : grows (λ t, g = true ∧ t ∈ written (fst (fst x))) (alias_fun (sw_aliases s)) (alias_fun (sw_aliases r));
  sp_point : point_ok (alias_fun (sw_aliases r)) (note_of s g) (note_of r false) (fst (fst x));
  sp_retained : if g then sw_retained r = sw_retained s
                else ∃ y, sw_retained r = sw_retained s ++ [y] ∧ renamed (alias_fun (sw_aliases r)) (fst (fst x)) (fst (fst y))
}.
Lemma prun_sweep_instruction s x : sweep_ok s → instruction_shaped f (fst (fst x)) → fresh s (fst (fst x)) →
  prun (sweep_instruction definitions (registers f) s x) (λ r, ∃ g, stepped s x g r).
Proof.
  destruct x as [[i span] scope]. cbn [fst]. intros Hs Hi Hfr. unfold sweep_instruction. apply prun_charge_bind, prun_bind.
  eapply prun_mono; [apply prun_rewrite_operands; [apply Hs|apply Hi]|]. intros i' ->. apply prun_bind.
  eapply prun_mono; [by apply prun_sweep_arm|]. intros [s1 g] [Hok1 Hret1 Hgr1 Hpt1 Hca1]. cbn [fst snd] in *. apply prun_bind.
  assert (renamed (alias_fun (sw_aliases s1)) i (rewrite_inputs (alias_of (sw_aliases s)) i)) as Hren.
  { eexists. split; [done|]. intros v Hv. destruct (alias_of_fit _ v (so_aliases _ Hs)) as [? ?]; [by apply Hi|]. split_and!; [done..|].
    eapply stands_for_grows; [done|]. right. apply alias_of_fun. }
  unfold forget_locals. rewrite calls_rewrite. destruct (calls (effects i)) eqn:Hc.
  - destruct (Hca1 eq_refl) as [-> ->]. apply prun_charge_bind, prun_ret, prun_ret. exists false. cbn [retain_instruction].
    assert (∀ m l t, snapshot_facts (replicate m None) l = Some t → False) as Hnone.
    { intros m l t (v & [? _]%lookup_replicate & _)%snapshot_facts_Some. done. }
    split; cbn [sw_aliases sw_retained]; [|by left| |by eexists].
    + destruct Hs as [Ha HL HC]. split; cbn [sw_aliases sw_locals sw_constants]; [done| |done]. split; [rewrite length_replicate; apply HL|]. by intros l v [? _]%lookup_replicate.
    + split_and!; cbn; [done|by intros l t ?%Hnone|]. intros key t Ht. split; [by eapply consts_fact; [apply Hs|]|by left].
  - apply prun_ret, prun_ret. exists g. destruct g; cbn [retain_instruction].
    + by split; [done|done|apply Hpt1|].
    + split; cbn [sw_aliases sw_retained]; [by split; apply Hok1|done|by apply Hpt1|]. rewrite Hret1. eexists. split; [done|]. exact Hren.
Qed.

Record block_swept (a0 : list MirValue) (L0 : list (option MirValue)) (p : list Instruction) (tr : list Note) (s : Sweep) : Prop := {
  bs_ok : sweep_ok s;
  bs_length : length tr = length p;
  bs_first : ∃ n, (tr ++ [note_of s false]) !! 0 = Some n ∧ nt_facts n = snapshot_facts L0 ∧ nt_consts n = [];
  bs_points k i n n' : p !! k = Some i → (tr ++ [note_of s false]) !! k = Some n → (tr ++ [note_of s false]) !! S k = Some n' →
    point_ok (alias_fun (sw_aliases s)) n n' i;
  bs_grows : grows (λ t, ∃ k i n, p !! k = Some i ∧ tr !! k = Some n ∧ nt_gone n = true ∧ t ∈ written i) (alias_fun a0) (alias_fun (sw_aliases s));
  bs_kept : kept (alias_fun (sw_aliases s)) tr p (fst ∘ fst <$> sw_retained s)
}.

Lemma grows_trans T T' U a b c : grows T a b → grows T' b c → (∀ t, T t → U t) → (∀ t, T' t → U t) → grows U a c.
Proof.
  intros H1 H2 HT HT' u. destruct (H2 u) as [->|[Ht Hb]].
  - destruct (H1 u) as [->|[? ?]]; [by left|right; auto].
  - destruct (H1 u) as [Ha|[? ?]]; [|right; auto]. right. split; [auto|congruence].
Qed.
Lemma block_swept_step j b a0 L0 p x tr s g r q : blocks f !! j = Some b → instructions b = p ++ fst (fst x) :: q →
  block_swept a0 L0 p tr s → stepped s x g r →
  (∀ k i t, p !! k = Some i → tr !! k ≠ None → t ∈ written i → t ∈ written (fst (fst x)) → single f t → False) →
  block_swept a0 L0 (p ++ [fst (fst x)]) (tr ++ [note_of s g]) r.
Proof.
  intros Hb Hsplit [Hok Hlen Hfirst Hpts Hgr Hk] [Hok' Hgr' Hpt' Hret'] Hdis. set (i := fst (fst x)) in *.
  assert (∀ n, tr !! length p = Some n → False) as Hend by (intros n Hn%lookup_lt_Some; lia).
  split; [done|rewrite !length_app; cbn; lia| | | |].
  - destruct Hfirst as (n & Hn & Hfn & Hcn). destruct tr as [|m tr]; cbn in *.
    + injection Hn as <-. exists (note_of s g). by split_and!.
    + injection Hn as ->. exists n. by split_and!.
  - intros k i' n n' Hi Hn Hn'. destruct (decide (k = length p)) as [->|Hne].
    + rewrite list_lookup_middle in Hi by done. injection Hi as <-. rewrite <- Hlen in Hn, Hn'.
      rewrite <- app_assoc in Hn, Hn'. cbn in Hn, Hn'. rewrite list_lookup_middle in Hn by done. injection Hn as <-.
      rewrite lookup_app_r in Hn' by lia. replace (S (length tr) - length tr) with 1 in Hn' by lia. cbn in Hn'. injection Hn' as <-. exact Hpt'.
    + assert (k < length p) as Hlt. { apply lookup_lt_Some in Hi. rewrite length_app in Hi. cbn in Hi. lia. }
      rewrite lookup_app_l in Hi by done. rewrite <- app_assoc in Hn, Hn'. rewrite lookup_app_l in Hn by lia.
      assert (∃ n0, (tr ++ [note_of s false]) !! S k = Some n0 ∧ nt_facts n0 = nt_facts n' ∧ nt_consts n0 = nt_consts n') as (n0 & Hn0 & Hf0 & Hc0).
      { destruct (decide (S k < length tr)) as [Hl|Hl].
        - rewrite lookup_app_l in Hn' by done. exists n'. rewrite lookup_app_l by done. done.
        - assert (S k = length tr) as Heq by lia. rewrite Heq in *. cbn in Hn'. rewrite list_lookup_middle in Hn' by done. injection Hn' as <-.
          exists (note_of s false). rewrite list_lookup_middle by done. done. }
      assert (point_ok (alias_fun (sw_aliases s)) n n0 i') as Hp by (apply (Hpts k); [done|by rewrite lookup_app_l by lia|done]).
      assert (point_ok (alias_fun (sw_aliases s)) n n' i') as Hp'. { unfold point_ok in *. by rewrite <- Hf0, <- Hc0. }
      eapply point_ok_grows; [exact Hgr'| |done]. intros Hgo t Ht [_ Ht']. destruct Hp as [Hdr _].
      eapply (Hdis k i' t); [done|by rewrite Hn|done|done|]. by apply (Hdr Hgo).
  - eapply grows_trans; [exact Hgr|exact Hgr'| |].
    + intros t (k & i' & n & Hi & Hn & Hgo & Ht). exists k, i', n. split_and!; [by apply lookup_app_l_Some..|done|done].
    + intros t [-> Ht]. exists (length p), i, (note_of s true). split_and!; [by rewrite list_lookup_middle|by rewrite <- Hlen, list_lookup_middle|done|done].
  - destruct g.
    + rewrite Hret'. apply kept_gone; [|done]. by eapply kept_grows.
    + destruct Hret' as (y & -> & Hy). rewrite fmap_app. apply kept_here; [by eapply kept_grows|done|exact Hy].
Qed.

(** The aliases a block starts with leave its own definitions alone. *)
Definition untouched (j : nat) (a : list MirValue) : Prop :=
  ∀ k i t, code f j !! k = Some i → t ∈ written i → single f t → alias_fun a t = t.

Lemma columns_fst b : block_shaped f b → fst ∘ fst <$> columns b = instructions b.
Proof.
  intros [_ _ [Hs Hc]]. unfold columns. rewrite (list_fmap_compose fst fst), fst_zip, fst_zip; [done|lia|].
  rewrite length_zip_with. lia.
Qed.
Lemma prun_sweep_code j b s0 : blocks f !! j = Some b → sweep_ok s0 → sw_constants s0 = [] → sw_retained s0 = [] → untouched j (sw_aliases s0) →
  prun (fold_each (sweep_instruction definitions (registers f)) s0 (columns b))
    (λ s, ∃ tr, block_swept (sw_aliases s0) (sw_locals s0) (instructions b) tr s).
Proof.
  intros Hb Hs0 Hc0 Hr0 Hun. pose proof (sh_blocks _ Hf b ltac:(by eapply list_elem_of_lookup_2)) as Hsb.
  pose proof (columns_fst b Hsb) as Hcol. eapply prun_mono.
  { apply (prun_fold_each _ _ (λ p s, ∃ tr, block_swept (sw_aliases s0) (sw_locals s0) (fst ∘ fst <$> p) tr s)).
    - exists []. split; [done|done| |done|by left|rewrite Hr0; constructor]. exists (note_of s0 false). split_and!; [done..|]. cbn. by rewrite Hc0.
    - intros p x q s Hl (tr & Hsw). assert (instructions b = (fst ∘ fst <$> p) ++ fst (fst x) :: (fst ∘ fst <$> q)) as Hins.
      { rewrite <- Hcol, Hl, fmap_app. done. }
      assert (code f j = instructions b) as Hcode by (unfold code; by rewrite Hb).
      assert (code f j !! length p = Some (fst (fst x))) as Hix.
      { rewrite Hcode, Hins. apply list_lookup_middle. by rewrite length_fmap. }
      assert (∀ k i t, (fst ∘ fst <$> p) !! k = Some i → t ∈ written i → t ∈ written (fst (fst x)) → single f t → False) as Hdis.
      { intros k i t Hk Ht Htx Hsi. assert (k < length p) as Hlt by (apply lookup_lt_Some in Hk; by rewrite length_fmap in Hk).
        assert (code f j !! k = Some i) as Hki by (rewrite Hcode, Hins; by apply lookup_app_l_Some).
        destruct (Hsi _ _ _ Hki Ht _ _ _ Hix Htx). lia. }
      eapply prun_mono; [apply prun_sweep_instruction|].
      + apply Hsw.
      + apply (sb_instructions _ _ Hsb). rewrite Hins. set_solver.
      + intros t Ht Hsi. destruct (bs_grows _ _ _ _ _ Hsw t) as [->|[(k & i & n & Hk & _ & _ & Hti) _]]; [by eapply Hun|].
        by destruct (Hdis k i t Hk Hti Ht Hsi).
      + intros r [g Hst]. exists (tr ++ [note_of s g]). rewrite fmap_app. eapply block_swept_step; [done|done|done|done|]. intros k i t Hk _. exact (Hdis k i t Hk). }
  intros s (tr & Hsw). exists tr. by rewrite Hcol in Hsw.
Qed.

(** ** The snapshot at the start of a block *)
Context (preds : list (list nat)) (Hp : joined f preds).

Definition outgoing_ok (outgoing : list (option (list (option MirValue)))) : Prop :=
  length outgoing = length (blocks f) ∧ ∀ j L, outgoing !! j = Some (Some L) → locals_ok L.
Lemma prun_outgoing_fact outgoing l b L : outgoing_ok outgoing → outgoing !! b = Some (Some L) → l < length (locals f) →
  prun (outgoing_fact outgoing l b) (λ fact, L !! l = Some fact).
Proof.
  intros [_ Ho] Hb Hl. unfold outgoing_fact. apply prun_bind. eapply prun_expect; [done|]. apply prun_bind. eapply prun_expect; [done|].
  destruct (lookup_lt_is_Some_2 L l) as [fact Hfact]; [by rewrite (proj1 (Ho _ _ Hb))|]. by eapply prun_expect.
Qed.
Definition all_known (outgoing : list (option (list (option MirValue)))) (ps : list nat) : Prop := ∀ b, b ∈ ps → ∃ L : list (option MirValue), outgoing !! b = Some (Some L).
Lemma prun_meet_rest outgoing l candidate ps : outgoing_ok outgoing → l < length (locals f) → all_known outgoing ps →
  prun (meet_rest outgoing l candidate ps)
    (λ fact, (fact = None ∨ fact = candidate) ∧ ∀ v, fact = Some v → ∀ b L, b ∈ ps → outgoing !! b = Some (Some L) → L !! l = Some (Some v)).
Proof.
  intros Ho Hl. induction ps as [|b ps IH]; intros Hk; cbn [meet_rest].
  - apply prun_ret. split; [by right|]. by intros v _ b L ?%elem_of_nil.
  - apply prun_charge_bind, prun_bind. destruct (Hk b ltac:(left)) as [L HL]. eapply prun_mono; [by eapply prun_outgoing_fact|]. intros fact Hfact. cbn beta in Hfact.
    case_decide as Hd'; [|apply prun_ret; split; [by left|done]]. subst fact. eapply prun_mono; [apply IH; intros b' ?; apply Hk; by right|].
    intros fact [Hor Hall]. split; [done|]. intros v -> b' L' Hb' HL'. apply elem_of_cons in Hb' as [->|Hb']; [|by eapply Hall].
    destruct Hor as [|<-]; [done|]. by simplify_eq.
Qed.
Lemma prun_all_processed outgoing ps : (∀ b, b ∈ ps → b < length outgoing) → prun (all_processed outgoing ps) (λ k, k = true → all_known outgoing ps).
Proof.
  induction ps as [|b ps IH]; intros Hlt; cbn [all_processed].
  - apply prun_ret. by intros _ b ?%elem_of_nil.
  - destruct (lookup_lt_is_Some_2 outgoing b) as [o Ho]; [apply Hlt; left|]. apply prun_bind. eapply prun_expect; [done|].
    destruct o as [L|]; [|by apply prun_ret]. eapply prun_mono; [apply IH; intros; apply Hlt; by right|].
    intros k Hk Hk1 b'. rewrite elem_of_cons. intros [->|Hb']; [eauto|by apply Hk].
Qed.

Record incoming_ok (outgoing : list (option (list (option MirValue)))) (index : nat) (L : list (option MirValue)) : Prop := {
  io_locals : locals_ok L;
  io_entry l : index = entry f → snapshot_facts L l = None;
  io_edge b l t : edge f b index → snapshot_facts L l = Some t → ∃ L', outgoing !! b = Some (Some L') ∧ snapshot_facts L' l = Some t
}.
Lemma unknown_facts m l : snapshot_facts (replicate m None) l = None.
Proof. unfold snapshot_facts. destruct (replicate m None !! l) as [o|] eqn:E; [|done]. by apply lookup_replicate in E as [-> _]. Qed.
Lemma incoming_unknown outgoing index : incoming_ok outgoing index (replicate (length (locals f)) None).
Proof.
  split; [split; [apply length_replicate|by intros l v [? _]%lookup_replicate]|intros; apply unknown_facts|]. intros b l t _. by rewrite unknown_facts.
Qed.
Lemma prun_incoming outgoing index : outgoing_ok outgoing → index < length (blocks f) →
  prun (incoming_snapshot f preds outgoing index) (incoming_ok outgoing index).
Proof.
  intros Ho Hidx. unfold incoming_snapshot. case_decide as He; [apply prun_ret, incoming_unknown|].
  destruct (lookup_lt_is_Some_2 preds index) as [ps Hps]; [by rewrite (proj1 Hp)|]. apply prun_bind. eapply prun_expect; [done|].
  destruct (length ps =? 0) eqn:Hlen; [apply prun_ret, incoming_unknown|]. apply Nat.eqb_neq in Hlen.
  assert (∀ b, b ∈ ps ↔ edge f b index) as Hedge. { intros b. rewrite <- (proj2 Hp b index). unfold listed. rewrite Hps. naive_solver. }
  apply prun_bind. eapply prun_mono; [apply prun_all_processed|].
  { intros b (x & t & Hx & _)%Hedge. rewrite (proj1 Ho). by eapply lookup_lt_Some. }
  intros [] Hk; [|apply prun_ret, incoming_unknown]. specialize (Hk eq_refl).
  eapply prun_mono; [apply (prun_fold_each _ _ (λ q L, length L = length q ∧ ∀ l v, L !! l = Some (Some v) →
    ∀ b L', b ∈ ps → outgoing !! b = Some (Some L') → L' !! l = Some (Some v)))|].
  - done.
  - intros p l q L Hl [HlenL HL]. assert (l = length p ∧ l < length (locals f)) as [Heq Hlt].
    { assert (seq 0 (length (locals f)) !! length p = Some l) as Hs by (rewrite Hl; by apply list_lookup_middle). apply lookup_seq in Hs. lia. }
    destruct ps as [|b0 ps0]; [done|]. unfold meet_local. cbn [head]. apply prun_bind. eapply prun_expect; [done|]. apply prun_bind.
    destruct (Hk b0 ltac:(left)) as [L0 HL0]. eapply prun_mono; [by eapply prun_outgoing_fact|]. intros candidate Hcand. apply prun_bind.
    eapply prun_mono; [by apply prun_meet_rest|]. intros fact [_ Hall]. apply prun_ret. split; [rewrite !length_app; cbn; lia|].
    intros l' v. rewrite lookup_app_Some. intros [Hv|[Hge Hv]]; [by eapply HL|]. apply list_lookup_singleton_Some in Hv as [Hv ->].
    assert (l' = l) as -> by lia. by eapply Hall.
  - intros L [HlenL HL]. rewrite length_seq in HlenL. split; [|done|].
    + split; [done|]. intros l v Hv. destruct ps as [|b0 ps0]; [done|]. destruct (Hk b0 ltac:(left)) as [L0 HL0].
      eapply (proj2 Ho _ _ HL0). eapply HL; [done|left|done].
    + intros b l t Hb%Hedge (v & Hv & ->)%snapshot_facts_Some. destruct (Hk b Hb) as [L' HL']. exists L'. split; [done|].
      apply snapshot_facts_Some. exists v. split; [|done]. by eapply HL.
Qed.

(** ** All blocks *)
Definition empty_note : Note := {| nt_facts := λ _, None; nt_consts := []; nt_gone := false |}.

(** What holds after the blocks [P] have been swept, with the notes taken there. *)
Record swept_blocks (P : list nat) (note : nat → nat → Note) (s : CopyState) : Prop := {
  sw_fit : aliases_fit (cp_aliases s);
  sw_out : outgoing_ok (cp_outgoing s);
  sw_done j L : cp_outgoing s !! j = Some (Some L) → j ∈ P ∧ nt_facts (note j (length (code f j))) = snapshot_facts L;
  sw_known j : j ∈ P → ∃ x y tr, blocks f !! j = Some x ∧ cp_blocks s !! j = Some y ∧ terminator y = terminator x
    ∧ (∀ k n, tr !! k = Some n → note j k = n) ∧ kept (alias_fun (cp_aliases s)) tr (instructions x) (instructions y);
  sw_rest j : j ∉ P → cp_blocks s !! j = blocks f !! j ∧ ∀ k, note j k = empty_note;
  sw_points j k i : j ∈ P → code f j !! k = Some i → point_ok (alias_fun (cp_aliases s)) (note j k) (note j (S k)) i;
  sw_start j : nt_consts (note j 0) = [];
  sw_entry l : nt_facts (note (entry f) 0) l = None;
  sw_edge b j l t : edge f b j → nt_facts (note j 0) l = Some t → b ∈ P ∧ nt_facts (note b (length (code f b))) l = Some t;
  sw_facts b l t : b ∈ P → nt_facts (note b (length (code f b))) l = Some t → single f t;
  sw_alias t : alias_fun (cp_aliases s) t ≠ t → ∃ j k i, j ∈ P ∧ code f j !! k = Some i ∧ t ∈ written i ∧ nt_gone (note j k) = true
}.
Lemma swept_untouched P note s j : swept_blocks P note s → j ∉ P → untouched j (cp_aliases s).
Proof.
  intros Hs Hj k i t Hi Ht Hsi. destruct (decide (alias_fun (cp_aliases s) t = t)) as [|Hne]; [done|]. exfalso.
  destruct (sw_alias _ _ _ Hs t Hne) as (j' & k' & i' & Hj' & Hi' & Ht' & _). destruct (Hsi _ _ _ Hi Ht _ _ _ Hi' Ht') as [-> _]. done.
Qed.

(** The notes of a swept block, put beside those of the blocks before it. *)
Definition with_notes (note : nat → nat → Note) (j : nat) (tr : list Note) : nat → nat → Note :=
  λ j' k, if decide (j' = j) then default empty_note (tr !! k) else note j' k.
Lemma swept_block_step P note s j x r tr L : swept_blocks P note s → j ∉ P → blocks f !! j = Some x → incoming_ok (cp_outgoing s) j L →
  block_swept (cp_aliases s) L (instructions x) tr r →
  swept_blocks (P ++ [j]) (with_notes note j (tr ++ [note_of r false]))
    {| cp_aliases := sw_aliases r; cp_blocks := <[j := of_columns x (sw_retained r)]> (cp_blocks s);
       cp_outgoing := <[j := Some (sw_locals r)]> (cp_outgoing s); cp_statistics := sw_statistics r |}.
Proof.
  intros Hs Hj Hx Hin Hb. pose proof (swept_untouched P note s j Hs Hj) as Hun. pose proof Hb as [Hok Hlen Hfirst Hpts Hgr Hkept].
  assert (code f j = instructions x) as Hcode by (unfold code; by rewrite Hx).
  assert (j < length (blocks f)) as Hlt by (by eapply lookup_lt_Some).
  set (N := tr ++ [note_of r false]) in *. assert (∀ k, with_notes note j N j k = default empty_note (N !! k)) as Hat by (intros; unfold with_notes; by rewrite decide_True).
  assert (∀ j' k, j' ≠ j → with_notes note j N j' k = note j' k) as Hother by (intros; unfold with_notes; by rewrite decide_False).
  assert (nt_facts (with_notes note j N j (length (code f j))) = snapshot_facts (sw_locals r)) as Hlast.
  { rewrite Hat, Hcode, <- Hlen. unfold N. by rewrite list_lookup_middle. }
  assert (∀ j' k i t, j' ∈ P → code f j' !! k = Some i → nt_gone (note j' k) = true → t ∈ written i →
    ¬ ∃ k i n, instructions x !! k = Some i ∧ tr !! k = Some n ∧ nt_gone n = true ∧ t ∈ written i) as Hdis.
  { intros j' k i t Hj' Hi Hgo Ht (k0 & i0 & n0 & Hi0 & _ & _ & Ht0). destruct (sw_points _ _ _ Hs j' k i Hj' Hi) as [Hdr _].
    destruct (Hdr Hgo) as [_ Hsing]. rewrite <- Hcode in Hi0. destruct (proj1 (Hsing t Ht) _ _ _ Hi Ht _ _ _ Hi0 Ht0) as [<- _]. done. }
  split; cbn [cp_aliases cp_blocks cp_outgoing].
  - apply Hok.
  - destruct (sw_out _ _ _ Hs) as [Hol Ho]. split; [by rewrite length_insert|]. intros j' L'. rewrite list_lookup_insert_Some.
    intros [(<- & [= <-] & _)|[_ HL]]; [apply Hok|by eapply Ho].
  - intros j' L'. rewrite list_lookup_insert_Some, elem_of_app, list_elem_of_singleton.
    intros [(<- & [= <-] & _)|[Hne HL]]; [by split; [right|]|]. destruct (sw_done _ _ _ Hs _ _ HL). split; [by left|]. by rewrite Hother.
  - intros j'. rewrite elem_of_app, list_elem_of_singleton. intros [Hj'| ->].
    + assert (j' ≠ j) as Hne by (by intros ->). destruct (sw_known _ _ _ Hs _ Hj') as (x' & y' & tr' & ? & ? & ? & Htr & Hk'). exists x', y', tr'.
      rewrite list_lookup_insert_ne by done. split_and!; [done..| |by eapply kept_grows]. intros k n Hn. rewrite Hother by done. by apply Htr.
    + exists x, (of_columns x (sw_retained r)), tr. split_and!; [done| |done| |done].
      * apply list_lookup_insert_eq. apply lookup_lt_is_Some. rewrite (proj1 (sw_rest _ _ _ Hs j Hj)). eauto.
      * intros k n Hn. rewrite Hat. unfold N. by rewrite (lookup_app_l_Some _ _ _ _ Hn).
  - intros j'. rewrite elem_of_app, list_elem_of_singleton. intros Hj'. assert (j' ≠ j) as Hne by tauto. destruct (sw_rest _ _ _ Hs j') as [? ?]; [tauto|].
    rewrite list_lookup_insert_ne by done. split; [done|]. intros k. by rewrite Hother.
  - intros j' k i. rewrite elem_of_app, list_elem_of_singleton. intros [Hj'| ->] Hi.
    + assert (j' ≠ j) as Hne by (by intros ->). rewrite !Hother by done. eapply point_ok_grows; [exact Hgr| |by apply (sw_points _ _ _ Hs)].
      intros Hgo t Ht. by eapply Hdis.
    + rewrite !Hat. rewrite Hcode in Hi. assert (k < length tr) as Hkl by (rewrite Hlen; by eapply lookup_lt_Some).
      assert (length N = S (length tr)) as HlN by (unfold N; rewrite length_app; cbn; lia).
      destruct (lookup_lt_is_Some_2 N k) as [n Hn]; [lia|]. destruct (lookup_lt_is_Some_2 N (S k)) as [n' Hn']; [lia|].
      rewrite Hn, Hn'. by apply (Hpts k).
  - intros j'. destruct (decide (j' = j)) as [->|Hne]; [|rewrite Hother by done; apply (sw_start _ _ _ Hs)]. rewrite Hat.
    destruct Hfirst as (n & -> & _ & Hc). done.
  - intros l. destruct (decide (entry f = j)) as [He|Hne]; [|rewrite Hother by done; apply (sw_entry _ _ _ Hs)]. rewrite He, Hat.
    destruct Hfirst as (n & -> & Hfn & _). cbn. rewrite Hfn. by apply (io_entry _ _ _ Hin).
  - intros b j' l t He. rewrite elem_of_app, list_elem_of_singleton. destruct (decide (j' = j)) as [->|Hne].
    + rewrite Hat. destruct Hfirst as (n & -> & Hfn & _). cbn. rewrite Hfn. intros Ht. destruct (io_edge _ _ _ Hin b l t He Ht) as (L' & HL' & Ht').
      destruct (sw_done _ _ _ Hs _ _ HL') as [Hb' Hfb]. split; [by left|]. rewrite Hother by (by intros ->). by rewrite Hfb.
    + rewrite Hother by done. intros Ht. destruct (sw_edge _ _ _ Hs b j' l t He Ht). split; [by left|]. rewrite Hother by (by intros ->). done.
  - intros b l t. rewrite elem_of_app, list_elem_of_singleton. intros [Hb'| ->] Ht.
    + rewrite Hother in Ht by (by intros ->). by eapply (sw_facts _ _ _ Hs).
    + rewrite Hlast in Ht. eapply locals_fact; [apply Hok|done].
  - intros t Hne. destruct (Hgr t) as [Heq|[(k & i & n & Hi & Hn & Hgo & Ht) _]].
    + rewrite Heq in Hne. destruct (sw_alias _ _ _ Hs t Hne) as (j' & k & i & Hj' & Hi & Ht & Hgo). exists j', k, i. rewrite Hother by (by intros ->).
      split_and!; try done. apply elem_of_app. by left.
    + exists j, k, i. rewrite Hat. unfold N. rewrite (lookup_app_l_Some _ _ _ _ Hn), Hcode. split_and!; try done. apply elem_of_app. right. by apply list_elem_of_singleton.
Qed.

Lemma emission_order_spec : NoDup (emission_order f) ∧ ∀ j, j ∈ emission_order f ↔ j < length (blocks f).
Proof.
  unfold emission_order. split.
  - constructor; [|apply list.NoDup_filter, NoDup_seq]. rewrite list_elem_of_filter. tauto.
  - intros j. rewrite elem_of_cons, list_elem_of_filter, elem_of_seq. pose proof (sh_entry _ Hf). destruct (decide (j = entry f)); [subst; split; [lia|tauto]|]. split; [intros [|]; [done|lia]|]. right. split; [done|lia].
Qed.
Lemma identity_fit : aliases_fit (identity_aliases f) ∧ ∀ t, alias_fun (identity_aliases f) t = t.
Proof.
  unfold identity_aliases, alias_fun. split.
  - split; [apply length_imap|]. intros t v. rewrite list_lookup_imap, fmap_Some. intros (mt & Hmt & ->). split; exists mt; done.
  - intros t. rewrite list_lookup_imap. by destruct (temps f !! t).
Qed.
Lemma prun_sweep_blocks st :
  prun (fold_each (sweep_block f definitions preds)
          {| cp_aliases := identity_aliases f; cp_blocks := blocks f; cp_outgoing := replicate (length (blocks f)) None; cp_statistics := st |} (emission_order f))
    (λ s, ∃ note, swept_blocks (emission_order f) note s).
Proof.
  destruct emission_order_spec as [Hnd Hmem]. destruct identity_fit as [Hid Hself].
  apply (prun_fold_each _ _ (λ P s, ∃ note, swept_blocks P note s)).
  - exists (λ _ _, empty_note). split; cbn [cp_aliases cp_blocks cp_outgoing]; try done.
    + split; [apply length_replicate|]. by intros j L [? _]%lookup_replicate.
    + by intros j L [? _]%lookup_replicate.
    + by intros j ?%elem_of_nil.
    + by intros j k i ?%elem_of_nil.
    + intros t Hne. by rewrite Hself in Hne.
  - intros p j q s Hl [note Hs]. assert (j ∉ p) as Hj. { rewrite Hl in Hnd. apply list.NoDup_app in Hnd as (_ & Hn & _). intros Hin. apply (Hn j Hin). left. }
    assert (j < length (blocks f)) as Hlt by (apply Hmem; rewrite Hl; set_solver). destruct (lookup_lt_is_Some_2 _ _ Hlt) as [x Hx].
    unfold sweep_block. apply prun_charge_bind, prun_bind. eapply prun_mono; [apply prun_incoming; [apply Hs|done]|]. intros L Hin.
    apply prun_bind. eapply prun_expect; [by rewrite (proj1 (sw_rest _ _ _ Hs j Hj))|]. apply prun_bind.
    eapply prun_mono; [apply (prun_sweep_code j); [done| |done|done|]|].
    + split; [apply Hs|apply Hin|]. by intros key ty v ?%elem_of_nil.
    + by eapply swept_untouched.
    + intros r (tr & Hr). cbn [sw_aliases sw_locals] in Hr. apply prun_bind.
      destruct (lookup_lt_is_Some_2 (cp_outgoing s) j) as [o Ho]; [by rewrite (proj1 (sw_out _ _ _ Hs))|]. eapply prun_expect; [done|]. apply prun_ret.
      eexists. by eapply swept_block_step.
Qed.

(** The notes of the whole function are facts in the sense of [copy_facts]. *)
Lemma swept_certificate note s : swept_blocks (emission_order f) note s →
  copy_facts f (alias_fun (cp_aliases s)) (λ j k, nt_facts (note j k)) (λ j k, nt_consts (note j k)) (λ j k, nt_gone (note j k)).
Proof.
  intros Hs. destruct emission_order_spec as [_ Hmem].
  assert (∀ j k i, code f j !! k = Some i → point_ok (alias_fun (cp_aliases s)) (note j k) (note j (S k)) i) as Hpt.
  { intros j k i Hi. apply (sw_points _ _ _ Hs); [|done]. apply Hmem. unfold code in Hi. destruct (blocks f !! j) eqn:Hb; [|done]. by eapply lookup_lt_Some. }
  split.
  - intros j k i Hi Hg. by apply (Hpt j k i Hi).
  - intros j k i t Hi Hg Ht. by apply (Hpt j k i Hi).
  - intros j k i l t Hi Ht. by apply (Hpt j k i Hi).
  - intros j k i key t Hi Ht. by apply (Hpt j k i Hi).
  - intros b j l t He Ht. destruct (sw_edge _ _ _ Hs b j l t He Ht) as [Hb Hfb]. split; [by eapply (sw_facts _ _ _ Hs)|done].
  - apply (sw_entry _ _ _ Hs).
  - apply (sw_start _ _ _ Hs).
  - intros t Hne. destruct (sw_alias _ _ _ Hs t Hne) as (j & k & i & _ & ? & ? & ?). by exists j, k, i.
Qed.

(** ** Resolution *)
Section Resolution.
Context (a : nat → nat).
Notation root := (root a).
Lemma root_unique t r r' : root t r → root t r' → r = r'.
Proof. intros Hr. revert r'. induction Hr as [t Ht|t r Hne _ IH]; intros r' Hr'; inversion Hr'; subst; [done|congruence|congruence|auto]. Qed.

(** A table on the way from the sweep's aliases to their roots. *)
Definition resolving (T : list MirValue) : Prop := aliases_fit T ∧ ∀ t, alias_fun T t = a t ∨ root t (alias_fun T t).
Lemma resolving_step T t r : resolving T → alias_fun T t ≠ t → root (alias_fun T t) r → root t r.
Proof.
  intros [_ HT] Hne Hr. destruct (HT t) as [Heq|Hroot]; [rewrite Heq in *; by apply root_next|].
  pose proof (root_here a _ (root_fixed a _ _ Hroot)) as Hself. by rewrite (root_unique _ _ _ Hr Hself).
Qed.
Lemma resolving_end T t : resolving T → alias_fun T t = t → root t t.
Proof. intros [_ HT] Heq. destruct (HT t) as [H1|H1]; [apply root_here; congruence|by rewrite Heq in H1]. Qed.

Lemma follow_spec T fuel v w : resolving T → value_fits f v → (work_limit w < usize_max)%Z → Z.to_nat (work_limit w - used w) < fuel →
  match follow fuel T v w with
  | Ok (r, w') => (value_fits f r ∧ value_ty r = value_ty v ∧ root (temp v) (temp r)) ∧ work_limit w' = work_limit w ∧ (work_cancel w = None → work_cancel w' = None)
  | Err PfCancelled => work_cancel w ≠ None
  | Err (PfLimit limit) => limit = work_limit w
  | Err _ => False
  end.
Proof.
  intros HT. revert v w. induction fuel as [|fuel IH]; intros v w Hv Hlim Hfuel; [lia|]. cbn [follow]. unfold pbind at 1.
  rewrite (alias_lookup _ _ (proj1 HT) Hv). cbn [pexpect pret]. destruct (alias_of_fit _ _ (proj1 HT) Hv) as [Hfit Hty].
  pose proof (alias_of_fun T v) as Hfun. destruct (temp (alias_of T v) =? temp v) eqn:Heq.
  - apply Nat.eqb_eq in Heq. split_and!; try done. apply (resolving_end T); [done|congruence].
  - apply Nat.eqb_neq in Heq. unfold pbind. pose proof (charge_spec 1 w) as Hc. destruct (charge 1 w) as [[[] w1]|[]]; try done.
    destruct Hc as (Hu & Hul & Hwl1 & Hwc1). specialize (IH (alias_of T v) w1 Hfit ltac:(lia) ltac:(lia)). rewrite Hwl1 in IH.
    destruct (follow fuel T (alias_of T v) w1) as [[r w']|[]]; try done.
    + destruct IH as ((Hfr & Htr & Hroot) & Hwl & Hwc). split_and!; [done|congruence| |done|auto].
      apply (resolving_step T); [done|congruence|]. by rewrite <- Hfun.
    + auto.
Qed.
Lemma pbound_resolve_all T0 : resolving T0 →
  pbound (fold_each resolve_alias T0 (seq 0 (length T0))) (λ T, aliases_fit T ∧ ∀ t, t < length (temps f) → root t (alias_fun T t)).
Proof.
  intros H0. eapply pbound_mono; [apply (pbound_fold_each _ _ (λ p T, resolving T ∧ ∀ t, t ∈ p → root t (alias_fun T t)))|].
  - split; [done|]. by intros t ?%elem_of_nil.
  - intros p index q T Hl [HT Hdone]. assert (index < length T) as Hlt.
    { assert (index ∈ seq 0 (length T0)) as Hin by (rewrite Hl; set_solver). apply elem_of_seq in Hin. rewrite (proj1 (proj1 HT)), <- (proj1 (proj1 H0)). lia. }
    destruct (lookup_lt_is_Some_2 T index Hlt) as [v Hv]. destruct (proj2 (proj1 HT) _ _ Hv) as (Hfit & mt & Hmt & Hty).
    assert (alias_fun T index = temp v) as Hfun by (unfold alias_fun; by rewrite Hv).
    unfold resolve_alias. apply pbound_step with (R := λ u, u = v); [by eapply prun_expect|]. intros ? ->. apply pbound_bind. intros w Hw.
    pose proof (follow_spec T (budget_left w) v w HT Hfit Hw ltac:(unfold budget_left; lia)) as Hs. destruct (follow _ T v w) as [[r w']|[]]; try done.
    destruct Hs as ((Hfr & Htr & Hroot) & Hwl & Hwc). split; [|done]. apply pbound_ret.
    assert (root index (temp r)) as Hri.
    { destruct (decide (temp v = index)) as [<-|Hne]; [done|]. apply (resolving_step T); [done|congruence|]. by rewrite Hfun. }
    assert (∀ u, alias_fun (<[index := r]> T) u = if decide (u = index) then temp r else alias_fun T u) as Hal by (intros; by apply alias_fun_insert).
    split; [split|].
    + destruct (proj1 HT) as [HlT HfT]. split; [by rewrite length_insert|]. intros t u. rewrite list_lookup_insert_Some.
      intros [(<- & <- & _)|[_ Hu]]; [|by apply HfT]. split; [done|]. exists mt. split; [done|congruence].
    + intros t. rewrite Hal. case_decide; [subst; by right|apply HT].
    + intros t. rewrite Hal, elem_of_app, list_elem_of_singleton. case_decide; [by subst|]. intros [|]; [auto|done].
  - intros T [HT Hdone]. split; [apply HT|]. intros t Ht. apply Hdone, elem_of_seq. rewrite (proj1 (proj1 H0)). lia.
Qed.
End Resolution.
End Sweeping.

(** ** The pass *)
Section Whole.
Context `{CallContracts}.

Lemma prun_rewrite_code f T l : aliases_fit f T → (∀ i v, i ∈ l → v ∈ inputs i → value_fits f v) →
  prun (map_each (λ _ i, do i := rewrite_retained T i in pret (tt, i)) tt l) (λ r, snd r = rewrite_inputs (alias_of T) <$> l).
Proof.
  intros HT Hl. apply (prun_map_each _ _ (λ p _ out, out = rewrite_inputs (alias_of T) <$> p)); [done|].
  intros p i q s out Heq ->. apply prun_bind. unfold rewrite_retained. apply prun_charge_bind.
  eapply prun_mono; [apply prun_rewrite_operands with (f := f); [done|]|].
  - intros v. apply Hl. rewrite Heq. set_solver.
  - intros i' ->. apply prun_ret. cbn [snd]. by rewrite fmap_app.
Qed.
Lemma prun_rewrite_block f T b : aliases_fit f T → (∀ i v, i ∈ instructions b → v ∈ inputs i → value_fits f v) →
  (∀ t v, terminator b = Some t → terminator_input t = Some v → value_fits f v) →
  prun (rewrite_block T b) (λ z, instructions z = rewrite_inputs (alias_of T) <$> instructions b ∧ terminator z = rewrite_input (alias_of T) <$> terminator b).
Proof.
  intros HT Hi Ht. unfold rewrite_block. apply prun_bind. eapply prun_mono; [by apply (prun_rewrite_code f)|]. intros [[] code'] ->. apply prun_charge_bind, prun_bind.
  eapply prun_mono with (Q := λ t, t = rewrite_input (alias_of T) <$> terminator b); [|intros t ->; by apply prun_ret].
  destruct (terminator b) as [t|] eqn:Hterm; [|by apply prun_ret]. apply prun_bind. unfold rewrite_terminator. apply prun_bind.
  destruct (terminator_input t) as [v|] eqn:Hv.
  - apply prun_bind. eapply prun_expect; [apply alias_lookup with (f := f); [done|by eapply Ht]|]. by apply prun_ret, prun_ret, prun_ret.
  - by apply prun_ret, prun_ret, prun_ret.
Qed.

Lemma surviving_app gone g j k l1 l2 : surviving gone g j k (l1 ++ l2) = surviving gone g j k l1 ++ surviving gone g j (k + length l1) l2.
Proof.
  revert k. induction l1 as [|i l1 IH]; intros k; cbn [surviving app length]; [by rewrite Nat.add_0_r|]. rewrite IH.
  replace (S k + length l1) with (k + S (length l1)) by lia. by destruct (gone j k).
Qed.
Lemma kept_surviving f a T (note : nat → nat → Note) j tr c rs : aliases_fit f T → (∀ t, t < length (temps f) → root a t (alias_fun T t)) →
  (∀ i v, i ∈ c → v ∈ inputs i → value_fits f v) → (∀ k n, tr !! k = Some n → note j k = n) → kept f a tr c rs →
  rewrite_inputs (alias_of T) <$> rs = surviving (λ j k, nt_gone (note j k)) (alias_of T) j 0 c.
Proof.
  intros HT Hroot Hc Hn Hk. assert (∀ v, value_fits f v → temp v < length (temps f)) as Hlt by (intros v (mt & ? & _); by eapply lookup_lt_Some).
  assert (length tr = length c) as Hlen. { clear -Hk. induction Hk; rewrite ?length_app; cbn; lia. }
  induction Hk as [|ns c rs n i Hk IH Hg|ns c rs n i r Hk IH Hg (h & -> & Hh)]; [done|..].
  all: assert (length ns = length c) as Hlen' by (rewrite !length_app in Hlen; cbn in Hlen; lia).
  all: assert (nt_gone (note j (length c)) = nt_gone n) as Hgo by (rewrite <- Hlen'; f_equal; apply Hn; by apply list_lookup_middle).
  all: assert (rewrite_inputs (alias_of T) <$> rs = surviving (λ j k, nt_gone (note j k)) (alias_of T) j 0 c) as IH'
    by (apply IH; [intros i' v Hi'; apply Hc; set_solver|intros k m Hm; apply Hn; by apply lookup_app_l_Some|done]).
  all: rewrite surviving_app; cbn [surviving Nat.add]; rewrite Hgo, Hg, <- IH'.
  - by rewrite app_nil_r.
  - rewrite fmap_app. cbn. do 2 f_equal. rewrite rewrite_compose. apply rewrite_ext. intros v Hv. cbn. destruct (Hh v Hv) as (Hfit & Hty & Hst).
    assert (value_fits f v) as Hfv by (apply (Hc i); [set_solver|done]).
    eapply value_fits_eq; [by eapply alias_of_fit|by eapply alias_of_fit|]. rewrite !alias_of_fun.
    destruct Hst as [->|Heq]; [done|]. eapply root_unique; [|by apply Hroot, Hlt]. destruct (decide (a (temp v) = temp v)) as [Hs|Hne].
    + rewrite Heq, Hs. by apply Hroot, Hlt.
    + apply root_next; [done|]. rewrite <- Heq. by apply Hroot, Hlt.
Qed.

(** Equal behaviour from every start, for any number of blocks, on any host that sees
    values and not slots. *)
Definition copy_equivalent (f f' : MirFunction) : Prop :=
  ∀ (F : FloatOps) (W : Type) (host : Host W) (slots : HostSlots host) n (s : MirState W), same_result (run f n (entry f) s) (run f' n (entry f') s).

Lemma pbound_copies_function st f : shaped f → ready f → pbound (copies_function st f) (λ r, copy_equivalent f (snd r)).
Proof.
  intros Hf Hready. unfold copies_function. apply pbound_step with (R := λ _, True); [by apply prun_charge|]. intros _ _.
  eapply pbound_step; [by apply prun_definitions|]. intros ds Hds. eapply pbound_step; [by apply prun_predecessors|]. intros [idx preds] Hp. cbn [snd] in *.
  eapply pbound_step; [by apply prun_sweep_blocks|]. intros s [note Hs]. pose proof (sw_fit _ _ _ _ Hs) as Hfit.
  destruct (emission_order_spec f Hf) as [_ Hmem]. set (a := alias_fun (cp_aliases s)).
  apply pbound_bind. eapply pbound_mono; [eapply pbound_resolve_all with (a := a); [done..|]; by split; [|by left]|]. intros T [HT Hroot].
  assert (∀ j y, cp_blocks s !! j = Some y → ∃ x tr, blocks f !! j = Some x ∧ terminator y = terminator x
    ∧ (∀ k n, tr !! k = Some n → note j k = n) ∧ kept f a tr (instructions x) (instructions y)) as Hy.
  { intros j y Hy. destruct (decide (j < length (blocks f))) as [Hlt|Hge].
    - destruct (sw_known _ _ _ _ Hs j) as (x & y' & tr & ? & ? & ? & ? & ?); [by apply Hmem|]. simplify_eq. eauto 10.
    - rewrite (proj1 (sw_rest _ _ _ _ Hs j ltac:(by rewrite Hmem))) in Hy. by apply lookup_lt_Some in Hy. }
  assert (∀ x, x ∈ blocks f → (∀ i v, i ∈ instructions x → v ∈ inputs i → value_fits f v) ∧ ∀ t v, terminator x = Some t → terminator_input t = Some v → value_fits f v) as Hfits.
  { intros x Hx. destruct (sh_blocks _ Hf x Hx) as [Hi (t & Ht & _ & Hv) _]. split; [intros i v Hin; by apply Hi|]. intros t' v Ht'. simplify_eq. apply Hv. }
  apply pbound_step with (R := λ r, Forall2 (λ y z, instructions z = rewrite_inputs (alias_of T) <$> instructions y
    ∧ terminator z = rewrite_input (alias_of T) <$> terminator y) (cp_blocks s) (snd r)).
  { apply (prun_map_each _ _ (λ p _ out, Forall2 (λ y z, instructions z = rewrite_inputs (alias_of T) <$> instructions y
      ∧ terminator z = rewrite_input (alias_of T) <$> terminator y) p out)); [constructor|].
    intros p y q u out Hl HF. apply prun_bind. eapply prun_mono; [apply (prun_rewrite_block f); [done|..]|].
    - assert (cp_blocks s !! length p = Some y) as Hyl by (rewrite Hl; by apply list_lookup_middle). destruct (Hy _ _ Hyl) as (x & tr & Hx & _ & _ & Hk).
      destruct (Hfits x ltac:(by eapply list_elem_of_lookup_2)) as [Hfx _]. clear -Hk Hfx. induction Hk as [|ns c rs n i Hk IH|ns c rs n i r Hk IH Hg (h & -> & Hh)].
      + by intros i v ?%elem_of_nil.
      + apply IH. intros. eapply Hfx; [apply elem_of_app; by left|done].
      + intros i' v. rewrite elem_of_app, list_elem_of_singleton. intros [Hi'| ->] Hv; [by apply (IH ltac:(intros; eapply Hfx; [apply elem_of_app; by left|done]) i')|].
        rewrite inputs_rewrite in Hv. apply list_elem_of_fmap in Hv as (u & -> & Hu). by apply Hh.
    - assert (cp_blocks s !! length p = Some y) as Hyl by (rewrite Hl; by apply list_lookup_middle). destruct (Hy _ _ Hyl) as (x & tr & Hx & Ht & _ & _).
      rewrite Ht. apply (Hfits x). by eapply list_elem_of_lookup_2.
    - intros z Hz. apply prun_ret. cbn [snd]. apply Forall2_app; [done|]. by constructor. }
  intros [[] bs] HF. cbn [snd] in HF. apply pbound_ret. cbn [snd]. intros F W host slots n w.
  pose proof (swept_certificate f Hf note s Hs) as Hcert. change (entry (with_blocks f bs)) with (entry f).
  eapply (copied_run f a _ _ _ Hcert Hready (alias_of T)); [| | | |by apply (linked_start f a _ _ _ Hcert)].
  - intros j i v Hi Hv. destruct (sh_inputs _ _ (code_shaped f Hf j i Hi) v Hv) as (mt & Hmt & Hvt). split.
    + rewrite alias_of_fun. apply Hroot. by eapply lookup_lt_Some.
    + eapply (alias_of_fit f); [done|by exists mt].
  - intros j x v Hx Hv. unfold term_at in Hx. destruct (blocks f !! j) as [b|] eqn:Hb; [|done]. cbn in Hx.
    assert (value_fits f v) as Hfv by (eapply (Hfits b); [by eapply list_elem_of_lookup_2|done|done]). split.
    + rewrite alias_of_fun. apply Hroot. destruct Hfv as (mt & Hmt & _). by eapply lookup_lt_Some.
    + by eapply (alias_of_fit f).
  - intros j x Hx. assert (j < length (blocks f)) as Hlt by (by eapply lookup_lt_Some). destruct (sw_known _ _ _ _ Hs j) as (x' & y & tr & ? & Hyl & Ht & Hn & Hk); [by apply Hmem|].
    simplify_eq. destruct (Forall2_lookup_l _ _ _ _ _ HF Hyl) as (z & Hz & Hzi & Hzt). exists z. cbn. split_and!; [done| |by rewrite Hzt, Ht].
    rewrite Hzi. eapply kept_surviving; [done|done| |done|done]. apply (Hfits x). by eapply list_elem_of_lookup_2.
  - intros j Hj. cbn. apply lookup_ge_None. rewrite <- (Forall2_length HF). apply lookup_ge_None. destruct (cp_blocks s !! j) as [y|] eqn:Hyl; [|done].
    destruct (Hy _ _ Hyl) as (x & _ & Hx & _). by simplify_eq.
Qed.

(** A function that passed the structural and the initialization check. *)
Definition copyable (other : Instruction → P unit) (f : MirFunction) : Prop :=
  succeeds (verify_body other f) tt ∧ ∃ init, succeeds (flow_verify f) init.

End Whole.

Section Sample.
#[local] Existing Instance no_contracts.

(** Unreachable code is verified but not initialized, so its aliases may form a cycle:
    [t0 = t1; t1 = t2; t2 = t0] after a return leaves [t1] and [t2] standing for each
    other, and resolution goes round until the budget is spent. *)
Definition cyclic : MirFunction :=
  with_blocks copying
    [plain_block [LoadLocal (i32_value 3) 0] (Return (Some (i32_value 3)));
     plain_block [Move (i32_value 0) (i32_value 1); Move (i32_value 1) (i32_value 2); Move (i32_value 2) (i32_value 0)] Unreachable].
(** Two aliases that name each other are followed for as long as the budget lasts. *)
Lemma follow_cycle T fuel v w : T !! 1 = Some (i32_value 2) → T !! 2 = Some (i32_value 1) → temp v = 1 ∨ temp v = 2 →
  (work_limit w < usize_max)%Z → Z.to_nat (work_limit w - used w) < fuel →
  match follow fuel T v w with
  | Err PfCancelled => work_cancel w ≠ None
  | Err (PfLimit limit) => limit = work_limit w
  | _ => False
  end.
Proof.
  intros H1 H2. revert v w. induction fuel as [|fuel IH]; intros v w Hv Hlim Hfuel; [lia|]. cbn [follow]. unfold pbind at 1.
  assert (∃ u, T !! temp v = Some u ∧ temp u ≠ temp v ∧ (temp u = 1 ∨ temp u = 2)) as (u & -> & Hne & Hu)
    by (destruct Hv as [-> | ->]; eexists; (split_and!; [done|cbn; lia|cbn; lia])).
  cbn [pexpect pret]. rewrite (proj2 (Nat.eqb_neq _ _) Hne). unfold pbind.
  pose proof (charge_spec 1 w) as Hs. destruct (charge 1 w) as [[[] w1]|[]]; try done.
  destruct Hs as (? & ? & Hwl & Hwc). specialize (IH u w1 Hu ltac:(lia) ltac:(lia)). rewrite Hwl in IH. destruct (follow fuel T u w1) as [|[]]; auto.
Qed.
Lemma pbound_resolve_cycle T index v (Q : list MirValue → Prop) : T !! 1 = Some (i32_value 2) → T !! 2 = Some (i32_value 1) →
  T !! index = Some v → temp v = 1 ∨ temp v = 2 → pbound (resolve_alias T index) Q.
Proof.
  intros H1 H2 Hi Hv. unfold resolve_alias. rewrite Hi. apply pbound_bind, pbound_ret, pbound_bind. intros w Hw.
  pose proof (follow_cycle T (budget_left w) v w H1 H2 Hv Hw ltac:(unfold budget_left; lia)) as Hf. by destruct (follow _ _ _ _) as [|[]].
Qed.

(** Evaluation of a concrete run below any budget. *)
Ltac walk_head :=
  match goal with |- pbound_or ?E ?m ?Q =>
    let m' := eval lazy head beta delta -[charge pbind pret resolve_alias] iota zeta in m in change (pbound_or E m' Q) end.
Ltac walk_value :=
  match goal with |- pbound_or ?E (pret ?a) ?Q =>
    let a' := eval vm_compute in a in change (pbound_or E (pret a') Q); apply pbound_ret end.
Ltac walk :=
  walk_head;
  lazymatch goal with
  | |- pbound_or _ (pbind _ _) _ => apply pbound_bind
  | |- pbound_or _ (charge _) _ => apply prun_bound, prun_charge
  | |- pbound_or _ (pret _) _ => walk_value
  | |- pbound_or ?E (if ?b then ?x else ?y) ?Q => let b' := eval vm_compute in b in change (pbound_or E (if b' then x else y) Q)
  end; cbv beta.

(** C15: copy propagation rejects some verified functions whatever its budget.  The
    function [cyclic] passes the structural and the initialization check, and its
    unreachable block holds three copies; without a cancellation the pass reports an
    exhausted budget for it under every limit below the counter's saturation point. *)
Theorem cyclic_exhausts_budget st w : (work_limit w < usize_max)%Z → work_cancel w = None →
  succeeds (verify_body (λ _, pret tt) cyclic) tt ∧ (∃ init, succeeds (flow_verify cyclic) init)
  ∧ copies_simplify st [cyclic] w = Err (PfLimit (work_limit w)).
Proof.
  intros Hw Hc. split_and!; [exists default_work; eexists; vm_compute; reflexivity|eexists; exists default_work; eexists; vm_compute; reflexivity|].
  assert (pbound (copies_simplify st [cyclic]) (λ _, False)) as Hb.
  { apply pbound_bind. unfold copies_function. repeat walk. by eapply pbound_resolve_cycle; [..|left]. }
  specialize (Hb w Hw). destruct (copies_simplify st [cyclic] w) as [[]|[]]; try done; [tauto|by subst].
Qed.
Lemma cyclic_exhausts_budget_witness : (work_limit default_work < usize_max)%Z ∧ copies_simplify no_statistics [cyclic] default_work = Err (PfLimit 1000000).
Proof. split; [done|]. by apply (cyclic_exhausts_budget no_statistics default_work). Defined.
End Sample.
