(* ===== verification/MirRotation.v ===== *)
(** * Loop rotation

    Models [kagari-mir/src/passes/rotation.rs]: the search for bounded conditions that
    compute a branch from constants and locals alone, the choice of the backward jumps
    their block dominates, and the copy of the condition, on fresh temporaries, to the
    end of each. *)
From stdpp Require Import gmap.
From S2P Require Import Prelude Integer Scalar Payload RuntimeNumeric Contracts NumericProps Token.
From S2P Require Import Mir Pass MirCopies.
Open Scope nat_scope.

Section Rotation.
Context `{CallContracts}.

Definition MAX_CONDITION : nat := 16.
Definition MAX_DUPLICATED : nat := 256.

(** [vec[index].push(value)]. *)
Definition push_at (lists : list (list nat)) (index value : nat) : P (list (list nat)) :=
  do l := pexpect (lists !! index) in pret (<[index := l ++ [value]]> lists).

(** One block of the first loop; the state is its index and the jump predecessors. *)
Definition jump_predecessors (s : nat * list (list nat)) (b : BasicBlock) : P (nat * list (list nat)) :=
  charge 1 ;;>
  do ps := (match terminator b with
            | Some (Jump target) => push_at (snd s) target (fst s)
            | _ => pret (snd s)
            end) in
  pret (S (fst s), ps).

(** The blocks that may be headers. *)
Definition header_block (predecessors : list (list nat)) (index : nat) (b : BasicBlock) : P bool :=
  do ps := pexpect (predecessors !! index) in
  pret (negb (length ps =? 0)
        && match terminator b with Some (Branch _ _ _) => true | _ => false end
        && negb (length (instructions b) =? 0) && (length (instructions b) <=? MAX_CONDITION)).
Definition collect_header (predecessors : list (list nat)) (s : nat * list nat) (b : BasicBlock) : P (nat * list nat) :=
  do h := header_block predecessors (fst s) b in
  pret (S (fst s), if h : bool then snd s ++ [fst s] else snd s).

(** [reachable], leaving out a block. The stack has its top first. *)
Fixpoint reach_blocks (f : MirFunction) (excluded : option nat) (fuel : nat) (pending : list nat) (visited : list bool) : P (list bool) :=
  match pending with
  | [] => pret visited
  | b :: pending =>
      match fuel with
      | O => λ _, Err PfOutOfFuel
      | S fuel =>
          charge 1 ;;>
          if decide (Some b = excluded) then reach_blocks f excluded fuel pending visited
          else
            do seen := pexpect (visited !! b) in
            if seen : bool then reach_blocks f excluded fuel pending visited
            else
              do block := pexpect (blocks f !! b) in
              do t := pexpect (terminator block) in
              reach_blocks f excluded fuel (reverse (successors t) ++ pending) (<[b := true]> visited)
      end
  end.
Definition reachable_from (f : MirFunction) (excluded : option nat) : P (list bool) :=
  charge (length (blocks f)) ;;>
  reach_blocks f excluded (1 + 2 * length (blocks f)) [entry f] (replicate (length (blocks f)) false).

(** Definition counts and the blocks that read each temporary. *)
Definition note_instruction (index : nat) (s : list nat * list (list nat)) (i : Instruction) : P (list nat * list (list nat)) :=
  charge (1 + length (inputs i)) ;;>
  do definitions := (match output i with Some dst => bump (fst s) (temp dst) | None => pret (fst s) end) in
  do users := fold_each (λ users v, push_at users (temp v) index) (snd s) (inputs i) in
  pret (definitions, users).
Definition note_block (s : nat * (list nat * list (list nat))) (b : BasicBlock) : P (nat * (list nat * list (list nat))) :=
  do r := fold_each (note_instruction (fst s)) (snd s) (instructions b) in
  do users := (match terminator b ≫= terminator_input with
               | Some v => push_at (snd r) (temp v) (fst s)
               | None => pret (snd r)
               end) in
  pret (S (fst s), (fst r, users)).

(** [scalar]. *)
Definition scalar_value_type (ty : ValueType) : bool :=
  match ty with VtUnit | VtBool | VtChar | VtI32 | VtI64 | VtU64 | VtF32 | VtF64 => true | _ => false end.
Definition condition_instruction (i : Instruction) : bool :=
  match i with
  | LoadConst _ _ | LoadLocal _ _ | Move _ _ | Unary _ _ _ | Binary _ _ _ _ | Numeric _ _ _ _ | Convert _ _ _ => true
  | _ => false
  end.

(** The loop of [closed_condition]: the answer is the outputs, or nothing when the
    block is not closed. *)
Fixpoint closed_outputs (header : nat) (definitions : list nat) (users : list (list nat)) (outputs : list nat)
    (l : list Instruction) : P (option (list nat)) :=
  match l with
  | [] => pret (Some outputs)
  | i :: l =>
      charge (1 + length (inputs i)) ;;>
      if negb (condition_instruction i) || existsb (λ v, negb (bool_decide (temp v ∈ outputs))) (inputs i) then pret None
      else
        match output i with
        | None => pret None
        | Some dst =>
            do us := pexpect (users !! temp dst) in
            charge (length us) ;;>
            if negb (scalar_value_type (value_ty dst)) then pret None
            else
              do c := pexpect (definitions !! temp dst) in
              if negb (c =? 1) || existsb (λ b, negb (b =? header)) us then pret None
              else closed_outputs header definitions users (temp dst :: outputs) l
        end
  end.
Definition closed_condition (header : nat) (definitions : list nat) (users : list (list nat)) (b : BasicBlock) : P bool :=
  do outputs := closed_outputs header definitions users [] (instructions b) in
  pret (match outputs with
        | Some outputs => match terminator b ≫= terminator_input with
                          | Some cond => bool_decide (temp cond ∈ outputs)
                          | None => false
                          end
        | None => false
        end).
Definition collect_condition (f : MirFunction) (definitions : list nat) (users : list (list nat))
    (conditions : list (nat * BasicBlock)) (header : nat) : P (list (nat * BasicBlock)) :=
  do b := pexpect (blocks f !! header) in
  do closed := closed_condition header definitions users b in
  pret (if closed : bool then conditions ++ [(header, b)] else conditions).

(** ** Copying a condition *)
Definition with_temps (f : MirFunction) (registers' : gmap nat Ty) (temps' : list MirTemp) : MirFunction :=
  {| registers := registers'; local_types := local_types f; params := params f;
     return_type := return_type f; locals := locals f; temps := temps'; blocks := blocks f;
     entry := entry f; function_effects := function_effects f; debug_source := debug_source f;
     source_span := source_span f; debug_locals := debug_locals f;
     captured_bindings := captured_bindings f; lexical_scopes := lexical_scopes f |}.

(** The assignment to the output of a condition instruction. *)
Definition set_output (dst : MirValue) (i : Instruction) : option Instruction :=
  match i with
  | LoadConst _ c => Some (LoadConst dst c)
  | LoadLocal _ l => Some (LoadLocal dst l)
  | Move _ src => Some (Move dst src)
  | Unary _ op v => Some (Unary dst op v)
  | Binary _ op l r => Some (Binary dst op l r)
  | Numeric _ o l r => Some (Numeric dst o l r)
  | Convert _ src c => Some (Convert dst src c)
  | _ => None
  end.

(** [rewrite_inputs(|input| *input = replacements[&input.temp.index()])]. *)
Definition replacement (replacements : gmap nat MirValue) (v : MirValue) : MirValue := default v (replacements !! temp v).
Definition replace_inputs (replacements : gmap nat MirValue) (i : Instruction) : P Instruction :=
  do _ := fold_each (λ _ v, do _ := pexpect (replacements !! temp v) in pret tt) tt (inputs i) in
  pret (rewrite_inputs (replacement replacements) i).

Record Copying : Type := { co_function : MirFunction; co_replacements : gmap nat MirValue; co_instructions : list Instruction }.
Definition copy_instruction (s : Copying) (original : Instruction) : P Copying :=
  charge (1 + length (inputs original)) ;;>
  do old := pexpect (output original) in
  let f := co_function s in
  let dst := {| temp := length (temps f); value_ty := value_ty old |} in
  let registers' := match registers f !! temp old with
                    | Some ty => <[temp dst := ty]> (registers f)
                    | None => registers f
                    end in
  do i := replace_inputs (co_replacements s) original in
  do i := pexpect (set_output dst i) in
  pret {| co_function := with_temps f registers' (temps f ++ [{| temp_ty := value_ty old |}]);
          co_replacements := <[temp old := dst]> (co_replacements s);
          co_instructions := co_instructions s ++ [i] |}.

Definition append_condition (condition : BasicBlock) (f : MirFunction) (latch : nat) : P MirFunction :=
  do s := fold_each copy_instruction {| co_function := f; co_replacements := ∅; co_instructions := [] |} (instructions condition) in
  let f := co_function s in
  do b := pexpect (blocks f !! latch) in
  do t := pexpect (terminator condition) in
  do _ := (match terminator_input t with
           | Some v => do _ := pexpect (co_replacements s !! temp v) in pret tt
           | None => pret tt
           end) in
  let b := {| instructions := instructions b ++ co_instructions s;
              instruction_spans := instruction_spans b ++ instruction_spans condition;
              instruction_scopes := instruction_scopes b ++ instruction_scopes condition;
              terminator := Some (rewrite_input (replacement (co_replacements s)) t);
              terminator_span := terminator_span condition; terminator_scope := terminator_scope condition |} in
  pret (with_blocks f (<[latch := b]> (blocks f))).

(** The predecessors that are reachable, but not without passing the header. *)
Definition collect_latch (initial bypass : list bool) (latches : list nat) (index : nat) : P (list nat) :=
  charge 1 ;;>
  do r := pexpect (initial !! index) in
  if negb r then pret latches
  else
    do a := pexpect (bypass !! index) in
    pret (if negb a then latches ++ [index] else latches).

(** One condition; the state is the function and the instructions duplicated so far. *)
Definition rotate_condition (predecessors : list (list nat)) (initial : list bool) (s : MirFunction * nat)
    (x : nat * BasicBlock) : P (MirFunction * nat) :=
  let '(f, duplicated) := s in
  let '(header, condition) := x in
  do bypass := reachable_from f (Some header) in
  do ps := pexpect (predecessors !! header) in
  do latches := fold_each (collect_latch initial bypass) [] ps in
  let growth := length (instructions condition) * length latches in
  if (length latches =? 0) || (MAX_DUPLICATED - duplicated <? growth) then pret (f, duplicated)
  else
    do f := fold_each (append_condition condition) f latches in
    pret (f, duplicated + growth).

Definition rotate (f : MirFunction) : P MirFunction :=
  if may_suspend (function_effects f) then pret f
  else
    charge (length (blocks f) + length (temps f)) ;;>
    do predecessors := fold_each jump_predecessors (0, replicate (length (blocks f)) []) (blocks f) in
    let predecessors := snd predecessors in
    do headers := fold_each (collect_header predecessors) (0, []) (blocks f) in
    let headers := snd headers in
    if length headers =? 0 then pret f
    else
      do initial := reachable_from f None in
      do notes := fold_each note_block (0, (replicate (length (temps f)) 0, replicate (length (temps f)) [])) (blocks f) in
      let '(definitions, users) := snd notes in
      do conditions := fold_each (collect_condition f definitions users) [] headers in
      do r := fold_each (rotate_condition predecessors initial) (f, 0) conditions in
      pret (fst r).

(** [rotation::apply] on the functions of a module. *)
Definition rotation_apply (functions : list MirFunction) : P (list MirFunction) :=
  do r := map_each (λ _ f, do f := rotate f in pret (tt, f)) tt functions in pret (snd r).
End Rotation.

(** [while x < p { x = 1 }; return x]: the condition is copied to the end of the body. *)
Section Sample.
#[local] Existing Instance no_contracts.
Definition block_of (l : list Instruction) (t : Terminator) : BasicBlock :=
  {| instructions := l; instruction_spans := replicate (length l) {| start := 0; end_ := 0 |};
     instruction_scopes := replicate (length l) 0; terminator := Some t; terminator_span := None;
     terminator_scope := Some 0 |}.
Definition looping : MirFunction :=
  {| registers := ∅; local_types := ∅; params := params copying; return_type := VtI32; locals := locals copying;
     temps := [{| temp_ty := VtI32 |}; {| temp_ty := VtI32 |}; {| temp_ty := VtI32 |}; {| temp_ty := VtBool |};
               {| temp_ty := VtI32 |}; {| temp_ty := VtI32 |}];
     blocks :=
       [block_of [LoadConst (i32_value 0) (KI32 0); StoreLocal 1 (i32_value 0)] (Jump 1);
        block_of [LoadLocal (i32_value 1) 1; LoadLocal (i32_value 2) 0;
                  Binary {| temp := 3; value_ty := VtBool |} BoLt (i32_value 1) (i32_value 2)]
          (Branch {| temp := 3; value_ty := VtBool |} 2 3);
        block_of [LoadConst (i32_value 4) (KI32 1); StoreLocal 1 (i32_value 4)] (Jump 1);
        block_of [LoadLocal (i32_value 5) 1] (Return (Some (i32_value 5)))];
     entry := 0; function_effects := function_effects copying; debug_source := None; source_span := source_span copying;
     debug_locals := debug_locals copying; captured_bindings := []; lexical_scopes := lexical_scopes copying |}.
Example looping_rotated :
  match rotation_apply [looping] default_work with
  | Ok ([f], _) =>
      length (temps f) = 9 ∧ (blocks f !! 0) = (blocks looping !! 0) ∧ (blocks f !! 1) = (blocks looping !! 1) ∧
      (b ← blocks f !! 2; Some (instructions b, terminator b))
      = Some ([LoadConst (i32_value 4) (KI32 1); StoreLocal 1 (i32_value 4); LoadLocal (i32_value 6) 1; LoadLocal (i32_value 7) 0;
               Binary {| temp := 8; value_ty := VtBool |} BoLt (i32_value 6) (i32_value 7)],
              Some (Branch {| temp := 8; value_ty := VtBool |} 2 3))
  | _ => False
  end.
Proof. vm_compute. auto 10. Qed.
End Sample.
