(* ===== verification/MirRotationSound.v ===== *)
(** * Why loop rotation is sound

    A closed condition computes its branch from constants and locals, and nobody else
    reads what it computes; so a block that jumps to it may compute the branch itself,
    on temporaries of its own.  Two functions that differ in this way end alike. *)
From stdpp Require Import gmap.
From S2P Require Import Prelude Integer Scalar Payload RuntimeNumeric Contracts NumericProps Token.
From S2P Require Import Mir Pass MirSemantics MirVerify MirFlow MirPaths MirCopies MirCopiesSound MirCopiesProps MirRotation.
Open Scope nat_scope.

Section Relation.
Context `{CallContracts}.

Definition outputs_of (l : list Instruction) : list nat := l ≫= written.

Record closed_block (f : MirFunction) (h : nat) (hb : BasicBlock) : Prop := {
  cb_block : blocks f !! h = Some hb;
  cb_branch : ∃ c x y, terminator hb = Some (Branch c x y) ∧ temp c ∈ outputs_of (instructions hb);
  cb_instruction k i : instructions hb !! k = Some i →
    condition_instruction i = true ∧ (∀ v, v ∈ inputs i → temp v ∈ outputs_of (take k (instructions hb)))
    ∧ ∃ dst, output i = Some dst ∧ scalar_value_type (value_ty dst) = true;
  cb_private t j k : t ∈ outputs_of (instructions hb) → reads_at f j k t → j = h
}.

(** [l'] is [l] on the temporaries from [m] on: [r] says where the outputs went. *)
Inductive copied (tm : list MirTemp) : gmap nat MirValue → nat → list Instruction → list Instruction → gmap nat MirValue → nat → Prop :=
| copied_nil r m : copied tm r m [] [] r m
| copied_snoc r m l l' r1 m1 i i' old : copied tm r m l l' r1 m1 → output i = Some old →
    tm !! m1 = Some {| temp_ty := value_ty old |} →
    set_output {| temp := m1; value_ty := value_ty old |} (rewrite_inputs (replacement r1) i) = Some i' →
    copied tm r m (l ++ [i]) (l' ++ [i']) (<[temp old := {| temp := m1; value_ty := value_ty old |}]> r1) (S m1).

(** Block [b] that jumps to [h] and its replacement [b']. *)
Record latched (f : MirFunction) (tm : list MirTemp) (b b' : BasicBlock) (h : nat) (hb : BasicBlock) (l' : list Instruction)
    (r : gmap nat MirValue) (m m' : nat) : Prop := {
  la_closed : closed_block f h hb;
  la_jump : terminator b = Some (Jump h);
  la_fresh : length (temps f) ≤ m;
  la_copied : copied tm ∅ m (instructions hb) l' r m';
  la_code : instructions b' = instructions b ++ l';
  la_terminator : terminator b' = rewrite_input (replacement r) <$> terminator hb;
  la_columns : length (instruction_spans b') = length (instruction_spans b) + length (instruction_spans hb)
               ∧ length (instruction_scopes b') = length (instruction_scopes b) + length (instruction_scopes hb)
}.
Record rotated (f f' : MirFunction) : Prop := {
  ro_entry : entry f' = entry f;
  ro_locals : locals f' = locals f;
  ro_params : params f' = params f;
  ro_temps : temps f `prefix_of` temps f';
  ro_length : length (blocks f') = length (blocks f);
  ro_blocks j b : blocks f !! j = Some b → ∃ b', blocks f' !! j = Some b' ∧ (b' = b ∨ ∃ h hb l' r m m', latched f (temps f') b b' h hb l' r m m')
}.

Definition private (f : MirFunction) (t : nat) : Prop := ∃ h hb, closed_block f h hb ∧ t ∈ outputs_of (instructions hb).

Lemma outputs_take k l i t : l !! k = Some i → t ∈ outputs_of (take (S k) l) ↔ t ∈ outputs_of (take k l) ∨ t ∈ written i.
Proof. intros Hi. unfold outputs_of. rewrite (take_S_r _ _ _ Hi), bind_app, elem_of_app. cbn. by rewrite app_nil_r. Qed.
Lemma outputs_take_sub k l t : t ∈ outputs_of (take k l) → t ∈ outputs_of l.
Proof. unfold outputs_of. rewrite <- (take_drop k l) at 2. rewrite bind_app, elem_of_app. tauto. Qed.

(** A private temporary is read in its block only, after the block has written it. *)
Lemma private_read f j k t : private f t → reads_at f j k t → t ∈ outputs_of (take k (code f j)).
Proof.
  intros (h & hb & Hc & Ht) Hr. pose proof (cb_private _ _ _ Hc t j k Ht Hr) as ->. assert (code f h = instructions hb) as Hcode by (unfold code; by rewrite (cb_block _ _ _ Hc)).
  rewrite Hcode. destruct Hr as [(i & Hi & (v & -> & Hv)%list_elem_of_fmap)|(-> & x & Hx & Hin)].
  - rewrite Hcode in Hi. destruct (cb_instruction _ _ _ Hc k i Hi) as (_ & Hin & _). by apply Hin.
  - rewrite Hcode, take_ge by done. done.
Qed.
End Relation.

Section Runs.
Context `{CallContracts} `{FloatOps} {W : Type} `{!Host W}.
Context (f f' : MirFunction) (Hf : shaped f) (Hro : rotated f f').
Implicit Types (a b s : MirState W).
Notation n0 := (length (temps f)).

(** States that agree but on what conditions keep to themselves. *)
Definition public_alike (T : nat → Prop) a b : Prop :=
  same_host_state a b ∧ ∀ t, t < n0 → ¬ private f t ∨ T t → temp_values a !! t = temp_values b !! t.
Definition none (t : nat) : Prop := False.

Definition steps_alike {A} (R : A → A → Prop) (o1 o2 : @MirOutcome W A) : Prop :=
  match o1, o2 with
  | Finished x, Finished y => R x y
  | Faulted e w, Faulted e' w' => e = e' ∧ w = w'
  | Stuck, Stuck => True
  | _, _ => False
  end.
Definition exits_alike : Exit → Exit → Prop := λ e e',
  match e, e' with
  | Goto x a, Goto y b => x = y ∧ public_alike none a b
  | Returned v a, Returned v' b => v = v' ∧ same_host_state a b
  | ReachedUnreachable a, ReachedUnreachable b => same_host_state a b
  | _, _ => False
  end.
Lemma steps_bind {A B} (R : A → A → Prop) (S : B → B → Prop) (o1 o2 : @MirOutcome W A) k1 k2 :
  steps_alike R o1 o2 → (∀ x y, R x y → steps_alike S (k1 x) (k2 y)) → steps_alike S (obind o1 k1) (obind o2 k2).
Proof. destruct o1, o2; cbn; naive_solver. Qed.

(** The code of a block on two such states. *)
Lemma code_alike j k a b : k ≤ length (code f j) → public_alike (λ t, t ∈ outputs_of (take k (code f j))) a b →
  steps_alike (public_alike (λ t, t ∈ outputs_of (code f j))) (exec_all (drop k (code f j)) a) (exec_all (drop k (code f j)) b).
Proof.
  remember (length (code f j) - k) as d eqn:Hd. revert k a b Hd. induction d as [|d IH]; intros k a b Hd Hk Hab.
  - rewrite drop_ge by lia. cbn. by rewrite take_ge in Hab by lia.
  - destruct (lookup_lt_is_Some_2 (code f j) k) as [i Hi]; [lia|]. rewrite (drop_S _ _ _ Hi). cbn [exec_all].
    pose proof (code_shaped f Hf j i (list_elem_of_lookup_2 _ _ _ Hi)) as Hsh. destruct Hab as [Hh Ht].
    eapply steps_bind with (R := public_alike (λ t, t ∈ outputs_of (take (S k) (code f j)))); [|intros; apply IH; [lia|lia|done]].
    pose proof (exec_alike i a b (λ t, t < n0 ∧ (¬ private f t ∨ t ∈ outputs_of (take (S k) (code f j))))) as He.
    assert (alike (λ t, t < n0 ∧ (¬ private f t ∨ t ∈ outputs_of (take (S k) (code f j)))) (exec i a) (exec i b)) as Ha.
    { apply He; [|done|].
      - intros v Hv. destruct (sh_inputs _ _ Hsh v Hv) as (mt & Hmt & _). symmetry. apply Ht; [by eapply lookup_lt_Some|].
        destruct (decide (temp v ∈ outputs_of (take k (code f j)))) as [|Hn]; [by right|left]. intros Hp. apply Hn. eapply private_read; [done|].
        left. exists i. split; [done|]. by apply list_elem_of_fmap_2.
      - intros t [Hlt Hor]. rewrite (outputs_take k _ i) in Hor by done. destruct (decide (t ∈ written i)); [by left|right]. apply Ht; [done|]. tauto. }
    unfold alike in Ha. destruct (exec i a), (exec i b); try done. destruct Ha as [? Ha]. split; [done|]. intros t Hlt Hor. by apply Ha.
Qed.
Lemma same_block_alike j x a b : blocks f !! j = Some x → public_alike none a b → steps_alike exits_alike (run_block x a) (run_block x b).
Proof.
  intros Hx Hab. assert (code f j = instructions x) as Hcode by (unfold code; by rewrite Hx). unfold run_block. rewrite <- Hcode.
  eapply steps_bind; [rewrite <- (drop_0 (code f j)); apply code_alike; [lia|]|].
  { rewrite take_0. destruct Hab as [Hh Ht]. split; [done|]. intros t Hlt [|Hx']; [by apply Ht; [|left]|by apply elem_of_nil in Hx']. }
  intros a1 b1 [Hh Ht]. destruct (sb_terminator _ _ (sh_blocks _ Hf x ltac:(by eapply list_elem_of_lookup_2))) as (t & Hterm & _ & Hv). rewrite Hterm. cbn [obind from_option_stuck].
  pose proof (exec_terminator_rewrite id t a1 b1) as He. rewrite rewrite_input_id in He.
  assert (public_alike none a1 b1) as Hn. { split; [done|]. intros u Hlt [|[]]; apply Ht; auto. }
  specialize (He ltac:(intros v Hin; symmetry; destruct (Hv v Hin) as (mt & Hmt & _); apply Ht; [by eapply lookup_lt_Some|];
    destruct (decide (temp v ∈ outputs_of (code f j))) as [|Hnn]; [by right|left]; intros Hp; apply Hnn; rewrite <- (take_ge (code f j) (length (code f j))) by done;
    eapply private_read; [done|]; right; split; [done|]; exists t; split; [unfold term_at; by rewrite Hx|]; unfold term_reads; rewrite Hin; cbn; left)).
  destruct (exec_terminator t a1) as [[]| |], (exec_terminator t b1) as [[]| |]; try done; cbn in *; naive_solver.
Qed.

(** ** The copy of a condition *)
(** What a condition instruction computes. *)
Definition computes (i : Instruction) (vs : list Value) s : @MirOutcome W Value :=
  match i with
  | LoadLocal _ l => from_option_stuck (local_values s !! l)
  | _ => match scalar_step i vs with Some (Ok v) => Finished v | Some (Err e) => Faulted e (world s) | None => Stuck end
  end.
Definition scalar_operands (i : Instruction) : Prop := ∀ v, v ∈ inputs i → scalar_type (value_ty v) ≠ None.
Lemma exec_computes i dst s : condition_instruction i = true → output i = Some dst → scalar_operands i →
  match i with Binary _ op _ _ => lower_binary_op op ≠ None | _ => True end →
  exec i s = obind (from_option_stuck (operands s i)) (λ vs, obind (computes i vs s) (λ v, Finished (set_temp dst v s))).
Proof.
  intros Hc Ho Hs Hb. unfold exec. destruct (operands s i) as [vs|] eqn:Hop; [|done]. cbn [obind from_option_stuck].
  assert (length vs = length (inputs i)) as Hlen by (symmetry; by eapply length_mapM).
  destruct i; try done; cbn in Ho; injection Ho as ->; unfold publish_result; cbn [output computes inputs length] in *.
  - destruct vs as [|v []]; try done. cbn [scalar_step]. by destruct (numeric_convert _ _).
  - destruct rhs as [r|]; cbn in Hlen; destruct vs as [|v1 [|v2 []]]; try done; cbn [scalar_step]; by destruct (fixed_integer _ _ _).
  - destruct vs; done.
  - by destruct (local_values s !! local).
  - destruct vs as [|v []]; done.
  - destruct vs as [|v []]; try done. cbn [scalar_step]. by destruct (unary op v).
  - destruct vs as [|v1 [|v2 []]]; try done. cbn [scalar_step]. specialize (Hs lhs ltac:(left)). destruct (scalar_type (value_ty lhs)); [|done].
    destruct (lower_binary_op op); [|done]. cbn. by destruct (scalar_binary _ _ _).
Qed.
Lemma computes_rewrite g dst i i' vs s s' : (∀ v, v ∈ inputs i → value_ty (g v) = value_ty v) → set_output dst (rewrite_inputs g i) = Some i' → same_host_state s s' →
  computes i' vs s' = computes i vs s.
Proof.
  intros Hty Hset [Hl Hw]. unfold computes. destruct i; try done; cbn in Hset; injection Hset as <-; cbn [inputs] in *; rewrite <- ?Hw, <- ?Hl; try done.
  cbn [scalar_step]. by rewrite Hty by left.
Qed.
Lemma set_output_spec dst i i' : set_output dst i = Some i' → condition_instruction i' = true ∧ output i' = Some dst ∧ inputs i' = inputs i
  ∧ condition_instruction i = true ∧ (match i with Binary _ op _ _ => lower_binary_op op ≠ None | _ => True end → match i' with Binary _ op _ _ => lower_binary_op op ≠ None | _ => True end).
Proof. destruct i; cbn; try done; by intros [= <-]. Qed.
Lemma scalar_value_type_scalar ty : scalar_value_type ty = true → scalar_type ty ≠ None.
Proof. by destruct ty. Qed.

(** The copy keeps pace with the original: [r] leads from its temporaries to theirs. *)
Definition shadows (r : gmap nat MirValue) (m : nat) a b : Prop :=
  public_alike none a b ∧ ∀ t v, r !! t = Some v → temp_values a !! t = temp_values b !! temp v ∧ n0 ≤ temp v < m
    ∧ ∃ mt, temps f !! t = Some mt ∧ temp_ty mt = value_ty v ∧ scalar_value_type (value_ty v) = true.
Lemma copied_runs h hb l l' r m m' a b : closed_block f h hb → l `prefix_of` instructions hb → copied (temps f') ∅ m l l' r m' → n0 ≤ m → public_alike none a b →
  m ≤ m' ∧ (∀ t, t ∈ outputs_of l → is_Some (r !! t)) ∧ steps_alike (shadows r m') (exec_all l a) (exec_all l' b).
Proof.
  intros Hcb Hpre Hcp Hm Hab. remember (∅ : gmap nat MirValue) as r0 eqn:Hr0. induction Hcp as [r m|r m l l' r1 m1 i i' old Hcp IH Ho Htm Hset].
  { subst. split; [done|]. split; [by intros t ?%elem_of_nil|]. cbn. split; [done|]. intros t v Hv. by rewrite lookup_empty in Hv. }
  destruct IH as (Hle & Hdom & Hst); [by eapply prefix_app_l|done|done|]. split; [lia|]. 
  destruct Hpre as [rest Hrest]. rewrite <- app_assoc in Hrest. cbn in Hrest. assert (instructions hb !! length l = Some i) as Hi by (rewrite Hrest; by apply list_lookup_middle).
  destruct (cb_instruction _ _ _ Hcb _ _ Hi) as (Hci & Hin & dst & Hdst & Hsc). rewrite Hrest, take_app_length in Hin. rewrite Ho in Hdst. injection Hdst as <-.
  pose proof (code_shaped f Hf h i ltac:(unfold code; rewrite (cb_block _ _ _ Hcb); by eapply list_elem_of_lookup_2)) as Hsh.
  assert (written i = [temp old]) as Hwr by (unfold written; by rewrite Ho). split.
  { intros t. unfold outputs_of. rewrite bind_app, elem_of_app. cbn. rewrite app_nil_r, Hwr, list_elem_of_singleton.
    intros [Ht| ->]; [|by rewrite lookup_insert_eq]. destruct (decide (temp old = t)) as [->|]; [by rewrite lookup_insert_eq|]. rewrite lookup_insert_ne by done. by apply Hdom. }
  rewrite !exec_all_app. eapply steps_bind; [exact Hst|]. intros a1 b1 [[Hh Ht] Hr]. cbn [exec_all].
  assert (∀ v, v ∈ inputs i → ∃ v', r1 !! temp v = Some v' ∧ replacement r1 v = v' ∧ read_temp b1 v' = read_temp a1 v ∧ value_ty v' = value_ty v ∧ scalar_value_type (value_ty v) = true) as Hops.
  { intros v Hv. destruct (Hdom (temp v)) as [v' Hv']; [by apply Hin|]. destruct (Hr _ _ Hv') as (Heq & _ & mt & Hmt & Hty & Hs'). exists v'. unfold replacement. rewrite Hv'. cbn.
    destruct (sh_inputs _ _ Hsh v Hv) as (mt' & Hmt' & Hvt). simplify_eq. split_and!; [done|done|by symmetry|congruence|]. by rewrite Hvt, Hty. }
  destruct (set_output_spec _ _ _ Hset) as (Hc' & Ho' & Hin' & _ & Hb'). rewrite inputs_rewrite in Hin'.
  assert (operands b1 i' = operands a1 i) as Hopeq.
  { unfold operands. rewrite Hin'. clear -Hops. induction (inputs i) as [|v l IH]; [done|]. cbn. destruct (Hops v ltac:(left)) as (v' & _ & -> & -> & _). by rewrite IH by (intros; apply Hops; by right). }
  rewrite (exec_computes i old a1); [|done|done| |apply Hsh].
  2: { intros v Hv. destruct (Hops v Hv) as (_ & _ & _ & _ & _ & ?). by apply scalar_value_type_scalar. }
  rewrite (exec_computes i' {| temp := m1; value_ty := value_ty old |} b1); [|done|done| |].
  2: { intros v. rewrite Hin', list_elem_of_fmap. intros (u & -> & Hu). destruct (Hops u Hu) as (v' & _ & -> & _ & Hty & Hs'). rewrite Hty. by apply scalar_value_type_scalar. }
  2: { apply Hb'. pose proof (sh_binary _ _ Hsh) as Hbin. by destruct i. }
  rewrite Hopeq. destruct (operands a1 i) as [vs|]; [|done]. cbn [obind from_option_stuck].
  rewrite (computes_rewrite (replacement r1) {| temp := m1; value_ty := value_ty old |} i i' vs a1 b1); [|by intros v Hv; destruct (Hops v Hv) as (v' & _ & -> & _ & ? & _)|done|done].
  destruct (computes i vs a1) as [v| |]; [|done|done]. cbn [obind exec_all steps_alike]. destruct (sh_output _ _ Hsh old Ho) as (mt & Hmt & Hty). pose proof (lookup_lt_Some _ _ _ Hmt) as Hlt.
  assert (private f (temp old)) as Hpriv. { exists h, hb. split; [done|]. apply (outputs_take_sub (S (length l))). apply (outputs_take _ _ _ _ Hi). right. rewrite Hwr. left. }
  split; [split; [done|]|].
  - intros t Hlt' [Hnp|[]]. cbn. rewrite !lookup_insert_ne; [by apply Ht; [|left]|lia|by intros <-].
  - intros t u. cbn. rewrite lookup_insert_Some. intros [[<- <-]|[Hne Hu]].
    + cbn. rewrite !lookup_insert_eq. split_and!; [done|lia|lia|]. exists mt. split_and!; [done|congruence|done].
    + destruct (Hr _ _ Hu) as (Heq & Hb & Hex). rewrite !lookup_insert_ne by (done || lia). split_and!; [done|lia|lia|done].
Qed.

(** Two blocks of the original for one of the copy. *)
Definition next_block (e : Exit) : @MirOutcome W Exit :=
  match e with Goto h s => obind (from_option_stuck (blocks f !! h)) (λ x, run_block x s) | _ => Finished e end.
Lemma public_weaken T a b : public_alike T a b → public_alike none a b.
Proof. intros [Hh Ht]. split; [done|]. intros t Hlt [|[]]. apply Ht; auto. Qed.
Lemma latch_alike j x y h hb l' r m m' a b : blocks f !! j = Some x → latched f (temps f') x y h hb l' r m m' → public_alike none a b →
  steps_alike (λ s1 s2, ∃ e, run_block hb s1 = e ∧ steps_alike exits_alike e (obind (exec_all l' s2) (λ s, obind (from_option_stuck (terminator y)) (λ t, exec_terminator t s))))
    (exec_all (instructions x) a) (exec_all (instructions x) b).
Proof.
  intros Hx [Hcb Hj Hm Hcp Hcode Hterm _] Hab. assert (code f j = instructions x) as Hc by (unfold code; by rewrite Hx).
  assert (steps_alike (public_alike none) (exec_all (instructions x) a) (exec_all (instructions x) b)) as H1.
  { pose proof (code_alike j 0 a b ltac:(lia)) as Hca. rewrite drop_0, take_0, Hc in Hca.
    specialize (Hca ltac:(destruct Hab as [Hh Ht]; split; [done|]; intros t Hlt [|Hbad]; [by apply Ht; [|left]|by apply elem_of_nil in Hbad])).
    destruct (exec_all (instructions x) a), (exec_all (instructions x) b); try done. by eapply public_weaken. }
  destruct (exec_all (instructions x) a) as [a1| |], (exec_all (instructions x) b) as [b1| |]; try done. cbn [steps_alike] in *. eexists. split; [done|].
  destruct (copied_runs h hb (instructions hb) l' r m m' a1 b1 Hcb ltac:(done) Hcp Hm H1) as (_ & Hdom & Hrun).
  destruct (cb_branch _ _ _ Hcb) as (c & u & v & Hbr & Hout). unfold run_block. rewrite Hterm, Hbr. cbn [fmap option_fmap option_map rewrite_input].
  eapply steps_bind; [exact Hrun|]. intros a2 b2 [Hpub Hr]. cbn [obind from_option_stuck exec_terminator].
  destruct (Hdom _ Hout) as [c' Hc']. destruct (Hr _ _ Hc') as (Heq & _). unfold replacement. rewrite Hc'. cbn [default]. unfold read_temp.
  change (id c') with c'. rewrite <- Heq. destruct (temp_values a2 !! temp c) as [[]|]; try done.
Qed.
Lemma latch_block j x y h hb l' r m m' a b : blocks f !! j = Some x → latched f (temps f') x y h hb l' r m m' → public_alike none a b →
  steps_alike exits_alike (obind (run_block x a) next_block) (run_block y b).
Proof.
  intros Hx Hl Hab. pose proof (latch_alike j x y h hb l' r m m' a b Hx Hl Hab) as Ha. destruct Hl as [Hcb Hj _ _ Hcode _ _]. unfold run_block at 1 2.
  rewrite Hcode, exec_all_app, Hj. destruct (exec_all (instructions x) a) as [a1| |], (exec_all (instructions x) b) as [b1| |]; try done.
  cbn [obind from_option_stuck exec_terminator next_block]. rewrite (cb_block _ _ _ Hcb). cbn [obind from_option_stuck]. destruct Ha as (e & <- & Ha). exact Ha.
Qed.

(** ** Whole runs *)
Lemma block_pair j : (∃ x y, blocks f !! j = Some x ∧ blocks f' !! j = Some y ∧ (y = x ∨ ∃ h hb l' r m m', latched f (temps f') x y h hb l' r m m'))
  ∨ (blocks f !! j = None ∧ blocks f' !! j = None).
Proof.
  destruct (blocks f !! j) as [x|] eqn:Hx; [left|right].
  - destruct (ro_blocks _ _ Hro j x Hx) as (y & Hy & Hor). eauto 10.
  - split; [done|]. apply lookup_ge_None. rewrite (ro_length _ _ Hro). by apply lookup_ge_None.
Qed.

Lemma run_forward n j a b : public_alike none a b → ends (run f n j a) → ∃ n', same_result (run f n j a) (run f' n' j b).
Proof.
  revert j a b. induction (lt_wf n) as [n _ IH]. intros j a b Hab He. destruct n as [|n]; [done|].
  destruct (block_pair j) as [(x & y & Hx & Hy & Hor)|[Hx Hy]]; [|exists 1; cbn [run]; by rewrite Hx, Hy].
  destruct Hor as [->|(h & hb & l' & r & m & m' & Hl)].
  - pose proof (same_block_alike j x a b Hx Hab) as Hs. cbn [run] in *. rewrite Hx in *. cbn [obind from_option_stuck] in *.
    destruct (run_block x a) as [[c a1|v a1|a1]|e w|] eqn:Ea, (run_block x b) as [[c' b1|v' b1|b1]|e' w'|] eqn:Eb; try done; cbn [obind] in *.
    + destruct Hs as [<- Hs]. destruct (IH n ltac:(lia) c a1 b1 Hs He) as [n' Hn']. exists (S n'). cbn [run]. rewrite Hy. cbn [obind from_option_stuck]. by rewrite Eb.
    + exists 1. cbn [run]. rewrite Hy. cbn [obind from_option_stuck]. by rewrite Eb.
    + exists 1. cbn [run]. rewrite Hy. cbn [obind from_option_stuck]. by rewrite Eb.
    + exists 1. cbn [run]. rewrite Hy. cbn [obind from_option_stuck]. by rewrite Eb.
    + exists 1. cbn [run]. rewrite Hy. cbn [obind from_option_stuck]. by rewrite Eb.
  - pose proof (latch_block j x y h hb l' r m m' a b Hx Hl Hab) as Hs. cbn [run] in *. rewrite Hx in *. cbn [obind from_option_stuck] in *.
    destruct (run_block x a) as [[c a1|v a1|a1]|e w|] eqn:Ea; cbn [obind next_block] in *.
    + destruct n as [|n]; [done|]. cbn [run] in *. destruct (blocks f !! c) as [z|]; cbn [obind from_option_stuck] in *.
      2: { exists 1. cbn [run]. rewrite Hy. cbn [obind from_option_stuck]. by destruct (run_block y b). }
      destruct (run_block z a1) as [[c2 a2|v a2|a2]|e w|] eqn:Ez, (run_block y b) as [[c' b1|v' b1|b1]|e' w'|] eqn:Eb; try done; cbn [obind] in *.
      * destruct Hs as [<- Hs]. destruct (IH n ltac:(lia) c2 a2 b1 Hs He) as [n' Hn']. exists (S n'). cbn [run]. rewrite Hy. cbn [obind from_option_stuck]. by rewrite Eb.
      * exists 1. cbn [run]. rewrite Hy. cbn [obind from_option_stuck]. by rewrite Eb.
      * exists 1. cbn [run]. rewrite Hy. cbn [obind from_option_stuck]. by rewrite Eb.
      * exists 1. cbn [run]. rewrite Hy. cbn [obind from_option_stuck]. by rewrite Eb.
      * exists 1. cbn [run]. rewrite Hy. cbn [obind from_option_stuck]. by rewrite Eb.
    + exists 1. cbn [run]. rewrite Hy. cbn [obind from_option_stuck]. by destruct (run_block y b) as [[]| |].
    + exists 1. cbn [run]. rewrite Hy. cbn [obind from_option_stuck]. by destruct (run_block y b) as [[]| |].
    + exists 1. cbn [run]. rewrite Hy. cbn [obind from_option_stuck]. by destruct (run_block y b) as [[]| |].
    + exists 1. cbn [run]. rewrite Hy. cbn [obind from_option_stuck]. by destruct (run_block y b) as [[]| |].
Qed.
Lemma run_backward n j a b : public_alike none a b → ends (run f' n j b) → ∃ n', same_result (run f n' j a) (run f' n j b).
Proof.
  revert j a b. induction n as [|n IH]; intros j a b Hab He; [done|].
  destruct (block_pair j) as [(x & y & Hx & Hy & Hor)|[Hx Hy]]; [|exists 1; cbn [run]; by rewrite Hx, Hy].
  cbn [run] in *. rewrite Hy in *. cbn [obind from_option_stuck] in *. destruct Hor as [->|(h & hb & l' & r & m & m' & Hl)].
  - pose proof (same_block_alike j x a b Hx Hab) as Hs.
    destruct (run_block x b) as [[c' b1|v' b1|b1]|e' w'|] eqn:Eb, (run_block x a) as [[c a1|v a1|a1]|e w|] eqn:Ea; try done; cbn [obind] in *.
    + destruct Hs as [-> Hs]. destruct (IH c' a1 b1 Hs He) as [n' Hn']. exists (S n'). cbn [run]. rewrite Hx. cbn [obind from_option_stuck]. by rewrite Ea.
    + exists 1. cbn [run]. rewrite Hx. cbn [obind from_option_stuck]. by rewrite Ea.
    + exists 1. cbn [run]. rewrite Hx. cbn [obind from_option_stuck]. by rewrite Ea.
    + exists 1. cbn [run]. rewrite Hx. cbn [obind from_option_stuck]. by rewrite Ea.
    + exists 1. cbn [run]. rewrite Hx. cbn [obind from_option_stuck]. by rewrite Ea.
  - pose proof (latch_block j x y h hb l' r m m' a b Hx Hl Hab) as Hs.
    assert (∀ k, run f (S (S k)) j a = obind (obind (run_block x a) next_block) (λ e, match e with Goto c s => run f k c s | _ => Finished e end)) as Htwo.
    { intros k. cbn [run]. rewrite Hx. cbn [obind from_option_stuck]. destruct (run_block x a) as [[c a1|v a1|a1]|e w|]; try done. cbn [obind next_block].
      destruct (blocks f !! c) as [z|]; [|done]. cbn [obind from_option_stuck]. by destruct (run_block z a1) as [[]| |]. }
    destruct (run_block y b) as [[c' b1|v' b1|b1]|e' w'|] eqn:Eb, (obind (run_block x a) next_block) as [[c a1|v a1|a1]|e w|] eqn:Ea; try done; cbn [obind] in *.
    + destruct Hs as [-> Hs]. destruct (IH c' a1 b1 Hs He) as [n' Hn']. exists (S (S n')). by rewrite Htwo.
    + exists 2. by rewrite Htwo.
    + exists 2. by rewrite Htwo.
    + exists 2. by rewrite Htwo.
    + exists 2. by rewrite Htwo.
Qed.
Lemma rotated_behaves s : behaves_from f f' s.
Proof.
  assert (public_alike none s s) as Hs by (split; [done|]; done). unfold behaves_from. rewrite (ro_entry _ _ Hro).
  split; intros n He; [by apply run_forward|by apply run_backward].
Qed.
End Runs.

(** ** What the next pass needs of the rotated function *)
Section Preserved.
Context `{CallContracts} (f f' : MirFunction) (Hf : shaped f) (Hro : rotated f f').

Lemma fits_rotated v : value_fits f v → value_fits f' v.
Proof. intros (mt & Hmt & Hty). exists mt. split; [|done]. by eapply prefix_lookup_Some; [|apply Hro]. Qed.
Lemma instruction_rotated i : instruction_shaped f i → instruction_shaped f' i.
Proof.
  intros [Hin Hout Hl Hc Hb]. split; [intros; by apply fits_rotated, Hin|intros; by apply fits_rotated, Hout| |done|done]. rewrite (ro_locals _ _ Hro). by destruct i.
Qed.
Lemma copied_shaped m l l' r m' : copied (temps f') ∅ m l l' r m' → (∀ i, i ∈ l → instruction_shaped f i) →
  (∀ i, i ∈ l' → instruction_shaped f' i) ∧ (∀ t v, r !! t = Some v → value_fits f' v) ∧ length l' = length l.
Proof.
  intros Hcp. remember (∅ : gmap nat MirValue) as r0 eqn:Hr0. induction Hcp as [r m|r m l l' r1 m1 i i' old Hcp IH Ho Htm Hset]; intros Hl.
  { subst. split; [by intros i ?%elem_of_nil|]. split; [|done]. intros t v. by rewrite lookup_empty. }
  destruct IH as (Hs & Hr & Hlen); [done|intros; apply Hl; apply elem_of_app; by left|]. destruct (Hl i) as [Hin Hout Hlo Hc Hb]; [apply elem_of_app; right; left|].
  set (dst := {| temp := m1; value_ty := value_ty old |}) in *. assert (value_fits f' dst) as Hdst by (by eexists; split).
  split_and!; [| |rewrite !length_app; cbn; lia].
  - intros x. rewrite elem_of_app, list_elem_of_singleton. intros [| ->]; [by apply Hs|]. destruct (set_output_spec _ _ _ Hset) as (_ & Ho' & Hin' & _ & Hb').
    rewrite inputs_rewrite in Hin'. split.
    + intros v. rewrite Hin', list_elem_of_fmap. intros (u & -> & Hu). unfold replacement. destruct (r1 !! temp u) as [u'|] eqn:Hu'; [by eapply Hr|]. by apply fits_rotated, Hin.
    + intros d Hd. rewrite Ho' in Hd. injection Hd as <-. done.
    + rewrite (ro_locals _ _ Hro). destruct i; cbn in Hset; try done; injection Hset as <-; done.
    + destruct i; cbn in Hset; try done; injection Hset as <-; try done. cbn in Ho. injection Ho as ->. done.
    + apply Hb'. by destruct i.
  - intros t v. rewrite lookup_insert_Some. intros [[_ <-]|[_ Hv]]; [done|by eapply Hr].
Qed.
Lemma rotated_shaped : shaped f'.
Proof.
  split; [rewrite (ro_entry _ _ Hro), (ro_length _ _ Hro); apply Hf|]. intros b' [j Hj]%list_elem_of_lookup.
  destruct (lookup_lt_is_Some_2 (blocks f) j) as [b Hb]; [rewrite <- (ro_length _ _ Hro); by eapply lookup_lt_Some|].
  destruct (ro_blocks _ _ Hro j b Hb) as (y & Hy & Hor). simplify_eq. pose proof (sh_blocks _ Hf b ltac:(by eapply list_elem_of_lookup_2)) as [Hi (t & Ht & Hs & Hv) Hc].
  destruct Hor as [->|(h & hb & l' & r & m & m' & [Hcb Hjmp Hm Hcp Hcode Hterm [Hc1 Hc2]])].
  - split; [intros; by apply instruction_rotated, Hi| |done]. exists t. rewrite (ro_length _ _ Hro). split_and!; [done|done|]. intros. by apply fits_rotated, Hv.
  - pose proof (sh_blocks _ Hf hb ltac:(eapply list_elem_of_lookup_2, Hcb)) as [Hi' (t' & Ht' & Hs' & Hv') Hc'].
    destruct (copied_shaped m _ l' r m' Hcp Hi') as (Hsl & Hr & Hlen). rewrite Ht' in Hterm. cbn in Hterm. split.
    + rewrite Hcode. intros i. rewrite elem_of_app. intros [|]; [by apply instruction_rotated, Hi|by apply Hsl].
    + eexists. split; [done|]. rewrite successors_rewrite, terminator_input_rewrite, (ro_length _ _ Hro). split; [done|]. intros v. rewrite fmap_Some. intros (u & Hu & ->).
      unfold replacement. destruct (r !! temp u) as [u'|] eqn:Hu'; [by eapply Hr|]. by apply fits_rotated, Hv'.
    + rewrite Hcode, length_app, Hc1, Hc2. lia.
Qed.

(** The copy reads what it has computed. *)
Lemma copied_reads m l l' r m' : copied (temps f') ∅ m l l' r m' → (∀ k i v, l !! k = Some i → v ∈ inputs i → temp v ∈ outputs_of (take k l)) →
  (∀ k i v, l' !! k = Some i → v ∈ inputs i → temp v ∈ outputs_of (take k l')) ∧ (∀ t, t ∈ outputs_of l → ∃ v, r !! t = Some v ∧ temp v ∈ outputs_of l').
Proof.
  intros Hcp. remember (∅ : gmap nat MirValue) as r0 eqn:Hr0. induction Hcp as [r m|r m l l' r1 m1 i i' old Hcp IH Ho Htm Hset]; intros Hl; [by split; [|intros t ?%elem_of_nil]|].
  destruct IH as [Hk Hr]; [done|..].
  { intros k x v Hx Hv. pose proof (lookup_lt_Some _ _ _ Hx). specialize (Hl k x v (lookup_app_l_Some _ _ _ _ Hx) Hv). by rewrite take_app_le in Hl by lia. }
  destruct (set_output_spec _ _ _ Hset) as (_ & Ho' & Hin' & _ & _). rewrite inputs_rewrite in Hin'.
  assert (∀ v, v ∈ inputs i → temp v ∈ outputs_of l) as Hi. { intros v Hv. specialize (Hl (length l) i v). rewrite list_lookup_middle, take_app_length in Hl by done. auto. }
  split.
  - intros k x v. rewrite lookup_app_Some. intros [Hx|[Hge Hx]] Hv.
    + pose proof (lookup_lt_Some _ _ _ Hx). rewrite take_app_le by lia. by eapply Hk.
    + apply list_lookup_singleton_Some in Hx as [Hx <-]. replace k with (length l') by lia. rewrite take_app_length. rewrite Hin' in Hv.
      apply list_elem_of_fmap in Hv as (u & -> & Hu). destruct (Hr _ (Hi u Hu)) as (u' & Hu' & Hout). unfold replacement. by rewrite Hu'.
  - intros t. unfold outputs_of. rewrite !bind_app, !elem_of_app. cbn. rewrite !app_nil_r. unfold written at 2 4. rewrite Ho, Ho'. cbn.
    destruct (decide (temp old = t)) as [->|Hne].
    + intros _. eexists. rewrite lookup_insert_eq. split; [done|]. apply elem_of_app. right. left.
    + rewrite list_elem_of_singleton. intros [Ht|]; [|congruence]. destruct (Hr t Ht) as (v & Hv & Hout). exists v. rewrite lookup_insert_ne by done. split; [done|]. apply elem_of_app. by left.
Qed.

(** A route through a closed condition. *)
Lemma route_through W h k : route f W h k → ∃ W2, route f W2 h (length (code f h)) ∧ ∀ t, t ∈ W2 → t ∈ W ∨ t ∈ outputs_of (code f h).
Proof.
  intros Hr. pose proof (route_block _ _ _ _ Hr) as Hk. remember (length (code f h) - k) as d eqn:Hd. revert W k Hr Hk Hd. induction d as [|d IH]; intros W k Hr Hk Hd.
  - exists W. replace (length (code f h)) with k by lia. auto.
  - destruct (lookup_lt_is_Some_2 (code f h) k) as [i Hi]; [lia|]. destruct (IH (written i ++ W) (S k)) as (W2 & HW2 & Hin); [by constructor|lia|lia|].
    exists W2. split; [done|]. intros t [Ht|]%Hin; [|by right]. apply elem_of_app in Ht as [Ht|]; [|by left]. right. unfold outputs_of. apply list_elem_of_bind. eauto using list_elem_of_lookup_2.
Qed.

(** A route of the rotated function, and what the original had written. *)
Definition matched (W' : list nat) (j k : nat) : Prop :=
  ∃ W, route f W j (Nat.min k (length (code f j))) ∧ ∀ t, t ∈ W → t ∈ W' ∨ private f t.
Lemma code_rotated j b b' : blocks f !! j = Some b → blocks f' !! j = Some b' → ∃ l', code f' j = code f j ++ l' ∧ instructions b' = instructions b ++ l'.
Proof.
  intros Hb Hb'. destruct (ro_blocks _ _ Hro j b Hb) as (y & Hy & Hor). simplify_eq. unfold code. rewrite Hb, Hb'. cbn.
  destruct Hor as [->|(h & hb & l' & r & m & m' & Hl)]; [exists []; by rewrite app_nil_r|]. exists l'. by rewrite (la_code _ _ _ _ _ _ _ _ _ _ Hl).
Qed.
Lemma block_original j b' : blocks f' !! j = Some b' → ∃ b, blocks f !! j = Some b.
Proof. intros Hb'. apply lookup_lt_is_Some_2. rewrite <- (ro_length _ _ Hro). by eapply lookup_lt_Some. Qed.
Lemma route_matched W' j k : route f' W' j k → matched W' j k.
Proof.
  induction 1 as [|W' j k i Hr (W & HW & Hsub) Hi|W' j x Hr (W & HW & Hsub) He].
  - exists []. rewrite (ro_entry _ _ Hro). split; [constructor|]. by intros t ?%elem_of_nil.
  - assert (∃ b', blocks f' !! j = Some b') as [b' Hb'] by (unfold code in Hi; destruct (blocks f' !! j); [eauto|done]).
    destruct (block_original j b' Hb') as [b Hb]. destruct (code_rotated j b b' Hb Hb') as (l' & Hcode & _). rewrite Hcode in Hi.
    destruct (decide (k < length (code f j))) as [Hlt|Hge].
    + rewrite lookup_app_l in Hi by done. rewrite Nat.min_l in HW by lia. exists (written i ++ W). rewrite Nat.min_l by lia. split; [by constructor|].
      intros t. rewrite !elem_of_app. intros [|Ht]; [by left; left|]. destruct (Hsub t Ht); [by left; right|by right].
    + rewrite Nat.min_r in HW by lia. exists W. rewrite Nat.min_r by lia. split; [done|]. intros t Ht. destruct (Hsub t Ht); [left; apply elem_of_app; by right|by right].
  - destruct He as (b' & t & Hb' & Ht & Hx). destruct (block_original j b' Hb') as [b Hb]. destruct (code_rotated j b b' Hb Hb') as (l' & Hcode & _).
    rewrite Hcode, length_app, Nat.min_r in HW by lia. unfold matched. rewrite Nat.min_0_l.
    destruct (ro_blocks _ _ Hro j b Hb) as (y & Hy & Hor). simplify_eq. destruct Hor as [->|(h & hb & l2 & r & m & m' & Hl)].
    + exists W. split; [|done]. apply route_edge with j; [done|]. by exists b, t.
    + destruct Hl as [Hcb Hjmp _ _ _ Hterm _]. destruct (cb_branch _ _ _ Hcb) as (c & u & v & Hbr & _).
      assert (route f W h 0) as Hh. { apply route_edge with j; [done|]. exists b, (Jump h). split_and!; [done|done|left]. }
      destruct (route_through W h 0 Hh) as (W2 & HW2 & Hin). exists W2. split.
      * apply route_edge with h; [done|]. exists hb, (Branch c u v). split_and!; [apply Hcb|done|]. rewrite Hbr, Ht in Hterm. cbn in Hterm. injection Hterm as ->. exact Hx.
      * intros s [Hs|Hs]%Hin; [by apply Hsub|]. right. exists h, hb. split; [done|]. unfold code in Hs. by rewrite (cb_block _ _ _ Hcb) in Hs.
Qed.

Lemma rotated_ready : ready f → ready f'.
Proof.
  intros Hready W' j k t Hr Hread. destruct (route_matched W' j k Hr) as (W & HW & Hsub). pose proof (route_block _ _ _ _ Hr) as Hkl.
  assert (∃ b', blocks f' !! j = Some b') as [b' Hb'].
  { unfold reads_at, term_at, code in Hread. destruct (blocks f' !! j); [eauto|]. destruct Hread as [(i & ? & _)|(_ & x & ? & _)]; done. }
  destruct (block_original j b' Hb') as [b Hb]. destruct (code_rotated j b b' Hb Hb') as (l' & Hcode & Hins).
  assert (∀ t, t ∈ outputs_of (take k (code f' j)) → t ∈ W') as Hsince by (intros u Hu; by eapply route_since).
  assert (reads_at f j k t → k ≤ length (code f j) → t ∈ W') as Hold.
  { intros Hrd Hk. rewrite Nat.min_l in HW by done. destruct (Hsub t (Hready _ _ _ _ HW Hrd)) as [|Hp]; [done|]. apply Hsince.
    rewrite Hcode, take_app_le by done. by eapply private_read. }
  destruct (ro_blocks _ _ Hro j b Hb) as (y & Hy & Hor). simplify_eq. destruct Hread as [(i & Hi & Ht)|(-> & x & Hx & Ht)].
  - rewrite Hcode in Hi. destruct (decide (k < length (code f j))) as [Hlt|Hge].
    + rewrite lookup_app_l in Hi by done. apply Hold; [|lia]. left. by exists i.
    + destruct Hor as [->|(h & hb & l2 & r & m & m' & [Hcb _ _ Hcp Hc2 _ _])].
      { assert (l' = []) as -> by (apply (app_inv_head (instructions b)); by rewrite app_nil_r, <- Hins). rewrite app_nil_r in Hi. apply lookup_lt_Some in Hi. lia. }
      assert (l' = l2) as -> by (apply (app_inv_head (instructions b)); congruence). rewrite lookup_app_r in Hi by lia.
      destruct (copied_reads m _ l2 r m' Hcp) as [Hrd _]; [intros k0 i0 v Hi0 Hv; by eapply cb_instruction|].
      apply list_elem_of_fmap in Ht as (v & -> & Hv). specialize (Hrd _ _ _ Hi Hv). apply Hsince. rewrite Hcode, take_app_ge by lia.
      unfold outputs_of. rewrite bind_app. apply elem_of_app. by right.
  - destruct Hor as [->|(h & hb & l2 & r & m & m' & [Hcb _ _ Hcp Hc2 Hterm _])].
    + assert (code f' j = code f j) as Heq by (unfold code; by rewrite Hb, Hb'). apply Hold; [|by rewrite Heq]. right. rewrite Heq. split; [done|]. exists x.
      split; [|done]. unfold term_at in *. rewrite Hb' in Hx. by rewrite Hb.
    + assert (l' = l2) as -> by (apply (app_inv_head (instructions b)); congruence).
      destruct (copied_reads m _ l2 r m' Hcp) as [_ Hrd]; [intros k0 i0 v Hi0 Hv; by eapply cb_instruction|].
      unfold term_at in Hx. rewrite Hb' in Hx. cbn in Hx. destruct (cb_branch _ _ _ Hcb) as (c & u & v & Hbr & Hout). rewrite Hbr in Hterm. cbn in Hterm. rewrite Hterm in Hx. injection Hx as <-.
      unfold term_reads in Ht. cbn in Ht. apply list_elem_of_singleton in Ht as ->. destruct (Hrd _ Hout) as (c' & Hc' & Hin). unfold replacement. rewrite Hc'. cbn.
      apply Hsince. rewrite Hcode, take_ge by done. unfold outputs_of. rewrite bind_app. apply elem_of_app. by right.
Qed.
End Preserved.
