(* ===== verification/MirRotationProps.v ===== *)
(** * Loop rotation preserves behaviour

    The search of [MirRotation] accepts closed conditions only, the copies it appends
    are the copies of [MirRotationSound], and its loops end. *)
From stdpp Require Import gmap.
From S2P Require Import Prelude Integer Scalar Payload RuntimeNumeric Contracts NumericProps Token.
From S2P Require Import Mir Pass MirSemantics MirVerify MirFlow MirPaths MirCopies MirCopiesSound MirCopiesProps MirRotation MirRotationSound.
Open Scope nat_scope.

Section Search.
Context `{CallContracts}.

(** ** Walking the blocks *)
Lemma prun_reach_blocks f excluded fuel pending visited : shaped f → length visited = length (blocks f) → (∀ b, b ∈ pending → b < length (blocks f)) →
  length pending + 2 * unvisited visited ≤ fuel → prun (reach_blocks f excluded fuel pending visited) (λ v, length v = length (blocks f)).
Proof.
  intros Hf. revert pending visited. induction fuel as [|fuel IH]; intros pending visited Hlen Hp Hfuel.
  { destruct pending; [by apply prun_ret|cbn in Hfuel; lia]. }
  destruct pending as [|b pending]; [by apply prun_ret|]. cbn [reach_blocks]. cbn in Hfuel. apply prun_charge_bind.
  assert (prun (reach_blocks f excluded fuel pending visited) (λ v, length v = length (blocks f))) as Hskip by (apply IH; [done|intros; apply Hp; by right|lia]).
  case_decide; [done|]. assert (b < length (blocks f)) as Hb by (apply Hp; left). destruct (lookup_lt_is_Some_2 visited b) as [seen Hseen]; [lia|].
  apply prun_bind. eapply prun_expect; [done|]. destruct seen; [done|]. destruct (lookup_lt_is_Some_2 _ _ Hb) as [x Hx]. apply prun_bind. eapply prun_expect; [done|].
  destruct (sb_terminator _ _ (sh_blocks _ Hf x ltac:(by eapply list_elem_of_lookup_2))) as (t & Ht & Hs & _). apply prun_bind. eapply prun_expect; [done|].
  apply IH; [by rewrite length_insert| |].
  - intros y. rewrite elem_of_app, elem_of_reverse. intros [|]; [by apply Hs|apply Hp; by right].
  - rewrite length_app, length_reverse. rewrite (unvisited_insert _ _ Hseen) in Hfuel. pose proof (successors_length t). lia.
Qed.
Lemma unvisited_replicate n : unvisited (replicate n false) = n.
Proof. unfold unvisited. induction n as [|n IH]; [done|]. cbn [replicate]. rewrite list.filter_cons, decide_True by done. cbn. by rewrite IH. Qed.
Lemma prun_reachable_from f excluded : shaped f → prun (reachable_from f excluded) (λ v, length v = length (blocks f)).
Proof.
  intros Hf. apply prun_charge_bind, prun_reach_blocks; [done|apply length_replicate| |rewrite unvisited_replicate; cbn; lia].
  intros b ->%list_elem_of_singleton. apply Hf.
Qed.

(** ** Jump predecessors and headers *)
Definition jumps_to (f : MirFunction) (j h : nat) : Prop := ∃ b, blocks f !! j = Some b ∧ terminator b = Some (Jump h).
Lemma prun_push_at lists index value : index < length lists → prun (push_at lists index value) (λ l', ∃ l, lists !! index = Some l ∧ l' = <[index := l ++ [value]]> lists).
Proof. intros Hlt. destruct (lookup_lt_is_Some_2 _ _ Hlt) as [l Hl]. apply prun_bind. eapply prun_expect; [done|]. apply prun_ret. eauto. Qed.

Record jump_lists (f : MirFunction) (bound : nat) (preds : list (list nat)) : Prop := {
  jl_length : length preds = length (blocks f);
  jl_jump h l j : preds !! h = Some l → j ∈ l → j < bound ∧ jumps_to f j h;
  jl_nodup h l : preds !! h = Some l → NoDup l
}.
Lemma prun_jump_predecessors f : shaped f →
  prun (fold_each jump_predecessors (0, replicate (length (blocks f)) []) (blocks f)) (λ r, jump_lists f (length (blocks f)) (snd r)).
Proof.
  intros Hf. eapply prun_mono; [apply (prun_fold_each _ _ (λ p s, fst s = length p ∧ jump_lists f (length p) (snd s)))|by intros r [_ Hr]].
  - split; [done|]. cbn. split; [apply length_replicate|..].
    + intros h l j [-> _]%lookup_replicate. by intros ?%elem_of_nil.
    + intros h l [-> _]%lookup_replicate. constructor.
  - intros p x q [index preds] Hl [Hidx [Hlen Hj Hn]]. cbn [fst snd] in *. subst index. unfold jump_predecessors. cbn [fst snd]. apply prun_charge_bind, prun_bind.
    assert (blocks f !! length p = Some x) as Hx by (rewrite Hl; by apply list_lookup_middle).
    assert (jump_lists f (length (p ++ [x])) preds) as Hsame.
    { split; [done| |done]. intros h l j Hh Hin. destruct (Hj h l j Hh Hin). rewrite length_app. cbn. split; [lia|done]. }
    destruct (sb_terminator _ _ (sh_blocks _ Hf x ltac:(by eapply list_elem_of_lookup_2))) as (t & Ht & Hs & _). rewrite Ht.
    assert (prun (pret preds) (λ ps, prun (pret (S (length p), ps)) (λ s', fst s' = length (p ++ [x]) ∧ jump_lists f (length (p ++ [x])) (snd s')))) as Hret.
    { apply prun_ret, prun_ret. cbn. split; [rewrite length_app; cbn; lia|done]. }
    destruct t as [|h| |]; try exact Hret. eapply prun_mono; [apply prun_push_at; rewrite Hlen; apply Hs; left|]. intros ? (l & Hh & ->).
    apply prun_ret. cbn [fst snd]. split; [rewrite length_app; cbn; lia|]. rewrite length_app. cbn. split; [by rewrite length_insert|..].
    + intros h' l' j. rewrite list_lookup_insert_Some. intros [(<- & <- & _)|[Hne Hl']].
      * rewrite elem_of_app, list_elem_of_singleton. intros [Hin| ->]; [destruct (Hj h l j Hh Hin); split; [lia|done]|]. split; [lia|]. by exists x.
      * intros Hin. destruct (Hj h' l' j Hl' Hin). split; [lia|done].
    + intros h' l'. rewrite list_lookup_insert_Some. intros [(<- & <- & _)|[Hne Hl']]; [|by eapply Hn]. apply list.NoDup_app. split_and!; [by eapply Hn| |apply NoDup_singleton].
      intros j Hin ->%list_elem_of_singleton. destruct (Hj h l _ Hh Hin). lia.
Qed.

Definition branches (f : MirFunction) (h : nat) : Prop := ∃ b c x y, blocks f !! h = Some b ∧ terminator b = Some (Branch c x y).
Lemma prun_headers f preds : length preds = length (blocks f) →
  prun (fold_each (collect_header preds) (0, []) (blocks f)) (λ r, NoDup (snd r) ∧ ∀ h, h ∈ snd r → branches f h).
Proof.
  intros Hlen. eapply prun_mono; [apply (prun_fold_each _ _ (λ p s, fst s = length p ∧ NoDup (snd s) ∧ ∀ h, h ∈ snd s → h < length p ∧ branches f h))|intros r (_ & ? & Hb); split; [done|intros h Hh; by apply Hb]].
  - cbn. split_and!; [done|constructor|]. by intros h ?%elem_of_nil.
  - intros p x q [index hs] Hl (Hidx & Hnd & Hlt). cbn [fst snd] in *. subst index. unfold collect_header, header_block. cbn [fst snd].
    destruct (lookup_lt_is_Some_2 preds (length p)) as [ps Hps]; [rewrite Hlen, Hl, length_app; cbn; lia|]. apply prun_bind, prun_bind. eapply prun_expect; [done|]. apply prun_ret, prun_ret.
    cbn [fst snd]. rewrite length_app. cbn [length]. split; [lia|]. destruct (_ && _ && _ && _) eqn:E.
    + split; [apply list.NoDup_app; split_and!; [done| |apply NoDup_singleton]|].
      * intros h [Hh _]%Hlt ->%list_elem_of_singleton. lia.
      * intros h. rewrite elem_of_app, list_elem_of_singleton. intros [[Hh ?]%Hlt| ->]; [split; [lia|done]|]. split; [lia|]. rewrite !andb_true_iff in E. destruct E as [[[_ E] _] _].
        exists x. destruct (terminator x) as [[]|] eqn:Ht; try done. do 3 eexists. split; [rewrite Hl; by apply list_lookup_middle|done].
    + split; [done|]. intros h [Hh ?]%Hlt. split; [lia|done].
Qed.

(** ** Readers *)
Definition noted (users : list (list nat)) (t j : nat) : Prop := ∃ us, users !! t = Some us ∧ j ∈ us.
Lemma prun_push_user index t users n : length users = n → t < n →
  prun (push_at users t index) (λ users', length users' = n ∧ (∀ u j, noted users u j → noted users' u j) ∧ noted users' t index).
Proof.
  intros Hlen Ht. eapply prun_mono; [apply prun_push_at; by rewrite Hlen|]. intros ? (l & Hlk & ->). split_and!; [by rewrite length_insert| |].
  - intros u j (l' & Hl' & Hj). unfold noted. destruct (decide (t = u)) as [<-|Hne].
    + rewrite list_lookup_insert_eq by (by eapply lookup_lt_Some). eexists. split; [done|]. simplify_eq. apply elem_of_app. by left.
    + rewrite list_lookup_insert_ne by done. eauto.
  - eexists. rewrite list_lookup_insert_eq by (by eapply lookup_lt_Some). split; [done|]. apply elem_of_app. right. left.
Qed.
Lemma prun_push_users index vs users n : length users = n → (∀ v, v ∈ vs → temp v < n) →
  prun (fold_each (λ users v, push_at users (temp v) index) users vs)
    (λ users', length users' = n ∧ (∀ t j, noted users t j → noted users' t j) ∧ ∀ v, v ∈ vs → noted users' (temp v) index).
Proof.
  intros Hlen Hv. apply (prun_fold_each _ _ (λ p users', length users' = n ∧ (∀ t j, noted users t j → noted users' t j) ∧ ∀ v, v ∈ p → noted users' (temp v) index)).
  - split_and!; [done..|]. by intros v ?%elem_of_nil.
  - intros p v q us Hl (Hlen' & Hold & Hnew). eapply prun_mono; [apply prun_push_user; [done|]; apply Hv; rewrite Hl; set_solver|].
    intros us' (? & Hkeep & Hv'). split_and!; [done|auto|]. intros u. rewrite elem_of_app, list_elem_of_singleton. intros [Hu| ->]; [by apply Hkeep, Hnew|done].
Qed.

Record notes_ok (f : MirFunction) (s : list nat * list (list nat)) : Prop := {
  no_definitions : length (fst s) = length (temps f);
  no_users : length (snd s) = length (temps f)
}.
Lemma prun_note_instruction f index s i : shaped f → notes_ok f s → instruction_shaped f i →
  prun (note_instruction index s i)
    (λ s', notes_ok f s' ∧ (∀ t j, noted (snd s) t j → noted (snd s') t j) ∧ ∀ v, v ∈ inputs i → noted (snd s') (temp v) index).
Proof.
  intros Hf [Hd Hu] [Hin Hout _ _ _]. unfold note_instruction. apply prun_charge_bind, prun_bind. eapply prun_mono with (Q := λ ds, length ds = length (temps f)).
  - destruct (output i) as [dst|]; [|by apply prun_ret]. destruct (Hout dst eq_refl) as (mt & Hmt & _). unfold bump.
    destruct (lookup_lt_is_Some_2 (fst s) (temp dst)) as [c Hc]; [rewrite Hd; by eapply lookup_lt_Some|]. apply prun_bind. eapply prun_expect; [done|]. apply prun_ret. by rewrite length_insert.
  - intros ds Hds. apply prun_bind. eapply prun_mono; [apply prun_push_users; [done|]|].
    + intros v (mt & Hmt & _)%Hin. by eapply lookup_lt_Some.
    + intros us (Hl & Hold & Hnew). apply prun_ret. by split; [split|].
Qed.
Lemma prun_notes f : shaped f →
  prun (fold_each note_block (0, (replicate (length (temps f)) 0, replicate (length (temps f)) [])) (blocks f))
    (λ r, notes_ok f (snd r) ∧ ∀ t j k, reads_at f j k t → noted (snd (snd r)) t j).
Proof.
  intros Hf. eapply prun_mono; [apply (prun_fold_each _ _ (λ p s, fst s = length p ∧ notes_ok f (snd s) ∧ ∀ t j k, j < length p → reads_at f j k t → noted (snd (snd s)) t j))|].
  - cbn. split_and!; [done|split; apply length_replicate|]. intros; lia.
  - intros p x q [index s] Hl (Hidx & Hok & Hn). cbn [fst snd] in *. subst index. unfold note_block. cbn [fst snd].
    assert (blocks f !! length p = Some x) as Hx by (rewrite Hl; by apply list_lookup_middle). pose proof (sh_blocks _ Hf x ltac:(by eapply list_elem_of_lookup_2)) as [Hi (t & Ht & _ & Htv) _].
    apply prun_bind. eapply prun_mono.
    { apply (prun_fold_each _ _ (λ c s', notes_ok f s' ∧ (∀ t j, noted (snd s) t j → noted (snd s') t j) ∧ ∀ i v, i ∈ c → v ∈ inputs i → noted (snd s') (temp v) (length p))).
      - split_and!; [done..|]. by intros i v ?%elem_of_nil.
      - intros c i c' s' Hc (Hok' & Hold & Hnew). eapply prun_mono; [apply (prun_note_instruction f); [done|done|apply Hi; rewrite Hc; set_solver]|].
        intros s'' (Hok'' & Hold' & Hnew'). split_and!; [done|auto|]. intros i' v. rewrite elem_of_app, list_elem_of_singleton. intros [Hi'| ->] Hv; [by apply Hold', (Hnew i')|by apply Hnew']. }
    intros s' (Hok' & Hold & Hnew). apply prun_bind.
    eapply prun_mono with (Q := λ us, length us = length (temps f) ∧ (∀ t j, noted (snd s') t j → noted us t j) ∧ ∀ v, terminator_input t = Some v → noted us (temp v) (length p)).
    { rewrite Ht. cbn [mbind option_bind]. destruct (terminator_input t) as [v|] eqn:Hv; [|apply prun_ret; split_and!; [apply Hok'|done|done]].
      destruct (Htv v eq_refl) as (mt & Hmt & _). eapply prun_mono; [apply prun_push_user; [apply Hok'|by eapply lookup_lt_Some]|]. intros us (? & ? & Hu). split_and!; [done|done|]. by intros u [= <-]. }
    intros us (Hlen & Hold' & Hterm). apply prun_ret. cbn [fst snd]. rewrite length_app. cbn. split_and!; [lia|by split; [apply Hok'|]|].
    intros u j k Hj Hr. destruct (decide (j < length p)) as [Hlt|Hge]; [by eapply Hold', Hold, Hn|]. assert (j = length p) as -> by lia.
    unfold reads_at, term_at, code in Hr. rewrite Hx in Hr. cbn in Hr. destruct Hr as [(i & Hik & (v & -> & Hv)%list_elem_of_fmap)|(_ & y & Hy & Hu)].
    + apply Hold', (Hnew i); [by eapply list_elem_of_lookup_2|done].
    + rewrite Ht in Hy. injection Hy as <-. unfold term_reads in Hu. destruct (terminator_input t) as [v|]; cbn in Hu; [|by apply elem_of_nil in Hu]. apply list_elem_of_singleton in Hu as ->. by apply Hterm.
  - intros [idx s] (_ & Hok & Hn). split; [done|]. intros t j k Hr. eapply Hn; [|done]. unfold reads_at, term_at, code in Hr.
    destruct (blocks f !! j) eqn:Hb; [by eapply lookup_lt_Some|]. destruct Hr as [(i & ? & _)|(_ & y & ? & _)]; done.
Qed.
End Search.

(** ** Closed conditions *)
Section Conditions.
Context `{CallContracts} (f : MirFunction) (Hf : shaped f).
Context (definitions : list nat) (users : list (list nat)) (Hnotes : notes_ok f (definitions, users))
        (Husers : ∀ t j k, reads_at f j k t → noted users t j).

Definition closed_prefix (h : nat) (p : list Instruction) : Prop :=
  (∀ k i, p !! k = Some i → condition_instruction i = true ∧ (∀ v, v ∈ inputs i → temp v ∈ outputs_of (take k p))
    ∧ ∃ dst, output i = Some dst ∧ scalar_value_type (value_ty dst) = true)
  ∧ ∀ t j k, t ∈ outputs_of p → reads_at f j k t → j = h.
Lemma closed_snoc h p i dst us : closed_prefix h p → condition_instruction i = true → (∀ v, v ∈ inputs i → temp v ∈ outputs_of p) → output i = Some dst →
  scalar_value_type (value_ty dst) = true → users !! temp dst = Some us → (∀ b, b ∈ us → b = h) → closed_prefix h (p ++ [i]).
Proof.
  intros [Hp Hr] Hc Hin Ho Hs Hus Hall. split.
  - intros k x. rewrite lookup_app_Some. intros [Hx|[Hge Hx]].
    + pose proof (lookup_lt_Some _ _ _ Hx). rewrite take_app_le by lia. by apply Hp.
    + apply list_lookup_singleton_Some in Hx as [Hx <-]. replace k with (length p) by lia. rewrite take_app_length. eauto.
  - intros t j k. unfold outputs_of. rewrite bind_app, elem_of_app. cbn. rewrite app_nil_r. unfold written at 2. rewrite Ho. cbn. rewrite list_elem_of_singleton.
    intros [Ht| ->] Hread; [by eapply Hr|]. destruct (Husers _ _ _ Hread) as (us' & Hus' & Hj). simplify_eq. by apply Hall.
Qed.
Lemma prun_closed_outputs h l p outs : (∀ i, i ∈ l → instruction_shaped f i) → closed_prefix h p → (∀ t, t ∈ outs ↔ t ∈ outputs_of p) →
  prun (closed_outputs h definitions users outs l) (λ o, ∀ outs', o = Some outs' → closed_prefix h (p ++ l) ∧ ∀ t, t ∈ outs' ↔ t ∈ outputs_of (p ++ l)).
Proof.
  revert p outs. induction l as [|i l IH]; intros p outs Hl Hp Houts; cbn [closed_outputs].
  { apply prun_ret. intros ? [= <-]. by rewrite app_nil_r. }
  assert (∀ A (o : option A), o = None → prun (pret o) (λ o, ∀ x, o = Some x → False)) as Hno by (intros A o ->; by apply prun_ret).
  apply prun_charge_bind. destruct (negb (condition_instruction i) || _) eqn:E; [by apply prun_ret|]. apply orb_false_iff in E as [Hc Hin]. apply negb_false_iff in Hc.
  destruct (output i) as [dst|] eqn:Ho; [|by apply prun_ret]. destruct (sh_output _ _ (Hl i ltac:(left)) dst Ho) as (mt & Hmt & _). apply lookup_lt_Some in Hmt as Hlt.
  destruct (lookup_lt_is_Some_2 users (temp dst)) as [us Hus]; [pose proof (no_users _ _ Hnotes) as Hnu; cbn in Hnu; by rewrite Hnu|]. apply prun_bind. eapply prun_expect; [done|]. apply prun_charge_bind.
  destruct (scalar_value_type (value_ty dst)) eqn:Hs; [|by apply prun_ret]. cbn [negb]. destruct (lookup_lt_is_Some_2 definitions (temp dst)) as [c Hcd]; [pose proof (no_definitions _ _ Hnotes) as Hnu; cbn in Hnu; by rewrite Hnu|].
  apply prun_bind. eapply prun_expect; [done|]. destruct (negb (c =? 1) || _) eqn:E; [by apply prun_ret|]. apply orb_false_iff in E as [_ Hall].
  assert (closed_prefix h (p ++ [i])) as Hp'.
  { eapply closed_snoc; [done|done| |done|done|done|].
    - intros v Hv. apply Houts. destruct (decide (temp v ∈ outs)) as [|Hn]; [done|]. exfalso. apply not_true_iff_false in Hin. apply Hin. apply existsb_exists. exists v.
      split; [by apply list_elem_of_In|]. by rewrite bool_decide_eq_false_2.
    - intros b Hb. destruct (decide (b = h)) as [|Hn]; [done|]. exfalso. apply not_true_iff_false in Hall. apply Hall. apply existsb_exists. exists b.
      split; [by apply list_elem_of_In|]. by rewrite (proj2 (Nat.eqb_neq b h) Hn). }
  eapply prun_mono; [apply (IH (p ++ [i])); [intros; apply Hl; by right|done|]|].
  - intros t. rewrite elem_of_cons, Houts. unfold outputs_of. rewrite bind_app, elem_of_app. cbn. rewrite app_nil_r. unfold written at 3. rewrite Ho. cbn. rewrite list_elem_of_singleton. tauto.
  - intros o Hres outs' Heq. specialize (Hres outs' Heq). by rewrite <- app_assoc in Hres.
Qed.
Lemma prun_closed_condition h b : blocks f !! h = Some b → (∃ c x y, terminator b = Some (Branch c x y)) →
  prun (closed_condition h definitions users b) (λ c, c = true → closed_block f h b).
Proof.
  intros Hb (c & x & y & Ht). unfold closed_condition. apply prun_bind. eapply prun_mono; [apply (prun_closed_outputs h _ [])|].
  - apply (sh_blocks _ Hf b). by eapply list_elem_of_lookup_2.
  - split; [done|]. by intros t j k ?%elem_of_nil.
  - intros t. rewrite !elem_of_nil. done.
  - intros o Ho. apply prun_ret. rewrite Ht. cbn [mbind option_bind terminator_input]. destruct o as [outs|]; [|done]. intros Hin%bool_decide_eq_true.
    destruct (Ho outs eq_refl) as [[Hp Hr] Houts]. cbn [app] in *. split; [done| |done|done]. exists c, x, y. split; [done|]. by apply Houts.
Qed.
Lemma prun_collect_conditions headers : NoDup headers → (∀ h, h ∈ headers → ∃ b c x y, blocks f !! h = Some b ∧ terminator b = Some (Branch c x y)) →
  prun (fold_each (collect_condition f definitions users) [] headers) (λ cs, NoDup cs.*1 ∧ ∀ h b, (h, b) ∈ cs → closed_block f h b).
Proof.
  intros Hnd Hh. eapply prun_mono; [apply (prun_fold_each _ _ (λ p cs, NoDup cs.*1 ∧ (∀ h, h ∈ cs.*1 → h ∈ p) ∧ ∀ h b, (h, b) ∈ cs → closed_block f h b))|by intros cs (? & _ & ?)].
  - cbn. split_and!; [constructor|done|]. by intros h b ?%elem_of_nil.
  - intros p h q cs Hl (Hn & Hsub & Hc). destruct (Hh h) as (b & c & x & y & Hb & Ht); [rewrite Hl; set_solver|]. apply prun_bind. eapply prun_expect; [done|].
    apply prun_bind. eapply prun_mono; [apply prun_closed_condition; eauto|]. intros [] Hcl; apply prun_ret.
    + rewrite fmap_app. cbn. split_and!.
      * apply list.NoDup_app. split_and!; [done| |apply NoDup_singleton]. intros h' Hin ->%list_elem_of_singleton. apply Hsub in Hin.
        rewrite Hl in Hnd. apply list.NoDup_app in Hnd as (_ & Hnd & _). apply (Hnd h Hin). left.
      * intros h'. rewrite !elem_of_app, !list_elem_of_singleton. intros [?| ->]; [left; auto|by right].
      * intros h' b'. rewrite elem_of_app, list_elem_of_singleton. intros [?|[= -> ->]]; [by apply Hc|by apply Hcl].
    + split_and!; [done| |done]. intros h' Hin. apply elem_of_app. left. auto.
Qed.
End Conditions.

(** ** Copies *)
Section Copies.
Context `{CallContracts} (f : MirFunction) (Hf : shaped f).

Lemma copied_prefix tm tm' r m l l' r' m' : tm `prefix_of` tm' → copied tm r m l l' r' m' → copied tm' r m l l' r' m'.
Proof. intros Hp. induction 1; [constructor|]. econstructor; [done|done| |done]. by eapply prefix_lookup_Some. Qed.
Lemma latched_prefix tm tm' b b' h hb l' r m m' : tm `prefix_of` tm' → latched f tm b b' h hb l' r m m' → latched f tm' b b' h hb l' r m m'.
Proof. intros Hp [? ? ? ? ? ? ?]. split; try done. by eapply copied_prefix. Qed.

(** The function while a condition is being copied. *)
Record copying_from (g : MirFunction) (p : list Instruction) (s : Copying) : Prop := {
  cy_copied : copied (temps (co_function s)) ∅ (length (temps g)) p (co_instructions s) (co_replacements s) (length (temps (co_function s)));
  cy_temps : temps g `prefix_of` temps (co_function s);
  cy_same : blocks (co_function s) = blocks g ∧ entry (co_function s) = entry g ∧ locals (co_function s) = locals g ∧ params (co_function s) = params g;
  cy_length : length (co_instructions s) = length p;
  cy_dom t : t ∈ outputs_of p → is_Some (co_replacements s !! t)
}.
Lemma prun_copy_condition g h hb : closed_block f h hb →
  prun (fold_each copy_instruction {| co_function := g; co_replacements := ∅; co_instructions := [] |} (instructions hb)) (copying_from g (instructions hb)).
Proof.
  intros Hcb. apply (prun_fold_each _ _ (copying_from g)).
  - split; cbn; [constructor|done|done|done|]. by intros t ?%elem_of_nil.
  - intros p i q s Hl [Hcp Ht Hsame Hlen Hdom]. assert (instructions hb !! length p = Some i) as Hi by (rewrite Hl; by apply list_lookup_middle).
    destruct (cb_instruction _ _ _ Hcb _ _ Hi) as (Hc & Hin & old & Ho & _). rewrite Hl, take_app_length in Hin. unfold copy_instruction. apply prun_charge_bind, prun_bind.
    eapply prun_expect; [done|]. cbv zeta. apply prun_bind. eapply prun_mono with (Q := λ x, x = rewrite_inputs (replacement (co_replacements s)) i).
    { apply prun_bind. eapply prun_mono; [apply (prun_fold_each _ _ (λ _ _, True)); [done|]|intros ? _; by apply prun_ret].
      intros c v c' u Hv _. destruct (Hdom (temp v)) as [v' Hv']; [apply Hin; rewrite Hv; set_solver|]. apply prun_bind. eapply prun_expect; [done|]. by apply prun_ret. }
    intros x ->. set (dst := {| temp := length (temps (co_function s)); value_ty := value_ty old |}).
    assert (∃ i', set_output dst (rewrite_inputs (replacement (co_replacements s)) i) = Some i') as [i' Hset] by (destruct i; try done; eexists; reflexivity).
    apply prun_bind. eapply prun_expect; [exact Hset|]. apply prun_ret.
    assert (temps (co_function s) `prefix_of` temps (co_function s) ++ [{| temp_ty := value_ty old |}]) as Hpre by (by apply prefix_app_r).
    split; cbn [co_function co_replacements co_instructions temps with_temps blocks entry locals params].
    + rewrite length_app. cbn [length]. rewrite Nat.add_1_r. econstructor; [by eapply copied_prefix|done| |exact Hset]. by apply list_lookup_middle.
    + by etrans.
    + done.
    + rewrite !length_app. cbn. lia.
    + intros t. unfold outputs_of. rewrite bind_app, elem_of_app. cbn. rewrite app_nil_r. unfold written at 2. rewrite Ho. cbn. rewrite list_elem_of_singleton.
      intros [Hin'| ->]; [|by rewrite lookup_insert_eq]. destruct (decide (temp old = t)) as [->|]; [by rewrite lookup_insert_eq|]. rewrite lookup_insert_ne by done. by apply Hdom.
Qed.

(** One latch. *)
Lemma prun_append h hb g j b : closed_block f h hb → rotated f g → blocks f !! j = Some b → terminator b = Some (Jump h) → blocks g !! j = Some b →
  prun (append_condition hb g j) (λ g', rotated f g' ∧ ∀ j', j' ≠ j → blocks g' !! j' = blocks g !! j').
Proof.
  intros Hcb Hg Hb Hj Hgj. unfold append_condition. apply prun_bind. eapply prun_mono; [by apply (prun_copy_condition g h)|]. intros s [Hcp Htm (Hbl & Hen & Hlo & Hpa) Hlen Hdom]. cbv zeta.
  apply prun_bind. eapply prun_expect; [by rewrite Hbl|]. destruct (cb_branch _ _ _ Hcb) as (c & x & y & Ht & Hc). apply prun_bind. eapply prun_expect; [done|].
  destruct (Hdom _ Hc) as [c' Hc']. cbn [terminator_input]. apply prun_bind, prun_bind. eapply prun_expect; [done|]. apply prun_ret, prun_ret.
  pose proof (ro_temps _ _ Hg) as Hpre. split.
  - split; cbn [with_blocks entry locals params temps blocks].
    + rewrite Hen. apply Hg.
    + rewrite Hlo. apply Hg.
    + rewrite Hpa. apply Hg.
    + by etrans.
    + rewrite length_insert, Hbl. apply Hg.
    + intros j' b' Hb'. destruct (decide (j' = j)) as [->|Hne].
      * simplify_eq. rewrite Hbl, list_lookup_insert_eq by (by eapply lookup_lt_Some). eexists. split; [done|]. right.
        exists h, hb, (co_instructions s), (co_replacements s), (length (temps g)), (length (temps (co_function s))). split; cbn; [done|done|by apply prefix_length|done|done|by rewrite Ht|].
        by rewrite !length_app.
      * rewrite Hbl, list_lookup_insert_ne by done. destruct (ro_blocks _ _ Hg j' b' Hb') as (y' & Hy' & [->|(h' & hb' & l' & r & m & m' & Hla)]); [eauto|].
        exists y'. split; [done|]. right. exists h', hb', l', r, m, m'. by eapply latched_prefix.
  - intros j' Hne. cbn. by rewrite Hbl, list_lookup_insert_ne.
Qed.
Lemma prun_append_all h hb g latches : closed_block f h hb → rotated f g → NoDup latches → (∀ j, j ∈ latches → jumps_to f j h ∧ blocks g !! j = blocks f !! j) →
  prun (fold_each (append_condition hb) g latches) (λ g', rotated f g' ∧ ∀ j, j ∉ latches → blocks g' !! j = blocks g !! j).
Proof.
  intros Hcb Hg Hnd Hl. apply (prun_fold_each _ _ (λ p g', rotated f g' ∧ ∀ j, j ∉ p → blocks g' !! j = blocks g !! j)).
  - by split.
  - intros p j q g' Heq [Hg' Hsame]. destruct (Hl j) as [(b & Hb & Hj) Hgb]; [rewrite Heq; set_solver|].
    assert (j ∉ p) as Hn. { rewrite Heq in Hnd. apply list.NoDup_app in Hnd as (_ & Hd & _). intros Hin. apply (Hd j Hin). left. }
    eapply prun_mono; [eapply (prun_append h hb g' j b); [done..|]; by rewrite Hsame, Hgb|]. intros g2 [Hg2 Hs2]. split; [done|].
    intros j'. rewrite elem_of_app, list_elem_of_singleton. intros Hj'. rewrite Hs2 by tauto. apply Hsame. tauto.
Qed.
End Copies.

(** ** The pass *)
Section Whole.
Context `{CallContracts}.

Lemma rotated_refl f : rotated f f.
Proof. split; try done. intros j b Hb. exists b. eauto. Qed.
Lemma prun_latches initial bypass n ps : length initial = n → length bypass = n → (∀ j, j ∈ ps → j < n) → NoDup ps →
  prun (fold_each (collect_latch initial bypass) [] ps) (λ ls, NoDup ls ∧ ∀ j, j ∈ ls → j ∈ ps).
Proof.
  intros Hi Hb Hlt Hnd. apply (prun_fold_each _ _ (λ p ls, NoDup ls ∧ ∀ j, j ∈ ls → j ∈ p)).
  - split; [constructor|done].
  - intros p j q ls Hl [Hn Hsub]. assert (j < n) as Hj by (apply Hlt; rewrite Hl; set_solver). unfold collect_latch. apply prun_charge_bind.
    assert (∀ j', j' ∈ ls → j' ∈ p ++ [j]) as Hsub' by (intros j' Hj'; apply elem_of_app; left; auto).
    destruct (lookup_lt_is_Some_2 initial j) as [r Hr]; [lia|]. apply prun_bind. eapply prun_expect; [done|]. destruct r; cbn [negb]; [|by apply prun_ret].
    destruct (lookup_lt_is_Some_2 bypass j) as [x Hx]; [lia|]. apply prun_bind. eapply prun_expect; [done|]. apply prun_ret. destruct x; cbn [negb]; [done|]. split.
    + apply list.NoDup_app. split_and!; [done| |apply NoDup_singleton]. intros j' Hin%Hsub ->%list_elem_of_singleton.
      rewrite Hl in Hnd. apply list.NoDup_app in Hnd as (_ & Hd & _). apply (Hd j Hin). left.
    + intros j'. rewrite !elem_of_app, !list_elem_of_singleton. intros [?| ->]; [left; auto|by right].
Qed.

(** Jumps to the headers still to come are as they were. *)
Definition rotating (f : MirFunction) (passed : list nat) (g : MirFunction) : Prop :=
  rotated f g ∧ ∀ j h, jumps_to f j h → h ∉ passed → blocks g !! j = blocks f !! j.
Lemma prun_rotate_condition f preds initial passed g duplicated h hb : shaped f → jump_lists f (length (blocks f)) preds → length initial = length (blocks f) →
  closed_block f h hb → h ∉ passed → rotating f passed g → prun (rotate_condition preds initial (g, duplicated) (h, hb)) (λ s, rotating f (passed ++ [h]) (fst s)).
Proof.
  intros Hf [Hpl Hpj Hpn] Hil Hcb Hh [Hg Hpend]. unfold rotate_condition. apply prun_bind. eapply prun_mono; [apply prun_reachable_from; by apply (rotated_shaped f g)|]. intros bypass Hbl. cbn beta in Hbl.
  assert (h < length (blocks f)) as Hlt by (eapply lookup_lt_Some, Hcb). destruct (lookup_lt_is_Some_2 preds h) as [ps Hps]; [lia|]. apply prun_bind. eapply prun_expect; [done|]. apply prun_bind.
  rewrite (ro_length _ _ Hg) in Hbl. eapply prun_mono; [eapply prun_latches; [done|done| |by eapply Hpn]|].
  { intros j Hj. by destruct (Hpj h ps j Hps Hj). }
  intros ls [Hnd Hsub]. cbv zeta. assert (∀ j h', jumps_to f j h' → h' ∉ passed ++ [h] → h' ∉ passed ∧ h' ≠ h) as Hnot.
  { intros j h' _. rewrite elem_of_app, list_elem_of_singleton. tauto. }
  destruct (_ || _); [apply prun_ret; split; [done|]; intros j h' Hj Hn; eapply Hpend; [done|]; by eapply Hnot|].
  apply prun_bind. eapply prun_mono; [eapply (prun_append_all f) with (h := h); [done..|]|].
  - intros j Hj%Hsub. destruct (Hpj h ps j Hps Hj) as [_ Hjump]. split; [done|]. by eapply Hpend.
  - intros g' [Hg' Hsame]. apply prun_ret. split; [done|]. intros j h' Hj Hn. destruct (Hnot j h' Hj Hn) as [Hn1 Hn2]. cbn [fst]. rewrite Hsame; [by eapply Hpend|].
    intros Hin%Hsub. destruct (Hpj h ps j Hps Hin) as [_ (b & Hb & Ht)]. destruct Hj as (b' & Hb' & Ht'). simplify_eq.
Qed.

Lemma prun_rotate f : shaped f → prun (rotate f) (rotated f).
Proof.
  intros Hf. unfold rotate. destruct (may_suspend _); [apply prun_ret, rotated_refl|]. apply prun_charge_bind, prun_bind.
  eapply prun_mono; [by apply prun_jump_predecessors|]. intros [i0 preds] Hpreds. cbn [snd] in *. apply prun_bind. eapply prun_mono; [apply prun_headers, Hpreds|]. intros [i1 headers] [Hnd Hbr]. cbn [snd] in *.
  destruct (length headers =? 0); [apply prun_ret, rotated_refl|]. apply prun_bind. eapply prun_mono; [by apply prun_reachable_from|]. intros initial Hinit. cbn beta in Hinit.
  apply prun_bind. eapply prun_mono; [by apply prun_notes|]. intros [i2 [definitions users]] [Hnotes Husers]. cbn [snd] in *.
  apply prun_bind. eapply prun_mono; [by apply (prun_collect_conditions f Hf definitions users Hnotes Husers)|]. intros conditions [Hcn Hcl]. apply prun_bind.
  eapply prun_mono; [apply (prun_fold_each _ _ (λ p s, rotating f p.*1 (fst s)))|].
  - split; [apply rotated_refl|]. done.
  - intros p [h hb] q [g d] Hl Hg. rewrite fmap_app. cbn. apply prun_rotate_condition; [done|done|done| | |done].
    + apply Hcl. rewrite Hl. set_solver.
    + rewrite Hl, fmap_app in Hcn. cbn in Hcn. apply list.NoDup_app in Hcn as (_ & Hd & _). intros Hin. apply (Hd h Hin). left.
  - intros [g d] [Hg _]. by apply prun_ret.
Qed.

(** Equal behaviour from every start on any host. *)
Definition rotation_equivalent (f f' : MirFunction) : Prop :=
  ∀ (F : FloatOps) (W : Type) (host : Host W) (s : MirState W), behaves_from f f' s.

(** C8: loop rotation preserves behaviour.  Given functions that passed the structural
    check, the pass never panics, ends, and fails only on a cancelled token or an
    exhausted budget.  Each function it returns ends as the original does, from every
    start and on any host: whenever one of the two returns, stops with a runtime error or
    reaches unreachable code, so does the other, with the same value or error and the same
    locals and host state; in particular one runs forever exactly when the other does. *)
Theorem loop_rotation_sound other functions : (∀ f, f ∈ functions → succeeds (verify_body other f) tt) →
  prun (rotation_apply functions) (Forall2 rotation_equivalent functions).
Proof.
  intros Hv. apply prun_bind. eapply prun_mono; [apply (prun_map_each _ _ (λ p _ out, Forall2 rotation_equivalent p out)); [constructor|]|intros r Hr; by apply prun_ret].
  intros p f q u out Hl HF. assert (shaped f) as Hf by (eapply verified_shaped, Hv; rewrite Hl; set_solver). apply prun_bind. eapply prun_mono; [by apply prun_rotate|].
  intros f' Hf'. apply prun_ret. cbn [snd]. apply Forall2_app; [done|]. constructor; [|done]. intros F W host s. by apply rotated_behaves.
Qed.
End Whole.

Section Sample.
#[local] Existing Instance no_contracts.
Lemma loop_rotation_sound_witness :
  prun (rotation_apply [looping]) (Forall2 rotation_equivalent [looping])
  ∧ match rotation_apply [looping] default_work with Ok ([f], _) => blocks f ≠ blocks looping | _ => False end.
Proof.
  split; [|by vm_compute]. apply (loop_rotation_sound (λ _, pret tt)). intros f ->%list_elem_of_singleton. exists default_work. eexists. vm_compute. reflexivity.
Defined.
End Sample.
