(* ===== verification/MirOptimize.v ===== *)
(** * The optimizer

    Models [optimize] of [kagari-mir/src/passes.rs], which runs the passes in order
    and verifies what they made, and the part of [kagari-mir/src/verify.rs] that drives
    the verifier over the functions of a module.  What [verify_with_budget] and
    [verify_function] check of declarations and tables beside the bodies is a parameter,
    as the operation arms of [MirVerify] are; so are the sizes of the sealed records. *)
From stdpp Require Import gmap.
From S2P Require Import Prelude Contracts Mir Pass MirVerify MirFold MirFlow MirLive MirSuspend MirDead MirCopies MirRotation.
Open Scope Z_scope.

Definition saturate (z : Z) : Z := Z.min usize_max z.
Definition MAX_ANALYSIS_BYTES : Z := 64 * 1024 * 1024.
Definition MAX_ANALYSIS_WORK : Z := 100000000.

(** [mem::size_of] of the sealed records. *)
Record RecordSizes : Set := { point_size : Z; block_size : Z; analysis_size : Z }.

Section Driver.
Context `{CallContracts}.
Context (sizes : RecordSizes) (module_checks : list MirFunction → P unit) (signature_checks : MirFunction → P unit).
Context (other : Instruction → P unit).

(** ** verify/analysis.rs: bytes are reserved before they are allocated *)
Definition count_points (f : MirFunction) : Z :=
  foldl (λ count b, saturate (saturate (count + Z.of_nat (length (instructions b))) + 1)) 0 (blocks f).
Definition reserve (bytes : Z) (f : MirFunction) : P Z :=
  let words := Z.of_nat (flow_words f) in
  let point_bytes := saturate (point_size sizes + saturate (words * 24)) in
  let block_bytes := saturate (saturate (block_size sizes + saturate (words * 24)) + 256) in
  let bytes := saturate (bytes + saturate (analysis_size sizes * 2)) in
  let bytes := saturate (bytes + saturate (count_points f * point_bytes)) in
  let bytes := saturate (bytes + saturate (Z.of_nat (length (blocks f)) * block_bytes)) in
  let bytes := saturate (bytes + saturate (words * 48)) in
  if MAX_ANALYSIS_BYTES <? bytes then (λ _, Err (PfLimit MAX_ANALYSIS_BYTES)) else pret bytes.

(** ** verify.rs *)
Definition verify_function (bytes : Z) (f : MirFunction) : P (Z * list BlockAnalysis) :=
  signature_checks f ;;>
  verify_body other f ;;>
  check_size f ;;>
  do bytes := reserve bytes f in
  do init := flow_verify f in
  do facts := build f init in
  suspend_verify f facts ;;>
  pret (bytes, facts).

Definition verify_with_budget (functions : list MirFunction) : P (list (list BlockAnalysis)) :=
  check_cancel ;;>
  module_checks functions ;;>
  do r := map_each verify_function 0 functions in
  pret (snd r).

(** [verify_mir]: a budget of its own, the same token. *)
Definition verify_mir (functions : list MirFunction) : P (list (list BlockAnalysis)) :=
  λ w, match verify_with_budget functions {| used := 0; work_limit := MAX_ANALYSIS_WORK; work_cancel := work_cancel w |} with
       | Ok (facts, v) => Ok (facts, {| used := used w; work_limit := work_limit w; work_cancel := work_cancel v |})
       | Err e => Err e
       end.

(** ** passes.rs *)
Definition count_dead (s : PassStatistics) (count : nat) : PassStatistics :=
  {| constants_folded := constants_folded s; branches_simplified := branches_simplified s;
     dead_operations_removed := count; copies_removed := copies_removed s; constants_reused := constants_reused s |}.

(** A sealed module: its functions with the facts of each. *)
Definition PassResult : Type := list MirFunction * list (list BlockAnalysis) * PassStatistics.

Definition optimize_passes (functions : list MirFunction) : P PassResult :=
  charge 0 ;;>
  do folded := simplify no_statistics functions in
  do rotated := rotation_apply (snd folded) in
  do copied := copies_simplify (fst folded) rotated in
  do facts := verify_mir (snd copied) in
  do removals := find (snd copied) facts in
  let statistics := count_dead (fst copied) (length removals) in
  if (length removals =? 0)%nat then pret (snd copied, facts, statistics)
  else
    do compacted := apply_removals (length removals) (snd copied) removals in
    do facts := verify_mir compacted in
    pret (compacted, facts, statistics).

Definition optimize (max_work : Z) (cancel : option nat) (functions : list MirFunction) : result PassResult PassFailure :=
  res_map fst (optimize_passes functions {| used := 0; work_limit := max_work; work_cancel := cancel |}).
End Driver.
