(* ===== verification/MirOptimizeProps.v ===== *)
(** * The optimizer preserves behaviour

    Composes the passes: constant folding keeps the shape the later passes rely on,
    rotation and copy propagation keep behaviour on such functions, and dead-code
    removal keeps it on the verified result. *)
From stdpp Require Import gmap.
From S2P Require Import Prelude Integer Scalar Payload RuntimeNumeric Contracts NumericProps Token.
From S2P Require Import Mir Pass MirSemantics MirVerify MirFold MirFlow MirLive MirLiveProps MirSuspend MirSafe MirDead.
From S2P Require Import MirPaths MirCopies MirCopiesSound MirCopiesProps MirRotation MirRotationSound MirRotationProps MirOptimize.
Open Scope nat_scope.

(** ** The verifier ends *)
Create HintDb ends_db.
Ltac ends_step :=
  match goal with
  | |- pends (pret _) _ => by apply pends_ret
  | |- pends (pfail _) _ => apply pends_fail
  | |- pends (λ _, Err (PfLimit _)) _ => apply pends_limit
  | |- pends check_cancel _ => by apply (pends_run (λ _, False)), prun_check_cancel
  | |- pends (fold_each _ _ _) _ => apply pends_fold_each; intros ? ? _
  | |- pends (pbind _ _) _ => apply pends_step with (R := λ _, True); [|intros ? _]
  | |- pends (match ?x with _ => _ end) _ => destruct x
  | |- pends (if ?x then _ else _) _ => destruct x
  end.
Ltac ends := repeat first [ends_step|solve [eauto with ends_db]].

Section Ending.
Context `{CallContracts} (other : Instruction → P unit).
Context (Hother : ∀ i, pends (other i) (λ _, True)).

Lemma pends_expect a b label : pends (expect a b label) (λ _, True).
Proof. unfold expect. ends. Qed.
Lemma pends_verify_local f l : pends (verify_local f l) (λ _, True).
Proof. unfold verify_local. ends. Qed.
Lemma pends_of_contract {A} (r : result A ContractError) : pends (of_contract r) (λ _, True).
Proof. unfold of_contract. ends. Qed.
Hint Resolve pends_expect pends_verify_local pends_of_contract : ends_db.
Lemma pends_value f v : pends (verify_value f v) (λ _, True).
Proof. unfold verify_value. ends. Qed.
Lemma pends_operation f i : pends (verify_operation other f i) (λ _, True).
Proof. unfold verify_operation, invalid_operation. destruct i; ends. Qed.
Hint Resolve pends_value pends_operation : ends_db.
Lemma pends_instruction f e i : pends (verify_instruction other f e i) (λ _, True).
Proof. unfold verify_instruction. ends. Qed.
Lemma pends_terminator f t : pends (verify_terminator f t) (λ _, True).
Proof. unfold verify_terminator, invalid_operation. ends. Qed.
Hint Resolve pends_instruction pends_terminator : ends_db.
Lemma pends_block f s b : pends (verify_block other f s b) (λ _, True).
Proof. unfold verify_block. cbv zeta. ends. Qed.
Lemma pends_limits f : pends (verify_limits f) (λ _, True).
Proof. unfold verify_limits, limit. ends. Qed.
Lemma pends_params f : pends (verify_params f) (λ _, True).
Proof. unfold verify_params, verify_param. ends. Qed.
Lemma pends_debug_locals f : pends (verify_debug_locals f) (λ _, True).
Proof. unfold verify_debug_locals, verify_debug_local. ends. Qed.
Lemma pends_scopes f ids : pends (verify_scopes f ids) (λ _, True).
Proof. unfold verify_scopes, verify_scope. ends. Qed.
Lemma pends_origin o : pends (verify_origin o) (λ _, True).
Proof. unfold verify_origin. cbv zeta. ends. Qed.
Hint Resolve pends_block pends_limits pends_params pends_debug_locals pends_scopes pends_origin : ends_db.
Lemma pends_debug f : pends (verify_debug f) (λ _, True).
Proof. unfold verify_debug. ends. Qed.
Hint Resolve pends_debug : ends_db.
Lemma pends_verify_body f : pends (verify_body other f) (λ _, True).
Proof. unfold verify_body, verify_blocks. ends. Qed.
End Ending.

(** ** The driver of the verifier *)
Section Verifier.
Context `{CallContracts} (sizes : RecordSizes) (module_checks : list MirFunction → P unit).
Context (signature_checks : MirFunction → P unit) (other : Instruction → P unit).

(** The checks that are not modelled end. *)
Record checks_end : Prop := {
  ce_module fs : pends (module_checks fs) (λ _, True);
  ce_signature f : pends (signature_checks f) (λ _, True);
  ce_other i : pends (other i) (λ _, True)
}.
Context (Hends : checks_end).

Lemma pends_verify_function bytes f : pends (verify_function sizes signature_checks other bytes f) (λ r, verified_with other f (snd r)).
Proof.
  unfold verify_function. eapply pends_step; [apply (ce_signature Hends)|intros _ _].
  eapply pends_step; [apply pends_succeeds, pends_verify_body, (ce_other Hends)|]. intros [] [_ Hv].
  pose proof (verify_cfg_ok _ _ Hv) as Hok. pose proof (verify_scopes_ok _ _ Hv) as Hsc.
  apply pends_step with (R := λ _, True); [unfold check_size; cbv zeta; ends|intros _ _].
  apply pends_step with (R := λ _, True); [unfold reserve; cbv zeta; ends|intros bytes' _].
  eapply pends_step; [eapply pends_succeeds, pends_run, (prun_flow_verify f Hok)|]. intros init [Hinit Hf].
  eapply pends_step; [eapply pends_succeeds, pends_run, (prun_build f (λ _, False) _ Hok Hsc Hinit)|]. intros facts [_ Hb].
  eapply pends_step; [eapply pends_run, prun_suspend_verify; [exact Hv|exact Hf|exact Hb]|intros _ _]. apply pends_ret. split; [done|eauto].
Qed.
Lemma pends_verify_mir fs : pends (verify_mir sizes module_checks signature_checks other fs) (λ facts, Forall2 (verified_with other) fs facts).
Proof.
  assert (pends (verify_with_budget sizes module_checks signature_checks other fs) (λ facts, Forall2 (verified_with other) fs facts)) as Hb.
  { unfold verify_with_budget. apply pends_step with (R := λ _, True); [ends|intros _ _].
    eapply pends_step; [apply (ce_module Hends)|intros _ _]. eapply pends_step; [apply pends_map_each; intros; apply pends_verify_function|].
    intros r Hr. by apply pends_ret. }
  intros w Hw. unfold verify_mir. specialize (Hb {| used := 0; work_limit := MAX_ANALYSIS_WORK; work_cancel := work_cancel w |} eq_refl).
  destruct (verify_with_budget _ _ _ _ _ _) as [[facts v]|[]]; try done. by destruct Hb as (? & _ & ?).
Qed.
End Verifier.

(** ** What constant folding leaves of a function *)
Section Folded.
Context `{CallContracts} (other : Instruction → P unit) (f : MirFunction).

Definition folded_instruction (i i' : Instruction) : Prop :=
  i' = i ∨ ∃ dst r, output i = Some dst ∧ i' = LoadConst dst (constant r) ∧ value_ty dst = fact_type r.
Definition folded_terminator (t t' : Terminator) : Prop :=
  t' = t ∨ ∃ c x y z, t = Branch c x y ∧ t' = Jump z ∧ (z = x ∨ z = y).
Record folded_block (b b' : BasicBlock) : Prop := {
  fb_code : Forall2 folded_instruction (instructions b) (instructions b');
  fb_columns : instruction_spans b' = instruction_spans b ∧ instruction_scopes b' = instruction_scopes b;
  fb_terminator : ∃ t t', terminator b = Some t ∧ terminator b' = Some t' ∧ folded_terminator t t'
}.

(** Some state satisfies the facts. *)
Definition consistent (values : list (option Fact)) : Prop := ∃ s : MirState unit, facts_hold f values s.

Lemma consistent_forget values t : consistent values → consistent (<[t := None]> values).
Proof.
  intros [s Hs]. exists s. intros u r Hu. apply Hs. apply list_lookup_insert_Some in Hu as [(_ & ? & _)|[_ Hu]]; [done|done].
Qed.
#[local] Existing Instance bitwise_floats.
#[local] Existing Instance typed_host.
Lemma prun_fold_instruction values statistics i : length values = length (temps f) → consistent values →
  instruction_verified other f i → constants_typed i →
  prun (simplify_instruction (registers f) (values, statistics) i)
    (λ r, length (fst (fst r)) = length (temps f) ∧ consistent (fst (fst r)) ∧ folded_instruction i (snd r)).
Proof.
  intros Hlen Hc Hv Hct. unfold simplify_instruction. apply prun_charge_bind, prun_bind.
  eapply prun_mono; [by apply (prun_evaluate (W := unit) other f)|]. intros value Hval.
  apply prun_bind. apply prun_mono with (Q := λ r : list (option Fact) * PassStatistics * Instruction,
    length (fst (fst r)) = length (temps f) ∧ consistent (fst (fst r)) ∧ folded_instruction i (snd r)).
  2: { intros [[values' st'] i'] (Hl & Hs & Hi). cbn [fst snd] in *. destruct (calls (effects i')); [|by apply prun_ret].
    apply prun_charge_bind, prun_ret. cbn. rewrite length_replicate. split_and!; try done. destruct Hs as [s _]. exists s. apply facts_none. }
  destruct (output i) as [dst|] eqn:Ho; [|apply prun_ret; by split_and!; [| |left]].
  destruct (iv_output _ _ _ Hv dst Ho) as (mt & Hmt & Hty). apply prun_bind.
  destruct (lookup_lt_is_Some_2 values (temp dst)) as [old Hold]; [rewrite Hlen; by eapply lookup_lt_Some|].
  eapply prun_expect; [done|]. assert (∀ o, length (<[temp dst := o]> values) = length (temps f)) as Hl' by (intros; by rewrite length_insert).
  destruct value as [r|]; [|apply prun_ret; split; [apply Hl'|split; [by apply consistent_forget|by left]]]. cbn [mbind option_bind].
  destruct (fits r _); [|apply prun_ret; split; [apply Hl'|split; [by apply consistent_forget|by left]]].
  destruct (Hval r eq_refl) as (dst' & Hd & Hx). rewrite Ho in Hd. injection Hd as <-. destruct Hc as [s Hs].
  destruct (Hx s Hs) as (He & Hok & Ht). assert (consistent (<[temp dst := Some r]> values)) as Hc'.
  { eexists. eapply facts_update; [exact Hs|exact He|exact Ho|]. intros ? [= <-]. split; [apply lookup_insert_eq|]. split; [done|].
    exists mt. split; [done|congruence]. }
  destruct (is_load_const i); apply prun_ret; (split; [apply Hl'|split; [done|]]); [by left|]. right. by exists dst, r.
Qed.
Lemma prun_fold_block statistics b : block_verified other f b → (∀ i, i ∈ instructions b → constants_typed i) →
  prun (simplify_block f statistics b) (λ r, folded_block b (snd r)).
Proof.
  intros [Hi (t & Ht & [_ Htv _]) _ _] Hct. unfold simplify_block. apply prun_charge_bind, prun_bind. eapply prun_mono.
  { apply (prun_map_each _ _ (λ p (st : list (option Fact) * PassStatistics) out,
      length (fst st) = length (temps f) ∧ consistent (fst st) ∧ Forall2 folded_instruction p out)).
    - cbn. rewrite length_replicate. split_and!; [done| |constructor].
      exists {| temp_values := ∅; local_values := ∅; world := tt |}. apply facts_none.
    - intros p x q [values st] out Hl (Hlen & Hc & HF). cbn [fst snd] in *.
      assert (x ∈ instructions b) as Hx by (rewrite Hl; set_solver). eapply prun_mono; [apply prun_fold_instruction; auto|].
      intros r (Hlen' & Hc' & Hf'). split_and!; [done|done|]. apply Forall2_app; [done|]. by constructor. }
  intros [[values st] out] (Hlen & _ & HF). cbn [fst snd] in *. apply prun_charge_bind, prun_bind.
  apply prun_mono with (Q := λ r : PassStatistics * option Terminator, ∃ t', snd r = Some t' ∧ folded_terminator t t').
  - rewrite Ht. unfold simplify_terminator. destruct t as [r|tb|c x y|]; try (apply prun_ret; eexists; by split; [|left]).
    apply prun_bind. destruct (Htv c eq_refl) as (mt & Hmt & _). apply prun_read_fact; [rewrite Hlen; by eapply lookup_lt_Some|].
    intros o Ho. destruct o as [[|bl| | | |]|]; try (apply prun_ret; eexists; by split; [|left]).
    apply prun_ret. eexists. split; [done|]. right. exists c, x, y, (if bl then x else y). split_and!; [done..|]. destruct bl; auto.
  - intros [st' o] (t' & Ho & Hex). cbn [snd] in Ho. subst o. apply prun_ret. split; [done|done|]. by exists t, t'.
Qed.
End Folded.

Section FoldedFunctions.
Context `{CallContracts} (other : Instruction → P unit).

Record folded (f f' : MirFunction) : Prop := {
  fo_frame : ∃ bs, f' = with_blocks f bs;
  fo_blocks : Forall2 folded_block (blocks f) (blocks f')
}.
Lemma prun_fold_function statistics f : foldable other f →
  prun (simplify_function statistics f) (λ r, folded f (snd r) ∧
    ∀ x : {F : FloatOps & {W : Type & Host W}}, @same_meaning _ (projT1 x) _ (projT2 (projT2 x)) f (snd r)).
Proof.
  intros Hf. apply (prun_and _ (λ _, False)).
  - destruct Hf as [(_ & _ & Hb)%verify_body_sound Hct]. unfold simplify_function. apply prun_bind. eapply prun_mono.
    { apply (prun_map_each _ _ (λ p _ out, Forall2 folded_block p out)); [constructor|].
      intros p x q st out Hl HF. assert (x ∈ blocks f) as Hx by (rewrite Hl; set_solver).
      eapply prun_mono; [apply (prun_fold_block other f); eauto|]. intros r Hr. apply Forall2_app; [done|]. by constructor. }
    intros [st out] HF. apply prun_ret. split; [by eexists|done].
  - apply prun_all; [exact (existT bitwise_floats (@existT Type (λ W, Host W) unit typed_host))|]. intros [F [W host]]. by apply (prun_simplify_function other).
Qed.

Lemma folded_output i i' : folded_instruction i i' → output i' = output i.
Proof. by intros [->|(dst & r & Ho & -> & _)]. Qed.
Lemma folded_inputs i i' v : folded_instruction i i' → v ∈ inputs i' → v ∈ inputs i.
Proof. intros [->|(dst & r & Ho & -> & _)]; [done|]. by intros ?%elem_of_nil. Qed.
Lemma folded_term_input t t' v : folded_terminator t t' → terminator_input t' = Some v → terminator_input t = Some v.
Proof. by intros [->|(c & x & y & z & -> & -> & _)]. Qed.
Lemma folded_successors t t' x : folded_terminator t t' → x ∈ successors t' → x ∈ successors t.
Proof. intros [->|(c & y & z & u & -> & -> & Hz)]; [done|]. cbn. destruct Hz as [->| ->]; set_solver. Qed.

Section One.
Context (f f' : MirFunction) (Hfold : folded f f').
Lemma folded_frame : entry f' = entry f ∧ temps f' = temps f ∧ locals f' = locals f ∧ params f' = params f.
Proof. by destruct (fo_frame _ _ Hfold) as [bs ->]. Qed.
Lemma folded_at j b' : blocks f' !! j = Some b' → ∃ b, blocks f !! j = Some b ∧ folded_block b b'.
Proof. intros Hb. destruct (Forall2_lookup_r _ _ _ _ _ (fo_blocks _ _ Hfold) Hb) as (b & ? & ?). eauto. Qed.

Lemma folded_shaped : shaped f → shaped f'.
Proof.
  intros [He Hb]. destruct folded_frame as (Hentry & Htemps & Hlocals & _).
  pose proof (Forall2_length (fo_blocks _ _ Hfold)) as Hlen. split; [by rewrite Hentry, <- Hlen|].
  assert (∀ v, value_fits f v → value_fits f' v) as Hfit by (intros v; unfold value_fits; by rewrite Htemps).
  intros b' [j Hj]%list_elem_of_lookup. destruct (folded_at j b' Hj) as (b & Hbj & [Hcode Hcols (t & t' & Ht & Ht' & Hterm)]).
  destruct (Hb b ltac:(by eapply list_elem_of_lookup_2)) as [Hi (t0 & Ht0 & Hs & Hv) Hc]. simplify_eq. split.
  - intros i' [k Hk]%list_elem_of_lookup. destruct (Forall2_lookup_r _ _ _ _ _ Hcode Hk) as (i & Hik & Hfi).
    destruct (Hi i ltac:(by eapply list_elem_of_lookup_2)) as [Hin Hout Hl Hcn Hbn]. split.
    + intros v Hv'. by eapply Hfit, Hin, folded_inputs.
    + intros dst Hd. apply Hfit, Hout. by rewrite <- (folded_output _ _ Hfi).
    + destruct Hfi as [->|(dst & r & _ & -> & _)]; [|done]. by rewrite Hlocals.
    + destruct Hfi as [->|(dst & r & _ & -> & Hty)]; [done|]. rewrite Hty. by destruct r.
    + by destruct Hfi as [->|(dst & r & _ & -> & _)].
  - exists t'. split_and!; [done| |].
    + intros x Hx. rewrite <- Hlen. by eapply Hs, folded_successors.
    + intros v Hv'. by eapply Hfit, Hv, folded_term_input.
  - destruct Hcols as [-> ->]. by rewrite <- (Forall2_length Hcode).
Qed.

Lemma folded_code j : Forall2 folded_instruction (code f j) (code f' j).
Proof.
  unfold code. destruct (blocks f' !! j) as [b'|] eqn:Hb'.
  - destruct (folded_at j b' Hb') as (b & -> & Hfb). apply Hfb.
  - apply lookup_ge_None in Hb'. rewrite <- (Forall2_length (fo_blocks _ _ Hfold)) in Hb'. apply lookup_ge_None in Hb' as ->. constructor.
Qed.
Lemma folded_route R j k : route f' R j k → route f R j k.
Proof.
  induction 1 as [|R j k i' Hr IH Hi|R j x Hr IH He].
  - rewrite (proj1 folded_frame). constructor.
  - destruct (Forall2_lookup_r _ _ _ _ _ (folded_code j) Hi) as (i & Hik & Hfi). unfold written. rewrite (folded_output _ _ Hfi). by eapply route_step.
  - rewrite <- (Forall2_length (folded_code j)) in IH. eapply route_edge; [exact IH|]. destruct He as (b' & t' & Hb' & Ht' & Hx).
    destruct (folded_at j b' Hb') as (b & Hb & [_ _ (t & t'' & Ht & Ht'' & Hterm)]). simplify_eq. exists b, t. split_and!; [done..|].
    by eapply folded_successors.
Qed.
Lemma folded_ready : ready f → ready f'.
Proof.
  intros Hready R j k t Hr [(i' & Hi & (v & -> & Hv)%list_elem_of_fmap)|(-> & x' & Hx & Ht)]; eapply Hready; try by eapply folded_route.
  - left. destruct (Forall2_lookup_r _ _ _ _ _ (folded_code j) Hi) as (i & Hik & Hfi). exists i. split; [done|].
    apply list_elem_of_fmap. exists v. split; [done|]. by eapply folded_inputs.
  - right. rewrite <- (Forall2_length (folded_code j)). split; [done|]. unfold term_at in *. destruct (blocks f' !! j) as [b'|] eqn:Hb'; [|done].
    destruct (folded_at j b' Hb') as (b & -> & [_ _ (y & y' & Hy & Hy' & Hterm)]). cbn in *. simplify_eq. exists y. split; [done|].
    unfold term_reads in *. destruct (terminator_input x') as [v|] eqn:Hv; [|by apply elem_of_nil in Ht].
    by rewrite (folded_term_input _ _ _ Hterm Hv).
Qed.
End One.
End FoldedFunctions.

(** ** The passes together *)
Section Passes.
Context `{CallContracts} (sizes : RecordSizes) (module_checks : list MirFunction → P unit).
Context (signature_checks : MirFunction → P unit) (other : Instruction → P unit).
Context (Hends : checks_end module_checks signature_checks other).

(** What the renaming passes need of a function. *)
Definition renamable (f : MirFunction) : Prop := shaped f ∧ ready f.
Record folds_to (f f' : MirFunction) : Prop := {
  ft_source : renamable f;
  ft_folded : folded f f';
  ft_meaning (x : {F : FloatOps & {W : Type & Host W}}) : @same_meaning _ (projT1 x) _ (projT2 (projT2 x)) f f'
}.
Lemma pends_folding st fs : (∀ f, f ∈ fs → foldable other f ∧ renamable f) → pends (simplify st fs) (λ r, Forall2 folds_to fs (snd r)).
Proof.
  intros Hf. apply pends_map_each. intros s f Hin. destruct (Hf f Hin). eapply pends_mono; [by eapply pends_run, prun_fold_function|].
  intros r [? ?]. by split.
Qed.
Lemma pends_rotation fs : (∀ f, f ∈ fs → shaped f) → pends (rotation_apply fs) (Forall2 rotated fs).
Proof.
  intros Hf. unfold rotation_apply. eapply pends_step; [apply (pends_map_each _ rotated)|intros r Hr; by apply pends_ret].
  intros s f Hin. eapply pends_step; [by eapply pends_run, prun_rotate, Hf|]. intros f' Hf'. by apply pends_ret.
Qed.
Lemma copies_frame st f r : succeeds (copies_function st f) r → ∃ bs, snd r = with_blocks f bs.
Proof.
  unfold copies_function. do 6 (intros (? & _ & Hr)%succeeds_bind; revert Hr). intros <-%succeeds_ret. by eexists.
Qed.
Lemma pends_copies st fs : (∀ f, f ∈ fs → renamable f) →
  pends (copies_simplify st fs) (λ r, Forall2 (λ f f', copy_equivalent f f' ∧ ∃ bs, f' = with_blocks f bs) fs (snd r)).
Proof.
  intros Hf. apply pends_map_each. intros s f Hin. destruct (Hf f Hin) as [Hs Hr].
  eapply pends_mono; [by eapply pends_succeeds, pends_bound, pbound_copies_function|]. intros r [He Hsucc]. split; [done|]. by eapply copies_frame.
Qed.

(** What the first three passes make of a function. *)
Record prepared (f f' : MirFunction) : Prop := {
  pr_temps : temps f `prefix_of` temps f';
  pr_locals : locals f' = locals f;
  pr_params : params f' = params f;
  pr_behaves (F : FloatOps) (W : Type) (host : Host W) (slots : HostSlots host) (s : MirState W) : behaves_from f f' s
}.
Definition optimized_equivalent (f f' : MirFunction) : Prop :=
  ∀ (F : FloatOps) (W : Type) (host : Host W) (slots : HostSlots host)
    (laws : ∀ g, locals g = locals f → @HostLaws _ W host other g) (s : MirState W),
    typed_state f s → (∀ p, p ∈ params f → is_Some (local_values s !! param_local p)) → behaves_from f f' s.

Lemma same_meaning_behaves `{F : FloatOps} {W} (host : Host W) f f' s : entry f' = entry f → same_meaning f f' → behaves_from f f' s.
Proof.
  intros He Hm. apply behaves_lockstep. intros n. rewrite He, Hm. by destruct (run f n (entry f) s) as [[]| |].
Qed.
Lemma prepared_dead f f1 f' : prepared f f1 → dead_equivalent other f1 f' → optimized_equivalent f f'.
Proof.
  intros [Ht Hl Hp Hb] Hd F W host slots laws s [Hts Hls] Hps. eapply behaves_trans; [by apply Hb|]. apply behaves_lockstep. intros n.
  assert (same_exit f1 (run f1 n (entry f1) s) (run f' n (entry f') s)) as He.
  { apply Hd; [by apply laws|split|by rewrite Hp].
    - intros t v Hv. destruct (Hts t v Hv) as (x & Hx & ?). exists x. split; [|done]. by eapply prefix_lookup_Some.
    - unfold typed_locals in *. by rewrite Hl. }
  destruct (run f1 n _ s) as [[]| |], (run f' n _ s) as [[]| |]; try done. destruct He as (? & [? ?] & _). done.
Qed.

Lemma prepare_one f f1 f2 f3 : folds_to f f1 → rotated f1 f2 → copy_equivalent f2 f3 ∧ (∃ bs, f3 = with_blocks f2 bs) → prepared f f3.
Proof.
  intros [[Hs Hr] Hfold Hm] Hrot [Hcopy [bs ->]]. destruct (folded_frame _ _ Hfold) as (He & Ht & Hl & Hp).
  split; cbn [temps locals params with_blocks].
  - rewrite <- Ht. apply Hrot.
  - rewrite <- Hl. apply Hrot.
  - rewrite <- Hp. apply Hrot.
  - intros F W host slots st. eapply behaves_trans; [by apply same_meaning_behaves, (Hm (existT F (existT W host)))|].
    eapply behaves_trans; [apply rotated_behaves; [by eapply folded_shaped|done]|]. apply behaves_lockstep. intros n. by apply Hcopy.
Qed.

Definition optimize_ok (fs : list MirFunction) (r : PassResult) : Prop :=
  Forall2 optimized_equivalent fs (fst (fst r)) ∧ Forall2 (verified_with other) (fst (fst r)) (snd (fst r)).

Lemma pends_dead fs fs3 facts st : Forall2 prepared fs fs3 → Forall2 (verified_with other) fs3 facts →
  pends (do removals := find fs3 facts in
    let statistics := count_dead st (length removals) in
    if length removals =? 0 then pret (fs3, facts, statistics)
    else do compacted := apply_removals (length removals) fs3 removals in
         do facts := verify_mir sizes module_checks signature_checks other compacted in pret (compacted, facts, statistics)) (optimize_ok fs).
Proof.
  intros Hprep Hver. eapply pends_step; [eapply (pends_run (λ _, False)), prun_find; by eapply verified_all_sealed|]. intros R ->.
  fold (removals_of fs3 facts). cbv zeta. pose proof (prun_apply_found other fs3 facts Hver) as Happ.
  assert (∀ fs4, Forall2 (dead_equivalent other) fs3 fs4 → Forall2 optimized_equivalent fs fs4) as Hall.
  { intros fs4. by eapply Forall2_trans; [apply prepared_dead|]. }
  destruct (removals_of fs3 facts) as [|x l] eqn:HR; cbn [length Nat.eqb].
  - apply pends_ret. split; [|done]. apply Hall. by destruct (Happ default_work).
  - eapply pends_step; [eapply pends_run, Happ|]. intros fs4 Hd. eapply pends_step; [by apply pends_verify_mir|].
    intros facts' Hf. apply pends_ret. split; [by apply Hall|done].
Qed.

Lemma verified_renamable fs facts : Forall2 (verified_with other) fs facts → ∀ f, f ∈ fs → renamable f.
Proof.
  intros Hver f [k Hk]%list_elem_of_lookup. destruct (Forall2_lookup_l _ _ _ _ _ Hver Hk) as (bs & _ & Hv & init & Hflow & _).
  split; [by eapply verified_shaped|]. eapply verified_ready; [done|].
  by destruct (succeeds_prun _ _ _ _ (prun_flow_verify f (verify_cfg_ok _ _ Hv)) Hflow).
Qed.
Lemma folded_renamable fs fs1 : Forall2 folds_to fs fs1 → ∀ f, f ∈ fs1 → renamable f.
Proof.
  intros HF f1 [k Hk]%list_elem_of_lookup. destruct (Forall2_lookup_r _ _ _ _ _ HF Hk) as (f & _ & [[? ?] ? _]).
  split; [by eapply folded_shaped|by eapply folded_ready].
Qed.
Lemma rotated_renamable fs fs1 : Forall2 rotated fs fs1 → (∀ f, f ∈ fs → renamable f) → ∀ f, f ∈ fs1 → renamable f.
Proof.
  intros HF Hr f1 [k Hk]%list_elem_of_lookup. destruct (Forall2_lookup_r _ _ _ _ _ HF Hk) as (f & Hf & ?).
  destruct (Hr f ltac:(by eapply list_elem_of_lookup_2)). split; [by eapply rotated_shaped|by eapply rotated_ready].
Qed.

Lemma pends_optimize fs facts : Forall2 (verified_with other) fs facts → (∀ f, f ∈ fs → foldable other f) →
  pends (optimize_passes sizes module_checks signature_checks other fs) (optimize_ok fs).
Proof.
  intros Hver Hfold. unfold optimize_passes. eapply pends_step; [by eapply (pends_run (λ _, False)), (prun_charge _ _ (λ _, True))|intros _ _].
  eapply pends_step; [apply pends_folding; intros f Hin; split; [by apply Hfold|by eapply verified_renamable]|]. intros [st fs1] Hf1. cbn [fst snd] in *.
  pose proof (folded_renamable _ _ Hf1) as Hr1. eapply pends_step; [apply pends_rotation; intros; by apply Hr1|]. intros fs2 Hf2.
  eapply pends_step; [apply pends_copies; by eapply rotated_renamable|]. intros [st3 fs3] Hf3. cbn [fst snd] in *.
  eapply pends_step; [by apply pends_verify_mir|]. intros facts3 Hver3. apply pends_dead; [|done].
  eapply Forall2_trans; [|exact Hf1|]; [|eapply Forall2_trans; [|exact Hf2|exact Hf3]; intros x y z Hxy Hyz; exact (ex_intro _ y (conj Hxy Hyz))].
  intros f f1 f3 Hfold1 (f2 & Hrot & Hcp). by eapply prepare_one.
Qed.

End Passes.

(** [looping] of [MirRotation] through the whole optimizer. *)
Section Sample.
#[local] Existing Instance no_contracts.
Definition sample_sizes : RecordSizes := {| point_size := 128; block_size := 96; analysis_size := 24 |}.
Definition no_module_checks (_ : list MirFunction) : P unit := pret tt.
Definition no_signature_checks (_ : MirFunction) : P unit := pret tt.
Definition no_other (_ : Instruction) : P unit := pret tt.
Definition looping_init : Initialization :=
  Eval vm_compute in match flow_verify looping default_work with Ok (init, _) => init | Err _ => no_facts end.
Definition looping_facts : list BlockAnalysis :=
  Eval vm_compute in match build looping looping_init default_work with Ok (bs, _) => bs | Err _ => [] end.

End Sample.
