(* ===== verification/GcBase.v ===== *)
(** * Managed heap: errors, effects and bit searches

    Shared by the models of [kagari-gc]: the errors of [error.rs], a state and
    error monad whose failures keep the state that was reached (Rust's [?] leaves
    earlier writes in place), the work budget of [scan.rs], the metadata helper
    [shrink_target] of [table.rs] and the bit searches of [u64] and [u128].  Heap
    allocation of the host process is taken to succeed. *)
From S2P Require Import Prelude SlotBits.
Open Scope nat_scope.

(** ** Errors *)
Inductive GcError : Set :=
| ForeignHeap | InvalidRoot | Representation | Storage (reason : string) | HeapFaulted | HeapClosed
| GcLimit (reason : string) | Provider (reason : string) | IndexOutside.
#[export] Instance GcError_eq_dec : EqDecision GcError.
Proof. solve_decision. Defined.

(** An error, a panic, a read of storage that holds no object, or a loop cut short. *)
Inductive GcFailure : Set :=
| GcErr (e : GcError) | GcPanic | GcUndefined | GcOutOfFuel.
#[export] Instance GcFailure_eq_dec : EqDecision GcFailure.
Proof. solve_decision. Defined.

(** ** Effects *)
Definition M (S A : Type) : Type := S → result A GcFailure * S.

Section Monad.
Context {S : Type}.
Definition ret {A} (a : A) : M S A := λ s, (Ok a, s).
Definition bind {A B} (m : M S A) (k : A → M S B) : M S B :=
  λ s, match m s with (Ok a, s') => k a s' | (Err e, s') => (Err e, s') end.
Definition fail {A} (e : GcError) : M S A := λ s, (Err (GcErr e), s).
Definition panic {A} : M S A := λ s, (Err GcPanic, s).
Definition undefined {A} : M S A := λ s, (Err GcUndefined, s).
Definition out_of_fuel {A} : M S A := λ s, (Err GcOutOfFuel, s).
Definition read : M S S := λ s, (Ok s, s).
Definition write (s : S) : M S unit := λ _, (Ok tt, s).
Definition modify (f : S → S) : M S unit := λ s, (Ok tt, f s).
Definition reads {A} (f : S → A) : M S A := λ s, (Ok (f s), s).
Definition ok_or_fail {A} (o : option A) (e : GcError) : M S A :=
  match o with Some a => ret a | None => fail e end.
Definition or_panic {A} (o : option A) : M S A := match o with Some a => ret a | None => panic end.
Definition assert (b : bool) : M S unit := if b then ret tt else panic.
Definition of_result {A} (r : result A GcError) : M S A :=
  match r with Ok a => ret a | Err e => fail e end.
End Monad.

(** An operation on a part of the state. *)
Definition zoom {S T A} (get : S → T) (put : T → S → S) (m : M T A) : M S A :=
  λ s, let '(r, t) := m (get s) in (r, put t s).

Notation "'let!' x ':=' m 'in' k" := (bind m (λ x, k))
  (at level 10, x binder, m at level 100, k at level 200) : kagari_scope.
Notation "m ;;! k" := (bind m (λ _, k))
  (at level 90, k at level 200, right associativity) : kagari_scope.

(** [wp E m Q s]: from [s], [m] answers with [Q] or fails with [E]. *)
Definition wp {S A} (E : GcFailure → S → Prop) (m : M S A) (Q : A → S → Prop) (s : S) : Prop :=
  match m s with (Ok a, s') => Q a s' | (Err e, s') => E e s' end.

Section Wp.
Context {S : Type} (E : GcFailure → S → Prop).
Implicit Types (s : S).

Lemma wp_ret {A} (a : A) Q s : Q a s → wp E (ret a) Q s.
Proof. done. Qed.
Lemma wp_bind {A B} (m : M S A) (k : A → M S B) Q s :
  wp E m (λ a s, wp E (k a) Q s) s → wp E (bind m k) Q s.
Proof. unfold wp, bind. by destruct (m s) as [[a|e] s']. Qed.
Lemma wp_mono {A} (m : M S A) (Q R : A → S → Prop) s :
  wp E m Q s → (∀ a s, Q a s → R a s) → wp E m R s.
Proof. unfold wp. destruct (m s) as [[a|e] s']; auto. Qed.
Lemma wp_read Q s : Q s s → wp E read Q s.
Proof. done. Qed.
Lemma wp_reads {A} (f : S → A) Q s : Q (f s) s → wp E (reads f) Q s.
Proof. done. Qed.
Lemma wp_write s' Q s : Q tt s' → wp E (write s') Q s.
Proof. done. Qed.
Lemma wp_modify f Q s : Q tt (f s) → wp E (modify f) Q s.
Proof. done. Qed.
Lemma wp_fail {A} e (Q : A → S → Prop) s : E (GcErr e) s → wp E (fail e) Q s.
Proof. done. Qed.
Lemma wp_some {A} (o : option A) a e Q s : o = Some a → Q a s → wp E (ok_or_fail o e) Q s.
Proof. by intros ->. Qed.
Lemma wp_or_panic {A} (o : option A) a Q s : o = Some a → Q a s → wp E (or_panic o) Q s.
Proof. by intros ->. Qed.
Lemma wp_assert b Q s : b = true → Q tt s → wp E (assert b) Q s.
Proof. by intros ->. Qed.
End Wp.

Lemma wp_error {S A} (E F : GcFailure → S → Prop) (m : M S A) Q s :
  wp E m Q s → (∀ e s, E e s → F e s) → wp F m Q s.
Proof. unfold wp. destruct (m s) as [[a|e] s']; auto. Qed.

(** An operation that cannot fail. *)
Lemma wp_total {S A} (m : M S A) (Q : A → S → Prop) s : wp (λ _ _, False) m Q s → ∃ a s', m s = (Ok a, s') ∧ Q a s'.
Proof. unfold wp. destruct (m s) as [[a|e] s']; [eauto|done]. Qed.

Lemma wp_zoom {S T A} (E : GcFailure → S → Prop) (get : S → T) put (m : M T A) Q s :
  wp (λ e t, E e (put t s)) m (λ a t, Q a (put t s)) (get s) → wp E (zoom get put m) Q s.
Proof. unfold wp, zoom. by destruct (m (get s)) as [[a|e] t]. Qed.

(** ** Bit searches *)
(** [trailing_zeros] of a [width]-bit word. *)
Definition trailing_zeros (width : nat) (w : Z) : nat :=
  match list_find (λ i, Is_true (Z.testbit w (Z.of_nat i))) (seq 0 width) with
  | Some (i, _) => i
  | None => width
  end.
(** [!w] of a 64-bit word. *)
Definition complement (w : Z) : Z := Z.lxor u64_max w.

Lemma trailing_zeros_found width w : trailing_zeros width w < width →
  Z.testbit w (Z.of_nat (trailing_zeros width w)) = true
  ∧ ∀ j, j < trailing_zeros width w → Z.testbit w (Z.of_nat j) = false.
Proof.
  unfold trailing_zeros. destruct (list_find _ _) as [[i x]|] eqn:Hf; [|lia]. intros Hi.
  apply list_find_Some in Hf as (Hx & Hb & Hprev). apply lookup_seq in Hx as [-> Hlt]. simpl in Hb.
  split; [by apply Is_true_true|]. intros j Hj. specialize (Hprev j j ltac:(apply lookup_seq; lia) Hj).
  by destruct (Z.testbit w (Z.of_nat j)).
Qed.
Lemma trailing_zeros_none width w : trailing_zeros width w ≥ width →
  ∀ j, j < width → Z.testbit w (Z.of_nat j) = false.
Proof.
  unfold trailing_zeros. destruct (list_find _ _) as [[i x]|] eqn:Hf.
  { apply list_find_Some in Hf as (Hx & _). apply lookup_seq in Hx as [_ ?]. lia. }
  intros _ j Hj. apply list_find_None in Hf. rewrite Forall_forall in Hf.
  specialize (Hf j ltac:(apply in_seq; lia)). by destruct (Z.testbit w (Z.of_nat j)).
Qed.
Lemma trailing_zeros_le width w : trailing_zeros width w ≤ width.
Proof.
  unfold trailing_zeros. destruct (list_find _ _) as [[i x]|] eqn:Hf; [|done].
  apply list_find_Some in Hf as (Hx & _). apply lookup_seq in Hx as [_ ?]. lia.
Qed.
Lemma complement_bit w k : (0 <= k < 64)%Z → Z.testbit (complement w) k = negb (Z.testbit w k).
Proof. intros Hk. unfold complement. by rewrite Z.lxor_spec, u64_max_bit. Qed.

(** [w == u64::MAX]. *)
Lemma word_full w : word_ok w → w = u64_max ↔ ∀ k, (0 <= k < 64)%Z → Z.testbit w k = true.
Proof.
  intros Hw. split; [intros -> k Hk; by apply u64_max_bit|]. intros Hb. apply Z.bits_inj'. intros k Hk.
  destruct (Z.lt_ge_cases k 64); [by rewrite Hb, u64_max_bit|]. rewrite !bits_word_ok; [done|apply u64_max_ok|done..].
Qed.

(** ** Metadata capacity: headroom against repeated shrinking and growing *)
Definition shrink_target (capacity needed : Z) : option Z :=
  if (needed =? 0)%Z then (if (capacity =? 0)%Z then None else Some 0%Z)
  else
    let target := Z.max (Z.min u64_max (needed * 2)) 16 in
    if (Z.min u64_max (target * 2) <? capacity)%Z then Some target else None.

(** ** scan.rs: the work budget *)
Record ScanBudget : Set := { remaining : Z; spent : Z }.
Definition budget_new (units : Z) : ScanBudget := {| remaining := units; spent := 0 |}.
(** [take]: [None] leaves both counters. *)
Definition take_units (units : Z) (b : ScanBudget) : option ScanBudget :=
  if (remaining b <? units)%Z || (u64_max <? spent b + units)%Z then None
  else Some {| remaining := remaining b - units; spent := spent b + units |}.
