(* ===== verification/GcTable.v ===== *)
(** * Managed heap: stable identities in a radix table

    Models [kagari-gc/src/table.rs]: a directory whose leaves hold 256 entries and
    whose branches hold 64 children, with one bitmap per block for the search of a
    free identity.  Identities are [u32] numbers.  The table is proved to be a finite
    map whose next identity is always the smallest free one. *)
From stdpp Require Import fin_maps gmap.
From S2P Require Import Prelude SlotBits GcBase.
Open Scope nat_scope.

#[local] Arguments Nat.div : simpl never.
#[local] Arguments Nat.modulo : simpl never.
#[local] Arguments Z.pow : simpl never.
#[local] Arguments Z.shiftl : simpl never.
#[local] Arguments Z.shiftr : simpl never.
#[local] Arguments Z.land : simpl never.

Definition BITS : nat := 6.
Definition LEAF_BITS : nat := 8.
Definition WIDTH : nat := 64.

Inductive Table (T : Type) : Type := mkTable {
  slots : list (option T);
  children : list (option (Table T));
  full : list Z;
  shift : nat;
  len : nat
}.
Arguments mkTable {T} slots children full shift len.
Arguments slots {T} _.
Arguments children {T} _.
Arguments full {T} _.
Arguments shift {T} _.
Arguments len {T} _.

Section Ops.
Context {T : Type}.
Implicit Types (t : Table T) (id : Z) (v : T).

Definition empty_table : Table T := mkTable [] [] (replicate 4 0%Z) 0 0.
Definition branch (s : nat) : Table T := mkTable [] (replicate WIDTH None) (replicate 4 0%Z) s 0.

Definition is_full t : bool :=
  if shift t =? 0 then forallb (λ w, (w =? u64_max)%Z) (full t)
  else bool_decide (full t !! 0 = Some u64_max).

(** [id >> shift] and [id & ((1 << shift) - 1)]. *)
Definition child_index t id : nat := Z.to_nat (Z.shiftr id (Z.of_nat (shift t))).
Definition child_id t id : Z := Z.land id (Z.shiftl 1 (Z.of_nat (shift t)) - 1).

(** [slots.resize_with(index + 1, || None)] when the index is past the end. *)
Definition grow_slots (l : list (option T)) (index : nat) : list (option T) :=
  if length l <=? index then l ++ replicate (index + 1 - length l) None else l.

(** [prepare_slot]; the table keeps the blocks it made when an inner call fails. *)
Fixpoint prepare_slot (fuel : nat) t : result Z GcError * Table T :=
  if shift t =? 0 then
    match list_find (λ w, w ≠ u64_max) (full t) with
    | None => (Err (GcLimit "metadata identities"), t)
    | Some (word, w) =>
        let index := word * 64 + trailing_zeros 64 (complement w) in
        (Ok (Z.of_nat index), mkTable (grow_slots (slots t) index) (children t) (full t) (shift t) (len t))
    end
  else
    let index := trailing_zeros 64 (complement (default 0%Z (full t !! 0))) in
    if index =? WIDTH then (Err (GcLimit "metadata identities"), t)
    else
      match fuel with
      | O => (Err (GcLimit "metadata identities"), t)
      | S fuel =>
          let child :=
            match children t !! index with
            | Some (Some c) => c
            | _ => if shift t =? LEAF_BITS then empty_table else branch (shift t - BITS)
            end in
          let '(r, c) := prepare_slot fuel child in
          (match r with
           | Ok offset => Ok (Z.lor (Z.shiftl (Z.of_nat index) (Z.of_nat (shift t))) offset)
           | Err e => Err e
           end,
           mkTable (slots t) (<[index := Some c]> (children t)) (full t) (shift t) (len t))
      end.

(** Branch levels below the largest root. *)
Definition levels : nat := 4.

Definition prepare t : result Z GcError * Table T :=
  if is_full t then
    if shift t =? 26 then (Err (GcLimit "metadata identities"), t)
    else
      let s := if shift t =? 0 then LEAF_BITS else shift t + BITS in
      prepare_slot levels
        (mkTable [] (<[0 := Some t]> (replicate WIDTH None)) (1%Z :: replicate 3 0%Z) s (len t))
  else prepare_slot levels t.

(** [insert]; [None] is a panic. *)
Fixpoint insert_at (fuel : nat) t id v : option (Table T) :=
  if shift t =? 0 then
    match slots t !! Z.to_nat id with
    | Some None =>
        f ← row_insert (full t) (Z.to_nat id);
        Some (mkTable (<[Z.to_nat id := Some v]> (slots t)) (children t) f (shift t) (S (len t)))
    | _ => None
    end
  else
    match fuel with
    | O => None
    | S fuel =>
        c ← mjoin (children t !! child_index t id);
        c' ← insert_at fuel c (child_id t id) v;
        f ← (if is_full c' then row_insert (full t) (child_index t id) else Some (full t));
        Some (mkTable (slots t) (<[child_index t id := Some c']> (children t)) f (shift t) (S (len t)))
    end.
Definition insert t id v : option (Table T) := insert_at levels t id v.

Fixpoint get_at (fuel : nat) t id : option T :=
  if shift t =? 0 then mjoin (slots t !! Z.to_nat id)
  else
    match fuel with
    | O => None
    | S fuel => c ← mjoin (children t !! child_index t id); get_at fuel c (child_id t id)
    end.
Definition get t id : option T := get_at levels t id.

(** A write through [get_mut]. *)
Fixpoint update_at (fuel : nat) (f : T → T) t id : Table T :=
  if shift t =? 0 then
    mkTable (alter (fmap f) (Z.to_nat id) (slots t)) (children t) (full t) (shift t) (len t)
  else
    match fuel with
    | O => t
    | S fuel =>
        mkTable (slots t)
          (alter (fmap (λ c, update_at fuel f c (child_id t id))) (child_index t id) (children t))
          (full t) (shift t) (len t)
    end.
Definition update (f : T → T) t id : Table T := update_at levels f t id.

(** [remove]; [None] finds nothing and changes nothing. *)
Fixpoint remove_at (fuel : nat) t id : option (T * Table T) :=
  r ← (if shift t =? 0 then
         v ← mjoin (slots t !! Z.to_nat id);
         f ← row_remove (full t) (Z.to_nat id);
         Some (v, mkTable (<[Z.to_nat id := None]> (slots t)) (children t) f (shift t) (len t))
       else
         match fuel with
         | O => None
         | S fuel =>
             c ← mjoin (children t !! child_index t id);
             r ← remove_at fuel c (child_id t id);
             f ← row_remove (full t) (child_index t id);
             let c' := if len (snd r) =? 0 then None else Some (snd r) in
             Some (fst r, mkTable (slots t) (<[child_index t id := c']> (children t)) f (shift t) (len t))
         end);
  let t' := snd r in
  if len t' - 1 =? 0 then Some (fst r, empty_table)
  else Some (fst r, mkTable (slots t') (children t') (full t') (shift t') (len t' - 1)).
Definition remove t id : option (T * Table T) := remove_at levels t id.

Fixpoint prune_empty (fuel : nat) t : Table T :=
  match fuel with
  | O => t
  | S fuel =>
      mkTable (slots t)
        (fmap (λ c, match c with
                    | Some c => if len c =? 0 then None else Some (prune_empty fuel c)
                    | None => None
                    end) (children t))
        (full t) (shift t) (len t)
  end.

(** The loop of [trim]: while the root's only populated child is child zero. *)
Fixpoint drop_prefix (fuel : nat) t : Table T :=
  match fuel with
  | O => t
  | S fuel =>
      if shift t =? 0 then t
      else match children t !! 0 with
           | Some (Some c) => if len c =? len t then drop_prefix fuel c else t
           | _ => t
           end
  end.
Definition trim t : Table T :=
  if len t =? 0 then empty_table else drop_prefix levels (prune_empty levels t).
End Ops.

(** ** Shape *)
Section Shape.
Context {T : Type}.
Implicit Types (t c : Table T) (id : Z) (v : T).

Definition level_shift (n : nat) : nat := match n with 0 => 0 | S m => 8 + 6 * m end.
(** The identities below a root of level [n]. *)
Definition capacity (n : nat) : Z := (2 ^ Z.of_nat (8 + 6 * n))%Z.

Definition child_full (o : option (option (Table T))) : bool :=
  match mjoin o with Some c => is_full c | None => false end.
Definition child_len (o : option (Table T)) : nat := match o with Some c => len c | None => 0 end.

Fixpoint table_ok (n : nat) t : Prop :=
  match n with
  | 0 => shift t = 0 ∧ length (slots t) ≤ 256 ∧ row_ok 4 (full t)
         ∧ (∀ i, i < 256 → bit (full t) i = bool_decide (is_Some (mjoin (slots t !! i))))
         ∧ len t = length (filter is_Some (slots t))
  | S m => shift t = level_shift n ∧ length (children t) = 64 ∧ row_ok 4 (full t)
           ∧ (∀ i c, children t !! i = Some (Some c) → table_ok m c)
           ∧ (∀ i, i < 64 → bit (full t) i = child_full (children t !! i))
           ∧ len t = sum_list (child_len <$> children t)
  end.

Lemma capacity_S n : capacity (S n) = (64 * capacity n)%Z.
Proof. unfold capacity. rewrite <- (Z.pow_add_r 2 6) by lia. f_equal. lia. Qed.
Lemma capacity_pos n : (0 < capacity n)%Z.
Proof. apply Z.pow_pos_nonneg; lia. Qed.
Lemma shift_capacity n : (2 ^ Z.of_nat (level_shift (S n)))%Z = capacity n.
Proof. done. Qed.
Lemma table_shift n t : table_ok n t → shift t = level_shift n.
Proof. destruct n; by intros [? _]. Qed.
Lemma shift_zero n t : table_ok n t → (shift t =? 0) = (n =? 0).
Proof. intros ->%table_shift. by destruct n. Qed.

Lemma child_index_spec n t id : table_ok (S n) t → (0 <= id)%Z → child_index t id = Z.to_nat (id / capacity n).
Proof. intros Ht Hid. unfold child_index. rewrite (table_shift _ _ Ht), Z.shiftr_div_pow2 by lia. done. Qed.
Lemma child_id_spec n t id : table_ok (S n) t → child_id t id = (id mod capacity n)%Z.
Proof.
  intros Ht. unfold child_id. rewrite (table_shift _ _ Ht), Z.shiftl_1_l, Z.sub_1_r, <- Z.ones_equiv.
  rewrite Z.land_ones by lia. done.
Qed.
Lemma split_id n id : (0 <= id)%Z → (0 <= id / capacity n)%Z ∧ (0 <= id mod capacity n < capacity n)%Z
  ∧ id = (id / capacity n * capacity n + id mod capacity n)%Z.
Proof.
  intros Hid. pose proof (capacity_pos n). split_and!; [by apply Z.div_pos|apply Z.mod_pos_bound; lia..|].
  rewrite (Z.div_mod id (capacity n)) at 1 by lia. lia.
Qed.
Lemma join_id n i off : (0 <= off < capacity n)%Z →
  ((Z.of_nat i * capacity n + off) / capacity n = Z.of_nat i)%Z
  ∧ ((Z.of_nat i * capacity n + off) mod capacity n = off)%Z.
Proof.
  intros Hoff. pose proof (capacity_pos n). split.
  - rewrite Z.add_comm, Z.div_add, Z.div_small by lia. lia.
  - rewrite Z.add_comm, Z.mod_add, Z.mod_small; lia.
Qed.
Lemma lor_id n i off : (0 <= off < capacity n)%Z →
  Z.lor (Z.shiftl (Z.of_nat i) (Z.of_nat (level_shift (S n)))) off = (Z.of_nat i * capacity n + off)%Z.
Proof.
  intros Hoff. rewrite Z.shiftl_mul_pow2 by lia. rewrite shift_capacity.
  rewrite <- Z.lxor_lor, <- Z.add_nocarry_lxor; [done|..];
    (apply Z.bits_inj'; intros k Hk; rewrite Z.land_spec, Z.bits_0; unfold capacity;
     destruct (Z.lt_ge_cases k (Z.of_nat (8 + 6 * n)));
       [by rewrite Z.mul_pow2_bits_low|];
     rewrite (Z.bits_above_log2 off k), andb_false_r; [done|lia|]);
    (destruct (decide (off = 0)%Z) as [->|]; [simpl; lia|]; eapply Z.lt_le_trans; [|eassumption]; apply Z.log2_lt_pow2; [lia|]; apply Hoff).
Qed.

(** ** Reading *)
Lemma get_leaf k t id : table_ok 0 t → get_at k t id = mjoin (slots t !! Z.to_nat id).
Proof. intros [Hs _]. by destruct k; simpl; rewrite Hs. Qed.
Lemma get_branch n k t id : table_ok (S n) t → (0 <= id)%Z →
  get_at (S k) t id = (c ← mjoin (children t !! Z.to_nat (id / capacity n)); get_at k c (id mod capacity n))%Z.
Proof.
  intros Ht Hid. simpl. rewrite (shift_zero _ _ Ht), (child_index_spec _ _ _ Ht Hid), (child_id_spec _ _ _ Ht). done.
Qed.

Lemma get_fuel n k t id : table_ok n t → n ≤ k → (0 <= id)%Z → get_at k t id = get_at n t id.
Proof.
  revert k t id. induction n as [|n IH]; intros k t id Ht Hk Hid; [by rewrite !get_leaf|].
  destruct k as [|k]; [lia|]. rewrite !(get_branch n) by done.
  destruct (mjoin _) as [c|] eqn:Hc; [|done]. simpl. apply IH; [|lia|by apply split_id].
  destruct Ht as (_ & _ & _ & Hch & _). eapply Hch. by destruct (children t !! _) as [[]|] eqn:E; simplify_eq/=.
Qed.

Lemma get_bound n t id v : table_ok n t → (0 <= id)%Z → get_at n t id = Some v → (id < capacity n)%Z.
Proof.
  revert t id. induction n as [|n IH]; intros t id Ht Hid Hg.
  - rewrite get_leaf in Hg by done. destruct Ht as (_ & Hl & _).
    destruct (slots t !! Z.to_nat id) eqn:E; [|done]. apply lookup_lt_Some in E. unfold capacity. simpl. lia.
  - rewrite (get_branch n) in Hg by done. destruct (mjoin _) as [c|] eqn:Hc; [|done].
    destruct (children t !! _) as [o|] eqn:E; [|done]. apply lookup_lt_Some in E.
    destruct Ht as (_ & Hl & _). rewrite capacity_S. pose proof (split_id n id Hid). pose proof (capacity_pos n). nia.
Qed.

Lemma get_child n t i c id : table_ok (S n) t → children t !! i = Some (Some c) → (0 <= id < capacity n)%Z →
  get_at (S n) t (Z.of_nat i * capacity n + id) = get_at n c id.
Proof.
  intros Ht Hc Hid. pose proof (capacity_pos n). rewrite (get_branch n) by (done || nia).
  destruct (join_id n i id Hid) as [-> ->]. by rewrite Nat2Z.id, Hc.
Qed.
End Shape.

Section Laws.
Context {T : Type}.
Implicit Types (t c : Table T) (id : Z) (v : T).

Lemma join_some {A} (l : list (option A)) i x : mjoin (l !! i) = Some x ↔ l !! i = Some (Some x).
Proof. by destruct (l !! i) as [[]|]; split; intros; simplify_eq/=. Qed.

Lemma row_all_full (r : list Z) : row_ok 4 r →
  forallb (λ w, (w =? u64_max)%Z) r = true ↔ ∀ i, i < 256 → bit r i = true.
Proof.
  intros [Hl Hw]. rewrite forallb_forall. split.
  - intros Hall i Hi. unfold bit. destruct (lookup_lt_is_Some_2 r (i / 64)) as [w Hx].
    { rewrite Hl. apply Nat.Div0.div_lt_upper_bound. lia. }
    rewrite Hx. specialize (Hall w (proj1 (list_elem_of_In _ _) (list_elem_of_lookup_2 _ _ _ Hx))).
    apply Z.eqb_eq in Hall as ->. apply u64_max_bit. pose proof (Nat.mod_upper_bound i 64). lia.
  - intros Hb w Hin. apply list_elem_of_In, list_elem_of_lookup in Hin as [k Hk].
    apply Z.eqb_eq, word_full; [by eapply Hw|]. intros j Hj.
    specialize (Hb (64 * k + Z.to_nat j)). apply lookup_lt_Some in Hk as Hlt. unfold bit in Hb.
    replace ((64 * k + Z.to_nat j) / 64) with k in Hb by (apply (Nat.div_unique _ _ _ (Z.to_nat j)); lia).
    replace ((64 * k + Z.to_nat j) mod 64) with (Z.to_nat j) in Hb by (apply (Nat.mod_unique _ _ k); lia).
    rewrite Hk, Z2Nat.id in Hb by lia. apply Hb. lia.
Qed.
Lemma word_zero_full (r : list Z) : row_ok 4 r → r !! 0 = Some u64_max ↔ ∀ i, i < 64 → bit r i = true.
Proof.
  intros [Hl Hw]. destruct (lookup_lt_is_Some_2 r 0) as [w Hx]; [lia|]. rewrite Hx. split.
  - intros [= ->] i Hi. unfold bit. rewrite Nat.div_small, Hx, Nat.mod_small by lia. apply u64_max_bit. lia.
  - intros Hb. f_equal. apply word_full; [by eapply Hw|]. intros j Hj. specialize (Hb (Z.to_nat j) ltac:(lia)).
    unfold bit in Hb. rewrite Nat.div_small, Hx, Nat.mod_small, Z2Nat.id in Hb by lia. done.
Qed.

(** A full block holds every identity it covers. *)
Lemma is_full_spec n t : table_ok n t →
  is_full t = true ↔ ∀ id, (0 <= id < capacity n)%Z → is_Some (get_at n t id).
Proof.
  revert t. induction n as [|n IH]; intros t Ht.
  - unfold is_full. rewrite (shift_zero _ _ Ht). pose proof Ht as (_ & Hl & Hr & Hb & _). change (0 =? 0) with true. cbv iota.
    rewrite row_all_full by done. change (capacity 0) with 256%Z. split.
    + intros Hf id Hid. rewrite (get_leaf 0) by done. specialize (Hf (Z.to_nat id) ltac:(lia)). rewrite Hb in Hf by lia.
      by apply bool_decide_eq_true in Hf.
    + intros Hg i Hi. rewrite Hb by lia. apply bool_decide_eq_true. specialize (Hg (Z.of_nat i) ltac:(lia)).
      rewrite (get_leaf 0), Nat2Z.id in Hg by done. done.
  - unfold is_full. rewrite (shift_zero _ _ Ht). pose proof Ht as (_ & Hl & Hr & Hch & Hb & _). change (S n =? 0) with false. cbv iota.
    rewrite bool_decide_eq_true, word_zero_full by done. pose proof (capacity_pos n). split.
    + intros Hf id Hid. rewrite capacity_S in Hid. destruct (split_id n id ltac:(lia)) as (H1 & H2 & H3).
      assert (Z.to_nat (id / capacity n) < 64) as Hi by nia.
      specialize (Hf _ Hi). rewrite Hb in Hf by done. unfold child_full in Hf. destruct (mjoin _) as [c|] eqn:Hc; [|done].
      pose proof Hc as Hc'. rewrite join_some in Hc'. rewrite (get_branch n), Hc by (done || lia). simpl.
      by apply IH; [eapply Hch|..].
    + intros Hg i Hi. rewrite Hb by done. unfold child_full.
      destruct (children t !! i) as [[c|]|] eqn:Hc; simpl.
      * apply IH; [by eapply Hch|]. intros id Hid. rewrite <- (get_child n t i c) by done. apply Hg. rewrite capacity_S. nia.
      * specialize (Hg (Z.of_nat i * capacity n)%Z ltac:(rewrite capacity_S; nia)).
        rewrite (get_branch n), Z.div_mul, Nat2Z.id, Hc in Hg by (done || nia). by apply is_Some_None in Hg.
      * apply lookup_ge_None in Hc. lia.
Qed.

Lemma empty_ok : table_ok 0 (@empty_table T).
Proof.
  split_and!; [done|simpl; lia|by apply row_const_ok| |done]. intros i _. unfold empty_table. cbn [full slots]. rewrite row_zero_bit. symmetry.
  apply bool_decide_eq_false. by intros [? ?].
Qed.
Lemma empty_get k id : get_at k (@empty_table T) id = None.
Proof. by rewrite get_leaf by apply empty_ok. Qed.

Lemma branch_ok n : table_ok (S n) (@branch T (level_shift (S n))).
Proof.
  unfold branch. split_and!; [done|apply length_replicate|by apply row_const_ok|..].
  - intros i c Hc. apply lookup_replicate in Hc as [? _]. done.
  - intros i Hi. cbn [children full]. rewrite row_zero_bit. by rewrite lookup_replicate_2 by done.
  - done.
Qed.
Lemma branch_get n k id : (0 <= id)%Z → get_at (S k) (@branch T (level_shift (S n))) id = None.
Proof.
  intros Hid. rewrite (get_branch n) by (done || apply branch_ok). cbn [children branch].
  destruct (replicate WIDTH None !! _) as [o|] eqn:E; [|done]. apply lookup_replicate in E as [-> _]. done.
Qed.

(** ** Preparing *)
(** The path an [insert] of [id] takes is there, and its slot is free. *)
Fixpoint prepared (n : nat) t id : Prop :=
  match n with
  | 0 => slots t !! Z.to_nat id = Some None
  | S n => ∃ c, children t !! Z.to_nat (id / capacity n) = Some (Some c) ∧ prepared n c (id mod capacity n)%Z
  end.

(** What [prepare] answers: the smallest free identity, and a table that reads as before. *)
Record reserved (n : nat) t t' id : Prop := {
  rs_ok : table_ok n t';
  rs_len : len t' = len t;
  rs_get : ∀ j, (0 <= j)%Z → get_at n t' j = get_at n t j;
  rs_bound : (0 <= id < capacity n)%Z;
  rs_free : get_at n t id = None;
  rs_least : ∀ j, (0 <= j < id)%Z → is_Some (get_at n t j);
  rs_prepared : prepared n t' id
}.

Lemma first_clear (w : Z) : word_ok w → w ≠ u64_max →
  trailing_zeros 64 (complement w) < 64 ∧ Z.testbit w (Z.of_nat (trailing_zeros 64 (complement w))) = false
  ∧ ∀ j, j < trailing_zeros 64 (complement w) → Z.testbit w (Z.of_nat j) = true.
Proof.
  intros Hw Hne. destruct (decide (trailing_zeros 64 (complement w) < 64)) as [Hlt|Hge].
  - split; [done|]. destruct (trailing_zeros_found _ _ Hlt) as [H1 H2]. rewrite complement_bit in H1 by lia. split.
    + by apply negb_true_iff.
    + intros j Hj. specialize (H2 j Hj). rewrite complement_bit in H2 by lia. by apply negb_false_iff.
  - exfalso. apply Hne, word_full; [done|]. intros k Hk.
    pose proof (trailing_zeros_none 64 (complement w) ltac:(lia) (Z.to_nat k) ltac:(lia)) as Hn.
    rewrite Z2Nat.id, complement_bit in Hn by lia. by apply negb_false_iff.
Qed.

Lemma grow_slots_lookup (l : list (option T)) index i : mjoin (grow_slots l index !! i) = mjoin (l !! i).
Proof.
  unfold grow_slots. destruct (Nat.leb_spec (length l) index); [|done].
  destruct (decide (i < length l)); [by rewrite lookup_app_l|]. rewrite lookup_app_r, (lookup_ge_None_2 l) by lia.
  destruct (replicate _ None !! _) as [o|] eqn:E; [|done]. by apply lookup_replicate in E as [-> _].
Qed.
Lemma grow_slots_length (l : list (option T)) index : length (grow_slots l index) = max (length l) (S index).
Proof. unfold grow_slots. destruct (Nat.leb_spec (length l) index); rewrite ?length_app, ?length_replicate; lia. Qed.
Lemma grow_slots_count (l : list (option T)) index : length (filter is_Some (grow_slots l index)) = length (filter is_Some l).
Proof.
  unfold grow_slots. destruct (_ <=? _); [|done]. rewrite list.filter_app, length_app.
  assert (filter is_Some (replicate (index + 1 - length l) (@None T)) = []) as ->; [|simpl; lia].
  induction (index + 1 - length l) as [|m IH]; [done|]. simpl. rewrite list.filter_cons, decide_False; [done|]. by intros [].
Qed.

(** The first word of a row that is not full, and its first clear bit. *)
Lemma row_first_clear (r : list Z) word w : row_ok 4 r → list_find (λ w, w ≠ u64_max) r = Some (word, w) →
  let index := word * 64 + trailing_zeros 64 (complement w) in
  index < 256 ∧ bit r index = false ∧ ∀ j, j < index → bit r j = true.
Proof.
  intros [Hl Hw] (Hx & Hne & Hprev)%list_find_Some. destruct (first_clear w (Hw _ _ Hx) Hne) as (Hlt & Hclear & Hset).
  set (z := trailing_zeros 64 (complement w)) in *. apply lookup_lt_Some in Hx as Hword. intros index.
  assert (index / 64 = word ∧ index mod 64 = z) as [Hd Hm].
  { split; symmetry; [apply (Nat.div_unique _ _ _ z)|apply (Nat.mod_unique _ _ word)]; unfold index; lia. }
  split; [unfold index; lia|]. unfold bit. rewrite Hd, Hm, Hx. split; [done|]. intros j Hj.
  assert (j / 64 ≤ word) as Hle by (rewrite <- Hd; apply Nat.Div0.div_le_mono; lia).
  destruct (decide (j / 64 = word)) as [E|E].
  - rewrite E, Hx. apply Hset. pose proof (Nat.div_mod_eq j 64). pose proof (Nat.div_mod_eq index 64). lia.
  - destruct (lookup_lt_is_Some_2 r (j / 64)) as [u Hu]; [lia|]. rewrite Hu.
    specialize (Hprev _ _ Hu ltac:(lia)). destruct (decide (u = u64_max)) as [->|]; [|done].
    apply u64_max_bit. pose proof (Nat.mod_upper_bound j 64). lia.
Qed.

(** ** Replacing one child *)
Lemma sum_list_replace (l : list nat) i x y : l !! i = Some x → sum_list (<[i := y]> l) + x = sum_list l + y.
Proof.
  revert i. induction l as [|z l IH]; intros [|i] Hx; simplify_eq/=; [lia|]. specialize (IH i Hx). lia.
Qed.
Lemma set_child_ok n t i o o' f l : table_ok (S n) t → children t !! i = Some o →
  (∀ c, o' = Some c → table_ok n c) → row_ok 4 f →
  (∀ j, j < 64 → bit f j = if decide (j = i) then child_full (Some o') else bit (full t) j) →
  l + child_len o = len t + child_len o' →
  table_ok (S n) (mkTable (slots t) (<[i := o']> (children t)) f (shift t) l).
Proof.
  intros (H1 & H2 & H3 & H4 & H5 & H6) Ho Hc Hf Hb Hl. split_and!; [done|by cbn; rewrite length_insert|done|..]; cbn.
  - intros j c [(-> & -> & _)|[_ Hj]]%list_lookup_insert_Some; [by apply Hc|by eapply H4].
  - intros j Hj. rewrite Hb by done. case_decide as E.
    + subst. rewrite list_lookup_insert_eq; [done|]. by eapply lookup_lt_Some.
    + rewrite list_lookup_insert_ne by done. by apply H5.
  - rewrite list_fmap_insert. pose proof (sum_list_replace (child_len <$> children t) i (child_len o) (child_len o')) as Hs.
    rewrite list_lookup_fmap, Ho in Hs. specialize (Hs eq_refl). lia.
Qed.
Lemma set_child_get n t i o f l j : table_ok (S n) t → i < length (children t) → (0 <= j)%Z →
  table_ok (S n) (mkTable (slots t) (<[i := o]> (children t)) f (shift t) l) →
  get_at (S n) (mkTable (slots t) (<[i := o]> (children t)) f (shift t) l) j
  = if decide (Z.to_nat (j / capacity n) = i) then c ← o; get_at n c (j mod capacity n)%Z else get_at (S n) t j.
Proof.
  intros Ht Hi Hj Ht'. rewrite !(get_branch n) by done. cbn [children]. case_decide as E.
  - subst i. by rewrite list_lookup_insert_eq.
  - by rewrite list_lookup_insert_ne.
Qed.

(** The block [prepare_slot] descends into. *)
Definition fresh_block (n : nat) : Table T := match n with 0 => empty_table | S _ => branch (level_shift n) end.
Lemma fresh_block_ok n : table_ok n (fresh_block n).
Proof. destruct n; [apply empty_ok|apply branch_ok]. Qed.
Lemma fresh_block_get n id : (0 <= id)%Z → get_at n (fresh_block n) id = None.
Proof. destruct n; intros; [apply empty_get|by apply branch_get]. Qed.
Lemma fresh_block_full n : is_full (fresh_block n) = false.
Proof. by destruct n. Qed.
Lemma fresh_block_len n : len (fresh_block n) = 0.
Proof. by destruct n. Qed.
Lemma fresh_block_eq n t : table_ok (S n) t →
  (if shift t =? LEAF_BITS then empty_table else branch (shift t - BITS)) = fresh_block n.
Proof.
  intros ->%table_shift. destruct n as [|n]; [done|]. unfold fresh_block, level_shift, LEAF_BITS, BITS.
  destruct (Nat.eqb_spec (8 + 6 * S n) 8); [lia|]. f_equal. lia.
Qed.

Lemma reserved_leaf t : table_ok 0 t → is_full t = false →
  ∃ id t', ∀ k, prepare_slot k t = (Ok id, t') ∧ reserved 0 t t' id.
Proof.
  intros Ht Hf. pose proof Ht as (Hs & Hl & Hr & Hb & Hc).
  unfold is_full in Hf. rewrite Hs in Hf. change (0 =? 0) with true in Hf. cbv iota in Hf.
  destruct (list_find (λ w, w ≠ u64_max) (full t)) as [[word w]|] eqn:Hfind.
  2: { exfalso. apply list_find_None in Hfind. apply not_true_iff_false in Hf. apply Hf, forallb_forall.
       rewrite Forall_forall in Hfind. intros w Hw. specialize (Hfind w Hw). destruct (Z.eqb_spec w u64_max); [done|].
       by exfalso; apply Hfind. }
  destruct (row_first_clear _ _ _ Hr Hfind) as (Hi & Hclear & Hprev).
  set (index := word * 64 + trailing_zeros 64 (complement w)) in *.
  exists (Z.of_nat index), (mkTable (grow_slots (slots t) index) (children t) (full t) (shift t) (len t)).
  intros k. split; [destruct k; simpl; by rewrite Hs, Hfind|].
  assert (table_ok 0 (mkTable (grow_slots (slots t) index) (children t) (full t) (shift t) (len t))) as Hok.
  { split_and!; cbn; [done|rewrite grow_slots_length; lia|done|..].
    - intros i Hi'. rewrite Hb by done. f_equal. by rewrite grow_slots_lookup.
    - by rewrite grow_slots_count. }
  assert (mjoin (slots t !! index) = None) as Hfree.
  { rewrite Hb in Hclear by done. apply bool_decide_eq_false in Hclear. by apply eq_None_not_Some. }
  split; [done|done|..].
  - intros j Hj. rewrite !get_leaf by done. apply grow_slots_lookup.
  - change (capacity 0) with 256%Z. lia.
  - by rewrite get_leaf, Nat2Z.id by done.
  - intros j Hj. rewrite get_leaf by done. specialize (Hprev (Z.to_nat j) ltac:(lia)). rewrite Hb in Hprev by lia.
    by apply bool_decide_eq_true in Hprev.
  - cbn. rewrite Nat2Z.id. destruct (lookup_lt_is_Some_2 (grow_slots (slots t) index) index) as [o Ho].
    { rewrite grow_slots_length. lia. }
    rewrite Ho. f_equal. pose proof (grow_slots_lookup (slots t) index index) as Hg. rewrite Ho, Hfree in Hg.
    by destruct o.
Qed.

Lemma prepare_slot_spec n k t : table_ok n t → n ≤ k → is_full t = false →
  ∃ id t', prepare_slot k t = (Ok id, t') ∧ reserved n t t' id.
Proof.
  revert k t. induction n as [|n IH]; intros k t Ht Hk Hf.
  { destruct (reserved_leaf t Ht Hf) as (id & t' & Hall). eauto. }
  destruct k as [|k]; [lia|]. pose proof Ht as (Hs & Hl & Hr & Hch & Hb & Hc).
  unfold is_full in Hf. rewrite (shift_zero _ _ Ht) in Hf. change (S n =? 0) with false in Hf. cbv iota in Hf.
  apply bool_decide_eq_false in Hf. destruct (lookup_lt_is_Some_2 (full t) 0) as [w Hw]; [destruct Hr; lia|].
  destruct (first_clear w (proj2 Hr _ _ Hw)) as (Hi & Hclear & Hset); [by intros ->|].
  cbn [prepare_slot]. rewrite (shift_zero _ _ Ht). change (S n =? 0) with false. cbv iota. rewrite Hw. change (default 0%Z (Some w)) with w. cbv zeta.
  set (i := trailing_zeros 64 (complement w)) in *. destruct (Nat.eqb_spec i WIDTH) as [E|_]; [unfold WIDTH in E; lia|].
  rewrite (fresh_block_eq n t Ht). cbv zeta. assert (∀ j, j < 64 → bit (full t) j = Z.testbit w (Z.of_nat j)) as Hbit.
  { intros j Hj. unfold bit. by rewrite Nat.div_small, Hw, Nat.mod_small. }
  destruct (lookup_lt_is_Some_2 (children t) i) as [o Ho]; [lia|].
  set (c := match children t !! i with Some (Some c) => c | _ => fresh_block n end).
  assert (table_ok n c ∧ is_full c = false ∧ len c = child_len o
    ∧ ∀ j, (0 <= j)%Z → get_at n c j = c' ← o; get_at n c' j) as (Hcok & Hcf & Hcl & Hcg).
  { unfold c. rewrite Ho. destruct o as [c'|].
    - split_and!; [by eapply Hch| |done|done]. rewrite <- Hclear, <- Hbit, Hb, Ho by lia. done.
    - split_and!; [apply fresh_block_ok|apply fresh_block_full|apply fresh_block_len|]. intros. by rewrite fresh_block_get. }
  destruct (IH k c Hcok ltac:(lia) Hcf) as (id & c' & Hprep & [R1 R2 R3 R4 R5 R6 R7]). rewrite Hprep.
  rewrite Hs, lor_id by done. eexists _, _. split; [done|].
  assert (table_ok (S n) (mkTable (slots t) (<[i := Some c']> (children t)) (full t) (shift t) (len t))) as Hok.
  { apply set_child_ok with o; [done|done|by intros ? [= <-]|done| |cbn; rewrite R2; lia].
    intros j Hj. case_decide as E; [|done]. subst j. rewrite Hbit, Hclear by lia. cbn. symmetry.
    destruct (is_full c') eqn:Hfull; [|done]. exfalso. rewrite is_full_spec in Hfull by done.
    specialize (Hfull id R4). rewrite R3, R5 in Hfull by lia. by apply is_Some_None in Hfull. }
  rewrite <- Hs. pose proof (capacity_pos n). destruct (join_id n i id R4) as [Hdiv Hmod].
  assert (∀ j, (0 <= j)%Z → get_at (S n) (mkTable (slots t) (<[i := Some c']> (children t)) (full t) (shift t) (len t)) j
    = get_at (S n) t j) as Hget.
  { intros j Hj. rewrite set_child_get by (done || lia). case_decide as E; [|done]. cbn [mbind option_bind].
    rewrite R3, Hcg by (by apply split_id). rewrite (get_branch n), E, Ho by done. done. }
  split; [done|done|done|rewrite capacity_S; nia|..].
  - rewrite (get_branch n), Hdiv, Hmod, Nat2Z.id, Ho by (done || nia). cbn. rewrite <- Hcg by lia. done.
  - intros j Hj. destruct (split_id n j ltac:(lia)) as (D1 & D2 & D3).
    assert (Z.to_nat (j / capacity n) ≤ i) as Hle by nia. rewrite (get_branch n) by (done || lia).
    destruct (decide (Z.to_nat (j / capacity n) = i)) as [E|E].
    + rewrite E, Ho. cbn. rewrite <- Hcg by lia. apply R6. nia.
    + assert (Z.to_nat (j / capacity n) < 64) as Hj64 by lia.
      specialize (Hset (Z.to_nat (j / capacity n)) ltac:(lia)). rewrite <- Hbit, Hb in Hset by lia.
      unfold child_full in Hset. destruct (mjoin _) as [x|] eqn:Hx; [|done]. cbn. rewrite is_full_spec in Hset; [by apply Hset|].
      eapply Hch. by apply join_some.
  - cbn [prepared children]. rewrite Hdiv, Hmod, Nat2Z.id. exists c'. split; [|done]. rewrite list_lookup_insert_eq by lia. done.
Qed.

(** A root one level higher reads as the table it wraps. *)
Definition wrap t : Table T :=
  mkTable [] (<[0 := Some t]> (replicate WIDTH None)) (1%Z :: replicate 3 0%Z)
    (if shift t =? 0 then LEAF_BITS else shift t + BITS) (len t).

Lemma wrap_ok n t : table_ok n t → is_full t = true → table_ok (S n) (wrap t)
  ∧ ∀ j, (0 <= j)%Z → get_at (S n) (wrap t) j = get_at n t j.
Proof.
  intros Ht Hf. assert (table_ok (S n) (wrap t)) as Hok.
  { unfold wrap. split_and!.
    - cbn [shift]. rewrite (shift_zero _ _ Ht), (table_shift _ _ Ht). destruct n; [done|]. unfold level_shift, LEAF_BITS, BITS. cbn. lia.
    - cbn [children]. by rewrite length_insert, length_replicate.
    - split; [done|]. intros k w Hw. repeat (destruct k as [|k]; [by injection Hw as <-|]). done.
    - cbn [children]. intros i c [(<- & [= <-] & _)|[_ Hi]]%list_lookup_insert_Some; [done|]. by apply lookup_replicate in Hi as [? _].
    - cbn [full children]. intros i Hi. unfold bit. rewrite Nat.div_small, Nat.mod_small by lia.
      destruct i as [|i]; [rewrite list_lookup_insert_eq by (rewrite length_replicate; done); cbn; by rewrite Hf|].
      rewrite list_lookup_insert_ne, lookup_replicate_2 by (done || lia). cbn.
      change 1%Z with (2 ^ 0)%Z. rewrite Z.pow2_bits_false by lia. done.
    - cbn [len children]. rewrite list_fmap_insert, fmap_replicate. unfold WIDTH. cbn. lia. }
  split; [done|]. intros j Hj. rewrite (get_branch n) by done. cbn [wrap children].
  destruct (split_id n j Hj) as (D1 & D2 & D3). destruct (Z.to_nat (j / capacity n)) as [|i] eqn:E.
  - rewrite list_lookup_insert_eq by (rewrite length_replicate; unfold WIDTH; lia). cbn. f_equal. nia.
  - rewrite list_lookup_insert_ne by done. pose proof (capacity_pos n).
    assert (get_at n t j = None) as ->.
    { destruct (get_at n t j) eqn:G; [|done]. apply get_bound in G; [nia|done..]. }
    destruct (replicate WIDTH None !! S i) as [o|] eqn:G; [|done]. by apply lookup_replicate in G as [-> _].
Qed.

(** [prepare] answers the smallest free identity unless all [2^32] are taken. *)
Lemma prepare_spec n t : table_ok n t → n ≤ levels →
  match prepare t with
  | (Ok id, t') => ∃ n', n' ≤ levels ∧ table_ok n' t' ∧ len t' = len t
      ∧ (∀ j, (0 <= j)%Z → get t' j = get t j) ∧ (0 <= id < 2 ^ 32)%Z ∧ get t id = None
      ∧ (∀ j, (0 <= j < id)%Z → is_Some (get t j)) ∧ prepared n' t' id
  | (Err e, t') => e = GcLimit "metadata identities" ∧ t' = t ∧ ∀ j, (0 <= j < 2 ^ 32)%Z → is_Some (get t j)
  end.
Proof.
  intros Ht Hn. assert (∀ n, n ≤ levels → (capacity n ≤ 2 ^ 32)%Z) as Hcap.
  { intros m Hm. unfold capacity. apply Z.pow_le_mono_r; unfold levels in *; lia. }
  assert (∀ id, (0 <= id)%Z → get t id = get_at n t id) as Hg by (intros; by apply get_fuel).
  unfold prepare. destruct (is_full t) eqn:Hf.
  - destruct (Nat.eqb_spec (shift t) 26) as [E|E].
    + split_and!; [done..|]. intros j Hj. rewrite Hg by lia. apply is_full_spec; [done..|].
      assert (n = 4) as ->; [|done]. rewrite (table_shift _ _ Ht) in E. destruct n; cbn in E; lia.
    + destruct (wrap_ok n t Ht Hf) as [Hw Hwg].
      assert (S n ≤ levels) as Hn'. { rewrite (table_shift _ _ Ht) in E. unfold levels in *. destruct (decide (n = 4)) as [->|]; [done|lia]. }
      assert (is_full (wrap t) = false) as Hwf.
      { apply not_true_iff_false. rewrite is_full_spec by done. intros Hall. pose proof (capacity_pos n).
        specialize (Hall (capacity n) ltac:(rewrite capacity_S; lia)). rewrite Hwg in Hall by lia.
        destruct Hall as [v Hv]. apply get_bound in Hv; [lia|done|lia]. }
      destruct (prepare_slot_spec (S n) levels (wrap t) Hw Hn' Hwf) as (id & t' & Hp & [R1 R2 R3 R4 R5 R6 R7]).
      fold (wrap t). rewrite Hp. exists (S n). specialize (Hcap _ Hn').
      split_and!; [done|done|done| |lia|lia| | |done].
      * intros j Hj. rewrite Hg by done. unfold get. rewrite (get_fuel (S n)), R3, Hwg by done. done.
      * rewrite Hg, <- Hwg by lia. done.
      * intros j Hj. rewrite Hg, <- Hwg by lia. by apply R6.
  - destruct (prepare_slot_spec n levels t Ht Hn Hf) as (id & t' & Hp & [R1 R2 R3 R4 R5 R6 R7]). rewrite Hp. exists n.
    specialize (Hcap _ Hn). split_and!; [done|done|done| |lia|lia| | |done].
    + intros j Hj. rewrite Hg by done. unfold get. rewrite (get_fuel n), R3 by done. done.
    + by rewrite Hg by lia.
    + intros j Hj. rewrite Hg by lia. by apply R6.
Qed.

(** ** Inserting *)
Lemma prepared_free n t id : prepared n t id → (0 <= id)%Z → table_ok n t → get_at n t id = None.
Proof.
  revert t id. induction n as [|n IH]; intros t id Hp Hid Ht; [rewrite get_leaf by done; cbn in Hp; by rewrite Hp|].
  destruct Hp as (c & Hc & Hcp). rewrite (get_branch n), Hc by done. cbn. apply IH; [done|by apply split_id|].
  destruct Ht as (_ & _ & _ & Hch & _). by eapply Hch.
Qed.
Lemma insert_spec n k t id v : table_ok n t → n ≤ k → (0 <= id < capacity n)%Z → prepared n t id →
  ∃ t', insert_at k t id v = Some t' ∧ table_ok n t' ∧ len t' = S (len t)
    ∧ ∀ j, (0 <= j)%Z → get_at n t' j = if decide (j = id) then Some v else get_at n t j.
Proof.
  revert k t id. induction n as [|n IH]; intros k t id Ht Hk Hid Hp.
  - pose proof Ht as (Hs & Hl & Hr & Hb & Hc). cbn in Hp. change (capacity 0) with 256%Z in Hid.
    destruct (row_insert_spec 4 (full t) (Z.to_nat id) Hr ltac:(lia)) as (f & Hf & Hfr & Hfb).
    eexists. split; [destruct k; cbn [insert_at]; rewrite Hs, Hp; cbn; by rewrite Hf|].
    assert (Z.to_nat id < length (slots t)) as Hlt by (by eapply lookup_lt_Some).
    set (t' := mkTable _ _ _ _ _). assert (table_ok 0 t') as Hok.
    { split_and!; cbn; [done|by rewrite length_insert|done|..].
      - intros i Hi. rewrite Hfb, Hb by done. destruct (decide (i = Z.to_nat id)) as [->|E].
        + rewrite list_lookup_insert_eq by done. rewrite bool_decide_eq_true_2 by done. symmetry. by apply bool_decide_eq_true_2.
        + rewrite list_lookup_insert_ne by done. by rewrite bool_decide_eq_false_2.
      - rewrite Hc. clear - Hp. revert Hp. generalize (Z.to_nat id). induction (slots t) as [|x l IH]; intros [|i] Hp; simplify_eq/=.
        + rewrite list.filter_cons, decide_False by (by intros []). done.
        + rewrite !list.filter_cons. case_decide; simpl; by rewrite (IH i). }
    split_and!; [done|done|]. intros j Hj. rewrite !get_leaf by done. unfold t'. cbn [slots].
    case_decide as E; [subst; by rewrite list_lookup_insert_eq|]. rewrite list_lookup_insert_ne by lia. done.
  - destruct k as [|k]; [lia|]. pose proof Ht as (Hs & Hl & Hr & Hch & Hb & Hc). destruct Hp as (c & Hci & Hcp).
    destruct (split_id n id ltac:(lia)) as (D1 & D2 & D3). pose proof (capacity_pos n).
    set (i := Z.to_nat (id / capacity n)) in *. apply lookup_lt_Some in Hci as Hi.
    destruct (IH k c (id mod capacity n)%Z (Hch _ _ Hci) ltac:(lia) D2 Hcp) as (c' & Hins & Hcok & Hcl & Hcg).
    assert (child_full (children t !! i) = false) as Hnf.
    { rewrite Hci. cbn. destruct (is_full c) eqn:Hfull; [|done]. rewrite is_full_spec in Hfull by (by eapply Hch).
      specialize (Hfull _ D2). rewrite prepared_free in Hfull; [by apply is_Some_None in Hfull|done|lia|by eapply Hch]. }
    assert (∃ f, (if is_full c' then row_insert (full t) i else Some (full t)) = Some f ∧ row_ok 4 f
      ∧ ∀ j, j < 64 → bit f j = if decide (j = i) then is_full c' else bit (full t) j) as (f & Hf & Hfr & Hfb).
    { destruct (is_full c') eqn:Hfull.
      - destruct (row_insert_spec 4 (full t) i Hr ltac:(lia)) as (f & ? & ? & Hfb). exists f. split_and!; [done..|].
        intros j _. rewrite Hfb. case_decide; [by rewrite bool_decide_eq_true_2|by rewrite bool_decide_eq_false_2].
      - exists (full t). split_and!; [done..|]. intros j Hj. case_decide; [|done]. subst. by rewrite Hb. }
    cbn [insert_at]. rewrite (shift_zero _ _ Ht), (child_index_spec n), (child_id_spec n) by (done || lia).
    change (S n =? 0) with false. cbv iota. fold i. rewrite Hci. cbn [mjoin option_join mbind option_bind]. rewrite Hins.
    cbn [mbind option_bind]. rewrite Hf. cbn [mbind option_bind]. eexists. split; [done|].
    assert (table_ok (S n) (mkTable (slots t) (<[i := Some c']> (children t)) f (shift t) (S (len t)))) as Hok.
    { apply set_child_ok with (Some c); [done|done|by intros ? [= <-]|done|done|cbn; lia]. }
    split_and!; [done|done|]. intros j Hj. rewrite set_child_get by done. destruct (split_id n j Hj) as (J1 & J2 & J3).
    case_decide as E.
    + cbn [mbind option_bind]. rewrite Hcg by lia. destruct (decide (j = id)) as [->|Hne]; [by rewrite decide_True|].
      rewrite decide_False, (get_branch n), E, Hci by (done || nia). done.
    + rewrite decide_False; [done|]. by intros ->.
Qed.

(** ** Updating in place *)
Lemma alter_count (f : T → T) (l : list (option T)) i : length (filter is_Some (alter (fmap f) i l)) = length (filter is_Some l).
Proof.
  revert i. induction l as [|x l IH]; intros i; [done|]. destruct i as [|i].
  - change (alter (fmap f) 0 (x :: l)) with ((f <$> x) :: l). rewrite !list.filter_cons.
    destruct x as [x|]; cbn [fmap option_fmap option_map]; [rewrite !decide_True by (by eexists)|rewrite !decide_False by (by intros [])]; done.
  - change (alter (fmap f) (S i) (x :: l)) with (x :: alter (fmap f) i l). rewrite !list.filter_cons.
    case_decide; simpl; by rewrite (IH i).
Qed.
Lemma update_spec n k t id f : table_ok n t → n ≤ k → (0 <= id)%Z →
  table_ok n (update_at k f t id) ∧ len (update_at k f t id) = len t ∧ is_full (update_at k f t id) = is_full t
  ∧ ∀ j, (0 <= j)%Z → get_at n (update_at k f t id) j = if decide (j = id) then f <$> get_at n t j else get_at n t j.
Proof.
  revert k t id. induction n as [|n IH]; intros k t id Ht Hk Hid.
  - pose proof Ht as (Hs & Hl & Hr & Hb & Hc).
    assert (update_at k f t id = mkTable (alter (fmap f) (Z.to_nat id) (slots t)) (children t) (full t) (shift t) (len t)) as ->
      by (destruct k; cbn; by rewrite Hs).
    set (t' := mkTable _ _ _ _ _). assert (∀ i, mjoin (slots t' !! i) = if decide (i = Z.to_nat id) then f <$> mjoin (slots t !! i)
      else mjoin (slots t !! i)) as Hslot.
    { intros i. unfold t'. cbn [slots]. case_decide as E; [|by rewrite list_lookup_alter_ne]. subst.
      rewrite list_lookup_alter_eq. by destruct (slots t !! _) as [[]|]. }
    assert (table_ok 0 t') as Hok.
    { split_and!; [done|unfold t'; cbn; by rewrite length_alter|done| |].
      - intros i Hi. change (full t') with (full t). rewrite Hb by done. apply bool_decide_ext. rewrite (Hslot i). case_decide; [|done]. by rewrite fmap_is_Some.
      - unfold t'. cbn [len slots]. by rewrite alter_count. }
    split_and!; [done..|]. intros j Hj. rewrite !get_leaf by done. rewrite Hslot. repeat case_decide; congruence || lia.
  - destruct k as [|k]; [lia|]. pose proof Ht as (Hs & Hl & Hr & Hch & Hb & Hc). cbn [update_at].
    rewrite (shift_zero _ _ Ht), (child_index_spec n), (child_id_spec n) by done. change (S n =? 0) with false. cbv iota.
    destruct (split_id n id Hid) as (D1 & D2 & D3). set (i := Z.to_nat (id / capacity n)) in *.
    set (g := fmap (λ c, update_at k f c (id mod capacity n)%Z)).
    assert (alter g i (children t) = match children t !! i with Some o => <[i := g o]> (children t) | None => children t end) as ->.
    { destruct (children t !! i) as [o|] eqn:E.
      - apply list_eq. intros j. destruct (decide (j = i)) as [->|]; [|by rewrite list_lookup_alter_ne, list_lookup_insert_ne].
        rewrite list_lookup_alter_eq, E, list_lookup_insert_eq; [done|]. by eapply lookup_lt_Some.
      - apply list_eq. intros j. destruct (decide (j = i)) as [->|]; [by rewrite list_lookup_alter_eq, E|by rewrite list_lookup_alter_ne]. }
    assert (mkTable (slots t) (children t) (full t) (shift t) (len t) = t) as Heta by (by destruct t).
    destruct (children t !! i) as [[c|]|] eqn:E.
    2-3: first [rewrite (list_insert_id (children t) i (g None)) by done | idtac]; rewrite Heta; split_and!; [done..|];
      intros j Hj; case_decide as Ej; [|done]; subst j; rewrite (get_branch n) by done; fold i; by rewrite E.
    destruct (IH k c (id mod capacity n)%Z (Hch _ _ E) ltac:(lia) ltac:(lia)) as (I1 & I2 & I3 & I4).
    apply lookup_lt_Some in E as Hi. cbn [g fmap option_fmap option_map].
    set (t' := mkTable _ _ _ _ _). assert (table_ok (S n) t') as Hok.
    { apply set_child_ok with (Some c); [done|done|by intros ? [= <-]|done| |cbn; lia].
      intros j Hj. case_decide; [|done]. subst. rewrite Hb, E by lia. cbn. by rewrite I3. }
    split_and!; [done|done|done|]. intros j Hj. unfold t'. rewrite set_child_get by done.
    destruct (split_id n j Hj) as (J1 & J2 & J3). case_decide as Ej.
    + cbn [mbind option_bind]. rewrite I4 by lia. rewrite (get_branch n), Ej, E by done. cbn [mjoin option_join mbind option_bind].
      destruct (decide (j = id)) as [->|Hne]; [by rewrite decide_True|]. by rewrite decide_False by nia.
    + rewrite decide_False; [done|]. by intros ->.
Qed.

(** ** Removing *)
Lemma no_children (l : list (option T)) : length (filter is_Some l) = 0 → ∀ i, mjoin (l !! i) = None.
Proof.
  intros Hc i. destruct (mjoin (l !! i)) as [v|] eqn:E; [|done]. apply join_some, list_elem_of_lookup_2 in E.
  assert (Some v ∈ filter is_Some l) as Hin by (apply list_elem_of_filter; split; [by eexists|done]).
  destruct (filter is_Some l); [by apply elem_of_nil in Hin|done].
Qed.
Lemma sum_zero (l : list nat) i x : sum_list l = 0 → l !! i = Some x → x = 0.
Proof. revert i. induction l as [|y l IH]; intros [|i] Hs Hx; simplify_eq/=; [lia|]. eapply IH; [lia|done]. Qed.

(** A table of length zero holds nothing. *)
Lemma len_zero n t : table_ok n t → len t = 0 → ∀ id, (0 <= id)%Z → get_at n t id = None.
Proof.
  revert t. induction n as [|n IH]; intros t Ht Hz id Hid.
  - rewrite get_leaf by done. destruct Ht as (_ & _ & _ & _ & Hc). apply no_children. lia.
  - rewrite (get_branch n) by done. destruct (mjoin _) as [c|] eqn:E; [|done]. cbn. apply join_some in E.
    destruct Ht as (_ & _ & _ & Hch & _ & Hc). apply IH; [by eapply Hch| |by apply split_id].
    apply (sum_zero (child_len <$> children t) (Z.to_nat (id / capacity n))); [lia|]. by rewrite list_lookup_fmap, E.
Qed.
(** [remove] before it drops an empty table. *)
Definition removed_from (n : nat) t id v t' : Prop :=
  get_at n t id = Some v ∧ len t = S (len t') ∧ table_ok n t'
  ∧ ∀ j, (0 <= j)%Z → get_at n t' j = if decide (j = id) then None else get_at n t j.

Lemma removed_leaf t id v : table_ok 0 t → (0 <= id)%Z → mjoin (slots t !! Z.to_nat id) = Some v →
  ∃ f, row_remove (full t) (Z.to_nat id) = Some f
    ∧ removed_from 0 t id v (mkTable (<[Z.to_nat id := None]> (slots t)) (children t) f (shift t) (len t - 1)).
Proof.
  intros Ht Hid Hv. pose proof Ht as (Hs & Hl & Hr & Hb & Hc). apply join_some in Hv as Hv'. apply lookup_lt_Some in Hv' as Hlt.
  destruct (row_remove_spec 4 (full t) (Z.to_nat id) Hr ltac:(lia)) as (f & Hf & Hfr & Hfb). exists f. split; [done|].
  assert (length (filter is_Some (slots t)) = S (length (filter is_Some (<[Z.to_nat id := None]> (slots t))))) as Hcount.
  { clear - Hv'. revert Hv'. generalize (Z.to_nat id). induction (slots t) as [|x l IH]; intros [|i] Hv; [done..| |].
    - injection Hv as ->. change (<[0 := None]> (Some v :: l)) with (None :: l). rewrite !list.filter_cons, decide_True, decide_False; [done|by intros []|by eexists].
    - change (<[S i := None]> (x :: l)) with (x :: <[i := None]> l). rewrite !list.filter_cons. case_decide; simpl; by rewrite (IH i). }
  set (t' := mkTable _ _ _ _ _). assert (table_ok 0 t') as Hok.
  { split_and!; [done|unfold t'; cbn; by rewrite length_insert|done| |unfold t'; cbn [len slots]; lia].
    intros i Hi. unfold t'. cbn [full slots]. rewrite Hfb, Hb by done. destruct (decide (i = Z.to_nat id)) as [->|E].
    - rewrite list_lookup_insert_eq by done. rewrite bool_decide_eq_true_2 by done. done.
    - rewrite list_lookup_insert_ne by done. by rewrite bool_decide_eq_false_2. }
  split_and!; [by rewrite get_leaf|unfold t'; cbn [len]; lia|done|]. intros j Hj. rewrite !get_leaf by done. unfold t'. cbn [slots].
  case_decide as E; [subst; by rewrite list_lookup_insert_eq|]. by rewrite list_lookup_insert_ne by lia.
Qed.

Lemma remove_spec n k t id : table_ok n t → n ≤ k → (0 <= id)%Z →
  match remove_at k t id with
  | None => get_at n t id = None
  | Some (v, t') => ∃ t'', removed_from n t id v t'' ∧ t' = if len t'' =? 0 then empty_table else t''
  end.
Proof.
  revert k t id. induction n as [|n IH]; intros k t id Ht Hk Hid.
  - pose proof Ht as (Hs & _). assert (remove_at k t id = r ← (v ← mjoin (slots t !! Z.to_nat id); f ← row_remove (full t) (Z.to_nat id);
      Some (v, mkTable (<[Z.to_nat id := None]> (slots t)) (children t) f (shift t) (len t)));
      let t' := snd r in if len t' - 1 =? 0 then Some (fst r, empty_table)
      else Some (fst r, mkTable (slots t') (children t') (full t') (shift t') (len t' - 1))) as ->
      by (destruct k; cbn [remove_at]; by rewrite Hs).
    destruct (mjoin (slots t !! Z.to_nat id)) as [v|] eqn:Hv; [|by rewrite get_leaf].
    destruct (removed_leaf t id v Ht Hid Hv) as (f & Hf & Hrem). cbn [mbind option_bind]. rewrite Hf. cbn [mbind option_bind fst snd len].
    destruct (len t - 1 =? 0) eqn:E; eexists; (split; [exact Hrem|]); cbn [len]; by rewrite E.
  - destruct k as [|k]; [lia|]. pose proof Ht as (Hs & Hl & Hr & Hch & Hb & Hc). cbn [remove_at].
    rewrite (shift_zero _ _ Ht), (child_index_spec n), (child_id_spec n) by done. change (S n =? 0) with false. cbv iota.
    destruct (split_id n id Hid) as (D1 & D2 & D3). set (i := Z.to_nat (id / capacity n)) in *.
    destruct (mjoin (children t !! i)) as [c|] eqn:E.
    2: { cbn. rewrite child_index_spec with (n := n), child_id_spec with (n := n) by done. fold i. rewrite (shift_zero _ _ Ht). cbn. by rewrite E. }
    apply join_some in E. cbn [mbind option_bind]. specialize (IH k c (id mod capacity n)%Z (Hch _ _ E) ltac:(lia) ltac:(lia)).
    destruct (remove_at k c (id mod capacity n)%Z) as [[v c']|]; cbn [mbind option_bind].
    2: { rewrite (get_branch n) by done. fold i. by rewrite E. }
    destruct IH as (c'' & (I1 & I2 & I3 & I4) & ->). apply lookup_lt_Some in E as Hi.
    destruct (row_remove_spec 4 (full t) i Hr ltac:(lia)) as (f & Hf & Hfr & Hfb). rewrite Hf. cbn [mbind option_bind fst snd len].
    set (o := if len (if len c'' =? 0 then empty_table else c'') =? 0 then None else Some (if len c'' =? 0 then empty_table else c'')).
    assert (o = if len c'' =? 0 then None else Some c'') as Ho.
    { unfold o. destruct (len c'' =? 0) eqn:Ez; [done|]. by rewrite Ez. }
    assert (is_full c'' = false) as Hnf.
    { apply not_true_iff_false. rewrite is_full_spec by done. intros Hall. specialize (Hall _ D2).
      rewrite I4, decide_True in Hall by (done || lia). by apply is_Some_None in Hall. }
    set (t'' := mkTable (slots t) (<[i := o]> (children t)) f (shift t) (len t - 1)).
    assert (len t ≠ 0) as Hne.
    { intros Hz. pose proof (sum_zero (child_len <$> children t) i (len c)) as Hsz. rewrite list_lookup_fmap, E in Hsz.
      specialize (Hsz ltac:(lia) eq_refl). lia. }
    assert (table_ok (S n) t'') as Hok.
    { apply set_child_ok with (Some c); [done|done| |done| |].
      - intros x Hx. rewrite Ho in Hx. by destruct (len c'' =? 0); simplify_eq.
      - intros j Hj. rewrite Hfb. case_decide as Ej.
        + subst. rewrite bool_decide_eq_true_2 by done. rewrite Ho. cbn. by destruct (len c'' =? 0).
        + by rewrite bool_decide_eq_false_2.
      - rewrite Ho. destruct (Nat.eqb_spec (len c'') 0); cbn [child_len]; lia. }
    assert (removed_from (S n) t id v t'') as Hrem.
    { split_and!; [|cbn [len t'']; lia|done|].
      - rewrite (get_branch n) by done. fold i. by rewrite E.
      - intros j Hj. unfold t''. rewrite set_child_get by done. destruct (split_id n j Hj) as (J1 & J2 & J3). case_decide as Ej.
        + assert (get_at n c'' (j mod capacity n)%Z = c ← o; get_at n c (j mod capacity n)%Z) as <-.
          { rewrite Ho. destruct (Nat.eqb_spec (len c'') 0) as [Ez|]; [|done]. apply len_zero; [done..|lia]. }
          rewrite I4 by lia. rewrite (get_branch n), Ej, E by done. cbn [mjoin option_join mbind option_bind].
          destruct (decide (j = id)) as [->|Hnj]; [by rewrite decide_True|]. by rewrite decide_False by nia.
        + rewrite decide_False; [done|]. by intros ->. }
    destruct (len t - 1 =? 0) eqn:Ez; exists t''; (split; [done|]); unfold t''; cbn [len]; by rewrite Ez.
Qed.

(** ** Trimming *)
Lemma len_not_full n t : table_ok n t → len t = 0 → is_full t = false.
Proof.
  intros Ht Hz. apply not_true_iff_false. rewrite is_full_spec by done. intros Hall. pose proof (capacity_pos n).
  specialize (Hall 0%Z ltac:(lia)). rewrite len_zero in Hall by done. by apply is_Some_None in Hall.
Qed.
Lemma prune_spec n k t : table_ok n t → n ≤ k → table_ok n (prune_empty k t) ∧ len (prune_empty k t) = len t
  ∧ is_full (prune_empty k t) = is_full t ∧ ∀ j, (0 <= j)%Z → get_at n (prune_empty k t) j = get_at n t j.
Proof.
  revert k t. induction n as [|n IH]; intros k t Ht Hk.
  - destruct k as [|k]; [done|]. assert (table_ok 0 (prune_empty (S k) t)) as Hok by done.
    split_and!; [done..|]. intros j Hj. by rewrite !get_leaf.
  - destruct k as [|k]; [lia|]. pose proof Ht as (Hs & Hl & Hr & Hch & Hb & Hc). cbn [prune_empty].
    set (g := λ o : option (Table T), match o with Some c => if len c =? 0 then None else Some (prune_empty k c) | None => None end).
    assert (∀ i c, children t !! i = Some (Some c) → table_ok n (prune_empty k c) ∧ len (prune_empty k c) = len c
      ∧ is_full (prune_empty k c) = is_full c ∧ ∀ j, (0 <= j)%Z → get_at n (prune_empty k c) j = get_at n c j) as Hchild.
    { intros i c Hi. apply IH; [by eapply Hch|lia]. }
    set (t' := mkTable _ _ _ _ _). assert (∀ i, children t' !! i = g <$> children t !! i) as Hlook.
    { intros i. unfold t'. cbn [children]. by rewrite list_lookup_fmap. }
    assert (table_ok (S n) t') as Hok.
    { split_and!; [done|unfold t'; cbn [children]; by rewrite length_fmap|done|..].
      - intros i c. rewrite Hlook. destruct (children t !! i) as [[x|]|] eqn:E; cbn; try done.
        destruct (len x =? 0); [done|]. intros [= <-]. by apply (Hchild i).
      - intros i Hi. change (full t') with (full t). rewrite Hb, Hlook by done. unfold child_full.
        destruct (children t !! i) as [[x|]|] eqn:E; cbn; try done. destruct (Nat.eqb_spec (len x) 0) as [Ez|].
        + apply len_not_full with n; [by eapply Hch|done].
        + symmetry. by apply (Hchild i).
      - change (len t') with (len t). rewrite Hc. unfold t'. cbn [children]. f_equal. rewrite <- list_fmap_compose. apply list_eq. intros i.
        rewrite !list_lookup_fmap. destruct (children t !! i) as [[x|]|] eqn:E; cbn; try done.
        destruct (Nat.eqb_spec (len x) 0) as [->|]; [done|]. cbn. f_equal. symmetry. by apply (Hchild i). }
    split_and!; [done..|]. intros j Hj. rewrite !(get_branch n) by done. rewrite Hlook.
    destruct (children t !! _) as [[x|]|] eqn:E; cbn; try done. destruct (split_id n j Hj) as (J1 & J2 & J3).
    destruct (Nat.eqb_spec (len x) 0) as [Ez|]; cbn.
    + symmetry. apply len_zero; [by eapply Hch|done|lia].
    + eapply Hchild; [done|lia].
Qed.

Lemma sum_sole (l : list nat) x i y : l !! 0 = Some x → sum_list l = x → l !! S i = Some y → y = 0.
Proof. destruct l as [|z l]; [done|]. cbn. intros [= ->] Hs Hy. apply (sum_zero l i); [lia|done]. Qed.

Lemma drop_prefix_spec n k t : table_ok n t → n ≤ k → ∃ n', n' ≤ n ∧ table_ok n' (drop_prefix k t)
  ∧ len (drop_prefix k t) = len t ∧ ∀ j, (0 <= j)%Z → get_at n (drop_prefix k t) j = get_at n t j.
Proof.
  revert k t. induction n as [|n IH]; intros k t Ht Hk.
  - exists 0. pose proof Ht as (Hs & _). assert (drop_prefix k t = t) as -> by (destruct k; cbn; by rewrite ?Hs). done.
  - destruct k as [|k]; [lia|]. cbn [drop_prefix]. rewrite (shift_zero _ _ Ht). change (S n =? 0) with false. cbv iota.
    destruct (children t !! 0) as [[c|]|] eqn:E; try by exists (S n).
    destruct (Nat.eqb_spec (len c) (len t)) as [El|]; [|by exists (S n)].
    pose proof Ht as (Hs & Hl & Hr & Hch & Hb & Hc).
    destruct (IH k c (Hch _ _ E) ltac:(lia)) as (n' & Hn & Hok & Hlen & Hget). exists n'. split_and!; [lia|done|lia|].
    intros j Hj. rewrite (get_fuel n' (S n)), <- (get_fuel n' n), Hget by (done || lia).
    destruct (split_id n j Hj) as (J1 & J2 & J3). rewrite (get_branch n) by done.
    destruct (Z.to_nat (j / capacity n)) as [|i] eqn:Ej; [rewrite E; cbn; f_equal; nia|].
    pose proof (capacity_pos n). assert (get_at n c j = None) as ->.
    { destruct (get_at n c j) eqn:G; [|done]. apply get_bound in G; [nia|by eapply Hch|done]. }
    destruct (mjoin (children t !! S i)) as [x|] eqn:Ex; [|done]. apply join_some in Ex. cbn. symmetry.
    apply len_zero; [by eapply Hch| |lia].
    apply (sum_sole (child_len <$> children t) (len c) i); rewrite ?list_lookup_fmap, ?E, ?Ex; [done|by rewrite <- Hc, El|done].
Qed.
End Laws.

(** ** Refinement of finite maps *)
Section Refines.
Context {T : Type}.
Implicit Types (t : Table T) (m : gmap Z T) (id : Z) (v : T).

Record refines t m : Prop := {
  rf_ok : ∃ n, n ≤ levels ∧ table_ok n t;
  rf_get : ∀ id, (0 <= id)%Z → get t id = m !! id;
  rf_dom : ∀ id, is_Some (m !! id) → (0 <= id < 2 ^ 32)%Z;
  rf_len : len t = size m
}.
(** [prepare] has reserved [id] for an [insert]. *)
Definition ready t id : Prop := ∃ n, n ≤ levels ∧ table_ok n t ∧ (0 <= id < capacity n)%Z ∧ prepared n t id.

Lemma refines_empty : refines empty_table ∅.
Proof.
  split; [by exists 0; split; [unfold levels; lia|apply empty_ok]|..].
  - intros id _. rewrite lookup_empty. apply empty_get.
  - intros id. rewrite lookup_empty. by intros ?%is_Some_None.
  - by rewrite map_size_empty.
Qed.

Lemma refines_prepare t m : refines t m →
  match prepare t with
  | (Ok id, t') => refines t' m ∧ m !! id = None ∧ (0 <= id < 2 ^ 32)%Z ∧ (∀ j, (0 <= j < id)%Z → is_Some (m !! j)) ∧ ready t' id
  | (Err e, t') => e = GcLimit "metadata identities" ∧ t' = t ∧ ∀ j, (0 <= j < 2 ^ 32)%Z → is_Some (m !! j)
  end.
Proof.
  intros [(n & Hn & Ht) Hg Hd Hl]. pose proof (prepare_spec n t Ht Hn) as Hp. destruct (prepare t) as [[id|e] t'].
  - destruct Hp as (n' & Hn' & Ht' & Hlen & Hget & Hid & Hfree & Hleast & Hprep). rewrite Hg in Hfree by lia.
    assert (id < capacity n')%Z as Hb.
    { clear - Hprep Ht' Hid. revert t' id Ht' Hid Hprep. induction n' as [|n IH]; intros t id Ht Hid Hp.
      - cbn in Hp. apply lookup_lt_Some in Hp. destruct Ht as (_ & ? & _). change (capacity 0) with 256%Z. lia.
      - destruct Hp as (c & Hc & _). apply lookup_lt_Some in Hc. destruct Ht as (_ & ? & _). rewrite capacity_S.
        destruct (split_id n id ltac:(lia)) as (? & ? & ?). pose proof (capacity_pos n). nia. }
    split_and!; [|done|lia|lia| |].
    + split; [eauto|by intros; rewrite Hget, Hg|done|congruence].
    + intros j Hj. rewrite <- Hg by lia. by apply Hleast.
    + exists n'. split_and!; [done|done|lia|done|done].
  - destruct Hp as (-> & -> & Hfull). split_and!; [done..|]. intros j Hj. rewrite <- Hg by lia. by apply Hfull.
Qed.

Lemma refines_insert t m id v : refines t m → ready t id →
  m !! id = None ∧ ∃ t', insert t id v = Some t' ∧ refines t' (<[id := v]> m).
Proof.
  intros [_ Hg Hd Hl] (n & Hn & Ht & Hid & Hp).
  assert (m !! id = None) as Hfree by (rewrite <- Hg by lia; unfold get; rewrite (get_fuel n) by (done || lia); apply prepared_free; done || lia).
  split; [done|]. destruct (insert_spec n levels t id v Ht Hn Hid Hp) as (t' & Hins & Ht' & Hlen & Hget).
  exists t'. split; [done|]. split; [eauto|..].
  - intros j Hj. unfold get. rewrite (get_fuel n), Hget by done. case_decide as E; [subst; by rewrite lookup_insert_eq|].
    rewrite lookup_insert_ne, <- Hg by done. symmetry. by apply get_fuel.
  - intros j. destruct (decide (j = id)) as [->|]; [|rewrite lookup_insert_ne by done; apply Hd]. intros _.
    assert (capacity n ≤ 2 ^ 32)%Z by (unfold capacity; apply Z.pow_le_mono_r; unfold levels in Hn; lia). lia.
  - rewrite map_size_insert_None by done. lia.
Qed.

Lemma refines_update t m id f : refines t m → (0 <= id)%Z → refines (update f t id) (alter f id m).
Proof.
  intros [(n & Hn & Ht) Hg Hd Hl] Hid. destruct (update_spec n levels t id f Ht Hn Hid) as (U1 & U2 & _ & U4). unfold update. split; [eauto|..].
  - intros j Hj. unfold get. rewrite (get_fuel n), U4 by done. case_decide as E.
    + subst. rewrite lookup_alter_eq, <- Hg by done. f_equal. symmetry. by apply get_fuel.
    + rewrite lookup_alter_ne, <- Hg by done. symmetry. by apply get_fuel.
  - intros j. rewrite lookup_alter_is_Some. apply Hd.
  - rewrite U2, Hl. rewrite <- !size_dom. by rewrite dom_alter_L.
Qed.

Lemma refines_remove t m id : refines t m → (0 <= id)%Z →
  match remove t id with
  | Some (v, t') => m !! id = Some v ∧ refines t' (delete id m)
  | None => m !! id = None
  end.
Proof.
  intros [(n & Hn & Ht) Hg Hd Hl] Hid. pose proof (remove_spec n levels t id Ht Hn Hid) as Hr. unfold remove.
  assert (∀ j, (0 <= j)%Z → get_at n t j = m !! j) as Hgn by (intros; rewrite <- Hg by done; symmetry; by apply get_fuel).
  destruct (remove_at levels t id) as [[v t']|]; [|by rewrite <- Hgn].
  destruct Hr as (t'' & (R1 & R2 & R3 & R4) & ->). rewrite Hgn in R1 by done. split; [done|].
  assert (len t'' = size (delete id m)) as Hlen by (rewrite map_size_delete_Some by (by eexists); lia).
  assert (∀ j, (0 <= j)%Z → get_at n t'' j = delete id m !! j) as Hget.
  { intros j Hj. rewrite R4 by done. case_decide as E; [subst; by rewrite lookup_delete_eq|]. by rewrite lookup_delete_ne, Hgn by done. }
  assert (∀ j, is_Some (delete id m !! j) → (0 <= j < 2 ^ 32)%Z) as Hdom by (intros j [x [_ Hx]%lookup_delete_Some]; by apply Hd).
  destruct (Nat.eqb_spec (len t'') 0) as [Ez|].
  - assert (delete id m = ∅) as -> by (apply map_size_empty_inv; lia). apply refines_empty.
  - split; [eauto| |done|done]. intros j Hj. unfold get. by rewrite (get_fuel n), Hget.
Qed.

Lemma refines_trim t m : refines t m → refines (trim t) m.
Proof.
  intros [(n & Hn & Ht) Hg Hd Hl]. unfold trim. destruct (Nat.eqb_spec (len t) 0) as [Ez|].
  - assert (m = ∅) as -> by (apply map_size_empty_inv; lia). apply refines_empty.
  - destruct (prune_spec n levels t Ht Hn) as (P1 & P2 & _ & P4).
    destruct (drop_prefix_spec n levels _ P1 Hn) as (n' & Hn' & D1 & D2 & D3).
    split; [exists n'; split; [lia|done]| |done|congruence]. intros j Hj. rewrite <- Hg by done. unfold get.
    rewrite (get_fuel n'), <- (get_fuel n' n), D3, P4, (get_fuel n levels t) by (done || lia). done.
Qed.

(** C34: The radix table is a finite map. Reading, writing in place, removing and
    trimming agree with the map on every identity, the length is the number of
    entries, an insert of a prepared identity never panics, and the prepared
    identity is the smallest free one; preparing fails only when all [2^32] are
    taken. *)
Theorem table_refines_map t m : refines t m →
  (∀ id, (0 <= id)%Z → get t id = m !! id) ∧ len t = size m
  ∧ (match prepare t with
     | (Ok id, t') => refines t' m ∧ m !! id = None ∧ (∀ j, (0 <= j < id)%Z → is_Some (m !! j))
         ∧ ∀ v, ∃ t'', insert t' id v = Some t'' ∧ refines t'' (<[id := v]> m)
     | (Err e, t') => e = GcLimit "metadata identities" ∧ t' = t ∧ ∀ j, (0 <= j < 2 ^ 32)%Z → is_Some (m !! j)
     end)
  ∧ (∀ id, (0 <= id)%Z → match remove t id with
                         | Some (v, t') => m !! id = Some v ∧ refines t' (delete id m)
                         | None => m !! id = None
                         end)
  ∧ (∀ id f, (0 <= id)%Z → refines (update f t id) (alter f id m))
  ∧ refines (trim t) m.
Proof.
  intros Ht. split; [apply Ht|]. split; [apply Ht|]. split.
  { pose proof (refines_prepare t m Ht) as Hp. destruct (prepare t) as [[id|e] t']; [|done].
    destruct Hp as (H1 & H2 & _ & H4 & H5). split_and!; [done..|]. intros v. by apply (refines_insert t' m id v H1 H5). }
  split; [intros; by apply refines_remove|]. split; [intros; by apply refines_update|by apply refines_trim].
Qed.
End Refines.

(** Three hundred entries need a second level; the smallest free identity is reused. *)
Definition fill (n : nat) : Table nat :=
  foldl (λ t k, match prepare t with
                | (Ok id, t') => default t (insert t' id k)
                | (Err _, t') => t'
                end) empty_table (seq 0 n).
Example fill_two_levels :
  let t := fill 300 in
  (shift t, len t, get t 299, get t 300) = (8, 300, Some 299, None)
  ∧ match remove t 7 with
    | Some (v, t') => v = 7 ∧ fst (prepare t') = Ok 7%Z
    | None => False
    end.
Proof. vm_compute. auto. Qed.

Lemma table_refines_map_witness : len (@empty_table nat) = size (∅ : gmap Z nat).
Proof. exact (proj1 (proj2 (table_refines_map empty_table ∅ refines_empty))). Defined.
