(* ===== verification/GcPage.v ===== *)
(** * Managed heap: pages, slot bitmaps and mark bits

    Models [kagari-gc/src/allocation/page.rs] (size classes, page geometry and the
    life of a slot: free, reserved, occupied, detached, free) and the [PageMarks] of
    [marking.rs].  The trailer that the code keeps behind the object region of a page
    is the header of the page here.  [None] is a panic. *)
From S2P Require Import Prelude SlotBits GcBase.
Open Scope nat_scope.

#[local] Arguments Nat.div : simpl never.
#[local] Arguments Nat.modulo : simpl never.
#[local] Arguments Z.pow : simpl never.

(** ** Layouts: [std::alloc::Layout] *)
Record Layout : Set := { lsize : Z; lalign : Z }.
Definition isize_max : Z := (2 ^ 63 - 1)%Z.
Definition round_up (size align : Z) : Z := ((size + align - 1) / align * align)%Z.
Definition layout_extend (left right : Layout) : option (Layout * Z) :=
  let align := Z.max (lalign left) (lalign right) in
  let offset := round_up (lsize left) (lalign right) in
  let size := (offset + lsize right)%Z in
  if (isize_max - (align - 1) <? size)%Z then None
  else Some ({| lsize := size; lalign := align |}, offset).

(** [size_of] and [align_of] of the trailer types on a 64-bit target. *)
Definition small_header_layout : Layout := {| lsize := 56; lalign := 8 |}.
Definition large_header_layout : Layout := {| lsize := 72; lalign := 8 |}.
Definition page_marks_layout : Layout := {| lsize := 48; lalign := 8 |}.

Definition SLAB_BYTES : nat := 1024.
Definition STRIDES : list nat :=
  [8; 16; 24; 32; 40; 48; 56; 64; 80; 96; 112; 128; 160; 192; 224; 256; 320; 384; 448; 512; 640;
   768; 896; 1024].
Definition GROUPS : nat := 96.

(** ** marking.rs: mark bits *)
Record PageMarks : Set := {
  mark_epoch : Z; discovered_words : list Z; scanned_words : list Z; queued : bool
}.
Definition new_marks : PageMarks :=
  {| mark_epoch := 0; discovered_words := [0; 0]%Z; scanned_words := [0; 0]%Z; queued := false |}.

Definition reset_needed (m : PageMarks) (epoch : Z) : bool := negb (mark_epoch m =? epoch)%Z.
Definition ensure (m : PageMarks) (epoch : Z) : PageMarks :=
  if reset_needed m epoch
  then {| mark_epoch := epoch; discovered_words := [0; 0]%Z; scanned_words := [0; 0]%Z; queued := false |}
  else m.
Definition black_word (m : PageMarks) (word : nat) (epoch : Z) : option Z :=
  if reset_needed m epoch then Some 0%Z else scanned_words m !! word.
Definition black (m : PageMarks) (slot : nat) (epoch : Z) : option bool :=
  w ← black_word m (slot / 64) epoch; Some (negb (Z.land w (mask slot) =? 0)%Z).
Definition discovered (m : PageMarks) (slot : nat) (epoch : Z) : option bool :=
  if reset_needed m epoch then Some false else row_contains (discovered_words m) slot.
Definition with_discovered (m : PageMarks) (slot : nat) : option PageMarks :=
  d ← row_insert (discovered_words m) slot;
  Some {| mark_epoch := mark_epoch m; discovered_words := d; scanned_words := scanned_words m; queued := queued m |}.
Definition set_black (m : PageMarks) (slot : nat) (epoch : Z) : option PageMarks :=
  let m := ensure m epoch in
  d ← row_insert (discovered_words m) slot;
  s ← row_insert (scanned_words m) slot;
  Some {| mark_epoch := mark_epoch m; discovered_words := d; scanned_words := s; queued := queued m |}.
Definition clear_slot (m : PageMarks) (slot : nat) : option PageMarks :=
  d ← row_remove (discovered_words m) slot;
  s ← row_remove (scanned_words m) slot;
  Some {| mark_epoch := mark_epoch m; discovered_words := d; scanned_words := s; queued := queued m |}.
Definition set_queued (m : PageMarks) (q : bool) : PageMarks :=
  {| mark_epoch := mark_epoch m; discovered_words := discovered_words m; scanned_words := scanned_words m; queued := q |}.
(** [gray]: a [u128] whose upper half is the second word. *)
Definition gray (m : PageMarks) (epoch : Z) : option Z :=
  if reset_needed m epoch then Some 0%Z
  else
    d0 ← discovered_words m !! 0; d1 ← discovered_words m !! 1;
    s0 ← scanned_words m !! 0; s1 ← scanned_words m !! 1;
    Some (Z.lor (Z.land d0 (complement s0)) (Z.shiftl (Z.land d1 (complement s1)) 64)).

(** ** Pages *)
Record Links : Set := { previous : option Z; next_page : option Z }.
Definition no_links : Links := {| previous := None; next_page := None |}.

Inductive Header : Set :=
| SmallHeader (group free : nat) (available : Links) (bits : list Z)
| LargeHeader (occupied unavailable : bool).
(** [backing] stands for the address of the page's block: the host allocator never
    hands out the address of a block that is still owned. *)
Record Page : Set := { header : Header; active : Links; marks : PageMarks; backing : Z; backing_bytes : Z }.
(** [ObjectRef]: a block and a byte offset in it. *)
Definition ObjectRef : Set := Z * Z.

Definition with_header (pg : Page) (h : Header) : Page :=
  {| header := h; active := active pg; marks := marks pg; backing := backing pg; backing_bytes := backing_bytes pg |}.
Definition with_marks (pg : Page) (m : PageMarks) : Page :=
  {| header := header pg; active := active pg; marks := m; backing := backing pg; backing_bytes := backing_bytes pg |}.
Definition with_active (pg : Page) (l : Links) : Page :=
  {| header := header pg; active := l; marks := marks pg; backing := backing pg; backing_bytes := backing_bytes pg |}.

(** [Geometry::new] of the class of a group. *)
Definition stride (group : nat) : nat := default 1 (STRIDES !! (group mod 48 / 2)).
Definition group_slots (group : nat) : nat := SLAB_BYTES / stride group.
Definition group_words (group : nat) : nat := (group_slots group + 63) / 64.
Definition trailer (group : nat) : option Layout :=
  r ← layout_extend small_header_layout {| lsize := 16 * Z.of_nat (group_words group); lalign := 8 |};
  r ← layout_extend (fst r) page_marks_layout;
  Some (fst r).

Definition page_group (layout : Layout) (edge_free : bool) : option nat :=
  tier ← (if (1 <=? lalign layout)%Z && (lalign layout <=? 16)%Z then Some 0
          else if (17 <=? lalign layout)%Z && (lalign layout <=? 64)%Z then Some 1 else None);
  r ← list_find (λ stride, (lsize layout <= Z.of_nat stride)%Z ∧ (Z.of_nat stride mod lalign layout = 0)%Z) STRIDES;
  Some (tier * 48 + fst r * 2 + (if edge_free then 0 else 1)).

(** [backing_layout(..)?.size()]. *)
Definition backing_layout (layout : Layout) (group : option nat) : option Z :=
  match group with
  | Some group =>
      t ← trailer group;
      r ← layout_extend {| lsize := Z.of_nat SLAB_BYTES; lalign := if group / 48 =? 0 then 16%Z else 64%Z |} t;
      Some (lsize (fst r))
  | None => r ← layout_extend layout large_header_layout; Some (lsize (fst r))
  end.

Definition new_small (group : nat) (block bytes : Z) : Page :=
  {| header := SmallHeader group (group_slots group) no_links (replicate (group_words group * 2) 0%Z);
     active := no_links; marks := new_marks; backing := block; backing_bytes := bytes |}.
Definition new_large (block bytes : Z) : Page :=
  {| header := LargeHeader false false; active := no_links; marks := new_marks; backing := block; backing_bytes := bytes |}.

Definition group_id (pg : Page) : option nat :=
  match header pg with SmallHeader group _ _ _ => Some group | LargeHeader _ _ => None end.
Definition page_slots (pg : Page) : nat :=
  match header pg with SmallHeader group _ _ _ => group_slots group | LargeHeader _ _ => 1 end.
Definition free (pg : Page) : nat :=
  match header pg with
  | SmallHeader _ free _ _ => free
  | LargeHeader occupied unavailable => if negb occupied && negb unavailable then 1 else 0
  end.
Definition occupied (pg : Page) (slot : nat) : option bool :=
  if page_slots pg <=? slot then Some false
  else match header pg with
       | SmallHeader _ _ _ bits => row_contains bits slot
       | LargeHeader occupied _ => Some occupied
       end.

(** The occupied white slots of one word, from [lower] on. *)
Definition dead_candidates (pg : Page) (word lower : nat) (epoch : Z) : option Z :=
  occ ← (match header pg with
         | SmallHeader _ _ _ bits => bits !! word
         | LargeHeader occupied _ => Some (if occupied then 1%Z else 0%Z)
         end);
  b ← black_word (marks pg) word epoch;
  Some (Z.land (Z.land occ (complement b)) (Z.land u64_max (Z.shiftl u64_max (Z.of_nat lower)))).
Fixpoint next_dead_in (pg : Page) (start stop : nat) (epoch : Z) (words : list nat) : option nat :=
  match words with
  | [] => Some stop
  | word :: words =>
      c ← dead_candidates pg word (if word =? start / 64 then start mod 64 else 0) epoch;
      if (c =? 0)%Z then next_dead_in pg start stop epoch words
      else Some (Nat.min (word * 64 + trailing_zeros 64 c) stop)
  end.
Definition next_dead (pg : Page) (start stop : nat) (epoch : Z) : option nat :=
  next_dead_in pg start stop epoch (seq (start / 64) (S ((stop - 1) / 64) - start / 64)).

(** [pointer] and [slot_of]. *)
Definition page_stride (pg : Page) : nat :=
  match header pg with SmallHeader group _ _ _ => stride group | LargeHeader _ _ => 0 end.
Definition pointer (pg : Page) (slot : nat) : option ObjectRef :=
  if slot <? page_slots pg then Some (backing pg, Z.of_nat (slot * page_stride pg)) else None.
Definition slot_of (pg : Page) (r : ObjectRef) : option nat :=
  if (fst r =? backing pg)%Z && (0 <=? snd r)%Z then
    slot ← (match header pg with
            | SmallHeader group _ _ _ =>
                if (snd r mod Z.of_nat (stride group) =? 0)%Z then Some (Z.to_nat (snd r / Z.of_nat (stride group))) else None
            | LargeHeader _ _ => if (snd r =? 0)%Z then Some 0 else None
            end);
    if slot <? page_slots pg then Some slot else None
  else None.

(** The first free slot of the words in order. *)
Fixpoint free_slot (bits : list Z) (words slots : nat) (l : list nat) : option nat :=
  match l with
  | [] => None
  | word :: l =>
      o ← bits !! word; u ← bits !! (words + word);
      let available := complement (Z.lor o u) in
      let slot := word * 64 + trailing_zeros 64 available in
      if negb (available =? 0)%Z && (slot <? slots) then Some slot else free_slot bits words slots l
  end.
Definition page_reserve (pg : Page) : option (nat * Page) :=
  r ← (match header pg with
       | SmallHeader group free available bits =>
           let words := group_words group in
           slot ← free_slot bits words (group_slots group) (seq 0 words);
           bits' ← row_insert bits (words * 64 + slot);
           if free =? 0 then None else Some (slot, SmallHeader group (free - 1) available bits')
       | LargeHeader false false => Some (0, LargeHeader false true)
       | LargeHeader _ _ => None
       end);
  m ← clear_slot (marks pg) (fst r);
  Some (fst r, with_marks (with_header pg (snd r)) m).
Definition page_commit (pg : Page) (slot : nat) : option Page :=
  match header pg with
  | SmallHeader group free available bits =>
      bits ← row_remove bits (group_words group * 64 + slot);
      bits ← row_insert bits slot;
      Some (with_header pg (SmallHeader group free available bits))
  | LargeHeader _ _ => Some (with_header pg (LargeHeader true false))
  end.
Definition page_detach (pg : Page) (slot : nat) : option Page :=
  o ← occupied pg slot;
  if negb o then None
  else match header pg with
       | SmallHeader group free available bits =>
           bits ← row_remove bits slot;
           bits ← row_insert bits (group_words group * 64 + slot);
           Some (with_header pg (SmallHeader group free available bits))
       | LargeHeader _ _ => Some (with_header pg (LargeHeader false true))
       end.
Definition page_release (pg : Page) (slot : nat) : option Page :=
  match header pg with
  | SmallHeader group free available bits =>
      bits ← row_remove bits (group_words group * 64 + slot);
      Some (with_header pg (SmallHeader group (S free) available bits))
  | LargeHeader occupied _ => Some (with_header pg (LargeHeader occupied false))
  end.
(** [available] and [available_mut]: small pages only. *)
Definition available (pg : Page) : option Links :=
  match header pg with SmallHeader _ _ l _ => Some l | LargeHeader _ _ => None end.
Definition with_available (pg : Page) (l : Links) : option Page :=
  match header pg with
  | SmallHeader group free _ bits => Some (with_header pg (SmallHeader group free l bits))
  | LargeHeader _ _ => None
  end.

(** ** The states of a slot *)
Definition occ (pg : Page) (s : nat) : bool := default false (occupied pg s).
(** Reserved or detached, but not yet free. *)
Definition pending_slot (pg : Page) (s : nat) : bool :=
  (s <? page_slots pg)
  && match header pg with
     | SmallHeader group _ _ bits => bit bits (group_words group * 64 + s)
     | LargeHeader _ unavailable => unavailable
     end.
Definition is_free (pg : Page) (s : nat) : bool := negb (occ pg s) && negb (pending_slot pg s).
Definition count (p : nat → bool) (n : nat) : nat := length (filter (λ s, p s = true) (seq 0 n)).

Record page_ok (pg : Page) : Prop := {
  pk_bits : match header pg with
            | SmallHeader group _ _ bits =>
                group < GROUPS ∧ row_ok (group_words group * 2) bits
                ∧ ∀ s, group_slots group ≤ s < group_words group * 64 →
                    bit bits s = false ∧ bit bits (group_words group * 64 + s) = false
            | LargeHeader _ _ => True
            end;
  pk_disjoint : ∀ s, occ pg s = true → pending_slot pg s = false;
  pk_free : free pg = count (is_free pg) (page_slots pg);
  pk_marks : row_ok 2 (discovered_words (marks pg)) ∧ row_ok 2 (scanned_words (marks pg))
}.

Lemma geometry group : group < GROUPS →
  0 < group_slots group ≤ 128 ∧ group_slots group ≤ group_words group * 64 ∧ 0 < group_words group ≤ 2.
Proof.
  intros Hg. assert (Forall (λ g, 0 < group_slots g ≤ 128 ∧ group_slots g ≤ group_words g * 64 ∧ 0 < group_words g ≤ 2) (seq 0 GROUPS)) as Hall.
  { unfold GROUPS. repeat (apply List.Forall_cons; [unfold group_slots, group_words, group_slots, stride, SLAB_BYTES; vm_compute; lia|]). constructor. }
  rewrite Forall_forall in Hall. apply Hall, in_seq. lia.
Qed.
Lemma page_slots_bound pg : page_ok pg → 0 < page_slots pg ≤ 128.
Proof.
  intros Hok. pose proof (pk_bits _ Hok) as Hb. unfold page_slots. destruct (header pg); [|lia].
  destruct Hb as [Hg _]. by apply geometry.
Qed.

Lemma occ_small pg group f a bits s : page_ok pg → header pg = SmallHeader group f a bits → s < group_slots group →
  occupied pg s = Some (bit bits s) ∧ occ pg s = bit bits s.
Proof.
  intros Hok Hh Hs. pose proof (pk_bits _ Hok) as Hb. rewrite Hh in Hb. destruct Hb as (Hg & [Hl _] & _).
  destruct (geometry _ Hg) as (_ & Hw & _). unfold occ, occupied, page_slots. rewrite Hh.
  destruct (Nat.leb_spec (group_slots group) s); [lia|]. rewrite row_contains_spec by lia. done.
Qed.
Lemma occ_bound pg s : occ pg s = true → s < page_slots pg.
Proof. unfold occ, occupied. destruct (Nat.leb_spec (page_slots pg) s); [done|]. done. Qed.
Lemma pending_bound pg s : pending_slot pg s = true → s < page_slots pg.
Proof. unfold pending_slot. by intros [?%Nat.ltb_lt _]%andb_true_iff. Qed.
Lemma occupied_some pg s : page_ok pg → occupied pg s = Some (occ pg s).
Proof.
  intros Hok. destruct (decide (s < page_slots pg)) as [Hs|Hs].
  - destruct (header pg) as [g f a b|o u] eqn:Hh.
    + assert (s < group_slots g) as Hs' by (unfold page_slots in Hs; by rewrite Hh in Hs).
      destruct (occ_small pg g f a b s Hok Hh Hs') as [-> ->]. done.
    + unfold occ, occupied. rewrite Hh. by destruct (page_slots pg <=? s).
  - unfold occ, occupied. destruct (Nat.leb_spec (page_slots pg) s); [done|lia].
Qed.

(** ** Counting slots *)
Lemma count_ext p q n : (∀ s, s < n → p s = q s) → count p n = count q n.
Proof.
  intros Hpq. unfold count. f_equal. apply filter_agree.
  intros s Hs%elem_of_seq. rewrite Hpq by lia. done.
Qed.
Lemma count_flip p q n s : s < n → p s = true → (∀ x, q x = negb (x =? s) && p x) → count p n = S (count q n).
Proof.
  intros Hs Hp Hq. unfold count. replace n with (s + S (n - s - 1)) by lia. rewrite seq_app, !list.filter_app, !length_app. cbn [seq Nat.add].
  rewrite !list.filter_cons. rewrite decide_True by done. rewrite decide_False.
  2: { rewrite Hq, Nat.eqb_refl. done. }
  cbn [length]. rewrite Nat.add_succ_r. f_equal. f_equal; f_equal; apply filter_agree;
    intros x Hx%elem_of_seq; rewrite Hq; destruct (Nat.eqb_spec x s); try lia; done.
Qed.
Lemma count_pos p n s : s < n → p s = true → 0 < count p n.
Proof.
  intros Hs Hp. unfold count. assert (s ∈ filter (λ s, p s = true) (seq 0 n)) as Hin.
  { apply list_elem_of_filter. split; [done|]. apply elem_of_seq. lia. }
  destruct (filter _ _); [by apply elem_of_nil in Hin|cbn; lia].
Qed.
Lemma count_zero p n s : count p n = 0 → s < n → p s = false.
Proof. intros Hc Hs. destruct (p s) eqn:E; [|done]. pose proof (count_pos p n s Hs E). lia. Qed.
Lemma count_exists p n : 0 < count p n → ∃ s, s < n ∧ p s = true.
Proof.
  unfold count. destruct (filter _ _) as [|s l] eqn:E; [cbn; lia|]. intros _.
  assert (s ∈ filter (λ s, p s = true) (seq 0 n)) as Hin by (rewrite E; left).
  apply list_elem_of_filter in Hin as [? Hin]. apply elem_of_seq in Hin. exists s. split; [lia|done].
Qed.
Lemma count_full p n : count p n = n ↔ ∀ s, s < n → p s = true.
Proof.
  assert (count p n + count (λ s, negb (p s)) n = n) as Hsum.
  { unfold count. induction n as [|n IH]; [done|]. rewrite seq_S, !list.filter_app, !length_app. cbn [Nat.add].
    rewrite !list.filter_cons. destruct (p n) eqn:E; [rewrite decide_True, decide_False by done|rewrite decide_False, decide_True by done];
      rewrite !list.filter_nil; cbn [length]; lia. }
  split.
  - intros Hc s Hs. destruct (p s) eqn:E; [done|]. pose proof (count_pos (λ s, negb (p s)) n s Hs ltac:(cbn; by rewrite E)). lia.
  - intros Hall. destruct (decide (count (λ s, negb (p s)) n = 0)); [lia|].
    destruct (count_exists (λ s, negb (p s)) n ltac:(lia)) as (s & Hs & Hn). by rewrite Hall in Hn.
Qed.

(** ** The life of a slot *)
(** [pg'] has the slot states [o] and [u], and is otherwise [pg]. *)
Record restated (pg pg' : Page) (o u : nat → bool) : Prop := {
  re_ok : page_ok pg';
  re_slots : page_slots pg' = page_slots pg;
  re_group : group_id pg' = group_id pg;
  re_active : active pg' = active pg;
  re_available : available pg' = available pg;
  re_bytes : backing_bytes pg' = backing_bytes pg;
  re_backing : backing pg' = backing pg;
  re_stride : page_stride pg' = page_stride pg;
  re_occ : ∀ s, occ pg' s = o s;
  re_pending : ∀ s, pending_slot pg' s = u s
}.

Lemma restate_small pg group f a bits m o u f' bits' : page_ok pg → header pg = SmallHeader group f a bits →
  row_ok 2 (discovered_words m) ∧ row_ok 2 (scanned_words m) → row_ok (group_words group * 2) bits' →
  (∀ s, s < group_words group * 64 → bit bits' s = o s ∧ bit bits' (group_words group * 64 + s) = u s) →
  (∀ s, o s = true → s < group_slots group ∧ u s = false) → (∀ s, u s = true → s < group_slots group) →
  f' = count (λ s, negb (o s) && negb (u s)) (group_slots group) →
  restated pg (with_marks (with_header pg (SmallHeader group f' a bits')) m) o u.
Proof.
  intros Hok Hh Hm Hrow Hb Ho Hu Hf. pose proof (pk_bits _ Hok) as Hp. rewrite Hh in Hp. destruct Hp as (Hg & _ & _).
  destruct (geometry _ Hg) as (Hs1 & Hs2 & Hs3). set (pg' := with_marks _ _).
  assert (∀ s, occ pg' s = o s) as Hocc.
  { intros s. unfold occ, occupied, page_slots, pg'. cbn [header with_header with_marks].
    destruct (Nat.leb_spec (group_slots group) s) as [Hge|Hlt].
    - destruct (o s) eqn:E; [|done]. apply Ho in E as [? _]. lia.
    - destruct Hrow as [Hl _]. rewrite row_contains_spec by lia. cbn. apply Hb. lia. }
  assert (∀ s, pending_slot pg' s = u s) as Hpen.
  { intros s. unfold pending_slot, page_slots, pg'. cbn [header with_header with_marks].
    destruct (Nat.ltb_spec s (group_slots group)) as [Hlt|Hge]; cbn [andb].
    - apply Hb. lia.
    - destruct (u s) eqn:E; [|done]. apply Hu in E. lia. }
  assert (page_ok pg') as Hok'.
  { split.
    - unfold pg'. cbn [header with_header with_marks]. split_and!; [done..|]. intros s Hs. destruct (Hb s ltac:(lia)) as [-> ->]. split.
      + destruct (o s) eqn:E; [|done]. apply Ho in E as [? _]. lia.
      + destruct (u s) eqn:E; [|done]. apply Hu in E. lia.
    - intros s. rewrite Hocc, Hpen. by intros [_ ?]%Ho.
    - unfold pg' at 1. cbn [free header with_header with_marks]. rewrite Hf. unfold page_slots, pg'. cbn [header with_header with_marks].
      apply count_ext. intros s _. unfold is_free. by rewrite Hocc, Hpen.
    - done. }
  split; try done; unfold pg', page_slots, group_id, available, page_stride; cbn [header with_header with_marks]; by rewrite Hh.
Qed.

Lemma restate_large pg ob ub m ob' ub' : page_ok pg → header pg = LargeHeader ob ub →
  row_ok 2 (discovered_words m) ∧ row_ok 2 (scanned_words m) → ob' && ub' = false →
  restated pg (with_marks (with_header pg (LargeHeader ob' ub')) m) (λ s, (s =? 0) && ob') (λ s, (s =? 0) && ub').
Proof.
  intros Hok Hh Hm Hd. set (pg' := with_marks _ _).
  assert (∀ s, occ pg' s = (s =? 0) && ob') as Hocc.
  { intros [|s]; unfold occ, occupied, page_slots, pg'; done. }
  assert (∀ s, pending_slot pg' s = (s =? 0) && ub') as Hpen by (intros [|s]; done).
  split; try done.
  - split; try done.
    + intros s. rewrite Hocc, Hpen. destruct (s =? 0), ob', ub'; done.
    + unfold pg'. unfold free, page_slots. cbn [header with_header with_marks]. unfold count. cbn [seq]. rewrite list.filter_cons. fold pg'.
      unfold is_free. rewrite Hocc, Hpen. destruct ob', ub'; try done.
  - unfold pg', page_slots. cbn [header with_header with_marks]. by rewrite Hh.
  - unfold pg', group_id. cbn [header with_header with_marks]. by rewrite Hh.
  - unfold pg', available. cbn [header with_header with_marks]. by rewrite Hh.
  - unfold pg', page_stride. cbn [header with_header with_marks]. by rewrite Hh.
Qed.

Definition flip_on (p : nat → bool) (s x : nat) : bool := (x =? s) || p x.
Definition flip_off (p : nat → bool) (s x : nat) : bool := negb (x =? s) && p x.

Lemma restated_ext pg pg' o u o' u' : restated pg pg' o u → (∀ s, o s = o' s) → (∀ s, u s = u' s) → restated pg pg' o' u'.
Proof. intros [] Ho Hu. split; try done; intros; rewrite <- ?Ho, <- ?Hu; auto. Qed.

(** The bits of a small page, by halves. *)
Lemma small_halves pg group f a bits s : page_ok pg → header pg = SmallHeader group f a bits → s < group_words group * 64 →
  bit bits s = occ pg s ∧ bit bits (group_words group * 64 + s) = pending_slot pg s.
Proof.
  intros Hok Hh Hs. pose proof (pk_bits _ Hok) as Hp. rewrite Hh in Hp. destruct Hp as (Hg & Hrow & Hz).
  destruct (decide (s < group_slots group)) as [Hlt|Hge].
  - destruct (occ_small pg group f a bits s Hok Hh Hlt) as [_ ->]. split; [done|]. unfold pending_slot, page_slots. rewrite Hh.
    destruct (Nat.ltb_spec s (group_slots group)); [done|lia].
  - destruct (Hz s ltac:(lia)) as [-> ->]. split.
    + destruct (occ pg s) eqn:E; [|done]. apply occ_bound in E. unfold page_slots in E. rewrite Hh in E. lia.
    + destruct (pending_slot pg s) eqn:E; [|done]. apply pending_bound in E. unfold page_slots in E. rewrite Hh in E. lia.
Qed.

Lemma clear_slot_spec m s : row_ok 2 (discovered_words m) ∧ row_ok 2 (scanned_words m) → s < 128 →
  ∃ m', clear_slot m s = Some m' ∧ (row_ok 2 (discovered_words m') ∧ row_ok 2 (scanned_words m'))
    ∧ mark_epoch m' = mark_epoch m ∧ queued m' = queued m
    ∧ (∀ x, bit (discovered_words m') x = negb (bool_decide (x = s)) && bit (discovered_words m) x)
    ∧ ∀ x, bit (scanned_words m') x = negb (bool_decide (x = s)) && bit (scanned_words m) x.
Proof.
  intros [Hd Hs] Hlt. destruct (row_remove_spec 2 _ s Hd ltac:(lia)) as (d & Ed & Hd' & Bd).
  destruct (row_remove_spec 2 _ s Hs ltac:(lia)) as (c & Ec & Hc' & Bc).
  eexists. unfold clear_slot. rewrite Ed. cbn. rewrite Ec. done.
Qed.

Lemma free_slot_spec pg group f a bits : page_ok pg → header pg = SmallHeader group f a bits → 0 < f →
  ∃ s, free_slot bits (group_words group) (group_slots group) (seq 0 (group_words group)) = Some s
    ∧ s < group_slots group ∧ is_free pg s = true.
Proof.
  intros Hok Hh Hf. pose proof (pk_bits _ Hok) as Hp. rewrite Hh in Hp. destruct Hp as (Hg & Hrow & Hz).
  destruct (geometry _ Hg) as (G1 & G2 & G3). pose proof (pk_free _ Hok) as Hcount. unfold free in Hcount. rewrite Hh in Hcount.
  assert (∀ b n, b + n = group_words group → (∃ s, b * 64 ≤ s < group_slots group ∧ is_free pg s = true) →
    ∃ s, free_slot bits (group_words group) (group_slots group) (seq b n) = Some s ∧ s < group_slots group ∧ is_free pg s = true) as Hgo.
  { intros b n. revert b. induction n as [|n IH]; intros b Hb (s & Hs & Hfree); [lia|]. cbn [seq free_slot].
    destruct (lookup_lt_is_Some_2 bits b) as [o Ho]; [destruct Hrow; lia|]. rewrite Ho. cbn [mbind option_bind].
    destruct (lookup_lt_is_Some_2 bits (group_words group + b)) as [u Hu]; [destruct Hrow; lia|]. rewrite Hu. cbn [mbind option_bind].
    assert (∀ k, k < 64 → Z.testbit (complement (Z.lor o u)) (Z.of_nat k) = is_free pg (b * 64 + k)) as Hbits.
    { intros k Hk. rewrite complement_bit, Z.lor_spec, negb_orb by lia. unfold is_free.
      destruct (small_halves pg group f a bits (b * 64 + k) Hok Hh ltac:(lia)) as [<- <-]. unfold bit.
      replace ((b * 64 + k) / 64) with b by (apply (Nat.div_unique _ _ _ k); lia).
      replace ((b * 64 + k) mod 64) with k by (apply (Nat.mod_unique _ _ b); lia).
      replace ((group_words group * 64 + (b * 64 + k)) / 64) with (group_words group + b) by (apply (Nat.div_unique _ _ _ k); lia).
      replace ((group_words group * 64 + (b * 64 + k)) mod 64) with k by (apply (Nat.mod_unique _ _ (group_words group + b)); lia).
      by rewrite Ho, Hu. }
    set (w := complement (Z.lor o u)) in *. destruct (negb (w =? 0)%Z && _) eqn:Ec.
    - apply andb_true_iff in Ec as [Hne Hlt%Nat.ltb_lt]. eexists. split; [done|]. split; [done|].
      destruct (decide (trailing_zeros 64 w < 64)) as [Ht|Ht].
      + rewrite <- Hbits by done. by apply trailing_zeros_found.
      + exfalso. destruct (decide (w = 0)%Z) as [E0|Hn0]; [by rewrite E0 in Hne|].
        assert (word_ok w) as Hw.
        { unfold w, complement. destruct Hrow as [_ Hr]. pose proof (Hr _ _ Ho) as Ho'. pose proof (Hr _ _ Hu) as Hu'.
          apply word_ok_bits; [apply Z.lxor_nonneg; split; [intros; apply Z.lor_nonneg; split; [apply Ho'|apply Hu']|intros; done]|].
          intros k Hk. rewrite Z.lxor_spec, Z.lor_spec, !bits_word_ok; done. }
        apply Hn0, Z.bits_inj'. intros k Hk. rewrite Z.bits_0. destruct (Z.lt_ge_cases k 64).
        * pose proof (trailing_zeros_none 64 w ltac:(lia) (Z.to_nat k) ltac:(lia)) as Hz'. by rewrite Z2Nat.id in Hz' by lia.
        * by apply bits_word_ok.
    - apply IH; [lia|]. destruct (decide (s < S b * 64)) as [Hin|]; [|exists s; split; [lia|done]]. exfalso.
      assert (Z.testbit w (Z.of_nat (s - b * 64)) = true) as Hset.
      { rewrite Hbits by lia. replace (b * 64 + (s - b * 64)) with s by lia. done. }
      assert (trailing_zeros 64 w ≤ s - b * 64) as Hle.
      { destruct (decide (trailing_zeros 64 w ≤ s - b * 64)) as [|Hgt]; [done|]. exfalso.
        destruct (decide (trailing_zeros 64 w < 64)) as [Ht|Ht].
        - destruct (trailing_zeros_found 64 w Ht) as [_ Hprev]. rewrite Hprev in Hset by lia. done.
        - rewrite (trailing_zeros_none 64 w) in Hset by lia. done. }
      apply andb_false_iff in Ec as [Ec|Ec%Nat.ltb_ge]; [|lia].
      apply negb_false_iff, Z.eqb_eq in Ec. rewrite Ec, Z.bits_0 in Hset. done. }
  apply Hgo; [lia|]. destruct (count_exists (is_free pg) (page_slots pg)) as (s & Hs & Hfree); [lia|].
  exists s. split; [|done]. unfold page_slots in Hs. rewrite Hh in Hs. lia.
Qed.

Lemma count_free_on pg s p : s < page_slots pg → is_free pg s = true → (∀ x, p x = negb (x =? s) && is_free pg x) →
  count (is_free pg) (page_slots pg) = S (count p (page_slots pg)).
Proof. intros Hs Hf Hp. by apply (count_flip _ _ _ s). Qed.

Lemma page_reserve_spec pg : page_ok pg → 0 < free pg →
  ∃ s pg', page_reserve pg = Some (s, pg') ∧ s < page_slots pg ∧ is_free pg s = true
    ∧ restated pg pg' (occ pg) (flip_on (pending_slot pg) s) ∧ free pg = S (free pg')
    ∧ clear_slot (marks pg) s = Some (marks pg').
Proof.
  intros Hok Hf. pose proof (pk_free _ Hok) as Hcount. pose proof (page_slots_bound _ Hok) as Hslots.
  unfold page_reserve. destruct (header pg) as [g f a b|ob ub] eqn:Hh.
  - assert (free pg = f) as Hfree by (unfold free; by rewrite Hh).
    assert (page_slots pg = group_slots g) as Hps by (unfold page_slots; by rewrite Hh).
    destruct (free_slot_spec pg g f a b Hok Hh ltac:(lia)) as (s & -> & Hs & Hfs). cbn [mbind option_bind].
    pose proof (pk_bits _ Hok) as Hp. rewrite Hh in Hp. destruct Hp as (Hg & Hrow & _). destruct (geometry _ Hg) as (G1 & G2 & G3).
    destruct (row_insert_spec _ b (group_words g * 64 + s) Hrow ltac:(lia)) as (b' & -> & Hb' & Bb). cbn [mbind option_bind].
    destruct (Nat.eqb_spec f 0) as [|_]; [lia|]. cbn [fst snd mbind option_bind].
    destruct (clear_slot_spec (marks pg) s (pk_marks _ Hok) ltac:(lia)) as (m' & Em & Hm' & _). rewrite Em. cbn [mbind option_bind].
    exists s, (with_marks (with_header pg (SmallHeader g (f - 1) a b')) m'). split; [done|]. split; [lia|]. split; [done|].
    unfold is_free in Hfs. apply andb_true_iff in Hfs as [Hno Hnp]. apply negb_true_iff in Hno, Hnp.
    split; [|split; [|done]].
    + eapply restate_small; [done|done|done|done| | | |].
      * intros x Hx. rewrite !Bb. destruct (small_halves pg g f a b x Hok Hh Hx) as [-> ->]. unfold flip_on.
        rewrite (bool_decide_eq_false_2 (x = _)) by lia. split; [done|].
        destruct (Nat.eqb_spec x s) as [->|]; [by rewrite bool_decide_eq_true_2|by rewrite bool_decide_eq_false_2 by lia].
      * intros x Hx. split; [rewrite <- Hps; by apply occ_bound|]. unfold flip_on. rewrite (pk_disjoint _ Hok x Hx).
        destruct (Nat.eqb_spec x s) as [->|]; [congruence|done].
      * intros x [->%Nat.eqb_eq|Hx%pending_bound]%orb_true_iff; lia.
      * rewrite <- Hps. assert (S (f - 1) = S (count (λ x, negb (occ pg x) && negb (flip_on (pending_slot pg) s x)) (page_slots pg))) as Heq; [|lia].
        rewrite <- (count_flip (is_free pg) _ _ s); [lia|lia|by unfold is_free; rewrite Hno, Hnp|].
        intros x. unfold flip_on, is_free. by destruct (x =? s), (occ pg x), (pending_slot pg x).
    + unfold with_marks, with_header, free. cbn. rewrite Hh. lia.
  - destruct ob, ub; try (unfold free in Hf; rewrite Hh in Hf; cbn in Hf; lia). cbn [mbind option_bind fst snd].
    destruct (clear_slot_spec (marks pg) 0 (pk_marks _ Hok) ltac:(lia)) as (m' & Em & Hm' & _). rewrite Em. cbn [mbind option_bind].
    eexists 0, _. split; [done|]. split; [unfold page_slots; rewrite Hh; lia|].
    assert (∀ x, occ pg x = false) as Ho by (intros [|x]; unfold occ, occupied, page_slots; by rewrite Hh).
    assert (∀ x, pending_slot pg x = false) as Hu by (intros [|x]; unfold pending_slot, page_slots; by rewrite Hh).
    split; [unfold is_free; by rewrite Ho, Hu|]. split; [|split; [unfold free; by rewrite Hh|done]].
    eapply restated_ext; [by apply (restate_large pg false false m' false true)|..]; intros x; unfold flip_on; rewrite ?Ho, ?Hu; by destruct (x =? 0).
Qed.

Lemma with_marks_id pg h : with_marks (with_header pg h) (marks pg) = with_header pg h.
Proof. done. Qed.

Lemma page_commit_spec pg s : page_ok pg → pending_slot pg s = true →
  ∃ pg', page_commit pg s = Some pg' ∧ restated pg pg' (flip_on (occ pg) s) (flip_off (pending_slot pg) s)
    ∧ free pg' = free pg ∧ marks pg' = marks pg.
Proof.
  intros Hok Hpen. pose proof (pending_bound _ _ Hpen) as Hs. pose proof (pk_free _ Hok) as Hcount. unfold page_commit.
  assert (∀ x, occ pg x = true → x ≠ s) as Hne by (intros x Hx Hxs; subst x; by rewrite (pk_disjoint _ Hok s Hx) in Hpen).
  destruct (header pg) as [g f a b|ob ub] eqn:Hh.
  - assert (page_slots pg = group_slots g) as Hps by (unfold page_slots; by rewrite Hh).
    pose proof (pk_bits _ Hok) as Hp. rewrite Hh in Hp. destruct Hp as (Hg & Hrow & _). destruct (geometry _ Hg) as (G1 & G2 & G3).
    destruct (row_remove_spec _ b (group_words g * 64 + s) Hrow ltac:(lia)) as (b1 & -> & Hb1 & B1). cbn [mbind option_bind].
    destruct (row_insert_spec _ b1 s Hb1 ltac:(lia)) as (b2 & -> & Hb2 & B2). cbn [mbind option_bind].
    eexists. split; [done|]. rewrite <- with_marks_id. split; [|split; [unfold free; cbn; by rewrite Hh|done]].
    eapply restate_small; [done|done|apply Hok|done| | | |].
    + intros x Hx. rewrite !B2, !B1. destruct (small_halves pg g f a b x Hok Hh Hx) as [-> ->]. unfold flip_on, flip_off.
      rewrite (bool_decide_eq_false_2 (x = group_words g * 64 + s)), (bool_decide_eq_false_2 (group_words g * 64 + x = s)) by lia.
      destruct (Nat.eqb_spec x s) as [->|]; [rewrite !bool_decide_eq_true_2 by lia; done|rewrite !bool_decide_eq_false_2 by lia; done].
    + intros x Hx. unfold flip_on, flip_off in *. destruct (Nat.eqb_spec x s) as [Exs|Exs]; [split; [lia|done]|]. cbn [orb negb andb] in Hx |- *.
      split; [rewrite <- Hps; by apply occ_bound|by apply Hok].
    + intros x [_ Hx%pending_bound]%andb_true_iff. lia.
    + rewrite <- Hps. unfold free in Hcount. rewrite Hh in Hcount. rewrite Hcount. apply count_ext. intros x _. unfold is_free, flip_on, flip_off.
      destruct (Nat.eqb_spec x s) as [->|]; [rewrite Hpen|]; by destruct (occ pg _).
  - unfold pending_slot, page_slots in Hpen. rewrite Hh in Hpen. apply andb_true_iff in Hpen as [Hs0%Nat.ltb_lt Hub]. cbn in Hub. subst ub.
    assert (s = 0) as -> by lia. eexists. split; [done|]. rewrite <- with_marks_id. split; [|split; [unfold free; cbn; by rewrite Hh, andb_false_r|done]].
    eapply restated_ext; [apply (restate_large pg ob true (marks pg) true false); [done|done|apply Hok|done]|..]; intros [|x]; unfold flip_on, flip_off; cbn; try done.
    all: unfold occ, occupied, pending_slot, page_slots; by rewrite Hh.
Qed.

Lemma page_detach_spec pg s : page_ok pg → occ pg s = true →
  ∃ pg', page_detach pg s = Some pg' ∧ restated pg pg' (flip_off (occ pg) s) (flip_on (pending_slot pg) s)
    ∧ free pg' = free pg ∧ marks pg' = marks pg.
Proof.
  intros Hok Hocc. pose proof (occ_bound _ _ Hocc) as Hs. pose proof (pk_free _ Hok) as Hcount. unfold page_detach.
  rewrite occupied_some, Hocc by done. cbn [mbind option_bind negb]. pose proof (pk_disjoint _ Hok s Hocc) as Hnp.
  destruct (header pg) as [g f a b|ob ub] eqn:Hh.
  - assert (page_slots pg = group_slots g) as Hps by (unfold page_slots; by rewrite Hh).
    pose proof (pk_bits _ Hok) as Hp. rewrite Hh in Hp. destruct Hp as (Hg & Hrow & _). destruct (geometry _ Hg) as (G1 & G2 & G3).
    destruct (row_remove_spec _ b s Hrow ltac:(lia)) as (b1 & -> & Hb1 & B1). cbn [mbind option_bind].
    destruct (row_insert_spec _ b1 (group_words g * 64 + s) Hb1 ltac:(lia)) as (b2 & -> & Hb2 & B2). cbn [mbind option_bind].
    eexists. split; [done|]. rewrite <- with_marks_id. split; [|split; [unfold free; cbn; by rewrite Hh|done]].
    eapply restate_small; [done|done|apply Hok|done| | | |].
    + intros x Hx. rewrite !B2, !B1. destruct (small_halves pg g f a b x Hok Hh Hx) as [-> ->]. unfold flip_on, flip_off.
      rewrite (bool_decide_eq_false_2 (x = group_words g * 64 + s)), (bool_decide_eq_false_2 (group_words g * 64 + x = s)) by lia.
      destruct (Nat.eqb_spec x s) as [->|]; [rewrite !bool_decide_eq_true_2 by lia; done|rewrite !bool_decide_eq_false_2 by lia; done].
    + intros x Hx. unfold flip_on, flip_off in *. apply andb_true_iff in Hx as [Hne Hx]. apply negb_true_iff in Hne. rewrite Hne.
      split; [rewrite <- Hps; by apply occ_bound|by apply Hok].
    + intros x [->%Nat.eqb_eq|Hx%pending_bound]%orb_true_iff; lia.
    + rewrite <- Hps. unfold free in Hcount. rewrite Hh in Hcount. rewrite Hcount. apply count_ext. intros x _. unfold is_free, flip_on, flip_off.
      destruct (Nat.eqb_spec x s) as [->|]; [rewrite Hocc|]; by destruct (pending_slot pg _).
  - assert (s = 0) as -> by (unfold page_slots in Hs; rewrite Hh in Hs; lia). unfold occ, occupied, page_slots in Hocc. rewrite Hh in Hocc. cbn in Hocc. subst ob.
    unfold pending_slot, page_slots in Hnp. rewrite Hh in Hnp. cbn in Hnp. subst ub.
    eexists. split; [done|]. rewrite <- with_marks_id. split; [|split; [unfold free; cbn; by rewrite Hh|done]].
    eapply restated_ext; [apply (restate_large pg true false (marks pg) false true); [done|done|apply Hok|done]|..]; intros [|x]; unfold flip_on, flip_off; cbn; try done.
    all: unfold occ, occupied, pending_slot, page_slots; by rewrite Hh.
Qed.

Lemma page_release_spec pg s : page_ok pg → pending_slot pg s = true →
  ∃ pg', page_release pg s = Some pg' ∧ restated pg pg' (occ pg) (flip_off (pending_slot pg) s)
    ∧ free pg' = S (free pg) ∧ marks pg' = marks pg.
Proof.
  intros Hok Hpen. pose proof (pending_bound _ _ Hpen) as Hs. pose proof (pk_free _ Hok) as Hcount. unfold page_release.
  assert (occ pg s = false) as Hno by (destruct (occ pg s) eqn:E; [by rewrite (pk_disjoint _ Hok s E) in Hpen|done]).
  destruct (header pg) as [g f a b|ob ub] eqn:Hh.
  - assert (page_slots pg = group_slots g) as Hps by (unfold page_slots; by rewrite Hh).
    pose proof (pk_bits _ Hok) as Hp. rewrite Hh in Hp. destruct Hp as (Hg & Hrow & _). destruct (geometry _ Hg) as (G1 & G2 & G3).
    destruct (row_remove_spec _ b (group_words g * 64 + s) Hrow ltac:(lia)) as (b1 & -> & Hb1 & B1). cbn [mbind option_bind].
    eexists. split; [done|]. rewrite <- with_marks_id. split; [|split; [unfold free; cbn; by rewrite Hh|done]].
    eapply restate_small; [done|done|apply Hok|done| | | |].
    + intros x Hx. rewrite !B1. destruct (small_halves pg g f a b x Hok Hh Hx) as [-> ->]. unfold flip_off.
      rewrite (bool_decide_eq_false_2 (x = group_words g * 64 + s)) by lia. split; [done|].
      destruct (Nat.eqb_spec x s) as [->|]; [by rewrite bool_decide_eq_true_2|by rewrite bool_decide_eq_false_2 by lia].
    + intros x Hx. unfold flip_off. rewrite (pk_disjoint _ Hok x Hx), andb_false_r. split; [|done]. rewrite <- Hps. by apply occ_bound.
    + intros x [_ Hx%pending_bound]%andb_true_iff. lia.
    + rewrite <- Hps. unfold free in Hcount. rewrite Hh in Hcount. rewrite Hcount. symmetry. apply (count_flip _ _ _ s); [lia| |].
      * unfold flip_off. by rewrite Hno, Nat.eqb_refl.
      * intros x. unfold is_free, flip_off. destruct (Nat.eqb_spec x s) as [->|]; [by rewrite Hpen, andb_false_r|done].
  - assert (s = 0) as -> by (unfold page_slots in Hs; rewrite Hh in Hs; lia).
    unfold pending_slot, page_slots in Hpen. rewrite Hh in Hpen. cbn in Hpen. subst ub.
    unfold occ, occupied, page_slots in Hno. rewrite Hh in Hno. cbn in Hno. subst ob.
    eexists. split; [done|]. rewrite <- with_marks_id. split; [|split; [unfold free; cbn; by rewrite Hh|done]].
    eapply restated_ext; [apply (restate_large pg false true (marks pg) false false); [done|done|apply Hok|done]|..]; intros [|x]; unfold flip_off; cbn; try done.
    all: unfold occ, occupied, pending_slot, page_slots; by rewrite Hh.
Qed.
