(* ===== verification/GcColors.v ===== *)
(** * Managed heap: colours of slots and the search for dead slots

    What the mark bits of a page say about its slots at an epoch, what every marking
    operation of [marking.rs] does to them, and the exactness of [Page::next_dead]
    and of the slot addresses of [allocation/page.rs]. *)
From S2P Require Import Prelude SlotBits GcBase GcPage.
Open Scope nat_scope.

#[local] Arguments Nat.div : simpl never.
#[local] Arguments Nat.modulo : simpl never.
#[local] Arguments Z.pow : simpl never.

(** ** Colours *)
Definition rows_ok (m : PageMarks) : Prop := row_ok 2 (discovered_words m) ∧ row_ok 2 (scanned_words m).
(** Bits of an older epoch count for nothing. *)
Definition discb (m : PageMarks) (e : Z) (s : nat) : bool := negb (reset_needed m e) && bit (discovered_words m) s.
Definition blackb (m : PageMarks) (e : Z) (s : nat) : bool := negb (reset_needed m e) && bit (scanned_words m) s.
Definition queuedb (m : PageMarks) (e : Z) : bool := negb (reset_needed m e) && queued m.
Definition grayb (m : PageMarks) (e : Z) (s : nat) : bool := discb m e s && negb (blackb m e s).

Lemma row_two (a b : Z) : word_ok a → word_ok b → row_ok 2 [a; b].
Proof. intros Ha Hb. split; [done|]. intros [|[|k]] w Hw; by simplify_eq/=. Qed.
Lemma zero_row_ok : row_ok 2 [0; 0]%Z.
Proof. apply row_two; unfold word_ok; lia. Qed.
Lemma zero_row_bit s : bit [0; 0]%Z s = false.
Proof. unfold bit. destruct (s / 64) as [|[|k]]; cbn; by rewrite ?Z.bits_0. Qed.
Lemma new_marks_ok : rows_ok new_marks.
Proof. split; apply zero_row_ok. Qed.

Lemma ensure_ok m e : rows_ok m → rows_ok (ensure m e).
Proof. unfold ensure. destruct (reset_needed m e); [|done]. intros _. split; apply zero_row_ok. Qed.
Lemma ensure_fresh m e : reset_needed (ensure m e) e = false.
Proof. unfold ensure. destruct (reset_needed m e) eqn:E; [|done]. unfold reset_needed. cbn [mark_epoch]. by rewrite Z.eqb_refl. Qed.
Lemma ensure_bits m e s : bit (discovered_words (ensure m e)) s = discb m e s
  ∧ bit (scanned_words (ensure m e)) s = blackb m e s ∧ queued (ensure m e) = queuedb m e.
Proof.
  unfold ensure, discb, blackb, queuedb. destruct (reset_needed m e) eqn:E; cbn [negb andb discovered_words scanned_words queued]; [|done].
  by rewrite zero_row_bit.
Qed.

Lemma black_spec m s e : rows_ok m → s < 128 → black m s e = Some (blackb m e s).
Proof.
  intros [_ Hs] Hlt. unfold black, black_word, blackb. destruct (reset_needed m e); cbn [mbind option_bind negb andb]; [by rewrite Z.land_0_l|].
  destruct (lookup_lt_is_Some_2 (scanned_words m) (s / 64)) as [w Hw]; [destruct Hs as [-> _]; apply Nat.Div0.div_lt_upper_bound; lia|].
  rewrite Hw. cbn. unfold bit. rewrite Hw. by rewrite land_mask.
Qed.
Lemma discovered_spec m s e : rows_ok m → s < 128 → discovered m s e = Some (discb m e s).
Proof.
  intros [Hd _] Hlt. unfold discovered, discb. destruct (reset_needed m e); cbn [negb andb]; [done|].
  apply row_contains_spec. destruct Hd as [-> _]. lia.
Qed.

(** What a marking operation at [e] may do: bits [d] and [b], queue flag [q]. *)
Record remarked (e : Z) (m' : PageMarks) (d b : nat → bool) (q : bool) : Prop := {
  rm_ok : rows_ok m'; rm_fresh : reset_needed m' e = false;
  rm_disc : ∀ s, discb m' e s = d s; rm_black : ∀ s, blackb m' e s = b s; rm_queued : queuedb m' e = q
}.
Definition added (p : nat → bool) (s x : nat) : bool := bool_decide (x = s) || p x.

Lemma with_discovered_spec m s e : rows_ok m → s < 128 →
  ∃ m', with_discovered (ensure m e) s = Some m' ∧ remarked e m' (added (discb m e) s) (blackb m e) (queuedb m e).
Proof.
  intros Hok Hlt. destruct (ensure_ok m e Hok) as [Hd Hs]. destruct (row_insert_spec 2 _ s Hd ltac:(lia)) as (d & Ed & Hd' & Bd).
  unfold with_discovered. rewrite Ed. cbn [mbind option_bind]. eexists. split; [done|].
  assert (reset_needed {| mark_epoch := mark_epoch (ensure m e); discovered_words := d; scanned_words := scanned_words (ensure m e); queued := queued (ensure m e) |} e = false) as Hf
    by apply (ensure_fresh m e).
  pose proof (ensure_bits m e) as Hb. split; [done|done|..].
  - intros x. unfold discb at 1. rewrite Hf. cbn [negb andb discovered_words]. rewrite Bd. unfold added. f_equal. apply Hb.
  - intros x. unfold blackb at 1. rewrite Hf. cbn [negb andb scanned_words]. apply Hb.
  - unfold queuedb at 1. rewrite Hf. cbn [negb andb queued]. apply (Hb 0).
Qed.
Lemma set_black_spec m s e : rows_ok m → s < 128 →
  ∃ m', set_black m s e = Some m' ∧ remarked e m' (added (discb m e) s) (added (blackb m e) s) (queuedb m e).
Proof.
  intros Hok Hlt. destruct (ensure_ok m e Hok) as [Hd Hs]. destruct (row_insert_spec 2 _ s Hd ltac:(lia)) as (d & Ed & Hd' & Bd).
  destruct (row_insert_spec 2 _ s Hs ltac:(lia)) as (b & Eb & Hb' & Bb).
  unfold set_black. rewrite Ed. cbn [mbind option_bind]. rewrite Eb. cbn [mbind option_bind]. eexists. split; [done|].
  assert (reset_needed {| mark_epoch := mark_epoch (ensure m e); discovered_words := d; scanned_words := b; queued := queued (ensure m e) |} e = false) as Hf
    by apply (ensure_fresh m e).
  pose proof (ensure_bits m e) as Hb. split; [done|done|..].
  - intros x. unfold discb at 1. rewrite Hf. cbn [negb andb discovered_words]. rewrite Bd. unfold added. f_equal. apply Hb.
  - intros x. unfold blackb at 1. rewrite Hf. cbn [negb andb scanned_words]. rewrite Bb. unfold added. f_equal. apply Hb.
  - unfold queuedb at 1. rewrite Hf. cbn [negb andb queued]. apply (Hb 0).
Qed.
Lemma set_queued_spec m e q d b p : remarked e m d b p → remarked e (set_queued m q) d b q.
Proof.
  intros []. split; try done. unfold queuedb. replace (reset_needed (set_queued m q) e) with (reset_needed m e) by done.
  by rewrite rm_fresh0.
Qed.
Lemma remarked_self m e : rows_ok m → reset_needed m e = false → remarked e m (discb m e) (blackb m e) (queuedb m e).
Proof. by split. Qed.
Lemma clear_slot_colors m s : rows_ok m → s < 128 → ∃ m', clear_slot m s = Some m' ∧ rows_ok m' ∧ mark_epoch m' = mark_epoch m
  ∧ ∀ e, queuedb m' e = queuedb m e ∧ ∀ x, discb m' e x = negb (bool_decide (x = s)) && discb m e x
    ∧ blackb m' e x = negb (bool_decide (x = s)) && blackb m e x.
Proof.
  intros Hok Hlt. destruct (clear_slot_spec m s Hok Hlt) as (m' & Em & Hm & He & Hq & Bd & Bs). exists m'. split; [done|]. split; [done|]. split; [done|].
  intros e. unfold queuedb, discb, blackb, reset_needed. rewrite He, Hq. split; [done|]. intros x. rewrite Bd, Bs.
  destruct (negb (negb (mark_epoch m =? e)%Z)), (negb (bool_decide (x = s))); done.
Qed.

(** ** Gray slots *)
Lemma gray_spec m e : rows_ok m → ∃ g, gray m e = Some g ∧ (0 <= g)%Z
  ∧ (∀ s, s < 128 → Z.testbit g (Z.of_nat s) = grayb m e s) ∧ (∀ k, (128 <= k)%Z → Z.testbit g k = false).
Proof.
  intros [Hd Hs]. unfold gray. destruct (reset_needed m e) eqn:Er.
  { exists 0%Z. split; [done|]. split; [done|]. split; intros; rewrite Z.bits_0; [|done]. unfold grayb, discb. by rewrite Er. }
  destruct Hd as [Ld Hd], Hs as [Ls Hs].
  destruct (lookup_lt_is_Some_2 (discovered_words m) 0) as [d0 D0]; [lia|]. destruct (lookup_lt_is_Some_2 (discovered_words m) 1) as [d1 D1]; [lia|].
  destruct (lookup_lt_is_Some_2 (scanned_words m) 0) as [s0 S0]; [lia|]. destruct (lookup_lt_is_Some_2 (scanned_words m) 1) as [s1 S1]; [lia|].
  rewrite D0. cbn [mbind option_bind]. rewrite D1. cbn [mbind option_bind]. rewrite S0. cbn [mbind option_bind]. rewrite S1. cbn [mbind option_bind].
  pose proof (Hd _ _ D0) as W0. pose proof (Hd _ _ D1) as W1. eexists. split; [done|].
  assert (0 <= Z.land d0 (complement s0))%Z by (apply Z.land_nonneg; left; apply W0).
  assert (0 <= Z.land d1 (complement s1))%Z by (apply Z.land_nonneg; left; apply W1).
  split; [apply Z.lor_nonneg; split; [done|by apply Z.shiftl_nonneg]|]. split.
  - intros s Hlt. rewrite Z.lor_spec, Z.shiftl_spec, !Z.land_spec by lia. unfold grayb, discb, blackb, bit. rewrite Er. cbn [negb andb].
    destruct (decide (s < 64)) as [Hlo|Hhi].
    + rewrite (Nat.div_small s 64), (Nat.mod_small s 64) by lia. rewrite D0, S0, complement_bit by lia.
      rewrite (Z.testbit_neg_r d1) by lia. by rewrite orb_false_r.
    + replace (s / 64) with 1 by (apply (Nat.div_unique _ _ _ (s - 64)); lia). replace (s mod 64) with (s - 64) by (apply (Nat.mod_unique _ _ 1); lia).
      rewrite D1, S1. rewrite (bits_word_ok d0) by (done || lia). cbn [andb orb].
      replace (Z.of_nat s - 64)%Z with (Z.of_nat (s - 64)) by lia. by rewrite complement_bit by lia.
  - intros k Hk. rewrite Z.lor_spec, Z.shiftl_spec, !Z.land_spec by lia. rewrite (bits_word_ok d0), (bits_word_ok d1) by (done || lia). done.
Qed.

(** [gray & (gray - 1)]: clears the lowest bit. *)
Lemma low_bit_pred (g : Z) (s : nat) : (0 < g)%Z → Z.testbit g (Z.of_nat s) = true → (∀ j, j < s → Z.testbit g (Z.of_nat j) = false) →
  Z.land g (g - 1) = Z.ldiff g (2 ^ Z.of_nat s).
Proof.
  intros Hg Hs Hlow. set (n := Z.of_nat s) in *.
  assert (g mod 2 ^ n = 0)%Z as Hm.
  { apply Z.bits_inj'. intros k Hk. rewrite Z.bits_0. destruct (Z.lt_ge_cases k n) as [Hlt|Hge].
    - rewrite Z.mod_pow2_bits_low by lia. specialize (Hlow (Z.to_nat k) ltac:(lia)). by rewrite Z2Nat.id in Hlow by lia.
    - by rewrite Z.mod_pow2_bits_high by lia. }
  assert (0 < 2 ^ n)%Z as Hp by (apply Z.pow_pos_nonneg; lia).
  pose proof (Z.div_mod g (2 ^ n) ltac:(lia)) as Hdm. set (q := (g / 2 ^ n)%Z) in *.
  assert (Z.odd q = true) as Hodd.
  { unfold q. rewrite <- Z.bit0_odd, Z.div_pow2_bits by lia. by rewrite Z.add_0_l. }
  assert (g - 1 = (q - 1) * 2 ^ n + (2 ^ n - 1))%Z as Hg1 by lia.
  apply Z.bits_inj'. intros k Hk. rewrite Z.land_spec, Z.ldiff_spec, Z.pow2_bits_eqb by lia.
  destruct (Z.lt_trichotomy k n) as [Hlt|[->|Hgt]].
  - specialize (Hlow (Z.to_nat k) ltac:(lia)). rewrite Z2Nat.id in Hlow by lia. by rewrite Hlow.
  - rewrite Z.eqb_refl, andb_false_r. replace (Z.testbit (g - 1) n) with false; [by rewrite andb_false_r|].
    symmetry. rewrite <- (Z.add_0_l n), <- Z.div_pow2_bits by lia. rewrite Hg1, Z.div_add_l, (Z.div_small (2 ^ n - 1)) by lia.
    rewrite Z.add_0_r, Z.bit0_odd. by rewrite <- Z.negb_even, Z.even_sub, <- Z.negb_odd, Hodd.
  - replace (n =? k)%Z with false by (symmetry; apply Z.eqb_neq; lia). cbn [negb]. rewrite andb_true_r.
    replace (Z.testbit (g - 1) k) with (Z.testbit g k); [by destruct (Z.testbit g k)|].
    replace k with ((k - n) + n)%Z by lia. rewrite <- !Z.div_pow2_bits by lia.
    rewrite Hg1, Z.div_add_l, (Z.div_small (2 ^ n - 1)) by lia. rewrite Z.add_0_r. fold q.
    replace (k - n)%Z with (Z.succ (k - n - 1)) by lia. apply Z.odd_spec in Hodd as [r ->].
    replace (2 * r + 1 - 1)%Z with (2 * r)%Z by lia. by rewrite Z.testbit_odd_succ, Z.testbit_even_succ by lia.
Qed.

(** ** The next dead slot *)
Definition deadb (pg : Page) (e : Z) (s : nat) : bool := occ pg s && negb (blackb (marks pg) e s).

Lemma dead_candidates_spec pg word lower e : page_ok pg → word * 64 < page_slots pg → lower < 64 →
  ∃ c, dead_candidates pg word lower e = Some c ∧ word_ok c
    ∧ ∀ k, k < 64 → Z.testbit c (Z.of_nat k) = deadb pg e (word * 64 + k) && (lower <=? k).
Proof.
  intros Hok Hw Hl. pose proof (page_slots_bound _ Hok) as Hslots. unfold dead_candidates.
  assert (∃ o, match header pg with SmallHeader _ _ _ bits => bits !! word | LargeHeader occupied _ => Some (if occupied then 1%Z else 0%Z) end = Some o
    ∧ word_ok o ∧ ∀ k, k < 64 → Z.testbit o (Z.of_nat k) = occ pg (word * 64 + k)) as (o & -> & Ho & Bo).
  { destruct (header pg) as [g f a bits|ob ub] eqn:Hh.
    - pose proof (pk_bits _ Hok) as Hp. rewrite Hh in Hp. destruct Hp as (Hg & [Hlen Hrow] & _). destruct (geometry _ Hg) as (G1 & G2 & G3).
      unfold page_slots in Hw. rewrite Hh in Hw. destruct (lookup_lt_is_Some_2 bits word) as [o Ho]; [nia|].
      exists o. split; [done|]. split; [by apply (Hrow word)|]. intros k Hk.
      destruct (small_halves pg g f a bits (word * 64 + k) Hok Hh ltac:(nia)) as [<- _]. unfold bit.
      replace ((word * 64 + k) / 64) with word by (apply (Nat.div_unique _ _ _ k); lia).
      replace ((word * 64 + k) mod 64) with k by (apply (Nat.mod_unique _ _ word); lia). by rewrite Ho.
    - eexists. split; [done|]. split; [destruct ob; unfold word_ok; lia|]. intros k Hk.
      unfold page_slots in Hw. rewrite Hh in Hw. assert (word = 0) as -> by lia. unfold occ, occupied, page_slots. rewrite Hh.
      destruct k as [|k]; [by destruct ob|]. cbn [Nat.mul Nat.add Nat.leb default]. destruct ob; [|by rewrite Z.bits_0].
      apply (Z.pow2_bits_false 0). lia. }
  cbn [mbind option_bind]. assert (∃ b, black_word (marks pg) word e = Some b ∧ ∀ k, k < 64 → Z.testbit b (Z.of_nat k) = blackb (marks pg) e (word * 64 + k)) as (b & -> & Bb).
  { unfold black_word, blackb. destruct (reset_needed (marks pg) e).
    - exists 0%Z. split; [done|]. intros k _. by rewrite Z.bits_0.
    - destruct (pk_marks _ Hok) as [_ [Hlen Hrow]]. destruct (lookup_lt_is_Some_2 (scanned_words (marks pg)) word) as [b Hb]; [lia|].
      exists b. split; [done|]. intros k Hk. unfold bit.
      replace ((word * 64 + k) / 64) with word by (apply (Nat.div_unique _ _ _ k); lia).
      replace ((word * 64 + k) mod 64) with k by (apply (Nat.mod_unique _ _ word); lia). by rewrite Hb. }
  cbn [mbind option_bind]. eexists. split; [done|]. split.
  - apply word_ok_bits; [apply Z.land_nonneg; left; apply Z.land_nonneg; left; apply Ho|]. intros k Hk.
    by rewrite !Z.land_spec, (bits_word_ok o) by done.
  - intros k Hk. rewrite !Z.land_spec, u64_max_bit, Z.shiftl_spec by lia. rewrite complement_bit, Bo, Bb by lia.
    unfold deadb. cbn [andb]. f_equal. destruct (Nat.leb_spec lower k).
    + replace (Z.of_nat k - Z.of_nat lower)%Z with (Z.of_nat (k - lower)) by lia. apply u64_max_bit. lia.
    + by rewrite Z.testbit_neg_r by lia.
Qed.

Lemma word_nonzero w : word_ok w → w ≠ 0%Z ↔ trailing_zeros 64 w < 64.
Proof.
  intros Hw. split.
  - intros Hne. destruct (decide (trailing_zeros 64 w < 64)) as [|Ht]; [done|]. exfalso. apply Hne, Z.bits_inj'. intros k Hk. rewrite Z.bits_0.
    destruct (Z.lt_ge_cases k 64); [|by apply bits_word_ok].
    pose proof (trailing_zeros_none 64 w ltac:(lia) (Z.to_nat k) ltac:(lia)) as Hz. by rewrite Z2Nat.id in Hz by lia.
  - intros Ht ->. destruct (trailing_zeros_found 64 0 Ht) as [Hb _]. by rewrite Z.bits_0 in Hb.
Qed.

Lemma next_dead_in_spec pg start stop e n b : page_ok pg → start < stop ≤ page_slots pg → start / 64 ≤ b → b + n = S ((stop - 1) / 64) →
  (∀ s, start ≤ s < b * 64 → deadb pg e s = false) →
  ∃ d, next_dead_in pg start stop e (seq b n) = Some d ∧ start ≤ d ≤ stop
    ∧ (∀ s, start ≤ s < d → deadb pg e s = false) ∧ (d < stop → deadb pg e d = true).
Proof.
  intros Hok Hr. revert b. induction n as [|n IH]; intros b Hb Hn Hpre; cbn [seq next_dead_in].
  - exists stop. split; [done|]. split; [lia|]. split; [|lia]. intros s Hs. apply Hpre.
    pose proof (Nat.div_mod (stop - 1) 64 ltac:(lia)). pose proof (Nat.mod_upper_bound (stop - 1) 64 ltac:(lia)). lia.
  - pose proof (Nat.div_mod (stop - 1) 64 ltac:(lia)) as Dm. pose proof (Nat.mod_upper_bound (stop - 1) 64 ltac:(lia)) as Dl.
    pose proof (Nat.div_mod start 64 ltac:(lia)) as Sm. pose proof (Nat.mod_upper_bound start 64 ltac:(lia)) as Sl.
    set (lower := if b =? start / 64 then start mod 64 else 0). assert (lower < 64) as Hlower by (unfold lower; destruct (b =? start / 64); lia).
    destruct (dead_candidates_spec pg b lower e Hok ltac:(lia) Hlower) as (c & -> & Hc & Bc). cbn [mbind option_bind].
    assert (∀ s, start ≤ s → b * 64 ≤ s < b * 64 + 64 → lower ≤ s - b * 64) as Hlow.
    { intros s Hs1 Hs2. unfold lower. destruct (Nat.eqb_spec b (start / 64)); lia. }
    destruct (Z.eqb_spec c 0) as [->|Hne].
    + apply IH; [lia|lia|]. intros s Hs. destruct (decide (s < b * 64)) as [|Hge]; [apply Hpre; lia|].
      specialize (Bc (s - b * 64) ltac:(lia)). replace (b * 64 + (s - b * 64)) with s in Bc by lia. rewrite Z.bits_0 in Bc.
      rewrite (leb_correct _ _ (Hlow s ltac:(lia) ltac:(lia))), andb_true_r in Bc. done.
    + apply (word_nonzero c Hc) in Hne. destruct (trailing_zeros_found 64 c Hne) as [Hf Hprev]. set (t := trailing_zeros 64 c) in *.
      rewrite (Bc t Hne) in Hf. apply andb_true_iff in Hf as [Hdead Hle%Nat.leb_le].
      eexists. split; [done|]. assert (start ≤ b * 64 + t) as Hge.
      { unfold lower in Hle. destruct (Nat.eqb_spec b (start / 64)); lia. }
      split; [lia|]. split.
      * intros s Hs. destruct (decide (s < b * 64)) as [|Hnb]; [apply Hpre; lia|].
        specialize (Hprev (s - b * 64) ltac:(lia)). rewrite Bc in Hprev by lia. replace (b * 64 + (s - b * 64)) with s in Hprev by lia.
        rewrite (leb_correct _ _ (Hlow s ltac:(lia) ltac:(lia))), andb_true_r in Hprev. done.
      * intros Hlt. replace (Nat.min (b * 64 + t) stop) with (b * 64 + t) by lia. done.
Qed.

Lemma next_dead_spec pg start stop e : page_ok pg → start < stop ≤ page_slots pg →
  ∃ d, next_dead pg start stop e = Some d ∧ start ≤ d ≤ stop
    ∧ (∀ s, start ≤ s < d → deadb pg e s = false) ∧ (d < stop → deadb pg e d = true).
Proof.
  intros Hok Hr. unfold next_dead.
  assert (start / 64 ≤ (stop - 1) / 64) by (apply Nat.Div0.div_le_mono; lia).
  apply (next_dead_in_spec pg start stop e); [done|done|done|lia|].
  intros s Hs. pose proof (Nat.div_mod start 64 ltac:(lia)). lia.
Qed.

(** ** New pages and updates that keep the slots *)
Lemma count_all (p : nat → bool) n : (∀ s, p s = true) → count p n = n.
Proof. intros Hp. by apply count_full. Qed.
Lemma new_small_occ g b y s : occ (new_small g b y) s = false.
Proof.
  unfold occ, occupied, new_small, page_slots. cbn [header]. destruct (_ <=? s); [done|]. unfold row_contains.
  destruct (_ !! _) as [w|] eqn:Hw; [|done]. apply lookup_replicate in Hw as [-> _]. cbn. by rewrite Z.land_0_l.
Qed.
Lemma new_small_pending g b y s : pending_slot (new_small g b y) s = false.
Proof. unfold pending_slot, new_small. cbn [header]. by rewrite row_zero_bit, andb_false_r. Qed.
Lemma new_small_ok g b y : g < GROUPS → page_ok (new_small g b y) ∧ free (new_small g b y) = page_slots (new_small g b y).
Proof.
  intros Hg. split; [|done]. split.
  - cbn [header new_small]. split; [done|]. split; [apply row_const_ok; unfold word_ok; lia|]. intros s _. by rewrite !row_zero_bit.
  - intros s. by rewrite new_small_occ.
  - symmetry. apply count_all. intros s. unfold is_free. by rewrite new_small_occ, new_small_pending.
  - apply new_marks_ok.
Qed.
Lemma new_large_occ b y s : occ (new_large b y) s = false ∧ pending_slot (new_large b y) s = false.
Proof. destruct s; done. Qed.
Lemma new_large_ok b y : page_ok (new_large b y) ∧ free (new_large b y) = page_slots (new_large b y).
Proof.
  split; [|done]. split; try done; [|apply new_marks_ok].
  intros s. by rewrite (proj1 (new_large_occ b y s)).
Qed.

Lemma with_marks_restated pg m : page_ok pg → rows_ok m → restated pg (with_marks pg m) (occ pg) (pending_slot pg).
Proof. by intros [] Hm. Qed.
Lemma with_active_restated pg l : page_ok pg → page_ok (with_active pg l).
Proof. intros []. split; done. Qed.
Lemma with_available_spec pg l g : page_ok pg → group_id pg = Some g →
  ∃ pg', with_available pg l = Some pg' ∧ page_ok pg' ∧ available pg' = Some l ∧ active pg' = active pg ∧ marks pg' = marks pg
    ∧ backing pg' = backing pg ∧ backing_bytes pg' = backing_bytes pg ∧ group_id pg' = group_id pg ∧ page_slots pg' = page_slots pg
    ∧ page_stride pg' = page_stride pg ∧ free pg' = free pg ∧ (∀ s, occ pg' s = occ pg s) ∧ ∀ s, pending_slot pg' s = pending_slot pg s.
Proof.
  intros [Hb Hd Hf Hm] Hg. unfold group_id in *. unfold with_available, available, page_slots, page_stride, free, occ, pending_slot, occupied, page_slots in *.
  destruct (header pg) as [g' f a bits|] eqn:Hh; [|done]. eexists. split; [done|]. cbn [with_header header]. split; [|done].
  split; unfold occ, pending_slot, occupied, page_slots, free, is_free; cbn [with_header header]; try done.
  rewrite Hf. apply count_ext. intros s _. unfold is_free, occ, pending_slot, occupied, page_slots. by rewrite Hh.
Qed.

(** ** Addresses *)
Lemma stride_pos g : g < GROUPS → 0 < stride g.
Proof.
  intros Hg. assert (Forall (λ g, 0 < stride g) (seq 0 GROUPS)) as Hall.
  { unfold GROUPS. repeat (apply List.Forall_cons; [vm_compute; lia|]). constructor. }
  rewrite Forall_forall in Hall. apply Hall, in_seq. lia.
Qed.
Lemma pointer_spec pg s : s < page_slots pg → pointer pg s = Some (backing pg, Z.of_nat (s * page_stride pg)).
Proof. intros Hs. unfold pointer. by destruct (Nat.ltb_spec s (page_slots pg)); [|lia]. Qed.
Lemma slot_of_pointer pg s r : page_ok pg → pointer pg s = Some r → slot_of pg r = Some s.
Proof.
  intros Hok. unfold pointer. destruct (Nat.ltb_spec s (page_slots pg)) as [Hs|]; [|done]. intros [= <-].
  unfold slot_of. cbn [fst snd]. rewrite Z.eqb_refl. replace (0 <=? _)%Z with true by (symmetry; apply Z.leb_le; lia). cbn [andb].
  unfold page_stride. pose proof (pk_bits _ Hok) as Hp. pose proof Hs as Hs'. unfold page_slots in Hs'. destruct (header pg) as [g f a bits|] eqn:Hh.
  - destruct Hp as [Hg _]. pose proof (stride_pos g Hg). rewrite Nat2Z.inj_mul, Z.mod_mul by lia. cbn [Z.eqb].
    rewrite Z.div_mul, Nat2Z.id by lia. cbn [mbind option_bind]. destruct (Nat.ltb_spec s (page_slots pg)); [done|lia].
  - assert (s = 0) as -> by lia. change (Z.of_nat (0 * 0)) with 0%Z. cbn [Z.eqb mbind option_bind]. destruct (Nat.ltb_spec 0 (page_slots pg)); [done|lia].
Qed.
Lemma pointer_slot_of pg s r : slot_of pg r = Some s → pointer pg s = Some r.
Proof.
  destruct r as [b o]. unfold slot_of. cbn [fst snd]. destruct (Z.eqb_spec b (backing pg)) as [->|]; [|done].
  destruct (Z.leb_spec 0 o) as [Ho|]; [|done]. cbn [andb]. unfold pointer, page_stride. destruct (header pg) as [g f a bits|].
  - destruct (Z.eqb_spec (o mod Z.of_nat (stride g)) 0) as [Hm|]; [|done]. cbn [mbind option_bind].
    destruct (Nat.ltb_spec (Z.to_nat (o / Z.of_nat (stride g))) (page_slots pg)) as [Hlt|]; [|done]. intros [= <-].
    destruct (Nat.ltb_spec (Z.to_nat (o / Z.of_nat (stride g))) (page_slots pg)); [|lia]. do 2 f_equal.
    destruct (decide (stride g = 0)) as [E|E]; [rewrite E in *; change (Z.of_nat 0) with 0%Z in *; rewrite Zmod_0_r in Hm; lia|].
    rewrite Nat2Z.inj_mul, Z2Nat.id by (apply Z.div_pos; lia). pose proof (Z.div_mod o (Z.of_nat (stride g)) ltac:(lia)). lia.
  - destruct (Z.eqb_spec o 0) as [->|]; [|done]. cbn [mbind option_bind]. destruct (Nat.ltb_spec 0 (page_slots pg)); [|done].
    intros [= <-]. by destruct (Nat.ltb_spec 0 (page_slots pg)); [|lia].
Qed.
Lemma slot_of_bound pg s r : slot_of pg r = Some s → s < page_slots pg ∧ fst r = backing pg.
Proof.
  intros Hp%pointer_slot_of. unfold pointer in Hp. destruct (Nat.ltb_spec s (page_slots pg)); [|done]. by injection Hp as <-.
Qed.

(** C36: the bitmap search of the sweep ([Page::next_dead]) is exact: over any admitted
    interval of a well-formed page it answers the first slot that holds an object which
    is not black at the given epoch, or the end of the interval when there is none, and
    it never indexes outside the bitmaps. *)
Theorem next_dead_exact pg start stop e : page_ok pg → start < stop ≤ page_slots pg →
  ∃ d, next_dead pg start stop e = Some d ∧ start ≤ d ≤ stop
    ∧ (∀ s, start ≤ s < d → deadb pg e s = false) ∧ (d < stop → deadb pg e d = true).
Proof. apply next_dead_spec. Qed.

(** A page of eight-byte slots with three live objects, the middle one marked. *)
Definition sample_page : option Page :=
  '(s0, pg) ← page_reserve (new_small 0 7 1200); pg ← page_commit pg s0;
  '(s1, pg) ← page_reserve pg; pg ← page_commit pg s1;
  '(s2, pg) ← page_reserve pg; pg ← page_commit pg s2;
  m ← set_black (marks pg) s0 5; Some (with_marks pg m).
Lemma page_cycle_ok pg s pg1 pg2 : page_ok pg → 0 < free pg → page_reserve pg = Some (s, pg1) → page_commit pg1 s = Some pg2 → page_ok pg2.
Proof.
  intros Hok Hf Hr Hc. destruct (page_reserve_spec pg Hok Hf) as (s' & pg' & Hr' & _ & _ & Hre & _). rewrite Hr in Hr'. injection Hr' as <- <-.
  destruct (page_commit_spec pg1 s (re_ok _ _ _ _ Hre)) as (pg2' & Hc' & Hre2 & _).
  { rewrite (re_pending _ _ _ _ Hre). unfold flip_on. by rewrite Nat.eqb_refl. }
  rewrite Hc in Hc'. injection Hc' as <-. apply Hre2.
Qed.
Lemma next_dead_exact_witness : ∃ pg, sample_page = Some pg ∧ next_dead pg 0 128 5 = Some 1.
Proof.
  destruct sample_page as [pg|] eqn:Hs; [|by vm_compute in Hs]. exists pg. split; [done|].
  assert (page_ok pg) as Hok.
  { unfold sample_page in Hs. destruct (new_small_ok 0 7 1200 ltac:(unfold GROUPS; lia)) as [H0 _].
    destruct (page_reserve (new_small 0 7 1200)) as [[s0 p0]|] eqn:R0; [|done]. cbn [mbind option_bind] in Hs.
    destruct (page_commit p0 s0) as [p1|] eqn:C0; [|done]. cbn [mbind option_bind] in Hs.
    pose proof (page_cycle_ok _ _ _ _ H0 ltac:(vm_compute; lia) R0 C0) as H1. vm_compute in R0. injection R0 as <- <-. vm_compute in C0. injection C0 as <-.
    destruct (page_reserve _) as [[s1 p2]|] eqn:R1 in Hs; [|done]. cbn [mbind option_bind] in Hs.
    destruct (page_commit p2 s1) as [p3|] eqn:C1; [|done]. cbn [mbind option_bind] in Hs.
    pose proof (page_cycle_ok _ _ _ _ H1 ltac:(vm_compute; lia) R1 C1) as H3. vm_compute in R1. injection R1 as <- <-. vm_compute in C1. injection C1 as <-.
    destruct (page_reserve _) as [[s2 p4]|] eqn:R2 in Hs; [|done]. cbn [mbind option_bind] in Hs.
    destruct (page_commit p4 s2) as [p5|] eqn:C2; [|done]. cbn [mbind option_bind] in Hs.
    pose proof (page_cycle_ok _ _ _ _ H3 ltac:(vm_compute; lia) R2 C2) as H5.
    destruct (set_black (marks p5) 0 5) as [m|] eqn:Eb; [|done]. cbn in Hs. injection Hs as <-.
    destruct (set_black_spec (marks p5) 0 5 (pk_marks _ H5) ltac:(lia)) as (m' & Eb' & Hm). rewrite Eb in Eb'. injection Eb' as <-.
    by apply (with_marks_restated p5 m H5), Hm. }
  destruct (next_dead_exact pg 0 128 5 Hok) as (d & Hd & _ & Hpre & _).
  { vm_compute in Hs. injection Hs as <-. vm_compute. lia. }
  rewrite Hd. vm_compute in Hs. injection Hs as <-. by vm_compute in Hd.
Defined.
