(* ===== verification/GcDynamic.v ===== *)
(** * Managed heap: runtime-defined record layouts

    Models [DynamicShape::new] of [kagari-gc/src/dynamic/layout.rs]: fields are placed
    in the order of descending alignment, keys keep their declared positions, and the
    reference slots are the offsets the collector scans. *)
From stdpp Require Import sorting.
From S2P Require Import Prelude SlotBits GcBase GcPage.
Open Scope Z_scope.

(** ** Field kinds *)
Inductive FieldType : Set :=
| FBool | FChar | FI8 | FU8 | FI16 | FU16 | FI32 | FU32 | FI64 | FU64 | FI128 | FU128 | FF32 | FF64 | FReference.
#[export] Instance FieldType_eq_dec : EqDecision FieldType.
Proof. solve_decision. Defined.

Definition field_layout (k : FieldType) : Layout :=
  match k with
  | FBool | FI8 | FU8 => {| lsize := 1; lalign := 1 |}
  | FI16 | FU16 => {| lsize := 2; lalign := 2 |}
  | FChar | FI32 | FU32 | FF32 => {| lsize := 4; lalign := 4 |}
  | FI64 | FU64 | FF64 | FReference => {| lsize := 8; lalign := 8 |}
  | FI128 | FU128 => {| lsize := 16; lalign := 16 |}
  end.

Record Field : Set := { field_kind : FieldType; field_offset : Z }.
Record DynamicShape : Set := {
  shape_identity : Z; shape_layout : Layout; shape_fields : list Field; references : list Z
}.

(** [sort_unstable_by_key(|index| (Reverse(align), index))]. *)
Definition before (kinds : list FieldType) (i j : nat) : Prop :=
  let a k := lalign (field_layout (default FBool (kinds !! k))) in
  (a j < a i) ∨ (a i = a j ∧ (i <= j)%nat).
#[export] Instance before_dec kinds i j : Decision (before kinds i j).
Proof. unfold before. apply _. Defined.
Definition placement (kinds : list FieldType) : list nat := merge_sort (before kinds) (seq 0 (length kinds)).

Fixpoint pack (order : list nat) (layout : Layout) (fields : list Field) : result (Layout * list Field) GcFailure :=
  match order with
  | [] => Ok (layout, fields)
  | index :: order =>
      match fields !! index with
      | None => Err GcPanic
      | Some field =>
          match layout_extend layout (field_layout (field_kind field)) with
          | None => Err (GcErr (GcLimit "dynamic field layout"))
          | Some (next, offset) =>
              pack order next (<[index := {| field_kind := field_kind field; field_offset := offset |}]> fields)
          end
      end
  end.

Definition pad_to_align (l : Layout) : Layout := {| lsize := round_up (lsize l) (lalign l); lalign := lalign l |}.

Definition shape_new (identity : Z) (kinds : list FieldType) : result DynamicShape GcFailure :=
  match pack (placement kinds) {| lsize := 0; lalign := 1 |} ((λ k, {| field_kind := k; field_offset := 0 |}) <$> kinds) with
  | Err e => Err e
  | Ok (layout, fields) =>
      Ok {| shape_identity := identity; shape_layout := pad_to_align layout; shape_fields := fields;
            references := field_offset <$> filter (λ f, field_kind f = FReference) fields |}
  end.

(** ** Correctness of the packing *)
Definition fsize (k : FieldType) : Z := lsize (field_layout k).
Lemma field_layout_square k : lalign (field_layout k) = fsize k.
Proof. by destruct k. Qed.
Lemma fsize_cases k : fsize k = 1 ∨ fsize k = 2 ∨ fsize k = 4 ∨ fsize k = 8 ∨ fsize k = 16.
Proof. unfold fsize. destruct k; cbn; lia. Qed.
Lemma fsize_divide k k' : fsize k' <= fsize k → (fsize k' | fsize k).
Proof.
  intros Hle. destruct (fsize_cases k) as [E|[E|[E|[E|E]]]], (fsize_cases k') as [F|[F|[F|[F|F]]]]; rewrite E, F in *; try lia;
    apply Z.mod_divide; (lia || done).
Qed.
Lemma round_up_divide size a : 0 < a → (a | size) → round_up size a = size.
Proof.
  intros Ha [k ->]. unfold round_up. replace (k * a + a - 1) with (k * a + (a - 1)) by lia.
  by rewrite Z.div_add_l, Z.div_small, Z.add_0_r by lia.
Qed.
Definition total (kinds : list FieldType) : Z := foldr Z.add 0 (fsize <$> kinds).

Definition inside (layout : Layout) (f : Field) : Prop :=
  0 <= field_offset f ∧ (fsize (field_kind f) | field_offset f) ∧ field_offset f + fsize (field_kind f) <= lsize layout.
Definition apart (f g : Field) : Prop :=
  field_offset f + fsize (field_kind f) <= field_offset g ∨ field_offset g + fsize (field_kind g) <= field_offset f.

(** The fields of [done] are placed in [layout], gapless. *)
Record placed (kinds : list FieldType) (done : list nat) (layout : Layout) (fields : list Field) : Prop := {
  pl_kinds : field_kind <$> fields = kinds;
  pl_inside : ∀ i f, i ∈ done → fields !! i = Some f → inside layout f;
  pl_apart : ∀ i j f g, i ∈ done → j ∈ done → i ≠ j → fields !! i = Some f → fields !! j = Some g → apart f g;
  pl_size : lsize layout = foldr Z.add 0 ((λ i, fsize (default FBool (kinds !! i))) <$> done);
  pl_align : lalign layout = foldr Z.max 1 ((λ i, fsize (default FBool (kinds !! i))) <$> done);
  pl_limit : lsize layout <= isize_max - (lalign layout - 1)
}.

Lemma before_total kinds : Total (before kinds).
Proof. intros i j. unfold before. lia. Qed.
Lemma before_trans kinds : Transitive (before kinds).
Proof. intros i j k. unfold before. lia. Qed.
Lemma placement_perm kinds : placement kinds ≡ₚ seq 0 (length kinds).
Proof. apply merge_sort_Permutation. Qed.
Lemma placement_sorted kinds : StronglySorted (before kinds) (placement kinds).
Proof. apply StronglySorted_merge_sort; [apply before_trans|apply before_total]. Qed.
Definition summed (kinds : list FieldType) (order : list nat) : Z :=
  foldr Z.add 0 ((λ i, fsize (default FBool (kinds !! i))) <$> order).
Lemma summed_perm kinds o o' : o ≡ₚ o' → summed kinds o = summed kinds o'.
Proof. unfold summed. induction 1; cbn [fmap list_fmap foldr]; lia. Qed.
Lemma summed_cons kinds i o : summed kinds (i :: o) = fsize (default FBool (kinds !! i)) + summed kinds o.
Proof. done. Qed.
Lemma summed_nonneg kinds o : 0 <= summed kinds o.
Proof.
  induction o as [|i o IH]; [done|]. rewrite summed_cons. destruct (fsize_cases (default FBool (kinds !! i))) as [E|[E|[E|[E|E]]]]; lia.
Qed.
Lemma summed_app kinds o o' : summed kinds (o ++ o') = summed kinds o + summed kinds o'.
Proof. induction o as [|i o IH]; [done|]. cbn [app]. rewrite !summed_cons, IH. lia. Qed.
(** The largest alignment of the fields, 1 when there are none. *)
Definition alignment (kinds : list FieldType) : Z := foldr Z.max 1 (fsize <$> kinds).
Definition aligned (kinds : list FieldType) (order : list nat) : Z :=
  foldr Z.max 1 ((λ i, fsize (default FBool (kinds !! i))) <$> order).
Lemma aligned_cons kinds i o : aligned kinds (i :: o) = fsize (default FBool (kinds !! i)) `max` aligned kinds o.
Proof. done. Qed.
Lemma aligned_perm kinds o o' : o ≡ₚ o' → aligned kinds o = aligned kinds o'.
Proof. unfold aligned. induction 1; cbn [fmap list_fmap foldr]; lia. Qed.
Lemma aligned_app kinds o o' : aligned kinds (o ++ o') = aligned kinds o `max` aligned kinds o'.
Proof.
  assert (1 <= aligned kinds o') by (induction o' as [|i o' IH]; [done|rewrite aligned_cons; lia]).
  induction o as [|i o IH]; [change (aligned kinds []) with 1; cbn [app]; lia|]. cbn [app]. rewrite !aligned_cons, IH. lia.
Qed.
Lemma aligned_bounds kinds o : 1 <= aligned kinds o <= 16.
Proof.
  induction o as [|i o IH]; [change (aligned kinds []) with 1; lia|]. rewrite aligned_cons.
  destruct (fsize_cases (default FBool (kinds !! i))) as [E|[E|[E|[E|E]]]]; lia.
Qed.
Lemma by_index {A} (g : FieldType → A) kinds :
  (λ i, g (default FBool (kinds !! i))) <$> seq 0 (length kinds) = g <$> kinds.
Proof.
  apply list_eq. intros i. rewrite !list_lookup_fmap.
  destruct (decide (i < length kinds)%nat) as [Hi|Hi].
  - rewrite lookup_seq_lt by lia. cbn. by destruct (lookup_lt_is_Some_2 kinds i Hi) as [k ->].
  - rewrite lookup_seq_ge by lia. by rewrite lookup_ge_None_2 by lia.
Qed.
Lemma alignment_aligned kinds : aligned kinds (seq 0 (length kinds)) = alignment kinds.
Proof. unfold aligned, alignment. by rewrite by_index. Qed.
Lemma total_summed kinds : summed kinds (seq 0 (length kinds)) = total kinds.
Proof. unfold summed, total. by rewrite by_index. Qed.

(** Every size placed so far is a multiple of the alignment of what is still to come. *)
Lemma summed_divide kinds order k : (∀ i, i ∈ order → (k | fsize (default FBool (kinds !! i)))) → (k | summed kinds order).
Proof.
  unfold summed. induction order as [|i order IH]; intros Hd; cbn [fmap list_fmap foldr]; [apply Z.divide_0_r|].
  apply Z.divide_add_r; [apply Hd; left|apply IH; intros; apply Hd; by right].
Qed.

Lemma extend_spec kinds done index layout fields field : placed kinds done layout fields → fields !! index = Some field → index ∉ done →
  (∀ i, i ∈ done → before kinds i index) →
  match layout_extend layout (field_layout (field_kind field)) with
  | None => isize_max - (aligned kinds (index :: done) - 1) < summed kinds (index :: done)
  | Some (next, offset) =>
      placed kinds (index :: done) next (<[index := {| field_kind := field_kind field; field_offset := offset |}]> fields)
  end.
Proof.
  intros [Hk Hi Ha Hs Hal Hlim] Hf Hnd Hbef. set (k := field_kind field).
  assert (kinds !! index = Some k) as Hkind by (rewrite <- Hk, list_lookup_fmap, Hf; done).
  assert (0 < fsize k <= 16) as Hpos by (destruct (fsize_cases k) as [E|[E|[E|[E|E]]]]; lia).
  assert ((fsize k | lsize layout)) as Hdiv.
  { rewrite Hs. apply summed_divide. intros i Hin. apply fsize_divide. specialize (Hbef i Hin). unfold before in Hbef.
    rewrite !field_layout_square, Hkind in Hbef. cbn in Hbef. lia. }
  assert (summed kinds (index :: done) = lsize layout + fsize k) as Hsum.
  { rewrite Hs, summed_cons, Hkind. cbn [default]. fold (summed kinds done). unfold id. lia. }
  assert (aligned kinds (index :: done) = Z.max (lalign layout) (fsize k)) as Hmax.
  { rewrite aligned_cons, Hkind. cbn [default]. unfold id. rewrite Hal. fold (aligned kinds done). lia. }
  unfold layout_extend. rewrite field_layout_square. fold (fsize k). rewrite (round_up_divide (lsize layout) (fsize k) ltac:(lia) Hdiv).
  destruct (Z.ltb_spec (isize_max - (Z.max (lalign layout) (fsize k) - 1)) (lsize layout + fsize k)) as [Hover|Hunder]; [lia|].
  assert (0 <= lsize layout) as Hnn by (rewrite Hs; apply summed_nonneg).
  set (nf := {| field_kind := k; field_offset := lsize layout |}).
  assert (∀ i f, i ∈ done → <[index := nf]> fields !! i = Some f → fields !! i = Some f) as Hold.
  { intros i f Hin Hl. rewrite list_lookup_insert_ne in Hl by (by intros ->). done. }
  assert (∀ f, <[index := nf]> fields !! index = Some f → f = nf) as Hnew.
  { intros f. rewrite list_lookup_insert by (by eapply lookup_lt_Some). rewrite decide_True by (split; [done|by eapply lookup_lt_Some]). congruence. }
  split.
  - apply list_eq. intros j. rewrite list_lookup_fmap. destruct (decide (j = index)) as [->|Hne].
    + destruct (<[index:=nf]> fields !! index) as [f|] eqn:E; [rewrite (Hnew f eq_refl); by rewrite Hkind|].
      apply lookup_ge_None in E. rewrite length_insert in E. apply lookup_lt_Some in Hf. lia.
    + rewrite list_lookup_insert_ne, <- Hk, list_lookup_fmap by done. done.
  - intros i f [->|Hin]%elem_of_cons Hl.
    + rewrite (Hnew f Hl). split_and!; cbn; [done|done|lia].
    + destruct (Hi i f Hin (Hold _ _ Hin Hl)) as (? & ? & ?). split_and!; cbn; [done|done|lia].
  - intros i j f g [->|Hin]%elem_of_cons [->|Hjn]%elem_of_cons Hne Hl Hr; [done|..].
    + rewrite (Hnew f Hl). right. destruct (Hi j g Hjn (Hold _ _ Hjn Hr)) as (_ & _ & ?). cbn. lia.
    + rewrite (Hnew g Hr). left. destruct (Hi i f Hin (Hold _ _ Hin Hl)) as (_ & _ & ?). cbn. lia.
    + apply (Ha i j); auto.
  - cbn [lsize]. fold (summed kinds (index :: done)). by rewrite Hsum.
  - cbn [lalign]. by fold (aligned kinds (index :: done)).
  - cbn [lsize lalign]. lia.
Qed.

Lemma pack_spec kinds order done layout fields : placed kinds done layout fields → NoDup (order ++ done) →
  (∀ i, i ∈ order → (i < length kinds)%nat) → StronglySorted (before kinds) order → (∀ i j, i ∈ done → j ∈ order → before kinds i j) →
  match pack order layout fields with
  | Ok (layout', fields') => placed kinds (reverse order ++ done) layout' fields'
  | Err e => e = GcErr (GcLimit "dynamic field layout") ∧ isize_max - (aligned kinds (order ++ done) - 1) < summed kinds (order ++ done)
  end.
Proof.
  revert done layout fields. induction order as [|index order IH]; intros done layout fields Hp Hnd Hlt Hsort Hdone; cbn [pack]; [by rewrite reverse_nil|].
  destruct (lookup_lt_is_Some_2 fields index) as [field Hf].
  { rewrite <- (length_fmap field_kind), (pl_kinds _ _ _ _ Hp). apply Hlt. left. }
  rewrite Hf. cbn [app] in Hnd. apply list.NoDup_cons in Hnd as [Hnin Hnd]. apply StronglySorted_inv in Hsort as [Hsort Hall].
  pose proof (extend_spec kinds done index layout fields field Hp Hf) as Hext.
  specialize (Hext ltac:(intros Hin; apply Hnin, elem_of_app; by right) ltac:(intros; apply Hdone; [done|left])).
  assert ((index :: order) ++ done ≡ₚ order ++ index :: done) as Hmid by (by rewrite <- Permutation_middle).
  destruct (layout_extend layout (field_layout (field_kind field))) as [[next offset]|].
  - assert (NoDup (order ++ index :: done)) as Hnd'.
    { rewrite <- Permutation_middle. by constructor. }
    specialize (IH (index :: done) _ _ Hext Hnd' ltac:(intros; apply Hlt; by right) Hsort).
    destruct (pack order next _) as [[layout' fields']|e].
    + rewrite reverse_cons, <- app_assoc. apply IH. intros i j [->|Hi]%elem_of_cons Hj; [by eapply Forall_forall in Hall; [|apply list_elem_of_In]|].
      apply Hdone; [done|by right].
    + destruct IH as [-> Hover]; [|split; [done|]].
      * intros i j [->|Hi]%elem_of_cons Hj; [by eapply Forall_forall in Hall; [|apply list_elem_of_In]|]. apply Hdone; [done|by right].
      * by rewrite (summed_perm _ _ _ Hmid), (aligned_perm _ _ _ Hmid).
  - split; [done|]. rewrite (summed_perm _ _ _ Hmid), (aligned_perm _ _ _ Hmid), summed_app, aligned_app.
    pose proof (summed_nonneg kinds order). lia.
Qed.

(** The layout of a record of these kinds. *)
Record shape_ok (kinds : list FieldType) (shape : DynamicShape) : Prop := {
  sh_kinds : field_kind <$> shape_fields shape = kinds;
  sh_inside : ∀ i f, shape_fields shape !! i = Some f → inside (shape_layout shape) f;
  sh_apart : ∀ i j f g, shape_fields shape !! i = Some f → shape_fields shape !! j = Some g → i ≠ j → apart f g;
  sh_references : references shape = field_offset <$> filter (λ f, field_kind f = FReference) (shape_fields shape);
  sh_align : lalign (shape_layout shape) = alignment kinds;
  sh_size : total kinds <= lsize (shape_layout shape) < total kinds + lalign (shape_layout shape)
    ∧ (lalign (shape_layout shape) | lsize (shape_layout shape))
}.

Lemma shape_align_bounds kinds shape : shape_ok kinds shape → 1 <= lalign (shape_layout shape) <= 16.
Proof. intros Hs. rewrite (sh_align _ _ Hs), <- alignment_aligned. apply aligned_bounds. Qed.

Lemma round_up_spec n a : 0 <= n → 0 < a → n <= round_up n a < n + a ∧ (a | round_up n a).
Proof.
  intros Hn Ha. unfold round_up. split; [|by apply Z.divide_factor_r].
  pose proof (Z.div_mod (n + a - 1) a ltac:(lia)). pose proof (Z.mod_pos_bound (n + a - 1) a Ha). lia.
Qed.

Lemma shape_new_spec identity kinds :
  match shape_new identity kinds with
  | Ok shape => shape_ok kinds shape ∧ shape_identity shape = identity ∧ total kinds <= isize_max - (alignment kinds - 1)
  | Err e => e = GcErr (GcLimit "dynamic field layout") ∧ isize_max - (alignment kinds - 1) < total kinds
  end.
Proof.
  unfold shape_new. set (init := _ <$> kinds).
  assert (placed kinds [] {| lsize := 0; lalign := 1 |} init) as H0.
  { split.
    - unfold init. rewrite <- list_fmap_compose. apply list_fmap_id.
    - intros i f Hi. by apply elem_of_nil in Hi.
    - intros i j f g Hi. by apply elem_of_nil in Hi.
    - done.
    - done.
    - cbn. unfold isize_max. lia. }
  pose proof (placement_perm kinds) as Hperm.
  pose proof (pack_spec kinds (placement kinds) [] _ _ H0) as Hpack. rewrite app_nil_r in Hpack.
  specialize (Hpack ltac:(rewrite Hperm; apply NoDup_seq)).
  specialize (Hpack ltac:(intros i Hi; rewrite Hperm in Hi; apply elem_of_seq in Hi; lia) (placement_sorted kinds)).
  specialize (Hpack ltac:(intros i j Hi; by apply elem_of_nil in Hi)).
  destruct (pack _ _ _) as [[layout fields]|e].
  2: { destruct Hpack as [-> Hover]. split; [done|].
       by rewrite (summed_perm _ _ _ Hperm), total_summed, (aligned_perm _ _ _ Hperm), alignment_aligned in Hover. }
  rewrite app_nil_r in Hpack. destruct Hpack as [Hk Hi Ha Hs Hal Hlim].
  assert (lsize layout = total kinds) as Hsize.
  { rewrite Hs. etrans; [apply (summed_perm kinds)|apply total_summed]. by rewrite reverse_Permutation. }
  assert (lalign layout = alignment kinds) as Halign.
  { rewrite Hal. etrans; [apply (aligned_perm kinds)|apply alignment_aligned]. by rewrite reverse_Permutation. }
  pose proof (alignment_aligned kinds) as Hbounds. pose proof (aligned_bounds kinds (seq 0 (length kinds))).
  assert (∀ i f, fields !! i = Some f → i ∈ reverse (placement kinds)) as Hin.
  { intros i f Hf. rewrite reverse_Permutation, Hperm. apply elem_of_seq. split; [lia|]. apply lookup_lt_Some in Hf.
    rewrite <- Hk, length_fmap. done. }
  assert (0 <= total kinds) as Hnn by (rewrite <- total_summed; apply summed_nonneg).
  destruct (round_up_spec (lsize layout) (lalign layout) ltac:(lia) ltac:(lia)) as [Hr1 Hr2].
  split; [|split; [done|congruence]]. split; cbn [shape_fields shape_layout references pad_to_align lalign lsize]; try done.
  - intros i f Hf. destruct (Hi i f (Hin i f Hf) Hf) as (? & ? & ?). split_and!; cbn [lsize pad_to_align]; [done|done|lia].
  - intros i j f g Hf Hg Hne. apply (Ha i j); eauto.
  - split; [lia|done].
Qed.

(** ** Minimality of the packing *)
(** A way of laying out these kinds at all: every field at an offset aligned for it, no two
    overlapping, in a layout aligned for each of them and of a size that is a multiple of its
    alignment. *)
Record laid_out (kinds : list FieldType) (layout : Layout) (fields : list Field) : Prop := {
  lo_kinds : field_kind <$> fields = kinds;
  lo_inside : ∀ i f, fields !! i = Some f → inside layout f ∧ (fsize (field_kind f) | lalign layout);
  lo_apart : ∀ i j f g, fields !! i = Some f → fields !! j = Some g → i ≠ j → apart f g;
  lo_size : 0 <= lsize layout ∧ (lalign layout | lsize layout)
}.

Definition offset_at (fields : list Field) (i : nat) : Z := default 0 (field_offset <$> fields !! i).
Lemma last_placed fields i o : ∃ m o', i :: o ≡ₚ m :: o' ∧ ∀ j, j ∈ o' → offset_at fields j <= offset_at fields m.
Proof.
  revert i. induction o as [|k o IH]; intros i; [exists i, []; split; [done|]; by intros j Hj%elem_of_nil|].
  destruct (IH k) as (m & o' & Hp & Hm). destruct (Z.le_gt_cases (offset_at fields i) (offset_at fields m)) as [Hle|Hgt].
  - exists m, (i :: o'). rewrite Hp. split; [by constructor|]. intros j [->|Hj]%elem_of_cons; auto.
  - exists i, (m :: o'). rewrite Hp. split; [done|]. intros j [->|Hj]%elem_of_cons; [lia|]. specialize (Hm j Hj). lia.
Qed.
Lemma disjoint_summed fields n : ∀ order size, length order = n → NoDup order → 0 <= size →
  (∀ i, i ∈ order → ∃ f, fields !! i = Some f ∧ 0 <= field_offset f ∧ field_offset f + fsize (field_kind f) <= size) →
  (∀ i j f g, fields !! i = Some f → fields !! j = Some g → i ≠ j → apart f g) →
  summed (field_kind <$> fields) order <= size.
Proof.
  induction n as [|n IH]; intros [|i o] size Hlen Hnd Hs Hin Hap; try done.
  destruct (last_placed fields i o) as (m & o' & Hp & Hm). rewrite Hp in Hnd. rewrite (summed_perm _ _ _ Hp), summed_cons.
  apply list.NoDup_cons in Hnd as [Hnm Hnd].
  destruct (Hin m ltac:(rewrite Hp; left)) as (fm & Hfm & Hlo & Hhi).
  assert (summed (field_kind <$> fields) o' <= field_offset fm) as Hrest.
  { apply IH; [apply Permutation_length in Hp; cbn in *; lia|done|done| |done].
    intros j Hj. destruct (Hin j ltac:(rewrite Hp; by right)) as (f & Hf & ? & ?). exists f. split_and!; [done..|].
    specialize (Hm j Hj). unfold offset_at in Hm. rewrite Hf, Hfm in Hm. cbn in Hm.
    destruct (Hap j m f fm Hf Hfm ltac:(by intros ->)) as [?|Hover]; [done|].
    destruct (fsize_cases (field_kind fm)) as [E|[E|[E|[E|E]]]]; lia. }
  rewrite list_lookup_fmap, Hfm. cbn. unfold id. lia.
Qed.
Lemma alignment_divides kinds a : (∀ k, k ∈ kinds → (fsize k | a)) → (alignment kinds | a).
Proof.
  induction kinds as [|k kinds IH]; intros Hk; [apply Z.divide_1_l|].
  change (alignment (k :: kinds)) with (fsize k `max` alignment kinds).
  destruct (Z.max_spec (fsize k) (alignment kinds)) as [[_ ->]|[_ ->]]; [apply IH; intros; apply Hk; by right|apply Hk; left].
Qed.
Lemma laid_out_bounds kinds layout fields : laid_out kinds layout fields →
  total kinds <= lsize layout ∧ (alignment kinds | lsize layout).
Proof.
  intros [Hk Hi Ha [Hnn Hs]]. split.
  - rewrite <- total_summed, <- Hk. apply (disjoint_summed fields _ _ _ eq_refl); [apply NoDup_seq|done| |done].
    intros i [_ Hlt]%elem_of_seq. rewrite length_fmap in Hlt. destruct (lookup_lt_is_Some_2 fields i Hlt) as [f Hf].
    destruct (Hi i f Hf) as [(? & ? & ?) _]. eauto.
  - etrans; [|exact Hs]. apply alignment_divides. intros k Hin. rewrite <- Hk in Hin.
    apply list_elem_of_fmap in Hin as (f & -> & [i Hf]%list_elem_of_lookup). by destruct (Hi i f Hf).
Qed.
Lemma shape_minimal kinds shape : shape_ok kinds shape →
  ∀ layout fields, laid_out kinds layout fields → lsize (shape_layout shape) <= lsize layout.
Proof.
  intros [_ _ _ _ Hal [Hsz [q Hq]]] layout fields [Ht [p Hp]]%laid_out_bounds.
  pose proof (aligned_bounds kinds (seq 0 (length kinds))) as Hb. rewrite alignment_aligned in Hb.
  rewrite Hal, Hq, Hp in *. destruct (Z.le_gt_cases q p) as [Hle|Hgt]; [apply Z.mul_le_mono_nonneg_r; lia|].
  assert ((p + 1) * alignment kinds <= q * alignment kinds) by (apply Z.mul_le_mono_nonneg_r; lia). lia.
Qed.
Lemma alignment_of kinds k : k ∈ kinds → (fsize k | alignment kinds).
Proof.
  assert (∀ k, k ∈ kinds → fsize k <= alignment kinds) as Hle.
  { induction kinds as [|k' kinds IH]; [by intros ? ?%elem_of_nil|].
    change (alignment (k' :: kinds)) with (fsize k' `max` alignment kinds). intros j [->|Hj]%elem_of_cons; [lia|]. specialize (IH j Hj). lia. }
  assert (alignment kinds = 1 ∨ ∃ k, alignment kinds = fsize k) as [E|[m E]].
  { clear Hle. induction kinds as [|k' kinds IH]; [by left|]. change (alignment (k' :: kinds)) with (fsize k' `max` alignment kinds).
    destruct (Z.max_spec (fsize k') (alignment kinds)) as [[_ ->]|[_ ->]]; eauto. }
  - intros Hk%Hle. rewrite E in *. destruct (fsize_cases k) as [F|[F|[F|[F|F]]]]; rewrite F in *; try lia. done.
  - intros Hk%Hle. rewrite E in *. by apply fsize_divide.
Qed.
Lemma shape_laid_out kinds shape : shape_ok kinds shape → laid_out kinds (shape_layout shape) (shape_fields shape).
Proof.
  intros [Hk Hi Ha _ Hal [Hsz Hd]]. split; [done| |done|].
  - intros i f Hf. split; [eauto|]. rewrite Hal. apply alignment_of. rewrite <- Hk. apply list_elem_of_fmap_2.
    by eapply list_elem_of_lookup_2.
  - split; [|done]. pose proof (summed_nonneg kinds (seq 0 (length kinds))) as Hn. rewrite total_summed in Hn. lia.
Qed.

(** C37: packing a record layout ([DynamicShape::new]): when the fields fit an allocation,
    every declared field keeps its position and kind, sits at an offset aligned for its
    kind inside the record, and overlaps no other field; the offsets the collector scans
    are exactly those of the reference fields, in declaration order; the record's alignment
    is the largest alignment among its fields, and the record is as small as its fields allow:
    no other aligned placement of these fields without overlaps, in any order and with any
    alignment, takes fewer bytes.  Packing succeeds exactly when the fields' sizes add up to
    at most the largest layout of that alignment, reports a limit otherwise, and never
    panics. *)
Theorem dynamic_layout_packed identity kinds :
  match shape_new identity kinds with
  | Ok shape =>
      shape_ok kinds shape ∧ shape_identity shape = identity ∧
      laid_out kinds (shape_layout shape) (shape_fields shape) ∧
      (∀ layout fields, laid_out kinds layout fields → lsize (shape_layout shape) <= lsize layout) ∧
      total kinds <= isize_max - (alignment kinds - 1)
  | Err e => e = GcErr (GcLimit "dynamic field layout") ∧ isize_max - (alignment kinds - 1) < total kinds
  end.
Proof.
  pose proof (shape_new_spec identity kinds) as H. destruct (shape_new identity kinds) as [shape|]; [|done].
  destruct H as (Hok & Hid & Hlim). split_and!; [done|done|by apply shape_laid_out|by apply shape_minimal|done].
Qed.

(** The record [{ bool, reference, i16, u64 }]. *)
Example packed_record : shape_new 3 [FBool; FReference; FI16; FU64] = Ok {|
  shape_identity := 3; shape_layout := {| lsize := 24; lalign := 8 |};
  shape_fields := [{| field_kind := FBool; field_offset := 18 |}; {| field_kind := FReference; field_offset := 0 |};
                   {| field_kind := FI16; field_offset := 16 |}; {| field_kind := FU64; field_offset := 8 |}];
  references := [0] |}.
Proof. vm_compute. reflexivity. Qed.
