(* ===== verification/GcHeap.v ===== *)
(** * Managed heap: descriptors and physical storage

    Models [Descriptors] of [kagari-gc/src/descriptor.rs] for runtime-defined records
    and [PhysicalHeap] of [allocation.rs]: stable page identities, the doubly linked
    lists of active and of available pages, the reservation, commit and release of
    slots, and source-checked address resolution.  Object storage is the pair of maps
    [headers] and [payloads]: a header is present from [commit] until the object is
    destroyed, and reading a header that is not there is [GcUndefined]. *)
From stdpp Require Import gmap.
From S2P Require Import Prelude SlotBits GcBase GcTable GcPage GcDynamic.
Open Scope nat_scope.

(** ** Descriptors *)
Inductive ScanKind : Set := EdgeFree | Bounded (max_work : Z) | Resumable | Indivisible.
#[export] Instance ScanKind_eq_dec : EqDecision ScanKind.
Proof. solve_decision. Defined.

(** [desc_identity] stands for the address of the shared descriptor ([Arc::ptr_eq]). *)
Record Descriptor : Set := {
  desc_id : Z; desc_identity : Z; desc_shape : DynamicShape; desc_layout : Layout; desc_group : option nat;
  desc_kind : ScanKind
}.
Definition object_header_layout : Layout := {| lsize := 8; lalign := 4 |}.
(** [Descriptor::dynamic]. *)
Definition descriptor_dynamic (id identity : Z) (shape : DynamicShape) : option Descriptor :=
  r ← layout_extend object_header_layout (shape_layout shape);
  let leaf := bool_decide (references shape = []) in
  Some {| desc_id := id; desc_identity := identity; desc_shape := shape; desc_layout := fst r;
          desc_group := page_group (fst r) leaf; desc_kind := if leaf then EdgeFree else Resumable |}.

(** [handles]: the clones of the descriptor held outside the registry. *)
Record DescriptorEntry : Set := { entry_descriptor : Descriptor; uses : Z; handles : nat }.
Record Descriptors : Type := {
  desc_slots : Table DescriptorEntry; desc_active : list Z; next_identity : Z
}.
Definition no_descriptors : Descriptors := {| desc_slots := empty_table; desc_active := []; next_identity := 0 |}.
Definition set_desc_slots (t : Table DescriptorEntry) (d : Descriptors) : Descriptors :=
  {| desc_slots := t; desc_active := desc_active d; next_identity := next_identity d |}.
Definition set_desc_active (l : list Z) (d : Descriptors) : Descriptors :=
  {| desc_slots := desc_slots d; desc_active := l; next_identity := next_identity d |}.

(** A fallible table operation on a part of the state. *)
Definition table_prepare {S T} (part : S → Table T) (put : Table T → S → S) : M S Z :=
  λ s, match prepare (part s) with
       | (Ok id, t) => (Ok id, put t s)
       | (Err e, t) => (Err (GcErr e), put t s)
       end.
Definition table_insert {S T} (part : S → Table T) (put : Table T → S → S) (id : Z) (v : T) : M S unit :=
  λ s, match insert (part s) id v with Some t => (Ok tt, put t s) | None => (Err GcPanic, s) end.

Definition register_dynamic (shape : DynamicShape) : M Descriptors Descriptor :=
  let! id := table_prepare desc_slots set_desc_slots in
  let! identity := reads next_identity in
  let! d := ok_or_fail (descriptor_dynamic id identity shape) (GcLimit "dynamic object layout") in
  modify (λ s, {| desc_slots := desc_slots s; desc_active := desc_active s ++ [id]; next_identity := next_identity s + 1 |}) ;;!
  table_insert desc_slots set_desc_slots id {| entry_descriptor := d; uses := 0; handles := 1 |} ;;!
  ret d.
Definition descriptor_get (id : Z) (d : Descriptors) : result Descriptor GcFailure :=
  match get (desc_slots d) id with
  | Some entry => Ok (entry_descriptor entry)
  | None => Err (GcErr (Storage "descriptor"))
  end.
Definition with_uses (n : Z) (e : DescriptorEntry) : DescriptorEntry :=
  {| entry_descriptor := entry_descriptor e; uses := n; handles := handles e |}.
Definition with_handles (n : nat) (e : DescriptorEntry) : DescriptorEntry :=
  {| entry_descriptor := entry_descriptor e; uses := uses e; handles := n |}.
Definition descriptor_retain (id : Z) : M Descriptors unit :=
  let! d := read in
  let! entry := ok_or_fail (get (desc_slots d) id) (Storage "descriptor") in
  if (u64_max <? uses entry + 1)%Z then fail (GcLimit "descriptor uses")
  else write (set_desc_slots (update (with_uses (uses entry + 1)) (desc_slots d) id) d).
Definition descriptor_release (id : Z) : M Descriptors unit :=
  let! d := read in
  let! entry := or_panic (get (desc_slots d) id) in
  if (uses entry =? 0)%Z then panic
  else write (set_desc_slots (update (with_uses (uses entry - 1)) (desc_slots d) id) d).

(** [Vec::swap_remove]. *)
Definition swap_remove {A} (l : list A) (i : nat) : option (A * list A) :=
  match l !! i, l !! (length l - 1) with
  | Some x, Some y => Some (x, take (length l - 1) (<[i := y]> l))
  | _, _ => None
  end.

(** [scanning]: the descriptor the suspended scanner holds a clone of. *)
Definition strong_count (scanning : option Z) (e : DescriptorEntry) : nat :=
  1 + handles e + (if bool_decide (scanning = Some (desc_identity (entry_descriptor e))) then 1 else 0).
Definition retire_unused (scanning : option Z) (active_index : nat) : M Descriptors unit :=
  let! d := read in
  let! id := or_panic (desc_active d !! active_index) in
  let! entry := or_panic (get (desc_slots d) id) in
  if (uses entry =? 0)%Z && (strong_count scanning entry =? 1) then
    (match remove (desc_slots d) id with
     | Some (_, t) => write (set_desc_slots t d)
     | None => ret tt
     end) ;;!
    let! d := read in
    let! r := or_panic (swap_remove (desc_active d) active_index) in
    write (set_desc_active (snd r) d)
  else ret tt.

(** ** Physical storage *)
Record ObjectHeader : Set := { hdr_descriptor : Z; hdr_allocation : Z }.
Inductive FieldValue : Set := VScalar (bits : Z) | VReference (target : option ObjectRef).
Record PhysicalCursor : Set := { cursor_page : option Z; cursor_slot : nat }.
Record Physical : Type := {
  allocations : Table Page; available_heads : list (option Z); first_active : option Z; cursor : PhysicalCursor;
  descriptors : Descriptors; bytes : Z; objects : Z;
  headers : gmap ObjectRef ObjectHeader; payloads : gmap ObjectRef (gmap Z FieldValue); next_block : Z
}.
Definition no_cursor : PhysicalCursor := {| cursor_page := None; cursor_slot := 0 |}.
Definition empty_physical : Physical :=
  {| allocations := empty_table; available_heads := replicate GROUPS None; first_active := None; cursor := no_cursor;
     descriptors := no_descriptors; bytes := 0; objects := 0; headers := ∅; payloads := ∅; next_block := 0 |}.

Definition set_allocations (x : Table Page) (p : Physical) : Physical :=
  {| allocations := x; available_heads := available_heads p; first_active := first_active p; cursor := cursor p;
     descriptors := descriptors p; bytes := bytes p; objects := objects p; headers := headers p; payloads := payloads p; next_block := next_block p |}.
Definition set_available (x : list (option Z)) (p : Physical) : Physical :=
  {| allocations := allocations p; available_heads := x; first_active := first_active p; cursor := cursor p;
     descriptors := descriptors p; bytes := bytes p; objects := objects p; headers := headers p; payloads := payloads p; next_block := next_block p |}.
Definition set_first (x : option Z) (p : Physical) : Physical :=
  {| allocations := allocations p; available_heads := available_heads p; first_active := x; cursor := cursor p;
     descriptors := descriptors p; bytes := bytes p; objects := objects p; headers := headers p; payloads := payloads p; next_block := next_block p |}.
Definition set_cursor (x : PhysicalCursor) (p : Physical) : Physical :=
  {| allocations := allocations p; available_heads := available_heads p; first_active := first_active p; cursor := x;
     descriptors := descriptors p; bytes := bytes p; objects := objects p; headers := headers p; payloads := payloads p; next_block := next_block p |}.
Definition set_descriptors (x : Descriptors) (p : Physical) : Physical :=
  {| allocations := allocations p; available_heads := available_heads p; first_active := first_active p; cursor := cursor p;
     descriptors := x; bytes := bytes p; objects := objects p; headers := headers p; payloads := payloads p; next_block := next_block p |}.
Definition set_bytes (x : Z) (p : Physical) : Physical :=
  {| allocations := allocations p; available_heads := available_heads p; first_active := first_active p; cursor := cursor p;
     descriptors := descriptors p; bytes := x; objects := objects p; headers := headers p; payloads := payloads p; next_block := next_block p |}.
Definition set_objects (x : Z) (p : Physical) : Physical :=
  {| allocations := allocations p; available_heads := available_heads p; first_active := first_active p; cursor := cursor p;
     descriptors := descriptors p; bytes := bytes p; objects := x; headers := headers p; payloads := payloads p; next_block := next_block p |}.
Definition set_headers (x : gmap ObjectRef ObjectHeader) (p : Physical) : Physical :=
  {| allocations := allocations p; available_heads := available_heads p; first_active := first_active p; cursor := cursor p;
     descriptors := descriptors p; bytes := bytes p; objects := objects p; headers := x; payloads := payloads p; next_block := next_block p |}.
Definition set_payloads (x : gmap ObjectRef (gmap Z FieldValue)) (p : Physical) : Physical :=
  {| allocations := allocations p; available_heads := available_heads p; first_active := first_active p; cursor := cursor p;
     descriptors := descriptors p; bytes := bytes p; objects := objects p; headers := headers p; payloads := x; next_block := next_block p |}.
Definition set_next_block (x : Z) (p : Physical) : Physical :=
  {| allocations := allocations p; available_heads := available_heads p; first_active := first_active p; cursor := cursor p;
     descriptors := descriptors p; bytes := bytes p; objects := objects p; headers := headers p; payloads := payloads p; next_block := x |}.

Definition page_count (p : Physical) : Z := Z.of_nat (len (allocations p)).
(** [page] and [page_mut]. *)
Definition page (id : Z) : M Physical Page :=
  let! p := read in ok_or_fail (get (allocations p) id) (Storage "page identity").
Definition page_edit (id : Z) (f : Page → option Page) : M Physical unit :=
  let! pg := page id in
  let! pg' := or_panic (f pg) in
  modify (λ p, set_allocations (update (λ _, pg') (allocations p) id) p).

Definition edit_active (f : Links → Links) (pg : Page) : option Page := Some (with_active pg (f (active pg))).
Definition edit_available (f : Links → Links) (pg : Page) : option Page := l ← available pg; with_available pg (f l).
Definition set_previous (x : option Z) (l : Links) : Links := {| previous := x; next_page := next_page l |}.
Definition set_next (x : option Z) (l : Links) : Links := {| previous := previous l; next_page := x |}.
Definition when_some {S A} (o : option A) (f : A → M S unit) : M S unit :=
  match o with Some a => f a | None => ret tt end.

Definition link_active (id : Z) : M Physical unit :=
  let! first := reads first_active in
  page_edit id (edit_active (λ _, {| previous := None; next_page := first |})) ;;!
  when_some first (λ first, page_edit first (edit_active (set_previous (Some id)))) ;;!
  modify (set_first (Some id)).
Definition available_head (group : nat) : M Physical (option Z) :=
  let! p := read in or_panic (available_heads p !! group).
Definition set_available_head (group : nat) (x : option Z) : M Physical unit :=
  modify (λ p, set_available (<[group := x]> (available_heads p)) p).
Definition link_available (id : Z) (group : nat) : M Physical unit :=
  let! first := available_head group in
  page_edit id (edit_available (λ _, {| previous := None; next_page := first |})) ;;!
  when_some first (λ first, page_edit first (edit_available (set_previous (Some id)))) ;;!
  set_available_head group (Some id).
Definition unlink_available (id : Z) (group : nat) : M Physical unit :=
  let! pg := page id in
  let! links := or_panic (available pg) in
  (match previous links with
   | Some prev => page_edit prev (edit_available (set_next (next_page links)))
   | None => let! _ := available_head group in set_available_head group (next_page links)
   end) ;;!
  when_some (next_page links) (λ nxt, page_edit nxt (edit_available (set_previous (previous links)))) ;;!
  page_edit id (edit_available (λ _, no_links)).

Definition remove_page (id : Z) : M Physical unit :=
  let! pg := page id in
  when_some (group_id pg) (unlink_available id) ;;!
  let! pg := page id in
  let links := active pg in
  let! p := read in
  (if bool_decide (cursor_page (cursor p) = Some id)
   then modify (set_cursor {| cursor_page := next_page links; cursor_slot := 0 |}) else ret tt) ;;!
  (match previous links with
   | Some prev => page_edit prev (edit_active (set_next (next_page links)))
   | None => modify (set_first (next_page links))
   end) ;;!
  when_some (next_page links) (λ nxt, page_edit nxt (edit_active (set_previous (previous links)))) ;;!
  let! p := read in
  match remove (allocations p) id with
  | Some (pg, t) =>
      if (bytes p <? backing_bytes pg)%Z then panic
      else write (set_bytes (bytes p - backing_bytes pg) (set_allocations t p))
  | None => panic
  end.

Record Reservation : Set := { res_reference : ObjectRef; res_page : Z; res_slot : nat }.

(** The page a reservation is taken from: the head of the available list, or a new one. *)
Definition reserve_page (d : Descriptor) (limit : Z) : M Physical Z :=
  let! head := (match desc_group d with Some group => available_head group | None => ret None end) in
  match head with
  | Some id => ret id
  | None =>
      let! id := table_prepare allocations set_allocations in
      let! p := read in
      let! size := ok_or_fail (backing_layout (desc_layout d) (desc_group d)) (GcLimit "page trailer layout") in
      let new_bytes := (bytes p + size)%Z in
      if (u64_max <? new_bytes)%Z || (limit <? new_bytes)%Z then fail (GcLimit "backing bytes")
      else
        let pg := match desc_group d with
                  | Some group => new_small group (next_block p) size
                  | None => new_large (next_block p) size
                  end in
        table_insert allocations set_allocations id pg ;;!
        modify (λ p, set_next_block (next_block p + 1) (set_bytes new_bytes p)) ;;!
        link_active id ;;!
        when_some (desc_group d) (link_available id) ;;!
        ret id
  end.
Definition reserve (d : Descriptor) (limit : Z) : M Physical Reservation :=
  let! id := reserve_page d limit in
  let! pg := page id in
  let! r := or_panic (page_reserve pg) in
  page_edit id (λ _, Some (snd r)) ;;!
  let! pg := page id in
  (if free pg =? 0 then when_some (desc_group d) (unlink_available id) else ret tt) ;;!
  let! pg := page id in
  let! reference := or_panic (pointer pg (fst r)) in
  ret {| res_reference := reference; res_page := id; res_slot := fst r |}.

Definition commit (r : Reservation) (descriptor : Z) : M Physical unit :=
  zoom descriptors set_descriptors (descriptor_retain descriptor) ;;!
  modify (λ p, set_headers (<[res_reference r := {| hdr_descriptor := descriptor; hdr_allocation := res_page r |}]> (headers p)) p) ;;!
  page_edit (res_page r) (λ pg, page_commit pg (res_slot r)) ;;!
  modify (λ p, set_objects (objects p + 1) p).

Definition release_slot (id : Z) (slot : nat) : M Physical unit :=
  let! pg := page id in
  let was_full := free pg =? 0 in
  page_edit id (λ pg, page_release pg slot) ;;!
  let! pg := page id in
  (if was_full then when_some (group_id pg) (link_available id) else ret tt) ;;!
  let! pg := page id in
  if free pg =? page_slots pg then remove_page id else ret tt.
Definition rollback (r : Reservation) : M Physical unit := release_slot (res_page r) (res_slot r).

(** ** Address resolution *)
Record Location : Set := { loc_page : Page; loc_id : Z; loc_slot : nat; loc_descriptor : Z }.
Definition locate (p : Physical) (r : ObjectRef) : result Location GcFailure :=
  match headers p !! r with
  | None => Err GcUndefined
  | Some header =>
      match get (allocations p) (hdr_allocation header) with
      | None => Err (GcErr ForeignHeap)
      | Some pg =>
          match slot_of pg r with
          | None => Err (GcErr ForeignHeap)
          | Some slot =>
              match occupied pg slot with
              | None => Err GcPanic
              | Some false => Err (GcErr (Storage "object occupancy"))
              | Some true =>
                  Ok {| loc_page := pg; loc_id := hdr_allocation header; loc_slot := slot; loc_descriptor := hdr_descriptor header |}
              end
          end
      end
  end.

Record CheckedObject : Set := { obj_reference : ObjectRef; obj_descriptor : Descriptor; obj_page : Z; obj_slot : nat }.
Definition checked_object (p : Physical) (r : ObjectRef) (id : Z) (slot : nat) : result CheckedObject GcFailure :=
  match headers p !! r with
  | None => Err GcUndefined
  | Some header =>
      res_map (λ d, {| obj_reference := r; obj_descriptor := d; obj_page := id; obj_slot := slot |})
        (descriptor_get (hdr_descriptor header) (descriptors p))
  end.
Definition resolve (p : Physical) (r : ObjectRef) : result CheckedObject GcFailure :=
  match locate p r with
  | Err e => Err e
  | Ok location => checked_object p r (loc_id location) (loc_slot location)
  end.
Definition object_at (p : Physical) (id : Z) (slot : nat) : result CheckedObject GcFailure :=
  match get (allocations p) id with
  | None => Err (GcErr (Storage "page identity"))
  | Some pg =>
      match (if page_slots pg <=? slot then Some false else occupied pg slot) with
      | None => Err GcPanic
      | Some false => Err (GcErr (Storage "object occupancy"))
      | Some true =>
          match pointer pg slot with
          | None => Err GcPanic
          | Some r => checked_object p r id slot
          end
      end
  end.

(** Lifting a pure outcome into the monad. *)
Definition lift {S A} (r : result A GcFailure) : M S A := λ s, (r, s).
