(* ===== verification/GcStorage.v ===== *)
(** * Managed heap: the storage invariant

    The pages of a [PhysicalHeap] form one doubly linked list of active pages and one
    list of non-full pages per size class; addresses of distinct pages differ and the
    byte count is exact.  Every operation of [allocation.rs] that touches the lists
    keeps this. *)
From stdpp Require Import gmap fin_maps.
From S2P Require Import Prelude SlotBits GcBase GcTable GcPage GcColors GcDynamic GcHeap.
Open Scope nat_scope.

(** ** Doubly linked lists over identities *)
Definition prev_of (l : list Z) (i : nat) : option Z := match i with 0 => None | S j => l !! j end.
Record linked (lk : Z → option Links) (head : option Z) (l : list Z) : Prop := {
  lk_head : head = l !! 0;
  lk_nodup : NoDup l;
  lk_links : ∀ i x, l !! i = Some x → lk x = Some {| previous := prev_of l i; next_page := l !! S i |}
}.

Lemma linked_frame lk lk' head l : linked lk head l → (∀ x, x ∈ l → lk' x = lk x) → linked lk' head l.
Proof. intros [Hh Hn Hl] Hf. split; [done|done|]. intros i x Hx. rewrite Hf by (by eapply list_elem_of_lookup_2). by apply Hl. Qed.

Lemma linked_push lk lk' head l id : linked lk head l → id ∉ l → lk' id = Some {| previous := None; next_page := head |} →
  (∀ x, x ∈ l → lk' x = (if decide (head = Some x) then set_previous (Some id) <$> lk x else lk x)) →
  linked lk' (Some id) (id :: l).
Proof.
  intros [Hh Hn Hl] Hid Hnew Hold. split; [done|by constructor|]. intros [|i] x Hx; cbn in Hx.
  - injection Hx as <-. rewrite Hnew, Hh. done.
  - rewrite Hold by (by eapply list_elem_of_lookup_2). rewrite (Hl i x Hx). case_decide as E.
    + rewrite Hh in E. assert (i = 0) as -> by (by eapply NoDup_lookup). done.
    + destruct i as [|i]; [|done]. exfalso. apply E. by rewrite Hh.
Qed.

Lemma linked_remove lk lk' head l i id : linked lk head l → l !! i = Some id →
  (∀ x, x ∈ l → x ≠ id → lk' x =
     (if decide (l !! S i = Some x) then set_previous (prev_of l i) else λ k, k)
     <$> ((if decide (prev_of l i = Some x) then set_next (l !! S i) else λ k, k) <$> lk x)) →
  linked lk' (if decide (i = 0) then l !! 1 else head) (delete i l).
Proof.
  intros [Hh Hn Hl] Hi Hold. pose proof (lookup_lt_Some _ _ _ Hi) as Hlt. split.
  - case_decide as E; [subst; by rewrite list_lookup_delete_ge|]. rewrite list_lookup_delete_lt by lia. done.
  - eapply sublist_NoDup; [exact Hn|apply sublist_delete].
  - intros j x Hx. assert (∃ k, k ≠ i ∧ l !! k = Some x ∧ k = if decide (j < i) then j else S j) as (k & Hki & Hk & Ek).
    { destruct (decide (j < i)); [rewrite list_lookup_delete_lt in Hx by lia|rewrite list_lookup_delete_ge in Hx by lia];
        eexists; (split; [|split; [done|done]]); lia. }
    assert (x ≠ id) as Hne by (intros ->; apply Hki; by eapply NoDup_lookup).
    rewrite Hold by (done || by eapply list_elem_of_lookup_2). rewrite (Hl k x Hk).
    assert (l !! S i = Some x ↔ k = S i) as Hnx by (split; [intros; by eapply NoDup_lookup|by intros ->]).
    assert (prev_of l i = Some x ↔ S k = i) as Hpx.
    { destruct i as [|i]; cbn; [split; [done|lia]|]. split; [intros; f_equal; by eapply NoDup_lookup|intros [= ->]; done]. }
    rewrite (decide_ext _ _ _ _ Hnx), (decide_ext _ _ _ _ Hpx). destruct (decide (j < i)) as [Hji|Hji]; subst k.
    + rewrite decide_False by lia. replace (delete i l !! S j) with (if decide (S j = i) then l !! S i else l !! S j).
      2: { case_decide; [subst; by rewrite list_lookup_delete_ge by lia|by rewrite list_lookup_delete_lt by lia]. }
      replace (prev_of (delete i l) j) with (prev_of l j).
      2: { destruct j; [done|]. cbn. by rewrite list_lookup_delete_lt by lia. }
      by destruct (decide (S j = i)).
    + rewrite (decide_False (P := S (S j) = i)) by lia. rewrite (list_lookup_delete_ge l i (S j)) by lia.
      replace (prev_of (delete i l) j) with (if decide (j = i) then prev_of l i else l !! j).
      2: { case_decide as E; [subst j; destruct i; [done|]; cbn; by rewrite list_lookup_delete_lt by lia|].
           destruct j; [lia|]. cbn. by rewrite list_lookup_delete_ge by lia. }
      destruct (decide (S j = S i)) as [E|E].
      * injection E as ->. rewrite decide_True by done. done.
      * rewrite decide_False by lia. done.
Qed.

(** ** Pages that differ in their links only *)
Record kin (pg pg' : Page) : Prop := {
  kin_ok : page_ok pg → page_ok pg'; kin_marks : marks pg' = marks pg; kin_backing : backing pg' = backing pg;
  kin_bytes : backing_bytes pg' = backing_bytes pg; kin_group : group_id pg' = group_id pg;
  kin_slots : page_slots pg' = page_slots pg; kin_stride : page_stride pg' = page_stride pg; kin_free : free pg' = free pg;
  kin_occ : ∀ s, occ pg' s = occ pg s; kin_pending : ∀ s, pending_slot pg' s = pending_slot pg s
}.
#[export] Instance kin_preorder : PreOrder kin.
Proof.
  split.
  - by intros pg; split.
  - intros a b c [] []. split; [auto|congruence..| |]; intros s; congruence.
Qed.
Lemma kin_active pg f pg' : edit_active f pg = Some pg' → kin pg pg' ∧ active pg' = f (active pg) ∧ available pg' = available pg.
Proof. intros [= <-]. split; [|done]. split; try done. apply with_active_restated. Qed.
Lemma edit_available_spec pg g f : page_ok pg → group_id pg = Some g →
  ∃ pg', edit_available f pg = Some pg' ∧ kin pg pg' ∧ available pg' = f <$> available pg ∧ active pg' = active pg.
Proof.
  intros Hok Hg. unfold edit_available. destruct (available pg) as [a|] eqn:Ha; [|unfold group_id, available in *; by destruct (header pg)].
  cbn [mbind option_bind]. destruct (with_available_spec pg (f a) g Hok Hg) as (pg' & -> & ? & Hav & ? & ? & ? & ? & ? & ? & ? & ? & ? & ?).
  exists pg'. split; [done|]. split; [by split|]. split; [by rewrite Hav|done].
Qed.
Definition similar (pages pages' : gmap Z Page) : Prop := ∀ id, option_Forall2 kin (pages !! id) (pages' !! id).
#[export] Instance similar_preorder : PreOrder similar.
Proof.
  split.
  - intros m id. by destruct (m !! id); constructor.
  - intros a b c Hab Hbc id. specialize (Hab id). specialize (Hbc id).
    destruct (a !! id), (b !! id), (c !! id); inversion Hab; inversion Hbc; subst; constructor. by etrans.
Qed.
Lemma similar_insert pages id pg pg' : pages !! id = Some pg → kin pg pg' → similar pages (<[id := pg']> pages).
Proof.
  intros Hp Hk j. destruct (decide (j = id)) as [->|Hne]; [rewrite lookup_insert_eq, Hp; by constructor|].
  rewrite lookup_insert_ne by done. apply similar_preorder.
Qed.
Lemma similar_lookup pages pages' id pg : similar pages pages' → pages !! id = Some pg → ∃ pg', pages' !! id = Some pg' ∧ kin pg pg'.
Proof. intros Hs Hp. specialize (Hs id). rewrite Hp in Hs. inversion Hs; subst; eauto. Qed.
Lemma similar_lookup_r pages pages' id pg' : similar pages pages' → pages' !! id = Some pg' → ∃ pg, pages !! id = Some pg ∧ kin pg pg'.
Proof. intros Hs Hp. specialize (Hs id). rewrite Hp in Hs. inversion Hs; subst; eauto. Qed.
Lemma similar_is_Some pages pages' id : similar pages pages' → is_Some (pages' !! id) ↔ is_Some (pages !! id).
Proof. intros Hs. specialize (Hs id). destruct (pages !! id), (pages' !! id); inversion Hs; subst; split; done. Qed.

(** ** Byte accounting *)
Definition total_bytes (pages : gmap Z Page) : Z := map_fold (λ _ pg n, backing_bytes pg + n)%Z 0%Z pages.
Lemma total_bytes_insert pages id pg : pages !! id = None → total_bytes (<[id := pg]> pages) = (backing_bytes pg + total_bytes pages)%Z.
Proof. intros Hn. unfold total_bytes. rewrite map_fold_insert_L; [done| |done]. intros; lia. Qed.
Lemma total_bytes_delete pages id pg : pages !! id = Some pg → total_bytes pages = (backing_bytes pg + total_bytes (delete id pages))%Z.
Proof.
  intros Hp. rewrite <- (insert_delete_id pages id pg Hp) at 1. apply total_bytes_insert. apply lookup_delete_eq.
Qed.
Lemma total_bytes_replace pages id pg pg' : pages !! id = Some pg → backing_bytes pg' = backing_bytes pg →
  total_bytes (<[id := pg']> pages) = total_bytes pages.
Proof.
  intros Hp Hb. rewrite <- insert_delete_eq, total_bytes_insert, (total_bytes_delete pages id pg Hp), Hb by apply lookup_delete_eq. done.
Qed.
Lemma total_bytes_nonneg pages : (∀ id pg, pages !! id = Some pg → (0 <= backing_bytes pg)%Z) → (0 <= total_bytes pages)%Z.
Proof.
  unfold total_bytes. induction pages as [|id pg pages Hn IH] using map_ind; intros Hp; [by rewrite map_fold_empty|].
  rewrite map_fold_insert_L by (done || intros; lia). assert (0 <= backing_bytes pg)%Z by (apply (Hp id); by rewrite lookup_insert_eq).
  assert (0 <= total_bytes pages)%Z; [apply IH|unfold total_bytes in *; lia].
  intros j q Hq. apply (Hp j). rewrite lookup_insert_ne; [done|]. by intros ->; rewrite Hn in Hq.
Qed.

(** ** The lists *)
Definition upd (av : nat → list Z) (g : nat) (x : list Z) (g' : nat) : list Z := if decide (g' = g) then x else av g'.
Record core (p : Physical) (pages : gmap Z Page) (l : list Z) (av : nat → list Z) : Prop := {
  co_refines : refines (allocations p) pages;
  co_page : ∀ id pg, pages !! id = Some pg → page_ok pg ∧ (backing pg < next_block p)%Z ∧ (0 <= backing_bytes pg)%Z;
  co_backing : ∀ i j pg pg', pages !! i = Some pg → pages !! j = Some pg' → backing pg = backing pg' → i = j;
  co_active : linked (λ id, active <$> pages !! id) (first_active p) l;
  co_dom : ∀ id, id ∈ l → is_Some (pages !! id);
  co_heads : length (available_heads p) = GROUPS;
  co_available : ∀ g, g < GROUPS → linked (λ id, pages !! id ≫= available) (mjoin (available_heads p !! g)) (av g);
  co_member : ∀ g id, id ∈ av g → g < GROUPS ∧ ∃ pg, pages !! id = Some pg ∧ group_id pg = Some g;
  co_bytes : bytes p = total_bytes pages
}.
(** What list edits leave alone. *)
Record kept (p p' : Physical) : Prop := {
  kp_descriptors : descriptors p' = descriptors p; kp_objects : objects p' = objects p; kp_headers : headers p' = headers p;
  kp_payloads : payloads p' = payloads p; kp_next_block : next_block p' = next_block p
}.
#[export] Instance kept_preorder : PreOrder kept.
Proof. split; [by split|]. intros a b c [] []. split; congruence. Qed.

Lemma page_get p pages id pg : refines (allocations p) pages → pages !! id = Some pg → get (allocations p) id = Some pg.
Proof. intros Hr Hp. rewrite (rf_get _ _ Hr); [done|]. by apply (rf_dom _ _ Hr id). Qed.
Lemma wp_page E p pages id pg Q : refines (allocations p) pages → pages !! id = Some pg → Q pg p → wp E (page id) Q p.
Proof. intros Hr Hp HQ. apply wp_bind, wp_read. eapply wp_some; [by eapply page_get|done]. Qed.
Lemma wp_page_edit E p pages id pg pg' f Q : refines (allocations p) pages → pages !! id = Some pg → f pg = Some pg' →
  (∀ t, refines t (<[id := pg']> pages) → Q tt (set_allocations t p)) → wp E (page_edit id f) Q p.
Proof.
  intros Hr Hp Hf HQ. apply wp_bind. eapply wp_page; [done|done|]. apply wp_bind. eapply wp_or_panic; [done|]. apply wp_modify, HQ.
  pose proof (refines_update _ _ id (λ _, pg') Hr ltac:(by apply (rf_dom _ _ Hr id); eexists)) as Hu.
  replace (<[id := pg']> pages) with (alter (λ _, pg') id pages); [done|]. apply map_eq. intros j.
  destruct (decide (j = id)) as [->|]; [by rewrite lookup_alter_eq, lookup_insert_eq, Hp|by rewrite lookup_alter_ne, lookup_insert_ne].
Qed.

Definition active_at (pages : gmap Z Page) (id : Z) : option Links := active <$> pages !! id.
Definition available_at (pages : gmap Z Page) (id : Z) : option Links := pages !! id ≫= available.
(** An edit of one kind of links of one page. *)
Definition edited (pick keep : gmap Z Page → Z → option Links) (x : Z) (f : Links → Links) (pages pages' : gmap Z Page) : Prop :=
  similar pages pages' ∧ (∀ y, keep pages' y = keep pages y)
  ∧ ∀ y, pick pages' y = if decide (y = x) then f <$> pick pages y else pick pages y.

Lemma wp_edit_available E p pages x pg g f Q : refines (allocations p) pages → pages !! x = Some pg → page_ok pg → group_id pg = Some g →
  (∀ t pages', refines t pages' → edited available_at active_at x f pages pages' → Q tt (set_allocations t p)) →
  wp E (page_edit x (edit_available f)) Q p.
Proof.
  intros Hr Hp Hok Hg HQ. destruct (edit_available_spec pg g f Hok Hg) as (pg' & Hf & Hk & Hav & Hac).
  eapply wp_page_edit; [done..|]. intros t Ht. apply (HQ t (<[x := pg']> pages)); [done|]. split; [by eapply similar_insert|].
  unfold active_at, available_at. split; intros y; (destruct (decide (y = x)) as [->|];
    [rewrite lookup_insert_eq, Hp; cbn; by rewrite ?Hac, ?Hav|by rewrite lookup_insert_ne]).
Qed.
Lemma wp_edit_active E p pages x pg f Q : refines (allocations p) pages → pages !! x = Some pg →
  (∀ t pages', refines t pages' → edited active_at available_at x f pages pages' → Q tt (set_allocations t p)) →
  wp E (page_edit x (edit_active f)) Q p.
Proof.
  intros Hr Hp HQ. destruct (kin_active pg f _ eq_refl) as (Hk & Hac & Hav).
  eapply wp_page_edit; [done|done|done|]. intros t Ht. apply (HQ t (<[x := with_active pg (f (active pg))]> pages)); [done|]. split; [by eapply similar_insert|].
  unfold active_at, available_at. split; intros y; (destruct (decide (y = x)) as [->|];
    [rewrite lookup_insert_eq, Hp; cbn; by rewrite ?Hac, ?Hav|by rewrite lookup_insert_ne]).
Qed.

Lemma total_bytes_similar pages pages' : similar pages pages' → total_bytes pages' = total_bytes pages.
Proof.
  revert pages'. induction pages as [|id pg pages Hn IH] using map_ind; intros pages' Hs.
  - replace pages' with (∅ : gmap Z Page); [done|]. symmetry. apply map_empty. intros i. specialize (Hs i). rewrite lookup_empty in Hs. by inversion Hs.
  - destruct (similar_lookup _ _ id pg Hs) as (pg' & Hp' & Hk); [by rewrite lookup_insert_eq|].
    rewrite (total_bytes_delete pages' id pg' Hp'), total_bytes_insert, (kin_bytes _ _ Hk) by done. f_equal. apply IH.
    intros j. specialize (Hs j). destruct (decide (j = id)) as [->|]; [rewrite lookup_delete_eq, Hn; constructor|].
    rewrite lookup_insert_ne in Hs by done. by rewrite lookup_delete_ne.
Qed.

Lemma core_similar p p' pages pages' l av l' av' : core p pages l av → similar pages pages' → refines (allocations p') pages' →
  next_block p' = next_block p → bytes p' = bytes p → linked (active_at pages') (first_active p') l' → (∀ id, id ∈ l' → is_Some (pages !! id)) →
  length (available_heads p') = GROUPS →
  (∀ g, g < GROUPS → linked (available_at pages') (mjoin (available_heads p' !! g)) (av' g)) →
  (∀ g id, id ∈ av' g → g < GROUPS ∧ ∃ pg, pages !! id = Some pg ∧ group_id pg = Some g) → core p' pages' l' av'.
Proof.
  intros [] Hs Hr Hnb Hb Hl Hd Hh Ha Hm. split; try done.
  - intros id pg' Hp'. destruct (similar_lookup_r _ _ _ _ Hs Hp') as (pg & Hp & Hk). destruct (co_page0 id pg Hp) as (? & ? & ?).
    rewrite (kin_backing _ _ Hk), (kin_bytes _ _ Hk), Hnb. split; [by apply Hk|done].
  - intros i j pg pg' Hi Hj. destruct (similar_lookup_r _ _ _ _ Hs Hi) as (qi & Hqi & Ki). destruct (similar_lookup_r _ _ _ _ Hs Hj) as (qj & Hqj & Kj).
    rewrite (kin_backing _ _ Ki), (kin_backing _ _ Kj). by apply co_backing0.
  - intros id Hid. rewrite (similar_is_Some _ _ _ Hs). by apply Hd.
  - intros g id Hin. destruct (Hm g id Hin) as (Hg & pg & Hp & Hgr). destruct (similar_lookup _ _ _ _ Hs Hp) as (pg' & Hp' & Hk).
    split; [done|]. exists pg'. split; [done|]. by rewrite (kin_group _ _ Hk).
  - by rewrite Hb, (total_bytes_similar _ _ Hs).
Qed.

Lemma upd_eq av g x : upd av g x g = x.
Proof. unfold upd. by rewrite decide_True. Qed.
Lemma upd_ne av g x g' : g' ≠ g → upd av g x g' = av g'.
Proof. intros. unfold upd. by rewrite decide_False. Qed.
Lemma other_group p pages l av g g' x y : core p pages l av → x ∈ av g → y ∈ av g' → g ≠ g' → x ≠ y.
Proof.
  intros Hc Hx Hy Hne ->. destruct (co_member _ _ _ _ Hc _ _ Hx) as (_ & pg & Hp & Hg). destruct (co_member _ _ _ _ Hc _ _ Hy) as (_ & pg' & Hp' & Hg').
  congruence.
Qed.
Lemma head_lookup p pages l av g : core p pages l av → g < GROUPS → available_heads p !! g = Some (av g !! 0).
Proof.
  intros Hc Hg. pose proof (co_available _ _ _ _ Hc g Hg) as [Hh _ _]. destruct (lookup_lt_is_Some_2 (available_heads p) g) as [h E].
  { by rewrite (co_heads _ _ _ _ Hc). }
  rewrite E in *. cbn in Hh. by rewrite Hh.
Qed.
Lemma insert_heads (heads : list (option Z)) g x g' : length heads = GROUPS → g' < GROUPS →
  mjoin (<[g := x]> heads !! g') = if decide (g' = g) then x else mjoin (heads !! g').
Proof.
  intros Hl Hg. destruct (decide (g' = g)) as [->|]; [|by rewrite list_lookup_insert_ne]. by rewrite list_lookup_insert_eq by lia.
Qed.

Lemma link_available_spec E p pages l av id pg g Q : core p pages l av → pages !! id = Some pg → group_id pg = Some g → g < GROUPS → id ∉ av g →
  (∀ p' pages', core p' pages' l (upd av g (id :: av g)) → similar pages pages' → kept p p' → cursor p' = cursor p → Q tt p') →
  wp E (link_available id g) Q p.
Proof.
  intros Hc Hp Hgr Hg Hnin HQ. pose proof Hc as [Hr Hpg _ Hact Hdom Hlen Hav Hmem _]. pose proof (Hav g Hg) as Hl.
  destruct (Hpg id pg Hp) as (Hok & _). unfold link_available. apply wp_bind. unfold available_head. apply wp_bind, wp_read.
  eapply wp_or_panic; [by eapply head_lookup|]. apply wp_bind. eapply wp_edit_available; [done..|]. intros t1 pages1 Hr1 (S1 & K1 & E1).
  apply wp_bind. assert (mjoin (available_heads p !! g) = av g !! 0) as Hhead by apply Hl.
  assert (∀ p2 pages2, refines (allocations p2) pages2 → similar pages pages2 → (∀ y, active_at pages2 y = active_at pages y) →
    (∀ y, available_at pages2 y = if decide (y = id) then Some {| previous := None; next_page := av g !! 0 |}
          else if decide (av g !! 0 = Some y) then set_previous (Some id) <$> available_at pages y else available_at pages y) →
    kept p p2 → cursor p2 = cursor p → first_active p2 = first_active p → bytes p2 = bytes p → available_heads p2 = available_heads p →
    wp E (set_available_head g (Some id)) Q p2) as Hend.
  { intros p2 pages2 Hr2 S2 K2 A2 Hk Hcur Hfirst Hbytes Hheads. apply wp_modify, (HQ _ pages2); [|done|by destruct Hk|done].
    eapply (core_similar p _ pages pages2); [done|done|done|apply Hk|done| |exact Hdom|..].
    - cbn. rewrite Hfirst. eapply linked_frame; [exact Hact|]. intros x _. apply K2.
    - cbn. rewrite Hheads, length_insert. done.
    - intros g' Hg'. cbn [set_available available_heads]. rewrite Hheads, insert_heads by done. unfold upd. case_decide as Eg; [subst g'|].
      + eapply (linked_push _ _ _ (av g)); [exact Hl|done|by rewrite A2, decide_True, Hhead|]. intros x Hx. rewrite A2, decide_False by (by intros ->). by rewrite Hhead.
      + eapply linked_frame; [by apply Hav|]. intros x Hx. destruct (Hmem _ _ Hx) as (_ & q & Hq & Hgq). rewrite A2, decide_False by (intros ->; congruence). rewrite decide_False; [done|].
        intros Hx0. apply list_elem_of_lookup_2 in Hx0. by eapply (other_group p pages l av g g' x x).
    - intros g' x. unfold upd. case_decide as Eg; [subst g'|apply Hmem]. intros [->|Hx]%elem_of_cons; [split; [done|]; by exists pg|by apply Hmem]. }
  destruct (av g !! 0) as [f|] eqn:Hf; cbn [when_some].
  - pose proof (list_elem_of_lookup_2 _ _ _ Hf) as Hfin. destruct (Hmem _ _ Hfin) as (_ & pf & Hpf & Hgf). assert (f ≠ id) as Hne by (by intros ->).
    destruct (similar_lookup _ _ _ _ S1 Hpf) as (pf1 & Hpf1 & Kf). eapply wp_edit_available; [exact Hr1|done|apply Kf, (Hpg f pf Hpf)|rewrite (kin_group _ _ Kf); exact Hgf|].
    intros t2 pages2 Hr2 (S2 & K2 & E2). apply (Hend _ pages2); [done|by etrans|intros y; by rewrite K2|..|by destruct p|done|done|done|done].
    intros y. rewrite E2, !E1. destruct (decide (y = f)) as [->|]; [by rewrite !(decide_False (P := f = id)), decide_True|].
    case_decide as Ey; [|by rewrite decide_False by congruence]. subst. unfold available_at. rewrite Hp. cbn.
    unfold available, group_id in *. by destruct (header pg).
  - apply wp_ret. apply (Hend _ pages1); [done|done|done|..|by destruct p|done|done|done|done].
    intros y. rewrite E1. case_decide as Ey; [|done]. subst. unfold available_at. rewrite Hp. cbn. unfold available, group_id in *. by destruct (header pg).
Qed.

Definition without (l : list Z) (id : Z) : list Z := filter (λ x, x ≠ id) l.
Lemma elem_of_without l id x : x ∈ without l id ↔ x ≠ id ∧ x ∈ l.
Proof. unfold without. by rewrite list_elem_of_filter. Qed.
Lemma filter_all {A} (P : A → Prop) `{∀ x, Decision (P x)} (l : list A) : (∀ x, x ∈ l → P x) → filter P l = l.
Proof.
  induction l as [|x l IH]; intros Hl; [done|]. rewrite list.filter_cons, decide_True by (apply Hl; left). f_equal. apply IH. intros; apply Hl. by right.
Qed.
Lemma delete_without l i id : NoDup l → l !! i = Some id → delete i l = without l id.
Proof.
  intros Hn Hi. rewrite delete_take_drop. rewrite <- (take_drop_middle l i id Hi) at 3. unfold without. rewrite list.filter_app, list.filter_cons, decide_False by auto.
  rewrite <- (take_drop_middle l i id Hi) in Hn. apply list.NoDup_app in Hn as (_ & Hd & Hn). apply list.NoDup_cons in Hn as [Hn _].
  rewrite !filter_all; [done|intros x Hx ->; done|intros x Hx ->; by apply (Hd id Hx), elem_of_cons; left].
Qed.

(** The neighbours of a list element. *)
Lemma neighbours (l : list Z) i id : NoDup l → l !! i = Some id →
  (∀ x, prev_of l i = Some x → x ∈ l ∧ x ≠ id) ∧ (∀ x, l !! S i = Some x → x ∈ l ∧ x ≠ id)
  ∧ (∀ x, prev_of l i = Some x → l !! S i ≠ Some x).
Proof.
  intros Hn Hi. split_and!.
  - intros x Hx. destruct i as [|i]; [done|]. cbn in Hx. split; [by eapply list_elem_of_lookup_2|]. intros ->. pose proof (NoDup_lookup _ _ _ _ Hn Hx Hi). lia.
  - intros x Hx. split; [by eapply list_elem_of_lookup_2|]. intros ->. pose proof (NoDup_lookup _ _ _ _ Hn Hx Hi). lia.
  - intros x Hx Hy. destruct i as [|i]; [done|]. cbn in Hx. pose proof (NoDup_lookup _ _ _ _ Hn Hx Hy). lia.
Qed.

Lemma unlink_available_spec E p pages l av id g Q : core p pages l av → g < GROUPS → id ∈ av g →
  (∀ p' pages', core p' pages' l (upd av g (without (av g) id)) → similar pages pages' → kept p p' → cursor p' = cursor p → Q tt p') →
  wp E (unlink_available id g) Q p.
Proof.
  intros Hc Hg Hin HQ. pose proof Hc as [Hr Hpg _ Hact Hdom Hlen Hav Hmem _]. pose proof (Hav g Hg) as Hl. pose proof (lk_nodup _ _ _ Hl) as Hnd.
  apply list_elem_of_lookup_1 in Hin as [i Hi]. pose proof (lk_links _ _ _ Hl i id Hi) as Hlk.
  destruct (Hmem g id ltac:(by eapply list_elem_of_lookup_2)) as (_ & pg & Hp & Hgr). cbn beta in Hlk. rewrite Hp in Hlk. cbn in Hlk.
  destruct (neighbours _ _ _ Hnd Hi) as (Hprev & Hnext & Hpn).
  unfold unlink_available. apply wp_bind. eapply wp_page; [done..|]. apply wp_bind. eapply wp_or_panic; [done|]. cbn [previous next_page].
  set (prv := prev_of (av g) i) in *. set (nxt := av g !! S i) in *.
  assert (∀ p3 pages3, refines (allocations p3) pages3 → similar pages pages3 → (∀ y, active_at pages3 y = active_at pages y) →
    (∀ y, y ≠ id → available_at pages3 y = (if decide (nxt = Some y) then set_previous prv else λ k, k)
       <$> ((if decide (prv = Some y) then set_next nxt else λ k, k) <$> available_at pages y)) →
    kept p p3 → cursor p3 = cursor p → first_active p3 = first_active p → bytes p3 = bytes p →
    available_heads p3 = (if decide (i = 0) then <[g := nxt]> (available_heads p) else available_heads p) →
    wp E (page_edit id (edit_available (λ _, no_links))) Q p3) as Hend.
  { intros p3 pages3 Hr3 S3 K3 A3 Hk Hcur Hfirst Hbytes Hheads. destruct (similar_lookup _ _ _ _ S3 Hp) as (pg3 & Hp3 & Kp).
    eapply wp_edit_available; [exact Hr3|done|apply Kp, (Hpg id pg Hp)|rewrite (kin_group _ _ Kp); exact Hgr|]. intros t4 pages4 Hr4 (S4 & K4 & A4).
    apply (HQ _ pages4); [|by etrans|by destruct Hk|done]. eapply (core_similar p _ pages pages4); [done|by etrans|done|apply Hk|done| |exact Hdom|..].
    - cbn. rewrite Hfirst. eapply linked_frame; [exact Hact|]. intros x _. by rewrite K4, K3.
    - cbn. rewrite Hheads. case_decide; by rewrite ?length_insert.
    - intros g' Hg'. cbn [set_allocations available_heads]. unfold upd. destruct (decide (g' = g)) as [->|Eg].
      + rewrite <- (delete_without _ _ _ Hnd Hi). replace (mjoin (available_heads p3 !! g)) with (if decide (i = 0) then av g !! 1 else mjoin (available_heads p !! g)).
        2: { rewrite Hheads. case_decide; [|done]. subst i. rewrite insert_heads by done. by rewrite decide_True. }
        apply (linked_remove (available_at pages) _ (mjoin (available_heads p !! g)) (av g) i id); [exact Hl|done|]. intros x _ Hx. rewrite A4, decide_False by done. by apply A3.
      + replace (mjoin (available_heads p3 !! g')) with (mjoin (available_heads p !! g')) by (rewrite Hheads; case_decide; [rewrite insert_heads by done; by rewrite decide_False|done]).
        eapply linked_frame; [by apply Hav|]. intros x Hx.
        assert (∀ y, y ∈ av g → x ≠ y) as Hoth by (intros y Hy; by eapply (other_group p pages l av g' g)).
        rewrite A4, decide_False by (apply Hoth; by eapply list_elem_of_lookup_2). rewrite A3 by (apply Hoth; by eapply list_elem_of_lookup_2).
        rewrite !decide_False; [by rewrite !option_fmap_id| |]; intros E0; [apply Hprev in E0 as [E0 _]|apply Hnext in E0 as [E0 _]]; by apply (Hoth x E0).
    - intros g' x. unfold upd. destruct (decide (g' = g)) as [->|]; [|apply Hmem]. intros [_ Hx]%elem_of_without. by apply Hmem. }
  apply wp_bind.
  assert (∀ p1 pages1, refines (allocations p1) pages1 → similar pages pages1 → (∀ y, active_at pages1 y = active_at pages y) →
    (∀ y, available_at pages1 y = (if decide (prv = Some y) then set_next nxt else λ k, k) <$> available_at pages y) →
    kept p p1 → cursor p1 = cursor p → first_active p1 = first_active p → bytes p1 = bytes p →
    available_heads p1 = (if decide (i = 0) then <[g := nxt]> (available_heads p) else available_heads p) →
    wp E (when_some nxt (λ nxt, page_edit nxt (edit_available (set_previous prv)));;! page_edit id (edit_available (λ _, no_links))) Q p1) as Hmid.
  { intros p1 pages1 Hr1 S1 K1 A1 Hk Hcur Hfirst Hbytes Hheads. apply wp_bind. destruct nxt as [n|] eqn:En; cbn [when_some].
    - destruct (Hnext n eq_refl) as [Hn1 Hn2]. destruct (Hmem _ _ Hn1) as (_ & pn & Hpn' & Hgn). destruct (similar_lookup _ _ _ _ S1 Hpn') as (pn1 & Hpn1 & Kn).
      eapply wp_edit_available; [exact Hr1|done|apply Kn, (Hpg n pn Hpn')|rewrite (kin_group _ _ Kn); exact Hgn|]. intros t2 pages2 Hr2 (S2 & K2 & A2).
      apply (Hend _ pages2); [done|by etrans|intros y; by rewrite K2|..|by destruct Hk|done|done|done|done]. intros y Hy. rewrite A2, A1.
      destruct (decide (y = n)) as [->|]; [by rewrite (decide_True (P := Some n = Some n))|]. rewrite (decide_False (P := Some n = Some y)) by congruence. by rewrite option_fmap_id.
    - apply wp_ret, (Hend _ pages1); [done|done|done|..|by destruct Hk|done|done|done|done]. intros y Hy. rewrite A1, (decide_False (P := None = Some y)) by done. by rewrite option_fmap_id. }
  destruct prv as [v|] eqn:Ev.
  - destruct (Hprev v eq_refl) as [Hv1 Hv2]. destruct (Hmem _ _ Hv1) as (_ & pv & Hpv & Hgv).
    eapply wp_edit_available; [exact Hr|done|apply (Hpg v pv Hpv)|exact Hgv|]. intros t1 pages1 Hr1 (S1 & K1 & A1).
    apply (Hmid _ pages1); [done|done|done|..|by destruct p|done|done|done|]; [|cbn; rewrite decide_False; [done|by intros ->]].
    intros y. rewrite A1. destruct (decide (y = v)) as [->|]; [by rewrite decide_True|]. rewrite decide_False by congruence. by rewrite option_fmap_id.
  - apply wp_bind. unfold available_head. apply wp_bind, wp_read. eapply wp_or_panic; [by eapply head_lookup|]. apply wp_modify, (Hmid _ pages); [done|done|done|..|by destruct p|done|done|done|].
    + intros y. rewrite decide_False by done. by rewrite option_fmap_id.
    + assert (i = 0) as -> by (destruct i as [|i']; [done|]; exfalso; cbn in Ev; apply lookup_lt_Some in Hi; apply lookup_ge_None in Ev; lia). done.
Qed.

(** ** Creating and removing pages *)
Lemma core_insert p pages l av id pg t p' : core p pages l av → pages !! id = None → page_ok pg → backing pg = next_block p → (0 <= backing_bytes pg)%Z →
  refines t (<[id := pg]> pages) → allocations p' = t → next_block p' = (next_block p + 1)%Z → bytes p' = (bytes p + backing_bytes pg)%Z →
  first_active p' = first_active p → available_heads p' = available_heads p → core p' (<[id := pg]> pages) l av.
Proof.
  intros [] Hn Hok Hb Hbb Ht <- Hnb Hby Hf Ha.
  assert (∀ x, is_Some (pages !! x) → x ≠ id) as Hne by (intros x [q Hq] ->; congruence).
  split; try done.
  - intros j q. destruct (decide (j = id)) as [->|]; [rewrite lookup_insert_eq; intros [= <-]; split_and!; [done|lia|done]|].
    rewrite lookup_insert_ne by done. intros Hq. destruct (co_page0 _ _ Hq) as (? & ? & ?). split_and!; [done|lia|done].
  - intros i j q q'. destruct (decide (i = id)) as [->|], (decide (j = id)) as [->|]; rewrite ?lookup_insert_eq, ?lookup_insert_ne by done.
    + done.
    + intros [= <-] Hq Heq. destruct (co_page0 _ _ Hq) as (_ & ? & _). lia.
    + intros Hq [= <-] Heq. destruct (co_page0 _ _ Hq) as (_ & ? & _). lia.
    + apply co_backing0.
  - rewrite Hf. eapply linked_frame; [exact co_active0|]. intros x Hx. cbn beta. by rewrite lookup_insert_ne by (symmetry; by apply Hne, co_dom0).
  - intros x Hx. rewrite lookup_insert_ne; [by apply co_dom0|]. symmetry. by apply Hne, co_dom0.
  - by rewrite Ha.
  - intros g Hg. rewrite Ha. eapply linked_frame; [by apply co_available0|]. intros x Hx. cbn beta. destruct (co_member0 _ _ Hx) as (_ & q & Hq & _).
    rewrite lookup_insert_ne; [done|]. symmetry. apply Hne. by eexists.
  - intros g x Hx. destruct (co_member0 _ _ Hx) as (Hg & q & Hq & Hgq). split; [done|]. exists q. split; [|done]. rewrite lookup_insert_ne; [done|]. symmetry. apply Hne. by eexists.
  - rewrite Hby, total_bytes_insert by done. lia.
Qed.

Lemma link_active_spec E p pages l av id Q : core p pages l av → is_Some (pages !! id) → id ∉ l →
  (∀ p' pages', core p' pages' (id :: l) av → similar pages pages' → kept p p' → cursor p' = cursor p → Q tt p') →
  wp E (link_active id) Q p.
Proof.
  intros Hc [pg Hp] Hnin HQ. pose proof Hc as [Hr Hpg _ Hact Hdom Hlen Hav Hmem _]. pose proof (lk_head _ _ _ Hact) as Hhead.
  unfold link_active. apply wp_bind, wp_reads, wp_bind. eapply wp_edit_active; [done..|]. intros t1 pages1 Hr1 (S1 & K1 & A1). apply wp_bind.
  assert (∀ p2 pages2, refines (allocations p2) pages2 → similar pages pages2 → (∀ y, available_at pages2 y = available_at pages y) →
    (∀ y, active_at pages2 y = if decide (y = id) then Some {| previous := None; next_page := first_active p |}
          else if decide (first_active p = Some y) then set_previous (Some id) <$> active_at pages y else active_at pages y) →
    kept p p2 → cursor p2 = cursor p → bytes p2 = bytes p → available_heads p2 = available_heads p →
    wp E (modify (set_first (Some id))) Q p2) as Hend.
  { intros p2 pages2 Hr2 S2 K2 A2 Hk Hcur Hbytes Hheads. apply wp_modify, (HQ _ pages2); [|done|by destruct Hk|done].
    eapply (core_similar p _ pages pages2); [done|done|done|apply Hk|done|..].
    - cbn. eapply (linked_push _ _ _ l); [exact Hact|done|by rewrite A2, decide_True|]. intros x Hx. by rewrite A2, decide_False by (by intros ->).
    - intros x [->|Hx]%elem_of_cons; [by eexists|by apply Hdom].
    - cbn. by rewrite Hheads.
    - intros g Hg. cbn. rewrite Hheads. eapply linked_frame; [by apply Hav|]. intros x _. apply K2.
    - done. }
  destruct (first_active p) as [f|] eqn:Hf; cbn [when_some].
  - assert (f ∈ l) as Hfin by (by eapply list_elem_of_lookup_2). destruct (Hdom f Hfin) as [pf Hpf]. assert (f ≠ id) as Hne by (by intros ->).
    destruct (similar_lookup _ _ _ _ S1 Hpf) as (pf1 & Hpf1 & _). eapply wp_edit_active; [exact Hr1|done|]. intros t2 pages2 Hr2 (S2 & K2 & A2).
    apply (Hend _ pages2); [done|by etrans|intros y; by rewrite K2|..|by destruct p|done|done|done].
    intros y. rewrite A2, !A1. destruct (decide (y = f)) as [->|]; [by rewrite !(decide_False (P := f = id)), decide_True|].
    case_decide as Ey; [|by rewrite decide_False by congruence]. subst. unfold active_at. by rewrite Hp.
  - apply wp_ret. apply (Hend _ pages1); [done|done|done|..|by destruct p|done|done|done].
    intros y. rewrite A1. case_decide as Ey; [|done]. subst. unfold active_at. by rewrite Hp.
Qed.

Lemma core_delete p pages l av id pg t p' : core p pages l av → pages !! id = Some pg → id ∉ l → (∀ g, id ∉ av g) →
  refines t (delete id pages) → allocations p' = t → next_block p' = next_block p → bytes p' = (bytes p - backing_bytes pg)%Z →
  first_active p' = first_active p → available_heads p' = available_heads p → core p' (delete id pages) l av.
Proof.
  intros [] Hp Hnl Hna Ht <- Hnb Hby Hf Ha. split; try done.
  - intros j q [_ Hq]%lookup_delete_Some. rewrite Hnb. by eapply co_page0.
  - intros i j q q' [_ Hq]%lookup_delete_Some [_ Hq']%lookup_delete_Some. by apply co_backing0.
  - rewrite Hf. eapply linked_frame; [exact co_active0|]. intros x Hx. cbn beta. rewrite lookup_delete_ne; [done|]. by intros ->.
  - intros x Hx. rewrite lookup_delete_ne; [by apply co_dom0|]. by intros ->.
  - by rewrite Ha.
  - intros g Hg. rewrite Ha. eapply linked_frame; [by apply co_available0|]. intros x Hx. cbn beta. rewrite lookup_delete_ne; [done|]. intros ->. by apply (Hna g).
  - intros g x Hx. destruct (co_member0 _ _ Hx) as (Hg & q & Hq & Hgq). split; [done|]. exists q. split; [|done]. rewrite lookup_delete_ne; [done|]. intros ->. by apply (Hna g).
  - rewrite Hby, co_bytes0, (total_bytes_delete pages id pg Hp). lia.
Qed.

(** Unlinking a page from the active list, as [remove_page] does it. *)
Lemma unlink_active_spec E p pages l av id i (k : M Physical unit) Q : core p pages l av → l !! i = Some id →
  (∀ p' pages', core p' pages' (without l id) av → similar pages pages' → kept p p' → cursor p' = cursor p → wp E k Q p') →
  wp E ((match prev_of l i with
         | Some prev => page_edit prev (edit_active (set_next (l !! S i)))
         | None => modify (set_first (l !! S i))
         end) ;;!
        when_some (l !! S i) (λ nxt, page_edit nxt (edit_active (set_previous (prev_of l i)))) ;;! k) Q p.
Proof.
  intros Hc Hi HQ. pose proof Hc as [Hr Hpg _ Hact Hdom Hlen Hav Hmem _]. pose proof (lk_nodup _ _ _ Hact) as Hnd.
  destruct (neighbours _ _ _ Hnd Hi) as (Hprev & Hnext & Hpn). set (prv := prev_of l i) in *. set (nxt := l !! S i) in *.
  assert (∀ p3 pages3, refines (allocations p3) pages3 → similar pages pages3 → (∀ y, available_at pages3 y = available_at pages y) →
    (∀ y, active_at pages3 y = (if decide (nxt = Some y) then set_previous prv else λ k, k)
       <$> ((if decide (prv = Some y) then set_next nxt else λ k, k) <$> active_at pages y)) →
    kept p p3 → cursor p3 = cursor p → first_active p3 = (if decide (i = 0) then l !! 1 else first_active p) → bytes p3 = bytes p →
    available_heads p3 = available_heads p → wp E k Q p3) as Hend.
  { intros p3 pages3 Hr3 S3 K3 A3 Hk Hcur Hfirst Hbytes Hheads. apply (HQ _ pages3); [|done|done|done].
    eapply (core_similar p _ pages pages3); [done|done|done|apply Hk|done|..].
    - rewrite <- (delete_without _ _ _ Hnd Hi), Hfirst. apply (linked_remove (active_at pages) _ (first_active p) l i id); [exact Hact|done|]. intros x _ _. apply A3.
    - intros x [_ Hx]%elem_of_without. by apply Hdom.
    - by rewrite Hheads.
    - intros g Hg. rewrite Hheads. eapply linked_frame; [by apply Hav|]. intros x _. apply K3.
    - done. }
  apply wp_bind.
  assert (∀ p1 pages1, refines (allocations p1) pages1 → similar pages pages1 → (∀ y, available_at pages1 y = available_at pages y) →
    (∀ y, active_at pages1 y = (if decide (prv = Some y) then set_next nxt else λ k, k) <$> active_at pages y) →
    kept p p1 → cursor p1 = cursor p → first_active p1 = (if decide (i = 0) then l !! 1 else first_active p) → bytes p1 = bytes p →
    available_heads p1 = available_heads p →
    wp E (when_some nxt (λ nxt, page_edit nxt (edit_active (set_previous prv)));;! k) Q p1) as Hmid.
  { intros p1 pages1 Hr1 S1 K1 A1 Hk Hcur Hfirst Hbytes Hheads. apply wp_bind. destruct nxt as [n|] eqn:En; cbn [when_some].
    - destruct (Hnext n eq_refl) as [Hn1 Hn2]. destruct (Hdom _ Hn1) as (pn & Hpn'). destruct (similar_lookup _ _ _ _ S1 Hpn') as (pn1 & Hpn1 & Kn).
      eapply wp_edit_active; [exact Hr1|done|]. intros t2 pages2 Hr2 (S2 & K2 & A2).
      apply (Hend _ pages2); [done|by etrans|intros y; by rewrite K2|..|by destruct Hk|done|done|done|done]. intros y. rewrite A2, A1.
      destruct (decide (y = n)) as [->|]; [by rewrite (decide_True (P := Some n = Some n))|]. rewrite (decide_False (P := Some n = Some y)) by congruence. by rewrite option_fmap_id.
    - apply wp_ret, (Hend _ pages1); [done|done|done|..|by destruct Hk|done|done|done|done]. intros y. rewrite A1, (decide_False (P := None = Some y)) by done. by rewrite option_fmap_id. }
  destruct prv as [v|] eqn:Ev.
  - destruct (Hprev v eq_refl) as [Hv1 Hv2]. destruct (Hdom _ Hv1) as (pv & Hpv).
    eapply wp_edit_active; [exact Hr|done|]. intros t1 pages1 Hr1 (S1 & K1 & A1).
    apply (Hmid _ pages1); [done|done|done|..|by destruct p|done| |done|done]; [|cbn; rewrite decide_False; [done|by intros ->]].
    intros y. rewrite A1. destruct (decide (y = v)) as [->|]; [by rewrite decide_True|]. rewrite decide_False by congruence. by rewrite option_fmap_id.
  - apply wp_modify, (Hmid _ pages); [done|done|done|..|by destruct p|done| |done|done].
    + intros y. rewrite decide_False by done. by rewrite option_fmap_id.
    + assert (i = 0) as -> by (destruct i as [|i']; [done|]; exfalso; cbn in Ev; apply lookup_lt_Some in Hi; apply lookup_ge_None in Ev; lia). done.
Qed.

Definition dropped (av : nat → list Z) (g : option nat) (id : Z) : nat → list Z :=
  match g with Some g => upd av g (without (av g) id) | None => av end.
Lemma elem_of_dropped av g id g' x : x ∈ dropped av g id g' ↔ x ∈ av g' ∧ (g = Some g' → x ≠ id).
Proof.
  unfold dropped, upd. destruct g as [g|]; [|naive_solver]. case_decide as E; [subst|]; rewrite ?elem_of_without; naive_solver.
Qed.

Lemma remove_page_spec E p pages l av id i pg Q : core p pages l av → l !! i = Some id → pages !! id = Some pg →
  (∀ g, group_id pg = Some g → g < GROUPS ∧ id ∈ av g) →
  (∀ p' pages', core p' (delete id pages') (without l id) (dropped av (group_id pg) id) → similar pages pages' → kept p p' →
     cursor p' = (if decide (cursor_page (cursor p) = Some id) then {| cursor_page := l !! S i; cursor_slot := 0 |} else cursor p) → Q tt p') →
  wp E (remove_page id) Q p.
Proof.
  intros Hc Hi Hp Hg HQ. unfold remove_page. apply wp_bind. eapply wp_page; [apply Hc|done|]. apply wp_bind.
  assert (∀ p1 pages1, core p1 pages1 l (dropped av (group_id pg) id) → similar pages pages1 → kept p p1 → cursor p1 = cursor p → wp E (
    let! pg0 := page id in let links := active pg0 in let! p0 := read in
    (if bool_decide (cursor_page (cursor p0) = Some id) then modify (set_cursor {| cursor_page := next_page links; cursor_slot := 0 |}) else ret ()) ;;!
    (match previous links with
     | Some prev => page_edit prev (edit_active (set_next (next_page links)))
     | None => modify (set_first (next_page links))
     end) ;;!
    when_some (next_page links) (λ nxt, page_edit nxt (edit_active (set_previous (previous links)))) ;;!
    let! p2 := read in
    match remove (allocations p2) id with
    | Some (pg1, t) => if (bytes p2 <? backing_bytes pg1)%Z then panic else write (set_bytes (bytes p2 - backing_bytes pg1) (set_allocations t p2))
    | None => panic
    end) Q p1) as Hrest.
  { intros p1 pages1 Hc1 S1 Hk1 Hcur1. destruct (similar_lookup _ _ _ _ S1 Hp) as (pg1 & Hp1 & K1).
    apply wp_bind. eapply wp_page; [apply Hc1|done|]. cbn zeta. pose proof (lk_links _ _ _ (co_active _ _ _ _ Hc1) i id Hi) as Hlk. cbn beta in Hlk. rewrite Hp1 in Hlk.
    cbn in Hlk. injection Hlk as Hlk. rewrite Hlk. cbn [previous next_page]. apply wp_bind, wp_read, wp_bind.
    assert (∀ p2, core p2 pages1 l (dropped av (group_id pg) id) → kept p p2 →
      cursor p2 = (if decide (cursor_page (cursor p) = Some id) then {| cursor_page := l !! S i; cursor_slot := 0 |} else cursor p) →
      wp E ((match prev_of l i with
        | Some prev => page_edit prev (edit_active (set_next (l !! S i)))
        | None => modify (set_first (l !! S i))
        end) ;;! when_some (l !! S i) (λ nxt, page_edit nxt (edit_active (set_previous (prev_of l i)))) ;;!
        let! p2 := read in
        match remove (allocations p2) id with
        | Some (pg1, t) => if (bytes p2 <? backing_bytes pg1)%Z then panic else write (set_bytes (bytes p2 - backing_bytes pg1) (set_allocations t p2))
        | None => panic
        end) Q p2) as Hfin.
    { intros p2 Hc2 Hk2 Hcur2. eapply unlink_active_spec; [exact Hc2|done|]. intros p3 pages3 Hc3 S3 Hk3 Hcur3.
      destruct (similar_lookup _ _ _ _ S3 Hp1) as (pg3 & Hp3 & K3). apply wp_bind, wp_read.
      pose proof (refines_remove _ _ id (co_refines _ _ _ _ Hc3) ltac:(by apply (rf_dom _ _ (co_refines _ _ _ _ Hc3) id); eexists)) as Hrem.
      destruct (remove (allocations p3) id) as [[pgr t]|]; [|congruence]. destruct Hrem as [Hpr Ht]. rewrite Hp3 in Hpr. injection Hpr as <-.
      assert (0 <= total_bytes (delete id pages3))%Z as Hnn.
      { apply total_bytes_nonneg. intros j q [_ Hq]%lookup_delete_Some. by apply (co_page _ _ _ _ Hc3 j). }
      pose proof (total_bytes_delete pages3 id pg3 Hp3) as Htot. pose proof (co_bytes _ _ _ _ Hc3) as Hb.
      destruct (Z.ltb_spec (bytes p3) (backing_bytes pg3)); [lia|]. apply wp_write, (HQ _ pages3).
      - eapply (core_delete p3); [exact Hc3|done|by intros [? _]%elem_of_without|..|exact Ht|done|done|done|done|done].
        intros g. rewrite elem_of_dropped. intros [Hin Hne]. destruct (co_member _ _ _ _ Hc3 g id) as (_ & q & Hq & Hgq).
        { by apply elem_of_dropped. }
        rewrite Hp3 in Hq. injection Hq as <-. rewrite (kin_group _ _ K3), (kin_group _ _ K1) in Hgq. by apply Hne.
      - by etrans.
      - destruct Hk2, Hk3. split; cbn; congruence.
      - cbn. by rewrite Hcur3. }
    rewrite Hcur1. case_bool_decide as Ec.
    - apply wp_modify, Hfin; [|by destruct Hk1|cbn; by rewrite decide_True]. destruct Hc1. by split.
    - apply wp_ret, Hfin; [done|done|by rewrite Hcur1, decide_False]. }
  destruct (group_id pg) as [g|] eqn:Hgr; cbn [when_some].
  - destruct (Hg g eq_refl) as [Hlt Hin]. eapply unlink_available_spec; [done..|]. intros p1 pages1 Hc1 S1 Hk1 Hcur1. by eapply Hrest.
  - apply wp_ret. by eapply Hrest.
Qed.
