(* ===== verification/GcSlots.v ===== *)
(** * Managed heap: reserving and releasing slots

    The quiescent form of the storage invariant (every page is on the active list, the
    available lists hold exactly the pages with a free slot, no page is empty) and what
    [reserve], [release_slot] and edits of one page do to it. *)
From stdpp Require Import gmap fin_maps.
From S2P Require Import Prelude SlotBits GcBase GcTable GcPage GcColors GcDynamic GcHeap GcStorage.
Open Scope nat_scope.

Record storage (p : Physical) (pages : gmap Z Page) (l : list Z) (av : nat → list Z) : Prop := {
  sg_core : core p pages l av;
  sg_list : ∀ id, is_Some (pages !! id) → id ∈ l;
  sg_avail : ∀ id pg g, pages !! id = Some pg → group_id pg = Some g → id ∈ av g ↔ 0 < free pg;
  sg_used : ∀ id pg, pages !! id = Some pg → free pg < page_slots pg
}.

(** [pg'] is [pg] with slot states [o] and [u] and marks [m], links aside. *)
Record became (pg pg' : Page) (o u : nat → bool) (m : PageMarks) : Prop := {
  be_ok : page_ok pg'; be_marks : marks pg' = m; be_backing : backing pg' = backing pg; be_bytes : backing_bytes pg' = backing_bytes pg;
  be_group : group_id pg' = group_id pg; be_slots : page_slots pg' = page_slots pg; be_stride : page_stride pg' = page_stride pg;
  be_occ : ∀ s, occ pg' s = o s; be_pending : ∀ s, pending_slot pg' s = u s
}.
Lemma became_restated pg pg' o u : restated pg pg' o u → became pg pg' o u (marks pg').
Proof. intros []. by split. Qed.
Lemma became_kin pg pg1 pg2 o u m : became pg pg1 o u m → kin pg1 pg2 → became pg pg2 o u m.
Proof. intros [] []. split; auto; try congruence; intros s; congruence. Qed.
Lemma kin_became pg0 pg pg' o u m : kin pg0 pg → became pg pg' o u m → became pg0 pg' o u m.
Proof. intros [] []. split; auto; congruence. Qed.

(** [pages'] is [pages] with [pg'] at [id], links aside. *)
Definition changed (id : Z) (pg' : Page) (pages pages' : gmap Z Page) : Prop :=
  pages' !! id = Some pg' ∧ ∀ j, j ≠ id → option_Forall2 kin (pages !! j) (pages' !! j).
Lemma changed_insert id pg pages : changed id pg pages (<[id := pg]> pages).
Proof. split; [apply lookup_insert_eq|]. intros j Hj. rewrite lookup_insert_ne by done. apply similar_preorder. Qed.
Lemma changed_similar id pg1 pages pages1 pages2 : changed id pg1 pages pages1 → similar pages1 pages2 →
  ∃ pg2, changed id pg2 pages pages2 ∧ kin pg1 pg2.
Proof.
  intros [Hp Ho] Hs. destruct (similar_lookup _ _ _ _ Hs Hp) as (pg2 & Hp2 & Hk). exists pg2. split; [|done]. split; [done|].
  intros j Hj. specialize (Ho j Hj). specialize (Hs j). destruct (pages !! j), (pages1 !! j), (pages2 !! j); inversion Ho; inversion Hs; subst; constructor. by etrans.
Qed.
Lemma similar_changed id pg' pages0 pages pages' : similar pages0 pages → changed id pg' pages pages' → changed id pg' pages0 pages'.
Proof.
  intros Hs [Hp Ho]. split; [done|]. intros j Hj. specialize (Ho j Hj). specialize (Hs j).
  destruct (pages0 !! j), (pages !! j), (pages' !! j); inversion Ho; inversion Hs; subst; constructor. by etrans.
Qed.

Lemma page_group_bound pg g : page_ok pg → group_id pg = Some g → g < GROUPS.
Proof. intros Hok Hg. pose proof (pk_bits _ Hok) as Hb. unfold group_id in Hg. destruct (header pg); [|done]. injection Hg as <-. apply Hb. Qed.
Lemma free_of pg : page_ok pg → free pg = count (is_free pg) (page_slots pg).
Proof. apply pk_free. Qed.
Lemma free_ext pg pg' : page_ok pg → page_ok pg' → page_slots pg' = page_slots pg → (∀ s, is_free pg' s = is_free pg s) → free pg' = free pg.
Proof. intros H1 H2 Hs Hf. rewrite !free_of, Hs by done. by apply count_ext. Qed.

(** An edit of the slots or marks of one page. *)
Lemma core_restate p pages l av id pg pg' o u t : core p pages l av → pages !! id = Some pg → restated pg pg' o u →
  refines t (<[id := pg']> pages) → core (set_allocations t p) (<[id := pg']> pages) l av.
Proof.
  intros [] Hp Hre Ht. destruct (co_page id pg Hp) as (_ & Hnb & Hbb).
  assert (∀ x, active <$> <[id := pg']> pages !! x = active <$> pages !! x) as Hact.
  { intros x. destruct (decide (x = id)) as [->|]; [rewrite lookup_insert_eq, Hp; cbn; by rewrite (re_active _ _ _ _ Hre)|by rewrite lookup_insert_ne]. }
  assert (∀ x, <[id := pg']> pages !! x ≫= available = pages !! x ≫= available) as Hav.
  { intros x. destruct (decide (x = id)) as [->|]; [rewrite lookup_insert_eq, Hp; cbn; by rewrite (re_available _ _ _ _ Hre)|by rewrite lookup_insert_ne]. }
  split; try done.
  - intros j q. destruct (decide (j = id)) as [->|]; [rewrite lookup_insert_eq; intros [= <-]|rewrite lookup_insert_ne by done; apply co_page].
    rewrite (re_backing _ _ _ _ Hre), (re_bytes _ _ _ _ Hre). split; [apply Hre|done].
  - assert (∀ j q, <[id := pg']> pages !! j = Some q → ∃ q0, pages !! j = Some q0 ∧ backing q = backing q0) as Hback.
    { intros j q. destruct (decide (j = id)) as [->|]; [rewrite lookup_insert_eq; intros [= <-]; exists pg; split; [done|apply Hre]|rewrite lookup_insert_ne by done; eauto]. }
    intros i j q q' Hi Hj. destruct (Hback _ _ Hi) as (? & ? & ->), (Hback _ _ Hj) as (? & ? & ->). by eapply co_backing.
  - eapply linked_frame; [exact co_active|]. intros x _. apply Hact.
  - intros x Hx. destruct (decide (x = id)) as [->|]; [rewrite lookup_insert_eq; by eexists|rewrite lookup_insert_ne by done; by apply co_dom].
  - intros g Hg. eapply linked_frame; [by apply co_available|]. intros x _. apply Hav.
  - intros g x Hx. destruct (co_member g x Hx) as (Hg & q & Hq & Hgq). split; [done|].
    destruct (decide (x = id)) as [->|]; [rewrite lookup_insert_eq; exists pg'|rewrite lookup_insert_ne by done; eauto].
    split; [done|]. rewrite (re_group _ _ _ _ Hre). congruence.
  - cbn. rewrite co_bytes. symmetry. eapply total_bytes_replace; [done|apply Hre].
Qed.

Lemma storage_restate p pages l av id pg pg' o u t : storage p pages l av → pages !! id = Some pg → restated pg pg' o u → free pg' = free pg →
  refines t (<[id := pg']> pages) → storage (set_allocations t p) (<[id := pg']> pages) l av.
Proof.
  intros [] Hp Hre Hf Ht. split; [by eapply core_restate|..].
  - intros x. destruct (decide (x = id)) as [->|]; [intros _; apply sg_list0; by eexists|rewrite lookup_insert_ne by done; apply sg_list0].
  - intros x q g. destruct (decide (x = id)) as [->|]; [rewrite lookup_insert_eq; intros [= <-]|rewrite lookup_insert_ne by done; apply sg_avail0].
    rewrite Hf, (re_group _ _ _ _ Hre). by apply sg_avail0.
  - intros x q. destruct (decide (x = id)) as [->|]; [rewrite lookup_insert_eq; intros [= <-]|rewrite lookup_insert_ne by done; apply sg_used0].
    rewrite Hf, (re_slots _ _ _ _ Hre). by apply (sg_used0 id).
Qed.
Lemma wp_edit_page E p pages l av id pg pg' o u f Q : storage p pages l av → pages !! id = Some pg → f pg = Some pg' → restated pg pg' o u → free pg' = free pg →
  (∀ t, storage (set_allocations t p) (<[id := pg']> pages) l av → Q tt (set_allocations t p)) → wp E (page_edit id f) Q p.
Proof.
  intros Hs Hp Hf Hre Hfr HQ. eapply wp_page_edit; [apply Hs|done|done|]. intros t Ht. apply HQ. by eapply storage_restate.
Qed.

Lemma elem_of_upd_cons av g id g' j : j ∈ upd av g (id :: av g) g' ↔ j ∈ av g' ∨ (j = id ∧ Some g = Some g').
Proof. unfold upd. case_decide as E; subst; rewrite ?elem_of_cons; naive_solver. Qed.

(** ** Reserving *)
Record calm (p p' : Physical) : Prop := {
  cl_descriptors : descriptors p' = descriptors p; cl_objects : objects p' = objects p; cl_headers : headers p' = headers p;
  cl_payloads : payloads p' = payloads p; cl_cursor : cursor p' = cursor p
}.
#[export] Instance calm_preorder : PreOrder calm.
Proof. split; [by split|]. intros a b c [] []. split; congruence. Qed.
Lemma kept_calm p p' : kept p p' → cursor p' = cursor p → calm p p'.
Proof. intros [] ?. by split. Qed.

Definition fresh_page (b : Z) (pg : Page) : Prop :=
  page_ok pg ∧ backing pg = b ∧ marks pg = new_marks ∧ (∀ s, occ pg s = false) ∧ ∀ s, pending_slot pg s = false.
(** Either nothing changed, or a fresh page was added at [id]. *)
Definition extended (id : Z) (pg : Page) (p p' : Physical) (pages pages0 : gmap Z Page) (l l' : list Z) : Prop :=
  pages0 !! id = Some pg
  ∧ ((pages0 = pages ∧ l' = l ∧ next_block p' = next_block p)
     ∨ (pages !! id = None ∧ fresh_page (next_block p) pg ∧ pages0 = <[id := pg]> pages ∧ l' = id :: l ∧ next_block p' = (next_block p + 1)%Z)).

Lemma round_up_nonneg n a : (0 <= n)%Z → (0 < a)%Z → (0 <= round_up n a)%Z.
Proof. intros. unfold round_up. apply Z.mul_nonneg_nonneg; [apply Z.div_pos; lia|lia]. Qed.
Lemma layout_extend_nonneg a b r : layout_extend a b = Some r → (0 <= lsize a)%Z → (0 < lalign b)%Z → (0 <= lsize b)%Z → (0 <= lsize (fst r))%Z.
Proof.
  unfold layout_extend. destruct (_ <? _)%Z; [done|]. intros [= <-] Ha Hb Hc. cbn. pose proof (round_up_nonneg _ _ Ha Hb). lia.
Qed.
Lemma backing_layout_nonneg layout group size : backing_layout layout group = Some size → (0 <= lsize layout)%Z → (0 <= size)%Z.
Proof.
  unfold backing_layout. destruct group as [g|].
  - unfold trailer. destruct (layout_extend small_header_layout _) as [r1|] eqn:E1; [|done]. cbn [mbind option_bind].
    destruct (layout_extend (fst r1) page_marks_layout) as [r2|] eqn:E2; [|done]. cbn [mbind option_bind].
    destruct (layout_extend {| lsize := Z.of_nat SLAB_BYTES; lalign := _ |} _) as [r3|] eqn:E3; [|done]. cbn [mbind option_bind]. intros [= <-] _.
    eapply layout_extend_nonneg; [exact E3|cbn; lia|..].
    + unfold layout_extend in E2. destruct (_ <? _)%Z in E2; [done|]. injection E2 as <-. cbn. lia.
    + eapply layout_extend_nonneg; [exact E2|..|done|done]. eapply layout_extend_nonneg; [exact E1|done..|cbn; lia].
  - destruct (layout_extend _ _) as [r|] eqn:E; [|done]. cbn. intros [= <-] Hs. by eapply layout_extend_nonneg; [exact E|..].
Qed.

Definition limited (e : GcFailure) : Prop := ∃ reason, e = GcErr (GcLimit reason).

Lemma prepare_storage p pages l av t : storage p pages l av → refines t pages → storage (set_allocations t p) pages l av.
Proof. intros [[] ? ? ?] Ht. split; [|done..]. by split. Qed.

Definition kind_ok (d : Descriptor) : Prop := (∀ g, desc_group d = Some g → g < GROUPS) ∧ (0 <= lsize (desc_layout d))%Z.

Lemma storage_fresh p pages l av id : storage p pages l av → pages !! id = None → id ∉ l ∧ ∀ g, id ∉ av g.
Proof.
  intros [[] ? ? ?] Hn. split; [intros Hin; apply co_dom in Hin as [? ?]; congruence|].
  intros g Hin. destruct (co_member g id Hin) as (_ & q & Hq & _). congruence.
Qed.

(** What [reserve_page] hands to [reserve]. *)
Record sourced (d : Descriptor) (p p' : Physical) (pages : gmap Z Page) (l : list Z) (id : Z) (pg : Page) (pages' : gmap Z Page) (l' : list Z) (av' : nat → list Z) : Prop := {
  so_core : core p' pages' l' av'; so_list : ∀ j, is_Some (pages' !! j) → j ∈ l';
  so_avail : ∀ j q g, pages' !! j = Some q → group_id q = Some g → j ∈ av' g ↔ 0 < free q;
  so_used : ∀ j q, j ≠ id → pages' !! j = Some q → free q < page_slots q;
  so_page : pages' !! id = Some pg; so_free : 0 < free pg; so_group : group_id pg = desc_group d;
  so_calm : calm p p'; so_extended : ∃ pages0 pg0, extended id pg0 p p' pages pages0 l l' ∧ kin pg0 pg ∧ similar pages0 pages'
}.

Lemma new_page_fresh d p size : kind_ok d →
  let pg := match desc_group d with Some group => new_small group (next_block p) size | None => new_large (next_block p) size end in
  fresh_page (next_block p) pg ∧ group_id pg = desc_group d ∧ free pg = page_slots pg ∧ backing_bytes pg = size.
Proof.
  intros [Hg _]. cbn zeta. destruct (desc_group d) as [g|].
  - destruct (new_small_ok g (next_block p) size (Hg g eq_refl)) as [Hok Hf]. split; [|done]. split; [done|]. split; [done|]. split; [done|].
    split; intros s; [apply new_small_occ|apply new_small_pending].
  - destruct (new_large_ok (next_block p) size) as [Hok Hf]. split; [|done]. split; [done|]. split; [done|]. split; [done|]. split; intros s; apply new_large_occ.
Qed.

Lemma reserve_page_spec (E : GcFailure → Physical → Prop) d limit p pages l av (Q : Z → Physical → Prop) : storage p pages l av → kind_ok d →
  (∀ e p', limited e → storage p' pages l av → calm p p' → next_block p' = next_block p → E e p') →
  (∀ p' pages' l' av' id pg, sourced d p p' pages l id pg pages' l' av' → Q id p') → wp E (reserve_page d limit) Q p.
Proof.
  intros Hs Hd HE HQ. pose proof Hs as [Hc Hlist Havl Hused]. unfold reserve_page. apply wp_bind.
  assert (∀ p1, p1 = p → wp E (
      let! id := table_prepare allocations set_allocations in let! p0 := read in
      let! size := ok_or_fail (backing_layout (desc_layout d) (desc_group d)) (GcLimit "page trailer layout") in
      let new_bytes := (bytes p0 + size)%Z in
      if (u64_max <? new_bytes)%Z || (limit <? new_bytes)%Z then fail (GcLimit "backing bytes")
      else
        let pg := match desc_group d with Some group => new_small group (next_block p0) size | None => new_large (next_block p0) size end in
        table_insert allocations set_allocations id pg ;;!
        modify (λ p, set_next_block (next_block p + 1) (set_bytes new_bytes p)) ;;!
        link_active id ;;! when_some (desc_group d) (link_available id) ;;! ret id) Q p1) as Hnew.
  { intros p1 ->. apply wp_bind. unfold wp at 1. unfold table_prepare. pose proof (refines_prepare _ _ (co_refines _ _ _ _ Hc)) as Hp.
    destruct (prepare (allocations p)) as [[id|e] t1].
    2: { destruct Hp as (-> & -> & _). apply HE; [by eexists|by apply prepare_storage; [|apply Hc]|by split|done]. }
    destruct Hp as (Ht1 & Hfree & _ & _ & Hready). set (p1 := set_allocations t1 p).
    assert (storage p1 pages l av) as Hs1 by (by apply prepare_storage). apply wp_bind, wp_read, wp_bind.
    destruct (backing_layout _ _) as [size|] eqn:Hsize; [|apply wp_fail, HE; [by eexists|done|by split|done]].
    pose proof (backing_layout_nonneg _ _ _ Hsize (proj2 Hd)) as Hnn. apply wp_ret. cbn zeta.
    destruct (_ || _); [apply wp_fail, HE; [by eexists|done|by split|done]|].
    pose proof (new_page_fresh d p1 size Hd) as Hpg. cbn zeta in Hpg. set (pg := match desc_group d with Some _ => _ | None => _ end) in *.
    destruct Hpg as (Hfresh & Hgr & Hfr & Hby). clearbody pg.
    destruct (refines_insert t1 pages id pg Ht1 Hready) as (_ & t2 & Hins & Ht2).
    apply wp_bind. unfold wp at 1. unfold table_insert. change (allocations p1) with t1. rewrite Hins.
    apply wp_bind, wp_modify. destruct (storage_fresh _ _ _ _ id Hs1 Hfree) as [Hnl Hna].
    assert (core (set_next_block (next_block p1 + 1) (set_bytes (bytes p1 + size) (set_allocations t2 p1))) (<[id := pg]> pages) l av) as Hc2.
    { eapply (core_insert p1); [apply Hs1|done|apply Hfresh|apply Hfresh|lia|exact Ht2|done|done|cbn; by rewrite Hby|done|done]. }
    apply wp_bind. eapply link_active_spec; [exact Hc2|rewrite lookup_insert_eq; by eexists|done|].
    intros p3 pages3 Hc3 S3 Hk3 Hcur3. destruct (similar_lookup _ _ id pg S3) as (pg3 & Hpg3 & K3); [apply lookup_insert_eq|]. apply wp_bind.
    assert (∀ p4 pages4 av4, core p4 pages4 (id :: l) av4 → similar pages3 pages4 → kept p3 p4 → cursor p4 = cursor p3 →
      (∀ j g, j ∈ av4 g ↔ j ∈ av g ∨ (j = id ∧ desc_group d = Some g)) → Q id p4) as Hdone.
    { intros p4 pages4 av4 Hc4 S4 Hk4 Hcur4 Hav4. assert (similar (<[id := pg]> pages) pages4) as S by (by etrans).
      destruct (similar_lookup _ _ id pg S) as (pg4 & Hpg4 & K4); [apply lookup_insert_eq|].
      assert (page_slots pg ≠ 0) as Hpos by (pose proof (page_slots_bound pg (proj1 Hfresh)); lia).
      apply (HQ p4 pages4 (id :: l) av4 id pg4). split; [done|..|done| | | |].
      - intros j Hj. apply (similar_is_Some _ _ _ S) in Hj. destruct (decide (j = id)) as [->|]; [left|right; apply Hlist]. by rewrite lookup_insert_ne in Hj.
      - intros j q g Hq Hgq. rewrite Hav4. destruct (similar_lookup_r _ _ _ _ S Hq) as (q0 & Hq0 & Kq). rewrite (kin_group _ _ Kq) in Hgq. rewrite (kin_free _ _ Kq).
        destruct (decide (j = id)) as [->|]; [rewrite lookup_insert_eq in Hq0; injection Hq0 as <-|rewrite lookup_insert_ne in Hq0 by done].
        + rewrite Hgr in Hgq. split; [lia|]. intros _. by right.
        + rewrite (Havl j q0 g Hq0 Hgq). naive_solver.
      - intros j q Hj Hq. destruct (similar_lookup_r _ _ _ _ S Hq) as (q0 & Hq0 & Kq). rewrite lookup_insert_ne in Hq0 by done.
        rewrite (kin_free _ _ Kq), (kin_slots _ _ Kq). by eapply Hused.
      - rewrite (kin_free _ _ K4). lia.
      - by rewrite (kin_group _ _ K4).
      - etrans; [|by apply kept_calm]. etrans; [|by apply kept_calm]. by split.
      - exists (<[id := pg]> pages), pg. split; [|done]. split; [apply lookup_insert_eq|]. right. split_and!; [done|done|done|done|].
        rewrite (kp_next_block _ _ Hk4), (kp_next_block _ _ Hk3). done. }
    destruct (desc_group d) as [g|] eqn:Eg; cbn [when_some].
    - eapply link_available_spec; [exact Hc3|exact Hpg3|by rewrite (kin_group _ _ K3), Hgr|by apply Hd|apply Hna|].
      intros p4 pages4 Hc4 S4 Hk4 Hcur4. apply wp_ret. eapply Hdone; [done..|]. intros j g'. apply elem_of_upd_cons.
    - apply wp_ret, wp_ret. eapply Hdone; [exact Hc3|done|done|done|]. naive_solver. }
  assert (∀ id g, desc_group d = Some g → av g !! 0 = Some id → Q id p) as Hold.
  { intros id g Hg Hid. pose proof (list_elem_of_lookup_2 _ _ _ Hid) as Hin. destruct (co_member _ _ _ _ Hc g id Hin) as (Hlt & pg & Hp & Hgr).
    apply (HQ p pages l av id pg). split; [done|done|done| |done|by eapply Havl|congruence|done|].
    - intros j q _. apply Hused.
    - exists pages, pg. split; [|done]. split; [done|]. by left. }
  destruct (desc_group d) as [g|] eqn:Hg.
  - pose proof (proj1 Hd g Hg) as Hlt. unfold available_head. apply wp_bind, wp_read. eapply wp_or_panic; [by eapply head_lookup|].
    destruct (av g !! 0) as [id|] eqn:Hid; [apply wp_ret; by eapply Hold|by apply Hnew].
  - apply wp_ret. by apply Hnew.
Qed.

Record reserved_at (d : Descriptor) (p p' : Physical) (pages : gmap Z Page) (l : list Z) (r : Reservation)
    (pg0 pg : Page) (pages0 pages' : gmap Z Page) (l' : list Z) (av' : nat → list Z) : Prop := {
  ra_storage : storage p' pages' l' av'; ra_calm : calm p p';
  ra_extended : extended (res_page r) pg0 p p' pages pages0 l l';
  ra_changed : changed (res_page r) pg pages0 pages';
  ra_became : became pg0 pg (occ pg0) (flip_on (pending_slot pg0) (res_slot r)) (marks pg);
  ra_marks : clear_slot (marks pg0) (res_slot r) = Some (marks pg);
  ra_free : is_free pg0 (res_slot r) = true; ra_slot : res_slot r < page_slots pg0;
  ra_pointer : pointer pg (res_slot r) = Some (res_reference r); ra_group : group_id pg = desc_group d
}.

Lemma reserve_spec (E : GcFailure → Physical → Prop) d limit p pages l av (Q : Reservation → Physical → Prop) : storage p pages l av → kind_ok d →
  (∀ e p', limited e → storage p' pages l av → calm p p' → next_block p' = next_block p → E e p') →
  (∀ p' pages' l' av' r pg0 pg pages0, reserved_at d p p' pages l r pg0 pg pages0 pages' l' av' → Q r p') → wp E (reserve d limit) Q p.
Proof.
  intros Hs Hd HE HQ. unfold reserve. apply wp_bind. eapply reserve_page_spec; [done|done|done|].
  intros p1 pages1 l1 av1 id pg1 [Hc1 Hl1 Hav1 Hu1 Hpg1 Hf1 Hg1 Hcalm1 (pages0 & pg0 & Hext & K0 & S0)].
  destruct (co_page _ _ _ _ Hc1 id pg1 Hpg1) as (Hok1 & _). apply wp_bind. eapply wp_page; [apply Hc1|done|]. apply wp_bind.
  destruct (page_reserve_spec pg1 Hok1 Hf1) as (s & pg2 & Hres & Hs1 & Hfree & Hre & Hfr & Hcl). eapply wp_or_panic; [exact Hres|]. cbn [fst snd].
  apply wp_bind. eapply wp_page_edit; [apply Hc1|done|done|]. intros t2 Ht2. set (p2 := set_allocations t2 p1).
  assert (core p2 (<[id := pg2]> pages1) l1 av1) as Hc2 by (by eapply core_restate).
  apply wp_bind. eapply wp_page; [apply Hc2|apply lookup_insert_eq|]. apply wp_bind.
  assert (became pg0 pg2 (occ pg0) (flip_on (pending_slot pg0) s) (marks pg2)) as Hbe.
  { eapply kin_became; [exact K0|]. destruct (became_restated _ _ _ _ Hre) as [? ? ? ? ? ? ? Ho Hp]. split; try done.
    - intros x. by rewrite Ho, (kin_occ _ _ K0).
    - intros x. rewrite Hp. unfold flip_on. by rewrite (kin_pending _ _ K0). }
  assert (∀ p3 pages3 av3, storage p3 pages3 l1 av3 → similar (<[id := pg2]> pages1) pages3 → kept p2 p3 → cursor p3 = cursor p2 →
    wp E (let! pg := page id in let! reference := or_panic (pointer pg s) in ret {| res_reference := reference; res_page := id; res_slot := s |}) Q p3) as Hend.
  { intros p3 pages3 av3 Hs3 S3 Hk3 Hcur3. destruct (changed_similar id pg2 pages0 (<[id := pg2]> pages1) pages3) as (pg3 & Hch & K3); [|done|].
    { eapply similar_changed; [exact S0|apply changed_insert]. }
    apply wp_bind. eapply wp_page; [apply Hs3|apply Hch|]. assert (page_slots pg3 = page_slots pg1) as Hsl by (rewrite (kin_slots _ _ K3); apply Hre).
    apply wp_bind. eapply wp_or_panic; [apply pointer_spec; lia|]. apply wp_ret. apply (HQ p3 pages3 l1 av3 _ pg0 pg3 pages0). split; cbn [res_page res_slot res_reference].
    - done.
    - etrans; [exact Hcalm1|]. etrans; [|by apply kept_calm]. by split.
    - destruct Hext as [? Hor]. split; [done|]. destruct Hor as [(-> & -> & Hn)|(? & ? & ? & ? & Hn)]; [left|right]; split_and!; try done;
        rewrite (kp_next_block _ _ Hk3); done.
    - done.
    - rewrite (kin_marks _ _ K3). by eapply became_kin.
    - rewrite (kin_marks _ _ K3), <- Hcl. by rewrite (kin_marks _ _ K0).
    - rewrite <- Hfree. unfold is_free. by rewrite (kin_occ _ _ K0), (kin_pending _ _ K0).
    - by rewrite <- (kin_slots _ _ K0).
    - apply pointer_spec. lia.
    - rewrite (kin_group _ _ K3), (re_group _ _ _ _ Hre). done. }
  pose proof (page_slots_bound pg1 Hok1) as Hpos.
  assert (free pg1 ≤ page_slots pg1) as Hle by (rewrite free_of by done; unfold count; etrans; [apply length_filter|by rewrite length_seq]).
  assert (∀ j q, <[id := pg2]> pages1 !! j = Some q → free q < page_slots q) as Hu2.
  { intros j q. destruct (decide (j = id)) as [->|]; [rewrite lookup_insert_eq; intros [= <-]; rewrite (re_slots _ _ _ _ Hre); lia|rewrite lookup_insert_ne by done; by apply Hu1]. }
  assert (∀ j, is_Some (<[id := pg2]> pages1 !! j) → j ∈ l1) as Hl2.
  { intros j. destruct (decide (j = id)) as [->|]; [intros _; apply Hl1; by eexists|rewrite lookup_insert_ne by done; apply Hl1]. }
  destruct (Nat.eqb_spec (free pg2) 0) as [Hz|Hnz].
  - rewrite <- Hg1. destruct (group_id pg1) as [g|] eqn:Eg; cbn [when_some].
    + assert (id ∈ av1 g) as Hin by (by apply (Hav1 id pg1)). eapply unlink_available_spec; [exact Hc2|by eapply page_group_bound|done|].
      intros p3 pages3 Hc3 S3 Hk3 Hcur3. eapply Hend; [|exact S3|done|done]. split; [exact Hc3|..].
      * intros j Hj. apply Hl2. by rewrite (similar_is_Some _ _ _ S3) in Hj.
      * intros j q g' Hq Hgq. destruct (similar_lookup_r _ _ _ _ S3 Hq) as (q0 & Hq0 & Kq). rewrite (kin_group _ _ Kq) in Hgq. rewrite (kin_free _ _ Kq).
        destruct (decide (j = id)) as [->|Hne].
        -- rewrite lookup_insert_eq in Hq0. injection Hq0 as <-. rewrite Hz. split; [|lia]. unfold upd. case_decide as Ed; [by intros [? _]%elem_of_without|].
           rewrite (re_group _ _ _ _ Hre), Eg in Hgq. congruence.
        -- rewrite lookup_insert_ne in Hq0 by done. rewrite <- (Hav1 j q0 g' Hq0 Hgq). unfold upd. case_decide as Ed; [|done]. subst. rewrite elem_of_without. naive_solver.
      * intros j q Hq. destruct (similar_lookup_r _ _ _ _ S3 Hq) as (q0 & Hq0 & Kq). rewrite (kin_free _ _ Kq), (kin_slots _ _ Kq). by eapply Hu2.
    + apply wp_ret. eapply (Hend p2); [|reflexivity|done|done]. split; [exact Hc2|done| |done]. intros j q g'.
      destruct (decide (j = id)) as [->|]; [rewrite lookup_insert_eq; intros [= <-]; rewrite (re_group _ _ _ _ Hre); congruence|rewrite lookup_insert_ne by done; by apply Hav1].
  - apply wp_ret. eapply (Hend p2); [|reflexivity|done|done]. split; [exact Hc2|done| |done]. intros j q g'.
    destruct (decide (j = id)) as [->|]; [rewrite lookup_insert_eq; intros [= <-]; rewrite (re_group _ _ _ _ Hre)|rewrite lookup_insert_ne by done; by apply Hav1].
    intros Hgq. rewrite (Hav1 id pg1 g' Hpg1 Hgq). lia.
Qed.

(** ** Releasing *)
Lemma release_slot_spec E p pages l av id pg slot Q : storage p pages l av → pages !! id = Some pg → pending_slot pg slot = true →
  (∀ p' pages' av' pg', storage p' pages' l av' → changed id pg' pages pages' →
     became pg pg' (occ pg) (flip_off (pending_slot pg) slot) (marks pg) → kept p p' → cursor p' = cursor p → Q tt p') →
  (∀ p' pages' av' i, storage p' pages' (without l id) av' → l !! i = Some id → pages' !! id = None →
     (∀ j, j ≠ id → option_Forall2 kin (pages !! j) (pages' !! j)) → (∀ s, occ pg s = false) → (∀ s, pending_slot pg s = true → s = slot) →
     kept p p' → cursor p' = (if decide (cursor_page (cursor p) = Some id) then {| cursor_page := l !! S i; cursor_slot := 0 |} else cursor p) → Q tt p') →
  wp E (release_slot id slot) Q p.
Proof.
  intros Hs Hp Hpend Hstay Hgone. pose proof Hs as [Hc Hlist Havl Hused]. destruct (co_page _ _ _ _ Hc id pg Hp) as (Hok & _).
  unfold release_slot. apply wp_bind. eapply wp_page; [apply Hc|done|]. cbn zeta. apply wp_bind.
  destruct (page_release_spec pg slot Hok Hpend) as (pg2 & Hrel & Hre & Hfr & Hmk). eapply wp_page_edit; [apply Hc|done|exact Hrel|]. intros t2 Ht2.
  set (p2 := set_allocations t2 p). assert (core p2 (<[id := pg2]> pages) l av) as Hc2 by (by eapply core_restate).
  apply wp_bind. eapply wp_page; [apply Hc2|apply lookup_insert_eq|]. apply wp_bind.
  assert (∀ p3 pages3 av3, core p3 pages3 l av3 → similar (<[id := pg2]> pages) pages3 → kept p2 p3 → cursor p3 = cursor p2 →
    (∀ j g, j ∈ av3 g ↔ (j ∈ av g ∨ (j = id ∧ group_id pg = Some g))) →
    wp E (let! pg0 := page id in if free pg0 =? page_slots pg0 then remove_page id else ret ()) Q p3) as Hend.
  { intros p3 pages3 av3 Hc3 S3 Hk3 Hcur3 Hav3. destruct (changed_similar id pg2 pages (<[id := pg2]> pages) pages3 (changed_insert _ _ _) S3) as (pg3 & Hch & K3).
    assert (kept p p3) as Hk by (etrans; [|exact Hk3]; by split). apply wp_bind. eapply wp_page; [apply Hc3|apply Hch|].
    assert (page_ok pg3) as Hok3 by (apply K3, Hre). rewrite (kin_free _ _ K3), (kin_slots _ _ K3), (re_slots _ _ _ _ Hre).
    assert (∀ j q g, j ≠ id → pages3 !! j = Some q → group_id q = Some g → j ∈ av3 g ↔ 0 < free q) as Hoth.
    { intros j q g Hj Hq Hgq. destruct (similar_lookup_r _ _ _ _ S3 Hq) as (q0 & Hq0 & Kq). rewrite lookup_insert_ne in Hq0 by done.
      rewrite (kin_group _ _ Kq) in Hgq. rewrite (kin_free _ _ Kq), <- (Havl j q0 g Hq0 Hgq), Hav3. naive_solver. }
    assert (∀ j q, j ≠ id → pages3 !! j = Some q → free q < page_slots q) as Huse.
    { intros j q Hj Hq. destruct (similar_lookup_r _ _ _ _ S3 Hq) as (q0 & Hq0 & Kq). rewrite lookup_insert_ne in Hq0 by done.
      rewrite (kin_free _ _ Kq), (kin_slots _ _ Kq). by eapply Hused. }
    assert (∀ j, is_Some (pages3 !! j) → j ∈ l) as Hls.
    { intros j Hj. rewrite (similar_is_Some _ _ _ S3) in Hj. apply Hlist. destruct (decide (j = id)) as [->|]; [by eexists|by rewrite lookup_insert_ne in Hj]. }
    destruct (Nat.eqb_spec (free pg2) (page_slots pg)) as [Hall|Hnall].
    - assert (id ∈ l) as [i Hi]%list_elem_of_lookup_1 by (apply Hlist; by eexists).
      eapply (remove_page_spec E p3 pages3 l av3 id i pg3); [done|done|apply Hch|..].
      + intros g Hg. split; [by eapply page_group_bound|]. apply Hav3. right. split; [done|]. by rewrite (kin_group _ _ K3), (re_group _ _ _ _ Hre) in Hg.
      + intros p4 pages4 Hc4 S4 Hk4 Hcur4. apply (Hgone p4 (delete id pages4) (dropped av3 (group_id pg3) id) i); [|done|apply lookup_delete_eq|..].
        * split; [done|..].
          -- intros j [q [Hne Hq]%lookup_delete_Some]. apply elem_of_without. split; [done|]. apply Hls. rewrite <- (similar_is_Some _ _ _ S4). by eexists.
          -- intros j q g [Hne Hq]%lookup_delete_Some Hgq. destruct (similar_lookup_r _ _ _ _ S4 Hq) as (q0 & Hq0 & Kq). rewrite (kin_group _ _ Kq) in Hgq.
             rewrite elem_of_dropped, (kin_free _ _ Kq), (Hoth j q0 g) by done. naive_solver.
          -- intros j q [Hne Hq]%lookup_delete_Some. destruct (similar_lookup_r _ _ _ _ S4 Hq) as (q0 & Hq0 & Kq). rewrite (kin_free _ _ Kq), (kin_slots _ _ Kq). by eapply Huse.
        * intros j Hj. rewrite lookup_delete_ne by done. pose proof (proj2 Hch j Hj) as H1. specialize (S4 j).
          destruct (pages !! j), (pages3 !! j), (pages4 !! j); inversion H1; inversion S4; subst; constructor. by etrans.
        * intros s. rewrite <- (re_slots _ _ _ _ Hre), free_of in Hall by apply Hre. rewrite count_full in Hall.
          destruct (occ pg s) eqn:Eo; [|done]. pose proof (occ_bound _ _ Eo) as Hb. rewrite <- (re_slots _ _ _ _ Hre) in Hb. specialize (Hall s Hb).
          unfold is_free in Hall. by rewrite (re_occ _ _ _ _ Hre), Eo in Hall.
        * intros s Hps. rewrite <- (re_slots _ _ _ _ Hre), free_of in Hall by apply Hre. rewrite count_full in Hall.
          pose proof (pending_bound _ _ Hps) as Hb. rewrite <- (re_slots _ _ _ _ Hre) in Hb. specialize (Hall s Hb). unfold is_free in Hall.
          rewrite (re_pending _ _ _ _ Hre) in Hall. unfold flip_off in Hall. rewrite Hps in Hall. destruct (Nat.eqb_spec s slot); [done|]. by rewrite andb_false_r in Hall.
        * by etrans.
        * rewrite Hcur4, Hcur3. done.
    - apply wp_ret. apply (Hstay p3 pages3 av3 pg3); [|done|..|done|by rewrite Hcur3].
      + split; [done|done|..].
        * intros j q g Hq Hgq. destruct (decide (j = id)) as [->|]; [|by eapply Hoth]. rewrite (proj1 Hch) in Hq. injection Hq as <-.
          rewrite (kin_group _ _ K3), (re_group _ _ _ _ Hre) in Hgq. rewrite Hav3, (kin_free _ _ K3), Hfr. split; [lia|]. intros _. by right.
        * intros j q Hq. destruct (decide (j = id)) as [->|]; [|by eapply Huse]. rewrite (proj1 Hch) in Hq. injection Hq as <-.
          rewrite (kin_free _ _ K3), (kin_slots _ _ K3), (re_slots _ _ _ _ Hre). pose proof (Hused id pg Hp). lia.
      + eapply became_kin; [|exact K3]. rewrite <- Hmk. by apply became_restated. }
  destruct (Nat.eqb_spec (free pg) 0) as [Hz|Hnz].
  - rewrite (re_group _ _ _ _ Hre). destruct (group_id pg) as [g|] eqn:Hg; cbn [when_some].
    + eapply link_available_spec; [exact Hc2|apply lookup_insert_eq|by rewrite (re_group _ _ _ _ Hre)|by eapply page_group_bound|..].
      * rewrite (Havl id pg g Hp Hg). lia.
      * intros p3 pages3 Hc3 S3 Hk3 Hcur3. eapply Hend; [exact Hc3|done|done|done|]. intros j g'. apply elem_of_upd_cons.
    + apply wp_ret. eapply Hend; [exact Hc2|done|done|done|]. naive_solver.
  - apply wp_ret. eapply Hend; [exact Hc2|done|done|done|]. intros j g. split; [by left|]. intros [?|[-> Hg]]; [done|]. apply (Havl id pg g Hp Hg). lia.
Qed.
