(* ===== verification/GcRoots.v ===== *)
(** * Managed heap: root registrations

    Models [Roots] of [kagari-gc/src/root.rs]: generational registrations with a lease
    each, fixed-size packs of targets, and the port through which the last drop of a
    lease announces its release.  The strong count of a lease is kept with the entry
    that holds its weak reference; a generation belongs to one lease. *)
From stdpp Require Import gmap fin_maps.
From S2P Require Import Prelude SlotBits GcBase GcTable GcPage GcHeap.
Open Scope nat_scope.

Record RootId : Set := { root_heap : Z; root_slot : Z; root_generation : Z }.
#[export] Instance RootId_eq_dec : EqDecision RootId.
Proof. solve_decision. Defined.
Record RootEntry : Set := { active_index : nat; strong : nat; targets : list (option ObjectRef); typed : bool }.
Record RootSlot : Set := { generation : Z; entry : RootEntry }.
Record ReleasePort : Set := { connected : bool; credits : Z; port_pending : list RootId; port_capacity : Z }.
Record Roots : Type := {
  roots_heap : Z; root_slots : Table RootSlot; root_active : list Z; serial : Z; port : ReleasePort; root_count : Z
}.
Record PreparedRoot : Set := { prepared_lease : RootId; prepared_entry : RootEntry }.

Definition new_port : ReleasePort := {| connected := true; credits := 0; port_pending := []; port_capacity := 0 |}.
Definition roots_new (heap : Z) : Roots :=
  {| roots_heap := heap; root_slots := empty_table; root_active := []; serial := 0; port := new_port; root_count := 0 |}.

Definition set_root_slots (t : Table RootSlot) (r : Roots) : Roots :=
  {| roots_heap := roots_heap r; root_slots := t; root_active := root_active r; serial := serial r; port := port r; root_count := root_count r |}.
Definition set_root_active (l : list Z) (r : Roots) : Roots :=
  {| roots_heap := roots_heap r; root_slots := root_slots r; root_active := l; serial := serial r; port := port r; root_count := root_count r |}.
Definition set_serial (n : Z) (r : Roots) : Roots :=
  {| roots_heap := roots_heap r; root_slots := root_slots r; root_active := root_active r; serial := n; port := port r; root_count := root_count r |}.
Definition set_port (q : ReleasePort) (r : Roots) : Roots :=
  {| roots_heap := roots_heap r; root_slots := root_slots r; root_active := root_active r; serial := serial r; port := q; root_count := root_count r |}.
Definition set_root_count (n : Z) (r : Roots) : Roots :=
  {| roots_heap := roots_heap r; root_slots := root_slots r; root_active := root_active r; serial := serial r; port := port r; root_count := n |}.
Definition with_entry (f : RootEntry → RootEntry) (s : RootSlot) : RootSlot := {| generation := generation s; entry := f (entry s) |}.
Definition set_strong (n : nat) (e : RootEntry) : RootEntry :=
  {| active_index := active_index e; strong := n; targets := targets e; typed := typed e |}.
Definition set_index (i : nat) (e : RootEntry) : RootEntry :=
  {| active_index := i; strong := strong e; targets := targets e; typed := typed e |}.
Definition set_target (i : nat) (x : option ObjectRef) (e : RootEntry) : RootEntry :=
  {| active_index := active_index e; strong := strong e; targets := <[i := x]> (targets e); typed := typed e |}.

(** [VecDeque::try_reserve] and [shrink_to], with the least capacity they guarantee. *)
Definition reserve_capacity (capacity len additional : Z) : Z := Z.max capacity (len + additional).
Definition shrink_to (capacity len target : Z) : Z := Z.min capacity (Z.max len target).

Definition roots_prepare (count : nat) (is_typed : bool) (limit : Z) : M Roots PreparedRoot :=
  let! r := read in
  if (limit <=? root_count r)%Z then fail (GcLimit "root registrations")
  else
    let! slot := table_prepare root_slots set_root_slots in
    let! r := read in
    if (u64_max <? serial r + 1)%Z then fail (GcLimit "root generation")
    else
      let generation := (serial r + 1)%Z in
      modify (set_serial generation) ;;!
      let q := port r in
      if (u64_max <? credits q + 1)%Z then fail (GcLimit "release credits")
      else
        let len := Z.of_nat (length (port_pending q)) in
        let extra := Z.max 0 (credits q + 1 - len) in
        modify (set_port {| connected := connected q; credits := credits q; port_pending := port_pending q;
                            port_capacity := reserve_capacity (port_capacity q) len extra |}) ;;!
        ret {| prepared_lease := {| root_heap := roots_heap r; root_slot := slot; root_generation := generation |};
               prepared_entry := {| active_index := length (root_active r); strong := 1; targets := replicate count None; typed := is_typed |} |}.

Definition roots_commit (prepared : PreparedRoot) (target : option ObjectRef) : M Roots RootId :=
  let e := set_target 0 target (prepared_entry prepared) in
  let id := prepared_lease prepared in
  modify (λ r, set_root_active (root_active r ++ [root_slot id]) r) ;;!
  table_insert root_slots set_root_slots (root_slot id) {| generation := root_generation id; entry := e |} ;;!
  modify (λ r, set_port {| connected := connected (port r); credits := credits (port r) + 1; port_pending := port_pending (port r);
                           port_capacity := port_capacity (port r) |} (set_root_count (root_count r + 1) r)) ;;!
  ret id.

Definition admit_lease (r : Roots) (lease : RootId) : result RootEntry GcError :=
  if negb (root_heap lease =? roots_heap r)%Z then Err ForeignHeap
  else match get (root_slots r) (root_slot lease) with
       | Some s => if (generation s =? root_generation lease)%Z then Ok (entry s) else Err InvalidRoot
       | None => Err InvalidRoot
       end.
(** [target::<AnyObject>]; [Err None] is the out-of-range index of [targets[0]]. *)
Definition root_target (r : Roots) (lease : RootId) : result ObjectRef GcFailure :=
  match admit_lease r lease with
  | Err e => Err (GcErr e)
  | Ok e =>
      if negb (typed e) then Err (GcErr Representation)
      else match targets e !! 0 with
           | None => Err GcPanic
           | Some None => Err (GcErr InvalidRoot)
           | Some (Some target) => Ok target
           end
  end.
(** The admission of [replace_with], and its final write. *)
Definition replace_admit (r : Roots) (lease : RootId) (index : nat) : result unit GcError :=
  match admit_lease r lease with
  | Err e => Err e
  | Ok e => if typed e || (length (targets e) <=? index) then Err IndexOutside else Ok tt
  end.
Definition replace_write (lease : RootId) (index : nat) (target : option ObjectRef) : M Roots unit :=
  let! r := read in
  match get (root_slots r) (root_slot lease) with
  | None => panic
  | Some s =>
      if index <? length (targets (entry s))
      then write (set_root_slots (update (with_entry (set_target index target)) (root_slots r) (root_slot lease)) r)
      else panic
  end.

Definition release_one : M Roots (option RootEntry) :=
  let! r := read in
  match port_pending (port r) with
  | [] => ret None
  | id :: rest =>
      modify (set_port {| connected := connected (port r); credits := credits (port r); port_pending := rest; port_capacity := port_capacity (port r) |}) ;;!
      match remove (root_slots r) (root_slot id) with
      | None => panic
      | Some (s, t) =>
          modify (set_root_slots t) ;;!
          assert (generation s =? root_generation id)%Z ;;!
          let e := entry s in
          assert (strong e =? 0) ;;!
          let! swapped := or_panic (swap_remove (root_active r) (active_index e)) in
          modify (set_root_active (snd swapped)) ;;!
          (match snd swapped !! active_index e with
           | None => ret tt
           | Some moved =>
               let! r := read in
               match get (root_slots r) moved with
               | None => panic
               | Some _ => write (set_root_slots (update (with_entry (set_index (active_index e))) (root_slots r) moved) r)
               end
           end) ;;!
          let! r := read in
          if (root_count r =? 0)%Z || (credits (port r) =? 0)%Z then panic
          else
            modify (λ r, set_port {| connected := connected (port r); credits := credits (port r) - 1; port_pending := port_pending (port r);
                                     port_capacity := port_capacity (port r) |} (set_root_count (root_count r - 1) r)) ;;!
            ret (Some e)
      end
  end.

(** [Root::clone] and the drop of one handle, with [RootLease::drop] when it is the last. *)
Definition clone_lease (lease : RootId) (r : Roots) : Roots :=
  set_root_slots (update (with_entry (λ e, set_strong (S (strong e)) e)) (root_slots r) (root_slot lease)) r.
Definition drop_lease (lease : RootId) : M Roots unit :=
  let! r := read in
  match get (root_slots r) (root_slot lease) with
  | None => ret tt
  | Some s =>
      let n := strong (entry s) - 1 in
      write (set_root_slots (update (with_entry (set_strong n)) (root_slots r) (root_slot lease)) r) ;;!
      if negb (n =? 0) then ret tt
      else
        let q := port r in
        if connected q then
          assert (Z.of_nat (length (port_pending q)) <? port_capacity q)%Z ;;!
          modify (set_port {| connected := true; credits := credits q; port_pending := port_pending q ++ [lease]; port_capacity := port_capacity q |})
        else ret tt
  end.

Definition pending_releases (r : Roots) : nat := length (port_pending (port r)).
Definition roots_trim (r : Roots) : Roots :=
  let q := port r in
  let capacity :=
    match shrink_target (port_capacity q) (credits q) with
    | Some target => shrink_to (port_capacity q) (Z.of_nat (length (port_pending q))) target
    | None => port_capacity q
    end in
  set_port {| connected := connected q; credits := credits q; port_pending := port_pending q; port_capacity := capacity |}
    (set_root_slots (trim (root_slots r)) r).
Definition disconnect (r : Roots) : Roots :=
  set_port {| connected := false; credits := 0; port_pending := []; port_capacity := 0 |} r.
Definition roots_close (r : Roots) : Roots := set_root_count 0 (set_root_active [] (set_root_slots empty_table r)).
