(* ===== verification/GcRootsProps.v ===== *)
(** * Managed heap: the root registration invariant *)
From stdpp Require Import gmap fin_maps.
From S2P Require Import Prelude SlotBits GcBase GcTable GcPage GcHeap GcRoots.
Open Scope nat_scope.

Record roots_ok (r : Roots) (rm : gmap Z RootSlot) : Prop := {
  ro_refines : refines (root_slots r) rm;
  ro_active : ∀ i s, root_active r !! i = Some s ↔ ∃ e, rm !! s = Some e ∧ active_index (entry e) = i;
  ro_count : root_count r = Z.of_nat (length (root_active r)) ∧ credits (port r) = root_count r;
  ro_nodup : NoDup (port_pending (port r));
  ro_pending : ∀ id, id ∈ port_pending (port r) ↔
    root_heap id = roots_heap r ∧ ∃ e, rm !! root_slot id = Some e ∧ generation e = root_generation id ∧ strong (entry e) = 0;
  ro_capacity : (credits (port r) <= port_capacity (port r))%Z;
  ro_connected : connected (port r) = true
}.
(** A handle that keeps its registration alive. *)
Definition leased (r : Roots) (rm : gmap Z RootSlot) (lease : RootId) (s : RootSlot) : Prop :=
  root_heap lease = roots_heap r ∧ rm !! root_slot lease = Some s ∧ generation s = root_generation lease ∧ 0 < strong (entry s).

Lemma roots_new_ok heap : roots_ok (roots_new heap) ∅.
Proof.
  split; cbn; try done; [apply refines_empty| | |].
  - intros i s. rewrite lookup_nil. split; [done|]. intros (e & He & _). by rewrite lookup_empty in He.
  - constructor.
  - intros id. rewrite elem_of_nil. split; [done|]. intros (_ & e & He & _). by rewrite lookup_empty in He.
Qed.

Lemma root_get r rm s e : roots_ok r rm → rm !! s = Some e → get (root_slots r) s = Some e.
Proof. intros Hr He. rewrite (rf_get _ _ (ro_refines _ _ Hr)); [done|]. apply (rf_dom _ _ (ro_refines _ _ Hr)). by eexists. Qed.
Lemma active_nodup r rm : roots_ok r rm → NoDup (root_active r).
Proof.
  intros Hr. apply list.NoDup_alt. intros i j x Hi Hj. apply (ro_active _ _ Hr) in Hi as (e & He & <-), Hj as (e' & He' & <-). congruence.
Qed.
Lemma admit_spec r rm lease s : roots_ok r rm → leased r rm lease s → admit_lease r lease = Ok (entry s).
Proof.
  intros Hr (Hh & Hs & Hg & _). unfold admit_lease. rewrite Hh, Z.eqb_refl, (root_get _ _ _ _ Hr Hs), Hg, Z.eqb_refl. done.
Qed.

Lemma swap_remove_spec {A} (l : list A) i x : l !! i = Some x →
  ∃ l', swap_remove l i = Some (x, l') ∧ S (length l') = length l
    ∧ ∀ j, l' !! j = if decide (S j < length l) then (if decide (j = i) then l !! (length l - 1) else l !! j) else None.
Proof.
  intros Hi. pose proof (lookup_lt_Some _ _ _ Hi) as Hlt. unfold swap_remove. rewrite Hi.
  destruct (lookup_lt_is_Some_2 l (length l - 1)) as [y Hy]; [lia|]. rewrite Hy. eexists. split; [done|].
  rewrite length_take, length_insert. split; [lia|]. intros j. case_decide as Hj.
  - rewrite lookup_take by lia. rewrite decide_True by lia. case_decide as Ej; [subst; by rewrite list_lookup_insert_eq by lia|by rewrite list_lookup_insert_ne].
  - apply lookup_ge_None. rewrite length_take, length_insert. lia.
Qed.

(** ** Registration *)
Record prepared_ok (r : Roots) (rm : gmap Z RootSlot) (count : nat) (is_typed : bool) (prep : PreparedRoot) : Prop := {
  pp_roots : roots_ok r rm;
  pp_ready : ready (root_slots r) (root_slot (prepared_lease prep));
  pp_heap : root_heap (prepared_lease prep) = roots_heap r;
  pp_capacity : (credits (port r) + 1 <= port_capacity (port r))%Z;
  pp_entry : prepared_entry prep = {| active_index := length (root_active r); strong := 1; targets := replicate count None; typed := is_typed |}
}.

Lemma prepare_spec_roots (E : GcFailure → Roots → Prop) r rm count is_typed limit (Q : PreparedRoot → Roots → Prop) : roots_ok r rm →
  (∀ e r', (∃ why, e = GcErr (GcLimit why)) → roots_ok r' rm → roots_heap r' = roots_heap r → root_active r' = root_active r → port_pending (port r') = port_pending (port r) → E e r') →
  (∀ prep r', prepared_ok r' rm count is_typed prep → roots_heap r' = roots_heap r → root_active r' = root_active r → port_pending (port r') = port_pending (port r) → Q prep r') →
  wp E (roots_prepare count is_typed limit) Q r.
Proof.
  intros Hr HE HQ. unfold roots_prepare. apply wp_bind, wp_read. destruct (_ <=? _)%Z; [apply wp_fail, HE; eauto|].
  apply wp_bind. unfold wp at 1. unfold table_prepare. pose proof (refines_prepare _ _ (ro_refines _ _ Hr)) as Hp.
  assert (∀ t, refines t rm → roots_ok (set_root_slots t r) rm) as Hset by (intros t Ht; destruct Hr; by split).
  destruct (prepare (root_slots r)) as [[slot|e] t].
  2: { destruct Hp as (-> & -> & _). apply HE; [eauto|apply Hset, Hr|done..]. }
  destruct Hp as (Ht & Hfree & _ & _ & Hready). specialize (Hset t Ht). apply wp_bind, wp_read.
  destruct (_ <? _)%Z; [apply wp_fail, HE; eauto|]. apply wp_bind, wp_modify.
  set (r2 := set_serial (serial (set_root_slots t r) + 1) (set_root_slots t r)). assert (roots_ok r2 rm) as Hr2 by (destruct Hset; by split).
  cbn zeta. destruct (_ <? _)%Z; [apply wp_fail, HE; eauto|]. apply wp_bind, wp_modify, wp_ret, HQ; [|done..].
  set (cap := reserve_capacity _ _ _). assert (credits (port r) + 1 <= cap)%Z as Hcap by (unfold cap, reserve_capacity; cbn; lia).
  split; [|done|done|done|done]. destruct Hr2. split; try done. cbn in *. lia.
Qed.

Lemma commit_spec_roots E r rm count is_typed prep target (Q : RootId → Roots → Prop) : prepared_ok r rm count is_typed prep →
  let lease := prepared_lease prep in
  let s := {| generation := root_generation lease; entry := set_target 0 target (prepared_entry prep) |} in
  (∀ r', roots_ok r' (<[root_slot lease := s]> rm) → rm !! root_slot lease = None → leased r' (<[root_slot lease := s]> rm) lease s →
     roots_heap r' = roots_heap r → root_active r' = root_active r ++ [root_slot lease] → port_pending (port r') = port_pending (port r) → Q lease r') →
  wp E (roots_commit prep target) Q r.
Proof.
  intros [Hr Hready Hheap Hcap Hentry] lease s HQ. unfold roots_commit. fold lease. apply wp_bind, wp_modify, wp_bind.
  destruct (refines_insert _ _ (root_slot lease) s (ro_refines _ _ Hr) Hready) as (Hnone & t & Hins & Ht).
  unfold wp at 1. unfold table_insert. cbn [root_slots set_root_active]. fold s. rewrite Hins. apply wp_bind, wp_modify, wp_ret.
  apply HQ; [|done|split_and!; [done|by rewrite lookup_insert_eq|done|unfold s; rewrite Hentry; cbn; lia]|done|done|done].
  destruct Hr as [Hrf Hac [Hc1 Hc2] Hnd Hpe Hca Hco]. split; cbn [root_slots root_active root_count port credits port_pending port_capacity connected roots_heap set_port set_root_count set_root_slots set_root_active].
  - done.
  - intros i x. rewrite lookup_app. destruct (root_active r !! i) as [y|] eqn:Hi.
    + split.
      * intros [= <-]. apply Hac in Hi as (e & He & Hei). exists e. split; [|done]. rewrite lookup_insert_ne; [done|]. congruence.
      * intros (e & He & Hei). destruct (decide (x = root_slot lease)) as [->|].
        { rewrite lookup_insert_eq in He. injection He as <-. unfold s in Hei. rewrite Hentry in Hei. cbn in Hei. subst i. apply lookup_lt_Some in Hi. lia. }
        rewrite lookup_insert_ne in He by done. assert (root_active r !! i = Some x) by (apply Hac; eauto). congruence.
    + apply lookup_ge_None in Hi. split.
      * intros Hx. apply list_lookup_singleton_Some in Hx as [Hi0 <-]. exists s. rewrite lookup_insert_eq. split; [done|]. unfold s. rewrite Hentry. cbn. lia.
      * intros (e & He & Hei). destruct (decide (x = root_slot lease)) as [->|].
        { rewrite lookup_insert_eq in He. injection He as <-. unfold s in Hei. rewrite Hentry in Hei. cbn in Hei. subst i. by rewrite Nat.sub_diag. }
        rewrite lookup_insert_ne in He by done. assert (root_active r !! i = Some x) as Hl by (apply Hac; eauto). apply lookup_lt_Some in Hl. lia.
  - rewrite length_app. cbn. lia.
  - done.
  - intros id. rewrite Hpe. split; intros (Hh & e & He & Hg & Hs0); (split; [done|]).
    + exists e. rewrite lookup_insert_ne; [done|]. congruence.
    + destruct (decide (root_slot id = root_slot lease)) as [Eq|]; [|rewrite lookup_insert_ne in He by done; eauto].
      rewrite Eq, lookup_insert_eq in He. injection He as <-. unfold s in Hs0. by rewrite Hentry in Hs0.
  - lia.
  - done.
Qed.

(** ** Updates of one entry that keep its place and its death *)
Lemma update_root r rm s e f : roots_ok r rm → rm !! s = Some e →
  refines (update (with_entry f) (root_slots r) s) (<[s := with_entry f e]> rm).
Proof.
  intros Hr He. pose proof (refines_update _ _ s (with_entry f) (ro_refines _ _ Hr)) as Hu.
  replace (<[s := with_entry f e]> rm) with (alter (with_entry f) s rm).
  - apply Hu. apply (rf_dom _ _ (ro_refines _ _ Hr)). by eexists.
  - apply map_eq. intros j. destruct (decide (j = s)) as [->|]; [by rewrite lookup_alter_eq, lookup_insert_eq, He|by rewrite lookup_alter_ne, lookup_insert_ne].
Qed.
Lemma entry_update_ok r rm s e f : roots_ok r rm → rm !! s = Some e → active_index (f (entry e)) = active_index (entry e) →
  (strong (f (entry e)) = 0 ↔ strong (entry e) = 0) →
  roots_ok (set_root_slots (update (with_entry f) (root_slots r) s) r) (<[s := with_entry f e]> rm).
Proof.
  intros Hr He Hi Hz. pose proof (update_root r rm s e f Hr He) as Ht. destruct Hr as [Hrf Hac Hc Hnd Hpe Hca Hco].
  split; try done; cbn [root_active root_slots port set_root_slots roots_heap].
  - intros i x. rewrite Hac. destruct (decide (x = s)) as [->|]; [|by rewrite lookup_insert_ne]. rewrite lookup_insert_eq, He.
    split; [intros (? & [= <-] & <-)|intros (? & [= <-] & <-)]; eexists; (split; [done|]); cbn; congruence.
  - intros id. rewrite Hpe. destruct (decide (root_slot id = s)) as [Eq|]; [|by rewrite lookup_insert_ne]. rewrite Eq, lookup_insert_eq, He.
    split; intros (Hh & x & [= <-] & Hg & Hs0); (split; [done|]); eexists; (split; [done|]); (split; [done|]); by apply Hz.
Qed.
Lemma replace_write_spec E r rm lease s index target Q : roots_ok r rm → leased r rm lease s → index < length (targets (entry s)) →
  (∀ t, roots_ok (set_root_slots t r) (<[root_slot lease := with_entry (set_target index target) s]> rm) → Q tt (set_root_slots t r)) →
  wp E (replace_write lease index target) Q r.
Proof.
  intros Hr (Hh & Hs & Hg & Hst) Hi HQ. unfold replace_write. apply wp_bind, wp_read. rewrite (root_get _ _ _ _ Hr Hs).
  destruct (Nat.ltb_spec index (length (targets (entry s)))); [|lia]. apply wp_write, HQ. by apply entry_update_ok.
Qed.
Lemma clone_lease_ok r rm lease s : roots_ok r rm → leased r rm lease s →
  roots_ok (clone_lease lease r) (<[root_slot lease := with_entry (λ e, set_strong (S (strong e)) e) s]> rm).
Proof. intros Hr (Hh & Hs & Hg & Hst). unfold clone_lease. apply entry_update_ok; [done|done|done|]. cbn. lia. Qed.

Lemma registered_bound r rm (ids : list RootId) : roots_ok r rm → NoDup ids →
  (∀ id, id ∈ ids → root_heap id = roots_heap r ∧ ∃ e, rm !! root_slot id = Some e ∧ generation e = root_generation id) →
  (Z.of_nat (length ids) <= root_count r)%Z.
Proof.
  intros Hr Hnd Hids. destruct (ro_count _ _ Hr) as [-> _]. apply inj_le. rewrite <- (length_fmap root_slot). apply submseteq_length, NoDup_submseteq.
  - apply NoDup_fmap_2_strong; [|done]. intros [h1 s1 g1] [h2 s2 g2] H1 H2 Heq. cbn in Heq. subst.
    apply Hids in H1 as (E1 & e1 & L1 & G1), H2 as (E2 & e2 & L2 & G2). cbn in *. congruence.
  - intros s (id & -> & Hid)%list_elem_of_fmap. apply Hids in Hid as (_ & e & He & _).
    eapply list_elem_of_lookup_2. apply (ro_active _ _ Hr). eauto.
Qed.

Lemma drop_lease_spec E r rm lease s Q : roots_ok r rm → leased r rm lease s →
  (∀ r', roots_ok r' (<[root_slot lease := with_entry (set_strong (strong (entry s) - 1)) s]> rm) → roots_heap r' = roots_heap r → root_active r' = root_active r →
     port_pending (port r') = port_pending (port r) ++ (if strong (entry s) =? 1 then [lease] else []) → Q tt r') →
  wp E (drop_lease lease) Q r.
Proof.
  intros Hr Hle HQ. pose proof Hle as (Hh & Hs & Hg & Hst). unfold drop_lease. apply wp_bind, wp_read. rewrite (root_get _ _ _ _ Hr Hs). cbn zeta.
  apply wp_bind, wp_write. destruct (Nat.eqb_spec (strong (entry s) - 1) 0) as [Hz|Hnz]; cbn [negb].
  2: { apply wp_ret, HQ; [|done|done|]; [apply entry_update_ok; [done|done|done|]; cbn; lia|].
       destruct (Nat.eqb_spec (strong (entry s)) 1); [lia|]. by rewrite app_nil_r. }
  rewrite (ro_connected _ _ Hr). apply wp_bind. destruct (Nat.eqb_spec (strong (entry s)) 1) as [H1|]; [|lia].
  assert (lease ∉ port_pending (port r)) as Hnin.
  { intros (_ & e' & He & _ & H0)%(ro_pending _ _ Hr). rewrite Hs in He. injection He as <-. lia. }
  assert (Z.of_nat (length (lease :: port_pending (port r))) <= root_count r)%Z as Hlt.
  { apply (registered_bound r rm); [done|constructor; [done|apply Hr]|]. intros id [->|Hid]%elem_of_cons; [eauto|].
    apply (ro_pending _ _ Hr) in Hid as (? & e' & ? & ? & _). eauto. }
  cbn [length] in Hlt. destruct (ro_count _ _ Hr) as [_ Hcr]. pose proof (ro_capacity _ _ Hr) as Hcap.
  apply wp_assert; [apply Z.ltb_lt; lia|]. apply wp_modify, HQ; [|done|done|done].
  pose proof (update_root r rm _ s (set_strong (strong (entry s) - 1)) Hr Hs) as Ht. destruct Hr as [Hrf Hac Hc Hnd Hpe Hca Hco].
  split; try done; cbn [root_active root_slots port set_root_slots set_port roots_heap port_pending].
  - intros i x. rewrite Hac. destruct (decide (x = root_slot lease)) as [->|]; [|by rewrite lookup_insert_ne]. rewrite lookup_insert_eq, Hs.
    split; intros (? & [= <-] & <-); eexists; (split; [done|]); done.
  - apply list.NoDup_app. split; [done|]. split; [|apply NoDup_singleton]. intros x Hx ->%list_elem_of_singleton. done.
  - intros id. rewrite elem_of_app, Hpe, list_elem_of_singleton. destruct (decide (root_slot id = root_slot lease)) as [Eq|Hne].
    + rewrite Eq, lookup_insert_eq, Hs. split.
      * intros [(? & ? & [= <-] & ? & ?)| ->]; [lia|]. split; [done|]. eexists. split; [done|]. split; [done|]. cbn. lia.
      * intros (Hih & ? & [= <-] & Hig & _). right. destruct id, lease. cbn in *. congruence.
    + rewrite lookup_insert_ne by done. split; [intros [?| ->]; done|]. by left.
Qed.

(** ** Release *)
(** The entries, positions in the active list aside. *)
Definition same_root (a b : RootSlot) : Prop :=
  generation a = generation b ∧ strong (entry a) = strong (entry b) ∧ targets (entry a) = targets (entry b) ∧ typed (entry a) = typed (entry b).

Lemma release_one_spec E r rm id rest (Q : option RootEntry → Roots → Prop) : roots_ok r rm → port_pending (port r) = id :: rest →
  (∀ r' rm' s, roots_ok r' rm' → rm !! root_slot id = Some s → strong (entry s) = 0 → rm' !! root_slot id = None →
     (∀ j, j ≠ root_slot id → option_Forall2 same_root (rm !! j) (rm' !! j)) → roots_heap r' = roots_heap r →
     port_pending (port r') = rest → length (root_active r') < length (root_active r) → Q (Some (entry s)) r') →
  wp E release_one Q r.
Proof.
  intros Hr Hpend HQ. assert (id ∈ port_pending (port r)) as Hid by (rewrite Hpend; left).
  apply (ro_pending _ _ Hr) in Hid as (Hh & s & Hs & Hg & Hz). pose proof (ro_count _ _ Hr) as [Hcnt Hcred].
  assert (root_active r !! active_index (entry s) = Some (root_slot id)) as Hact by (apply (ro_active _ _ Hr); eauto).
  pose proof (lookup_lt_Some _ _ _ Hact) as Hlen. unfold release_one. apply wp_bind, wp_read. rewrite Hpend. apply wp_bind, wp_modify.
  pose proof (refines_remove _ _ (root_slot id) (ro_refines _ _ Hr)) as Hrem. specialize (Hrem ltac:(apply (rf_dom _ _ (ro_refines _ _ Hr)); by eexists)).
  destruct (remove (root_slots r) (root_slot id)) as [[s' t]|]; [|congruence]. destruct Hrem as [Hs' Ht]. rewrite Hs in Hs'. injection Hs' as <-.
  apply wp_bind, wp_modify, wp_bind, wp_assert; [by apply Z.eqb_eq|]. apply wp_bind, wp_assert; [by apply Nat.eqb_eq|]. apply wp_bind.
  set (i := active_index (entry s)) in *. destruct (swap_remove_spec _ _ _ Hact) as (act' & Hswap & Hlen' & Hlook). eapply wp_or_panic; [exact Hswap|]. cbn [snd].
  apply wp_bind, wp_modify, wp_bind.
  assert (act' !! i = if decide (S i < length (root_active r)) then root_active r !! (length (root_active r) - 1) else None) as Hmoved.
  { rewrite Hlook. case_decide; [by rewrite decide_True|done]. }
  assert (∀ r2 t2 rm2, root_slots r2 = t2 → refines t2 rm2 → root_active r2 = act' → roots_heap r2 = roots_heap r → root_count r2 = root_count r →
    port r2 = {| connected := connected (port r); credits := credits (port r); port_pending := rest; port_capacity := port_capacity (port r) |} →
    rm2 !! root_slot id = None → (∀ j, j ≠ root_slot id → option_Forall2 same_root (rm !! j) (rm2 !! j)) →
    (∀ k x, act' !! k = Some x ↔ ∃ e', rm2 !! x = Some e' ∧ active_index (entry e') = k) →
    wp E (let! r0 := read in if (root_count r0 =? 0)%Z || (credits (port r0) =? 0)%Z then panic
          else modify (λ r1, set_port {| connected := connected (port r1); credits := credits (port r1) - 1; port_pending := port_pending (port r1);
                 port_capacity := port_capacity (port r1) |} (set_root_count (root_count r1 - 1) r1)) ;;! ret (Some (entry s))) Q r2) as Hend.
  { intros r2 t2 rm2 <- Hrf2 Hact2 Hheap2 Hc2 Hport2 Hnone Hsame Hiff. apply wp_bind, wp_read. rewrite Hport2, Hc2. cbn [credits].
    destruct (Z.eqb_spec (root_count r) 0); [lia|]. destruct (Z.eqb_spec (credits (port r)) 0); [lia|]. cbn [orb]. apply wp_bind, wp_modify, wp_ret.
    apply (HQ _ rm2 s); try done; [|cbn; by rewrite Hport2|cbn; rewrite Hact2; lia].
    pose proof (ro_nodup _ _ Hr) as Hnd. rewrite Hpend in Hnd. apply list.NoDup_cons in Hnd as [Hnin Hnd].
    split; cbn [root_slots root_active root_count port credits port_pending port_capacity connected roots_heap set_port set_root_count]; rewrite ?Hport2, ?Hact2, ?Hheap2; cbn [credits port_pending port_capacity connected].
    - done.
    - exact Hiff.
    - lia.
    - done.
    - intros x. transitivity (x ∈ port_pending (port r) ∧ x ≠ id).
      { rewrite Hpend, elem_of_cons. split; [intros Hx; split; [by right|by intros ->]|by intros [[->|?] ?]]. }
      rewrite (ro_pending _ _ Hr). split.
      + intros [(Hxh & e' & He' & Hge & Hse) Hne]. split; [done|]. destruct (decide (root_slot x = root_slot id)) as [Eq|Hns].
        { rewrite Eq, Hs in He'. injection He' as <-. destruct Hne. destruct x, id. cbn in *. congruence. }
        specialize (Hsame _ Hns). rewrite He' in Hsame. inversion Hsame as [? e2 (G & S & _) Heq1 Heq2|]. subst. exists e2. split; [done|]. split; congruence.
      + intros (Hxh & e' & He' & Hge & Hse). assert (root_slot x ≠ root_slot id) as Hns by (intros Eq; congruence). split; [|by intros ->].
        split; [done|]. specialize (Hsame _ Hns). rewrite He' in Hsame. inversion Hsame as [e1 ? (G & S & _) Heq1 Heq2|]. subst. exists e1. split; [done|]. split; congruence.
    - pose proof (ro_capacity _ _ Hr). lia.
    - apply Hr. }
  assert (∀ j, j ≠ root_slot id → option_Forall2 same_root (rm !! j) (delete (root_slot id) rm !! j)) as Hsame0.
  { intros j Hj. rewrite lookup_delete_ne by done. by destruct (rm !! j); constructor. }
  rewrite Hmoved. destruct (decide (S i < length (root_active r))) as [Hlt|Hlast].
  - destruct (lookup_lt_is_Some_2 (root_active r) (length (root_active r) - 1)) as [m Hm]; [lia|]. rewrite Hm.
    pose proof (proj1 (ro_active _ _ Hr _ _) Hm) as (e & He & Hei). assert (m ≠ root_slot id) as Hne.
    { intros ->. rewrite Hs in He. injection He as <-. fold i in Hei. lia. }
    apply wp_bind, wp_read. cbn [root_slots set_root_active set_root_slots set_port]. set (rd := delete (root_slot id) rm) in *.
    assert (rd !! m = Some e) as Hrd by (unfold rd; by rewrite lookup_delete_ne).
    assert (get t m = Some e) as Hget by (rewrite (rf_get _ _ Ht); [done|apply (rf_dom _ _ Ht); by eexists]). rewrite Hget.
    apply wp_write. eapply (Hend _ _ (<[m := with_entry (set_index i) e]> rd)); [done|..|done|done|done|done| | |].
    + pose proof (refines_update _ _ m (with_entry (set_index i)) Ht ltac:(apply (rf_dom _ _ Ht); by eexists)) as Hu.
      replace (<[m := with_entry (set_index i) e]> rd) with (alter (with_entry (set_index i)) m rd); [done|].
      apply map_eq. intros j. destruct (decide (j = m)) as [->|]; [by rewrite lookup_alter_eq, lookup_insert_eq, Hrd|by rewrite lookup_alter_ne, lookup_insert_ne].
    + rewrite lookup_insert_ne by done. apply lookup_delete_eq.
    + intros j Hj. destruct (decide (j = m)) as [->|]; [rewrite lookup_insert_eq, He; by constructor|]. rewrite lookup_insert_ne by done. by apply Hsame0.
    + intros k x. rewrite Hlook. destruct (decide (x = m)) as [->|Hxm].
      * rewrite lookup_insert_eq. split.
        -- case_decide; [|done]. case_decide as Ek; [intros _; subst; eexists; split; done|]. intros Hk.
           apply (ro_active _ _ Hr) in Hk as (e' & He' & Hk'). rewrite He in He'. injection He' as <-. lia.
        -- intros (? & [= <-] & <-). cbn. rewrite decide_True by lia. by rewrite decide_True.
      * rewrite lookup_insert_ne by done. destruct (decide (x = root_slot id)) as [->|Hxi].
        -- unfold rd. rewrite lookup_delete_eq. split; [|by intros (? & ? & _)]. case_decide; [|done]. case_decide as Ek; [rewrite Hm; congruence|].
           intros Hk. apply (ro_active _ _ Hr) in Hk as (e' & He' & Hk'). rewrite Hs in He'. injection He' as <-. fold i in Hk'. lia.
        -- unfold rd. rewrite lookup_delete_ne by done. rewrite <- (ro_active _ _ Hr). case_decide as Hk.
           ++ case_decide as Ek; [|done]. subst k. rewrite Hm, Hact. split; congruence.
           ++ split; [done|]. intros Hk'. pose proof (lookup_lt_Some _ _ _ Hk'). replace k with (length (root_active r) - 1) in Hk' by lia. congruence.
  - apply wp_ret. eapply (Hend _ t (delete (root_slot id) rm)); [done|done|done|done|done|done|apply lookup_delete_eq|done|].
    intros k x. rewrite Hlook. destruct (decide (x = root_slot id)) as [->|Hxi].
    + rewrite lookup_delete_eq. split; [|by intros (? & ? & _)]. case_decide; [|done]. case_decide as Ek; [lia|].
      intros Hk. apply (ro_active _ _ Hr) in Hk as (e' & He' & Hk'). rewrite Hs in He'. injection He' as <-. fold i in Hk'. lia.
    + rewrite lookup_delete_ne by done. rewrite <- (ro_active _ _ Hr). case_decide as Hk.
      * case_decide; [lia|done].
      * split; [done|]. intros Hk'. pose proof (lookup_lt_Some _ _ _ Hk'). replace k with i in Hk' by lia. congruence.
Qed.

Lemma roots_trim_ok r rm : roots_ok r rm → roots_ok (roots_trim r) rm.
Proof.
  intros Hr. pose proof (ro_count _ _ Hr) as [Hcnt Hcred].
  assert (Z.of_nat (length (port_pending (port r))) <= root_count r)%Z as Hlen.
  { apply (registered_bound r rm); [done|apply Hr|]. intros id (? & e' & ? & ? & _)%(ro_pending _ _ Hr). eauto. }
  assert (root_count r <= 2 ^ 32)%Z as Hbig.
  { rewrite Hcnt. assert (length (root_active r) ≤ Z.to_nat (2 ^ 32)) as Hl; [|lia].
    rewrite <- (length_seqZ 0 (2 ^ 32)). apply submseteq_length, NoDup_submseteq; [by eapply active_nodup|].
    intros s [i Hi]%list_elem_of_lookup_1. apply (ro_active _ _ Hr) in Hi as (e & He & _). apply elem_of_seqZ.
    pose proof (rf_dom _ _ (ro_refines _ _ Hr) s ltac:(by eexists)). lia. }
  destruct Hr as [Hrf Hac Hc Hnd Hpe Hca Hco]. split; try done.
  - by apply refines_trim.
  - cbn. unfold shrink_target, shrink_to. change u64_max with (2 ^ 64 - 1)%Z. destruct (Z.eqb_spec (credits (port r)) 0).
    + destruct (Z.eqb_spec (port_capacity (port r)) 0); lia.
    + destruct (_ <? _)%Z; lia.
Qed.

(** ** What a handle sees after an update of its own entry *)
Lemma clone_lease_shows r rm lease s : roots_ok r rm → leased r rm lease s →
  let s1 := with_entry (λ e, set_strong (S (strong e)) e) s in
  roots_ok (clone_lease lease r) (<[root_slot lease := s1]> rm) ∧
  leased (clone_lease lease r) (<[root_slot lease := s1]> rm) lease s1 ∧
  admit_lease (clone_lease lease r) lease = Ok (entry s1).
Proof.
  intros Hr Hl s1. pose proof (clone_lease_ok _ _ _ _ Hr Hl) as Hok. destruct Hl as (Hh & Hs & Hg & Hst).
  assert (leased (clone_lease lease r) (<[root_slot lease := s1]> rm) lease s1) as Hl1.
  { split_and!; [done|apply lookup_insert_eq|done|cbn; lia]. }
  split_and!; [done|done|by eapply admit_spec].
Qed.
Lemma replace_write_shows r rm lease s index target : roots_ok r rm → leased r rm lease s → index < length (targets (entry s)) →
  let s1 := with_entry (set_target index target) s in
  ∃ r1, replace_write lease index target r = (Ok tt, r1) ∧ port r1 = port r ∧ roots_ok r1 (<[root_slot lease := s1]> rm) ∧
    leased r1 (<[root_slot lease := s1]> rm) lease s1 ∧ admit_lease r1 lease = Ok (entry s1).
Proof.
  intros Hr Hl Hi s1.
  assert (wp (λ _ _, False) (replace_write lease index target)
    (λ _ r1, ∃ t, r1 = set_root_slots t r ∧ roots_ok r1 (<[root_slot lease := s1]> rm)) r) as Hw.
  { eapply replace_write_spec; [exact Hr|exact Hl|exact Hi|]. eauto. }
  apply wp_total in Hw as ([] & r1 & Hrun & t & -> & Hok). destruct Hl as (Hh & Hs & Hg & Hst).
  assert (leased (set_root_slots t r) (<[root_slot lease := s1]> rm) lease s1) as Hl1.
  { split_and!; [done|apply lookup_insert_eq|done|done]. }
  eexists. split_and!; [exact Hrun|done|done|done|by eapply admit_spec].
Qed.
Lemma replace_admit_exact r rm lease s index : roots_ok r rm → leased r rm lease s →
  replace_admit r lease index = Ok tt ↔ typed (entry s) = false ∧ index < length (targets (entry s)).
Proof.
  intros Hr Hl. unfold replace_admit. erewrite admit_spec by eauto.
  destruct (typed (entry s)), (Nat.leb_spec (length (targets (entry s))) index); cbn; split; (done || lia || (intros [? ?]; (done || lia))).
Qed.

(** C35: root registrations keep their books.  While the heap is open, every operation of
    [Roots] — registering a pack and committing it, cloning a handle, dropping one,
    replacing a pack slot, consuming a release notice, trimming — keeps the invariant
    that the active list and the table name the same registrations, that every slot knows
    its position in the list, that the port holds exactly one notice per registration
    whose last handle is gone and always has room for the next one; no release ever
    panics, and consuming a notice removes that registration and no other.  Cloning adds
    one handle to the registration and changes nothing else of it; a replacement is
    admitted exactly for a slot of a pack, then writes that slot and nothing else; neither
    posts or withdraws a notice. *)
Theorem registrations_consistent r rm : roots_ok r rm →
  (∀ count is_typed limit target, match roots_prepare count is_typed limit r with
     | (Ok prep, r1) => ∃ r2, roots_commit prep target r1 = (Ok (prepared_lease prep), r2)
         ∧ ∃ s, rm !! root_slot (prepared_lease prep) = None ∧ roots_ok r2 (<[root_slot (prepared_lease prep) := s]> rm)
             ∧ admit_lease r2 (prepared_lease prep) = Ok (entry s) ∧ targets (entry s) = <[0 := target]> (replicate count None)
     | (Err e, r1) => (∃ why, e = GcErr (GcLimit why)) ∧ roots_ok r1 rm
     end)
  ∧ (∀ lease s, leased r rm lease s → ∃ e, admit_lease (clone_lease lease r) lease = Ok e
       ∧ strong e = S (strong (entry s)) ∧ targets e = targets (entry s) ∧ typed e = typed (entry s)
       ∧ port (clone_lease lease r) = port r
       ∧ leased (clone_lease lease r) (<[root_slot lease := with_entry (const e) s]> rm) lease (with_entry (const e) s)
       ∧ roots_ok (clone_lease lease r) (<[root_slot lease := with_entry (const e) s]> rm))
  ∧ (∀ lease s index target, leased r rm lease s →
       (replace_admit r lease index = Ok tt ↔ typed (entry s) = false ∧ index < length (targets (entry s))) ∧
       (replace_admit r lease index = Ok tt → ∃ r1 e, replace_write lease index target r = (Ok tt, r1)
         ∧ admit_lease r1 lease = Ok e ∧ targets e = <[index := target]> (targets (entry s))
         ∧ strong e = strong (entry s) ∧ typed e = typed (entry s) ∧ port r1 = port r
         ∧ leased r1 (<[root_slot lease := with_entry (const e) s]> rm) lease (with_entry (const e) s)
         ∧ roots_ok r1 (<[root_slot lease := with_entry (const e) s]> rm)))
  ∧ (∀ lease s, leased r rm lease s → ∃ r1, drop_lease lease r = (Ok tt, r1)
       ∧ roots_ok r1 (<[root_slot lease := with_entry (set_strong (strong (entry s) - 1)) s]> rm)
       ∧ (lease ∈ port_pending (port r1) ↔ strong (entry s) = 1))
  ∧ (port_pending (port r) ≠ [] → ∃ id e r1 rm1, release_one r = (Ok (Some e), r1) ∧ port_pending (port r) = id :: port_pending (port r1)
       ∧ roots_ok r1 rm1 ∧ rm1 !! root_slot id = None ∧ (∀ j, j ≠ root_slot id → option_Forall2 same_root (rm !! j) (rm1 !! j)))
  ∧ roots_ok (roots_trim r) rm.
Proof.
  intros Hr. split_and!.
  - intros count is_typed limit target.
    assert (wp (λ e r1, (∃ why, e = GcErr (GcLimit why)) ∧ roots_ok r1 rm) (roots_prepare count is_typed limit) (λ prep r1, prepared_ok r1 rm count is_typed prep) r) as Hp
      by (eapply prepare_spec_roots; eauto).
    unfold wp in Hp. destruct (roots_prepare _ _ _ r) as [[prep|e] r1]; [|done].
    assert (wp (λ _ _, False) (roots_commit prep target) (λ lease r2, lease = prepared_lease prep ∧
      ∃ s, rm !! root_slot (prepared_lease prep) = None ∧ roots_ok r2 (<[root_slot (prepared_lease prep) := s]> rm)
             ∧ admit_lease r2 (prepared_lease prep) = Ok (entry s) ∧ targets (entry s) = <[0 := target]> (replicate count None)) r1) as Hc.
    { eapply commit_spec_roots; [exact Hp|]. intros r2 H1 H2 H3 _ _ _. split; [done|]. eexists. split; [done|]. split; [exact H1|]. split; [by eapply admit_spec|].
      cbn. by rewrite (pp_entry _ _ _ _ _ Hp). }
    apply wp_total in Hc as (lease & r2 & Hrun & -> & Hpost). eauto.
  - intros lease s Hl. destruct (clone_lease_shows r rm lease s Hr Hl) as (Hok & Hl1 & Had). eexists. by split_and!.
  - intros lease s index target Hl. pose proof (replace_admit_exact r rm lease s index Hr Hl) as Hiff. split; [done|].
    intros [_ Hi]%Hiff. destruct (replace_write_shows r rm lease s index target Hr Hl Hi) as (r1 & Hrun & Hport & Hok & Hl1 & Had).
    eexists r1, _. by split_and!.
  - intros lease s Hl. assert (wp (λ _ _, False) (drop_lease lease) (λ _ r1,
      roots_ok r1 (<[root_slot lease := with_entry (set_strong (strong (entry s) - 1)) s]> rm) ∧ roots_heap r1 = roots_heap r) r) as Hd
      by (eapply drop_lease_spec; eauto).
    apply wp_total in Hd as ([] & r1 & Hrun & Hr1 & Hh1). exists r1. split; [done|]. split; [done|].
    destruct Hl as (Hlh & Hls & Hlg & Hlst). rewrite (ro_pending _ _ Hr1), lookup_insert_eq. split.
    + intros (_ & ? & [= <-] & _ & H0). cbn in H0. lia.
    + intros H1. split; [congruence|]. eexists. split; [done|]. split; [done|]. cbn. lia.
  - intros Hne. destruct (port_pending (port r)) as [|id rest] eqn:Hp; [done|].
    assert (wp (λ _ _, False) release_one (λ o r1, ∃ e rm1, o = Some e ∧ rest = port_pending (port r1) ∧ roots_ok r1 rm1 ∧ rm1 !! root_slot id = None
      ∧ (∀ j, j ≠ root_slot id → option_Forall2 same_root (rm !! j) (rm1 !! j))) r) as Hrel.
    { eapply release_one_spec; [exact Hr|exact Hp|]. intros. eexists _, _. split_and!; try done. }
    apply wp_total in Hrel as (o & r1 & Hrun & e & rm1 & -> & -> & ? & ? & ?). exists id, e, r1, rm1. done.
  - by apply roots_trim_ok.
Qed.

(** A typed root and a pack of two slots, the root then dropped. *)
Definition sample_roots : M Roots RootId :=
  let! a := roots_prepare 1 true 8 in let! root := roots_commit a (Some (0, 0)%Z) in
  let! b := roots_prepare 2 false 8 in let! _ := roots_commit b None in
  drop_lease root ;;! ret root.
Lemma registrations_consistent_witness : ∃ e, fst (roots_prepare 1 true 0 (roots_new 4)) = Err e
  ∧ length (port_pending (port (snd (sample_roots (roots_new 4))))) = 1.
Proof.
  destruct (registrations_consistent (roots_new 4) ∅ (roots_new_ok 4)) as (Hp & _). specialize (Hp 1 true 0%Z None).
  destruct (roots_prepare 1 true 0 (roots_new 4)) as [[prep|e] r1] eqn:E; [by vm_compute in E|]. exists e. split; [done|]. vm_compute. done.
Defined.
