(* ===== verification/GcMark.v ===== *)
(** * Managed heap: the heap and its marking engine

    Models the [Heap] record of [kagari-gc/src/heap.rs] and [Marking] of [marking.rs]:
    the collection phases, publication of targets (the write barrier), and the queue of
    pages with gray slots.  Marks are cells inside the pages, so marking operations work
    on the whole heap. *)
From stdpp Require Import gmap fin_maps.
From S2P Require Import Prelude SlotBits GcBase GcTable GcPage GcDynamic GcHeap GcRoots.
Open Scope nat_scope.

Inductive Phase : Set := Idle | Roots_ | Mark | Sweep | Faulted | Closed.
#[export] Instance Phase_eq_dec : EqDecision Phase.
Proof. solve_decision. Defined.
Inductive ScanStatus : Set := Pending | Complete.
#[export] Instance ScanStatus_eq_dec : EqDecision ScanStatus.
Proof. solve_decision. Defined.
Inductive SweepStage : Set := StagePhysical | StageRoots (remaining : nat) | StageDescriptors (remaining : nat).

Record PacingConfig : Set := { min_growth_bytes : Z; growth_percent : Z; assist_multiplier : Z }.
Record Pacing : Set := { pacing_config : PacingConfig; threshold : Z }.
Record HeapConfig : Set := {
  config_pacing : PacingConfig; max_backing_bytes : Z; max_indirect_bytes : Z; max_objects : Z; max_roots : Z
}.
Record MemoryLedger : Set := { indirect : Z; peak : Z; allocation_growth : Z }.
Record ActiveScan : Set := { owner : ObjectRef; scan_descriptor : Descriptor; restart : bool }.
Record RootCursor : Set := { cursor_end : nat; cursor_next : nat; cursor_target : nat; cursor_active : option RootId }.
(** [pending]: the queue of pages, top first. *)
Record Marking : Set := {
  phase : Phase; epoch : Z; pending : list Z; pending_capacity : Z; cycles : Z; publication_work : Z
}.
(** [scan_next]: the scanner state kept in the workspace, an index into the reference slots. *)
Record Heap : Type := {
  heap_id : Z; config : HeapConfig; physical : Physical; roots : Roots; marking : Marking;
  active_scan : option ActiveScan; scan_next : nat; ledger : MemoryLedger; root_cursor : RootCursor;
  sweep_stage : SweepStage; pacing : Pacing
}.

Definition set_physical (x : Physical) (h : Heap) : Heap :=
  {| heap_id := heap_id h; config := config h; physical := x; roots := roots h; marking := marking h; active_scan := active_scan h;
     scan_next := scan_next h; ledger := ledger h; root_cursor := root_cursor h; sweep_stage := sweep_stage h; pacing := pacing h |}.
Definition set_roots (x : Roots) (h : Heap) : Heap :=
  {| heap_id := heap_id h; config := config h; physical := physical h; roots := x; marking := marking h; active_scan := active_scan h;
     scan_next := scan_next h; ledger := ledger h; root_cursor := root_cursor h; sweep_stage := sweep_stage h; pacing := pacing h |}.
Definition set_marking (x : Marking) (h : Heap) : Heap :=
  {| heap_id := heap_id h; config := config h; physical := physical h; roots := roots h; marking := x; active_scan := active_scan h;
     scan_next := scan_next h; ledger := ledger h; root_cursor := root_cursor h; sweep_stage := sweep_stage h; pacing := pacing h |}.
Definition set_active_scan (x : option ActiveScan) (h : Heap) : Heap :=
  {| heap_id := heap_id h; config := config h; physical := physical h; roots := roots h; marking := marking h; active_scan := x;
     scan_next := scan_next h; ledger := ledger h; root_cursor := root_cursor h; sweep_stage := sweep_stage h; pacing := pacing h |}.
Definition set_scan_next (x : nat) (h : Heap) : Heap :=
  {| heap_id := heap_id h; config := config h; physical := physical h; roots := roots h; marking := marking h; active_scan := active_scan h;
     scan_next := x; ledger := ledger h; root_cursor := root_cursor h; sweep_stage := sweep_stage h; pacing := pacing h |}.
Definition set_ledger (x : MemoryLedger) (h : Heap) : Heap :=
  {| heap_id := heap_id h; config := config h; physical := physical h; roots := roots h; marking := marking h; active_scan := active_scan h;
     scan_next := scan_next h; ledger := x; root_cursor := root_cursor h; sweep_stage := sweep_stage h; pacing := pacing h |}.
Definition set_root_cursor (x : RootCursor) (h : Heap) : Heap :=
  {| heap_id := heap_id h; config := config h; physical := physical h; roots := roots h; marking := marking h; active_scan := active_scan h;
     scan_next := scan_next h; ledger := ledger h; root_cursor := x; sweep_stage := sweep_stage h; pacing := pacing h |}.
Definition set_sweep_stage (x : SweepStage) (h : Heap) : Heap :=
  {| heap_id := heap_id h; config := config h; physical := physical h; roots := roots h; marking := marking h; active_scan := active_scan h;
     scan_next := scan_next h; ledger := ledger h; root_cursor := root_cursor h; sweep_stage := x; pacing := pacing h |}.
Definition set_pacing (x : Pacing) (h : Heap) : Heap :=
  {| heap_id := heap_id h; config := config h; physical := physical h; roots := roots h; marking := marking h; active_scan := active_scan h;
     scan_next := scan_next h; ledger := ledger h; root_cursor := root_cursor h; sweep_stage := sweep_stage h; pacing := x |}.

Definition set_phase (x : Phase) (m : Marking) : Marking :=
  {| phase := x; epoch := epoch m; pending := pending m; pending_capacity := pending_capacity m; cycles := cycles m; publication_work := publication_work m |}.
Definition set_epoch (x : Z) (m : Marking) : Marking :=
  {| phase := phase m; epoch := x; pending := pending m; pending_capacity := pending_capacity m; cycles := cycles m; publication_work := publication_work m |}.
Definition set_pending (x : list Z) (m : Marking) : Marking :=
  {| phase := phase m; epoch := epoch m; pending := x; pending_capacity := pending_capacity m; cycles := cycles m; publication_work := publication_work m |}.
Definition set_capacity (x : Z) (m : Marking) : Marking :=
  {| phase := phase m; epoch := epoch m; pending := pending m; pending_capacity := x; cycles := cycles m; publication_work := publication_work m |}.
Definition set_cycles (x : Z) (m : Marking) : Marking :=
  {| phase := phase m; epoch := epoch m; pending := pending m; pending_capacity := pending_capacity m; cycles := x; publication_work := publication_work m |}.
Definition set_work (x : Z) (m : Marking) : Marking :=
  {| phase := phase m; epoch := epoch m; pending := pending m; pending_capacity := pending_capacity m; cycles := cycles m; publication_work := x |}.

Definition new_marking : Marking :=
  {| phase := Idle; epoch := 0; pending := []; pending_capacity := 0; cycles := 0; publication_work := 0 |}.

(** ** Lifecycle *)
Definition check : M Heap unit :=
  let! h := read in
  match phase (marking h) with
  | Faulted => fail HeapFaulted
  | Closed => fail HeapClosed
  | _ => ret tt
  end.
Definition on_physical {A} : M Physical A → M Heap A := zoom physical set_physical.
Definition on_roots {A} : M Roots A → M Heap A := zoom roots set_roots.
Definition on_marking (f : Marking → Marking) : M Heap unit := modify (λ h, set_marking (f (marking h)) h).

Definition reserve_pages (count : Z) : M Heap unit :=
  on_marking (λ m, set_capacity (reserve_capacity (pending_capacity m) (Z.of_nat (length (pending m)))
                                   (Z.max 0 (count - Z.of_nat (length (pending m))))) m).
Definition marking_trim (pages : Z) : M Heap unit :=
  let! h := read in
  assert (bool_decide (phase (marking h) = Idle)) ;;!
  assert (bool_decide (pending (marking h) = [])) ;;!
  on_marking (λ m, match shrink_target (pending_capacity m) pages with
                   | Some target => set_capacity (shrink_to (pending_capacity m) 0 target) m
                   | None => m
                   end).
Definition start : M Heap unit :=
  check ;;!
  let! h := read in
  assert (bool_decide (phase (marking h) = Idle)) ;;!
  assert (bool_decide (pending (marking h) = [])) ;;!
  if (u64_max <? epoch (marking h) + 1)%Z then fail (GcLimit "mark epoch")
  else on_marking (λ m, set_phase Roots_ (set_epoch (epoch m + 1) m)).

(** ** Publication *)
Definition edit_marks (id : Z) (m : PageMarks) : M Heap unit := on_physical (page_edit id (λ pg, Some (with_marks pg m))).
(** [Marking::admit]: objects allocated during a collection are black. *)
Definition admit_new (r : Reservation) : M Heap unit :=
  let! h := read in
  if bool_decide (phase (marking h) = Idle) then ret tt
  else
    let! pg := on_physical (page (res_page r)) in
    let! m := or_panic (set_black (marks pg) (res_slot r) (epoch (marking h))) in
    edit_marks (res_page r) m.

(** The tail of publication: classify, mark and enqueue a newly discovered object. *)
Definition discover (object : Location) : M Heap unit :=
  let! h := read in
  let e := epoch (marking h) in
  let m := marks (loc_page object) in
  let! d := lift (descriptor_get (loc_descriptor object) (descriptors (physical h))) in
  let leaf := bool_decide (desc_kind d = EdgeFree) in
  if negb leaf && negb (queued m) && (Z.of_nat (length (pending (marking h))) =? pending_capacity (marking h))%Z
  then fail (Storage "unreserved mark job")
  else
    let! m := or_panic (with_discovered (ensure m e) (loc_slot object)) in
    if leaf then
      let! m := or_panic (set_black m (loc_slot object) e) in
      edit_marks (loc_id object) m
    else
      edit_marks (loc_id object) (set_queued m true) ;;!
      if queued m then ret tt else on_marking (λ k, set_pending (loc_id object :: pending k) k).

Definition publish_admitted (r : ObjectRef) (budget : option ScanBudget) : M Heap (ScanStatus * option ScanBudget) :=
  let! h := read in
  let e := epoch (marking h) in
  let! object := lift (locate (physical h) r) in
  if bool_decide (phase (marking h) = Idle) then ret (Complete, budget)
  else
    let m := marks (loc_page object) in
    if bool_decide (phase (marking h) = Sweep) then
      let! b := or_panic (black m (loc_slot object) e) in
      if b : bool then ret (Complete, budget) else fail (Storage "publication of condemned object")
    else
      let! known := or_panic (discovered m (loc_slot object) e) in
      if known : bool then ret (Complete, budget)
      else
        let reset := if reset_needed m e then 4%Z else 0%Z in
        match budget with
        | Some b =>
            match take_units reset b with
            | None => ret (Pending, budget)
            | Some b => discover object ;;! ret (Complete, Some b)
            end
        | None =>
            if (u64_max <? publication_work (marking h) + (1 + reset))%Z then fail (GcLimit "publication work")
            else
              on_marking (λ k, set_work (publication_work k + (1 + reset)) k) ;;!
              discover object ;;! ret (Complete, None)
        end.
Definition publish (r : ObjectRef) (budget : option ScanBudget) : M Heap (ScanStatus * option ScanBudget) :=
  check ;;! publish_admitted r budget.

(** ** The queue *)
Definition next_gray : M Heap (option ObjectRef) :=
  let! h := read in
  match pending (marking h) with
  | [] => ret None
  | id :: rest =>
      on_marking (set_pending rest) ;;!
      let! pg := on_physical (page id) in
      edit_marks id (set_queued (marks pg) false) ;;!
      let! pg := on_physical (page id) in
      let! g := or_panic (gray (marks pg) (epoch (marking h))) in
      if (g =? 0)%Z then ret None
      else
        let slot := trailing_zeros 128 g in
        (if negb (Z.land g (g - 1) =? 0)%Z then
           edit_marks id (set_queued (marks pg) true) ;;! on_marking (λ k, set_pending (id :: pending k) k)
         else ret tt) ;;!
        let! o := or_panic (occupied pg slot) in
        if negb o then fail (Storage "gray free slot")
        else
          let! r := or_panic (pointer pg slot) in ret (Some r)
  end.
