(* ===== verification/GcService.v ===== *)
(** * Managed heap: the collector

    Models [kagari-gc/src/heap/service.rs] (the collection state machine: scanning the
    roots, scanning gray objects, the staged sweep with its bounded retirement batches),
    the batches of [sweep.rs], the entrypoints of [heap.rs] ([step], [collect],
    [shutdown]), the metadata maintenance of [heap/metadata.rs] and the pacing of
    [heap/pacing.rs].  The driver has no execution root source of its own ([RootScan] of
    the unit type).  Clock readings are left out.  A batch that an error interrupts is
    dropped with its owners; the only error that can occur there, an exhausted cycle
    counter, is raised with an empty batch. *)
From stdpp Require Import gmap fin_maps.
From S2P Require Import Prelude SlotBits GcBase GcTable GcPage GcDynamic GcHeap GcRoots GcMark.
Open Scope nat_scope.

(** ** Scanning *)
Definition payload_read (h : Heap) (r : ObjectRef) (offset : Z) : result FieldValue GcFailure :=
  match payloads (physical h) !! r ≫= (.!! offset) with Some v => Ok v | None => Err GcUndefined end.

(** [DynamicShape::scan]; the cursor lives in the workspace. *)
Fixpoint scan_shape (fuel : nat) (shape : DynamicShape) (r : ObjectRef) (b : ScanBudget) : M Heap (ScanStatus * ScanBudget) :=
  match fuel with
  | 0 => out_of_fuel
  | S fuel =>
      let! h := read in
      match references shape !! scan_next h with
      | None => ret (Complete, b)
      | Some offset =>
          match take_units 1 b with
          | None => ret (Pending, b)
          | Some b =>
              let! v := lift (payload_read h r offset) in
              match v with
              | VScalar _ => undefined
              | VReference None => modify (λ h, set_scan_next (S (scan_next h)) h) ;;! scan_shape fuel shape r b
              | VReference (Some target) =>
                  let! s := publish target (Some b) in
                  let b := default b (snd s) in
                  match fst s with
                  | Pending => ret (Pending, b)
                  | Complete => modify (λ h, set_scan_next (S (scan_next h)) h) ;;! scan_shape fuel shape r b
                  end
              end
          end
      end
  end.

Definition scan_roots (b : ScanBudget) : M Heap (bool * ScanBudget) :=
  let! h := read in
  let c := root_cursor h in
  if cursor_end c <=? cursor_next c then
    match take_units 1 b with
    | None => ret (false, b)
    | Some b => on_marking (set_phase Mark) ;;! ret (true, b)
    end
  else
    match take_units 1 b with
    | None => ret (false, b)
    | Some b =>
        let! next := or_panic (root_active (roots h) !! cursor_next c) in
        let! slot := or_panic (get (root_slots (roots h)) next) in
        let id := {| root_heap := heap_id h; root_slot := next; root_generation := generation slot |} in
        let valid := match cursor_active c with None => true | Some active => bool_decide (active = id) end in
        if valid && negb (strong (entry slot) =? 0) && (cursor_target c <? length (targets (entry slot))) then
          modify (λ h, set_root_cursor {| cursor_end := cursor_end c; cursor_next := cursor_next c; cursor_target := cursor_target c; cursor_active := Some id |} h) ;;!
          let! target := or_panic (targets (entry slot) !! cursor_target c) in
          let! s := (match target with Some t => publish t (Some b) | None => ret (Complete, Some b) end) in
          let b := default b (snd s) in
          match fst s with
          | Pending => ret (false, b)
          | Complete =>
              modify (λ h, set_root_cursor {| cursor_end := cursor_end c; cursor_next := cursor_next c; cursor_target := S (cursor_target c); cursor_active := Some id |} h) ;;!
              ret (true, b)
          end
        else
          modify (λ h, set_root_cursor {| cursor_end := cursor_end c; cursor_next := S (cursor_next c); cursor_target := 0; cursor_active := None |} h) ;;!
          ret (true, b)
    end.

(** The second half of [scan_object]: run the suspended scanner of [object]. *)
Definition run_scanner (object : CheckedObject) (b : ScanBudget) : M Heap (bool * ScanBudget) :=
  let! h := read in
  let! active := or_panic (active_scan h) in
  if negb (desc_identity (obj_descriptor object) =? desc_identity (scan_descriptor active))%Z
  then fail (Storage "active descriptor changed")
  else
    (if restart active
     then modify (λ h, set_active_scan (Some {| owner := owner active; scan_descriptor := scan_descriptor active; restart := false |}) (set_scan_next 0 h))
     else ret tt) ;;!
    let kind := desc_kind (scan_descriptor active) in
    let small := match kind with Bounded max_work => (remaining b <? max_work * 5)%Z | _ => false end in
    if small then ret (false, b)
    else
      let before := spent b in
      let available := remaining b in
      let shape := desc_shape (scan_descriptor active) in
      let! s := scan_shape (S (length (references shape))) shape (obj_reference object) b in
      let status := fst s in
      let b := snd s in
      let used := (spent b - before)%Z in
      if negb (bool_decide (kind = Indivisible)) && (available <? used)%Z then fail (Provider "bounded scan exceeded allowance")
      else if match kind with Bounded max_work => negb (bool_decide (status = Complete)) || (max_work * 5 <? used)%Z | _ => false end
      then fail (Provider "bounded scan violated declared bound")
      else
        match status with
        | Pending => if (used =? 0)%Z && (5 <=? available)%Z then fail (Provider "scanner made no progress") else ret (false, b)
        | Complete =>
            let! h := read in
            let! pg := on_physical (page (obj_page object)) in
            let! m := or_panic (set_black (marks pg) (obj_slot object) (epoch (marking h))) in
            edit_marks (obj_page object) m ;;!
            modify (set_active_scan None) ;;!
            ret (true, b)
        end.
Definition scan_object (b : ScanBudget) : M Heap (bool * ScanBudget) :=
  let! h := read in
  match active_scan h with
  | Some active => let! object := lift (resolve (physical h) (owner active)) in run_scanner object b
  | None =>
      match take_units 4 b with
      | None => ret (false, b)
      | Some b =>
          let! o := next_gray in
          match o with
          | Some r =>
              let! h := read in
              let! object := lift (resolve (physical h) r) in
              modify (λ h, set_active_scan (Some {| owner := r; scan_descriptor := obj_descriptor object; restart := false |}) (set_scan_next 0 h)) ;;!
              run_scanner object b
          | None =>
              let! h := read in
              if bool_decide (pending (marking h) = []) then
                on_marking (set_phase Sweep) ;;!
                on_physical (modify (λ p, set_cursor {| cursor_page := first_active p; cursor_slot := 0 |} p)) ;;!
                modify (set_sweep_stage StagePhysical) ;;!
                ret (true, b)
              else ret (true, b)
          end
      end
  end.

(** ** Sweeping *)
Definition RETIREMENT_CAP : nat := 32.
Inductive Owner : Set := OwnObject (r : Reservation) (descriptor : Z) | OwnRoots (e : RootEntry).

(** [RetirementBatch::detach]; records own no indirect bytes. *)
Definition detach (batch : list Owner) (id : Z) (slot : nat) : M Physical (list Owner) :=
  assert (length batch <? RETIREMENT_CAP) ;;!
  let! p := read in
  let! object := lift (object_at p id slot) in
  page_edit id (λ pg, page_detach pg slot) ;;!
  let! p := read in
  if (objects p =? 0)%Z then panic
  else
    write (set_objects (objects p - 1) p) ;;!
    ret (batch ++ [OwnObject {| res_reference := obj_reference object; res_page := id; res_slot := slot |} (desc_id (obj_descriptor object))]).
(** [Retired::dispose]: the object is gone. *)
Definition dispose (r : ObjectRef) : M Physical unit :=
  modify (λ p, set_payloads (delete r (payloads p)) (set_headers (delete r (headers p)) p)).
Fixpoint finish (batch : list Owner) : M Physical unit :=
  match batch with
  | [] => ret tt
  | OwnObject r descriptor :: batch =>
      dispose (res_reference r) ;;!
      zoom descriptors set_descriptors (descriptor_release descriptor) ;;!
      release_slot (res_page r) (res_slot r) ;;!
      finish batch
  | OwnRoots _ :: batch => finish batch
  end.

(** The next slot position of the sweep and the dead slot before it. *)
Definition sweep_next (pg : Page) (slot : nat) (e : Z) (b : ScanBudget) : option (nat * option nat) :=
  o ← occupied pg slot;
  white ← (if o : bool then bl ← black (marks pg) slot e; Some (negb bl) else Some false);
  if white : bool then Some (S slot, Some slot)
  else
    let stop := Nat.min (page_slots pg) (slot + Nat.min (Z.to_nat (remaining b)) (page_slots pg) + 1) in
    dead ← next_dead pg slot stop e;
    Some (if dead <? stop then (S dead, Some dead) else (stop, None)).

Fixpoint sweep_loop (fuel : nat) (batch : list Owner) (b : ScanBudget) : M Heap (list Owner * ScanBudget) :=
  match fuel with
  | 0 => out_of_fuel
  | S fuel =>
      match (if length batch <? RETIREMENT_CAP then take_units 1 b else None) with
      | None => ret (batch, b)
      | Some b =>
          let! h := read in
          match sweep_stage h with
          | StagePhysical =>
              match cursor_page (cursor (physical h)) with
              | None =>
                  modify (λ h, set_sweep_stage (StageRoots (pending_releases (roots h))) h) ;;!
                  sweep_loop fuel batch b
              | Some id =>
                  let! pg := on_physical (page id) in
                  let slot := cursor_slot (cursor (physical h)) in
                  if page_slots pg <=? slot then
                    on_physical (modify (set_cursor {| cursor_page := next_page (active pg); cursor_slot := 0 |})) ;;!
                    sweep_loop fuel batch b
                  else
                    let! nd := or_panic (sweep_next pg slot (epoch (marking h)) b) in
                    let! b := or_panic (take_units (Z.of_nat (fst nd - slot - 1)) b) in
                    on_physical (modify (set_cursor {| cursor_page := Some id; cursor_slot := fst nd |})) ;;!
                    match snd nd with
                    | Some dead => let! batch := on_physical (detach batch id dead) in sweep_loop fuel batch b
                    | None => sweep_loop fuel batch b
                    end
              end
          | StageRoots (S n) =>
              let! e := on_roots release_one in
              let! e := ok_or_fail e (Storage "root release snapshot exhausted") in
              assert (length batch <? RETIREMENT_CAP) ;;!
              modify (set_sweep_stage (StageRoots n)) ;;!
              sweep_loop fuel (batch ++ [OwnRoots e]) b
          | StageRoots 0 =>
              modify (λ h, set_sweep_stage (StageDescriptors (length (desc_active (descriptors (physical h))))) h) ;;!
              sweep_loop fuel batch b
          | StageDescriptors n =>
              if negb (length batch =? 0) then ret (batch, b)
              else match n with
                   | S n =>
                       let scanning := (λ a, desc_identity (scan_descriptor a)) <$> active_scan h in
                       on_physical (zoom descriptors set_descriptors (retire_unused scanning n)) ;;!
                       modify (set_sweep_stage (StageDescriptors n)) ;;!
                       sweep_loop fuel batch b
                   | 0 =>
                       if (u64_max <? cycles (marking h) + 1)%Z then fail (GcLimit "completed cycles")
                       else
                         on_marking (λ m, set_phase Idle (set_cycles (cycles m + 1) m)) ;;!
                         ret (batch, b)
                   end
          end
      end
  end.
Definition sweep (b : ScanBudget) : M Heap (nat * ScanBudget) :=
  let! r := sweep_loop (S (Z.to_nat (remaining b))) [] b in
  on_physical (finish (fst r)) ;;!
  ret (length (fst r), snd r).

(** ** Service *)
Fixpoint service_loop (fuel : nat) (b : ScanBudget) : M Heap (nat * ScanBudget) :=
  match fuel with
  | 0 => out_of_fuel
  | S fuel =>
      if (remaining b =? 0)%Z then ret (0, b)
      else
        let! h := read in
        match phase (marking h) with
        | Roots_ => let! r := scan_roots b in if fst r : bool then service_loop fuel (snd r) else ret (0, snd r)
        | Mark => let! r := scan_object b in if fst r : bool then service_loop fuel (snd r) else ret (0, snd r)
        | Sweep => sweep b
        | Idle => ret (0, b)
        | Faulted | Closed => check ;;! ret (0, b)
        end
  end.
Definition service_fuel (b : ScanBudget) : nat := 2 * Z.to_nat (remaining b) + 2.
Definition service (b : ScanBudget) : M Heap (nat * ScanBudget) :=
  let! h := read in
  if bool_decide (phase (marking h) = Idle) then
    match take_units 1 b with
    | None => ret (0, b)
    | Some b =>
        start ;;!
        modify (λ h, set_ledger {| indirect := indirect (ledger h); peak := peak (ledger h); allocation_growth := 0 |} h) ;;!
        modify (λ h, set_root_cursor {| cursor_end := length (root_active (roots h)); cursor_next := 0; cursor_target := 0; cursor_active := None |} h) ;;!
        service_loop (service_fuel b) b
    end
  else service_loop (service_fuel b) b.

Definition saturating_add (a b : Z) : Z := Z.min u64_max (a + b).
(** [Pacing::completed]. *)
Definition completed (managed : Z) (p : Pacing) : Pacing :=
  let relative := Z.min u64_max (managed * growth_percent (pacing_config p) / 100) in
  {| pacing_config := pacing_config p; threshold := Z.max relative (min_growth_bytes (pacing_config p)) |}.
(** [service_work]; a panic or an error of the service faults the heap. *)
Definition service_work (allowance : Z) : M Heap (Z * nat) :=
  check ;;!
  if (allowance <? 8)%Z then fail (GcLimit "step allowance must be at least 8 units")
  else
    let! h := read in
    let before := cycles (marking h) in
    let! r := (λ h, match service (budget_new allowance) h with
                    | (Ok r, h) => (Ok r, h)
                    | (Err GcPanic, h) => (Err (GcErr (Provider "scanner or charge panicked")), set_marking (set_phase Faulted (marking h)) h)
                    | (Err e, h) => (Err e, set_marking (set_phase Faulted (marking h)) h)
                    end) in
    let! h := read in
    (if negb (cycles (marking h) =? before)%Z
     then modify (λ h, set_pacing (completed (saturating_add (bytes (physical h)) (indirect (ledger h))) (pacing h)) h)
     else ret tt) ;;!
    ret (spent (snd r), fst r).

Record StepReport : Set := {
  step_phase : Phase; step_work : Z; step_retired : nat; step_cycles : Z; required_budget : option Z
}.
Definition step (allowance : Z) : M Heap StepReport :=
  let! before := reads (λ h, cycles (marking h)) in
  let! w := service_work allowance in
  let! h := read in
  ret {| step_phase := phase (marking h); step_work := fst w; step_retired := snd w; step_cycles := cycles (marking h) - before;
         required_budget :=
           active ← active_scan h;
           match desc_kind (scan_descriptor active) with
           | Bounded max_work => if (allowance <? max_work * 5)%Z then Some (Z.max (max_work * 5) 8) else None
           | _ => None
           end |}.

Definition NORMAL : Z := 1024.
Fixpoint drain (fuel : nat) (work : Z) (retired : Z) : M Heap (Z * Z) :=
  match fuel with
  | 0 => out_of_fuel
  | S fuel =>
      let! h := read in
      if bool_decide (phase (marking h) = Idle) then ret (work, retired)
      else
        let! w := service_work NORMAL in
        if (u64_max <? work + fst w)%Z then fail (GcLimit "collection work")
        else if (u64_max <? retired + Z.of_nat (snd w))%Z then fail (GcLimit "retirement count")
        else drain fuel (work + fst w) (retired + Z.of_nat (snd w))
  end.

(** ** Metadata maintenance *)
Definition trim_metadata : M Heap bool :=
  check ;;!
  let! h := read in
  if negb (bool_decide (phase (marking h) = Idle)) then ret false
  else
    assert (bool_decide (active_scan h = None)) ;;!
    on_physical (modify (λ p, set_allocations (trim (allocations p)) p)) ;;!
    on_roots (modify roots_trim) ;;!
    let! h := read in
    marking_trim (page_count (physical h)) ;;!
    on_physical (modify (λ p, set_descriptors (set_desc_slots (trim (desc_slots (descriptors p))) (descriptors p)) p)) ;;!
    ret true.

Record CollectionReport : Set := { report_cycles : Z; report_work : Z; report_retired : Z }.
Definition collect (fuel : nat) : M Heap CollectionReport :=
  check ;;!
  let! before := reads (λ h, cycles (marking h)) in
  let! h := read in
  let! c := (if bool_decide (phase (marking h) = Idle) then ret (0, 0)%Z else drain fuel 0 0) in
  let! w := service_work NORMAL in
  if (u64_max <? fst c + fst w)%Z then fail (GcLimit "collection work")
  else
    let! c := drain fuel (fst c + fst w) (snd c + Z.of_nat (snd w)) in
    let! trimmed := trim_metadata in
    assert trimmed ;;!
    let! h := read in
    ret {| report_cycles := cycles (marking h) - before; report_work := fst c; report_retired := snd c |}.

(** ** Pacing *)
Definition pacing_new (c : PacingConfig) : option Pacing :=
  if (min_growth_bytes c =? 0)%Z || (growth_percent c =? 0)%Z || (assist_multiplier c =? 0)%Z then None
  else Some {| pacing_config := c; threshold := min_growth_bytes c |}.
Definition near_limit (used limit : Z) : bool :=
  negb (limit =? u64_max)%Z && negb (used =? 0)%Z && (limit - limit / 4 <=? used)%Z.
Inductive AutomaticKind : Set := AutoStep | AutoAssist.
Record AutomaticReport : Set := { auto_kind : AutomaticKind; auto_work : Z; auto_retired : Z; auto_cycles : Z }.
Definition pressured (h : Heap) : bool :=
  (negb (bool_decide (phase (marking h) = Idle)) || negb (allocation_growth (ledger h) =? 0)%Z || negb (pending_releases (roots h) =? 0))
  && (near_limit (bytes (physical h)) (max_backing_bytes (config h)) || near_limit (indirect (ledger h)) (max_indirect_bytes (config h))
      || near_limit (objects (physical h)) (max_objects (config h)) || near_limit (root_count (roots h)) (max_roots (config h))).
Definition safepoint (fuel : nat) : M Heap (option AutomaticReport) :=
  check ;;!
  let! h := read in
  let growth := allocation_growth (ledger h) in
  let active := negb (bool_decide (phase (marking h) = Idle)) in
  let pressure := pressured h in
  if negb active && (growth <? threshold (pacing h))%Z && (pending_releases (roots h) <? RETIREMENT_CAP) && negb pressure then ret None
  else
    let multiplier := assist_multiplier (pacing_config (pacing h)) in
    let assist := pressure || (Z.min u64_max (threshold (pacing h) * (if active then multiplier else Z.max multiplier 2)) <=? growth)%Z in
    let before := cycles (marking h) in
    let! w := service_work NORMAL in
    let! c := (if assist then drain fuel (fst w) (Z.of_nat (snd w)) else ret (fst w, Z.of_nat (snd w))) in
    let! _ := trim_metadata in
    let! h := read in
    ret (Some {| auto_kind := if assist then AutoAssist else AutoStep; auto_work := fst c; auto_retired := snd c;
                 auto_cycles := cycles (marking h) - before |}).

(** ** Shutdown *)
Fixpoint dispose_batch (fuel : nat) (batch : list Owner) : M Physical (list Owner) :=
  match fuel with
  | 0 => out_of_fuel
  | S fuel =>
      if negb (length batch <? RETIREMENT_CAP) then ret batch
      else
        let! p := read in
        match cursor_page (cursor p) with
        | None => ret batch
        | Some id =>
            let! pg := page id in
            let slot := cursor_slot (cursor p) in
            if page_slots pg <=? slot then
              modify (set_cursor {| cursor_page := next_page (active pg); cursor_slot := 0 |}) ;;! dispose_batch fuel batch
            else
              let! o := or_panic (occupied pg slot) in
              modify (set_cursor {| cursor_page := Some id; cursor_slot := S slot |}) ;;!
              if o : bool then let! batch := detach batch id slot in dispose_batch fuel batch
              else dispose_batch fuel batch
        end
  end.
Fixpoint dispose_all_loop (fuel : nat) (disposed : nat) : M Physical nat :=
  match fuel with
  | 0 => out_of_fuel
  | S fuel =>
      let! batch := dispose_batch fuel [] in
      finish batch ;;!
      let! p := read in
      match cursor_page (cursor p) with
      | None => ret (disposed + length batch)
      | Some _ => dispose_all_loop fuel (disposed + length batch)
      end
  end.
Definition shutdown (fuel : nat) : M Heap nat :=
  on_marking (λ m, set_phase Closed (set_capacity 0 (set_pending [] m))) ;;!
  on_roots (modify disconnect) ;;!
  modify (set_active_scan None) ;;!
  on_physical (modify (λ p, set_cursor {| cursor_page := first_active p; cursor_slot := 0 |} p)) ;;!
  let! disposed := on_physical (dispose_all_loop fuel 0) in
  on_roots (modify roots_close) ;;!
  modify (set_physical empty_physical) ;;!
  modify (λ h, set_ledger {| indirect := 0; peak := peak (ledger h); allocation_growth := 0 |} (set_scan_next 0 h)) ;;!
  ret disposed.
