(* ===== verification/GcMutator.v ===== *)
(** * Managed heap: the mutator

    Models what a client may do inside an access interval: registration of record
    layouts and field binding ([kagari-gc/src/dynamic/layout.rs], [builder.rs]),
    allocation with its rollback guard ([access.rs]), field access ([dynamic/access.rs]),
    and roots ([access.rs], [access/scope.rs]).  Records are the runtime-defined ones;
    every root is a [Root<AnyObject>]. *)
From stdpp Require Import gmap fin_maps.
From S2P Require Import Prelude SlotBits GcBase GcTable GcPage GcDynamic GcHeap GcRoots GcMark GcService.
Open Scope nat_scope.

(** ** Construction *)
Definition no_ledger : MemoryLedger := {| indirect := 0; peak := 0; allocation_growth := 0 |}.
Definition no_root_cursor : RootCursor := {| cursor_end := 0; cursor_next := 0; cursor_target := 0; cursor_active := None |}.
(** [Heap::new] with a fresh identity. *)
Definition heap_new (id : Z) (c : HeapConfig) : option Heap :=
  p ← pacing_new (config_pacing c);
  Some {| heap_id := id; config := c; physical := empty_physical; roots := roots_new id; marking := new_marking; active_scan := None;
          scan_next := 0; ledger := no_ledger; root_cursor := no_root_cursor; sweep_stage := StagePhysical; pacing := p |}.

(** ** Layouts and fields *)
Record DynamicLayout : Set := { layout_heap : Z; layout_descriptor : Descriptor }.
Record FieldKey : Set := { key_identity : Z; key_index : nat }.
Record FieldRef : Set := { field_layout_of : DynamicLayout; field_at : Z }.

Definition register_layout (identity : Z) (kinds : list FieldType) : M Heap DynamicLayout :=
  check ;;!
  let! shape := lift (shape_new identity kinds) in
  let! d := on_physical (zoom descriptors set_descriptors (register_dynamic shape)) in
  let! id := reads heap_id in
  ret {| layout_heap := id; layout_descriptor := d |}.
(** [DynamicLayout::scalar] and [reference]: [want] is the kind of the key. *)
Definition bind_field (l : DynamicLayout) (key : FieldKey) (want : FieldType) : result FieldRef GcFailure :=
  let shape := desc_shape (layout_descriptor l) in
  if negb (shape_identity shape =? key_identity key)%Z then Err (GcErr Representation)
  else match shape_fields shape !! key_index key with
       | None => Err GcPanic
       | Some f => if bool_decide (field_kind f = want) then Ok {| field_layout_of := l; field_at := field_offset f |}
                   else Err (GcErr Representation)
       end.
(** Cloning and dropping the handles that pin a descriptor. *)
Definition clone_layout (l : DynamicLayout) (d : Descriptors) : Descriptors :=
  set_desc_slots (update (λ e, with_handles (S (handles e)) e) (desc_slots d) (desc_id (layout_descriptor l))) d.
Definition drop_layout (l : DynamicLayout) (d : Descriptors) : Descriptors :=
  set_desc_slots (update (λ e, with_handles (handles e - 1) e) (desc_slots d) (desc_id (layout_descriptor l))) d.

(** ** Allocation *)
Definition check_allocation (heap : Z) (d : Descriptor) : M Heap unit :=
  check ;;!
  let! h := read in
  if negb (heap =? heap_id h)%Z then fail ForeignHeap
  else
    let! own := lift (descriptor_get (desc_id d) (descriptors (physical h))) in
    if negb (desc_identity own =? desc_identity d)%Z then fail Representation
    else if (max_objects (config h) <=? objects (physical h))%Z then fail (GcLimit "objects")
    else ret tt.
Definition ledger_check (old new limit : Z) (l : MemoryLedger) : result Z GcError :=
  if (indirect l <? old)%Z || (u64_max <? indirect l - old + new)%Z then Err (GcLimit "indirect accounting")
  else if (limit <? indirect l - old + new)%Z then Err (GcLimit "indirect bytes")
  else Ok (indirect l - old + new)%Z.

(** [DynamicShape::initialize]: zero bits everywhere, [None] in the reference slots. *)
Definition initial_payload (shape : DynamicShape) : gmap Z FieldValue :=
  list_to_map ((λ f, (field_offset f, if bool_decide (field_kind f = FReference) then VReference None else VScalar 0)) <$> shape_fields shape).

(** [AllocationGuard]: an error after the reservation gives the slot back. *)
Definition guarded {A} (r : Reservation) (m : M Heap A) : M Heap A :=
  λ h, match m h with
       | (Ok a, h) => (Ok a, h)
       | (Err e, h) =>
           match on_physical (rollback r) h with
           | (Ok _, h) => (Err e, h)
           | (Err _, h) => (Err GcPanic, h)
           end
       end.
Definition allocate_initialized (d : Descriptor) : M Heap ObjectRef :=
  let! h := read in
  (if (u64_max <? page_count (physical h) + 1)%Z then fail (GcLimit "page jobs") else ret tt) ;;!
  reserve_pages (page_count (physical h) + 1) ;;!
  let! r := on_physical (reserve d (max_backing_bytes (config h))) in
  guarded r (
    on_physical (modify (λ p, set_payloads (<[res_reference r := initial_payload (desc_shape d)]> (payloads p)) p)) ;;!
    let! h := read in
    let! total := of_result (ledger_check 0 0 (max_indirect_bytes (config h)) (ledger h)) in
    admit_new r ;;!
    on_physical (commit r (desc_id d)) ;;!
    let! h := read in
    let growth := saturating_add (lsize (desc_layout d)) (total - indirect (ledger h)) in
    modify (λ h, set_ledger {| indirect := total;
                               peak := Z.max (peak (ledger h)) (saturating_add (bytes (physical h)) total);
                               allocation_growth := saturating_add (allocation_growth (ledger h)) growth |} h) ;;!
    ret (res_reference r)).
Definition alloc_dynamic (l : DynamicLayout) : M Heap ObjectRef :=
  check_allocation (layout_heap l) (layout_descriptor l) ;;!
  allocate_initialized (layout_descriptor l).

(** ** Fields *)
(** [DynamicLayout::pointer]. *)
Definition layout_pointer (l : DynamicLayout) (object : ObjectRef) : M Heap unit :=
  check ;;!
  let! h := read in
  if negb (layout_heap l =? heap_id h)%Z then fail ForeignHeap
  else
    match headers (physical h) !! object with
    | None => undefined
    | Some header => if (hdr_descriptor header =? desc_id (layout_descriptor l))%Z then ret tt else fail Representation
    end.
Definition payload_write (object : ObjectRef) (offset : Z) (v : FieldValue) : M Heap unit :=
  let! h := read in
  match payloads (physical h) !! object with
  | None => undefined
  | Some payload => on_physical (modify (λ p, set_payloads (<[object := <[offset := v]> payload]> (payloads p)) p))
  end.
Definition scalar_get (f : FieldRef) (object : ObjectRef) : M Heap Z :=
  layout_pointer (field_layout_of f) object ;;!
  let! h := read in
  let! v := lift (payload_read h object (field_at f)) in
  match v with VScalar bits => ret bits | VReference _ => undefined end.
Definition scalar_set (f : FieldRef) (object : ObjectRef) (bits : Z) : M Heap unit :=
  layout_pointer (field_layout_of f) object ;;! payload_write object (field_at f) (VScalar bits).
Definition reference_get (f : FieldRef) (object : ObjectRef) : M Heap (option ObjectRef) :=
  layout_pointer (field_layout_of f) object ;;!
  let! h := read in
  let! v := lift (payload_read h object (field_at f)) in
  match v with
  | VScalar _ => undefined
  | VReference None => ret None
  | VReference (Some target) => let! _ := lift (resolve (physical h) target) in ret (Some target)
  end.
(** [Scope::publish_admitted]: a failed publication quarantines the heap. *)
Definition scope_publish (r : ObjectRef) : M Heap unit :=
  let! h := read in
  if bool_decide (phase (marking h) = Idle) then ret tt
  else λ h, match publish_admitted r None h with
            | (Ok _, h) => (Ok tt, h)
            | (Err (GcErr e), h) => (Err (GcErr e), set_marking (set_phase Faulted (marking h)) h)
            | (Err e, h) => (Err e, h)
            end.
Definition reference_set (f : FieldRef) (object : ObjectRef) (value : option ObjectRef) : M Heap unit :=
  layout_pointer (field_layout_of f) object ;;!
  when_some value scope_publish ;;!
  payload_write object (field_at f) (VReference value).

(** ** Roots *)
Definition retention (r : ObjectRef) : M Heap RootId :=
  let! h := read in
  let! _ := lift (resolve (physical h) r) in
  let! prepared := on_roots (roots_prepare 1 true (max_roots (config h))) in
  let! _ := publish r None in
  on_roots (roots_commit prepared (Some r)).
Definition retain (r : ObjectRef) : M Heap RootId := check ;;! retention r.
Definition typed_root (h : Heap) (root : RootId) : result ObjectRef GcFailure :=
  match root_target (roots h) root with
  | Err e => Err e
  | Ok r => match resolve (physical h) r with Err e => Err e | Ok _ => Ok r end
  end.
Definition scope_get (root : RootId) : M Heap ObjectRef :=
  check ;;! let! h := read in lift (typed_root h root).
Definition create_roots (slots : nat) : M Heap RootId :=
  check ;;!
  let! h := read in
  let! prepared := on_roots (roots_prepare slots false (max_roots (config h))) in
  on_roots (roots_commit prepared None).
(** The target of a pack slot. *)
Definition pack_target (e : RootEntry) (index : nat) : result ObjectRef GcFailure :=
  match targets e !! index with Some (Some r) => Ok r | _ => Err (GcErr IndexOutside) end.
Definition get_root (pack : RootId) (index : nat) : M Heap ObjectRef :=
  check ;;!
  let! h := read in
  let! e := of_result (admit_lease (roots h) pack) in
  let! r := lift (pack_target e index) in
  let! _ := lift (resolve (physical h) r) in
  ret r.
Definition set_root (pack : RootId) (index : nat) (value : option ObjectRef) : M Heap unit :=
  check ;;!
  let! h := read in
  let! _ := of_result (replace_admit (roots h) pack index) in
  when_some value (λ r, let! _ := publish r None in ret tt) ;;!
  on_roots (replace_write pack index value).
Definition replace_root (pack : RootId) (index : nat) (source : RootId) : M Heap unit :=
  check ;;!
  let! h := read in
  let! _ := of_result (replace_admit (roots h) pack index) in
  let! target := lift (typed_root h source) in
  let! _ := publish target None in
  on_roots (replace_write pack index (Some target)).
Definition clear_root (pack : RootId) (index : nat) : M Heap unit :=
  check ;;!
  let! h := read in
  let! _ := of_result (replace_admit (roots h) pack index) in
  on_roots (replace_write pack index None).
Definition root_at (pack : RootId) (index : nat) : M Heap RootId :=
  check ;;!
  let! h := read in
  let! e := of_result (admit_lease (roots h) pack) in
  if typed e then fail Representation
  else let! r := lift (pack_target e index) in retention r.
