(* ===== verification/GcInv.v ===== *)
(** * Managed heap: the heap invariant

    [based] and [marks_ok] are the structural part: storage lists, object headers exactly on the
    occupied (or just detached) slots, use counts of descriptors, typed payloads, root
    registrations, and the mark queue.  [tri] is the collection invariant: the
    tricolour condition while marking, closure of the black objects while sweeping, and
    absence of dangling references otherwise. *)
From stdpp Require Import gmap fin_maps.
From S2P Require Import Prelude SlotBits GcBase GcTable GcPage GcColors GcDynamic GcHeap GcStorage GcSlots GcRoots GcRootsProps GcMark GcService.
Open Scope nat_scope.

(** ** Objects *)
Record contents (p : Physical) (pages : gmap Z Page) (D : list (Z * nat)) : Prop := {
  ct_header : ∀ r hd, headers p !! r = Some hd → ∃ pg s, pages !! hdr_allocation hd = Some pg ∧ slot_of pg r = Some s
    ∧ (occ pg s = true ∨ (hdr_allocation hd, s) ∈ D);
  ct_occ : ∀ id pg s, pages !! id = Some pg → occ pg s = true → ∃ r hd, pointer pg s = Some r ∧ headers p !! r = Some hd ∧ hdr_allocation hd = id;
  ct_pending : ∀ id pg s, pages !! id = Some pg → pending_slot pg s = true → (id, s) ∈ D;
  ct_detached : ∀ id s, (id, s) ∈ D → ∃ pg r hd, pages !! id = Some pg ∧ pending_slot pg s = true ∧ pointer pg s = Some r
    ∧ headers p !! r = Some hd ∧ hdr_allocation hd = id;
  ct_nodup : NoDup D;
  ct_objects : objects p = (Z.of_nat (size (headers p)) - Z.of_nat (length D))%Z
}.

Definition uses_of (hs : gmap ObjectRef ObjectHeader) (id : Z) : Z :=
  Z.of_nat (size (filter (λ kv, hdr_descriptor kv.2 = id) hs)).
Record descr_ok (d : Descriptor) : Prop := {
  dk_kind : kind_ok d;
  dk_shape : ∃ kinds, shape_ok kinds (desc_shape d);
  dk_scan : desc_kind d = if bool_decide (references (desc_shape d) = []) then EdgeFree else Resumable
}.
Record registry (d : Descriptors) (hs : gmap ObjectRef ObjectHeader) (dm : gmap Z DescriptorEntry) : Prop := {
  rg_refines : refines (desc_slots d) dm;
  rg_nodup : NoDup (desc_active d);
  rg_active : ∀ id, id ∈ desc_active d ↔ is_Some (dm !! id);
  rg_entry : ∀ id e, dm !! id = Some e → desc_id (entry_descriptor e) = id ∧ (desc_identity (entry_descriptor e) < next_identity d)%Z
    ∧ descr_ok (entry_descriptor e) ∧ uses e = uses_of hs id;
  rg_identity : ∀ i j e e', dm !! i = Some e → dm !! j = Some e' → desc_identity (entry_descriptor e) = desc_identity (entry_descriptor e') → i = j;
  rg_headers : ∀ r hd, hs !! r = Some hd → is_Some (dm !! hdr_descriptor hd)
}.

(** A payload of the kinds of a shape. *)
Definition typed_payload (shape : DynamicShape) (pl : gmap Z FieldValue) : Prop :=
  (∀ i f, shape_fields shape !! i = Some f → match pl !! field_offset f with
     | Some (VReference _) => field_kind f = FReference | Some (VScalar _) => field_kind f ≠ FReference | None => False end)
  ∧ (∀ off t, pl !! off = Some (VReference t) → off ∈ references shape).
Definition payloads_ok (p : Physical) (dm : gmap Z DescriptorEntry) : Prop :=
  ∀ r hd e, headers p !! r = Some hd → dm !! hdr_descriptor hd = Some e →
    ∃ pl, payloads p !! r = Some pl ∧ typed_payload (desc_shape (entry_descriptor e)) pl.

Definition edge (p : Physical) (r t : ObjectRef) : Prop :=
  ∃ pl off, payloads p !! r = Some pl ∧ pl !! off = Some (VReference (Some t)).
Definition present (p : Physical) (r : ObjectRef) : Prop := is_Some (headers p !! r).

(** ** Colours of objects *)
Definition disc (pages : gmap Z Page) (e : Z) (r : ObjectRef) : Prop :=
  ∃ id pg s, pages !! id = Some pg ∧ slot_of pg r = Some s ∧ discb (marks pg) e s = true.
Definition blk (pages : gmap Z Page) (e : Z) (r : ObjectRef) : Prop :=
  ∃ id pg s, pages !! id = Some pg ∧ slot_of pg r = Some s ∧ blackb (marks pg) e s = true.

Record marks_ok (m : Marking) (pages : gmap Z Page) : Prop := {
  mk_epoch : ∀ id pg, pages !! id = Some pg → (mark_epoch (marks pg) <= epoch m)%Z;
  mk_black : ∀ id pg s, pages !! id = Some pg → blackb (marks pg) (epoch m) s = true → discb (marks pg) (epoch m) s = true;
  mk_occ : ∀ id pg s, pages !! id = Some pg → discb (marks pg) (epoch m) s = true → occ pg s = true;
  mk_queue : ∀ id pg, pages !! id = Some pg → queued (marks pg) = true ↔ id ∈ pending m;
  mk_fresh : ∀ id pg, pages !! id = Some pg → queued (marks pg) = true → reset_needed (marks pg) (epoch m) = false;
  mk_nodup : NoDup (pending m);
  mk_dom : ∀ id, id ∈ pending m → is_Some (pages !! id);
  mk_capacity : (Z.of_nat (size pages) <= pending_capacity m)%Z;
  mk_nonneg : (0 <= epoch m)%Z
}.
(** Gray slots are queued, or the one that is being scanned. *)
Definition gray_ok (m : Marking) (pages : gmap Z Page) (scan : option ActiveScan) : Prop :=
  ∀ id pg s, pages !! id = Some pg → grayb (marks pg) (epoch m) s = true →
    id ∈ pending m ∨ ∃ a, scan = Some a ∧ slot_of pg (owner a) = Some s.

Record based (h : Heap) (pages : gmap Z Page) (l : list Z) (av : nat → list Z) (rm : gmap Z RootSlot) (dm : gmap Z DescriptorEntry)
    (D : list (Z * nat)) : Prop := {
  ba_storage : storage (physical h) pages l av;
  ba_contents : contents (physical h) pages D;
  ba_registry : registry (descriptors (physical h)) (headers (physical h)) dm;
  ba_payloads : payloads_ok (physical h) dm;
  ba_roots : roots_ok (roots h) rm;
  ba_heap : roots_heap (roots h) = heap_id h;
  ba_ledger : indirect (ledger h) = 0%Z ∧ (0 <= max_indirect_bytes (config h))%Z
}.
Definition shaped (h : Heap) (pages : gmap Z Page) (l : list Z) (av : nat → list Z) (rm : gmap Z RootSlot) (dm : gmap Z DescriptorEntry)
    (D : list (Z * nat)) : Prop := based h pages l av rm dm D ∧ marks_ok (marking h) pages.

(** ** Reachability *)
Definition live_root (rm : gmap Z RootSlot) (t : ObjectRef) : Prop :=
  ∃ s e, rm !! s = Some e ∧ 0 < strong (entry e) ∧ Some t ∈ targets (entry e).
Inductive reachable (p : Physical) (rm : gmap Z RootSlot) : ObjectRef → Prop :=
| reach_root t : live_root rm t → reachable p rm t
| reach_edge r t : reachable p rm r → edge p r t → reachable p rm t.

(** ** The collection invariant *)
(** No dangling references. *)
Definition closed (p : Physical) (rm : gmap Z RootSlot) : Prop :=
  (∀ r t, present p r → edge p r t → present p t) ∧ ∀ t, live_root rm t → present p t.
Definition black_published (p : Physical) (pages : gmap Z Page) (e : Z) : Prop :=
  ∀ r t, blk pages e r → edge p r t → disc pages e t.
(** The scanned prefix of the object being scanned is published. *)
Definition scan_ok (h : Heap) (pages : gmap Z Page) (dm : gmap Z DescriptorEntry) : Prop :=
  match active_scan h with
  | None => True
  | Some a => restart a = false ∧ ∃ hd e, headers (physical h) !! owner a = Some hd ∧ dm !! hdr_descriptor hd = Some e
      ∧ scan_descriptor a = entry_descriptor e ∧ disc pages (epoch (marking h)) (owner a) ∧ ¬ blk pages (epoch (marking h)) (owner a)
      ∧ ∀ k off pl t, k < scan_next h → references (desc_shape (entry_descriptor e)) !! k = Some off →
          payloads (physical h) !! owner a = Some pl → pl !! off = Some (VReference (Some t)) → disc pages (epoch (marking h)) t
  end.
(** The registrations behind the cursor, and those made since, are published. *)
Record cursor_ok (h : Heap) (pages : gmap Z Page) (rm : gmap Z RootSlot) : Prop := {
  cu_bounds : cursor_next (root_cursor h) ≤ cursor_end (root_cursor h) ≤ length (root_active (roots h));
  cu_active : match cursor_active (root_cursor h) with
              | None => cursor_target (root_cursor h) = 0
              | Some id => root_heap id = heap_id h ∧ root_active (roots h) !! cursor_next (root_cursor h) = Some (root_slot id)
                  ∧ ∃ e, rm !! root_slot id = Some e ∧ generation e = root_generation id ∧ cursor_target (root_cursor h) ≤ length (targets (entry e))
              end;
  cu_disc : ∀ i s e t, root_active (roots h) !! i = Some s → rm !! s = Some e → 0 < strong (entry e) → Some t ∈ targets (entry e) →
    i < cursor_next (root_cursor h) ∨ cursor_end (root_cursor h) ≤ i → disc pages (epoch (marking h)) t;
  cu_part : ∀ s e k t, root_active (roots h) !! cursor_next (root_cursor h) = Some s → cursor_next (root_cursor h) < cursor_end (root_cursor h) →
    rm !! s = Some e → 0 < strong (entry e) → k < cursor_target (root_cursor h) → targets (entry e) !! k = Some (Some t) → disc pages (epoch (marking h)) t
}.
(** Every object of the page that is still there is black. *)
Definition clean (pages : gmap Z Page) (e : Z) (id : Z) : Prop :=
  ∀ pg s, pages !! id = Some pg → occ pg s = true → blackb (marks pg) e s = true.
Definition swept (h : Heap) (pages : gmap Z Page) (l : list Z) : Prop :=
  let e := epoch (marking h) in
  match sweep_stage h with
  | StagePhysical => ∃ k, cursor_page (cursor (physical h)) = l !! k
      ∧ (∀ j id, j < k → l !! j = Some id → clean pages e id)
      ∧ (∀ id pg s, l !! k = Some id → pages !! id = Some pg → s < cursor_slot (cursor (physical h)) → occ pg s = true → blackb (marks pg) e s = true)
  | StageRoots n => (∀ id, clean pages e id) ∧ n ≤ pending_releases (roots h)
  | StageDescriptors n => (∀ id, clean pages e id) ∧ n ≤ length (desc_active (descriptors (physical h)))
  end.
Record sweeping (h : Heap) (pages : gmap Z Page) (l : list Z) (rm : gmap Z RootSlot) : Prop := {
  sw_active : active_scan h = None;
  sw_pending : pending (marking h) = [];
  sw_black : ∀ r t, blk pages (epoch (marking h)) r → edge (physical h) r t → blk pages (epoch (marking h)) t;
  sw_roots : ∀ t, live_root rm t → blk pages (epoch (marking h)) t;
  sw_gray : ∀ r, disc pages (epoch (marking h)) r → blk pages (epoch (marking h)) r;
  sw_swept : swept h pages l
}.
Definition tri (h : Heap) (pages : gmap Z Page) (l : list Z) (rm : gmap Z RootSlot) (dm : gmap Z DescriptorEntry) : Prop :=
  match phase (marking h) with
  | Idle => active_scan h = None ∧ pending (marking h) = [] ∧ closed (physical h) rm
  | Roots_ => active_scan h = None ∧ closed (physical h) rm ∧ black_published (physical h) pages (epoch (marking h))
      ∧ gray_ok (marking h) pages None ∧ cursor_ok h pages rm
  | Mark => closed (physical h) rm ∧ black_published (physical h) pages (epoch (marking h))
      ∧ gray_ok (marking h) pages (active_scan h) ∧ scan_ok h pages dm ∧ ∀ t, live_root rm t → disc pages (epoch (marking h)) t
  | Sweep => sweeping h pages l rm
  | Faulted => True
  | Closed => False
  end.

(** ** Slots and addresses *)
Lemma slot_of_same pg pg' r : backing pg' = backing pg → group_id pg' = group_id pg → slot_of pg' r = slot_of pg r.
Proof.
  intros Hb Hg. unfold slot_of, page_slots, group_id in *. rewrite Hb. destruct (header pg), (header pg'); by simplify_eq.
Qed.
Lemma pointer_same pg pg' s : backing pg' = backing pg → group_id pg' = group_id pg → pointer pg' s = pointer pg s.
Proof.
  intros Hb Hg. unfold pointer, page_slots, page_stride, group_id in *. rewrite Hb. destruct (header pg), (header pg'); by simplify_eq.
Qed.
Lemma slot_of_inj pg r r' s : slot_of pg r = Some s → slot_of pg r' = Some s → r = r'.
Proof. intros H%pointer_slot_of H'%pointer_slot_of. congruence. Qed.
Lemma slot_owner p pages l av id id' pg pg' r s s' : core p pages l av → pages !! id = Some pg → pages !! id' = Some pg' →
  slot_of pg r = Some s → slot_of pg' r = Some s' → id = id' ∧ s = s'.
Proof.
  intros Hc Hp Hp' Hs Hs'. destruct (slot_of_bound _ _ _ Hs) as [_ Hb], (slot_of_bound _ _ _ Hs') as [_ Hb'].
  assert (id = id') as -> by (eapply (co_backing _ _ _ _ Hc); [done|done|congruence]). split; [done|]. congruence.
Qed.

Section Colours.
Context (p : Physical) (pages : gmap Z Page) (l : list Z) (av : nat → list Z) (Hc : core p pages l av).

Lemma disc_at e id pg r s : pages !! id = Some pg → slot_of pg r = Some s → disc pages e r ↔ discb (marks pg) e s = true.
Proof.
  intros Hp Hs. split; [|by exists id, pg, s]. intros (id' & pg' & s' & Hp' & Hs' & Hd).
  destruct (slot_owner _ _ _ _ _ _ _ _ _ _ _ Hc Hp Hp' Hs Hs') as [-> ->]. congruence.
Qed.
Lemma blk_at e id pg r s : pages !! id = Some pg → slot_of pg r = Some s → blk pages e r ↔ blackb (marks pg) e s = true.
Proof.
  intros Hp Hs. split; [|by exists id, pg, s]. intros (id' & pg' & s' & Hp' & Hs' & Hd).
  destruct (slot_owner _ _ _ _ _ _ _ _ _ _ _ Hc Hp Hp' Hs Hs') as [-> ->]. congruence.
Qed.
Lemma colour_edit id pg m' e r s d b : pages !! id = Some pg → slot_of pg r = Some s →
  (∀ x, x ≠ s → discb m' e x = discb (marks pg) e x ∧ blackb m' e x = blackb (marks pg) e x) → discb m' e s = d → blackb m' e s = b →
  let pages' := <[id := with_marks pg m']> pages in
  (∀ x, disc pages' e x ↔ (x ≠ r ∧ disc pages e x) ∨ (x = r ∧ d = true)) ∧ (∀ x, blk pages' e x ↔ (x ≠ r ∧ blk pages e x) ∨ (x = r ∧ b = true)).
Proof.
  intros Hp Hs Hoth Hd Hb pages'.
  assert (∀ f : PageMarks → Z → nat → bool, (∀ x, x ≠ s → f m' e x = f (marks pg) e x) → ∀ x,
    (∃ i q k, pages' !! i = Some q ∧ slot_of q x = Some k ∧ f (marks q) e k = true)
    ↔ (x ≠ r ∧ (∃ i q k, pages !! i = Some q ∧ slot_of q x = Some k ∧ f (marks q) e k = true)) ∨ (x = r ∧ f m' e s = true)) as Hgen.
  { intros f Hf x. split.
    - intros (i & q & k & Hq & Hk & Hx). unfold pages' in Hq. destruct (decide (i = id)) as [->|Hi].
      + rewrite lookup_insert_eq in Hq. injection Hq as <-. change (slot_of pg x = Some k) in Hk. cbn [marks with_marks] in Hx. destruct (decide (k = s)) as [->|Hne].
        * right. split; [by eapply slot_of_inj|done].
        * left. split; [intros ->; congruence|]. exists id, pg, k. rewrite <- Hf by done. done.
      + rewrite lookup_insert_ne in Hq by done. left. split; [|by exists i, q, k]. intros ->. by destruct (slot_owner _ _ _ _ _ _ _ _ _ _ _ Hc Hp Hq Hs Hk).
    - intros [[Hne (i & q & k & Hq & Hk & Hx)]|[-> Hx]].
      + destruct (decide (i = id)) as [->|Hi]; [|exists i, q, k; unfold pages'; by rewrite lookup_insert_ne].
        exists id, (with_marks pg m'), k. unfold pages'. rewrite lookup_insert_eq. rewrite Hp in Hq. injection Hq as <-. split; [done|]. split; [done|].
        cbn [marks with_marks]. rewrite Hf; [done|]. intros ->. apply Hne. by eapply slot_of_inj.
      + exists id, (with_marks pg m'), s. unfold pages'. by rewrite lookup_insert_eq. }
  split; intros x; unfold disc, blk.
  - rewrite (Hgen discb) by (intros; by apply Hoth). by rewrite Hd.
  - rewrite (Hgen blackb) by (intros; by apply Hoth). by rewrite Hb.
Qed.
End Colours.

Lemma colour_similar pages pages' e r : (∀ j, option_Forall2 kin (pages !! j) (pages' !! j)) →
  (disc pages' e r ↔ disc pages e r) ∧ (blk pages' e r ↔ blk pages e r).
Proof.
  intros Hs. assert (∀ f : PageMarks → Z → nat → bool,
    (∃ i q k, pages' !! i = Some q ∧ slot_of q r = Some k ∧ f (marks q) e k = true) ↔ (∃ i q k, pages !! i = Some q ∧ slot_of q r = Some k ∧ f (marks q) e k = true)) as Hgen.
  { intros f. split; intros (i & q & k & Hq & Hk & Hx).
    - destruct (similar_lookup_r _ _ _ _ Hs Hq) as (q0 & Hq0 & K). exists i, q0, k. rewrite <- (kin_marks _ _ K). split; [done|]. split; [|done].
      rewrite <- Hk. symmetry. apply slot_of_same; [apply K|apply K].
    - destruct (similar_lookup _ _ _ _ Hs Hq) as (q0 & Hq0 & K). exists i, q0, k. rewrite (kin_marks _ _ K). split; [done|]. split; [|done].
      rewrite <- Hk. apply slot_of_same; [apply K|apply K]. }
  split; apply Hgen.
Qed.
