(* ===== verification/GcMarkProps.v ===== *)
(** * Managed heap: publication and the mark queue keep the invariant *)
From stdpp Require Import gmap fin_maps.
From S2P Require Import Prelude SlotBits GcBase GcTable GcPage GcColors GcDynamic GcHeap GcStorage GcSlots GcRoots GcRootsProps GcMark GcService GcInv.
Open Scope nat_scope.

Lemma wp_physical {A} (E : GcFailure → Heap → Prop) (m : M Physical A) Q h :
  wp (λ e p, E e (set_physical p h)) m (λ a p, Q a (set_physical p h)) (physical h) → wp E (on_physical m) Q h.
Proof. apply wp_zoom. Qed.
Lemma wp_roots {A} (E : GcFailure → Heap → Prop) (m : M Roots A) Q h :
  wp (λ e p, E e (set_roots p h)) m (λ a p, Q a (set_roots p h)) (roots h) → wp E (on_roots m) Q h.
Proof. apply wp_zoom. Qed.
Lemma wp_lift {S A} (E : GcFailure → S → Prop) (r : result A GcFailure) a Q s : r = Ok a → Q a s → wp E (lift r) Q s.
Proof. by intros ->. Qed.

Lemma storage_page_ok p pages l av id pg : storage p pages l av → pages !! id = Some pg → page_ok pg.
Proof. intros Hs Hp. by apply (co_page _ _ _ _ (sg_core _ _ _ _ Hs) id). Qed.

(** ** Resolution of present objects *)
Record located (p : Physical) (pages : gmap Z Page) (dm : gmap Z DescriptorEntry) (r : ObjectRef) (hd : ObjectHeader) (pg : Page) (s : nat) (e : DescriptorEntry) : Prop := {
  lo_header : headers p !! r = Some hd; lo_page : pages !! hdr_allocation hd = Some pg; lo_slot : slot_of pg r = Some s;
  lo_occ : occ pg s = true; lo_entry : dm !! hdr_descriptor hd = Some e;
  lo_locate : locate p r = Ok {| loc_page := pg; loc_id := hdr_allocation hd; loc_slot := s; loc_descriptor := hdr_descriptor hd |};
  lo_resolve : resolve p r = Ok {| obj_reference := r; obj_descriptor := entry_descriptor e; obj_page := hdr_allocation hd; obj_slot := s |}
}.
Lemma descriptor_get_spec d hs dm id e : registry d hs dm → dm !! id = Some e → descriptor_get id d = Ok (entry_descriptor e).
Proof.
  intros Hr He. unfold descriptor_get. rewrite (rf_get _ _ (rg_refines _ _ _ Hr)), He; [done|]. apply (rf_dom _ _ (rg_refines _ _ _ Hr)). by eexists.
Qed.
Lemma locate_present h pages l av rm dm r : based h pages l av rm dm [] → present (physical h) r → ∃ hd pg s e, located (physical h) pages dm r hd pg s e.
Proof.
  intros [Hs Hc Hg _ _ _ _] [hd Hhd]. destruct (ct_header _ _ _ Hc r hd Hhd) as (pg & s & Hp & Hslot & Hor).
  assert (occ pg s = true) as Hocc by (destruct Hor as [?|Hin]; [done|by apply elem_of_nil in Hin]).
  destruct (rg_headers _ _ _ Hg r hd Hhd) as [e He]. exists hd, pg, s, e.
  assert (locate (physical h) r = Ok {| loc_page := pg; loc_id := hdr_allocation hd; loc_slot := s; loc_descriptor := hdr_descriptor hd |}) as Hloc.
  { unfold locate. rewrite Hhd, (page_get _ _ _ _ (co_refines _ _ _ _ (sg_core _ _ _ _ Hs)) Hp), Hslot.
    rewrite occupied_some, Hocc; [done|]. by eapply storage_page_ok. }
  split; try done. unfold resolve. rewrite Hloc. unfold checked_object. rewrite Hhd. cbn [loc_id loc_slot].
  by rewrite (descriptor_get_spec _ _ _ _ _ Hg He).
Qed.

(** ** Edits of marks *)
Lemma contents_pages p p' pages pages' D : contents p pages D → headers p' = headers p → objects p' = objects p →
  (∀ id, option_Forall2 (λ pg pg', (∀ r, slot_of pg' r = slot_of pg r) ∧ (∀ s, pointer pg' s = pointer pg s) ∧ (∀ s, occ pg' s = occ pg s) ∧ ∀ s, pending_slot pg' s = pending_slot pg s)
     (pages !! id) (pages' !! id)) → contents p' pages' D.
Proof.
  intros [] Hh Ho Hp.
  assert (∀ id pg', pages' !! id = Some pg' → ∃ pg, pages !! id = Some pg ∧ (∀ r, slot_of pg' r = slot_of pg r) ∧ (∀ s, pointer pg' s = pointer pg s) ∧ (∀ s, occ pg' s = occ pg s) ∧ ∀ s, pending_slot pg' s = pending_slot pg s) as Hback.
  { intros id pg' Hpg'. specialize (Hp id). rewrite Hpg' in Hp. inversion Hp; subst; eauto. }
  assert (∀ id pg, pages !! id = Some pg → ∃ pg', pages' !! id = Some pg' ∧ (∀ r, slot_of pg' r = slot_of pg r) ∧ (∀ s, pointer pg' s = pointer pg s) ∧ (∀ s, occ pg' s = occ pg s) ∧ ∀ s, pending_slot pg' s = pending_slot pg s) as Hforth.
  { intros id pg Hpg. specialize (Hp id). rewrite Hpg in Hp. inversion Hp; subst; eauto. }
  split; rewrite ?Hh, ?Ho; try done.
  - intros r hd Hhd. destruct (ct_header r hd Hhd) as (pg & s & Hpg & Hs & Hor). destruct (Hforth _ _ Hpg) as (pg' & Hpg' & H1 & _ & H3 & _).
    exists pg', s. by rewrite H1, H3.
  - intros id pg' s Hpg' Hocc. destruct (Hback _ _ Hpg') as (pg & Hpg & _ & H2 & H3 & _). rewrite H3 in Hocc. destruct (ct_occ id pg s Hpg Hocc) as (r & hd & ?). exists r, hd. by rewrite H2.
  - intros id pg' s Hpg' Hpe. destruct (Hback _ _ Hpg') as (pg & Hpg & _ & _ & _ & H4). rewrite H4 in Hpe. by eapply ct_pending.
  - intros id s Hin. destruct (ct_detached id s Hin) as (pg & r & hd & Hpg & ?). destruct (Hforth _ _ Hpg) as (pg' & Hpg' & _ & H2 & _ & H4). exists pg', r, hd. by rewrite H2, H4.
Qed.

Lemma edit_marks_spec E h pages l av rm dm D id pg m' Q : based h pages l av rm dm D → pages !! id = Some pg → rows_ok m' →
  (∀ t, let h' := set_physical (set_allocations t (physical h)) h in based h' (<[id := with_marks pg m']> pages) l av rm dm D → Q tt h') →
  wp E (edit_marks id m') Q h.
Proof.
  intros [Hs Hc Hg Hpl Hr Hh Hled] Hp Hm HQ. apply wp_physical. destruct (co_page _ _ _ _ (sg_core _ _ _ _ Hs) id pg Hp) as (Hok & _).
  eapply (wp_edit_page _ _ pages l av id pg (with_marks pg m')); [done|done|done|by apply with_marks_restated|done|]. intros t Hst. apply HQ. split; try done.
  eapply contents_pages; [exact Hc|done|done|]. intros j. destruct (decide (j = id)) as [->|]; [rewrite lookup_insert_eq, Hp; by constructor|].
  rewrite lookup_insert_ne by done. by destruct (pages !! j); constructor.
Qed.

Lemma marks_ok_edit m k pages id pg m' : marks_ok m pages → pages !! id = Some pg → epoch k = epoch m → pending_capacity k = pending_capacity m →
  (mark_epoch m' <= epoch m)%Z → (∀ s, blackb m' (epoch m) s = true → discb m' (epoch m) s = true) → (∀ s, discb m' (epoch m) s = true → occ pg s = true) →
  (queued m' = true ↔ id ∈ pending k) → (queued m' = true → reset_needed m' (epoch m) = false) → (∀ j, j ≠ id → j ∈ pending k ↔ j ∈ pending m) →
  NoDup (pending k) → marks_ok k (<[id := with_marks pg m']> pages).
Proof.
  intros [] Hp He Hcap Hep Hbl Hoc Hq Hfr Hoth Hnd.
  split; rewrite ?He, ?Hcap; try done.
  - intros j q [[<- <-]|[Hne Hj]]%lookup_insert_Some; [done|]. by apply (mk_epoch j).
  - intros j q s [[<- <-]|[Hne Hj]]%lookup_insert_Some; [apply Hbl|]. by apply (mk_black j).
  - intros j q s [[<- <-]|[Hne Hj]]%lookup_insert_Some; [apply Hoc|]. by apply (mk_occ j).
  - intros j q [[<- <-]|[Hne Hj]]%lookup_insert_Some; [done|]. rewrite Hoth by done. by apply mk_queue.
  - intros j q [[<- <-]|[Hne Hj]]%lookup_insert_Some; [done|]. by apply (mk_fresh j).
  - intros j Hj. destruct (decide (j = id)) as [->|]; [rewrite lookup_insert_eq; by eexists|]. rewrite lookup_insert_ne by done. apply mk_dom. by apply Hoth.
  - rewrite map_size_insert_Some by (by eexists). done.
Qed.

(** ** Publication *)
(** What marking operations leave alone. *)
Record marked (h h' : Heap) : Prop := {
  md_headers : headers (physical h') = headers (physical h); md_payloads : payloads (physical h') = payloads (physical h);
  md_descriptors : descriptors (physical h') = descriptors (physical h); md_cursor : cursor (physical h') = cursor (physical h);
  md_roots : roots h' = roots h; md_id : heap_id h' = heap_id h; md_config : config h' = config h; md_scan : active_scan h' = active_scan h;
  md_next : scan_next h' = scan_next h; md_root_cursor : root_cursor h' = root_cursor h; md_stage : sweep_stage h' = sweep_stage h;
  md_phase : phase (marking h') = phase (marking h); md_epoch : epoch (marking h') = epoch (marking h); md_cycles : cycles (marking h') = cycles (marking h);
  md_ledger : ledger h' = ledger h
}.
#[export] Instance marked_preorder : PreOrder marked.
Proof. split; [by split|]. intros a b c [] []. split; congruence. Qed.

Lemma size_bound `{Countable K} {A} (m : gmap K A) (ids : list K) : NoDup ids → (∀ id, id ∈ ids → is_Some (m !! id)) → length ids ≤ size m.
Proof.
  intros Hnd Hd. rewrite <- size_dom. replace (length ids) with (size (list_to_set ids : gset K)) by (by apply size_list_to_set).
  apply subseteq_size. intros id Hid%elem_of_list_to_set. apply elem_of_dom. by apply Hd.
Qed.
Lemma pending_room m pages id : marks_ok m pages → is_Some (pages !! id) → id ∉ pending m → (Z.of_nat (length (pending m)) < pending_capacity m)%Z.
Proof.
  intros [] Hid Hnin. assert (length (id :: pending m) ≤ size pages) as Hl; [|cbn in Hl; lia].
  apply size_bound; [by constructor|]. intros j [->|Hj]%elem_of_cons; [done|by apply mk_dom].
Qed.
Lemma queued_current m pages id pg : marks_ok m pages → pages !! id = Some pg → queuedb (marks pg) (epoch m) = queued (marks pg).
Proof. intros Hm Hp. unfold queuedb. destruct (queued (marks pg)) eqn:E; [|by rewrite andb_false_r]. by rewrite (mk_fresh _ _ Hm id pg Hp E). Qed.
Lemma remarked_queued e m d b q : remarked e m d b q → queued m = q.
Proof. intros [_ Hf _ _ Hq]. unfold queuedb in Hq. by rewrite Hf in Hq. Qed.
Lemma remarked_epoch e m d b q : remarked e m d b q → mark_epoch m = e.
Proof. intros [_ Hf _ _ _]. unfold reset_needed in Hf. apply negb_false_iff, Z.eqb_eq in Hf. done. Qed.

(** Pages that differ in their marks only. *)
Definition repainted (pages pages' : gmap Z Page) : Prop := ∀ id, option_Forall2 (λ p p', ∃ m, p' = with_marks p m) (pages !! id) (pages' !! id).
#[export] Instance repainted_preorder : PreOrder repainted.
Proof.
  split.
  - intros pages id. destruct (pages !! id) as [pg|]; constructor. exists (marks pg). by destruct pg.
  - intros p1 p2 p3 H H' id. specialize (H id). specialize (H' id). inversion H as [x y [m1 E1] X Y|X Y]; subst; rewrite <- Y in H'; inversion H' as [x' y' [m2 E2]|]; subst; constructor.
    by exists m2.
Qed.
Lemma repainted_insert pages id pg m : pages !! id = Some pg → repainted pages (<[id := with_marks pg m]> pages).
Proof.
  intros Hp j. destruct (decide (id = j)) as [<-|Hj]; [rewrite Hp, lookup_insert_eq; constructor; by exists m|]. rewrite lookup_insert_ne by done. apply (reflexivity (R := repainted) pages).
Qed.
Lemma repainted_back pages pages' id pg' : repainted pages pages' → pages' !! id = Some pg' → ∃ pg m, pages !! id = Some pg ∧ pg' = with_marks pg m.
Proof. intros H Hp. specialize (H id). rewrite Hp in H. inversion H as [x y [m ?]|]; subst. eauto. Qed.
Lemma repainted_forth pages pages' id pg : repainted pages pages' → pages !! id = Some pg → ∃ m, pages' !! id = Some (with_marks pg m).
Proof. intros H Hp. specialize (H id). rewrite Hp in H. inversion H as [x y [m ?]|]; subst. eauto. Qed.

Definition discovers (pages pages' : gmap Z Page) (e : Z) (r : ObjectRef) (leaf : Prop) : Prop :=
  (∀ x, disc pages' e x ↔ disc pages e x ∨ x = r) ∧ (∀ x, blk pages' e x ↔ blk pages e x ∨ (x = r ∧ leaf)) ∧ repainted pages pages'.

Lemma discover_spec E h pages l av rm dm r hd pg s e Q : shaped h pages l av rm dm [] → located (physical h) pages dm r hd pg s e →
  discb (marks pg) (epoch (marking h)) s = false →
  (∀ h' pages', shaped h' pages' l av rm dm [] → marked h h' → discovers pages pages' (epoch (marking h)) r (desc_kind (entry_descriptor e) = EdgeFree) →
     length (pending (marking h')) ≤ S (length (pending (marking h))) →
     (∀ sc, gray_ok (marking h) pages sc → gray_ok (marking h') pages' sc) → Q tt h') →
  wp E (discover {| loc_page := pg; loc_id := hdr_allocation hd; loc_slot := s; loc_descriptor := hdr_descriptor hd |}) Q h.
Proof.
  intros [Hb Hm] [Hhd Hp Hslot Hocc He _ _] Hnd HQ. unfold discover. apply wp_bind, wp_read. cbn zeta. cbn [loc_page loc_id loc_slot loc_descriptor].
  set (ep := epoch (marking h)) in *. set (id := hdr_allocation hd) in *. pose proof (storage_page_ok _ _ _ _ _ _ (ba_storage _ _ _ _ _ _ _ Hb) Hp) as Hok.
  pose proof (pk_marks _ Hok) as Hrows. pose proof (occ_bound _ _ Hocc) as Hs. pose proof (page_slots_bound _ Hok) as Hsl.
  assert (blackb (marks pg) ep s = false) as Hnb.
  { destruct (blackb (marks pg) ep s) eqn:Eb; [|done]. apply (mk_black _ _ Hm id pg) in Eb; [|done]. fold ep in Eb. congruence. }
  apply wp_bind. eapply wp_lift; [eapply descriptor_get_spec; [apply Hb|exact He]|].
  assert (core (physical h) pages l av) as Hc by apply Hb. pose proof (queued_current _ _ _ _ Hm Hp) as Hqc. pose proof (mk_queue _ _ Hm id pg Hp) as Hqi.
  destruct (with_discovered_spec (marks pg) s ep Hrows ltac:(lia)) as (m1 & Hm1 & R1). fold ep in Hqc. rewrite Hqc in R1.
  case_bool_decide as Hleaf; cbn [negb andb].
  - apply wp_bind. eapply wp_or_panic; [exact Hm1|]. apply wp_bind.
    destruct (set_black_spec m1 s ep (rm_ok _ _ _ _ _ R1) ltac:(lia)) as (m2 & Hm2 & R2). eapply wp_or_panic; [exact Hm2|].
    assert (∀ x, discb m2 ep x = bool_decide (x = s) || discb (marks pg) ep x) as Hd2.
    { intros x. rewrite (rm_disc _ _ _ _ _ R2). unfold added. rewrite (rm_disc _ _ _ _ _ R1). unfold added. by destruct (bool_decide (x = s)). }
    assert (∀ x, blackb m2 ep x = bool_decide (x = s) || blackb (marks pg) ep x) as Hb2.
    { intros x. rewrite (rm_black _ _ _ _ _ R2). unfold added. by rewrite (rm_black _ _ _ _ _ R1). }
    assert (queued m2 = queued (marks pg)) as Hq2.
    { rewrite (remarked_queued _ _ _ _ _ R2), (rm_queued _ _ _ _ _ R1). done. }
    eapply edit_marks_spec; [exact Hb|exact Hp|apply R2|]. intros t h' Hb'. apply (HQ h' (<[id := with_marks pg m2]> pages)).
    + split; [exact Hb'|]. eapply (marks_ok_edit (marking h)); try done; fold ep.
      * by rewrite (remarked_epoch _ _ _ _ _ R2).
      * intros x. rewrite Hd2, Hb2, !orb_true_iff. intros [?|?]; [by left|right]. by apply (mk_black _ _ Hm id pg).
      * intros x. rewrite Hd2, orb_true_iff. intros [->%bool_decide_eq_true|?]; [done|]. by apply (mk_occ _ _ Hm id pg).
      * by rewrite Hq2.
      * intros _. apply R2.
      * apply Hm.
    + by split.
    + destruct (colour_edit (physical h) pages l av Hc id pg m2 ep r s true true Hp Hslot) as [Hcd Hcb].
      { intros x Hx. rewrite Hd2, Hb2, bool_decide_eq_false_2 by done. done. }
      { by rewrite Hd2, bool_decide_eq_true_2. }
      { by rewrite Hb2, bool_decide_eq_true_2. }
      split_and!; [intros x; rewrite Hcd|intros x; rewrite Hcb|by apply repainted_insert]; destruct (decide (x = r)) as [->|]; tauto.
    + cbn. lia.
    + intros sc Hg j q k. intros [[<- <-]|[Hne Hj]]%lookup_insert_Some; [|by apply (Hg j)]. cbn [marks with_marks]. unfold grayb. fold ep.
      rewrite Hd2, Hb2. destruct (decide (k = s)) as [->|Hk]; [by rewrite bool_decide_eq_true_2|]. rewrite bool_decide_eq_false_2 by done. cbn [orb]. intros Hgr. by apply (Hg id pg k).
  - assert (id ∈ pending (marking h) ∨ (Z.of_nat (length (pending (marking h))) < pending_capacity (marking h))%Z) as Hroom.
    { destruct (decide (id ∈ pending (marking h))); [by left|right]. eapply pending_room; [done|by eexists|done]. }
    replace (negb (queued (marks pg)) && _) with false.
    2: { symmetry. apply andb_false_iff. destruct Hroom as [Hin|Hlt]; [left; apply negb_false_iff; by apply Hqi|right; apply Z.eqb_neq; lia]. }
    apply wp_bind. eapply wp_or_panic; [exact Hm1|]. apply wp_bind. set (m2 := set_queued m1 true).
    assert (remarked ep m2 (added (discb (marks pg) ep) s) (blackb (marks pg) ep) true) as R2 by (by eapply set_queued_spec).
    pose proof (remarked_queued _ _ _ _ _ R1) as Hq1.
    eapply edit_marks_spec; [exact Hb|exact Hp|apply R2|]. intros t h1 Hb1.
    assert (∀ k, epoch k = ep → pending_capacity k = pending_capacity (marking h) →
       pending k = (if queued (marks pg) then pending (marking h) else id :: pending (marking h)) →
       marks_ok k (<[id := with_marks pg m2]> pages) ∧ (∀ sc, gray_ok (marking h) pages sc → gray_ok k (<[id := with_marks pg m2]> pages) sc)) as Hk.
    { intros k Hke Hkc Hkp. assert (id ∈ pending k) as Hin by (rewrite Hkp; destruct (queued (marks pg)); [by apply Hqi|left]). split.
      - eapply (marks_ok_edit (marking h)); try done; fold ep.
        + by rewrite (remarked_epoch _ _ _ _ _ R2).
        + intros x. rewrite (rm_disc _ _ _ _ _ R2), (rm_black _ _ _ _ _ R2). unfold added. intros Hx. apply orb_true_iff. right. by apply (mk_black _ _ Hm id pg).
        + intros x. rewrite (rm_disc _ _ _ _ _ R2). unfold added. rewrite orb_true_iff. intros [->%bool_decide_eq_true|?]; [done|]. by apply (mk_occ _ _ Hm id pg).
        + intros _. apply R2.
        + intros j Hj. rewrite Hkp. destruct (queued (marks pg)); [done|]. rewrite elem_of_cons. naive_solver.
        + rewrite Hkp. destruct (queued (marks pg)) eqn:Eq; [apply Hm|]. constructor; [|apply Hm]. rewrite <- Hqi. done.
      - intros sc Hg j q x. intros [[<- <-]|[Hne Hj]]%lookup_insert_Some; [by left|]. rewrite Hke. intros Hx. destruct (Hg j q x Hj Hx) as [Hp'|?]; [left|by right].
        rewrite Hkp. destruct (queued (marks pg)); [done|by right]. }
    assert (discovers pages (<[id := with_marks pg m2]> pages) ep r (desc_kind (entry_descriptor e) = EdgeFree)) as Hdisc.
    { destruct (colour_edit (physical h) pages l av Hc id pg m2 ep r s true false Hp Hslot) as [Hcd Hcb].
      { intros x Hx. rewrite (rm_disc _ _ _ _ _ R2), (rm_black _ _ _ _ _ R2). unfold added. by rewrite bool_decide_eq_false_2. }
      { rewrite (rm_disc _ _ _ _ _ R2). unfold added. by rewrite bool_decide_eq_true_2. }
      { by rewrite (rm_black _ _ _ _ _ R2). }
      split_and!; [intros x; rewrite Hcd|intros x; rewrite Hcb|by apply repainted_insert]; destruct (decide (x = r)) as [->|]; try tauto.
      rewrite (blk_at _ _ _ _ Hc ep id pg r s Hp Hslot), Hnb. naive_solver. }
    rewrite Hq1. destruct (queued (marks pg)) eqn:Eq.
    + apply wp_ret. destruct (Hk (marking h1)) as [Hm' Hg']; [done|done|done|]. eapply (HQ h1); [by split|by split|done|cbn; lia|exact Hg'].
    + apply wp_modify. set (h2 := set_marking _ h1). destruct (Hk (marking h2)) as [Hm' Hg']; [done|done|done|].
      eapply (HQ h2); [split; [|exact Hm']|by split|done|cbn; lia|exact Hg']. destruct Hb1. by split.
Qed.

(** Objects whose descriptor is edge-free hold no references. *)
Lemma leaf_no_edge h pages l av rm dm D r hd e t : based h pages l av rm dm D → headers (physical h) !! r = Some hd → dm !! hdr_descriptor hd = Some e →
  desc_kind (entry_descriptor e) = EdgeFree → ¬ edge (physical h) r t.
Proof.
  intros Hb Hhd He Hk (pl & off & Hpl & Hoff). destruct (ba_payloads _ _ _ _ _ _ _ Hb r hd e Hhd He) as (pl' & Hpl' & _ & Href). rewrite Hpl in Hpl'. injection Hpl' as <-.
  specialize (Href off (Some t) Hoff). destruct (rg_entry _ _ _ (ba_registry _ _ _ _ _ _ _ Hb) _ _ He) as (_ & _ & Hd & _).
  rewrite (dk_scan _ Hd) in Hk. case_bool_decide as E; [|done]. rewrite E in Href. by apply elem_of_nil in Href.
Qed.

Lemma edge_marked h h' r t : marked h h' → edge (physical h') r t ↔ edge (physical h) r t.
Proof. intros Hm. unfold edge. by rewrite (md_payloads _ _ Hm). Qed.
Lemma closed_marked h h' rm : marked h h' → closed (physical h) rm → closed (physical h') rm.
Proof. intros Hm [H1 H2]. unfold closed, present, edge in *. by rewrite (md_headers _ _ Hm), (md_payloads _ _ Hm). Qed.
Lemma scan_marked h h' pages pages' dm : marked h h' → scan_ok h pages dm → (∀ x, disc pages (epoch (marking h)) x → disc pages' (epoch (marking h)) x) →
  (∀ a, active_scan h = Some a → ¬ blk pages (epoch (marking h)) (owner a) → ¬ blk pages' (epoch (marking h)) (owner a)) → scan_ok h' pages' dm.
Proof.
  intros [] Hs Hd Hb. unfold scan_ok in *. rewrite md_scan0, md_headers0, md_payloads0, md_next0, md_epoch0. destruct (active_scan h) as [a|]; [|done].
  destruct Hs as (Hr & hd & e & H1 & H2 & H3 & H4 & H5 & H6). split; [done|]. exists hd, e. split_and!; auto. intros. eapply Hd, H6; done.
Qed.
Lemma cursor_marked h h' pages pages' rm : marked h h' → cursor_ok h pages rm → (∀ x, disc pages (epoch (marking h)) x → disc pages' (epoch (marking h)) x) → cursor_ok h' pages' rm.
Proof.
  intros [] [] Hd. split; rewrite ?md_roots0, ?md_root_cursor0, ?md_id0, ?md_epoch0; eauto.
Qed.

Lemma tri_discovers h h' pages pages' l av rm dm r hd e : based h pages l av rm dm [] → tri h pages l rm dm → marked h h' →
  phase (marking h) = Roots_ ∨ phase (marking h) = Mark → headers (physical h) !! r = Some hd → dm !! hdr_descriptor hd = Some e →
  ¬ disc pages (epoch (marking h)) r →
  discovers pages pages' (epoch (marking h)) r (desc_kind (entry_descriptor e) = EdgeFree) →
  (∀ sc, gray_ok (marking h) pages sc → gray_ok (marking h') pages' sc) → tri h' pages' l rm dm.
Proof.
  intros Hb Ht Hm Hph Hhd He Hnd (Hd & Hbk & _) Hg. set (ep := epoch (marking h)) in *.
  assert (∀ x, disc pages ep x → disc pages' ep x) as Hmono by (intros x ?; apply Hd; by left).
  assert (black_published (physical h) pages ep → black_published (physical h') pages' ep) as Hbp.
  { intros Hbp x t Hx Hedge. rewrite (edge_marked _ _ _ _ Hm) in Hedge. apply Hbk in Hx as [Hx|[-> Hleaf]]; [apply Hmono; by eapply Hbp|].
    by destruct (leaf_no_edge _ _ _ _ _ _ _ _ _ _ t Hb Hhd He Hleaf). }
  unfold tri in *. rewrite (md_phase _ _ Hm), (md_epoch _ _ Hm), (md_scan _ _ Hm). fold ep. fold ep in Ht. destruct Hph as [Hph|Hph]; rewrite Hph in *.
  - destruct Ht as (Ha & Hcl & Hpub & Hgr & Hcu). split; [done|]. split; [by eapply closed_marked|]. split; [by apply Hbp|]. split; [by apply Hg|]. by eapply cursor_marked.
  - destruct Ht as (Hcl & Hpub & Hgr & Hsc & Hrt). split; [by eapply closed_marked|]. split; [by apply Hbp|]. split; [by apply Hg|]. split; [|by intros; apply Hmono, Hrt].
    eapply scan_marked; [done|done|done|]. intros a Ha Hna Hba. fold ep in Hna, Hba. apply Hbk in Hba as [?|[Heq _]]; [done|].
    unfold scan_ok in Hsc. rewrite Ha in Hsc. destruct Hsc as (_ & _ & _ & _ & _ & _ & Hod & _). fold ep in Hod. by rewrite Heq in Hod.
Qed.

(** ** Budgets *)
Definition budget_ok (b : ScanBudget) : Prop := (0 <= remaining b ∧ 0 <= spent b ∧ spent b + remaining b <= u64_max)%Z.
Definition paid (b b' : ScanBudget) (n : Z) : Prop := (remaining b' = remaining b - n ∧ spent b' = spent b + n ∧ 0 <= n)%Z.
Lemma take_units_spec n b : budget_ok b → (0 <= n)%Z →
  match take_units n b with Some b' => budget_ok b' ∧ paid b b' n | None => (remaining b < n)%Z end.
Proof.
  intros (H1 & H2 & H3) Hn. unfold take_units. destruct (Z.ltb_spec (remaining b) n); [done|]. destruct (Z.ltb_spec u64_max (spent b + n)); cbn; [lia|].
  unfold budget_ok, paid. cbn. lia.
Qed.
Definition charged (st : ScanStatus) (b b' : option ScanBudget) : Prop :=
  match b, b' with
  | None, None => st = Complete
  | Some b, Some b' => budget_ok b' ∧ (∃ n, paid b b' n ∧ (n <= 4)%Z) ∧ (st = Pending → b' = b ∧ (remaining b < 4)%Z)
  | _, _ => False
  end.

(** ** Publishing a present object *)
Definition good (h : Heap) (pages : gmap Z Page) (l : list Z) (av : nat → list Z) (rm : gmap Z RootSlot) (dm : gmap Z DescriptorEntry) : Prop :=
  shaped h pages l av rm dm [] ∧ tri h pages l rm dm.
Definition running (h : Heap) : Prop := phase (marking h) ≠ Faulted ∧ phase (marking h) ≠ Closed.
Definition marking_phase (h : Heap) : Prop := phase (marking h) = Roots_ ∨ phase (marking h) = Mark.

Record published (h h' : Heap) (pages pages' : gmap Z Page) (l : list Z) (av : nat → list Z) (rm : gmap Z RootSlot) (dm : gmap Z DescriptorEntry)
    (r : ObjectRef) (st : ScanStatus) (b b' : option ScanBudget) : Prop := {
  pb_good : good h' pages' l av rm dm; pb_marked : marked h h'; pb_charged : charged st b b';
  pb_mono : ∀ x, disc pages (epoch (marking h)) x → disc pages' (epoch (marking h)) x; pb_pages : repainted pages pages';
  pb_done : st = Complete → marking_phase h → disc pages' (epoch (marking h)) r;
  pb_progress : (h' = h ∧ pages' = pages) ∨ (¬ disc pages (epoch (marking h)) r ∧ disc pages' (epoch (marking h)) r ∧ marking_phase h
    ∧ (∀ x, disc pages' (epoch (marking h)) x → disc pages (epoch (marking h)) x ∨ x = r)
    ∧ (∀ x, blk pages (epoch (marking h)) x → blk pages' (epoch (marking h)) x)
    ∧ length (pending (marking h')) ≤ S (length (pending (marking h))))
}.

Lemma check_spec E h Q : running h → Q tt h → wp E check Q h.
Proof. intros [H1 H2] HQ. unfold check. apply wp_bind, wp_read. by destruct (phase (marking h)). Qed.

Lemma publish_admitted_spec (E : GcFailure → Heap → Prop) h pages l av rm dm r b Q : good h pages l av rm dm → running h → present (physical h) r →
  (phase (marking h) = Sweep → blk pages (epoch (marking h)) r) → (∀ bb, b = Some bb → budget_ok bb) →
  (∀ e, limited e → b = None → E e h) →
  (∀ st b' h' pages', published h h' pages pages' l av rm dm r st b b' → Q (st, b') h') → wp E (publish_admitted r b) Q h.
Proof.
  intros [[Hba Hm] Htri] [Hnf Hnc] Hpres Hsw Hbud HE HQ. destruct (locate_present _ _ _ _ _ _ _ Hba Hpres) as (hd & pg & s & e & Hloc).
  pose proof (storage_page_ok _ _ _ _ _ _ (ba_storage _ _ _ _ _ _ _ Hba) (lo_page _ _ _ _ _ _ _ _ Hloc)) as Hok. pose proof (occ_bound _ _ (lo_occ _ _ _ _ _ _ _ _ Hloc)) as Hs.
  pose proof (page_slots_bound _ Hok) as Hsl. assert (core (physical h) pages l av) as Hc by apply Hba.
  pose proof (disc_at _ _ _ _ Hc (epoch (marking h)) _ _ _ _ (lo_page _ _ _ _ _ _ _ _ Hloc) (lo_slot _ _ _ _ _ _ _ _ Hloc)) as Hda.
  pose proof (blk_at _ _ _ _ Hc (epoch (marking h)) _ _ _ _ (lo_page _ _ _ _ _ _ _ _ Hloc) (lo_slot _ _ _ _ _ _ _ _ Hloc)) as Hbl.
  assert (∀ st, (st = Complete → marking_phase h → disc pages (epoch (marking h)) r) → charged st b b → Q (st, b) h) as Hsame.
  { intros st Hst Hch. apply (HQ st b h pages). split; [by split|done|done|done|done|done|by left]. }
  assert (charged Complete b b) as Hcc.
  { destruct b as [bb|]; [|done]. cbn. split; [by apply Hbud|]. split; [|done]. exists 0%Z. pose proof (Hbud bb eq_refl). unfold paid. lia. }
  unfold publish_admitted. apply wp_bind, wp_read. cbn zeta. apply wp_bind. eapply wp_lift; [apply Hloc|]. cbn [loc_page loc_slot].
  case_bool_decide as Hidle. { apply wp_ret, Hsame; [|done]. intros _ [?|?]; congruence. }
  case_bool_decide as Hsweep.
  { apply wp_bind. eapply wp_or_panic; [apply black_spec; [apply Hok|lia]|]. specialize (Hsw Hsweep). rewrite Hbl in Hsw. rewrite Hsw.
    apply wp_ret, Hsame; [|done]. intros _ [?|?]; congruence. }
  assert (marking_phase h) as Hph by (unfold marking_phase; destruct (phase (marking h)); auto; done).
  apply wp_bind. eapply wp_or_panic; [apply discovered_spec; [apply Hok|lia]|]. destruct (discb _ _ s) eqn:Hdb; [apply wp_ret, Hsame; [|done]; intros _ _; by apply Hda|].
  cbn zeta. set (reset := if reset_needed (marks pg) (epoch (marking h)) then 4%Z else 0%Z). assert (0 <= reset <= 4)%Z as Hreset by (unfold reset; destruct (reset_needed _ _); lia).
  assert (¬ disc pages (epoch (marking h)) r) as Hnd by (rewrite Hda; congruence).
  destruct b as [bb|].
  - pose proof (take_units_spec reset bb (Hbud bb eq_refl) ltac:(lia)) as Htake. destruct (take_units reset bb) as [bb'|].
    + destruct Htake as [Hb1 Hpaid]. apply wp_bind. eapply discover_spec; [by split|exact Hloc|exact Hdb|]. intros h' pages' Hsh Hmd Hdv Hlen Hgr. apply wp_ret.
      apply (HQ Complete (Some bb') h' pages'). split; [|done|..].
      * split; [done|]. eapply tri_discovers; [done|done|done|done|apply Hloc|apply Hloc|done|done|done].
      * cbn. split; [done|]. split; [|done]. exists reset. split; [done|lia].
      * intros x ?. apply Hdv. by left.
      * apply Hdv.
      * intros _ _. apply Hdv. by right.
      * right. split; [done|]. split; [apply Hdv; by right|]. split; [done|]. split; [intros x; apply Hdv|]. split; [intros x ?; apply Hdv; by left|done].
    + apply wp_ret, Hsame; [done|]. cbn. split; [by apply Hbud|]. split; [|done || intros _; split; [done|lia]]. exists 0%Z. unfold paid. pose proof (Hbud bb eq_refl). lia.
  - destruct (_ <? _)%Z; [apply wp_fail, HE; [by eexists|done]|]. apply wp_bind, wp_modify, wp_bind. set (h1 := set_marking _ h).
    assert (marked h h1) as Hm1 by (by split). assert (shaped h1 pages l av rm dm []) as Hsh1.
    { split; [destruct Hba; by split|]. destruct Hm. by split. }
    eapply (discover_spec _ h1); [exact Hsh1|exact Hloc|exact Hdb|]. intros h' pages' Hsh Hmd Hdv Hlen Hgr. apply wp_ret.
    apply (HQ Complete None h' pages'). split; [|by etrans|..].
    * split; [done|]. eapply (tri_discovers h h'); [done|done|by etrans|done|apply Hloc|apply Hloc|done|done|done].
    * done.
    * intros x ?. apply Hdv. by left.
    * apply Hdv.
    * intros _ _. apply Hdv. by right.
    * right. split; [done|]. split; [apply Hdv; by right|]. split; [done|]. split; [intros x; apply Hdv|]. split; [intros x ?; apply Hdv; by left|done].
Qed.

Lemma publish_spec (E : GcFailure → Heap → Prop) h pages l av rm dm r b Q : good h pages l av rm dm → running h → present (physical h) r →
  (phase (marking h) = Sweep → blk pages (epoch (marking h)) r) → (∀ bb, b = Some bb → budget_ok bb) →
  (∀ e, limited e → b = None → E e h) →
  (∀ st b' h' pages', published h h' pages pages' l av rm dm r st b b' → Q (st, b') h') → wp E (publish r b) Q h.
Proof. intros. unfold publish. apply wp_bind, check_spec; [done|]. by eapply publish_admitted_spec. Qed.

(** ** The queue *)
Lemma set_queued_colours m q e s : discb (set_queued m q) e s = discb m e s ∧ blackb (set_queued m q) e s = blackb m e s ∧ grayb (set_queued m q) e s = grayb m e s.
Proof. done. Qed.
Definition requeue (pages : gmap Z Page) (id : Z) (pg : Page) (q : bool) : gmap Z Page := <[id := with_marks pg (set_queued (marks pg) q)]> pages.
Lemma lookup_requeue pages id pg q j p : requeue pages id pg q !! j = Some p ↔
  (id = j ∧ with_marks pg (set_queued (marks pg) q) = p) ∨ (id ≠ j ∧ pages !! j = Some p).
Proof. apply lookup_insert_Some. Qed.
Lemma requeue_colours pages id pg q e x : pages !! id = Some pg →
  (disc (requeue pages id pg q) e x ↔ disc pages e x) ∧ (blk (requeue pages id pg q) e x ↔ blk pages e x).
Proof.
  intros Hp. assert (∀ f : PageMarks → Z → nat → bool, (∀ m b k, f (set_queued m b) e k = f m e k) →
    (∃ i p k, requeue pages id pg q !! i = Some p ∧ slot_of p x = Some k ∧ f (marks p) e k = true) ↔ (∃ i p k, pages !! i = Some p ∧ slot_of p x = Some k ∧ f (marks p) e k = true)) as Hgen.
  { intros f Hf. split.
    - intros (i & p & k & [[<- <-]|[Hne Hi]]%lookup_requeue & Hk & Hx); [|eauto 10]. exists id, pg, k. by rewrite <- (Hf _ q).
    - intros (i & p & k & Hi & Hk & Hx). destruct (decide (i = id)) as [->|Hne].
      + rewrite Hp in Hi. injection Hi as <-. exists id, (with_marks pg (set_queued (marks pg) q)), k. unfold requeue. rewrite lookup_insert_eq. split; [done|]. split; [done|]. cbn [marks with_marks]. by rewrite Hf.
      + exists i, p, k. unfold requeue. by rewrite lookup_insert_ne. }
  split; by apply Hgen.
Qed.
Lemma requeue_marks m k pages id pg q : marks_ok m pages → pages !! id = Some pg → epoch k = epoch m → pending_capacity k = pending_capacity m →
  (q = true ↔ id ∈ pending k) → (q = true → reset_needed (marks pg) (epoch m) = false) → (∀ j, j ≠ id → j ∈ pending k ↔ j ∈ pending m) → NoDup (pending k) →
  marks_ok k (requeue pages id pg q).
Proof.
  intros Hm Hp He Hc Hq Hf Hoth Hnd. eapply (marks_ok_edit m); try done.
  - by apply (mk_epoch _ _ Hm id).
  - intros s. by apply (mk_black _ _ Hm id pg).
  - intros s. by apply (mk_occ _ _ Hm id pg).
Qed.

Record popped (h h' : Heap) (pages pages' : gmap Z Page) (l : list Z) (av : nat → list Z) (rm : gmap Z RootSlot) (dm : gmap Z DescriptorEntry) : Prop := {
  po_shaped : shaped h' pages' l av rm dm []; po_marked : marked h h';
  po_colours : ∀ x, (disc pages' (epoch (marking h)) x ↔ disc pages (epoch (marking h)) x) ∧ (blk pages' (epoch (marking h)) x ↔ blk pages (epoch (marking h)) x);
  po_length : length (pending (marking h')) ≤ length (pending (marking h))
}.

Lemma next_gray_spec E h pages l av rm dm (Q : option ObjectRef → Heap → Prop) : shaped h pages l av rm dm [] → gray_ok (marking h) pages None →
  (pending (marking h) = [] → Q None h) →
  (∀ h' pages', popped h h' pages pages' l av rm dm → length (pending (marking h')) < length (pending (marking h)) → gray_ok (marking h') pages' None → Q None h') →
  (∀ h' pages' r, popped h h' pages pages' l av rm dm → present (physical h) r → disc pages (epoch (marking h)) r → ¬ blk pages (epoch (marking h)) r →
     (∀ a, owner a = r → gray_ok (marking h') pages' (Some a)) → Q (Some r) h') →
  wp E next_gray Q h.
Proof.
  intros [Hb Hm] Hg Hempty Hnone Hsome. unfold next_gray. apply wp_bind, wp_read. destruct (pending (marking h)) as [|id rest] eqn:Hpend; [by apply wp_ret, Hempty|].
  pose proof (mk_nodup _ _ Hm) as Hnd. rewrite Hpend in Hnd. apply list.NoDup_cons in Hnd as [Hnin Hnd].
  assert (is_Some (pages !! id)) as [pg Hp] by (apply (mk_dom _ _ Hm); rewrite Hpend; left).
  pose proof (storage_page_ok _ _ _ _ _ _ (ba_storage _ _ _ _ _ _ _ Hb) Hp) as Hok. pose proof (page_slots_bound _ Hok) as Hsl.
  assert (queued (marks pg) = true) as Hq by (apply (mk_queue _ _ Hm id pg Hp); rewrite Hpend; left).
  pose proof (mk_fresh _ _ Hm id pg Hp Hq) as Hfresh. set (ep := epoch (marking h)) in *.
  apply wp_bind, wp_modify. set (h1 := set_marking _ h). assert (based h1 pages l av rm dm []) as Hb1 by (destruct Hb; by split).
  apply wp_bind, wp_physical. eapply wp_page; [apply Hb|exact Hp|]. cbn beta. replace (set_physical (physical h) h1) with h1 by (by destruct h).
  apply wp_bind. eapply edit_marks_spec; [exact Hb1|exact Hp|apply (pk_marks _ Hok)|]. intros t2 h2 Hb2. fold (requeue pages id pg false) in Hb2. set (pages2 := requeue pages id pg false) in *.
  set (pg2 := with_marks pg (set_queued (marks pg) false)). assert (pages2 !! id = Some pg2) as Hp2 by apply lookup_insert_eq.
  assert (marks_ok (marking h2) pages2) as Hm2.
  { eapply (requeue_marks (marking h)); [done|done|done|done|..|done]; cbn [marking h2 h1 set_physical set_marking pending set_pending]; [|done|].
    - split; [done|]. intros Hin. by destruct Hnin.
    - intros j Hj. rewrite Hpend, elem_of_cons. naive_solver. }
  apply wp_bind, wp_physical. eapply wp_page; [apply Hb2|exact Hp2|]. cbn beta. replace (set_physical (physical h2) h2) with h2 by (by destruct h).
  apply wp_bind. destruct (gray_spec (marks pg2) ep (pk_marks _ Hok)) as (g & Hgr & Hgn & Hgb & Hgh). eapply wp_or_panic; [exact Hgr|].
  assert (∀ x, (disc pages2 ep x ↔ disc pages ep x) ∧ (blk pages2 ep x ↔ blk pages ep x)) as Hcol by (intros; by apply requeue_colours).
  assert (∀ s, grayb (marks pg) ep s = true → s < 128 ∧ occ pg s = true) as Hgs.
  { intros s Hs. unfold grayb in Hs. apply andb_true_iff in Hs as [Hs _]. apply (mk_occ _ _ Hm id pg) in Hs; [|done]. pose proof (occ_bound _ _ Hs). split; [lia|done]. }
  assert (marked h h2) as Hmk2 by (by split).
  destruct (Z.eqb_spec g 0) as [->|Hgz].
  - apply wp_ret. apply (Hnone h2 pages2); [split; [by split|done|done|cbn; rewrite ?Hpend; cbn; lia]|cbn; rewrite ?Hpend; cbn; lia|].
    intros j q s [[<- <-]|[Hne Hj]]%lookup_requeue Hs.
    + change (grayb (marks pg) ep s = true) in Hs. destruct (Hgs s Hs) as [Hlt _]. specialize (Hgb s Hlt). rewrite Z.bits_0 in Hgb. change (grayb (marks pg2) ep s) with (grayb (marks pg) ep s) in Hgb. congruence.
    + destruct (Hg j q s Hj Hs) as [Hin|(a & ? & _)]; [|done]. rewrite Hpend in Hin. apply elem_of_cons in Hin as [->|Hin]; [done|by left].
  - cbn zeta. assert (trailing_zeros 128 g < 128) as Htz.
    { destruct (decide (trailing_zeros 128 g < 128)) as [|Hn]; [done|]. exfalso. apply Hgz, Z.bits_inj'. intros k Hk. rewrite Z.bits_0.
      destruct (Z.lt_ge_cases k 128); [|by apply Hgh]. pose proof (trailing_zeros_none 128 g ltac:(lia) (Z.to_nat k) ltac:(lia)) as Hz. by rewrite Z2Nat.id in Hz by lia. }
    destruct (trailing_zeros_found 128 g Htz) as [Hfound Hlow]. set (s := trailing_zeros 128 g) in *.
    assert (grayb (marks pg) ep s = true) as Hsg by (etrans; [symmetry; exact (Hgb s Htz)|done]). destruct (Hgs s Hsg) as [_ Hocc]. pose proof (occ_bound _ _ Hocc) as Hsb.
    destruct (ct_occ _ _ _ (ba_contents _ _ _ _ _ _ _ Hb) id pg s Hp Hocc) as (r & hd & Hptr & Hhd & Hal).
    pose proof (slot_of_pointer _ _ _ Hok Hptr) as Hslot. assert (core (physical h) pages l av) as Hc by apply Hb.
    assert (disc pages ep r ∧ ¬ blk pages ep r) as [Hrd Hrb].
    { rewrite (disc_at _ _ _ _ Hc ep id pg r s Hp Hslot), (blk_at _ _ _ _ Hc ep id pg r s Hp Hslot). unfold grayb in Hsg. apply andb_true_iff in Hsg as [H1 H2].
      apply negb_true_iff in H2. split; congruence. }
    assert (∀ h3 pages3, popped h h3 pages pages3 l av rm dm → (∀ a, owner a = r → gray_ok (marking h3) pages3 (Some a)) →
      wp E (let! o := or_panic (occupied pg2 s) in if negb o then fail (Storage "gray free slot") else let! r := or_panic (pointer pg2 s) in ret (Some r)) Q h3) as Hend.
    { intros h3 pages3 Hpop Hgr3. apply wp_bind. eapply wp_or_panic; [exact (occupied_some pg s Hok)|]. rewrite Hocc. cbn [negb]. apply wp_bind.
      eapply wp_or_panic; [exact Hptr|]. apply wp_ret. eapply Hsome; [exact Hpop|by eexists|done|done|done]. }
    apply wp_bind. rewrite (low_bit_pred g s ltac:(lia) Hfound Hlow).
    destruct (Z.eqb_spec (Z.ldiff g (2 ^ Z.of_nat s)) 0) as [Hone|Hmore]; cbn [negb].
    + apply wp_ret, (Hend h2 pages2); [split; [by split|done|done|cbn; rewrite ?Hpend; cbn; lia]|]. intros a Ha j q k [[<- <-]|[Hne Hj]]%lookup_requeue Hk.
      * change (grayb (marks pg) ep k = true) in Hk. destruct (Hgs k Hk) as [Hkl _]. right. exists a. split; [done|]. rewrite Ha. change (slot_of pg r = Some k). rewrite Hslot. f_equal.
        destruct (decide (s = k)) as [|Hsk]; [done|]. exfalso. specialize (Hgb k Hkl). change (grayb (marks pg2) ep k) with (grayb (marks pg) ep k) in Hgb.
        assert (Z.testbit (Z.ldiff g (2 ^ Z.of_nat s)) (Z.of_nat k) = true) as Hbit.
        { rewrite Z.ldiff_spec, Hgb, Hk, Z.pow2_bits_false by lia. done. }
        by rewrite Hone, Z.bits_0 in Hbit.
      * destruct (Hg j q k Hj Hk) as [Hin|(? & ? & _)]; [|done]. rewrite Hpend in Hin. apply elem_of_cons in Hin as [->|Hin]; [done|by left].
    + apply wp_bind. eapply edit_marks_spec; [exact Hb2|exact Hp2|apply (pk_marks _ Hok)|]. intros t3 h3 Hb3. fold (requeue pages2 id pg2 true) in Hb3. set (pages3 := requeue pages2 id pg2 true) in *.
      apply wp_modify. set (h4 := set_marking _ h3). apply (Hend h4 pages3).
      * split; [|by split|..|].
        -- split; [destruct Hb3; by split|]. eapply (requeue_marks (marking h2)); [done|done|done|done|..]; cbn [marking h4 h3 h2 h1 set_physical set_marking pending set_pending].
           ++ split; [intros _; left|done].
           ++ intros _. exact Hfresh.
           ++ intros j Hj. rewrite elem_of_cons. naive_solver.
           ++ by constructor.
        -- intros x. destruct (requeue_colours pages2 id pg2 true ep x Hp2) as [C1 C2], (Hcol x) as [C3 C4]. split; [exact (iff_trans C1 C3)|exact (iff_trans C2 C4)].
        -- cbn. rewrite Hpend. cbn. lia.
      * intros a Ha j q k [[<- <-]|[Hne Hj]]%lookup_requeue Hk; [left; cbn; left|]. apply lookup_requeue in Hj as [[<- _]|[_ Hj]]; [done|].
        destruct (Hg j q k Hj Hk) as [Hin|(? & ? & _)]; [|done]. left. cbn. by rewrite <- Hpend.
Qed.
