(* ===== verification/GcMeasure.v ===== *)
(** * Managed heap: how far a collection is from its end

    A lexicographic measure of the work left in a collection, used to show that every
    service call makes progress and that draining terminates. *)
From stdpp Require Import gmap fin_maps.
From Stdlib Require Import Wellfounded.Lexicographic_Product Relations.Relation_Operators.
From S2P Require Import Prelude SlotBits GcBase GcTable GcPage GcColors GcDynamic GcHeap GcStorage GcSlots GcRoots GcRootsProps GcMark GcService GcInv GcMarkProps.
Open Scope nat_scope.

(** ** Lexicographic order on five naturals *)
Definition measure : Set := nat * (nat * (nat * (nat * nat))).
Definition lex {A} (R : A → A → Prop) (a b : nat * A) : Prop := fst a < fst b ∨ (fst a = fst b ∧ R (snd a) (snd b)).
Definition less : measure → measure → Prop := lex (lex (lex (lex lt))).
Lemma lex_wf {A} (R : A → A → Prop) : well_founded R → well_founded (lex R).
Proof.
  intros HR [n a]. revert a. induction n as [n IHn] using lt_wf_ind. intros a. induction a as [a IHa] using (well_founded_ind HR).
  constructor. intros [m b] [Hlt|[Heq HRb]]; cbn in *; [by apply IHn|]. subst. by apply IHa.
Qed.
Lemma less_wf : well_founded less.
Proof. do 4 apply lex_wf. apply lt_wf. Qed.
Lemma lex_trans {A} (R : A → A → Prop) : Transitive R → Transitive (lex R).
Proof. intros HR a b c [H|[E H]] [H'|[E' H']]; unfold lex; [left; lia|left; lia|left; lia|right; split; [lia|by etrans]]. Qed.
#[export] Instance less_trans : Transitive less.
Proof. do 4 apply lex_trans. intros ? ? ?. lia. Qed.
Definition less_eq (a b : measure) : Prop := a = b ∨ less a b.
Lemma less_eq_trans_l a b c : less_eq a b → less b c → less a c.
Proof. intros [->|H] H'; [done|by etrans]. Qed.
Lemma less_eq_trans_r a b c : less a b → less_eq b c → less a c.
Proof. intros H [<-|H']; [done|by etrans]. Qed.
#[export] Instance less_eq_preorder : PreOrder less_eq.
Proof. split; [by left|]. intros a b c [->|H] [->|H']; [by left|by right|by right|right; by etrans]. Qed.

(** ** Counting objects by colour *)
Definition dref (pages : gmap Z Page) (e : Z) (r : ObjectRef) (hd : ObjectHeader) : bool :=
  match pages !! hdr_allocation hd with
  | Some pg => match slot_of pg r with Some s => discb (marks pg) e s | None => false end
  | None => false
  end.
Definition bref (pages : gmap Z Page) (e : Z) (r : ObjectRef) (hd : ObjectHeader) : bool :=
  match pages !! hdr_allocation hd with
  | Some pg => match slot_of pg r with Some s => blackb (marks pg) e s | None => false end
  | None => false
  end.
Definition left_over (f : ObjectRef → ObjectHeader → bool) (hs : gmap ObjectRef ObjectHeader) : nat := size (filter (λ kv, f kv.1 kv.2 = false) hs).
Lemma left_over_le f g hs : (∀ r hd, hs !! r = Some hd → f r hd = true → g r hd = true) → left_over g hs ≤ left_over f hs.
Proof.
  intros Hfg. unfold left_over. apply map_subseteq_size, map_subseteq_spec. intros r hd [Hr Hg]%map_lookup_filter_Some.
  apply map_lookup_filter_Some. split; [done|]. cbn in *. destruct (f r hd) eqn:Ef; [|done]. by rewrite (Hfg r hd Hr Ef) in Hg.
Qed.
Lemma left_over_lt f g hs r hd : (∀ r hd, hs !! r = Some hd → f r hd = true → g r hd = true) → hs !! r = Some hd → f r hd = false → g r hd = true →
  left_over g hs < left_over f hs.
Proof.
  intros Hfg Hr Hf Hg. assert (left_over g (delete r hs) ≤ left_over f (delete r hs)) as Hle.
  { apply left_over_le. intros x hx [_ Hx]%lookup_delete_Some. by apply Hfg. }
  unfold left_over in *. rewrite <- (insert_delete_id hs r hd Hr). rewrite !map_filter_insert. cbn. rewrite Hf, Hg.
  rewrite decide_False, decide_True by done. rewrite map_size_insert_None.
  2: { apply map_lookup_filter_None. left. apply lookup_delete_eq. }
  rewrite delete_id; [lia|]. apply lookup_delete_eq.
Qed.

Lemma dref_disc h pages l av rm dm D e r hd : based h pages l av rm dm D → headers (physical h) !! r = Some hd → dref pages e r hd = true ↔ disc pages e r.
Proof.
  intros Hb Hhd. destruct (ct_header _ _ _ (ba_contents _ _ _ _ _ _ _ Hb) r hd Hhd) as (pg & s & Hp & Hs & _).
  unfold dref. rewrite Hp, Hs. symmetry. eapply disc_at; [apply Hb|done|done].
Qed.
Lemma bref_blk h pages l av rm dm D e r hd : based h pages l av rm dm D → headers (physical h) !! r = Some hd → bref pages e r hd = true ↔ blk pages e r.
Proof.
  intros Hb Hhd. destruct (ct_header _ _ _ (ba_contents _ _ _ _ _ _ _ Hb) r hd Hhd) as (pg & s & Hp & Hs & _).
  unfold bref. rewrite Hp, Hs. symmetry. eapply blk_at; [apply Hb|done|done].
Qed.

(** ** The work left *)
(** Root targets not yet visited, one more per registration. *)
Fixpoint root_work (rm : gmap Z RootSlot) (active : list Z) : nat :=
  match active with
  | [] => 0
  | s :: active => S (match rm !! s with Some e => length (targets (entry e)) | None => 0 end) + root_work rm active
  end.
Definition index_of (l : list Z) (x : option Z) : nat :=
  match x with None => length l | Some id => match list_find (λ y, y = id) l with Some (i, _) => i | None => length l end end.
Definition mu (h : Heap) (pages : gmap Z Page) (l : list Z) (rm : gmap Z RootSlot) : measure :=
  let e := epoch (marking h) in
  match phase (marking h) with
  | Roots_ =>
      let c := root_cursor h in
      (4, (root_work rm (drop (cursor_next c) (take (cursor_end c) (root_active (roots h)))) - cursor_target c, (0, (0, 0))))
  | Mark =>
      (3, (left_over (dref pages e) (headers (physical h)), (left_over (bref pages e) (headers (physical h)),
       (2 * length (pending (marking h)) + match active_scan h with None => 1 | Some _ => 0 end,
        match active_scan h with None => 0 | Some a => length (references (desc_shape (scan_descriptor a))) - scan_next h end))))
  | Sweep =>
      match sweep_stage h with
      | StagePhysical => (2, (3, (length l - index_of l (cursor_page (cursor (physical h))), (129 - cursor_slot (cursor (physical h)), 0))))
      | StageRoots n => (2, (2, (n, (0, 0))))
      | StageDescriptors n => (2, (1, (n, (0, 0))))
      end
  | _ => (0, (0, (0, (0, 0))))
  end.
