(* ===== verification/GcScanProps.v ===== *)
(** * Managed heap: scanning roots and objects keeps the invariant *)
From stdpp Require Import gmap fin_maps.
From S2P Require Import Prelude SlotBits GcBase GcTable GcPage GcColors GcDynamic GcHeap GcStorage GcSlots GcRoots GcRootsProps GcMark GcService GcInv GcMarkProps GcMeasure.
Open Scope nat_scope.

(** What scanning leaves alone. *)
Record steady (h h' : Heap) : Prop := {
  sy_headers : headers (physical h') = headers (physical h); sy_payloads : payloads (physical h') = payloads (physical h);
  sy_descriptors : descriptors (physical h') = descriptors (physical h); sy_roots : roots h' = roots h; sy_id : heap_id h' = heap_id h;
  sy_config : config h' = config h; sy_epoch : epoch (marking h') = epoch (marking h); sy_cycles : cycles (marking h') = cycles (marking h);
  sy_ledger : ledger h' = ledger h
}.
#[export] Instance steady_preorder : PreOrder steady.
Proof. split; [by split|]. intros a b c [] []. split; congruence. Qed.
Lemma marked_steady h h' : marked h h' → steady h h'.
Proof. intros []. by split. Qed.

(** Everything that is marked is reachable: what a collection that no mutator interrupts keeps. *)
Definition exact_marks (h : Heap) (pages : gmap Z Page) (rm : gmap Z RootSlot) : Prop :=
  ∀ x, disc pages (epoch (marking h)) x → reachable (physical h) rm x.
Lemma reachable_payloads p p' rm x : payloads p' = payloads p → reachable p rm x → reachable p' rm x.
Proof. intros Hp. induction 1 as [t Ht|r t Hr IH Hed]; [by apply reach_root|]. eapply reach_edge; [exact IH|]. unfold edge in *. by rewrite Hp. Qed.
Lemma exact_more h h' pages pages' rm : steady h h' → (∀ x, disc pages' (epoch (marking h)) x → disc pages (epoch (marking h)) x ∨ reachable (physical h) rm x) →
  exact_marks h pages rm → exact_marks h' pages' rm.
Proof.
  intros Hs Hd He x Hx. rewrite (sy_epoch _ _ Hs) in Hx. eapply reachable_payloads; [apply Hs|]. apply Hd in Hx as [Hx|?]; [by apply He|done].
Qed.
Lemma exact_published h h' pages pages' l av rm dm r st b b' : published h h' pages pages' l av rm dm r st b b' →
  (exact_marks h pages rm → reachable (physical h) rm r) → exact_marks h pages rm → exact_marks h' pages' rm.
Proof.
  intros [_ Hm _ _ _ _ Hp] Hr He. destruct Hp as [[-> ->]|(_ & _ & _ & Hd & _)]; [done|]. eapply (exact_more h h'); [by apply marked_steady| |done].
  intros x [?| ->]%Hd; [by left|right; by apply Hr].
Qed.

(** ** Progress while marking *)
Definition tail_mu (h : Heap) : nat * nat :=
  (2 * length (pending (marking h)) + match active_scan h with None => 1 | Some _ => 0 end,
   match active_scan h with None => 0 | Some a => length (references (desc_shape (scan_descriptor a))) - scan_next h end).
Lemma mu_mark h pages l rm : phase (marking h) = Mark →
  mu h pages l rm = (3, (left_over (dref pages (epoch (marking h))) (headers (physical h)), (left_over (bref pages (epoch (marking h))) (headers (physical h)), tail_mu h))).
Proof. intros Hp. unfold mu. by rewrite Hp. Qed.

Section Progress.
Context (h h' : Heap) (pages pages' : gmap Z Page) (l : list Z) (av : nat → list Z) (rm : gmap Z RootSlot) (dm : gmap Z DescriptorEntry).
Context (Hb : based h pages l av rm dm []) (Hb' : based h' pages' l av rm dm []) (Hph : phase (marking h) = Mark) (Hph' : phase (marking h') = Mark).
Context (Hhs : headers (physical h') = headers (physical h)) (Hep : epoch (marking h') = epoch (marking h)).
Notation e := (epoch (marking h)).
Context (Hdm : ∀ x, disc pages e x → disc pages' e x).

Lemma dref_mono r hd : headers (physical h) !! r = Some hd → dref pages e r hd = true → dref pages' e r hd = true.
Proof. intros Hr. rewrite (dref_disc h) by done. rewrite (dref_disc h') by (done || by rewrite Hhs). apply Hdm. Qed.
Lemma less_disc r : present (physical h) r → ¬ disc pages e r → disc pages' e r → less (mu h' pages' l rm) (mu h pages l rm).
Proof.
  intros [hd Hr] Hn Hd. rewrite !mu_mark, Hhs, Hep by done. right. split; [done|]. left. cbn [fst snd].
  apply (left_over_lt _ _ _ r hd dref_mono Hr).
  - destruct (dref pages e r hd) eqn:E; [|done]. by rewrite (dref_disc h) in E.
  - rewrite (dref_disc h') by (done || by rewrite Hhs). done.
Qed.
Context (Hbm : ∀ x, blk pages e x → blk pages' e x).
Lemma bref_mono r hd : headers (physical h) !! r = Some hd → bref pages e r hd = true → bref pages' e r hd = true.
Proof. intros Hr. rewrite (bref_blk h) by done. rewrite (bref_blk h') by (done || by rewrite Hhs). apply Hbm. Qed.
Lemma less_black r : present (physical h) r → ¬ blk pages e r → blk pages' e r → less (mu h' pages' l rm) (mu h pages l rm).
Proof.
  intros [hd Hr] Hn Hd. rewrite !mu_mark, Hhs, Hep by done. right. split; [done|]. pose proof (left_over_le _ _ _ dref_mono) as Hle. cbn [fst snd].
  destruct (decide (left_over (dref pages' e) (headers (physical h)) = left_over (dref pages e) (headers (physical h)))) as [Eq|]; [|left; cbn; lia].
  right. split; [done|]. left. cbn [fst snd]. apply (left_over_lt _ _ _ r hd bref_mono Hr).
  - destruct (bref pages e r hd) eqn:E; [|done]. by rewrite (bref_blk h) in E.
  - rewrite (bref_blk h') by (done || by rewrite Hhs). done.
Qed.
Lemma less_tail : lex lt (tail_mu h') (tail_mu h) → less (mu h' pages' l rm) (mu h pages l rm).
Proof.
  intros Ht. rewrite !mu_mark, Hhs, Hep by done. right. split; [done|]. pose proof (left_over_le _ _ _ dref_mono) as Hle. pose proof (left_over_le _ _ _ bref_mono) as Hle'. cbn [fst snd].
  destruct (decide (left_over (dref pages' e) (headers (physical h)) = left_over (dref pages e) (headers (physical h)))) as [Eq|]; [|left; cbn; lia]. right. split; [done|].
  destruct (decide (left_over (bref pages' e) (headers (physical h)) = left_over (bref pages e) (headers (physical h)))) as [Eq'|]; [|left; cbn; lia]. right. done.
Qed.
End Progress.

Lemma published_less_eq h h' pages pages' l av rm dm r st b b' : good h pages l av rm dm → phase (marking h) = Mark → present (physical h) r →
  published h h' pages pages' l av rm dm r st b b' → less_eq (mu h' pages' l rm) (mu h pages l rm).
Proof.
  intros [[Hb _] _] Hph Hpr [Hg Hm _ Hmono _ _ [[-> ->]|(Hn & Hd & _)]]; [by left|]. right. destruct Hg as [[Hb' _] _].
  eapply (less_disc h h'); [exact Hb|exact Hb'|done|by rewrite (md_phase _ _ Hm)|apply Hm|apply Hm|exact Hmono|exact Hpr|exact Hn|exact Hd].
Qed.

(** ** The record scanner *)
Lemma scan_ok_next h pages dm a : scan_ok h pages dm → active_scan h = Some a →
  (∀ off pl t, references (desc_shape (scan_descriptor a)) !! scan_next h = Some off → payloads (physical h) !! owner a = Some pl →
     pl !! off = Some (VReference (Some t)) → disc pages (epoch (marking h)) t) → scan_ok (set_scan_next (S (scan_next h)) h) pages dm.
Proof.
  intros Hs Ha Hnew. unfold scan_ok in *. cbn [active_scan set_scan_next scan_next physical marking]. rewrite Ha in *.
  destruct Hs as (Hr & hd & e & H1 & H2 & H3 & H4 & H5 & H6). split; [done|]. exists hd, e. split_and!; try done.
  intros k off pl t Hk Hoff Hpl Hv. destruct (decide (k = scan_next h)) as [->|]; [|eapply (H6 k); [lia|done..]]. eapply Hnew; [by rewrite H3|done|done].
Qed.
Lemma good_next h pages l av rm dm a : good h pages l av rm dm → phase (marking h) = Mark → active_scan h = Some a →
  (∀ off pl t, references (desc_shape (scan_descriptor a)) !! scan_next h = Some off → payloads (physical h) !! owner a = Some pl →
     pl !! off = Some (VReference (Some t)) → disc pages (epoch (marking h)) t) → good (set_scan_next (S (scan_next h)) h) pages l av rm dm.
Proof.
  intros [[Hb Hm] Ht] Hph Ha Hnew. split; [split; [destruct Hb; by split|done]|]. unfold tri in *. cbn [marking set_scan_next]. rewrite Hph in *.
  destruct Ht as (H1 & H2 & H3 & H4 & H5). split_and!; try done. by eapply scan_ok_next.
Qed.
(** The field a scanner looks at next. *)
Lemma scanned_field h pages l av rm dm a off : good h pages l av rm dm → phase (marking h) = Mark → active_scan h = Some a →
  references (desc_shape (scan_descriptor a)) !! scan_next h = Some off →
  ∃ pl t, payloads (physical h) !! owner a = Some pl ∧ pl !! off = Some (VReference t) ∧ ∀ x, t = Some x → present (physical h) x.
Proof.
  intros [[Hb Hm] Ht] Hph Ha Hoff. unfold tri in Ht. rewrite Hph in Ht. destruct Ht as (Hcl & _ & _ & Hsc & _). unfold scan_ok in Hsc. rewrite Ha in Hsc.
  destruct Hsc as (_ & hd & e & Hhd & He & Hde & _). destruct (ba_payloads _ _ _ _ _ _ _ Hb _ _ _ Hhd He) as (pl & Hpl & Hty & _).
  destruct (rg_entry _ _ _ (ba_registry _ _ _ _ _ _ _ Hb) _ _ He) as (_ & _ & Hdk & _). destruct (dk_shape _ Hdk) as [kinds Hshape].
  rewrite Hde, (sh_references _ _ Hshape) in Hoff. rewrite list_lookup_fmap in Hoff.
  destruct (filter (λ f, field_kind f = FReference) (shape_fields (desc_shape (entry_descriptor e))) !! scan_next h) as [f|] eqn:Hf; [|done]. injection Hoff as <-.
  assert (f ∈ filter (λ f, field_kind f = FReference) (shape_fields (desc_shape (entry_descriptor e)))) as [Hk Hin]%list_elem_of_filter by (by eapply list_elem_of_lookup_2).
  apply list_elem_of_lookup_1 in Hin as [i Hi]. specialize (Hty i f Hi). exists pl. destruct (pl !! field_offset f) as [[bits|t]|] eqn:Hv; [done| |done].
  exists t. split; [done|]. split; [done|]. intros x ->. apply (proj1 Hcl (owner a)); [by eexists|]. by exists pl, (field_offset f).
Qed.

Lemma scan_shape_spec E fuel h pages l av rm dm a b Q : good h pages l av rm dm → phase (marking h) = Mark → active_scan h = Some a → budget_ok b →
  length (references (desc_shape (scan_descriptor a))) - scan_next h < fuel →
  (∀ st b' h' pages' n, good h' pages' l av rm dm → repainted pages pages' → phase (marking h') = Mark → active_scan h' = Some a → steady h h' → budget_ok b' → paid b b' n →
     (st = Complete → length (references (desc_shape (scan_descriptor a))) ≤ scan_next h') → (st = Pending → n = 0%Z → remaining b = 0%Z) →
     less_eq (mu h' pages' l rm) (mu h pages l rm) → (st = Pending → (5 <= remaining b)%Z → less (mu h' pages' l rm) (mu h pages l rm)) → (exact_marks h pages rm → exact_marks h' pages' rm) → Q (st, b') h') →
  wp E (scan_shape fuel (desc_shape (scan_descriptor a)) (owner a) b) Q h.
Proof.
  revert h pages b Q. induction fuel as [|fuel IH]; intros h pages b Q Hg Hph Ha Hbud Hfuel HQ; [lia|]. cbn [scan_shape]. apply wp_bind, wp_read.
  pose proof Hbud as (Hb0 & _). destruct (references (desc_shape (scan_descriptor a)) !! scan_next h) as [off|] eqn:Hoff.
  2: { apply wp_ret. apply (HQ Complete b h pages 0%Z); try done; [unfold paid; lia|]. intros _. by apply lookup_ge_None. }
  pose proof (lookup_lt_Some _ _ _ Hoff) as Hlt. pose proof (take_units_spec 1 b Hbud ltac:(lia)) as Htake. destruct (take_units 1 b) as [b1|].
  2: { apply wp_ret. apply (HQ Pending b h pages 0%Z); try done; [unfold paid; lia|intros; lia|intros; lia]. }
  destruct Htake as [Hb1 Hp1]. destruct (scanned_field _ _ _ _ _ _ _ _ Hg Hph Ha Hoff) as (pl & t & Hpl & Hv & Hpres).
  apply wp_bind. eapply wp_lift. { unfold payload_read. rewrite Hpl. cbn. by rewrite Hv. }
  assert (∀ h1 pages1 b2 n, good h1 pages1 l av rm dm → repainted pages pages1 → phase (marking h1) = Mark → active_scan h1 = Some a → scan_next h1 = scan_next h → steady h h1 → budget_ok b2 → paid b b2 n → (1 <= n)%Z →
    (∀ x, t = Some x → disc pages1 (epoch (marking h1)) x) → less_eq (mu h1 pages1 l rm) (mu h pages l rm) → (exact_marks h pages rm → exact_marks h1 pages1 rm) →
    wp E (modify (λ h, set_scan_next (S (scan_next h)) h) ;;! scan_shape fuel (desc_shape (scan_descriptor a)) (owner a) b2) Q h1) as Hstep.
  { intros h1 pages1 b2 n Hg1 Hrp1 Hph1 Ha1 Hn1 Hst Hb2 Hpd Hn Hd Hle Hex. apply wp_bind, wp_modify. set (h2 := set_scan_next (S (scan_next h1)) h1).
    assert (good h2 pages1 l av rm dm) as Hg2.
    { eapply good_next; [done|done|exact Ha1|]. intros off' pl' t' Ho Hpl' Hv'. rewrite Hn1, Hoff in Ho. injection Ho as <-. rewrite (sy_payloads _ _ Hst), Hpl in Hpl'. injection Hpl' as <-.
      rewrite Hv in Hv'. injection Hv' as ->. by apply Hd. }
    assert (less (mu h2 pages1 l rm) (mu h1 pages1 l rm)) as Hless.
    { destruct Hg1 as [[B1 _] _], Hg2 as [[B2 _] _]. eapply (less_tail h1 h2 pages1 pages1); [exact B1|exact B2|done|done|done|done|done|done|].
      unfold tail_mu. cbn [marking h2 set_scan_next active_scan scan_next]. rewrite Ha1. right. cbn. split; [done|]. lia. }
    apply (IH h2 pages1 b2); [done|done|exact Ha1|done|cbn; lia|]. intros st b' h' pages' k Hg' Hrp' Hph' Ha' Hst' Hb' Hpd' Hc Hpn Hle' Hlt' Hex'.
    apply (HQ st b' h' pages' (n + k)%Z); try done.
    - by etrans.
    - etrans; [exact Hst|]. etrans; [|exact Hst']. by split.
    - unfold paid in *. lia.
    - intros _ Hz. unfold paid in Hpd'. lia.
    - right. eapply less_eq_trans_l; [exact Hle'|]. by eapply less_eq_trans_r.
    - intros _ _. eapply less_eq_trans_l; [exact Hle'|]. by eapply less_eq_trans_r.
    - intros He. apply Hex'. exact (Hex He). }
  destruct t as [t|].
  - apply wp_bind. eapply publish_spec; [exact Hg|by unfold running; rewrite Hph|by apply Hpres|by rewrite Hph|by intros ? [= <-]|done|].
    intros st b' h' pages' Hpub. pose proof (published_less_eq _ _ _ _ _ _ _ _ _ _ _ _ Hg Hph (Hpres t eq_refl) Hpub) as Hle.
    assert (exact_marks h pages rm → exact_marks h' pages' rm) as Hex.
    { eapply exact_published; [exact Hpub|]. intros He. eapply (reach_edge _ _ (owner a)); [|by exists pl, off]. apply He.
      pose proof Hg as [_ Ht]. unfold tri in Ht. rewrite Hph in Ht. destruct Ht as (_ & _ & _ & Hsc & _). unfold scan_ok in Hsc. rewrite Ha in Hsc. naive_solver. }
    destruct Hpub as [Hg' Hm' Hch Hmono Hrep Hdone _]. destruct b' as [b2|]; [|done]. destruct Hch as (Hb2 & (n & Hpd & Hn4) & Hpend). cbn [fst snd default]. assert (phase (marking h') = Mark) as Hph' by (by rewrite (md_phase _ _ Hm')).
    destruct st.
    + apply wp_ret. destruct (Hpend eq_refl) as [-> Hlt4]. apply (HQ Pending b1 h' pages' 1%Z); try done.
      * by rewrite (md_scan _ _ Hm').
      * by apply marked_steady.
      * unfold paid in *. intros _ H5. lia.
    + eapply (Hstep h' pages' b2 (1 + n)%Z); [done|done|done|by rewrite (md_scan _ _ Hm')|by rewrite (md_next _ _ Hm')|by apply marked_steady|done|unfold paid in *; lia|unfold paid in Hpd; lia| |done|done].
      intros x [= <-]. rewrite (md_epoch _ _ Hm'). apply Hdone; [done|by right].
  - eapply (Hstep h pages b1 1%Z); try done.
Qed.

(** ** Scanning one object *)
(** What one round of scanning guarantees. *)
Record advanced (h h' : Heap) (pages pages' : gmap Z Page) (l : list Z) (av : nat → list Z) (rm : gmap Z RootSlot) (dm : gmap Z DescriptorEntry)
    (more : bool) (b b' : ScanBudget) : Prop := {
  ad_good : good h' pages' l av rm dm; ad_steady : steady h h'; ad_running : running h'; ad_not_idle : phase (marking h') ≠ Idle;
  ad_budget : budget_ok b'; ad_paid : ∃ n, paid b b' n ∧ (more = true → n = 0%Z → is_Some (active_scan h) ∧ active_scan h' = None);
  ad_exact : exact_marks h pages rm → exact_marks h' pages' rm;
  ad_le : less_eq (mu h' pages' l rm) (mu h pages l rm);
  ad_less : more = true ∨ (5 <= remaining b)%Z → less (mu h' pages' l rm) (mu h pages l rm)
}.

Lemma blacken_spec {A} (answer : A) E h pages l av rm dm a hd pg s e Q : good h pages l av rm dm → phase (marking h) = Mark → active_scan h = Some a →
  located (physical h) pages dm (owner a) hd pg s e → length (references (desc_shape (scan_descriptor a))) ≤ scan_next h →
  (∀ h' pages', good h' pages' l av rm dm → phase (marking h') = Mark → steady h h' → active_scan h' = None →
     less (mu h' pages' l rm) (mu h pages l rm) → (exact_marks h pages rm → exact_marks h' pages' rm) → Q answer h') →
  wp E (let! h0 := read in let! pg0 := on_physical (page (hdr_allocation hd)) in
        let! m := or_panic (set_black (marks pg0) s (epoch (marking h0))) in
        edit_marks (hdr_allocation hd) m ;;! modify (set_active_scan None) ;;! ret answer) Q h.
Proof.
  intros Hg Hph Ha [Hhd Hp Hslot Hocc He _ _] Hlen HQ. pose proof Hg as [[Hb Hm] Ht]. pose proof (storage_page_ok _ _ _ _ _ _ (ba_storage _ _ _ _ _ _ _ Hb) Hp) as Hok.
  pose proof (occ_bound _ _ Hocc) as Hsb. pose proof (page_slots_bound _ Hok) as Hsl. assert (core (physical h) pages l av) as Hc by apply Hb. set (ep := epoch (marking h)).
  unfold tri in Ht. rewrite Hph in Ht. destruct Ht as (Hcl & Hpub & Hgr & Hsc & Hrt). unfold scan_ok in Hsc. rewrite Ha in Hsc.
  destruct Hsc as (_ & hd' & e' & Hhd' & He' & Hde & Hod & Hob & Hscan). rewrite Hhd in Hhd'. injection Hhd' as <-. rewrite He in He'. injection He' as <-.
  apply wp_bind, wp_read, wp_bind, wp_physical. eapply wp_page; [apply Hb|exact Hp|]. cbn beta. replace (set_physical (physical h) h) with h by (by destruct h).
  apply wp_bind. destruct (set_black_spec (marks pg) s ep (pk_marks _ Hok) ltac:(lia)) as (m' & Hm' & R). eapply wp_or_panic; [exact Hm'|].
  pose proof (queued_current _ _ _ _ Hm Hp) as Hqc. fold ep in Hqc. rewrite Hqc in R. pose proof (remarked_queued _ _ _ _ _ R) as Hq. apply wp_bind.
  assert (discb (marks pg) ep s = true) as Hds by (by apply (disc_at _ _ _ _ Hc ep _ _ _ _ Hp Hslot)).
  eapply edit_marks_spec; [exact Hb|exact Hp|apply R|]. intros t h1 Hb1. set (pages' := <[hdr_allocation hd := with_marks pg m']> pages) in *. apply wp_bind, wp_modify, wp_ret. set (h2 := set_active_scan None h1).
  destruct (colour_edit (physical h) pages l av Hc _ pg m' ep (owner a) s true true Hp Hslot) as [Hcd Hcb].
  { intros x Hx. rewrite (rm_disc _ _ _ _ _ R), (rm_black _ _ _ _ _ R). unfold added. by rewrite bool_decide_eq_false_2. }
  { rewrite (rm_disc _ _ _ _ _ R). unfold added. by rewrite bool_decide_eq_true_2. }
  { rewrite (rm_black _ _ _ _ _ R). unfold added. by rewrite bool_decide_eq_true_2. }
  fold pages' in Hcd, Hcb.
  assert (∀ x, disc pages' ep x ↔ disc pages ep x) as Hd.
  { intros x. etrans; [apply Hcd|]. destruct (decide (x = owner a)) as [->|]; [|naive_solver]. split; [by intros _|intros _; by right]. }
  assert (∀ x, blk pages' ep x ↔ blk pages ep x ∨ x = owner a) as Hbk.
  { intros x. etrans; [apply Hcb|]. destruct (decide (x = owner a)); naive_solver. }
  assert (based h2 pages' l av rm dm []) as Hb2 by (destruct Hb1; by split).
  assert (marks_ok (marking h2) pages') as Hm2.
  { eapply (marks_ok_edit (marking h)); try done; fold ep.
    - by rewrite (remarked_epoch _ _ _ _ _ R).
    - intros x. rewrite (rm_disc _ _ _ _ _ R), (rm_black _ _ _ _ _ R). unfold added. rewrite !orb_true_iff. intros [?|?]; [by left|right]. by apply (mk_black _ _ Hm (hdr_allocation hd) pg).
    - intros x. rewrite (rm_disc _ _ _ _ _ R). unfold added. rewrite orb_true_iff. intros [->%bool_decide_eq_true|?]; [done|]. by apply (mk_occ _ _ Hm (hdr_allocation hd) pg).
    - rewrite Hq. by apply (mk_queue _ _ Hm).
    - intros _. apply R.
    - apply Hm. }
  apply (HQ h2 pages'); [|done|by split|done|..].
  - split; [by split|]. unfold tri. change (phase (marking h2)) with (phase (marking h)). rewrite Hph. split; [done|]. split; [|split; [|split; [done|]]].
    + intros x t' Hx (pl & off & Hpl & Hoff). change (epoch (marking h2)) with ep in *. apply Hd. change (payloads (physical h2)) with (payloads (physical h)) in Hpl.
      apply Hbk in Hx as [Hx| ->]; [apply (Hpub x); [done|by exists pl, off]|].
      destruct (ba_payloads _ _ _ _ _ _ _ Hb _ _ _ Hhd He) as (pl' & Hpl' & _ & Href). rewrite Hpl in Hpl'. injection Hpl' as <-.
      pose proof (list_elem_of_lookup_1 _ _ (Href _ _ Hoff)) as [k Hk]. eapply (Hscan k); [|done|done|done].
      apply lookup_lt_Some in Hk. rewrite Hde in Hlen. lia.
    + intros j q x [[<- <-]|[Hne Hj]]%lookup_insert_Some Hx.
      * change (epoch (marking h2)) with ep in Hx. cbn [marks with_marks] in Hx. unfold grayb in Hx. rewrite (rm_disc _ _ _ _ _ R), (rm_black _ _ _ _ _ R) in Hx. unfold added in Hx.
        destruct (decide (x = s)) as [->|Hxs]; [by rewrite bool_decide_eq_true_2 in Hx|]. rewrite bool_decide_eq_false_2 in Hx by done. cbn [orb] in Hx.
        destruct (Hgr _ pg x Hp Hx) as [?|(a' & Ha' & Hs')]; [by left|]. rewrite Ha in Ha'. injection Ha' as <-. congruence.
      * destruct (Hgr j q x Hj Hx) as [?|(a' & Ha' & Hs')]; [by left|]. rewrite Ha in Ha'. injection Ha' as <-.
        destruct (slot_owner _ _ _ _ _ _ _ _ _ _ _ Hc Hp Hj Hslot Hs') as [<- _]. done.
    + intros t' Ht'. apply Hd. by apply Hrt.
  - eapply (less_black h h2); [exact Hb|exact Hb2|done|done|done|done|intros; by apply Hd|intros; apply Hbk; by left|by eexists|done|]. apply Hbk. by right.
  - eapply (exact_more h h2); [by split|]. intros x Hx. left. by apply Hd.
Qed.

Lemma descr_kind h pages l av rm dm D hd e : based h pages l av rm dm D → dm !! hdr_descriptor hd = Some e →
  desc_kind (entry_descriptor e) = EdgeFree ∨ desc_kind (entry_descriptor e) = Resumable.
Proof.
  intros Hb He. destruct (rg_entry _ _ _ (ba_registry _ _ _ _ _ _ _ Hb) _ _ He) as (_ & _ & Hd & _). rewrite (dk_scan _ Hd). case_bool_decide; auto.
Qed.

Lemma run_scanner_spec E h pages l av rm dm a hd pg s e b Q : good h pages l av rm dm → phase (marking h) = Mark → active_scan h = Some a → budget_ok b →
  located (physical h) pages dm (owner a) hd pg s e →
  (∀ more b' h' pages', advanced h h' pages pages' l av rm dm more b b' → Q (more, b') h') →
  wp E (run_scanner {| obj_reference := owner a; obj_descriptor := entry_descriptor e; obj_page := hdr_allocation hd; obj_slot := s |} b) Q h.
Proof.
  intros Hg Hph Ha Hbud Hloc HQ. pose proof Hg as [[Hb Hm] Ht]. unfold tri in Ht. rewrite Hph in Ht. destruct Ht as (_ & _ & _ & Hsc & _). unfold scan_ok in Hsc. rewrite Ha in Hsc.
  destruct Hsc as (Hrest & hd' & e' & Hhd' & He' & Hde & _). rewrite (lo_header _ _ _ _ _ _ _ _ Hloc) in Hhd'. injection Hhd' as <-.
  rewrite (lo_entry _ _ _ _ _ _ _ _ Hloc) in He'. injection He' as <-.
  unfold run_scanner. apply wp_bind, wp_read, wp_bind. eapply wp_or_panic; [exact Ha|]. cbn [obj_descriptor]. rewrite Hde, Z.eqb_refl. cbn [negb]. apply wp_bind. rewrite Hrest. apply wp_ret. cbn zeta.
  assert (∀ max, desc_kind (entry_descriptor e) ≠ Bounded max) as Hnb by (intros max; destruct (descr_kind _ _ _ _ _ _ _ _ _ Hb (lo_entry _ _ _ _ _ _ _ _ Hloc)); congruence).
  replace (match desc_kind (entry_descriptor e) with Bounded max_work => (remaining b <? max_work * 5)%Z | _ => false end) with false
    by (destruct (desc_kind (entry_descriptor e)) as [|max| |] eqn:E0; [done|by destruct (Hnb max)|done|done]).
  apply wp_bind. rewrite <- Hde. cbn [obj_reference]. eapply scan_shape_spec; [exact Hg|done|exact Ha|done|lia|].
  intros st b' h' pages' n Hg' Hrp Hph' Ha' Hst Hb' Hpd Hc Hz Hle Hlt Hex. cbn [fst snd].
  assert (spent b' - spent b = n)%Z as -> by (unfold paid in Hpd; lia). destruct (Z.ltb_spec (remaining b) n); [unfold paid, budget_ok in *; lia|]. rewrite andb_false_r.
  replace (match desc_kind (scan_descriptor a) with Bounded max_work => _ | _ => false end) with false
    by (rewrite Hde; destruct (desc_kind (entry_descriptor e)) as [|max| |] eqn:E0; [done|by destruct (Hnb max)|done|done]).
  destruct st.
  - destruct (Z.eqb_spec n 0) as [->|Hn]; cbn [andb].
    + specialize (Hz eq_refl eq_refl). destruct (Z.leb_spec 5 (remaining b)); [lia|]. apply wp_ret. apply (HQ false b' h' pages'). split; try done.
      * unfold running. by rewrite Hph'.
      * by rewrite Hph'.
      * by exists 0%Z.
      * intros [?|?]; [done|lia].
    + apply wp_ret. apply (HQ false b' h' pages'). split; try done.
      * unfold running. by rewrite Hph'.
      * by rewrite Hph'.
      * by exists n.
      * intros [?|?]; [done|by apply Hlt].
  - pose proof Hg' as [[Hbh' _] _]. assert (present (physical h') (owner a)) as Hpr by (unfold present; rewrite (sy_headers _ _ Hst); eexists; apply Hloc).
    destruct (locate_present _ _ _ _ _ _ _ Hbh' Hpr) as (hd2 & pg2 & s2 & e2 & Hloc2).
    assert (hd2 = hd) as -> by (pose proof (lo_header _ _ _ _ _ _ _ _ Hloc2) as H1; rewrite (sy_headers _ _ Hst), (lo_header _ _ _ _ _ _ _ _ Hloc) in H1; congruence).
    assert (s2 = s ∧ e2 = e) as [-> ->].
    { split; [|pose proof (lo_entry _ _ _ _ _ _ _ _ Hloc2) as H1; rewrite (lo_entry _ _ _ _ _ _ _ _ Hloc) in H1; congruence].
      destruct (repainted_back _ _ _ _ Hrp (lo_page _ _ _ _ _ _ _ _ Hloc2)) as (pg0 & m & Hp0 & ->). rewrite (lo_page _ _ _ _ _ _ _ _ Hloc) in Hp0. injection Hp0 as <-.
      pose proof (lo_slot _ _ _ _ _ _ _ _ Hloc2) as H1. change (slot_of pg (owner a) = Some s2) in H1. rewrite (lo_slot _ _ _ _ _ _ _ _ Hloc) in H1. congruence. }
    cbn [obj_page obj_slot]. eapply (blacken_spec (true, b')); [exact Hg'|done|exact Ha'|exact Hloc2|by apply Hc|].
    intros h2 pages2 Hg2 Hph2 Hst2 Ha2 Hless Hex2. apply (HQ true b' h2 pages2). assert (less (mu h2 pages2 l rm) (mu h pages l rm)) by (by eapply less_eq_trans_r).
    split; try done.
    + by etrans.
    + unfold running. by rewrite Hph2.
    + by rewrite Hph2.
    + exists n. split; [done|]. intros _ _. split; [by eexists|done].
    + auto.
    + by right.
Qed.

Lemma based_cursor h h' pages l av rm dm D c : based h pages l av rm dm D → physical h' = set_cursor c (physical h) → roots h' = roots h → heap_id h' = heap_id h →
  ledger h' = ledger h → config h' = config h → based h' pages l av rm dm D.
Proof.
  intros [[[] Hl Ha Hu] [] [] Hp Hr Hi Hle] E1 E2 E3 E4 E5. split; rewrite ?E1, ?E2, ?E3, ?E4, ?E5; try done; by split.
Qed.

(** ** From marking to sweeping *)
Lemma begin_sweep h pages l av rm dm : good h pages l av rm dm → phase (marking h) = Mark → active_scan h = None → pending (marking h) = [] →
  let h1 := set_marking (set_phase Sweep (marking h)) h in
  let h2 := set_physical (set_cursor {| cursor_page := first_active (physical h); cursor_slot := 0 |} (physical h)) h1 in
  let h3 := set_sweep_stage StagePhysical h2 in good h3 pages l av rm dm ∧ less (mu h3 pages l rm) (mu h pages l rm).
Proof.
  intros [[Hb Hm] Ht] Hph Ha Hp h1 h2 h3. unfold tri in Ht. rewrite Hph in Ht. destruct Ht as (Hcl & Hpub & Hgr & _ & Hrt). rewrite Ha in Hgr.
  assert (∀ r, disc pages (epoch (marking h)) r → blk pages (epoch (marking h)) r) as Hgray.
  { intros r (id & pg & s & Hpg & Hs & Hd). exists id, pg, s. split; [done|]. split; [done|]. destruct (blackb (marks pg) (epoch (marking h)) s) eqn:E; [done|].
    destruct (Hgr id pg s Hpg) as [Hin|(a & ? & _)]; [unfold grayb; by rewrite Hd, E| |done]. rewrite Hp in Hin. by apply elem_of_nil in Hin. }
  split.
  - split; [split; [by eapply (based_cursor h)|destruct Hm; by split]|]. unfold tri. cbn [phase marking h3 h2 h1 set_sweep_stage set_physical set_marking set_phase]. split; try done.
    + intros r t Hr He. apply Hgray, (Hpub r t Hr). done.
    + intros t Ht. by apply Hgray, Hrt.
    + exists 0. cbn. split; [apply (lk_head _ _ _ (co_active _ _ _ _ (sg_core _ _ _ _ (ba_storage _ _ _ _ _ _ _ Hb))))|]. split; intros; lia.
  - rewrite (mu_mark h) by done. left. cbn. lia.
Qed.

Lemma good_popped h h' pages pages' l av rm dm : good h pages l av rm dm → phase (marking h) = Mark → active_scan h = None →
  popped h h' pages pages' l av rm dm → gray_ok (marking h') pages' None → good h' pages' l av rm dm.
Proof.
  intros [_ Ht] Hph Ha [Hsh Hmk Hcol _] Hg. split; [done|]. unfold tri in *. rewrite (md_phase _ _ Hmk), Hph. rewrite Hph in Ht. destruct Ht as (Hcl & Hpub & _ & _ & Hrt).
  rewrite (md_scan _ _ Hmk), Ha, (md_epoch _ _ Hmk). split; [by eapply closed_marked|]. split; [|split; [done|split; [unfold scan_ok; by rewrite (md_scan _ _ Hmk), Ha|]]].
  - intros r t Hr He. apply Hcol. apply (Hpub r); [by apply Hcol|]. by apply (edge_marked _ _ _ _ Hmk).
  - intros t Hr. apply Hcol. by apply Hrt.
Qed.
Lemma good_activated h h' pages pages' l av rm dm r hd e : good h pages l av rm dm → phase (marking h) = Mark → active_scan h = None →
  popped h h' pages pages' l av rm dm → headers (physical h) !! r = Some hd → dm !! hdr_descriptor hd = Some e →
  disc pages (epoch (marking h)) r → ¬ blk pages (epoch (marking h)) r → let a := {| owner := r; scan_descriptor := entry_descriptor e; restart := false |} in
  gray_ok (marking h') pages' (Some a) → let h2 := set_active_scan (Some a) (set_scan_next 0 h') in
  good h2 pages' l av rm dm ∧ less (mu h2 pages' l rm) (mu h pages l rm).
Proof.
  intros [[Hb _] Ht] Hph Ha [[Hb' Hm'] Hmk Hcol Hlen] Hhd He Hd Hnb a Hg h2. assert (based h2 pages' l av rm dm []) as Hb2 by (destruct Hb'; by split). split.
  - split; [split; [done|destruct Hm'; by split]|]. unfold tri in *. change (phase (marking h2)) with (phase (marking h')). rewrite (md_phase _ _ Hmk), Hph. rewrite Hph in Ht. destruct Ht as (Hcl & Hpub & _ & _ & Hrt).
    change (epoch (marking h2)) with (epoch (marking h')). rewrite (md_epoch _ _ Hmk). split; [by eapply (closed_marked h h')|]. split; [|split; [done|split]].
    + intros x t Hr Hed. apply Hcol. apply (Hpub x); [by apply Hcol|]. by apply (edge_marked _ _ _ _ Hmk).
    + cbn. split; [done|]. exists hd, e. rewrite (md_headers _ _ Hmk), (md_epoch _ _ Hmk). split_and!; [done|done|done|by apply Hcol|by rewrite (proj2 (Hcol r))|]. intros; lia.
    + intros t Hr. apply Hcol. by apply Hrt.
  - eapply (less_tail h h2); [exact Hb|exact Hb2|done|exact (eq_trans (md_phase _ _ Hmk) Hph)|apply Hmk|apply Hmk|intros x; apply Hcol|intros x; apply Hcol|].
    unfold tail_mu. rewrite Ha. left. cbn. lia.
Qed.

Lemma advanced_stop h pages l av rm dm b : good h pages l av rm dm → running h → phase (marking h) ≠ Idle → budget_ok b → (remaining b < 5)%Z →
  advanced h h pages pages l av rm dm false b b.
Proof. intros. split; try done. - exists 0%Z. split; [unfold paid; lia|done]. - intros [?|?]; [done|lia]. Qed.
(** A step that pays at least one unit and makes progress. *)
Lemma advanced_step h h' pages pages' l av rm dm b b' n : good h' pages' l av rm dm → steady h h' → running h' → phase (marking h') ≠ Idle →
  budget_ok b' → paid b b' n → (1 <= n)%Z → less (mu h' pages' l rm) (mu h pages l rm) →
  (exact_marks h pages rm → exact_marks h' pages' rm) → advanced h h' pages pages' l av rm dm true b b'.
Proof. intros. split; try done. - exists n. split; [done|]. lia. - by right. Qed.

Lemma scan_object_spec E h pages l av rm dm b Q : good h pages l av rm dm → phase (marking h) = Mark → budget_ok b →
  (∀ more b' h' pages', advanced h h' pages pages' l av rm dm more b b' → Q (more, b') h') → wp E (scan_object b) Q h.
Proof.
  intros Hg Hph Hbud HQ. pose proof Hg as [[Hb Hm] Ht]. unfold tri in Ht. rewrite Hph in Ht. destruct Ht as (Hcl & Hpub & Hgr & Hsc & Hrt).
  unfold scan_object. apply wp_bind, wp_read. destruct (active_scan h) as [a|] eqn:Ha.
  - unfold scan_ok in Hsc. rewrite Ha in Hsc. destruct Hsc as (_ & hd & e & Hhd & _). destruct (locate_present _ _ _ _ _ _ (owner a) Hb) as (hd' & pg & s & e' & Hloc); [by eexists|].
    apply wp_bind. eapply wp_lift; [apply Hloc|]. by eapply run_scanner_spec.
  - pose proof (take_units_spec 4 b Hbud ltac:(lia)) as Htake. destruct (take_units 4 b) as [b1|].
    2: { apply wp_ret. apply (HQ false b h pages). apply advanced_stop; try done; [unfold running; by rewrite Hph|by rewrite Hph|lia]. }
    destruct Htake as [Hb1 Hp1]. apply wp_bind.
    assert (∀ h' pages', good h' pages' l av rm dm → marked h h' → pending (marking h') = [] → less_eq (mu h' pages' l rm) (mu h pages l rm) → (exact_marks h pages rm → exact_marks h' pages' rm) →
      wp E (on_marking (set_phase Sweep) ;;! on_physical (modify (λ p, set_cursor {| cursor_page := first_active p; cursor_slot := 0 |} p)) ;;!
            modify (set_sweep_stage StagePhysical) ;;! ret (true, b1)) Q h') as Hsweep.
    { intros h' pages' Hg' Hmk Hp' Hle Hex. apply wp_bind, wp_modify, wp_bind, wp_physical, wp_modify, wp_bind, wp_modify, wp_ret. cbn [physical set_marking].
      destruct (begin_sweep h' pages' l av rm dm Hg' ltac:(by rewrite (md_phase _ _ Hmk)) ltac:(by rewrite (md_scan _ _ Hmk)) Hp') as [Hg3 Hless].
      eapply (HQ true b1 _ pages'), advanced_step; [exact Hg3|etrans; [by apply marked_steady|by split]|done|done|done|exact Hp1|lia|by eapply less_eq_trans_r|]. intros He. eapply (exact_more h'); [by split| |by apply Hex]. by left. }
    eapply next_gray_spec; [by split|done|..].
    + intros Hp. apply wp_bind, wp_read. rewrite bool_decide_eq_true_2 by done. by apply (Hsweep h pages).
    + intros h' pages' Hpop Hlen Hg'. pose proof (good_popped _ _ _ _ _ _ _ _ Hg Hph Ha Hpop Hg') as Hgood. destruct Hpop as [[Hb' _] Hmk Hcol _].
      assert (less (mu h' pages' l rm) (mu h pages l rm)) as Hless.
      { eapply (less_tail h h'); [exact Hb|exact Hb'|done|exact (eq_trans (md_phase _ _ Hmk) Hph)|apply Hmk|apply Hmk|intros x; apply Hcol|intros x; apply Hcol|].
        unfold tail_mu. rewrite (md_scan _ _ Hmk), Ha. left. cbn. lia. }
      assert (exact_marks h pages rm → exact_marks h' pages' rm) as Hex by (eapply (exact_more h h'); [by apply marked_steady|]; intros x Hx; left; by apply Hcol).
      apply wp_bind, wp_read. case_bool_decide as Hp'; [apply (Hsweep h' pages'); [done|done|done|by right|done]|].
      apply wp_ret. eapply (HQ true b1 h' pages'), advanced_step; [done|by apply marked_steady|..|done|exact Hp1|lia|done|done]; unfold running; by rewrite (md_phase _ _ Hmk), Hph.
    + intros h' pages' r Hpop [hd Hhd] Hd Hnb Hg'. destruct (rg_headers _ _ _ (ba_registry _ _ _ _ _ _ _ Hb) r hd Hhd) as [e He].
      pose proof (po_marked _ _ _ _ _ _ _ _ Hpop) as Hmk. pose proof (po_shaped _ _ _ _ _ _ _ _ Hpop) as [Hb' _].
      destruct (locate_present h' pages' l av rm dm r Hb') as (hd' & pg & s & e' & Hloc); [exists hd; by rewrite (md_headers _ _ Hmk)|].
      assert (hd' = hd) as -> by (pose proof (lo_header _ _ _ _ _ _ _ _ Hloc) as H1; rewrite (md_headers _ _ Hmk) in H1; congruence).
      assert (e' = e) as -> by (pose proof (lo_entry _ _ _ _ _ _ _ _ Hloc) as H1; congruence).
      destruct (good_activated _ _ _ _ _ _ _ _ r hd e Hg Hph Ha Hpop Hhd He Hd Hnb (Hg' {| owner := r; scan_descriptor := entry_descriptor e; restart := false |} eq_refl)) as [Hg2 Hless].
      apply wp_bind, wp_read, wp_bind. eapply wp_lift; [apply Hloc|]. apply wp_bind, wp_modify. cbn [obj_descriptor].
      set (h2 := set_active_scan _ _) in *. eapply (run_scanner_spec E h2 pages' l av rm dm {| owner := r; scan_descriptor := entry_descriptor e; restart := false |} hd pg s e b1);
        [exact Hg2|exact (eq_trans (md_phase _ _ Hmk) Hph)|done|done|destruct Hloc; by split|].
      intros more b' h3 pages3 [Hg3 Hst Hrun Hni Hbb (n & Hpd & _) Hex Hle _]. apply (HQ more b' h3 pages3). assert (less (mu h3 pages3 l rm) (mu h pages l rm)) by (by eapply less_eq_trans_l).
      split; try done.
      * etrans; [by apply marked_steady|]. etrans; [|exact Hst]. by split.
      * exists (4 + n)%Z. unfold paid in *. split; [lia|]. intros _ ?. lia.
      * intros Hex0. apply Hex. eapply (exact_more h h2); [etrans; [by apply marked_steady|by split]| |exact Hex0]. intros x Hx. left. by apply (po_colours _ _ _ _ _ _ _ _ Hpop).
      * by right.
Qed.

(** ** Scanning the roots *)
Lemma good_cursor h pages l av rm dm c : good h pages l av rm dm → phase (marking h) = Roots_ → cursor_ok (set_root_cursor c h) pages rm → good (set_root_cursor c h) pages l av rm dm.
Proof.
  intros [[Hb Hm] Ht] Hph Hc. split; [split; [destruct Hb; by split|done]|]. unfold tri in *. change (phase (marking (set_root_cursor c h))) with (phase (marking h)). rewrite Hph in *.
  destruct Ht as (Ha & Hcl & Hpub & Hgr & _). done.
Qed.
Lemma mu_roots h pages l rm : phase (marking h) = Roots_ →
  mu h pages l rm = (4, (root_work rm (drop (cursor_next (root_cursor h)) (take (cursor_end (root_cursor h)) (root_active (roots h)))) - cursor_target (root_cursor h), (0, (0, 0)))).
Proof. intros Hp. unfold mu. by rewrite Hp. Qed.
Lemma root_work_next rm active (next stop : nat) s e : active !! next = Some s → next < stop → rm !! s = Some e →
  root_work rm (drop next (take stop active)) = S (length (targets (entry e))) + root_work rm (drop (S next) (take stop active)).
Proof. intros Ha Hlt He. rewrite (drop_S _ s) by (rewrite lookup_take; by case_decide). cbn [root_work]. by rewrite He. Qed.
Lemma less_roots h h' pages pages' l rm s e : phase (marking h) = Roots_ → phase (marking h') = Roots_ → roots h' = roots h →
  let c := root_cursor h in let c' := root_cursor h' in cursor_end c' = cursor_end c → root_active (roots h) !! cursor_next c = Some s → cursor_next c < cursor_end c → rm !! s = Some e →
  (cursor_next c' = cursor_next c ∧ cursor_target c < cursor_target c' ≤ length (targets (entry e))
   ∨ cursor_next c' = S (cursor_next c) ∧ cursor_target c' = 0 ∧ cursor_target c ≤ length (targets (entry e))) → less (mu h' pages' l rm) (mu h pages l rm).
Proof.
  intros Hp Hp' Hr c c' He Ha Hlt Hs Hc. rewrite !mu_roots, Hr by done. fold c c'. rewrite He. pose proof (root_work_next rm _ _ (cursor_end c) _ _ Ha Hlt Hs) as Hw. fold c in Hw.
  right. split; [done|]. left. cbn [fst snd]. destruct Hc as [(-> & ?)|(-> & -> & ?)]; lia.
Qed.

(** The registration under the cursor. *)
Lemma cursor_entry h pages l av rm dm : good h pages l av rm dm → phase (marking h) = Roots_ → cursor_next (root_cursor h) < cursor_end (root_cursor h) →
  ∃ s e, root_active (roots h) !! cursor_next (root_cursor h) = Some s ∧ rm !! s = Some e ∧ get (root_slots (roots h)) s = Some e
    ∧ cursor_target (root_cursor h) ≤ length (targets (entry e))
    ∧ (match cursor_active (root_cursor h) with None => true | Some active => bool_decide (active = {| root_heap := heap_id h; root_slot := s; root_generation := generation e |}) end) = true.
Proof.
  intros [[Hb _] Ht] Hph Hlt. unfold tri in Ht. rewrite Hph in Ht. destruct Ht as (_ & _ & _ & _ & [Hbd Hac _ _]).
  destruct (lookup_lt_is_Some_2 (root_active (roots h)) (cursor_next (root_cursor h))) as [s Hs]; [lia|].
  pose proof Hs as Hs'. apply (ro_active _ _ (ba_roots _ _ _ _ _ _ _ Hb)) in Hs' as (e & He & _). exists s, e. split; [done|]. split; [done|]. split; [by eapply root_get; [apply Hb|]|].
  destruct (cursor_active _) as [[hp sl gn]|]; [|rewrite Hac; split; [lia|done]]. cbn in Hac. destruct Hac as (-> & Hs2 & e2 & He2 & Hg & Hle). rewrite Hs in Hs2. injection Hs2 as ->.
  rewrite He in He2. injection He2 as <-. split; [done|]. apply bool_decide_eq_true_2. by rewrite Hg.
Qed.
Lemma cursor_ok_step h pages rm s e c : cursor_ok h pages rm → cursor_next (root_cursor h) < cursor_end (root_cursor h) →
  root_active (roots h) !! cursor_next (root_cursor h) = Some s → rm !! s = Some e →
  (0 < strong (entry e) → ∀ k t, k < cursor_target c → targets (entry e) !! k = Some (Some t) → disc pages (epoch (marking h)) t) →
  cursor_end c = cursor_end (root_cursor h) → cursor_next c = cursor_next (root_cursor h) → cursor_target c ≤ length (targets (entry e)) →
  cursor_active c = Some {| root_heap := heap_id h; root_slot := s; root_generation := generation e |} → cursor_ok (set_root_cursor c h) pages rm.
Proof.
  intros [Hbd Hac Hd Hpt] Hlt Hs He Hk E1 E2 Hle E3. split; cbn [root_cursor set_root_cursor roots heap_id marking]; rewrite ?E1, ?E2; [done| |done|].
  - rewrite E3. cbn. split; [done|]. split; [done|]. by exists e.
  - intros s' e' k t Hs' _ He'. rewrite Hs in Hs'. injection Hs' as <-. rewrite He in He'. injection He' as <-. intros Hst. by apply Hk.
Qed.
Lemma cursor_ok_skip h pages rm s e : cursor_ok h pages rm → cursor_next (root_cursor h) < cursor_end (root_cursor h) →
  root_active (roots h) !! cursor_next (root_cursor h) = Some s → rm !! s = Some e → strong (entry e) = 0 ∨ length (targets (entry e)) ≤ cursor_target (root_cursor h) →
  cursor_ok (set_root_cursor {| cursor_end := cursor_end (root_cursor h); cursor_next := S (cursor_next (root_cursor h)); cursor_target := 0; cursor_active := None |} h) pages rm.
Proof.
  intros [Hbd Hac Hd Hpt] Hlt Hs He Hor. split; cbn [root_cursor set_root_cursor roots heap_id marking cursor_end cursor_next cursor_target cursor_active]; [lia|done| |intros; lia].
  intros i s' e' t Hi He' Hst Ht Hin. destruct (decide (i = cursor_next (root_cursor h))) as [->|]; [|eapply Hd; [done|done|done|done|lia]].
  rewrite Hs in Hi. injection Hi as <-. rewrite He in He'. injection He' as <-. destruct Hor as [?|Hle]; [lia|].
  apply list_elem_of_lookup_1 in Ht as [k Hk]. eapply (Hpt s e k); [done|done|done|done| |done]. apply lookup_lt_Some in Hk. lia.
Qed.

Lemma scan_roots_spec E h pages l av rm dm b Q : good h pages l av rm dm → phase (marking h) = Roots_ → budget_ok b →
  (∀ more b' h' pages', advanced h h' pages pages' l av rm dm more b b' → Q (more, b') h') → wp E (scan_roots b) Q h.
Proof.
  intros Hg Hph Hbud HQ. pose proof Hg as [[Hb Hm] Ht]. unfold tri in Ht. rewrite Hph in Ht. destruct Ht as (Ha & Hcl & Hpub & Hgr & Hcu).
  assert (running h) as Hrun by (unfold running; by rewrite Hph).
  assert (∀ n, (1 <= n < 5)%Z → match take_units n b with Some _ => True | None => Q (false, b) h end) as Hnone.
  { intros n Hn. pose proof (take_units_spec n b Hbud ltac:(lia)) as Htk. destruct (take_units n b); [done|]. apply (HQ false b h pages), advanced_stop; try done; [by rewrite Hph|lia]. }
  unfold scan_roots. apply wp_bind, wp_read. cbn zeta. pose proof (take_units_spec 1 b Hbud ltac:(lia)) as Htake. specialize (Hnone 1%Z ltac:(lia)).
  destruct (Nat.leb_spec (cursor_end (root_cursor h)) (cursor_next (root_cursor h))) as [Hend|Hlt].
  - destruct (take_units 1 b) as [b1|]; [|by apply wp_ret]. destruct Htake as [Hb1 Hp1]. apply wp_bind, wp_modify, wp_ret. set (h' := set_marking _ h).
    apply (HQ true b1 h' pages). eapply advanced_step; [|by split|done|done|done|exact Hp1|lia| |done].
    + split; [split; [destruct Hb; by split|destruct Hm; by split]|]. unfold tri. cbn [phase marking h' set_marking set_phase]. change (active_scan h') with (active_scan h). rewrite Ha. split_and!; [done|done|done|unfold scan_ok; change (active_scan h') with (active_scan h); by rewrite Ha|].
      intros t (s & e & Hs & Hst & Hin).
      eapply (cu_disc _ _ _ Hcu (active_index (entry e))); [by apply (ro_active _ _ (ba_roots _ _ _ _ _ _ _ Hb)); exists e|done|done|done|lia].
    + rewrite (mu_roots h), (mu_mark h') by done. left. cbn. lia.
  - destruct (take_units 1 b) as [b1|]; [|by apply wp_ret]. destruct Htake as [Hb1 Hp1].
    destruct (cursor_entry _ _ _ _ _ _ Hg Hph Hlt) as (s & e & Hs & He & Hget & Hle & Hvalid). apply wp_bind. eapply wp_or_panic; [exact Hs|]. apply wp_bind. eapply wp_or_panic; [exact Hget|].
    rewrite Hvalid. cbn [andb]. destruct (negb (strong (entry e) =? 0) && (cursor_target (root_cursor h) <? length (targets (entry e)))) eqn:Hcond.
    + apply andb_true_iff in Hcond as [Hst Htl]. apply negb_true_iff, Nat.eqb_neq in Hst. apply Nat.ltb_lt in Htl. apply wp_bind, wp_modify.
      set (c1 := {| cursor_end := _; cursor_next := _; cursor_target := cursor_target _; cursor_active := _ |}). set (h1 := set_root_cursor c1 h).
      assert (cursor_ok h1 pages rm) as Hcu1.
      { eapply cursor_ok_step; try done. intros _ k t Hk Htk. eapply (cu_part _ _ _ Hcu s e k t); [done|done|done|lia|exact Hk|done]. }
      pose proof (good_cursor _ _ _ _ _ _ _ Hg Hph Hcu1) as Hg1. fold h1 in Hg1. apply wp_bind. destruct (lookup_lt_is_Some_2 (targets (entry e)) (cursor_target (root_cursor h))) as [x Hx]; [lia|].
      eapply wp_or_panic; [exact Hx|]. apply wp_bind.
      assert (∀ b2 h2 pages2 n, good h2 pages2 l av rm dm → marked h1 h2 → (∀ t, x = Some t → disc pages2 (epoch (marking h2)) t) → budget_ok b2 → paid b b2 n → (1 <= n)%Z →
        (exact_marks h pages rm → exact_marks h2 pages2 rm) → wp E (modify (λ h, set_root_cursor {| cursor_end := cursor_end (root_cursor h1); cursor_next := cursor_next (root_cursor h1); cursor_target := S (cursor_target (root_cursor h1));
           cursor_active := cursor_active c1 |} h) ;;! ret (true, b2)) Q h2) as Hstep.
      { intros b2 h2 pages2 n Hg2 Hmk Hx2 Hbb2 Hp2 Hn Hex. apply wp_bind, wp_modify, wp_ret. set (c3 := {| cursor_end := _; cursor_next := _; cursor_target := S _; cursor_active := _ |}). set (h3 := set_root_cursor c3 h2).
        assert (phase (marking h2) = Roots_) as Hph2 by (by rewrite (md_phase _ _ Hmk)). pose proof Hg2 as [_ Ht2]. unfold tri in Ht2. rewrite Hph2 in Ht2. destruct Ht2 as (_ & _ & _ & _ & Hcu2).
        pose proof (md_root_cursor _ _ Hmk) as Erc. pose proof (md_roots _ _ Hmk) as Ero. cbn in Erc, Ero.
        assert (cursor_ok h3 pages2 rm) as Hcu3.
        { eapply cursor_ok_step; [exact Hcu2|by rewrite Erc|by rewrite Erc, Ero|exact He|..]; rewrite ?Erc; [|done|done|cbn; lia|cbn; by rewrite (md_id _ _ Hmk)].
          intros _ k t Hk Htk. cbn in Hk. destruct (decide (k = cursor_target (root_cursor h))) as [->|].
          - rewrite Hx in Htk. injection Htk as ->. by apply Hx2.
          - eapply (cu_part _ _ _ Hcu2 s e k t); rewrite ?Erc, ?Ero; try done; [lia|cbn; lia]. }
        pose proof (good_cursor _ _ _ _ _ _ _ Hg2 Hph2 Hcu3) as Hg3. apply (HQ true b2 h3 pages2). eapply advanced_step; [exact Hg3| |unfold running; cbn; by rewrite Hph2|cbn; by rewrite Hph2|done|exact Hp2|done| |done].
        - etrans; [|etrans; [apply (marked_steady h1 h2), Hmk|by split]]. by split.
        - eapply (less_roots h h3 pages pages2 l rm s e); [done|done|exact Ero|done|done|done|done|]. left. cbn. split; [done|]. lia. }
      destruct x as [t|].
      * eapply publish_spec; [exact Hg1|exact Hrun| |cbn; by rewrite Hph|by intros ? [= <-]|done|].
        { apply Hcl. exists s, e. split; [done|]. split; [lia|]. by eapply list_elem_of_lookup_2. }
        intros st b' h2 pages2 Hpb. assert (exact_marks h pages rm → exact_marks h2 pages2 rm) as Hex.
        { apply (exact_published _ _ _ _ _ _ _ _ _ _ _ _ Hpb). intros _. apply reach_root. exists s, e. split; [done|]. split; [lia|]. by eapply list_elem_of_lookup_2. }
        destruct Hpb as [Hg2 Hmk Hch Hmono Hrep Hdone _]. destruct b' as [b2|]; [|done]. destruct Hch as (Hbb2 & (n & Hpd & Hn) & Hpend). cbn [fst snd default].
        assert (phase (marking h2) = Roots_) as Hph2 by (by rewrite (md_phase _ _ Hmk)).
        destruct st.
        -- destruct (Hpend eq_refl) as [-> Hlt4]. apply wp_ret. apply (HQ false b1 h2 pages2). split; try done.
           ++ etrans; [|by apply marked_steady]. by split.
           ++ unfold running. by rewrite Hph2.
           ++ by rewrite Hph2.
           ++ exists 1%Z. done.
           ++ left. rewrite (mu_roots h2), (mu_roots h), (md_roots _ _ Hmk), (md_root_cursor _ _ Hmk) by done. done.
           ++ intros [?|?]; [done|]. unfold paid in Hp1. lia.
        -- apply (Hstep b2 h2 pages2 (1 + n)%Z); [done|done| |done|unfold paid in *; lia|unfold paid in Hpd; lia|done]. intros ? [= <-]. rewrite (md_epoch _ _ Hmk). apply Hdone; [done|by left].
      * apply wp_ret. cbn [fst snd default]. by apply (Hstep b1 h1 pages 1%Z).
    + apply wp_bind, wp_modify, wp_ret. assert (strong (entry e) = 0 ∨ length (targets (entry e)) ≤ cursor_target (root_cursor h)) as Hor.
      { apply andb_false_iff in Hcond as [H|H]; [left; by apply negb_false_iff, Nat.eqb_eq in H|right; by apply Nat.ltb_ge in H]. }
      pose proof (cursor_ok_skip _ _ _ _ _ Hcu Hlt Hs He Hor) as Hcu1. pose proof (good_cursor _ _ _ _ _ _ _ Hg Hph Hcu1) as Hg1. set (h1 := set_root_cursor _ h) in *.
      apply (HQ true b1 h1 pages). eapply advanced_step; [exact Hg1|by split|exact Hrun|cbn; by rewrite Hph|done|exact Hp1|lia| |done].
      eapply (less_roots h h1 pages pages l rm s e); try done. right. cbn. split_and!; [done|done|lia].
Qed.
