(* ===== verification/GcSweepProps.v ===== *)
(** * Managed heap: retiring dead objects keeps the invariant *)
From stdpp Require Import gmap fin_maps.
From S2P Require Import Prelude SlotBits GcBase GcTable GcPage GcColors GcDynamic GcHeap GcStorage GcSlots GcRoots GcRootsProps GcMark GcService GcInv GcMarkProps GcMeasure GcScanProps.
Open Scope nat_scope.

(** ** Pages seen through one change *)
Lemma became_slot_of pg pg' o u m r : became pg pg' o u m → slot_of pg' r = slot_of pg r.
Proof. intros B. apply slot_of_same; apply B. Qed.
Lemma became_pointer pg pg' o u m s : became pg pg' o u m → pointer pg' s = pointer pg s.
Proof. intros B. apply pointer_same; apply B. Qed.
Lemma kin_slot_of q0 q r : kin q0 q → slot_of q r = slot_of q0 r.
Proof. intros K. apply slot_of_same; apply K. Qed.
Lemma kin_pointer q0 q s : kin q0 q → pointer q s = pointer q0 s.
Proof. intros K. apply pointer_same; apply K. Qed.

Section Change.
Context (id : Z) (pg pg' : Page) (o u : nat → bool) (pages pages' : gmap Z Page).
Context (Hp : pages !! id = Some pg) (Hch : changed id pg' pages pages') (Hbe : became pg pg' o u (marks pg)).

Lemma changed_back j q : pages' !! j = Some q → ∃ q0, pages !! j = Some q0 ∧ marks q = marks q0 ∧ (∀ r, slot_of q r = slot_of q0 r) ∧ (∀ s, pointer q s = pointer q0 s)
  ∧ (∀ s, occ q s = if decide (j = id) then o s else occ q0 s) ∧ (∀ s, pending_slot q s = if decide (j = id) then u s else pending_slot q0 s).
Proof.
  destruct Hch as [Hi Ho]. intros Hq. destruct (decide (j = id)) as [->|Hj].
  - rewrite Hi in Hq. injection Hq as <-. exists pg. split_and!; [done|apply Hbe|intros; by eapply became_slot_of|intros; by eapply became_pointer|apply Hbe|apply Hbe].
  - specialize (Ho j Hj). rewrite Hq in Ho. inversion Ho as [q0 q1 K X Y|]; subst. exists q0. split_and!; [done|apply K|intros; by apply kin_slot_of|intros; by apply kin_pointer|apply K|apply K].
Qed.
Lemma changed_forth j q0 : pages !! j = Some q0 → ∃ q, pages' !! j = Some q ∧ marks q = marks q0 ∧ (∀ r, slot_of q r = slot_of q0 r) ∧ (∀ s, pointer q s = pointer q0 s)
  ∧ (∀ s, occ q s = if decide (j = id) then o s else occ q0 s) ∧ (∀ s, pending_slot q s = if decide (j = id) then u s else pending_slot q0 s).
Proof.
  intros Hq0. assert (is_Some (pages' !! j)) as [q Hq].
  { destruct Hch as [Hi Ho]. destruct (decide (j = id)) as [->|Hj]; [by eexists|]. specialize (Ho j Hj). rewrite Hq0 in Ho. inversion Ho; subst. by eexists. }
  exists q. split; [done|]. destruct (changed_back j q Hq) as (q1 & Hq1 & ?). rewrite Hq0 in Hq1. by injection Hq1 as ->.
Qed.
Lemma changed_colours e r : (disc pages' e r ↔ disc pages e r) ∧ (blk pages' e r ↔ blk pages e r).
Proof.
  assert (∀ f : PageMarks → Z → nat → bool,
    (∃ i q k, pages' !! i = Some q ∧ slot_of q r = Some k ∧ f (marks q) e k = true) ↔ (∃ i q k, pages !! i = Some q ∧ slot_of q r = Some k ∧ f (marks q) e k = true)) as Hgen.
  { intros f. split; intros (i & q & k & Hq & Hk & Hx).
    - destruct (changed_back _ _ Hq) as (q0 & Hq0 & M & S & _). exists i, q0, k. by rewrite <- M, <- S.
    - destruct (changed_forth _ _ Hq) as (q0 & Hq0 & M & S & _). exists i, q0, k. by rewrite M, S. }
  split; apply Hgen.
Qed.
End Change.

(** ** Detaching *)
Lemma contents_detach p p' pages pages' D id pg pg' s : contents p pages D → page_ok pg → pages !! id = Some pg → occ pg s = true → changed id pg' pages pages' →
  became pg pg' (flip_off (occ pg) s) (flip_on (pending_slot pg) s) (marks pg) → headers p' = headers p → objects p' = (objects p - 1)%Z → contents p' pages' (D ++ [(id, s)]).
Proof.
  intros [Hhd Hoc Hpe Hde Hnd Hob] Hok Hp Hocc Hch Hbe Eh Eo. split; rewrite ?Eh, ?Eo.
  - intros r hd Hr. destruct (Hhd r hd Hr) as (q0 & x & Hq0 & Hx & Hor). destruct (changed_forth _ _ _ _ _ _ _ Hp Hch Hbe _ _ Hq0) as (q & Hq & _ & S & _ & O & _).
    exists q, x. rewrite S, O. split; [done|]. split; [done|]. rewrite elem_of_app, list_elem_of_singleton. destruct Hor as [Ho|Hin]; [|by right; left].
    case_decide as Hj; [|by left]. unfold flip_off. rewrite Hj, Hp in Hq0. injection Hq0 as <-. destruct (Nat.eqb_spec x s) as [->|]; [right; right; by rewrite Hj|left]. done.
  - intros j q x Hq. destruct (changed_back _ _ _ _ _ _ _ Hp Hch Hbe _ _ Hq) as (q0 & Hq0 & _ & _ & P & O & _). rewrite O, P. intros Ho. apply (Hoc j q0 x Hq0).
    case_decide; [|done]. subst. rewrite Hp in Hq0. injection Hq0 as <-. unfold flip_off in Ho. by apply andb_true_iff in Ho as [_ ?].
  - intros j q x Hq. destruct (changed_back _ _ _ _ _ _ _ Hp Hch Hbe _ _ Hq) as (q0 & Hq0 & _ & _ & _ & _ & U). rewrite U, elem_of_app, list_elem_of_singleton. intros Hu.
    case_decide; [|left; by eapply Hpe]. subst. rewrite Hp in Hq0. injection Hq0 as <-. unfold flip_on in Hu. apply orb_true_iff in Hu as [->%Nat.eqb_eq|Hu]; [by right|left; by eapply Hpe].
  - intros j x. rewrite elem_of_app, list_elem_of_singleton. intros [Hin|[= -> ->]].
    + destruct (Hde j x Hin) as (q0 & r & hd & Hq0 & Hu & Hr & Hh & Ha). destruct (changed_forth _ _ _ _ _ _ _ Hp Hch Hbe _ _ Hq0) as (q & Hq & _ & _ & P & _ & U).
      exists q, r, hd. rewrite P, U. split_and!; [done| |done|done|done]. case_decide; [|done]. subst. rewrite Hp in Hq0. injection Hq0 as <-. unfold flip_on. rewrite Hu. apply orb_true_r.
    + destruct (Hoc id pg s Hp Hocc) as (r & hd & Hr & Hh & Ha). destruct (changed_forth _ _ _ _ _ _ _ Hp Hch Hbe _ _ Hp) as (q & Hq & _ & _ & P & _ & U).
      exists q, r, hd. rewrite P, U. split_and!; [done| |done|done|done]. rewrite decide_True by done. unfold flip_on. by rewrite Nat.eqb_refl.
  - apply list.NoDup_app. split; [done|]. split; [|apply list.NoDup_singleton]. intros [j x] Hin. rewrite list_elem_of_singleton. intros [= -> ->].
    destruct (Hde id s Hin) as (q0 & r & hd & Hq0 & Hu & _). rewrite Hp in Hq0. injection Hq0 as <-. by rewrite (pk_disjoint _ Hok s Hocc) in Hu.
  - rewrite length_app. cbn. lia.
Qed.

(** Each detached slot, and one more object, has a header. *)
Lemma contents_room p pages l av D id pg s : core p pages l av → contents p pages D → pages !! id = Some pg → occ pg s = true → length D < size (headers p).
Proof.
  intros Hc [Hhd Hoc Hpe Hde Hnd Hob] Hp Hocc. set (f := λ x : Z * nat, default (0, 0)%Z (pages !! fst x ≫= λ q, pointer q (snd x))).
  assert (∀ j x q r, pages !! j = Some q → pointer q x = Some r → f (j, x) = r) as Hf by (intros j x q r Hq Hr; unfold f; cbn; by rewrite Hq; cbn; rewrite Hr).
  assert (∀ j x, (j, x) ∈ (id, s) :: D → ∃ q r hd, pages !! j = Some q ∧ pointer q x = Some r ∧ f (j, x) = r ∧ headers p !! r = Some hd) as Hall.
  { intros j x [[= -> ->]|Hin]%elem_of_cons.
    - destruct (Hoc id pg s Hp Hocc) as (r & hd & Hr & Hh & _). exists pg, r, hd. eauto.
    - destruct (Hde j x Hin) as (q & r & hd & Hq & _ & Hr & Hh & _). exists q, r, hd. eauto. }
  assert (length (f <$> (id, s) :: D) ≤ size (headers p)) as Hlen; [|by rewrite length_fmap in Hlen].
  apply size_bound.
  - apply NoDup_fmap_2_strong.
    + intros [j x] [k y] H1 H2 Heq. destruct (Hall _ _ H1) as (q & r & hd & Hq & Hr & F1 & _), (Hall _ _ H2) as (q' & r' & hd' & Hq' & Hr' & F2 & _).
      assert (r' = r) as -> by congruence. destruct (co_page _ _ _ _ Hc _ _ Hq) as [K1 _], (co_page _ _ _ _ Hc _ _ Hq') as [K2 _].
      destruct (slot_owner _ _ _ _ _ _ _ _ _ _ _ Hc Hq Hq' (slot_of_pointer _ _ _ K1 Hr) (slot_of_pointer _ _ _ K2 Hr')) as [-> ->]. done.
    + constructor; [|done]. intros Hin. destruct (Hde id s Hin) as (q0 & r & hd & Hq0 & Hu & _). rewrite Hp in Hq0. injection Hq0 as <-.
      destruct (co_page _ _ _ _ Hc _ _ Hp) as [Hok _]. by rewrite (pk_disjoint _ Hok s Hocc) in Hu.
  - intros r ([j x] & -> & Hin)%list_elem_of_fmap. destruct (Hall _ _ Hin) as (q & r & hd & _ & _ & -> & Hh). by eexists.
Qed.

Lemma detach_spec E p pages l av D dm batch id pg s Q : storage p pages l av → contents p pages D → registry (descriptors p) (headers p) dm →
  pages !! id = Some pg → occ pg s = true → length batch < RETIREMENT_CAP →
  (∀ r hd t pg', pointer pg s = Some r → headers p !! r = Some hd → became pg pg' (flip_off (occ pg) s) (flip_on (pending_slot pg) s) (marks pg) →
     let p' := set_objects (objects p - 1) (set_allocations t p) in storage p' (<[id := pg']> pages) l av → contents p' (<[id := pg']> pages) (D ++ [(id, s)]) →
     Q (batch ++ [OwnObject {| res_reference := r; res_page := id; res_slot := s |} (hdr_descriptor hd)]) p') →
  wp E (detach batch id s) Q p.
Proof.
  intros Hs Hco Hrg Hp Hocc Hlen HQ. pose proof (storage_page_ok _ _ _ _ _ _ Hs Hp) as Hok. pose proof (occ_bound _ _ Hocc) as Hsb.
  destruct (ct_occ _ _ _ Hco id pg s Hp Hocc) as (r & hd & Hr & Hh & Ha). destruct (rg_headers _ _ _ Hrg r hd Hh) as [e He].
  unfold detach. apply wp_bind, wp_assert; [by apply Nat.ltb_lt|]. apply wp_bind, wp_read, wp_bind. eapply wp_lift.
  { unfold object_at. rewrite (page_get _ _ _ _ (co_refines _ _ _ _ (sg_core _ _ _ _ Hs)) Hp). destruct (Nat.leb_spec (page_slots pg) s); [lia|].
    rewrite occupied_some, Hocc, Hr by done. unfold checked_object. by rewrite Hh, (descriptor_get_spec _ _ _ _ _ Hrg He). }
  apply wp_bind. destruct (page_detach_spec pg s Hok Hocc) as (pg' & Hd & Hre & Hfr & Hmk). eapply wp_edit_page; [exact Hs|exact Hp|exact Hd|exact Hre|exact Hfr|].
  intros t Hs'. apply wp_bind, wp_read. cbn [objects set_allocations]. pose proof (contents_room _ _ _ _ _ _ _ _ (sg_core _ _ _ _ Hs) Hco Hp Hocc) as Hroom.
  destruct (Z.eqb_spec (objects p) 0) as [Hz|_]; [rewrite (ct_objects _ _ _ Hco) in Hz; lia|]. apply wp_bind, wp_write, wp_ret. cbn [obj_reference obj_descriptor].
  destruct (rg_entry _ _ _ Hrg _ _ He) as (-> & _). pose proof (became_restated _ _ _ _ Hre) as Hbe. rewrite Hmk in Hbe.
  eapply (HQ r hd t pg'); [done|done|done|destruct Hs' as [[] ? ? ?]; by split|]. eapply contents_detach; [exact Hco|exact Hok|exact Hp|exact Hocc|apply changed_insert|exact Hbe|done|done].
Qed.

(** ** Giving slots back *)
(** [pages'] is [pages] after the detached slot [s] of page [id] was released; an empty page is gone. *)
Record vacated (id : Z) (s : nat) (pages pages' : gmap Z Page) : Prop := {
  vc_back : ∀ j q, pages' !! j = Some q → ∃ q0, pages !! j = Some q0 ∧ marks q = marks q0 ∧ (∀ r, slot_of q r = slot_of q0 r) ∧ (∀ x, pointer q x = pointer q0 x)
    ∧ (∀ x, occ q x = occ q0 x) ∧ ∀ x, pending_slot q x = if decide ((j, x) = (id, s)) then false else pending_slot q0 x;
  vc_forth : ∀ j q0, pages !! j = Some q0 → is_Some (pages' !! j) ∨ (j = id ∧ (∀ x, occ q0 x = false) ∧ ∀ x, pending_slot q0 x = true → x = s)
}.
Lemma vacated_stay id s pg pg' pages pages' : pages !! id = Some pg → changed id pg' pages pages' → became pg pg' (occ pg) (flip_off (pending_slot pg) s) (marks pg) → vacated id s pages pages'.
Proof.
  intros Hp Hch Hbe. split.
  - intros j q Hq. destruct (changed_back _ _ _ _ _ _ _ Hp Hch Hbe _ _ Hq) as (q0 & Hq0 & M & S & P & O & U). exists q0. split_and!; try done.
    + intros x. rewrite O. case_decide; [|done]. subst. by simplify_eq.
    + intros x. rewrite U. case_decide as Hj; [|case_decide; [congruence|done]]. subst. simplify_eq. unfold flip_off. destruct (Nat.eqb_spec x s) as [->|]; [by rewrite decide_True|].
      rewrite decide_False by congruence. done.
  - intros j q0 Hq0. left. destruct (changed_forth _ _ _ _ _ _ _ Hp Hch Hbe _ _ Hq0) as (q & Hq & _). by eexists.
Qed.
Lemma vacated_gone id s pg pages pages' : pages !! id = Some pg → pages' !! id = None → (∀ j, j ≠ id → option_Forall2 kin (pages !! j) (pages' !! j)) →
  (∀ x, occ pg x = false) → (∀ x, pending_slot pg x = true → x = s) → vacated id s pages pages'.
Proof.
  intros Hp Hn Hk Ho Hu. split.
  - intros j q Hq. assert (j ≠ id) as Hj by congruence. specialize (Hk j Hj). rewrite Hq in Hk. inversion Hk as [q0 q1 K X Y|]; subst. exists q0.
    split_and!; [done|apply K|intros; by apply kin_slot_of|intros; by apply kin_pointer|apply K|]. intros x. rewrite decide_False by congruence. apply K.
  - intros j q0 Hq0. destruct (decide (j = id)) as [->|Hj]; [right; by simplify_eq|left]. specialize (Hk j Hj). rewrite Hq0 in Hk. inversion Hk; subst. by eexists.
Qed.

Lemma contents_vacated p p' pages l av pages' D id s pg r0 : core p pages l av → contents p pages ((id, s) :: D) → vacated id s pages pages' → pages !! id = Some pg → pointer pg s = Some r0 →
  headers p' = delete r0 (headers p) → objects p' = objects p → contents p' pages' D.
Proof.
  intros Hc [Hhd Hoc Hpe Hde Hnd Hob] [Hback Hforth] Hp Hr Eh Eo. apply list.NoDup_cons in Hnd as [Hnin Hnd]. destruct (co_page _ _ _ _ Hc _ _ Hp) as [Hok _].
  pose proof (slot_of_pointer _ _ _ Hok Hr) as Hslot. destruct (Hde id s ltac:(left)) as (pg0 & r1 & hd0 & Hp0 & Hu0 & Hr0 & Hh0 & Ha0).
  assert (pg0 = pg) as -> by congruence. assert (r1 = r0) as -> by congruence.
  assert (∀ j q x, pages !! j = Some q → slot_of q r0 = Some x → j = id ∧ x = s) as Hown.
  { intros j q x Hq Hx. by destruct (slot_owner _ _ _ _ _ _ _ _ _ _ _ Hc Hq Hp Hx Hslot). }
  split; rewrite ?Eh, ?Eo; try done.
  - intros r hd [Hne Hrh]%lookup_delete_Some. destruct (Hhd r hd Hrh) as (q0 & x & Hq0 & Hx & Hor).
    assert (occ q0 x = true ∨ (hdr_allocation hd, x) ∈ D) as Hor'.
    { destruct Hor as [?|[Heq|?]%elem_of_cons]; [by left| |by right]. injection Heq as Ej ->. rewrite Ej in Hq0. simplify_eq. destruct Hne. by eapply slot_of_inj. }
    destruct (Hforth _ _ Hq0) as [[q Hq]|(Ej & Ho & Hu)].
    + destruct (Hback _ _ Hq) as (q1 & Hq1 & _ & S & _ & O & _). simplify_eq. exists q, x. by rewrite S, O.
    + destruct Hor' as [Ho1|Hin]; [by rewrite Ho in Ho1|]. destruct (Hde _ _ ltac:(by right)) as (q1 & _ & _ & Hq1 & Hu1 & _). simplify_eq. rewrite (Hu x Hu1), Ej in Hin. done.
  - intros j q x Hq Ho. destruct (Hback _ _ Hq) as (q0 & Hq0 & _ & _ & P & O & _). rewrite O in Ho. destruct (Hoc j q0 x Hq0 Ho) as (r & hd & Hpr & Hrh & Ha). exists r, hd. rewrite P.
    split; [done|]. split; [|done]. apply lookup_delete_Some. split; [|done]. intros <-. destruct (co_page _ _ _ _ Hc _ _ Hq0) as [Hok0 _].
    destruct (Hown j q0 x Hq0 (slot_of_pointer _ _ _ Hok0 Hpr)) as [-> ->]. simplify_eq. by rewrite (pk_disjoint _ Hok s Ho) in Hu0.
  - intros j q x Hq Hu. destruct (Hback _ _ Hq) as (q0 & Hq0 & _ & _ & _ & _ & U). rewrite U in Hu. case_decide; [done|]. destruct (proj1 (elem_of_cons _ _ _) (Hpe j q0 x Hq0 Hu)) as [?|?]; [done|done].
  - intros j x Hin. destruct (Hde j x ltac:(by right)) as (q0 & r & hd & Hq0 & Hu & Hpr & Hrh & Ha). assert ((j, x) ≠ (id, s)) as Hne by congruence.
    destruct (Hforth _ _ Hq0) as [[q Hq]|(-> & _ & Hu1)]; [|by rewrite (Hu1 x Hu) in Hne]. destruct (Hback _ _ Hq) as (q1 & Hq1 & _ & _ & P & _ & U). simplify_eq.
    exists q, r, hd. rewrite P, U, decide_False by done. split_and!; try done. apply lookup_delete_Some. split; [|done]. intros <-. destruct (co_page _ _ _ _ Hc _ _ Hq0) as [Hok0 _].
    destruct (Hown _ q0 x Hq0 (slot_of_pointer _ _ _ Hok0 Hpr)) as [E1 ->]. congruence.
  - rewrite map_size_delete, Hh0. cbn [length] in Hob. assert (0 < size (headers p)); [|lia]. apply Nat.neq_0_lt_0. intros Hz%map_size_empty_inv. by rewrite Hz in Hh0.
Qed.

(** ** Releasing one use of a descriptor *)
Lemma uses_of_delete hs r hd id : hs !! r = Some hd → uses_of (delete r hs) id = (uses_of hs id - if decide (hdr_descriptor hd = id) then 1 else 0)%Z.
Proof.
  intros Hr. unfold uses_of. rewrite <- (insert_delete_id hs r hd Hr) at 2. rewrite map_filter_insert. cbn [snd]. case_decide as Hd.
  - rewrite map_size_insert_None; [lia|]. apply map_lookup_filter_None. left. apply lookup_delete_eq.
  - rewrite (delete_id (delete r hs)) by apply lookup_delete_eq. lia.
Qed.
Lemma uses_of_pos hs r hd : hs !! r = Some hd → (0 < uses_of hs (hdr_descriptor hd))%Z.
Proof.
  intros Hr. unfold uses_of. enough (size (filter (λ kv, hdr_descriptor kv.2 = hdr_descriptor hd) hs) ≠ 0) by lia. intros Hz%map_size_empty_inv.
  assert (filter (λ kv : ObjectRef * ObjectHeader, hdr_descriptor kv.2 = hdr_descriptor hd) hs !! r = Some hd) as Hl by (by apply map_lookup_filter_Some). by rewrite Hz in Hl.
Qed.
Definition less_use (d : Z) (dm : gmap Z DescriptorEntry) : gmap Z DescriptorEntry := alter (λ e, with_uses (uses e - 1) e) d dm.
Lemma less_use_lookup d dm id : less_use d dm !! id = (λ e, if decide (id = d) then with_uses (uses e - 1) e else e) <$> dm !! id.
Proof. unfold less_use. destruct (decide (id = d)) as [->|]; [by rewrite lookup_alter_eq|]. rewrite lookup_alter_ne by done. by destruct (dm !! id). Qed.
Lemma less_use_Some d dm id e : less_use d dm !! id = Some e → ∃ e0, dm !! id = Some e0 ∧ entry_descriptor e = entry_descriptor e0 ∧ handles e = handles e0
  ∧ uses e = (uses e0 - if decide (d = id) then 1 else 0)%Z.
Proof.
  rewrite less_use_lookup. intros (e0 & He0 & ->)%fmap_Some. exists e0. split; [done|]. destruct (decide (id = d)) as [->|].
  - by rewrite decide_True.
  - rewrite decide_False by congruence. split_and!; try done. lia.
Qed.

Lemma descriptor_release_spec E d hs dm r hd Q : registry d hs dm → hs !! r = Some hd →
  (∀ t, registry (set_desc_slots t d) (delete r hs) (less_use (hdr_descriptor hd) dm) → Q tt (set_desc_slots t d)) → wp E (descriptor_release (hdr_descriptor hd)) Q d.
Proof.
  intros [Hrf Hnd Hac Hen Hid Hhs] Hr HQ. destruct (Hhs r hd Hr) as [e He]. unfold descriptor_release. apply wp_bind, wp_read, wp_bind. eapply wp_or_panic.
  { rewrite (rf_get _ _ Hrf); [exact He|]. apply (rf_dom _ _ Hrf). by eexists. }
  destruct (Hen _ _ He) as (_ & _ & _ & Hu). pose proof (uses_of_pos _ _ _ Hr). destruct (Z.eqb_spec (uses e) 0); [lia|]. apply wp_write, HQ.
  assert (less_use (hdr_descriptor hd) dm = alter (with_uses (uses e - 1)) (hdr_descriptor hd) dm) as Heq.
  { apply map_eq. intros j. rewrite less_use_lookup. destruct (decide (j = hdr_descriptor hd)) as [->|]; [by rewrite lookup_alter_eq, He|]. rewrite lookup_alter_ne by done. by destruct (dm !! j). }
  split; cbn.
  - rewrite Heq. apply refines_update; [done|]. apply (rf_dom _ _ Hrf). by eexists.
  - done.
  - intros id. rewrite Hac, less_use_lookup. by rewrite fmap_is_Some.
  - intros id x Hx. apply less_use_Some in Hx as (x0 & Hx0 & E1 & _ & E2). rewrite E1, E2, (uses_of_delete _ _ _ _ Hr). destruct (Hen _ _ Hx0) as (? & ? & ? & ->). done.
  - intros i j x y Hx Hy. apply less_use_Some in Hx as (x0 & Hx0 & -> & _), Hy as (y0 & Hy0 & -> & _). by apply Hid.
  - intros x hx [_ Hx]%lookup_delete_Some. rewrite less_use_lookup, fmap_is_Some. by eapply Hhs.
Qed.

Lemma finish_one_spec E p pages l av dm D id s pg r hd Q : storage p pages l av → contents p pages ((id, s) :: D) → registry (descriptors p) (headers p) dm → payloads_ok p dm →
  pages !! id = Some pg → pointer pg s = Some r → headers p !! r = Some hd →
  (∀ p' pages' l' av', storage p' pages' l' av' → contents p' pages' D → registry (descriptors p') (headers p') (less_use (hdr_descriptor hd) dm) →
     payloads_ok p' (less_use (hdr_descriptor hd) dm) → vacated id s pages pages' → headers p' = delete r (headers p) → payloads p' = delete r (payloads p) →
     desc_active (descriptors p') = desc_active (descriptors p) →
     (l' = l ∧ cursor p' = cursor p ∨ ∃ i, l' = without l id ∧ l !! i = Some id
        ∧ cursor p' = (if decide (cursor_page (cursor p) = Some id) then {| cursor_page := l !! S i; cursor_slot := 0 |} else cursor p)) → Q tt p') →
  wp E (dispose r ;;! zoom descriptors set_descriptors (descriptor_release (hdr_descriptor hd)) ;;! release_slot id s) Q p.
Proof.
  intros Hs Hco Hrg Hpl Hp Hr Hh HQ. destruct (ct_detached _ _ _ Hco id s ltac:(left)) as (pg0 & r0 & hd0 & Hp0 & Hu & _). assert (pg0 = pg) as -> by congruence.
  apply wp_bind, wp_modify, wp_bind, wp_zoom. eapply descriptor_release_spec; [exact Hrg|exact Hh|]. intros t Hrg'. set (p1 := set_descriptors _ _).
  assert (storage p1 pages l av) as Hs1 by (destruct Hs as [[] ? ? ?]; by split).
  assert (∀ p', headers p' = headers p1 → payloads p' = payloads p1 → payloads_ok p' (less_use (hdr_descriptor hd) dm)) as Hpl'.
  { intros p' E1 E2 x hx e Hx He. rewrite E1 in Hx. cbn in Hx. apply lookup_delete_Some in Hx as [Hne Hx]. apply less_use_Some in He as (e0 & He0 & -> & _).
    destruct (Hpl x hx e0 Hx He0) as (pl & Hl & Ht). exists pl. rewrite E2. cbn. by rewrite lookup_delete_ne. }
  eapply release_slot_spec; [exact Hs1|exact Hp|exact Hu|..].
  - intros p' pages' av' pg' Hs' Hch Hbe [K1 K2 K3 K4 _] Hcur. pose proof (vacated_stay _ _ _ _ _ _ Hp Hch Hbe) as Hv.
    apply (HQ p' pages' l av'); try done; [|by rewrite K1, K3|by apply Hpl'|by rewrite K1|by left]. eapply (contents_vacated p p'); [apply Hs|exact Hco|exact Hv|exact Hp|exact Hr|done|done].
  - intros p' pages' av' i Hs' Hi Hn Hk Ho Hpu [K1 K2 K3 K4 _] Hcur. pose proof (vacated_gone _ _ _ _ _ Hp Hn Hk Ho Hpu) as Hv.
    apply (HQ p' pages' (without l id) av'); try done; [|by rewrite K1, K3|by apply Hpl'|by rewrite K1|right; by exists i]. eapply (contents_vacated p p'); [apply Hs|exact Hco|exact Hv|exact Hp|exact Hr|done|done].
Qed.

(** ** The state of the sweep *)
Record sweep_state (h : Heap) (pages : gmap Z Page) (l : list Z) (av : nat → list Z) (rm : gmap Z RootSlot) (dm : gmap Z DescriptorEntry) (D : list (Z * nat)) : Prop := {
  ss_based : based h pages l av rm dm D; ss_marks : marks_ok (marking h) pages; ss_phase : phase (marking h) = Sweep; ss_sweeping : sweeping h pages l rm
}.
(** Registrations that are still held survive, unchanged; no new ones appear. *)
Record same_leases (rm rm' : gmap Z RootSlot) : Prop := {
  sl_forth : ∀ s e, rm !! s = Some e → 0 < strong (entry e) → ∃ e', rm' !! s = Some e' ∧ same_root e e';
  sl_back : ∀ s e', rm' !! s = Some e' → ∃ e, rm !! s = Some e ∧ same_root e e'
}.
Record same_layouts (dm dm' : gmap Z DescriptorEntry) : Prop := {
  sd_forth : ∀ id e, dm !! id = Some e → 0 < handles e → ∃ e', dm' !! id = Some e' ∧ entry_descriptor e' = entry_descriptor e ∧ handles e' = handles e;
  sd_back : ∀ id e', dm' !! id = Some e' → ∃ e, dm !! id = Some e ∧ entry_descriptor e' = entry_descriptor e ∧ handles e' = handles e
}.
#[export] Instance same_leases_preorder : PreOrder same_leases.
Proof.
  split; [split; eauto; intros s e ?; exists e; by split_and!|]. intros a b c [F1 B1] [F2 B2]. split.
  - intros s e He Hs. destruct (F1 s e He Hs) as (e1 & He1 & S1 & S2 & S3 & S4). destruct (F2 s e1 He1 ltac:(lia)) as (e2 & He2 & T1 & T2 & T3 & T4).
    exists e2. split; [done|]. split_and!; congruence.
  - intros s e2 He2. destruct (B2 s e2 He2) as (e1 & He1 & S1 & S2 & S3 & S4). destruct (B1 s e1 He1) as (e & He & T1 & T2 & T3 & T4).
    exists e. split; [done|]. split_and!; congruence.
Qed.
#[export] Instance same_layouts_preorder : PreOrder same_layouts.
Proof.
  split; [split; eauto|]. intros a b c [F1 B1] [F2 B2]. split.
  - intros s e He Hs. destruct (F1 s e He Hs) as (e1 & He1 & S1 & S2). destruct (F2 s e1 He1 ltac:(lia)) as (e2 & He2 & T1 & T2). exists e2. split_and!; congruence.
  - intros s e2 He2. destruct (B2 s e2 He2) as (e1 & He1 & S1 & S2). destruct (B1 s e1 He1) as (e & He & T1 & T2). exists e. split_and!; congruence.
Qed.
Lemma less_use_layouts d dm : same_layouts dm (less_use d dm).
Proof.
  split.
  - intros id e He _. rewrite less_use_lookup, He. cbn. eexists. split; [done|]. by case_decide.
  - intros id e' (e & He & H1 & H2 & _)%less_use_Some. eauto.
Qed.
Lemma live_leases rm rm' t : same_leases rm rm' → live_root rm' t ↔ live_root rm t.
Proof.
  intros [F B]. split; intros (s & e & He & Hs & Ht).
  - destruct (B s e He) as (e0 & He0 & _ & S2 & S3 & _). exists s, e0. rewrite S2, S3. done.
  - destruct (F s e He Hs) as (e' & He' & _ & S2 & S3 & _). exists s, e'. rewrite <- S2, <- S3. done.
Qed.

(** What sweeping spares: every black object and every registration that is held. *)
Record spared (h h' : Heap) (pages pages' : gmap Z Page) (rm rm' : gmap Z RootSlot) (dm dm' : gmap Z DescriptorEntry) : Prop := {
  sp_id : heap_id h' = heap_id h; sp_config : config h' = config h; sp_epoch : epoch (marking h') = epoch (marking h); sp_ledger : ledger h' = ledger h;
  sp_colours : ∀ x, (disc pages' (epoch (marking h)) x ↔ disc pages (epoch (marking h)) x) ∧ (blk pages' (epoch (marking h)) x ↔ blk pages (epoch (marking h)) x);
  sp_objects : ∀ x, blk pages (epoch (marking h)) x → headers (physical h') !! x = headers (physical h) !! x ∧ payloads (physical h') !! x = payloads (physical h) !! x;
  sp_headers : headers (physical h') ⊆ headers (physical h); sp_payloads : payloads (physical h') ⊆ payloads (physical h);
  sp_leases : same_leases rm rm'; sp_layouts : same_layouts dm dm'
}.
Lemma spared_refl h pages rm dm : spared h h pages pages rm rm dm dm.
Proof. by split. Qed.
Lemma spared_trans h h1 h2 pages pages1 pages2 rm rm1 rm2 dm dm1 dm2 : spared h h1 pages pages1 rm rm1 dm dm1 → spared h1 h2 pages1 pages2 rm1 rm2 dm1 dm2 → spared h h2 pages pages2 rm rm2 dm dm2.
Proof.
  intros [A1 A2 A3 A4 A5 A6 A7 A8 A9 A10] [B1 B2 B3 B4 B5 B6 B7 B8 B9 B10]. rewrite A3 in *. split; try congruence; try (by etrans).
  - intros x. destruct (A5 x), (B5 x). split; [by etrans|by etrans].
  - intros x Hx. destruct (A6 x Hx) as [<- <-]. apply B6. by apply A5.
Qed.

Lemma marks_ok_sub m pages pages' : marks_ok m pages → pending m = [] →
  (∀ j q, pages' !! j = Some q → ∃ q0, pages !! j = Some q0 ∧ marks q = marks q0 ∧ ∀ x, discb (marks q0) (epoch m) x = true → occ q0 x = true → occ q x = true) → marks_ok m pages'.
Proof.
  intros [M1 M2 M3 M4 M5 M6 M7 M8 M9] Hpe Hb. split.
  - intros j q (q0 & Hq0 & -> & _)%Hb. by eapply M1.
  - intros j q x (q0 & Hq0 & -> & _)%Hb. by eapply M2.
  - intros j q x (q0 & Hq0 & -> & Ho)%Hb Hx. apply Ho; [done|]. by eapply M3.
  - intros j q (q0 & Hq0 & -> & _)%Hb. by eapply M4.
  - intros j q (q0 & Hq0 & -> & _)%Hb. by eapply M5.
  - done.
  - rewrite Hpe. by intros j ?%elem_of_nil.
  - etrans; [|exact M8]. apply inj_le. rewrite <- !size_dom. apply subseteq_size. intros j [q (q0 & Hq0 & _)%Hb]%elem_of_dom. apply elem_of_dom. by eexists.
  - done.
Qed.

Section Vacate.
Context (h : Heap) (pages pages' : gmap Z Page) (l : list Z) (av : nat → list Z) (rm : gmap Z RootSlot) (dm : gmap Z DescriptorEntry) (D : list (Z * nat)) (id : Z) (s : nat) (pg : Page) (r : ObjectRef).
Context (Hss : sweep_state h pages l av rm dm ((id, s) :: D)) (Hv : vacated id s pages pages') (Hp : pages !! id = Some pg) (Hr : pointer pg s = Some r).
Notation e := (epoch (marking h)).

Lemma vacated_colours x : (disc pages' e x ↔ disc pages e x) ∧ (blk pages' e x ↔ blk pages e x).
Proof.
  assert (∀ f : PageMarks → Z → nat → bool, (∀ i q k, pages !! i = Some q → f (marks q) e k = true → occ q k = true) →
    (∃ i q k, pages' !! i = Some q ∧ slot_of q x = Some k ∧ f (marks q) e k = true) ↔ (∃ i q k, pages !! i = Some q ∧ slot_of q x = Some k ∧ f (marks q) e k = true)) as Hgen.
  { intros f Hf. split; intros (i & q & k & Hq & Hk & Hx).
    - destruct (vc_back _ _ _ _ Hv _ _ Hq) as (q0 & Hq0 & M & S & _). exists i, q0, k. by rewrite <- M, <- S.
    - destruct (vc_forth _ _ _ _ Hv _ _ Hq) as [[q1 Hq1]|(_ & Ho & _)]; [|specialize (Hf i q k Hq Hx); by rewrite Ho in Hf].
      destruct (vc_back _ _ _ _ Hv _ _ Hq1) as (q0 & Hq0 & M & S & _). rewrite Hq in Hq0. injection Hq0 as <-. exists i, q1, k. by rewrite M, S. }
  pose proof (ss_marks _ _ _ _ _ _ _ Hss) as Hm. split; apply Hgen; intros i q k Hq Hx; [by apply (mk_occ _ _ Hm i q)|]. apply (mk_occ _ _ Hm i q); [done|]. by apply (mk_black _ _ Hm i q).
Qed.
Lemma vacated_marks : marks_ok (marking h) pages'.
Proof.
  eapply marks_ok_sub; [exact (ss_marks _ _ _ _ _ _ _ Hss)|exact (sw_pending _ _ _ _ (ss_sweeping _ _ _ _ _ _ _ Hss))|].
  intros j q Hq. destruct (vc_back _ _ _ _ Hv _ _ Hq) as (q0 & Hq0 & M & _ & _ & O & _). exists q0. split_and!; try done. intros x _ Ho. by rewrite O.
Qed.
Lemma vacated_white : ¬ blk pages e r.
Proof.
  destruct Hss as [Hb Hm _ _]. assert (core (physical h) pages l av) as Hc by apply Hb. destruct (co_page _ _ _ _ Hc _ _ Hp) as [Hok _].
  rewrite (blk_at _ _ _ _ Hc _ _ _ _ _ Hp (slot_of_pointer _ _ _ Hok Hr)). intros Hx. apply (mk_black _ _ Hm _ _ _ Hp), (mk_occ _ _ Hm _ _ _ Hp) in Hx.
  destruct (ct_detached _ _ _ (ba_contents _ _ _ _ _ _ _ Hb) id s ltac:(left)) as (pg0 & _ & _ & Hp0 & Hu & _). assert (pg0 = pg) as -> by congruence. by rewrite (pk_disjoint _ Hok s Hx) in Hu.
Qed.
Lemma vacated_clean j : clean pages e j → clean pages' e j.
Proof. intros Hc q x Hq Ho. destruct (vc_back _ _ _ _ Hv _ _ Hq) as (q0 & Hq0 & M & _ & _ & O & _). rewrite M. rewrite O in Ho. by eapply Hc. Qed.
End Vacate.

Lemma index_of_lookup (l : list Z) k : NoDup l → index_of l (l !! k) = Nat.min k (length l).
Proof.
  intros Hnd. unfold index_of. destruct (l !! k) as [x|] eqn:Hk.
  - pose proof (lookup_lt_Some _ _ _ Hk). destruct (list_find (λ y, y = x) l) as [[i y]|] eqn:Hf.
    + apply list_find_Some in Hf as (Hi & -> & _). assert (i = k) by (by eapply list.NoDup_lookup). lia.
    + apply list_find_None in Hf. rewrite list.Forall_forall in Hf. destruct (Hf x); [by eapply list_elem_of_lookup_2|done].
  - apply lookup_ge_None in Hk. lia.
Qed.
Lemma lookup_delete_list {A} (l : list A) i k : delete i l !! k = l !! (if decide (k < i) then k else S k).
Proof. case_decide; [by rewrite list_lookup_delete_lt|rewrite list_lookup_delete_ge by lia; done]. Qed.

(** The sweep position after a page before or at the cursor disappeared. *)
Lemma swept_position (l : list Z) k i id (c c' : PhysicalCursor) : NoDup l → l !! i = Some id → cursor_page c = l !! k →
  c' = (if decide (cursor_page c = Some id) then {| cursor_page := l !! S i; cursor_slot := 0 |} else c) →
  ∃ k', cursor_page c' = delete i l !! k' ∧ length (delete i l) - Nat.min k' (length (delete i l)) ≤ length l - Nat.min k (length l)
    ∧ (length (delete i l) - Nat.min k' (length (delete i l)) = length l - Nat.min k (length l) → cursor_slot c' = cursor_slot c)
    ∧ (∀ j, j < k' → ∃ j', j' < k ∧ delete i l !! j = l !! j') ∧ (cursor_slot c' = 0 ∨ (cursor_slot c' = cursor_slot c ∧ delete i l !! k' = l !! k)).
Proof.
  intros Hnd Hi Hc ->. pose proof (lookup_lt_Some _ _ _ Hi) as Hlt. pose proof (length_delete l i ltac:(by eexists)) as Hlen. rewrite Hc. case_decide as Hd.
  - assert (k = i) as -> by (eapply list.NoDup_lookup; [exact Hnd|done|done]). exists i. cbn [cursor_page cursor_slot]. rewrite Hlen. split_and!.
    + rewrite lookup_delete_list, decide_False by lia. done.
    + lia.
    + lia.
    + intros j Hj. exists j. split; [done|]. by rewrite lookup_delete_list, decide_True.
    + by left.
  - assert (k ≠ i) as Hne by congruence. destruct (decide (i < k)) as [Hik|Hik].
    + exists (k - 1). rewrite Hlen, lookup_delete_list, decide_False by lia. replace (S (k - 1)) with k by lia. split_and!; [done|lia|done| |by right].
      intros j Hj. rewrite lookup_delete_list. case_decide; [exists j; split; [lia|done]|exists (S j); split; [lia|done]].
    + exists k. rewrite Hlen, lookup_delete_list, decide_True by lia. split_and!; [done|lia|done| |by right].
      intros j Hj. exists j. split; [done|]. by rewrite lookup_delete_list, decide_True by lia.
Qed.

Lemma mu_sweep h pages l rm : phase (marking h) = Sweep →
  mu h pages l rm = match sweep_stage h with
      | StagePhysical => (2, (3, (length l - index_of l (cursor_page (cursor (physical h))), (129 - cursor_slot (cursor (physical h)), 0))))
      | StageRoots n => (2, (2, (n, (0, 0))))
      | StageDescriptors n => (2, (1, (n, (0, 0))))
      end.
Proof. intros Hp. unfold mu. by rewrite Hp. Qed.

(** Positions move along when slots are given back. *)
Lemma swept_vacated h p' pages pages' l l' av rm dm D id s : sweep_state h pages l av rm dm ((id, s) :: D) → vacated id s pages pages' →
  length (desc_active (descriptors p')) = length (desc_active (descriptors (physical h))) →
  (l' = l ∧ cursor p' = cursor (physical h) ∨ ∃ i, l' = without l id ∧ l !! i = Some id
     ∧ cursor p' = (if decide (cursor_page (cursor (physical h)) = Some id) then {| cursor_page := l !! S i; cursor_slot := 0 |} else cursor (physical h))) →
  let h' := set_physical p' h in swept h' pages' l' ∧ less_eq (mu h' pages' l' rm) (mu h pages l rm).
Proof.
  intros Hss Hv Hact Hl h'. pose proof Hss as [Hb _ Hph Hsw]. pose proof (sw_swept _ _ _ _ Hsw) as Hswept. unfold swept in *. cbn zeta in *.
  change (sweep_stage h') with (sweep_stage h). change (marking h') with (marking h). change (roots h') with (roots h). change (physical h') with p'.
  rewrite !mu_sweep by done. change (sweep_stage h') with (sweep_stage h). change (physical h') with p'.
  pose proof (λ j, vacated_clean h pages pages' id s Hv j) as Hcl.
  assert (NoDup l) as Hnd by apply (lk_nodup _ _ _ (co_active _ _ _ _ (sg_core _ _ _ _ (ba_storage _ _ _ _ _ _ _ Hb)))).
  destruct (sweep_stage h) as [|n|n].
  2: { split; [|by left]. destruct Hswept as [H1 H2]. split; [|done]. intros j. by apply Hcl. }
  2: { split; [|by left]. destruct Hswept as [H1 H2]. split; [|by rewrite Hact]. intros j. by apply Hcl. }
  destruct Hswept as (k & Hcur & Hclean & Hpart).
  assert (∀ i q x n, l !! k = Some i → pages' !! i = Some q → x < n → n ≤ cursor_slot (cursor (physical h)) → occ q x = true → blackb (marks q) (epoch (marking h)) x = true) as Hpart'.
  { intros i q x n Hi Hq Hx Hn Ho. destruct (vc_back _ _ _ _ Hv _ _ Hq) as (q0 & Hq0 & M & _ & _ & O & _). rewrite M. rewrite O in Ho. eapply Hpart; [done|done|lia|done]. }
  destruct Hl as [[-> Hc]|(i & -> & Hi & Hc)].
  - rewrite Hc. split; [|by left]. exists k. split; [done|]. split; [intros; by eapply Hcl, Hclean|]. intros; by eapply Hpart'.
  - rewrite <- (delete_without l i id Hnd Hi). destruct (swept_position l k i id _ _ Hnd Hi Hcur Hc) as (k' & Hcur' & Hle & Heq & Hj & Hslot). split.
    + exists k'. split; [done|]. split.
      * intros j x Hj' Hx. destruct (Hj j Hj') as (j' & Hlt & Hjl). rewrite Hjl in Hx. by eapply Hcl, Hclean.
      * intros x q y Hx Hq Hy Ho. destruct Hslot as [H0|[H0 H1]]; [lia|]. rewrite H1 in Hx. eapply Hpart'; [exact Hx|exact Hq|exact Hy|lia|exact Ho].
    + rewrite Hcur, Hcur', !index_of_lookup; [|done|rewrite (delete_without l i id) by done; by apply list.NoDup_filter].
      destruct (decide (length (delete i l) - Nat.min k' (length (delete i l)) = length l - Nat.min k (length l))) as [Eq|Hne].
      * left. by rewrite Eq, (Heq Eq).
      * right. right. split; [done|]. right. split; [done|]. left. cbn [fst snd]. lia.
Qed.

Definition own_slot (o : Owner) : option (Z * nat) := match o with OwnObject r _ => Some (res_page r, res_slot r) | OwnRoots _ => None end.
(** The batch owns the detached objects. *)
Definition batch_ok (p : Physical) (pages : gmap Z Page) (batch : list Owner) (D : list (Z * nat)) : Prop :=
  D = omap own_slot batch ∧ ∀ r d, OwnObject r d ∈ batch → ∃ pg hd, pages !! res_page r = Some pg ∧ pointer pg (res_slot r) = Some (res_reference r)
    ∧ headers p !! res_reference r = Some hd ∧ hdr_descriptor hd = d.

Lemma finish_spec (E : GcFailure → Physical → Prop) batch h p pages l av rm dm D (Q : unit → Physical → Prop) : sweep_state (set_physical p h) pages l av rm dm D → batch_ok p pages batch D →
  (∀ p' pages' l' av' dm', let h' := set_physical p' h in sweep_state h' pages' l' av' rm dm' [] → spared (set_physical p h) h' pages pages' rm rm dm dm' →
     less_eq (mu h' pages' l' rm) (mu (set_physical p h) pages l rm) → Q tt p') → wp E (finish batch) Q p.
Proof.
  revert p pages l av dm D. induction batch as [|[rs d|en] batch IH]; intros p pages l av dm D Hss [HD Hown] HQ.
  - apply wp_ret. cbn in HD. subst D. by apply (HQ p pages l av dm); [|apply spared_refl|left].
  - cbn [finish]. cbn in HD. subst D. destruct (Hown rs d ltac:(left)) as (pg & hd & Hp & Hr & Hh & <-). pose proof Hss as [Hb Hm Hph Hsw].
    pose proof Hb as [B1 B2 B3 B4 B5 B6 B7].
    assert (∀ k : M Physical unit, wp E (dispose (res_reference rs) ;;! zoom descriptors set_descriptors (descriptor_release (hdr_descriptor hd)) ;;! release_slot (res_page rs) (res_slot rs)) (λ _ p', wp E k Q p') p →
      wp E (dispose (res_reference rs) ;;! zoom descriptors set_descriptors (descriptor_release (hdr_descriptor hd)) ;;! release_slot (res_page rs) (res_slot rs) ;;! k) Q p) as Hassoc.
    { intros k. unfold wp, bind. destruct (dispose _ p) as [[]?]; [|done]. destruct (zoom _ _ _ _) as [[]?]; [|done]. by destruct (release_slot _ _ _) as [[]?]. }
    apply Hassoc. eapply finish_one_spec; [exact B1|exact B2|exact B3|exact B4|exact Hp|exact Hr|exact Hh|].
    intros p' pages' l' av' Hs' Hco' Hrg' Hpl' Hv Eh Ep Ea Hl. set (h0 := set_physical p h) in *. set (dm' := less_use (hdr_descriptor hd) dm) in *.
    pose proof (vacated_colours h0 pages pages' l av rm dm _ _ _ Hss Hv) as Hcol. pose proof (vacated_marks h0 pages pages' l av rm dm _ _ _ Hss Hv) as Hmk.
    pose proof (vacated_white h0 pages l av rm dm _ _ _ pg _ Hss Hp Hr) as Hwh.
    destruct (swept_vacated h0 p' pages pages' l l' av rm dm _ _ _ Hss Hv ltac:(by rewrite Ea) Hl) as [Hswept Hle].
    assert (∀ x, blk pages (epoch (marking h)) x → x ≠ res_reference rs) as Hne by (intros x Hx ->; done).
    assert (sweep_state (set_physical p' h) pages' l' av' rm dm' (omap own_slot batch)) as Hss'.
    { split; [by split|done|done|]. destruct Hsw. split; try done.
      - intros x t Hx (pl & off & Hpl1 & Hoff). apply Hcol in Hx. apply Hcol. apply (sw_black x t Hx). exists pl, off. split; [|done]. change (payloads (physical h0)) with (payloads p).
        change (payloads (physical (set_physical p' h))) with (payloads p') in Hpl1. rewrite Ep in Hpl1. by apply lookup_delete_Some in Hpl1 as [_ ?].
      - intros t Ht. by apply Hcol, sw_roots.
      - intros x Hx. apply Hcol. by apply sw_gray, Hcol. }
    eapply (IH p'); [exact Hss'| |].
    + split; [done|]. intros r d Hin. destruct (Hown r d ltac:(by right)) as (q0 & hd0 & Hq0 & Hr0 & Hh0 & Hd0).
      assert ((res_page r, res_slot r) ∈ omap own_slot batch) as HinD by (apply list_elem_of_omap; by exists (OwnObject r d)).
      destruct (ct_detached _ _ _ Hco' _ _ HinD) as (q & r1 & hd1 & Hq & Hu & Hr1 & Hh1 & _). destruct (vc_back _ _ _ _ Hv _ _ Hq) as (q1 & Hq1 & _ & _ & P & _).
      assert (q1 = q0) as -> by congruence. rewrite P, Hr0 in Hr1. injection Hr1 as <-. exists q, hd1. rewrite P. split_and!; [done|done|done|]. rewrite Eh in Hh1. apply lookup_delete_Some in Hh1 as [_ Hh1]. congruence.
    + intros p2 pages2 l2 av2 dm2 h2 Hss2 Hsp2 Hle2. apply (HQ p2 pages2 l2 av2 dm2); [done| |by etrans]. eapply spared_trans; [|exact Hsp2]. split; try done.
      * intros x Hx. cbn. rewrite Eh, Ep, !lookup_delete_ne; [done|..]; intros <-; by apply (Hne _ Hx).
      * cbn. rewrite Eh. apply delete_subseteq.
      * cbn. rewrite Ep. apply delete_subseteq.
      * apply less_use_layouts.
  - cbn [finish]. cbn in HD. eapply IH; [exact Hss| |exact HQ]. split; [done|]. intros r d Hin. apply Hown. by right.
Qed.
