(* ===== verification/GcSweepLoop.v ===== *)
(** * Managed heap: the staged sweep keeps the invariant *)
From stdpp Require Import gmap fin_maps.
From S2P Require Import Prelude SlotBits GcBase GcTable GcPage GcColors GcDynamic GcHeap GcStorage GcSlots GcRoots GcRootsProps GcMark GcService GcInv GcMarkProps GcMeasure GcScanProps GcSweepProps.
Open Scope nat_scope.

(** ** Retiring descriptors *)
Lemma swap_remove_members {A} (l : list A) i x : NoDup l → l !! i = Some x →
  ∃ l', swap_remove l i = Some (x, l') ∧ S (length l') = length l ∧ NoDup l' ∧ ∀ y, y ∈ l' ↔ y ∈ l ∧ y ≠ x.
Proof.
  intros Hnd Hi. destruct (swap_remove_spec l i x Hi) as (l' & Hs & Hlen & Hl). pose proof (lookup_lt_Some _ _ _ Hi) as Hlt.
  exists l'. split; [done|]. split; [done|].
  assert (∀ j y, l' !! j = Some y → ∃ k, l !! k = Some y ∧ k = (if decide (j = i) then length l - 1 else j) ∧ S j < length l) as Hto.
  { intros j y Hy. rewrite Hl in Hy. case_decide; [|done]. case_decide as Hji; eexists; (split; [exact Hy|]); split; try done. }
  split.
  - apply list.NoDup_alt. intros j k y Hj Hk. apply Hto in Hj as (j' & Hj & -> & Hj1), Hk as (k' & Hk & -> & Hk1). pose proof (list.NoDup_lookup _ _ _ _ Hnd Hj Hk) as Heq. repeat case_decide; lia.
  - intros y. split.
    + intros [j (k & Hk & -> & Hj)%Hto]%list_elem_of_lookup_1. split; [by eapply list_elem_of_lookup_2|]. intros ->. pose proof (list.NoDup_lookup _ _ _ _ Hnd Hi Hk). case_decide; lia.
    + intros [[j Hj]%list_elem_of_lookup_1 Hne]. pose proof (lookup_lt_Some _ _ _ Hj). assert (j ≠ i) by congruence. destruct (decide (S j < length l)) as [Hlt'|Hge].
      * apply (list_elem_of_lookup_2 _ j). by rewrite Hl, decide_True, decide_False.
      * assert (j = length l - 1) as -> by lia. apply (list_elem_of_lookup_2 _ i). rewrite Hl, decide_True by lia. by rewrite decide_True.
Qed.

Lemma retire_unused_spec E d hs dm scanning n Q : registry d hs dm → n < length (desc_active d) →
  (∀ d' dm', registry d' hs dm' → n ≤ length (desc_active d') → same_layouts dm dm' → dm' ⊆ dm → Q tt d') → wp E (retire_unused scanning n) Q d.
Proof.
  intros Hrg Hn HQ. pose proof Hrg as [Hrf Hnd Hac Hen Hid Hhs]. destruct (lookup_lt_is_Some_2 _ _ Hn) as [id Hi]. assert (is_Some (dm !! id)) as [e He] by (apply Hac; by eapply list_elem_of_lookup_2).
  assert (0 <= id < 2 ^ 32)%Z as Hrange by (apply (rf_dom _ _ Hrf); by eexists).
  unfold retire_unused. apply wp_bind, wp_read, wp_bind. eapply wp_or_panic; [exact Hi|]. apply wp_bind. eapply wp_or_panic; [rewrite (rf_get _ _ Hrf), He by lia; reflexivity|].
  destruct ((uses e =? 0)%Z && (strong_count scanning e =? 1)) eqn:Hc; [|by apply wp_ret, (HQ d dm); [|lia|..]].
  apply andb_true_iff in Hc as [Hu%Z.eqb_eq Hsc%Nat.eqb_eq]. assert (handles e = 0) as Hh0 by (unfold strong_count in Hsc; lia). destruct (Hen _ _ He) as (_ & _ & _ & Hue).
  pose proof (refines_remove _ _ id Hrf ltac:(lia)) as Hrem. destruct (remove (desc_slots d) id) as [[e' t]|]; [|congruence]. destruct Hrem as [He' Ht].
  apply wp_bind, wp_write, wp_bind, wp_read, wp_bind. destruct (swap_remove_members _ _ _ Hnd Hi) as (act & Hsw & Hlen & Hnd' & Hmem). eapply wp_or_panic; [exact Hsw|]. apply wp_write. cbn [snd].
  apply (HQ _ (delete id dm)).
  - split; cbn; try done.
    + intros j. rewrite Hmem, Hac, lookup_delete_is_Some. naive_solver.
    + intros j x [_ Hx]%lookup_delete_Some. by apply Hen.
    + intros i j x y [_ Hx]%lookup_delete_Some [_ Hy]%lookup_delete_Some. by apply Hid.
    + intros r hd Hr. apply lookup_delete_is_Some. split; [|by eapply Hhs]. intros ->. pose proof (uses_of_pos _ _ _ Hr). lia.
  - cbn. lia.
  - split.
    + intros j x Hx Hpos. exists x. split; [|done]. apply lookup_delete_Some. split; [|done]. intros <-. assert (x = e) as -> by congruence. lia.
    + intros j x [_ Hx]%lookup_delete_Some. eauto.
  - apply delete_subseteq.
Qed.
Lemma payloads_ok_sub p dm dm' : payloads_ok p dm → dm' ⊆ dm → payloads_ok p dm'.
Proof. intros Hp Hs r hd e Hr He. eapply Hp; [done|]. by eapply lookup_weaken. Qed.

(** ** Position lemmas *)
Lemma based_heap h h' pages l av rm dm D : based h pages l av rm dm D → physical h' = physical h → roots h' = roots h → heap_id h' = heap_id h →
  ledger h' = ledger h → config h' = config h → based h' pages l av rm dm D.
Proof. intros [] E1 E2 E3 E4 E5. split; by rewrite ?E1, ?E2, ?E3, ?E4, ?E5. Qed.
Lemma all_clean h pages l av rm dm D k : based h pages l av rm dm D → l !! k = None → (∀ j id, j < k → l !! j = Some id → clean pages (epoch (marking h)) id) →
  ∀ id, clean pages (epoch (marking h)) id.
Proof.
  intros Hb Hk Hcl id pg s Hp. apply lookup_ge_None in Hk. assert (id ∈ l) as [j Hj]%list_elem_of_lookup_1 by (apply (sg_list _ _ _ _ (ba_storage _ _ _ _ _ _ _ Hb)); by eexists).
  by eapply (Hcl j); [apply lookup_lt_Some in Hj; lia| |].
Qed.
Lemma blk_present h pages l av rm dm x : shaped h pages l av rm dm [] → blk pages (epoch (marking h)) x → present (physical h) x.
Proof.
  intros [Hb Hm] (id & pg & s & Hp & Hs & Hx). apply (mk_black _ _ Hm _ _ _ Hp), (mk_occ _ _ Hm _ _ _ Hp) in Hx.
  destruct (ct_occ _ _ _ (ba_contents _ _ _ _ _ _ _ Hb) _ _ _ Hp Hx) as (r & hd & Hr & Hh & _). rewrite (pointer_slot_of _ _ _ Hs) in Hr. injection Hr as <-. by eexists.
Qed.
Lemma clean_blk h pages l av rm dm x : shaped h pages l av rm dm [] → (∀ id, clean pages (epoch (marking h)) id) → present (physical h) x → blk pages (epoch (marking h)) x.
Proof.
  intros [Hb Hm] Hcl [hd Hh]. destruct (ct_header _ _ _ (ba_contents _ _ _ _ _ _ _ Hb) _ _ Hh) as (pg & s & Hp & Hs & [Ho|Hin]); [|by apply elem_of_nil in Hin].
  exists (hdr_allocation hd), pg, s. split_and!; [done|done|]. by eapply Hcl.
Qed.

(** ** One move of the sweep *)
Record moved (h h' : Heap) : Prop := {
  mv_headers : headers (physical h') = headers (physical h); mv_payloads : payloads (physical h') = payloads (physical h); mv_roots : roots h' = roots h;
  mv_marking : marking h' = marking h; mv_scan : active_scan h' = active_scan h; mv_id : heap_id h' = heap_id h; mv_config : config h' = config h; mv_ledger : ledger h' = ledger h
}.
Lemma sweep_moved h h' pages l av rm dm D : sweep_state h pages l av rm dm D → moved h h' → based h' pages l av rm dm D → swept h' pages l →
  sweep_state h' pages l av rm dm D ∧ spared h h' pages pages rm rm dm dm.
Proof.
  intros [Hb Hm Hph Hsw] [] Hb' Hs. split.
  - split; rewrite ?mv_marking0; try done. destruct Hsw. split; rewrite ?mv_marking0, ?mv_scan0; try done. unfold edge. by rewrite mv_payloads0.
  - split; rewrite ?mv_marking0, ?mv_headers0, ?mv_payloads0; done.
Qed.

Lemma sweep_done_pages h pages l av rm dm D : sweep_state h pages l av rm dm D → sweep_stage h = StagePhysical → cursor_page (cursor (physical h)) = None →
  let h' := set_sweep_stage (StageRoots (pending_releases (roots h))) h in
  sweep_state h' pages l av rm dm D ∧ spared h h' pages pages rm rm dm dm ∧ less (mu h' pages l rm) (mu h pages l rm).
Proof.
  intros Hss Hst Hcur h'. pose proof Hss as [Hb _ Hph Hsw]. pose proof (sw_swept _ _ _ _ Hsw) as Hswept. unfold swept in Hswept. rewrite Hst in Hswept. destruct Hswept as (k & Hk & Hcl & _). rewrite Hcur in Hk.
  apply Logic.and_assoc. split.
  - eapply sweep_moved; [exact Hss|by split|by eapply (based_heap h)|]. split; [|done]. by eapply (all_clean h).
  - rewrite !mu_sweep, Hst by done. right. split; [done|]. left. cbn. lia.
Qed.
Lemma sweep_next_page h pages l av rm dm D id pg : sweep_state h pages l av rm dm D → sweep_stage h = StagePhysical → cursor_page (cursor (physical h)) = Some id → pages !! id = Some pg →
  page_slots pg ≤ cursor_slot (cursor (physical h)) →
  let h' := set_physical (set_cursor {| cursor_page := next_page (active pg); cursor_slot := 0 |} (physical h)) h in
  sweep_state h' pages l av rm dm D ∧ spared h h' pages pages rm rm dm dm ∧ less (mu h' pages l rm) (mu h pages l rm).
Proof.
  intros Hss Hst Hcur Hp Hend h'. pose proof Hss as [Hb _ Hph Hsw]. pose proof (sw_swept _ _ _ _ Hsw) as Hswept. unfold swept in Hswept. rewrite Hst in Hswept. destruct Hswept as (k & Hk & Hcl & Hpart). rewrite Hcur in Hk.
  pose proof (co_active _ _ _ _ (sg_core _ _ _ _ (ba_storage _ _ _ _ _ _ _ Hb))) as Hlk. pose proof (lk_nodup _ _ _ Hlk) as Hnd. symmetry in Hk.
  assert (next_page (active pg) = l !! S k) as Hnext.
  { pose proof (lk_links _ _ _ Hlk k id Hk) as H. cbn in H. rewrite Hp in H. cbn in H. injection H as H. by rewrite H. }
  pose proof (lookup_lt_Some _ _ _ Hk) as Hlt. apply Logic.and_assoc. split.
  - eapply sweep_moved; [exact Hss|by split|by eapply (based_cursor h)|]. unfold swept. change (sweep_stage h') with (sweep_stage h). rewrite Hst. exists (S k). cbn. split; [done|]. split; [|intros; lia].
    intros j x Hj Hx. destruct (decide (j = k)) as [->|]; [|eapply (Hcl j); [lia|done]]. assert (x = id) as -> by congruence. intros q s Hq Ho. assert (q = pg) as -> by congruence.
    eapply Hpart; [done|done| |done]. apply occ_bound in Ho. lia.
  - rewrite !mu_sweep by done. change (sweep_stage h') with (sweep_stage h). rewrite Hst. right. split; [done|]. right. split; [done|]. left. cbn [fst snd physical h' set_physical cursor set_cursor cursor_page].
    rewrite Hcur, Hnext, <- Hk, !index_of_lookup by done. lia.
Qed.
Lemma sweep_advance h pages l av rm dm D id pg n : sweep_state h pages l av rm dm D → sweep_stage h = StagePhysical → cursor_page (cursor (physical h)) = Some id → pages !! id = Some pg →
  cursor_slot (cursor (physical h)) < n ≤ page_slots pg → (∀ s, cursor_slot (cursor (physical h)) ≤ s < n → deadb pg (epoch (marking h)) s = false) →
  let h' := set_physical (set_cursor {| cursor_page := Some id; cursor_slot := n |} (physical h)) h in
  sweep_state h' pages l av rm dm D ∧ spared h h' pages pages rm rm dm dm ∧ less (mu h' pages l rm) (mu h pages l rm).
Proof.
  intros Hss Hst Hcur Hp Hn Hdead h'. pose proof Hss as [Hb _ Hph Hsw]. pose proof (sw_swept _ _ _ _ Hsw) as Hswept. unfold swept in Hswept. rewrite Hst in Hswept. destruct Hswept as (k & Hk & Hcl & Hpart). rewrite Hcur in Hk.
  pose proof (storage_page_ok _ _ _ _ _ _ (ba_storage _ _ _ _ _ _ _ Hb) Hp) as Hok. pose proof (page_slots_bound _ Hok) as Hsl. apply Logic.and_assoc. split.
  - eapply sweep_moved; [exact Hss|by split|by eapply (based_cursor h)|]. unfold swept. change (sweep_stage h') with (sweep_stage h). rewrite Hst. exists k. cbn. split; [done|]. split; [done|].
    intros x q s Hx Hq Hs Ho. destruct (decide (s < cursor_slot (cursor (physical h)))); [by eapply Hpart|]. assert (x = id) as -> by congruence. assert (q = pg) as -> by congruence.
    specialize (Hdead s ltac:(lia)). unfold deadb in Hdead. rewrite Ho in Hdead. by apply negb_false_iff in Hdead.
  - rewrite !mu_sweep by done. change (sweep_stage h') with (sweep_stage h). rewrite Hst. right. split; [done|]. right. split; [done|]. right. cbn [fst snd physical h' set_physical cursor set_cursor cursor_page cursor_slot].
    rewrite Hcur. split; [done|]. left. cbn. lia.
Qed.
Lemma sweep_detached h t pages l av rm dm D id pg pg' dead : sweep_state h pages l av rm dm D → sweep_stage h = StagePhysical → cursor_page (cursor (physical h)) = Some id → pages !! id = Some pg →
  cursor_slot (cursor (physical h)) ≤ dead < page_slots pg → (∀ s, cursor_slot (cursor (physical h)) ≤ s < dead → deadb pg (epoch (marking h)) s = false) → deadb pg (epoch (marking h)) dead = true →
  became pg pg' (flip_off (occ pg) dead) (flip_on (pending_slot pg) dead) (marks pg) →
  let p1 := set_cursor {| cursor_page := Some id; cursor_slot := S dead |} (physical h) in let p2 := set_objects (objects p1 - 1) (set_allocations t p1) in
  let pages' := <[id := pg']> pages in storage p2 pages' l av → contents p2 pages' (D ++ [(id, dead)]) →
  let h' := set_physical p2 h in
  sweep_state h' pages' l av rm dm (D ++ [(id, dead)]) ∧ spared h h' pages pages' rm rm dm dm ∧ less (mu h' pages' l rm) (mu h pages l rm).
Proof.
  intros Hss Hst Hcur Hp Hn Hdead Hd Hbe p1 p2 pages' Hs2 Hc2 h'. pose proof Hss as [Hb Hm Hph Hsw]. pose proof (sw_swept _ _ _ _ Hsw) as Hswept. unfold swept in Hswept. rewrite Hst in Hswept. destruct Hswept as (k & Hk & Hcl & Hpart). rewrite Hcur in Hk.
  pose proof (storage_page_ok _ _ _ _ _ _ (ba_storage _ _ _ _ _ _ _ Hb) Hp) as Hok. pose proof (page_slots_bound _ Hok) as Hsl. pose proof (changed_insert id pg' pages) as Hch. fold pages' in Hch.
  pose proof (changed_back _ _ _ _ _ _ _ Hp Hch Hbe) as Hback. pose proof (changed_colours _ _ _ _ _ _ _ Hp Hch Hbe (epoch (marking h))) as Hcol.
  assert (core (physical h) pages l av) as Hc by apply Hb. unfold deadb in Hd. apply andb_true_iff in Hd as [Hocc Hwh%negb_true_iff].
  assert (∀ j q x, pages' !! j = Some q → occ q x = true → ∃ q0, pages !! j = Some q0 ∧ marks q = marks q0 ∧ occ q0 x = true ∧ (j, x) ≠ (id, dead)) as Hocc'.
  { intros j q x Hq Ho. destruct (Hback _ _ Hq) as (q0 & Hq0 & M & _ & _ & O & _). exists q0. rewrite O in Ho. destruct (decide (j = id)) as [->|Hj]; [|split_and!; try done; congruence].
    assert (q0 = pg) as -> by congruence. unfold flip_off in Ho. apply andb_true_iff in Ho as [Hx%negb_true_iff%Nat.eqb_neq Ho]. split_and!; try done. congruence. }
  split; [|split].
  - split; [destruct Hb; by split| |done|].
    + eapply marks_ok_sub; [exact Hm|apply Hsw|]. intros j q Hq. destruct (Hback _ _ Hq) as (q0 & Hq0 & M & _ & _ & O & _). exists q0. split_and!; try done. intros x Hx Ho. rewrite O.
      case_decide as Hj; [|done]. subst j. assert (q0 = pg) as -> by congruence. unfold flip_off. rewrite Ho, andb_true_r. apply negb_true_iff, Nat.eqb_neq. intros ->.
      destruct (ct_occ _ _ _ (ba_contents _ _ _ _ _ _ _ Hb) _ _ _ Hp Hocc) as (r & hd & Hr & _). pose proof (slot_of_pointer _ _ _ Hok Hr) as Hsr.
      assert (blk pages (epoch (marking h)) r) as Hbk by (apply (sw_gray _ _ _ _ Hsw); by apply (disc_at _ _ _ _ Hc _ _ _ _ _ Hp Hsr)).
      apply (blk_at _ _ _ _ Hc _ _ _ _ _ Hp Hsr) in Hbk. congruence.
    + destruct Hsw. split; try done.
      * intros x y Hx He. apply Hcol. apply (sw_black x y); [by apply Hcol|done].
      * intros y Hy. by apply Hcol, sw_roots.
      * intros x Hx. by apply Hcol, sw_gray, Hcol.
      * unfold swept. change (sweep_stage h') with (sweep_stage h). rewrite Hst. exists k. cbn. split; [done|]. split.
        -- intros j x Hj Hx q y Hq Ho. destruct (Hocc' _ _ _ Hq Ho) as (q0 & Hq0 & -> & Ho0 & _). by eapply Hcl.
        -- intros x q y Hx Hq Hy Ho. destruct (Hocc' _ _ _ Hq Ho) as (q0 & Hq0 & -> & Ho0 & Hne). destruct (decide (y < cursor_slot (cursor (physical h)))); [by eapply Hpart|].
           assert (x = id) as -> by congruence. assert (q0 = pg) as -> by congruence. assert (y ≠ dead) by congruence. specialize (Hdead y ltac:(lia)). unfold deadb in Hdead. rewrite Ho0 in Hdead. by apply negb_false_iff in Hdead.
  - by split.
  - rewrite !mu_sweep by done. change (sweep_stage h') with (sweep_stage h). rewrite Hst. right. split; [done|]. right. split; [done|]. right. cbn [fst snd physical h' set_physical cursor p2 p1 set_objects set_allocations set_cursor cursor_page cursor_slot].
    rewrite Hcur. split; [done|]. left. cbn. lia.
Qed.
Lemma batch_ok_snoc p p' pages pages' batch D id pg pg' s r hd : batch_ok p pages batch D → pages !! id = Some pg → pages' = <[id := pg']> pages → (∀ x, pointer pg' x = pointer pg x) →
  pointer pg s = Some r → headers p !! r = Some hd → headers p' = headers p →
  batch_ok p' pages' (batch ++ [OwnObject {| res_reference := r; res_page := id; res_slot := s |} (hdr_descriptor hd)]) (D ++ [(id, s)]).
Proof.
  intros [-> Hown] Hp -> Hptr Hr Hh Eh. split; [by rewrite list.omap_app|]. intros x d [Hin|Heq%list_elem_of_singleton]%elem_of_app.
  - destruct (Hown x d Hin) as (q & hx & Hq & Hx & Hhx & Hd). destruct (decide (res_page x = id)) as [Ej|].
    + exists pg', hx. rewrite Ej, lookup_insert_eq, Hptr, Eh. rewrite Ej, Hp in Hq. injection Hq as <-. done.
    + exists q, hx. rewrite lookup_insert_ne, Eh by done. done.
  - injection Heq as -> ->. exists pg', hd. cbn. rewrite lookup_insert_eq, Hptr, Eh. done.
Qed.

(** ** The other stages *)
Lemma sweep_release h pages l av rm dm D n r' rm' id : sweep_state h pages l av rm dm D → sweep_stage h = StageRoots (S n) → roots_ok r' rm' →
  (∀ s, rm !! root_slot id = Some s → strong (entry s) = 0) → rm' !! root_slot id = None →
  (∀ j, j ≠ root_slot id → option_Forall2 same_root (rm !! j) (rm' !! j)) → roots_heap r' = roots_heap (roots h) → n ≤ pending_releases r' →
  let h' := set_sweep_stage (StageRoots n) (set_roots r' h) in
  sweep_state h' pages l av rm' dm D ∧ spared h h' pages pages rm rm' dm dm ∧ less (mu h' pages l rm') (mu h pages l rm).
Proof.
  intros Hss Hst Hr' Hdead Hnone Hsame Hheap Hn h'. pose proof Hss as [Hb Hm Hph Hsw]. pose proof (sw_swept _ _ _ _ Hsw) as Hswept. unfold swept in Hswept. rewrite Hst in Hswept. destruct Hswept as [Hcl _].
  assert (same_leases rm rm') as Hsl.
  { split.
    - intros s e He Hs. assert (s ≠ root_slot id) as Hne by (intros ->; specialize (Hdead _ He); lia). specialize (Hsame s Hne). rewrite He in Hsame. inversion Hsame; subst; eauto.
    - intros s e' He'. assert (s ≠ root_slot id) as Hne by congruence. specialize (Hsame s Hne). rewrite He' in Hsame. inversion Hsame; subst; eauto. }
  split; [|split].
  - split; [|done|done|].
    + destruct Hb. split; try done. cbn. congruence.
    + destruct Hsw. split; try done. intros t Ht. apply sw_roots. by apply (live_leases rm rm').
  - by split.
  - rewrite !mu_sweep, Hst by done. right. split; [done|]. right. split; [done|]. left. cbn. lia.
Qed.
Lemma sweep_done_roots h pages l av rm dm D : sweep_state h pages l av rm dm D → sweep_stage h = StageRoots 0 →
  let h' := set_sweep_stage (StageDescriptors (length (desc_active (descriptors (physical h))))) h in
  sweep_state h' pages l av rm dm D ∧ spared h h' pages pages rm rm dm dm ∧ less (mu h' pages l rm) (mu h pages l rm).
Proof.
  intros Hss Hst h'. pose proof Hss as [Hb Hm Hph Hsw]. pose proof (sw_swept _ _ _ _ Hsw) as Hswept. unfold swept in Hswept. rewrite Hst in Hswept. destruct Hswept as [Hcl _].
  apply Logic.and_assoc. split.
  - eapply sweep_moved; [exact Hss|by split|by eapply (based_heap h)|]. by split.
  - rewrite !mu_sweep, Hst by done. right. split; [done|]. left. cbn. lia.
Qed.
Lemma sweep_retired h pages l av rm dm D n d' dm' : sweep_state h pages l av rm dm D → sweep_stage h = StageDescriptors (S n) → registry d' (headers (physical h)) dm' →
  n ≤ length (desc_active d') → same_layouts dm dm' → dm' ⊆ dm →
  let h' := set_sweep_stage (StageDescriptors n) (set_physical (set_descriptors d' (physical h)) h) in
  sweep_state h' pages l av rm dm' D ∧ spared h h' pages pages rm rm dm dm' ∧ less (mu h' pages l rm) (mu h pages l rm).
Proof.
  intros Hss Hst Hrg Hn Hsl Hsub h'. pose proof Hss as [Hb Hm Hph Hsw]. pose proof (sw_swept _ _ _ _ Hsw) as Hswept. unfold swept in Hswept. rewrite Hst in Hswept. destruct Hswept as [Hcl _].
  split; [|split].
  - split; [|done|done|].
    + destruct Hb as [[[] ? ? ?] [] ? ? ? ? ?]. split; [by split|by split|done|by eapply (payloads_ok_sub _ dm)|done..].
    + destruct Hsw. by split.
  - by split.
  - rewrite !mu_sweep, Hst by done. right. split; [done|]. right. split; [done|]. left. cbn. lia.
Qed.
(** The cycle is complete: nothing dangles. *)
Lemma sweep_completed h pages l av rm dm : sweep_state h pages l av rm dm [] → sweep_stage h = StageDescriptors 0 →
  let h' := set_marking (set_phase Idle (set_cycles (cycles (marking h) + 1) (marking h))) h in
  good h' pages l av rm dm ∧ less (mu h' pages l rm) (mu h pages l rm) ∧ (∀ x, present (physical h) x → blk pages (epoch (marking h)) x).
Proof.
  intros [Hb Hm Hph Hsw] Hst h'. pose proof (sw_swept _ _ _ _ Hsw) as Hswept. unfold swept in Hswept. rewrite Hst in Hswept. destruct Hswept as [Hcl _].
  assert (shaped h pages l av rm dm []) as Hsh by done. pose proof (λ x, clean_blk h pages l av rm dm x Hsh Hcl) as Hin. pose proof (λ x, blk_present h pages l av rm dm x Hsh) as Hout.
  split; [|split].
  - split; [split; [by eapply (based_heap h)|destruct Hm; by split]|]. unfold tri. cbn [phase marking h' set_marking set_phase]. destruct Hsw. split_and!; try done. split.
    + intros r t Hr He. apply Hout, (sw_black r t); [by apply Hin|done].
    + intros t Ht. by apply Hout, sw_roots.
  - rewrite (mu_sweep h) by done. rewrite Hst. left. cbn. lia.
  - done.
Qed.

(** ** The loop *)
Lemma sweep_next_spec pg slot e b : page_ok pg → slot < page_slots pg → (0 <= remaining b)%Z →
  ∃ n d, sweep_next pg slot e b = Some (n, d) ∧ slot < n ≤ page_slots pg ∧ (Z.of_nat (n - slot - 1) <= remaining b)%Z
    ∧ match d with
      | Some dead => n = S dead ∧ slot ≤ dead ∧ (∀ s, slot ≤ s < dead → deadb pg e s = false) ∧ deadb pg e dead = true
      | None => ∀ s, slot ≤ s < n → deadb pg e s = false
      end.
Proof.
  intros Hok Hs Hr. unfold sweep_next. rewrite occupied_some by done. cbn [mbind option_bind]. pose proof (page_slots_bound _ Hok) as Hsl.
  set (stop := Nat.min (page_slots pg) _). assert (slot < stop ≤ page_slots pg ∧ (Z.of_nat (stop - slot - 1) <= remaining b)%Z) as [Hstop Hpay] by (unfold stop; lia).
  assert ((w ← (if occ pg slot then bl ← black (marks pg) slot e; Some (negb bl) else Some false); if w : bool then Some (S slot, Some slot) else
     dead ← next_dead pg slot stop e; Some (if dead <? stop then (S dead, Some dead) else (stop, None)))
     = (if deadb pg e slot then Some (S slot, Some slot) else dead ← next_dead pg slot stop e; Some (if dead <? stop then (S dead, Some dead) else (stop, None)))) as ->.
  { unfold deadb. destruct (occ pg slot); [|done]. rewrite (black_spec (marks pg) slot e); [done|apply Hok|lia]. }
  destruct (deadb pg e slot) eqn:Hd.
  - exists (S slot), (Some slot). split_and!; try done; try lia; intros; lia.
  - destruct (next_dead_spec pg slot stop e Hok Hstop) as (d & -> & Hrange & Hbefore & Hat). cbn [mbind option_bind]. destruct (Nat.ltb_spec d stop) as [Hlt|Hge].
    + exists (S d), (Some d). split_and!; try done; try lia. by apply Hat.
    + exists stop, None. split_and!; try done; try lia. intros s Hs'. apply Hbefore. lia.
Qed.

Lemma sweep_loop_spec (E : GcFailure → Heap → Prop) fuel batch h pages l av rm dm D b Q : sweep_state h pages l av rm dm D → batch_ok (physical h) pages batch D → length batch ≤ RETIREMENT_CAP →
  budget_ok b → Z.to_nat (remaining b) < fuel →
  (∀ e h' pages' rm' dm', limited e → shaped h' pages' l av rm' dm' [] → spared h h' pages pages' rm rm' dm dm' → E e h') →
  (∀ batch' b' h' pages' rm' dm' D' n, sweep_state h' pages' l av rm' dm' D' → batch_ok (physical h') pages' batch' D' → spared h h' pages pages' rm rm' dm dm' →
     budget_ok b' → paid b b' n → less_eq (mu h' pages' l rm') (mu h pages l rm) → (batch = [] → (1 <= remaining b)%Z → less (mu h' pages' l rm') (mu h pages l rm)) → Q (batch', b') h') →
  (∀ b' h' pages' rm' dm' n, good h' pages' l av rm' dm' → phase (marking h') = Idle → spared h h' pages pages' rm rm' dm dm' →
     (∀ x, present (physical h') x → blk pages' (epoch (marking h)) x) → budget_ok b' → paid b b' n → less (mu h' pages' l rm') (mu h pages l rm) → Q ([], b') h') →
  wp E (sweep_loop fuel batch b) Q h.
Proof.
  revert h pages rm dm D batch b Q. induction fuel as [|fuel IH]; intros h pages rm dm D batch b Q Hss Hbo Hlen Hbud Hfuel HE HQ HI; [lia|]. cbn [sweep_loop].
  pose proof Hbud as (Hb0 & _). pose proof (take_units_spec 1 b Hbud ltac:(lia)) as Htake.
  destruct (Nat.ltb_spec (length batch) RETIREMENT_CAP) as [Hcap|Hcap].
  2: { apply wp_ret. eapply (HQ batch b h pages rm dm D 0%Z); [exact Hss|exact Hbo|apply spared_refl|exact Hbud|unfold paid; lia|by left|]. intros ->. cbn in Hcap. unfold RETIREMENT_CAP in Hcap. lia. }
  destruct (take_units 1 b) as [b1|].
  2: { apply wp_ret. eapply (HQ batch b h pages rm dm D 0%Z); [exact Hss|exact Hbo|apply spared_refl|exact Hbud|unfold paid; lia|by left|]. intros; lia. }
  destruct Htake as [Hb1 Hp1]. pose proof Hss as [Hb Hm Hph Hsw].
  assert (∀ h1 pages1 rm1 dm1 D1 batch1 b2 n, sweep_state h1 pages1 l av rm1 dm1 D1 ∧ spared h h1 pages pages1 rm rm1 dm dm1 ∧ less (mu h1 pages1 l rm1) (mu h pages l rm) →
    batch_ok (physical h1) pages1 batch1 D1 → length batch1 ≤ RETIREMENT_CAP → budget_ok b2 → paid b b2 n → (1 <= n)%Z → wp E (sweep_loop fuel batch1 b2) Q h1) as Hstep.
  { intros h1 pages1 rm1 dm1 D1 batch1 b2 n (Hss1 & Hsp1 & Hl1) Hbo1 Hlen1 Hb2 Hp2 Hn. eapply (IH h1 pages1 rm1 dm1 D1 batch1 b2); [exact Hss1|exact Hbo1|exact Hlen1|exact Hb2|unfold paid, budget_ok in *; lia|..].
    - intros e h' pages' rm' dm' He Hsh Hsp. eapply HE; [exact He|exact Hsh|by eapply spared_trans].
    - intros batch' b' h' pages' rm' dm' D' k Hss' Hbo' Hsp' Hb' Hp' Hle' _. assert (less (mu h' pages' l rm') (mu h pages l rm)) by (by eapply less_eq_trans_l).
      eapply (HQ batch' b' h' pages' rm' dm' D' (n + k)%Z); [exact Hss'|exact Hbo'|by eapply spared_trans|exact Hb'|unfold paid in *; lia|by right|done].
    - intros b' h' pages' rm' dm' k Hg' Hph' Hsp' Hin Hb' Hp' Hl'. eapply (HI b' h' pages' rm' dm' (n + k)%Z); [exact Hg'|exact Hph'|by eapply spared_trans| |exact Hb'|unfold paid in *; lia|by etrans].
      intros x Hx. rewrite <- (sp_epoch _ _ _ _ _ _ _ _ Hsp1). by apply Hin. }
  apply wp_bind, wp_read. destruct (sweep_stage h) as [|[|n]|n] eqn:Hst.
  - destruct (cursor_page (cursor (physical h))) as [id|] eqn:Hcur.
    + pose proof (sw_swept _ _ _ _ Hsw) as Hswept. unfold swept in Hswept. rewrite Hst in Hswept. destruct Hswept as (k & Hk & _). rewrite Hcur in Hk. symmetry in Hk.
      assert (is_Some (pages !! id)) as [pg Hp] by (apply (co_dom _ _ _ _ (sg_core _ _ _ _ (ba_storage _ _ _ _ _ _ _ Hb))); by eapply list_elem_of_lookup_2).
      pose proof (storage_page_ok _ _ _ _ _ _ (ba_storage _ _ _ _ _ _ _ Hb) Hp) as Hok.
      apply wp_bind, wp_physical. eapply wp_page; [apply Hb|exact Hp|]. replace (set_physical (physical h) h) with h by (by destruct h). cbn zeta.
      destruct (Nat.leb_spec (page_slots pg) (cursor_slot (cursor (physical h)))) as [Hend|Hin].
      * apply wp_bind, wp_physical, wp_modify. eapply (Hstep _ pages rm dm D batch b1 1%Z); [by eapply sweep_next_page|exact Hbo|done|done|done|lia].
      * destruct (sweep_next_spec pg (cursor_slot (cursor (physical h))) (epoch (marking h)) b1 Hok Hin ltac:(apply Hb1)) as (n & d & Hnext & Hn & Hpay & Hd).
        apply wp_bind. eapply wp_or_panic; [exact Hnext|]. cbn [fst snd]. apply wp_bind. pose proof (take_units_spec (Z.of_nat (n - cursor_slot (cursor (physical h)) - 1)) b1 Hb1 ltac:(lia)) as Htake2.
        destruct (take_units _ b1) as [b2|]; [|lia]. destruct Htake2 as [Hb2 Hp2]. eapply wp_or_panic; [done|]. apply wp_bind, wp_physical, wp_modify. unfold paid in Hp1, Hp2.
        destruct d as [dead|].
        -- destruct Hd as (-> & Hge & Hbefore & Hdead). apply wp_bind, wp_physical. set (p1 := set_cursor _ _). cbn [physical set_physical].
           eapply (detach_spec _ p1 pages l av D dm batch id pg dead); [destruct (ba_storage _ _ _ _ _ _ _ Hb) as [[] ? ? ?]; by split|destruct (ba_contents _ _ _ _ _ _ _ Hb); by split|apply Hb|exact Hp| |done|].
           { unfold deadb in Hdead. by apply andb_true_iff in Hdead as [? _]. }
           intros r hd t pg' Hr Hh Hbe p2 Hs2 Hc2.
           eapply (Hstep _ (<[id := pg']> pages) rm dm (D ++ [(id, dead)]) _ b2 (Z.of_nat (S dead - cursor_slot (cursor (physical h)) - 1) + 1)%Z); [exact (sweep_detached h t pages l av rm dm D id pg pg' dead Hss Hst Hcur Hp ltac:(lia) Hbefore Hdead Hbe Hs2 Hc2)| |rewrite length_app; cbn; lia|done|unfold paid; lia|lia].
           eapply (batch_ok_snoc (physical h)); [exact Hbo|exact Hp|done|intros; by eapply became_pointer|exact Hr|exact Hh|done].
        -- eapply (Hstep _ pages rm dm D batch b2 (Z.of_nat (n - cursor_slot (cursor (physical h)) - 1) + 1)%Z); [by eapply sweep_advance|exact Hbo|done|done|unfold paid; lia|lia].
    + apply wp_bind, wp_modify. eapply (Hstep _ pages rm dm D batch b1 1%Z); [by eapply sweep_done_pages|exact Hbo|done|done|done|lia].
  - apply wp_bind, wp_modify. eapply (Hstep _ pages rm dm D batch b1 1%Z); [by eapply sweep_done_roots|exact Hbo|done|done|done|lia].
  - pose proof (sw_swept _ _ _ _ Hsw) as Hswept. unfold swept in Hswept. rewrite Hst in Hswept. destruct Hswept as [_ Hpend]. unfold pending_releases in Hpend.
    destruct (port_pending (port (roots h))) as [|id rest] eqn:Hpp; [cbn in Hpend; lia|]. cbn in Hpend.
    apply wp_bind, wp_roots. eapply release_one_spec; [apply Hb|exact Hpp|]. intros r' rm' s Hr' Hs Hz Hn Hsame Hheap Hpp' _. apply wp_bind, wp_ret.
    apply wp_bind, wp_assert; [done|]. apply wp_bind, wp_modify.
    eapply (Hstep _ pages rm' dm D (batch ++ [OwnRoots (entry s)]) b1 1%Z); [|destruct Hbo as [-> Hown]; split|rewrite length_app; cbn; lia|done|done|lia].
    + eapply sweep_release; try done; [by intros s' Hs'; simplify_eq|]. unfold pending_releases. rewrite Hpp'. lia.
    + rewrite list.omap_app. cbn. by rewrite app_nil_r.
    + intros r d [Hin|Heq%list_elem_of_singleton]%elem_of_app; [by apply Hown|done].
  - destruct (Nat.eqb_spec (length batch) 0) as [Hz|Hnz]; cbn [negb].
    2: { apply wp_ret. eapply (HQ batch b1 h pages rm dm D 1%Z); [exact Hss|exact Hbo|apply spared_refl|exact Hb1|exact Hp1|by left|]. intros ->. done. }
    apply nil_length_inv in Hz as ->. destruct Hbo as [HD Hown]. cbn in HD. subst D. destruct n as [|n].
    + destruct (sweep_completed h pages l av rm dm Hss Hst) as (Hg' & Hl' & Hin). destruct (_ <? _)%Z.
      * apply wp_fail. eapply (HE _ h pages rm dm); [by eexists|by split|apply spared_refl].
      * apply wp_bind, wp_modify, wp_ret. eapply (HI b1 _ pages rm dm 1%Z); [exact Hg'|done|by split|exact Hin|done|done|done].
    + pose proof (sw_swept _ _ _ _ Hsw) as Hswept. unfold swept in Hswept. rewrite Hst in Hswept. destruct Hswept as [_ Hlim].
      apply wp_bind, wp_physical, wp_zoom. eapply retire_unused_spec; [apply Hb|lia|]. intros d' dm' Hrg' Hn' Hsl Hsub. apply wp_bind, wp_modify.
      eapply (Hstep _ pages rm dm' [] [] b1 1%Z); [eapply sweep_retired; try done|by split|cbn; unfold RETIREMENT_CAP; lia|done|done|lia].
Qed.
