(* ===== verification/GcCollect.v ===== *)
(** * Managed heap: collections are safe, make progress, and are exact *)
From stdpp Require Import gmap fin_maps.
From S2P Require Import Prelude SlotBits GcBase GcTable GcPage GcColors GcDynamic GcHeap GcStorage GcSlots GcRoots GcRootsProps GcMark GcService GcMutator GcInv GcMarkProps GcMeasure GcScanProps GcSweepProps GcSweepLoop.
Open Scope nat_scope.

(** ** What collection work guarantees the program *)
(** Reachable objects keep their headers and fields; held registrations and layouts survive; nothing appears. *)
Record retained (h h' : Heap) (rm rm' : gmap Z RootSlot) (dm dm' : gmap Z DescriptorEntry) : Prop := {
  rt_id : heap_id h' = heap_id h; rt_config : config h' = config h;
  rt_objects : ∀ x, reachable (physical h) rm x → headers (physical h') !! x = headers (physical h) !! x ∧ payloads (physical h') !! x = payloads (physical h) !! x;
  rt_headers : headers (physical h') ⊆ headers (physical h); rt_payloads : payloads (physical h') ⊆ payloads (physical h);
  rt_leases : same_leases rm rm'; rt_layouts : same_layouts dm dm'
}.
Lemma retained_reachable h h' rm rm' dm dm' x : retained h h' rm rm' dm dm' → reachable (physical h') rm' x ↔ reachable (physical h) rm x.
Proof.
  intros [_ _ Ho _ Hp Hl _]. split; induction 1 as [t Ht|r t Hr IH (pl & off & Hpl & Hoff)].
  - by apply reach_root, (live_leases rm rm').
  - eapply reach_edge; [exact IH|]. exists pl, off. split; [|done]. by eapply lookup_weaken.
  - by apply reach_root, (live_leases rm rm').
  - eapply reach_edge; [exact IH|]. exists pl, off. split; [|done]. by rewrite (proj2 (Ho r Hr)).
Qed.
Lemma retained_refl h rm dm : retained h h rm rm dm dm.
Proof. by split. Qed.
Lemma retained_trans h h1 h2 rm rm1 rm2 dm dm1 dm2 : retained h h1 rm rm1 dm dm1 → retained h1 h2 rm1 rm2 dm1 dm2 → retained h h2 rm rm2 dm dm2.
Proof.
  intros R1 R2. pose proof R1 as [A1 A2 A3 A4 A5 A6 A7]. pose proof R2 as [B1 B2 B3 B4 B5 B6 B7]. split; try congruence; try (by etrans).
  intros x Hx. destruct (A3 x Hx) as [<- <-]. apply B3. by apply (retained_reachable _ _ _ _ _ _ _ R1).
Qed.
Lemma steady_retained h h' rm dm : steady h h' → retained h h' rm rm dm dm.
Proof. intros []. split; try done; rewrite ?sy_headers, ?sy_payloads; done. Qed.
Lemma sweep_reachable h pages l rm x : sweeping h pages l rm → reachable (physical h) rm x → blk pages (epoch (marking h)) x.
Proof. intros []. induction 1; eauto. Qed.
Lemma spared_retained h h' pages pages' l rm rm' dm dm' : sweeping h pages l rm → spared h h' pages pages' rm rm' dm dm' → retained h h' rm rm' dm dm'.
Proof. intros Hsw []. split; try done. intros x Hx. apply sp_objects. by eapply sweep_reachable. Qed.

(** Marks, or after the cycle all objects, stay within the reachable ones. *)
Definition tracked (h : Heap) (pages : gmap Z Page) (rm : gmap Z RootSlot) : Prop :=
  match phase (marking h) with Idle => ∀ x, present (physical h) x → reachable (physical h) rm x | _ => exact_marks h pages rm end.
Lemma spared_exact h h' pages pages' l rm rm' dm dm' : sweeping h pages l rm → spared h h' pages pages' rm rm' dm dm' → exact_marks h pages rm → exact_marks h' pages' rm'.
Proof.
  intros Hsw Hsp He x Hx. rewrite (sp_epoch _ _ _ _ _ _ _ _ Hsp) in Hx. apply (retained_reachable h h' rm rm' dm dm'); [by eapply spared_retained|]. apply He. by apply (sp_colours _ _ _ _ _ _ _ _ Hsp).
Qed.

(** The outcome of a service call. *)
Record serviced (h h' : Heap) (pages pages' : gmap Z Page) (rm rm' : gmap Z RootSlot) (dm dm' : gmap Z DescriptorEntry) (l' : list Z) (av' : nat → list Z) : Prop := {
  sv_good : good h' pages' l' av' rm' dm'; sv_running : running h'; sv_retained : retained h h' rm rm' dm dm'; sv_exact : tracked h pages rm → tracked h' pages' rm'
}.
Lemma serviced_trans h h1 h2 pages pages1 pages2 rm rm1 rm2 dm dm1 dm2 l1 av1 l2 av2 :
  serviced h h1 pages pages1 rm rm1 dm dm1 l1 av1 → serviced h1 h2 pages1 pages2 rm1 rm2 dm1 dm2 l2 av2 → serviced h h2 pages pages2 rm rm2 dm dm2 l2 av2.
Proof. intros [] []. split; try done; [by eapply retained_trans|auto]. Qed.
(** The heap an error leaves: intact, whatever the phase. *)
Definition faulty (h h' : Heap) (rm : gmap Z RootSlot) (dm : gmap Z DescriptorEntry) : Prop :=
  ∃ pages' l' av' rm' dm', shaped h' pages' l' av' rm' dm' [] ∧ retained h h' rm rm' dm dm'.

Lemma sweep_spec (E : GcFailure → Heap → Prop) h pages l av rm dm b Q : good h pages l av rm dm → phase (marking h) = Sweep → budget_ok b → (1 <= remaining b)%Z →
  (∀ e h', limited e → faulty h h' rm dm → E e h') →
  (∀ n b' h' pages' l' av' rm' dm', serviced h h' pages pages' rm rm' dm dm' l' av' → less (mu h' pages' l' rm') (mu h pages l rm) → budget_ok b' → (∃ k, paid b b' k) → Q (n, b') h') →
  wp E (sweep b) Q h.
Proof.
  intros [[Hb Hm] Ht] Hph Hbud H1 HE HQ. unfold tri in Ht. rewrite Hph in Ht. assert (sweep_state h pages l av rm dm []) as Hss by (by split).
  unfold sweep. apply wp_bind. eapply sweep_loop_spec; [exact Hss| |cbn; unfold RETIREMENT_CAP; lia|exact Hbud|lia|..].
  - split; [done|]. by intros r d ?%elem_of_nil.
  - intros e h' pages' rm' dm' He Hsh Hsp. apply HE; [done|]. exists pages', l, av, rm', dm'. split; [done|]. by eapply spared_retained.
  - intros batch' b' h' pages' rm' dm' D' n Hss' Hbo Hsp Hb' Hp' _ Hless. cbn [fst snd]. apply wp_bind, wp_physical.
    eapply (finish_spec _ batch' h' (physical h')); [replace (set_physical (physical h') h') with h' by (by destruct h'); exact Hss'|exact Hbo|].
    replace (set_physical (physical h') h') with h' by (by destruct h'). intros p2 pages2 l2 av2 dm2 h2 Hss2 Hsp2 Hle2. apply wp_ret.
    pose proof (spared_trans _ _ _ _ _ _ _ _ _ _ _ _ Hsp Hsp2) as Hsp3. apply (HQ _ b' h2 pages2 l2 av2 rm' dm2); [|eapply less_eq_trans_l; [exact Hle2|by apply Hless]|done|by exists n].
    pose proof (ss_phase _ _ _ _ _ _ _ Hss2) as Hph2. split.
    + destruct Hss2. split; [by split|]. unfold tri. by rewrite Hph2.
    + unfold running. fold h2. by rewrite Hph2.
    + by eapply spared_retained.
    + unfold tracked. rewrite Hph. fold h2. rewrite Hph2. by eapply spared_exact.
  - intros b' h' pages' rm' dm' n Hg' Hph' Hsp Hin Hb' Hp' Hless. cbn [fst snd finish]. apply wp_bind, wp_physical, wp_ret, wp_ret.
    replace (set_physical (physical h') h') with h' by (by destruct h'). apply (HQ _ b' h' pages' l av rm' dm'); [|done|done|by exists n]. split; [done|unfold running; by rewrite Hph'|by eapply spared_retained|].
    unfold tracked. rewrite Hph, Hph'. intros He x Hx. apply (retained_reachable h h' rm rm' dm dm'); [by eapply spared_retained|]. apply He. apply Hin in Hx.
    apply (sp_colours _ _ _ _ _ _ _ _ Hsp) in Hx. destruct Hx as (id & pg & s & Hp & Hs & Hx). exists id, pg, s. split_and!; [done|done|]. by apply (mk_black _ _ Hm id pg).
Qed.

Definition scanning (h : Heap) : nat := match active_scan h with Some _ => 1 | None => 0 end.
Lemma advanced_serviced h h' pages pages' l av rm dm more b b' : running h → phase (marking h) ≠ Idle → advanced h h' pages pages' l av rm dm more b b' → serviced h h' pages pages' rm rm dm dm l av.
Proof.
  intros Hr Hi Ha. split; [apply Ha|apply Ha|apply steady_retained, Ha|]. pose proof (ad_not_idle _ _ _ _ _ _ _ _ _ _ _ Ha) as Hi'. pose proof (ad_exact _ _ _ _ _ _ _ _ _ _ _ Ha) as He.
  unfold tracked. destruct (phase (marking h)) eqn:E1, (phase (marking h')) eqn:E2; done.
Qed.

Lemma service_loop_spec (E : GcFailure → Heap → Prop) fuel h pages l av rm dm b Q : good h pages l av rm dm → running h → budget_ok b →
  2 * Z.to_nat (remaining b) + scanning h < fuel → (∀ e h', limited e → faulty h h' rm dm → E e h') →
  (∀ n b' h' pages' l' av' rm' dm', serviced h h' pages pages' rm rm' dm dm' l' av' → less_eq (mu h' pages' l' rm') (mu h pages l rm) →
     (phase (marking h) ≠ Idle → (5 <= remaining b)%Z → less (mu h' pages' l' rm') (mu h pages l rm)) → budget_ok b' → (∃ k, paid b b' k) → Q (n, b') h') →
  wp E (service_loop fuel b) Q h.
Proof.
  revert h pages b Q. induction fuel as [|fuel IH]; intros h pages b Q Hg Hrun Hbud Hfuel HE HQ; [lia|]. cbn [service_loop]. pose proof Hbud as (Hb0 & _).
  assert (serviced h h pages pages rm rm dm dm l av) as Hself by (split; [done|done|apply retained_refl|done]). assert (paid b b 0%Z) as Hp0 by (unfold paid; lia).
  destruct (Z.eqb_spec (remaining b) 0) as [Hz|Hz]; [apply wp_ret; eapply HQ; [exact Hself|by left|lia|done|eauto]|].
  apply wp_bind, wp_read.
  assert (phase (marking h) ≠ Idle → ∀ more b' h' pages', advanced h h' pages pages' l av rm dm more b b' →
    wp E (if more then service_loop fuel b' else ret (0, b')) Q h') as Hnext.
  { intros Hi more b' h' pages' Ha. pose proof (advanced_serviced _ _ _ _ _ _ _ _ _ _ _ Hrun Hi Ha) as Hsv. destruct Ha as [Hg' Hst Hrun' Hi' Hb' (n & Hpd & Hn0) _ Hle Hlt]. destruct more.
    - eapply (IH h' pages' b'); [exact Hg'|exact Hrun'|exact Hb'| |..].
      + assert (scanning h' ≤ 1) by (unfold scanning; destruct (active_scan h'); lia). assert (n = 0%Z → scanning h = 1 ∧ scanning h' = 0) as Hsc.
        { intros ->. destruct (Hn0 eq_refl eq_refl) as [[a Ha] Hn]. unfold scanning. by rewrite Ha, Hn. }
        unfold paid, budget_ok in *. destruct (decide (n = 0%Z)) as [->|]; [destruct (Hsc eq_refl)|]; lia.
      + intros e h2 He (pages2 & l2 & av2 & rm2 & dm2 & Hsh & Hrt). apply HE; [done|]. exists pages2, l2, av2, rm2, dm2. split; [done|]. eapply retained_trans; [apply Hsv|done].
      + intros k b2 h2 pages2 l2 av2 rm2 dm2 Hsv2 Hle2 _ Hb2 (k' & Hpd2). assert (less (mu h2 pages2 l2 rm2) (mu h pages l rm)) by (eapply less_eq_trans_l; [exact Hle2|apply Hlt; by left]).
        eapply HQ; [by eapply serviced_trans|by right|done|done|]. exists (n + k')%Z. unfold paid in *. lia.
    - apply wp_ret. eapply HQ; [exact Hsv|done|intros; apply Hlt; by right|done|eauto]. }
  destruct Hrun as [Hnf Hnc]. destruct (phase (marking h)) eqn:Hph; try done.
  - apply wp_ret. eapply HQ; [exact Hself|by left|done|done|eauto].
  - apply wp_bind. eapply scan_roots_spec; [exact Hg|done|done|]. intros more b2 h2 pages2 Ha. by apply (Hnext ltac:(done) more b2 h2 pages2).
  - apply wp_bind. eapply scan_object_spec; [exact Hg|done|done|]. intros more b2 h2 pages2 Ha. by apply (Hnext ltac:(done) more b2 h2 pages2).
  - eapply sweep_spec; [exact Hg|done|done|lia|exact HE|]. intros. eapply HQ; [done|by right|done|done|done].
Qed.

(** ** Starting a cycle *)
Definition begun (h : Heap) : Heap :=
  set_root_cursor {| cursor_end := length (root_active (roots h)); cursor_next := 0; cursor_target := 0; cursor_active := None |}
    (set_ledger {| indirect := indirect (ledger h); peak := peak (ledger h); allocation_growth := 0 |}
      (set_marking (set_phase Roots_ (set_epoch (epoch (marking h) + 1) (marking h))) h)).
Lemma begun_good h pages l av rm dm : good h pages l av rm dm → phase (marking h) = Idle → good (begun h) pages l av rm dm ∧ exact_marks (begun h) pages rm.
Proof.
  intros [[Hb Hm] Ht] Hph. unfold tri in Ht. rewrite Hph in Ht. destruct Ht as (Ha & Hpe & Hcl).
  assert (∀ id pg, pages !! id = Some pg → reset_needed (marks pg) (epoch (marking h) + 1) = true) as Hreset.
  { intros id pg Hp. pose proof (mk_epoch _ _ Hm id pg Hp). unfold reset_needed. apply negb_true_iff, Z.eqb_neq. lia. }
  assert (∀ id pg s, pages !! id = Some pg → discb (marks pg) (epoch (marking h) + 1) s = false ∧ blackb (marks pg) (epoch (marking h) + 1) s = false) as Hwhite.
  { intros id pg s Hp. unfold discb, blackb. by rewrite (Hreset id pg Hp). }
  split.
  - split; [split|].
    + destruct Hb as [? ? ? ? ? ? [? ?]]. by split.
    + destruct Hm as [M1 M2 M3 M4 M5 M6 M7 M8 M9]. split; cbn; try done; [..|lia].
      * intros id pg Hp. specialize (M1 id pg Hp). lia.
      * intros id pg s Hp. destruct (Hwhite id pg s Hp) as [-> ->]. done.
      * intros id pg s Hp. destruct (Hwhite id pg s Hp) as [-> _]. done.
      * intros id pg Hp Hq. apply (M4 id pg Hp) in Hq. rewrite Hpe in Hq. by apply elem_of_nil in Hq.
    + unfold tri. cbn [phase marking begun set_root_cursor set_ledger set_marking set_phase]. split_and!; [done|done|..].
      * intros r t (id & pg & s & Hp & _ & Hx). cbn in Hx. by rewrite (proj2 (Hwhite id pg s Hp)) in Hx.
      * intros id pg s Hp Hx. unfold grayb in Hx. cbn in Hx. by rewrite (proj1 (Hwhite id pg s Hp)) in Hx.
      * split; cbn; [lia|done| |intros; lia]. intros i s e t Hi _ _ _ [?|Hge]; [lia|]. apply lookup_lt_Some in Hi. lia.
  - intros x (id & pg & s & Hp & _ & Hx). cbn in Hx. by rewrite (proj1 (Hwhite id pg s Hp)) in Hx.
Qed.

Lemma service_spec (E : GcFailure → Heap → Prop) h pages l av rm dm b Q : good h pages l av rm dm → running h → budget_ok b → (6 <= remaining b)%Z →
  (∀ e h', limited e → faulty h h' rm dm → E e h') →
  (∀ n b' h' pages' l' av' rm' dm', good h' pages' l' av' rm' dm' → running h' → retained h h' rm rm' dm dm' → (phase (marking h) = Idle ∨ tracked h pages rm → tracked h' pages' rm') →
     (phase (marking h) ≠ Idle → less (mu h' pages' l' rm') (mu h pages l rm)) → (∃ k, paid b b' k ∧ (k <= remaining b)%Z) → Q (n, b') h') →
  wp E (service b) Q h.
Proof.
  intros Hg Hrun Hbud H6 HE HQ. unfold service. apply wp_bind, wp_read. case_bool_decide as Hidle.
  - pose proof (take_units_spec 1 b Hbud ltac:(lia)) as Htake. destruct (take_units 1 b) as [b1|]; [|lia]. destruct Htake as [Hb1 Hp1].
    destruct (begun_good _ _ _ _ _ _ Hg Hidle) as [Hg1 He1]. assert (retained h (begun h) rm rm dm dm) as Hrt by (by split).
    apply wp_bind. unfold start. apply wp_bind, check_spec; [done|]. apply wp_bind, wp_read, wp_bind, wp_assert; [by apply bool_decide_eq_true_2|].
    apply wp_bind, wp_assert. { destruct Hg as [_ Ht]. unfold tri in Ht. rewrite Hidle in Ht. apply bool_decide_eq_true_2. apply Ht. }
    destruct (_ <? _)%Z. { apply wp_fail, HE; [by eexists|]. exists pages, l, av, rm, dm. split; [apply Hg|apply retained_refl]. }
    apply wp_modify, wp_bind, wp_modify, wp_bind, wp_modify. change (wp E (service_loop (service_fuel b1) b1) Q (begun h)).
    eapply (service_loop_spec E _ (begun h)); [exact Hg1|done|exact Hb1| |..].
    + unfold service_fuel, scanning. destruct (active_scan _); lia.
    + intros e h' He (pages' & l' & av' & rm' & dm' & Hsh & Hr'). apply HE; [done|]. exists pages', l', av', rm', dm'. split; [done|]. by eapply retained_trans.
    + intros n b' h' pages' l' av' rm' dm' [Hg' Hrun' Hrt' Hex'] _ _ Hb' (k & Hpd). eapply HQ; [exact Hg'|exact Hrun'|by eapply retained_trans|intros _; by apply Hex'|done|].
      exists (1 + k)%Z. unfold paid, budget_ok in *. lia.
  - eapply service_loop_spec; [exact Hg|exact Hrun|exact Hbud| |exact HE|].
    + unfold service_fuel, scanning. destruct (active_scan h); lia.
    + intros n b' h' pages' l' av' rm' dm' [Hg' Hrun' Hrt' Hex'] _ Hlt Hb' (k & Hpd). eapply HQ; [exact Hg'|exact Hrun'|exact Hrt'|intros [?|?]; [done|by apply Hex']|intros; apply Hlt; [done|lia]|].
      exists k. unfold paid, budget_ok in *. lia.
Qed.

(** ** One budgeted step *)
(** An error of collection work: a machine limit; the heap is left intact, and quarantined unless the work never began. *)
Definition stopped (h : Heap) (rm : gmap Z RootSlot) (dm : gmap Z DescriptorEntry) (e : GcFailure) (h' : Heap) : Prop :=
  limited e ∧ (h' = h ∨ phase (marking h') = Faulted) ∧ faulty h h' rm dm.
Record progress (h h' : Heap) (pages pages' : gmap Z Page) (l l' : list Z) (av' : nat → list Z) (rm rm' : gmap Z RootSlot) (dm dm' : gmap Z DescriptorEntry) : Prop := {
  pr_good : good h' pages' l' av' rm' dm'; pr_running : running h'; pr_retained : retained h h' rm rm' dm dm';
  pr_exact : phase (marking h) = Idle ∨ tracked h pages rm → tracked h' pages' rm';
  pr_less : phase (marking h) ≠ Idle → less (mu h' pages' l' rm') (mu h pages l rm)
}.
Lemma faulty_self h pages l av rm dm : good h pages l av rm dm → faulty h h rm dm.
Proof. intros [Hs _]. exists pages, l, av, rm, dm. split; [done|apply retained_refl]. Qed.
Lemma good_pacing h pages l av rm dm p : good h pages l av rm dm → good (set_pacing p h) pages l av rm dm.
Proof.
  intros [[Hb Hm] Ht]. split; [split; [by eapply (based_heap h)|done]|]. unfold tri in *. change (marking (set_pacing p h)) with (marking h). destruct (phase (marking h)); try done.
  - destruct Ht as (? & ? & ? & ? & []). by split_and!.
  - destruct Ht. by split.
Qed.

Lemma service_work_spec (E : GcFailure → Heap → Prop) h pages l av rm dm allowance Q : good h pages l av rm dm → running h → (0 <= allowance <= u64_max)%Z →
  (∀ e h', stopped h rm dm e h' → E e h') →
  (∀ work n h' pages' l' av' rm' dm', progress h h' pages pages' l l' av' rm rm' dm dm' → (0 <= work <= allowance)%Z → Q (work, n) h') →
  wp E (service_work allowance) Q h.
Proof.
  intros Hg Hrun Hal HE HQ. unfold service_work. apply wp_bind, check_spec; [done|]. destruct (Z.ltb_spec allowance 8) as [Hlt|H8].
  { apply wp_fail, HE. split; [by eexists|]. split; [by left|]. by eapply faulty_self. }
  apply wp_bind, wp_read. cbn zeta. apply wp_bind. set (b := budget_new allowance). assert (budget_ok b) as Hb by (unfold budget_ok; cbn; lia).
  pose proof (service_spec (λ e h', limited e ∧ faulty h h' rm dm) h pages l av rm dm b
    (λ r h', ∃ pages' l' av' rm' dm', progress h h' pages pages' l l' av' rm rm' dm dm' ∧ (0 <= spent (snd r) <= allowance)%Z) Hg Hrun Hb ltac:(cbn; lia) ltac:(done)) as Hsv.
  unfold wp at 1 in Hsv. unfold wp at 1. destruct (service b h) as [[r|e] h'] eqn:Hs.
  - assert (∃ pages' l' av' rm' dm', progress h h' pages pages' l l' av' rm rm' dm dm' ∧ (0 <= spent (snd r) <= allowance)%Z) as (pages' & l' & av' & rm' & dm' & Hpr & Hspent).
    { apply Hsv. intros n b' h2 pages' l' av' rm' dm' H1 H2 H3 H4 H5 (k & Hpd & Hk). exists pages', l', av', rm', dm'. split; [by split|]. unfold paid in Hpd. cbn in *. lia. }
    apply wp_bind, wp_read, wp_bind. destruct (negb _).
    + apply wp_modify, wp_ret. eapply (HQ _ _ _ pages' l' av' rm' dm'); [|done]. destruct Hpr as [G R T X L]. split; [by apply good_pacing|done|destruct T; by split|done|done].
    + apply wp_ret, wp_ret. by eapply (HQ _ _ _ pages' l' av' rm' dm').
  - assert (limited e ∧ faulty h h' rm dm) as [[why ->] Hf].
    { apply Hsv. intros. eexists _, _, _, _, _. split; [by split|]. destruct H4 as (k & Hpd & Hk). unfold paid in Hpd. cbn in *. lia. }
    apply HE. split; [by eexists|]. split; [by right|]. destruct Hf as (pages' & l' & av' & rm' & dm' & [Hbs Hm] & []). exists pages', l', av', rm', dm'. split; [|by split]. split; [by eapply (based_heap h')|destruct Hm; by split].
Qed.

Lemma service_work_total h pages l av rm dm : good h pages l av rm dm → running h →
  match service_work NORMAL h with
  | (Ok w, h1) => ∃ pages1 l1 av1 rm1 dm1, progress h h1 pages pages1 l l1 av1 rm rm1 dm dm1
  | (Err e, h1) => limited e ∧ faulty h h1 rm dm
  end.
Proof.
  intros Hg Hrun. enough (wp (λ e h1, limited e ∧ faulty h h1 rm dm) (service_work NORMAL) (λ _ h1, ∃ pages1 l1 av1 rm1 dm1, progress h h1 pages pages1 l l1 av1 rm rm1 dm dm1) h) as Hwp
    by (unfold wp in Hwp; by destruct (service_work NORMAL h) as [[]?]).
  eapply service_work_spec; [exact Hg|exact Hrun|unfold NORMAL, u64_max; lia|by intros e h' (? & _ & ?)|]. intros. by eauto 10.
Qed.

(** ** Draining terminates *)
(** Draining ends with an idle heap, or stops at a machine limit. *)
Lemma drain_spec h pages l av rm dm work retired : good h pages l av rm dm → running h → ∃ fuel0, ∀ fuel, fuel0 ≤ fuel →
  wp (λ e h', limited e ∧ faulty h h' rm dm) (drain fuel work retired)
    (λ _ h', phase (marking h') = Idle ∧ ∃ pages' l' av' rm' dm', good h' pages' l' av' rm' dm' ∧ retained h h' rm rm' dm dm' ∧ (tracked h pages rm → tracked h' pages' rm')) h.
Proof.
  remember (mu h pages l rm) as m eqn:Hmu. revert h pages l av rm dm work retired Hmu. induction m as [m IH] using (well_founded_ind less_wf). intros h pages l av rm dm work retired -> Hg Hrun.
  destruct (decide (phase (marking h) = Idle)) as [Hidle|Hbusy].
  { exists 1. intros [|fuel] Hf; [lia|]. cbn [drain]. apply wp_bind, wp_read. rewrite bool_decide_eq_true_2 by done. apply wp_ret. split; [done|].
    exists pages, l, av, rm, dm. split; [done|]. split; [apply retained_refl|done]. }
  assert (∃ fuel0, ∀ fuel, fuel0 ≤ fuel → match service_work NORMAL h with
    | (Ok w, h1) => wp (λ e h', limited e ∧ faulty h h' rm dm) (drain fuel (work + fst w) (retired + Z.of_nat (snd w)))
        (λ _ h', phase (marking h') = Idle ∧ ∃ pages' l' av' rm' dm', good h' pages' l' av' rm' dm' ∧ retained h h' rm rm' dm dm' ∧ (tracked h pages rm → tracked h' pages' rm')) h1 ∧ faulty h h1 rm dm
    | (Err e, h1) => limited e ∧ faulty h h1 rm dm
    end) as [fuel0 Hnext].
  { pose proof (service_work_total _ _ _ _ _ _ Hg Hrun) as Hsw. destruct (service_work NORMAL h) as [[w|e] h1]; [|by exists 0].
    - destruct Hsw as (pages1 & l1 & av1 & rm1 & dm1 & [G R T X L]).
      destruct (IH _ (L Hbusy) h1 pages1 l1 av1 rm1 dm1 (work + fst w)%Z (retired + Z.of_nat (snd w))%Z eq_refl G R) as [fuel0 Hf]. exists fuel0. intros fuel Hle. split.
      2: { exists pages1, l1, av1, rm1, dm1. split; [apply G|done]. }
      specialize (Hf fuel Hle). eapply wp_error; [eapply wp_mono; [exact Hf|]|].
      + intros _ h2 (Hi & pages2 & l2 & av2 & rm2 & dm2 & G2 & T2 & X2). split; [done|]. exists pages2, l2, av2, rm2, dm2. split; [done|]. split; [by eapply retained_trans|auto].
      + intros e h2 (Hl & pages2 & l2 & av2 & rm2 & dm2 & G2 & T2). split; [done|]. exists pages2, l2, av2, rm2, dm2. split; [done|]. by eapply retained_trans.
  }
  exists (S fuel0). intros [|fuel] Hle; [lia|]. specialize (Hnext fuel ltac:(lia)). cbn [drain]. apply wp_bind, wp_read. rewrite bool_decide_eq_false_2 by done. apply wp_bind.
  unfold wp at 1. destruct (service_work NORMAL h) as [[w|e] h1]; [|done]. destruct Hnext as [Hnext Hf]. destruct (_ <? _)%Z; [apply wp_fail; split; [by eexists|done]|].
  destruct (_ <? _)%Z; [apply wp_fail; split; [by eexists|done]|]. done.
Qed.

(** More fuel changes nothing once there is enough. *)
Lemma drain_mono fuel fuel' work retired h : fuel ≤ fuel' → fst (drain fuel work retired h) ≠ Err GcOutOfFuel → drain fuel' work retired h = drain fuel work retired h.
Proof.
  revert fuel' work retired h. induction fuel as [|fuel IH]; intros fuel' work retired h Hle Hne; [done|]. destruct fuel' as [|fuel']; [lia|]. cbn [drain] in *. unfold bind, read in *.
  destruct (bool_decide _); [done|]. destruct (service_work NORMAL h) as [[w|e] h1]; [|done]. destruct (_ <? _)%Z; [done|]. destruct (_ <? _)%Z; [done|]. apply IH; [lia|done].
Qed.

(** ** Metadata maintenance *)
Lemma refines_size {T} (t : Table T) m : refines t m → (Z.of_nat (size m) <= 2 ^ 32)%Z.
Proof.
  intros Hr. assert (size m ≤ Z.to_nat (2 ^ 32)) as Hl; [|lia]. rewrite <- (length_seqZ 0 (2 ^ 32)), <- length_map_to_list, <- (length_fmap fst (map_to_list m)).
  apply submseteq_length, NoDup_submseteq; [apply NoDup_fst_map_to_list|]. intros id ([j x] & -> & Hj%elem_of_map_to_list)%list_elem_of_fmap. apply elem_of_seqZ.
  pose proof (rf_dom _ _ Hr j ltac:(by eexists)). cbn. lia.
Qed.
Lemma trim_metadata_spec E h pages l av rm dm Q : good h pages l av rm dm → phase (marking h) = Idle →
  (∀ h', good h' pages l av rm dm → phase (marking h') = Idle → headers (physical h') = headers (physical h) → payloads (physical h') = payloads (physical h) →
     heap_id h' = heap_id h → config h' = config h → Q true h') → wp E trim_metadata Q h.
Proof.
  intros [[Hb Hm] Ht] Hph HQ. unfold tri in Ht. rewrite Hph in Ht. destruct Ht as (Ha & Hpe & Hcl).
  unfold trim_metadata. apply wp_bind, check_spec; [unfold running; by rewrite Hph|]. apply wp_bind, wp_read. rewrite bool_decide_eq_true_2 by done. cbn [negb].
  apply wp_bind, wp_assert; [by apply bool_decide_eq_true_2|]. apply wp_bind, wp_physical, wp_modify, wp_bind, wp_roots, wp_modify, wp_bind, wp_read, wp_bind.
  unfold marking_trim. apply wp_bind, wp_read, wp_bind, wp_assert; [by apply bool_decide_eq_true_2|]. apply wp_bind, wp_assert; [by apply bool_decide_eq_true_2|].
  apply wp_modify, wp_bind, wp_physical, wp_modify, wp_ret.
  pose proof (co_refines _ _ _ _ (sg_core _ _ _ _ (ba_storage _ _ _ _ _ _ _ Hb))) as Hrf. pose proof (refines_trim _ _ Hrf) as Hrf'. pose proof (refines_size _ _ Hrf) as Hsize.
  set (m' := match shrink_target _ _ with Some _ => _ | None => _ end).
  assert (phase m' = Idle ∧ epoch m' = epoch (marking h) ∧ pending m' = [] ∧ (Z.of_nat (size pages) <= pending_capacity m')%Z) as (M1 & M2 & M3 & M4).
  { assert (page_count (set_allocations (trim (allocations (physical h))) (physical h)) = Z.of_nat (size pages)) as Hpc by (unfold page_count; cbn; by rewrite (rf_len _ _ Hrf')).
    pose proof (mk_capacity _ _ Hm) as Hcap. unfold m', shrink_target. cbn [marking set_roots set_physical roots physical]. rewrite Hpc. change u64_max with (2 ^ 64 - 1)%Z.
    destruct (Z.eqb_spec (Z.of_nat (size pages)) 0); [destruct (Z.eqb_spec (pending_capacity (marking h)) 0)|destruct (_ <? _)%Z]; unfold shrink_to; cbn; split_and!; try done; lia. }
  apply HQ; try done. split; [split|].
  - destruct Hb as [[[] ? ? ?] [] [] ? ? ? ?]. split; [split; [by split|done..]|by split|split; try done; by apply refines_trim|done|by apply roots_trim_ok|done|done].
  - destruct Hm as [N1 N2 N3 N4 N5 N6 N7 N8 N9]. split; cbn; rewrite ?M2, ?M3; try done; rewrite <- Hpe; done.
  - unfold tri. cbn [marking set_physical set_marking]. rewrite M1. split_and!; done.
Qed.

(** ** Safety of a step *)
Lemma step_spec (E : GcFailure → Heap → Prop) h pages l av rm dm allowance (Q : StepReport → Heap → Prop) : good h pages l av rm dm → running h → (0 <= allowance <= u64_max)%Z →
  (∀ e h', stopped h rm dm e h' → E e h') →
  (∀ report h' pages' l' av' rm' dm', progress h h' pages pages' l l' av' rm rm' dm dm' → (step_work report <= allowance)%Z → Q report h') → wp E (step allowance) Q h.
Proof.
  intros Hg Hrun Hal HE HQ. apply wp_bind, wp_reads, wp_bind. eapply service_work_spec; [exact Hg|exact Hrun|exact Hal|exact HE|]. intros work n h' pages' l' av' rm' dm' Hpr Hw.
  apply wp_bind, wp_read, wp_ret. eapply HQ; [exact Hpr|]. cbn. lia.
Qed.
(** C32: a collector step is transparent.  From a consistent heap in any phase, [step] with
    any allowance either answers — then the heap is consistent again, the work stays
    within the allowance, every reachable object has kept its header and its fields,
    every registration that is held and every layout that is held has survived unchanged,
    nothing new appeared, and a collection in progress has come strictly closer to its
    end — or it fails with a machine limit, the heap being intact and quarantined (or
    untouched).  It never panics and never reads storage that holds no object. *)
Theorem step_transparent h pages l av rm dm allowance : good h pages l av rm dm → running h → (0 <= allowance <= u64_max)%Z →
  match step allowance h with
  | (Ok report, h') => (step_work report <= allowance)%Z ∧ ∃ pages' l' av' rm' dm', good h' pages' l' av' rm' dm' ∧ running h' ∧ retained h h' rm rm' dm dm'
      ∧ (phase (marking h) ≠ Idle → less (mu h' pages' l' rm') (mu h pages l rm))
  | (Err e, h') => stopped h rm dm e h'
  end.
Proof.
  intros Hg Hrun Hal. assert (wp (stopped h rm dm) (step allowance) (λ report h', (step_work report <= allowance)%Z ∧ ∃ pages' l' av' rm' dm', progress h h' pages pages' l l' av' rm rm' dm dm') h) as Hwp
    by (eapply step_spec; eauto 10).
  unfold wp in Hwp. destruct (step allowance h) as [[report|e] h']; [|done]. destruct Hwp as [Hw (pages' & l' & av' & rm' & dm' & [G R T X L])]. split; [done|]. by exists pages', l', av', rm', dm'.
Qed.

(** ** A full collection *)
Lemma collect_spec h pages l av rm dm : good h pages l av rm dm → running h → ∃ fuel0, ∀ fuel, fuel0 ≤ fuel →
  wp (λ e h', limited e ∧ faulty h h' rm dm) (collect fuel)
    (λ _ h', phase (marking h') = Idle ∧ ∃ pages' l' av' rm' dm', good h' pages' l' av' rm' dm' ∧ retained h h' rm rm' dm dm' ∧ tracked h' pages' rm') h.
Proof.
  intros Hg Hrun.
  assert (∀ h0 pages0 l0 av0 rm0 dm0 c, good h0 pages0 l0 av0 rm0 dm0 → phase (marking h0) = Idle → retained h h0 rm rm0 dm dm0 → ∃ fuel0, ∀ fuel, fuel0 ≤ fuel →
    wp (λ e h', limited e ∧ faulty h h' rm dm)
      (let! w := service_work NORMAL in if (u64_max <? fst c + fst w)%Z then fail (GcLimit "collection work")
       else let! c := drain fuel (fst c + fst w) (snd c + Z.of_nat (snd w)) in let! trimmed := trim_metadata in assert trimmed ;;!
         let! h1 := read in ret {| report_cycles := cycles (marking h1) - cycles (marking h); report_work := fst c; report_retired := snd c |})
      (λ _ h', phase (marking h') = Idle ∧ ∃ pages' l' av' rm' dm', good h' pages' l' av' rm' dm' ∧ retained h h' rm rm' dm dm' ∧ tracked h' pages' rm') h0) as Hfresh.
  { intros h0 pages0 l0 av0 rm0 dm0 c Hg0 Hi0 Hrt0. assert (running h0) as Hrun0 by (unfold running; by rewrite Hi0).
    pose proof (service_work_total _ _ _ _ _ _ Hg0 Hrun0) as Hsw.
    assert (∀ h1, faulty h0 h1 rm0 dm0 → faulty h h1 rm dm) as Hfault.
    { intros h1 (p1 & l1 & a1 & r1 & d1 & Hsh & Hr1). exists p1, l1, a1, r1, d1. split; [done|]. by eapply retained_trans. }
    destruct (service_work NORMAL h0) as [[w|e] h1] eqn:Hw.
    2: { exists 0. intros fuel _. apply wp_bind. unfold wp. rewrite Hw. destruct Hsw. auto. }
    destruct Hsw as (pages1 & l1 & av1 & rm1 & dm1 & [G R T X L]).
    destruct (drain_spec h1 pages1 l1 av1 rm1 dm1 (fst c + fst w)%Z (snd c + Z.of_nat (snd w))%Z G R) as [fuel0 Hdr]. exists fuel0. intros fuel Hle. apply wp_bind. unfold wp at 1. rewrite Hw.
    assert (retained h h1 rm rm1 dm dm1) as Hrt1 by (by eapply retained_trans).
    destruct (_ <? _)%Z. { apply wp_fail. split; [by eexists|]. exists pages1, l1, av1, rm1, dm1. split; [apply G|done]. }
    apply wp_bind. eapply wp_error; [eapply wp_mono; [apply (Hdr fuel Hle)|]|].
    - intros c' h2 (Hi2 & pages2 & l2 & av2 & rm2 & dm2 & G2 & T2 & X2). apply wp_bind. eapply trim_metadata_spec; [exact G2|exact Hi2|]. intros h3 G3 Hi3 E1 E2 E3 E4.
      apply wp_bind, wp_assert; [done|]. apply wp_bind, wp_read, wp_ret. split; [done|]. exists pages2, l2, av2, rm2, dm2. split; [done|].
      assert (retained h2 h3 rm2 rm2 dm2 dm2) as Hr3 by (split; rewrite ?E1, ?E2; done). split.
      + eapply retained_trans; [exact Hrt1|]. by eapply retained_trans.
      + assert (tracked h2 pages2 rm2) as Htr by (apply X2, X; by left). unfold tracked in *. rewrite Hi2 in Htr. rewrite Hi3. intros x Hx.
        apply (retained_reachable _ _ _ _ _ _ _ Hr3), Htr. unfold present in *. by rewrite <- E1.
    - intros e h2 (Hl & p2 & l2 & a2 & r2 & d2 & Hsh & Hr2). split; [done|]. exists p2, l2, a2, r2, d2. split; [done|]. by eapply retained_trans. }
  destruct (decide (phase (marking h) = Idle)) as [Hidle|Hbusy].
  - destruct (Hfresh h pages l av rm dm (0, 0)%Z Hg Hidle (retained_refl _ _ _)) as [fuel0 Hf]. exists fuel0. intros fuel Hle. unfold collect. apply wp_bind, check_spec; [done|]. apply wp_bind, wp_reads, wp_bind, wp_read, wp_bind.
    rewrite bool_decide_eq_true_2 by done. apply wp_ret. by apply Hf.
  - destruct (drain_spec h pages l av rm dm 0%Z 0%Z Hg Hrun) as [fuel1 Hdr]. pose proof (Hdr fuel1 (le_n _)) as H1. unfold wp in H1.
    assert (∀ fuel, fuel1 ≤ fuel → drain fuel 0 0 h = drain fuel1 0 0 h) as Hmono.
    { intros fuel Hle. apply drain_mono; [done|]. intros Hout. destruct (drain fuel1 0 0 h) as [[?|e] ?]; [done|]. injection Hout as ->. by destruct H1 as [[why ?] _]. }
    destruct (drain fuel1 0 0 h) as [[c|e] h1] eqn:Hd.
    + destruct H1 as (Hi1 & pages1 & l1 & av1 & rm1 & dm1 & G1 & T1 & _). destruct (Hfresh h1 pages1 l1 av1 rm1 dm1 c G1 Hi1 T1) as [fuel0 Hf]. exists (fuel0 + fuel1). intros fuel Hle.
      unfold collect. apply wp_bind, check_spec; [done|]. apply wp_bind, wp_reads, wp_bind, wp_read, wp_bind. rewrite bool_decide_eq_false_2 by done. unfold wp at 1. rewrite (Hmono fuel) by lia. apply Hf. lia.
    + exists fuel1. intros fuel Hle. unfold collect. apply wp_bind, check_spec; [done|]. apply wp_bind, wp_reads, wp_bind, wp_read, wp_bind. rewrite bool_decide_eq_false_2 by done. unfold wp at 1. by rewrite (Hmono fuel).
Qed.

(** C33: a full collection ends and is exact.  From a consistent heap in any phase there is
    a bound on the number of service calls beyond which [collect] always returns; it
    either stops at a machine limit with the heap intact, or answers with an idle heap
    that holds exactly the objects that were reachable when it was called, each with the
    header and the fields it had. *)
Theorem collect_exact h pages l av rm dm : good h pages l av rm dm → running h → ∃ fuel0, ∀ fuel, fuel0 ≤ fuel →
  match collect fuel h with
  | (Ok _, h') => phase (marking h') = Idle ∧ (∀ x, present (physical h') x ↔ reachable (physical h) rm x)
      ∧ (∀ x, reachable (physical h) rm x → headers (physical h') !! x = headers (physical h) !! x ∧ payloads (physical h') !! x = payloads (physical h) !! x)
      ∧ ∃ pages' l' av' rm' dm', good h' pages' l' av' rm' dm' ∧ retained h h' rm rm' dm dm'
  | (Err e, h') => limited e ∧ faulty h h' rm dm
  end.
Proof.
  intros Hg Hrun. destruct (collect_spec _ _ _ _ _ _ Hg Hrun) as [fuel0 Hc]. exists fuel0. intros fuel Hle. specialize (Hc fuel Hle). unfold wp in Hc.
  destruct (collect fuel h) as [[rep|e] h']; [|done]. destruct Hc as (Hi & pages' & l' & av' & rm' & dm' & [Hsh Ht] & Hrt & Htr). unfold tracked in Htr. unfold tri in Ht. rewrite Hi in Htr, Ht.
  pose proof Ht as (_ & _ & Hcl). split; [done|]. split; [|split; [apply Hrt|]].
  - intros x. rewrite <- (retained_reachable _ _ _ _ _ _ x Hrt). split; [apply Htr|]. induction 1 as [t Hl|r t Hr IH He]; [by apply (proj2 Hcl)|]. exact (proj1 Hcl r t IH He).
  - exists pages', l', av', rm', dm'. split; [|done]. split; [done|]. unfold tri. by rewrite Hi.
Qed.

(** ** A new heap is consistent *)
Lemma heap_new_good id c h : heap_new id c = Some h → (0 <= max_indirect_bytes c)%Z → good h ∅ [] (λ _, []) ∅ ∅ ∧ phase (marking h) = Idle.
Proof.
  unfold heap_new. destruct (pacing_new _) as [p|]; [|done]. cbn. intros [= <-] Hi. split; [|done]. split; [split|].
  - split; [|..].
    + split; [|..].
      * split; cbn [allocations empty_physical first_active available_heads bytes physical]; [apply refines_empty|intros *; by rewrite lookup_empty|intros *; by rewrite lookup_empty| |by intros j ?%elem_of_nil|done| | |done].
        -- split; [done|apply base.NoDup_nil_2|intros i x Hx; by rewrite lookup_nil in Hx].
        -- intros g Hg. split; [by rewrite lookup_replicate_2|apply base.NoDup_nil_2|intros i x Hx; by rewrite lookup_nil in Hx].
        -- by intros g i ?%elem_of_nil.
      * intros j [x Hx]. by rewrite lookup_empty in Hx.
      * intros j q g Hq. by rewrite lookup_empty in Hq.
      * intros j q Hq. by rewrite lookup_empty in Hq.
    + split; cbn [physical headers empty_physical objects]; [intros r hd Hr; by rewrite lookup_empty in Hr|intros j q s Hq; by rewrite lookup_empty in Hq..|by intros j s ?%elem_of_nil|apply base.NoDup_nil_2|by rewrite map_size_empty].
    + split; cbn [physical descriptors desc_slots desc_active headers empty_physical no_descriptors]; [apply refines_empty|apply base.NoDup_nil_2| |intros j e He; by rewrite lookup_empty in He|intros i j e e' He; by rewrite lookup_empty in He|intros r hd Hr; by rewrite lookup_empty in Hr].
      intros j. rewrite elem_of_nil, lookup_empty. split; [done|by intros [? ?]].
    + intros r hd e Hr. cbn [physical headers empty_physical] in Hr. by rewrite lookup_empty in Hr.
    + apply roots_new_ok.
    + done.
    + done.
  - split; cbn [marking epoch pending pending_capacity new_marking]; [intros j q Hq; by rewrite lookup_empty in Hq|intros j q s Hq; by rewrite lookup_empty in Hq..|intros j q Hq; by rewrite lookup_empty in Hq|intros j q Hq; by rewrite lookup_empty in Hq|apply base.NoDup_nil_2|by intros j ?%elem_of_nil|by rewrite map_size_empty|done].
  - unfold tri. cbn. split_and!; [done|done|]. split; cbn.
    + intros r t [hd Hr]. cbn [headers empty_physical] in Hr. by rewrite lookup_empty in Hr.
    + intros t (s & e & He & _). by rewrite lookup_empty in He.
Qed.

Definition sample_config : HeapConfig :=
  {| config_pacing := {| min_growth_bytes := 1024; growth_percent := 100; assist_multiplier := 2 |};
     max_backing_bytes := 65536; max_indirect_bytes := 4096; max_objects := 100; max_roots := 10 |}.
Definition sample_heap : Heap := default (set_pacing {| pacing_config := config_pacing sample_config; threshold := 0 |}
  {| heap_id := 0; config := sample_config; physical := empty_physical; roots := roots_new 0; marking := new_marking; active_scan := None; scan_next := 0;
     ledger := no_ledger; root_cursor := no_root_cursor; sweep_stage := StagePhysical; pacing := {| pacing_config := config_pacing sample_config; threshold := 0 |} |})
  (heap_new 1 sample_config).
Lemma sample_good : good sample_heap ∅ [] (λ _, []) ∅ ∅ ∧ running sample_heap.
Proof. destruct (heap_new_good 1 sample_config sample_heap) as [Hg Hi]; [done|done|]. split; [done|]. unfold running. by rewrite Hi. Qed.

Lemma step_transparent_witness : match step 64 sample_heap with
  | (Ok report, h') => (step_work report <= 64)%Z ∧ ∃ pages' l' av' rm' dm', good h' pages' l' av' rm' dm' ∧ running h' ∧ retained sample_heap h' ∅ rm' ∅ dm'
      ∧ (phase (marking sample_heap) ≠ Idle → less (mu h' pages' l' rm') (mu sample_heap ∅ [] ∅))
  | (Err e, h') => stopped sample_heap ∅ ∅ e h'
  end.
Proof. destruct sample_good as [Hg Hr]. apply (step_transparent sample_heap ∅ [] (λ _, []) ∅ ∅ 64 Hg Hr). vm_compute. by split. Defined.

Lemma collect_exact_witness : ∃ fuel0, ∀ fuel, fuel0 ≤ fuel →
  match collect fuel sample_heap with
  | (Ok _, h') => phase (marking h') = Idle ∧ (∀ x, present (physical h') x ↔ reachable (physical sample_heap) ∅ x)
      ∧ (∀ x, reachable (physical sample_heap) ∅ x → headers (physical h') !! x = headers (physical sample_heap) !! x ∧ payloads (physical h') !! x = payloads (physical sample_heap) !! x)
      ∧ ∃ pages' l' av' rm' dm', good h' pages' l' av' rm' dm' ∧ retained sample_heap h' ∅ rm' ∅ dm'
  | (Err e, h') => limited e ∧ faulty sample_heap h' ∅ ∅
  end.
Proof. destruct sample_good as [Hg Hr]. exact (collect_exact sample_heap ∅ [] (λ _, []) ∅ ∅ Hg Hr). Defined.
