(* ===== verification/GcAllocProps.v ===== *)
(** * Managed heap: allocation keeps the invariant

    A new object takes a free slot of an existing page or the first slot of a fresh one,
    holds no references, and is black while a collection is under way. *)
From stdpp Require Import gmap fin_maps.
From S2P Require Import Prelude SlotBits GcBase GcTable GcPage GcColors GcDynamic GcHeap GcStorage GcSlots GcRoots GcRootsProps GcMark GcService GcMutator GcInv GcMarkProps GcMeasure GcScanProps GcSweepProps GcSweepLoop GcCollect.
Open Scope nat_scope.

(** ** Pages after one allocation *)
Definition hit (id : Z) (s : nat) (j : Z) (x : nat) : bool := bool_decide (j = id) && bool_decide (x = s).
Lemma hit_true id s j x : hit id s j x = true ↔ j = id ∧ x = s.
Proof. unfold hit. by rewrite andb_true_iff, !bool_decide_eq_true. Qed.
Lemma hit_false id s j x : (j, x) ≠ (id, s) → hit id s j x = false.
Proof. intros Hne. destruct (hit id s j x) eqn:E; [|done]. apply hit_true in E as [-> ->]. done. Qed.

(** [q] is [q0], except that slot [s] of page [id] holds a new object, black if [b]. *)
Record aged (e : Z) (b : bool) (id : Z) (s : nat) (j : Z) (q0 q : Page) : Prop := {
  ag_slot_of : ∀ r, slot_of q r = slot_of q0 r; ag_pointer : ∀ x, pointer q x = pointer q0 x;
  ag_occ : ∀ x, occ q x = hit id s j x || occ q0 x; ag_pending : ∀ x, pending_slot q x = pending_slot q0 x;
  ag_disc : ∀ x, discb (marks q) e x = b && hit id s j x || discb (marks q0) e x;
  ag_black : ∀ x, blackb (marks q) e x = b && hit id s j x || blackb (marks q0) e x;
  ag_queued : queued (marks q) = queued (marks q0);
  ag_epoch : mark_epoch (marks q) = mark_epoch (marks q0) ∨ mark_epoch (marks q) = e
}.
(** A page nothing was ever put on. *)
Record blank (e : Z) (q : Page) : Prop := {
  bl_occ : ∀ x, occ q x = false; bl_pending : ∀ x, pending_slot q x = false; bl_disc : ∀ x, discb (marks q) e x = false;
  bl_black : ∀ x, blackb (marks q) e x = false; bl_queued : queued (marks q) = false; bl_epoch : (mark_epoch (marks q) <= e)%Z
}.
Record grown (e : Z) (b : bool) (id : Z) (s : nat) (r : ObjectRef) (pages pages' : gmap Z Page) : Prop := {
  gw_forth : ∀ j q0, pages !! j = Some q0 → ∃ q, pages' !! j = Some q ∧ aged e b id s j q0 q;
  gw_back : ∀ j q, pages' !! j = Some q → ∃ q0, aged e b id s j q0 q ∧ (pages !! j = Some q0 ∨ j = id ∧ pages !! id = None ∧ blank e q0);
  gw_slot : ∃ q, pages' !! id = Some q ∧ slot_of q r = Some s;
  gw_free : ∀ q0, pages !! id = Some q0 → occ q0 s = false ∧ pending_slot q0 s = false
}.
Definition more_use (d : Z) (dm : gmap Z DescriptorEntry) : gmap Z DescriptorEntry := alter (λ e, with_uses (uses e + 1) e) d dm.

Section Grown.
Context (h h' : Heap) (pages pages' : gmap Z Page) (l l' : list Z) (av av' : nat → list Z) (rm : gmap Z RootSlot) (dm : gmap Z DescriptorEntry).
Context (id : Z) (s : nat) (r : ObjectRef) (d : Z) (pl : gmap Z FieldValue).
Notation e := (epoch (marking h)).
Notation b := (negb (bool_decide (phase (marking h) = Idle))).
Context (Hg : good h pages l av rm dm) (Hgw : grown e b id s r pages pages').
Context (Hst : storage (physical h') pages' l' av').
Context (Hhd : headers (physical h') = <[r := {| hdr_descriptor := d; hdr_allocation := id |}]> (headers (physical h))).
Context (Hpl : payloads (physical h') = <[r := pl]> (payloads (physical h))) (Hnull : ∀ off t, pl !! off = Some (VReference t) → t = None).
Context (Hl : l' = l ∨ l' = id :: l ∧ pages !! id = None).

Lemma grown_absent : headers (physical h) !! r = None.
Proof.
  destruct (headers (physical h) !! r) as [hd|] eqn:Hr; [|done]. exfalso. destruct Hg as [[Hb _] _].
  destruct (ct_header _ _ _ (ba_contents _ _ _ _ _ _ _ Hb) r hd Hr) as (q0 & x & Hq0 & Hx & [Ho|Hin]); [|by apply elem_of_nil in Hin].
  destruct (gw_forth _ _ _ _ _ _ _ Hgw _ _ Hq0) as (q & Hq & A), (gw_slot _ _ _ _ _ _ _ Hgw) as (q' & Hq' & Hs').
  rewrite <- (ag_slot_of _ _ _ _ _ _ _ A) in Hx. destruct (slot_owner _ _ _ _ _ _ _ _ _ _ _ (sg_core _ _ _ _ Hst) Hq Hq' Hx Hs') as [E ->].
  rewrite E in Hq0. by destruct (gw_free _ _ _ _ _ _ _ Hgw _ Hq0) as [Hn _]; rewrite Hn in Ho.
Qed.
Lemma grown_slot_of j q x : pages' !! j = Some q → slot_of q r = Some x → j = id ∧ x = s.
Proof.
  intros Hq Hx. destruct (gw_slot _ _ _ _ _ _ _ Hgw) as (q' & Hq' & Hs'). by destruct (slot_owner _ _ _ _ _ _ _ _ _ _ _ (sg_core _ _ _ _ Hst) Hq Hq' Hx Hs').
Qed.
Lemma grown_colour (f : PageMarks → Z → nat → bool) y : (∀ j q0 q, aged e b id s j q0 q → ∀ x, f (marks q) e x = b && hit id s j x || f (marks q0) e x) →
  (∀ q, blank e q → ∀ x, f (marks q) e x = false) →
  (∃ i q k, pages' !! i = Some q ∧ slot_of q y = Some k ∧ f (marks q) e k = true)
  ↔ (∃ i q k, pages !! i = Some q ∧ slot_of q y = Some k ∧ f (marks q) e k = true) ∨ (b = true ∧ y = r).
Proof.
  intros Hf Hbl. split.
  - intros (i & q & k & Hq & Hk & Hx). destruct (gw_back _ _ _ _ _ _ _ Hgw _ _ Hq) as (q0 & A & Hor). rewrite (Hf _ _ _ A) in Hx. apply orb_true_iff in Hx as [[Hb [-> ->]%hit_true]%andb_true_iff|Hx].
    + right. split; [done|]. destruct (gw_slot _ _ _ _ _ _ _ Hgw) as (q' & Hq' & Hs'). assert (q' = q) as -> by congruence. by eapply slot_of_inj.
    + left. destruct Hor as [Hq0|(_ & _ & Hb)]; [|by rewrite (Hbl _ Hb) in Hx]. exists i, q0, k. by rewrite <- (ag_slot_of _ _ _ _ _ _ _ A).
  - intros [(i & q0 & k & Hq0 & Hk & Hx)|[Hb ->]].
    + destruct (gw_forth _ _ _ _ _ _ _ Hgw _ _ Hq0) as (q & Hq & A). exists i, q, k. rewrite (ag_slot_of _ _ _ _ _ _ _ A), (Hf _ _ _ A), Hx, orb_true_r. done.
    + destruct (gw_slot _ _ _ _ _ _ _ Hgw) as (q & Hq & Hs'). destruct (gw_back _ _ _ _ _ _ _ Hgw _ _ Hq) as (q0 & A & _). exists id, q, s.
      rewrite (Hf _ _ _ A), Hb, (proj2 (hit_true _ _ _ _)) by done. done.
Qed.
Lemma grown_disc y : disc pages' e y ↔ disc pages e y ∨ (b = true ∧ y = r).
Proof. apply grown_colour; [by intros j q0 q []|by intros q []]. Qed.
Lemma grown_blk y : blk pages' e y ↔ blk pages e y ∨ (b = true ∧ y = r).
Proof. apply grown_colour; [by intros j q0 q []|by intros q []]. Qed.
Lemma grown_edge x t : edge (physical h') x t → x ≠ r ∧ edge (physical h) x t.
Proof.
  intros (pl' & off & Hx & Hoff). rewrite Hpl in Hx. apply lookup_insert_Some in Hx as [[<- <-]|[Hne Hx]]; [by specialize (Hnull off (Some t) Hoff)|].
  split; [done|]. by exists pl', off.
Qed.
Lemma grown_present x : present (physical h') x ↔ present (physical h) x ∨ x = r.
Proof. unfold present. rewrite Hhd. destruct (decide (x = r)) as [->|Hne]; [rewrite lookup_insert_eq; naive_solver|]. rewrite lookup_insert_ne by done. naive_solver. Qed.
Lemma grown_contents : objects (physical h') = (objects (physical h) + 1)%Z → contents (physical h') pages' [].
Proof.
  intros Hob. pose proof grown_absent as Hno. destruct Hg as [[Hb _] _]. destruct (ba_contents _ _ _ _ _ _ _ Hb) as [C1 C2 C3 _ _ C6]. split.
  - intros x hd Hx. rewrite Hhd in Hx. apply lookup_insert_Some in Hx as [[<- <-]|[Hne Hx]].
    + destruct (gw_slot _ _ _ _ _ _ _ Hgw) as (q & Hq & Hs'). exists q, s. cbn. split_and!; [done|done|]. left. destruct (gw_back _ _ _ _ _ _ _ Hgw _ _ Hq) as (q0 & A & _).
      rewrite (ag_occ _ _ _ _ _ _ _ A). by rewrite (proj2 (hit_true _ _ _ _)).
    + destruct (C1 x hd Hx) as (q0 & k & Hq0 & Hk & [Ho|Hin]); [|by apply elem_of_nil in Hin]. destruct (gw_forth _ _ _ _ _ _ _ Hgw _ _ Hq0) as (q & Hq & A).
      exists q, k. rewrite (ag_slot_of _ _ _ _ _ _ _ A), (ag_occ _ _ _ _ _ _ _ A), Ho, orb_true_r. auto.
  - intros j q x Hq Ho. destruct (gw_back _ _ _ _ _ _ _ Hgw _ _ Hq) as (q0 & A & Hor). rewrite (ag_occ _ _ _ _ _ _ _ A) in Ho. rewrite Hhd.
    apply orb_true_iff in Ho as [[-> ->]%hit_true|Ho].
    + destruct (gw_slot _ _ _ _ _ _ _ Hgw) as (q' & Hq' & Hs'). assert (q' = q) as -> by congruence. exists r. eexists. split; [by apply pointer_slot_of|]. by rewrite lookup_insert_eq.
    + destruct Hor as [Hq0|(_ & _ & Hbl)]; [|by rewrite (bl_occ _ _ Hbl) in Ho]. destruct (C2 j q0 x Hq0 Ho) as (y & hd & Hy & Hh & Ha). exists y, hd. rewrite (ag_pointer _ _ _ _ _ _ _ A).
      split; [done|]. rewrite lookup_insert_ne; [done|]. intros <-. congruence.
  - intros j q x Hq Hu. destruct (gw_back _ _ _ _ _ _ _ Hgw _ _ Hq) as (q0 & A & Hor). rewrite (ag_pending _ _ _ _ _ _ _ A) in Hu.
    destruct Hor as [Hq0|(_ & _ & Hbl)]; [by eapply C3|by rewrite (bl_pending _ _ Hbl) in Hu].
  - by intros j x ?%elem_of_nil.
  - apply base.NoDup_nil_2.
  - rewrite Hob, Hhd, map_size_insert_None by done. rewrite C6. cbn. lia.
Qed.
Lemma grown_marks m' : epoch m' = e → pending m' = pending (marking h) → (Z.of_nat (size pages') <= pending_capacity m')%Z → marks_ok m' pages'.
Proof.
  intros He Hp Hc. destruct Hg as [[_ Hm] _]. destruct Hm as [M1 M2 M3 M4 M5 M6 M7 M8 M9]. split; rewrite ?He, ?Hp; try done.
  - intros j q Hq. destruct (gw_back _ _ _ _ _ _ _ Hgw _ _ Hq) as (q0 & A & Hor). destruct (ag_epoch _ _ _ _ _ _ _ A) as [->| ->]; [|done]. destruct Hor as [Hq0|(_ & _ & Hbl)]; [by eapply M1|apply Hbl].
  - intros j q x Hq. destruct (gw_back _ _ _ _ _ _ _ Hgw _ _ Hq) as (q0 & A & Hor). rewrite (ag_black _ _ _ _ _ _ _ A), (ag_disc _ _ _ _ _ _ _ A). intros [->|Hx]%orb_true_iff; [done|].
    apply orb_true_iff. right. destruct Hor as [Hq0|(_ & _ & Hbl)]; [by eapply M2|by rewrite (bl_black _ _ Hbl) in Hx].
  - intros j q x Hq. destruct (gw_back _ _ _ _ _ _ _ Hgw _ _ Hq) as (q0 & A & Hor). rewrite (ag_occ _ _ _ _ _ _ _ A), (ag_disc _ _ _ _ _ _ _ A). intros [[_ ->]%andb_true_iff|Hx]%orb_true_iff; [done|].
    apply orb_true_iff. right. destruct Hor as [Hq0|(_ & _ & Hbl)]; [by eapply M3|by rewrite (bl_disc _ _ Hbl) in Hx].
  - intros j q Hq. destruct (gw_back _ _ _ _ _ _ _ Hgw _ _ Hq) as (q0 & A & Hor). rewrite (ag_queued _ _ _ _ _ _ _ A). destruct Hor as [Hq0|(-> & Hn & Hbl)]; [by apply M4|].
    rewrite (bl_queued _ _ Hbl). split; [done|]. intros Hin%M7. rewrite Hn in Hin. by destruct Hin.
  - intros j q Hq. destruct (gw_back _ _ _ _ _ _ _ Hgw _ _ Hq) as (q0 & A & Hor). rewrite (ag_queued _ _ _ _ _ _ _ A). intros Hqd. unfold reset_needed.
    destruct (ag_epoch _ _ _ _ _ _ _ A) as [->| ->]; [|by rewrite Z.eqb_refl]. destruct Hor as [Hq0|(_ & _ & Hbl)]; [by apply (M5 j)|by rewrite (bl_queued _ _ Hbl) in Hqd].
  - intros j [q0 Hq0]%M7. destruct (gw_forth _ _ _ _ _ _ _ Hgw _ _ Hq0) as (q & Hq & _). by eexists.
Qed.
Lemma grown_gray m' sc : epoch m' = e → pending m' = pending (marking h) → gray_ok (marking h) pages sc → gray_ok m' pages' sc.
Proof.
  intros He Hp Hgr j q x Hq. destruct (gw_back _ _ _ _ _ _ _ Hgw _ _ Hq) as (q0 & A & Hor). rewrite He, Hp. unfold grayb. rewrite (ag_black _ _ _ _ _ _ _ A), (ag_disc _ _ _ _ _ _ _ A).
  destruct (b && hit id s j x); cbn [orb negb andb]; [done|]. intros Hx. destruct Hor as [Hq0|(_ & _ & Hbl)]; [|by rewrite (bl_disc _ _ Hbl) in Hx].
  destruct (Hgr j q0 x Hq0 Hx) as [?|(a & -> & Ha)]; [by left|right]. exists a. split; [done|]. by rewrite (ag_slot_of _ _ _ _ _ _ _ A).
Qed.
Lemma grown_clean j : b = true → clean pages e j → clean pages' e j.
Proof.
  intros Hb Hc q x Hq. destruct (gw_back _ _ _ _ _ _ _ Hgw _ _ Hq) as (q0 & A & Hor). rewrite (ag_occ _ _ _ _ _ _ _ A), (ag_black _ _ _ _ _ _ _ A), Hb. intros [->|Ho]%orb_true_iff; [done|].
  apply orb_true_iff. right. destruct Hor as [Hq0|(_ & _ & Hbl)]; [by eapply Hc|by rewrite (bl_occ _ _ Hbl) in Ho].
Qed.
Lemma grown_swept : b = true → sweep_stage h' = sweep_stage h → cursor (physical h') = cursor (physical h) → epoch (marking h') = e → roots h' = roots h →
  desc_active (descriptors (physical h')) = desc_active (descriptors (physical h)) → swept h pages l → swept h' pages' l'.
Proof.
  intros Hb E1 E2 E3 E4 E5. unfold swept. rewrite E1, E2, E3, E4, E5. destruct (sweep_stage h) as [|n|n].
  - intros (k & Hk & Hcl & Hpart). assert (∀ i pg x, l !! k = Some i → pages' !! i = Some pg → x < cursor_slot (cursor (physical h)) → occ pg x = true → blackb (marks pg) e x = true) as Hpart'.
    { intros i q x Hi Hq Hx. destruct (gw_back _ _ _ _ _ _ _ Hgw _ _ Hq) as (q0 & A & Hor). rewrite (ag_occ _ _ _ _ _ _ _ A), (ag_black _ _ _ _ _ _ _ A), Hb. intros [->|Ho]%orb_true_iff; [done|].
      apply orb_true_iff. right. destruct Hor as [Hq0|(_ & _ & Hbl)]; [by eapply Hpart|by rewrite (bl_occ _ _ Hbl) in Ho]. }
    destruct Hl as [->|[-> Hn]].
    + exists k. split; [done|]. split; [|done]. intros j i Hj Hi. by apply grown_clean; [|eapply Hcl].
    + exists (S k). split; [done|]. split; [|done]. intros [|j] i Hj Hi; cbn in Hi.
      * injection Hi as <-. apply grown_clean; [done|]. intros q x Hq. congruence.
      * apply grown_clean; [done|]. eapply Hcl; [|done]. lia.
  - intros [Hc ?]. split; [|done]. intros j. by apply grown_clean.
  - intros [Hc ?]. split; [|done]. intros j. by apply grown_clean.
Qed.
End Grown.

(** ** Use counts and initial payloads *)
Lemma more_use_lookup d dm id : more_use d dm !! id = (λ e, if decide (id = d) then with_uses (uses e + 1) e else e) <$> dm !! id.
Proof. unfold more_use. destruct (decide (id = d)) as [->|]; [by rewrite lookup_alter_eq|]. rewrite lookup_alter_ne by done. by destruct (dm !! id). Qed.
Lemma more_use_Some d dm id e : more_use d dm !! id = Some e → ∃ e0, dm !! id = Some e0 ∧ entry_descriptor e = entry_descriptor e0 ∧ handles e = handles e0
  ∧ uses e = (uses e0 + if decide (d = id) then 1 else 0)%Z.
Proof.
  rewrite more_use_lookup. intros (e0 & He0 & ->)%fmap_Some. exists e0. split; [done|]. destruct (decide (id = d)) as [->|].
  - by rewrite decide_True.
  - rewrite decide_False by congruence. split_and!; try done. lia.
Qed.
Lemma more_use_entry d dm id e0 : dm !! id = Some e0 → ∃ e, more_use d dm !! id = Some e ∧ entry_descriptor e = entry_descriptor e0 ∧ handles e = handles e0.
Proof. intros He. rewrite more_use_lookup, He. cbn. eexists. split; [done|]. by case_decide. Qed.
Lemma uses_of_insert hs r hd id : hs !! r = None → uses_of (<[r := hd]> hs) id = (uses_of hs id + if decide (hdr_descriptor hd = id) then 1 else 0)%Z.
Proof.
  intros Hr. unfold uses_of. rewrite map_filter_insert. cbn [snd]. case_decide as Hd.
  - rewrite map_size_insert_None; [lia|]. apply map_lookup_filter_None. by left.
  - rewrite (delete_id hs) by done. lia.
Qed.
Lemma uses_of_size hs id : (uses_of hs id <= Z.of_nat (size hs))%Z.
Proof. unfold uses_of. apply inj_le, map_size_filter_le || (apply inj_le; rewrite <- !size_dom; apply subseteq_size, dom_filter_subseteq). Qed.

Lemma descriptor_retain_spec E d hs dm r hd Q : registry d hs dm → is_Some (dm !! hdr_descriptor hd) → hs !! r = None → (Z.of_nat (size hs) < u64_max)%Z →
  (∀ t, registry (set_desc_slots t d) (<[r := hd]> hs) (more_use (hdr_descriptor hd) dm) → Q tt (set_desc_slots t d)) → wp E (descriptor_retain (hdr_descriptor hd)) Q d.
Proof.
  intros [Hrf Hnd Hac Hen Hid Hhs] [e He] Hr Hsz HQ. unfold descriptor_retain. apply wp_bind, wp_read, wp_bind. eapply wp_some.
  { rewrite (rf_get _ _ Hrf); [exact He|]. apply (rf_dom _ _ Hrf). by eexists. }
  destruct (Hen _ _ He) as (_ & _ & _ & Hu). pose proof (uses_of_size hs (hdr_descriptor hd)). destruct (Z.ltb_spec u64_max (uses e + 1)); [lia|]. apply wp_write, HQ.
  assert (more_use (hdr_descriptor hd) dm = alter (with_uses (uses e + 1)) (hdr_descriptor hd) dm) as Heq.
  { apply map_eq. intros j. rewrite more_use_lookup. destruct (decide (j = hdr_descriptor hd)) as [->|]; [by rewrite lookup_alter_eq, He|]. rewrite lookup_alter_ne by done. by destruct (dm !! j). }
  split; cbn.
  - rewrite Heq. apply refines_update; [done|]. apply (rf_dom _ _ Hrf). by eexists.
  - done.
  - intros id. rewrite Hac, more_use_lookup. by rewrite fmap_is_Some.
  - intros id x Hx. apply more_use_Some in Hx as (x0 & Hx0 & E1 & _ & E2). rewrite E1, E2, (uses_of_insert _ _ _ _ Hr). destruct (Hen _ _ Hx0) as (? & ? & ? & ->). done.
  - intros i j x y Hx Hy. apply more_use_Some in Hx as (x0 & Hx0 & -> & _), Hy as (y0 & Hy0 & -> & _). by apply Hid.
  - intros x hx [[<- <-]|[_ Hx]]%lookup_insert_Some; rewrite more_use_lookup, fmap_is_Some; [by eexists|by eapply Hhs].
Qed.

(** Fields are apart, so their offsets are distinct. *)
Lemma shape_offsets kinds shape i j f g : shape_ok kinds shape → shape_fields shape !! i = Some f → shape_fields shape !! j = Some g → field_offset f = field_offset g → i = j.
Proof.
  intros Hs Hi Hj Heq. destruct (decide (i = j)) as [|Hne]; [done|]. exfalso. pose proof (sh_apart _ _ Hs i j f g Hi Hj Hne) as Ha. unfold apart in Ha.
  destruct (fsize_cases (field_kind f)) as [?|[?|[?|[?|?]]]], (fsize_cases (field_kind g)) as [?|[?|[?|[?|?]]]]; lia.
Qed.
Lemma initial_lookup kinds shape i f : shape_ok kinds shape → shape_fields shape !! i = Some f →
  initial_payload shape !! field_offset f = Some (if bool_decide (field_kind f = FReference) then VReference None else VScalar 0).
Proof.
  intros Hs Hf. unfold initial_payload. apply elem_of_list_to_map_1.
  - apply list.NoDup_alt. intros a b x. rewrite !list_lookup_fmap. intros (p & (g & Hg & ->)%fmap_Some & ->)%fmap_Some (p' & (g' & Hg' & ->)%fmap_Some & Heq)%fmap_Some. cbn in Heq.
    by eapply shape_offsets.
  - apply list_elem_of_fmap. exists f. split; [done|]. by eapply list_elem_of_lookup_2.
Qed.
Lemma initial_Some shape off v : initial_payload shape !! off = Some v → ∃ f, f ∈ shape_fields shape ∧ field_offset f = off ∧ v = if bool_decide (field_kind f = FReference) then VReference None else VScalar 0.
Proof.
  unfold initial_payload. intros Hv%elem_of_list_to_map_2. apply list_elem_of_fmap in Hv as (f & [= -> ->] & Hin). eauto.
Qed.
Lemma initial_typed kinds shape : shape_ok kinds shape → typed_payload shape (initial_payload shape).
Proof.
  intros Hs. split.
  - intros i f Hf. rewrite (initial_lookup kinds shape i f Hs Hf). by case_bool_decide.
  - intros off t Hv. apply initial_Some in Hv as (f & Hin & <- & Hv). case_bool_decide as Hk; [|done]. rewrite (sh_references _ _ Hs).
    apply list_elem_of_fmap. exists f. split; [done|]. by apply list_elem_of_filter.
Qed.
Lemma initial_null shape off t : initial_payload shape !! off = Some (VReference t) → t = None.
Proof. intros Hv. apply initial_Some in Hv as (f & _ & _ & Hv). case_bool_decide; by simplify_eq. Qed.

(** ** The invariant after one allocation *)
(** What an allocation leaves alone. *)
Record framed (h h' : Heap) : Prop := {
  fr_roots : roots h' = roots h; fr_id : heap_id h' = heap_id h; fr_config : config h' = config h; fr_scan : active_scan h' = active_scan h;
  fr_next : scan_next h' = scan_next h; fr_root_cursor : root_cursor h' = root_cursor h; fr_stage : sweep_stage h' = sweep_stage h;
  fr_phase : phase (marking h') = phase (marking h); fr_epoch : epoch (marking h') = epoch (marking h); fr_pending : pending (marking h') = pending (marking h);
  fr_cursor : cursor (physical h') = cursor (physical h); fr_indirect : indirect (ledger h') = indirect (ledger h)
}.
#[export] Instance framed_preorder : PreOrder framed.
Proof. split; [by split|]. intros a b c [] []. split; congruence. Qed.

Lemma tri_grown h h' pages pages' l l' av av' rm dm id s r d pl : good h pages l av rm dm → running h →
  grown (epoch (marking h)) (negb (bool_decide (phase (marking h) = Idle))) id s r pages pages' → storage (physical h') pages' l' av' →
  headers (physical h') = <[r := {| hdr_descriptor := d; hdr_allocation := id |}]> (headers (physical h)) → payloads (physical h') = <[r := pl]> (payloads (physical h)) →
  (∀ off t, pl !! off = Some (VReference t) → t = None) → (l' = l ∨ l' = id :: l ∧ pages !! id = None) → framed h h' →
  desc_active (descriptors (physical h')) = desc_active (descriptors (physical h)) → tri h' pages' l' rm (more_use d dm).
Proof.
  intros Hg Hrun Hgw Hst Hhd Hpl Hnull Hl [F1 F2 F3 F4 F5 F6 F7 F8 F9 F10 F11 _] Hda.
  pose proof (grown_absent _ _ _ _ _ _ _ _ _ _ _ _ _ Hg Hgw Hst) as Hno.
  pose proof (grown_disc _ _ _ _ _ _ Hgw) as Hdisc. pose proof (grown_blk _ _ _ _ _ _ Hgw) as Hblk.
  pose proof (grown_edge _ _ _ _ Hpl Hnull) as Hedge. assert (∀ x, present (physical h') x ↔ present (physical h) x ∨ x = r) as Hpres by (intros x; by eapply grown_present).
  pose proof Hg as [[Hb Hm] Ht]. set (ep := epoch (marking h)) in *.
  assert (∀ x, disc pages ep x → disc pages' ep x) as Hmono by (intros x ?; apply Hdisc; by left).
  assert (closed (physical h) rm → closed (physical h') rm) as Hcl.
  { intros [C1 C2]. split; [|intros t Ht'; apply Hpres; left; by apply C2]. intros x t Hx He. destruct (Hedge _ _ He) as [Hne He']. apply Hpres. left. apply (C1 x); [|done].
    apply Hpres in Hx as [?| ->]; [done|done]. }
  assert (black_published (physical h) pages ep → black_published (physical h') pages' ep) as Hbp.
  { intros Hbp x t Hx He. destruct (Hedge _ _ He) as [Hne He']. apply Hmono. apply Hblk in Hx as [Hx|[_ ->]]; [by eapply Hbp|done]. }
  unfold tri in *. rewrite F8, F9, F4. fold ep. destruct Hrun as [Hr1 Hr2].
  destruct (phase (marking h)) eqn:Hph; try done.
  - destruct Ht as (T1 & T2 & T3). rewrite F10. split_and!; [done|done|by apply Hcl].
  - destruct Ht as (T1 & T2 & T3 & T4 & T5). split_and!; [done|by apply Hcl|by apply Hbp| |].
    + eapply (grown_gray h pages pages' id s r); [by rewrite Hph|done|done|done].
    + destruct T5. split; rewrite ?F1, ?F6, ?F2, ?F9; fold ep; eauto.
  - destruct Ht as (T1 & T2 & T3 & T4 & T5). split_and!; [by apply Hcl|by apply Hbp| | |by intros t ?; apply Hmono, T5].
    + eapply (grown_gray h pages pages' id s r); [by rewrite Hph|done|done|done].
    + unfold scan_ok in *. rewrite F4, F9, F5. fold ep. fold ep in T4. destruct (active_scan h) as [a|]; [|done]. destruct T4 as (Ha & hd & e0 & H1 & H2 & H3 & H4 & H5 & H6).
      assert (owner a ≠ r) as Hne by congruence. split; [done|]. destruct (more_use_entry d dm _ _ H2) as (e1 & He1 & Hd1 & _). exists hd, e1. rewrite Hhd, Hpl, !lookup_insert_ne by done. rewrite Hd1.
      split_and!; [done|done|done|by apply Hmono|rewrite Hblk; intros [?|[_ ?]]; done|]. intros. eapply Hmono, H6; done.
  - destruct Ht as [S1 S2 S3 S4 S5 S6]. split; rewrite ?F4, ?F10, ?F9; fold ep; [done|done|..].
    + intros x t Hx He. destruct (Hedge _ _ He) as [Hne He']. apply Hblk. left. apply Hblk in Hx as [Hx|[_ ->]]; [by eapply S3|done].
    + intros t Ht. apply Hblk. left. by apply S4.
    + intros x Hx. apply Hblk. apply Hdisc in Hx as [?|?]; [left; by apply S5|by right].
    + eapply grown_swept; try done; by rewrite ?Hph.
Qed.

Lemma good_grown h h' pages pages' l l' av av' rm dm id s r e0 : good h pages l av rm dm → running h →
  grown (epoch (marking h)) (negb (bool_decide (phase (marking h) = Idle))) id s r pages pages' → storage (physical h') pages' l' av' →
  dm !! desc_id (entry_descriptor e0) = Some e0 →
  headers (physical h') = <[r := {| hdr_descriptor := desc_id (entry_descriptor e0); hdr_allocation := id |}]> (headers (physical h)) →
  payloads (physical h') = <[r := initial_payload (desc_shape (entry_descriptor e0))]> (payloads (physical h)) →
  (l' = l ∨ l' = id :: l ∧ pages !! id = None) → framed h h' → objects (physical h') = (objects (physical h) + 1)%Z → (Z.of_nat (size pages') <= pending_capacity (marking h'))%Z →
  registry (descriptors (physical h')) (headers (physical h')) (more_use (desc_id (entry_descriptor e0)) dm) →
  desc_active (descriptors (physical h')) = desc_active (descriptors (physical h)) → good h' pages' l' av' rm (more_use (desc_id (entry_descriptor e0)) dm).
Proof.
  intros Hg Hrun Hgw Hst He0 Hhd Hpl Hl Hfr Hob Hcap Hrg Hda. pose proof Hg as [[Hb Hm] Ht]. set (d := desc_id (entry_descriptor e0)) in *.
  split; [split|].
  - destruct Hb as [_ _ Hreg Hpay Hro Hid [Hled Hlim]]. pose proof Hfr as [F1 F2 F3 _ _ _ _ _ _ _ _ F12]. split; rewrite ?F1, ?F2, ?F3, ?F12; try done.
    + eapply (grown_contents h h'); try done.
    + intros x hd e Hx He. apply more_use_Some in He as (e1 & He1 & -> & _). rewrite Hhd in Hx. rewrite Hpl. apply lookup_insert_Some in Hx as [[<- <-]|[Hne Hx]].
      * cbn in He1. assert (e1 = e0) as -> by congruence. rewrite lookup_insert_eq. eexists. split; [done|]. destruct (rg_entry _ _ _ Hreg _ _ He0) as (_ & _ & [_ [kinds Hs] _] & _). by eapply initial_typed.
      * rewrite lookup_insert_ne by done. by eapply Hpay.
  - eapply (grown_marks h pages pages'); [exact Hg|exact Hgw|apply Hfr|apply Hfr|exact Hcap].
  - eapply (tri_grown h h' pages pages' l l'); try done. intros off t. apply initial_null.
Qed.

(** ** The pages an allocation leaves *)
Lemma changed_again id pg pg' pages pages' : changed id pg pages pages' → changed id pg' pages (<[id := pg']> pages').
Proof. intros [_ Ho]. split; [apply lookup_insert_eq|]. intros j Hj. rewrite lookup_insert_ne by done. by apply Ho. Qed.
Lemma became_step pg0 pg pg' o u m o' u' : became pg0 pg o u m → restated pg pg' o' u' → became pg0 pg' o' u' (marks pg').
Proof. intros [] []. split; try done; congruence. Qed.
Lemma kin_aged e b id s j q0 q : j ≠ id → kin q0 q → aged e b id s j q0 q.
Proof.
  intros Hj K. assert (∀ x, hit id s j x = false) as Hh by (intros x; apply hit_false; congruence).
  split; intros; rewrite ?Hh, ?andb_false_r, ?(kin_marks _ _ K); cbn [orb]; try done; [by apply kin_slot_of|by apply kin_pointer|apply K|apply K|by left].
Qed.
Lemma grown_intro e b id s r pg0 pg p p' pages pages0 pages' l l' m : (0 <= e)%Z → extended id pg0 p p' pages pages0 l l' → changed id pg pages0 pages' →
  became pg0 pg (flip_on (occ pg0) s) (pending_slot pg0) m →
  (∀ x, discb m e x = b && bool_decide (x = s) || discb (marks pg0) e x) → (∀ x, blackb m e x = b && bool_decide (x = s) || blackb (marks pg0) e x) →
  queued m = queued (marks pg0) → (mark_epoch m = mark_epoch (marks pg0) ∨ mark_epoch m = e) → is_free pg0 s = true → page_ok pg → pointer pg s = Some r → grown e b id s r pages pages'.
Proof.
  intros He Hext Hch Hbe Hd Hb Hq Hep Hfree Hok Hptr.
  assert (aged e b id s id pg0 pg) as Hage.
  { assert (∀ x, hit id s id x = bool_decide (x = s)) as Hh by (intros x; unfold hit; by rewrite (bool_decide_eq_true_2 (id = id))).
    split; intros; rewrite ?Hh, ?(be_marks _ _ _ _ _ Hbe); try done; [by eapply became_slot_of|by eapply became_pointer| |apply Hbe].
    rewrite (be_occ _ _ _ _ _ Hbe). unfold flip_on. f_equal. by destruct (Nat.eqb_spec x s); case_bool_decide. }
  assert (∀ j q, pages' !! j = Some q → ∃ q0, pages0 !! j = Some q0 ∧ aged e b id s j q0 q) as Hback.
  { intros j q Hq'. destruct (decide (j = id)) as [->|Hj].
    - rewrite (proj1 Hch) in Hq'. injection Hq' as <-. exists pg0. split; [apply Hext|done].
    - pose proof (proj2 Hch j Hj) as Hk. rewrite Hq' in Hk. inversion Hk as [q0 ? K|]; subst. exists q0. split; [done|by apply kin_aged]. }
  assert (∀ j q0, pages0 !! j = Some q0 → ∃ q, pages' !! j = Some q ∧ aged e b id s j q0 q) as Hforth.
  { intros j q0 Hq0. destruct (decide (j = id)) as [->|Hj].
    - assert (pg0 = q0) as <- by (destruct Hext; congruence). exists pg. split; [apply Hch|done].
    - pose proof (proj2 Hch j Hj) as Hk. rewrite Hq0 in Hk. inversion Hk as [? q K|]; subst. exists q. split; [done|by apply kin_aged]. }
  destruct Hext as [Hp0 Hor]. unfold is_free in Hfree. apply andb_true_iff in Hfree as [Hno%negb_true_iff Hnu%negb_true_iff].
  split; [..|exists pg; split; [apply Hch|by apply slot_of_pointer]|].
  - intros j q0 Hq0. apply Hforth. destruct Hor as [(-> & _)|(Hn & _ & -> & _)]; [done|]. rewrite lookup_insert_ne; [done|]. congruence.
  - intros j q Hq'. destruct (Hback j q Hq') as (q0 & Hq0 & A). exists q0. split; [done|]. destruct Hor as [(-> & _)|(Hn & Hfr & -> & _)]; [by left|].
    apply lookup_insert_Some in Hq0 as [[<- <-]|[_ Hq0]]; [right|by left]. split_and!; [done|done|]. destruct Hfr as (Hok0 & _ & Hmk & Ho & Hu).
    split; try done; rewrite Hmk; try done; intros x; unfold discb, blackb; cbn; rewrite zero_row_bit; apply andb_false_r.
  - intros q0 Hq0. destruct Hor as [(-> & _)|(Hn & _)]; [|congruence]. assert (q0 = pg0) as -> by congruence. done.
Qed.
Lemma grown_size e b id s r pages pages' : grown e b id s r pages pages' → size pages' ≤ S (size pages).
Proof.
  intros Hgw. rewrite <- !size_dom. replace (S (size (dom pages))) with (size ({[id]} : gset Z) + size (dom pages)) by (by rewrite size_singleton).
  transitivity (size ({[id]} ∪ dom pages : gset Z)).
  2: { rewrite size_union_alt. pose proof (subseteq_size (dom pages ∖ {[id]} : gset Z) (dom pages) ltac:(set_solver)). lia. }
  apply subseteq_size. intros j [q Hq]%elem_of_dom. destruct (gw_back _ _ _ _ _ _ _ Hgw _ _ Hq) as (q0 & _ & [Hq0|(-> & _)]).
  - apply elem_of_union_r, elem_of_dom. by eexists.
  - apply elem_of_union_l. by apply elem_of_singleton.
Qed.

(** Storage that grew its tables without touching an object. *)
Lemma good_calm h h' pages l av rm dm : good h pages l av rm dm → storage (physical h') pages l av → framed h h' → calm (physical h) (physical h') →
  (Z.of_nat (size pages) <= pending_capacity (marking h'))%Z → good h' pages l av rm dm.
Proof.
  intros [[Hb Hm] Ht] Hst Hfr [C1 C2 C3 C4 C5] Hcap. pose proof Hfr as [F1 F2 F3 F4 F5 F6 F7 F8 F9 F10 F11 F12]. split; [split|].
  - destruct Hb as [_ [] [] Hpay ? ? ?]. split; try done; rewrite ?F1, ?F2, ?F3, ?F12; try done.
    + split; rewrite ?C2, ?C3; try done.
    + rewrite C1, C3. by split.
    + intros x hd e. rewrite C3, C4. apply Hpay.
  - destruct Hm. split; rewrite ?F9, ?F10; try done.
  - assert (closed (physical h) rm → closed (physical h') rm) as Hcl by (intros [C6 C7]; split; unfold present, edge in *; by rewrite ?C3, ?C4).
    unfold tri in *. rewrite F8, F9, F4, F10. destruct (phase (marking h)); try done.
    + naive_solver.
    + destruct Ht as (T1 & T2 & T3 & T4 & []). split_and!; [done|by apply Hcl|unfold black_published, edge; by rewrite C4|by intros j q x; rewrite F9, F10; apply T4|].
      split; rewrite ?F1, ?F6, ?F2, ?F9; done.
    + destruct Ht as (T1 & T2 & T3 & T4 & T5). split_and!; [by apply Hcl|unfold black_published, edge; by rewrite C4|by intros j q x; rewrite F9, F10; apply T3| |done].
      unfold scan_ok in *. by rewrite F4, F5, F9, C3, C4.
    + destruct Ht. split; rewrite ?F4, ?F10, ?F9; try done.
      * unfold edge. by rewrite C4.
      * unfold swept in *. by rewrite F7, C5, F9, F1, C1.
Qed.

(** ** Allocating a record *)
(** What a client may do with a handle: the object is there, and is not condemned. *)
Definition held (h : Heap) (pages : gmap Z Page) (x : ObjectRef) : Prop :=
  present (physical h) x ∧ (phase (marking h) = Sweep → blk pages (epoch (marking h)) x).

(** The outcome of an allocation at [r]. *)
Record allocated (h h' : Heap) (pages pages' : gmap Z Page) (l' : list Z) (av' : nat → list Z) (rm : gmap Z RootSlot) (dm : gmap Z DescriptorEntry)
    (d : Descriptor) (r : ObjectRef) : Prop := {
  al_good : good h' pages' l' av' rm (more_use (desc_id d) dm); al_framed : framed h h'; al_fresh : headers (physical h) !! r = None;
  al_headers : ∃ id, headers (physical h') = <[r := {| hdr_descriptor := desc_id d; hdr_allocation := id |}]> (headers (physical h));
  al_payloads : payloads (physical h') = <[r := initial_payload (desc_shape d)]> (payloads (physical h));
  al_held : ∀ x, held h pages x ∨ x = r → held h' pages' x
}.
(** A refused request: tables may have grown, nothing else. *)
Record untouched (h h' : Heap) (pages : gmap Z Page) (l : list Z) (av : nat → list Z) (rm : gmap Z RootSlot) (dm : gmap Z DescriptorEntry) : Prop := {
  un_good : good h' pages l av rm dm; un_framed : framed h h'; un_calm : calm (physical h) (physical h')
}.

(** The marks an allocation leaves on its page. *)
Lemma fresh_colours m pages pages0 id pg0 p p' l l' s : marks_ok m pages → extended id pg0 p p' pages pages0 l l' → is_free pg0 s = true →
  discb (marks pg0) (epoch m) s = false ∧ blackb (marks pg0) (epoch m) s = false ∧ queuedb (marks pg0) (epoch m) = queued (marks pg0).
Proof.
  intros Hm [Hp0 Hor] Hfree. unfold is_free in Hfree. apply andb_true_iff in Hfree as [Hno%negb_true_iff _]. destruct Hor as [(-> & _)|(_ & (_ & _ & Hmk & _) & _)].
  - assert (discb (marks pg0) (epoch m) s = false) as Hd.
    { destruct (discb (marks pg0) (epoch m) s) eqn:E; [|done]. apply (mk_occ _ _ Hm id pg0) in E; [congruence|done]. }
    split; [done|]. split; [|by eapply queued_current]. destruct (blackb (marks pg0) (epoch m) s) eqn:E; [|done]. apply (mk_black _ _ Hm id pg0) in E; [congruence|done].
  - rewrite Hmk. unfold discb, blackb, queuedb. cbn. by rewrite zero_row_bit, andb_false_r.
Qed.
Lemma reserve_pages_spec E h count Q : (∀ k, let h' := set_marking (set_capacity k (marking h)) h in (count <= k)%Z → (pending_capacity (marking h) <= k)%Z → Q tt h') → wp E (reserve_pages count) Q h.
Proof. intros HQ. apply wp_modify, HQ; unfold reserve_capacity; lia. Qed.

(** From a reservation to the committed object: [b] tells whether a collection is under way. *)
Lemma admit_new_spec E h pages1 l1 av1 r pg0 pg1 pages pages0 p p' l l' m Q : marks_ok m pages → m = marking h →
  extended (res_page r) pg0 p p' pages pages0 l l' → is_free pg0 (res_slot r) = true → clear_slot (marks pg0) (res_slot r) = Some (marks pg1) →
  page_ok pg0 → storage (physical h) pages1 l1 av1 → pages1 !! res_page r = Some pg1 → res_slot r < page_slots pg0 →
  (∀ t m', let b := negb (bool_decide (phase m = Idle)) in let h' := set_physical (set_allocations t (physical h)) h in
     storage (physical h') (<[res_page r := with_marks pg1 m']> pages1) l1 av1 → rows_ok m' →
     (∀ x, discb m' (epoch m) x = b && bool_decide (x = res_slot r) || discb (marks pg0) (epoch m) x) →
     (∀ x, blackb m' (epoch m) x = b && bool_decide (x = res_slot r) || blackb (marks pg0) (epoch m) x) →
     queued m' = queued (marks pg0) → (mark_epoch m' = mark_epoch (marks pg0) ∨ mark_epoch m' = epoch m) → Q tt h') →
  wp E (admit_new r) Q h.
Proof.
  intros Hm Em Hext Hfree Hcl Hok0 Hst Hp1 Hslot HQ. destruct (fresh_colours _ _ _ _ _ _ _ _ _ _ Hm Hext Hfree) as (Hd & Hb & Hq). pose proof (page_slots_bound _ Hok0) as Hsl.
  pose proof (storage_page_ok _ _ _ _ _ _ Hst Hp1) as Hok1. destruct (clear_slot_colors (marks pg0) (res_slot r) (pk_marks _ Hok0) ltac:(lia)) as (m1 & Hm1 & Hrows1 & Hep1 & Hcol).
  rewrite Hcl in Hm1. injection Hm1 as <-. destruct (Hcol (epoch m)) as [Hq1 Hx].
  assert (∀ x, discb (marks pg1) (epoch m) x = discb (marks pg0) (epoch m) x ∧ blackb (marks pg1) (epoch m) x = blackb (marks pg0) (epoch m) x) as Hsame.
  { intros x. destruct (Hx x) as [-> ->]. destruct (decide (x = res_slot r)) as [->|Hne]; [by rewrite Hd, Hb, !andb_false_r|by rewrite bool_decide_eq_false_2]. }
  assert (queued (marks pg1) = queued (marks pg0)) as Hqe.
  { destruct (clear_slot_spec (marks pg0) (res_slot r) (pk_marks _ Hok0) ltac:(lia)) as (m1 & Hm1 & _ & _ & Hq2 & _). rewrite Hcl in Hm1. by injection Hm1 as <-. }
  unfold admit_new. apply wp_bind, wp_read. rewrite <- Em. case_bool_decide as Hidle.
  - apply wp_ret. replace h with (set_physical (set_allocations (allocations (physical h)) (physical h)) h) by (destruct h as [? ? [] ? ? ? ? ? ? ? ?]; done).
    apply (HQ (allocations (physical h)) (marks pg1)); cbn [negb andb orb].
    + replace (with_marks pg1 (marks pg1)) with pg1 by (by destruct pg1). rewrite insert_id by done. by destruct (physical h).
    + done.
    + intros x. apply Hsame.
    + intros x. apply Hsame.
    + done.
    + by left.
  - apply wp_bind, wp_physical. eapply wp_page; [apply Hst|exact Hp1|]. replace (set_physical (physical h) h) with h by (by destruct h).
    apply wp_bind. destruct (set_black_spec (marks pg1) (res_slot r) (epoch m) (pk_marks _ Hok1) ltac:(lia)) as (m2 & Hm2 & R). eapply wp_or_panic; [exact Hm2|].
    apply wp_physical. eapply (wp_edit_page _ _ pages1 l1 av1 _ pg1 (with_marks pg1 m2)); [done|done|done|apply with_marks_restated; [done|apply R]|done|]. intros t Hst'.
    apply (HQ t m2); cbn [negb andb].
    + done.
    + apply R.
    + intros x. rewrite (rm_disc _ _ _ _ _ R). unfold added. f_equal. apply Hsame.
    + intros x. rewrite (rm_black _ _ _ _ _ R). unfold added. f_equal. apply Hsame.
    + rewrite (remarked_queued _ _ _ _ _ R), Hq1. done.
    + right. by eapply remarked_epoch.
Qed.

Lemma wp_of_result {S A} E (r : result A GcError) (a : A) Q (s : S) : r = Ok a → Q a s → wp E (of_result r) Q s.
Proof. by intros ->. Qed.
Lemma gwp_guarded {A} E r (m : M Heap A) Q h : wp (λ _ _, False) m Q h → wp E (guarded r m) Q h.
Proof. unfold wp, guarded. by destruct (m h) as [[a|e] h']. Qed.
Lemma size_objects h pages l av rm dm : based h pages l av rm dm [] → Z.of_nat (size (headers (physical h))) = objects (physical h).
Proof. intros Hb. rewrite (ct_objects _ _ _ (ba_contents _ _ _ _ _ _ _ Hb)). cbn. lia. Qed.

Lemma allocate_spec (E : GcFailure → Heap → Prop) h pages l av rm dm e0 Q : good h pages l av rm dm → running h → dm !! desc_id (entry_descriptor e0) = Some e0 →
  (objects (physical h) < u64_max)%Z →
  (∀ e h', limited e → untouched h h' pages l av rm dm → E e h') →
  (∀ r h' pages' l' av', allocated h h' pages pages' l' av' rm dm (entry_descriptor e0) r → Q r h') → wp E (allocate_initialized (entry_descriptor e0)) Q h.
Proof.
  intros Hg Hrun He0 Hmax HE HQ. pose proof Hg as [[Hb Hm] Ht]. set (d := entry_descriptor e0) in *. pose proof (ba_storage _ _ _ _ _ _ _ Hb) as Hst.
  pose proof (ba_registry _ _ _ _ _ _ _ Hb) as Hrg. destruct (rg_entry _ _ _ Hrg _ _ He0) as (_ & _ & [Hkind [kinds Hshape] Hscan] & _). pose proof (rf_len _ _ (co_refines _ _ _ _ (sg_core _ _ _ _ Hst))) as Hlen.
  unfold allocate_initialized. apply wp_bind, wp_read, wp_bind. destruct (_ <? _)%Z; [apply wp_fail, HE; [by eexists|split; [done|by split|by split]]|]. apply wp_ret, wp_bind, reserve_pages_spec.
  intros k h1 Hk Hcap. unfold page_count in Hk. rewrite Hlen in Hk. apply wp_bind, wp_physical.
  eapply (reserve_spec _ d _ (physical h1) pages l av); [exact Hst|exact Hkind|..].
  { intros e p' He Hst' Hcalm _. apply HE; [done|]. assert (framed h (set_physical p' h1)) as Hfr by (split; try done; apply Hcalm). split; [|exact Hfr|exact Hcalm]. eapply good_calm; [exact Hg|exact Hst'|exact Hfr|exact Hcalm|cbn; lia]. }
  intros p1 pages1 l1 av1 r pg0 pg1 pages0 [R1 R2 R3 R4 R5 R6 R7 R8 R9 R10]. apply gwp_guarded. set (h2 := set_physical p1 h1).
  assert (page_ok pg0) as Hok0. { destruct R3 as [Hp0 [(-> & _)|(_ & [? _] & _)]]; [exact (storage_page_ok _ _ _ _ _ _ Hst Hp0)|done]. }
  apply wp_bind, wp_physical, wp_modify, wp_bind, wp_read, wp_bind. set (h3 := set_physical _ h2). cbn [ledger config h3 h2 h1 set_physical set_marking].
  destruct (ba_ledger _ _ _ _ _ _ _ Hb) as [Hind Hlim]. eapply (wp_of_result _ _ 0%Z).
  { unfold ledger_check. rewrite Hind. replace ((0 <? 0)%Z || (u64_max <? 0 - 0 + 0)%Z) with false by done. by rewrite (proj2 (Z.ltb_ge _ _)). }
  apply wp_bind.
  eapply (admit_new_spec _ h3 pages1 l1 av1 r pg0 pg1 pages pages0 (physical h1) p1 l l1 (marking h3)); [destruct Hm; split; try done; cbn; lia|done|exact R3|exact R7|exact R6|exact Hok0| |apply R4|exact R8|].
  { destruct R1 as [[] ? ? ?]. by split. }
  intros t m' b h4 Hst4 Hrows Hdc Hbc Hqc Hec. set (pg2 := with_marks pg1 m') in *. set (pages2 := <[res_page r := pg2]> pages1) in *.
  pose proof (sg_core _ _ _ _ Hst4) as Hc4. assert (pages2 !! res_page r = Some pg2) as Hp2 by apply lookup_insert_eq. pose proof (storage_page_ok _ _ _ _ _ _ Hst4 Hp2) as Hok2.
  assert (headers (physical h4) = headers (physical h)) as Hh4 by apply R2. assert (descriptors (physical h4) = descriptors (physical h)) as Hd4 by apply R2.
  (* the slot is reserved *)
  assert (pending_slot pg2 (res_slot r) = true) as Hpend.
  { change (pending_slot pg1 (res_slot r) = true). rewrite (be_pending _ _ _ _ _ R5). unfold flip_on. by rewrite Nat.eqb_refl. }
  destruct (page_commit_spec pg2 (res_slot r) Hok2 Hpend) as (pg3 & Hcm & Hre3 & Hfr3 & Hmk3).
  assert (is_free pg0 (res_slot r) = true) as Hfree0 by done. unfold is_free in Hfree0. apply andb_true_iff in Hfree0 as [Hno0%negb_true_iff Hnu0%negb_true_iff].
  assert (became pg0 pg3 (flip_on (occ pg0) (res_slot r)) (pending_slot pg0) m') as Hbe3.
  { assert (became pg0 pg2 (occ pg0) (flip_on (pending_slot pg0) (res_slot r)) m') as Hb2.
    { destruct (became_step _ _ pg2 _ _ _ _ _ R5 (with_marks_restated pg1 m' (be_ok _ _ _ _ _ R5) Hrows)) as [? ? ? ? ? ? ? Ho Hu]. split; try done; intros x; rewrite ?Ho, ?Hu; apply R5. }
    destruct (became_step _ _ _ _ _ _ _ _ Hb2 Hre3) as [? ? ? ? ? ? ? Ho Hu]. split; try done.
    - intros x. rewrite Ho. unfold flip_on. by rewrite (be_occ _ _ _ _ _ Hb2).
    - intros x. rewrite Hu. unfold flip_off. rewrite (be_pending _ _ _ _ _ Hb2). unfold flip_on. destruct (Nat.eqb_spec x (res_slot r)) as [->|]; [by rewrite Hnu0|done]. }
  assert (pointer pg3 (res_slot r) = Some (res_reference r)) as Hptr3.
  { rewrite <- R9. apply pointer_same; [apply Hre3|apply Hre3]. }
  set (pages3 := <[res_page r := pg3]> pages2).
  assert (grown (epoch (marking h)) b (res_page r) (res_slot r) (res_reference r) pages pages3) as Hgw.
  { eapply (grown_intro _ _ _ _ _ pg0 pg3 (physical h1) p1 pages pages0 pages3 l l1 m'); try done; [apply Hm|by do 2 eapply changed_again|apply Hre3]. }
  (* commit *)
  apply wp_bind. unfold commit. apply wp_physical, wp_bind, wp_zoom. set (hd := {| hdr_descriptor := desc_id d; hdr_allocation := res_page r |}).
  assert (headers (physical h) !! res_reference r = None) as Hno.
  { destruct (headers (physical h) !! res_reference r) as [hd0|] eqn:Hr; [|done]. exfalso. destruct (ct_header _ _ _ (ba_contents _ _ _ _ _ _ _ Hb) _ hd0 Hr) as (q0 & x & Hq0 & Hx & [Ho|Hin]); [|by apply elem_of_nil in Hin].
    destruct (gw_forth _ _ _ _ _ _ _ Hgw _ _ Hq0) as (q & Hq & A). rewrite <- (ag_slot_of _ _ _ _ _ _ _ A) in Hx. unfold pages3, pages2 in Hq.
    assert (slot_of pg2 (res_reference r) = Some (res_slot r)) as Hs2 by (apply slot_of_pointer; done).
    destruct (decide (hdr_allocation hd0 = res_page r)) as [Ej|Hj].
    - rewrite Ej in Hq0. destruct (gw_free _ _ _ _ _ _ _ Hgw _ Hq0) as [Hn _]. rewrite Ej, lookup_insert_eq in Hq. injection Hq as <-.
      assert (slot_of pg3 (res_reference r) = slot_of pg2 (res_reference r)) as Hs3 by (apply slot_of_same; apply Hre3). rewrite Hs3, Hs2 in Hx. injection Hx as <-. congruence.
    - rewrite !lookup_insert_ne in Hq by done. assert (pages2 !! hdr_allocation hd0 = Some q) as Hq2 by (unfold pages2; by rewrite lookup_insert_ne).
      by destruct (slot_owner _ _ _ _ _ _ _ _ _ _ _ Hc4 Hq2 Hp2 Hx Hs2). }
  eapply (descriptor_retain_spec _ (descriptors (physical h4)) (headers (physical h4)) dm (res_reference r) hd); [by rewrite Hd4, Hh4|by eexists|by rewrite Hh4|rewrite Hh4, (size_objects _ _ _ _ _ _ Hb); done|].
  intros t5 Hrg5. apply wp_bind, wp_modify, wp_bind. set (p5 := set_headers _ _).
  eapply (wp_edit_page _ p5 pages2 l1 av1 (res_page r) pg2 pg3); [destruct Hst4 as [[] ? ? ?]; by split|exact Hp2|exact Hcm|exact Hre3|exact Hfr3|]. intros t6 Hst6. apply wp_modify.
  apply wp_bind, wp_read, wp_bind, wp_modify, wp_ret. fold pages3 in Hst6. set (h5 := set_ledger _ _).
  assert (framed h h5) as Hfr by (split; try done; apply R2).
  assert (good h5 pages3 l1 av1 rm (more_use (desc_id d) dm)) as Hgood.
  { eapply (good_grown h h5 pages pages3 l l1 av av1 rm dm (res_page r) (res_slot r) (res_reference r) e0); [exact Hg|exact Hrun|exact Hgw| |exact He0|..].
    - destruct Hst6 as [[] ? ? ?]. by split.
    - cbn. by rewrite (cl_headers _ _ R2).
    - cbn. by rewrite (cl_payloads _ _ R2).
    - destruct R3 as [_ [(_ & -> & _)|(? & _ & _ & -> & _)]]; [by left|by right].
    - done.
    - cbn. by rewrite (cl_objects _ _ R2).
    - cbn. pose proof (grown_size _ _ _ _ _ _ _ Hgw). lia.
    - exact Hrg5.
    - cbn. by rewrite (cl_descriptors _ _ R2). }
  apply (HQ (res_reference r) h5 pages3 l1 av1). split; [exact Hgood|exact Hfr|exact Hno|exists (res_page r); cbn; by rewrite (cl_headers _ _ R2)|cbn; by rewrite (cl_payloads _ _ R2)|].
  intros x Hx. unfold held. rewrite (fr_phase _ _ Hfr), (fr_epoch _ _ Hfr). split.
  - unfold present. cbn. rewrite (cl_headers _ _ R2). destruct (decide (x = res_reference r)) as [->|Hne]; [rewrite lookup_insert_eq; by eexists|rewrite lookup_insert_ne by done]. by destruct Hx as [[? _]|?].
  - intros Hsw. apply (grown_blk h pages pages3 _ _ _ Hgw). destruct Hx as [[_ Hx]| ->]; [left; by apply Hx|right]. by rewrite Hsw.
Qed.
