(* ===== verification/GcMutatorProps.v ===== *)
(** * Managed heap: the client operations keep the invariant *)
From stdpp Require Import gmap fin_maps.
From S2P Require Import Prelude SlotBits GcBase GcTable GcPage GcColors GcDynamic GcHeap GcStorage GcSlots GcRoots GcRootsProps GcMark GcService GcMutator GcInv GcMarkProps GcMeasure GcScanProps GcSweepProps GcSweepLoop GcCollect GcAllocProps.
Open Scope nat_scope.

(** An object that may be stored: it is there and the collection knows of it. *)
Definition covered (h : Heap) (pages : gmap Z Page) (t : ObjectRef) : Prop :=
  present (physical h) t ∧ (marking_phase h → disc pages (epoch (marking h)) t) ∧ (phase (marking h) = Sweep → blk pages (epoch (marking h)) t).

(** ** Replacing the registrations *)
(** [rm'] holds what [rm] holds; new targets are covered, new registrations are [extra]. *)
Record rerooted (h : Heap) (pages : gmap Z Page) (rm rm' : gmap Z RootSlot) (extra : list Z) : Prop := {
  rr_back : ∀ s e', rm' !! s = Some e' →
    (∃ e, rm !! s = Some e ∧ generation e' = generation e ∧ length (targets (entry e')) = length (targets (entry e)) ∧ (0 < strong (entry e') → 0 < strong (entry e))
        ∧ ∀ k t, targets (entry e') !! k = Some (Some t) → targets (entry e) !! k = Some (Some t) ∨ covered h pages t)
    ∨ (rm !! s = None ∧ ∀ t, Some t ∈ targets (entry e') → covered h pages t);
  rr_forth : ∀ s e, rm !! s = Some e → is_Some (rm' !! s)
}.
Lemma rerooted_live h pages rm rm' extra t : rerooted h pages rm rm' extra → live_root rm' t → live_root rm t ∨ covered h pages t.
Proof.
  intros [Hb _] (s & e' & He' & Hs & Ht). destruct (Hb s e' He') as [(e & He & _ & _ & Hst & Hk)|(_ & Hc)]; [|right; by apply Hc].
  apply list_elem_of_lookup_1 in Ht as [k Ht]. destruct (Hk k t Ht) as [Hk'|?]; [left|by right]. exists s, e. split_and!; [done|by apply Hst|]. by eapply list_elem_of_lookup_2.
Qed.
Lemma cursor_rerooted h pages rm rm' r' extra : cursor_ok h pages rm → phase (marking h) = Roots_ → roots_ok (roots h) rm → roots_ok r' rm' → roots_heap r' = roots_heap (roots h) →
  root_active r' = root_active (roots h) ++ extra → rerooted h pages rm rm' extra → cursor_ok (set_roots r' h) pages rm'.
Proof.
  intros [B1 B2 B3 B4] Hph Hok Hok' Hh Ha [Hb Hf]. assert (∀ t, covered h pages t → disc pages (epoch (marking h)) t) as Hcov by (intros t (_ & Hc & _); apply Hc; by left).
  assert (∀ i s e', root_active r' !! i = Some s → rm' !! s = Some e' → (i < length (root_active (roots h)) ∧ root_active (roots h) !! i = Some s) ∨ rm !! s = None) as Hold.
  { intros i s e' Hi He'. destruct (rm !! s) as [e|] eqn:He; [left|by right]. assert (root_active (roots h) !! active_index (entry e) = Some s) as Hi0 by (apply (ro_active _ _ Hok); eauto).
    pose proof (lookup_lt_Some _ _ _ Hi0) as Hlt. assert (root_active r' !! active_index (entry e) = Some s) as Hi1 by (by rewrite Ha, lookup_app_l).
    pose proof (proj1 (list.NoDup_alt _) (active_nodup _ _ Hok') _ _ _ Hi Hi1) as ->. done. }
  split; cbn [roots set_roots root_cursor heap_id marking].
  - rewrite Ha, length_app. lia.
  - destruct (cursor_active (root_cursor h)) as [id|]; [|done]. destruct B2 as (C1 & C2 & e & C3 & C4 & C5). split; [done|]. rewrite Ha. split; [by apply lookup_app_l_Some|].
    destruct (Hf _ _ C3) as [e' He']. exists e'. split; [done|]. destruct (Hb _ _ He') as [(e1 & He1 & G1 & G2 & _)|(Hn & _)]; [|congruence]. assert (e1 = e) as -> by congruence. split; [congruence|lia].
  - intros i s e' t Hi He' Hs Ht Hor. apply list_elem_of_lookup_1 in Ht as [k Hk]. destruct (Hb s e' He') as [(e & He & _ & _ & Hst & Hkk)|(_ & Hc)]; [|apply Hcov, Hc; by eapply list_elem_of_lookup_2].
    destruct (Hkk k t Hk) as [Hk'|?]; [|by apply Hcov]. destruct (Hold i s e' Hi He') as [[_ Hi']|?]; [|congruence].
    eapply B3; [exact Hi'|exact He|by apply Hst|by eapply list_elem_of_lookup_2|done].
  - intros s e' k t Hi Hlt He' Hs Hkl Hk. rewrite Ha, lookup_app_l in Hi by lia. destruct (Hb s e' He') as [(e & He & _ & _ & Hst & Hkk)|(_ & Hc)]; [|apply Hcov, Hc; by eapply list_elem_of_lookup_2].
    destruct (Hkk k t Hk) as [Hk'|?]; [|by apply Hcov]. eapply B4; [exact Hi|exact Hlt|exact He|by apply Hst|exact Hkl|exact Hk'].
Qed.
Lemma good_roots h pages l av rm dm r' rm' extra : good h pages l av rm dm → roots_ok r' rm' → roots_heap r' = roots_heap (roots h) →
  root_active r' = root_active (roots h) ++ extra → pending_releases (roots h) ≤ pending_releases r' → rerooted h pages rm rm' extra → good (set_roots r' h) pages l av rm' dm.
Proof.
  intros [[Hb Hm] Ht] Hok' Hh Ha Hpr Hrr. pose proof (λ t, rerooted_live _ _ _ _ _ t Hrr) as Hlive.
  assert (closed (physical h) rm → closed (physical h) rm') as Hcl.
  { intros [C1 C2]. split; [done|]. intros t Ht'. destruct (Hlive t Ht') as [?|[? _]]; [by apply C2|done]. }
  split; [split; [|done]|].
  - destruct Hb. split; try done. cbn. congruence.
  - unfold tri in *. change (marking (set_roots r' h)) with (marking h). change (active_scan (set_roots r' h)) with (active_scan h). change (physical (set_roots r' h)) with (physical h).
    destruct (phase (marking h)) eqn:Hph; try done.
    + naive_solver.
    + destruct Ht as (T1 & T2 & T3 & T4 & T5). split_and!; [done|by apply Hcl|done|done|]. eapply cursor_rerooted; try done. apply Hb.
    + destruct Ht as (T1 & T2 & T3 & T4 & T5). split_and!; [by apply Hcl|done|done|done|]. intros t Ht'. destruct (Hlive t Ht') as [?|(_ & Hc & _)]; [by apply T5|]. apply Hc. by right.
    + destruct Ht as [S1 S2 S3 S4 S5 S6]. split; try done.
      * intros t Ht'. destruct (Hlive t Ht') as [?|(_ & _ & Hc)]; [by apply S4|]. by apply Hc.
      * unfold swept in *. cbn [sweep_stage set_roots roots physical marking]. destruct (sweep_stage h) as [|n|n]; [done| |done]. destruct S6. split; [done|]. cbn. lia.
Qed.

(** ** Replacing the descriptors *)
Record relisted (dm dm' : gmap Z DescriptorEntry) : Prop := {
  rl_back : ∀ id e', dm' !! id = Some e' → dm !! id = None ∨ ∃ e, dm !! id = Some e ∧ entry_descriptor e' = entry_descriptor e;
  rl_forth : ∀ id e, dm !! id = Some e → ∃ e', dm' !! id = Some e' ∧ entry_descriptor e' = entry_descriptor e
}.
Lemma good_descriptors h pages l av rm dm ds dm' : good h pages l av rm dm → registry ds (headers (physical h)) dm' → relisted dm dm' →
  length (desc_active (descriptors (physical h))) ≤ length (desc_active ds) → good (set_physical (set_descriptors ds (physical h)) h) pages l av rm dm'.
Proof.
  intros [[Hb Hm] Ht] Hrg [Hback Hforth] Hlen. split; [split; [|done]|].
  - destruct Hb as [[[] ? ? ?] [] Hreg Hpay ? ? ?]. split; try done.
    intros r hd e' Hr He'. destruct (rg_headers _ _ _ Hreg r hd Hr) as [e0 He0]. destruct (Hback _ _ He') as [?|(e & He & ->)]; [congruence|]. by eapply Hpay.
  - unfold tri in *. change (marking (set_physical _ h)) with (marking h). change (active_scan (set_physical _ h)) with (active_scan h). destruct (phase (marking h)) eqn:Hph; try done.
    + destruct Ht as (T1 & T2 & T3 & T4 & []). split_and!; try done.
    + destruct Ht as (T1 & T2 & T3 & T4 & T5). split_and!; try done. unfold scan_ok in *. change (active_scan (set_physical _ h)) with (active_scan h). destruct (active_scan h) as [a|]; [|done].
      destruct T4 as (Ha & hd & e & H1 & H2 & H3 & H4 & H5 & H6). split; [done|]. destruct (Hforth _ _ H2) as (e' & He' & Hd). exists hd, e'. rewrite Hd. by split_and!.
    + destruct Ht as [S1 S2 S3 S4 S5 S6]. split; try done. unfold swept in *. cbn [sweep_stage set_physical roots physical marking cursor set_descriptors descriptors]. destruct (sweep_stage h) as [|n|n]; [done|done|].
      destruct S6. split; [done|lia].
Qed.

(** ** Writing a field *)
Lemma good_write h pages l av rm dm r hd e pl i f v : good h pages l av rm dm → headers (physical h) !! r = Some hd → dm !! hdr_descriptor hd = Some e →
  payloads (physical h) !! r = Some pl → shape_fields (desc_shape (entry_descriptor e)) !! i = Some f →
  match v with VReference t => field_kind f = FReference ∧ (∀ x, t = Some x → covered h pages x) | VScalar _ => field_kind f ≠ FReference end →
  good (set_physical (set_payloads (<[r := <[field_offset f := v]> pl]> (payloads (physical h))) (physical h)) h) pages l av rm dm.
Proof.
  intros [[Hb Hm] Ht] Hr He Hpl Hf Hv. set (h' := set_physical _ h).
  assert (∀ x t, edge (physical h') x t → edge (physical h) x t ∨ covered h pages t) as Hedge.
  { intros x t (pl' & off & Hx & Hoff). cbn in Hx. apply lookup_insert_Some in Hx as [[<- <-]|[Hne Hx]]; [|left; by exists pl', off].
    apply lookup_insert_Some in Hoff as [[<- ->]|[Hne Hoff]]; [right; by apply Hv|left; by exists pl, off]. }
  assert (closed (physical h) rm → closed (physical h') rm) as Hcl.
  { intros [C1 C2]. split; [|done]. intros x t Hx Hxt. destruct (Hedge x t Hxt) as [?|[? _]]; [by apply (C1 x)|done]. }
  assert (marking_phase h → black_published (physical h) pages (epoch (marking h)) → black_published (physical h') pages (epoch (marking h))) as Hbp.
  { intros Hmp Hbp x t Hx Hxt. destruct (Hedge x t Hxt) as [?|(_ & Hc & _)]; [by eapply Hbp|by apply Hc]. }
  split; [split; [|done]|].
  - destruct Hb as [[[] ? ? ?] [] Hreg Hpay ? ? ?]. split; try done.
    intros x hx e' Hx He'. cbn [headers physical h' set_physical set_payloads payloads] in *. destruct (decide (x = r)) as [->|Hne].
    + rewrite Hr in Hx. injection Hx as <-. assert (e' = e) as -> by congruence. destruct (Hpay r hd e Hr He) as (pl0 & Hpl0 & Ht1 & Ht2). assert (pl0 = pl) as -> by congruence.
      rewrite lookup_insert_eq. eexists. split; [done|]. destruct (rg_entry _ _ _ Hreg _ _ He) as (_ & _ & [_ [kinds Hs] _] & _). split.
      * intros j g Hg. destruct (decide (field_offset f = field_offset g)) as [Ho|Ho].
        -- assert (i = j) as -> by (by eapply shape_offsets). assert (g = f) as -> by congruence. rewrite lookup_insert_eq. destruct v; [done|apply Hv].
        -- rewrite lookup_insert_ne by done. by apply (Ht1 j).
      * intros off t [[<- ->]|[Hne Hoff]]%lookup_insert_Some; [|by eapply Ht2]. rewrite (sh_references _ _ Hs). apply list_elem_of_fmap. exists f. split; [done|].
        apply list_elem_of_filter. split; [apply Hv|by eapply list_elem_of_lookup_2].
    + rewrite lookup_insert_ne by done. by eapply Hpay.
  - unfold tri in *. change (marking h') with (marking h). change (active_scan h') with (active_scan h). destruct (phase (marking h)) eqn:Hph; try done.
    + naive_solver.
    + destruct Ht as (T1 & T2 & T3 & T4 & []). split_and!; [done|by apply Hcl|apply Hbp; [by left|done]|done|by split].
    + assert (marking_phase h) as Hmp by (by right). destruct Ht as (T1 & T2 & T3 & T4 & T5). split_and!; [by apply Hcl|by apply Hbp|done| |done].
      unfold scan_ok in *. change (active_scan h') with (active_scan h). destruct (active_scan h) as [a|]; [|done]. destruct T4 as (Ha & hd' & e' & H1 & H2 & H3 & H4 & H5 & H6). split; [done|]. exists hd', e'.
      split_and!; try done. intros k off pl' t Hk Hoff Hpl' Hx. cbn [payloads physical h' set_physical set_payloads] in Hpl'. apply lookup_insert_Some in Hpl' as [[Eo <-]|[Hne Hpl']]; [|by eapply H6].
      apply lookup_insert_Some in Hx as [[<- ->]|[Hne Hx]]; [|eapply H6; [exact Hk|exact Hoff|by rewrite <- Eo|exact Hx]]. destruct Hv as [_ Hv]. destruct (Hv t eq_refl) as (_ & Hc & _). by apply Hc.
    + destruct Ht as [S1 S2 S3 S4 S5 S6]. split; try done. intros x t Hx Hxt. destruct (Hedge x t Hxt) as [?|(_ & _ & Hc)]; [by eapply S3|by apply Hc].
Qed.

(** ** Layouts *)
(** A layout handle of this heap. *)
Definition layout_ok (h : Heap) (dm : gmap Z DescriptorEntry) (lay : DynamicLayout) (e : DescriptorEntry) : Prop :=
  layout_heap lay = heap_id h ∧ dm !! desc_id (layout_descriptor lay) = Some e ∧ entry_descriptor e = layout_descriptor lay.

Lemma descriptor_dynamic_ok id identity kinds shape d : shape_ok kinds shape → descriptor_dynamic id identity shape = Some d →
  descr_ok d ∧ desc_id d = id ∧ desc_identity d = identity ∧ desc_shape d = shape.
Proof.
  intros Hs. unfold descriptor_dynamic. destruct (layout_extend object_header_layout (shape_layout shape)) as [r|] eqn:Hr; [|done]. cbn [mbind option_bind]. intros [= <-]. cbn. split_and!; try done.
  pose proof (shape_align_bounds _ _ Hs) as Hal. pose proof (sh_size _ _ Hs) as [Hsz _]. assert (0 <= total kinds)%Z as Hnn by (rewrite <- total_summed; apply summed_nonneg).
  split; cbn; [split|by exists kinds|done].
  - intros g. cbn. unfold page_group. destruct (if _ && _ then _ else _) as [tier|] eqn:Ht; [|done]. cbn [mbind option_bind]. destruct (list_find _ STRIDES) as [[i x]|] eqn:Hf; [|done]. cbn [mbind option_bind fst].
    intros [= <-]. apply list_find_Some in Hf as (Hi & _ & _). apply lookup_lt_Some in Hi. assert (tier ≤ 1) as Ht1.
    { destruct (_ && _) in Ht; [injection Ht as <-; lia|]. destruct (_ && _) in Ht; [injection Ht as <-; lia|done]. }
    assert (length STRIDES = 24) as Hlen by reflexivity. unfold GROUPS. destruct (bool_decide _); lia.
  - cbn. eapply layout_extend_nonneg; [exact Hr|done|lia|lia].
Qed.

Lemma register_dynamic_spec (E : GcFailure → Descriptors → Prop) d hs dm kinds shape Q : registry d hs dm → shape_ok kinds shape →
  (∀ e d', limited e → registry d' hs dm → desc_active d' = desc_active d → E e d') →
  (∀ id x d', dm !! id = None → desc_id x = id → desc_shape x = shape → registry d' hs (<[id := {| entry_descriptor := x; uses := 0; handles := 1 |}]> dm) →
     desc_active d' = desc_active d ++ [id] → Q x d') → wp E (register_dynamic shape) Q d.
Proof.
  intros [Hrf Hnd Hac Hen Hid Hhs] Hs HE HQ. unfold register_dynamic. apply wp_bind. unfold wp at 1. unfold table_prepare. pose proof (refines_prepare _ _ Hrf) as Hp.
  assert (∀ t, refines t dm → registry (set_desc_slots t d) hs dm) as Hset by (intros t Ht; by split).
  destruct (prepare (desc_slots d)) as [[id|e] t]. 2: { destruct Hp as (-> & -> & _). apply HE; [by eexists|by apply Hset|done]. }
  destruct Hp as (Ht & Hfree & _ & _ & Hready). apply wp_bind, wp_reads, wp_bind. destruct (descriptor_dynamic _ _ _) as [x|] eqn:Hx; [|apply wp_fail, HE; [by eexists|by apply Hset|done]].
  destruct (descriptor_dynamic_ok _ _ _ _ _ Hs Hx) as (Hok & Hxi & Hxn & Hxs). apply wp_ret, wp_bind, wp_modify, wp_bind. set (en := {| entry_descriptor := x; uses := 0; handles := 1 |}).
  destruct (refines_insert t dm id en Ht Hready) as (_ & t2 & Hins & Ht2). unfold wp at 1. unfold table_insert. cbn [desc_slots set_desc_slots]. rewrite Hins. apply wp_ret.
  apply (HQ id); try done. cbn [desc_active set_desc_slots next_identity desc_slots] in *. split; cbn [desc_slots desc_active next_identity set_desc_slots].
  - done.
  - apply list.NoDup_app. split; [done|]. split; [|apply list.NoDup_singleton]. intros j Hj. rewrite list_elem_of_singleton. intros ->. apply Hac in Hj as [? Hj]. congruence.
  - intros j. rewrite elem_of_app, list_elem_of_singleton, Hac. destruct (decide (j = id)) as [->|Hne]; [rewrite lookup_insert_eq; naive_solver|]. rewrite lookup_insert_ne by done. naive_solver.
  - intros j y [[<- <-]|[Hne Hy]]%lookup_insert_Some.
    + cbn. rewrite Hxi, Hxn. split_and!; [done|lia|done|]. symmetry. unfold uses_of. enough (filter (λ kv : ObjectRef * ObjectHeader, hdr_descriptor kv.2 = id) hs = ∅) as -> by (by rewrite map_size_empty).
      apply map_empty. intros r. apply map_lookup_filter_None. right. intros hd Hr Heq. cbn in Heq. destruct (Hhs r hd Hr) as [? Hd]. congruence.
    + destruct (Hen j y Hy) as (? & ? & ? & ?). split_and!; try done. lia.
  - intros i j y z [[<- <-]|[Hne Hy]]%lookup_insert_Some [[<- <-]|[Hne' Hz]]%lookup_insert_Some; try done; cbn; rewrite ?Hxn; intros Heq.
    + destruct (Hen j z Hz) as (_ & ? & _). lia.
    + destruct (Hen i y Hy) as (_ & ? & _). lia.
    + by eapply Hid.
  - intros r hd Hr. destruct (Hhs r hd Hr) as [y Hy]. destruct (decide (hdr_descriptor hd = id)) as [->|]; [rewrite lookup_insert_eq; by eexists|rewrite lookup_insert_ne by done; by eexists].
Qed.

Lemma register_layout_spec (E : GcFailure → Heap → Prop) h pages l av rm dm identity kinds Q : good h pages l av rm dm → running h →
  (∀ e ds, let h' := set_physical (set_descriptors ds (physical h)) h in limited e → good h' pages l av rm dm → E e h') →
  (∀ ds id x lay, let h' := set_physical (set_descriptors ds (physical h)) h in
     let dm' := <[id := {| entry_descriptor := x; uses := 0; handles := 1 |}]> dm in
     dm !! id = None → desc_id x = id → shape_ok kinds (desc_shape x) → shape_identity (desc_shape x) = identity → lay = {| layout_heap := heap_id h; layout_descriptor := x |} →
     good h' pages l av rm dm' → Q lay h') → wp E (register_layout identity kinds) Q h.
Proof.
  intros Hg Hrun HE HQ. pose proof Hg as [[Hb _] _]. pose proof (ba_registry _ _ _ _ _ _ _ Hb) as Hrg. unfold register_layout. apply wp_bind, check_spec; [done|]. apply wp_bind. pose proof (shape_new_spec identity kinds) as Hs.
  assert (set_physical (set_descriptors (descriptors (physical h)) (physical h)) h = h) as Eh by (by destruct h as [? ? [] ? ? ? ? ? ? ? ?]).
  destruct (shape_new identity kinds) as [shape|e]. 2: { destruct Hs as [-> _]. unfold wp. cbn. rewrite <- Eh. apply HE; [by eexists|by rewrite Eh]. }
  destruct Hs as (Hs & Hi & _). eapply wp_lift; [done|]. apply wp_bind, wp_physical, wp_zoom. eapply register_dynamic_spec; [exact Hrg|exact Hs|..].
  - intros e d' He Hrg' Ha. apply (HE e d'); [done|]. eapply good_descriptors; [exact Hg|exact Hrg'| |by rewrite Ha]. split; [intros id e' He'; right; eauto|eauto].
  - intros id x d' Hno Hxi Hxs Hrg' Ha. apply wp_bind, wp_reads, wp_ret. eapply (HQ d' id x); try done; [by rewrite Hxs|by rewrite Hxs|].
    eapply good_descriptors; [exact Hg|exact Hrg'| |rewrite Ha, length_app; lia]. split.
    + intros j e' [[<- <-]|[Hne He']]%lookup_insert_Some; [by left|right; eauto].
    + intros j e He. exists e. rewrite lookup_insert_ne; [done|]. congruence.
Qed.

(** Cloning and dropping a layout handle. *)
Lemma good_handles h pages l av rm dm id e g n : good h pages l av rm dm → dm !! id = Some e → g e = with_handles n e →
  good (set_physical (set_descriptors (set_desc_slots (update g (desc_slots (descriptors (physical h))) id) (descriptors (physical h))) (physical h)) h) pages l av rm (<[id := with_handles n e]> dm).
Proof.
  intros Hg He Hgn. pose proof Hg as [[Hb _] _]. destruct (ba_registry _ _ _ _ _ _ _ Hb) as [Hrf Hnd Hac Hen Hid Hhs].
  eapply good_descriptors; [exact Hg| | |done].
  - assert (alter g id dm = <[id := with_handles n e]> dm) as Heq.
    { apply map_eq. intros j. destruct (decide (j = id)) as [->|]; [rewrite lookup_alter_eq, lookup_insert_eq, He; cbn; by rewrite Hgn|by rewrite lookup_alter_ne, lookup_insert_ne]. }
    split; cbn [desc_slots set_desc_slots desc_active next_identity].
    + rewrite <- Heq. apply refines_update; [done|]. apply (rf_dom _ _ Hrf). by eexists.
    + done.
    + intros j. rewrite Hac. destruct (decide (j = id)) as [->|]; [rewrite lookup_insert_eq, He; split; by eexists|by rewrite lookup_insert_ne].
    + intros j y [[<- <-]|[Hne Hy]]%lookup_insert_Some; [exact (Hen id e He)|by apply Hen].
    + intros i j y z [[<- <-]|[Hne Hy]]%lookup_insert_Some [[<- <-]|[Hne' Hz]]%lookup_insert_Some; intros Heq'; [done|by apply (Hid _ _ e z)|by apply (Hid _ _ y e)|by eapply Hid].
    + intros r hd Hr. destruct (decide (hdr_descriptor hd = id)) as [->|]; [rewrite lookup_insert_eq; by eexists|rewrite lookup_insert_ne by done; by eapply Hhs].
  - split.
    + intros j e' [[<- <-]|[Hne He']]%lookup_insert_Some; right; eauto.
    + intros j e1 He1. destruct (decide (j = id)) as [->|]; [rewrite lookup_insert_eq; eexists; split; [done|]; by assert (e1 = e) as -> by congruence|rewrite lookup_insert_ne by done; eauto].
Qed.

(** ** Allocation and fields *)
Lemma alloc_dynamic_spec (E : GcFailure → Heap → Prop) h pages l av rm dm lay e0 Q : good h pages l av rm dm → running h → layout_ok h dm lay e0 → (max_objects (config h) <= u64_max)%Z →
  (∀ e h', limited e → untouched h h' pages l av rm dm → E e h') →
  (∀ r h' pages' l' av', allocated h h' pages pages' l' av' rm dm (layout_descriptor lay) r → Q r h') → wp E (alloc_dynamic lay) Q h.
Proof.
  intros Hg Hrun (Hh & Hd & He) Hmax HE HQ. pose proof Hg as [[Hb _] _]. unfold alloc_dynamic, check_allocation. apply wp_bind, wp_bind, check_spec; [done|]. apply wp_bind, wp_read. rewrite Hh, Z.eqb_refl. cbn [negb].
  apply wp_bind. eapply wp_lift; [eapply descriptor_get_spec; [apply Hb|exact Hd]|]. rewrite He, Z.eqb_refl. cbn [negb]. destruct (Z.leb_spec (max_objects (config h)) (objects (physical h))) as [Hle|Hlt].
  { apply wp_fail, HE; [by eexists|]. split; [done|done|by split]. }
  apply wp_ret. rewrite <- He in *. eapply allocate_spec; [exact Hg|exact Hrun|exact Hd|lia|exact HE|exact HQ].
Qed.

Lemma layout_pointer_spec (E : GcFailure → Heap → Prop) h lay r hd Q : running h → layout_heap lay = heap_id h → headers (physical h) !! r = Some hd →
  (hdr_descriptor hd ≠ desc_id (layout_descriptor lay) → E (GcErr Representation) h) → (hdr_descriptor hd = desc_id (layout_descriptor lay) → Q tt h) → wp E (layout_pointer lay r) Q h.
Proof.
  intros Hrun Hh Hr HE HQ. unfold layout_pointer. apply wp_bind, check_spec; [done|]. apply wp_bind, wp_read. rewrite Hh, Z.eqb_refl. cbn [negb]. rewrite Hr.
  destruct (Z.eqb_spec (hdr_descriptor hd) (desc_id (layout_descriptor lay))); [by apply wp_ret, HQ|by apply wp_fail, HE].
Qed.

Section Fields.
Context (E : GcFailure → Heap → Prop) (h : Heap) (pages : gmap Z Page) (l : list Z) (av : nat → list Z) (rm : gmap Z RootSlot) (dm : gmap Z DescriptorEntry).
Context (lay : DynamicLayout) (e : DescriptorEntry) (i : nat) (fd : Field) (r : ObjectRef) (hd : ObjectHeader).
Context (Hg : good h pages l av rm dm) (Hrun : running h) (Hlay : layout_ok h dm lay e) (Hfd : shape_fields (desc_shape (layout_descriptor lay)) !! i = Some fd).
Context (Hr : headers (physical h) !! r = Some hd).
Context (Hrep : hdr_descriptor hd ≠ desc_id (layout_descriptor lay) → E (GcErr Representation) h).
Notation f := {| field_layout_of := lay; field_at := field_offset fd |}.

Lemma field_payload : hdr_descriptor hd = desc_id (layout_descriptor lay) → ∃ pl, payloads (physical h) !! r = Some pl
  ∧ match pl !! field_offset fd with Some (VReference _) => field_kind fd = FReference | Some (VScalar _) => field_kind fd ≠ FReference | None => False end.
Proof.
  intros Heq. destruct Hlay as (_ & Hd & He). destruct Hg as [[Hb _] _]. rewrite <- Heq in Hd. destruct (ba_payloads _ _ _ _ _ _ _ Hb r hd e Hr Hd) as (pl & Hpl & Ht & _). exists pl. split; [done|].
  rewrite He in Ht. by apply (Ht i).
Qed.
Lemma scalar_get_spec Q : field_kind fd ≠ FReference →
  (∀ pl bits, hdr_descriptor hd = desc_id (layout_descriptor lay) → payloads (physical h) !! r = Some pl → pl !! field_offset fd = Some (VScalar bits) → Q bits h) → wp E (scalar_get f r) Q h.
Proof.
  intros Hk HQ. unfold scalar_get. apply wp_bind. eapply layout_pointer_spec; [done|apply Hlay|exact Hr|exact Hrep|]. intros Heq. destruct (field_payload Heq) as (pl & Hpl & Hv).
  apply wp_bind, wp_read, wp_bind. cbn [field_at]. destruct (pl !! field_offset fd) as [[bits|t]|] eqn:Ho; [|done|done]. eapply wp_lift; [unfold payload_read; by rewrite Hpl; cbn; rewrite Ho|]. apply wp_ret. by eapply HQ.
Qed.
Lemma reference_get_spec Q : field_kind fd = FReference →
  (∀ pl t, hdr_descriptor hd = desc_id (layout_descriptor lay) → payloads (physical h) !! r = Some pl → pl !! field_offset fd = Some (VReference t) →
     (∀ x, t = Some x → present (physical h) x) ∧ Q t h) → wp E (reference_get f r) Q h.
Proof.
  intros Hk HQ. unfold reference_get. apply wp_bind. eapply layout_pointer_spec; [done|apply Hlay|exact Hr|exact Hrep|]. intros Heq. destruct (field_payload Heq) as (pl & Hpl & Hv).
  apply wp_bind, wp_read, wp_bind. cbn [field_at]. destruct (pl !! field_offset fd) as [[bits|t]|] eqn:Ho; [done| |done]. eapply wp_lift; [unfold payload_read; by rewrite Hpl; cbn; rewrite Ho|].
  destruct (HQ pl t Heq Hpl Ho) as [Hp Hq]. destruct t as [t|]; [|by apply wp_ret]. destruct Hg as [[Hb _] _]. destruct (locate_present _ _ _ _ _ _ t Hb (Hp t eq_refl)) as (hd' & pg & s & e' & Hloc).
  apply wp_bind. eapply wp_lift; [apply Hloc|]. by apply wp_ret.
Qed.
Lemma scalar_set_spec bits Q : field_kind fd ≠ FReference →
  (∀ pl, let h' := set_physical (set_payloads (<[r := <[field_offset fd := VScalar bits]> pl]> (payloads (physical h))) (physical h)) h in
     hdr_descriptor hd = desc_id (layout_descriptor lay) → payloads (physical h) !! r = Some pl → good h' pages l av rm dm → Q tt h') → wp E (scalar_set f r bits) Q h.
Proof.
  intros Hk HQ. unfold scalar_set. apply wp_bind. eapply layout_pointer_spec; [done|apply Hlay|exact Hr|exact Hrep|]. intros Heq. destruct (field_payload Heq) as (pl & Hpl & Hv).
  unfold payload_write. apply wp_bind, wp_read. rewrite Hpl. apply wp_physical, wp_modify. apply HQ; [done|done|]. destruct Hlay as (_ & Hd & He). cbn [field_layout_of] in Heq. rewrite <- Heq in Hd. rewrite <- He in Hfd.
  eapply good_write; [exact Hg|exact Hr|exact Hd|exact Hpl|exact Hfd|exact Hk].
Qed.
End Fields.

(** The write barrier: publication, then the store. *)
Lemma published_covers h h' pages pages' l av rm dm r st b' : published h h' pages pages' l av rm dm r st None b' → held h pages r →
  (∀ x, held h pages x → held h' pages' x) ∧ covered h' pages' r.
Proof.
  intros [Q1 [M1 M2 M3 M4 M5 M6 M7 M8 M9 M10 M11 M12 M13 M14 M15] Q3 Q4 Q5 Q6 Q7] Hr. assert (∀ x, held h pages x → held h' pages' x) as Hheld.
  { intros x [Hx Hxs]. unfold held, present. rewrite M1, M12, M13. split; [done|]. intros Hsw. destruct Q7 as [[-> ->]|(_ & _ & _ & _ & Hbk & _)]; [by apply Hxs|]. apply Hbk. by apply Hxs. }
  split; [done|]. destruct (Hheld r Hr) as [K1 K2]. split; [done|]. split; [|done].
  intros Hmp. assert (marking_phase h) as Hmp0 by (unfold marking_phase in *; by rewrite M12 in Hmp). rewrite M13. apply Q6; [|done]. destruct b'; cbn in Q3; done.
Qed.
Definition stored (h h' : Heap) (pages pages' : gmap Z Page) (l : list Z) (av : nat → list Z) (rm : gmap Z RootSlot) (dm : gmap Z DescriptorEntry) (r : ObjectRef) : Prop :=
  good h' pages' l av rm dm ∧ marked h h' ∧ (∀ x, held h pages x → held h' pages' x) ∧ covered h' pages' r.
Lemma publish_covers (E : GcFailure → Heap → Prop) h pages l av rm dm r Q : good h pages l av rm dm → running h → held h pages r → (∀ e, limited e → E e h) →
  (∀ st h' pages', stored h h' pages pages' l av rm dm r → Q st h') → wp E (publish r None) Q h.
Proof.
  intros Hg Hrun Hr HE HQ. eapply publish_spec; [exact Hg|exact Hrun|apply Hr|apply Hr|done|auto|]. intros st b' h' pages' Hpub. destruct (published_covers _ _ _ _ _ _ _ _ _ _ _ Hpub Hr).
  eapply HQ. split_and!; [apply Hpub|apply Hpub|done|done].
Qed.
Lemma good_faulted h pages l av rm dm : good h pages l av rm dm → good (set_marking (set_phase Faulted (marking h)) h) pages l av rm dm.
Proof. intros [[Hb Hm] _]. split; [split; [by eapply (based_heap h)|destruct Hm; by split]|done]. Qed.
Lemma scope_publish_spec (E : GcFailure → Heap → Prop) h pages l av rm dm r Q : good h pages l av rm dm → running h → held h pages r →
  (∀ e, limited e → E e (set_marking (set_phase Faulted (marking h)) h)) →
  (∀ h' pages', stored h h' pages pages' l av rm dm r → Q tt h') → wp E (scope_publish r) Q h.
Proof.
  intros Hg Hrun Hr HE HQ. unfold scope_publish. apply wp_bind, wp_read. case_bool_decide as Hidle.
  { apply wp_ret. apply (HQ h pages). split_and!; [done|done|done|]. split; [apply Hr|]. split; [intros [?|?]; congruence|congruence]. }
  assert (wp (λ e h', limited e ∧ h' = h) (publish_admitted r None) (λ _ h', ∃ pages', stored h h' pages pages' l av rm dm r) h) as Hpub.
  { eapply publish_admitted_spec; [exact Hg|exact Hrun|apply Hr|apply Hr|done|done|]. intros st b' h' pages' Hp. destruct (published_covers _ _ _ _ _ _ _ _ _ _ _ Hp Hr). exists pages'. split_and!; [apply Hp|apply Hp|done|done]. }
  unfold wp in *. destruct (publish_admitted r None h) as [[a|e] h'].
  - destruct Hpub as [pages' Hp]. by eapply HQ.
  - destruct Hpub as [[why ->] ->]. apply HE. by eexists.
Qed.
Lemma reference_set_spec (E : GcFailure → Heap → Prop) h pages l av rm dm lay e i fd r hd value Q : good h pages l av rm dm → running h → layout_ok h dm lay e →
  shape_fields (desc_shape (layout_descriptor lay)) !! i = Some fd → field_kind fd = FReference → headers (physical h) !! r = Some hd → (∀ x, value = Some x → held h pages x) →
  (hdr_descriptor hd ≠ desc_id (layout_descriptor lay) → E (GcErr Representation) h) → (∀ e, limited e → E e (set_marking (set_phase Faulted (marking h)) h)) →
  (∀ h1 pages' pl, let h' := set_physical (set_payloads (<[r := <[field_offset fd := VReference value]> pl]> (payloads (physical h1))) (physical h1)) h1 in
     hdr_descriptor hd = desc_id (layout_descriptor lay) → payloads (physical h) !! r = Some pl → marked h h1 → (∀ x, held h pages x → held h' pages' x) → good h' pages' l av rm dm → Q tt h') →
  wp E (reference_set {| field_layout_of := lay; field_at := field_offset fd |} r value) Q h.
Proof.
  intros Hg Hrun Hlay Hfd Hk Hr Hval Hrep HE HQ. unfold reference_set. apply wp_bind. eapply layout_pointer_spec; [done|apply Hlay|exact Hr|exact Hrep|]. intros Heq. cbn [field_layout_of] in Heq.
  destruct (field_payload h pages l av rm dm lay e i fd r hd Hg Hlay Hfd Hr Heq) as (pl & Hpl & _). apply wp_bind.
  assert (∀ h1 pages1, good h1 pages1 l av rm dm → marked h h1 → (∀ x, held h pages x → held h1 pages1 x) → (∀ x, value = Some x → covered h1 pages1 x) →
    wp E (payload_write r (field_offset fd) (VReference value)) Q h1) as Hwrite.
  { intros h1 pages1 Hg1 Hm1 Hh1 Hc1. unfold payload_write. apply wp_bind, wp_read. rewrite (md_payloads _ _ Hm1), Hpl. apply wp_physical, wp_modify. destruct Hlay as (_ & Hd & He). rewrite <- Heq in Hd. rewrite <- He in Hfd.
    apply (HQ h1 pages1 pl); [done|done|done|done|]. eapply good_write; [exact Hg1|by rewrite (md_headers _ _ Hm1)|exact Hd|by rewrite (md_payloads _ _ Hm1)|exact Hfd|done]. }
  destruct value as [t|]; cbn [when_some].
  - eapply scope_publish_spec; [exact Hg|exact Hrun|by apply Hval|exact HE|]. intros h1 pages1 (S1 & S2 & S3 & S4). eapply Hwrite; [exact S1|done|done|]. by intros x [= <-].
  - apply wp_ret. eapply Hwrite; [exact Hg|done|done|done].
Qed.

(** ** Roots *)
(** Objects, layouts and the phase stay as they are. *)
Record quiet (h h' : Heap) (pages pages' : gmap Z Page) : Prop := {
  qt_headers : headers (physical h') = headers (physical h); qt_payloads : payloads (physical h') = payloads (physical h);
  qt_id : heap_id h' = heap_id h; qt_config : config h' = config h; qt_phase : phase (marking h') = phase (marking h); qt_held : ∀ x, held h pages x → held h' pages' x
}.
Lemma quiet_roots h pages r' : quiet h (set_roots r' h) pages pages.
Proof. by split. Qed.
Lemma quiet_stored h h' pages pages' l av rm dm r : stored h h' pages pages' l av rm dm r → quiet h h' pages pages'.
Proof. intros (S1 & [] & S3 & S4). by split. Qed.
Lemma quiet_trans h h1 h2 pages pages1 pages2 : quiet h h1 pages pages1 → quiet h1 h2 pages1 pages2 → quiet h h2 pages pages2.
Proof. intros [] []. split; try congruence. auto. Qed.
Lemma quiet_running h h' pages pages' : quiet h h' pages pages' → running h → running h'.
Proof. intros Hq. unfold running. by rewrite (qt_phase _ _ _ _ Hq). Qed.
Lemma rerooted_refl h pages rm : rerooted h pages rm rm [].
Proof. split; [|by eexists]. intros s e He. left. exists e. split_and!; try done. by left. Qed.
Lemma good_prepared h pages l av rm dm r' : good h pages l av rm dm → roots_ok r' rm → roots_heap r' = roots_heap (roots h) → root_active r' = root_active (roots h) →
  port_pending (port r') = port_pending (port (roots h)) → good (set_roots r' h) pages l av rm dm.
Proof. intros Hg Hr Hh Ha Hp. eapply (good_roots _ _ _ _ _ _ _ _ []); [exact Hg|exact Hr|exact Hh|by rewrite Ha, app_nil_r|unfold pending_releases; by rewrite Hp|apply rerooted_refl]. Qed.

(** A new registration. *)
Record registered (h h' : Heap) (pages pages' : gmap Z Page) (l : list Z) (av : nat → list Z) (rm : gmap Z RootSlot) (dm : gmap Z DescriptorEntry)
    (lease : RootId) (is_typed : bool) (ts : list (option ObjectRef)) : Prop := {
  rd_slot : ∃ s, good h' pages' l av (<[root_slot lease := s]> rm) dm ∧ rm !! root_slot lease = None ∧ leased (roots h') (<[root_slot lease := s]> rm) lease s
    ∧ strong (entry s) = 1 ∧ typed (entry s) = is_typed ∧ targets (entry s) = ts;
  rd_quiet : quiet h h' pages pages'
}.
Lemma commit_roots_spec E h h0 pages pages0 l av rm dm count is_typed prep target Q : good h pages l av rm dm → prepared_ok (roots h) rm count is_typed prep → quiet h0 h pages0 pages →
  (∀ t, target = Some t → covered h pages t) →
  (∀ h', registered h0 h' pages0 pages l av rm dm (prepared_lease prep) is_typed (<[0 := target]> (replicate count None)) → Q (prepared_lease prep) h') → wp E (on_roots (roots_commit prep target)) Q h.
Proof.
  intros Hg Hp Hq Hc HQ. apply wp_roots. eapply commit_spec_roots; [exact Hp|]. intros r' Hr' Hno Hl Hh Ha Hpe. apply HQ. split; [|eapply quiet_trans; [exact Hq|apply quiet_roots]]. eexists. split.
  - eapply (good_roots _ _ _ _ _ _ _ _ [_]); [exact Hg|exact Hr'|exact Hh|exact Ha|unfold pending_releases; by rewrite Hpe|]. split.
    + intros s e' [[<- <-]|[Hne He']]%lookup_insert_Some.
      * right. split; [done|]. intros t Ht. cbn [entry targets set_target] in Ht. rewrite (pp_entry _ _ _ _ _ Hp) in Ht. cbn in Ht. apply list_elem_of_lookup_1 in Ht as [k Hk].
        destruct (decide (k = 0)) as [->|Hk0]; [|rewrite list_lookup_insert_ne in Hk by done; apply lookup_replicate in Hk as [? _]; done].
        destruct count; [done|]. cbn in Hk. injection Hk as ->. by apply Hc.
      * left. exists e'. split_and!; try done. by left.
    + intros s e He. destruct (decide (s = root_slot (prepared_lease prep))) as [->|]; [rewrite lookup_insert_eq; by eexists|rewrite lookup_insert_ne by done; by eexists].
  - split; [done|]. split; [exact Hl|]. cbn [entry set_target strong typed targets]. rewrite (pp_entry _ _ _ _ _ Hp). done.
Qed.
Lemma retention_spec (E : GcFailure → Heap → Prop) h pages l av rm dm r Q : good h pages l av rm dm → running h → held h pages r →
  (∀ e h' pages', limited e → good h' pages' l av rm dm → quiet h h' pages pages' → E e h') →
  (∀ lease h' pages', registered h h' pages pages' l av rm dm lease true [Some r] → Q lease h') → wp E (retention r) Q h.
Proof.
  intros Hg Hrun Hr HE HQ. pose proof Hg as [[Hb _] _]. unfold retention. apply wp_bind, wp_read, wp_bind. destruct (locate_present _ _ _ _ _ _ r Hb (proj1 Hr)) as (hd & pg & s & e & Hloc).
  eapply wp_lift; [apply Hloc|]. apply wp_bind, wp_roots. eapply prepare_spec_roots; [apply Hb|..].
  - intros e' r' He' Hr' Hh Ha Hp. eapply (HE _ _ pages); [exact He'|by eapply good_prepared|apply quiet_roots].
  - intros prep r' Hp Hh Ha Hpe. set (h1 := set_roots r' h). assert (good h1 pages l av rm dm) as Hg1 by (eapply good_prepared; [exact Hg|apply Hp|done|done|done]).
    apply wp_bind. eapply (publish_covers _ h1 pages); [exact Hg1|exact Hrun|exact Hr|..].
    + intros e' He'. eapply (HE _ _ pages); [exact He'|exact Hg1|apply quiet_roots].
    + intros st h2 pages2 Hst. eapply (commit_roots_spec _ h2 h pages2 pages); [apply Hst|..].
      * by rewrite (md_roots _ _ (proj1 (proj2 Hst))).
      * eapply quiet_trans; [apply quiet_roots|by eapply quiet_stored].
      * intros t [= <-]. apply Hst.
      * intros h' Hrd. by eapply HQ.
Qed.
Lemma retain_spec (E : GcFailure → Heap → Prop) h pages l av rm dm r Q : good h pages l av rm dm → running h → held h pages r →
  (∀ e h' pages', limited e → good h' pages' l av rm dm → quiet h h' pages pages' → E e h') →
  (∀ lease h' pages', registered h h' pages pages' l av rm dm lease true [Some r] → Q lease h') → wp E (retain r) Q h.
Proof. intros. apply wp_bind, check_spec; [done|]. by eapply retention_spec. Qed.
Lemma create_roots_spec (E : GcFailure → Heap → Prop) h pages l av rm dm n Q : good h pages l av rm dm → running h →
  (∀ e h' pages', limited e → good h' pages' l av rm dm → quiet h h' pages pages' → E e h') →
  (∀ lease h' pages', registered h h' pages pages' l av rm dm lease false (replicate n None) → Q lease h') → wp E (create_roots n) Q h.
Proof.
  intros Hg Hrun HE HQ. pose proof Hg as [[Hb _] _]. unfold create_roots. apply wp_bind, check_spec; [done|]. apply wp_bind, wp_read, wp_bind, wp_roots. eapply prepare_spec_roots; [apply Hb|..].
  - intros e' r' He' Hr' Hh Ha Hp. eapply (HE _ _ pages); [exact He'|by eapply good_prepared|apply quiet_roots].
  - intros prep r' Hp Hh Ha Hpe. set (h1 := set_roots r' h). assert (good h1 pages l av rm dm) as Hg1 by (eapply good_prepared; [exact Hg|apply Hp|done|done|done]).
    eapply (commit_roots_spec _ h1 h pages pages); [exact Hg1|exact Hp|apply quiet_roots|done|]. intros h' Hrd. replace (<[0 := None]> (replicate n None)) with (replicate n (@None ObjectRef)) in Hrd by (by destruct n).
    by eapply HQ.
Qed.

Section Packs.
Context (E : GcFailure → Heap → Prop) (h : Heap) (pages : gmap Z Page) (l : list Z) (av : nat → list Z) (rm : gmap Z RootSlot) (dm : gmap Z DescriptorEntry).
Context (lease : RootId) (s : RootSlot) (Hg : good h pages l av rm dm) (Hrun : running h) (Hl : leased (roots h) rm lease s).

Lemma based_roots : roots_ok (roots h) rm.
Proof. destruct Hg as [[[] _] _]. done. Qed.
Lemma live_target k t : targets (entry s) !! k = Some (Some t) → live_root rm t.
Proof. intros Hk. destruct Hl as (_ & Hs & _ & Hst). exists (root_slot lease), s. split_and!; [done|done|]. by eapply list_elem_of_lookup_2. Qed.
Lemma live_held t : live_root rm t → held h pages t.
Proof.
  intros Ht. destruct Hg as [_ Htri]. destruct Hrun as [R1 R2]. unfold held, tri in *. destruct (phase (marking h)); try done; try (split; [|done]; by apply Htri).
  destruct Htri as [S1 S2 S3 S4 S5 S6]. split; [|intros _; by apply S4]. destruct Hg as [[Hb Hm] _]. destruct (S4 t Ht) as (id & pg & x & Hp & Hx & Hbk).
  pose proof (mk_occ _ _ Hm id pg x Hp (mk_black _ _ Hm id pg x Hp Hbk)) as Ho. destruct (ct_occ _ _ _ (ba_contents _ _ _ _ _ _ _ Hb) id pg x Hp Ho) as (r & hd & Hr & Hh & _).
  apply pointer_slot_of in Hx. assert (r = t) as -> by congruence. by eexists.
Qed.
Lemma resolve_held t : held h pages t → ∃ o, resolve (physical h) t = Ok o.
Proof. intros [Hp _]. destruct Hg as [[Hb _] _]. destruct (locate_present _ _ _ _ _ _ t Hb Hp) as (hd & pg & x & e & Hloc). eexists. apply Hloc. Qed.

Lemma scope_get_spec Q : (typed (entry s) = false → E (GcErr Representation) h) →
  (∀ t ts, typed (entry s) = true → targets (entry s) = Some t :: ts → held h pages t → Q t h) → (typed (entry s) = true → ∃ t ts, targets (entry s) = Some t :: ts) → wp E (scope_get lease) Q h.
Proof.
  intros HE HQ Hty. unfold scope_get. apply wp_bind, check_spec; [done|]. apply wp_bind, wp_read. unfold typed_root, root_target. rewrite (admit_spec _ _ _ _ based_roots Hl). destruct (typed (entry s)) eqn:Ety; cbn [negb]; [|by apply HE].
  destruct (Hty eq_refl) as (t & ts & Hts). assert (held h pages t) as Hh by (eapply live_held, (live_target 0); by rewrite Hts). rewrite Hts. cbn. destruct (resolve_held t Hh) as [o ->]. by eapply HQ.
Qed.
Lemma get_root_spec index Q : (∀ t, targets (entry s) !! index = Some (Some t) → held h pages t → Q t h) →
  ((∀ t, targets (entry s) !! index ≠ Some (Some t)) → E (GcErr IndexOutside) h) → wp E (get_root lease index) Q h.
Proof.
  intros HQ HE. unfold get_root. apply wp_bind, check_spec; [done|]. apply wp_bind, wp_read, wp_bind. eapply wp_of_result; [exact (admit_spec _ _ _ _ based_roots Hl)|]. apply wp_bind. unfold pack_target.
  destruct (targets (entry s) !! index) as [[t|]|] eqn:Ht; [|by apply HE; intros t ?; congruence..]. eapply wp_lift; [done|]. pose proof (live_held t (live_target index t Ht)) as Hh. destruct (resolve_held t Hh) as [o Ho].
  apply wp_bind. eapply wp_lift; [exact Ho|]. apply wp_ret. by apply HQ.
Qed.
Lemma root_at_spec index Q : (typed (entry s) = true → E (GcErr Representation) h) → (typed (entry s) = false → (∀ t, targets (entry s) !! index ≠ Some (Some t)) → E (GcErr IndexOutside) h) →
  (∀ e h' pages', limited e → good h' pages' l av rm dm → quiet h h' pages pages' → E e h') →
  (∀ t lease' h' pages', typed (entry s) = false → targets (entry s) !! index = Some (Some t) → registered h h' pages pages' l av rm dm lease' true [Some t] → Q lease' h') → wp E (root_at lease index) Q h.
Proof.
  intros HR HE HL HQ. unfold root_at. apply wp_bind, check_spec; [done|]. apply wp_bind, wp_read, wp_bind. eapply wp_of_result; [exact (admit_spec _ _ _ _ based_roots Hl)|]. destruct (typed (entry s)) eqn:Ety; [by apply wp_fail, HR|].
  apply wp_bind. unfold pack_target. destruct (targets (entry s) !! index) as [[t|]|] eqn:Ht; [|by apply HE; [done|intros t ?; congruence]..]. eapply wp_lift; [done|].
  eapply retention_spec; [exact Hg|exact Hrun|exact (live_held t (live_target index t Ht))|exact HL|]. intros lease' h' pages' Hrd. by eapply HQ.
Qed.

(** Writing a pack slot; [value] is covered. *)
Record rewritten (h0 h' : Heap) (pages0 pages' : gmap Z Page) (index : nat) (value : option ObjectRef) : Prop := {
  rw_good : good h' pages' l av (<[root_slot lease := with_entry (set_target index value) s]> rm) dm; rw_quiet : quiet h0 h' pages0 pages';
  rw_heap : roots_heap (roots h') = roots_heap (roots h0)
}.
Lemma pack_write h1 pages1 index value Q : quiet h h1 pages pages1 → good h1 pages1 l av rm dm → roots h1 = roots h → typed (entry s) = false → index < length (targets (entry s)) → (∀ t, value = Some t → covered h1 pages1 t) →
  (∀ h', rewritten h h' pages pages1 index value → Q tt h') → wp E (on_roots (replace_write lease index value)) Q h1.
Proof.
  intros Hq Hg1 Hr Ht Hi Hc HQ. apply wp_roots. rewrite Hr. eapply replace_write_spec; [exact based_roots|exact Hl|exact Hi|]. intros t Hok. rewrite <- Hr in Hok |- *. apply HQ.
  split; [|eapply quiet_trans; [exact Hq|apply quiet_roots]|cbn; by rewrite Hr]. destruct Hl as (_ & Hs & _ & Hst). eapply (good_roots _ _ _ _ _ _ _ _ []); [exact Hg1|exact Hok|done|by rewrite app_nil_r|done|]. split.
  - intros j e' [[<- <-]|[Hne He']]%lookup_insert_Some; left; [exists s|exists e'; split_and!; try done; by left]. split_and!; [done|done|cbn; by rewrite length_insert|done|].
    intros k x Hk. cbn in Hk. apply list_lookup_insert_Some in Hk as [(_ & -> & _)|[_ Hk]]; [right; by apply Hc|by left].
  - intros j e He. destruct (decide (j = root_slot lease)) as [->|]; [rewrite lookup_insert_eq; by eexists|rewrite lookup_insert_ne by done; by eexists].
Qed.
Lemma replace_admit_spec index : replace_admit (roots h) lease index = if typed (entry s) || (length (targets (entry s)) <=? index) then Err IndexOutside else Ok tt.
Proof. unfold replace_admit. by rewrite (admit_spec _ _ _ _ based_roots Hl). Qed.
Lemma set_root_spec index value Q : (∀ t, value = Some t → held h pages t) → (∀ e, limited e → E e h) → (typed (entry s) = true ∨ length (targets (entry s)) ≤ index → E (GcErr IndexOutside) h) →
  (∀ h' pages', typed (entry s) = false → index < length (targets (entry s)) → rewritten h h' pages pages' index value → Q tt h') → wp E (set_root lease index value) Q h.
Proof.
  intros Hv HL HE HQ. unfold set_root. apply wp_bind, check_spec; [done|]. apply wp_bind, wp_read, wp_bind. rewrite replace_admit_spec. destruct (typed (entry s)) eqn:Ety; cbn [orb]; [apply HE; by left|].
  destruct (Nat.leb_spec (length (targets (entry s))) index) as [Hle|Hlt]; [apply HE; by right|]. apply wp_ret, wp_bind. destruct value as [t|]; cbn [when_some].
  - apply wp_bind. eapply publish_covers; [exact Hg|exact Hrun|by apply Hv|exact HL|]. intros st h1 pages1 Hst. apply wp_ret. eapply (pack_write h1 pages1); [by eapply quiet_stored|apply Hst|apply Hst|done|done| |].
    + intros x [= <-]. apply Hst.
    + intros h' Hw. by eapply HQ.
  - apply wp_ret. eapply (pack_write h pages); [by split|exact Hg|done|done|done|done|]. intros h' Hw. by eapply HQ.
Qed.
Lemma clear_root_spec index Q : (typed (entry s) = true ∨ length (targets (entry s)) ≤ index → E (GcErr IndexOutside) h) →
  (∀ h' pages', typed (entry s) = false → index < length (targets (entry s)) → rewritten h h' pages pages' index None → Q tt h') → wp E (clear_root lease index) Q h.
Proof.
  intros HE HQ. unfold clear_root. apply wp_bind, check_spec; [done|]. apply wp_bind, wp_read, wp_bind. rewrite replace_admit_spec. destruct (typed (entry s)) eqn:Ety; cbn [orb]; [apply HE; by left|].
  destruct (Nat.leb_spec (length (targets (entry s))) index) as [Hle|Hlt]; [apply HE; by right|]. apply wp_ret. eapply (pack_write h pages); [by split|exact Hg|done|done|done|done|]. intros h' Hw. by eapply HQ.
Qed.
End Packs.

Lemma replace_root_spec (E : GcFailure → Heap → Prop) h pages l av rm dm lease s source s' index Q : good h pages l av rm dm → running h → leased (roots h) rm lease s → leased (roots h) rm source s' →
  (typed (entry s') = true → ∃ t ts, targets (entry s') = Some t :: ts) → (∀ e, limited e → E e h) → (typed (entry s) = true ∨ length (targets (entry s)) ≤ index → E (GcErr IndexOutside) h) →
  (typed (entry s) = false → index < length (targets (entry s)) → typed (entry s') = false → E (GcErr Representation) h) →
  (∀ t ts h' pages', typed (entry s) = false → index < length (targets (entry s)) → typed (entry s') = true → targets (entry s') = Some t :: ts →
     rewritten l av rm dm lease s h h' pages pages' index (Some t) → Q tt h') → wp E (replace_root lease index source) Q h.
Proof.
  intros Hg Hrun Hl Hl' Hty HL HE HR HQ. unfold replace_root. apply wp_bind, check_spec; [done|]. apply wp_bind, wp_read, wp_bind. rewrite (replace_admit_spec h pages l av rm dm lease s Hg Hl).
  destruct (typed (entry s)) eqn:Ety; cbn [orb]; [apply HE; by left|]. destruct (Nat.leb_spec (length (targets (entry s))) index) as [Hle|Hlt]; [apply HE; by right|]. apply wp_ret, wp_bind.
  unfold typed_root, root_target. rewrite (admit_spec _ _ _ _ (based_roots h pages l av rm dm Hg) Hl'). destruct (typed (entry s')) eqn:Ety'; cbn [negb]; [|by apply HR].
  destruct (Hty eq_refl) as (t & ts & Hts). rewrite Hts. cbn [lookup list_lookup]. assert (held h pages t) as Hh.
  { eapply (live_held h pages l av rm dm Hg Hrun), (live_target h rm source s' Hl' 0). by rewrite Hts. }
  destruct (resolve_held h pages l av rm dm Hg t Hh) as [o ->]. eapply wp_lift; [done|]. apply wp_bind. eapply publish_covers; [exact Hg|exact Hrun|exact Hh|exact HL|]. intros st h1 pages1 Hst.
  eapply (pack_write E h pages l av rm dm lease s Hg Hl h1 pages1); [by eapply quiet_stored|apply Hst|apply Hst|done|done| |].
  - intros x [= <-]. apply Hst.
  - intros h' Hw. by eapply HQ.
Qed.

(** Cloning and dropping a root handle. *)
Lemma clone_lease_spec h pages l av rm dm lease s : good h pages l av rm dm → leased (roots h) rm lease s →
  good (set_roots (clone_lease lease (roots h)) h) pages l av (<[root_slot lease := with_entry (λ e, set_strong (S (strong e)) e) s]> rm) dm.
Proof.
  intros Hg Hl. pose proof (clone_lease_ok _ _ _ _ (based_roots _ _ _ _ _ _ Hg) Hl) as Hok. destruct Hl as (_ & Hs & _ & Hst).
  eapply (good_roots _ _ _ _ _ _ _ _ []); [exact Hg|exact Hok|done|by rewrite app_nil_r|done|]. split.
  - intros j e' [[<- <-]|[Hne He']]%lookup_insert_Some; left; [exists s; split_and!; try done; by left|exists e'; split_and!; try done; by left].
  - intros j e He. destruct (decide (j = root_slot lease)) as [->|]; [rewrite lookup_insert_eq; by eexists|rewrite lookup_insert_ne by done; by eexists].
Qed.
Lemma drop_root_spec E h pages l av rm dm lease s Q : good h pages l av rm dm → leased (roots h) rm lease s →
  (∀ h', good h' pages l av (<[root_slot lease := with_entry (set_strong (strong (entry s) - 1)) s]> rm) dm → quiet h h' pages pages → Q tt h') → wp E (on_roots (drop_lease lease)) Q h.
Proof.
  intros Hg Hl HQ. apply wp_roots. eapply drop_lease_spec; [exact (based_roots _ _ _ _ _ _ Hg)|exact Hl|]. intros r' Hok Hh Ha Hp. apply HQ; [|apply quiet_roots]. destruct Hl as (_ & Hs & _ & Hst).
  eapply (good_roots _ _ _ _ _ _ _ _ []); [exact Hg|exact Hok|done|by rewrite Ha, app_nil_r|unfold pending_releases; rewrite Hp, length_app; lia|]. split.
  - intros j e' [[<- <-]|[Hne He']]%lookup_insert_Some; left; [exists s; split_and!; try done; by left|exists e'; split_and!; try done; by left].
  - intros j e He. destruct (decide (j = root_slot lease)) as [->|]; [rewrite lookup_insert_eq; by eexists|rewrite lookup_insert_ne by done; by eexists].
Qed.
