(* ===== verification/GcClient.v ===== *)
(** * Managed heap: what a client sees

    A client of the heap issues requests through the handles it holds: layouts, roots and,
    inside a scope, objects.  Collection work may run between scopes.  [specify] is the
    contract it programs against: an object store in which nothing is ever freed, fields
    are named by their declared positions, and there is no collector.  The heap refines
    that store: every answer is the one the store gives, or a refusal that changed
    nothing.  Rust's ownership rules decide which requests can be written down: a request
    that names a handle the client does not hold, or collects inside a scope, is
    [Inexpressible]. *)
From stdpp Require Import gmap fin_maps.
From S2P Require Import Prelude SlotBits GcBase GcTable GcPage GcColors GcDynamic GcHeap GcStorage GcSlots GcRoots GcRootsProps GcMark GcService GcMutator GcInv GcMarkProps GcMeasure GcScanProps GcSweepProps GcSweepLoop GcCollect GcAllocProps GcMutatorProps.
Open Scope nat_scope.

(** ** Requests *)
(** A field key: the builder that minted it and the position it was minted for. *)
Definition Key : Set := (nat * nat)%type.
Inductive Request : Set :=
| Register (kinds : list FieldType) | CloneLayout (layout : nat) | DropLayout (layout : nat)
| Alloc (layout : nat)
| GetScalar (layout : nat) (key : Key) (object : nat) | SetScalar (layout : nat) (key : Key) (object : nat) (bits : Z)
| GetReference (layout : nat) (key : Key) (object : nat) | SetReference (layout : nat) (key : Key) (object : nat) (value : option nat)
| Retain (object : nat) | Admit (root : nat) | CreateRoots (slots : nat)
| GetRoot (root index : nat) | SetRoot (root index : nat) (value : option nat) | ReplaceRoot (root index source : nat) | ClearRoot (root index : nat)
| RootAt (root index : nat) | CloneRoot (root : nat) | DropRoot (root : nat)
| EndScope | Step (allowance : Z) | Trim.
Inductive Answer : Set := Done | Bits (bits : Z) | Null | Handle | Inexpressible.

(** ** The client of the heap *)
Record Client : Type := {
  c_heap : Heap; c_builders : list (list FieldType); c_layouts : list DynamicLayout; c_leases : list RootId; c_locals : list ObjectRef
}.
Definition with_heap (h : Heap) (c : Client) : Client :=
  {| c_heap := h; c_builders := c_builders c; c_layouts := c_layouts c; c_leases := c_leases c; c_locals := c_locals c |}.
Definition set_layouts (x : list DynamicLayout) (c : Client) : Client :=
  {| c_heap := c_heap c; c_builders := c_builders c; c_layouts := x; c_leases := c_leases c; c_locals := c_locals c |}.
Definition set_leases (x : list RootId) (c : Client) : Client :=
  {| c_heap := c_heap c; c_builders := c_builders c; c_layouts := c_layouts c; c_leases := x; c_locals := c_locals c |}.
Definition set_locals (x : list ObjectRef) (c : Client) : Client :=
  {| c_heap := c_heap c; c_builders := c_builders c; c_layouts := c_layouts c; c_leases := c_leases c; c_locals := x |}.
Definition client_new (h : Heap) : Client := {| c_heap := h; c_builders := []; c_layouts := []; c_leases := []; c_locals := [] |}.

Definition Outcome (S : Type) : Type := (result Answer GcFailure * S)%type.
(** An operation of the heap, and what the client does with its answer. *)
Definition ask {A} (m : M Heap A) (c : Client) (k : A → Client → Outcome Client) : Outcome Client :=
  match m (c_heap c) with (Ok a, h) => k a (with_heap h c) | (Err e, h) => (Err e, with_heap h c) end.
Definition answered (x : Answer) (c : Client) : Outcome Client := (Ok x, c).
Definition push_local (r : ObjectRef) (c : Client) : Outcome Client := (Ok Handle, set_locals (c_locals c ++ [r]) c).
Definition push_lease (id : RootId) (c : Client) : Outcome Client := (Ok Handle, set_leases (c_leases c ++ [id]) c).

(** The kind a key was minted for. *)
Definition key_kind (builders : list (list FieldType)) (k : Key) : option FieldType := builders !! fst k ≫= λ ks, ks !! snd k.
(** A field operation: [scalar] says which of the two key types the request uses. *)
Definition field_request (scalar : bool) (layout : nat) (k : Key) (object : nat) (c : Client) (op : FieldRef → ObjectRef → Outcome Client) : Outcome Client :=
  match c_layouts c !! layout, key_kind (c_builders c) k, c_locals c !! object with
  | Some lay, Some kind, Some r =>
      if Bool.eqb scalar (negb (bool_decide (kind = FReference))) then
        match bind_field lay {| key_identity := Z.of_nat (fst k); key_index := snd k |} kind with
        | Err e => (Err e, c)
        | Ok f => op f r
        end
      else answered Inexpressible c
  | _, _, _ => answered Inexpressible c
  end.
(** An optional handle the client holds. *)
Definition local_value {A} (locals : list A) (value : option nat) : option (option A) :=
  match value with None => Some None | Some i => match locals !! i with Some r => Some (Some r) | None => None end end.

Definition perform (q : Request) (c : Client) : Outcome Client :=
  match q with
  | Register kinds =>
      ask (register_layout (Z.of_nat (length (c_builders c))) kinds) c (λ lay c,
        (Ok Handle, {| c_heap := c_heap c; c_builders := c_builders c ++ [kinds]; c_layouts := c_layouts c ++ [lay]; c_leases := c_leases c; c_locals := c_locals c |}))
  | CloneLayout i =>
      match c_layouts c !! i with
      | None => answered Inexpressible c
      | Some lay => ask (on_physical (modify (λ p, set_descriptors (clone_layout lay (descriptors p)) p))) c (λ _ c, (Ok Handle, set_layouts (c_layouts c ++ [lay]) c))
      end
  | DropLayout i =>
      match c_layouts c !! i with
      | None => answered Inexpressible c
      | Some lay => ask (on_physical (modify (λ p, set_descriptors (drop_layout lay (descriptors p)) p))) c (λ _ c, answered Done (set_layouts (delete i (c_layouts c)) c))
      end
  | Alloc i =>
      match c_layouts c !! i with None => answered Inexpressible c | Some lay => ask (alloc_dynamic lay) c push_local end
  | GetScalar i k x => field_request true i k x c (λ f r, ask (scalar_get f r) c (λ bits c, answered (Bits bits) c))
  | SetScalar i k x bits => field_request true i k x c (λ f r, ask (scalar_set f r bits) c (λ _ c, answered Done c))
  | GetReference i k x =>
      field_request false i k x c (λ f r, ask (reference_get f r) c (λ t c, match t with None => answered Null c | Some t => push_local t c end))
  | SetReference i k x v =>
      match local_value (c_locals c) v with
      | None => answered Inexpressible c
      | Some value => field_request false i k x c (λ f r, ask (reference_set f r value) c (λ _ c, answered Done c))
      end
  | Retain x => match c_locals c !! x with None => answered Inexpressible c | Some r => ask (retain r) c push_lease end
  | Admit i => match c_leases c !! i with None => answered Inexpressible c | Some id => ask (scope_get id) c push_local end
  | CreateRoots n => ask (create_roots n) c push_lease
  | GetRoot i index => match c_leases c !! i with None => answered Inexpressible c | Some id => ask (get_root id index) c push_local end
  | SetRoot i index v =>
      match c_leases c !! i, local_value (c_locals c) v with
      | Some id, Some value => ask (set_root id index value) c (λ _ c, answered Done c)
      | _, _ => answered Inexpressible c
      end
  | ReplaceRoot i index j =>
      match c_leases c !! i, c_leases c !! j with
      | Some id, Some source => ask (replace_root id index source) c (λ _ c, answered Done c)
      | _, _ => answered Inexpressible c
      end
  | ClearRoot i index => match c_leases c !! i with None => answered Inexpressible c | Some id => ask (clear_root id index) c (λ _ c, answered Done c) end
  | RootAt i index => match c_leases c !! i with None => answered Inexpressible c | Some id => ask (root_at id index) c push_lease end
  | CloneRoot i =>
      match c_leases c !! i with None => answered Inexpressible c | Some id => ask (on_roots (modify (clone_lease id))) c (λ _ c, push_lease id c) end
  | DropRoot i =>
      match c_leases c !! i with
      | None => answered Inexpressible c
      | Some id => ask (on_roots (drop_lease id)) c (λ _ c, answered Done (set_leases (delete i (c_leases c)) c))
      end
  | EndScope => answered Done (set_locals [] c)
  | Step n => if bool_decide (c_locals c = []) then ask (step n) c (λ _ c, answered Done c) else answered Inexpressible c
  | Trim => if bool_decide (c_locals c = []) then ask trim_metadata c (λ _ c, answered Done c) else answered Inexpressible c
  end.

(** ** The store the client programs against *)
Inductive FieldContent : Set := CScalar (bits : Z) | CReference (target : option nat).
(** An object: the builder of its layout and its fields in declared order. *)
Record StoreObject : Set := { o_layout : nat; o_fields : list FieldContent }.
Inductive Pack : Set := PRoot (target : nat) | PSet (targets : list (option nat)).
Definition pack_targets (p : Pack) : list (option nat) := match p with PRoot t => [Some t] | PSet ts => ts end.
(** Objects and packs are only ever added. *)
Record Store : Set := {
  s_builders : list (list FieldType); s_objects : list StoreObject; s_packs : list Pack; s_layouts : list nat; s_leases : list nat; s_locals : list nat
}.
Definition with_objects (x : list StoreObject) (s : Store) : Store :=
  {| s_builders := s_builders s; s_objects := x; s_packs := s_packs s; s_layouts := s_layouts s; s_leases := s_leases s; s_locals := s_locals s |}.
Definition with_packs (x : list Pack) (s : Store) : Store :=
  {| s_builders := s_builders s; s_objects := s_objects s; s_packs := x; s_layouts := s_layouts s; s_leases := s_leases s; s_locals := s_locals s |}.
Definition with_layouts (x : list nat) (s : Store) : Store :=
  {| s_builders := s_builders s; s_objects := s_objects s; s_packs := s_packs s; s_layouts := x; s_leases := s_leases s; s_locals := s_locals s |}.
Definition with_leases (x : list nat) (s : Store) : Store :=
  {| s_builders := s_builders s; s_objects := s_objects s; s_packs := s_packs s; s_layouts := s_layouts s; s_leases := x; s_locals := s_locals s |}.
Definition with_locals (x : list nat) (s : Store) : Store :=
  {| s_builders := s_builders s; s_objects := s_objects s; s_packs := s_packs s; s_layouts := s_layouts s; s_leases := s_leases s; s_locals := x |}.
Definition store_new : Store := {| s_builders := []; s_objects := []; s_packs := []; s_layouts := []; s_leases := []; s_locals := [] |}.

Definition replied (x : Answer) (s : Store) : Outcome Store := (Ok x, s).
Definition rejected (e : GcError) (s : Store) : Outcome Store := (Err (GcErr e), s).
Definition hold (n : nat) (s : Store) : Outcome Store := (Ok Handle, with_locals (s_locals s ++ [n]) s).
(** A new pack and a handle to it. *)
Definition hold_pack (p : Pack) (s : Store) : Outcome Store :=
  (Ok Handle, with_leases (s_leases s ++ [length (s_packs s)]) (with_packs (s_packs s ++ [p]) s)).
Definition field_access (scalar : bool) (layout : nat) (k : Key) (object : nat) (s : Store) (op : nat → StoreObject → FieldContent → Outcome Store) : Outcome Store :=
  match s_layouts s !! layout, key_kind (s_builders s) k, s_locals s !! object with
  | Some b, Some kind, Some n =>
      if Bool.eqb scalar (negb (bool_decide (kind = FReference))) then
        if bool_decide (b = fst k) then
          match s_objects s !! n with
          | Some o =>
              if bool_decide (o_layout o = b) then match o_fields o !! snd k with Some v => op n o v | None => replied Inexpressible s end
              else rejected Representation s
          | None => replied Inexpressible s
          end
        else rejected Representation s
      else replied Inexpressible s
  | _, _, _ => replied Inexpressible s
  end.
Definition write_field (n : nat) (o : StoreObject) (i : nat) (v : FieldContent) (s : Store) : Store :=
  with_objects (<[n := {| o_layout := o_layout o; o_fields := <[i := v]> (o_fields o) |}]> (s_objects s)) s.
Definition the_pack (s : Store) (i : nat) (op : nat → Pack → Outcome Store) : Outcome Store :=
  match s_leases s !! i with
  | Some n => match s_packs s !! n with Some p => op n p | None => replied Inexpressible s end
  | None => replied Inexpressible s
  end.
(** Writing a slot of a pack; a single root has none. *)
Definition write_slot (n : nat) (p : Pack) (index : nat) (v : option nat) (s : Store) : Outcome Store :=
  match p with
  | PRoot _ => rejected IndexOutside s
  | PSet ts => if index <? length ts then replied Done (with_packs (<[n := PSet (<[index := v]> ts)]> (s_packs s)) s) else rejected IndexOutside s
  end.
Definition initial_field (k : FieldType) : FieldContent := if bool_decide (k = FReference) then CReference None else CScalar 0.

Definition specify (q : Request) (s : Store) : Outcome Store :=
  match q with
  | Register kinds =>
      (Ok Handle, {| s_builders := s_builders s ++ [kinds]; s_objects := s_objects s; s_packs := s_packs s; s_layouts := s_layouts s ++ [length (s_builders s)];
                     s_leases := s_leases s; s_locals := s_locals s |})
  | CloneLayout i => match s_layouts s !! i with None => replied Inexpressible s | Some b => (Ok Handle, with_layouts (s_layouts s ++ [b]) s) end
  | DropLayout i => match s_layouts s !! i with None => replied Inexpressible s | Some _ => replied Done (with_layouts (delete i (s_layouts s)) s) end
  | Alloc i =>
      match s_layouts s !! i with
      | None => replied Inexpressible s
      | Some b => hold (length (s_objects s)) (with_objects (s_objects s ++ [{| o_layout := b; o_fields := initial_field <$> default [] (s_builders s !! b) |}]) s)
      end
  | GetScalar i k x => field_access true i k x s (λ _ _ v, match v with CScalar bits => replied (Bits bits) s | CReference _ => replied Inexpressible s end)
  | SetScalar i k x bits => field_access true i k x s (λ n o _, replied Done (write_field n o (snd k) (CScalar bits) s))
  | GetReference i k x =>
      field_access false i k x s (λ _ _ v, match v with CReference None => replied Null s | CReference (Some t) => hold t s | CScalar _ => replied Inexpressible s end)
  | SetReference i k x v =>
      match local_value (s_locals s) v with
      | None => replied Inexpressible s
      | Some value => field_access false i k x s (λ n o _, replied Done (write_field n o (snd k) (CReference value) s))
      end
  | Retain x => match s_locals s !! x with None => replied Inexpressible s | Some n => hold_pack (PRoot n) s end
  | Admit i => the_pack s i (λ _ p, match p with PRoot n => hold n s | PSet _ => rejected Representation s end)
  | CreateRoots n => hold_pack (PSet (replicate n None)) s
  | GetRoot i index => the_pack s i (λ _ p, match pack_targets p !! index with Some (Some n) => hold n s | _ => rejected IndexOutside s end)
  | SetRoot i index v =>
      match local_value (s_locals s) v with
      | None => replied Inexpressible s
      | Some value => the_pack s i (λ n p, write_slot n p index value s)
      end
  | ReplaceRoot i index j =>
      the_pack s i (λ n p, the_pack s j (λ _ source,
        match write_slot n p index None s, source with
        | (Err e, s), _ => (Err e, s)
        | _, PRoot t => write_slot n p index (Some t) s
        | _, PSet _ => rejected Representation s
        end))
  | ClearRoot i index => the_pack s i (λ n p, write_slot n p index None s)
  | RootAt i index =>
      the_pack s i (λ _ p, match p with
        | PRoot _ => rejected Representation s
        | PSet ts => match ts !! index with Some (Some n) => hold_pack (PRoot n) s | _ => rejected IndexOutside s end
        end)
  | CloneRoot i => match s_leases s !! i with None => replied Inexpressible s | Some n => (Ok Handle, with_leases (s_leases s ++ [n]) s) end
  | DropRoot i => match s_leases s !! i with None => replied Inexpressible s | Some _ => replied Done (with_leases (delete i (s_leases s)) s) end
  | EndScope => replied Done (with_locals [] s)
  | Step _ | Trim => if bool_decide (s_locals s = []) then replied Done s else replied Inexpressible s
  end.
