(* ===== verification/GcClientProps.v ===== *)
(** * Managed heap: the heap refines a store without a collector *)
From stdpp Require Import gmap fin_maps.
From S2P Require Import Prelude SlotBits GcBase GcTable GcPage GcColors GcDynamic GcHeap GcStorage GcSlots GcRoots GcRootsProps GcMark GcService GcMutator GcInv GcMarkProps GcMeasure GcScanProps GcSweepProps GcSweepLoop GcCollect GcAllocProps GcMutatorProps GcClient.
Open Scope nat_scope.

(** ** Counting handles *)
Definition same_count {A} (f : A → Z) (x : A) (l : list A) : nat := length (filter (λ y, f y = f x) l).
Lemma same_count_app {A} (f : A → Z) x l y : same_count f x (l ++ [y]) = same_count f x l + if decide (f y = f x) then 1 else 0.
Proof. unfold same_count. rewrite list.filter_app, length_app, list.filter_cons, list.filter_nil. by case_decide. Qed.
Lemma same_count_delete {A} (f : A → Z) x l i y : l !! i = Some y → same_count f x l = same_count f x (delete i l) + if decide (f y = f x) then 1 else 0.
Proof.
  intros Hi. rewrite <- (take_drop_middle l i y Hi) at 1. unfold same_count. rewrite delete_take_drop, !list.filter_app, !length_app, list.filter_cons. case_decide; cbn; lia.
Qed.
Lemma same_count_pos {A} (f : A → Z) x l : x ∈ l → 0 < same_count f x l.
Proof. intros Hx. unfold same_count. destruct (filter _ l) as [|y t] eqn:E; [|cbn; lia]. assert (x ∈ filter (λ y, f y = f x) l) as Hin by (by apply list_elem_of_filter). rewrite E in Hin. by apply elem_of_nil in Hin. Qed.
Lemma same_count_eq {A} (f : A → Z) x y l : f x = f y → same_count f x l = same_count f y l.
Proof. intros Heq. unfold same_count. by rewrite Heq. Qed.

(** ** Layout handles *)
Definition identity_of (e : DescriptorEntry) : Z := shape_identity (desc_shape (entry_descriptor e)).
Definition layout_id (lay : DynamicLayout) : Z := desc_id (layout_descriptor lay).
Record layouts_sim (hid : Z) (dm : gmap Z DescriptorEntry) (bs : list (list FieldType)) (ls : list DynamicLayout) (ns : list nat) : Prop := {
  ly_entries : ∀ id e, dm !! id = Some e → desc_id (entry_descriptor e) = id ∧ ∃ b ks, identity_of e = Z.of_nat b ∧ bs !! b = Some ks ∧ shape_ok ks (desc_shape (entry_descriptor e));
  ly_unique : ∀ i j e e', dm !! i = Some e → dm !! j = Some e' → identity_of e = identity_of e' → i = j;
  ly_handles : Forall2 (λ lay b, layout_heap lay = hid ∧ ∃ e, dm !! layout_id lay = Some e ∧ entry_descriptor e = layout_descriptor lay ∧ identity_of e = Z.of_nat b) ls ns;
  ly_count : ∀ lay e, lay ∈ ls → dm !! layout_id lay = Some e → same_count layout_id lay ls ≤ handles e
}.
Lemma layouts_same hid dm dm' bs ls ns : layouts_sim hid dm bs ls ns → same_layouts dm dm' → layouts_sim hid dm' bs ls ns.
Proof.
  intros [L1 L2 L3 L4] [F B]. split.
  - intros id e' He'. destruct (B id e' He') as (e & He & Hd & _). unfold identity_of. rewrite Hd. by apply L1.
  - intros i j e e' He He'. destruct (B i e He) as (e0 & He0 & Hd & _), (B j e' He') as (e0' & He0' & Hd' & _). unfold identity_of. rewrite Hd, Hd'. by apply L2.
  - apply Forall2_same_length_lookup_2; [by eapply list.Forall2_length|]. intros i lay b Hl Hb. destruct (Forall2_lookup_lr _ _ _ _ _ _ L3 Hl Hb) as (Hh & e & He & Hd & Hi). split; [done|].
    pose proof (list_elem_of_lookup_2 _ _ _ Hl) as Hin. pose proof (L4 lay e Hin He). pose proof (same_count_pos layout_id lay ls Hin). destruct (F _ e He ltac:(lia)) as (e' & He' & Hd' & _). exists e'. unfold identity_of. rewrite Hd'. done.
  - intros lay e' Hin He'. destruct (B _ e' He') as (e & He & _ & ->). by apply L4.
Qed.
Lemma layouts_register hid dm bs ls ns id x kinds : layouts_sim hid dm bs ls ns → dm !! id = None → desc_id x = id → shape_ok kinds (desc_shape x) → shape_identity (desc_shape x) = Z.of_nat (length bs) →
  layouts_sim hid (<[id := {| entry_descriptor := x; uses := 0; handles := 1 |}]> dm) (bs ++ [kinds]) (ls ++ [{| layout_heap := hid; layout_descriptor := x |}]) (ns ++ [length bs]).
Proof.
  intros [L1 L2 L3 L4] Hno Hx Hs Hid. assert (∀ lay, lay ∈ ls → layout_id lay ≠ id) as Hne.
  { intros lay Hin ->%eq_sym. apply list_elem_of_lookup_1 in Hin as [i Hi]. destruct (Forall2_lookup_l _ _ _ _ _ L3 Hi) as (b & _ & _ & e & He & _). congruence. }
  assert (∀ j e, dm !! j = Some e → (identity_of e < Z.of_nat (length bs))%Z) as Hlt.
  { intros j e He. destruct (L1 j e He) as (_ & b & ks & -> & Hb & _). apply lookup_lt_Some in Hb. lia. }
  split.
  - intros j e [[<- <-]|[Hj He]]%lookup_insert_Some.
    + split; [done|]. exists (length bs), kinds. split_and!; [done|by rewrite lookup_app_r, Nat.sub_diag by lia|done].
    + destruct (L1 j e He) as (Hd & b & ks & H1 & H2 & H3). split; [done|]. exists b, ks. split_and!; [done|by apply lookup_app_l_Some|done].
  - intros i j e e' [[<- <-]|[Hi He]]%lookup_insert_Some [[<- <-]|[Hj He']]%lookup_insert_Some Heq; [done|..].
    + pose proof (Hlt _ _ He'). unfold identity_of in Heq at 1. cbn in Heq. lia.
    + pose proof (Hlt _ _ He). unfold identity_of in Heq at 2. cbn in Heq. lia.
    + by eapply L2.
  - apply Forall2_app; [|constructor; [|constructor]].
    + eapply list.Forall2_impl; [exact L3|]. intros lay b (Hh & e & He & ?). split; [done|]. exists e. rewrite lookup_insert_ne; [done|]. congruence.
    + split; [done|]. eexists. unfold layout_id. cbn. rewrite Hx, lookup_insert_eq. done.
  - intros lay e Hin He. rewrite same_count_app. apply elem_of_app in Hin as [Hin|Hin].
    + rewrite lookup_insert_ne in He by (intros ?; by eapply Hne). rewrite decide_False; [pose proof (L4 lay e Hin He); lia|]. unfold layout_id at 1. cbn. rewrite Hx. intros ?. by eapply Hne.
    + apply list_elem_of_singleton in Hin as ->. unfold layout_id in He at 1. cbn in He. rewrite Hx, lookup_insert_eq in He. injection He as <-. rewrite decide_True by done. cbn.
      unfold same_count. destruct (filter _ ls) as [|y t] eqn:E; [done|]. assert (y ∈ filter (λ y, layout_id y = layout_id {| layout_heap := hid; layout_descriptor := x |}) ls) as [Hy Hin]%list_elem_of_filter by (rewrite E; left).
      destruct (Hne y Hin). rewrite Hy. unfold layout_id. cbn. done.
Qed.
(** Changing the number of clones of one layout. *)
Lemma layouts_handles hid dm bs ls ns ls' ns' lay e n : layouts_sim hid dm bs ls ns → lay ∈ ls → dm !! layout_id lay = Some e →
  Forall2 (λ lay b, layout_heap lay = hid ∧ ∃ e, dm !! layout_id lay = Some e ∧ entry_descriptor e = layout_descriptor lay ∧ identity_of e = Z.of_nat b) ls' ns' → (∀ x, x ∈ ls' → x ∈ ls) →
  (∀ x, x ∈ ls' → layout_id x = layout_id lay → same_count layout_id x ls' ≤ n) → (∀ x, x ∈ ls' → layout_id x ≠ layout_id lay → same_count layout_id x ls' = same_count layout_id x ls) →
  layouts_sim hid (<[layout_id lay := with_handles n e]> dm) bs ls' ns'.
Proof.
  intros [L1 L2 L3 L4] Hlay He Hf Hsub Hc1 Hc2. assert (∀ j y, <[layout_id lay := with_handles n e]> dm !! j = Some y → ∃ y0, dm !! j = Some y0 ∧ entry_descriptor y = entry_descriptor y0) as Hback.
  { intros j y [[<- <-]|[_ Hy]]%lookup_insert_Some; eauto. }
  split.
  - intros j y Hy. destruct (Hback j y Hy) as (y0 & Hy0 & Hd). unfold identity_of. rewrite Hd. by apply L1.
  - intros i j y z Hy Hz. destruct (Hback _ _ Hy) as (y0 & Hy0 & Hd), (Hback _ _ Hz) as (z0 & Hz0 & Hd'). unfold identity_of. rewrite Hd, Hd'. by apply L2.
  - eapply list.Forall2_impl; [exact Hf|]. intros x b (Hh & y & Hy & Hd & Hi). split; [done|]. destruct (decide (layout_id x = layout_id lay)) as [E|E]; [|exists y; by rewrite lookup_insert_ne].
    rewrite E, lookup_insert_eq. rewrite E, He in Hy. injection Hy as <-. eexists. split; [done|]. done.
  - intros x y Hx Hy. destruct (decide (layout_id x = layout_id lay)) as [E|E].
    + rewrite E, lookup_insert_eq in Hy. injection Hy as <-. by apply Hc1.
    + rewrite lookup_insert_ne in Hy by done. rewrite Hc2 by done. apply L4; [by apply Hsub|done].
Qed.

(** ** Root handles *)
Definition opt_rel (f : gmap ObjectRef nat) (x : option ObjectRef) (y : option nat) : Prop :=
  match x, y with None, None => True | Some t, Some n => f !! t = Some n | _, _ => False end.
Definition pack_rel (f : gmap ObjectRef nat) (e : RootEntry) (p : Pack) : Prop :=
  match p with
  | PRoot n => typed e = true ∧ ∃ t, targets e = [Some t] ∧ f !! t = Some n
  | PSet ts => typed e = false ∧ Forall2 (opt_rel f) (targets e) ts
  end.
Lemma pack_rel_targets f e p : pack_rel f e p → Forall2 (opt_rel f) (targets e) (pack_targets p).
Proof. destruct p as [n|ts]; cbn; [|by intros [_ ?]]. intros (_ & t & -> & Ht). by constructor. Qed.
Record leases_sim (hid : Z) (rm : gmap Z RootSlot) (f : gmap ObjectRef nat) (ls : list RootId) (ns : list nat) (ps : list Pack) : Prop := {
  le_rel : Forall2 (λ id n, root_heap id = hid ∧ ∃ s p, rm !! root_slot id = Some s ∧ generation s = root_generation id ∧ ps !! n = Some p ∧ pack_rel f (entry s) p) ls ns;
  le_same : ∀ i j x y n m, ls !! i = Some x → ns !! i = Some n → ls !! j = Some y → ns !! j = Some m → root_slot x = root_slot y ↔ n = m;
  le_count : ∀ id s, id ∈ ls → rm !! root_slot id = Some s → same_count root_slot id ls ≤ strong (entry s)
}.
Lemma leases_same hid rm rm' f ls ns ps : leases_sim hid rm f ls ns ps → same_leases rm rm' → leases_sim hid rm' f ls ns ps.
Proof.
  intros [L1 L2 L3] [F B]. split; [|done|].
  - apply Forall2_same_length_lookup_2; [by eapply list.Forall2_length|]. intros i id n Hi Hn. destruct (Forall2_lookup_lr _ _ _ _ _ _ L1 Hi Hn) as (Hh & s & p & Hs & Hg & Hp & Hr). split; [done|].
    pose proof (list_elem_of_lookup_2 _ _ _ Hi) as Hin. pose proof (L3 id s Hin Hs). pose proof (same_count_pos root_slot id ls Hin). destruct (F _ s Hs ltac:(lia)) as (s' & Hs' & G1 & G2 & G3 & G4).
    exists s', p. split_and!; [done|congruence|done|]. unfold pack_rel in *. by rewrite <- G3, <- G4.
  - intros id s' Hin Hs'. destruct (B _ s' Hs') as (s & Hs & _ & <- & _). by apply L3.
Qed.
Lemma leases_new hid rm f ls ns ps id s p : leases_sim hid rm f ls ns ps → rm !! root_slot id = None → root_heap id = hid → generation s = root_generation id → strong (entry s) = 1 → pack_rel f (entry s) p →
  leases_sim hid (<[root_slot id := s]> rm) f (ls ++ [id]) (ns ++ [length ps]) (ps ++ [p]).
Proof.
  intros [L1 L2 L3] Hno Hh Hg Hst Hp. pose proof (list.Forall2_length _ _ _ L1) as Hlen.
  assert (∀ x, x ∈ ls → root_slot x ≠ root_slot id) as Hne.
  { intros x [i Hi]%list_elem_of_lookup_1 E. destruct (Forall2_lookup_l _ _ _ _ _ L1 Hi) as (n & _ & _ & s0 & p0 & Hs0 & _). congruence. }
  assert (∀ n, n ∈ ns → n < length ps) as Hlt.
  { intros n [i Hi]%list_elem_of_lookup_1. destruct (Forall2_lookup_r _ _ _ _ _ L1 Hi) as (x & _ & _ & s0 & p0 & _ & _ & Hp0 & _). by eapply lookup_lt_Some. }
  split.
  - apply Forall2_app; [|constructor; [|constructor]].
    + apply Forall2_same_length_lookup_2; [done|]. intros i x n Hi Hn. destruct (Forall2_lookup_lr _ _ _ _ _ _ L1 Hi Hn) as (Hh' & s0 & p0 & Hs0 & Hg0 & Hp0 & Hr0). split; [done|]. exists s0, p0.
      rewrite lookup_insert_ne by (apply not_eq_sym, Hne; by eapply list_elem_of_lookup_2). split_and!; try done. by apply lookup_app_l_Some.
    + split; [done|]. exists s, p. rewrite lookup_insert_eq. split_and!; try done. by rewrite lookup_app_r, Nat.sub_diag by lia.
  - intros i j x y n m Hi Hn Hj Hm. apply lookup_snoc_Some in Hi as [[Hil Hi]|[Hie <-]], Hn as [[Hnl Hn]|[Hne' <-]], Hj as [[Hjl Hj]|[Hje <-]], Hm as [[Hml Hm]|[Hme <-]]; try lia.
    + by eapply L2.
    + split; [intros E; by destruct (Hne x); [eapply list_elem_of_lookup_2|]|intros E]. pose proof (Hlt n ltac:(by eapply list_elem_of_lookup_2)). lia.
    + split; [intros E; by destruct (Hne y); [eapply list_elem_of_lookup_2|]|intros E]. pose proof (Hlt m ltac:(by eapply list_elem_of_lookup_2)). lia.
  - intros x s0 Hin Hs0. rewrite same_count_app. apply elem_of_app in Hin as [Hin|Hin].
    + rewrite lookup_insert_ne in Hs0 by (by apply not_eq_sym, Hne). rewrite decide_False by (by apply not_eq_sym, Hne). pose proof (L3 x s0 Hin Hs0). lia.
    + apply list_elem_of_singleton in Hin as ->. rewrite lookup_insert_eq in Hs0. injection Hs0 as <-. rewrite decide_True by done. enough (same_count root_slot id ls = 0) by lia.
      unfold same_count. destruct (filter _ ls) as [|y t] eqn:E; [done|]. assert (y ∈ filter (λ y, root_slot y = root_slot id) ls) as [Hy Hin]%list_elem_of_filter by (rewrite E; left). by destruct (Hne y Hin).
Qed.
Lemma leases_lookup hid rm f ls ns ps i id : leases_sim hid rm f ls ns ps → ls !! i = Some id → ∃ n s p, ns !! i = Some n ∧ ps !! n = Some p ∧ pack_rel f (entry s) p
  ∧ ∀ r, roots_heap r = hid → leased r rm id s.
Proof.
  intros [L1 L2 L3] Hi. destruct (Forall2_lookup_l _ _ _ _ _ L1 Hi) as (n & Hn & Hh & s & p & Hs & Hg & Hp & Hr). exists n, s, p. split_and!; try done. intros r <-.
  pose proof (list_elem_of_lookup_2 _ _ _ Hi) as Hin. pose proof (L3 id s Hin Hs). pose proof (same_count_pos root_slot id ls Hin). split_and!; try done. lia.
Qed.
(** Replacing the registration behind one handle, and its pack. *)
Lemma leases_update hid rm f ls ns ps i id n s s' p' ls' ns' : leases_sim hid rm f ls ns ps → ls !! i = Some id → ns !! i = Some n → rm !! root_slot id = Some s → generation s' = generation s → pack_rel f (entry s') p' →
  length ls' = length ns' → (∀ j x m, ls' !! j = Some x → ns' !! j = Some m → ∃ k, ls !! k = Some x ∧ ns !! k = Some m) →
  (∀ x, x ∈ ls' → root_slot x = root_slot id → same_count root_slot x ls' ≤ strong (entry s')) → (∀ x, x ∈ ls' → root_slot x ≠ root_slot id → same_count root_slot x ls' ≤ same_count root_slot x ls) →
  leases_sim hid (<[root_slot id := s']> rm) f ls' ns' (<[n := p']> ps).
Proof.
  intros [L1 L2 L3] Hi Hn Hs Hg Hp Hlen Hsub Hc1 Hc2. split.
  - apply Forall2_same_length_lookup_2; [done|]. intros j x m Hx Hm. destruct (Hsub j x m Hx Hm) as (k & Hk & Hkm). destruct (Forall2_lookup_lr _ _ _ _ _ _ L1 Hk Hkm) as (Hh & s0 & p0 & Hs0 & Hg0 & Hp0 & Hr0). split; [done|].
    destruct (decide (m = n)) as [->|Hmn].
    + assert (root_slot x = root_slot id) as E by (by apply (L2 k i x id n n)). rewrite E in Hs0. assert (s0 = s) as -> by congruence. exists s', p'. rewrite E, lookup_insert_eq. split_and!; [done|congruence| |done].
      apply list_lookup_insert_eq. by eapply lookup_lt_Some.
    + exists s0, p0. rewrite lookup_insert_ne by (intros E; apply Hmn; by apply (L2 k i x id m n)). rewrite list_lookup_insert_ne by done. done.
  - intros a b x y m m' Ha Hm Hb Hm'. destruct (Hsub _ _ _ Ha Hm) as (k & ? & ?), (Hsub _ _ _ Hb Hm') as (k' & ? & ?). by eapply (L2 k k').
  - intros x s0 Hin Hs0. destruct (decide (root_slot x = root_slot id)) as [E|E].
    + rewrite E, lookup_insert_eq in Hs0. injection Hs0 as <-. by apply Hc1.
    + rewrite lookup_insert_ne in Hs0 by done. etrans; [by apply Hc2|]. apply L3; [|done]. apply list_elem_of_lookup_1 in Hin as [j Hj]. destruct (lookup_lt_is_Some_2 ns' j) as [m Hm]; [rewrite <- Hlen; by eapply lookup_lt_Some|].
      destruct (Hsub _ _ _ Hj Hm) as (k & ? & _). by eapply list_elem_of_lookup_2.
Qed.
Lemma leases_map hid rm f f' ls ns ps : leases_sim hid rm f ls ns ps → (∀ id s t, id ∈ ls → rm !! root_slot id = Some s → Some t ∈ targets (entry s) → f' !! t = f !! t) → leases_sim hid rm f' ls ns ps.
Proof.
  intros [L1 L2 L3] Hf. split; [|done|done]. apply Forall2_same_length_lookup_2; [by eapply list.Forall2_length|]. intros i id n Hi Hn. destruct (Forall2_lookup_lr _ _ _ _ _ _ L1 Hi Hn) as (Hh & s & p & Hs & Hg & Hp & Hr). split; [done|].
  exists s, p. split_and!; try done. pose proof (λ t, Hf id s t (list_elem_of_lookup_2 _ _ _ Hi) Hs) as Hf'. destruct p as [m|ts]; cbn in *.
  - destruct Hr as (Ht & t & Hts & Hx). split; [done|]. exists t. split; [done|]. rewrite Hf'; [done|]. rewrite Hts. left.
  - destruct Hr as [Ht Hts]. split; [done|]. apply Forall2_same_length_lookup_2; [by eapply list.Forall2_length|]. intros k x y Hx Hy. pose proof (Forall2_lookup_lr _ _ _ _ _ _ Hts Hx Hy) as Ho. destruct x as [t|], y; cbn in *; try done.
    rewrite Hf'; [done|]. by eapply list_elem_of_lookup_2.
Qed.

(** ** Objects *)
(** What the client can still get at. *)
Inductive usable (p : Physical) (rm : gmap Z RootSlot) (locals : list ObjectRef) : ObjectRef → Prop :=
| us_root t : live_root rm t → usable p rm locals t
| us_local t : t ∈ locals → usable p rm locals t
| us_edge x t : usable p rm locals x → edge p x t → usable p rm locals t.

Definition value_rel (f : gmap ObjectRef nat) (v : FieldValue) (c : FieldContent) : Prop :=
  match v, c with VScalar z, CScalar z' => z = z' | VReference t, CReference n => opt_rel f t n | _, _ => False end.
Definition fields_rel (f : gmap ObjectRef nat) (shape : DynamicShape) (pl : gmap Z FieldValue) (fs : list FieldContent) : Prop :=
  length fs = length (shape_fields shape) ∧ ∀ i fd, shape_fields shape !! i = Some fd → ∃ v c, pl !! field_offset fd = Some v ∧ fs !! i = Some c ∧ value_rel f v c.
Definition object_rel (f : gmap ObjectRef nat) (p : Physical) (dm : gmap Z DescriptorEntry) (objs : list StoreObject) (x : ObjectRef) (n : nat) : Prop :=
  ∃ hd e pl o, headers p !! x = Some hd ∧ dm !! hdr_descriptor hd = Some e ∧ payloads p !! x = Some pl ∧ objs !! n = Some o
    ∧ identity_of e = Z.of_nat (o_layout o) ∧ fields_rel f (desc_shape (entry_descriptor e)) pl (o_fields o).
Record objects_sim (h : Heap) (pages : gmap Z Page) (rm : gmap Z RootSlot) (dm : gmap Z DescriptorEntry) (f : gmap ObjectRef nat)
    (locals : list ObjectRef) (ns : list nat) (objs : list StoreObject) : Prop := {
  ob_locals : Forall2 (λ x n, held h pages x ∧ f !! x = Some n) locals ns;
  ob_rel : ∀ x, usable (physical h) rm locals x → ∃ n, f !! x = Some n ∧ object_rel f (physical h) dm objs x n;
  ob_inj : ∀ x y n, usable (physical h) rm locals x → usable (physical h) rm locals y → f !! x = Some n → f !! y = Some n → x = y
}.

Lemma edge_held h pages l av rm dm x t : good h pages l av rm dm → running h → held h pages x → edge (physical h) x t → held h pages t.
Proof.
  intros Hg [R1 R2] [Hp Hs] He. pose proof Hg as [[Hb Hm] Ht].
  destruct (decide (phase (marking h) = Sweep)) as [Hph|Hph].
  - unfold tri in Ht. rewrite Hph in Ht. assert (blk pages (epoch (marking h)) t) as Hbk by (eapply (sw_black _ _ _ _ Ht); [by apply Hs|done]). split; [by eapply blk_present|done].
  - assert (closed (physical h) rm) as [Hc _] by (unfold tri in Ht; destruct (phase (marking h)); naive_solver). split; [by eapply Hc|done].
Qed.
Lemma usable_held h pages l av rm dm locals x : good h pages l av rm dm → running h → (∀ y, y ∈ locals → held h pages y) → usable (physical h) rm locals x → held h pages x.
Proof.
  intros Hg Hr Hl. induction 1 as [t Ht|t Ht|x t _ IH He]; [by eapply live_held|by apply Hl|by eapply edge_held].
Qed.
Lemma usable_sub (p p' : Physical) rm rm' locals locals' x : (∀ t, live_root rm' t → usable p rm locals t) → (∀ t, t ∈ locals' → usable p rm locals t) →
  (∀ y t, usable p rm locals y → edge p' y t → usable p rm locals t) → usable p' rm' locals' x → usable p rm locals x.
Proof. intros H1 H2 H3. induction 1; eauto. Qed.
Lemma usable_payloads (p p' : Physical) rm locals x : payloads p' = payloads p → usable p' rm locals x → usable p rm locals x.
Proof.
  intros E. apply usable_sub; [intros; by apply us_root|intros; by apply us_local|]. intros y t Hy (pl & off & Hpl & Hoff). rewrite E in Hpl. eapply us_edge; [exact Hy|]. by exists pl, off.
Qed.
Lemma locals_held (h : Heap) (pgs : gmap Z Page) (f : gmap ObjectRef nat) (locals : list ObjectRef) (ns : list nat) : Forall2 (λ x n, held h pgs x ∧ f !! x = Some n) locals ns → ∀ y, y ∈ locals → held h pgs y.
Proof. intros Hf y [i Hi]%list_elem_of_lookup_1. by destruct (Forall2_lookup_l _ _ _ _ _ Hf Hi) as (n & _ & ? & _). Qed.

(** A change that keeps everything usable as it was. *)
Lemma objects_keep h h' pages pages' rm rm' dm dm' f locals locals' ns ns' objs : objects_sim h pages rm dm f locals ns objs →
  (∀ x, usable (physical h') rm' locals' x → usable (physical h) rm locals x) →
  (∀ x, usable (physical h) rm locals x → headers (physical h') !! x = headers (physical h) !! x ∧ payloads (physical h') !! x = payloads (physical h) !! x) →
  (∀ x hd e, usable (physical h) rm locals x → headers (physical h) !! x = Some hd → dm !! hdr_descriptor hd = Some e → ∃ e', dm' !! hdr_descriptor hd = Some e' ∧ entry_descriptor e' = entry_descriptor e) →
  Forall2 (λ x n, held h' pages' x ∧ f !! x = Some n) locals' ns' → objects_sim h' pages' rm' dm' f locals' ns' objs.
Proof.
  intros [O1 O2 O3] Hu Ho Hd Hl. split; [done|..].
  - intros x Hx%Hu. destruct (O2 x Hx) as (n & Hn & hd & e & pl & o & H1 & H2 & H3 & H4 & H5 & H6). exists n. split; [done|]. destruct (Ho x Hx) as [E1 E2]. destruct (Hd x hd e Hx H1 H2) as (e' & He' & Hde).
    exists hd, e', pl, o. rewrite E1, E2. unfold identity_of in *. rewrite Hde. done.
  - intros x y n Hx%Hu Hy%Hu. by apply O3.
Qed.
(** A change of marks, roots or locals: the objects themselves are untouched. *)
Lemma objects_quiet h h' pages pages' rm rm' dm f locals locals' ns ns' objs : objects_sim h pages rm dm f locals ns objs → quiet h h' pages pages' →
  (∀ t, live_root rm' t → usable (physical h) rm locals t) → (∀ x, x ∈ locals' → usable (physical h) rm locals x) →
  Forall2 (λ x n, held h pages x ∧ f !! x = Some n) locals' ns' → objects_sim h' pages' rm' dm f locals' ns' objs.
Proof.
  intros Ho [Q1 Q2 Q3 Q4 Q5 Q6] Hr Hl Hf. eapply objects_keep; [exact Ho|..].
  - intros x. apply usable_sub; [done|done|]. intros y t Hy (pl & off & Hpl & Hoff). rewrite Q2 in Hpl. eapply us_edge; [exact Hy|]. by exists pl, off.
  - intros x _. by rewrite Q1, Q2.
  - eauto.
  - eapply list.Forall2_impl; [exact Hf|]. intros x n [? ?]. auto.
Qed.

(** Writing a field of a usable object. *)
Lemma fields_write f kinds shape pl fs i fd v c : shape_ok kinds shape → fields_rel f shape pl fs → shape_fields shape !! i = Some fd → value_rel f v c →
  fields_rel f shape (<[field_offset fd := v]> pl) (<[i := c]> fs).
Proof.
  intros Hs [Hlen Hf] Hi Hv. split; [by rewrite length_insert|]. intros j fd' Hj. destruct (decide (i = j)) as [<-|Hne].
  - assert (fd' = fd) as -> by congruence. exists v, c. rewrite lookup_insert_eq, list_lookup_insert_eq; [done|]. rewrite Hlen. by eapply lookup_lt_Some.
  - rewrite lookup_insert_ne by (intros E; apply Hne; by eapply shape_offsets). rewrite list_lookup_insert_ne by done. by apply Hf.
Qed.
Lemma objects_write h h' pages pages' l av rm dm f locals ns objs r n hd e pl i fd v c o : objects_sim h pages rm dm f locals ns objs → good h pages l av rm dm →
  usable (physical h) rm locals r → f !! r = Some n → headers (physical h) !! r = Some hd → dm !! hdr_descriptor hd = Some e → payloads (physical h) !! r = Some pl → objs !! n = Some o →
  shape_fields (desc_shape (entry_descriptor e)) !! i = Some fd → value_rel f v c → (∀ t, v = VReference (Some t) → usable (physical h) rm locals t) →
  headers (physical h') = headers (physical h) → payloads (physical h') = <[r := <[field_offset fd := v]> pl]> (payloads (physical h)) → (∀ x, held h pages x → held h' pages' x) →
  objects_sim h' pages' rm dm f locals ns (<[n := {| o_layout := o_layout o; o_fields := <[i := c]> (o_fields o) |}]> objs).
Proof.
  intros [O1 O2 O3] [[Hb _] _] Hr Hn Hhd He Hpl Ho Hfd Hv Hvt Eh Ep Hh.
  destruct (rg_entry _ _ _ (ba_registry _ _ _ _ _ _ _ Hb) _ _ He) as (_ & _ & [_ [kinds Hs] _] & _).
  assert (∀ x, usable (physical h') rm locals x → usable (physical h) rm locals x) as Hu.
  { intros x. apply usable_sub; [intros t ?; by apply us_root|intros t ?; by apply us_local|]. intros y t Hy (pl' & off & Hy' & Hoff). rewrite Ep in Hy'.
    apply lookup_insert_Some in Hy' as [[<- <-]|[_ Hy']]; [|eapply us_edge; [exact Hy|]; by exists pl', off]. apply lookup_insert_Some in Hoff as [[_ ->]|[_ Hoff]]; [by apply Hvt|]. eapply us_edge; [exact Hr|]. by exists pl, off. }
  split.
  - eapply list.Forall2_impl; [exact O1|]. intros x m [? ?]. auto.
  - intros x Hx%Hu. destruct (O2 x Hx) as (m & Hm & hd' & e' & pl' & o' & H1 & H2 & H3 & H4 & H5 & H6). exists m. split; [done|]. rewrite <- Eh in H1. destruct (decide (x = r)) as [->|Hne].
    + assert (m = n) as -> by congruence. rewrite Eh in H1. assert (hd' = hd) as -> by congruence. assert (e' = e) as -> by congruence. assert (pl' = pl) as -> by congruence. assert (o' = o) as -> by congruence.
      eexists hd, e, _, _. rewrite Eh, Ep, lookup_insert_eq, list_lookup_insert_eq by (by eapply lookup_lt_Some). split_and!; [done|done|done|done|done|]. cbn. by eapply fields_write.
    + exists hd', e', pl', o'. rewrite Ep, lookup_insert_ne by done. rewrite list_lookup_insert_ne; [done|]. intros ->. apply Hne. by apply (O3 x r m).
  - intros x y m Hx%Hu Hy%Hu. by apply O3.
Qed.

(** A new object is a new number. *)
Lemma objects_alloc h h' pages pages' l av l' av' rm dm f locals ns objs d r b kinds : objects_sim h pages rm dm f locals ns objs → good h pages l av rm dm → running h →
  allocated h h' pages pages' l' av' rm dm d r → (∃ e, dm !! desc_id d = Some e ∧ entry_descriptor e = d ∧ identity_of e = Z.of_nat b) → shape_ok kinds (desc_shape d) →
  objects_sim h' pages' rm (more_use (desc_id d) dm) (<[r := length objs]> f) (locals ++ [r]) (ns ++ [length objs]) (objs ++ [{| o_layout := b; o_fields := initial_field <$> kinds |}])
  ∧ ∀ x, usable (physical h) rm locals x → x ≠ r.
Proof.
  intros [O1 O2 O3] Hg Hrun [A1 A2 A3 (id & A4) A5 A6] (e & He & Hed & Hid) Hs.
  assert (∀ x, usable (physical h) rm locals x → x ≠ r) as Hne.
  { intros x Hx ->. destruct (usable_held _ _ _ _ _ _ _ _ Hg Hrun (locals_held _ _ _ _ _ O1) Hx) as [[hd Hhd] _]. congruence. }
  assert (∀ x t, usable (physical h) rm locals x ∨ x = r → edge (physical h') x t → usable (physical h) rm locals x ∧ edge (physical h) x t) as Hedge.
  { intros x t Hx (pl & off & Hpl & Hoff). rewrite A5 in Hpl. apply lookup_insert_Some in Hpl as [[<- <-]|[Hn Hpl]]; [by apply initial_null in Hoff|]. destruct Hx as [Hx| ->]; [|done]. split; [done|]. by exists pl, off. }
  assert (∀ x, usable (physical h') rm (locals ++ [r]) x → usable (physical h) rm locals x ∨ x = r) as Hu.
  { induction 1 as [t Ht|t Ht|x t _ IH Het].
    - left. by apply us_root.
    - apply elem_of_app in Ht as [Ht|Ht]; [left; by apply us_local|right; by apply list_elem_of_singleton in Ht].
    - left. destruct (Hedge x t IH Het) as [Hx He']. by eapply us_edge. }
  assert (∀ x, usable (physical h) rm locals x → <[r := length objs]> f !! x = f !! x) as Hf by (intros x Hx; rewrite lookup_insert_ne; [done|]; by apply not_eq_sym, Hne).
  assert (∀ x n, usable (physical h) rm locals x → f !! x = Some n → n < length objs) as Hlt.
  { intros x n Hx Hn. destruct (O2 x Hx) as (m & Hm & _ & _ & _ & o & _ & _ & _ & Ho & _). assert (m = n) as -> by congruence. by eapply lookup_lt_Some. }
  split; [|done]. split.
  - apply Forall2_app; [|constructor; [|constructor]].
    + apply Forall2_same_length_lookup_2; [by eapply list.Forall2_length|]. intros i x n Hi Hn. destruct (Forall2_lookup_lr _ _ _ _ _ _ O1 Hi Hn) as [Hh Hx]. split; [apply A6; by left|].
      rewrite Hf; [done|]. apply us_local. by eapply list_elem_of_lookup_2.
    + split; [apply A6; by right|apply lookup_insert_eq].
  - intros x Hx. apply Hu in Hx as [Hx| ->].
    + destruct (O2 x Hx) as (n & Hn & hd & e1 & pl & o & H1 & H2 & H3 & H4 & H5 & H6 & H7). exists n. rewrite Hf by done. split; [done|]. pose proof (Hne x Hx) as Hxr.
      destruct (more_use_entry (desc_id d) dm _ _ H2) as (e2 & He2 & Hd2 & _). exists hd, e2, pl, o. rewrite A4, A5, !lookup_insert_ne by done. unfold identity_of in *. rewrite Hd2. split_and!; try done; [by apply lookup_app_l_Some|].
      split; [done|]. intros i fd Hfd. destruct (H7 i fd Hfd) as (v & c & Hv & Hc & Hvc). exists v, c. split_and!; try done. destruct v as [z|[t|]], c as [z'|[m|]]; cbn in *; try done.
      rewrite Hf; [done|]. eapply us_edge; [exact Hx|]. by exists pl, (field_offset fd).
    + exists (length objs). split; [apply lookup_insert_eq|]. destruct (more_use_entry (desc_id d) dm _ _ He) as (e2 & He2 & Hd2 & _). eexists _, e2, _, _. rewrite A4, A5, !lookup_insert_eq, lookup_app_r, Nat.sub_diag by lia.
      split_and!; [done|exact He2|done|done|unfold identity_of in *; by rewrite Hd2|]. rewrite Hd2, Hed. cbn [o_fields]. split.
      * by rewrite length_fmap, <- (sh_kinds _ _ Hs), length_fmap.
      * intros i fd Hfd. eexists _, _. split; [by eapply initial_lookup|]. rewrite list_lookup_fmap, <- (sh_kinds _ _ Hs), list_lookup_fmap, Hfd. split; [done|]. unfold initial_field. by case_bool_decide.
  - intros x y n Hx Hy. apply Hu in Hx as [Hx| ->], Hy as [Hy| ->]; [rewrite !Hf by done; by apply O3|..|done].
    + rewrite (Hf x Hx), lookup_insert_eq. intros Hn [= <-]. pose proof (Hlt _ _ Hx Hn). lia.
    + rewrite (Hf y Hy), lookup_insert_eq. intros [= <-] Hn. pose proof (Hlt _ _ Hy Hn). lia.
Qed.
