(* ===== verification/GcRefinement.v ===== *)
(** * Managed heap: every client sees the store

    The simulation between a client of the heap and the same client of the store of
    [GcClient], request by request, and its consequence for whole scripts. *)
From stdpp Require Import gmap fin_maps.
From S2P Require Import Prelude SlotBits GcBase GcTable GcPage GcColors GcDynamic GcHeap GcStorage GcSlots GcRoots GcRootsProps GcMark GcService GcMutator GcInv GcMarkProps GcMeasure GcScanProps GcSweepProps GcSweepLoop GcCollect GcAllocProps GcMutatorProps GcClient GcClientProps.
Open Scope nat_scope.

(** ** Refinement *)
(** The heap may decline: a limit was reached, or an earlier one left the heap quarantined. *)
Definition refusal (e : GcFailure) : Prop := limited e ∨ e = GcErr HeapFaulted.
(** Each answer is the store's, or a refusal without effect. *)
Fixpoint faithful (script : list Request) (c : Client) (s : Store) : Prop :=
  match script with
  | [] => True
  | q :: script =>
      match perform q c, specify q s with
      | (Ok x, c'), (Ok y, s') => x = y ∧ faithful script c' s'
      | (Err e, c'), (r, s') => refusal e ∧ faithful script c' s ∨ r = Err e ∧ faithful script c' s'
      | _, _ => False
      end
  end.

(** ** The simulation *)
Record mirrors (c : Client) (s : Store) (pages : gmap Z Page) (l : list Z) (av : nat → list Z) (rm : gmap Z RootSlot) (dm : gmap Z DescriptorEntry) (f : gmap ObjectRef nat) : Prop := {
  mi_good : good (c_heap c) pages l av rm dm; mi_max : (max_objects (config (c_heap c)) <= u64_max)%Z; mi_builders : c_builders c = s_builders s;
  mi_layouts : layouts_sim (heap_id (c_heap c)) dm (s_builders s) (c_layouts c) (s_layouts s);
  mi_leases : leases_sim (heap_id (c_heap c)) rm f (c_leases c) (s_leases s) (s_packs s);
  mi_locals : length (c_locals c) = length (s_locals s);
  mi_objects : running (c_heap c) → objects_sim (c_heap c) pages rm dm f (c_locals c) (s_locals s) (s_objects s)
}.
Definition simulates (c : Client) (s : Store) : Prop := ∃ pages l av rm dm f, mirrors c s pages l av rm dm f.
(** One request: the same answer, or a refusal without effect. *)
Definition agrees (o : Outcome Client) (q : Request) (s : Store) : Prop :=
  match o, specify q s with
  | (Ok x, c'), (Ok y, s') => x = y ∧ simulates c' s'
  | (Err e, c'), (r, s') => refusal e ∧ simulates c' s ∨ r = Err e ∧ simulates c' s'
  | _, _ => False
  end.
(** Operations that a quarantined heap declines. *)
Definition blocked {A} (m : M Heap A) : Prop := ∀ h, phase (marking h) = Faulted → m h = (Err (GcErr HeapFaulted), h).

Lemma with_heap_id c : with_heap (c_heap c) c = c.
Proof. by destruct c. Qed.
Lemma good_running h pages l av rm dm : good h pages l av rm dm → running h ∨ phase (marking h) = Faulted.
Proof. intros [_ Ht]. unfold tri, running in *. destruct (phase (marking h)); auto. Qed.
Lemma ask_spec {A} (m : M Heap A) c k (P : Outcome Client → Prop) : wp (λ e h, P (Err e, with_heap h c)) m (λ a h, P (k a (with_heap h c))) (c_heap c) → P (ask m c k).
Proof. unfold wp, ask. by destruct (m (c_heap c)) as [[a|e] h]. Qed.
Lemma agrees_refused s c' q e : refusal e → simulates c' s → agrees (Err e, c') q s.
Proof. intros. unfold agrees. destruct (specify q s). by left. Qed.
(** A request on a running heap, or a refusal. *)
Lemma ask_agrees {A} (m : M Heap A) c k q s : simulates c s → blocked m →
  (∀ pages l av rm dm f, mirrors c s pages l av rm dm f → running (c_heap c) → wp (λ e h, agrees (Err e, with_heap h c) q s) m (λ a h, agrees (k a (with_heap h c)) q s) (c_heap c)) →
  agrees (ask m c k) q s.
Proof.
  intros Hs Hb Hw. pose proof Hs as (pages & l & av & rm & dm & f & Hm). destruct (good_running _ _ _ _ _ _ (mi_good _ _ _ _ _ _ _ _ Hm)) as [Hr|Hf].
  - apply (ask_spec m c k (λ o, agrees o q s)). by eapply Hw.
  - unfold ask. rewrite (Hb _ Hf), with_heap_id. by apply agrees_refused; [right|].
Qed.
Lemma blocked_check : blocked check.
Proof. intros h H. unfold check, bind, read. by rewrite H. Qed.
Lemma blocked_bind {A B} (m : M Heap A) (k : A → M Heap B) : blocked m → blocked (bind m k).
Proof. intros Hm h H. unfold bind. by rewrite (Hm h H). Qed.
Lemma blocked_reads {A B} (g : Heap → A) (k : A → M Heap B) : (∀ a, blocked (k a)) → blocked (bind (reads g) k).
Proof. intros Hk h H. by apply Hk. Qed.
Ltac blocked := repeat first [exact blocked_check | (apply blocked_reads; intros) | apply blocked_bind].

Section Steps.
Context (c : Client) (s : Store) (pages : gmap Z Page) (l : list Z) (av : nat → list Z) (rm : gmap Z RootSlot) (dm : gmap Z DescriptorEntry) (f : gmap ObjectRef nat).
Context (Hm : mirrors c s pages l av rm dm f).

Lemma mirrors_quiet h' pages' l' av' : good h' pages' l' av' rm dm → quiet (c_heap c) h' pages pages' → mirrors (with_heap h' c) s pages' l' av' rm dm f.
Proof.
  intros Hg Hq. destruct Hm as [M1 M2 M3 M4 M5 M6 M7]. pose proof Hq as [Q1 Q2 Q3 Q4 Q5 Q6]. split; cbn [c_heap with_heap c_builders c_layouts c_leases c_locals]; rewrite ?Q3, ?Q4; try done.
  intros Hr. assert (running (c_heap c)) as Hr0 by (unfold running in *; by rewrite Q5 in Hr). specialize (M7 Hr0). eapply objects_quiet; [exact M7|exact Hq|by intros t ?; apply us_root|by intros t ?; apply us_local|apply M7].
Qed.
Lemma mirrors_faulted : simulates (with_heap (set_marking (set_phase Faulted (marking (c_heap c))) (c_heap c)) c) s.
Proof.
  destruct Hm as [M1 M2 M3 M4 M5 M6 M7]. exists pages, l, av, rm, dm, f. split; try done; [by apply good_faulted|]. intros [Hr _]. done.
Qed.
Lemma local_related i r : running (c_heap c) → c_locals c !! i = Some r → ∃ n, s_locals s !! i = Some n ∧ f !! r = Some n ∧ held (c_heap c) pages r ∧ usable (physical (c_heap c)) rm (c_locals c) r.
Proof.
  intros Hr Hi. destruct (mi_objects _ _ _ _ _ _ _ _ Hm Hr) as [O1 _ _]. destruct (Forall2_lookup_l _ _ _ _ _ O1 Hi) as (n & Hn & Hh & Hf). exists n. split_and!; try done. apply us_local. by eapply list_elem_of_lookup_2.
Qed.
Lemma lease_related i id : c_leases c !! i = Some id → ∃ n e p, s_leases s !! i = Some n ∧ s_packs s !! n = Some p ∧ pack_rel f (entry e) p ∧ leased (roots (c_heap c)) rm id e.
Proof.
  intros Hi. destruct (leases_lookup _ _ _ _ _ _ _ _ (mi_leases _ _ _ _ _ _ _ _ Hm) Hi) as (n & e & p & H1 & H2 & H3 & H4). exists n, e, p. split_and!; try done. apply H4.
  destruct (mi_good _ _ _ _ _ _ _ _ Hm) as [[Hb _] _]. apply (ba_heap _ _ _ _ _ _ _ Hb).
Qed.
Lemma layout_related i lay : c_layouts c !! i = Some lay → ∃ b e ks, s_layouts s !! i = Some b ∧ layout_ok (c_heap c) dm lay e ∧ identity_of e = Z.of_nat b ∧ s_builders s !! b = Some ks ∧ shape_ok ks (desc_shape (layout_descriptor lay)).
Proof.
  intros Hi. destruct (mi_layouts _ _ _ _ _ _ _ _ Hm) as [L1 L2 L3 L4]. destruct (Forall2_lookup_l _ _ _ _ _ L3 Hi) as (b & Hb & Hh & e & He & Hd & Hid). destruct (L1 _ _ He) as (_ & b' & ks & Hb' & Hks & Hs).
  assert (b' = b) as -> by lia. exists b, e, ks. rewrite Hd in Hs. split_and!; try done.
Qed.
(** Handing out a handle to something the client could already reach. *)
Lemma mirrors_hold h' pages' r n : good h' pages' l av rm dm → quiet (c_heap c) h' pages pages' → running (c_heap c) → usable (physical (c_heap c)) rm (c_locals c) r → f !! r = Some n →
  simulates (set_locals (c_locals (with_heap h' c) ++ [r]) (with_heap h' c)) (with_locals (s_locals s ++ [n]) s).
Proof.
  intros Hg Hq Hr Hu Hf. pose proof (mirrors_quiet h' pages' l av Hg Hq) as [M1 M2 M3 M4 M5 M6 M7]. exists pages', l, av, rm, dm, f. split; try done; [cbn in *; rewrite !length_app; cbn; lia|].
  intros Hr'. pose proof (mi_objects _ _ _ _ _ _ _ _ Hm Hr) as Ho. eapply (objects_quiet (c_heap c) h' pages pages'); [exact Ho|exact Hq|by intros t ?; apply us_root|..].
  - intros x [Hx| ->%list_elem_of_singleton]%elem_of_app; [by apply us_local|done].
  - apply Forall2_app; [apply Ho|]. constructor; [|constructor]. split; [|done]. eapply usable_held; [apply Hm|done|by eapply locals_held, Ho|done].
Qed.
End Steps.

(** ** Layouts *)
Lemma perform_register kinds c s : simulates c s → agrees (perform (Register kinds) c) (Register kinds) s.
Proof.
  intros Hs. cbn [perform]. apply ask_agrees; [done|blocked|]. intros pages l av rm dm f Hm Hr. pose proof Hm as [M1 M2 M3 M4 M5 M6 M7]. specialize (M7 Hr). rewrite M3.
  eapply register_layout_spec; [exact M1|exact Hr|..].
  - intros e ds h' He Hg. apply agrees_refused; [by left|]. exists pages, l, av, rm, dm, f. eapply mirrors_quiet; [exact Hm|exact Hg|by split].
  - intros ds id x lay h' dm' Hno Hx Hok Hid -> Hg. unfold agrees. cbn [specify]. split; [done|]. exists pages, l, av, rm, dm', f.
    split; cbn [c_heap with_heap c_builders c_layouts c_leases c_locals s_builders s_layouts s_leases s_packs s_locals s_objects]; try done; [by rewrite M3|by apply layouts_register|].
    intros _. eapply (objects_keep (c_heap c)); [exact M7|by intros ?; apply usable_payloads|done| |apply M7]. intros y hd e _ Hh He. exists e. split; [|done]. unfold dm'. rewrite lookup_insert_ne; [done|]. congruence.
Qed.
Lemma layouts_none c s i : simulates c s → c_layouts c !! i = None → s_layouts s !! i = None.
Proof.
  intros (pages & l & av & rm & dm & f & Hm) Hi. apply lookup_ge_None. apply lookup_ge_None in Hi. pose proof (list.Forall2_length _ _ _ (ly_handles _ _ _ _ _ (mi_layouts _ _ _ _ _ _ _ _ Hm))). lia.
Qed.
Lemma leases_none c s i : simulates c s → c_leases c !! i = None → s_leases s !! i = None.
Proof.
  intros (pages & l & av & rm & dm & f & Hm) Hi. apply lookup_ge_None. apply lookup_ge_None in Hi. pose proof (list.Forall2_length _ _ _ (le_rel _ _ _ _ _ _ (mi_leases _ _ _ _ _ _ _ _ Hm))). lia.
Qed.
Lemma locals_none c s i : simulates c s → c_locals c !! i = None → s_locals s !! i = None.
Proof. intros (pages & l & av & rm & dm & f & Hm) Hi. apply lookup_ge_None. apply lookup_ge_None in Hi. pose proof (mi_locals _ _ _ _ _ _ _ _ Hm). lia. Qed.

(** A new number of clones of a layout the client holds. *)
Lemma mirrors_handles c s pages l av rm dm f lay e ls' ns' g n : mirrors c s pages l av rm dm f → layout_ok (c_heap c) dm lay e → g e = with_handles n e →
  layouts_sim (heap_id (c_heap c)) (<[layout_id lay := with_handles n e]> dm) (s_builders s) ls' ns' →
  simulates (set_layouts ls' (with_heap (set_physical (set_descriptors (set_desc_slots (update g (desc_slots (descriptors (physical (c_heap c)))) (layout_id lay)) (descriptors (physical (c_heap c)))) (physical (c_heap c))) (c_heap c)) c))
    (with_layouts ns' s).
Proof.
  intros Hm (Hh & Hd & Hed) Hg Hls. pose proof Hm as [M1 M2 M3 M4 M5 M6 M7]. exists pages, l, av, rm, (<[layout_id lay := with_handles n e]> dm), f. split; try done; [by apply good_handles|].
  intros Hr. specialize (M7 Hr). eapply (objects_keep (c_heap c)); [exact M7|by intros ?; apply usable_payloads|done| |apply M7]. intros x hd y _ _ Hy. destruct (decide (hdr_descriptor hd = layout_id lay)) as [E|E].
  - rewrite E, lookup_insert_eq. eexists. split; [done|]. cbn. rewrite E in Hy. unfold layout_id in Hy. congruence.
  - rewrite lookup_insert_ne by done. by exists y.
Qed.
Lemma perform_clone_layout i c s : simulates c s → agrees (perform (CloneLayout i) c) (CloneLayout i) s.
Proof.
  intros Hs. cbn [perform]. destruct (c_layouts c !! i) as [lay|] eqn:Hi.
  2: { unfold agrees, answered. cbn [specify]. by rewrite (layouts_none c s i Hs Hi). }
  destruct Hs as (pages & l & av & rm & dm & f & Hm). destruct (layout_related _ _ _ _ _ _ _ _ Hm i lay Hi) as (b & e & ks & Hb & Hl & Hid & _). unfold ask, agrees. cbn [specify]. rewrite Hb. split; [done|].
  pose proof (mi_layouts _ _ _ _ _ _ _ _ Hm) as Hls. pose proof (list_elem_of_lookup_2 _ _ _ Hi) as Hin. pose proof Hl as (_ & Hd & _).
  eapply (mirrors_handles c s pages l av rm dm f lay e _ _ _ (S (handles e))); [exact Hm|exact Hl|done|].
  eapply layouts_handles; [exact Hls|exact Hin|exact Hd|..].
  - apply Forall2_app; [apply Hls|]. constructor; [|constructor]. exact (Forall2_lookup_lr _ _ _ _ _ _ (ly_handles _ _ _ _ _ Hls) Hi Hb).
  - intros x [?| ->%list_elem_of_singleton]%elem_of_app; done.
  - intros x _ Hx. cbn [c_layouts with_heap]. rewrite same_count_app, Hx, decide_True by done. rewrite (same_count_eq _ _ lay) by done. pose proof (ly_count _ _ _ _ _ Hls lay e Hin Hd). lia.
  - intros x _ Hx. cbn [c_layouts with_heap]. rewrite same_count_app, decide_False by congruence. lia.
Qed.
Lemma perform_drop_layout i c s : simulates c s → agrees (perform (DropLayout i) c) (DropLayout i) s.
Proof.
  intros Hs. cbn [perform]. destruct (c_layouts c !! i) as [lay|] eqn:Hi.
  2: { unfold agrees, answered. cbn [specify]. by rewrite (layouts_none c s i Hs Hi). }
  destruct Hs as (pages & l & av & rm & dm & f & Hm). destruct (layout_related _ _ _ _ _ _ _ _ Hm i lay Hi) as (b & e & ks & Hb & Hl & Hid & _). unfold ask, agrees. cbn [specify]. rewrite Hb. split; [done|].
  pose proof (mi_layouts _ _ _ _ _ _ _ _ Hm) as Hls. pose proof (list_elem_of_lookup_2 _ _ _ Hi) as Hin. pose proof Hl as (_ & Hd & _). pose proof (same_count_pos layout_id lay _ Hin) as Hpos.
  eapply (mirrors_handles c s pages l av rm dm f lay e _ _ _ (handles e - 1)); [exact Hm|exact Hl|done|].
  eapply layouts_handles; [exact Hls|exact Hin|exact Hd|..].
  - rewrite !delete_take_drop. apply Forall2_app; [apply Forall2_take, Hls|apply Forall2_drop, Hls].
  - intros x [k Hk]%list_elem_of_lookup_1. rewrite lookup_delete_list in Hk. by eapply list_elem_of_lookup_2.
  - intros x _ Hx. cbn [c_layouts with_heap]. pose proof (ly_count _ _ _ _ _ Hls lay e Hin Hd). pose proof (same_count_delete layout_id x (c_layouts c) i lay Hi) as Hc. rewrite Hx, decide_True in Hc by done.
    rewrite (same_count_eq _ x lay (c_layouts c)) in Hc by done. lia.
  - intros x _ Hx. cbn [c_layouts with_heap]. rewrite (same_count_delete layout_id x (c_layouts c) i lay Hi), decide_False by congruence. lia.
Qed.

(** ** Allocation *)
Lemma more_use_layouts d dm : same_layouts dm (more_use d dm).
Proof.
  split.
  - intros id e He _. destruct (more_use_entry d dm id e He) as (e' & ? & ? & ?). eauto.
  - intros id e' (e & He & H1 & H2 & _)%more_use_Some. eauto.
Qed.
Lemma lease_usable hid rm f ls ns ps p locals id e t : leases_sim hid rm f ls ns ps → id ∈ ls → rm !! root_slot id = Some e → Some t ∈ targets (entry e) → usable p rm locals t.
Proof.
  intros Hl Hin He Ht. apply us_root. exists (root_slot id), e. split_and!; try done. pose proof (le_count _ _ _ _ _ _ Hl id e Hin He). pose proof (same_count_pos root_slot id ls Hin). lia.
Qed.
Lemma untouched_quiet h h' pages l av rm dm : untouched h h' pages l av rm dm → quiet h h' pages pages.
Proof. intros [Hg [] []]. split; try done. intros x [Hx Hs]. unfold held, present. by rewrite cl_headers, fr_phase, fr_epoch. Qed.
Lemma perform_alloc i c s : simulates c s → agrees (perform (Alloc i) c) (Alloc i) s.
Proof.
  intros Hs. cbn [perform]. destruct (c_layouts c !! i) as [lay|] eqn:Hi.
  2: { unfold agrees, answered. cbn [specify]. by rewrite (layouts_none c s i Hs Hi). }
  apply ask_agrees; [done|blocked|]. intros pages l av rm dm f Hm Hr. destruct (layout_related _ _ _ _ _ _ _ _ Hm i lay Hi) as (b & e & ks & Hb & Hl & Hid & Hks & Hok). pose proof Hm as [M1 M2 M3 M4 M5 M6 M7]. specialize (M7 Hr).
  eapply alloc_dynamic_spec; [exact M1|exact Hr|exact Hl|exact M2|..].
  - intros e' h' He' Hun. apply agrees_refused; [by left|]. exists pages, l, av, rm, dm, f. eapply mirrors_quiet; [exact Hm|apply Hun|by eapply untouched_quiet].
  - intros r h' pages' l' av' Hal. unfold agrees. cbn [specify push_local]. rewrite Hb, Hks. cbn [default]. split; [done|].
    destruct (objects_alloc _ _ _ _ _ _ _ _ _ _ _ _ _ _ _ _ b ks M7 M1 Hr Hal) as [Ho Hne]; [|exact Hok|].
    { destruct Hl as (_ & Hd & Hed). by exists e. }
    exists pages', l', av', rm, (more_use (desc_id (layout_descriptor lay)) dm), (<[r := length (s_objects s)]> f). destruct Hal as [A1 [] A3 A4 A5 A6].
    split; cbn [c_heap set_locals with_heap c_builders c_layouts c_leases c_locals s_builders s_layouts s_leases s_packs s_locals s_objects with_locals with_objects hold]; rewrite ?fr_id, ?fr_config; try done.
    + eapply layouts_same; [exact M4|apply more_use_layouts].
    + eapply leases_map; [exact M5|]. intros id e' t Hin He' Ht. rewrite lookup_insert_ne; [done|]. apply not_eq_sym, Hne. by eapply lease_usable.
    + rewrite !length_app. cbn. lia.
Qed.

(** ** Fields *)
Lemma field_agrees {A} scalar i k x c q s op (m : FieldRef → ObjectRef → M Heap A) kk : simulates c s → specify q s = field_access scalar i k x s op → (∀ f r, blocked (m f r)) →
  (∀ pages l av rm dm f lay e fd r hd n o pl w, mirrors c s pages l av rm dm f → running (c_heap c) → layout_ok (c_heap c) dm lay e →
     shape_fields (desc_shape (layout_descriptor lay)) !! snd k = Some fd → (field_kind fd = FReference ↔ scalar = false) → headers (physical (c_heap c)) !! r = Some hd → held (c_heap c) pages r →
     usable (physical (c_heap c)) rm (c_locals c) r → f !! r = Some n → s_objects s !! n = Some o → payloads (physical (c_heap c)) !! r = Some pl →
     (hdr_descriptor hd ≠ desc_id (layout_descriptor lay) → agrees (Err (GcErr Representation), with_heap (c_heap c) c) q s) →
     (hdr_descriptor hd = desc_id (layout_descriptor lay) → specify q s = op n o w ∧ ∃ v, pl !! field_offset fd = Some v ∧ value_rel f v w) →
     wp (λ e h, agrees (Err e, with_heap h c) q s) (m {| field_layout_of := lay; field_at := field_offset fd |} r) (λ a h, agrees (kk a (with_heap h c)) q s) (c_heap c)) →
  agrees (field_request scalar i k x c (λ f r, ask (m f r) c kk)) q s.
Proof.
  intros Hs Hq Hbl Hw. assert (specify q s = (Ok Inexpressible, s) → agrees (answered Inexpressible c) q s) as Hin by (intros E; unfold agrees, answered; by rewrite E).
  unfold field_request. unfold field_access in Hq. pose proof Hs as (pages & l & av & rm & dm & f & Hm). pose proof (mi_builders _ _ _ _ _ _ _ _ Hm) as Hbs.
  destruct (c_layouts c !! i) as [lay|] eqn:Hi; [|apply Hin; by rewrite Hq, (layouts_none c s i Hs Hi)]. destruct (layout_related _ _ _ _ _ _ _ _ Hm i lay Hi) as (b & e & ks & Hb & Hl & Hid & Hks & Hok). rewrite Hb in Hq. rewrite Hbs.
  destruct (key_kind (s_builders s) k) as [kind|] eqn:Hk; [|by apply Hin]. destruct (c_locals c !! x) as [r|] eqn:Hx; [|apply Hin; by rewrite Hq, (locals_none c s x Hs Hx)].
  assert (is_Some (s_locals s !! x)) as [n Hn] by (apply lookup_lt_is_Some; rewrite <- (mi_locals _ _ _ _ _ _ _ _ Hm); by eapply lookup_lt_Some). rewrite Hn in Hq.
  destruct (Bool.eqb scalar (negb (bool_decide (kind = FReference)))) eqn:Hsc; [|by apply Hin]. pose proof Hl as (Hlh & Hld & Hle). unfold bind_field. cbn [key_identity key_index].
  assert (shape_identity (desc_shape (layout_descriptor lay)) = Z.of_nat b) as Hidl by (unfold identity_of in Hid; by rewrite Hle in Hid). rewrite Hidl.
  destruct (Z.eqb_spec (Z.of_nat b) (Z.of_nat (fst k))) as [Hbk|Hbk]; cbn [negb].
  2: { rewrite bool_decide_eq_false_2 in Hq by lia. unfold agrees. rewrite Hq. right. by split. }
  rewrite bool_decide_eq_true_2 in Hq by lia. assert (b = fst k) as -> by lia. unfold key_kind in Hk. rewrite Hks in Hk. cbn in Hk. rewrite <- (sh_kinds _ _ Hok), list_lookup_fmap in Hk.
  apply fmap_Some in Hk as (fd & Hfd & ->). rewrite Hfd, bool_decide_eq_true_2 by done. apply ask_agrees; [done|apply Hbl|]. clear pages l av rm dm f Hm e Hl Hlh Hld Hle Hid.
  intros pages l av rm dm f Hm Hr. destruct (layout_related _ _ _ _ _ _ _ _ Hm i lay Hi) as (b' & e & ks' & Hb' & Hl & Hid & Hks' & Hok'). assert (b' = fst k) as -> by congruence.
  destruct (local_related _ _ _ _ _ _ _ _ Hm x r Hr Hx) as (n' & Hn' & Hf & Hh & Hu). assert (n' = n) as -> by congruence. destruct (mi_objects _ _ _ _ _ _ _ _ Hm Hr) as [_ O2 _].
  destruct (O2 r Hu) as (n1 & Hn1 & hd & e1 & pl & o & H1 & H2 & H3 & H4 & H5 & H6 & H7). assert (n1 = n) as -> by congruence. rewrite H4 in Hq. pose proof Hl as (Hlh & Hld & Hle).
  assert (hdr_descriptor hd = desc_id (layout_descriptor lay) ↔ o_layout o = fst k) as Hiff.
  { split.
    - intros E. rewrite E in H2. assert (e1 = e) as -> by congruence. lia.
    - intros E. apply (ly_unique _ _ _ _ _ (mi_layouts _ _ _ _ _ _ _ _ Hm) _ _ e1 e); [done|done|]. rewrite H5, Hid. lia. }
  destruct (o_fields o !! snd k) as [w|] eqn:Hw'.
  - eapply (Hw pages l av rm dm f lay e fd r hd n o pl w); try done.
    + destruct scalar, (bool_decide (field_kind fd = FReference)) eqn:E; try done; [apply bool_decide_eq_false in E|apply bool_decide_eq_true in E]; naive_solver.
    + intros Hne. rewrite bool_decide_eq_false_2 in Hq by (by rewrite <- Hiff). unfold agrees. rewrite Hq, with_heap_id. right. by split.
    + intros E. rewrite bool_decide_eq_true_2 in Hq by (by apply Hiff). split; [done|]. rewrite E in H2. assert (e1 = e) as -> by congruence. rewrite Hle in H7. destruct (H7 _ _ Hfd) as (v & w' & Hv & Hw2 & Hvw).
      assert (w' = w) as -> by congruence. by exists v.
  - eapply (Hw pages l av rm dm f lay e fd r hd n o pl (CScalar 0)); try done.
    + destruct scalar, (bool_decide (field_kind fd = FReference)) eqn:E; try done; [apply bool_decide_eq_false in E|apply bool_decide_eq_true in E]; naive_solver.
    + intros Hne. rewrite bool_decide_eq_false_2 in Hq by (by rewrite <- Hiff). unfold agrees. rewrite Hq, with_heap_id. right. by split.
    + intros E. rewrite E in H2. assert (e1 = e) as -> by congruence. rewrite Hle in H7. destruct (H7 _ _ Hfd) as (v & w' & Hv & Hw2 & Hvw). congruence.
Qed.

Lemma agrees_done c' q s s' x : specify q s = (Ok x, s') → simulates c' s' → agrees (Ok x, c') q s.
Proof. intros E Hs. unfold agrees. by rewrite E. Qed.
Lemma perform_get_scalar i k x c s : simulates c s → agrees (perform (GetScalar i k x) c) (GetScalar i k x) s.
Proof.
  intros Hs. cbn [perform]. eapply field_agrees; [done|done|intros; blocked|]. intros pages l av rm dm f lay e fd r hd n o pl w Hm Hr Hl Hfd Hk Hhd Hh Hu Hf Ho Hpl Hrep Heq.
  eapply scalar_get_spec; [apply Hm|exact Hr|exact Hl|exact Hfd|exact Hhd|exact Hrep|naive_solver|]. intros pl' bits E Hpl' Hv. destruct (Heq E) as (Hq & v & Hv' & Hvw). assert (pl' = pl) as -> by congruence. assert (v = VScalar bits) as -> by congruence.
  destruct w as [z|]; [|done]. cbn in Hvw. subst z. rewrite with_heap_id. by eapply agrees_done.
Qed.
Lemma perform_get_reference i k x c s : simulates c s → agrees (perform (GetReference i k x) c) (GetReference i k x) s.
Proof.
  intros Hs. cbn [perform]. eapply field_agrees; [done|done|intros; blocked|]. intros pages l av rm dm f lay e fd r hd n o pl w Hm Hr Hl Hfd Hk Hhd Hh Hu Hf Ho Hpl Hrep Heq.
  eapply reference_get_spec; [apply Hm|exact Hr|exact Hl|exact Hfd|exact Hhd|exact Hrep|by apply Hk|]. intros pl' t E Hpl' Hv. destruct (Heq E) as (Hq & v & Hv' & Hvw). assert (pl' = pl) as -> by congruence. assert (v = VReference t) as -> by congruence.
  assert (∀ y, t = Some y → usable (physical (c_heap c)) rm (c_locals c) y) as Hut by (intros y ->; eapply us_edge; [exact Hu|]; by exists pl, (field_offset fd)). split.
  - intros y Hy. eapply (usable_held (c_heap c) pages l av rm dm (c_locals c)); [apply Hm|exact Hr|eapply locals_held, (mi_objects _ _ _ _ _ _ _ _ Hm Hr)|by apply Hut].
  - destruct w as [|m]; [done|]. cbn in Hvw. destruct t as [t|], m as [m|]; cbn in Hvw; try done.
    + eapply agrees_done; [exact Hq|]. eapply (mirrors_hold c s pages l av rm dm f); [exact Hm|apply Hm|by split|exact Hr|by apply Hut|exact Hvw].
    + rewrite with_heap_id. by eapply agrees_done.
Qed.
(** The two writes. *)
Lemma mirrors_write c s pages l av rm dm f h' pages' lay e i fd r hd n o pl v w : mirrors c s pages l av rm dm f → running (c_heap c) → layout_ok (c_heap c) dm lay e →
  shape_fields (desc_shape (layout_descriptor lay)) !! i = Some fd → headers (physical (c_heap c)) !! r = Some hd → hdr_descriptor hd = desc_id (layout_descriptor lay) →
  usable (physical (c_heap c)) rm (c_locals c) r → f !! r = Some n → s_objects s !! n = Some o → payloads (physical (c_heap c)) !! r = Some pl → value_rel f v w →
  (∀ t, v = VReference (Some t) → usable (physical (c_heap c)) rm (c_locals c) t) → good h' pages' l av rm dm → headers (physical h') = headers (physical (c_heap c)) →
  payloads (physical h') = <[r := <[field_offset fd := v]> pl]> (payloads (physical (c_heap c))) → (∀ x, held (c_heap c) pages x → held h' pages' x) →
  heap_id h' = heap_id (c_heap c) → config h' = config (c_heap c) → simulates (with_heap h' c) (write_field n o i w s).
Proof.
  intros Hm Hr Hl Hfd Hhd E Hu Hf Ho Hpl Hv Hvt Hg Eh Ep Hh Ei Ec. pose proof Hm as [M1 M2 M3 M4 M5 M6 M7]. specialize (M7 Hr). destruct Hl as (_ & Hd & Hed). rewrite <- E in Hd. rewrite <- Hed in Hfd. exists pages', l, av, rm, dm, f.
  split; cbn [c_heap with_heap c_builders c_layouts c_leases c_locals s_builders s_layouts s_leases s_packs s_locals s_objects with_objects write_field]; rewrite ?Ei, ?Ec; try done.
  intros _. by eapply (objects_write (c_heap c) h' pages pages').
Qed.
Lemma perform_set_scalar i k x bits c s : simulates c s → agrees (perform (SetScalar i k x bits) c) (SetScalar i k x bits) s.
Proof.
  intros Hs. cbn [perform]. eapply (field_agrees true i k x c _ s _ (λ f r, scalar_set f r bits)); [done|done|intros; blocked|]. intros pages l av rm dm f lay e fd r hd n o pl w Hm Hr Hl Hfd Hk Hhd Hh Hu Hf Ho Hpl Hrep Heq.
  eapply scalar_set_spec; [apply Hm|exact Hr|exact Hl|exact Hfd|exact Hhd|exact Hrep|naive_solver|]. intros pl' h' E Hpl' Hg. destruct (Heq E) as (Hq & _). assert (pl' = pl) as -> by congruence.
  eapply agrees_done; [exact Hq|]. by eapply (mirrors_write c s pages l av rm dm f h' pages lay e (snd k) fd r hd n o pl (VScalar bits) (CScalar bits)).
Qed.
Lemma local_value_related c s pages l av rm dm f v : mirrors c s pages l av rm dm f → running (c_heap c) → ∀ value, local_value (c_locals c) v = Some value →
  ∃ n, local_value (s_locals s) v = Some n ∧ opt_rel f value n ∧ ∀ t, value = Some t → held (c_heap c) pages t ∧ usable (physical (c_heap c)) rm (c_locals c) t.
Proof.
  intros Hm Hr value. destruct v as [i|]; cbn; [|intros [= <-]; by exists None]. destruct (c_locals c !! i) as [r|] eqn:Hi; [|done]. intros [= <-].
  destruct (local_related _ _ _ _ _ _ _ _ Hm i r Hr Hi) as (n & -> & Hf & Hh & Hu). exists (Some n). split_and!; [done|done|]. by intros t [= <-].
Qed.
Lemma local_value_none c s v : simulates c s → local_value (c_locals c) v = None ↔ local_value (s_locals s) v = None.
Proof.
  intros (pages & l & av & rm & dm & f & Hm). pose proof (mi_locals _ _ _ _ _ _ _ _ Hm) as Hlen. destruct v as [i|]; cbn; [|done].
  destruct (c_locals c !! i) eqn:E1, (s_locals s !! i) eqn:E2; try done; [apply lookup_lt_Some in E1; apply lookup_ge_None in E2; lia|apply lookup_lt_Some in E2; apply lookup_ge_None in E1; lia].
Qed.
Lemma perform_set_reference i k x v c s : simulates c s → agrees (perform (SetReference i k x v) c) (SetReference i k x v) s.
Proof.
  intros Hs. cbn [perform]. destruct (local_value (c_locals c) v) as [value|] eqn:Hv.
  2: { apply (local_value_none c s v Hs) in Hv. unfold agrees, answered. cbn [specify]. by rewrite Hv. }
  destruct (local_value (s_locals s) v) as [nv|] eqn:Hnv; [|apply (local_value_none c s v Hs) in Hnv; congruence].
  eapply (field_agrees false i k x c _ s _ (λ f r, reference_set f r value)); [done|cbn [specify]; by rewrite Hnv|intros; blocked|]. intros pages l av rm dm f lay e fd r hd n o pl w Hm Hr Hl Hfd Hk Hhd Hh Hu Hf Ho Hpl Hrep Heq.
  destruct (local_value_related _ _ _ _ _ _ _ _ v Hm Hr value Hv) as (nv' & Hnv' & Hvr & Hvh). assert (nv' = nv) as -> by congruence.
  eapply reference_set_spec; [apply Hm|exact Hr|exact Hl|exact Hfd|by apply Hk|exact Hhd|by intros y ?; apply Hvh|exact Hrep|..].
  - intros e' He'. apply agrees_refused; [by left|]. by eapply mirrors_faulted.
  - intros h1 pages' pl' h' E Hpl' Hmk Hheld Hg. destruct (Heq E) as (Hq & _). assert (pl' = pl) as -> by congruence. eapply agrees_done; [exact Hq|].
    eapply (mirrors_write c s pages l av rm dm f h' pages' lay e (snd k) fd r hd n o pl (VReference value) (CReference nv)); try done.
    + intros t [= ->]. by apply Hvh.
    + apply Hmk.
    + cbn. by rewrite (md_payloads _ _ Hmk).
    + apply Hmk.
    + apply Hmk.
Qed.

(** ** Roots *)
Lemma mirrors_register c s pages l av rm dm f h' pages' lease ty ts p : mirrors c s pages l av rm dm f → running (c_heap c) → registered (c_heap c) h' pages pages' l av rm dm lease ty ts →
  (∀ e, typed e = ty → targets e = ts → pack_rel f e p) → (∀ t, Some t ∈ ts → usable (physical (c_heap c)) rm (c_locals c) t) →
  simulates (set_leases (c_leases (with_heap h' c) ++ [lease]) (with_heap h' c)) (snd (hold_pack p s)).
Proof.
  intros Hm Hr [(sl & Hg & Hno & Hle & Hst & Hty & Hts) Hq] Hp Hu. pose proof Hm as [M1 M2 M3 M4 M5 M6 M7]. specialize (M7 Hr). pose proof Hq as [Q1 Q2 Q3 Q4 Q5 Q6]. exists pages', l, av, (<[root_slot lease := sl]> rm), dm, f.
  split; cbn [c_heap set_leases with_heap c_builders c_layouts c_leases c_locals s_builders s_layouts s_leases s_packs s_locals s_objects with_leases with_packs hold_pack snd]; rewrite ?Q3, ?Q4; try done.
  - destruct Hle as (Hh & _ & Hge & _). eapply leases_new; [exact M5|exact Hno| |done|exact Hst|by apply Hp]. rewrite Hh. destruct Hg as [[Hb _] _]. rewrite (ba_heap _ _ _ _ _ _ _ Hb). done.
  - intros _. eapply (objects_quiet (c_heap c) h' pages pages'); [exact M7|exact Hq| |by intros; apply us_local|apply M7].
    intros t (j & e & [[<- <-]|[Hne He]]%lookup_insert_Some & Hst' & Ht); [apply Hu; by rewrite <- Hts|]. apply us_root. by exists j, e.
Qed.
Lemma root_pack f e n t ts : typed e = true → targets e = [Some t] → f !! t = Some n → ts = [Some t] → pack_rel f e (PRoot n).
Proof. intros Hty Ht Hf ->. split; [done|]. by exists t. Qed.
Lemma perform_retain x c s : simulates c s → agrees (perform (Retain x) c) (Retain x) s.
Proof.
  intros Hs. cbn [perform]. destruct (c_locals c !! x) as [r|] eqn:Hx. 2: { unfold agrees, answered. cbn [specify]. by rewrite (locals_none c s x Hs Hx). }
  apply ask_agrees; [done|blocked|]. intros pages l av rm dm f Hm Hr. destruct (local_related _ _ _ _ _ _ _ _ Hm x r Hr Hx) as (n & Hn & Hf & Hh & Hu). eapply retain_spec; [apply Hm|exact Hr|exact Hh|..].
  - intros e h' pages' He Hg Hq. apply agrees_refused; [by left|]. exists pages', l, av, rm, dm, f. by eapply mirrors_quiet.
  - intros lease h' pages' Hrd. eapply agrees_done; [cbn [specify]; rewrite Hn; done|]. eapply mirrors_register; [exact Hm|exact Hr|exact Hrd|intros e H1 H2; by eapply root_pack|]. by intros t [= ->]%list_elem_of_singleton.
Qed.
Lemma perform_create_roots k c s : simulates c s → agrees (perform (CreateRoots k) c) (CreateRoots k) s.
Proof.
  intros Hs. cbn [perform]. apply ask_agrees; [done|blocked|]. intros pages l av rm dm f Hm Hr. eapply create_roots_spec; [apply Hm|exact Hr|..].
  - intros e h' pages' He Hg Hq. apply agrees_refused; [by left|]. exists pages', l, av, rm, dm, f. by eapply mirrors_quiet.
  - intros lease h' pages' Hrd. eapply agrees_done; [done|]. eapply mirrors_register; [exact Hm|exact Hr|exact Hrd| |].
    + intros e Hty Hts. split; [done|]. rewrite Hts. apply Forall2_replicate. done.
    + intros t Ht. apply elem_of_replicate in Ht as [? _]. done.
Qed.

(** A request on a root the client holds. *)
Lemma pack_agrees {A} i c q s (op : nat → Pack → Outcome Store) (m : RootId → M Heap A) k : simulates c s → specify q s = the_pack s i op → (∀ id, blocked (m id)) →
  (∀ pages l av rm dm f id n e p, c_leases c !! i = Some id → s_leases s !! i = Some n → mirrors c s pages l av rm dm f → running (c_heap c) → leased (roots (c_heap c)) rm id e → pack_rel f (entry e) p → specify q s = op n p →
     s_packs s !! n = Some p → wp (λ e h, agrees (Err e, with_heap h c) q s) (m id) (λ a h, agrees (k a (with_heap h c)) q s) (c_heap c)) →
  agrees (match c_leases c !! i with None => answered Inexpressible c | Some id => ask (m id) c k end) q s.
Proof.
  intros Hs Hq Hb Hw. destruct (c_leases c !! i) as [id|] eqn:Hi. 2: { unfold agrees, answered. rewrite Hq. unfold the_pack. by rewrite (leases_none c s i Hs Hi). }
  apply ask_agrees; [done|apply Hb|]. intros pages l av rm dm f Hm Hr. destruct (lease_related _ _ _ _ _ _ _ _ Hm i id Hi) as (n & e & p & H1 & H2 & H3 & H4). eapply (Hw pages l av rm dm f id n e p); try done.
  rewrite Hq. unfold the_pack. by rewrite H1, H2.
Qed.
Lemma pack_target_rel f e p index t : pack_rel f e p → targets e !! index = Some (Some t) → ∃ n, pack_targets p !! index = Some (Some n) ∧ f !! t = Some n.
Proof. intros Hp Ht. destruct (Forall2_lookup_l _ _ _ _ _ (pack_rel_targets _ _ _ Hp) Ht) as ([n|] & Hn & Hf); [by exists n|done]. Qed.
Lemma pack_target_none f e p index : pack_rel f e p → (∀ t, targets e !! index ≠ Some (Some t)) → ∀ n, pack_targets p !! index ≠ Some (Some n).
Proof. intros Hp Ht n Hn. destruct (Forall2_lookup_r _ _ _ _ _ (pack_rel_targets _ _ _ Hp) Hn) as ([t|] & Hx & Hf); [by apply (Ht t)|done]. Qed.
Lemma pack_usable h rm locals id e index t : leased (roots h) rm id e → targets (entry e) !! index = Some (Some t) → usable (physical h) rm locals t.
Proof. intros Hl Ht. apply us_root. by eapply live_target. Qed.
Lemma agrees_rejected c q s e : simulates c s → specify q s = (Err e, s) → agrees (Err e, with_heap (c_heap c) c) q s.
Proof. intros Hs E. unfold agrees. rewrite E, with_heap_id. right. by split. Qed.

Lemma perform_admit i c s : simulates c s → agrees (perform (Admit i) c) (Admit i) s.
Proof.
  intros Hs. cbn [perform]. eapply pack_agrees; [done|done|intros; blocked|]. intros pages l av rm dm f id n e p Hi Hn Hm Hr Hl Hp Hq Hps. cbn beta in Hq. eapply (scope_get_spec _ _ _ _ _ _ _ id e); [apply Hm|exact Hr|exact Hl|..].
  - intros Hty. apply agrees_rejected; [done|]. destruct p; [by destruct Hp; congruence|done].
  - intros t ts Hty Hts Hh. destruct p as [m|]; [|by destruct Hp; congruence]. destruct Hp as (_ & t' & Ht' & Hf). assert (t' = t) as -> by congruence. eapply agrees_done; [exact Hq|].
    eapply mirrors_hold; [exact Hm|apply Hm|by split|exact Hr| |exact Hf]. eapply (pack_usable _ _ _ _ _ 0); [exact Hl|]. by rewrite Hts.
  - intros Hty. destruct p as [m|]; [|by destruct Hp; congruence]. destruct Hp as (_ & t' & Ht' & Hf). eauto.
Qed.
Lemma perform_get_root i index c s : simulates c s → agrees (perform (GetRoot i index) c) (GetRoot i index) s.
Proof.
  intros Hs. cbn [perform]. eapply (pack_agrees i c _ s _ (λ id, get_root id index)); [done|done|intros; blocked|]. intros pages l av rm dm f id n e p Hi Hn Hm Hr Hl Hp Hq Hps. cbn beta in Hq. eapply (get_root_spec _ _ _ _ _ _ _ id e); [apply Hm|exact Hr|exact Hl|..].
  - intros t Ht Hh. destruct (pack_target_rel _ _ _ _ _ Hp Ht) as (m & Hm' & Hf). rewrite Hm' in Hq. eapply agrees_done; [exact Hq|]. eapply mirrors_hold; [exact Hm|apply Hm|by split|exact Hr|by eapply pack_usable|exact Hf].
  - intros Ht. pose proof (pack_target_none _ _ _ _ Hp Ht) as Hno. apply agrees_rejected; [done|]. rewrite Hq. by destruct (pack_targets p !! index) as [[m|]|]; [destruct (Hno m)|..].
Qed.
Lemma perform_root_at i index c s : simulates c s → agrees (perform (RootAt i index) c) (RootAt i index) s.
Proof.
  intros Hs. cbn [perform]. eapply (pack_agrees i c _ s _ (λ id, root_at id index)); [done|done|intros; blocked|]. intros pages l av rm dm f id n e p Hi Hn Hm Hr Hl Hp Hq Hps. cbn beta in Hq. eapply (root_at_spec _ _ _ _ _ _ _ id e); [apply Hm|exact Hr|exact Hl|..].
  - intros Hty. apply agrees_rejected; [done|]. destruct p; [done|by destruct Hp; congruence].
  - intros Hty Ht. pose proof (pack_target_none _ _ _ _ Hp Ht) as Hno. apply agrees_rejected; [done|]. rewrite Hq. destruct p as [m|ts]; [by destruct Hp; congruence|]. cbn in Hno. by destruct (ts !! index) as [[m|]|]; [destruct (Hno m)|..].
  - intros e' h' pages' He' Hg Hqt. apply agrees_refused; [by left|]. exists pages', l, av, rm, dm, f. by eapply mirrors_quiet.
  - intros t lease' h' pages' Hty Ht Hrd. destruct (pack_target_rel _ _ _ _ _ Hp Ht) as (m & Hm' & Hf). destruct p as [|ts]; [by destruct Hp; congruence|]. cbn in Hm'. cbn iota in Hq. rewrite Hm' in Hq. eapply agrees_done; [exact Hq|].
    eapply mirrors_register; [exact Hm|exact Hr|exact Hrd|intros e' H1 H2; by eapply root_pack|]. intros y [= ->]%list_elem_of_singleton. by eapply pack_usable.
Qed.

(** Writing a slot of a pack. *)
Lemma pack_rel_write f e ts index value nv : pack_rel f e (PSet ts) → opt_rel f value nv → pack_rel f (set_target index value e) (PSet (<[index := nv]> ts)).
Proof. intros [Hty Hts] Hv. split; [done|]. cbn. by apply Forall2_insert. Qed.
Lemma mirrors_slot c s pages l av rm dm f h' pages' i id n e ts index value nv : mirrors c s pages l av rm dm f → running (c_heap c) → leased (roots (c_heap c)) rm id e → pack_rel f (entry e) (PSet ts) →
  c_leases c !! i = Some id → s_leases s !! i = Some n → rewritten l av rm dm id e (c_heap c) h' pages pages' index value → opt_rel f value nv →
  (∀ t, value = Some t → usable (physical (c_heap c)) rm (c_locals c) t) → simulates (with_heap h' c) (with_packs (<[n := PSet (<[index := nv]> ts)]> (s_packs s)) s).
Proof.
  intros Hm Hr Hl Hp Hi Hn [Hg Hq Hrh] Hv Hvu. pose proof Hm as [M1 M2 M3 M4 M5 M6 M7]. specialize (M7 Hr). pose proof Hq as [Q1 Q2 Q3 Q4 Q5 Q6]. destruct Hl as (Hh & He & Hge & Hst).
  exists pages', l, av, (<[root_slot id := with_entry (set_target index value) e]> rm), dm, f.
  split; cbn [c_heap with_heap c_builders c_layouts c_leases c_locals s_builders s_layouts s_leases s_packs s_locals s_objects with_packs]; rewrite ?Q3, ?Q4; try done.
  - eapply leases_update; [exact M5|exact Hi|exact Hn|exact He|done|by apply pack_rel_write|by eapply list.Forall2_length, M5|by eauto| |done].
    intros x Hx Hxi. apply (le_count _ _ _ _ _ _ M5 x e Hx). by rewrite Hxi.
  - intros _. eapply (objects_quiet (c_heap c) h' pages pages'); [exact M7|exact Hq| |by intros; apply us_local|apply M7].
    intros t (j & e' & [[<- <-]|[Hne He']]%lookup_insert_Some & Hst' & Ht); [|apply us_root; by exists j, e']. cbn in Ht. apply list_elem_of_lookup_1 in Ht as [k Hk].
    apply list_lookup_insert_Some in Hk as [(_ & E & _)|[_ Hk]]; [by apply Hvu|]. apply us_root. exists (root_slot id), e. split_and!; try done. by eapply list_elem_of_lookup_2.
Qed.
(** What [write_slot] answers, by the registration behind it. *)
Lemma write_slot_rel f e p n index nv s : pack_rel f e p →
  (typed e = true ∨ length (targets e) ≤ index → write_slot n p index nv s = rejected IndexOutside s)
  ∧ (typed e = false → index < length (targets e) → ∃ ts, p = PSet ts ∧ write_slot n p index nv s = replied Done (with_packs (<[n := PSet (<[index := nv]> ts)]> (s_packs s)) s)).
Proof.
  destruct p as [m|ts]; cbn [pack_rel write_slot].
  - intros (Hty & _). split; [done|]. congruence.
  - intros [Hty Hts]. rewrite (list.Forall2_length _ _ _ Hts). split.
    + intros [?|Hle]; [congruence|]. by destruct (Nat.ltb_spec index (length ts)); [lia|].
    + intros _ Hlt. exists ts. split; [done|]. by destruct (Nat.ltb_spec index (length ts)); [|lia].
Qed.
Lemma perform_set_root i index v c s : simulates c s → agrees (perform (SetRoot i index v) c) (SetRoot i index v) s.
Proof.
  intros Hs. cbn [perform]. destruct (local_value (c_locals c) v) as [value|] eqn:Hv.
  2: { apply (local_value_none c s v Hs) in Hv. unfold agrees, answered. cbn [specify]. rewrite Hv. by destruct (c_leases c !! i). }
  destruct (local_value (s_locals s) v) as [nv|] eqn:Hnv; [|apply (local_value_none c s v Hs) in Hnv; congruence].
  eapply (pack_agrees i c _ s _ (λ id, set_root id index value)); [done|cbn [specify]; by rewrite Hnv|intros; blocked|]. intros pages l av rm dm f id n e p Hi Hn Hm Hr Hl Hp Hq Hps. cbn beta in Hq.
  destruct (local_value_related _ _ _ _ _ _ _ _ v Hm Hr value Hv) as (nv' & Hnv' & Hvr & Hvh). assert (nv' = nv) as -> by congruence. destruct (write_slot_rel f (entry e) p n index nv s Hp) as [W1 W2].
  eapply (set_root_spec _ _ _ _ _ _ _ id e); [apply Hm|exact Hr|exact Hl|by intros t ?; apply Hvh|..].
  - intros e' He'. apply agrees_refused; [by left|]. by rewrite with_heap_id.
  - intros Hor. apply agrees_rejected; [done|]. by rewrite Hq, W1.
  - intros h' pages' Hty Hlt Hrw. destruct (W2 Hty Hlt) as (ts & -> & E). eapply agrees_done; [by rewrite Hq, E|]. eapply (mirrors_slot c s pages l av rm dm f h' pages' i id n e ts index value nv); try done. intros t ?. by apply Hvh.
Qed.
Lemma perform_clear_root i index c s : simulates c s → agrees (perform (ClearRoot i index) c) (ClearRoot i index) s.
Proof.
  intros Hs. cbn [perform]. eapply (pack_agrees i c _ s _ (λ id, clear_root id index)); [done|done|intros; blocked|]. intros pages l av rm dm f id n e p Hi Hn Hm Hr Hl Hp Hq Hps. cbn beta in Hq.
  destruct (write_slot_rel f (entry e) p n index None s Hp) as [W1 W2]. eapply (clear_root_spec _ _ _ _ _ _ _ id e); [apply Hm|exact Hr|exact Hl|..].
  - intros Hor. apply agrees_rejected; [done|]. by rewrite Hq, W1.
  - intros h' pages' Hty Hlt Hrw. destruct (W2 Hty Hlt) as (ts & -> & E). eapply agrees_done; [by rewrite Hq, E|]. by eapply (mirrors_slot c s pages l av rm dm f h' pages' i id n e ts index None None).
Qed.
Lemma perform_replace_root i index j c s : simulates c s → agrees (perform (ReplaceRoot i index j) c) (ReplaceRoot i index j) s.
Proof.
  intros Hs. cbn [perform]. destruct (c_leases c !! j) as [source|] eqn:Hj.
  2: { unfold agrees, answered. cbn [specify]. unfold the_pack. rewrite (leases_none c s j Hs Hj). destruct (c_leases c !! i) as [id|] eqn:Hi; [|by rewrite (leases_none c s i Hs Hi)].
       destruct Hs as (pages & l & av & rm & dm & f & Hm). destruct (lease_related _ _ _ _ _ _ _ _ Hm i id Hi) as (n & e & p & -> & -> & _). split; [done|]. by exists pages, l, av, rm, dm, f. }
  eapply (pack_agrees i c _ s _ (λ id, replace_root id index source)); [done|done|intros; blocked|]. intros pages l av rm dm f id n e p Hi Hn Hm Hr Hl Hp Hq Hps. cbn beta in Hq.
  destruct (lease_related _ _ _ _ _ _ _ _ Hm j source Hj) as (n' & e' & p' & Hn' & Hps' & Hp' & Hl'). unfold the_pack in Hq. rewrite Hn', Hps' in Hq.
  destruct (write_slot_rel f (entry e) p n index None s Hp) as [W1 W2]. eapply (replace_root_spec _ _ _ _ _ _ _ id e source e'); [apply Hm|exact Hr|exact Hl|exact Hl'|..].
  - intros Hty. destruct p' as [m|]; [|by destruct Hp'; congruence]. destruct Hp' as (_ & t & Ht & _). eauto.
  - intros e0 He0. apply agrees_refused; [by left|]. by rewrite with_heap_id.
  - intros Hor. apply agrees_rejected; [done|]. by rewrite Hq, W1.
  - intros Hty Hlt Hty'. destruct (W2 Hty Hlt) as (ts & -> & E). apply agrees_rejected; [done|]. rewrite Hq, E. destruct p'; [by destruct Hp'; congruence|done].
  - intros t ts0 h' pages' Hty Hlt Hty' Hts Hrw. destruct (W2 Hty Hlt) as (ts & -> & E). destruct p' as [m|]; [|by destruct Hp'; congruence]. destruct Hp' as (_ & t' & Ht' & Hf). assert (t' = t) as -> by congruence.
    destruct (write_slot_rel f (entry e) (PSet ts) n index (Some m) s Hp) as [_ W3]. destruct (W3 Hty Hlt) as (ts' & [= <-] & E3). eapply agrees_done; [by rewrite Hq, E, E3|].
    eapply (mirrors_slot c s pages l av rm dm f h' pages' i id n e ts index (Some t) (Some m)); try done. intros y [= <-]. eapply (pack_usable _ _ _ source e' 0); [exact Hl'|]. by rewrite Hts.
Qed.

(** Another number of clones of a root. *)
Lemma mirrors_strong c s pages l av rm dm f h' i id n e p ls' ns' k : mirrors c s pages l av rm dm f → c_leases c !! i = Some id → s_leases s !! i = Some n → leased (roots (c_heap c)) rm id e →
  s_packs s !! n = Some p → pack_rel f (entry e) p → good h' pages l av (<[root_slot id := with_entry (set_strong k) e]> rm) dm → quiet (c_heap c) h' pages pages →
  length ls' = length ns' → (∀ j x m, ls' !! j = Some x → ns' !! j = Some m → ∃ k, c_leases c !! k = Some x ∧ s_leases s !! k = Some m) →
  (∀ x, x ∈ ls' → root_slot x = root_slot id → same_count root_slot x ls' ≤ k) → (∀ x, x ∈ ls' → root_slot x ≠ root_slot id → same_count root_slot x ls' ≤ same_count root_slot x (c_leases c)) →
  simulates (set_leases ls' (with_heap h' c)) (with_leases ns' s).
Proof.
  intros Hm Hi Hn Hl Hps Hp Hg Hq Hlen Hsub Hc1 Hc2. pose proof Hm as [M1 M2 M3 M4 M5 M6 M7]. pose proof Hq as [Q1 Q2 Q3 Q4 Q5 Q6]. destruct Hl as (Hh & He & Hge & Hst).
  exists pages, l, av, (<[root_slot id := with_entry (set_strong k) e]> rm), dm, f.
  split; cbn [c_heap with_heap set_leases c_builders c_layouts c_leases c_locals s_builders s_layouts s_leases s_packs s_locals s_objects with_leases]; rewrite ?Q3, ?Q4; try done.
  - rewrite <- (list_insert_id (s_packs s) n p Hps). eapply leases_update; [exact M5|exact Hi|exact Hn|exact He|done|by destruct p|done|done|done|done].
  - intros Hr. assert (running (c_heap c)) as Hr0 by (unfold running in *; by rewrite Q5 in Hr). specialize (M7 Hr0). eapply (objects_quiet (c_heap c) h' pages pages); [exact M7|exact Hq| |by intros; apply us_local|apply M7].
    intros t (j & e' & [[<- <-]|[Hne He']]%lookup_insert_Some & Hst' & Ht); apply us_root; [by exists (root_slot id), e|by exists j, e'].
Qed.
Lemma perform_clone_root i c s : simulates c s → agrees (perform (CloneRoot i) c) (CloneRoot i) s.
Proof.
  intros Hs. cbn [perform]. destruct (c_leases c !! i) as [id|] eqn:Hi. 2: { unfold agrees, answered. cbn [specify]. by rewrite (leases_none c s i Hs Hi). }
  destruct Hs as (pages & l & av & rm & dm & f & Hm). destruct (lease_related _ _ _ _ _ _ _ _ Hm i id Hi) as (n & e & p & Hn & Hps & Hp & Hl). eapply agrees_done; [cbn [specify]; by rewrite Hn|].
  pose proof (mi_leases _ _ _ _ _ _ _ _ Hm) as M5. pose proof (list_elem_of_lookup_2 _ _ _ Hi) as Hin. pose proof Hl as (_ & He & _). pose proof (le_count _ _ _ _ _ _ M5 id e Hin He) as Hc. pose proof (list.Forall2_length _ _ _ (le_rel _ _ _ _ _ _ M5)) as Hlen.
  eapply (mirrors_strong c s pages l av rm dm f _ i id n e p _ _ (S (strong (entry e)))); [exact Hm|exact Hi|exact Hn|exact Hl|exact Hps|exact Hp|by eapply clone_lease_spec; [apply Hm|]|apply quiet_roots|..]; cbn [c_leases with_heap].
  - rewrite !length_app. cbn. lia.
  - intros j x m Hx Hm'. apply lookup_snoc_Some in Hx as [[? Hx]|[? <-]], Hm' as [[? Hm']|[? <-]]; try lia; eauto.
  - intros x _ Hx. rewrite same_count_app, Hx, decide_True by done. rewrite (same_count_eq _ _ id) by done. lia.
  - intros x _ Hx. rewrite same_count_app, decide_False by congruence. lia.
Qed.
Lemma perform_drop_root i c s : simulates c s → agrees (perform (DropRoot i) c) (DropRoot i) s.
Proof.
  intros Hs. cbn [perform]. destruct (c_leases c !! i) as [id|] eqn:Hi. 2: { unfold agrees, answered. cbn [specify]. by rewrite (leases_none c s i Hs Hi). }
  destruct Hs as (pages & l & av & rm & dm & f & Hm). destruct (lease_related _ _ _ _ _ _ _ _ Hm i id Hi) as (n & e & p & Hn & Hps & Hp & Hl).
  pose proof (mi_leases _ _ _ _ _ _ _ _ Hm) as M5. pose proof (list_elem_of_lookup_2 _ _ _ Hi) as Hin. pose proof Hl as (_ & He & _ & Hst). pose proof (le_count _ _ _ _ _ _ M5 id e Hin He) as Hc. pose proof (list.Forall2_length _ _ _ (le_rel _ _ _ _ _ _ M5)) as Hlen.
  apply (ask_spec (on_roots (drop_lease id)) c (λ _ c, answered Done (set_leases (delete i (c_leases c)) c)) (λ o, agrees o (DropRoot i) s)). eapply drop_root_spec; [apply Hm|exact Hl|]. intros h' Hg Hq.
  eapply agrees_done; [cbn [specify]; by rewrite Hn|].
  eapply (mirrors_strong c s pages l av rm dm f _ i id n e p _ _ (strong (entry e) - 1)); [exact Hm|exact Hi|exact Hn|exact Hl|exact Hps|exact Hp|exact Hg|exact Hq|..]; cbn [c_leases with_heap].
  - rewrite !length_delete by (by eexists). lia.
  - intros j x m Hx Hm'. rewrite lookup_delete_list in Hx. rewrite lookup_delete_list in Hm'. eauto.
  - intros x _ Hx. pose proof (same_count_delete root_slot x (c_leases c) i id Hi) as Hd. rewrite Hx, decide_True in Hd by done. rewrite (same_count_eq _ x id (c_leases c)) in Hd by done. lia.
  - intros x _ Hx. rewrite (same_count_delete root_slot x (c_leases c) i id Hi). lia.
Qed.

(** ** Collection work *)
Lemma usable_nil p rm x : usable p rm [] x ↔ reachable p rm x.
Proof. split; induction 1; [by apply reach_root|by apply elem_of_nil in H|by eapply reach_edge|by apply us_root|by eapply us_edge]. Qed.
Lemma mirrors_retained c s pages l av rm dm f h' pages' l' av' rm' dm' : mirrors c s pages l av rm dm f → c_locals c = [] → good h' pages' l' av' rm' dm' →
  retained (c_heap c) h' rm rm' dm dm' → (running h' → running (c_heap c)) → mirrors (with_heap h' c) s pages' l' av' rm' dm' f.
Proof.
  intros Hm Hloc Hg Hrt Hrun. pose proof Hm as [M1 M2 M3 M4 M5 M6 M7]. pose proof Hrt as [R1 R2 R3 R4 R5 R6 R7]. rewrite Hloc in M6, M7. symmetry in M6. apply nil_length_inv in M6.
  split; cbn [c_heap with_heap c_builders c_layouts c_leases c_locals]; rewrite ?R1, ?R2, ?Hloc, ?M6; try done; [by eapply layouts_same|by eapply leases_same|].
  intros Hr. specialize (M7 (Hrun Hr)). rewrite M6 in M7. eapply (objects_keep (c_heap c)); [exact M7|..|constructor].
  - intros x. rewrite !usable_nil. apply (retained_reachable _ _ _ _ _ _ _ Hrt).
  - intros x. rewrite usable_nil. apply R3.
  - intros x hd e Hx Hhd He. apply usable_nil in Hx. destruct (R3 x Hx) as [E _]. rewrite Hhd in E. destruct Hg as [[Hb _] _]. destruct (rg_headers _ _ _ (ba_registry _ _ _ _ _ _ _ Hb) x hd E) as [e' He'].
    exists e'. split; [done|]. destruct (sd_back _ _ R7 _ _ He') as (e0 & He0 & Hd & _). congruence.
Qed.
Lemma perform_step n c s : (0 <= n <= u64_max)%Z → simulates c s → agrees (perform (Step n) c) (Step n) s.
Proof.
  intros Hn Hs. cbn [perform]. assert (c_locals c = [] ↔ s_locals s = []) as Hloc.
  { destruct Hs as (pages & l & av & rm & dm & f & Hm). pose proof (mi_locals _ _ _ _ _ _ _ _ Hm). split; intros E; rewrite E in *; [by apply nil_length_inv|by apply nil_length_inv]. }
  case_bool_decide as Hl. 2: { unfold agrees, answered. cbn [specify]. rewrite bool_decide_eq_false_2; [done|]. by rewrite <- Hloc. }
  apply ask_agrees; [done|blocked|]. intros pages l av rm dm f Hm Hr. eapply step_spec; [apply Hm|exact Hr|exact Hn|..].
  - intros e h' (He & Hor & pages' & l' & av' & rm' & dm' & Hsh & Hrt). apply agrees_refused; [by left|]. destruct Hor as [->|Hf]; [by rewrite with_heap_id|].
    exists pages', l', av', rm', dm', f. eapply mirrors_retained; [exact Hm|done| |exact Hrt|]; [|by intros [? _]]. split; [done|]. unfold tri. by rewrite Hf.
  - intros report h' pages' l' av' rm' dm' [G R T X L] _. eapply agrees_done; [cbn [specify]; by rewrite bool_decide_eq_true_2 by (by apply Hloc)|]. exists pages', l', av', rm', dm', f. by eapply mirrors_retained.
Qed.
Lemma perform_trim c s : simulates c s → agrees (perform Trim c) Trim s.
Proof.
  intros Hs. cbn [perform]. assert (c_locals c = [] ↔ s_locals s = []) as Hloc.
  { destruct Hs as (pages & l & av & rm & dm & f & Hm). pose proof (mi_locals _ _ _ _ _ _ _ _ Hm). split; intros E; rewrite E in *; [by apply nil_length_inv|by apply nil_length_inv]. }
  case_bool_decide as Hl. 2: { unfold agrees, answered. cbn [specify]. rewrite bool_decide_eq_false_2; [done|]. by rewrite <- Hloc. }
  apply ask_agrees; [done|blocked|]. intros pages l av rm dm f Hm Hr. assert (specify Trim s = (Ok Done, s)) as Hq by (cbn [specify]; by rewrite bool_decide_eq_true_2 by (by apply Hloc)).
  destruct (decide (phase (marking (c_heap c)) = Idle)) as [Hi|Hi].
  - eapply trim_metadata_spec; [apply Hm|exact Hi|]. intros h' Hg Hi' E1 E2 E3 E4. eapply agrees_done; [exact Hq|]. exists pages, l, av, rm, dm, f. eapply mirrors_quiet; [exact Hm|exact Hg|]. split; try congruence.
    intros x [Hx _]. unfold held, present. rewrite E1, Hi'. by split.
  - unfold trim_metadata. apply wp_bind, check_spec; [done|]. apply wp_bind, wp_read. rewrite bool_decide_eq_false_2 by done. apply wp_ret. eapply agrees_done; [exact Hq|]. by rewrite with_heap_id.
Qed.
Lemma perform_end_scope c s : simulates c s → agrees (perform EndScope c) EndScope s.
Proof.
  intros (pages & l & av & rm & dm & f & Hm). unfold agrees. cbn [specify perform answered]. split; [done|]. pose proof Hm as [M1 M2 M3 M4 M5 M6 M7]. exists pages, l, av, rm, dm, f. split; try done.
  intros Hr. specialize (M7 Hr). eapply (objects_quiet (c_heap c) (c_heap c) pages pages); [exact M7|by split|by intros; apply us_root|by intros x ?%elem_of_nil|constructor].
Qed.

(** ** Whole scripts *)
(** Allowances are [usize]. *)
Definition request_ok (q : Request) : Prop := match q with Step n => (0 <= n <= u64_max)%Z | _ => True end.
Lemma perform_agrees q c s : request_ok q → simulates c s → agrees (perform q c) q s.
Proof.
  intros Hq Hs. destruct q; [by apply perform_register|by apply perform_clone_layout|by apply perform_drop_layout|by apply perform_alloc|by apply perform_get_scalar|by apply perform_set_scalar
    |by apply perform_get_reference|by apply perform_set_reference|by apply perform_retain|by apply perform_admit|by apply perform_create_roots|by apply perform_get_root|by apply perform_set_root
    |by apply perform_replace_root|by apply perform_clear_root|by apply perform_root_at|by apply perform_clone_root|by apply perform_drop_root|by apply perform_end_scope|by apply perform_step|by apply perform_trim].
Qed.
Lemma simulates_faithful script c s : Forall request_ok script → simulates c s → faithful script c s.
Proof.
  intros Hok. revert c s. induction Hok as [|q script Hq _ IH]; intros c s Hs; [done|]. cbn [faithful]. pose proof (perform_agrees q c s Hq Hs) as Ha. unfold agrees in Ha.
  destruct (perform q c) as [[x|e] c'], (specify q s) as [[y|e'] s']; naive_solver.
Qed.
Lemma client_new_simulates id c h : heap_new id c = Some h → (0 <= max_indirect_bytes c)%Z → (max_objects c <= u64_max)%Z → simulates (client_new h) store_new.
Proof.
  intros Hh Hi Hmax. destruct (heap_new_good id c h Hh Hi) as [Hg _]. assert (config h = c) as Hc. { unfold heap_new in Hh. destruct (pacing_new _); [|done]. cbn in Hh. by injection Hh as <-. }
  exists ∅, [], (λ _, []), ∅, ∅, ∅. split; cbn [c_heap client_new c_builders c_layouts c_leases c_locals store_new s_builders s_layouts s_leases s_packs s_locals s_objects]; try done.
  - by rewrite Hc.
  - intros _. split; [constructor|..].
    + intros x Hx. exfalso. induction Hx as [t (j & e & He & _)|t Ht%elem_of_nil|x t _ IH _]; [by rewrite lookup_empty in He|done|done].
    + intros x y n Hx. exfalso. induction Hx as [t (j & e & He & _)|t Ht%elem_of_nil|x t _ IH _]; [by rewrite lookup_empty in He|done|done].
Qed.

(** C31: the managed heap refines a store without a collector.  Take a new heap and any
    script of client requests: registering, cloning and dropping layouts, allocating
    records, reading and writing their scalar and reference fields, retaining, admitting,
    cloning and dropping roots and root packs, closing scopes, and budgeted collection
    steps and metadata trimming in between.  Every request answers what the store
    answers, in which objects are never freed or moved and fields are named by their
    declared positions: the same bits, the same nulls, the same handles, the same errors;
    or it is refused with a limit (or because an earlier limit quarantined the heap) and
    has no effect the client can see.  In particular no request ever panics, reads
    storage whose object is gone, confuses two live objects, or loses a field. *)
Theorem client_refines_store id c h script : heap_new id c = Some h → (0 <= max_indirect_bytes c)%Z → (max_objects c <= u64_max)%Z → Forall request_ok script →
  faithful script (client_new h) store_new.
Proof. intros Hh Hi Hmax Hok. apply simulates_faithful; [done|]. by eapply client_new_simulates. Qed.

(** The record of two fields, a list of two of them, a collection that must keep both and a record nobody holds. *)
Definition sample_script : list Request :=
  [Register [FI64; FReference]; Alloc 0; Alloc 0; SetScalar 0 (0, 0) 1 100; SetReference 0 (0, 1) 0 (Some 1); Retain 0; EndScope; Step 64; Admit 0; GetReference 0 (0, 1) 0; Alloc 0;
   GetScalar 0 (0, 0) 1; GetScalar 0 (0, 0) 2; EndScope; Step 64; Step 64; Step 100; Trim; Admit 0; GetReference 0 (0, 1) 0; GetScalar 0 (0, 0) 1; CreateRoots 3; SetRoot 1 2 (Some 0); GetRoot 1 0;
   DropRoot 0; EndScope; Step 1000].
Lemma client_refines_store_witness : faithful sample_script (client_new sample_heap) store_new ∧ fst (perform (Alloc 0) (snd (perform (Register [FI64]) (client_new sample_heap)))) = Ok Handle.
Proof.
  split; [|by vm_compute]. apply (client_refines_store 1 sample_config sample_heap sample_script); [done|done|by vm_compute|].
  repeat constructor; cbn; by vm_compute.
Defined.
